(* ===== verification/_CoqProject ===== *)
-Q . S2P
Prelude.v
StateMonad.v
Numeric.v
Exchange.v
BaseN.v
StrKey.v
LedgerEntries.v
GeneralizedEntries.v
Accounts.v
OfferOrder.v
LedgerTxn.v
LedgerTxnProps.v
LedgerTxnSpec.v
LedgerTxnSteps.v
QuorumSet.v
QuorumSetProps.v
QuorumTracker.v
QuorumTrackerProps.v
BitSet.v
QuorumIntersection.v
QuorumEnumeration.v
Tarjan.v
QuorumIntersectionProps.v
Bucket.v
BucketMerge.v
BucketList.v
BucketLevels.v
BucketFresh.v
BucketListProps.v
BucketEquiv.v
BucketApply.v
LedgerTxnRoot.v
LedgerTxnRootProps.v
LedgerTxnRefine.v
LedgerClient.v
Sponsorship.v
TrustLines.v
OfferCrossing.v
PrepareLiabilities.v
OperationTypes.v
SignatureChecker.v
SignatureProps.v
OperationBase.v
PaymentOps.v
AccountOps.v
OfferOps.v
SponsorshipOps.v
Operations.v
Transactions.v
CatchupProps.v
Upgrades.v
LedgerManager.v
ClientProps.v
OfferTermination.v
ClientLogic.v
Lumens.v
SponsorshipProps.v
LumenMoves.v
CalmOps.v
PrepareLiabilitiesProps.v
PaymentMoves.v
TransactionMoves.v
TransactionProps.v
LedgerManagerProps.v
Conservation.v
ScpTypes.v
Ballot.v
Nomination.v
NominationOrder.v
Leaders.v
NominationFrame.v
BallotOrder.v
BallotSpec.v
BallotVote.v
BallotRefine.v
NominationRefine.v
SlotProps.v
Scp.v
Agreement.v
NetworkCheck.v
