(* ===== verification/Prelude.v ===== *)
(** * Diamante core: a verification development

    The program is the node software of the Diamante network.  Nodes agree on the
    next ledger by the SCP consensus protocol, apply the transactions they agreed
    on to a database, and keep the state of the ledger as a list of hashed buckets
    from which other nodes catch up.  This library models its deterministic core:
    the source is under [src/src], file names below are relative to it.

    ** How the code is translated

    - A function that can throw, assert or dereference a null pointer returns
      [res A] ([Prelude]); a method that changes an object is a computation
      [M S A] on the state of the object ([StateMonad]).  Integers are [Z] with
      the width of their type written out ([u32], [u64], [i32], [is_u64], ...);
      byte strings and keys are lists of [Z]; [std::map] and hash maps are finite
      maps, or association lists where the order of iteration shows.
    - Loops and recursions that are not structural take fuel.  [OutOfFuel] is not
      an outcome of the source.  The bounds, and why they are enough:
      50 levels of [advanceSlot] (the limit of the source) times the bump loop,
      whose candidates are finitely many, and three nested self-processed
      statements ([SlotProps.runOp_returns]); as many passes as nodes for
      [isQuorum], whose passes but the last remove a node; |old| + |new| rounds for a merge and
      the length of a bucket for applying it; 66 for [sizeOf], which recurs once
      per level and twice at most; the size of the order book plus one for best
      offers and the size of the database plus one for batches of offers; the
      number of nodes for the search for components, which enters a node once, and
      the size of the set plus one for quorum contraction and enumeration, whose
      rounds and branches each remove a node; one more than the offers that may be
      crossed for converting ([OfferTermination]); one plus the number of nodes named by
      the known quorum sets for rebuilding the transitive quorum.  Each of these is
      part of a theorem that the code returns.  The one exception is the search for
      round leaders, whose end depends on a hash function: see [Leaders].
    - What is not under [src/] is a parameter: SHA-256 ([sha256], injective where a
      theorem says so), the driver of SCP ([SCPDriver], with the documented
      behaviour of its callbacks as classes), the bucket files ([files]), XDR
      decoding of upgrades, random choices, the hashes that are signed.  For the
      ledger manager a transaction is what [TransactionFrameBase] offers: a client
      of the ledger; those of [Transactions] are such clients.

    ** The parts, and the files that model them

    - Arithmetic: [Numeric] ([util/numeric.cpp], [util/types.cpp]) and [Exchange]
      ([transactions/OfferExchange.cpp]).  The checked divisions return the exact
      rounded quotient or throw exactly when it does not fit; exchanging two offers
      never throws, respects both sides' limits and favours the offer that stays.
    - Keys as text: [BaseN], [StrKey] ([crypto/StrKey.cpp], [lib/util/basen.h],
      [lib/util/crc16.cpp]).  Keys are read back; one wrong character is refused;
      which texts are read as a key exactly.
    - Quorum sets: [QuorumSet], [QuorumSetProps] ([scp/LocalNode.cpp],
      [scp/QuorumSetUtils.cpp]): slices, v-blocking sets and their duality,
      quorums as greatest fixed points, sanity and normalisation.
    - SCP: [ScpTypes], [Ballot], [Nomination], [Scp] model [scp/Slot.cpp],
      [scp/BallotProtocol.cpp], [scp/NominationProtocol.cpp] and [scp/SCP.cpp]
      method by method.  [BallotSpec] is the protocol as a transition system;
      [BallotRefine], [NominationRefine] and [SlotProps] run the methods
      symbolically and show that they refine it, terminate and keep their
      invariants; [BallotOrder], [BallotVote], [NominationOrder],
      [NominationFrame] and [Leaders] hold the theory of their parts.
      [Scp.scp_slots_reachable]: the slots of a node are independent.  [Agreement]
      puts the nodes of a network together: no two well-behaved nodes externalize
      different values.
    - Quorum intersection: [QuorumTracker] ([herder/QuorumTracker.cpp]), [BitSet]
      ([util/BitSet.h], [lib/util/cbitset.c]) and [QuorumIntersection]
      ([herder/QuorumIntersectionCheckerImpl.cpp]).  [QuorumTrackerProps]: the
      transitive quorum is the nodes within reach, with shortest distances.
      [Tarjan], [QuorumEnumeration] and [QuorumIntersectionProps]: the checker
      answers, and its answer is right; the proofs are against the interface
      [BitSetLaws], which [BitSet] implements for at most 64 nodes.
      [NetworkCheck] discharges with it the assumption of [Agreement].
    - Nested ledger transactions: [LedgerEntries], [GeneralizedEntries],
      [OfferOrder], [LedgerTxn], [LedgerTxnRoot] ([ledger/LedgerTxn.cpp] and its
      neighbours).  [LedgerTxnSpec] is the promise, a stack of finite maps;
      [LedgerTxnProps], [LedgerTxnSteps], [LedgerTxnRootProps] and
      [LedgerTxnRefine] show that no client can tell the entry maps, order books,
      caches and batched writes from it.
    - Buckets: [Bucket], [BucketMerge], [BucketFresh], [BucketList],
      [BucketLevels], [BucketListProps], [BucketEquiv], [BucketApply]
      ([bucket/Bucket.cpp], [bucket/BucketList.cpp], [bucket/FutureBucket.cpp],
      [bucket/BucketApplicator.cpp], [catchup/ApplyBucketsWork.cpp]).  Merging
      is the sequence of the updates; each bucket takes the ledger over the
      ledgers it is said to hold; the sizes partition the ledgers.
      [CatchupProps]: a node that catches up from what another one published stays
      in step with it.
    - Closing ledgers: [Upgrades], [PrepareLiabilities], [LedgerManager]
      ([herder/Upgrades.cpp], [ledger/LedgerManagerImpl.cpp]), with [ClientProps]
      and [LedgerManagerProps]: database and bucket list stay in step over any
      history of externalized values, the headers form a chain, and the saved
      state is enough to rebuild the database.
    - Protocol versions: the definitions follow every version of the protocol.
      The theorems about the bucket list, catchup, closing ledgers and lumens are
      for protocol 12 and later: networks that start there, and nodes that catch up
      with buckets of such protocols.  Before, merges use shadows, and a network
      that goes from protocol 10 or earlier straight to 12 or later does not keep
      the promise: [CatchupProps.direct_upgrade_resurrects].
    - Accounts, trust lines and sponsorship: [Accounts], [TrustLines],
      [Sponsorship] ([transactions/TransactionUtils.cpp],
      [ledger/TrustLineWrapper.cpp], [transactions/SponsorshipUtils.cpp]), with
      the idioms of code that works on the ledger in [LedgerClient].
    - Offers on the ledger: [OfferCrossing] ([transactions/OfferExchange.cpp]);
      [OfferTermination] shows that converting with the book ends.
    - Signatures: [SignatureChecker] ([transactions/SignatureChecker.cpp]);
      [SignatureProps] says whose signatures are found sufficient.
    - Operations: [OperationTypes], [OperationBase], [PaymentOps], [AccountOps],
      [OfferOps], [SponsorshipOps] and [Operations] hold one Module for each of
      the operation frames in [transactions/], with its check and application.
    - Transactions: [Transactions] ([transactions/TransactionFrame.cpp],
      [transactions/FeeBumpTransactionFrame.cpp]).  [TransactionProps]: a failed
      transaction leaves nothing behind.  [Lumens] counts the lumens of a ledger,
      [ClientLogic] is a logic of clients, and [LumenMoves], [CalmOps],
      [SponsorshipProps], [PaymentMoves], [TransactionMoves] and
      [PrepareLiabilitiesProps] say what each client does to the count;
      [Conservation] puts them together: no lumens are made or lost.

    ** How the parts meet

    SCP externalizes a value; [LedgerManager] closes the ledger for it through a
    [LedgerTxn], whose changes go to the bucket list and, on commit, to the
    database.  [Client]s of [LedgerTxnRefine] are the interface between the ledger
    and the code that uses it; [AbstractLedgerTxnParent], [SCPDriver], [Network],
    [BitSetImpl] and [BitSetLaws] are the other interfaces against which clients
    are verified.

    ** Not modelled

    - The herder's transaction queue and sets, pending envelopes and timers.
    - The overlay network, history archives, processes, the command line and the
      SQL statements: input and output through asio, SOCI and the file system;
      with them the table of headers and loading a saved ledger at startup.
    - Ledger invariants ([invariant/]), which only check and report: their verdict
      on an operation is a parameter of [Transactions].
    - The cache of single entries of [LedgerTxnRoot], prefetching and the query for
      inflation winners.
    - Cryptographic primitives, wrappers of libsodium.
    - Logging, metrics, JSON output and the flag that interrupts the quorum
      intersection checker, which change no state that is modelled. *)

From stdpp Require Export base tactics list numbers option strings gmap.
From Stdlib Require Export ZArith Lia Sorting.Sorted.

#[global] Open Scope Z_scope.

(** Comparisons stay folded under [simpl]. *)
#[global] Arguments Z.leb : simpl never.
#[global] Arguments Z.ltb : simpl never.
#[global] Arguments Z.eqb : simpl never.
#[global] Arguments Z.div : simpl never.
#[global] Arguments Z.modulo : simpl never.

(** ** Exceptions and failing computations

    A C++ function that can throw, [assert], [abort] or dereference a null
    pointer is translated to a function returning [res A]: [Ok a] is a normal
    return, [Throw e] says how the call failed. *)

Inductive exn : Type :=
| AssertFailure                       (* assert, dbgAssert, dbgAbort, abort *)
| OverflowError                       (* std::overflow_error *)
| RuntimeError (what : string)        (* std::runtime_error *)
| NullDereference                     (* undefined behaviour in the source *)
| OutOfFuel                           (* not an outcome of the source: see the header *)
| InvalidArgument (what : string)     (* std::invalid_argument *)
| WrongUnion                          (* xdr::xdr_wrong_union *)
| OutOfRange                          (* std::out_of_range *)
| BadRealloc.                         (* undefined behaviour in the source *)

(** What a handler of [std::exception] catches. *)
Definition std_exception (e : exn) : bool :=
  match e with
  | OverflowError | RuntimeError _ | InvalidArgument _ | WrongUnion | OutOfRange => true
  | AssertFailure | NullDereference | OutOfFuel | BadRealloc => false
  end.

Inductive res (A : Type) : Type :=
| Ok (a : A)
| Throw (e : exn).
Arguments Ok {A} a.
Arguments Throw {A} e.

#[export] Instance res_ret : MRet res := @Ok.
#[export] Instance res_bind : MBind res :=
  fun A B f m => match m with Ok a => f a | Throw e => Throw e end.
#[export] Instance res_fmap : FMap res :=
  fun A B f m => match m with Ok a => Ok (f a) | Throw e => Throw e end.

(** [assert(b)]: nothing happens when [b] holds, the process stops otherwise. *)
Definition cassert (b : bool) : res unit :=
  if b then Ok tt else Throw AssertFailure.

(** Dereferencing a pointer that may be null. *)
Definition deref {A} (o : option A) : res A :=
  match o with Some a => Ok a | None => Throw NullDereference end.

#[export] Instance exn_eq_dec : EqDecision exn.
Proof. solve_decision. Defined.

#[export] Instance res_eq_dec {A} `{EqDecision A} : EqDecision (res A).
Proof. solve_decision. Defined.

Section res_laws.
Context {A B C : Type}.

Lemma res_bind_Ok (m : res A) (f : A → res B) b :
  m ≫= f = Ok b ↔ ∃ a, m = Ok a ∧ f a = Ok b.
Proof. destruct m; simpl; split; intros; destruct_and?; naive_solver. Qed.

Lemma res_bind_Throw (m : res A) (f : A → res B) e :
  m ≫= f = Throw e ↔ m = Throw e ∨ ∃ a, m = Ok a ∧ f a = Throw e.
Proof. destruct m; simpl; split; intros; destruct_and?; naive_solver. Qed.

Lemma res_bind_assoc (m : res A) (f : A → res B) (g : B → res C) :
  (m ≫= f) ≫= g = m ≫= (λ a, f a ≫= g).
Proof. by destruct m. Qed.
End res_laws.

Lemma cassert_true b : b = true → cassert b = Ok tt.
Proof. by intros ->. Qed.

Lemma cassert_Ok b u : cassert b = Ok u ↔ b = true.
Proof. destruct b, u; naive_solver. Qed.

Lemma deref_Ok {A} (o : option A) a : deref o = Ok a ↔ o = Some a.
Proof. destruct o; naive_solver. Qed.

(** [res_simpl] splits the hypotheses saying that a sequence of fallible steps
    returned normally into one hypothesis per step. *)
Ltac res_simpl :=
  repeat match goal with
  | H : _ ≫= _ = Ok _ |- _ => apply res_bind_Ok in H; destruct H as (? & ? & H)
  | H : mbind _ _ = Ok _ |- _ => apply res_bind_Ok in H; destruct H as (? & ? & H)
  | H : cassert _ = Ok _ |- _ => apply cassert_Ok in H
  | H : deref _ = Ok _ |- _ => apply deref_Ok in H
  | H : mret _ = Ok _ |- _ => injection H as H
  | H : Ok _ = Ok _ |- _ => injection H as H
  | H : Ok _ = Throw _ |- _ => discriminate H
  | H : Throw _ = Ok _ |- _ => discriminate H
  end; simplify_eq/=.

(** ** Machine integers

    A [w]-bit integer is a [Z]; the predicates below say that it is in range,
    and the functions wrap a mathematical integer to a width. *)

Definition UINT32_MAX : Z := 4294967295.
Definition INT32_MAX : Z := 2147483647.
Definition UINT64_MAX : Z := 18446744073709551615.
Definition INT64_MAX : Z := 9223372036854775807.
Definition INT64_MIN : Z := -9223372036854775808.
Definition UINT128_MAX : Z := 340282366920938463463374607431768211455.

Definition u32 (x : Z) : Z := x mod 4294967296.
Definition u64 (x : Z) : Z := x mod 18446744073709551616.
Definition u128 (x : Z) : Z := x mod 340282366920938463463374607431768211456.

Definition is_u32 (x : Z) : Prop := 0 ≤ x ≤ UINT32_MAX.
Definition is_u64 (x : Z) : Prop := 0 ≤ x ≤ UINT64_MAX.
Definition is_u128 (x : Z) : Prop := 0 ≤ x ≤ UINT128_MAX.
Definition is_i64 (x : Z) : Prop := INT64_MIN ≤ x ≤ INT64_MAX.
(** A non-negative [int64_t]: balances, amounts and limits. *)
Definition amount64 (x : Z) : Prop := 0 ≤ x ≤ INT64_MAX.

(** [widths] exposes the numeric bounds to [lia]. *)
Ltac widths :=
  unfold is_u32, is_u64, is_u128, is_i64, amount64, UINT32_MAX, INT32_MAX,
    UINT64_MAX, INT64_MAX, INT64_MIN, UINT128_MAX in *.

Lemma u32_id x : is_u32 x → u32 x = x.
Proof. widths. unfold u32. intros. apply Z.mod_small. lia. Qed.
Lemma u64_id x : is_u64 x → u64 x = x.
Proof. widths. unfold u64. intros. apply Z.mod_small. lia. Qed.
Lemma u128_id x : is_u128 x → u128 x = x.
Proof. widths. unfold u128. intros. apply Z.mod_small. lia. Qed.

Lemma u128_pred x : u128 (u128 x - 1) = u128 (x - 1).
Proof. unfold u128. by rewrite Zminus_mod_idemp_l. Qed.

Lemma u32_range x : is_u32 (u32 x).
Proof. widths. unfold u32. pose proof (Z.mod_pos_bound x 4294967296). lia. Qed.
Lemma u64_range x : is_u64 (u64 x).
Proof. widths. unfold u64. pose proof (Z.mod_pos_bound x 18446744073709551616). lia. Qed.
Lemma u128_range x : is_u128 (u128 x).
Proof.
  widths. unfold u128.
  pose proof (Z.mod_pos_bound x 340282366920938463463374607431768211456). lia.
Qed.

Create HintDb widths.
Create Rewrite HintDb widths.
#[export] Hint Resolve u32_range u64_range u128_range : widths.
#[export] Hint Rewrite u32_id u64_id u128_id using (widths; nia) : widths.

(** ** Rounding division *)

(** [⌈a / b⌉] for [0 < b]. *)
Definition Zceil_div (a b : Z) : Z := (a + b - 1) / b.

Lemma Zfloor_bounds a b : 0 < b → b * (a / b) ≤ a < b * (a / b) + b.
Proof. intros. pose proof (Z.div_mod a b). pose proof (Z.mod_pos_bound a b). lia. Qed.

Lemma Zceil_bounds a b : 0 < b → a ≤ b * Zceil_div a b < a + b.
Proof. intros. pose proof (Zfloor_bounds (a + b - 1) b). unfold Zceil_div. lia. Qed.

Lemma Zfloor_nonneg a b : 0 ≤ a → 0 < b → 0 ≤ a / b.
Proof. intros. by apply Z.div_pos. Qed.

Lemma Zceil_nonneg a b : 0 ≤ a → 0 < b → 0 ≤ Zceil_div a b.
Proof. intros. pose proof (Zceil_bounds a b). nia. Qed.

(** Characterisations: the floor is the largest, the ceiling the smallest. *)
Lemma Zfloor_le_iff a b q : 0 < b → q ≤ a / b ↔ b * q ≤ a.
Proof. intros. pose proof (Zfloor_bounds a b). split; intros; nia. Qed.

Lemma Zceil_le_iff a b q : 0 < b → Zceil_div a b ≤ q ↔ a ≤ b * q.
Proof. intros. pose proof (Zceil_bounds a b). split; intros; nia. Qed.

Lemma Zceil_mul a b : 0 < b → Zceil_div (a * b) b = a.
Proof. intros. pose proof (Zceil_bounds (a * b) b). nia. Qed.

#[export] Hint Resolve Zfloor_nonneg Zceil_nonneg : widths.

(** [name_floor a b as q] and [name_ceil a b as q] replace a rounded quotient
    of non-negative integers by a variable with its defining bounds. *)
Tactic Notation "name_floor" constr(a) constr(b) "as" ident(q) :=
  pose proof (Zfloor_bounds a b ltac:(lia));
  assert (0 ≤ a / b) by (apply Zfloor_nonneg; nia);
  set (q := a / b) in *; clearbody q.

Tactic Notation "name_ceil" constr(a) constr(b) "as" ident(q) :=
  pose proof (Zceil_bounds a b ltac:(lia));
  assert (0 ≤ Zceil_div a b) by (apply Zceil_nonneg; nia);
  set (q := Zceil_div a b) in *; clearbody q.

Definition i32 (x : Z) : Z := (x + 2147483648) mod 4294967296 - 2147483648.

Lemma i32_id x : -2147483648 ≤ x ≤ 2147483647 → i32 x = x.
Proof. intros. unfold i32. rewrite Z.mod_small; lia. Qed.

(** [int64_t] arithmetic, where it may overflow. *)
Definition i64 (x : Z) : Z := (x + 9223372036854775808) mod 18446744073709551616 - 9223372036854775808.

Lemma i64_id x : is_i64 x → i64 x = x.
Proof. unfold is_i64, INT64_MIN, INT64_MAX, i64. intros. rewrite Z.mod_small; lia. Qed.

(** ** Ordered keys

    The interface that [std::set], [std::map] and [std::sort] need of a key
    type: a three-way comparison that is a total order. *)

Class TotalOrd (A : Type) := {
  cmp : A → A → comparison;
  cmp_eq : ∀ a b, cmp a b = Eq ↔ a = b;
  cmp_opp : ∀ a b, cmp b a = CompOpp (cmp a b);
  cmp_trans : ∀ a b c, cmp a b = Lt → cmp b c = Lt → cmp a c = Lt
}.

#[export] Program Instance Z_TotalOrd : TotalOrd Z := {| cmp := Z.compare |}.
Next Obligation. apply Z.compare_eq_iff. Qed.
Next Obligation. apply Z.compare_antisym. Qed.
Next Obligation. intros a b c. rewrite !Z.compare_lt_iff. lia. Qed.

(** [std::sort] with a strict order, as insertion sort. *)
Fixpoint sort_insert {A} (lt : A → A → bool) (x : A) (l : list A) : list A :=
  match l with
  | [] => [x]
  | y :: l' => if lt y x then y :: sort_insert lt x l' else x :: l
  end.

Definition std_sort {A} (lt : A → A → bool) (l : list A) : list A :=
  foldr (sort_insert lt) [] l.

Section ord.
Context {A : Type} `{TotalOrd A}.

Definition ltb (a b : A) : bool :=
  match cmp a b with Lt => true | _ => false end.

Lemma cmp_refl a : cmp a a = Eq.
Proof. by apply cmp_eq. Qed.

Lemma ltb_lt a b : ltb a b = true ↔ cmp a b = Lt.
Proof. unfold ltb. destruct (cmp a b); naive_solver. Qed.

Lemma ltb_irrefl a : ltb a a = false.
Proof. unfold ltb. by rewrite cmp_refl. Qed.

Lemma cmp_gt_lt a b : cmp a b = Gt ↔ cmp b a = Lt.
Proof. rewrite (cmp_opp a b). destruct (cmp a b); naive_solver. Qed.

(** Insertion in a strictly increasing list: [std::set::insert]. *)
Fixpoint set_insert (x : A) (l : list A) : list A :=
  match l with
  | [] => [x]
  | y :: l' =>
      match cmp x y with
      | Lt => x :: l
      | Eq => l
      | Gt => y :: set_insert x l'
      end
  end.

Lemma elem_of_set_insert x y l : y ∈ set_insert x l ↔ y = x ∨ y ∈ l.
Proof.
  induction l as [|z l IH]; simpl; [set_solver|].
  destruct (cmp x z) eqn:E; [apply cmp_eq in E as ->| |]; set_solver.
Qed.

Definition increasing (l : list A) : Prop := StronglySorted (λ a b, cmp a b = Lt) l.

Lemma set_insert_increasing x l : increasing l → increasing (set_insert x l).
Proof.
  unfold increasing. induction 1 as [|y l Hl IH Hy]; simpl; [repeat constructor|].
  destruct (cmp x y) eqn:E.
  - by constructor.
  - constructor; [by constructor|]. constructor; [done|].
    eapply Forall_impl; [exact Hy|]. eauto using cmp_trans.
  - apply cmp_gt_lt in E. constructor; [done|].
    apply Forall_forall. intros z. rewrite elem_of_set_insert.
    intros [->|Hz]; [done|]. by eapply Forall_forall in Hy.
Qed.
End ord.

(** Lexicographic order of byte strings and vectors ([xdr::opaque_vec] and
    [std::vector] comparison). *)
Fixpoint lex_cmp {A} `{TotalOrd A} (a b : list A) : comparison :=
  match a, b with
  | [], [] => Eq
  | [], _ :: _ => Lt
  | _ :: _, [] => Gt
  | x :: a', y :: b' =>
      match cmp x y with Eq => lex_cmp a' b' | c => c end
  end.

#[export] Program Instance list_TotalOrd {A} `{TotalOrd A} : TotalOrd (list A) :=
  {| cmp := lex_cmp |}.
Next Obligation.
  intros A ? a. induction a as [|x a IH]; intros [|y b]; simpl; try done.
  destruct (cmp x y) eqn:E; [apply cmp_eq in E as ->; rewrite IH; naive_solver| |].
  all: split; [done|]; intros [=-> ->]; by rewrite cmp_refl in E.
Qed.
Next Obligation.
  intros A ? a. induction a as [|x a IH]; intros [|y b]; simpl; try done.
  rewrite (cmp_opp x y). destruct (cmp x y); simpl; auto.
Qed.
Next Obligation.
  intros A ? a. induction a as [|x a IH]; intros [|y b] [|z c]; simpl; try done.
  destruct (cmp x y) eqn:E1, (cmp y z) eqn:E2; try done; intros;
    rewrite ?cmp_eq in *; subst; rewrite ?E1, ?E2, ?cmp_refl; eauto.
  by rewrite (cmp_trans _ _ _ E1 E2).
Qed.

(** Null is the least pointer value. *)
#[export] Program Instance option_TotalOrd {A} `{TotalOrd A} : TotalOrd (option A) :=
  {| cmp a b := match a, b with
                | None, None => Eq
                | None, Some _ => Lt
                | Some _, None => Gt
                | Some x, Some y => cmp x y
                end |}.
Next Obligation. intros A ? [x|] [y|]; rewrite ?cmp_eq; naive_solver. Qed.
Next Obligation. intros A ? [x|] [y|]; [apply cmp_opp|done..]. Qed.
Next Obligation. intros A ? [x|] [y|] [z|]; try done. apply cmp_trans. Qed.

Definition prod_cmp {A B} `{TotalOrd A} `{TotalOrd B} (a b : A * B) : comparison :=
  match cmp a.1 b.1 with Eq => cmp a.2 b.2 | c => c end.
#[global] Arguments prod_cmp {_ _ _ _} a b /.

#[export] Program Instance prod_TotalOrd {A B} `{TotalOrd A} `{TotalOrd B} :
  TotalOrd (A * B) := {| cmp := prod_cmp |}.
Next Obligation.
  intros A B ? ? [a1 a2] [b1 b2]; simpl.
  destruct (cmp a1 b1) eqn:E.
  - apply cmp_eq in E as ->. rewrite cmp_eq. naive_solver.
  - split; [done|]. intros [= -> ->]. by rewrite cmp_refl in E.
  - split; [done|]. intros [= -> ->]. by rewrite cmp_refl in E.
Qed.
Next Obligation.
  intros A B ? ? [a1 a2] [b1 b2]; simpl. rewrite (cmp_opp a1 b1), (cmp_opp a2 b2).
  by destruct (cmp a1 b1).
Qed.
Next Obligation.
  intros A B ? ? [a1 a2] [b1 b2] [c1 c2]; simpl.
  destruct (cmp a1 b1) eqn:E1, (cmp b1 c1) eqn:E2; try done; intros;
    rewrite ?cmp_eq in *; subst; rewrite ?E1, ?E2, ?cmp_refl; eauto using cmp_trans.
  by rewrite (cmp_trans _ _ _ E1 E2).
Qed.

(** ** Counting *)

Definition ctrue (l : list bool) : Z := Z.of_nat (length (filter (λ b, b = true) l)).

Lemma ctrue_nil : ctrue [] = 0.
Proof. done. Qed.

Lemma ctrue_cons b l : ctrue (b :: l) = (if b then 1 else 0) + ctrue l.
Proof. unfold ctrue. rewrite filter_cons. destruct b; simpl; lia. Qed.

Lemma ctrue_app l1 l2 : ctrue (l1 ++ l2) = ctrue l1 + ctrue l2.
Proof. unfold ctrue. rewrite filter_app, length_app. lia. Qed.

Lemma ctrue_bounds l : 0 ≤ ctrue l ≤ Z.of_nat (length l).
Proof. induction l; rewrite ?ctrue_nil, ?ctrue_cons; simpl; [lia|]. destruct a; lia. Qed.

Lemma ctrue_perm l1 l2 : l1 ≡ₚ l2 → ctrue l1 = ctrue l2.
Proof. intros Hp. unfold ctrue. by rewrite Hp. Qed.

Lemma ctrue_map_mono {A} (f g : A → bool) l :
  (∀ x, x ∈ l → f x = true → g x = true) → ctrue (map f l) ≤ ctrue (map g l).
Proof.
  induction l as [|x l IH]; intros Hfg; simpl; rewrite ?ctrue_cons; [done|].
  assert (ctrue (map f l) ≤ ctrue (map g l)) by (apply IH; set_solver).
  specialize (Hfg x ltac:(set_solver)). destruct (f x), (g x); naive_solver lia.
Qed.

Lemma ctrue_map_negb {A} (f : A → bool) l :
  ctrue (map (λ x, negb (f x)) l) = Z.of_nat (length l) - ctrue (map f l).
Proof.
  induction l as [|x l IH]; simpl; rewrite ?ctrue_cons; [done|].
  rewrite IH. destruct (f x); simpl; lia.
Qed.

Lemma map_ext_elem {A B} (f g : A → B) l : (∀ x, x ∈ l → f x = g x) → map f l = map g l.
Proof. intros. apply map_ext_in. intros. apply H. by apply list_elem_of_In. Qed.
