(* ===== verification/StateMonad.v ===== *)
(** * Stateful code that may throw

    Methods that mutate an object and may throw are functions from the state of
    the object to a result and a new state.  An exception ends the run: nothing
    reads the state it leaves behind.  The file also holds the weakest
    precondition calculus with which the theorems about such methods are
    proved. *)

From S2P Require Import Prelude.

Definition M (S A : Type) : Type := S → res (A * S).

#[export] Instance M_ret {S} : MRet (M S) := λ A a s, Ok (a, s).
#[export] Instance M_bind {S} : MBind (M S) :=
  λ A B f m s, match m s with Ok (a, s') => f a s' | Throw e => Throw e end.

Section combinators.
Context {S : Type}.

Definition gets {A} (f : S → A) : M S A := λ s, Ok (f s, s).

Definition modify (f : S → S) : M S unit := λ s, Ok (tt, f s).

Definition throw {A} (e : exn) : M S A := λ _, Throw e.

(** A computation that only reads the state and may throw. *)
Definition reads {A} (f : S → res A) : M S A :=
  λ s, match f s with Ok a => Ok (a, s) | Throw e => Throw e end.

Definition dbgAssert (b : bool) : M S unit := λ s,
  if b then Ok (tt, s) else Throw AssertFailure.

Definition when (b : bool) (m : M S unit) : M S unit :=
  if b then m else mret tt.

(** ** Weakest preconditions

    [wp m Q E s]: run from [s], [m] either returns a value and a state that
    satisfy [Q], or throws an exception that satisfies [E]. *)
Definition wp {A} (m : M S A) (Q : A → S → Prop) (E : exn → Prop) (s : S) : Prop :=
  match m s with Ok (a, s') => Q a s' | Throw e => E e end.

Lemma wp_ret {A} (a : A) Q E s : Q a s → wp (mret a) Q E s.
Proof. done. Qed.

Lemma wp_bind {A B} (m : M S A) (f : A → M S B) Q E s :
  wp m (λ a, wp (f a) Q E) E s → wp (m ≫= f) Q E s.
Proof. unfold wp, mbind, M_bind. destruct (m s) as [[a s']|e]; done. Qed.

Lemma wp_gets {A} (f : S → A) Q E s : Q (f s) s → wp (gets f) Q E s.
Proof. done. Qed.

Lemma wp_modify f Q E s : Q tt (f s) → wp (modify f) Q E s.
Proof. done. Qed.

Lemma wp_throw {A} e (Q : A → S → Prop) (E : exn → Prop) s : E e → wp (throw e) Q E s.
Proof. done. Qed.

Lemma wp_reads {A} (f : S → res A) (Q : A → S → Prop) (E : exn → Prop) s :
  (∀ a, f s = Ok a → Q a s) → (∀ e, f s = Throw e → E e) → wp (reads f) Q E s.
Proof. unfold wp, reads. destruct (f s); auto. Qed.

Lemma wp_assert b (Q : unit → S → Prop) (E : exn → Prop) s :
  (b = true → Q tt s) → E AssertFailure → wp (dbgAssert b) Q E s.
Proof. unfold wp, dbgAssert. destruct b; auto. Qed.

Lemma wp_when b m (Q : unit → S → Prop) E s :
  (b = true → wp m Q E s) → (b = false → Q tt s) → wp (when b m) Q E s.
Proof. destruct b; intros Ht Hf; [by apply Ht|by apply Hf]. Qed.

(** The method called depends on the state. *)
Lemma wp_state {A} (f : S → M S A) Q E s : wp (f s) Q E s → wp (λ s, f s s) Q E s.
Proof. done. Qed.

Lemma wp_mono {A} (m : M S A) (Q Q' : A → S → Prop) (E E' : exn → Prop) s :
  wp m Q E s → (∀ a s', Q a s' → Q' a s') → (∀ e, E e → E' e) → wp m Q' E' s.
Proof. unfold wp. destruct (m s) as [[a s']|e]; auto. Qed.

Lemma wp_conseq {A} (m : M S A) (Q Q' : A → S → Prop) E s :
  wp m Q E s → (∀ a s', Q a s' → Q' a s') → wp m Q' E s.
Proof. intros Hm HQ. eapply wp_mono; eauto. Qed.

Lemma wp_run {A} (m : M S A) (Q : A → S → Prop) E s a s' : m s = Ok (a, s') → Q a s' → wp m Q E s.
Proof. unfold wp. by intros ->. Qed.

Lemma wp_Ok {A} (m : M S A) (Q : A → S → Prop) E s a s' :
  wp m Q E s → m s = Ok (a, s') → Q a s'.
Proof. unfold wp. intros Hm Hr. by rewrite Hr in Hm. Qed.

Lemma wp_Throw {A} (m : M S A) (Q : A → S → Prop) E s e :
  wp m Q E s → m s = Throw e → E e.
Proof. unfold wp. intros Hm Hr. by rewrite Hr in Hm. Qed.

(** ** Frames

    [keeps R m]: however [m] is run, what it leaves behind when it returns is
    related by [R] to what it started from. *)
Section keeps.
Context (R : S → S → Prop) `{!PreOrder R}.

Definition keeps {A} (m : M S A) : Prop := ∀ s, wp m (λ _ s', R s s') (λ _, True) s.

Lemma keeps_ret {A} (a : A) : keeps (mret a).
Proof. intros s. apply wp_ret. reflexivity. Qed.

Lemma keeps_bind {A B} (m : M S A) (f : A → M S B) :
  keeps m → (∀ a, keeps (f a)) → keeps (m ≫= f).
Proof.
  intros Hm Hf s. apply wp_bind. eapply wp_conseq; [apply Hm|]. intros a s1 H1.
  eapply wp_conseq; [apply Hf|]. intros b s2 H2. etrans; [exact H1|exact H2].
Qed.

Lemma keeps_gets {A} (f : S → A) : keeps (gets f).
Proof. intros s. apply wp_gets. reflexivity. Qed.

Lemma keeps_modify f : (∀ s, R s (f s)) → keeps (modify f).
Proof. intros Hf s. apply wp_modify, Hf. Qed.

Lemma keeps_throw {A} e : keeps (throw (A:=A) e).
Proof. intros s. apply wp_throw. exact I. Qed.

Lemma keeps_reads {A} (f : S → res A) : keeps (reads f).
Proof. intros s. apply wp_reads; [intros _ _; reflexivity|intros; exact I]. Qed.

Lemma keeps_assert b : keeps (dbgAssert b).
Proof. intros s. apply wp_assert; [intros _; reflexivity|exact I]. Qed.

Lemma keeps_when b m : keeps m → keeps (when b m).
Proof. intros Hm s. apply wp_when; intros _; [apply Hm|reflexivity]. Qed.

Lemma keeps_wp {A} (m : M S A) (Q : A → S → Prop) E s :
  keeps m → wp m Q E s → wp m (λ a s', Q a s' ∧ R s s') E s.
Proof.
  intros Hk Hm. specialize (Hk s). unfold wp in *. destruct (m s) as [[a s']|e]; auto.
Qed.
End keeps.
End combinators.

#[global] Opaque wp.

(** One step of symbolic execution; the exceptional postcondition of an
    assertion is left to [auto]. *)
Ltac wp_step :=
  lazymatch goal with
  | |- wp (mbind _ _) _ _ _ => apply wp_bind
  | |- wp (mret _) _ _ _ => apply wp_ret
  | |- wp (gets _) _ _ _ => apply wp_gets
  | |- wp (modify _) _ _ _ => apply wp_modify
  | |- wp (throw _) _ _ _ => apply wp_throw
  | |- wp (dbgAssert _) _ _ _ => apply wp_assert
  | |- wp (when _ _) _ _ _ => apply wp_when
  | |- wp (reads _) _ _ _ => apply wp_reads
  end.

(** The frame of a method from the frames of what it calls. *)
Ltac keeps_step :=
  lazymatch goal with
  | |- keeps _ (mbind _ _) => apply keeps_bind; [apply _| |intros]
  | |- keeps _ (mret _) => apply keeps_ret; apply _
  | |- keeps _ (gets _) => apply keeps_gets; apply _
  | |- keeps _ (throw _) => apply keeps_throw
  | |- keeps _ (dbgAssert _) => apply keeps_assert; apply _
  | |- keeps _ (when _ _) => apply keeps_when; [apply _|]
  | |- keeps _ (reads _) => apply keeps_reads; apply _
  | |- keeps _ (match _ with _ => _ end) => case_match
  | |- keeps _ (let _ := _ in _) => cbv zeta
  end.

Create HintDb keeps.
Ltac solve_keeps := repeat (keeps_step || (progress eauto 1 with keeps nocore)); eauto with keeps.

(** Running the first step of a sequence. *)
Section run_bind.
Context {S : Type}.

Lemma bind_gets {A B} (f : S → A) (k : A → M S B) s : (gets f ≫= k) s = k (f s) s.
Proof. done. Qed.

Lemma bind_modify {B} (f : S → S) (k : unit → M S B) s : (modify f ≫= k) s = k tt (f s).
Proof. done. Qed.

Lemma bind_run {A B} (m : M S A) (k : A → M S B) s a s' : m s = Ok (a, s') → (m ≫= k) s = k a s'.
Proof. unfold mbind, M_bind. by intros ->. Qed.

Lemma bind_Throw {A B} (m : M S A) (k : A → M S B) s e : m s = Throw e → (m ≫= k) s = Throw e.
Proof. unfold mbind, M_bind. by intros ->. Qed.

Lemma M_bind_assoc {A B C} (m : M S A) (f : A → M S B) (g : B → M S C) s :
  ((m ≫= f) ≫= g) s = (m ≫= (λ a, f a ≫= g)) s.
Proof. unfold mbind, M_bind. by destruct (m s) as [[a s']|e]. Qed.
End run_bind.
