(* ===== verification/Numeric.v ===== *)
(** * Checked 64/128-bit arithmetic

    Models [src/util/numeric.cpp] (the [bigDivide] and [bigMultiply] overloads,
    on which every price computation rests) and the integer helpers of
    [src/util/types.cpp]: [addBalance], the [Price] comparisons and
    [unsignedToSigned].

    The C++ overloads are told apart by a suffix giving the type of the result;
    [_nothrow] marks the overloads that return [bool] and write an
    out-parameter.  Those return [option]: [None] is the return value [false],
    on which no caller reads the out-parameter.  The [uint64_t] overload is the
    exception ([LocalNode::computeWeight] ignores its boolean), so it returns
    both the boolean and the value written. *)

From S2P Require Import Prelude.

Inductive Rounding : Type :=
| ROUND_DOWN
| ROUND_UP.

(** [uint128_t::operator/] throws on a zero divisor. *)
Definition div_u128 (a b : Z) : res Z :=
  if b =? 0 then Throw (RuntimeError "Error: division or modulus by 0")
  else Ok (a / b).

Definition bigDivide_u64 (A B C : Z) (rounding : Rounding) : res (bool * Z) :=
  let a := A in
  let b := B in
  let c := C in
  x ← match rounding with
      | ROUND_DOWN => div_u128 (u128 (a * b)) c
      | ROUND_UP => div_u128 (u128 (u128 (u128 (a * b) + c) - 1)) c
      end;
  mret (x <=? UINT64_MAX, u64 x).

Definition bigDivide_i64_nothrow (A B C : Z) (rounding : Rounding)
    : res (option Z) :=
  cassert ((0 <=? A) && (0 <=? B) && (0 <? C));;
  '(ok, r2) ← bigDivide_u64 (u64 A) (u64 B) (u64 C) rounding;
  mret (if (ok : bool) then
          if r2 <=? INT64_MAX then Some r2 else None
        else None).

Definition bigDivide_i64 (A B C : Z) (rounding : Rounding) : res Z :=
  r ← bigDivide_i64_nothrow A B C rounding;
  match r with
  | Some v => mret v
  | None => Throw OverflowError
  end.

Definition bigDivide128_u64 (a B : Z) (rounding : Rounding) : res (option Z) :=
  cassert (negb (B =? 0));;
  let b := B in
  match rounding with
  | ROUND_UP =>
      if UINT128_MAX - (b - 1) <? a then mret None
      else
        x ← div_u128 (u128 (u128 (a + b) - 1)) b;
        mret (if x <=? UINT64_MAX then Some (u64 x) else None)
  | ROUND_DOWN =>
      x ← div_u128 a b;
      mret (if x <=? UINT64_MAX then Some (u64 x) else None)
  end.

Definition bigDivide128_i64_nothrow (a B : Z) (rounding : Rounding)
    : res (option Z) :=
  cassert (0 <? B);;
  r ← bigDivide128_u64 a (u64 B) rounding;
  mret (match r with
        | Some r2 => if r2 <=? INT64_MAX then Some r2 else None
        | None => None
        end).

Definition bigDivide128_i64 (a B : Z) (rounding : Rounding) : res Z :=
  r ← bigDivide128_i64_nothrow a B rounding;
  match r with
  | Some v => mret v
  | None => Throw OverflowError
  end.

Definition bigMultiply_u64 (a b : Z) : Z := u128 (a * b).

Definition bigMultiply_i64 (a b : Z) : res Z :=
  cassert ((0 <=? a) && (0 <=? b));;
  mret (bigMultiply_u64 (u64 a) (u64 b)).

(** [addBalance] of [types.cpp]: [Some] is [true] with the updated balance,
    [None] is [false] with the balance unchanged. *)
Definition addBalance (balance delta maxBalance : Z) : res (option Z) :=
  cassert (0 <=? balance);;
  cassert (0 <=? maxBalance);;
  if delta =? 0 then mret (Some balance)
  else if delta <? - balance then mret None
  else if maxBalance - balance <? delta then mret None
  else mret (Some (balance + delta)).

(** ** Prices *)

Record Price : Type := mkPrice {
  pn : Z;    (* price.n, an int32 *)
  pd : Z     (* price.d, an int32 *)
}.

#[export] Instance Price_eq_dec : EqDecision Price.
Proof. solve_decision. Defined.

(** A price as every offer in the ledger carries it: both parts are positive
    [int32_t] ([ManageOfferOpFrameBase] and the ledger-entry invariant reject
    the others). *)
Definition price_ok (p : Price) : Prop :=
  1 ≤ pn p ≤ INT32_MAX ∧ 1 ≤ pd p ≤ INT32_MAX.

(** [uint128_t l(a.n)] stores the operand in the low 64 bits. *)
Definition price_ge (a b : Price) : bool :=
  let l := u128 (u64 (pn a) * u64 (pd b)) in
  let r := u128 (u64 (pd a) * u64 (pn b)) in
  r <=? l.

Definition price_gt (a b : Price) : bool :=
  let l := u128 (u64 (pn a) * u64 (pd b)) in
  let r := u128 (u64 (pd a) * u64 (pn b)) in
  r <? l.

Definition price_eq (a b : Price) : bool :=
  (pn a =? pn b) && (pd a =? pd b).

Definition unsignedToSigned_32 (v : Z) : res Z :=
  if INT32_MAX <? v then Throw (RuntimeError "unsigned-to-signed overflow")
  else mret v.

Definition unsignedToSigned_64 (v : Z) : res Z :=
  if INT64_MAX <? v then Throw (RuntimeError "unsigned-to-signed overflow")
  else mret v.

(** ** Reference semantics: exact rounding division *)

Definition rdiv (rounding : Rounding) (a b : Z) : Z :=
  match rounding with
  | ROUND_DOWN => a / b
  | ROUND_UP => Zceil_div a b
  end.

Lemma rdiv_nonneg r a b : 0 ≤ a → 0 < b → 0 ≤ rdiv r a b.
Proof. destruct r; simpl; auto with widths. Qed.

Lemma rdiv_mono r a a' b : a ≤ a' → 0 < b → rdiv r a b ≤ rdiv r a' b.
Proof.
  intros. destruct r; simpl; [by apply Z.div_le_mono|].
  unfold Zceil_div. apply Z.div_le_mono; lia.
Qed.

Lemma div_u128_pos a b : 0 < b → div_u128 a b = Ok (a / b).
Proof. intros. unfold div_u128. destruct (Z.eqb_spec b 0); [lia|done]. Qed.

(** The product of two [uint64_t], plus a [uint64_t] minus one, fits in 128
    bits: no intermediate value of [bigDivide] wraps. *)
Lemma bigDivide_u64_exact A B C r :
  is_u64 A → is_u64 B → is_u64 C → 0 < C →
  bigDivide_u64 A B C r = Ok (rdiv r (A * B) C <=? UINT64_MAX, u64 (rdiv r (A * B) C)).
Proof.
  intros HA HB HC Hpos. unfold bigDivide_u64.
  assert (0 ≤ A * B ≤ UINT64_MAX * UINT64_MAX) by (widths; nia).
  rewrite (u128_id (A * B)) by (widths; lia).
  destruct r; simpl.
  - by rewrite div_u128_pos.
  - rewrite (u128_id (A * B + C)) by (widths; lia).
    rewrite (u128_id (A * B + C - 1)) by (widths; lia).
    by rewrite div_u128_pos.
Qed.

Lemma bigDivide_i64_nothrow_exact A B C r :
  amount64 A → amount64 B → amount64 C → 0 < C →
  bigDivide_i64_nothrow A B C r =
    Ok (if rdiv r (A * B) C <=? INT64_MAX then Some (rdiv r (A * B) C) else None).
Proof.
  intros HA HB HC Hpos. unfold bigDivide_i64_nothrow.
  rewrite cassert_true by (widths; lia). simpl.
  rewrite !u64_id by (widths; lia).
  rewrite bigDivide_u64_exact by (widths; lia). simpl.
  assert (0 ≤ rdiv r (A * B) C) by (apply rdiv_nonneg; widths; nia).
  set (q := rdiv r (A * B) C) in *.
  destruct (Z.leb_spec q UINT64_MAX); [rewrite u64_id by (widths; lia); done|].
  destruct (Z.leb_spec q INT64_MAX); [widths; lia|done].
Qed.

(** The throwing overload returns the exact rounded quotient, or throws
    exactly when that quotient does not fit. *)
Lemma bigDivide_i64_exact A B C r :
  amount64 A → amount64 B → amount64 C → 0 < C →
  bigDivide_i64 A B C r =
    if rdiv r (A * B) C <=? INT64_MAX then Ok (rdiv r (A * B) C) else Throw OverflowError.
Proof.
  intros. unfold bigDivide_i64. rewrite bigDivide_i64_nothrow_exact by done.
  simpl. by destruct (_ <=? INT64_MAX).
Qed.

Lemma bigDivide128_u64_exact a B r :
  is_u128 a → is_u64 B → 0 < B →
  bigDivide128_u64 a B r =
    Ok (if rdiv r a B <=? UINT64_MAX then Some (rdiv r a B) else None).
Proof.
  intros Ha HB Hpos. unfold bigDivide128_u64.
  rewrite cassert_true by lia. simpl.
  assert (0 ≤ rdiv r a B) by (apply rdiv_nonneg; widths; lia).
  destruct r; simpl in *.
  - rewrite div_u128_pos by done. simpl.
    destruct (Z.leb_spec (a / B) UINT64_MAX); [|done].
    by rewrite u64_id by (widths; lia).
  - destruct (Z.ltb_spec (UINT128_MAX - (B - 1)) a) as [Hbig|Hsmall].
    + pose proof (Zceil_bounds a B Hpos).
      destruct (Z.leb_spec (Zceil_div a B) UINT64_MAX); [|done].
      exfalso. assert (B * Zceil_div a B ≤ UINT64_MAX * UINT64_MAX) by (widths; nia).
      widths. lia.
    + rewrite u128_pred, u128_id by (widths; lia).
      rewrite div_u128_pos by done. simpl. unfold Zceil_div in *.
      destruct (Z.leb_spec ((a + B - 1) / B) UINT64_MAX); [|done].
      by rewrite u64_id by (widths; lia).
Qed.

Lemma bigDivide128_i64_exact a B r :
  is_u128 a → amount64 B → 0 < B →
  bigDivide128_i64 a B r =
    if rdiv r a B <=? INT64_MAX then Ok (rdiv r a B) else Throw OverflowError.
Proof.
  intros Ha HB Hpos. unfold bigDivide128_i64, bigDivide128_i64_nothrow.
  rewrite cassert_true by lia. simpl. rewrite u64_id by (widths; lia).
  rewrite bigDivide128_u64_exact by (widths; lia). simpl.
  destruct (Z.leb_spec (rdiv r a B) UINT64_MAX); simpl; [by destruct (_ <=? INT64_MAX)|].
  destruct (Z.leb_spec (rdiv r a B) INT64_MAX); [widths; lia|done].
Qed.

Lemma bigMultiply_i64_exact a b :
  amount64 a → amount64 b → bigMultiply_i64 a b = Ok (a * b).
Proof.
  intros. unfold bigMultiply_i64, bigMultiply_u64.
  rewrite cassert_true by (widths; lia). simpl.
  rewrite !u64_id by (widths; lia). by rewrite u128_id by (widths; nia).
Qed.

Lemma addBalance_spec balance delta maxBalance :
  0 ≤ balance → 0 ≤ maxBalance →
  addBalance balance delta maxBalance =
    Ok (if bool_decide (delta = 0 ∨ 0 ≤ balance + delta ≤ maxBalance)
        then Some (balance + delta) else None).
Proof.
  intros. unfold addBalance. rewrite !cassert_true by lia. simpl.
  destruct (Z.eqb_spec delta 0) as [->|].
  { rewrite bool_decide_true by auto. by rewrite Z.add_0_r. }
  destruct (Z.ltb_spec delta (- balance)), (Z.ltb_spec (maxBalance - balance) delta);
    case_bool_decide; first [done | lia].
Qed.

Lemma price_ge_spec a b :
  price_ok a → price_ok b → price_ge a b = (pn b * pd a <=? pn a * pd b).
Proof.
  intros [] []. unfold price_ge. rewrite !u64_id by (widths; lia).
  rewrite !u128_id by (widths; nia). f_equal. lia.
Qed.

Lemma price_gt_spec a b :
  price_ok a → price_ok b → price_gt a b = (pn b * pd a <? pn a * pd b).
Proof.
  intros [] []. unfold price_gt. rewrite !u64_id by (widths; lia).
  rewrite !u128_id by (widths; nia). f_equal. lia.
Qed.

(** C35: The two throwing [bigDivide] overloads compute the exact quotient, rounded
    as asked, of a 64-bit product or of a 128-bit number: they return it when it
    fits in an [int64_t] and throw [std::overflow_error] exactly when it does
    not; no intermediate value wraps around. *)
Theorem bigDivide_correct (A B C a : Z) (r : Rounding) :
  amount64 A → amount64 B → amount64 C → 0 < C → is_u128 a →
  bigDivide_i64 A B C r =
    (if rdiv r (A * B) C <=? INT64_MAX then Ok (rdiv r (A * B) C) else Throw OverflowError) ∧
  bigDivide128_i64 a C r =
    (if rdiv r a C <=? INT64_MAX then Ok (rdiv r a C) else Throw OverflowError).
Proof.
  intros. split; [by apply bigDivide_i64_exact|by apply bigDivide128_i64_exact].
Qed.

Lemma bigDivide_correct_witness :
  bigDivide_i64 INT64_MAX INT64_MAX 2 ROUND_UP = Throw OverflowError ∧
  bigDivide128_i64 UINT128_MAX INT64_MAX ROUND_UP = Throw OverflowError.
Proof.
  destruct (bigDivide_correct INT64_MAX INT64_MAX 2 UINT128_MAX ROUND_UP) as [H _];
    [widths; lia..|].
  destruct (bigDivide_correct 1 1 INT64_MAX UINT128_MAX ROUND_UP) as [_ H'];
    [widths; lia..|].
  split; [exact H|exact H'].
Defined.
