(* ===== verification/Exchange.v ===== *)
(** * Offer exchange arithmetic

    Models the pure part of [src/transactions/OfferExchange.cpp]: the three
    generations of the exchange rule ([exchangeV2], [exchangeV3],
    [exchangeV10]), the 1% price-error threshold and [adjustOffer].  The
    theorems are the statements that the long comments of that file argue
    informally: no exchange throws or leaves its limits, the offer that stays in
    the book is the one that is favoured, a [NORMAL] trade moves both amounts or
    none, the path payment modes meet their exactness constraints, and adjusting
    an adjusted offer changes nothing. *)

From S2P Require Import Prelude Numeric.

Inductive RoundingType : Type :=
| NORMAL
| PATH_PAYMENT_STRICT_SEND
| PATH_PAYMENT_STRICT_RECEIVE.

Inductive ExchangeResultType : Type :=
| ExchangeNORMAL
| REDUCED_TO_ZERO
| BOGUS.

#[export] Instance RoundingType_eq_dec : EqDecision RoundingType.
Proof. solve_decision. Defined.
#[export] Instance ExchangeResultType_eq_dec : EqDecision ExchangeResultType.
Proof. solve_decision. Defined.

Record ExchangeResult : Type := mkExchangeResult {
  er_numWheatReceived : Z;
  er_numSheepSend : Z;
  er_reduced : bool
}.

Record ExchangeResultV10 : Type := mkExchangeResultV10 {
  numWheatReceived : Z;
  numSheepSend : Z;
  wheatStays : bool
}.

(** [ExchangeResult::type()]. *)
Definition exchangeResultType (r : ExchangeResult) : ExchangeResultType :=
  if negb (er_numWheatReceived r =? 0) && negb (er_numSheepSend r =? 0)
  then ExchangeNORMAL
  else if er_reduced r then REDUCED_TO_ZERO else BOGUS.

Definition exchangeV2 (wheatReceived : Z) (price : Price)
    (maxWheatReceive maxSheepSend : Z) : res ExchangeResult :=
  let reduced := maxWheatReceive <? wheatReceived in
  let wheatReceived := Z.min wheatReceived maxWheatReceive in
  q ← bigDivide_i64_nothrow wheatReceived (pn price) (pd price) ROUND_DOWN;
  let numSheepSend := default INT64_MAX q in
  let reduced := reduced || (maxSheepSend <? numSheepSend) in
  let numSheepSend := Z.min numSheepSend maxSheepSend in
  numWheatReceived ← bigDivide_i64 numSheepSend (pd price) (pn price) ROUND_DOWN;
  mret (mkExchangeResult numWheatReceived numSheepSend reduced).

Definition exchangeV3 (wheatReceived : Z) (price : Price)
    (maxWheatReceive maxSheepSend : Z) : res ExchangeResult :=
  let reduced := maxWheatReceive <? wheatReceived in
  let numWheatReceived := Z.min wheatReceived maxWheatReceive in
  q ← bigDivide_i64_nothrow numWheatReceived (pn price) (pd price) ROUND_UP;
  let '(reduced, numSheepSend) :=
    match q with
    | Some s => (reduced, s)
    | None => (true, INT64_MAX)
    end in
  let reduced := reduced || (maxSheepSend <? numSheepSend) in
  let numSheepSend := Z.min numSheepSend maxSheepSend in
  q' ← bigDivide_i64_nothrow numSheepSend (pd price) (pn price) ROUND_DOWN;
  let newWheatReceived := default INT64_MAX q' in
  mret (mkExchangeResult (Z.min numWheatReceived newWheatReceived)
          numSheepSend reduced).

Definition checkPriceErrorBound (price : Price) (wheatReceive sheepSend : Z)
    (canFavorWheat : bool) : res bool :=
  let errN := 100 * pn price in
  let errD := 100 * pd price in
  lhs ← bigMultiply_i64 errN wheatReceive;
  rhs ← bigMultiply_i64 errD sheepSend;
  if canFavorWheat && (lhs <? rhs) then mret true
  else
    let absDiff := if rhs <? lhs then lhs - rhs else rhs - lhs in
    cap ← bigMultiply_i64 (pn price) wheatReceive;
    mret (absDiff <=? cap).

Definition calculateOfferValue (priceN priceD maxSend maxReceive : Z) : res Z :=
  sendValue ← bigMultiply_i64 maxSend priceN;
  receiveValue ← bigMultiply_i64 maxReceive priceD;
  mret (Z.min sendValue receiveValue).

Definition exchangeV10WithoutPriceErrorThresholds (price : Price)
    (maxWheatSend maxWheatReceive maxSheepSend maxSheepReceive : Z)
    (round : RoundingType) : res ExchangeResultV10 :=
  wheatValue ← calculateOfferValue (pn price) (pd price) maxWheatSend maxSheepReceive;
  sheepValue ← calculateOfferValue (pd price) (pn price) maxSheepSend maxWheatReceive;
  let stays := sheepValue <? wheatValue in
  '(wheatReceive, sheepSend) ←
    (if stays then
       if bool_decide (round = PATH_PAYMENT_STRICT_SEND) then
         w ← bigDivide128_i64 sheepValue (pn price) ROUND_DOWN;
         mret (w, Z.min maxSheepSend maxSheepReceive)
       else if (pd price <? pn price)
               || bool_decide (round = PATH_PAYMENT_STRICT_RECEIVE) then
         w ← bigDivide128_i64 sheepValue (pn price) ROUND_DOWN;
         s ← bigDivide_i64 w (pn price) (pd price) ROUND_UP;
         mret (w, s)
       else
         s ← bigDivide128_i64 sheepValue (pd price) ROUND_DOWN;
         w ← bigDivide_i64 s (pd price) (pn price) ROUND_DOWN;
         mret (w, s)
     else
       if pd price <? pn price then
         w ← bigDivide128_i64 wheatValue (pn price) ROUND_DOWN;
         s ← bigDivide_i64 w (pn price) (pd price) ROUND_DOWN;
         mret (w, s)
       else
         s ← bigDivide128_i64 wheatValue (pd price) ROUND_DOWN;
         w ← bigDivide_i64 s (pd price) (pn price) ROUND_UP;
         mret (w, s));
  if (wheatReceive <? 0) || (Z.min maxWheatReceive maxWheatSend <? wheatReceive)
  then Throw (RuntimeError "wheatReceive out of bounds")
  else if (sheepSend <? 0) || (Z.min maxSheepReceive maxSheepSend <? sheepSend)
  then Throw (RuntimeError "sheepSend out of bounds")
  else mret (mkExchangeResultV10 wheatReceive sheepSend stays).

Definition applyPriceErrorThresholds (price : Price)
    (wheatReceive sheepSend : Z) (stays : bool) (round : RoundingType)
    : res ExchangeResultV10 :=
  '(wheatReceive, sheepSend) ←
    (if (0 <? wheatReceive) && (0 <? sheepSend) then
       wheatReceiveValue ← bigMultiply_i64 wheatReceive (pn price);
       sheepSendValue ← bigMultiply_i64 sheepSend (pd price);
       if stays && (sheepSendValue <? wheatReceiveValue)
       then Throw (RuntimeError "favored sheep when wheat stays")
       else if negb stays && (wheatReceiveValue <? sheepSendValue)
       then Throw (RuntimeError "favored wheat when sheep stays")
       else if bool_decide (round = NORMAL) then
         ok ← checkPriceErrorBound price wheatReceive sheepSend false;
         if (ok : bool) then mret (wheatReceive, sheepSend) else mret (0, 0)
       else
         ok ← checkPriceErrorBound price wheatReceive sheepSend true;
         if (ok : bool) then mret (wheatReceive, sheepSend)
         else Throw (RuntimeError "exceeded price error bound")
     else
       match round with
       | PATH_PAYMENT_STRICT_SEND =>
           if sheepSend =? 0
           then Throw (RuntimeError "invalid amount of sheep sent")
           else mret (wheatReceive, sheepSend)
       | _ => mret (0, 0)
       end);
  mret (mkExchangeResultV10 wheatReceive sheepSend stays).

Definition exchangeV10 (price : Price)
    (maxWheatSend maxWheatReceive maxSheepSend maxSheepReceive : Z)
    (round : RoundingType) : res ExchangeResultV10 :=
  beforeThresholds ← exchangeV10WithoutPriceErrorThresholds price maxWheatSend
                       maxWheatReceive maxSheepSend maxSheepReceive round;
  applyPriceErrorThresholds price (numWheatReceived beforeThresholds)
    (numSheepSend beforeThresholds) (wheatStays beforeThresholds) round.

(** The overload of [adjustOffer] on a price and limits. *)
Definition adjustOffer (price : Price) (maxWheatSend maxSheepReceive : Z) : res Z :=
  r ← exchangeV10 price maxWheatSend INT64_MAX INT64_MAX maxSheepReceive NORMAL;
  mret (numWheatReceived r).

Example exchange_comment_example :
  (* the example of the comment before exchangeV10: price 2/3, 150 wheat on
     sale, 101 wanted *)
  exchangeV10WithoutPriceErrorThresholds (mkPrice 2 3) 150 101 INT64_MAX INT64_MAX
    PATH_PAYMENT_STRICT_RECEIVE = Ok (mkExchangeResultV10 101 68 true)
  ∧ exchangeV10WithoutPriceErrorThresholds (mkPrice 2 3) 150 101 INT64_MAX INT64_MAX
    NORMAL = Ok (mkExchangeResultV10 100 67 true).
Proof. vm_compute. auto. Qed.

(** ** The exchange as exact rational arithmetic *)

(** The rescaled size of an offer in terms of sheep: [wheatValue] and
    [sheepValue] of the source, as unbounded integers. *)
Definition offer_value (priceN priceD maxSend maxReceive : Z) : Z :=
  Z.min (maxSend * priceN) (maxReceive * priceD).

(** Amounts moved when the whole wheat offer, of value [wv], is taken. *)
Definition taken_amounts (p : Price) (wv : Z) : Z * Z :=
  if pd p <? pn p then (wv / pn p, wv / pn p * pn p / pd p)
  else (Zceil_div (wv / pd p * pd p) (pn p), wv / pd p).

(** Amounts moved when the wheat offer stays, the sheep offer being worth [sv]. *)
Definition staying_amounts (p : Price) (sv mss msr : Z) (round : RoundingType)
    : Z * Z :=
  if bool_decide (round = PATH_PAYMENT_STRICT_SEND) then (sv / pn p, Z.min mss msr)
  else if (pd p <? pn p) || bool_decide (round = PATH_PAYMENT_STRICT_RECEIVE)
  then (sv / pn p, Zceil_div (sv / pn p * pn p) (pd p))
  else (sv / pd p * pd p / pn p, sv / pd p).

Lemma calculateOfferValue_exact pN pD mS mR :
  1 ≤ pN ≤ INT32_MAX → 1 ≤ pD ≤ INT32_MAX → amount64 mS → amount64 mR →
  calculateOfferValue pN pD mS mR = Ok (offer_value pN pD mS mR).
Proof.
  intros. unfold calculateOfferValue.
  by rewrite !bigMultiply_i64_exact by (widths; lia).
Qed.

Lemma bigDivide_i64_fits A B C r :
  amount64 A → amount64 B → amount64 C → 0 < C → rdiv r (A * B) C ≤ INT64_MAX →
  bigDivide_i64 A B C r = Ok (rdiv r (A * B) C).
Proof.
  intros. rewrite bigDivide_i64_exact by done.
  by destruct (Z.leb_spec (rdiv r (A * B) C) INT64_MAX); [|lia].
Qed.

Lemma bigDivide128_i64_fits a B r :
  is_u128 a → amount64 B → 0 < B → rdiv r a B ≤ INT64_MAX →
  bigDivide128_i64 a B r = Ok (rdiv r a B).
Proof.
  intros. rewrite bigDivide128_i64_exact by done.
  by destruct (Z.leb_spec (rdiv r a B) INT64_MAX); [|lia].
Qed.

Section v10.
Context (p : Price) (mws mwr mss msr : Z).
Hypothesis (Hp : price_ok p).
Hypothesis (Hmws : amount64 mws) (Hmwr : amount64 mwr).
Hypothesis (Hmss : amount64 mss) (Hmsr : amount64 msr).

Let wv := offer_value (pn p) (pd p) mws msr.
Let sv := offer_value (pd p) (pn p) mss mwr.

Lemma wv_bounds : 0 ≤ wv ∧ wv ≤ mws * pn p ∧ wv ≤ msr * pd p.
Proof. unfold wv, offer_value. clear -Hp Hmws Hmsr. destruct Hp. widths. nia. Qed.

Lemma sv_bounds : 0 ≤ sv ∧ sv ≤ mss * pd p ∧ sv ≤ mwr * pn p.
Proof. unfold sv, offer_value. clear -Hp Hmwr Hmss. destruct Hp. widths. nia. Qed.

(** Bounds shared by both cases: [w] wheat against [s] sheep. *)
Definition within_limits (w s : Z) : Prop :=
  0 ≤ w ≤ Z.min mwr mws ∧ 0 ≤ s ≤ Z.min msr mss.

Lemma taken_within : wv ≤ sv →
  let '(w, s) := taken_amounts p wv in
  within_limits w s ∧ s * pd p ≤ w * pn p ∧ (w = 0 ↔ s = 0).
Proof.
  intros Hle. pose proof wv_bounds. pose proof sv_bounds.
  destruct Hp as [[??] [??]]. clearbody wv sv.
  unfold taken_amounts, within_limits. destruct (Z.ltb_spec (pd p) (pn p)).
  - name_floor wv (pn p) as w. name_floor (w * pn p) (pd p) as s.
    repeat split; nia.
  - name_floor wv (pd p) as s. name_ceil (s * pd p) (pn p) as w.
    repeat split; nia.
Qed.

Lemma staying_within round : sv < wv →
  let '(w, s) := staying_amounts p sv mss msr round in
  within_limits w s ∧ w * pn p ≤ s * pd p ∧
  (round ≠ PATH_PAYMENT_STRICT_SEND → (w = 0 ↔ s = 0)).
Proof.
  intros Hlt. pose proof wv_bounds. pose proof sv_bounds.
  destruct Hp as [[??] [??]]. clearbody wv sv.
  unfold staying_amounts, within_limits. case_bool_decide.
  - name_floor sv (pn p) as w. repeat split; (done || nia).
  - destruct ((pd p <? pn p) || _) eqn:Hc.
    + name_floor sv (pn p) as w. name_ceil (w * pn p) (pd p) as s.
      repeat split; nia.
    + apply orb_false_iff in Hc as [Hc _]. apply Z.ltb_ge in Hc.
      name_floor sv (pd p) as s. name_floor (s * pd p) (pn p) as w.
      repeat split; nia.
Qed.

Lemma limits_check w s stays : within_limits w s →
  (if (w <? 0) || (Z.min mwr mws <? w)
   then Throw (RuntimeError "wheatReceive out of bounds")
   else if (s <? 0) || (Z.min msr mss <? s)
   then Throw (RuntimeError "sheepSend out of bounds")
   else mret (mkExchangeResultV10 w s stays)) = Ok (mkExchangeResultV10 w s stays).
Proof.
  intros [??]. replace (w <? 0) with false by lia.
  replace (Z.min mwr mws <? w) with false by lia.
  replace (s <? 0) with false by lia.
  by replace (Z.min msr mss <? s) with false by lia.
Qed.

Lemma raw_exchange_exact round :
  let '(w, s) := if sv <? wv then staying_amounts p sv mss msr round
                 else taken_amounts p wv in
  exchangeV10WithoutPriceErrorThresholds p mws mwr mss msr round =
    Ok (mkExchangeResultV10 w s (sv <? wv)).
Proof.
  pose proof wv_bounds. pose proof sv_bounds.
  pose proof taken_within as Ht. pose proof (staying_within round) as Hs.
  assert (is_u128 wv ∧ is_u128 sv) as [Huw Hus] by (destruct Hp; widths; nia).
  assert (amount64 (pn p) ∧ amount64 (pd p) ∧ 0 < pn p ∧ 0 < pd p) as (?&?&?&?)
    by (destruct Hp; widths; lia).
  unfold exchangeV10WithoutPriceErrorThresholds.
  rewrite !calculateOfferValue_exact by (done || apply Hp). fold wv sv. cbn [mbind res_bind].
  destruct (Z.ltb_spec sv wv) as [Hlt|Hle].
  - specialize (Hs Hlt). unfold staying_amounts in *.
    case_bool_decide; [|destruct ((pd p <? pn p) || _) eqn:?];
      destruct Hs as [Hw _]; pose proof Hw as [??];
      rewrite bigDivide128_i64_fits by (simpl; widths; lia || done); cbn [mbind res_bind];
      try rewrite bigDivide_i64_fits by (simpl in *; widths; lia); cbn [mbind res_bind mret res_ret];
      by apply limits_check.
  - specialize (Ht Hle). unfold taken_amounts in *.
    destruct (Z.ltb_spec (pd p) (pn p));
      destruct Ht as [Hw _]; pose proof Hw as [??];
      rewrite bigDivide128_i64_fits by (simpl; widths; lia || done); cbn [mbind res_bind];
      rewrite bigDivide_i64_fits by (simpl in *; widths; lia); cbn [mbind res_bind mret res_ret];
      by apply limits_check.
Qed.

(** ** Price error *)

(** The amounts [w] and [s] are within 1% of the price of [p]. *)
Definition price_error_ok (w s : Z) : bool :=
  100 * Z.abs (pn p * w - pd p * s) <=? pn p * w.

Lemma checkPriceErrorBound_exact w s fav :
  amount64 w → amount64 s →
  checkPriceErrorBound p w s fav =
    Ok ((fav && (pn p * w <? pd p * s)) || price_error_ok w s).
Proof.
  intros. destruct Hp. unfold checkPriceErrorBound, price_error_ok.
  rewrite (bigMultiply_i64_exact (100 * pn p)), (bigMultiply_i64_exact (100 * pd p)),
    (bigMultiply_i64_exact (pn p)) by (widths; lia).
  cbn [mbind res_bind mret res_ret].
  replace (100 * pn p * w <? 100 * pd p * s) with (pn p * w <? pd p * s) by lia.
  destruct fav, (Z.ltb_spec (pn p * w) (pd p * s)), (Z.ltb_spec (100 * pd p * s) (100 * pn p * w));
    cbn; do 2 f_equal; lia.
Qed.

(** The favoured side agrees with the side that stays. *)
Definition favours_stayer (w s : Z) (stays : bool) : Prop :=
  if stays then w * pn p ≤ s * pd p else s * pd p ≤ w * pn p.

Definition thresholded (w s : Z) : Z * Z :=
  if (0 <? w) && (0 <? s) && price_error_ok w s then (w, s) else (0, 0).

Lemma thresholds_normal w s stays :
  amount64 w → amount64 s → favours_stayer w s stays →
  applyPriceErrorThresholds p w s stays NORMAL =
    Ok (mkExchangeResultV10 (thresholded w s).1 (thresholded w s).2 stays).
Proof.
  intros Hw Hs Hf. destruct Hp. unfold applyPriceErrorThresholds, thresholded.
  destruct ((0 <? w) && (0 <? s)); [|done].
  rewrite !bigMultiply_i64_exact by (widths; lia). cbn [mbind res_bind].
  replace (stays && (s * pd p <? w * pn p)) with false by (destruct stays; simpl in *; lia).
  replace (negb stays && (w * pn p <? s * pd p)) with false by (destruct stays; simpl in *; lia).
  rewrite bool_decide_true, checkPriceErrorBound_exact by done. cbn.
  by destruct (price_error_ok w s).
Qed.

Lemma thresholds_path w s stays round :
  round ≠ NORMAL → amount64 w → amount64 s → favours_stayer w s stays →
  0 < w → 0 < s → (stays = true ∨ price_error_ok w s = true) →
  applyPriceErrorThresholds p w s stays round = Ok (mkExchangeResultV10 w s stays).
Proof.
  intros Hr Hw Hs Hf Hw0 Hs0 Hok. destruct Hp. unfold applyPriceErrorThresholds.
  replace ((0 <? w) && (0 <? s)) with true by lia.
  rewrite !bigMultiply_i64_exact by (widths; lia). cbn [mbind res_bind].
  replace (stays && (s * pd p <? w * pn p)) with false by (destruct stays; simpl in *; lia).
  replace (negb stays && (w * pn p <? s * pd p)) with false by (destruct stays; simpl in *; lia).
  rewrite bool_decide_false, checkPriceErrorBound_exact by done. cbn.
  replace ((pn p * w <? pd p * s) || price_error_ok w s) with true; [done|].
  destruct Hok as [->| ->]; [|by rewrite orb_true_r].
  unfold price_error_ok. simpl in Hf. lia.
Qed.

(** The unthresholded exchange, as one statement about its result. *)
Lemma raw_exchange_spec round :
  ∃ w s, exchangeV10WithoutPriceErrorThresholds p mws mwr mss msr round =
           Ok (mkExchangeResultV10 w s (sv <? wv)) ∧
    within_limits w s ∧ favours_stayer w s (sv <? wv) ∧
    ((sv <? wv) = false ∨ round ≠ PATH_PAYMENT_STRICT_SEND → (w = 0 ↔ s = 0)).
Proof.
  pose proof (raw_exchange_exact round) as He.
  pose proof taken_within as Ht. pose proof (staying_within round) as Hs.
  destruct (Z.ltb_spec sv wv) as [Hlt|Hle]; unfold favours_stayer.
  - destruct (staying_amounts p sv mss msr round) as [w s].
    destruct (Hs Hlt) as (?&?&?). exists w, s. repeat split; try done; naive_solver.
  - destruct (taken_amounts p wv) as [w s].
    destruct (Ht Hle) as (?&?&?). exists w, s. repeat split; try done; naive_solver.
Qed.

Lemma within_amounts w s : within_limits w s → amount64 w ∧ amount64 s.
Proof. clear -Hmws Hmwr Hmss Hmsr. unfold within_limits. widths. lia. Qed.

(** ** [NORMAL] exchanges *)

Lemma thresholded_cases w s :
  thresholded w s = (0, 0) ∨
  (thresholded w s = (w, s) ∧ 0 < w ∧ 0 < s ∧ price_error_ok w s = true).
Proof.
  clear. unfold thresholded. destruct (_ && _) eqn:E; [|by left].
  rewrite !andb_true_iff in E. right. repeat split; naive_solver lia.
Qed.

Lemma exchangeV10_normal_spec :
  ∃ w s, exchangeV10 p mws mwr mss msr NORMAL =
           Ok (mkExchangeResultV10 w s (sv <? wv)) ∧
    within_limits w s ∧ favours_stayer w s (sv <? wv) ∧
    ((w = 0 ∧ s = 0) ∨ (0 < w ∧ 0 < s ∧ price_error_ok w s = true)).
Proof.
  destruct (raw_exchange_spec NORMAL) as (w & s & He & Hw & Hf & _).
  destruct (within_amounts _ _ Hw).
  exists (thresholded w s).1, (thresholded w s).2. split.
  { unfold exchangeV10. rewrite He. by apply thresholds_normal. }
  destruct (thresholded_cases w s) as [-> | (-> & ? & ? & ?)]; simpl; [|by split_and!; auto].
  unfold within_limits, favours_stayer in *. widths. destruct (sv <? wv); lia.
Qed.

(** When the wheat offer stays, the path payment modes never fail the price
    check: the wheat seller may be favoured without bound. *)
Lemma exchangeV10_path_staying w s round :
  round ≠ NORMAL → sv < wv → staying_amounts p sv mss msr round = (w, s) →
  (0 < w ∨ round = PATH_PAYMENT_STRICT_SEND) → 0 < s →
  exchangeV10 p mws mwr mss msr round = Ok (mkExchangeResultV10 w s true).
Proof.
  intros Hr Hlt Hst Hpos Hs. pose proof (raw_exchange_exact round) as He.
  pose proof (staying_within round Hlt) as Hw.
  replace (sv <? wv) with true in He by lia. rewrite Hst in He, Hw.
  destruct Hw as (Hw & ? & ?). destruct (within_amounts _ _ Hw).
  unfold exchangeV10. rewrite He. cbn [mbind res_bind numWheatReceived numSheepSend wheatStays].
  destruct (Z.ltb_spec 0 w).
  { apply thresholds_path; auto. }
  assert (w = 0) as -> by (destruct Hw; lia).
  destruct Hpos as [| ->]; [lia|].
  unfold applyPriceErrorThresholds. simpl.
  by replace (s =? 0) with false by lia.
Qed.

Lemma exchangeV10_path_staying_total round :
  round ≠ NORMAL → sv < wv → 0 < mss → 0 < msr →
  ∃ r, exchangeV10 p mws mwr mss msr round = Ok r.
Proof.
  intros Hr Hlt ??. pose proof (staying_within round Hlt) as Hw.
  destruct (staying_amounts p sv mss msr round) as [w s] eqn:Est.
  destruct Hw as ([??] & ? & Hiff).
  destruct (decide (round = PATH_PAYMENT_STRICT_SEND)) as [->|Hss].
  { eexists. eapply exchangeV10_path_staying; try done; [by right|].
    unfold staying_amounts in Est. rewrite bool_decide_true in Est by done.
    injection Est as _ <-. lia. }
  destruct (Z.ltb_spec 0 w).
  { eexists. eapply exchangeV10_path_staying; try done; [by left|]. naive_solver lia. }
  pose proof (raw_exchange_exact round) as He.
  replace (sv <? wv) with true in He by lia. rewrite Est in He.
  unfold exchangeV10, applyPriceErrorThresholds. rewrite He.
  cbn [mbind res_bind numWheatReceived numSheepSend wheatStays].
  replace (0 <? w) with false by lia. simpl. destruct round; naive_solver.
Qed.

Lemma exchangeV10_path_taken w s round :
  round ≠ NORMAL → wv ≤ sv → taken_amounts p wv = (w, s) →
  0 < w → price_error_ok w s = true →
  exchangeV10 p mws mwr mss msr round = Ok (mkExchangeResultV10 w s false).
Proof.
  intros Hr Hle Hst Hpos Hok. pose proof (raw_exchange_exact round) as He.
  pose proof (taken_within Hle) as Hw.
  replace (sv <? wv) with false in He by lia. rewrite Hst in He, Hw.
  destruct Hw as (Hw & ? & ?). destruct (within_amounts _ _ Hw).
  unfold exchangeV10. rewrite He. cbn [mbind res_bind numWheatReceived numSheepSend wheatStays].
  apply thresholds_path; auto. destruct Hw; lia.
Qed.

End v10.

(** ** Adjusting offers *)

Section adjust.
Context (p : Price) (mws msr : Z).
Hypothesis (Hp : price_ok p) (Hmws : amount64 mws) (Hmsr : amount64 msr).

Let wv := offer_value (pn p) (pd p) mws msr.

(** A buyer without limits never leaves the wheat offer in the book. *)
Lemma adjust_sheep_stays :
  wv ≤ offer_value (pd p) (pn p) INT64_MAX INT64_MAX.
Proof. destruct Hp. unfold wv, offer_value. widths. nia. Qed.

Lemma adjustOffer_exact :
  adjustOffer p mws msr =
    Ok (thresholded p (taken_amounts p wv).1 (taken_amounts p wv).2).1.
Proof.
  assert (amount64 INT64_MAX) as Hmax by (widths; lia).
  pose proof adjust_sheep_stays as Hle.
  pose proof (raw_exchange_exact p mws INT64_MAX INT64_MAX msr Hp Hmws Hmax Hmax Hmsr NORMAL) as He.
  pose proof (taken_within p mws INT64_MAX INT64_MAX msr Hp Hmws Hmax Hmax Hmsr Hle) as Hw.
  fold wv in He, Hw.
  replace (_ <? wv) with false in He by lia.
  destruct (taken_amounts p wv) as [w s]. destruct Hw as (Hw & ? & ?).
  destruct (within_amounts mws INT64_MAX INT64_MAX msr Hmws Hmax Hmax Hmsr _ _ Hw).
  unfold adjustOffer, exchangeV10. rewrite He.
  cbn [mbind res_bind numWheatReceived numSheepSend wheatStays].
  by rewrite thresholds_normal.
Qed.

Lemma adjustOffer_bounds : ∃ a, adjustOffer p mws msr = Ok a ∧ 0 ≤ a ≤ mws.
Proof.
  assert (amount64 INT64_MAX) as Hmax by (widths; lia).
  pose proof (taken_within p mws INT64_MAX INT64_MAX msr Hp Hmws Hmax Hmax Hmsr
    adjust_sheep_stays) as Hw.
  rewrite adjustOffer_exact. fold wv in Hw. destruct (taken_amounts p wv) as [w s].
  destruct Hw as ([??] & _ & _). eexists. split; [done|]. simpl.
  destruct (thresholded_cases p w s) as [-> | (-> & _)]; simpl; widths; lia.
Qed.

(** Restricting an offer to the wheat it would give when wholly taken does not
    change what it gives when wholly taken. *)
Lemma taken_amounts_idem :
  let w := (taken_amounts p wv).1 in
  taken_amounts p (offer_value (pn p) (pd p) w msr) = taken_amounts p wv.
Proof.
  pose proof (wv_bounds p mws msr Hp Hmws Hmsr) as Hb. fold wv in Hb.
  destruct Hp as [[??][??]]. clearbody wv.
  unfold taken_amounts, offer_value. destruct (Z.ltb_spec (pd p) (pn p)); simpl.
  - name_floor wv (pn p) as w. rewrite Z.min_l by nia. by rewrite Z.div_mul by lia.
  - enough (Z.min (Zceil_div (wv / pd p * pd p) (pn p) * pn p) (msr * pd p) / pd p
            = wv / pd p) as -> by done.
    name_floor wv (pd p) as s. name_ceil (s * pd p) (pn p) as w.
    name_floor (Z.min (w * pn p) (msr * pd p)) (pd p) as s'. nia.
Qed.

End adjust.

(** ** Correctness of the exchange *)

(** C29: For every valid price and all non-negative 64-bit limits a [NORMAL]
    [exchangeV10] returns (neither bound check nor the favouring checks throw),
    stays within all four limits, gives the rounding advantage to the offer that
    stays in the book, and moves either nothing or two positive amounts whose
    effective price is within 1% of the offer's price. *)
Theorem exchangeV10_normal (p : Price) (mws mwr mss msr : Z) :
  price_ok p → amount64 mws → amount64 mwr → amount64 mss → amount64 msr →
  ∃ w s,
    exchangeV10 p mws mwr mss msr NORMAL =
      Ok (mkExchangeResultV10 w s (Z.min (mss * pd p) (mwr * pn p)
                                   <? Z.min (mws * pn p) (msr * pd p))) ∧
    (0 ≤ w ≤ Z.min mwr mws ∧ 0 ≤ s ≤ Z.min msr mss) ∧
    (if Z.min (mss * pd p) (mwr * pn p) <? Z.min (mws * pn p) (msr * pd p)
     then w * pn p ≤ s * pd p else s * pd p ≤ w * pn p) ∧
    ((w = 0 ∧ s = 0) ∨
     (0 < w ∧ 0 < s ∧ 100 * Z.abs (pn p * w - pd p * s) ≤ pn p * w)).
Proof.
  intros Hp ????.
  destruct (exchangeV10_normal_spec p mws mwr mss msr) as (w & s & ? & ? & ? & Hc); [done..|].
  exists w, s. do 3 (split; [done|]).
  unfold price_error_ok in Hc. rewrite Z.leb_le in Hc. exact Hc.
Qed.

Lemma exchangeV10_normal_witness :
  ∃ w s,
    exchangeV10 (mkPrice 2 3) 150 101 INT64_MAX INT64_MAX NORMAL =
      Ok (mkExchangeResultV10 w s true) ∧
    (0 ≤ w ≤ 101 ∧ 0 ≤ s ≤ INT64_MAX) ∧ w * 2 ≤ s * 3 ∧
    ((w = 0 ∧ s = 0) ∨ (0 < w ∧ 0 < s ∧ 100 * Z.abs (2 * w - 3 * s) ≤ 2 * w)).
Proof.
  apply (exchangeV10_normal (mkPrice 2 3) 150 101 INT64_MAX INT64_MAX);
    unfold price_ok; simpl; widths; lia.
Defined.

(** In [PATH_PAYMENT_STRICT_RECEIVE] mode, when the wheat offer is the larger
    one and the sender's budget covers the price (constraint (star) of the
    source), the exchange delivers exactly [maxWheatReceive] for exactly the
    price rounded up. *)
Theorem exchangeV10_strict_receive_exact (p : Price) (mws mwr mss msr : Z) :
  price_ok p → amount64 mws → amount64 mwr → amount64 mss → amount64 msr →
  0 < mwr → mwr * pn p ≤ mss * pd p →
  Z.min (mss * pd p) (mwr * pn p) < Z.min (mws * pn p) (msr * pd p) →
  exchangeV10 p mws mwr mss msr PATH_PAYMENT_STRICT_RECEIVE =
    Ok (mkExchangeResultV10 mwr (Zceil_div (mwr * pn p) (pd p)) true).
Proof.
  intros Hp ???? Hpos Hstar Hlt. pose proof Hp as [[??][??]].
  assert (offer_value (pd p) (pn p) mss mwr = mwr * pn p) as Hsv
    by (unfold offer_value; lia).
  apply exchangeV10_path_staying; try done; rewrite ?Hsv.
  - unfold staying_amounts. rewrite bool_decide_false, (bool_decide_true (_ = _)) by done.
    rewrite orb_true_r. by rewrite Z.div_mul by lia.
  - by left.
  - pose proof (Zceil_bounds (mwr * pn p) (pd p)). nia.
Qed.

Lemma exchangeV10_strict_receive_exact_witness :
  exchangeV10 (mkPrice 2 3) 150 101 INT64_MAX INT64_MAX PATH_PAYMENT_STRICT_RECEIVE =
    Ok (mkExchangeResultV10 101 68 true).
Proof.
  apply (exchangeV10_strict_receive_exact (mkPrice 2 3) 150 101 INT64_MAX INT64_MAX);
    unfold price_ok; simpl; widths; lia.
Defined.

(** In [PATH_PAYMENT_STRICT_SEND] mode, when the wheat offer stays, the
    exchange sends [min maxSheepSend maxSheepReceive]; if less wheat than
    requested is received then the whole of [maxSheepSend] was sent and not one
    more unit of wheat could be received without favouring the sheep seller. *)
Theorem exchangeV10_strict_send_optimal (p : Price) (mws mwr mss msr : Z) :
  price_ok p → amount64 mws → amount64 mwr → amount64 mss → amount64 msr →
  0 < mss → 0 < msr →
  Z.min (mss * pd p) (mwr * pn p) < Z.min (mws * pn p) (msr * pd p) →
  ∃ w, exchangeV10 p mws mwr mss msr PATH_PAYMENT_STRICT_SEND =
         Ok (mkExchangeResultV10 w (Z.min mss msr) true) ∧
    0 ≤ w ≤ Z.min mwr mws ∧
    w * pn p ≤ Z.min mss msr * pd p ∧
    (w < mwr → Z.min mss msr = mss ∧ mss * pd p < (w + 1) * pn p).
Proof.
  intros Hp ???? Hmss Hmsr Hlt. pose proof Hp as [[??][??]].
  set (sv := offer_value (pd p) (pn p) mss mwr).
  exists (sv / pn p).
  pose proof (sv_bounds p mwr mss) as Hsv. fold sv in Hsv. destruct Hsv as (?&?&?); [done..|].
  pose proof (staying_within p mws mwr mss msr) as Hw.
  specialize (Hw ltac:(done) ltac:(done) ltac:(done) ltac:(done) ltac:(done)
    PATH_PAYMENT_STRICT_SEND ltac:(unfold offer_value; lia)).
  unfold staying_amounts in Hw. rewrite bool_decide_true in Hw by done.
  fold sv in Hw. destruct Hw as ([??]&?&_).
  split; [|split; [done|split; [done|]]].
  - apply exchangeV10_path_staying; try done; [by right|lia].
  - intros Hless. pose proof (Zfloor_bounds sv (pn p) ltac:(lia)).
    assert (sv = mss * pd p ∨ sv = mwr * pn p) as [Hsv|Hsv] by (unfold sv, offer_value; lia).
    + split; [nia|]. rewrite <-Hsv. lia.
    + rewrite Hsv, Z.div_mul in Hless; lia.
Qed.

Lemma exchangeV10_strict_send_optimal_witness :
  ∃ w, exchangeV10 (mkPrice 7 2) 1000 500 30 INT64_MAX PATH_PAYMENT_STRICT_SEND =
         Ok (mkExchangeResultV10 w 30 true) ∧ 0 ≤ w ≤ 500 ∧ w * 7 ≤ 30 * 2 ∧
    (w < 500 → 30 = 30 ∧ 30 * 2 < (w + 1) * 7).
Proof.
  apply (exchangeV10_strict_send_optimal (mkPrice 7 2) 1000 500 30 INT64_MAX);
    unfold price_ok; simpl; widths; lia.
Defined.

(** [adjustOffer] always returns an amount within the seller's limit, and
    adjusting an adjusted offer changes nothing (the central property claimed by
    the comment above it). *)
Theorem adjustOffer_idempotent (p : Price) (mws msr : Z) :
  price_ok p → amount64 mws → amount64 msr →
  ∃ a, adjustOffer p mws msr = Ok a ∧ 0 ≤ a ≤ mws ∧ adjustOffer p a msr = Ok a.
Proof.
  intros Hp Hmws Hmsr.
  destruct (adjustOffer_bounds p mws msr) as (a & Ha & Hb); [done..|].
  exists a. split; [done|]. split; [done|].
  pose proof (taken_amounts_idem p mws msr Hp Hmws Hmsr) as Hidem.
  rewrite adjustOffer_exact in Ha by done. injection Ha as Ha.
  destruct (taken_amounts p (offer_value (pn p) (pd p) mws msr)) as [w s].
  simpl in *. destruct (thresholded_cases p w s) as [E | (E & _)]; rewrite E in Ha; simpl in Ha; subst a.
  - destruct (adjustOffer_bounds p 0 msr) as (a & -> & ?); [widths; lia || done..|].
    by assert (a = 0) as -> by lia.
  - rewrite adjustOffer_exact by (done || widths; lia). rewrite Hidem. simpl. by rewrite E.
Qed.

Lemma adjustOffer_idempotent_witness :
  ∃ a, adjustOffer (mkPrice 3 100) 333 7 = Ok a ∧ 0 ≤ a ≤ 333 ∧
    adjustOffer (mkPrice 3 100) a 7 = Ok a.
Proof.
  apply (adjustOffer_idempotent (mkPrice 3 100) 333 7); unfold price_ok; simpl; widths; lia.
Defined.

(** C34: Path payments never throw on an offer that was adjusted immediately
    before: if the offer's amount is the result of [adjustOffer] and is not
    zero, both strict modes of [exchangeV10] return, for every positive request
    of the taker. *)
Theorem exchangeV10_path_payment_total (p : Price) (mws0 mws mwr mss msr : Z)
    (round : RoundingType) :
  price_ok p → amount64 mws0 → amount64 mwr → amount64 mss → amount64 msr →
  adjustOffer p mws0 msr = Ok mws → 0 < mws → 0 < mss → 0 < msr → round ≠ NORMAL →
  ∃ r, exchangeV10 p mws mwr mss msr round = Ok r.
Proof.
  intros Hp Hmws0 Hmwr Hmss Hmsr Hadj Hpos Hs0 Hr0 Hround. pose proof Hp as [[??][??]].
  rewrite adjustOffer_exact in Hadj by done. injection Hadj as Hadj.
  pose proof (taken_amounts_idem p mws0 msr Hp Hmws0 Hmsr) as Hidem.
  pose proof (wv_bounds p mws0 msr Hp Hmws0 Hmsr).
  pose proof (adjust_sheep_stays p mws0 msr Hp Hmws0 Hmsr) as Hle.
  assert (amount64 INT64_MAX) as Hmax by (widths; lia).
  pose proof (taken_within p mws0 INT64_MAX INT64_MAX msr Hp Hmws0 Hmax Hmax Hmsr Hle) as Hw.
  destruct (taken_amounts p (offer_value (pn p) (pd p) mws0 msr)) as [w s].
  destruct Hw as ([??] & _ & _). simpl in *.
  destruct (thresholded_cases p w s) as [E | (E & ? & ? & Hok)]; rewrite E in Hadj; simpl in Hadj; [lia|].
  subst w. assert (amount64 mws) by (widths; lia).
  set (wv := offer_value (pn p) (pd p) mws msr) in *.
  set (sv := offer_value (pd p) (pn p) mss mwr) in *.
  destruct (Z.lt_ge_cases sv wv) as [Hlt|Hge].
  - by apply exchangeV10_path_staying_total.
  - eexists. by apply (exchangeV10_path_taken p mws mwr mss msr) with (w := mws) (s := s).
Qed.

Lemma exchangeV10_path_payment_total_witness :
  ∃ r, exchangeV10 (mkPrice 3 100) 200 1000 6 7 PATH_PAYMENT_STRICT_SEND = Ok r.
Proof.
  apply (exchangeV10_path_payment_total (mkPrice 3 100) 222 200 1000 6 7);
    try reflexivity; try (unfold price_ok; simpl; widths; lia). done.
Defined.

(** ** The exchange rules before protocol version 10 *)

(** The amounts of a legacy exchange are within the limits and never favour the
    taker. *)
Definition legacy_ok (p : Price) (wheatReceived mwr mss : Z) (r : ExchangeResult) : Prop :=
  0 ≤ er_numWheatReceived r ≤ Z.min wheatReceived mwr ∧
  0 ≤ er_numSheepSend r ≤ mss ∧
  er_numWheatReceived r * pn p ≤ er_numSheepSend r * pd p ∧
  (er_reduced r = false → wheatReceived ≤ mwr).

(** [exchangeV2] never throws (the source's remark that its last division
    cannot overflow), respects the limits of both parties and never gives the
    taker a better price than the offer's. *)
Theorem exchangeV2_correct (p : Price) (wheatReceived mwr mss : Z) :
  price_ok p → amount64 wheatReceived → amount64 mwr → amount64 mss →
  ∃ r, exchangeV2 wheatReceived p mwr mss = Ok r ∧ legacy_ok p wheatReceived mwr mss r.
Proof.
  intros [[??][??]] ???. unfold amount64 in *. unfold exchangeV2.
  set (w0 := Z.min wheatReceived mwr).
  assert (0 ≤ w0 ≤ INT64_MAX) by (widths; lia).
  rewrite bigDivide_i64_nothrow_exact by (widths; lia). cbn [mbind res_bind rdiv].
  set (q := default INT64_MAX _).
  assert (0 ≤ q ≤ INT64_MAX ∧ pd p * q ≤ w0 * pn p) as [? Hq].
  { unfold q. name_floor (w0 * pn p) (pd p) as f.
    destruct (Z.leb_spec f INT64_MAX); simpl; widths; nia. }
  assert (Z.min q mss * pd p / pn p ≤ w0) as Hfit.
  { apply Z.div_le_upper_bound; nia. }
  rewrite bigDivide_i64_fits by (simpl; widths; lia). cbn [mbind res_bind rdiv].
  eexists. split; [done|]. unfold legacy_ok. cbn.
  name_floor (Z.min q mss * pd p) (pn p) as w. repeat split; nia.
Qed.

Lemma exchangeV2_correct_witness :
  ∃ r, exchangeV2 1000 (mkPrice 3 7) 900 100 = Ok r ∧ legacy_ok (mkPrice 3 7) 1000 900 100 r.
Proof. apply exchangeV2_correct; unfold price_ok; simpl; widths; lia. Defined.

(** [exchangeV3] never throws, respects the limits of both parties and never
    gives the taker a better price than the offer's. *)
Theorem exchangeV3_correct (p : Price) (wheatReceived mwr mss : Z) :
  price_ok p → amount64 wheatReceived → amount64 mwr → amount64 mss →
  ∃ r, exchangeV3 wheatReceived p mwr mss = Ok r ∧ legacy_ok p wheatReceived mwr mss r.
Proof.
  intros [[??][??]] ???. unfold amount64 in *. unfold exchangeV3.
  set (w0 := Z.min wheatReceived mwr).
  assert (0 ≤ w0 ≤ INT64_MAX) by (widths; lia).
  rewrite bigDivide_i64_nothrow_exact by (widths; lia). cbn [mbind res_bind rdiv].
  name_ceil (w0 * pn p) (pd p) as c.
  assert (∃ red q, (match (if c <=? INT64_MAX then Some c else None) with
                    | Some s => (mwr <? wheatReceived, s)
                    | None => (true, INT64_MAX)
                    end) = (red, q) ∧ 0 ≤ q ≤ INT64_MAX ∧
                    (red = false → wheatReceived ≤ mwr)) as (red & q & -> & Hq & Hred).
  { destruct (Z.leb_spec c INT64_MAX); do 2 eexists; (split; [done|]); widths; lia. }
  rewrite bigDivide_i64_nothrow_exact by (widths; lia). cbn [mbind res_bind rdiv].
  eexists. split; [done|]. unfold legacy_ok. cbn.
  name_floor (Z.min q mss * pd p) (pn p) as w.
  assert (0 ≤ Z.min w0 (default INT64_MAX (if w <=? INT64_MAX then Some w else None)) ≤ Z.min w0 w).
  { destruct (Z.leb_spec w INT64_MAX); simpl; lia. }
  set (w' := Z.min w0 (default _ _)) in *. clearbody w'.
  split; [lia|]. split; [lia|]. split; [|by intros [E _]%orb_false_iff; auto].
  transitivity (w * pn p); [apply Z.mul_le_mono_nonneg_r; lia|lia].
Qed.

Lemma exchangeV3_correct_witness :
  ∃ r, exchangeV3 1000 (mkPrice 3 7) 900 100 = Ok r ∧ legacy_ok (mkPrice 3 7) 1000 900 100 r.
Proof. apply exchangeV3_correct; unfold price_ok; simpl; widths; lia. Defined.
