(* ===== verification/BaseN.v ===== *)
(** * Base 16, 32 and 64

    Models [lib/util/basen.h], the encoder and decoder used for keys and for
    values printed in base 64, and the sizes computed in [util/Decoder.h].

    Bytes and characters are integers below 256.  Both directions are related to
    the stream of bits of the data: the encoder cuts it into groups, the decoder
    glues the groups together. *)

From S2P Require Import Prelude.

Definition u8 (x : Z) : Z := x mod 256.

Definition is_byte (x : Z) : Prop := 0 ≤ x < 256.

#[export] Instance is_byte_dec x : Decision (is_byte x).
Proof. unfold is_byte. apply _. Defined.

(** The characters of a literal. *)
Definition chars (s : string) : list Z :=
  (λ c, Z.of_nat (Ascii.nat_of_ascii c)) <$> String.list_ascii_of_string s.

(** ** Conversion traits *)

Definition Error : Z := 255.

Record conversion_traits : Type := mkTraits {
  group_length : Z;
  traits_encode : Z → res Z;
  traits_decode : Z → Z
}.

(** [dictionary[index]], after the assertion that it is in range. *)
Definition dictionary_at (dictionary : list Z) (bound index : Z) : res Z :=
  cassert (index <? bound);; deref (dictionary !! Z.to_nat index).

Definition b16_encode : Z → res Z := dictionary_at (chars "0123456789ABCDEF") 16.

Definition b16_decode (c : Z) : Z :=
  if (48 <=? c) && (c <=? 57) then u8 (c - 48)
  else if (65 <=? c) && (c <=? 70) then u8 (c - 65 + 10)
  else Error.

Definition b16_conversion_traits : conversion_traits := mkTraits 4 b16_encode b16_decode.

Definition b32_encode : Z → res Z :=
  dictionary_at (chars "ABCDEFGHIJKLMNOPQRSTUVWXYZ234567") 32.

Definition b32_decode (c : Z) : Z :=
  if (65 <=? c) && (c <=? 90) then u8 (c - 65)
  else if (50 <=? c) && (c <=? 55) then u8 (c - 50 + 26)
  else Error.

Definition b32_conversion_traits : conversion_traits := mkTraits 5 b32_encode b32_decode.

Definition b64_encode : Z → res Z :=
  dictionary_at
    (chars "ABCDEFGHIJKLMNOPQRSTUVWXYZabcdefghijklmnopqrstuvwxyz0123456789+/") 64.

Definition b64_decode (c : Z) : Z :=
  let alph_len := 26 in
  if (65 <=? c) && (c <=? 90) then u8 (c - 65)
  else if (97 <=? c) && (c <=? 122) then u8 (c - 97 + alph_len * 1)
  else if (48 <=? c) && (c <=? 57) then u8 (c - 48 + alph_len * 2)
  else if c =? 43 then u8 (c - 43 + alph_len * 2 + 10)
  else if c =? 47 then u8 (c - 47 + alph_len * 2 + 11)
  else Error.

Definition b64_conversion_traits : conversion_traits := mkTraits 6 b64_encode b64_decode.

(** ** Decoding *)

(** [std::isspace] in the C locale. *)
Definition isspace (c : Z) : bool := (c =? 32) || (9 <=? c) && (c <=? 13).

Fixpoint decode_from (T : conversion_traits) (iter : list Z) (output_current_bit buffer : Z)
    : list Z :=
  let g := group_length T in
  match iter with
  | [] => []
  | c :: iter' =>
      if isspace c then decode_from T iter' output_current_bit buffer
      else
        let value := traits_decode T c in
        if value =? Error then decode_from T iter' output_current_bit buffer
        else
          let bits_in_current_byte := Z.min (output_current_bit + g) 8 - output_current_bit in
          if bits_in_current_byte =? g then
            let buffer := u8 (Z.lor buffer (Z.shiftl value (8 - output_current_bit - g))) in
            let output_current_bit := output_current_bit + g in
            if output_current_bit =? 8 then buffer :: decode_from T iter' 0 0
            else decode_from T iter' output_current_bit buffer
          else
            let bits_in_next_byte := g - bits_in_current_byte in
            u8 (Z.lor buffer (Z.shiftr value bits_in_next_byte)) ::
            decode_from T iter' bits_in_next_byte
              (u8 (Z.lor 0 (Z.shiftl value (8 - bits_in_next_byte))))
  end.

Definition decode (T : conversion_traits) (s : list Z) : list Z := decode_from T s 0 0.

(** ** Encoding *)

Definition extract_partial_bits (value start_bit bits_count : Z) : res Z :=
  cassert (start_bit + bits_count <? 8);;
  let t1 := u8 (Z.shiftr value (8 - bits_count - start_bit)) in
  mret (u8 (Z.land t1 (Z.lnot (Z.shiftl 255 bits_count)))).

Definition extract_overlapping_bits (previous next start_bit bits_count : Z) : res Z :=
  cassert (start_bit + bits_count <? 16);;
  let bits_count_in_previous := 8 - start_bit in
  let bits_count_in_next := bits_count - bits_count_in_previous in
  let t1 := u8 (Z.shiftl previous bits_count_in_next) in
  let t2 := u8 (Z.land (Z.shiftr next (8 - bits_count_in_next))
                  (Z.lnot (Z.shiftl 255 bits_count_in_next))) in
  mret (u8 (Z.land (Z.lor t1 t2) (Z.lnot (Z.shiftl 255 bits_count)))).

(** The main loop; [backlog] is set when [has_backlog] is. *)
Fixpoint encode_loop (fuel : nat) (T : conversion_traits) (iter : list Z) (start_bit : Z)
    (backlog : option Z) : res (list Z * Z) :=
  let g := group_length T in
  match fuel with
  | O => Throw OutOfFuel
  | S fuel' =>
      match backlog, iter with
      | None, [] => mret ([], start_bit)
      | None, b :: iter' =>
          if start_bit + g <? 8 then
            v ← extract_partial_bits b start_bit g;
            c ← traits_encode T v;
            '(out, end_bit) ← encode_loop fuel' T iter (start_bit + g) None;
            mret (c :: out, end_bit)
          else encode_loop fuel' T iter' start_bit (Some b)
      | Some b, _ =>
          v ← extract_overlapping_bits b (match iter with [] => 0 | n :: _ => n end) start_bit g;
          c ← traits_encode T v;
          '(out, end_bit) ← encode_loop fuel' T iter ((start_bit + g) mod 8) None;
          mret (c :: out, end_bit)
      end
  end.

(** The padding. *)
Fixpoint pad_loop (fuel : nat) (g start_bit : Z) : res (list Z) :=
  if start_bit =? 0 then mret []
  else
    match fuel with
    | O => Throw OutOfFuel
    | S fuel' =>
        out ← pad_loop fuel' g ((start_bit + g) mod 8);
        mret (61 :: out)
    end.

(** Three rounds of the loop per byte are enough, and eight of the padding. *)
Definition encode (T : conversion_traits) (data : list Z) : res (list Z) :=
  '(out, end_bit) ← encode_loop (S (3 * length data)) T data 0 None;
  pad ← pad_loop 8 (group_length T) end_bit;
  mret (out ++ pad).

(** ** Sizes, from [util/Decoder.h] *)

Definition encoded_size32 (rawsize : Z) : Z := (rawsize + 4) / 5 * 8.
Definition encoded_size64 (rawsize : Z) : Z := (rawsize + 2) / 3 * 4.

(** ** Streams of bits *)

(** The [n] low bits of [x], the highest first. *)
Fixpoint bits (n : nat) (x : Z) : list bool :=
  match n with
  | O => []
  | S n' => Z.testbit x (Z.of_nat n') :: bits n' x
  end.

(** The bits of a sequence of [n]-bit groups. *)
Definition stream (n : nat) (l : list Z) : list bool := concat (bits n <$> l).

Lemma length_bits n x : length (bits n x) = n.
Proof. induction n; simpl; congruence. Qed.

Lemma length_stream n l : length (stream n l) = (n * length l)%nat.
Proof.
  unfold stream. induction l as [|x l IH]; [simpl; lia|].
  rewrite fmap_cons, concat_cons, length_app, IH, length_bits. simpl. lia.
Qed.

Lemma stream_cons n x l : stream n (x :: l) = bits n x ++ stream n l.
Proof. done. Qed.

Lemma stream_app n l k : stream n (l ++ k) = stream n l ++ stream n k.
Proof. unfold stream. by rewrite fmap_app, concat_app. Qed.

Lemma bits_testbit n x y i :
  bits n x = bits n y → 0 ≤ i < Z.of_nat n → Z.testbit x i = Z.testbit y i.
Proof.
  induction n as [|n IH]; simpl; [lia|]. intros [= H1 H2] Hi.
  destruct (decide (i = Z.of_nat n)) as [->|]; [done|]. apply IH; [done|lia].
Qed.

Lemma testbit_small n x i :
  0 ≤ x < 2 ^ n → n ≤ i → Z.testbit x i = false.
Proof.
  intros Hx Hi. destruct (decide (x = 0)) as [->|]; [apply Z.bits_0|].
  apply Z.bits_above_log2; [lia|].
  assert (Z.log2 x < n); [|lia]. apply Z.log2_lt_pow2; lia.
Qed.

Lemma bits_inj n x y :
  0 ≤ x < 2 ^ Z.of_nat n → 0 ≤ y < 2 ^ Z.of_nat n → bits n x = bits n y → x = y.
Proof.
  intros Hx Hy Hb. apply Z.bits_inj'. intros i Hi.
  destruct (decide (i < Z.of_nat n)); [apply (bits_testbit n); [done|lia]|].
  by rewrite !(testbit_small (Z.of_nat n)) by lia.
Qed.

Lemma stream_inj n l k :
  (0 < n)%nat → Forall (λ x, 0 ≤ x < 2 ^ Z.of_nat n) l → Forall (λ x, 0 ≤ x < 2 ^ Z.of_nat n) k →
  stream n l = stream n k → l = k.
Proof.
  intros Hn Hl. revert k. induction Hl as [|x l Hx Hl IH]; intros k Hk Hs.
  - apply (f_equal length) in Hs. rewrite !length_stream in Hs. simpl in Hs.
    destruct k; [done|simpl in Hs; lia].
  - destruct k as [|y k].
    { apply (f_equal length) in Hs. rewrite !length_stream in Hs. simpl in Hs. lia. }
    rewrite !stream_cons in Hs. inversion Hk; subst.
    apply app_inj_1 in Hs as [Hb Hs]; [|by rewrite !length_bits].
    f_equal; [by apply (bits_inj n)|auto].
Qed.

Lemma testbit_u8 x i : 0 ≤ i < 8 → Z.testbit (u8 x) i = Z.testbit x i.
Proof. unfold u8. change 256 with (2 ^ 8). intros. apply Z.mod_pow2_bits_low. lia. Qed.

Lemma u8_range x : is_byte (u8 x).
Proof. unfold is_byte, u8. pose proof (Z.mod_pos_bound x 256). lia. Qed.

#[local] Arguments Z.testbit : simpl never.
#[local] Arguments Z.of_nat : simpl never.

(** Evaluates the positions of the bits in the goal. *)
Ltac eval_positions :=
  repeat match goal with
  | |- context [Z.testbit ?v ?e] =>
      lazymatch e with
      | Zpos _ => fail
      | Z0 => fail
      | Zneg _ => fail
      | _ => let e' := eval vm_compute in e in progress change (Z.testbit v e) with (Z.testbit v e')
      end
  end.

(** [solve_bit] proves that a bit of an expression on bytes, at a concrete
    position, is a bit of one of its arguments. *)
Ltac solve_bit :=
  eval_positions;
  repeat first
    [ rewrite testbit_u8 by lia | rewrite Z.lor_spec | rewrite Z.land_spec
    | rewrite Z.lnot_spec by lia
    | rewrite Z.shiftr_spec by lia; eval_positions
    | rewrite Z.shiftl_spec by lia; eval_positions
    | rewrite Z.bits_0 ];
  rewrite ?Z.testbit_neg_r by lia;
  repeat match goal with
  | |- context [Z.testbit (Zpos ?p) (Zpos ?e)] =>
      let b := eval vm_compute in (Z.testbit (Zpos p) (Zpos e)) in
      change (Z.testbit (Zpos p) (Zpos e)) with b
  | |- context [Z.testbit (Zpos ?p) Z0] =>
      let b := eval vm_compute in (Z.testbit (Zpos p) Z0) in
      change (Z.testbit (Zpos p) Z0) with b
  end;
  cbn [negb andb orb]; rewrite ?andb_true_r, ?andb_false_r, ?orb_false_r; try done.

Ltac solve_bits := cbn [bits take drop app]; repeat apply (f_equal2 cons); solve_bit.

Lemma byte_below g x :
  0 ≤ g ≤ 8 → is_byte x → (∀ i, g ≤ i < 8 → Z.testbit x i = false) → 0 ≤ x < 2 ^ g.
Proof.
  intros Hg Hx Hb. assert (x = x mod 2 ^ g) as ->; [|apply Z.mod_pos_bound; lia].
  apply Z.bits_inj'. intros i Hi. destruct (decide (i < g)).
  - by rewrite Z.mod_pow2_bits_low.
  - rewrite Z.mod_pow2_bits_high by lia. destruct (decide (i < 8)); [apply Hb; lia|].
    apply (testbit_small 8); [done|lia].
Qed.

Lemma masked_below g y : 0 ≤ g ≤ 8 → 0 ≤ u8 (Z.land y (Z.lnot (Z.shiftl 255 g))) < 2 ^ g.
Proof.
  intros Hg. apply byte_below; [done|apply u8_range|]. intros i Hi.
  rewrite testbit_u8, Z.land_spec, Z.lnot_spec, Z.shiftl_spec by lia.
  change 255 with (Z.ones 8). rewrite Z.ones_spec_low by lia. apply andb_false_r.
Qed.

(** A group inside a byte. *)
Lemma partial_bits g v s :
  4 ≤ g ≤ 6 → 0 ≤ s → s + g < 8 →
  ∃ x, extract_partial_bits v s g = Ok x ∧ 0 ≤ x < 2 ^ g ∧
       bits (Z.to_nat g) x = take (Z.to_nat g) (drop (Z.to_nat s) (bits 8 v)).
Proof.
  intros Hg Hs Hsg. unfold extract_partial_bits. rewrite (proj2 (Z.ltb_lt _ _) Hsg). cbn.
  eexists. split; [done|]. split; [apply masked_below; lia|].
  assert ((g = 4 ∨ g = 5 ∨ g = 6) ∧ (s = 0 ∨ s = 1 ∨ s = 2 ∨ s = 3)) as [Eg Es] by lia.
  destruct Eg as [->|[->| ->]], Es as [->|[->|[->| ->]]]; try lia;
    cbn [Z.to_nat Pos.to_nat Pos.iter_op Init.Nat.add]; solve_bits.
Qed.

(** A group across two bytes. *)
Lemma overlapping_bits g p n s :
  4 ≤ g ≤ 6 → 0 ≤ s < 8 → 8 ≤ s + g →
  ∃ x, extract_overlapping_bits p n s g = Ok x ∧ 0 ≤ x < 2 ^ g ∧
       bits (Z.to_nat g) x =
       drop (Z.to_nat s) (bits 8 p) ++ take (Z.to_nat (s + g - 8)) (bits 8 n).
Proof.
  intros Hg Hs Hsg. unfold extract_overlapping_bits. rewrite (proj2 (Z.ltb_lt _ _)) by lia. cbn.
  eexists. split; [done|]. split; [apply masked_below; lia|].
  assert ((g = 4 ∨ g = 5 ∨ g = 6) ∧ (s = 2 ∨ s = 3 ∨ s = 4 ∨ s = 5 ∨ s = 6 ∨ s = 7))
    as [Eg Es] by lia.
  destruct Eg as [->|[->| ->]], Es as [->|[->|[->|[->|[->| ->]]]]]; try lia;
    cbn [Z.to_nat Pos.to_nat Pos.iter_op Init.Nat.add Z.add Z.sub Z.opp Z.pos_sub Pos.add Pos.sub
         Pos.sub_mask Pos.succ Pos.pred_double Pos.double_mask Pos.succ_double_mask
         Pos.double_pred_mask Pos.pred_mask]; solve_bits.
Qed.

(** ** The alphabets *)

(** What the encoder needs of an alphabet. *)
Class ValidTraits (T : conversion_traits) : Prop := {
  valid_group : 4 ≤ group_length T ≤ 6;
  valid_encode : ∀ x, 0 ≤ x < 2 ^ group_length T →
    ∃ c, traits_encode T x = Ok c ∧ is_byte c ∧ isspace c = false ∧ traits_decode T c = x;
  valid_pad : traits_decode T 61 = Error;
  valid_decode : ∀ c, is_byte c → isspace c = false → traits_decode T c ≠ Error →
    0 ≤ traits_decode T c < 2 ^ group_length T ∧ traits_encode T (traits_decode T c) = Ok c
}.

(** The decision procedure for the two middle laws. *)
Definition valid_encodeb (T : conversion_traits) (x : Z) : bool :=
  match traits_encode T x with
  | Ok c => bool_decide (is_byte c) && negb (isspace c) && (traits_decode T c =? x)
  | Throw _ => false
  end.

Definition valid_decodeb (T : conversion_traits) (c : Z) : bool :=
  isspace c || (traits_decode T c =? Error) ||
  bool_decide (0 ≤ traits_decode T c < 2 ^ group_length T) &&
  bool_decide (traits_encode T (traits_decode T c) = Ok c).

Lemma forallb_seqZ (f : Z → bool) n x : forallb f (seqZ 0 n) = true → 0 ≤ x < n → f x = true.
Proof.
  intros Hf Hx. rewrite forallb_forall in Hf. apply Hf, list_elem_of_In, elem_of_seqZ. lia.
Qed.

Lemma valid_traits T :
  4 ≤ group_length T ≤ 6 → traits_decode T 61 = Error →
  forallb (valid_encodeb T) (seqZ 0 (2 ^ group_length T)) = true →
  forallb (valid_decodeb T) (seqZ 0 256) = true → ValidTraits T.
Proof.
  intros Hg Hpad He Hd. split; [done| |done|].
  - intros x Hx. pose proof (forallb_seqZ _ _ _ He Hx) as H. unfold valid_encodeb in H.
    destruct (traits_encode T x) as [c|]; [|done].
    rewrite !andb_true_iff, negb_true_iff, bool_decide_eq_true, Z.eqb_eq in H.
    destruct H as [[? ?] ?]. eauto.
  - intros c Hc Hs Hne. pose proof (forallb_seqZ _ _ _ Hd Hc) as H. unfold valid_decodeb in H.
    rewrite Hs, (proj2 (Z.eqb_neq _ _) Hne) in H.
    by rewrite orb_false_l, andb_true_iff, !bool_decide_eq_true in H.
Qed.

#[export] Instance b16_valid : ValidTraits b16_conversion_traits.
Proof. apply valid_traits; [simpl; lia|done|vm_compute; done..]. Qed.
#[export] Instance b32_valid : ValidTraits b32_conversion_traits.
Proof. apply valid_traits; [simpl; lia|done|vm_compute; done..]. Qed.
#[export] Instance b64_valid : ValidTraits b64_conversion_traits.
Proof. apply valid_traits; [simpl; lia|done|vm_compute; done..]. Qed.

(** ** The encoder cuts the stream into groups *)

Section codec.
Context (T : conversion_traits) `{!ValidTraits T}.
Notation g := (group_length T).
Notation gn := (Z.to_nat (group_length T)).

(** The characters of a list of groups. *)
Definition encodes (vals cs : list Z) : Prop :=
  Forall2 (λ v c, 0 ≤ v < 2 ^ g ∧ traits_encode T v = Ok c ∧ is_byte c ∧
                  isspace c = false ∧ traits_decode T c = v) vals cs.

(** What is left to encode. *)
Definition remaining (iter : list Z) (s : Z) (backlog : option Z) : list bool :=
  match backlog with
  | None => drop (Z.to_nat s) (stream 8 iter)
  | Some b => drop (Z.to_nat s) (bits 8 b) ++ stream 8 iter
  end.

Definition rounds (iter : list Z) (s : Z) (backlog : option Z) : nat :=
  match backlog with
  | None => if s + g <? 8 then 3 * length iter else 3 * length iter - 1
  | Some _ => 3 * length iter + 1
  end.

Lemma encodes_cons v vals cs :
  0 ≤ v < 2 ^ g → encodes vals cs → ∃ c, traits_encode T v = Ok c ∧ encodes (v :: vals) (c :: cs).
Proof.
  intros Hv He. destruct (valid_encode v Hv) as (c & Hc & Hb & Hs & Hd).
  exists c. split; [done|]. by constructor.
Qed.

(** A group taken across a byte boundary, and one inside a byte. *)
Lemma remaining_overlap iter s b v vals pad :
  4 ≤ g ≤ 6 → 0 ≤ s < 8 → 8 ≤ s + g →
  bits gn v = drop (Z.to_nat s) (bits 8 b) ++
    take (Z.to_nat (s + g - 8)) (bits 8 (match iter with [] => 0 | n :: _ => n end)) →
  stream gn vals = remaining iter (s + g - 8) None ++ pad → (length pad < gn)%nat →
  ∃ pad', stream gn (v :: vals) = remaining iter s (Some b) ++ pad' ∧ (length pad' < gn)%nat.
Proof.
  intros Hg Hs Hsg Hb Hst Hpad. rewrite stream_cons, Hb, Hst. unfold remaining.
  destruct iter as [|n iter].
  - change (stream 8 []) with (@nil bool) in *. simpl in Hst. rewrite drop_nil in *.
    exists (take (Z.to_nat (s + g - 8)) (bits 8 0) ++ pad).
    rewrite app_nil_r, <-app_assoc, app_nil_l. split; [done|].
    apply (f_equal length) in Hst. rewrite length_stream in Hst. simpl in Hst.
    assert (length pad = 0)%nat by (destruct vals; simpl in *; lia).
    rewrite length_app, length_take, length_bits. lia.
  - exists pad. rewrite stream_cons, drop_app_le by (rewrite length_bits; lia).
    rewrite <-!app_assoc. f_equal. rewrite (app_assoc (take _ _)), take_drop. split; [done|lia].
Qed.

Lemma remaining_partial iter s b v :
  4 ≤ g ≤ 6 → 0 ≤ s → s + g < 8 →
  bits gn v = take gn (drop (Z.to_nat s) (bits 8 b)) →
  remaining (b :: iter) s None = bits gn v ++ remaining (b :: iter) (s + g) None.
Proof.
  intros Hg Hs Hsg ->. unfold remaining. rewrite Z2Nat.inj_add, <-drop_drop by lia.
  rewrite stream_cons, drop_app_le by (rewrite length_bits; lia).
  rewrite drop_app_le by (rewrite length_drop, length_bits; lia).
  by rewrite app_assoc, take_drop.
Qed.

Lemma encode_loop_bits fuel iter s backlog :
  (rounds iter s backlog < fuel)%nat → 0 ≤ s < 8 →
  match backlog with Some _ => 8 ≤ s + g | None => True end →
  ∃ vals cs pad, encode_loop fuel T iter s backlog = Ok (cs, (s + g * Z.of_nat (length vals)) mod 8) ∧
    encodes vals cs ∧ stream gn vals = remaining iter s backlog ++ pad ∧ (length pad < gn)%nat.
Proof.
  pose proof valid_group as Hg.
  revert iter s backlog. induction fuel as [|fuel IH]; intros iter s backlog Hf Hs Hbl; [lia|].
  cbn [encode_loop]. unfold rounds in Hf. destruct backlog as [b|].
  - destruct (overlapping_bits g b (match iter with [] => 0 | n :: _ => n end) s)
      as (v & -> & Hv & Hbits); [done..|]. cbn [mbind res_bind].
    assert ((s + g) mod 8 = s + g - 8) as ->.
    { rewrite <-(Z.mod_add (s + g) (-1) 8), Z.mod_small; lia. }
    destruct (IH iter (s + g - 8) None) as (vals & cs & pad & -> & He & Hst & Hpad);
      [unfold rounds; destruct (_ <? _); lia|lia|done|].
    destruct (encodes_cons v vals cs Hv He) as (c & -> & He').
    destruct (remaining_overlap iter s b v vals pad) as (pad' & Hst' & Hpad'); [done..|].
    exists (v :: vals), (c :: cs), pad'. split_and!; [|done..]. cbn. do 2 f_equal.
    rewrite <-(Z.mod_add (s + g - 8 + _) 1 8) by lia. f_equal. simpl. lia.
  - destruct iter as [|b iter].
    { exists [], [], []. simpl. rewrite Z.mul_0_r, Z.add_0_r, Z.mod_small by done.
      unfold stream. simpl. rewrite drop_nil. split_and!; try done; [constructor|lia]. }
    destruct (Z.ltb_spec (s + g) 8) as [Hlt|Hge].
    + destruct (partial_bits g b s) as (v & -> & Hv & Hbits); [done|lia..|]. cbn [mbind res_bind].
      destruct (IH (b :: iter) (s + g) None) as (vals & cs & pad & -> & He & Hst & Hpad);
        [unfold rounds; rewrite (proj2 (Z.ltb_ge (s + g + g) 8)) by lia; simpl in *; lia|lia|done|].
      destruct (encodes_cons v vals cs Hv He) as (c & -> & He').
      exists (v :: vals), (c :: cs), pad. split_and!; [..|done].
      * cbn. do 3 f_equal. simpl. lia.
      * done.
      * rewrite stream_cons, Hst, (remaining_partial iter s b v) by (done || lia).
        by rewrite <-app_assoc.
    + destruct (IH iter s (Some b)) as (vals & cs & pad & -> & He & Hst & Hpad);
        [unfold rounds; simpl in *; lia|done|done|].
      exists vals, cs, pad. split_and!; [done|done| |done]. rewrite Hst. unfold remaining.
      by rewrite stream_cons, drop_app_le by (rewrite length_bits; lia).
Qed.
End codec.
(** ** The decoder glues the groups together *)

(** [solve_zero_bits Hv Hb]: as [solve_bits], with the bits known to be zero. *)
Ltac solve_zero_bits Hv Hb :=
  cbn [bits take drop app]; repeat apply (f_equal2 cons); solve_bit;
  repeat match goal with
  | |- context [Z.testbit ?x ?e] => rewrite (Hv e) by lia
  | |- context [Z.testbit ?x ?e] => rewrite (Hb e) by lia
  end; rewrite ?orb_false_r; try done.

Ltac eval_nat := cbn [Z.to_nat Pos.to_nat Pos.iter_op Init.Nat.add Z.add Z.sub Z.opp Z.pos_sub Pos.add
  Pos.sub Pos.sub_mask Pos.succ Pos.pred_double Pos.double_mask Pos.succ_double_mask
  Pos.double_pred_mask Pos.pred_mask].

(** The group fits in the current byte. *)
Lemma glue_fits g v s b :
  4 ≤ g ≤ 6 → 0 ≤ s → s + g ≤ 8 → 0 ≤ v < 2 ^ g →
  (∀ i, 0 ≤ i < 8 - s → Z.testbit b i = false) →
  let b' := u8 (Z.lor b (Z.shiftl v (8 - s - g))) in
  take (Z.to_nat (s + g)) (bits 8 b') = take (Z.to_nat s) (bits 8 b) ++ bits (Z.to_nat g) v ∧
  (∀ i, 0 ≤ i < 8 - (s + g) → Z.testbit b' i = false).
Proof.
  intros Hg Hs Hsg Hv Hb b'. split.
  - assert (∀ i, g ≤ i → Z.testbit v i = false) as Hv' by (intros; by apply (testbit_small g)).
    unfold b'. clear b' Hv.
    assert ((g = 4 ∨ g = 5 ∨ g = 6) ∧ (s = 0 ∨ s = 1 ∨ s = 2 ∨ s = 3 ∨ s = 4)) as [Eg Es] by lia.
    destruct Eg as [->|[->| ->]], Es as [->|[->|[->|[->| ->]]]]; try lia;
      eval_nat; solve_zero_bits Hv' Hb.
  - intros i Hi. unfold b'. rewrite testbit_u8, Z.lor_spec, Z.shiftl_spec by lia.
    rewrite Hb, Z.testbit_neg_r by lia. done.
Qed.

(** It spans the current byte and the next one. *)
Lemma glue_spans g v s b :
  4 ≤ g ≤ 6 → 0 ≤ s < 8 → 8 < s + g → 0 ≤ v < 2 ^ g →
  (∀ i, 0 ≤ i < 8 - s → Z.testbit b i = false) →
  let k := s + g - 8 in
  let b' := u8 (Z.lor 0 (Z.shiftl v (8 - k))) in
  bits 8 (u8 (Z.lor b (Z.shiftr v k))) ++ take (Z.to_nat k) (bits 8 b') =
  take (Z.to_nat s) (bits 8 b) ++ bits (Z.to_nat g) v ∧
  (∀ i, 0 ≤ i < 8 - k → Z.testbit b' i = false).
Proof.
  intros Hg Hs Hsg Hv Hb k b'. split.
  - assert (∀ i, g ≤ i → Z.testbit v i = false) as Hv' by (intros; by apply (testbit_small g)).
    unfold b', k. clear b' Hv.
    assert ((g = 4 ∨ g = 5 ∨ g = 6) ∧ (s = 3 ∨ s = 4 ∨ s = 5 ∨ s = 6 ∨ s = 7)) as [Eg Es] by lia.
    destruct Eg as [->|[->| ->]], Es as [->|[->|[->|[->| ->]]]]; try lia;
      eval_nat; solve_zero_bits Hv' Hb.
  - intros i Hi. unfold b'. rewrite testbit_u8, Z.lor_spec, Z.shiftl_spec, Z.bits_0 by lia.
    rewrite Z.testbit_neg_r by lia. done.
Qed.

Section decoder.
Context (T : conversion_traits) `{!ValidTraits T}.
Notation g := (group_length T).
Notation gn := (Z.to_nat (group_length T)).

(** The group a character stands for, if any: the others are skipped. *)
Definition group_of (c : Z) : option Z :=
  if isspace c then None
  else if traits_decode T c =? Error then None else Some (traits_decode T c).

Definition groups (s : list Z) : list Z := omap group_of s.

Lemma decode_from_skip c iter s b :
  group_of c = None → decode_from T (c :: iter) s b = decode_from T iter s b.
Proof.
  unfold group_of. cbn [decode_from]. destruct (isspace c); [done|].
  by destruct (traits_decode T c =? Error).
Qed.

Lemma group_of_range c v : is_byte c → group_of c = Some v → 0 ≤ v < 2 ^ g.
Proof.
  unfold group_of. intros Hc. destruct (isspace c) eqn:Hs; [done|].
  destruct (Z.eqb_spec (traits_decode T c) Error); [done|]. intros [= <-].
  by apply valid_decode.
Qed.

Lemma decode_from_group c iter s b v :
  group_of c = Some v →
  decode_from T (c :: iter) s b =
  (if s + g <=? 8 then
     let b' := u8 (Z.lor b (Z.shiftl v (8 - s - g))) in
     if s + g =? 8 then b' :: decode_from T iter 0 0 else decode_from T iter (s + g) b'
   else
     u8 (Z.lor b (Z.shiftr v (s + g - 8))) ::
     decode_from T iter (s + g - 8) (u8 (Z.lor 0 (Z.shiftl v (8 - (s + g - 8)))))).
Proof.
  unfold group_of. cbn [decode_from]. destruct (isspace c); [done|].
  destruct (traits_decode T c =? Error); [done|]. intros [= ->]. cbv zeta.
  destruct (Z.leb_spec (s + g) 8).
  - by rewrite Z.min_l, (proj2 (Z.eqb_eq _ _)) by lia.
  - rewrite Z.min_r, (proj2 (Z.eqb_neq _ _)) by lia.
    by replace (g - (8 - s)) with (s + g - 8) by lia.
Qed.

Lemma decode_from_bits iter s b :
  Forall is_byte iter → 0 ≤ s < 8 → (∀ i, 0 ≤ i < 8 - s → Z.testbit b i = false) →
  Forall is_byte (decode_from T iter s b) ∧
  ∃ rest, stream 8 (decode_from T iter s b) ++ rest =
          take (Z.to_nat s) (bits 8 b) ++ stream gn (groups iter) ∧ (length rest < 8)%nat.
Proof.
  pose proof valid_group as Hg. intros Hit. revert s b.
  induction Hit as [|c iter Hc Hit IH]; intros s b Hs Hb.
  { split; [constructor|]. exists (take (Z.to_nat s) (bits 8 b)).
    split; [symmetry; apply app_nil_r|].
    rewrite length_take, length_bits. lia. }
  destruct (group_of c) as [v|] eqn:Hv.
  2: { rewrite decode_from_skip by done. unfold groups. simpl. rewrite Hv. by apply IH. }
  rewrite (decode_from_group _ _ _ _ v) by done. pose proof (group_of_range c v Hc Hv) as Hvr.
  assert (groups (c :: iter) = v :: groups iter) as -> by (unfold groups; simpl; by rewrite Hv).
  rewrite stream_cons. destruct (Z.leb_spec (s + g) 8) as [Hle|Hgt]; cbv zeta.
  - destruct (glue_fits g v s b) as [Hbits Hz]; [done|lia|done..|]. rewrite app_assoc, <-Hbits.
    set (b' := u8 _) in *. destruct (Z.eqb_spec (s + g) 8) as [E|Hne].
    + destruct (IH 0 0) as (Hby & rest & Hr & Hl); [lia|intros; apply Z.bits_0|].
      split; [constructor; [apply u8_range|done]|]. exists rest. split; [|done].
      rewrite stream_cons, <-app_assoc, Hr, E. simpl. done.
    + apply IH; [lia|done].
  - destruct (glue_spans g v s b) as [Hbits Hz]; [done|lia|lia|done..|].
    rewrite app_assoc, <-Hbits, <-app_assoc.
    destruct (IH (s + g - 8) (u8 (Z.lor 0 (Z.shiftl v (8 - (s + g - 8))))))
      as (Hby & rest & Hr & Hl); [lia|done|].
    split; [constructor; [apply u8_range|done]|]. exists rest. split; [|done].
    by rewrite stream_cons, <-app_assoc, Hr.
Qed.

Lemma decode_bits s :
  Forall is_byte s →
  Forall is_byte (decode T s) ∧
  ∃ rest, stream 8 (decode T s) ++ rest = stream gn (groups s) ∧ (length rest < 8)%nat.
Proof. intros Hs. apply (decode_from_bits s 0 0); [done|lia|]. intros. apply Z.bits_0. Qed.

Lemma groups_encodes vals cs : encodes T vals cs → groups cs = vals.
Proof.
  induction 1 as [|v c vals cs (Hv & _ & Hb & Hs & Hd) _ IH]; [done|].
  unfold groups. cbn [omap list_omap]. unfold group_of at 1. rewrite Hs, Hd.
  assert (v ≠ Error) as Hne%Z.eqb_neq.
  { unfold Error. assert (2 ^ g ≤ 2 ^ 6) by (apply Z.pow_le_mono_r; pose proof valid_group; lia). lia. }
  rewrite Hne. by f_equal.
Qed.

Lemma groups_app s t : groups (s ++ t) = groups s ++ groups t.
Proof. apply omap_app. Qed.

Lemma stream_byte_prefix l k rest pad :
  stream 8 l ++ rest = stream 8 k ++ pad → (length rest < 8)%nat → (length pad < 8)%nat →
  stream 8 l = stream 8 k.
Proof.
  intros E Hr Hp. pose proof (f_equal length E) as El.
  rewrite !length_app, !length_stream in El.
  apply (app_inj_1 _ _ _ _) in E as [E _]; [done|]. rewrite !length_stream. lia.
Qed.
End decoder.

(** ** Round trips *)

Lemma pad_loop_Ok g n :
  4 ≤ g ≤ 6 → 0 ≤ n →
  ∃ p, pad_loop 8 g ((g * n) mod 8) = Ok (replicate p 61) ∧
       (g * (n + Z.of_nat p)) mod 8 = 0 ∧
       ∀ q, 0 ≤ q < Z.of_nat p → (g * (n + q)) mod 8 ≠ 0.
Proof.
  intros Hg Hn. assert (∀ q, (g * (n + q)) mod 8 = (g * (n mod 8 + q)) mod 8) as Hmod.
  { intros q. by rewrite <-(Z.mul_mod_idemp_r g (n + q)), <-(Z.mul_mod_idemp_r g (n mod 8 + q)),
      Z.add_mod_idemp_l by lia. }
  setoid_rewrite Hmod. replace (g * n) with (g * (n + 0)) by lia. rewrite Hmod.
  clear Hmod. pose proof (Z.mod_pos_bound n 8 ltac:(lia)) as Hm.
  set (m := n mod 8) in *. clearbody m. clear Hn n.
  assert ((g = 4 ∨ g = 5 ∨ g = 6) ∧
    (m = 0 ∨ m = 1 ∨ m = 2 ∨ m = 3 ∨ m = 4 ∨ m = 5 ∨ m = 6 ∨ m = 7)) as [Eg Em] by lia.
  destruct Eg as [->|[->| ->]];
    repeat (destruct Em as [->|Em]); try subst m;
    match goal with |- ∃ p, ?l = _ ∧ _ =>
      let r := eval vm_compute in l in
      match r with Ok ?x => let k := eval vm_compute in (length x) in exists k end
    end; (split; [vm_compute; reflexivity|split; [vm_compute; reflexivity|]]);
    simpl; intros q Hq;
    assert (q = 0 ∨ q = 1 ∨ q = 2 ∨ q = 3 ∨ q = 4 ∨ q = 5 ∨ q = 6) as Eq by lia;
    repeat (destruct Eq as [->|Eq]); try subst q; try lia; vm_compute; done.
Qed.

Section roundtrip.
Context (T : conversion_traits) `{!ValidTraits T}.
Notation g := (group_length T).
Notation gn := (Z.to_nat (group_length T)).

Lemma encode_Ok data :
  ∃ vals cs pad p,
    encode T data = Ok (cs ++ replicate p 61) ∧ encodes T vals cs ∧
    stream gn vals = stream 8 data ++ pad ∧ (length pad < gn)%nat ∧
    (g * (Z.of_nat (length vals) + Z.of_nat p)) mod 8 = 0 ∧
    ∀ q, 0 ≤ q < Z.of_nat p → (g * (Z.of_nat (length vals) + q)) mod 8 ≠ 0.
Proof.
  pose proof valid_group as Hg.
  destruct (encode_loop_bits T (S (3 * length data)) data 0 None)
    as (vals & cs & pad & Hrun & He & Hst & Hpad); [|lia|done|].
  { unfold rounds. destruct (_ <? _); lia. }
  destruct (pad_loop_Ok g (Z.of_nat (length vals)) Hg) as (p & Hp & H0 & Hmin); [lia|].
  exists vals, cs, pad, p. split_and!; try done.
  unfold encode. rewrite Hrun, Z.add_0_l. cbn [mbind res_bind]. by rewrite Hp.
Qed.

Lemma encodes_bytes vals cs : encodes T vals cs → Forall is_byte cs.
Proof. induction 1 as [|v c vals cs (_ & _ & Hb & _)]; constructor; auto. Qed.

Lemma groups_pad p : groups T (replicate p 61) = [].
Proof.
  induction p as [|p IH]; [done|]. simpl. unfold groups, group_of at 1. simpl.
  rewrite valid_pad. exact IH.
Qed.

Lemma decode_encode data :
  Forall is_byte data →
  ∃ s, encode T data = Ok s ∧ Forall is_byte s ∧ decode T s = data.
Proof.
  pose proof valid_group as Hg. intros Hd.
  destruct (encode_Ok data) as (vals & cs & pad & p & Henc & He & Hst & Hpad & _).
  exists (cs ++ replicate p 61). split; [done|].
  assert (Forall is_byte (cs ++ replicate p 61)) as Hb.
  { apply Forall_app. split; [by eapply encodes_bytes|]. by apply Forall_replicate. }
  split; [done|]. destruct (decode_bits T _ Hb) as (Hby & rest & Hr & Hl).
  rewrite groups_app, groups_pad, app_nil_r, (groups_encodes T vals cs He), Hst in Hr.
  apply (stream_inj 8); [lia|done|done|]. eapply stream_byte_prefix; [exact Hr|done|lia].
Qed.

Lemma length_groups s : (length (groups T s) ≤ length s)%nat.
Proof. induction s as [|c s IH]; simpl; [lia|]. destruct (group_of T c); simpl; lia. Qed.

(** A string all of whose characters are used is the encoding of what it
    decodes to. *)
Lemma groups_full s :
  Forall is_byte s → length (groups T s) = length s → encodes T (groups T s) s.
Proof.
  induction 1 as [|c s Hc Hs IH]; [constructor|].
  pose proof (length_groups s) as Hle. unfold groups in *. cbn [omap list_omap]. destruct (group_of T c) as [v|] eqn:Hv; simpl; [|lia].
  intros Hlen. constructor; [|apply IH; lia]. unfold group_of in Hv.
  destruct (isspace c) eqn:Hsp; [done|].
  destruct (Z.eqb_spec (traits_decode T c) Error); [done|]. injection Hv as <-.
  destruct (valid_decode c Hc Hsp) as [? ?]; done.
Qed.

Lemma encodes_fun vals cs cs' : encodes T vals cs → encodes T vals cs' → cs = cs'.
Proof.
  intros H. revert cs'. induction H as [|v c vals cs (_ & Hc & _) _ IH]; intros cs' H';
    inversion H' as [|? ? ? ? (_ & Hc' & _)]; subst; [done|].
  f_equal; [congruence|auto].
Qed.

Lemma group_cases : g = 4 ∧ gn = 4%nat ∨ g = 5 ∧ gn = 5%nat ∨ g = 6 ∧ gn = 6%nat.
Proof. pose proof valid_group. lia. Qed.

Lemma encode_decode s :
  Forall is_byte s → g * Z.of_nat (length s) = 8 * Z.of_nat (length (decode T s)) →
  encode T (decode T s) = Ok s.
Proof.
  intros Hs Hlen. pose proof (length_groups s) as Hle.
  destruct (decode_bits T s Hs) as (Hby & rest & Hr & Hl).
  destruct (encode_Ok (decode T s)) as (vals & cs & pad & p & -> & He & Hst & Hpad & H0 & Hmin).
  pose proof (f_equal length Hr) as Hlr. rewrite length_app, !length_stream in Hlr.
  pose proof (f_equal length Hst) as Hls. rewrite length_app, !length_stream in Hls.
  assert (length (groups T s) = length s ∧ length rest = 0%nat ∧ length pad = 0%nat ∧
    length vals = length s) as (Hfull & ->%nil_length_inv & ->%nil_length_inv & Hlv).
  { destruct group_cases as [[E1 E2]|[[E1 E2]|[E1 E2]]]; rewrite E1, E2 in *; lia. }
  rewrite app_nil_r in Hr, Hst.
  assert (vals = groups T s) as ->.
  { apply (stream_inj gn); [destruct group_cases; lia|..|congruence].
    - rewrite Z2Nat.id by (pose proof valid_group; lia).
      clear -He. induction He; constructor; naive_solver.
    - rewrite Z2Nat.id by (pose proof valid_group; lia).
      pose proof (groups_full s Hs Hfull) as Hg. clear -Hg.
      induction Hg; constructor; naive_solver. }
  rewrite (encodes_fun _ _ _ He (groups_full s Hs Hfull)).
  destruct p as [|p]; [by rewrite app_nil_r|]. exfalso. apply (Hmin 0); [lia|].
  rewrite Hlv, Z.add_0_r, Hlen, Z.mul_comm. by rewrite Z.mod_mul.
Qed.
End roundtrip.

Lemma encodes_length T vals cs : encodes T vals cs → length cs = length vals.
Proof. intros He. symmetry. by eapply Forall2_length. Qed.

Lemma encode_size32 data s :
  encode b32_conversion_traits data = Ok s →
  Z.of_nat (length s) = encoded_size32 (Z.of_nat (length data)).
Proof.
  destruct (encode_Ok b32_conversion_traits data)
    as (vals & cs & pad & p & -> & He%encodes_length & Hst & Hpad & H0 & Hmin). intros [= <-].
  apply (f_equal length) in Hst. rewrite length_app, !length_stream in Hst.
  rewrite length_app, length_replicate, He. unfold encoded_size32.
  change (Z.to_nat (group_length b32_conversion_traits)) with 5%nat in *.
  change (group_length b32_conversion_traits) with 5 in *.
  assert (p < 8)%nat.
  { destruct (decide (p < 8)%nat) as [|Hp]; [done|exfalso].
    set (m := Z.of_nat (length vals)) in *. 
    apply (Hmin ((- m) mod 8)); [pose proof (Z.mod_pos_bound (- m) 8); lia|].
    rewrite <-Z.mul_mod_idemp_r, Z.add_mod_idemp_r by lia.
    by replace (m + - m) with 0 by lia. }
  Z.div_mod_to_equations. lia.
Qed.

Lemma encode_size64 data s :
  encode b64_conversion_traits data = Ok s →
  Z.of_nat (length s) = encoded_size64 (Z.of_nat (length data)).
Proof.
  destruct (encode_Ok b64_conversion_traits data)
    as (vals & cs & pad & p & -> & He%encodes_length & Hst & Hpad & H0 & Hmin). intros [= <-].
  apply (f_equal length) in Hst. rewrite length_app, !length_stream in Hst.
  rewrite length_app, length_replicate, He. unfold encoded_size64.
  change (Z.to_nat (group_length b64_conversion_traits)) with 6%nat in *.
  change (group_length b64_conversion_traits) with 6 in *.
  assert (p < 4)%nat.
  { destruct (decide (p < 4)%nat) as [|Hp]; [done|exfalso].
    set (m := Z.of_nat (length vals)) in *.
    apply (Hmin ((- m) mod 4)); [pose proof (Z.mod_pos_bound (- m) 4); lia|].
    Z.div_mod_to_equations. lia. }
  Z.div_mod_to_equations. lia.
Qed.
