(* ===== verification/StrKey.v ===== *)
(** * Keys as text

    Models [crypto/StrKey.cpp], [crypto/KeyUtils.h], the key types of
    [crypto/SecretKey.cpp] and [crypto/SignerKey.cpp], and [lib/util/crc16.cpp].

    A key is written in base 32 as a version byte, its 32 bytes and a checksum.
    The theorems: reading a key that was written gives it back, a key with one
    wrong character is refused, and which strings are accepted exactly. *)

From S2P Require Import Prelude BaseN.

(** ** The checksum *)

Definition crc16tab : list Z :=
  [0; 4129; 8258; 12387; 16516; 20645; 24774; 28903; 33032; 37161; 41290; 45419; 49548; 53677; 57806; 61935;
   4657; 528; 12915; 8786; 21173; 17044; 29431; 25302; 37689; 33560; 45947; 41818; 54205; 50076; 62463; 58334;
   9314; 13379; 1056; 5121; 25830; 29895; 17572; 21637; 42346; 46411; 34088; 38153; 58862; 62927; 50604; 54669;
   13907; 9842; 5649; 1584; 30423; 26358; 22165; 18100; 46939; 42874; 38681; 34616; 63455; 59390; 55197; 51132;
   18628; 22757; 26758; 30887; 2112; 6241; 10242; 14371; 51660; 55789; 59790; 63919; 35144; 39273; 43274; 47403;
   23285; 19156; 31415; 27286; 6769; 2640; 14899; 10770; 56317; 52188; 64447; 60318; 39801; 35672; 47931; 43802;
   27814; 31879; 19684; 23749; 11298; 15363; 3168; 7233; 60846; 64911; 52716; 56781; 44330; 48395; 36200; 40265;
   32407; 28342; 24277; 20212; 15891; 11826; 7761; 3696; 65439; 61374; 57309; 53244; 48923; 44858; 40793; 36728;
   37256; 33193; 45514; 41451; 53516; 49453; 61774; 57711; 4224; 161; 12482; 8419; 20484; 16421; 28742; 24679;
   33721; 37784; 41979; 46042; 49981; 54044; 58239; 62302; 689; 4752; 8947; 13010; 16949; 21012; 25207; 29270;
   46570; 42443; 38312; 34185; 62830; 58703; 54572; 50445; 13538; 9411; 5280; 1153; 29798; 25671; 21540; 17413;
   42971; 47098; 34713; 38840; 59231; 63358; 50973; 55100; 9939; 14066; 1681; 5808; 26199; 30326; 17941; 22068;
   55628; 51565; 63758; 59695; 39368; 35305; 47498; 43435; 22596; 18533; 30726; 26663; 6336; 2273; 14466; 10403;
   52093; 56156; 60223; 64286; 35833; 39896; 43963; 48026; 19061; 23124; 27191; 31254; 2801; 6864; 10931; 14994;
   64814; 60687; 56684; 52557; 48554; 44427; 40424; 36297; 31782; 27655; 23652; 19525; 15522; 11395; 7392; 3265;
   61215; 65342; 53085; 57212; 44955; 49082; 36825; 40952; 28183; 32310; 20053; 24180; 11923; 16050; 3793; 7920].

(** One round of the loop.  Only the low byte of [crc >> 8 ^ *buf] is used, so
    that the sign of [char] does not matter. *)
Definition crc16_step (crc b : Z) : Z :=
  Z.lxor (Z.land (Z.shiftl crc 8) 65535)
    (nth (Z.to_nat (Z.land (Z.lxor (Z.shiftr crc 8) b) 255)) crc16tab 0).

Definition crc16 (buf : list Z) : Z := foldl crc16_step 0 buf.

(** ** Version, data and checksum *)

Definition STRKEY_PUBKEY_ED25519 : Z := 6.
Definition STRKEY_SEED_ED25519 : Z := 18.
Definition STRKEY_PRE_AUTH_TX : Z := 19.
Definition STRKEY_HASH_X : Z := 23.

Definition toStrKey (ver : Z) (bin : list Z) : res (list Z) :=
  let ver := u8 (Z.shiftl ver 3) in
  let toEncode := ver :: bin in
  let crc := crc16 toEncode in
  encode b32_conversion_traits
    (toEncode ++ [Z.land crc 255; Z.land (Z.shiftr crc 8) 255]).

Definition getStrKeySize (dataSize : Z) : Z := encoded_size32 (dataSize + 3).

(** The version and the data, if the string is accepted. *)
Definition fromStrKey (strKey : list Z) : option (Z * list Z) :=
  let s := Z.of_nat (length strKey) in
  if negb (Z.land s 7 =? 0) then None
  else
    let decoded := decode b32_conversion_traits strKey in
    if (length decoded <? 3)%nat then None
    else
      (* [back] and [pop_back], twice *)
      match rev decoded with
      | hi :: lo :: rest =>
          let decoded := rev rest in
          let crc := Z.lor (Z.shiftl hi 8) lo in
          if negb (crc16 decoded =? crc) then None
          else
            match decoded with
            | v :: data => Some (Z.shiftr v 3, data)
            | [] => None
            end
      | _ => None
      end.

(** ** Typed keys *)

Record KeyFunctions (KeyType : Type) : Type := mkKeyFunctions {
  getKeyTypeName : string;
  getKeyVersionIsSupported : Z → bool;
  toKeyType : Z → res KeyType;
  toKeyVersion : KeyType → Z
}.
Arguments getKeyTypeName {_} _.
Arguments getKeyVersionIsSupported {_} _ _.
Arguments toKeyType {_} _ _.
Arguments toKeyVersion {_} _ _.

(** A key: its type and its value. *)
Record Key (KeyType : Type) : Type := mkKey { key_type : KeyType; key_value : list Z }.
Arguments mkKey {_} _ _.
Arguments key_type {_} _.
Arguments key_value {_} _.

Inductive PublicKeyType : Type := PUBLIC_KEY_TYPE_ED25519.

Definition PublicKey_functions : KeyFunctions PublicKeyType :=
  mkKeyFunctions _ "public key"
    (λ keyVersion, keyVersion =? STRKEY_PUBKEY_ED25519)
    (λ keyVersion,
       if keyVersion =? STRKEY_PUBKEY_ED25519 then mret PUBLIC_KEY_TYPE_ED25519
       else Throw (RuntimeError "invalid public key type"))
    (λ keyType, match keyType with PUBLIC_KEY_TYPE_ED25519 => STRKEY_PUBKEY_ED25519 end).

Inductive SignerKeyType : Type :=
| SIGNER_KEY_TYPE_ED25519
| SIGNER_KEY_TYPE_PRE_AUTH_TX
| SIGNER_KEY_TYPE_HASH_X.

Definition SignerKey_functions : KeyFunctions SignerKeyType :=
  mkKeyFunctions _ "signer key"
    (λ keyVersion, (keyVersion =? STRKEY_PUBKEY_ED25519) || (keyVersion =? STRKEY_PRE_AUTH_TX)
                   || (keyVersion =? STRKEY_HASH_X))
    (λ keyVersion,
       if keyVersion =? STRKEY_PUBKEY_ED25519 then mret SIGNER_KEY_TYPE_ED25519
       else if keyVersion =? STRKEY_PRE_AUTH_TX then mret SIGNER_KEY_TYPE_PRE_AUTH_TX
       else if keyVersion =? STRKEY_HASH_X then mret SIGNER_KEY_TYPE_HASH_X
       else Throw (InvalidArgument "invalid signer key type"))
    (λ keyType,
       match keyType with
       | SIGNER_KEY_TYPE_ED25519 => STRKEY_PUBKEY_ED25519
       | SIGNER_KEY_TYPE_PRE_AUTH_TX => STRKEY_PRE_AUTH_TX
       | SIGNER_KEY_TYPE_HASH_X => STRKEY_HASH_X
       end).

(** The size of libsodium's [crypto_sign] public keys is 32 bytes. *)
Definition getKeyVersionSize (keyVersion : Z) : res Z :=
  if (keyVersion =? STRKEY_PUBKEY_ED25519) || (keyVersion =? STRKEY_SEED_ED25519) then mret 32
  else if (keyVersion =? STRKEY_PRE_AUTH_TX) || (keyVersion =? STRKEY_HASH_X) then mret 32
  else Throw (InvalidArgument "invalid key version").

Section key_utils.
Context {KeyType : Type} (F : KeyFunctions KeyType).

Definition KeyUtils_toStrKey (key : Key KeyType) : res (list Z) :=
  toStrKey (toKeyVersion F (key_type key)) (key_value key).

Definition bad_key : exn := InvalidArgument ("bad " +:+ getKeyTypeName F).

Definition KeyUtils_fromStrKey (s : list Z) : res (Key KeyType) :=
  match fromStrKey s with
  | None => Throw bad_key
  | Some (ver, k) =>
      if negb (getKeyVersionIsSupported F ver) then Throw bad_key
      else
        size ← getKeyVersionSize ver;
        if negb (Z.of_nat (length k) =? size) then Throw bad_key
        else if negb (Z.of_nat (length s) =? getStrKeySize size) then Throw bad_key
        else
          type ← toKeyType F ver;
          mret (mkKey type k)
  end.
End key_utils.

(** *** Conversions between kinds of keys *)

Definition canConvert {K1 K2} (F : KeyFunctions K1) (G : KeyFunctions K2) (fromKey : Key K1)
    : bool :=
  getKeyVersionIsSupported G (toKeyVersion F (key_type fromKey)).

Definition convertKey {K1 K2} (F : KeyFunctions K1) (G : KeyFunctions K2) (fromKey : Key K1)
    : res (Key K2) :=
  type ← toKeyType G (toKeyVersion F (key_type fromKey));
  mret (mkKey type (key_value fromKey)).

(** ** What the checksum detects *)

Definition crc16tab_at (i : Z) : Z := nth (Z.to_nat i) crc16tab 0.

Lemma crc16tab_range i : 0 ≤ crc16tab_at i < 65536.
Proof.
  assert (Forall (λ x, 0 ≤ x < 65536) crc16tab) as H.
  { apply Forall_forall. intros x Hx.
    assert (forallb (λ x, (0 <=? x) && (x <? 65536)) crc16tab = true) as Hb
      by (vm_compute; reflexivity).
    rewrite forallb_forall in Hb. apply list_elem_of_In, Hb in Hx. lia. }
  unfold crc16tab_at. destruct (nth_in_or_default (Z.to_nat i) crc16tab 0) as [Hin| ->]; [|lia].
  rewrite Forall_forall in H. by apply H, list_elem_of_In.
Qed.

(** The low bytes of the table are all different. *)
Definition low_index (x : Z) : Z :=
  match list_find (λ t, t mod 256 = x) crc16tab with
  | Some (i, _) => Z.of_nat i
  | None => 0
  end.

Lemma crc16tab_low i j :
  is_byte i → is_byte j → crc16tab_at i mod 256 = crc16tab_at j mod 256 → i = j.
Proof.
  assert (forallb (λ i, low_index (crc16tab_at i mod 256) =? i) (seqZ 0 256) = true) as Hb
    by (vm_compute; reflexivity).
  intros Hi Hj E. pose proof (forallb_seqZ _ _ _ Hb Hi) as H1%Z.eqb_eq.
  pose proof (forallb_seqZ _ _ _ Hb Hj) as H2%Z.eqb_eq. congruence.
Qed.

(** So are the high bytes of two entries whose indices agree on the high half. *)
Lemma crc16tab_high i d :
  is_byte i → 0 < d < 16 → crc16tab_at (Z.lxor i d) / 256 ≠ crc16tab_at i / 256.
Proof.
  assert (forallb (λ i, forallb (λ d, (d =? 0) ||
    negb (crc16tab_at (Z.lxor i d) / 256 =? crc16tab_at i / 256)) (seqZ 0 16)) (seqZ 0 256) = true)
    as Hb by (vm_compute; reflexivity).
  intros Hi Hd. pose proof (forallb_seqZ _ _ _ Hb Hi) as H1.
  pose proof (forallb_seqZ _ _ d H1 ltac:(lia)) as H2. cbv beta in H2.
  apply orb_true_iff in H2 as [H2|H2]; [lia|].
  by apply negb_true_iff, Z.eqb_neq in H2.
Qed.

Lemma lxor_byte a b : is_byte a → is_byte b → is_byte (Z.lxor a b).
Proof.
  intros Ha Hb. unfold is_byte in *. split; [apply Z.lxor_nonneg; lia|].
  assert (Z.lxor a b = Z.lxor a b mod 2 ^ 8) as ->; [|apply Z.mod_pos_bound; lia].
  apply Z.bits_inj'. intros i Hi. destruct (decide (i < 8)).
  - by rewrite Z.mod_pow2_bits_low by lia.
  - rewrite Z.mod_pow2_bits_high, Z.lxor_spec, !(testbit_small 8) by lia. done.
Qed.

Lemma lxor_cancel a b c : Z.lxor a b = Z.lxor a c → b = c.
Proof.
  intros E. apply (f_equal (Z.lxor a)) in E.
  by rewrite <-!Z.lxor_assoc, Z.lxor_nilpotent, !Z.lxor_0_l in E.
Qed.

Definition is_u16 (x : Z) : Prop := 0 ≤ x < 65536.

Lemma lxor_high a b : Z.lxor a b / 256 = Z.lxor (a / 256) (b / 256).
Proof.
  change 256 with (2 ^ 8). by rewrite <-!Z.shiftr_div_pow2, Z.shiftr_lxor by lia.
Qed.

Lemma lxor_low a b : Z.lxor a b mod 256 = Z.lxor (a mod 256) (b mod 256).
Proof.
  change 256 with (2 ^ 8). apply Z.bits_inj'. intros i Hi. destruct (decide (i < 8)).
  - by rewrite Z.lxor_spec, !Z.mod_pow2_bits_low, Z.lxor_spec by lia.
  - by rewrite Z.lxor_spec, !Z.mod_pow2_bits_high by lia.
Qed.

Lemma u16_bytes c : is_u16 c → is_byte (c / 256) ∧ is_byte (c mod 256).
Proof. unfold is_u16, is_byte. intros Hc. Z.div_mod_to_equations. lia. Qed.

(** The high and the low byte of a round. *)
Lemma crc16_step_split c b :
  is_u16 c → is_byte b →
  let t := crc16tab_at (Z.lxor (c / 256) b) in
  crc16_step c b mod 256 = t mod 256 ∧
  crc16_step c b / 256 = Z.lxor (c mod 256) (t / 256) ∧ is_u16 (crc16_step c b).
Proof.
  intros Hc Hb t. destruct (u16_bytes c Hc) as [Hh Hl].
  pose proof (crc16tab_range (Z.lxor (c / 256) b)) as Ht. fold t in Ht.
  assert (crc16_step c b = Z.lxor (256 * (c mod 256)) t) as ->.
  { unfold crc16_step. f_equal.
    - change 65535 with (Z.ones 16). rewrite Z.land_ones, Z.shiftl_mul_pow2 by lia.
      change (2 ^ 16) with (256 * 256). change (2 ^ 8) with 256.
      rewrite Z.mul_mod_distr_r by lia. lia.
    - unfold t, crc16tab_at. rewrite Z.shiftr_div_pow2 by lia. change (2 ^ 8) with 256.
      change 255 with (Z.ones 8). rewrite Z.land_ones by lia. change (2 ^ 8) with 256.
      rewrite Z.mod_small; [done|]. by apply lxor_byte. }
  rewrite lxor_low, lxor_high.
  replace (256 * (c mod 256) / 256) with (c mod 256) by (Z.div_mod_to_equations; lia).
  replace ((256 * (c mod 256)) mod 256) with 0 by (Z.div_mod_to_equations; lia).
  split; [done|]. split; [done|]. set (x := Z.lxor (256 * (c mod 256)) t).
  assert (is_byte (x / 256)) as Hx.
  { unfold x. rewrite lxor_high. apply lxor_byte; [|apply u16_bytes, Ht].
    by replace (256 * (c mod 256) / 256) with (c mod 256) by (Z.div_mod_to_equations; lia). }
  unfold is_u16, is_byte in *. Z.div_mod_to_equations. lia.
Qed.

(** A round can be undone. *)
Lemma crc16_step_inj c b c' b' :
  is_u16 c → is_u16 c' → is_byte b → is_byte b' → crc16_step c b = crc16_step c' b' →
  Z.lxor (c / 256) b = Z.lxor (c' / 256) b' ∧ c mod 256 = c' mod 256.
Proof.
  intros Hc Hc' Hb Hb' E.
  destruct (crc16_step_split c b Hc Hb) as (L1 & H1 & _).
  destruct (crc16_step_split c' b' Hc' Hb') as (L2 & H2 & _). rewrite E in *.
  assert (Z.lxor (c / 256) b = Z.lxor (c' / 256) b') as Ei.
  { apply crc16tab_low; [by apply lxor_byte; [apply u16_bytes|]..|congruence]. }
  split; [done|]. rewrite Ei in H1. rewrite H1, !(Z.lxor_comm _ (_ / 256)) in H2.
  by apply lxor_cancel in H2.
Qed.

Lemma crc16_step_inj_l c c' b :
  is_u16 c → is_u16 c' → is_byte b → crc16_step c b = crc16_step c' b → c = c'.
Proof.
  intros Hc Hc' Hb E. destruct (crc16_step_inj c b c' b) as [Eh El]; [done..|].
  rewrite (Z.lxor_comm (c / 256)), (Z.lxor_comm (c' / 256)) in Eh. apply lxor_cancel in Eh.
  rewrite (Z.div_mod c 256), (Z.div_mod c' 256) by lia. congruence.
Qed.

Lemma crc16_from_range buf c : is_u16 c → Forall is_byte buf → is_u16 (foldl crc16_step c buf).
Proof.
  intros Hc Hb. revert c Hc. induction Hb as [|b buf Hb _ IH]; intros c Hc; [done|].
  simpl. apply IH. by apply crc16_step_split.
Qed.

Lemma crc16_from_inj buf c c' :
  is_u16 c → is_u16 c' → Forall is_byte buf →
  foldl crc16_step c buf = foldl crc16_step c' buf → c = c'.
Proof.
  intros Hc Hc' Hb. revert c c' Hc Hc'.
  induction Hb as [|b buf Hb Hbuf IH]; intros c c' Hc Hc' E; [done|]. simpl in E.
  apply IH in E; [|by apply crc16_step_split..]. by apply crc16_step_inj_l in E.
Qed.

Lemma crc16_range buf : Forall is_byte buf → is_u16 (crc16 buf).
Proof. intros Hb. apply crc16_from_range; [done|done]. Qed.

(** Two adjacent bytes that changed. *)
Lemma crc16_detects p x y x' y' q :
  Forall is_byte (p ++ x :: y :: q) → is_byte x' → is_byte y' →
  crc16 (p ++ x :: y :: q) = crc16 (p ++ x' :: y' :: q) → x = x' ∧ y = y'.
Proof.
  intros (Hp & [Hx [Hy Hq]%Forall_cons]%Forall_cons)%Forall_app Hx' Hy' E.
  unfold crc16 in E. rewrite !foldl_app in E. simpl in E.
  set (c := foldl crc16_step 0 p) in *.
  assert (is_u16 c) as Hc by (by apply crc16_from_range).
  pose proof (crc16_step_split c x Hc Hx) as (Lx & _ & Rx).
  pose proof (crc16_step_split c x' Hc Hx') as (Lx' & _ & Rx').
  apply crc16_from_inj in E; [|by apply crc16_step_split..|done].
  apply crc16_step_inj in E as [Eh El]; [|done..].
  assert (x = x') as <-.
  { rewrite Lx, Lx' in El. apply crc16tab_low in El; [|by apply lxor_byte; [apply u16_bytes|]..].
    by apply lxor_cancel in El. }
  split; [done|]. by apply lxor_cancel in Eh.
Qed.

(** One byte that changed in its low half, seen in the high byte alone. *)
Lemma crc16_detects_high p x x' :
  Forall is_byte p → is_byte x → is_byte x' → x / 16 = x' / 16 →
  crc16 (p ++ [x]) / 256 = crc16 (p ++ [x']) / 256 → x = x'.
Proof.
  intros Hp Hx Hx' Ehalf E. unfold crc16 in E. rewrite !foldl_app in E. simpl in E.
  set (c := foldl crc16_step 0 p) in *.
  assert (is_u16 c) as Hc by (by apply crc16_from_range).
  pose proof (crc16_step_split c x Hc Hx) as (_ & H1 & _).
  pose proof (crc16_step_split c x' Hc Hx') as (_ & H2 & _).
  rewrite H1, H2 in E. apply lxor_cancel in E.
  destruct (decide (x = x')) as [|Hne]; [done|exfalso].
  set (i := Z.lxor (c / 256) x) in *.
  assert (Z.lxor (c / 256) x' = Z.lxor i (Z.lxor x x')) as Ei.
  { unfold i. by rewrite Z.lxor_assoc, <-(Z.lxor_assoc x), Z.lxor_nilpotent, Z.lxor_0_l. }
  rewrite Ei in E. apply (crc16tab_high i (Z.lxor x x')); [| |done].
  - apply lxor_byte; [apply u16_bytes, Hc|done].
  - assert (0 ≤ Z.lxor x x') by (apply Z.lxor_nonneg; unfold is_byte in *; lia).
    assert (Z.lxor x x' / 16 = 0) as Hd.
    { change 16 with (2 ^ 4). rewrite <-Z.shiftr_div_pow2, Z.shiftr_lxor, !Z.shiftr_div_pow2 by lia.
      change (2 ^ 4) with 16. by rewrite Ehalf, Z.lxor_nilpotent. }
    assert (Z.lxor x x' ≠ 0) by (by rewrite Z.lxor_eq_0_iff).
    Z.div_mod_to_equations. lia.
Qed.

(** ** Reading what was written *)

Lemma lor_bytes hi lo : is_byte hi → is_byte lo → Z.lor (Z.shiftl hi 8) lo = 256 * hi + lo.
Proof.
  intros Hh Hl. rewrite <-Z.lxor_lor, <-Z.add_nocarry_lxor, Z.shiftl_mul_pow2 by
    (done || lia || (apply Z.bits_inj'; intros i Hi; rewrite Z.land_spec, Z.bits_0;
     destruct (decide (i < 8)); [rewrite Z.shiftl_spec_low by lia; done|];
     rewrite (testbit_small 8 lo) by (done || lia); apply andb_false_r)).
  change (2 ^ 8) with 256. lia.
Qed.

(** The two bytes of the checksum. *)
Definition crc_bytes (body : list Z) : list Z :=
  [Z.land (crc16 body) 255; Z.land (Z.shiftr (crc16 body) 8) 255].

Lemma crc_bytes_spec body :
  Forall is_byte body → crc_bytes body = [crc16 body mod 256; crc16 body / 256].
Proof.
  intros Hb. destruct (u16_bytes _ (crc16_range body Hb)) as [Hh _].
  unfold crc_bytes. change 255 with (Z.ones 8). rewrite !Z.land_ones, Z.shiftr_div_pow2 by lia.
  change (2 ^ 8) with 256. rewrite (Z.mod_small (_ / 256)); done.
Qed.

Lemma crc_bytes_range body : Forall is_byte body → Forall is_byte (crc_bytes body).
Proof.
  intros Hb. rewrite crc_bytes_spec by done.
  destruct (u16_bytes _ (crc16_range body Hb)). by rewrite !Forall_cons, Forall_nil.
Qed.

(** The check of the checksum. *)
Lemma crc_check body lo hi :
  Forall is_byte body → is_byte lo → is_byte hi →
  crc16 body = Z.lor (Z.shiftl hi 8) lo ↔ [lo; hi] = crc_bytes body.
Proof.
  intros Hb Hl Hh. rewrite crc_bytes_spec, lor_bytes by done.
  pose proof (Z.div_mod (crc16 body) 256 ltac:(lia)) as E. unfold is_byte in *. split.
  - intros ->. repeat f_equal; Z.div_mod_to_equations; lia.
  - intros [= -> ->]. lia.
Qed.

Lemma fromStrKey_decoded s v data lo hi :
  Z.of_nat (length s) mod 8 = 0 → Forall is_byte s →
  decode b32_conversion_traits s = v :: data ++ [lo; hi] →
  fromStrKey s =
  if bool_decide ([lo; hi] = crc_bytes (v :: data)) then Some (Z.shiftr v 3, data) else None.
Proof.
  intros Hs Hby Hd. destruct (decode_bits b32_conversion_traits s Hby) as [Hdb _].
  rewrite Hd, app_comm_cons in Hdb. apply Forall_app in Hdb as [Hb Hlh].
  apply Forall_cons in Hlh as [Hlo [Hhi _]%Forall_cons].
  unfold fromStrKey. change 7 with (Z.ones 3). rewrite Z.land_ones by lia.
  change (2 ^ 3) with 8. rewrite Hs, Hd, app_comm_cons, rev_app_distr, length_app, Z.eqb_refl.
  cbn [length Nat.add negb rev app].
  rewrite (proj2 (Nat.ltb_ge _ 3)) by lia. change (rev data ++ [v]) with (rev (v :: data)).
  rewrite rev_involutive. case_bool_decide as E.
  - apply crc_check in E; [|done..]. by rewrite <-E, Z.eqb_refl.
  - destruct (Z.eqb_spec (crc16 (v :: data)) (Z.lor (Z.shiftl hi 8) lo)) as [E'|]; [|done].
    by apply crc_check in E'.
Qed.

(** What is accepted comes from there. *)
Lemma fromStrKey_Some s ver k :
  Forall is_byte s → fromStrKey s = Some (ver, k) →
  ∃ v, ver = Z.shiftr v 3 ∧ is_byte v ∧ Forall is_byte k ∧
       decode b32_conversion_traits s = v :: k ++ crc_bytes (v :: k).
Proof.
  intros Hby Hf. pose proof Hf as Hf'. unfold fromStrKey in Hf.
  destruct (Z.land _ 7 =? 0) eqn:Hm; [|done]. cbn [negb] in Hf.
  destruct (length _ <? 3)%nat eqn:Hl; [done|]. apply Nat.ltb_ge in Hl.
  set (d := decode b32_conversion_traits s) in *.
  destruct (rev d) as [|hi [|lo rest]] eqn:Hr; [done..|].
  destruct (rev rest) as [|v data] eqn:Hr'.
  { by destruct (negb _). }
  assert (d = v :: data ++ [lo; hi]) as Hd.
  { rewrite <-(rev_involutive d), Hr. simpl. by rewrite Hr', <-app_assoc. }
  apply Z.eqb_eq in Hm. change 7 with (Z.ones 3) in Hm. rewrite Z.land_ones in Hm by lia.
  rewrite (fromStrKey_decoded s v data lo hi) in Hf' by done.
  case_bool_decide as E; [|done]. injection Hf' as <- <-. exists v.
  destruct (decode_bits b32_conversion_traits s Hby) as [Hdb _]. fold d in Hdb.
  rewrite Hd, app_comm_cons in Hdb. apply Forall_app in Hdb as [[Hv Hk]%Forall_cons _].
  rewrite Hd, E. done.
Qed.

Lemma fromStrKey_encoded v k s :
  is_byte v → Forall is_byte k →
  encode b32_conversion_traits (v :: k ++ crc_bytes (v :: k)) = Ok s →
  Forall is_byte s ∧ fromStrKey s = Some (Z.shiftr v 3, k) ∧
  Z.of_nat (length s) = getStrKeySize (Z.of_nat (length k)).
Proof.
  intros Hv Hk He. assert (Forall is_byte (v :: k)) as Hvk by (by constructor).
  destruct (decode_encode b32_conversion_traits (v :: k ++ crc_bytes (v :: k)))
    as (s' & Hs' & Hby & Hd).
  { rewrite app_comm_cons. apply Forall_app. split; [done|by apply crc_bytes_range]. }
  rewrite He in Hs'. injection Hs' as <-. split; [done|].
  assert (Z.of_nat (length s) = getStrKeySize (Z.of_nat (length k))) as Hlen.
  { rewrite (encode_size32 _ _ He). unfold getStrKeySize. f_equal.
    rewrite app_comm_cons, length_app. simpl. lia. }
  split; [|done].
  rewrite (fromStrKey_decoded s v k (Z.land (crc16 (v :: k)) 255)
             (Z.land (Z.shiftr (crc16 (v :: k)) 8) 255)); [|..|done|exact Hd].
  - by rewrite bool_decide_true.
  - rewrite Hlen. unfold getStrKeySize, encoded_size32. apply Z.mod_mul. lia.
Qed.

(** ** One wrong character *)

Lemma stream_lookup n (d : list Z) i b :
  d !! i = Some b → take n (drop (n * i) (stream n d)) = bits n b.
Proof.
  revert i. induction d as [|x d IH]; intros [|i] Hi; simplify_eq/=; rewrite stream_cons.
  - rewrite Nat.mul_0_r, drop_0. by rewrite take_app_le, take_ge by (rewrite length_bits; lia).
  - rewrite drop_app_ge, length_bits by (rewrite length_bits; lia).
    replace (n * S i - n)%nat with (n * i)%nat by lia. auto.
Qed.

(** Two sequences of bytes whose bits agree outside a range. *)
Lemma bytes_agree (d d' : list Z) A B B' C i :
  Forall is_byte d → Forall is_byte d' →
  stream 8 d = A ++ B ++ C → stream 8 d' = A ++ B' ++ C → length B = length B' →
  (8 * i + 8 ≤ length A ∨ length A + length B ≤ 8 * i)%nat → d !! i = d' !! i.
Proof.
  intros Hd Hd' E E' HB Hi.
  assert (length d = length d') as Hlen.
  { apply (f_equal length) in E, E'. rewrite length_stream, !length_app in *. lia. }
  destruct (d !! i) as [b|] eqn:Hb.
  2: { apply lookup_ge_None in Hb. symmetry. apply lookup_ge_None. lia. }
  destruct (d' !! i) as [b'|] eqn:Hb'.
  2: { apply lookup_lt_Some in Hb. apply lookup_ge_None in Hb'. lia. }
  f_equal. apply (bits_inj 8); [by eapply (Forall_lookup_1 _ _ _ _ Hd)|
    by eapply (Forall_lookup_1 _ _ _ _ Hd')|].
  rewrite <-(stream_lookup 8 d i b Hb), <-(stream_lookup 8 d' i b' Hb'), E, E'.
  destruct Hi as [Hi|Hi].
  - rewrite !drop_app_le by lia. by rewrite !take_app_le by (rewrite length_drop; lia).
  - by rewrite !(drop_app_ge A), !drop_app_ge, HB by lia.
Qed.

(** So do two bytes of them, on their high halves. *)
Lemma halves_agree (d d' : list Z) A B B' C i b b' :
  is_byte b → is_byte b' → stream 8 d = A ++ B ++ C → stream 8 d' = A ++ B' ++ C →
  (8 * i + 4 ≤ length A)%nat → d !! i = Some b → d' !! i = Some b' → b / 16 = b' / 16.
Proof.
  intros Hb Hb' E E' Hi Hl Hl'.
  assert (bits 4 (b / 16) = take 4 (bits 8 b) ∧ bits 4 (b' / 16) = take 4 (bits 8 b')) as [E1 E2].
  { change 16 with (2 ^ 4). rewrite <-!Z.shiftr_div_pow2 by lia. cbn [bits take].
    rewrite !Z.shiftr_spec by lia. done. }
  apply (bits_inj 4).
  1, 2: change (2 ^ Z.of_nat 4) with 16; unfold is_byte in *; Z.div_mod_to_equations; lia.
  rewrite E1, E2, <-(stream_lookup 8 d i b Hl), <-(stream_lookup 8 d' i b' Hl'), E, E', !take_take.
  rewrite !drop_app_le by lia. by rewrite !take_app_le by (rewrite length_drop; lia).
Qed.

Lemma agree_split (d d' : list Z) a :
  length d = length d' → (a + 2 ≤ length d)%nat →
  (∀ i, (i < a ∨ a + 2 ≤ i)%nat → d !! i = d' !! i) →
  ∃ p x y x' y' r, d = p ++ x :: y :: r ∧ d' = p ++ x' :: y' :: r ∧ length p = a.
Proof.
  intros Hlen Ha Hag.
  destruct (lookup_lt_is_Some_2 d a) as [x Hx]; [lia|].
  destruct (lookup_lt_is_Some_2 d (S a)) as [y Hy]; [lia|].
  destruct (lookup_lt_is_Some_2 d' a) as [x' Hx']; [lia|].
  destruct (lookup_lt_is_Some_2 d' (S a)) as [y' Hy']; [lia|].
  exists (take a d), x, y, x', y', (drop (S (S a)) d).
  rewrite <-(drop_S d y (S a)), <-(drop_S d x a), take_drop by done.
  assert (take a d = take a d') as ->.
  { apply list_eq. intros i. destruct (decide (i < a)%nat).
    - rewrite !lookup_take_lt by done. apply Hag. lia.
    - by rewrite !lookup_take_ge by lia. }
  assert (drop (S (S a)) d = drop (S (S a)) d') as ->.
  { apply list_eq. intros i. rewrite !lookup_drop. apply Hag. lia. }
  rewrite <-(drop_S d' y' (S a)), <-(drop_S d' x' a), take_drop by done.
  split_and!; [done..|]. rewrite length_take. lia.
Qed.

Lemma crc_bytes_eq body body' :
  Forall is_byte body → Forall is_byte body' → crc_bytes body = crc_bytes body' →
  crc16 body = crc16 body'.
Proof.
  intros Hb Hb'. rewrite !crc_bytes_spec by done. intros [= E1 E2].
  rewrite (Z.div_mod (crc16 body) 256), (Z.div_mod (crc16 body') 256) by lia. congruence.
Qed.

(** A sequence of 33 bytes and a checksum, changed in two adjacent bytes. *)
Lemma corrupt_refused body body' a :
  Forall is_byte body → Forall is_byte body' → length body = 33%nat → length body' = 33%nat →
  let d := body ++ crc_bytes body in
  let d' := body' ++ crc_bytes body' in
  (a ≤ 33)%nat → (∀ i, (i < a ∨ a + 2 ≤ i)%nat → d !! i = d' !! i) →
  (a = 32%nat → ∀ b b', body !! 32%nat = Some b → body' !! 32%nat = Some b' → b / 16 = b' / 16) →
  d = d'.
Proof.
  intros Hb Hb' Hl Hl' d d' Ha Hag Hhalf.
  destruct (agree_split d d' a) as (p & x & y & x' & y' & r & Ed & Ed' & Hp);
    [unfold d, d'; rewrite !length_app; simpl; lia..|done|].
  assert (33 - a = S (S (31 - a)) ∨ 31 < a)%nat as Hsub by lia.
  destruct (decide (a ≤ 31)%nat) as [Hle|Hgt]; [|destruct (decide (a = 32%nat)) as [E32|E33]].
  - destruct Hsub as [Hsub|]; [|lia].
    assert (∀ b w u v, length b = 33%nat → b ++ w = p ++ u :: v :: r →
      b = p ++ u :: v :: take (31 - a) r ∧ w = drop (31 - a) r) as Hcut.
    { intros b w u v Hlb E. split.
      - rewrite <-(take_app_length' b w 33), E, take_app_ge, Hp, Hsub by lia. done.
      - rewrite <-(drop_app_length' b w 33), E, drop_app_ge, Hp, Hsub by lia. done. }
    destruct (Hcut _ _ _ _ Hl Ed) as [E1 Ec], (Hcut _ _ _ _ Hl' Ed') as [E2 Ec'].
    rewrite <-Ec' in Ec.
    pose proof (crc_bytes_eq _ _ Hb Hb' Ec) as E. rewrite E1, E2 in E.
    rewrite E1 in Hb. rewrite E2 in Hb'.
    apply Forall_app in Hb' as [_ [? [? _]%Forall_cons]%Forall_cons].
    apply crc16_detects in E as [-> ->]; [congruence|done..].
  - destruct (app_inj_1 body (p ++ [x]) (crc_bytes body) (y :: r)) as [E1 E2];
      [rewrite length_app; simpl; lia|by rewrite <-app_assoc|].
    destruct (app_inj_1 body' (p ++ [x']) (crc_bytes body') (y' :: r)) as [E1' E2'];
      [rewrite length_app; simpl; lia|by rewrite <-app_assoc|].
    rewrite !crc_bytes_spec in * by done. injection E2 as Ey <-. injection E2' as Ey' Eh.
    assert (x = x') as <-.
    { rewrite E1, E1' in Eh. rewrite E1 in Hb, Hhalf. rewrite E1' in Hb', Hhalf.
      apply Forall_app in Hb as [Hp' [? _]%Forall_cons], Hb' as [_ [? _]%Forall_cons].
      apply (crc16_detects_high p); try done. apply Hhalf; [done|..].
      all: rewrite lookup_app_r by lia; by replace (32 - length p)%nat with 0%nat by lia. }
    unfold d, d'. congruence.
  - destruct (app_inj_1 body p (crc_bytes body) (x :: y :: r)) as [E1 E2]; [lia|done|].
    destruct (app_inj_1 body' p (crc_bytes body') (x' :: y' :: r)) as [E1' E2']; [lia|done|].
    unfold d, d'. congruence.
Qed.

(** ** Typed keys *)

(** What the kinds of keys have in common. *)
Class ValidKeyFunctions {KeyType} (F : KeyFunctions KeyType) : Prop := {
  key_version_range : ∀ t, 0 ≤ toKeyVersion F t < 32;
  key_version_supported : ∀ t, getKeyVersionIsSupported F (toKeyVersion F t) = true;
  key_version_type : ∀ t, toKeyType F (toKeyVersion F t) = Ok t;
  key_supported : ∀ ver, getKeyVersionIsSupported F ver = true →
    getKeyVersionSize ver = Ok 32 ∧ ∃ t, toKeyType F ver = Ok t ∧ toKeyVersion F t = ver
}.

#[export] Instance PublicKey_valid : ValidKeyFunctions PublicKey_functions.
Proof.
  split; [by intros []..|]. cbn. intros ver ->%Z.eqb_eq. split; [done|].
  by exists PUBLIC_KEY_TYPE_ED25519.
Qed.

#[export] Instance SignerKey_valid : ValidKeyFunctions SignerKey_functions.
Proof.
  split; [by intros []..|]. cbn. intros ver [[->%Z.eqb_eq| ->%Z.eqb_eq]%orb_true_iff| ->%Z.eqb_eq]%orb_true_iff;
    (split; [done|]); cbn; eauto.
Qed.

Definition valid_key {KeyType} (key : Key KeyType) : Prop :=
  Forall is_byte (key_value key) ∧ length (key_value key) = 32%nat.

Section keys.
Context {KeyType : Type} (F : KeyFunctions KeyType) `{!ValidKeyFunctions F}.

(** A version byte whose three low bits are [low]. *)
Definition version_byte (key : Key KeyType) (low : Z) : Z :=
  8 * toKeyVersion F (key_type key) + low.

Lemma version_byte_range key low : 0 ≤ low < 8 → is_byte (version_byte key low).
Proof.
  intros Hl. pose proof (key_version_range (key_type key)). unfold version_byte, is_byte. lia.
Qed.

Lemma version_byte_version key low :
  0 ≤ low < 8 → Z.shiftr (version_byte key low) 3 = toKeyVersion F (key_type key).
Proof.
  intros Hl. rewrite Z.shiftr_div_pow2 by lia. change (2 ^ 3) with 8. unfold version_byte.
  Z.div_mod_to_equations. lia.
Qed.

(** The text of a key, given the low bits of its version. *)
Definition written (key : Key KeyType) (low : Z) : list Z :=
  let body := version_byte key low :: key_value key in body ++ crc_bytes body.

Lemma toStrKey_written key :
  KeyUtils_toStrKey F key = encode b32_conversion_traits (written key 0).
Proof.
  unfold KeyUtils_toStrKey, toStrKey, written. pose proof (key_version_range (key_type key)).
  assert (u8 (Z.shiftl (toKeyVersion F (key_type key)) 3) = version_byte key 0) as ->; [|done].
  unfold u8, version_byte. rewrite Z.shiftl_mul_pow2, Z.mod_small by lia. lia.
Qed.

Lemma fromStrKey_written key low s :
  valid_key key → 0 ≤ low < 8 → encode b32_conversion_traits (written key low) = Ok s →
  Forall is_byte s ∧ length s = 56%nat ∧ KeyUtils_fromStrKey F s = Ok key.
Proof.
  intros [Hk Hl] Hlow He.
  destruct (fromStrKey_encoded (version_byte key low) (key_value key) s)
    as (Hby & Hf & Hlen); [by apply version_byte_range|done|done|].
  rewrite Hl in Hlen. change (getStrKeySize _) with 56 in Hlen. split; [done|]. split; [lia|].
  unfold KeyUtils_fromStrKey. rewrite Hf, version_byte_version, key_version_supported by done.
  destruct (key_supported _ (key_version_supported (key_type key))) as [-> _]. cbn.
  rewrite Hl, Hlen. cbn. rewrite key_version_type. cbn. by destruct key.
Qed.

Lemma fromStrKey_accepts key s :
  Forall is_byte s → KeyUtils_fromStrKey F s = Ok key →
  valid_key key ∧ length s = 56%nat ∧
  ∃ low, 0 ≤ low < 8 ∧ decode b32_conversion_traits s = written key low.
Proof.
  intros Hby Hf. unfold KeyUtils_fromStrKey in Hf.
  destruct (fromStrKey s) as [[ver k]|] eqn:Hs; [|done].
  apply fromStrKey_Some in Hs as (v & -> & Hv & Hk & Hd); [|done].
  destruct (getKeyVersionIsSupported F (Z.shiftr v 3)) eqn:Hsup; [|done]. cbn [negb] in Hf.
  destruct (key_supported _ Hsup) as (Hsize & t & Ht & Htv). rewrite Hsize in Hf. cbn in Hf.
  destruct (Z.eqb_spec (Z.of_nat (length k)) 32) as [Hlk|]; [cbn in Hf|done].
  destruct (Z.eqb_spec (Z.of_nat (length s)) (getStrKeySize 32)) as [Hls|]; [cbn in Hf|done].
  rewrite Ht in Hf. injection Hf as <-. change (getStrKeySize 32) with 56 in Hls.
  split; [split; [done|simpl; lia]|]. split; [lia|]. exists (v mod 8).
  split; [apply Z.mod_pos_bound; lia|]. rewrite Hd. unfold written.
  assert (version_byte (mkKey t k) (v mod 8) = v) as ->; [|done].
  unfold version_byte. simpl. rewrite Htv, Z.shiftr_div_pow2 by lia. change (2 ^ 3) with 8.
  pose proof (Z.div_mod v 8). lia.
Qed.

(** A string that is refused, and how. *)
Lemma fromStrKey_refuses s :
  (∀ key, KeyUtils_fromStrKey F s ≠ Ok key) → KeyUtils_fromStrKey F s = Throw (bad_key F).
Proof.
  unfold KeyUtils_fromStrKey. destruct (fromStrKey s) as [[ver k]|]; [|done].
  destruct (getKeyVersionIsSupported F ver) eqn:Hsup; [|done]. cbn [negb].
  destruct (key_supported _ Hsup) as (-> & t & -> & _). cbn.
  destruct (_ =? _); [cbn|done]. destruct (_ =? _); [cbn|done]. intros Hno. by destruct (Hno (mkKey t k)).
Qed.
End keys.

Section accepted.
Context {KeyType : Type} (F : KeyFunctions KeyType) `{!ValidKeyFunctions F}.

Lemma accepted_encoded key s :
  Forall is_byte s → KeyUtils_fromStrKey F s = Ok key →
  ∃ low, 0 ≤ low < 8 ∧ decode b32_conversion_traits s = written F key low ∧
         encode b32_conversion_traits (written F key low) = Ok s.
Proof.
  intros Hby Hf. destruct (fromStrKey_accepts F key s Hby Hf) as ([_ Hk] & Hl & low & Hlow & Hd).
  exists low. split; [done|]. split; [done|]. rewrite <-Hd. apply encode_decode; [apply _|done|].
  rewrite Hd, Hl. unfold written. rewrite length_app. simpl. rewrite Hk. done.
Qed.

(** The groups of an accepted string are those of its characters. *)
Lemma accepted_groups key s :
  Forall is_byte s → KeyUtils_fromStrKey F s = Ok key →
  stream 5 (b32_decode <$> s) = stream 8 (decode b32_conversion_traits s).
Proof.
  intros Hby Hf. destruct (fromStrKey_accepts F key s Hby Hf) as ([_ Hk] & Hl & low & _ & Hd).
  destruct (decode_bits b32_conversion_traits s Hby) as (_ & rest & Hr & Hlr).
  change (Z.to_nat (group_length b32_conversion_traits)) with 5%nat in Hr.
  assert (length (decode b32_conversion_traits s) = 35%nat) as Hld
    by (rewrite Hd; unfold written; rewrite length_app; simpl; lia).
  pose proof (f_equal length Hr) as Hlen. rewrite length_app, !length_stream, Hld in Hlen.
  pose proof (length_groups b32_conversion_traits s).
  assert (rest = []) as -> by (apply nil_length_inv; lia). rewrite app_nil_r in Hr. rewrite Hr.
  f_equal. pose proof (groups_full b32_conversion_traits s Hby) as Hg.
  assert (length (groups b32_conversion_traits s) = length s) as Hfull%Hg by (rewrite Hl in *; simpl in *; lia).
  clear -Hfull. induction Hfull as [|v c vals cs (_ & _ & _ & _ & Hd) _ IH]; [done|].
  rewrite fmap_cons, IH. by f_equal.
Qed.

Lemma stream_insert n (l : list Z) j x y :
  l !! j = Some y →
  stream n l = stream n (take j l) ++ bits n y ++ stream n (drop (S j) l) ∧
  stream n (<[j:=x]> l) = stream n (take j l) ++ bits n x ++ stream n (drop (S j) l).
Proof.
  intros Hj. split.
  - by rewrite <-stream_cons, <-stream_app, take_drop_middle.
  - rewrite insert_take_drop by (by eapply lookup_lt_Some). by rewrite stream_app, stream_cons.
Qed.

Lemma typo_same key key' s j c :
  Forall is_byte s → is_byte c → (j < length s)%nat →
  KeyUtils_fromStrKey F s = Ok key → KeyUtils_fromStrKey F (<[j:=c]> s) = Ok key' →
  decode b32_conversion_traits s = decode b32_conversion_traits (<[j:=c]> s).
Proof.
  intros Hby Hc Hj Hf Hf'.
  assert (Forall is_byte (<[j:=c]> s)) as Hby' by (by apply Forall_insert).
  destruct (fromStrKey_accepts F key s Hby Hf) as ([Hkb Hk] & Hl & low & Hlow & Hd).
  destruct (fromStrKey_accepts F key' _ Hby' Hf') as ([Hkb' Hk'] & _ & low' & Hlow' & Hd').
  pose proof (accepted_groups _ _ Hby Hf) as Hst. pose proof (accepted_groups _ _ Hby' Hf') as Hst'.
  rewrite Hd in *. rewrite Hd' in *. rewrite list_fmap_insert in Hst'.
  destruct (lookup_lt_is_Some_2 (b32_decode <$> s) j) as [y Hy]; [by rewrite length_fmap|].
  destruct (stream_insert 5 _ j (b32_decode c) y Hy) as [E E'].
  rewrite Hst in E. rewrite Hst' in E'. unfold written in *.
  set (A := stream 5 (take j (b32_decode <$> s))) in *.
  assert (length A = 5 * j)%nat as HA.
  { unfold A. rewrite length_stream, length_take, length_fmap. lia. }
  pose proof (version_byte_range F key low Hlow). pose proof (version_byte_range F key' low' Hlow').
  assert (Forall is_byte (version_byte F key low :: key_value key)) as Hb1 by (by constructor).
  assert (Forall is_byte (version_byte F key' low' :: key_value key')) as Hb2 by (by constructor).
  apply (corrupt_refused _ _ (min (5 * j / 8) 33)); [done|done|simpl; lia..| |].
  - intros i Hi. pose proof (Nat.div_mod_eq (5 * j) 8). pose proof (Nat.mod_upper_bound (5 * j) 8).
    eapply bytes_agree; [..|exact E|exact E'|by rewrite !length_bits|].
    + apply Forall_app. split; [done|by apply crc_bytes_range].
    + apply Forall_app. split; [done|by apply crc_bytes_range].
    + rewrite HA, length_bits. lia.
  - intros Ha b b' Hlb Hlb'. pose proof (Nat.div_mod_eq (5 * j) 8).
    pose proof (Nat.mod_upper_bound (5 * j) 8).
    eapply (halves_agree _ _ A _ _ _ 32); [..|exact E|exact E'| | |].
    + by eapply (Forall_lookup_1 _ _ _ _ Hb1).
    + by eapply (Forall_lookup_1 _ _ _ _ Hb2).
    + lia.
    + by apply lookup_app_l_Some.
    + by apply lookup_app_l_Some.
Qed.
End accepted.

(** C36: reading a key that was written gives it back: for public keys and signer keys
    alike, [toStrKey] succeeds, its text has 56 characters, and [fromStrKey]
    returns the same key from it. *)
Theorem keys_roundtrip {KeyType} (F : KeyFunctions KeyType) `{!ValidKeyFunctions F}
    (key : Key KeyType) :
  valid_key key →
  ∃ s, KeyUtils_toStrKey F key = Ok s ∧ length s = 56%nat ∧ KeyUtils_fromStrKey F s = Ok key.
Proof.
  intros Hk. destruct (encode_Ok b32_conversion_traits (written F key 0)) as (? & cs & ? & p & He & _).
  eexists. rewrite toStrKey_written by done. split; [exact He|].
  by destruct (fromStrKey_written F key 0 _ Hk ltac:(lia) He) as (_ & ? & ?).
Qed.

(** C37: one wrong character is detected: replacing any one character of a text
    that is read as a key by any other gives a text that is refused. *)
Theorem typo_refused {KeyType} (F : KeyFunctions KeyType) `{!ValidKeyFunctions F}
    (key : Key KeyType) (s : list Z) (j : nat) (c c' : Z) :
  Forall is_byte s → KeyUtils_fromStrKey F s = Ok key →
  s !! j = Some c → is_byte c' → c' ≠ c →
  KeyUtils_fromStrKey F (<[j:=c']> s) = Throw (bad_key F).
Proof.
  intros Hby Hf Hj Hc' Hne. apply fromStrKey_refuses; [done|]. intros key' Hf'.
  assert (Forall is_byte (<[j:=c']> s)) as Hby' by (by apply Forall_insert).
  pose proof (lookup_lt_Some _ _ _ Hj) as Hlt.
  pose proof (typo_same F key key' s j c' Hby Hc' Hlt Hf Hf') as Hd.
  destruct (accepted_encoded F key s Hby Hf) as (low & _ & E1 & E2).
  destruct (accepted_encoded F key' _ Hby' Hf') as (low' & _ & E1' & E2').
  rewrite <-E1, Hd, E1', E2' in E2. injection E2 as E2.
  apply (f_equal (.!! j)) in E2. rewrite list_lookup_insert_eq, Hj in E2 by done. congruence.
Qed.

(** C38: the texts read as a given key are exactly eight, the encodings of its version,
    its bytes and their checksum: the three low bits of the version byte are not
    looked at. *)
Theorem accepted_texts {KeyType} (F : KeyFunctions KeyType) `{!ValidKeyFunctions F}
    (key : Key KeyType) (s : list Z) :
  Forall is_byte s →
  KeyUtils_fromStrKey F s = Ok key ↔
  valid_key key ∧
  ∃ low, 0 ≤ low < 8 ∧ encode b32_conversion_traits (written F key low) = Ok s.
Proof.
  intros Hby. split.
  - intros Hf. split; [by eapply fromStrKey_accepts|].
    destruct (accepted_encoded F key s Hby Hf) as (low & ? & _ & ?). eauto.
  - intros [Hk (low & Hlow & He)]. by eapply fromStrKey_written.
Qed.

(** ** A public key *)

Definition key_of_zeros : Key PublicKeyType := mkKey PUBLIC_KEY_TYPE_ED25519 (replicate 32 0).

Definition text_of_zeros : list Z :=
  chars "GAAAAAAAAAAAAAAAAAAAAAAAAAAAAAAAAAAAAAAAAAAAAAAAAAAAAWHF".

Lemma key_of_zeros_valid : valid_key key_of_zeros.
Proof. split; [by apply Forall_replicate|done]. Qed.

Lemma text_of_zeros_bytes : Forall is_byte text_of_zeros.
Proof. apply (bool_decide_eq_true_1 _). vm_compute. reflexivity. Qed.

Lemma keys_roundtrip_witness :
  ∃ s, KeyUtils_toStrKey PublicKey_functions key_of_zeros = Ok s ∧ length s = 56%nat ∧
       KeyUtils_fromStrKey PublicKey_functions s = Ok key_of_zeros.
Proof. apply (keys_roundtrip PublicKey_functions). apply key_of_zeros_valid. Defined.

Lemma typo_refused_witness :
  KeyUtils_fromStrKey PublicKey_functions text_of_zeros = Ok key_of_zeros ∧
  KeyUtils_fromStrKey PublicKey_functions (<[52%nat := 66]> text_of_zeros) =
  Throw (InvalidArgument "bad public key").
Proof.
  split; [vm_compute; reflexivity|].
  apply (typo_refused PublicKey_functions key_of_zeros text_of_zeros 52 65 66).
  - apply text_of_zeros_bytes.
  - vm_compute. reflexivity.
  - vm_compute. reflexivity.
  - done.
  - done.
Defined.

Lemma accepted_texts_witness :
  KeyUtils_fromStrKey PublicKey_functions text_of_zeros = Ok key_of_zeros.
Proof.
  apply (accepted_texts PublicKey_functions key_of_zeros text_of_zeros).
  - apply text_of_zeros_bytes.
  - split; [apply key_of_zeros_valid|]. exists 0. split; [lia|]. vm_compute. reflexivity.
Defined.
