(* ===== verification/LedgerEntries.v ===== *)
(** * Ledger entries and their keys

    The types of [xdr/DiamNet-ledger-entries.x], the key of an entry
    ([LedgerEntryKey] of [util/types.cpp]) and the comparison of entries by
    identity ([bucket/LedgerCmp.h]).

    Opaque data, strings and keys are byte strings; an extension union with a
    single empty case carries nothing. *)

From S2P Require Import Prelude Numeric.

(** ** Assets and accounts *)

Definition AccountID : Type := list Z.

Inductive Asset : Type :=
| ASSET_TYPE_NATIVE
| ASSET_TYPE_CREDIT_ALPHANUM4 (assetCode : list Z) (issuer : AccountID)
| ASSET_TYPE_CREDIT_ALPHANUM12 (assetCode : list Z) (issuer : AccountID).

Record Liabilities : Type := mkLiabilities { li_buying : Z; li_selling : Z }.

Inductive SignerKey : Type :=
| SIGNER_KEY_TYPE_ED25519 (ed25519 : list Z)
| SIGNER_KEY_TYPE_PRE_AUTH_TX (preAuthTx : list Z)
| SIGNER_KEY_TYPE_HASH_X (hashX : list Z).

Record Signer : Type := mkSigner { signer_key : SignerKey; signer_weight : Z }.

Definition AUTH_REQUIRED_FLAG : Z := 1.
Definition AUTH_REVOCABLE_FLAG : Z := 2.
Definition AUTH_IMMUTABLE_FLAG : Z := 4.
Definition MASK_ACCOUNT_FLAGS : Z := 7.
Definition MAX_SIGNERS : Z := 20.

Definition SponsorshipDescriptor : Type := option AccountID.

Record AccountEntryExtensionV2 : Type := mkAccountV2 {
  numSponsored : Z;
  numSponsoring : Z;
  signerSponsoringIDs : list SponsorshipDescriptor
}.

Record AccountEntryExtensionV1 : Type := mkAccountV1 {
  acc_liabilities : Liabilities;
  acc_ext_v2 : option AccountEntryExtensionV2
}.

Record AccountEntry : Type := mkAccount {
  acc_accountID : AccountID;
  acc_balance : Z;
  acc_seqNum : Z;
  acc_numSubEntries : Z;
  acc_inflationDest : option AccountID;
  acc_flags : Z;
  acc_homeDomain : list Z;
  acc_thresholds : list Z;
  acc_signers : list Signer;
  acc_ext : option AccountEntryExtensionV1
}.

(** ** Trust lines, offers, data *)

Definition AUTHORIZED_FLAG : Z := 1.
Definition AUTHORIZED_TO_MAINTAIN_LIABILITIES_FLAG : Z := 2.
Definition MASK_TRUSTLINE_FLAGS : Z := 1.
Definition MASK_TRUSTLINE_FLAGS_V13 : Z := 3.

Record TrustLineEntry : Type := mkTrustLine {
  tl_accountID : AccountID;
  tl_asset : Asset;
  tl_balance : Z;
  tl_limit : Z;
  tl_flags : Z;
  tl_ext : option Liabilities
}.

Definition PASSIVE_FLAG : Z := 1.

Record OfferEntry : Type := mkOffer {
  off_sellerID : AccountID;
  off_offerID : Z;
  off_selling : Asset;
  off_buying : Asset;
  off_amount : Z;
  off_price : Price;
  off_flags : Z
}.

Record DataEntry : Type := mkData {
  data_accountID : AccountID;
  data_dataName : list Z;
  data_dataValue : list Z
}.

(** ** Claimable balances *)

Inductive ClaimPredicate : Type :=
| CLAIM_PREDICATE_UNCONDITIONAL
| CLAIM_PREDICATE_AND (andPredicates : list ClaimPredicate)
| CLAIM_PREDICATE_OR (orPredicates : list ClaimPredicate)
| CLAIM_PREDICATE_NOT (notPredicate : option ClaimPredicate)
| CLAIM_PREDICATE_BEFORE_ABSOLUTE_TIME (absBefore : Z)
| CLAIM_PREDICATE_BEFORE_RELATIVE_TIME (relBefore : Z).

Record Claimant : Type := mkClaimant {
  claimant_destination : AccountID;
  claimant_predicate : ClaimPredicate
}.

Record ClaimableBalanceEntry : Type := mkClaimableBalance {
  cb_balanceID : list Z;
  cb_claimants : list Claimant;
  cb_asset : Asset;
  cb_amount : Z
}.

(** ** Entries and keys *)

Inductive LedgerEntryData : Type :=
| ACCOUNT (account : AccountEntry)
| TRUSTLINE (trustLine : TrustLineEntry)
| OFFER (offer : OfferEntry)
| DATA (data : DataEntry)
| CLAIMABLE_BALANCE (claimableBalance : ClaimableBalanceEntry).

Record LedgerEntryExtensionV1 : Type := mkEntryV1 { sponsoringID : SponsorshipDescriptor }.

Record LedgerEntry : Type := mkLedgerEntry {
  lastModifiedLedgerSeq : Z;
  entry_data : LedgerEntryData;
  entry_ext : option LedgerEntryExtensionV1
}.

Inductive LedgerKey : Type :=
| KEY_ACCOUNT (accountID : AccountID)
| KEY_TRUSTLINE (accountID : AccountID) (asset : Asset)
| KEY_OFFER (sellerID : AccountID) (offerID : Z)
| KEY_DATA (accountID : AccountID) (dataName : list Z)
| KEY_CLAIMABLE_BALANCE (balanceID : list Z).

Definition LedgerDataKey (d : LedgerEntryData) : LedgerKey :=
  match d with
  | ACCOUNT a => KEY_ACCOUNT (acc_accountID a)
  | TRUSTLINE t => KEY_TRUSTLINE (tl_accountID t) (tl_asset t)
  | OFFER o => KEY_OFFER (off_sellerID o) (off_offerID o)
  | DATA d => KEY_DATA (data_accountID d) (data_dataName d)
  | CLAIMABLE_BALANCE c => KEY_CLAIMABLE_BALANCE (cb_balanceID c)
  end.

Definition LedgerEntryKey (e : LedgerEntry) : LedgerKey := LedgerDataKey (entry_data e).

(** ** Comparison by identity *)

(** [LedgerEntryType], as a number. *)
Definition ledger_key_type (k : LedgerKey) : Z :=
  match k with
  | KEY_ACCOUNT _ => 0
  | KEY_TRUSTLINE _ _ => 1
  | KEY_OFFER _ _ => 2
  | KEY_DATA _ _ => 3
  | KEY_CLAIMABLE_BALANCE _ => 4
  end.

(** xdrpp compares the type of a union first, then its fields in order. *)
Definition asset_image (a : Asset) : list (list Z) :=
  match a with
  | ASSET_TYPE_NATIVE => [[0]]
  | ASSET_TYPE_CREDIT_ALPHANUM4 code issuer => [[1]; code; issuer]
  | ASSET_TYPE_CREDIT_ALPHANUM12 code issuer => [[2]; code; issuer]
  end.

Lemma asset_image_inj a b : asset_image a = asset_image b → a = b.
Proof. destruct a, b; simpl; congruence. Qed.

(** An order pulled back along an injection. *)
Program Definition inj_TotalOrd {A B} `{TotalOrd B} (f : A → B)
    (Hf : ∀ a b, f a = f b → a = b) : TotalOrd A :=
  {| cmp a b := cmp (f a) (f b) |}.
Next Obligation. intros A B ? f Hf a b. rewrite cmp_eq. split; [auto|congruence]. Qed.
Next Obligation. intros A B ? f Hf a b. apply cmp_opp. Qed.
Next Obligation. intros A B ? f Hf a b c. apply cmp_trans. Qed.

#[export] Instance Asset_TotalOrd : TotalOrd Asset := inj_TotalOrd asset_image asset_image_inj.

(** Two fields compared in order. *)
Definition lexCompare {A B} `{TotalOrd A} `{TotalOrd B} (lhs1 rhs1 : A) (lhs2 rhs2 : B) : bool :=
  if ltb lhs1 rhs1 then true else if ltb rhs1 lhs1 then false else ltb lhs2 rhs2.

(** The comparison of the source on two entries, two keys or one of each: it
    only reads the fields that make up the key. *)
Definition LedgerEntryIdCmp (a b : LedgerKey) : bool :=
  if ledger_key_type a <? ledger_key_type b then true
  else if ledger_key_type b <? ledger_key_type a then false
  else
    match a, b with
    | KEY_ACCOUNT x, KEY_ACCOUNT y => ltb x y
    | KEY_TRUSTLINE x p, KEY_TRUSTLINE y q => lexCompare x y p q
    | KEY_OFFER x p, KEY_OFFER y q => lexCompare x y p q
    | KEY_DATA x p, KEY_DATA y q => lexCompare x y p q
    | KEY_CLAIMABLE_BALANCE x, KEY_CLAIMABLE_BALANCE y => ltb x y
    | _, _ => false
    end.

(** It is the strict part of a total order. *)
Definition key_image (k : LedgerKey) : Z * (list Z * list (list Z)) :=
  (ledger_key_type k,
   match k with
   | KEY_ACCOUNT x => (x, [])
   | KEY_TRUSTLINE x a => (x, asset_image a)
   | KEY_OFFER x i => (x, [[i]])
   | KEY_DATA x n => (x, [n])
   | KEY_CLAIMABLE_BALANCE x => (x, [])
   end).

Lemma key_image_inj a b : key_image a = key_image b → a = b.
Proof.
  destruct a, b; simpl; try discriminate; intros [= ->]; try done.
  - f_equal. by apply asset_image_inj.
  - by subst.
  - by subst.
Qed.

#[export] Instance LedgerKey_TotalOrd : TotalOrd LedgerKey :=
  inj_TotalOrd key_image key_image_inj.

Lemma lexCompare_cmp {A B} `{TotalOrd A} `{TotalOrd B} (x y : A) (p q : B) :
  lexCompare x y p q = match cmp x y with Eq => ltb p q | Lt => true | Gt => false end.
Proof. unfold lexCompare, ltb. rewrite (cmp_opp x y). by destruct (cmp x y). Qed.

Lemma LedgerEntryIdCmp_ltb a b : LedgerEntryIdCmp a b = ltb a b.
Proof.
  destruct a as [x|x p|x p|x p|x], b as [y|y q|y q|y q|y]; try reflexivity;
    unfold LedgerEntryIdCmp; cbn [ledger_key_type]; unfold ltb; cbn; rewrite ?lexCompare_cmp;
    unfold ltb; cbn; destruct (lex_cmp x y); try done.
  all: repeat match goal with |- context [match ?c with Eq => _ | Lt => _ | Gt => _ end] =>
    destruct c; try done end.
Qed.

#[export] Instance Asset_eq_dec : EqDecision Asset.
Proof. solve_decision. Defined.
#[export] Instance LedgerKey_eq_dec : EqDecision LedgerKey.
Proof. solve_decision. Defined.
#[export] Instance ClaimPredicate_eq_dec : EqDecision ClaimPredicate.
Proof.
  refine (fix go (x y : ClaimPredicate) : Decision (x = y) :=
    match x, y with
    | CLAIM_PREDICATE_UNCONDITIONAL, CLAIM_PREDICATE_UNCONDITIONAL => left eq_refl
    | CLAIM_PREDICATE_AND l, CLAIM_PREDICATE_AND l' => cast_if (@list_eq_dec _ go l l')
    | CLAIM_PREDICATE_OR l, CLAIM_PREDICATE_OR l' => cast_if (@list_eq_dec _ go l l')
    | CLAIM_PREDICATE_NOT o, CLAIM_PREDICATE_NOT o' =>
        match o, o' with
        | None, None => left eq_refl
        | Some p, Some p' => cast_if (go p p')
        | _, _ => right _
        end
    | CLAIM_PREDICATE_BEFORE_ABSOLUTE_TIME a, CLAIM_PREDICATE_BEFORE_ABSOLUTE_TIME b => cast_if (decide (a = b))
    | CLAIM_PREDICATE_BEFORE_RELATIVE_TIME a, CLAIM_PREDICATE_BEFORE_RELATIVE_TIME b => cast_if (decide (a = b))
    | _, _ => right _
    end); congruence.
Defined.
#[export] Instance Liabilities_eq_dec : EqDecision Liabilities.
Proof. solve_decision. Defined.
#[export] Instance SignerKey_eq_dec : EqDecision SignerKey.
Proof. solve_decision. Defined.
#[export] Instance Signer_eq_dec : EqDecision Signer.
Proof. solve_decision. Defined.
#[export] Instance AccountEntryExtensionV2_eq_dec : EqDecision AccountEntryExtensionV2.
Proof. solve_decision. Defined.
#[export] Instance AccountEntryExtensionV1_eq_dec : EqDecision AccountEntryExtensionV1.
Proof. solve_decision. Defined.
#[export] Instance AccountEntry_eq_dec : EqDecision AccountEntry.
Proof. solve_decision. Defined.
#[export] Instance TrustLineEntry_eq_dec : EqDecision TrustLineEntry.
Proof. solve_decision. Defined.
#[export] Instance OfferEntry_eq_dec : EqDecision OfferEntry.
Proof. solve_decision. Defined.
#[export] Instance DataEntry_eq_dec : EqDecision DataEntry.
Proof. solve_decision. Defined.
#[export] Instance Claimant_eq_dec : EqDecision Claimant.
Proof. solve_decision. Defined.
#[export] Instance ClaimableBalanceEntry_eq_dec : EqDecision ClaimableBalanceEntry.
Proof. solve_decision. Defined.
#[export] Instance LedgerEntryData_eq_dec : EqDecision LedgerEntryData.
Proof. solve_decision. Defined.
#[export] Instance LedgerEntryExtensionV1_eq_dec : EqDecision LedgerEntryExtensionV1.
Proof. solve_decision. Defined.
#[export] Instance LedgerEntry_eq_dec : EqDecision LedgerEntry.
Proof. solve_decision. Defined.
