(* ===== verification/GeneralizedEntries.v ===== *)
(** * Ledger headers and generalized ledger entries

    [LedgerHeader] of [xdr/DiamNet-ledger.x], and the entries a [LedgerTxn]
    works on ([ledger/GeneralizedLedgerEntry.cpp]): the entries of the ledger
    and the records of the sponsorships that are open during a transaction.
    Keys are countable, so that they index finite maps. *)

From S2P Require Import Prelude Numeric LedgerEntries.

(** ** Ledger headers *)

Record LedgerCloseValueSignature : Type := mkCloseSignature {
  lcs_nodeID : list Z;
  lcs_signature : list Z
}.

Record DiamnetValue : Type := mkDiamnetValue {
  sv_txSetHash : list Z;
  sv_closeTime : Z;
  sv_upgrades : list (list Z);
  sv_ext : option LedgerCloseValueSignature
}.

Record LedgerHeader : Type := mkLedgerHeader {
  lh_ledgerVersion : Z;
  lh_previousLedgerHash : list Z;
  lh_scpValue : DiamnetValue;
  lh_txSetResultHash : list Z;
  lh_bucketListHash : list Z;
  lh_ledgerSeq : Z;
  lh_totalCoins : Z;
  lh_feePool : Z;
  lh_inflationSeq : Z;
  lh_idPool : Z;
  lh_baseFee : Z;
  lh_baseReserve : Z;
  lh_maxTxSetSize : Z;
  lh_skipList : list (list Z)
}.

(** ** Generalized keys and entries *)

Inductive GeneralizedLedgerKey : Type :=
| GLedgerKey (k : LedgerKey)
| GSponsorshipKey (sponsoredID : AccountID)
| GSponsorshipCounterKey (sponsoringID : AccountID).

Inductive GeneralizedLedgerEntry : Type :=
| GLedgerEntry (e : LedgerEntry)
| GSponsorship (sponsoredID sponsoringID : AccountID)
| GSponsorshipCounter (sponsoringID : AccountID) (numSponsoring : Z).

Definition toKey (e : GeneralizedLedgerEntry) : GeneralizedLedgerKey :=
  match e with
  | GLedgerEntry le => GLedgerKey (LedgerEntryKey le)
  | GSponsorship sponsored _ => GSponsorshipKey sponsored
  | GSponsorshipCounter sponsoring _ => GSponsorshipCounterKey sponsoring
  end.

(** The accessors of the union check its discriminant. *)
Definition ledgerEntry (e : GeneralizedLedgerEntry) : res LedgerEntry :=
  match e with
  | GLedgerEntry le => Ok le
  | _ => Throw (RuntimeError "invalid union access")
  end.

(** [data.offer()]: the accessors of the unions of the XDR types do so too. *)
Definition data_offer (le : LedgerEntry) : res OfferEntry :=
  match entry_data le with
  | OFFER oe => Ok oe
  | _ => Throw WrongUnion
  end.

Definition data_account (le : LedgerEntry) : res AccountEntry :=
  match entry_data le with
  | ACCOUNT ae => Ok ae
  | _ => Throw WrongUnion
  end.

Definition data_trustLine (le : LedgerEntry) : res TrustLineEntry :=
  match entry_data le with
  | TRUSTLINE tl => Ok tl
  | _ => Throw WrongUnion
  end.

(** ** Decidable equality and countability *)

#[export] Instance GeneralizedLedgerKey_eq_dec : EqDecision GeneralizedLedgerKey.
Proof. solve_decision. Defined.
#[export] Instance GeneralizedLedgerEntry_eq_dec : EqDecision GeneralizedLedgerEntry.
Proof. solve_decision. Defined.
#[export] Instance LedgerCloseValueSignature_eq_dec : EqDecision LedgerCloseValueSignature.
Proof. solve_decision. Defined.
#[export] Instance DiamnetValue_eq_dec : EqDecision DiamnetValue.
Proof. solve_decision. Defined.
#[export] Instance LedgerHeader_eq_dec : EqDecision LedgerHeader.
Proof. solve_decision. Defined.

Definition asset_encode (a : Asset) : Z * (list Z * list Z) :=
  match a with
  | ASSET_TYPE_NATIVE => (0, ([], []))
  | ASSET_TYPE_CREDIT_ALPHANUM4 c i => (1, (c, i))
  | ASSET_TYPE_CREDIT_ALPHANUM12 c i => (2, (c, i))
  end.

Definition asset_decode (p : Z * (list Z * list Z)) : Asset :=
  match p with
  | (1, (c, i)) => ASSET_TYPE_CREDIT_ALPHANUM4 c i
  | (2, (c, i)) => ASSET_TYPE_CREDIT_ALPHANUM12 c i
  | _ => ASSET_TYPE_NATIVE
  end.

#[export] Program Instance Asset_countable : Countable Asset :=
  inj_countable' asset_encode asset_decode _.
Next Obligation. by intros []. Qed.

Definition key_encode (k : LedgerKey) : Z * (list Z * (Z * (list Z * Asset))) :=
  match k with
  | KEY_ACCOUNT a => (0, (a, (0, ([], ASSET_TYPE_NATIVE))))
  | KEY_TRUSTLINE a s => (1, (a, (0, ([], s))))
  | KEY_OFFER a i => (2, (a, (i, ([], ASSET_TYPE_NATIVE))))
  | KEY_DATA a n => (3, (a, (0, (n, ASSET_TYPE_NATIVE))))
  | KEY_CLAIMABLE_BALANCE b => (4, (b, (0, ([], ASSET_TYPE_NATIVE))))
  end.

Definition key_decode (p : Z * (list Z * (Z * (list Z * Asset)))) : LedgerKey :=
  match p with
  | (0, (a, _)) => KEY_ACCOUNT a
  | (1, (a, (_, (_, s)))) => KEY_TRUSTLINE a s
  | (2, (a, (i, _))) => KEY_OFFER a i
  | (3, (a, (_, (n, _)))) => KEY_DATA a n
  | (_, (b, _)) => KEY_CLAIMABLE_BALANCE b
  end.

#[export] Program Instance LedgerKey_countable : Countable LedgerKey :=
  inj_countable' key_encode key_decode _.
Next Obligation. by intros []. Qed.

#[export] Program Instance GeneralizedLedgerKey_countable : Countable GeneralizedLedgerKey :=
  inj_countable'
    (λ k, match k with
          | GLedgerKey k => inl k
          | GSponsorshipKey a => inr (inl a)
          | GSponsorshipCounterKey a => inr (inr a)
          end)
    (λ s, match s with
          | inl k => GLedgerKey k
          | inr (inl a) => GSponsorshipKey a
          | inr (inr a) => GSponsorshipCounterKey a
          end) _.
Next Obligation. by intros []. Qed.

(** ** Facts about keys *)

Lemma toKey_ledger e k : toKey e = GLedgerKey k ↔ ∃ le, e = GLedgerEntry le ∧ LedgerEntryKey le = k.
Proof. destruct e; naive_solver. Qed.

Lemma LedgerEntryKey_offer le a i :
  LedgerEntryKey le = KEY_OFFER a i ↔
  ∃ oe, entry_data le = OFFER oe ∧ off_sellerID oe = a ∧ off_offerID oe = i.
Proof. unfold LedgerEntryKey. destruct (entry_data le); simpl; naive_solver. Qed.
