(* ===== verification/Accounts.v ===== *)
(** * Accounts and trust lines

    The functions of [transactions/TransactionUtils.cpp] on single ledger entries:
    extensions, reserves, liabilities, balances and authorization; and the checks
    of assets and strings of [util/types.cpp].

    A function that changes an entry returns the entry; one that reports failure
    with [false] and leaves the entry alone returns [None]. *)

From S2P Require Import Prelude Numeric Exchange LedgerEntries GeneralizedEntries.

(** ** Fields of entries *)

Definition set_acc_balance (v : Z) (a : AccountEntry) : AccountEntry :=
  mkAccount (acc_accountID a) v (acc_seqNum a) (acc_numSubEntries a) (acc_inflationDest a) (acc_flags a)
    (acc_homeDomain a) (acc_thresholds a) (acc_signers a) (acc_ext a).

Definition set_acc_seqNum (v : Z) (a : AccountEntry) : AccountEntry :=
  mkAccount (acc_accountID a) (acc_balance a) v (acc_numSubEntries a) (acc_inflationDest a) (acc_flags a)
    (acc_homeDomain a) (acc_thresholds a) (acc_signers a) (acc_ext a).

Definition set_acc_numSubEntries (v : Z) (a : AccountEntry) : AccountEntry :=
  mkAccount (acc_accountID a) (acc_balance a) (acc_seqNum a) v (acc_inflationDest a) (acc_flags a)
    (acc_homeDomain a) (acc_thresholds a) (acc_signers a) (acc_ext a).

Definition set_acc_inflationDest (v : option AccountID) (a : AccountEntry) : AccountEntry :=
  mkAccount (acc_accountID a) (acc_balance a) (acc_seqNum a) (acc_numSubEntries a) v (acc_flags a)
    (acc_homeDomain a) (acc_thresholds a) (acc_signers a) (acc_ext a).

Definition set_acc_flags (v : Z) (a : AccountEntry) : AccountEntry :=
  mkAccount (acc_accountID a) (acc_balance a) (acc_seqNum a) (acc_numSubEntries a) (acc_inflationDest a) v
    (acc_homeDomain a) (acc_thresholds a) (acc_signers a) (acc_ext a).

Definition set_acc_homeDomain (v : list Z) (a : AccountEntry) : AccountEntry :=
  mkAccount (acc_accountID a) (acc_balance a) (acc_seqNum a) (acc_numSubEntries a) (acc_inflationDest a) (acc_flags a)
    v (acc_thresholds a) (acc_signers a) (acc_ext a).

Definition set_acc_thresholds (v : list Z) (a : AccountEntry) : AccountEntry :=
  mkAccount (acc_accountID a) (acc_balance a) (acc_seqNum a) (acc_numSubEntries a) (acc_inflationDest a) (acc_flags a)
    (acc_homeDomain a) v (acc_signers a) (acc_ext a).

Definition set_acc_signers (v : list Signer) (a : AccountEntry) : AccountEntry :=
  mkAccount (acc_accountID a) (acc_balance a) (acc_seqNum a) (acc_numSubEntries a) (acc_inflationDest a) (acc_flags a)
    (acc_homeDomain a) (acc_thresholds a) v (acc_ext a).

Definition set_acc_ext (v : option AccountEntryExtensionV1) (a : AccountEntry) : AccountEntry :=
  mkAccount (acc_accountID a) (acc_balance a) (acc_seqNum a) (acc_numSubEntries a) (acc_inflationDest a) (acc_flags a)
    (acc_homeDomain a) (acc_thresholds a) (acc_signers a) v.

Definition set_tl_balance (v : Z) (t : TrustLineEntry) : TrustLineEntry :=
  mkTrustLine (tl_accountID t) (tl_asset t) v (tl_limit t) (tl_flags t) (tl_ext t).

Definition set_tl_limit (v : Z) (t : TrustLineEntry) : TrustLineEntry :=
  mkTrustLine (tl_accountID t) (tl_asset t) (tl_balance t) v (tl_flags t) (tl_ext t).

Definition set_tl_flags (v : Z) (t : TrustLineEntry) : TrustLineEntry :=
  mkTrustLine (tl_accountID t) (tl_asset t) (tl_balance t) (tl_limit t) v (tl_ext t).

Definition set_tl_ext (v : option Liabilities) (t : TrustLineEntry) : TrustLineEntry :=
  mkTrustLine (tl_accountID t) (tl_asset t) (tl_balance t) (tl_limit t) (tl_flags t) v.

Definition set_off_amount (v : Z) (o : OfferEntry) : OfferEntry :=
  mkOffer (off_sellerID o) (off_offerID o) (off_selling o) (off_buying o) v (off_price o) (off_flags o).

Definition set_data (d : LedgerEntryData) (le : LedgerEntry) : LedgerEntry :=
  mkLedgerEntry (lastModifiedLedgerSeq le) d (entry_ext le).

Definition set_ext (x : option LedgerEntryExtensionV1) (le : LedgerEntry) : LedgerEntry :=
  mkLedgerEntry (lastModifiedLedgerSeq le) (entry_data le) x.

(** Assignments to a field of [le.data.account()], [le.data.trustLine()] and
    [le.data.offer()]. *)
Definition on_account (f : AccountEntry → AccountEntry) (le : LedgerEntry) : res LedgerEntry :=
  a ← data_account le; mret (set_data (ACCOUNT (f a)) le).

Definition on_trustLine (f : TrustLineEntry → TrustLineEntry) (le : LedgerEntry) : res LedgerEntry :=
  t ← data_trustLine le; mret (set_data (TRUSTLINE (f t)) le).

Definition on_offer (f : OfferEntry → OfferEntry) (le : LedgerEntry) : res LedgerEntry :=
  o ← data_offer le; mret (set_data (OFFER (f o)) le).

(** ** Extensions *)

Definition noLiabilities : Liabilities := mkLiabilities 0 0.

Definition prepareAccountEntryExtensionV1 (ae : AccountEntry) : AccountEntryExtensionV1 :=
  match acc_ext ae with
  | None => mkAccountV1 noLiabilities None
  | Some v1 => v1
  end.

Definition prepareAccountEntryExtensionV2 (ae : AccountEntry) : AccountEntryExtensionV2 :=
  match acc_ext_v2 (prepareAccountEntryExtensionV1 ae) with
  | None => mkAccountV2 0 0 (replicate (length (acc_signers ae)) None)
  | Some v2 => v2
  end.

Definition prepareTrustLineEntryExtensionV1 (tl : TrustLineEntry) : Liabilities :=
  default noLiabilities (tl_ext tl).

Definition prepareLedgerEntryExtensionV1 (le : LedgerEntry) : LedgerEntryExtensionV1 :=
  default (mkEntryV1 None) (entry_ext le).

(** Assignments through the references these functions return. *)
Definition set_acc_liabilities (l : Liabilities) (ae : AccountEntry) : AccountEntry :=
  set_acc_ext (Some (mkAccountV1 l (acc_ext_v2 (prepareAccountEntryExtensionV1 ae)))) ae.

Definition set_acc_v2 (v2 : AccountEntryExtensionV2) (ae : AccountEntry) : AccountEntry :=
  set_acc_ext (Some (mkAccountV1 (acc_liabilities (prepareAccountEntryExtensionV1 ae)) (Some v2))) ae.

Definition hasAccountEntryExtV2 (ae : AccountEntry) : bool :=
  match acc_ext ae with
  | Some v1 => match acc_ext_v2 v1 with Some _ => true | None => false end
  | None => false
  end.

Definition getAccountEntryExtensionV2 (ae : AccountEntry) : res AccountEntryExtensionV2 :=
  match acc_ext ae with
  | Some (mkAccountV1 _ (Some v2)) => Ok v2
  | _ => Throw (RuntimeError "expected AccountEntry extension V2")
  end.

Definition getLedgerEntryExtensionV1 (le : LedgerEntry) : res LedgerEntryExtensionV1 :=
  match entry_ext le with
  | Some v1 => Ok v1
  | None => Throw (RuntimeError "expected LedgerEntry extension V1")
  end.

(** ** Authorization *)

Definition has_flag (flags flag : Z) : bool := negb (Z.land flags flag =? 0).

Definition isAuthorized (le : LedgerEntry) : res bool :=
  tl ← data_trustLine le; mret (has_flag (tl_flags tl) AUTHORIZED_FLAG).

Definition isAuthorizedToMaintainLiabilities (le : LedgerEntry) : res bool :=
  a ← isAuthorized le;
  if (a : bool) then mret true
  else tl ← data_trustLine le; mret (has_flag (tl_flags tl) AUTHORIZED_TO_MAINTAIN_LIABILITIES_FLAG).

Definition checkAuthorization (lh : LedgerHeader) (le : LedgerEntry) : res bool :=
  if lh_ledgerVersion lh <? 10 then isAuthorized le
  else
    a ← isAuthorizedToMaintainLiabilities le;
    if (a : bool) then mret true else Throw (RuntimeError "Invalid authorization").

Definition isAuthRequired (le : LedgerEntry) : res bool :=
  a ← data_account le; mret (has_flag (acc_flags a) AUTH_REQUIRED_FLAG).

Definition isImmutableAuth (le : LedgerEntry) : res bool :=
  a ← data_account le; mret (has_flag (acc_flags a) AUTH_IMMUTABLE_FLAG).

(** [flag & ~mask], for 32 bits. *)
Definition outside (flag mask : Z) : Z := Z.land flag (UINT32_MAX - mask).

Definition trustLineFlagIsValid (flag ledgerVersion : Z) : bool :=
  if ledgerVersion <? 13 then outside flag MASK_TRUSTLINE_FLAGS =? 0
  else
    let invalidAuthCombo := Z.lor AUTHORIZED_FLAG AUTHORIZED_TO_MAINTAIN_LIABILITIES_FLAG in
    (outside flag MASK_TRUSTLINE_FLAGS_V13 =? 0) && negb (Z.land flag invalidAuthCombo =? invalidAuthCombo).

Definition setAuthorized (lh : LedgerHeader) (authorized : Z) (le : LedgerEntry) : res LedgerEntry :=
  if trustLineFlagIsValid authorized (lh_ledgerVersion lh) then on_trustLine (set_tl_flags authorized) le
  else Throw (RuntimeError "trying to set invalid trust line flag").

(** ** Reserves *)

Definition getMinBalance_of (lh : LedgerHeader) (numSubentries numSponsoring numSponsored : Z) : res Z :=
  if (lh_ledgerVersion lh <? 14) && (negb (numSponsored =? 0) || negb (numSponsoring =? 0))
  then Throw (RuntimeError "unexpected sponsorship state")
  else if lh_ledgerVersion lh <=? 8 then mret (u32 (u32 (2 + numSubentries) * lh_baseReserve lh))
  else
    let effEntries := 2 + numSubentries + numSponsoring - numSponsored in
    if effEntries <? 0 then Throw (RuntimeError "unexpected account state")
    else mret (i64 (effEntries * lh_baseReserve lh)).

Definition getMinBalance (lh : LedgerHeader) (acc : AccountEntry) : res Z :=
  let '(sponsoring, sponsored) :=
    match acc_ext acc with
    | Some (mkAccountV1 _ (Some v2)) =>
        if 14 <=? lh_ledgerVersion lh then (numSponsoring v2, numSponsored v2) else (0, 0)
    | _ => (0, 0)
    end in
  getMinBalance_of lh (acc_numSubEntries acc) sponsoring sponsored.

(** ** Liabilities *)

Definition acc_liabs (a : AccountEntry) : Liabilities := acc_liabilities (prepareAccountEntryExtensionV1 a).
Definition tl_liabs (t : TrustLineEntry) : Liabilities := prepareTrustLineEntryExtensionV1 t.

Definition unknownType {A} : res A := Throw (RuntimeError "Unknown LedgerEntry type").

Definition getLiabilities (lh : LedgerHeader) (le : LedgerEntry) : res Liabilities :=
  if lh_ledgerVersion lh <? 10 then Throw (RuntimeError "Liabilities accessed before version 10")
  else
    match entry_data le with
    | ACCOUNT acc => mret (acc_liabs acc)
    | TRUSTLINE tl => mret (tl_liabs tl)
    | _ => unknownType
    end.

Definition getBuyingLiabilities (lh : LedgerHeader) (le : LedgerEntry) : res Z := li_buying <$> getLiabilities lh le.
Definition getSellingLiabilities (lh : LedgerHeader) (le : LedgerEntry) : res Z := li_selling <$> getLiabilities lh le.

(** The amounts an offer would exchange with an unlimited counterpart. *)
Definition offerLiabilities (lh : LedgerHeader) (le : LedgerEntry) : res ExchangeResultV10 :=
  if lh_ledgerVersion lh <? 10 then Throw (RuntimeError "Offer liabilities calculated before version 10")
  else
    oe ← data_offer le;
    exchangeV10WithoutPriceErrorThresholds (off_price oe) (off_amount oe) INT64_MAX INT64_MAX INT64_MAX NORMAL.

Definition getOfferBuyingLiabilities (lh : LedgerHeader) (le : LedgerEntry) : res Z :=
  numSheepSend <$> offerLiabilities lh le.
Definition getOfferSellingLiabilities (lh : LedgerHeader) (le : LedgerEntry) : res Z :=
  numWheatReceived <$> offerLiabilities lh le.

(** ** Balances *)

Definition addBalanceTo (lh : LedgerHeader) (delta : Z) (le : LedgerEntry) : res (option LedgerEntry) :=
  match entry_data le with
  | ACCOUNT acc =>
      if delta =? 0 then mret (Some le)
      else
        o ← addBalance (acc_balance acc) delta INT64_MAX;
        match o with
        | None => mret None
        | Some newBalance =>
            let store := set_data (ACCOUNT (set_acc_balance newBalance acc)) le in
            if 10 <=? lh_ledgerVersion lh then
              minBalance ← getMinBalance lh acc;
              selling ← getSellingLiabilities lh le;
              buying ← getBuyingLiabilities lh le;
              if (delta <? 0) && (i64 (newBalance - minBalance) <? selling) then mret None
              else if i64 (INT64_MAX - buying) <? newBalance then mret None
              else mret (Some store)
            else mret (Some store)
        end
  | TRUSTLINE tl =>
      if delta =? 0 then mret (Some le)
      else
        authorized ← checkAuthorization lh le;
        if negb authorized then mret None
        else
          o ← addBalance (tl_balance tl) delta (tl_limit tl);
          match o with
          | None => mret None
          | Some newBalance =>
              let store := set_data (TRUSTLINE (set_tl_balance newBalance tl)) le in
              if 10 <=? lh_ledgerVersion lh then
                selling ← getSellingLiabilities lh le;
                buying ← getBuyingLiabilities lh le;
                if newBalance <? selling then mret None
                else if i64 (tl_limit tl - buying) <? newBalance then mret None
                else mret (Some store)
              else mret (Some store)
          end
  | _ => unknownType
  end.

Definition set_buying (v : Z) (l : Liabilities) : Liabilities := mkLiabilities v (li_selling l).
Definition set_selling (v : Z) (l : Liabilities) : Liabilities := mkLiabilities (li_buying l) v.

Definition addBuyingLiabilitiesTo (lh : LedgerHeader) (delta : Z) (le : LedgerEntry) : res (option LedgerEntry) :=
  buyingLiab ← getBuyingLiabilities lh le;
  if delta =? 0 then mret (Some le)
  else
    match entry_data le with
    | ACCOUNT acc =>
        o ← addBalance buyingLiab delta (i64 (INT64_MAX - acc_balance acc));
        mret ((λ b, set_data (ACCOUNT (set_acc_liabilities (set_buying b (acc_liabs acc)) acc)) le) <$> o)
    | TRUSTLINE tl =>
        authorized ← checkAuthorization lh le;
        if negb authorized then mret None
        else
          o ← addBalance buyingLiab delta (i64 (tl_limit tl - tl_balance tl));
          mret ((λ b, set_data (TRUSTLINE (set_tl_ext (Some (set_buying b (tl_liabs tl))) tl)) le) <$> o)
    | _ => unknownType
    end.

Definition addSellingLiabilitiesTo (lh : LedgerHeader) (delta : Z) (le : LedgerEntry) : res (option LedgerEntry) :=
  sellingLiab ← getSellingLiabilities lh le;
  if delta =? 0 then mret (Some le)
  else
    match entry_data le with
    | ACCOUNT acc =>
        minBalance ← getMinBalance lh acc;
        let maxLiabilities := i64 (acc_balance acc - minBalance) in
        if maxLiabilities <? 0 then mret None
        else
          o ← addBalance sellingLiab delta maxLiabilities;
          mret ((λ b, set_data (ACCOUNT (set_acc_liabilities (set_selling b (acc_liabs acc)) acc)) le) <$> o)
    | TRUSTLINE tl =>
        authorized ← checkAuthorization lh le;
        if negb authorized then mret None
        else
          o ← addBalance sellingLiab delta (tl_balance tl);
          mret ((λ b, set_data (TRUSTLINE (set_tl_ext (Some (set_selling b (tl_liabs tl))) tl)) le) <$> o)
    | _ => unknownType
    end.

Definition getAvailableBalance (lh : LedgerHeader) (le : LedgerEntry) : res Z :=
  avail ← match entry_data le with
          | ACCOUNT acc => minBalance ← getMinBalance lh acc; mret (i64 (acc_balance acc - minBalance))
          | TRUSTLINE tl => _ ← checkAuthorization lh le; mret (tl_balance tl)
          | _ => unknownType
          end;
  if 10 <=? lh_ledgerVersion lh then
    selling ← getSellingLiabilities lh le;
    mret (i64 (avail - selling))
  else mret avail.

Definition getMaxAmountReceive (lh : LedgerHeader) (le : LedgerEntry) : res Z :=
  match entry_data le with
  | ACCOUNT acc =>
      if 10 <=? lh_ledgerVersion lh then
        buying ← getBuyingLiabilities lh le;
        mret (i64 (INT64_MAX - i64 (acc_balance acc + buying)))
      else mret INT64_MAX
  | TRUSTLINE tl =>
      authorized ← checkAuthorization lh le;
      if negb authorized then mret 0
      else
        let amount := i64 (tl_limit tl - tl_balance tl) in
        if 10 <=? lh_ledgerVersion lh then
          buying ← getBuyingLiabilities lh le;
          mret (i64 (amount - buying))
        else mret amount
  | _ => unknownType
  end.

Definition getMinimumLimit (lh : LedgerHeader) (le : LedgerEntry) : res Z :=
  tl ← data_trustLine le;
  if 10 <=? lh_ledgerVersion lh then
    buying ← getBuyingLiabilities lh le;
    mret (i64 (tl_balance tl + buying))
  else mret (tl_balance tl).

(** ** Sequence numbers, keys *)

Definition getStartingSequenceNumber (ledgerSeq : Z) : Z := u64 (ledgerSeq * 4294967296).

Definition accountKey (accountID : AccountID) : GeneralizedLedgerKey := GLedgerKey (KEY_ACCOUNT accountID).
Definition trustlineKey (accountID : AccountID) (asset : Asset) : GeneralizedLedgerKey :=
  GLedgerKey (KEY_TRUSTLINE accountID asset).
Definition offerKey (sellerID : AccountID) (offerID : Z) : GeneralizedLedgerKey := GLedgerKey (KEY_OFFER sellerID offerID).
Definition dataKey (accountID : AccountID) (dataName : list Z) : GeneralizedLedgerKey :=
  GLedgerKey (KEY_DATA accountID dataName).
Definition claimableBalanceKey (balanceID : list Z) : GeneralizedLedgerKey := GLedgerKey (KEY_CLAIMABLE_BALANCE balanceID).
Definition sponsorshipKey (sponsoredID : AccountID) : GeneralizedLedgerKey := GSponsorshipKey sponsoredID.
Definition sponsorshipCounterKey (sponsoringID : AccountID) : GeneralizedLedgerKey := GSponsorshipCounterKey sponsoringID.

Inductive MuxedAccount : Type :=
| KEY_TYPE_ED25519 (ed25519 : list Z)
| KEY_TYPE_MUXED_ED25519 (id : Z) (ed25519 : list Z).

Definition toAccountID (m : MuxedAccount) : AccountID :=
  match m with
  | KEY_TYPE_ED25519 k => k
  | KEY_TYPE_MUXED_ED25519 _ k => k
  end.

Definition toMuxedAccount (a : AccountID) : MuxedAccount := KEY_TYPE_ED25519 a.

(** ** Assets and strings *)

(** [std::iscntrl] and [std::isalnum] of the classic locale, on ASCII. *)
Definition iscntrl (c : Z) : bool := (c <? 32) || (c =? 127).
Definition isalnum (c : Z) : bool :=
  ((48 <=? c) && (c <=? 57)) || ((65 <=? c) && (c <=? 90)) || ((97 <=? c) && (c <=? 122)).

(** A [char] is negative when its byte is over 127. *)
Definition isString32Valid (str : list Z) : bool := forallb (λ c, (c <=? 127) && negb (iscntrl c)) str.

(** The number of characters before the trailing zeros; [None] when the code is
    not valid. *)
Fixpoint assetCodeLength (zeros : bool) (code : list Z) : option Z :=
  match code with
  | [] => Some 0
  | b :: code' =>
      if b =? 0 then assetCodeLength true code'
      else if zeros then None
      else if (127 <? b) || negb (isalnum b) then None
      else Z.succ <$> assetCodeLength false code'
  end.

Definition isAssetValid (cur : Asset) : bool :=
  match cur with
  | ASSET_TYPE_NATIVE => true
  | ASSET_TYPE_CREDIT_ALPHANUM4 code _ =>
      match assetCodeLength false code with Some n => 0 <? n | None => false end
  | ASSET_TYPE_CREDIT_ALPHANUM12 code _ =>
      match assetCodeLength false code with Some n => 4 <? n | None => false end
  end.

Definition getIssuer (asset : Asset) : res AccountID :=
  match asset with
  | ASSET_TYPE_CREDIT_ALPHANUM4 _ issuer | ASSET_TYPE_CREDIT_ALPHANUM12 _ issuer => Ok issuer
  | ASSET_TYPE_NATIVE => Throw WrongUnion
  end.

Definition is_native (asset : Asset) : bool := match asset with ASSET_TYPE_NATIVE => true | _ => false end.
