(* ===== verification/OfferOrder.v ===== *)
(** * The order of offers

    [isBetterOffer] of [ledger/LedgerTxnOfferSQL.cpp] compares two offers by
    price, as quotients of double precision, and then by identifier.  This file
    has the quotient, the order and its laws, and the ordered multimap of offers
    a [LedgerTxn] keeps per asset pair ([OrderBook] of
    [ledger/LedgerTxnImpl.h]). *)

From S2P Require Import Prelude Numeric LedgerEntries GeneralizedEntries.
From Stdlib Require Import QArith.

#[local] Open Scope Z_scope.

(** ** Double precision quotients of 32-bit integers *)

(** [DFinite m k] is [m / 2^k]. *)
Inductive double : Type :=
| DFinite (m k : Z)
| DInfinity (negative : bool)
| DNaN.

(** The quotient of non-negative integers, rounded to the nearest integer, to
    the even one when it is halfway. *)
Definition round_half_even (a b : Z) : Z :=
  let q := a / b in
  let r := a mod b in
  if 2 * r <? b then q
  else if b <? 2 * r then q + 1
  else if Z.even q then q else q + 1.

(** [double(n) / double(d)]: 53 significant bits.  For 32-bit operands the
    exponent is in range and [k] is positive. *)
Definition double_quotient (n d : Z) : double :=
  if d =? 0 then (if n =? 0 then DNaN else DInfinity (n <? 0))
  else if n =? 0 then DFinite 0 0
  else
    let a := Z.abs n in
    let b := Z.abs d in
    let k0 := 52 + Z.log2 b - Z.log2 a in
    let k := if a * 2 ^ k0 <? b * 2 ^ 52 then k0 + 1 else k0 in
    DFinite (Z.sgn n * Z.sgn d * round_half_even (a * 2 ^ k) b) k.

Definition double_lt (x y : double) : bool :=
  match x, y with
  | DFinite m k, DFinite m' k' => m * 2 ^ k' <? m' * 2 ^ k
  | DFinite _ _, DInfinity neg => negb neg
  | DInfinity neg, DFinite _ _ => neg
  | DInfinity neg, DInfinity neg' => neg && negb neg'
  | _, _ => false
  end.

Definition double_eq (x y : double) : bool :=
  match x, y with
  | DFinite m k, DFinite m' k' => m * 2 ^ k' =? m' * 2 ^ k
  | DInfinity neg, DInfinity neg' => eqb neg neg'
  | _, _ => false
  end.

(** ** Better offers *)

Record OfferDescriptor : Type := mkOfferDescriptor {
  od_price : Price;
  od_offerID : Z
}.

#[export] Instance OfferDescriptor_eq_dec : EqDecision OfferDescriptor.
Proof. solve_decision. Defined.

Definition isBetterOffer (lhs rhs : OfferDescriptor) : bool :=
  let lhsPrice := double_quotient (pn (od_price lhs)) (pd (od_price lhs)) in
  let rhsPrice := double_quotient (pn (od_price rhs)) (pd (od_price rhs)) in
  if double_lt lhsPrice rhsPrice then true
  else if double_eq lhsPrice rhsPrice then od_offerID lhs <? od_offerID rhs
  else false.

Definition descriptor (oe : OfferEntry) : OfferDescriptor :=
  mkOfferDescriptor (off_price oe) (off_offerID oe).

(** The comparison of two entries also asserts that they trade the same pair. *)
Definition isBetterOffer_entries (lhsEntry rhsEntry : LedgerEntry) : res bool :=
  lhs ← data_offer lhsEntry;
  rhs ← data_offer rhsEntry;
  _ ← cassert (bool_decide (off_buying lhs = off_buying rhs));
  _ ← cassert (bool_decide (off_selling lhs = off_selling rhs));
  mret (isBetterOffer (descriptor lhs) (descriptor rhs)).

(** The two assets of an offer, the one bought first. *)
Notation AssetPair := (Asset * Asset)%type.

(** ** Order books *)

(** A multimap: elements in order, equivalent ones in order of insertion. *)
Notation OrderBook := (list (OfferDescriptor * LedgerKey)).

(** The first position whose descriptor is not better than [d]. *)
Fixpoint lower_bound (d : OfferDescriptor) (ob : OrderBook) : nat :=
  match ob with
  | [] => 0
  | (d', _) :: ob' => if isBetterOffer d' d then S (lower_bound d ob') else 0
  end%nat.

(** The first position whose descriptor is worse than [d]. *)
Fixpoint upper_bound (d : OfferDescriptor) (ob : OrderBook) : nat :=
  match ob with
  | [] => 0
  | (d', _) :: ob' => if isBetterOffer d d' then 0 else S (upper_bound d ob')
  end%nat.

(** [find]: the position of an element equivalent to [d], if there is one. *)
Definition ob_find (d : OfferDescriptor) (ob : OrderBook) : option nat :=
  let i := lower_bound d ob in
  match ob !! i with
  | Some (d', _) => if isBetterOffer d d' then None else Some i
  | None => None
  end.

(** [insert]: after the elements that are not worse. *)
Definition ob_insert (d : OfferDescriptor) (k : LedgerKey) (ob : OrderBook) : OrderBook :=
  let i := upper_bound d ob in
  take i ob ++ (d, k) :: drop i ob.

Definition ob_erase (i : nat) (ob : OrderBook) : OrderBook := delete i ob.

(** ** The order is a strict total order on the identifiers *)

Definition double_value (x : double) : Q :=
  match x with
  | DFinite m k => m # Z.to_pos (2 ^ k)
  | _ => 0%Q
  end.

Definition price_value (p : Price) : Q := double_value (double_quotient (pn p) (pd p)).

Lemma double_quotient_finite n d :
  1 ≤ n ≤ INT32_MAX → 1 ≤ d ≤ INT32_MAX → ∃ m k, double_quotient n d = DFinite m k ∧ 0 ≤ k.
Proof.
  intros Hn Hd. unfold double_quotient.
  rewrite (proj2 (Z.eqb_neq d 0)), (proj2 (Z.eqb_neq n 0)) by lia.
  eexists _, _. split; [reflexivity|].
  assert (Z.log2 (Z.abs n) < 31).
  { apply Z.log2_lt_pow2; [lia|]. unfold INT32_MAX in Hn. lia. }
  pose proof (Z.log2_nonneg (Z.abs d)). case_match; lia.
Qed.

Lemma double_lt_value m k m' k' : 0 ≤ k → 0 ≤ k' →
  double_lt (DFinite m k) (DFinite m' k') = true ↔
  (double_value (DFinite m k) < double_value (DFinite m' k'))%Q.
Proof.
  intros. unfold double_lt, double_value, Qlt; cbn [Qnum Qden].
  rewrite !Z2Pos.id by (apply Z.pow_pos_nonneg; lia). apply Z.ltb_lt.
Qed.

Lemma double_eq_value m k m' k' : 0 ≤ k → 0 ≤ k' →
  double_eq (DFinite m k) (DFinite m' k') = true ↔
  (double_value (DFinite m k) == double_value (DFinite m' k'))%Q.
Proof.
  intros. unfold double_eq, double_value, Qeq; cbn [Qnum Qden].
  rewrite !Z2Pos.id by (apply Z.pow_pos_nonneg; lia). apply Z.eqb_eq.
Qed.

Lemma isBetterOffer_spec a b :
  price_ok (od_price a) → price_ok (od_price b) →
  isBetterOffer a b = true ↔
  (price_value (od_price a) < price_value (od_price b))%Q ∨
  (price_value (od_price a) == price_value (od_price b))%Q ∧ od_offerID a < od_offerID b.
Proof.
  intros [Ha Ha'] [Hb Hb']. unfold isBetterOffer, price_value.
  destruct (double_quotient_finite _ _ Ha Ha') as (m & k & -> & Hk).
  destruct (double_quotient_finite _ _ Hb Hb') as (m' & k' & -> & Hk').
  rewrite <- double_lt_value, <- double_eq_value by done.
  destruct (double_lt _ _) eqn:E; [naive_solver|].
  destruct (double_eq _ _) eqn:E'; [|naive_solver].
  rewrite Z.ltb_lt. naive_solver.
Qed.

(** The laws, for descriptors with the prices offers have. *)
Definition desc_ok (d : OfferDescriptor) : Prop := price_ok (od_price d).

Section order.
Implicit Types a b c : OfferDescriptor.

Lemma isBetterOffer_irrefl a : desc_ok a → isBetterOffer a a = false.
Proof.
  intros Ha. apply not_true_iff_false. rewrite isBetterOffer_spec by done.
  intros [Hlt|[_ ?]]; [|lia]. by apply Qlt_irrefl in Hlt.
Qed.

Lemma isBetterOffer_trans a b c :
  desc_ok a → desc_ok b → desc_ok c →
  isBetterOffer a b = true → isBetterOffer b c = true → isBetterOffer a c = true.
Proof.
  intros Ha Hb Hc. rewrite !isBetterOffer_spec by done.
  intros [H1|[H1 ?]] [H2|[H2 ?]].
  - left. by eapply Qlt_trans.
  - left. by rewrite <- H2.
  - left. by rewrite H1.
  - right. split; [by rewrite H1|lia].
Qed.

Lemma isBetterOffer_total a b :
  desc_ok a → desc_ok b → od_offerID a ≠ od_offerID b →
  isBetterOffer a b = false → isBetterOffer b a = true.
Proof.
  intros Ha Hb Hne Hf. rewrite isBetterOffer_spec by done.
  apply not_true_iff_false in Hf. rewrite isBetterOffer_spec in Hf by done.
  destruct (Qlt_le_dec (price_value (od_price b)) (price_value (od_price a))) as [?|Hle]; [by left|].
  apply Qle_lteq in Hle as [?|Heq]; [naive_solver|]. right. split; [by symmetry|].
  destruct (decide (od_offerID a < od_offerID b)); [naive_solver|lia].
Qed.

Lemma isBetterOffer_asym a b :
  desc_ok a → desc_ok b → isBetterOffer a b = true → isBetterOffer b a = false.
Proof.
  intros Ha Hb Hab. apply not_true_iff_false. intros Hba.
  pose proof (isBetterOffer_irrefl a Ha).
  by rewrite (isBetterOffer_trans a b a) in H.
Qed.

(** Not being worse is transitive too. *)
Lemma isBetterOffer_le_lt a b c :
  desc_ok a → desc_ok b → desc_ok c →
  isBetterOffer b a = false → isBetterOffer b c = true → isBetterOffer a c = true.
Proof.
  intros Ha Hb Hc. rewrite <- not_true_iff_false, !isBetterOffer_spec by done. intros Hn Hbc.
  destruct (Qlt_le_dec (price_value (od_price b)) (price_value (od_price a))) as [?|Hle]; [naive_solver|].
  destruct Hbc as [Hlt|[Heq ?]]; [left; by eapply Qle_lt_trans|].
  apply Qle_lteq in Hle as [?|Heq']; [left; by rewrite <- Heq|].
  right. split; [by rewrite Heq'|].
  destruct (decide (od_offerID b < od_offerID a)); [|lia].
  destruct Hn. right. split; [by symmetry|done].
Qed.

Lemma isBetterOffer_lt_le a b c :
  desc_ok a → desc_ok b → desc_ok c →
  isBetterOffer a b = true → isBetterOffer c b = false → isBetterOffer a c = true.
Proof.
  intros Ha Hb Hc Hab Hcb. destruct (decide (od_offerID c = od_offerID b)) as [He|Hne].
  - apply not_true_iff_false in Hcb. rewrite isBetterOffer_spec in Hcb, Hab |- * by done.
    destruct (Qlt_le_dec (price_value (od_price c)) (price_value (od_price b))) as [?|Hle]; [naive_solver|].
    destruct Hab as [Hab|[Hab ?]]; [left; by eapply Qlt_le_trans|].
    apply Qle_lteq in Hle as [?|Heq]; [left; by rewrite Hab|]. right. split; [by rewrite Hab|lia].
  - eauto using isBetterOffer_trans, isBetterOffer_total.
Qed.
End order.

(** ** Ordered books *)

Definition better_entry (x y : OfferDescriptor * LedgerKey) : Prop :=
  isBetterOffer x.1 y.1 = true.

Definition sorted_book (ob : OrderBook) : Prop :=
  StronglySorted better_entry ob ∧ Forall (λ x, desc_ok x.1) ob.

Lemma sorted_book_nil : sorted_book [].
Proof. split; constructor. Qed.

Lemma sorted_book_cons x ob :
  sorted_book (x :: ob) ↔ desc_ok x.1 ∧ Forall (better_entry x) ob ∧ sorted_book ob.
Proof.
  unfold sorted_book. split.
  - intros [Hs Hok]. inversion Hs; inversion Hok; naive_solver.
  - intros (? & ? & ? & ?). split; by constructor.
Qed.

Lemma sorted_book_head x ob y :
  sorted_book (x :: ob) → y ∈ ob → isBetterOffer x.1 y.1 = true.
Proof. intros (_ & Hx & _)%sorted_book_cons Hy. by eapply Forall_forall in Hx. Qed.

Lemma sorted_book_ok ob x : sorted_book ob → x ∈ ob → desc_ok x.1.
Proof. intros [_ Hok] Hx. by eapply Forall_forall in Hok. Qed.

Lemma sorted_book_delete i ob : sorted_book ob → sorted_book (delete i ob).
Proof.
  revert i. induction ob as [|x ob IH]; intros i Hs; [done|].
  apply sorted_book_cons in Hs as (Hx & Hf & Hs). destruct i; simpl; [done|].
  apply sorted_book_cons. split_and!; [done| |by apply IH].
  apply Forall_forall. intros y Hy. eapply Forall_forall; [exact Hf|].
  eapply elem_of_submseteq; [exact Hy|]. apply sublist_submseteq, sublist_delete.
Qed.

(** Two entries of a book whose descriptors are equivalent are the same. *)
Lemma sorted_book_inj ob x y :
  sorted_book ob → x ∈ ob → y ∈ ob →
  isBetterOffer x.1 y.1 = false → isBetterOffer y.1 x.1 = false → x = y.
Proof.
  intros Hs Hx Hy Hxy Hyx. induction ob as [|z ob IH]; [by apply elem_of_nil in Hx|].
  pose proof (λ w, sorted_book_head z ob w Hs) as Hz.
  apply sorted_book_cons in Hs as (_ & _ & Hs).
  apply elem_of_cons in Hx as [->|Hx], Hy as [->|Hy]; auto.
  - rewrite Hz in Hxy; done.
  - rewrite Hz in Hyx; done.
Qed.

Lemma sorted_book_NoDup ob : sorted_book ob → NoDup ob.
Proof.
  induction ob as [|x ob IH]; intros Hs; [constructor|].
  pose proof (sorted_book_head x ob x Hs) as Hx.
  apply sorted_book_cons in Hs as (Hok & _ & Hs). constructor; [|by apply IH].
  intros Hin. specialize (Hx Hin). by rewrite isBetterOffer_irrefl in Hx.
Qed.

Lemma elem_of_ob_insert d k ob x : x ∈ ob_insert d k ob ↔ x = (d, k) ∨ x ∈ ob.
Proof.
  unfold ob_insert. rewrite elem_of_app, elem_of_cons.
  pose proof (take_drop (upper_bound d ob) ob) as He. rewrite <- He at 5.
  rewrite elem_of_app. tauto.
Qed.

Lemma sorted_book_insert d k ob :
  sorted_book ob → desc_ok d → (∀ x, x ∈ ob → od_offerID x.1 ≠ od_offerID d) →
  sorted_book (ob_insert d k ob).
Proof.
  intros Hs Hd Hne. unfold ob_insert.
  induction ob as [|[d' k'] ob IH]; simpl.
  - apply sorted_book_cons. split_and!; [done|constructor|apply sorted_book_nil].
  - pose proof (λ w, sorted_book_head _ ob w Hs) as Hz.
    pose proof Hs as (Hd' & _ & Hs')%sorted_book_cons.
    destruct (isBetterOffer d d') eqn:E; simpl.
    + apply sorted_book_cons. split_and!; [done| |done].
      constructor; [done|]. apply Forall_forall. intros y Hy. unfold better_entry; simpl.
      eapply isBetterOffer_trans; [..|by apply Hz]; [done|done| |done].
      eapply sorted_book_ok; [exact Hs'|done].
    + apply sorted_book_cons. split_and!; [done| |].
      * apply Forall_forall. intros y Hy. apply (elem_of_ob_insert d k ob) in Hy as [->|Hy].
        -- apply isBetterOffer_total; [done..| |done].
           intros He. by apply (Hne (d', k') ltac:(set_solver)).
        -- by apply Hz.
      * apply IH; [done|]. intros x Hx. apply Hne. set_solver.
Qed.

(** Inserting and then erasing the older of two positions is the same as
    erasing first. *)
Lemma upper_bound_delete d p ob x :
  sorted_book ob → desc_ok d → ob !! p = Some x →
  upper_bound d (delete p ob) =
  (if decide (p < upper_bound d ob)%nat then pred (upper_bound d ob) else upper_bound d ob).
Proof.
  intros Hs Hd. revert p. induction ob as [|[d' k'] ob IH]; intros p Hp; [done|].
  pose proof (λ w, sorted_book_head _ ob w Hs) as Hz.
  pose proof Hs as (Hd' & _ & Hs')%sorted_book_cons. simpl.
  destruct p as [|p]; simpl.
  - destruct (isBetterOffer d d') eqn:E; simpl.
    + destruct ob as [|[d'' k''] ob]; [done|]. simpl.
      rewrite (isBetterOffer_trans d d' d''); [done|done|done| |done|].
      * apply (sorted_book_ok _ (d'', k'')) in Hs'; [done|set_solver].
      * apply (Hz (d'', k'')). set_solver.
    + by destruct (upper_bound d ob).
  - destruct (isBetterOffer d d') eqn:E; simpl; [done|].
    rewrite (IH Hs' p) by done. destruct (decide _), (decide _); lia.
Qed.

Lemma delete_insert_after {A} (x : A) l p q : (q ≤ p)%nat →
  delete (S p) (take q l ++ x :: drop q l) = take q (delete p l) ++ x :: drop q (delete p l).
Proof.
  revert p q. induction l as [|y l IH]; intros p [|q] Hpq; simpl; try done.
  destruct p as [|p]; [lia|]. simpl. f_equal. apply IH. lia.
Qed.

Lemma delete_insert_before {A} (x : A) l p q : (p < q)%nat → (q ≤ length l)%nat →
  delete p (take q l ++ x :: drop q l) =
  take (pred q) (delete p l) ++ x :: drop (pred q) (delete p l).
Proof.
  revert p q. induction l as [|y l IH]; intros p q Hpq Hq; simpl in *; [lia|].
  destruct q as [|q]; [lia|]. destruct p as [|p]; simpl; [done|].
  destruct q as [|q]; [lia|]. simpl. f_equal. apply (IH p (S q)); lia.
Qed.

Lemma insert_then_erase d k p ob x :
  sorted_book ob → desc_ok d → ob !! p = Some x →
  ob_erase (if decide (upper_bound d ob ≤ p)%nat then S p else p) (ob_insert d k ob) =
  ob_insert d k (ob_erase p ob).
Proof.
  intros Hs Hd Hp. unfold ob_insert, ob_erase.
  rewrite (upper_bound_delete d p ob x) by done.
  assert (upper_bound d ob ≤ length ob)%nat.
  { clear. induction ob as [|[] ob IH]; simpl; [lia|]. destruct (isBetterOffer _ _); lia. }
  destruct (decide (_ ≤ p)%nat), (decide (p < _)%nat); try lia.
  - by apply delete_insert_after.
  - by apply delete_insert_before.
Qed.

(** [find] in a sorted book. *)
Lemma ob_find_Some d ob i :
  sorted_book ob → desc_ok d →
  ob_find d ob = Some i → ∃ x, ob !! i = Some x ∧ od_offerID x.1 = od_offerID d.
Proof.
  intros Hs Hd. unfold ob_find. destruct (ob !! _) as [[d' k']|] eqn:Hi; [|done].
  destruct (isBetterOffer d d') eqn:E; [done|]. intros [= <-]. eexists. split; [done|]. simpl.
  assert (isBetterOffer d' d = false) as E'.
  { clear E Hs. induction ob as [|[d'' k''] ob IH]; simpl in *; [done|].
    destruct (isBetterOffer d'' d) eqn:E; [by apply IH|]. by simplify_eq/=. }
  assert (desc_ok d') as Hd'.
  { apply list_elem_of_lookup_2 in Hi. by apply (sorted_book_ok _ _ Hs) in Hi. }
  destruct (decide (od_offerID d' = od_offerID d)); [done|].
  by rewrite (isBetterOffer_total d' d) in E.
Qed.

Lemma ob_find_elem d k ob :
  sorted_book ob → (d, k) ∈ ob → ∃ i, ob_find d ob = Some i ∧ ob !! i = Some (d, k).
Proof.
  intros Hs Hin. assert (desc_ok d) as Hd by apply (sorted_book_ok _ _ Hs Hin).
  exists (lower_bound d ob). unfold ob_find.
  cut (ob !! lower_bound d ob = Some (d, k)).
  { intros ->. by rewrite isBetterOffer_irrefl. }
  induction ob as [|[d' k'] ob IH]; [by apply elem_of_nil in Hin|]. simpl.
  pose proof (λ w, sorted_book_head _ ob w Hs) as Hz.
  apply sorted_book_cons in Hs as (Hd' & _ & Hs).
  apply elem_of_cons in Hin as [[= <- <-]|Hin].
  - by rewrite isBetterOffer_irrefl.
  - specialize (Hz _ Hin). simpl in Hz. rewrite Hz. by apply IH.
Qed.

(** The elements left after erasing one. *)
Lemma elem_of_ob_erase i x ob y :
  sorted_book ob → ob !! i = Some x → y ∈ ob_erase i ob ↔ y ∈ ob ∧ y ≠ x.
Proof.
  intros Hs Hi. pose proof (sorted_book_NoDup _ Hs) as Hnd. unfold ob_erase.
  pose proof (delete_Permutation ob i x Hi) as Hp. rewrite Hp in Hnd.
  apply NoDup_cons in Hnd as [Hx _]. assert (y ∈ ob ↔ y ∈ x :: delete i ob) as -> by (by rewrite <- Hp).
  rewrite elem_of_cons. split; [|naive_solver]. intros Hy. split; [by right|]. by intros ->.
Qed.

(** Positions in a sorted book. *)
Lemma sorted_book_lookup ob i j x y :
  sorted_book ob → ob !! i = Some x → ob !! j = Some y → (i < j)%nat → isBetterOffer x.1 y.1 = true.
Proof.
  revert i j. induction ob as [|z ob IH]; intros i j Hs Hi Hj Hij; [done|].
  destruct j as [|j]; [lia|]. destruct i as [|i]; simpl in *.
  - simplify_eq. eapply sorted_book_head; [done|]. by eapply list_elem_of_lookup_2.
  - apply sorted_book_cons in Hs as (_ & _ & Hs). eapply IH; eauto. lia.
Qed.

Lemma upper_bound_spec d ob j x :
  sorted_book ob → desc_ok d → ob !! j = Some x →
  isBetterOffer d x.1 = true ↔ (upper_bound d ob ≤ j)%nat.
Proof.
  intros Hs Hd. revert j. induction ob as [|[d' k'] ob IH]; intros j Hj; [done|]. simpl.
  pose proof (λ w, sorted_book_head _ ob w Hs) as Hz.
  pose proof Hs as (Hd' & _ & Hs')%sorted_book_cons.
  destruct (isBetterOffer d d') eqn:E; simpl.
  - split; [lia|]. intros _. destruct j as [|j]; [by simplify_eq/=|]. simpl in Hj.
    apply list_elem_of_lookup_2 in Hj as Hx.
    eapply (isBetterOffer_trans d d'); [done|done| |done|by apply Hz].
    by apply (sorted_book_ok _ _ Hs').
  - destruct j as [|j]; simpl in Hj; [simplify_eq/=|].
    + split; [congruence|lia].
    + rewrite (IH Hs' j Hj). lia.
Qed.
