(* ===== verification/LedgerTxn.v ===== *)
(** * Nested ledger transactions: one level

    [LedgerTxn::Impl] of [ledger/LedgerTxn.cpp] and [ledger/LedgerTxnImpl.h],
    and the handles of [ledger/LedgerTxnEntry.cpp] and
    [ledger/LedgerTxnHeader.cpp].  A level records the entries it changed over
    its parent, which is known to it only through the interface
    [AbstractLedgerTxnParent].

    The objects behind the handles of a client are numbered in the order in
    which they are made ([nextImpl]); a handle is the key it was loaded for and
    the number of its object, and it has expired when the level has no active
    object of that number.  The iteration order of an unordered container is
    that of [map_to_list]. *)

From S2P Require Import Prelude StateMonad Numeric LedgerEntries GeneralizedEntries OfferOrder.

Notation EntryMap := (gmap GeneralizedLedgerKey (option GeneralizedLedgerEntry)).

Inductive LedgerTxnConsistency : Type := EXACT | EXTRA_DELETES.

#[export] Instance LedgerTxnConsistency_eq_dec : EqDecision LedgerTxnConsistency.
Proof. solve_decision. Defined.

(** ** The interface of a parent *)

Record AbstractLedgerTxnParent : Type := mkParent {
  getHeader : LedgerHeader;
  getNewestVersion : GeneralizedLedgerKey → option GeneralizedLedgerEntry;
  (** the best offer of a assets, or the best one worse than a descriptor *)
  getBestOffer : Asset → Asset → option OfferDescriptor → res (option LedgerEntry);
  getAllOffers : gmap LedgerKey LedgerEntry;
  getOffersByAccountAndAsset : AccountID → Asset → gmap LedgerKey LedgerEntry
}.

(** ** State *)

(** The object behind a handle: [LedgerTxnEntry::Impl] refers to the recorded
    entry, [ConstLedgerTxnEntry::Impl] has a copy. *)
Inductive EntryImpl : Type :=
| EntryImplMutable (id : Z)
| EntryImplConst (id : Z) (mCurrent : GeneralizedLedgerEntry).

Definition impl_id (i : EntryImpl) : Z :=
  match i with EntryImplMutable id => id | EntryImplConst id _ => id end.

Record LedgerTxnEntry : Type := mkHandle { h_key : GeneralizedLedgerKey; h_id : Z }.

Record Impl : Type := mkImpl {
  mChild : bool;                          (* mChild is not null *)
  mHeader : LedgerHeader;
  mActiveHeader : option Z;
  mEntry : EntryMap;
  mActive : gmap GeneralizedLedgerKey EntryImpl;
  mShouldUpdateLastModified : bool;
  mIsSealed : bool;
  mConsistency : LedgerTxnConsistency;
  mMultiOrderBook : gmap AssetPair OrderBook;
  mWorstBestOffer : gmap AssetPair (option OfferDescriptor);
  nextImpl : Z
}.

Definition set_mChild (c : bool) (s : Impl) : Impl :=
  mkImpl c (mHeader s) (mActiveHeader s) (mEntry s) (mActive s) (mShouldUpdateLastModified s)
    (mIsSealed s) (mConsistency s) (mMultiOrderBook s) (mWorstBestOffer s) (nextImpl s).
Definition set_mHeader (h : LedgerHeader) (s : Impl) : Impl :=
  mkImpl (mChild s) h (mActiveHeader s) (mEntry s) (mActive s) (mShouldUpdateLastModified s)
    (mIsSealed s) (mConsistency s) (mMultiOrderBook s) (mWorstBestOffer s) (nextImpl s).
Definition set_mActiveHeader (h : option Z) (s : Impl) : Impl :=
  mkImpl (mChild s) (mHeader s) h (mEntry s) (mActive s) (mShouldUpdateLastModified s)
    (mIsSealed s) (mConsistency s) (mMultiOrderBook s) (mWorstBestOffer s) (nextImpl s).
Definition set_mEntry (e : EntryMap) (s : Impl) : Impl :=
  mkImpl (mChild s) (mHeader s) (mActiveHeader s) e (mActive s) (mShouldUpdateLastModified s)
    (mIsSealed s) (mConsistency s) (mMultiOrderBook s) (mWorstBestOffer s) (nextImpl s).
Definition set_mActive (a : gmap GeneralizedLedgerKey EntryImpl) (s : Impl) : Impl :=
  mkImpl (mChild s) (mHeader s) (mActiveHeader s) (mEntry s) a (mShouldUpdateLastModified s)
    (mIsSealed s) (mConsistency s) (mMultiOrderBook s) (mWorstBestOffer s) (nextImpl s).
Definition set_mIsSealed (b : bool) (s : Impl) : Impl :=
  mkImpl (mChild s) (mHeader s) (mActiveHeader s) (mEntry s) (mActive s) (mShouldUpdateLastModified s)
    b (mConsistency s) (mMultiOrderBook s) (mWorstBestOffer s) (nextImpl s).
Definition set_mConsistency (c : LedgerTxnConsistency) (s : Impl) : Impl :=
  mkImpl (mChild s) (mHeader s) (mActiveHeader s) (mEntry s) (mActive s) (mShouldUpdateLastModified s)
    (mIsSealed s) c (mMultiOrderBook s) (mWorstBestOffer s) (nextImpl s).
Definition set_mMultiOrderBook (b : gmap AssetPair OrderBook) (s : Impl) : Impl :=
  mkImpl (mChild s) (mHeader s) (mActiveHeader s) (mEntry s) (mActive s) (mShouldUpdateLastModified s)
    (mIsSealed s) (mConsistency s) b (mWorstBestOffer s) (nextImpl s).
Definition set_mWorstBestOffer (w : gmap AssetPair (option OfferDescriptor)) (s : Impl) : Impl :=
  mkImpl (mChild s) (mHeader s) (mActiveHeader s) (mEntry s) (mActive s) (mShouldUpdateLastModified s)
    (mIsSealed s) (mConsistency s) (mMultiOrderBook s) w (nextImpl s).
Definition set_nextImpl (n : Z) (s : Impl) : Impl :=
  mkImpl (mChild s) (mHeader s) (mActiveHeader s) (mEntry s) (mActive s) (mShouldUpdateLastModified s)
    (mIsSealed s) (mConsistency s) (mMultiOrderBook s) (mWorstBestOffer s) n.

(** A new object for a handle. *)
Definition makeSharedImpl : M Impl Z := λ s, Ok (nextImpl s, set_nextImpl (nextImpl s + 1) s).

(** An error during a step that must not fail stops the process
    ([printErrorAndAbort]). *)
Definition orAbort {A} (m : M Impl A) : M Impl A :=
  λ s, match m s with Ok r => Ok r | Throw _ => Throw AssertFailure end.

(** A loop over the elements of a container. *)
Fixpoint forEach {S A} (f : A → M S unit) (l : list A) : M S unit :=
  match l with
  | [] => mret tt
  | a :: l' => f a;; forEach f l'
  end.

(** ** Guards *)

Definition throwIfChild (s : Impl) : res unit :=
  if mChild s then Throw (RuntimeError "LedgerTxn has child") else Ok tt.

Definition throwIfSealed (s : Impl) : res unit :=
  if mIsSealed s then Throw (RuntimeError "LedgerTxn is sealed") else Ok tt.

Definition throwIfNotExactConsistency (s : Impl) : res unit :=
  if bool_decide (mConsistency s = EXACT) then Ok tt
  else Throw (RuntimeError "LedgerTxn consistency level is not exact").

Definition joinConsistencyLevels (c1 c2 : LedgerTxnConsistency) : LedgerTxnConsistency :=
  match c1 with
  | EXACT => c2
  | EXTRA_DELETES => EXTRA_DELETES
  end.

(** ** The order book *)

Definition findInOrderBook (le : LedgerEntry) (s : Impl) : res (option (AssetPair * option nat)) :=
  oe ← data_offer le;
  let assets := (off_buying oe, off_selling oe) in
  mret match mMultiOrderBook s !! assets with
       | Some ob => Some (assets, ob_find (descriptor oe) ob)
       | None => None
       end.

Definition recordEntry (key : GeneralizedLedgerKey) (lePtr : option GeneralizedLedgerEntry)
    (eraseIfNull : bool) : M Impl unit :=
  modify (λ s, set_mEntry (if eraseIfNull then delete key (mEntry s)
                           else <[key := lePtr]> (mEntry s)) s).

(** Inserting does not invalidate iterators: the position of an element moves by
    one when an element is inserted before it. *)
Definition insertInOrderBook (assets : AssetPair) (d : OfferDescriptor) (k : LedgerKey) : M Impl nat :=
  ob ← gets (λ s, default [] (mMultiOrderBook s !! assets));
  modify (λ s, set_mMultiOrderBook (<[assets := ob_insert d k ob]> (mMultiOrderBook s)) s);;
  mret (upper_bound d ob).

Definition eraseFromOrderBook (assets : AssetPair) (i : nat) : M Impl unit :=
  modify (λ s, set_mMultiOrderBook (alter (ob_erase i) assets (mMultiOrderBook s)) s).

(** The four-argument [updateEntry]. *)
Definition updateEntry_record (key : GeneralizedLedgerKey) (lePtr : option GeneralizedLedgerEntry)
    (effectiveActive eraseIfNull : bool) : M Impl unit :=
  match key with
  | GLedgerKey (KEY_OFFER _ _ as k) =>
      recorded ← gets (λ s, mEntry s !! key);
      obOld ← match recorded with
              | Some (Some old) => reads (λ s, le ← ledgerEntry old; findInOrderBook le s)
              | _ => mret None
              end;
      inserted ←
        match lePtr with
        | Some new =>
            if effectiveActive then recordEntry key lePtr eraseIfNull;; mret None
            else
              oe ← reads (λ _, le ← ledgerEntry new; data_offer le);
              let assets := (off_buying oe, off_selling oe) in
              i ← insertInOrderBook assets (descriptor oe) k;
              recordEntry key lePtr eraseIfNull;;
              mret (Some (assets, i))
        | None => recordEntry key lePtr eraseIfNull;; mret None
        end;
      match obOld with
      | Some (assets, Some p) =>
          let p' := match inserted with
                    | Some (assets', i) => if decide (assets' = assets ∧ (i ≤ p)%nat) then S p else p
                    | None => p
                    end in
          eraseFromOrderBook assets p'
      | _ => mret tt
      end
  | _ => recordEntry key lePtr eraseIfNull
  end.

Section level.
Variable mParent : AbstractLedgerTxnParent.

Definition updateEntry_active (key : GeneralizedLedgerKey) (lePtr : option GeneralizedLedgerEntry)
    (effectiveActive : bool) : M Impl unit :=
  let eraseIfNull := bool_decide (lePtr = None) &&
                     bool_decide (getNewestVersion mParent key = None) in
  updateEntry_record key lePtr effectiveActive eraseIfNull.

Definition updateEntry (key : GeneralizedLedgerKey) (lePtr : option GeneralizedLedgerEntry) : M Impl unit :=
  effectiveActive ← gets (λ s, bool_decide (is_Some (mActive s !! key)));
  updateEntry_active key lePtr effectiveActive.

Definition updateEntryIfRecorded (key : GeneralizedLedgerKey) (effectiveActive : bool) : M Impl unit :=
  recorded ← gets (λ s, mEntry s !! key);
  match recorded with
  | Some lePtr => updateEntry_active key lePtr effectiveActive
  | None => mret tt
  end.

(** ** Opening and closing a level *)

Definition newImpl (shouldUpdateLastModified : bool) : Impl :=
  mkImpl false (getHeader mParent) None ∅ ∅ shouldUpdateLastModified false EXACT ∅ ∅ 0.

Definition addChild : M Impl unit :=
  _ ← reads throwIfSealed;
  _ ← reads throwIfChild;
  modify (set_mChild true);;
  active ← gets mActive;
  orAbort (forEach (λ kv, updateEntryIfRecorded kv.1 false) (map_to_list active));;
  modify (set_mActive ∅);;
  modify (set_mActiveHeader None).

(** ** Queries *)

Definition Impl_getNewestVersion (s : Impl) (key : GeneralizedLedgerKey) : option GeneralizedLedgerEntry :=
  match mEntry s !! key with
  | Some lePtr => lePtr
  | None => getNewestVersion mParent key
  end.

(** The entry a position of the order book stands for. *)
Definition selfBestAt (s : Impl) (ob : OrderBook) (i : nat) : res (option LedgerEntry) :=
  match ob !! i with
  | Some (_, k) =>
      match mEntry s !! GLedgerKey k with
      | Some (Some e) => le ← ledgerEntry e; mret (Some le)
      | _ => Throw (RuntimeError "invalid order book state")
      end
  | None => mret None
  end.

(** The loop that skips the offers of the parent recorded here. *)
Fixpoint bestOffer_loop (fuel : nat) (s : Impl) (buying selling : Asset)
    (parentBest selfBest : option LedgerEntry) : res (option LedgerEntry) :=
  match fuel with
  | O => Throw OutOfFuel
  | S fuel' =>
      match parentBest with
      | None => mret selfBest
      | Some pb =>
          continue ← match selfBest with
                     | None => mret true
                     | Some sb => isBetterOffer_entries pb sb
                     end;
          if (continue : bool) then
            match mEntry s !! GLedgerKey (LedgerEntryKey pb) with
            | None => mret parentBest
            | Some _ =>
                oe ← data_offer pb;
                next ← getBestOffer mParent buying selling (Some (descriptor oe));
                bestOffer_loop fuel' s buying selling next selfBest
            end
          else mret selfBest
      end
  end.

Definition Impl_getBestOffer (s : Impl) (buying selling : Asset) (worseThan : option OfferDescriptor) :
    res (option LedgerEntry) :=
  if decide (mActive s ≠ ∅) then Throw (RuntimeError "active entries when getting best offer")
  else
    let assets := (buying, selling) in
    let fuel := S (size (mEntry s)) in
    selfBest ← match mMultiOrderBook s !! assets with
               | Some ob =>
                   selfBestAt s ob match worseThan with
                                   | None => 0%nat
                                   | Some d => upper_bound d ob
                                   end
               | None => mret None
               end;
    parentBest ← match worseThan with
                 | Some d => getBestOffer mParent buying selling (Some d)
                 | None =>
                     match mWorstBestOffer s !! assets with
                     | Some (Some d) => getBestOffer mParent buying selling (Some d)
                     | Some None => mret None
                     | None => getBestOffer mParent buying selling None
                     end
                 end;
    bestOffer_loop fuel s buying selling parentBest selfBest.

(** One recorded entry over the offers of the parent. *)
Definition overOffers (keep : OfferEntry → bool) (offers : gmap LedgerKey LedgerEntry)
    (kv : GeneralizedLedgerKey * option GeneralizedLedgerEntry) : gmap LedgerKey LedgerEntry :=
  match kv with
  | (GLedgerKey (KEY_OFFER _ _ as k), Some (GLedgerEntry le)) =>
      match entry_data le with
      | OFFER oe => if keep oe then <[k := le]> offers else delete k offers
      | _ => offers
      end
  | (GLedgerKey (KEY_OFFER _ _ as k), None) => delete k offers
  | _ => offers
  end.

Definition Impl_getAllOffers (s : Impl) : gmap LedgerKey LedgerEntry :=
  foldl (overOffers (λ _, true)) (getAllOffers mParent) (map_to_list (mEntry s)).

Definition Impl_getOffersByAccountAndAsset (s : Impl) (account : AccountID) (asset : Asset) :
    gmap LedgerKey LedgerEntry :=
  foldl (overOffers (λ oe, bool_decide (off_sellerID oe = account) &&
                           (bool_decide (off_selling oe = asset) || bool_decide (off_buying oe = asset))))
    (getOffersByAccountAndAsset mParent account asset) (map_to_list (mEntry s)).

(** A level is a parent for the next one. *)
Definition Impl_asParent (s : Impl) : AbstractLedgerTxnParent :=
  mkParent (mHeader s) (Impl_getNewestVersion s) (Impl_getBestOffer s)
    (Impl_getAllOffers s) (Impl_getOffersByAccountAndAsset s).

(** ** Handles *)

(** The object behind a handle, when it has not expired. *)
Definition lockImpl (h : LedgerTxnEntry) (s : Impl) : option EntryImpl :=
  i ← mActive s !! h_key h;
  if decide (impl_id i = h_id h) then Some i else None.

Definition currentGeneralized (h : LedgerTxnEntry) : M Impl GeneralizedLedgerEntry :=
  reads (λ s, match lockImpl h s with
              | Some (EntryImplMutable _) => deref (mEntry s !! h_key h ≫= id)
              | Some (EntryImplConst _ e) => Ok e
              | None => Throw (RuntimeError "LedgerTxnEntry not active")
              end).

(** Writing through the reference of a handle. *)
Definition writeCurrent (h : LedgerTxnEntry) (e : GeneralizedLedgerEntry) : M Impl unit :=
  i ← gets (lockImpl h);
  match i with
  | Some (EntryImplMutable _) => modify (λ s, set_mEntry (<[h_key h := Some e]> (mEntry s)) s)
  | _ => throw (RuntimeError "LedgerTxnEntry not active")
  end.

Definition Impl_deactivate (key : GeneralizedLedgerKey) : M Impl unit :=
  a ← gets (λ s, mActive s !! key);
  match a with
  | None => throw (RuntimeError "Key is not active")
  | Some _ =>
      updateEntryIfRecorded key false;;
      modify (λ s, set_mActive (delete key (mActive s)) s)
  end.

(** Deactivating a handle uses the key of what it refers to. *)
Definition deactivate (h : LedgerTxnEntry) : M Impl unit :=
  e ← currentGeneralized h;
  Impl_deactivate (toKey e).

(** The destructor of a handle. *)
Definition release (h : LedgerTxnEntry) : M Impl unit :=
  i ← gets (lockImpl h);
  match i with
  | Some _ => deactivate h
  | None => mret tt
  end.

(** ** Creating, loading and erasing entries *)

Definition create (entry : GeneralizedLedgerEntry) : M Impl LedgerTxnEntry :=
  _ ← reads throwIfSealed;
  _ ← reads throwIfChild;
  let key := toKey entry in
  newest ← gets (λ s, Impl_getNewestVersion s key);
  match newest with
  | Some _ => throw (RuntimeError "Key already exists")
  | None =>
      id ← makeSharedImpl;
      modify (λ s, set_mActive (<[key := EntryImplMutable id]> (mActive s)) s);;
      updateEntry key (Some entry);;
      mret (mkHandle key id)
  end.

Definition createOrUpdateWithoutLoading (entry : GeneralizedLedgerEntry) : M Impl unit :=
  _ ← reads throwIfSealed;
  _ ← reads throwIfChild;
  let key := toKey entry in
  a ← gets (λ s, mActive s !! key);
  match a with
  | Some _ => throw (RuntimeError "Key is already active")
  | None => updateEntry key (Some entry)
  end.

Definition erase (key : GeneralizedLedgerKey) : M Impl unit :=
  _ ← reads throwIfSealed;
  _ ← reads throwIfChild;
  newest ← gets (λ s, Impl_getNewestVersion s key);
  match newest with
  | None => throw (RuntimeError "Key does not exist")
  | Some _ =>
      updateEntry_active key None false;;
      modify (λ s, set_mActive (delete key (mActive s)) s)
  end.

(** [LedgerTxnEntry::erase]. *)
Definition eraseHandle (h : LedgerTxnEntry) : M Impl unit :=
  e ← currentGeneralized h;
  erase (toKey e).

Definition eraseWithoutLoading (key : GeneralizedLedgerKey) : M Impl unit :=
  _ ← reads throwIfSealed;
  _ ← reads throwIfChild;
  updateEntry_record key None false false;;
  modify (λ s, set_mActive (delete key (mActive s)) s);;
  modify (set_mConsistency EXTRA_DELETES).

Definition load (key : GeneralizedLedgerKey) : M Impl (option LedgerTxnEntry) :=
  _ ← reads throwIfSealed;
  _ ← reads throwIfChild;
  a ← gets (λ s, mActive s !! key);
  match a with
  | Some _ => throw (RuntimeError "Key is active")
  | None =>
      newest ← gets (λ s, Impl_getNewestVersion s key);
      match newest with
      | None => mret None
      | Some current =>
          id ← makeSharedImpl;
          modify (λ s, set_mActive (<[key := EntryImplMutable id]> (mActive s)) s);;
          updateEntry key (Some current);;
          mret (Some (mkHandle key id))
      end
  end.

Definition loadWithoutRecord (key : GeneralizedLedgerKey) : M Impl (option LedgerTxnEntry) :=
  _ ← reads throwIfSealed;
  _ ← reads throwIfChild;
  a ← gets (λ s, mActive s !! key);
  match a with
  | Some _ => throw (RuntimeError "Key is active")
  | None =>
      newest ← gets (λ s, Impl_getNewestVersion s key);
      match newest with
      | None => mret None
      | Some current =>
          id ← makeSharedImpl;
          modify (λ s, set_mActive (<[key := EntryImplConst id current]> (mActive s)) s);;
          updateEntryIfRecorded key true;;
          mret (Some (mkHandle key id))
      end
  end.

(** ** Offers *)

Definition isWorseThan (lhs rhs : option OfferDescriptor) : bool :=
  match rhs with
  | None => false
  | Some r => match lhs with
              | None => true
              | Some l => isBetterOffer r l
              end
  end.

Definition updateWorstBestOffer (assets : AssetPair) (offerDesc : option OfferDescriptor) : M Impl unit :=
  old ← gets (λ s, mWorstBestOffer s !! assets);
  when match old with None => true | Some w => isWorseThan offerDesc w end
    (modify (λ s, set_mWorstBestOffer (<[assets := offerDesc]> (mWorstBestOffer s)) s)).

Definition loadBestOffer (buying selling : Asset) : M Impl (option LedgerTxnEntry) :=
  _ ← reads throwIfSealed;
  _ ← reads throwIfChild;
  best ← reads (λ s, Impl_getBestOffer s buying selling None);
  match best with
  | None =>
      updateWorstBestOffer (buying, selling) None;;
      mret None
  | Some le =>
      h ← load (GLedgerKey (LedgerEntryKey le));
      oe ← reads (λ _, data_offer le);
      updateWorstBestOffer (buying, selling) (Some (descriptor oe));;
      mret h
  end.

(** Loading several offers at once: a handle for each. *)
Fixpoint loadKeys (keys : list LedgerKey) : M Impl (list (option LedgerTxnEntry)) :=
  match keys with
  | [] => mret []
  | k :: keys' =>
      h ← load (GLedgerKey k);
      hs ← loadKeys keys';
      mret (h :: hs)
  end.

Definition sellerOf (k : LedgerKey) : AccountID :=
  match k with KEY_OFFER a _ => a | _ => [] end.

(** The handles by seller. *)
Definition groupBySeller (l : list (LedgerKey * option LedgerTxnEntry)) :
    gmap AccountID (list (option LedgerTxnEntry)) :=
  foldl (λ m kh, <[sellerOf kh.1 := default [] (m !! sellerOf kh.1) ++ [kh.2]]> m) ∅ l.

Definition loadAllOffers : M Impl (gmap AccountID (list (option LedgerTxnEntry))) :=
  _ ← reads throwIfSealed;
  _ ← reads throwIfChild;
  offers ← gets Impl_getAllOffers;
  let keys := (map_to_list offers).*1 in
  hs ← loadKeys keys;
  mret (groupBySeller (zip keys hs)).

Definition loadOffersByAccountAndAsset (accountID : AccountID) (asset : Asset) :
    M Impl (list (option LedgerTxnEntry)) :=
  _ ← reads throwIfSealed;
  _ ← reads throwIfChild;
  offers ← gets (λ s, Impl_getOffersByAccountAndAsset s accountID asset);
  loadKeys (map_to_list offers).*1.

(** ** The header *)

Definition loadHeader : M Impl Z :=
  _ ← reads throwIfSealed;
  _ ← reads throwIfChild;
  a ← gets mActiveHeader;
  match a with
  | Some _ => throw (RuntimeError "LedgerTxnHeader is active")
  | None =>
      id ← makeSharedImpl;
      modify (set_mActiveHeader (Some id));;
      mret id
  end.

Definition currentHeader (id : Z) : M Impl LedgerHeader :=
  a ← gets mActiveHeader;
  if decide (a = Some id) then gets mHeader
  else throw (RuntimeError "LedgerTxnHeader not active").

Definition writeHeader (id : Z) (h : LedgerHeader) : M Impl unit :=
  a ← gets mActiveHeader;
  if decide (a = Some id) then modify (set_mHeader h)
  else throw (RuntimeError "LedgerTxnHeader not active").

Definition deactivateHeader : M Impl unit :=
  a ← gets mActiveHeader;
  match a with
  | None => throw (RuntimeError "LedgerTxnHeader is not active")
  | Some _ => modify (set_mActiveHeader None)
  end.

(** The destructor of the handle of the header. *)
Definition releaseHeader (id : Z) : M Impl unit :=
  a ← gets mActiveHeader;
  if decide (a = Some id) then deactivateHeader else mret tt.

(** [f] is called with the header of a sealed level, and the handle ends with
    the call. *)
Definition unsealHeader (f : LedgerHeader → LedgerHeader) : M Impl unit :=
  sealed ← gets mIsSealed;
  if (sealed : bool) then
    a ← gets mActiveHeader;
    match a with
    | Some _ => throw (RuntimeError "LedgerTxnHeader is active")
    | None => modify (λ s, set_mHeader (f (mHeader s)) s)
    end
  else throw (RuntimeError "LedgerTxn is not sealed").

(** ** Sealing *)

Definition stampEntry (seq : Z) (e : GeneralizedLedgerEntry) : GeneralizedLedgerEntry :=
  match e with
  | GLedgerEntry le => GLedgerEntry (mkLedgerEntry seq (entry_data le) (entry_ext le))
  | _ => e
  end.

Definition maybeUpdateLastModified (s : Impl) : res EntryMap :=
  _ ← throwIfSealed s;
  _ ← throwIfChild s;
  mret (fmap (M:=gmap GeneralizedLedgerKey)
          (fmap (M:=option) (λ e, if mShouldUpdateLastModified s
                                  then stampEntry (lh_ledgerSeq (mHeader s)) e else e))
          (mEntry s)).

Definition seal (entries : EntryMap) (s : Impl) : Impl :=
  set_mIsSealed true (set_mActiveHeader None (set_mActive ∅ (set_mMultiOrderBook ∅ (set_mEntry entries s)))).

Definition maybeUpdateLastModifiedThenInvokeThenSeal {A} (f : EntryMap → Impl → res A) : M Impl A :=
  sealed ← gets mIsSealed;
  if (sealed : bool) then reads (λ s, f (mEntry s) s)
  else
    entries ← reads maybeUpdateLastModified;
    a ← reads (f entries);
    modify (seal entries);;
    mret a.

(** ** What a level changed *)

Inductive LedgerEntryChange : Type :=
| LEDGER_ENTRY_CREATED (created : LedgerEntry)
| LEDGER_ENTRY_UPDATED (updated : LedgerEntry)
| LEDGER_ENTRY_REMOVED (removed : LedgerKey)
| LEDGER_ENTRY_STATE (state : LedgerEntry).

Fixpoint changesOf (entries : list (GeneralizedLedgerKey * option GeneralizedLedgerEntry)) :
    res (list LedgerEntryChange) :=
  match entries with
  | [] => mret []
  | (GLedgerKey k as key, entry) :: entries' =>
      changes ←
        match getNewestVersion mParent key with
        | Some previous =>
            prev ← ledgerEntry previous;
            last ← match entry with
                   | Some e => le ← ledgerEntry e; mret (LEDGER_ENTRY_UPDATED le)
                   | None => mret (LEDGER_ENTRY_REMOVED k)
                   end;
            mret [LEDGER_ENTRY_STATE prev; last]
        | None =>
            match entry with
            | Some e => le ← ledgerEntry e; mret [LEDGER_ENTRY_CREATED le]
            | None => Throw AssertFailure
            end
        end;
      rest ← changesOf entries';
      mret (changes ++ rest)
  | _ :: entries' => changesOf entries'
  end.

Definition getChanges : M Impl (list LedgerEntryChange) :=
  _ ← reads throwIfNotExactConsistency;
  maybeUpdateLastModifiedThenInvokeThenSeal (λ entries _, changesOf (map_to_list entries)).

Record LedgerTxnDelta : Type := mkDelta {
  delta_entry : gmap GeneralizedLedgerKey (option GeneralizedLedgerEntry * option GeneralizedLedgerEntry);
  delta_header : LedgerHeader * LedgerHeader
}.

Definition getDelta : M Impl LedgerTxnDelta :=
  _ ← reads throwIfNotExactConsistency;
  maybeUpdateLastModifiedThenInvokeThenSeal (λ entries s,
    mret (mkDelta (map_imap (λ key entry, Some (entry, getNewestVersion mParent key)) entries)
            (mHeader s, getHeader mParent))).

(** The new, changed and dead entries, for the bucket list. *)
Fixpoint allEntriesOf (entries : list (GeneralizedLedgerKey * option GeneralizedLedgerEntry)) :
    res (list LedgerEntry * list LedgerEntry * list LedgerKey) :=
  match entries with
  | [] => mret ([], [], [])
  | (GLedgerKey k as key, entry) :: entries' =>
      this ←
        match entry with
        | Some e =>
            le ← ledgerEntry e;
            mret match getNewestVersion mParent key with
                 | Some _ => ([], [le], [])
                 | None => ([le], [], [])
                 end
        | None => mret ([], [], [k])
        end;
      rest ← allEntriesOf entries';
      let '(init, live, dead) := this in
      let '(inits, lives, deads) := rest in
      mret (init ++ inits, live ++ lives, dead ++ deads)
  | _ :: entries' => allEntriesOf entries'
  end.

Definition getAllEntries : M Impl (list LedgerEntry * list LedgerEntry * list LedgerKey) :=
  maybeUpdateLastModifiedThenInvokeThenSeal (λ entries _, allEntriesOf (map_to_list entries)).

(** ** Committing *)

(** The entries a level hands over. *)
Definition committedEntries (l : Impl) : res EntryMap :=
  if mIsSealed l then mret (mEntry l) else maybeUpdateLastModified l.

(** Taking over the entries, the header and the worst best offers of a child. *)
Definition commitChild (iter : list (GeneralizedLedgerKey * option GeneralizedLedgerEntry))
    (cons : LedgerTxnConsistency) (child : Impl) : M Impl unit :=
  modify (λ s, set_mConsistency (joinConsistencyLevels (mConsistency s) cons) s);;
  orAbort (forEach (λ kv, updateEntry kv.1 kv.2) iter;;
           forEach (λ kv, updateWorstBestOffer kv.1 kv.2) (map_to_list (mWorstBestOffer child)));;
  modify (set_mHeader (mHeader child));;
  modify (set_mChild false).

(** [rollback] of a level without a child, and what its parent does. *)
Definition rollbackImpl (s : Impl) : Impl :=
  set_mIsSealed true (set_mActiveHeader None (set_mActive ∅ (set_mMultiOrderBook ∅ (set_mEntry ∅ s)))).

Definition rollbackChild : M Impl unit := modify (set_mChild false).
End level.
