(* ===== verification/LedgerTxnProps.v ===== *)
(** * Nested ledger transactions: the order books and the view of a level

    What a level of a [LedgerTxn] promises to the level above it, and the
    invariant that keeps the promise: the recorded entries laid over the ledger
    of the parent are the ledger of the level, its order books hold exactly the
    recorded offers that are not active, and the worst best offers mark how far
    the offers of the parent have been recorded. *)

From S2P Require Import Prelude StateMonad Numeric LedgerEntries GeneralizedEntries OfferOrder LedgerTxn.

Notation View := (gmap GeneralizedLedgerKey GeneralizedLedgerEntry).

(** The recorded entries over a ledger. *)
Definition overlay (m : EntryMap) (σ : View) : View :=
  merge (λ recorded below, match recorded with Some e => e | None => below end) m σ.

Lemma lookup_overlay m σ k :
  overlay m σ !! k = match m !! k with Some e => e | None => σ !! k end.
Proof. unfold overlay. rewrite lookup_merge. by destruct (m !! k), (σ !! k). Qed.

(** Recording one entry. *)
Definition recorded (eraseIfNull : bool) (key : GeneralizedLedgerKey)
    (lePtr : option GeneralizedLedgerEntry) (m : EntryMap) : EntryMap :=
  if eraseIfNull then delete key m else <[key := lePtr]> m.

(** The entry is an offer of a pair. *)
Definition offer_of (assets : AssetPair) (oe : OfferEntry) (e : GeneralizedLedgerEntry) : Prop :=
  ∃ le, e = GLedgerEntry le ∧ entry_data le = OFFER oe ∧ assets = (off_buying oe, off_selling oe).

Section ledger.
(** Who created an offer: identifiers come from a counter in the ledger header
    and are never used again. *)
Variable owner : Z → AccountID.

Definition offer_ok (oe : OfferEntry) : Prop :=
  price_ok (off_price oe) ∧ off_sellerID oe = owner (off_offerID oe) ∧ off_offerID oe ≠ INT64_MAX.

Definition entry_ok (e : GeneralizedLedgerEntry) : Prop :=
  match e with
  | GLedgerEntry le => match entry_data le with OFFER oe => offer_ok oe | _ => True end
  | _ => True
  end.

Definition wf_view (σ : View) : Prop := ∀ k e, σ !! k = Some e → toKey e = k ∧ entry_ok e.

Definition wf_entries (m : EntryMap) : Prop :=
  ∀ k e, m !! k = Some (Some e) → toKey e = k ∧ entry_ok e.

Lemma wf_overlay m σ : wf_entries m → wf_view σ → wf_view (overlay m σ).
Proof. intros Hm Hσ k e. rewrite lookup_overlay. destruct (m !! k) eqn:E; [intros ->|]; eauto. Qed.

Lemma offer_of_ok assets oe e : entry_ok e → offer_of assets oe e → offer_ok oe.
Proof. intros He (le & -> & Hd & _). simpl in He. by rewrite Hd in He. Qed.

Lemma offer_ok_desc oe : offer_ok oe → desc_ok (descriptor oe).
Proof. by intros [? _]. Qed.

Definition offer_key (oe : OfferEntry) : GeneralizedLedgerKey :=
  GLedgerKey (KEY_OFFER (off_sellerID oe) (off_offerID oe)).

Lemma offer_of_key assets oe e : offer_of assets oe e → toKey e = offer_key oe.
Proof. intros (le & -> & Hd & _). simpl. unfold LedgerEntryKey. by rewrite Hd. Qed.

(** The identifier of an offer determines its key. *)
Lemma offer_key_inj oe oe' :
  offer_ok oe → offer_ok oe' → off_offerID oe = off_offerID oe' → offer_key oe = offer_key oe'.
Proof. intros (_ & H1 & _) (_ & H2 & _) He. unfold offer_key. congruence. Qed.

(** ** Order books *)

(** The books hold exactly the recorded offers that are not active. *)
Definition in_book (m : EntryMap) (active : gset GeneralizedLedgerKey) (assets : AssetPair)
    (d : OfferDescriptor) (k : LedgerKey) : Prop :=
  ∃ e oe, m !! GLedgerKey k = Some (Some e) ∧ offer_of assets oe e ∧ d = descriptor oe ∧
          GLedgerKey k ∉ active.

Record books_ok (books : gmap AssetPair OrderBook) (m : EntryMap) (active : gset GeneralizedLedgerKey) : Prop := {
  books_sorted : ∀ assets, sorted_book (default [] (books !! assets));
  books_elem : ∀ assets d k, (d, k) ∈ default [] (books !! assets) ↔ in_book m active assets d k
}.

Lemma books_ok_empty m active : (∀ k, m !! k ≠ None → k ∈ active) → books_ok ∅ m active.
Proof.
  intros Hm. split; intros assets; rewrite lookup_empty; simpl; [apply sorted_book_nil|].
  intros d k. split; [by intros ?%elem_of_nil|]. intros (e & oe & He & _ & _ & Hna).
  destruct Hna. apply Hm. by rewrite He.
Qed.

(** An element of a book with the identifier of an offer is that offer. *)
Lemma book_elem_id books m active assets d k oe :
  wf_entries m → books_ok books m active → offer_ok oe →
  (d, k) ∈ default [] (books !! assets) → od_offerID d = off_offerID oe → GLedgerKey k = offer_key oe.
Proof.
  intros Hm Hb Hoe (e & oe' & He & Hof & -> & _)%Hb Hid.
  apply Hm in He as [Hk Hok]. rewrite <- Hk, (offer_of_key _ _ _ Hof).
  apply offer_key_inj; [by eapply offer_of_ok|done|done].
Qed.

(** ** Taking an offer out of its book *)

Definition eraseOld (old : option (AssetPair * option nat)) (books : gmap AssetPair OrderBook) :=
  match old with
  | Some (assets, Some p) => alter (ob_erase p) assets books
  | _ => books
  end.

(** The position [findInOrderBook] finds for a recorded entry. *)
Definition found (books : gmap AssetPair OrderBook) (o : option (option GeneralizedLedgerEntry)) :
    option (AssetPair * option nat) :=
  match o with
  | Some (Some (GLedgerEntry le)) =>
      match entry_data le with
      | OFFER oe =>
          let assets := (off_buying oe, off_selling oe) in
          match books !! assets with
          | Some ob => Some (assets, ob_find (descriptor oe) ob)
          | None => None
          end
      | _ => None
      end
  | _ => None
  end.

Lemma found_Some books m active k assets p :
  wf_entries m → books_ok books m active → found books (m !! GLedgerKey k) = Some (assets, Some p) →
  ∃ ob d, books !! assets = Some ob ∧ ob !! p = Some (d, k).
Proof.
  intros Hm Hb Hf. destruct (m !! GLedgerKey k) as [[[le| |]|]|] eqn:Hk; try done. simpl in Hf.
  destruct (entry_data le) as [| |oe| |] eqn:Hd; try done.
  destruct (books !! _) as [ob|] eqn:Hob; [|done]. injection Hf as <- Hfind.
  apply Hm in Hk as [HK Hok]. simpl in Hok. rewrite Hd in Hok.
  pose proof (books_sorted _ _ _ Hb (off_buying oe, off_selling oe)) as Hs. rewrite Hob in Hs.
  apply ob_find_Some in Hfind as ([d' k'] & Hp & Hid); [|done|by apply offer_ok_desc].
  exists ob, d'. split; [done|]. rewrite Hp. do 2 f_equal.
  assert (GLedgerKey k' = offer_key oe) as E.
  { eapply (book_elem_id books m active (off_buying oe, off_selling oe) d'); [done|done|done| |done].
    rewrite Hob. simpl. by eapply list_elem_of_lookup_2. }
  assert (GLedgerKey k = offer_key oe) as E'.
  { rewrite <- HK. simpl. unfold LedgerEntryKey, offer_key. by rewrite Hd. }
  congruence.
Qed.

Lemma found_None books m active k assets d :
  wf_entries m → books_ok books m active →
  (∀ assets p, found books (m !! GLedgerKey k) ≠ Some (assets, Some p)) →
  (d, k) ∉ default [] (books !! assets).
Proof.
  intros Hm Hb Hf Hin. pose proof Hin as (e & oe & He & (le & -> & Hd & ->) & -> & _)%Hb.
  specialize (Hf (off_buying oe, off_selling oe)). rewrite He in Hf. simpl in Hf. rewrite Hd in Hf.
  pose proof (books_sorted _ _ _ Hb (off_buying oe, off_selling oe)) as Hs.
  destruct (books !! _) as [ob|]; simpl in *; [|by apply elem_of_nil in Hin].
  apply ob_find_elem in Hin as (i & Hi & _); [|done]. rewrite Hi in Hf. naive_solver.
Qed.

(** Without the offer, the books are right for any entry recorded at its key,
    as long as it is active. *)
Lemma books_ok_eraseOld books m active k v :
  wf_entries m → books_ok books m active →
  books_ok (eraseOld (found books (m !! GLedgerKey k)) books)
    (partial_alter (λ _, v) (GLedgerKey k) m) ({[GLedgerKey k]} ∪ active).
Proof.
  intros Hm Hb. set (F := found books (m !! GLedgerKey k)).
  assert (∀ assets, sorted_book (default [] (eraseOld F books !! assets)) ∧
    ∀ d k', (d, k') ∈ default [] (eraseOld F books !! assets) ↔
            (d, k') ∈ default [] (books !! assets) ∧ k' ≠ k) as HE.
  { intros assets. pose proof (books_sorted _ _ _ Hb assets) as Hs.
    assert ((∃ p ob d, F = Some (assets, Some p) ∧ books !! assets = Some ob ∧ ob !! p = Some (d, k)) ∨
            eraseOld F books !! assets = books !! assets ∧
            ∀ d, (d, k) ∉ default [] (books !! assets)) as [(p & ob & d & HF & Hob & Hp)|[-> Hno]].
    { destruct F as [[assets' [p|]]|] eqn:HF; simpl.
      - destruct (found_Some _ _ _ _ _ _ Hm Hb HF) as (ob & d & Hob & Hp).
        destruct (decide (assets' = assets)) as [->|Hne]; [naive_solver|].
        right. rewrite lookup_alter_ne by done. split; [done|].
        intros d' (e & oe & He & Hof & -> & _)%Hb.
        pose proof (proj1 (books_elem _ _ _ Hb assets' d k)) as (e' & oe' & He' & Hof' & _).
        { rewrite Hob. by eapply list_elem_of_lookup_2. }
        rewrite He in He'. injection He' as <-.
        destruct Hof as (? & -> & Hd & ->), Hof' as (? & [= <-] & Hd' & ->). congruence.
      - right. split; [done|]. intros d. eapply found_None; [done|done|]. fold F. rewrite HF. naive_solver.
      - right. split; [done|]. intros d. eapply found_None; [done|done|]. fold F. rewrite HF. naive_solver. }
    - rewrite HF. simpl. rewrite lookup_alter_eq, Hob. rewrite Hob in Hs. simpl in *.
      split; [by apply sorted_book_delete|]. intros d' k'.
      rewrite (elem_of_ob_erase p (d, k)) by done. split; [|naive_solver].
      intros [Hin Hne]. split; [done|]. intros ->. apply Hne. f_equal.
      apply list_elem_of_lookup_2 in Hp.
      assert (∀ d1, (d1, k) ∈ ob → in_book m active assets d1 k) as Hin_book.
      { intros d1 Hd1. apply Hb. by rewrite Hob. }
      destruct (Hin_book _ Hin) as (e1 & oe1 & He1 & (? & -> & Hd1 & _) & -> & _).
      destruct (Hin_book _ Hp) as (e2 & oe2 & He2 & (? & -> & Hd2 & _) & -> & _). congruence.
    - split; [done|]. intros d k'. split; [|naive_solver]. intros Hin. split; [done|].
      intros ->. by apply (Hno d). }
  split; [intros assets; apply HE|]. intros assets d k'. rewrite (proj2 (HE assets)).
  rewrite (books_elem _ _ _ Hb). unfold in_book. split.
  - intros [(e & oe & He & Hof & Hd & Hna) Hne]. exists e, oe.
    rewrite lookup_partial_alter_ne by congruence. set_solver.
  - intros (e & oe & He & Hof & Hd & Hna). assert (k' ≠ k) by set_solver.
    rewrite lookup_partial_alter_ne in He by congruence. set_solver.
Qed.

(** ** Putting an offer into its book *)

Definition insertNew (k : LedgerKey) (oe : OfferEntry) (books : gmap AssetPair OrderBook) :=
  let assets := (off_buying oe, off_selling oe) in
  <[assets := ob_insert (descriptor oe) k (default [] (books !! assets))]> books.

Lemma books_ok_insertNew books m active k e oe assets :
  wf_entries m → books_ok books m ({[GLedgerKey k]} ∪ active) →
  m !! GLedgerKey k = Some (Some e) → offer_of assets oe e →
  books_ok (insertNew k oe books) m (active ∖ {[GLedgerKey k]}).
Proof.
  intros Hm Hb He Hof. pose proof Hof as (le & -> & Hd & ->).
  destruct (Hm _ _ He) as [Hk Hok]. apply (offer_of_ok _ _ _ Hok) in Hof as Hoe.
  rewrite (offer_of_key _ _ _ Hof) in Hk.
  assert (∀ assets d k', in_book m (active ∖ {[GLedgerKey k]}) assets d k' ↔
    assets = (off_buying oe, off_selling oe) ∧ (d, k') = (descriptor oe, k) ∨
    in_book m ({[GLedgerKey k]} ∪ active) assets d k') as Hin.
  { intros assets d k'. unfold in_book. destruct (decide (k' = k)) as [->|Hne].
    - split.
      + intros (e' & oe' & He' & (le' & -> & Hd' & ->) & -> & _). left.
        assert (oe' = oe) as -> by congruence. done.
      + intros [[-> [= ->]]|(? & ? & ? & ? & ? & ?)]; [|set_solver].
        exists (GLedgerEntry le), oe. set_solver.
    - split; [intros (e' & oe' & He' & ? & ? & ?)|intros [[_ [= _ ?]]|(e' & oe' & ? & ? & ? & ?)]]; [|done|].
      + right. exists e', oe'. set_solver.
      + exists e', oe'. set_solver. }
  unfold insertNew. split.
  - intros assets. destruct (decide (assets = (off_buying oe, off_selling oe))) as [->|Hne].
    + rewrite lookup_insert_eq. simpl. apply sorted_book_insert; [apply Hb|by apply offer_ok_desc|].
      intros [d k'] Hx Hid. simpl in Hid.
      assert (GLedgerKey k' = GLedgerKey k) as E.
      { rewrite <- Hk. by eapply book_elem_id. }
      apply Hb in Hx as (? & ? & _ & _ & _ & Hna). rewrite E in Hna. set_solver.
    + rewrite lookup_insert_ne by done. apply Hb.
  - intros assets d k'. rewrite Hin, <- (books_elem _ _ _ Hb).
    destruct (decide (assets = (off_buying oe, off_selling oe))) as [->|Hne].
    + rewrite lookup_insert_eq. simpl. rewrite elem_of_ob_insert. naive_solver.
    + rewrite lookup_insert_ne by done. naive_solver.
Qed.

(** Books only depend on the offers recorded and active. *)
Lemma books_ok_change books m m' active active' :
  books_ok books m active →
  (∀ k, (∃ a i, k = GLedgerKey (KEY_OFFER a i)) →
        m !! k = m' !! k ∧ (k ∈ active ↔ k ∈ active')) →
  wf_entries m → wf_entries m' → books_ok books m' active'.
Proof.
  intros Hb Hch Hm Hm'. split; [apply Hb|]. intros assets d k. rewrite (books_elem _ _ _ Hb).
  assert (∀ m0, wf_entries m0 → ∀ e oe, m0 !! GLedgerKey k = Some (Some e) → offer_of assets oe e →
    m !! GLedgerKey k = m' !! GLedgerKey k ∧ (GLedgerKey k ∈ active ↔ GLedgerKey k ∈ active')) as HK.
  { intros m0 Hm0 e oe [<- _]%Hm0 Hof. apply Hch. rewrite (offer_of_key _ _ _ Hof). unfold offer_key. eauto. }
  unfold in_book. split; intros (e & oe & He & Hof & Hd & Hna); exists e, oe.
  - destruct (HK m Hm e oe He Hof) as [<- <-]. done.
  - destruct (HK m' Hm' e oe He Hof) as [-> ->]. done.
Qed.

(** ** Recording an entry *)

Lemma recorded_alter er key lePtr m :
  recorded er key lePtr m = partial_alter (λ _, if er then None else Some lePtr) key m.
Proof. by destruct er. Qed.

Lemma lookup_recorded er key lePtr m k :
  recorded er key lePtr m !! k = if decide (k = key) then (if er then None else Some lePtr) else m !! k.
Proof.
  rewrite recorded_alter. destruct (decide (k = key)) as [->|]; [apply lookup_partial_alter_eq|].
  by apply lookup_partial_alter_ne.
Qed.

(** What may be recorded at a key. *)
Definition fits (key : GeneralizedLedgerKey) (lePtr : option GeneralizedLedgerEntry) : Prop :=
  ∀ e, lePtr = Some e → toKey e = key ∧ entry_ok e.

Lemma wf_recorded er key lePtr m : wf_entries m → fits key lePtr → wf_entries (recorded er key lePtr m).
Proof.
  intros Hm Hf k e. rewrite lookup_recorded. destruct (decide (k = key)) as [->|]; [|apply Hm].
  destruct er; [done|]. intros [= ->]. by apply Hf.
Qed.

Lemma offer_entry_of e a i :
  toKey e = GLedgerKey (KEY_OFFER a i) →
  ∃ le oe, e = GLedgerEntry le ∧ entry_data le = OFFER oe.
Proof. intros (le & -> & (oe & ? & _)%LedgerEntryKey_offer)%toKey_ledger. eauto. Qed.

Lemma found_run s a i :
  wf_entries (mEntry s) →
  match mEntry s !! GLedgerKey (KEY_OFFER a i) with
  | Some (Some old) => reads (λ s, le ← ledgerEntry old; findInOrderBook le s)
  | _ => mret None
  end s = Ok (found (mMultiOrderBook s) (mEntry s !! GLedgerKey (KEY_OFFER a i)), s).
Proof.
  intros Hm. destruct (mEntry s !! _) as [[old|]|] eqn:E; [|done..].
  apply Hm in E as [(le & oe & -> & Hd)%offer_entry_of _].
  unfold reads, findInOrderBook, data_offer. simpl. rewrite Hd. done.
Qed.

Lemma insert_erase_books books m active k (oe : OfferEntry) :
  wf_entries m → books_ok books m active → offer_ok oe →
  let assets := (off_buying oe, off_selling oe) in
  let ob := default [] (books !! assets) in
  let i := upper_bound (descriptor oe) ob in
  ∀ p assets', found books (m !! GLedgerKey k) = Some (assets', Some p) →
  alter (ob_erase (if decide (assets = assets' ∧ (i ≤ p)%nat) then S p else p)) assets'
    (<[assets := ob_insert (descriptor oe) k ob]> books) =
  insertNew k oe (alter (ob_erase p) assets' books).
Proof.
  intros Hm Hb Hoe assets ob i p assets' HF. unfold insertNew. fold assets.
  destruct (found_Some _ _ _ _ _ _ Hm Hb HF) as (ob' & d & Hob & Hp).
  destruct (decide (assets' = assets)) as [->|Hne].
  - rewrite lookup_alter_eq, Hob. unfold i, ob. rewrite Hob. simpl.
    pose proof (books_sorted _ _ _ Hb assets) as Hs. rewrite Hob in Hs. simpl in Hs.
    rewrite <- (insert_then_erase _ k p ob' (d, k)) by (try done; by apply offer_ok_desc).
    apply map_eq. intros x. destruct (decide (x = assets)) as [->|].
    + rewrite lookup_alter_eq, !lookup_insert_eq. simpl. do 2 f_equal.
      destruct (decide (_ ∧ _)), (decide (_ ≤ _)%nat); naive_solver.
    + rewrite lookup_alter_ne, !lookup_insert_ne, lookup_alter_ne by done. done.
  - rewrite decide_False by naive_solver. rewrite lookup_alter_ne by done.
    apply map_eq. intros x. destruct (decide (x = assets)) as [->|]; [|destruct (decide (x = assets')) as [->|]].
    + by rewrite lookup_alter_ne, !lookup_insert_eq by done.
    + by rewrite lookup_alter_eq, !lookup_insert_ne, lookup_alter_eq by done.
    + by rewrite lookup_alter_ne, !lookup_insert_ne, lookup_alter_ne by done.
Qed.

Section run.
Context (s : Impl) (active : gset GeneralizedLedgerKey).
Context (Hm : wf_entries (mEntry s)) (Hb : books_ok (mMultiOrderBook s) (mEntry s) active).

Lemma updateEntry_offer_run a i lePtr eff er :
  let key := GLedgerKey (KEY_OFFER a i) in
  fits key lePtr → (er = true → lePtr = None) →
  updateEntry_record key lePtr eff er s =
  Ok (tt, set_mMultiOrderBook
            (let books := eraseOld (found (mMultiOrderBook s) (mEntry s !! key)) (mMultiOrderBook s) in
             match lePtr with
             | Some (GLedgerEntry le) =>
                 if eff then books
                 else match entry_data le with
                      | OFFER oe => insertNew (KEY_OFFER a i) oe books
                      | _ => books
                      end
             | _ => books
             end)
            (set_mEntry (recorded er key lePtr (mEntry s)) s)).
Proof.
  intros key Hf Her. unfold updateEntry_record, key.
  unfold mbind at 1, M_bind at 1, gets at 1. cbv beta iota.
  unfold mbind at 1, M_bind at 1. rewrite found_run by done.
  set (F := found _ _). unfold recordEntry, insertInOrderBook, eraseFromOrderBook.
  destruct lePtr as [new|].
  - destruct (Hf new eq_refl) as [(le & oe & -> & Hd)%offer_entry_of Hok].
    simpl in Hok. rewrite Hd in Hok. destruct eff.
    + destruct F as [[assets' [p|]]|]; done.
    + assert (∀ s' : Impl, reads (λ _, le ← ledgerEntry (GLedgerEntry le); data_offer le) s' = Ok (oe, s')) as Hr.
      { intros s'. unfold reads, data_offer. cbn. by rewrite Hd. }
      unfold mbind at 1, M_bind at 1, mbind at 1, M_bind at 1. rewrite Hr, Hd.
      destruct F as [[assets' [p|]]|] eqn:HF; [|done|done].
      unfold mbind, M_bind, gets, modify, mret, M_ret. cbv beta iota zeta.
      unfold set_mMultiOrderBook. do 3 f_equal. exact (insert_erase_books _ _ _ _ _ Hm Hb Hok _ _ HF).
  - destruct F as [[assets' [p|]]|]; done.
Qed.

Lemma updateEntry_record_run key lePtr eff er :
  fits key lePtr → (er = true → lePtr = None) →
  ∃ books', updateEntry_record key lePtr eff er s =
              Ok (tt, set_mMultiOrderBook books' (set_mEntry (recorded er key lePtr (mEntry s)) s)) ∧
    books_ok books' (recorded er key lePtr (mEntry s)) (if eff then {[key]} ∪ active else active ∖ {[key]}).
Proof.
  intros Hf Her.
  assert (wf_entries (recorded er key lePtr (mEntry s))) as Hm' by (by apply wf_recorded).
  assert ((∃ a i, key = GLedgerKey (KEY_OFFER a i)) ∨ ¬ ∃ a i, key = GLedgerKey (KEY_OFFER a i))
    as [(a & i & ->)|Hno] by (destruct key as [[]| |]; naive_solver).
  - rewrite updateEntry_offer_run by done. eexists. split; [reflexivity|]. cbv zeta.
    pose proof (books_ok_eraseOld _ _ _ (KEY_OFFER a i) (if er then None else Some lePtr) Hm Hb) as HE.
    rewrite <- recorded_alter in HE. revert HE. set (B := eraseOld _ _). intros HE.
    destruct lePtr as [new|].
    + destruct (Hf new eq_refl) as [HK Hok]. destruct (offer_entry_of _ _ _ HK) as (le & oe & -> & Hd).
      destruct eff; [done|]. rewrite Hd. destruct er; [by discriminate Her|].
      eapply books_ok_insertNew; [done|exact HE| |exists le; eauto].
      rewrite lookup_recorded, decide_True by done. done.
    + assert (∀ act, (∀ k, k ≠ GLedgerKey (KEY_OFFER a i) → k ∈ act ↔ k ∈ active) →
        books_ok B (recorded er (GLedgerKey (KEY_OFFER a i)) None (mEntry s)) act) as Hact.
      { intros act Hact. split; [apply HE|]. intros assets d k. rewrite (books_elem _ _ _ HE).
        unfold in_book. split; intros (e & oe & He & Hof & Hd & Hna); exists e, oe; split_and!; try done;
          rewrite lookup_recorded in He; destruct (decide _) as [|Hne]; [by destruct er| |by destruct er|];
          specialize (Hact _ Hne); set_solver. }
      destruct eff; apply Hact; set_solver.
  - exists (mMultiOrderBook s). split.
    { destruct key as [[]| |]; try done. naive_solver. }
    eapply books_ok_change; [exact Hb| |done|done].
    intros k (a & i & ->). rewrite lookup_recorded, decide_False by naive_solver. split; [done|].
    assert (GLedgerKey (KEY_OFFER a i) ≠ key) by naive_solver. destruct eff; set_solver.
Qed.
End run.

(** ** What a parent promises *)

(** An offer of a pair in a ledger. *)
Definition offered (σ : View) (assets : AssetPair) (k : GeneralizedLedgerKey) (oe : OfferEntry) : Prop :=
  ∃ e, σ !! k = Some e ∧ offer_of assets oe e.

Definition worse (w : option OfferDescriptor) (d : OfferDescriptor) : Prop :=
  match w with None => True | Some w => isBetterOffer w d = true end.

Definition limit_ok (w : option OfferDescriptor) : Prop :=
  match w with None => True | Some w => desc_ok w end.

(** The best of the offers of a pair that are worse than a limit. *)
Definition is_best (σ : View) (assets : AssetPair) (w : option OfferDescriptor) (o : option LedgerEntry) : Prop :=
  match o with
  | None => ∀ k oe, offered σ assets k oe → ¬ worse w (descriptor oe)
  | Some le =>
      ∃ oe, offer_of assets oe (GLedgerEntry le) ∧ σ !! offer_key oe = Some (GLedgerEntry le) ∧
        worse w (descriptor oe) ∧
        ∀ k oe', offered σ assets k oe' → worse w (descriptor oe') →
          k = offer_key oe ∨ isBetterOffer (descriptor oe) (descriptor oe') = true
  end.

(** The offers selected by a predicate, by key. *)
Definition is_offers (σ : View) (P : OfferEntry → Prop) (offers : gmap LedgerKey LedgerEntry) : Prop :=
  ∀ k le, offers !! k = Some le ↔
    ∃ oe, σ !! GLedgerKey k = Some (GLedgerEntry le) ∧ entry_data le = OFFER oe ∧ P oe.

Definition trades (account : AccountID) (asset : Asset) (oe : OfferEntry) : Prop :=
  off_sellerID oe = account ∧ (off_selling oe = asset ∨ off_buying oe = asset).

(** A parent whose answers are those of the ledger [σ]. *)
Class LawfulParent (p : AbstractLedgerTxnParent) (σ : View) : Prop := {
  lp_wf : wf_view σ;
  lp_newest : ∀ k, getNewestVersion p k = σ !! k;
  lp_best : ∀ buying selling w, limit_ok w →
    ∃ o, getBestOffer p buying selling w = Ok o ∧ is_best σ (buying, selling) w o;
  lp_all : is_offers σ (λ _, True) (getAllOffers p);
  lp_account : ∀ account asset,
    is_offers σ (trades account asset) (getOffersByAccountAndAsset p account asset)
}.

Lemma offered_ok σ assets k oe : wf_view σ → offered σ assets k oe → k = offer_key oe ∧ offer_ok oe.
Proof.
  intros Hσ (e & [Hk Hok]%Hσ & Hof). rewrite <- Hk. split; [by eapply offer_of_key|by eapply offer_of_ok].
Qed.

(** ** The invariant of a level *)

(** Every offer of the parent that is not worse than the limit is recorded. *)
Definition recorded_upto (σ : View) (m : EntryMap) (assets : AssetPair) (w : option OfferDescriptor) : Prop :=
  ∀ k oe, offered σ assets k oe →
    match w with None => True | Some w => isBetterOffer w (descriptor oe) = false end →
    is_Some (m !! k).

(** For a set of keys that are to be left out of the order books: in a state
    that clients see, those with a handle. *)
Record core_ok (σ : View) (s : Impl) (active : gset GeneralizedLedgerKey) : Prop := {
  co_wf : wf_entries (mEntry s);
  co_exact : mConsistency s = EXACT → ∀ k, mEntry s !! k = Some None → is_Some (σ !! k);
  co_books : books_ok (mMultiOrderBook s) (mEntry s) active;
  co_worst : ∀ assets w, mWorstBestOffer s !! assets = Some w →
    limit_ok w ∧ recorded_upto σ (mEntry s) assets w
}.

(** ** The best offer of a level *)

Section best.
Context (p : AbstractLedgerTxnParent) (σ : View) `{!LawfulParent p σ} (s : Impl).
Context (Hm : wf_entries (mEntry s)) (buying selling : Asset) (w : option OfferDescriptor) (Hw : limit_ok w).
Notation assets := (buying, selling).
Notation m := (mEntry s).

(** The offers of the level are the recorded ones and those of the parent that
    are not recorded. *)
Lemma offered_overlay k oe :
  offered (overlay m σ) assets k oe ↔
  offered (overlay m ∅) assets k oe ∨ m !! k = None ∧ offered σ assets k oe.
Proof.
  unfold offered. setoid_rewrite lookup_overlay. destruct (m !! k) as [o|] eqn:E.
  - naive_solver.
  - rewrite lookup_empty. naive_solver.
Qed.

Lemma offered_recorded k oe : offered (overlay m ∅) assets k oe → is_Some (m !! k).
Proof.
  intros (e & He & _). rewrite lookup_overlay in He. destruct (m !! k); [by eexists|].
  by rewrite lookup_empty in He.
Qed.

Lemma wf_recorded_view : wf_view (overlay m ∅).
Proof. apply wf_overlay; [done|]. by intros k e ?%lookup_empty_Some. Qed.

(** The recorded best offer is the answer when every offer of the parent that is
    not recorded is worse. *)
Lemma selfBest_best selfBest :
  is_best (overlay m ∅) assets w selfBest →
  (∀ k oe, offered σ assets k oe → worse w (descriptor oe) → m !! k = None →
     ∃ sb soe, selfBest = Some sb ∧ offer_of assets soe (GLedgerEntry sb) ∧
       isBetterOffer (descriptor soe) (descriptor oe) = true) →
  is_best (overlay m σ) assets w selfBest.
Proof.
  intros Hself Hothers. destruct selfBest as [sb|]; simpl in *.
  - destruct Hself as (oe & Hof & Hl & Hwo & Hbest). exists oe. split_and!; try done.
    + rewrite lookup_overlay in Hl |- *. destruct (m !! _); [done|]. by rewrite lookup_empty in Hl.
    + intros k oe' [Ho|[HN Ho]]%offered_overlay Hwo'; [by apply Hbest|].
      destruct (Hothers k oe' Ho Hwo' HN) as (? & soe & [= <-] & (? & [= <-] & Hd & _) & ?).
      destruct Hof as (? & [= <-] & Hd' & _). right. congruence.
  - intros k oe [Ho|[HN Ho]]%offered_overlay Hwo; [by apply (Hself k oe)|].
    destruct (Hothers k oe Ho Hwo HN) as (? & ? & ? & _). done.
Qed.

(** What the loop knows of the best offer of the parent: the offers of the parent
    within [w] that it has passed are recorded. *)
Record loop_state (w' : option OfferDescriptor) (parentBest selfBest : option LedgerEntry) : Prop := {
  ls_limit : limit_ok w';
  ls_self : is_best (overlay m ∅) assets w selfBest;
  ls_parent : is_best σ assets w' parentBest;
  ls_within : ∀ d, worse w' d → desc_ok d → worse w d;
  ls_passed : ∀ k oe, offered σ assets k oe → worse w (descriptor oe) → ¬ worse w' (descriptor oe) →
    is_Some (m !! k)
}.

(** Two offers with the same key are the same. *)
Lemma offered_fun σ' k oe oe' : offered σ' assets k oe → offered σ' assets k oe' → oe = oe'.
Proof. intros (e & He & (? & -> & ? & _)) (? & He' & (? & -> & ? & _)). congruence. Qed.

Lemma is_best_offered σ' w' le :
  is_best σ' assets w' (Some le) → ∃ oe, entry_data le = OFFER oe ∧ assets = (off_buying oe, off_selling oe) ∧
    offered σ' assets (offer_key oe) oe ∧ σ' !! offer_key oe = Some (GLedgerEntry le) ∧
    worse w' (descriptor oe) ∧
    ∀ k oe', offered σ' assets k oe' → worse w' (descriptor oe') →
      k = offer_key oe ∨ isBetterOffer (descriptor oe) (descriptor oe') = true.
Proof.
  intros (oe & Hof & Hl & Hw' & Hb). exists oe. pose proof Hof as (? & [= <-] & Hd & Ha).
  split_and!; try done. by eexists.
Qed.

(** The best offer of the parent is ahead of the offers it has not passed. *)
Lemma parent_ahead w' pb selfBest poe :
  loop_state w' (Some pb) selfBest → entry_data pb = OFFER poe →
  ∀ k oe, offered σ assets k oe → worse w (descriptor oe) → m !! k = None →
    k = offer_key poe ∨ isBetterOffer (descriptor poe) (descriptor oe) = true.
Proof.
  intros Hls Hd k oe Ho Hwo HN.
  destruct (is_best_offered _ _ _ (ls_parent _ _ _ Hls)) as (oe' & Hd' & _ & _ & _ & _ & Hb).
  assert (oe' = poe) as -> by congruence. apply Hb; [done|].
  destruct w' as [w'|]; [|done]. simpl. apply not_false_iff_true. intros Hf.
  destruct (ls_passed _ _ _ Hls k oe Ho Hwo) as [? ?]; [simpl; congruence|congruence].
Qed.

(** The comparison of the loop. *)
Lemma loop_compare w' pb selfBest poe :
  loop_state w' (Some pb) selfBest → entry_data pb = OFFER poe →
  ∃ continue, match selfBest with None => mret true | Some sb => isBetterOffer_entries pb sb end = Ok continue ∧
    match selfBest with
    | None => continue = true
    | Some sb => ∃ soe, entry_data sb = OFFER soe ∧
                        isBetterOffer (descriptor poe) (descriptor soe) = continue
    end.
Proof.
  intros Hls Hd. destruct selfBest as [sb|]; [|by exists true].
  destruct (is_best_offered _ _ _ (ls_parent _ _ _ Hls)) as (? & Hd' & Ha & _).
  destruct (is_best_offered _ _ _ (ls_self _ _ _ Hls)) as (soe & Hsd & Hsa & _).
  eexists. split; [|by exists soe].
  unfold isBetterOffer_entries, data_offer. rewrite Hd, Hsd. simpl.
  rewrite !bool_decide_eq_true_2 by congruence. done.
Qed.

(** The offer of the parent is the answer when it is not recorded and better than
    the recorded ones. *)
Lemma parentBest_best w' pb selfBest poe :
  loop_state w' (Some pb) selfBest → entry_data pb = OFFER poe → m !! offer_key poe = None →
  (∀ sb soe, selfBest = Some sb → entry_data sb = OFFER soe →
     isBetterOffer (descriptor poe) (descriptor soe) = true) →
  is_best (overlay m σ) assets w (Some pb).
Proof.
  intros Hls Hd HN Hself. pose proof (parent_ahead _ _ _ _ Hls Hd) as Hahead.
  destruct (is_best_offered _ _ _ (ls_parent _ _ _ Hls)) as (oe' & Hd' & Ha & Ho & Hl & Hpw & _).
  assert (oe' = poe) as -> by congruence.
  destruct (offered_ok _ _ _ _ lp_wf Ho) as [_ Hpok]. exists poe. split_and!.
  - by exists pb.
  - rewrite lookup_overlay. by rewrite HN.
  - apply (ls_within _ _ _ Hls); [done|by apply offer_ok_desc].
  - intros k oe [Hoe|[HN' Hoe]]%offered_overlay Hwo; [|by apply Hahead]. right.
    destruct selfBest as [sb|]; [|by destruct (ls_self _ _ _ Hls k oe Hoe)].
    destruct (is_best_offered _ _ _ (ls_self _ _ _ Hls)) as (soe & Hsd & _ & Hso & _ & _ & Hsb).
    destruct (offered_ok _ _ _ _ wf_recorded_view Hoe) as [-> Hok].
    destruct (offered_ok _ _ _ _ wf_recorded_view Hso) as [_ Hsok].
    specialize (Hself sb soe eq_refl Hsd).
    destruct (Hsb _ oe Hoe Hwo) as [He|Hb].
    + rewrite He in Hoe. by rewrite (offered_fun _ _ _ _ Hoe Hso).
    + eapply isBetterOffer_trans; [..|exact Hself|exact Hb]; by apply offer_ok_desc.
Qed.

(** The recorded offer is the answer when the parent's is not better. *)
Lemma selfBest_ahead w' pb sb poe soe :
  loop_state w' (Some pb) (Some sb) → entry_data pb = OFFER poe → entry_data sb = OFFER soe →
  isBetterOffer (descriptor poe) (descriptor soe) = false →
  is_best (overlay m σ) assets w (Some sb).
Proof.
  intros Hls Hd Hsd Hnb. apply selfBest_best; [apply Hls|]. intros k oe Ho Hwo HN.
  destruct (is_best_offered _ _ _ (ls_parent _ _ _ Hls)) as (oe' & Hd' & _ & Hpo & _).
  assert (oe' = poe) as -> by congruence.
  destruct (is_best_offered _ _ _ (ls_self _ _ _ Hls)) as (oe' & Hsd' & Hsa & Hso & _).
  assert (oe' = soe) as -> by congruence.
  destruct (offered_ok _ _ _ _ lp_wf Ho) as [-> Hok], (offered_ok _ _ _ _ lp_wf Hpo) as [_ Hpok],
    (offered_ok _ _ _ _ wf_recorded_view Hso) as [_ Hsok].
  exists sb, soe. split_and!; [done|by exists sb|].
  destruct (parent_ahead _ _ _ _ Hls Hd _ oe Ho Hwo HN) as [He|Hb].
  - rewrite He in Ho, HN. rewrite (offered_fun _ _ _ _ Ho Hpo).
    apply isBetterOffer_total; [by apply offer_ok_desc..| |done]. intros Hid.
    apply offered_recorded in Hso. rewrite <- (offer_key_inj poe soe), HN in Hso by done. by destruct Hso.
  - eapply isBetterOffer_le_lt; [..|exact Hnb|exact Hb]; by apply offer_ok_desc.
Qed.

(** Passing a recorded offer of the parent. *)
Lemma loop_step w' pb selfBest poe next :
  loop_state w' (Some pb) selfBest → entry_data pb = OFFER poe → is_Some (m !! offer_key poe) →
  is_best σ assets (Some (descriptor poe)) next →
  loop_state (Some (descriptor poe)) next selfBest.
Proof.
  intros Hls Hd Hrec Hnext. pose proof (parent_ahead _ _ _ _ Hls Hd) as Hahead.
  destruct (is_best_offered _ _ _ (ls_parent _ _ _ Hls)) as (oe' & Hd' & _ & Ho & _ & Hpw & _).
  assert (oe' = poe) as -> by congruence.
  destruct (offered_ok _ _ _ _ lp_wf Ho) as [_ Hpok%offer_ok_desc]. split; try done; [apply Hls| |].
  - intros d Hdw Hdok. apply (ls_within _ _ _ Hls); [|done].
    pose proof (ls_limit _ _ _ Hls). destruct w' as [w'|]; [|done]. simpl in *.
    by apply (isBetterOffer_trans w' (descriptor poe) d).
  - intros k oe Hoe Hwo Hnw. destruct (m !! k) eqn:E; [by eexists|].
    destruct (Hahead k oe Hoe Hwo E) as [->|?]; [|done]. rewrite E in Hrec. by destruct Hrec.
Qed.

Lemma bestOffer_loop_best fuel w' parentBest selfBest (X : gset GeneralizedLedgerKey) :
  loop_state w' parentBest selfBest →
  (∀ k oe, offered σ assets k oe → worse w' (descriptor oe) → is_Some (m !! k) → k ∈ X) →
  (size X < fuel)%nat →
  ∃ o, bestOffer_loop p fuel s buying selling parentBest selfBest = Ok o ∧ is_best (overlay m σ) assets w o.
Proof.
  revert w' parentBest X.
  induction fuel as [|fuel IH]; intros w' parentBest X Hls HX Hfuel; [lia|]. simpl.
  destruct parentBest as [pb|].
  2: { exists selfBest. split; [done|]. apply selfBest_best; [apply Hls|]. intros k oe Ho Hwo HN.
       destruct (ls_passed _ _ _ Hls k oe Ho Hwo (ls_parent _ _ _ Hls k oe Ho)) as [? ?]. congruence. }
  destruct (is_best_offered _ _ _ (ls_parent _ _ _ Hls)) as (poe & Hd & _ & Hpo & Hl & Hpw & _).
  destruct (offered_ok _ _ _ _ lp_wf Hpo) as [_ Hpok%offer_ok_desc].
  destruct (loop_compare _ _ _ _ Hls Hd) as (continue & -> & Hc). cbn [mbind res_bind].
  assert (GLedgerKey (LedgerEntryKey pb) = offer_key poe) as ->.
  { unfold LedgerEntryKey. by rewrite Hd. }
  destruct continue.
  - destruct (m !! offer_key poe) as [o|] eqn:Hrec.
    + unfold data_offer at 1. rewrite Hd. cbn [mbind res_bind].
      destruct (lp_best buying selling (Some (descriptor poe)) Hpok) as (next & -> & Hnext).
      cbn [mbind res_bind]. eapply (IH _ next (X ∖ {[offer_key poe]})).
      * eapply loop_step; eauto.
      * intros k oe Ho Hwo Hrk. destruct (offered_ok _ _ _ _ lp_wf Ho) as [_ Hok%offer_ok_desc].
        apply elem_of_difference. rewrite elem_of_singleton. split.
        -- eapply HX; [done| |done]. pose proof (ls_limit _ _ _ Hls). destruct w' as [w'|]; [|done]. simpl in *.
           by apply (isBetterOffer_trans w' (descriptor poe)).
        -- intros ->. rewrite (offered_fun _ _ _ _ Ho Hpo) in Hwo. simpl in Hwo.
           by rewrite isBetterOffer_irrefl in Hwo.
      * assert (offer_key poe ∈ X) by (apply (HX _ poe Hpo Hpw); by eexists).
        rewrite size_difference, size_singleton by set_solver.
        assert (size X ≠ 0%nat) by (rewrite size_non_empty_iff; set_solver). lia.
    + exists (Some pb). split; [done|]. eapply parentBest_best; eauto.
      intros sb soe -> Hsd. destruct Hc as (? & ? & ?). congruence.
  - exists selfBest. split; [done|]. destruct selfBest as [sb|]; [|done].
    destruct Hc as (soe & Hsd & Hnb). eapply selfBest_ahead; eauto.
Qed.
End best.

Section level_best.
Context (p : AbstractLedgerTxnParent) (σ : View) `{!LawfulParent p σ} (s : Impl).
Context (Hs : core_ok σ s ∅) (Hactive : mActive s = ∅).

(** The position from which a book is read. *)
Definition book_start (w : option OfferDescriptor) (ob : OrderBook) : nat :=
  match w with None => 0%nat | Some d => upper_bound d ob end.

Lemma book_start_spec w ob j x :
  sorted_book ob → limit_ok w → ob !! j = Some x → worse w x.1 ↔ (book_start w ob ≤ j)%nat.
Proof. intros. destruct w; simpl; [by apply upper_bound_spec|split; [lia|done]]. Qed.

Lemma selfBestAt_best assets w :
  limit_ok w →
  let ob := default [] (mMultiOrderBook s !! assets) in
  ∃ sb, selfBestAt s ob (book_start w ob) = Ok sb ∧ is_best (overlay (mEntry s) ∅) assets w sb.
Proof.
  intros Hw ob. pose proof (co_books _ _ _ Hs) as Hb.
  pose proof (books_sorted _ _ _ Hb assets) as Hsorted. fold ob in Hsorted.
  assert (∀ k oe, offered (overlay (mEntry s) ∅) assets k oe → worse w (descriptor oe) →
    ∃ j k', k = GLedgerKey k' ∧ ob !! j = Some (descriptor oe, k') ∧ (book_start w ob ≤ j)%nat) as Hall.
  { intros k oe Ho Hwo. destruct (offered_ok _ _ _ _ (wf_recorded_view s (co_wf _ _ _ Hs)) Ho) as [-> _].
    assert ((descriptor oe, KEY_OFFER (off_sellerID oe) (off_offerID oe)) ∈ ob) as Hin.
    { apply Hb. destruct Ho as (e & He & Hof). exists e, oe. split_and!; [|done|done|set_solver].
      rewrite lookup_overlay in He. unfold offer_key in He. destruct (mEntry s !! _); [by subst|].
      by rewrite lookup_empty in He. }
    apply list_elem_of_lookup in Hin as [j Hj]. exists j. eexists. split_and!; [done|done|].
    by eapply book_start_spec. }
  unfold selfBestAt. destruct (ob !! book_start w ob) as [[d k]|] eqn:Hi.
  - apply list_elem_of_lookup_2 in Hi as Hin. apply Hb in Hin as (e & oe & He & Hof & -> & _).
    pose proof (co_wf _ _ _ Hs _ _ He) as [Hk _]. rewrite (offer_of_key _ _ _ Hof) in Hk.
    rewrite He. pose proof Hof as (le & -> & Hd & ->). eexists. split; [reflexivity|].
    exists oe. split_and!; [done| | |].
    + rewrite lookup_overlay, Hk, He. done.
    + eapply (book_start_spec _ _ _ (descriptor oe, k)); eauto.
    + intros k' oe' Ho Hwo. destruct (Hall k' oe' Ho Hwo) as (j & k'' & -> & Hj & Hle).
      destruct (decide (j = book_start w ob)) as [->|Hne].
      * left. rewrite Hk. congruence.
      * right. apply (sorted_book_lookup ob (book_start w ob) j (descriptor oe, k) (descriptor oe', k''));
          try done. lia.
  - exists None. split; [done|]. intros k oe Ho Hwo. destruct (Hall k oe Ho Hwo) as (j & k' & _ & Hj & Hle).
    apply lookup_lt_Some in Hj. apply lookup_ge_None in Hi. lia.
Qed.

(** Where the loop starts: after the offers of the parent that are known to be
    recorded. *)
Lemma parent_start buying selling w sb :
  limit_ok w → is_best (overlay (mEntry s) ∅) (buying, selling) w sb →
  ∃ w' pb, match w with
           | Some d => getBestOffer p buying selling (Some d)
           | None =>
               match mWorstBestOffer s !! (buying, selling) with
               | Some (Some d) => getBestOffer p buying selling (Some d)
               | Some None => mret None
               | None => getBestOffer p buying selling None
               end
           end = Ok pb ∧
    (loop_state σ s buying selling w w' pb sb ∨
     pb = None ∧ ∀ k oe, offered σ (buying, selling) k oe → worse w (descriptor oe) → is_Some (mEntry s !! k)).
Proof.
  intros Hw Hsb.
  assert (∀ w', limit_ok w' → (∀ d, worse w' d → desc_ok d → worse w d) →
    (∀ k oe, offered σ (buying, selling) k oe → worse w (descriptor oe) → ¬ worse w' (descriptor oe) →
      is_Some (mEntry s !! k)) →
    ∃ pb, getBestOffer p buying selling w' = Ok pb ∧ loop_state σ s buying selling w w' pb sb) as Hgo.
  { intros w' Hw' Hin Hpast. destruct (lp_best buying selling w' Hw') as (pb & Hpb & Hbest).
    exists pb. by split. }
  destruct w as [d|].
  - destruct (Hgo (Some d)) as (pb & ? & ?); [done|done|naive_solver|eauto 6].
  - destruct (mWorstBestOffer s !! (buying, selling)) as [[d|]|] eqn:Hwbo.
    + destruct (co_worst _ _ _ Hs _ _ Hwbo) as [Hd Hup].
      destruct (Hgo (Some d)) as (pb & ? & ?); [done|done| |eauto 6].
      intros k oe Ho _ Hnw. apply (Hup k oe Ho). simpl in Hnw. by apply not_true_is_false.
    + destruct (co_worst _ _ _ Hs _ _ Hwbo) as [_ Hup]. exists None, None. split; [done|]. right. eauto.
    + destruct (Hgo None) as (pb & ? & ?); [done|done|naive_solver|eauto 6].
Qed.

Lemma Impl_getBestOffer_best buying selling w :
  limit_ok w →
  ∃ o, Impl_getBestOffer p s buying selling w = Ok o ∧
       is_best (overlay (mEntry s) σ) (buying, selling) w o.
Proof.
  intros Hw. unfold Impl_getBestOffer. rewrite decide_False by naive_solver. cbv zeta.
  destruct (selfBestAt_best (buying, selling) w Hw) as (sb & Hsb & Hself).
  assert (match mMultiOrderBook s !! (buying, selling) with
          | Some ob => selfBestAt s ob match w with None => 0%nat | Some d => upper_bound d ob end
          | None => mret None
          end = Ok sb) as ->.
  { destruct (mMultiOrderBook s !! _) as [ob|]; [done|]. simpl in Hsb. by destruct w. }
  cbn [mbind res_bind]. destruct (parent_start buying selling w sb Hw Hself) as (w' & pb & -> & Hpb).
  cbn [mbind res_bind]. destruct Hpb as [Hls|[-> Hall]].
  - eapply (bestOffer_loop_best p σ s (co_wf _ _ _ Hs) buying selling w) with (X := dom (mEntry s)); [done|exact Hls| |].
    + intros k oe _ _ ?. by apply elem_of_dom.
    + rewrite size_dom. lia.
  - exists sb. split; [done|]. apply selfBest_best; [done|]. intros k oe Ho Hwo HN.
    destruct (Hall k oe Ho Hwo) as [? ?]. congruence.
Qed.
End level_best.

(** ** The other queries of a level *)

Lemma overOffers_other keep base key o k :
  key ≠ GLedgerKey k → overOffers keep base (key, o) !! k = base !! k.
Proof.
  intros Hne. destruct key as [[]| |]; try done. simpl.
  assert (KEY_OFFER sellerID offerID ≠ k) by congruence.
  destruct o as [[le| |]|]; try done; [|by rewrite lookup_delete_ne].
  destruct (entry_data le); try done. destruct (keep _); [by rewrite lookup_insert_ne|by rewrite lookup_delete_ne].
Qed.

Lemma overOffers_ext keep base base' key o k :
  base !! k = base' !! k → overOffers keep base (key, o) !! k = overOffers keep base' (key, o) !! k.
Proof.
  intros He. destruct (decide (key = GLedgerKey k)) as [->|]; [|by rewrite !overOffers_other].
  destruct k; try done. destruct o as [[le| |]|]; simpl; try done; [|by rewrite !lookup_delete_eq].
  destruct (entry_data le); try done. destruct (keep _); [by rewrite !lookup_insert_eq|by rewrite !lookup_delete_eq].
Qed.

#[local] Arguments overOffers : simpl never.

Lemma foldl_overOffers keep l base k :
  NoDup l.*1 →
  foldl (overOffers keep) base l !! k =
  match (list_to_map l : EntryMap) !! GLedgerKey k with
  | Some o => overOffers keep base (GLedgerKey k, o) !! k
  | None => base !! k
  end.
Proof.
  revert base. induction l as [|[key o] l IH]; intros base Hnd; simpl; [by rewrite lookup_empty|].
  apply NoDup_cons in Hnd as [Hn Hnd]. simpl in Hn. rewrite (IH _ Hnd).
  destruct (decide (key = GLedgerKey k)) as [->|Hne].
  - rewrite lookup_insert_eq, not_elem_of_list_to_map_1 by done. done.
  - rewrite lookup_insert_ne by done. destruct (list_to_map l !! GLedgerKey k).
    + apply overOffers_ext. by apply overOffers_other.
    + by apply overOffers_other.
Qed.

Lemma is_offers_overlay p σ m (P : OfferEntry → Prop) keep base :
  LawfulParent p σ → wf_entries m → is_offers σ P base → (∀ oe, keep oe = true ↔ P oe) →
  is_offers (overlay m σ) P (foldl (overOffers keep) base (map_to_list m)).
Proof.
  intros Hp Hm Hbase Hkeep k le.
  rewrite foldl_overOffers, list_to_map_to_list by apply NoDup_fst_map_to_list.
  setoid_rewrite lookup_overlay. destruct (m !! GLedgerKey k) as [[e|]|] eqn:E; [|clear E|apply Hbase].
  - apply Hm in E as [(le' & -> & Hk)%toKey_ledger _]. unfold overOffers.
    destruct k; try (rewrite (Hbase _ le); split; [intros (oe & Hσ & Hd & _)|intros (oe & [= ->] & Hd & _)];
      [pose proof (lp_wf _ _ Hσ) as [HK _]; simpl in HK; unfold LedgerEntryKey in HK; by rewrite Hd in HK|
       unfold LedgerEntryKey in Hk; by rewrite Hd in Hk]).
    apply LedgerEntryKey_offer in Hk as (oe & Hd & _). rewrite Hd.
    specialize (Hkeep oe). destruct (keep oe).
    + rewrite lookup_insert_eq. split; [intros [= <-]; naive_solver|intros (? & [= ->] & _); done].
    + rewrite lookup_delete_eq. split; [done|]. intros (oe' & [= ->] & Hd' & HP).
      assert (oe' = oe) as -> by congruence. naive_solver.
  - split; [|naive_solver]. unfold overOffers. destruct k; [| |by rewrite lookup_delete_eq| |].
    all: intros (oe & Hσ & Hd & _)%Hbase; pose proof (lp_wf _ _ Hσ) as [HK _]; simpl in HK;
      unfold LedgerEntryKey in HK; by rewrite Hd in HK.
Qed.

(** A level without active entries keeps the promise for its ledger. *)
Lemma level_lawful p σ s :
  LawfulParent p σ → core_ok σ s ∅ → mActive s = ∅ →
  LawfulParent (Impl_asParent p s) (overlay (mEntry s) σ).
Proof.
  intros Hp Hs Hact. split.
  - apply wf_overlay; [apply Hs|apply Hp].
  - intros k. simpl. unfold Impl_getNewestVersion. rewrite lookup_overlay.
    destruct (mEntry s !! k); [done|]. apply lp_newest.
  - intros buying selling w Hw. by apply Impl_getBestOffer_best.
  - eapply is_offers_overlay; [done|apply Hs|apply Hp|done].
  - intros account asset. eapply is_offers_overlay; [done|apply Hs|apply Hp|].
    intros oe. unfold trades. rewrite andb_true_iff, orb_true_iff, !bool_decide_eq_true. done.
Qed.

End ledger.
