(* ===== verification/LedgerTxnSpec.v ===== *)
(** * Nested ledger transactions: the specification

    What [LedgerTxn] promises to its clients, as a machine without the entry
    maps, order books and caches of the implementation: a level has the whole
    ledger it shows, and the keys that have been recorded in it, which are the
    ones whose last modification is updated when it is committed.  Opening a
    level copies the ledger, committing replaces the ledger below, rolling back
    drops the copy. *)

From stdpp Require Import sorting.
From S2P Require Import Prelude StateMonad Numeric LedgerEntries GeneralizedEntries OfferOrder LedgerTxn LedgerTxnProps.

(** ** Levels *)

Record Level : Type := mkLevel {
  v_view : View;
  v_touched : gset GeneralizedLedgerKey;
  v_header : LedgerHeader;
  v_stamp : bool;
  v_active : gmap GeneralizedLedgerKey EntryImpl;
  v_activeHeader : option Z;
  v_next : Z;
  v_consistency : LedgerTxnConsistency;
  v_sealed : bool
}.

(** The ledger a recorded entry leaves. *)
Definition put_entry (key : GeneralizedLedgerKey) (lePtr : option GeneralizedLedgerEntry) (σ : View) : View :=
  match lePtr with Some e => <[key := e]> σ | None => delete key σ end.

(** An entry that is dead and was not in the ledger below need not be known. *)
Definition touch (below : View) (key : GeneralizedLedgerKey) (lePtr : option GeneralizedLedgerEntry)
    (t : gset GeneralizedLedgerKey) : gset GeneralizedLedgerKey :=
  if bool_decide (lePtr = None) && bool_decide (below !! key = None) then t ∖ {[key]} else {[key]} ∪ t.

Definition put_level (below : View) (key : GeneralizedLedgerKey) (lePtr : option GeneralizedLedgerEntry)
    (l : Level) : Level :=
  mkLevel (put_entry key lePtr (v_view l)) (touch below key lePtr (v_touched l)) (v_header l) (v_stamp l)
    (v_active l) (v_activeHeader l) (v_next l) (v_consistency l) (v_sealed l).

Definition set_active (a : gmap GeneralizedLedgerKey EntryImpl) (l : Level) : Level :=
  mkLevel (v_view l) (v_touched l) (v_header l) (v_stamp l) a (v_activeHeader l) (v_next l)
    (v_consistency l) (v_sealed l).

Definition set_headers (h : LedgerHeader) (a : option Z) (l : Level) : Level :=
  mkLevel (v_view l) (v_touched l) h (v_stamp l) (v_active l) a (v_next l) (v_consistency l) (v_sealed l).

(** A handle: the number of the next object. *)
Definition new_id : M Level Z :=
  λ l, Ok (v_next l, mkLevel (v_view l) (v_touched l) (v_header l) (v_stamp l) (v_active l)
                       (v_activeHeader l) (v_next l + 1) (v_consistency l) (v_sealed l)).

Definition guard_open : M Level unit :=
  sealed ← gets v_sealed;
  if (sealed : bool) then throw (RuntimeError "LedgerTxn is sealed") else mret tt.

(** ** Operations on the innermost level *)

Section operations.
Variable below : View.

Definition activate (key : GeneralizedLedgerKey) (e : GeneralizedLedgerEntry) : M Level LedgerTxnEntry :=
  id ← new_id;
  modify (λ l, set_active (<[key := EntryImplMutable id]> (v_active l)) l);;
  modify (put_level below key (Some e));;
  mret (mkHandle key id).

Definition spec_create (e : GeneralizedLedgerEntry) : M Level LedgerTxnEntry :=
  guard_open;;
  newest ← gets (λ l, v_view l !! toKey e);
  match newest with
  | Some _ => throw (RuntimeError "Key already exists")
  | None => activate (toKey e) e
  end.

Definition spec_createOrUpdate (e : GeneralizedLedgerEntry) : M Level unit :=
  guard_open;;
  a ← gets (λ l, v_active l !! toKey e);
  match a with
  | Some _ => throw (RuntimeError "Key is already active")
  | None => modify (put_level below (toKey e) (Some e))
  end.

Definition spec_load (key : GeneralizedLedgerKey) : M Level (option LedgerTxnEntry) :=
  guard_open;;
  a ← gets (λ l, v_active l !! key);
  match a with
  | Some _ => throw (RuntimeError "Key is active")
  | None =>
      newest ← gets (λ l, v_view l !! key);
      match newest with
      | None => mret None
      | Some e => h ← activate key e; mret (Some h)
      end
  end.

Definition spec_loadWithoutRecord (key : GeneralizedLedgerKey) : M Level (option LedgerTxnEntry) :=
  guard_open;;
  a ← gets (λ l, v_active l !! key);
  match a with
  | Some _ => throw (RuntimeError "Key is active")
  | None =>
      newest ← gets (λ l, v_view l !! key);
      match newest with
      | None => mret None
      | Some e =>
          id ← new_id;
          modify (λ l, set_active (<[key := EntryImplConst id e]> (v_active l)) l);;
          mret (Some (mkHandle key id))
      end
  end.

Definition spec_erase (key : GeneralizedLedgerKey) : M Level unit :=
  guard_open;;
  newest ← gets (λ l, v_view l !! key);
  match newest with
  | None => throw (RuntimeError "Key does not exist")
  | Some _ =>
      modify (put_level below key None);;
      modify (λ l, set_active (delete key (v_active l)) l)
  end.

Definition spec_eraseWithoutLoading (key : GeneralizedLedgerKey) : M Level unit :=
  guard_open;;
  modify (λ l, mkLevel (delete key (v_view l)) ({[key]} ∪ v_touched l) (v_header l) (v_stamp l)
                 (delete key (v_active l)) (v_activeHeader l) (v_next l) EXTRA_DELETES (v_sealed l)).

(** *** Handles *)

Definition spec_lock (h : LedgerTxnEntry) (l : Level) : option EntryImpl :=
  i ← v_active l !! h_key h;
  if decide (impl_id i = h_id h) then Some i else None.

(** A handle shows the ledger. *)
Definition spec_current (h : LedgerTxnEntry) : M Level GeneralizedLedgerEntry :=
  reads (λ l, match spec_lock h l, v_view l !! h_key h with
              | Some _, Some e => Ok e
              | _, _ => Throw (RuntimeError "LedgerTxnEntry not active")
              end).

Definition spec_write (h : LedgerTxnEntry) (e : GeneralizedLedgerEntry) : M Level unit :=
  i ← gets (spec_lock h);
  match i with
  | Some (EntryImplMutable _) => modify (put_level below (h_key h) (Some e))
  | _ => throw (RuntimeError "LedgerTxnEntry not active")
  end.

Definition spec_deactivate (h : LedgerTxnEntry) : M Level unit :=
  _ ← spec_current h;
  modify (λ l, set_active (delete (h_key h) (v_active l)) l).

Definition spec_release (h : LedgerTxnEntry) : M Level unit :=
  i ← gets (spec_lock h);
  match i with
  | Some _ => spec_deactivate h
  | None => mret tt
  end.

Definition spec_eraseHandle (h : LedgerTxnEntry) : M Level unit :=
  e ← spec_current h;
  spec_erase (toKey e).

(** *** Offers *)

(** The offers of a pair. *)
Definition offers_of (σ : View) (assets : AssetPair) : list (OfferDescriptor * LedgerEntry) :=
  omap (λ kv, match kv.2 with
              | GLedgerEntry le =>
                  match entry_data le with
                  | OFFER oe => if decide ((off_buying oe, off_selling oe) = assets)
                                then Some (descriptor oe, le) else None
                  | _ => None
                  end
              | _ => None
              end) (map_to_list σ).

(** The best of a list of offers. *)
Fixpoint best (l : list (OfferDescriptor * LedgerEntry)) : option (OfferDescriptor * LedgerEntry) :=
  match l with
  | [] => None
  | o :: l' =>
      match best l' with
      | Some o' => if isBetterOffer (o'.1) (o.1) then Some o' else Some o
      | None => Some o
      end
  end.

Definition spec_loadBestOffer (buying selling : Asset) : M Level (option LedgerTxnEntry) :=
  guard_open;;
  active ← gets v_active;
  if decide (active ≠ ∅) then throw (RuntimeError "active entries when getting best offer")
  else
    o ← gets (λ l, best (offers_of (v_view l) (buying, selling)));
    match o with
    | None => mret None
    | Some (_, le) => spec_load (GLedgerKey (LedgerEntryKey le))
    end.

(** The offers that satisfy a condition. *)
Definition kept_offers (keep : OfferEntry → bool) (σ : View) : gmap LedgerKey LedgerEntry :=
  list_to_map (omap (λ kv, match kv with
                           | (GLedgerKey k, GLedgerEntry le) =>
                               match entry_data le with
                               | OFFER oe => if keep oe then Some (k, le) else None
                               | _ => None
                               end
                           | _ => None
                           end) (map_to_list σ)).

Fixpoint spec_loadKeys (keys : list LedgerKey) : M Level (list (option LedgerTxnEntry)) :=
  match keys with
  | [] => mret []
  | k :: keys' =>
      h ← spec_load (GLedgerKey k);
      hs ← spec_loadKeys keys';
      mret (h :: hs)
  end.

Definition spec_loadAllOffers : M Level (gmap AccountID (list (option LedgerTxnEntry))) :=
  guard_open;;
  keys ← gets (λ l, (map_to_list (kept_offers (λ _, true) (v_view l))).*1);
  hs ← spec_loadKeys keys;
  mret (groupBySeller (zip keys hs)).

Definition offer_trades (account : AccountID) (asset : Asset) (oe : OfferEntry) : bool :=
  bool_decide (off_sellerID oe = account) &&
  (bool_decide (off_selling oe = asset) || bool_decide (off_buying oe = asset)).

Definition spec_loadOffersByAccountAndAsset (account : AccountID) (asset : Asset) :
    M Level (list (option LedgerTxnEntry)) :=
  guard_open;;
  keys ← gets (λ l, (map_to_list (kept_offers (offer_trades account asset) (v_view l))).*1);
  spec_loadKeys keys.

(** *** The header *)

Definition spec_loadHeader : M Level Z :=
  guard_open;;
  a ← gets v_activeHeader;
  match a with
  | Some _ => throw (RuntimeError "LedgerTxnHeader is active")
  | None =>
      id ← new_id;
      modify (λ l, set_headers (v_header l) (Some id) l);;
      mret id
  end.

Definition spec_currentHeader (id : Z) : M Level LedgerHeader :=
  a ← gets v_activeHeader;
  if decide (a = Some id) then gets v_header
  else throw (RuntimeError "LedgerTxnHeader not active").

Definition spec_writeHeader (id : Z) (h : LedgerHeader) : M Level unit :=
  a ← gets v_activeHeader;
  if decide (a = Some id) then modify (λ l, set_headers h (v_activeHeader l) l)
  else throw (RuntimeError "LedgerTxnHeader not active").

Definition spec_deactivateHeader : M Level unit :=
  a ← gets v_activeHeader;
  match a with
  | None => throw (RuntimeError "LedgerTxnHeader is not active")
  | Some _ => modify (λ l, set_headers (v_header l) None l)
  end.

Definition spec_releaseHeader (id : Z) : M Level unit :=
  a ← gets v_activeHeader;
  if decide (a = Some id) then spec_deactivateHeader else mret tt.

Definition spec_unsealHeader (f : LedgerHeader → LedgerHeader) : M Level unit :=
  sealed ← gets v_sealed;
  if (sealed : bool) then
    a ← gets v_activeHeader;
    match a with
    | Some _ => throw (RuntimeError "LedgerTxnHeader is active")
    | None => modify (λ l, set_headers (f (v_header l)) None l)
    end
  else throw (RuntimeError "LedgerTxn is not sealed").
End operations.

(** ** Sealing and committing *)

(** The last modification of the recorded entries. *)
Definition stamp_view (seq : Z) (touched : gset GeneralizedLedgerKey) (σ : View) : View :=
  map_imap (λ k e, Some (if decide (k ∈ touched) then stampEntry seq e else e)) σ.

(** What a level hands over when it is closed. *)
Definition sealed_view (l : Level) : View :=
  if v_sealed l then v_view l
  else if v_stamp l then stamp_view (lh_ledgerSeq (v_header l)) (v_touched l) (v_view l)
  else v_view l.

Definition spec_seal (l : Level) : Level :=
  mkLevel (sealed_view l) (v_touched l) (v_header l) (v_stamp l) ∅ None (v_next l) (v_consistency l) true.

(** The recorded keys with what became of them. *)
Definition spec_entries (l : Level) : EntryMap :=
  map_imap (λ k _, Some (sealed_view l !! k)) (gset_to_gmap tt (v_touched l)).

(** An operation that ends the recording. *)
Definition spec_sealing {A} (f : EntryMap → Level → A) : M Level A :=
  λ l, Ok (f (spec_entries l) l, spec_seal l).

Definition guard_exact : M Level unit :=
  c ← gets v_consistency;
  match c with
  | EXACT => mret tt
  | EXTRA_DELETES => throw (RuntimeError "LedgerTxn consistency level is not exact")
  end.

Section sealing.
Variable below : View.

Definition spec_changes (entries : EntryMap) : list LedgerEntryChange :=
  flat_map (λ kv, match kv.1, below !! kv.1, kv.2 with
                  | GLedgerKey _, None, Some (GLedgerEntry le) => [LEDGER_ENTRY_CREATED le]
                  | GLedgerKey _, Some (GLedgerEntry prev), Some (GLedgerEntry le) =>
                      [LEDGER_ENTRY_STATE prev; LEDGER_ENTRY_UPDATED le]
                  | GLedgerKey k, Some (GLedgerEntry prev), None => [LEDGER_ENTRY_STATE prev; LEDGER_ENTRY_REMOVED k]
                  | _, _, _ => []
                  end) (map_to_list entries).

Definition spec_getChanges : M Level (list LedgerEntryChange) :=
  guard_exact;; spec_sealing (λ entries _, spec_changes entries).

Definition spec_getDelta (header : LedgerHeader) : M Level LedgerTxnDelta :=
  guard_exact;;
  spec_sealing (λ entries l, mkDelta (map_imap (λ k e, Some (e, below !! k)) entries) (v_header l, header)).

(** The entries that are new, that are changed, and that are gone. *)
Definition new_entries (entries : EntryMap) : list LedgerEntry :=
  omap (λ kv, match kv.2 with
              | Some (GLedgerEntry le) => if below !! kv.1 is None then Some le else None
              | _ => None
              end) (map_to_list entries).

Definition changed_entries (entries : EntryMap) : list LedgerEntry :=
  omap (λ kv, match kv.2 with
              | Some (GLedgerEntry le) => if below !! kv.1 is Some _ then Some le else None
              | _ => None
              end) (map_to_list entries).

Definition dead_keys (entries : EntryMap) : list LedgerKey :=
  omap (λ kv, match kv with (GLedgerKey k, None) => Some k | _ => None end) (map_to_list entries).

Definition spec_getAllEntries : M Level (list LedgerEntry * list LedgerEntry * list LedgerKey) :=
  spec_sealing (λ entries _, (new_entries entries, changed_entries entries, dead_keys entries)).
End sealing.

(** The recorded keys of both, except the dead entries that the ledger below
    does not have. *)
Definition merge_touched (below view : View) (child parent : gset GeneralizedLedgerKey) :
    gset GeneralizedLedgerKey :=
  filter (λ k, ¬ (k ∈ child ∧ view !! k = None ∧ below !! k = None)) (child ∪ parent).

Definition spec_commitChild (below : View) (child parent : Level) : Level :=
  mkLevel (sealed_view child)
    (merge_touched below (sealed_view child) (v_touched child) (v_touched parent))
    (v_header child) (v_stamp parent) (v_active parent) (v_activeHeader parent) (v_next parent)
    (joinConsistencyLevels (v_consistency parent) (v_consistency child)) (v_sealed parent).

(** A new level, and its parent from then on. *)
Definition spec_newLevel (view : View) (header : LedgerHeader) (stamp : bool) : Level :=
  mkLevel view ∅ header stamp ∅ None 0 EXACT false.

Definition spec_addChild (parent : Level) : Level :=
  set_headers (v_header parent) None (set_active ∅ parent).

(** ** The stack of levels *)

Record SpecStack : Type := mkSpecStack {
  s_levels : list Level;
  s_view : View;
  s_header : LedgerHeader
}.

(** The ledger, and the header, under the innermost of some levels. *)
Definition view_of (ls : list Level) (st : SpecStack) : View :=
  match ls with [] => s_view st | l :: _ => v_view l end.

Definition header_of (ls : list Level) (st : SpecStack) : LedgerHeader :=
  match ls with [] => s_header st | l :: _ => v_header l end.

Definition spec_innermost {A} (m : View → LedgerHeader → M Level A) : M SpecStack A :=
  λ st, match s_levels st with
        | [] => Throw (RuntimeError "LedgerTxnEntry was handled")
        | l :: ls =>
            '(a, l') ← m (view_of ls st) (header_of ls st) l;
            Ok (a, mkSpecStack (l' :: ls) (s_view st) (s_header st))
        end.

Definition spec_open (stamp : bool) : M SpecStack unit :=
  λ st,
    let child := spec_newLevel (view_of (s_levels st) st) (header_of (s_levels st) st) stamp in
    match s_levels st with
    | [] => Ok (tt, mkSpecStack [child] (s_view st) (s_header st))
    | l :: ls =>
        if v_sealed l then Throw (RuntimeError "LedgerTxn is sealed")
        else Ok (tt, mkSpecStack (child :: spec_addChild l :: ls) (s_view st) (s_header st))
    end.

(** The database has no place for sponsorships. *)
Definition is_ledger_key (k : GeneralizedLedgerKey) : bool :=
  match k with GLedgerKey _ => true | _ => false end.

Definition ledger_part (σ : View) : View := filter (λ kv, is_ledger_key kv.1 = true) σ.

Definition spec_commit : M SpecStack unit :=
  λ st, match s_levels st with
        | [] => Throw (RuntimeError "LedgerTxnEntry was handled")
        | [l] => Ok (tt, mkSpecStack [] (ledger_part (sealed_view l)) (v_header l))
        | l :: p :: ls => Ok (tt, mkSpecStack (spec_commitChild (view_of ls st) l p :: ls) (s_view st) (s_header st))
        end.

Definition spec_rollback : M SpecStack unit :=
  λ st, match s_levels st with
        | [] => Throw (RuntimeError "LedgerTxnEntry was handled")
        | _ :: ls => Ok (tt, mkSpecStack ls (s_view st) (s_header st))
        end.
