(* ===== verification/LedgerTxnSteps.v ===== *)
(** * Nested ledger transactions: the operations of a level

    Each operation of a level, run from a state that satisfies the invariant of
    [LedgerTxnProps], does what the operation of the specification does on the
    ledger the level shows, and the state it leaves satisfies the invariant. *)

From S2P Require Import Prelude StateMonad Numeric LedgerEntries GeneralizedEntries OfferOrder LedgerTxn LedgerTxnProps LedgerTxnSpec.

Lemma lookup_put_entry key lePtr σ k : put_entry key lePtr σ !! k = if decide (k = key) then lePtr else σ !! k.
Proof.
  destruct (decide (k = key)) as [->|].
  - destruct lePtr; [apply lookup_insert_eq|apply lookup_delete_eq].
  - destruct lePtr; [by apply lookup_insert_ne|by apply lookup_delete_ne].
Qed.

Lemma overlay_recorded er key lePtr m σ :
  (er = true → lePtr = None ∧ σ !! key = None) →
  overlay (recorded er key lePtr m) σ = put_entry key lePtr (overlay m σ).
Proof.
  intros Her. apply map_eq. intros k. rewrite lookup_put_entry, !lookup_overlay, lookup_recorded.
  destruct (decide (k = key)) as [->|]; [|done]. destruct er; [|done]. by destruct Her as [-> ->].
Qed.

Section steps.
Variable owner : Z → AccountID.
Context (p : AbstractLedgerTxnParent) (σ : View) `{!LawfulParent owner p σ}.

Definition viewOf (s : Impl) : View := overlay (mEntry s) σ.

Lemma parent_newest k : getNewestVersion p k = σ !! k.
Proof. apply (lp_newest owner). Qed.

(** Recording an entry, the books being kept in step. *)
Definition eraseIfNull (key : GeneralizedLedgerKey) (lePtr : option GeneralizedLedgerEntry) : bool :=
  bool_decide (lePtr = None) && bool_decide (σ !! key = None).

Lemma core_ok_ext s s' A :
  core_ok owner σ s A → mEntry s' = mEntry s → mMultiOrderBook s' = mMultiOrderBook s →
  mConsistency s' = mConsistency s → mWorstBestOffer s' = mWorstBestOffer s → core_ok owner σ s' A.
Proof. intros [] E1 E2 E3 E4. split; rewrite ?E1, ?E2, ?E3, ?E4; done. Qed.

Lemma core_ok_set s A A' : core_ok owner σ s A → (∀ k, k ∈ A' ↔ k ∈ A) → core_ok owner σ s A'.
Proof. intros Hc HA. assert (A' = A) as -> by (by apply set_eq). done. Qed.

Lemma recorded_upto_recorded er key lePtr m assets w :
  (er = true → σ !! key = None) → recorded_upto σ m assets w →
  recorded_upto σ (recorded er key lePtr m) assets w.
Proof.
  intros Her Hup k oe Ho Hw. rewrite lookup_recorded. destruct (decide (k = key)) as [->|]; [|by eapply Hup].
  destruct er; [|by eexists]. destruct Ho as (e & He & _). rewrite Her in He; done.
Qed.

Lemma updateEntry_record_core s A key lePtr eff er :
  core_ok owner σ s A → fits owner key lePtr → (er = true → lePtr = None ∧ σ !! key = None) →
  (er = false → lePtr = None → mConsistency s = EXACT → is_Some (σ !! key)) →
  ∃ books, updateEntry_record key lePtr eff er s =
             Ok (tt, set_mMultiOrderBook books (set_mEntry (recorded er key lePtr (mEntry s)) s)) ∧
    core_ok owner σ (set_mMultiOrderBook books (set_mEntry (recorded er key lePtr (mEntry s)) s))
      (if eff then {[key]} ∪ A else A ∖ {[key]}).
Proof.
  intros Hc Hf Her Hex.
  destruct (updateEntry_record_run owner s A (co_wf _ _ _ _ Hc) (co_books _ _ _ _ Hc) key lePtr eff er Hf)
    as (books & Hrun & Hb); [naive_solver|].
  exists books. split; [exact Hrun|]. split; simpl.
  - apply wf_recorded; [apply Hc|done].
  - intros HE k. rewrite lookup_recorded. destruct (decide (k = key)) as [->|]; [|by apply Hc].
    destruct er; [done|]. intros [= ->]. by apply Hex.
  - done.
  - intros assets w Hw. apply Hc in Hw as [? Hup]. split; [done|]. apply recorded_upto_recorded; naive_solver.
Qed.

Lemma updateEntry_active_core s A key lePtr eff :
  core_ok owner σ s A → fits owner key lePtr →
  ∃ books, updateEntry_active p key lePtr eff s =
             Ok (tt, set_mMultiOrderBook books (set_mEntry (recorded (eraseIfNull key lePtr) key lePtr (mEntry s)) s)) ∧
    core_ok owner σ (set_mMultiOrderBook books (set_mEntry (recorded (eraseIfNull key lePtr) key lePtr (mEntry s)) s))
      (if eff then {[key]} ∪ A else A ∖ {[key]}).
Proof.
  intros Hc Hf. unfold updateEntry_active. rewrite parent_newest. fold (eraseIfNull key lePtr).
  apply updateEntry_record_core; [done|done| |]; unfold eraseIfNull;
    rewrite ?andb_true_iff, ?andb_false_iff, ?bool_decide_eq_true, ?bool_decide_eq_false; [done|].
  intros [?|?] ? _; [done|]. by apply not_eq_None_Some.
Qed.

Lemma viewOf_recorded s key lePtr s' :
  mEntry s' = recorded (eraseIfNull key lePtr) key lePtr (mEntry s) → viewOf s' = put_entry key lePtr (viewOf s).
Proof.
  intros E. unfold viewOf. rewrite E. apply overlay_recorded. unfold eraseIfNull.
  by rewrite andb_true_iff, !bool_decide_eq_true.
Qed.

(** ** The innermost level *)

(** What the handles know. *)
Record active_ok (s : Impl) : Prop := {
  ao_mutable : ∀ k id, mActive s !! k = Some (EntryImplMutable id) → ∃ e, mEntry s !! k = Some (Some e);
  ao_const : ∀ k id e, mActive s !! k = Some (EntryImplConst id e) → viewOf s !! k = Some e;
  ao_ids : ∀ k i, mActive s !! k = Some i → impl_id i < nextImpl s
}.

(** A sealed level has no books. *)
Record level_ok (s : Impl) : Prop := {
  lk_core : core_ok owner σ s (if mIsSealed s then dom (mEntry s) else dom (mActive s));
  lk_active : active_ok s;
  lk_child : mChild s = false;
  lk_sealed : mIsSealed s = true → mActive s = ∅ ∧ mActiveHeader s = None
}.

(** The level of the specification. *)
Definition absLevel (s : Impl) : Level :=
  mkLevel (viewOf s) (dom (mEntry s)) (mHeader s) (mShouldUpdateLastModified s) (mActive s)
    (mActiveHeader s) (nextImpl s) (mConsistency s) (mIsSealed s).

(** The same result, or the same exception, and the levels stay in step. *)
Definition sim {A} (m : M Impl A) (a : M Level A) : Prop :=
  ∀ s, level_ok s →
    match m s with
    | Ok (r, s') => a (absLevel s) = Ok (r, absLevel s') ∧ level_ok s'
    | Throw e => a (absLevel s) = Throw e
    end.

Lemma sim_ret {A} (x : A) : sim (mret x) (mret x).
Proof. intros s Hs. done. Qed.

Lemma sim_throw {A} e : sim (A:=A) (throw e) (throw e).
Proof. intros s Hs. done. Qed.

Lemma sim_bind {A B} (m : M Impl A) (a : M Level A) (f : A → M Impl B) (g : A → M Level B) :
  sim m a → (∀ x, sim (f x) (g x)) → sim (m ≫= f) (a ≫= g).
Proof.
  intros Hm Hf s Hs. specialize (Hm s Hs). unfold mbind, M_bind.
  destruct (m s) as [[x s']|e]; [|by rewrite Hm].
  destruct Hm as [-> Hs']. by apply Hf.
Qed.

Lemma sim_gets {A} (f : Impl → A) (g : Level → A) :
  (∀ s, level_ok s → g (absLevel s) = f s) → sim (gets f) (gets g).
Proof. intros Hfg s Hs. unfold gets. by rewrite Hfg. Qed.

Lemma sim_modify f g :
  (∀ s, level_ok s → g (absLevel s) = absLevel (f s) ∧ level_ok (f s)) → sim (modify f) (modify g).
Proof. intros Hfg s Hs. unfold modify. by destruct (Hfg s Hs) as [-> ?]. Qed.

(** The guards at the start of an operation. *)
Lemma sim_guards {A} (m : M Impl A) (a : M Level A) :
  (∀ s, level_ok s → mIsSealed s = false →
     match m s with
     | Ok (r, s') => a (absLevel s) = Ok (r, absLevel s') ∧ level_ok s'
     | Throw e => a (absLevel s) = Throw e
     end) →
  sim (_ ← reads throwIfSealed; _ ← reads throwIfChild; m) (guard_open;; a).
Proof.
  intros Hm s Hs. pose proof (lk_child _ Hs) as Hc.
  unfold guard_open, throwIfSealed, throwIfChild, mbind, M_bind, gets, reads, throw. simpl.
  destruct (mIsSealed s) eqn:E; [done|]. rewrite Hc. by apply Hm.
Qed.

(** ** Recording in the innermost level *)

Lemma active_ok_at s s' key lePtr :
  active_ok s → mEntry s' = recorded (eraseIfNull key lePtr) key lePtr (mEntry s) → nextImpl s ≤ nextImpl s' →
  (∀ k, k ≠ key → mActive s' !! k = mActive s !! k) →
  match mActive s' !! key with
  | Some (EntryImplMutable id) => is_Some lePtr ∧ id < nextImpl s'
  | Some (EntryImplConst _ _) => False
  | None => True
  end → active_ok s'.
Proof.
  intros Ha Hm Hn Hoth Hkey. pose proof (viewOf_recorded s key lePtr s' Hm) as Hv. split.
  - intros k id Hk. rewrite Hm, lookup_recorded. destruct (decide (k = key)) as [->|].
    + rewrite Hk in Hkey. destruct Hkey as [[e ->] _]. by eexists.
    + rewrite Hoth in Hk by done. by eapply ao_mutable.
  - intros k id e Hk. rewrite Hv, lookup_put_entry. destruct (decide (k = key)) as [->|].
    + by rewrite Hk in Hkey.
    + rewrite Hoth in Hk by done. by eapply ao_const.
  - intros k i Hk. destruct (decide (k = key)) as [->|].
    + rewrite Hk in Hkey. destruct i; [apply Hkey|done].
    + rewrite Hoth in Hk by done. apply (ao_ids _ Ha) in Hk. lia.
Qed.

Lemma dom_recorded key lePtr m :
  dom (recorded (eraseIfNull key lePtr) key lePtr m) = touch σ key lePtr (dom m).
Proof.
  unfold touch. fold (eraseIfNull key lePtr). destruct (eraseIfNull key lePtr); simpl;
    [by rewrite dom_delete_L|by rewrite dom_insert_L].
Qed.

(** The level after recording an entry, whatever became of the handles. *)
Lemma absLevel_recorded s key lePtr books active next :
  absLevel (set_nextImpl next (set_mActive active (set_mMultiOrderBook books
    (set_mEntry (recorded (eraseIfNull key lePtr) key lePtr (mEntry s)) s)))) =
  mkLevel (put_entry key lePtr (viewOf s)) (touch σ key lePtr (dom (mEntry s))) (mHeader s)
    (mShouldUpdateLastModified s) active (mActiveHeader s) next (mConsistency s) (mIsSealed s).
Proof. unfold absLevel. simpl. f_equal; [by apply viewOf_recorded|apply dom_recorded]. Qed.

Lemma level_ok_open s : core_ok owner σ s (dom (mActive s)) → active_ok s → mChild s = false →
  mIsSealed s = false → level_ok s.
Proof. intros Hc Ha Hch Hs. split; rewrite ?Hs; done. Qed.

Lemma lk_open s : level_ok s → mIsSealed s = false → core_ok owner σ s (dom (mActive s)).
Proof. intros Hs E. pose proof (lk_core _ Hs) as Hc. by rewrite E in Hc. Qed.

Lemma updateEntry_eq key lePtr s :
  updateEntry p key lePtr s =
  updateEntry_active p key lePtr (bool_decide (is_Some (mActive s !! key))) s.
Proof. done. Qed.

Lemma sim_activate s key e :
  level_ok s → mIsSealed s = false → mActive s !! key = None → fits owner key (Some e) →
  ∃ s', (id ← makeSharedImpl;
         modify (λ s, set_mActive (<[key := EntryImplMutable id]> (mActive s)) s);;
         updateEntry p key (Some e);;
         mret (mkHandle key id)) s = Ok (mkHandle key (nextImpl s), s') ∧
    activate σ key e (absLevel s) = Ok (mkHandle key (nextImpl s), absLevel s') ∧ level_ok s'.
Proof.
  intros Hs Hopen Hna Hf. pose proof (lk_open _ Hs Hopen) as Hc.
  set (s1 := set_mActive (<[key := EntryImplMutable (nextImpl s)]> (mActive s)) (set_nextImpl (nextImpl s + 1) s)).
  assert (core_ok owner σ s1 (dom (mActive s))) as Hc1 by (by eapply core_ok_ext).
  destruct (updateEntry_active_core s1 (dom (mActive s)) key (Some e) true Hc1 Hf) as (books & Hrun & Hcore).
  eexists. split_and!.
  - unfold mbind, M_bind, makeSharedImpl, modify. cbv beta iota.
    change (set_mActive _ _) with s1. rewrite updateEntry_eq, bool_decide_eq_true_2.
    2: { simpl. rewrite lookup_insert_eq. by eexists. }
    rewrite Hrun. reflexivity.
  - exact (f_equal (λ l, Ok (mkHandle key (nextImpl s), l))
      (eq_sym (absLevel_recorded s key (Some e) books _ (nextImpl s + 1)))).
  - apply level_ok_open; [..|apply Hs|done].
    + simpl. rewrite dom_insert_L. exact Hcore.
    + eapply (active_ok_at s _ key (Some e)); [apply Hs|done|simpl; lia| |].
      * intros k Hk. simpl. by rewrite lookup_insert_ne.
      * simpl. rewrite lookup_insert_eq. split; [by eexists|lia].
Qed.

Lemma active_in_view s k i : level_ok s → mActive s !! k = Some i → is_Some (viewOf s !! k).
Proof.
  intros Hs Hi. pose proof (lk_active _ Hs) as Ha. destruct i as [id|id e].
  - apply (ao_mutable _ Ha) in Hi as [e He]. unfold viewOf. rewrite lookup_overlay, He. by eexists.
  - apply (ao_const _ Ha) in Hi. by eexists.
Qed.

Lemma newest_view s k : Impl_getNewestVersion p s k = viewOf s !! k.
Proof.
  unfold Impl_getNewestVersion, viewOf. rewrite lookup_overlay. destruct (mEntry s !! k); [done|].
  apply parent_newest.
Qed.

Lemma wf_viewOf s A : core_ok owner σ s A → wf_view owner (viewOf s).
Proof. intros Hc. apply wf_overlay; [apply Hc|apply (lp_wf owner)]. Qed.

Lemma view_fits s A k e : core_ok owner σ s A → viewOf s !! k = Some e → fits owner k (Some e).
Proof. intros Hc He ? [= <-]. by eapply wf_viewOf. Qed.

(** ** Creating, loading and erasing *)

Lemma sim_create e : entry_ok owner e → sim (create p e) (spec_create σ e).
Proof.
  intros He. apply sim_guards. intros s Hs Hopen. rewrite !bind_gets, newest_view.
  change (v_view (absLevel s)) with (viewOf s).
  destruct (viewOf s !! toKey e) eqn:Hv; [done|].
  destruct (sim_activate s (toKey e) e Hs Hopen) as (s' & -> & Habs & Hs').
  - destruct (mActive s !! toKey e) eqn:Ha; [|done]. apply active_in_view in Ha as [? ?]; [congruence|done].
  - by intros ? [= <-].
  - done.
Qed.

Lemma sim_load key : sim (load p key) (spec_load σ key).
Proof.
  apply sim_guards. intros s Hs Hopen. rewrite !bind_gets.
  change (v_active (absLevel s)) with (mActive s).
  destruct (mActive s !! key) eqn:Ha; [done|]. rewrite !bind_gets, newest_view.
  change (v_view (absLevel s)) with (viewOf s).
  destruct (viewOf s !! key) as [e|] eqn:Hv; [|done].
  destruct (sim_activate s key e Hs Hopen Ha) as (s' & Hrun & Habs & Hs').
  { eapply view_fits; [by apply lk_core|done]. }
  apply (bind_run _ (λ h, mret (Some h))) in Hrun, Habs. rewrite Habs.
  revert Hrun. unfold mbind, M_bind. cbv beta iota.
  destruct (makeSharedImpl s) as [[id s1]|]; [|done]. simpl.
  destruct (updateEntry p key (Some e) _) as [[[] s2]|]; [|done]. intros [= -> ->]. done.
Qed.

(** Recording in a level without a handle for the key. *)
Lemma level_ok_recorded s key lePtr books active :
  level_ok s → mIsSealed s = false →
  core_ok owner σ (set_mMultiOrderBook books (set_mEntry (recorded (eraseIfNull key lePtr) key lePtr (mEntry s)) s))
    (dom active) →
  (∀ k, k ≠ key → active !! k = mActive s !! k) → active !! key = None →
  level_ok (set_mActive active (set_mMultiOrderBook books
              (set_mEntry (recorded (eraseIfNull key lePtr) key lePtr (mEntry s)) s))).
Proof.
  intros Hs Hopen Hc Hoth Hkey. apply level_ok_open; [by eapply core_ok_ext| |apply Hs|done].
  eapply (active_ok_at s _ key lePtr); [apply Hs|done|done|done|]. simpl. by rewrite Hkey.
Qed.

Lemma sim_createOrUpdate e :
  entry_ok owner e → sim (createOrUpdateWithoutLoading p e) (spec_createOrUpdate σ e).
Proof.
  intros He. apply sim_guards. intros s Hs Hopen. rewrite !bind_gets.
  change (v_active (absLevel s)) with (mActive s).
  destruct (mActive s !! toKey e) eqn:Ha; [done|].
  rewrite updateEntry_eq, bool_decide_eq_false_2 by (rewrite Ha; by intros []).
  destruct (updateEntry_active_core s (dom (mActive s)) (toKey e) (Some e) false) as (books & -> & Hc).
  { by apply lk_open. } { by intros ? [= <-]. }
  split.
  - exact (f_equal (λ l, Ok (tt, l)) (eq_sym (absLevel_recorded s (toKey e) (Some e) books (mActive s) (nextImpl s)))).
  - apply (level_ok_recorded s (toKey e) (Some e) books (mActive s)); try done.
    rewrite difference_disjoint_L in Hc; [done|]. apply disjoint_singleton_r. by apply not_elem_of_dom.
Qed.

Lemma sim_erase key : sim (erase p key) (spec_erase σ key).
Proof.
  apply sim_guards. intros s Hs Hopen. rewrite !bind_gets, newest_view.
  change (v_view (absLevel s)) with (viewOf s). destruct (viewOf s !! key); [|done].
  destruct (updateEntry_active_core s (dom (mActive s)) key None false) as (books & Hrun & Hc); [by apply lk_open|done|].
  rewrite (bind_run _ _ _ _ _ Hrun). unfold modify at 1. split.
  - exact (f_equal (λ l, Ok (tt, l)) (eq_sym (absLevel_recorded s key None books (delete key (mActive s)) (nextImpl s)))).
  - apply (level_ok_recorded s key None books (delete key (mActive s))); try done.
    + by rewrite dom_delete_L.
    + intros k Hk. by rewrite lookup_delete_ne.
    + by rewrite lookup_delete_eq.
Qed.

Lemma sim_eraseWithoutLoading key : sim (eraseWithoutLoading key) (spec_eraseWithoutLoading key).
Proof.
  apply sim_guards. intros s Hs Hopen. pose proof (lk_open _ Hs Hopen) as Hc.
  destruct (updateEntry_record_run owner s _ (co_wf _ _ _ _ Hc) (co_books _ _ _ _ Hc) key None false false)
    as (books & Hrun & Hb); [done|done|].
  rewrite (bind_run _ _ _ _ _ Hrun), bind_modify. unfold modify at 1.
  assert (overlay (recorded false key None (mEntry s)) σ = delete key (viewOf s)) as Hv.
  { by apply (overlay_recorded false key None). }
  split.
  - unfold modify, absLevel, viewOf. simpl. simpl in Hv. rewrite Hv, dom_insert_L. done.
  - apply level_ok_open; [| |apply Hs|done].
    + split; simpl; [|done| |].
      * apply (wf_recorded owner false key None); [apply Hc|done].
      * by rewrite dom_delete_L.
      * intros assets w Hw. apply (co_worst _ _ _ _ Hc) in Hw as [? ?]. split; [done|].
        by apply (recorded_upto_recorded false).
    + pose proof (lk_active _ Hs) as Ha. split; simpl; intros k ? *; rewrite lookup_delete_Some.
      * intros [Hne Hk]. rewrite lookup_insert_ne by done. by eapply ao_mutable.
      * intros [Hne Hk]. unfold viewOf. simpl. simpl in Hv. rewrite Hv, lookup_delete_ne by done.
        by eapply ao_const.
      * intros [_ Hk]. by eapply ao_ids.
Qed.

(** ** Bringing the books in step with a handle *)

Lemma updateEntryIfRecorded_core s A key eff :
  core_ok owner σ s A → mEntry s !! key ≠ Some None →
  ∃ books, updateEntryIfRecorded p key eff s = Ok (tt, set_mMultiOrderBook books s) ∧
    core_ok owner σ (set_mMultiOrderBook books s) (if eff then {[key]} ∪ A else A ∖ {[key]}).
Proof.
  intros Hc Hn. unfold updateEntryIfRecorded. rewrite bind_gets.
  destruct (mEntry s !! key) as [[e|]|] eqn:Hk; [|done|].
  - destruct (updateEntry_active_core s A key (Some e) eff Hc) as (books & -> & Hc').
    { intros ? [= <-]. by apply Hc. }
    exists books. assert (recorded (eraseIfNull key (Some e)) key (Some e) (mEntry s) = mEntry s) as E.
    { by apply insert_id. }
    rewrite E in Hc' |- *. destruct s. done.
  - exists (mMultiOrderBook s). split; [by destruct s|]. split; simpl; try apply Hc.
    pose proof (co_books _ _ _ _ Hc) as Hb. split; [apply Hb|].
    intros assets d k. rewrite (books_elem _ _ _ Hb).
    unfold in_book. split; intros (e & oe & He & Hof & Hd & Hna); exists e, oe; split_and!; try done;
      (assert (GLedgerKey k ≠ key) by congruence); destruct eff; set_solver.
Qed.

Lemma sim_loadWithoutRecord key : sim (loadWithoutRecord p key) (spec_loadWithoutRecord key).
Proof.
  apply sim_guards. intros s Hs Hopen. rewrite !bind_gets.
  change (v_active (absLevel s)) with (mActive s).
  destruct (mActive s !! key) eqn:Ha; [done|]. rewrite !bind_gets, newest_view.
  change (v_view (absLevel s)) with (viewOf s).
  destruct (viewOf s !! key) as [e|] eqn:Hv; [|done].
  set (s1 := set_mActive (<[key := EntryImplConst (nextImpl s) e]> (mActive s)) (set_nextImpl (nextImpl s + 1) s)).
  destruct (updateEntryIfRecorded_core s1 (dom (mActive s)) key true) as (books & Hrun & Hc).
  { eapply core_ok_ext; [by apply lk_open|done..]. }
  { simpl. intros Hk. unfold viewOf in Hv. by rewrite lookup_overlay, Hk in Hv. }
  rewrite (bind_run makeSharedImpl _ s (nextImpl s) (set_nextImpl (nextImpl s + 1) s)) by done.
  rewrite bind_modify. change (set_mActive _ _) with s1. rewrite (bind_run _ _ _ _ _ Hrun).
  split; [done|]. apply level_ok_open; [| |apply Hs|done].
  - simpl. rewrite dom_insert_L. done.
  - subst s1. pose proof (lk_active _ Hs) as Hao. split; simpl; intros k ? *; rewrite lookup_insert_Some.
    + intros [[_ [=]]|[Hne Hk]]. by eapply ao_mutable.
    + intros [[<- [= _ ->]]|[Hne Hk]]; [done|]. exact (ao_const _ Hao _ _ _ Hk).
    + intros [[_ <-]|[Hne Hk]]; simpl; [lia|]. apply (ao_ids _ Hao) in Hk. lia.
Qed.

(** ** Handles *)

Lemma lock_view s h i : level_ok s → lockImpl h s = Some i →
  mActive s !! h_key h = Some i ∧ ∃ e, viewOf s !! h_key h = Some e ∧ toKey e = h_key h ∧
    match i with
    | EntryImplMutable _ => mEntry s !! h_key h = Some (Some e)
    | EntryImplConst _ e' => e' = e
    end.
Proof.
  intros Hs Hl. unfold lockImpl in Hl. destruct (mActive s !! h_key h) as [i'|] eqn:Ha; [|done].
  simpl in Hl. destruct (decide _) as [Hid|]; [|done]. injection Hl as ->. split; [done|].
  destruct (active_in_view s _ _ Hs Ha) as [e He]. exists e. split; [done|].
  split; [by eapply wf_viewOf; [apply Hs|]|]. pose proof (lk_active _ Hs) as Hao. destruct i.
  - destruct (ao_mutable _ Hao _ _ Ha) as [e' He']. rewrite He'. do 2 f_equal.
    unfold viewOf in He. rewrite lookup_overlay, He' in He. congruence.
  - pose proof (ao_const _ Hao _ _ _ Ha). congruence.
Qed.

Lemma currentGeneralized_run s h : level_ok s →
  currentGeneralized h s =
  match lockImpl h s with
  | Some _ => (λ e, (e, s)) <$> deref (viewOf s !! h_key h)
  | None => Throw (RuntimeError "LedgerTxnEntry not active")
  end.
Proof.
  intros Hs. unfold currentGeneralized, reads. destruct (lockImpl h s) as [i|] eqn:Hl; [|done].
  destruct (lock_view _ _ _ Hs Hl) as (_ & e & -> & _ & Hi). destruct i; [by rewrite Hi|by subst].
Qed.

Lemma sim_current h : sim (currentGeneralized h) (spec_current h).
Proof.
  intros s Hs. rewrite currentGeneralized_run by done. unfold spec_current, reads, spec_lock.
  change (v_active (absLevel s)) with (mActive s). change (v_view (absLevel s)) with (viewOf s).
  fold (lockImpl h s). destruct (lockImpl h s) as [i|] eqn:Hl; [|done].
  by destruct (lock_view _ _ _ Hs Hl) as (_ & e & -> & _).
Qed.

(** Writing to an active entry does not concern the books. *)
Lemma core_ok_write s key e :
  core_ok owner σ s (dom (mActive s)) → is_Some (mActive s !! key) → fits owner key (Some e) →
  core_ok owner σ (set_mEntry (<[key := Some e]> (mEntry s)) s) (dom (mActive s)).
Proof.
  intros Hc Ha Hf. split; simpl.
  - apply (wf_recorded owner false key (Some e)); [apply Hc|done].
  - intros HE k. rewrite lookup_insert_Some. intros [[_ [=]]|[_ Hk]]. by apply Hc.
  - pose proof (co_books _ _ _ _ Hc) as Hb. split; [apply Hb|]. intros assets d k.
    rewrite (books_elem _ _ _ Hb). assert (key ∈ dom (mActive s)) by (by apply elem_of_dom).
    unfold in_book. split; intros (e' & oe & He & Hof & Hd & Hna); exists e', oe; split_and!; try done;
      (assert (key ≠ GLedgerKey k) by (intros ->; done)).
    + by rewrite lookup_insert_ne.
    + by rewrite lookup_insert_ne in He.
  - intros assets w Hw. apply (co_worst _ _ _ _ Hc) in Hw as [? ?]. split; [done|].
    by apply (recorded_upto_recorded false key (Some e)).
Qed.

Lemma sim_write h e : fits owner (h_key h) (Some e) → sim (writeCurrent h e) (spec_write σ h e).
Proof.
  intros Hf s Hs. unfold writeCurrent, spec_write. rewrite !bind_gets.
  change (spec_lock h (absLevel s)) with (lockImpl h s).
  destruct (lockImpl h s) as [[id|]|] eqn:Hl; [|done|done].
  destruct (lock_view _ _ _ Hs Hl) as (Ha & _).
  assert (mIsSealed s = false) as Hopen.
  { apply not_true_is_false. intros [Hn _]%(lk_sealed _ Hs). by rewrite Hn, lookup_empty in Ha. }
  unfold modify. split.
  - exact (f_equal (λ l, Ok (tt, l))
      (eq_sym (absLevel_recorded s (h_key h) (Some e) (mMultiOrderBook s) (mActive s) (nextImpl s)))).
  - apply level_ok_open; [|..|apply Hs|done].
    + apply (core_ok_write s); [by apply lk_open|by eexists|done].
    + eapply (active_ok_at s _ (h_key h) (Some e)); [apply Hs|done|done|done|]. simpl. rewrite Ha.
      split; [by eexists|]. by apply (ao_ids _ (lk_active _ Hs)) in Ha.
Qed.

Lemma sim_deactivate h : sim (deactivate p h) (spec_deactivate h).
Proof.
  intros s Hs. unfold deactivate, spec_deactivate. pose proof (sim_current h s Hs) as Hcur.
  destruct (currentGeneralized h s) as [[e s']|ex] eqn:Hr.
  2: { rewrite (bind_Throw _ _ _ _ Hr), (bind_Throw _ _ _ _ Hcur). done. }
  destruct Hcur as [Habs _]. rewrite (bind_run _ _ _ _ _ Hr), (bind_run _ _ _ _ _ Habs).
  rewrite currentGeneralized_run in Hr by done.
  destruct (lockImpl h s) as [i|] eqn:Hl; [|done].
  destruct (lock_view _ _ _ Hs Hl) as (Ha & e' & Hv & HK & _). rewrite Hv in Hr. injection Hr as -> ->.
  assert (mIsSealed s' = false) as Hopen.
  { apply not_true_is_false. intros [Hn _]%(lk_sealed _ Hs). by rewrite Hn, lookup_empty in Ha. }
  unfold Impl_deactivate. rewrite HK, bind_gets, Ha.
  destruct (updateEntryIfRecorded_core s' (dom (mActive s')) (h_key h) false) as (books & Hrun & Hc).
  { by apply lk_open. }
  { intros Hk. unfold viewOf in Hv. by rewrite lookup_overlay, Hk in Hv. }
  rewrite (bind_run _ _ _ _ _ Hrun). split; [done|]. apply level_ok_open; [..|apply Hs|done].
  - simpl. rewrite dom_delete_L. by eapply core_ok_ext.
  - pose proof (lk_active _ Hs) as Hao. split; simpl; intros k ? *; rewrite lookup_delete_Some; intros [_ Hk].
    + by eapply ao_mutable.
    + exact (ao_const _ Hao _ _ _ Hk).
    + by eapply ao_ids.
Qed.

Lemma sim_release h : sim (release p h) (spec_release h).
Proof.
  intros s Hs. unfold release, spec_release. rewrite !bind_gets.
  change (spec_lock h (absLevel s)) with (lockImpl h s). destruct (lockImpl h s); [|done]. by apply sim_deactivate.
Qed.

Lemma sim_eraseHandle h : sim (eraseHandle p h) (spec_eraseHandle σ h).
Proof.
  unfold eraseHandle, spec_eraseHandle. intros s Hs. pose proof (sim_current h s Hs) as Hcur.
  destruct (currentGeneralized h s) as [[e s']|ex] eqn:Hr.
  - destruct Hcur as [Habs Hs']. rewrite (bind_run _ _ _ _ _ Hr), (bind_run _ _ _ _ _ Habs). by apply sim_erase.
  - rewrite (bind_Throw _ _ _ _ Hr), (bind_Throw _ _ _ _ Hcur). done.
Qed.

(** ** The header *)

Lemma level_ok_header s h a n :
  level_ok s → (mIsSealed s = true → a = None) → nextImpl s ≤ n →
  level_ok (set_nextImpl n (set_mHeader h (set_mActiveHeader a s))).
Proof.
  intros [Hc Ha Hch Hse] Hah Hn. split; simpl; [by eapply core_ok_ext| |done|naive_solver].
  split; [apply Ha|apply Ha|]. intros k i Hk. apply (ao_ids _ Ha) in Hk. simpl. lia.
Qed.

Lemma sim_loadHeader : sim loadHeader spec_loadHeader.
Proof.
  apply sim_guards. intros s Hs Hopen. rewrite !bind_gets.
  change (v_activeHeader (absLevel s)) with (mActiveHeader s).
  destruct (mActiveHeader s); [done|]. split; [done|].
  apply (level_ok_header s (mHeader s) (Some (nextImpl s)) (nextImpl s + 1)); [done|congruence|lia].
Qed.

Lemma sim_currentHeader id : sim (currentHeader id) (spec_currentHeader id).
Proof.
  intros s Hs. unfold currentHeader, spec_currentHeader. rewrite !bind_gets.
  change (v_activeHeader (absLevel s)) with (mActiveHeader s). by destruct (decide _).
Qed.

Lemma sim_writeHeader id h : sim (writeHeader id h) (spec_writeHeader id h).
Proof.
  intros s Hs. unfold writeHeader, spec_writeHeader. rewrite !bind_gets.
  change (v_activeHeader (absLevel s)) with (mActiveHeader s). destruct (decide _); [|done].
  split; [done|]. apply (level_ok_header s h (mActiveHeader s) (nextImpl s)); [done| |lia].
  intros [_ ?]%(lk_sealed _ Hs). done.
Qed.

Lemma sim_deactivateHeader : sim deactivateHeader spec_deactivateHeader.
Proof.
  intros s Hs. unfold deactivateHeader, spec_deactivateHeader. rewrite !bind_gets.
  change (v_activeHeader (absLevel s)) with (mActiveHeader s). destruct (mActiveHeader s); [|done].
  split; [done|]. apply (level_ok_header s (mHeader s) None (nextImpl s)); [done|done|lia].
Qed.

Lemma sim_releaseHeader id : sim (releaseHeader id) (spec_releaseHeader id).
Proof.
  intros s Hs. unfold releaseHeader, spec_releaseHeader. rewrite !bind_gets.
  change (v_activeHeader (absLevel s)) with (mActiveHeader s). destruct (decide _); [|done].
  by apply sim_deactivateHeader.
Qed.

(** ** The best offer *)

Lemma best_spec (l : list (OfferDescriptor * LedgerEntry)) :
  (∀ x, x ∈ l → desc_ok x.1) →
  (∀ x y, x ∈ l → y ∈ l → od_offerID x.1 = od_offerID y.1 → x = y) →
  match best l with
  | None => l = []
  | Some x => x ∈ l ∧ ∀ y, y ∈ l → y = x ∨ isBetterOffer x.1 y.1 = true
  end.
Proof.
  induction l as [|x l IH]; intros Hok Hinj; simpl; [done|].
  specialize (IH ltac:(set_solver) ltac:(set_solver)). destruct (best l) as [z|].
  - destruct IH as [Hz Hall]. assert (desc_ok x.1 ∧ desc_ok z.1) as [Hx Hzo] by set_solver.
    destruct (isBetterOffer z.1 x.1) eqn:E.
    + split; [set_solver|]. intros y [->|Hy]%elem_of_cons; [by right|by apply Hall].
    + split; [set_solver|]. intros y [->|Hy]%elem_of_cons; [by left|].
      destruct (decide (od_offerID x.1 = od_offerID z.1)) as [He|Hne].
      { rewrite (Hinj x z) by set_solver. by apply Hall. }
      apply isBetterOffer_total in E; [|done..|congruence].
      right. destruct (Hall y Hy) as [->|Hb]; [done|].
      apply (isBetterOffer_trans _ z.1); [done|done|set_solver|done|done].
  - subst l. split; [set_solver|]. intros y [->|?%elem_of_nil]%elem_of_cons; [by left|done].
Qed.

Lemma elem_of_offers_of (τ : View) assets d le :
  (d, le) ∈ offers_of τ assets ↔
  ∃ k oe, τ !! k = Some (GLedgerEntry le) ∧ offer_of assets oe (GLedgerEntry le) ∧ d = descriptor oe.
Proof.
  unfold offers_of. rewrite list_elem_of_omap. unfold offer_of. split.
  - intros ([k e] & Hin%elem_of_map_to_list & Hf). simpl in *. destruct e as [le'| |]; try done.
    destruct (entry_data le') as [| |oe| |] eqn:Hd; try done.
    destruct (decide _) as [<-|]; [|done]. injection Hf as <- <-. naive_solver.
  - intros (k & oe & Hk & (? & [= <-] & Hd & ->) & ->). exists (k, GLedgerEntry le).
    rewrite elem_of_map_to_list. split; [done|]. simpl. by rewrite Hd, decide_True.
Qed.

Lemma is_best_best (τ : View) assets o :
  wf_view owner τ → is_best τ assets None o → snd <$> best (offers_of τ assets) = o.
Proof.
  intros Hwf Hbest.
  assert (∀ d le, (d, le) ∈ offers_of τ assets → ∃ oe, offered τ assets (offer_key oe) oe ∧
    offer_ok owner oe ∧ d = descriptor oe ∧ τ !! offer_key oe = Some (GLedgerEntry le) ∧
    entry_data le = OFFER oe) as Hel.
  { intros d le (k & oe & Hk & Hof & ->)%elem_of_offers_of.
    assert (offered τ assets k oe) as Ho by (eexists; eauto).
    destruct (offered_ok owner _ _ _ _ Hwf Ho) as [-> ?]. pose proof Hof as (? & [= <-] & ? & _). eauto 10. }
  assert (∀ le oe, offer_of assets oe (GLedgerEntry le) → τ !! offer_key oe = Some (GLedgerEntry le) →
    (descriptor oe, le) ∈ offers_of τ assets) as Hin.
  { intros le oe Hof Hl. apply elem_of_offers_of. eauto. }
  assert (∀ x, x ∈ offers_of τ assets → desc_ok x.1) as Hok.
  { intros [d' le'] (? & _ & ? & -> & _)%Hel. by eapply offer_ok_desc. }
  pose proof (best_spec (offers_of τ assets) Hok) as Hs.
  assert (∀ x y, x ∈ offers_of τ assets → y ∈ offers_of τ assets → od_offerID x.1 = od_offerID y.1 → x = y) as Hinj.
  { intros [d1 l1] [d2 l2] (oe1 & _ & Hok1 & -> & H1 & D1)%Hel (oe2 & _ & Hok2 & -> & H2 & D2)%Hel Hid.
    simpl in Hid. rewrite (offer_key_inj owner oe1 oe2) in H1 by done.
    assert (l1 = l2) as -> by congruence. f_equal. congruence. }
  specialize (Hs Hinj). destruct (best (offers_of τ assets)) as [[d le]|]; simpl.
  - destruct Hs as [Hle Hall]. pose proof (Hok _ Hle) as Hd. apply Hel in Hle as (oe & Ho & _ & -> & Hl & _).
    destruct o as [lo|]; [|by destruct (Hbest _ _ Ho)].
    destruct Hbest as (oo & Hoof & Hol & _ & Hob). f_equal. specialize (Hin _ _ Hoof Hol).
    destruct (Hall _ Hin) as [Heq%(f_equal snd)|Hb1]; [done|]. simpl in Hb1.
    destruct (Hob _ _ Ho I) as [He|Hb2]; [congruence|].
    pose proof (isBetterOffer_asym _ _ (Hok _ Hin) Hd Hb2). simpl in *. congruence.
  - destruct o as [lo|]; [|done]. destruct Hbest as (oo & Hoof & Hol & _).
    specialize (Hin _ _ Hoof Hol). rewrite Hs in Hin. by apply elem_of_nil in Hin.
Qed.

(** ** The worst best offer *)

Lemma core_ok_worst s A assets w :
  core_ok owner σ s A → limit_ok w → recorded_upto σ (mEntry s) assets w →
  ∃ W, updateWorstBestOffer assets w s = Ok (tt, set_mWorstBestOffer W s) ∧
       core_ok owner σ (set_mWorstBestOffer W s) A.
Proof.
  intros Hc Hw Hup. unfold updateWorstBestOffer. rewrite bind_gets. unfold when.
  destruct (match mWorstBestOffer s !! assets with None => true | Some w' => isWorseThan w w' end).
  2: { exists (mWorstBestOffer s). by destruct s. }
  eexists. split_and!; [reflexivity|]. split; simpl; try apply Hc.
  intros assets' w'. rewrite lookup_insert_Some. intros [[<- <-]|[_ Hw']]; [done|]. by apply Hc.
Qed.

Lemma level_ok_worst s assets w :
  level_ok s → limit_ok w → recorded_upto σ (mEntry s) assets w →
  ∃ s', updateWorstBestOffer assets w s = Ok (tt, s') ∧ level_ok s' ∧ absLevel s' = absLevel s.
Proof.
  intros [Hc Ha Hch Hse] Hw Hup. destruct (core_ok_worst s _ assets w Hc Hw Hup) as (W & -> & Hc').
  eexists. split_and!; [reflexivity| |done]. split; [done| |done|done]. split; apply Ha.
Qed.

(** The offers of the parent that are not worse than the best offer of the level
    are recorded once that one is. *)
Lemma recorded_upto_best s assets o m' :
  is_best (viewOf s) assets None o → dom (mEntry s) ⊆ dom m' →
  (∀ le, o = Some le → GLedgerKey (LedgerEntryKey le) ∈ dom m') →
  recorded_upto σ m' assets (le ← o; oe ← match entry_data le with OFFER oe => Some oe | _ => None end;
                             Some (descriptor oe)).
Proof.
  intros Hb Hsub Hin k oe Ho Hw. apply elem_of_dom. destruct (mEntry s !! k) eqn:E.
  { apply Hsub, elem_of_dom. by eexists. }
  assert (offered (viewOf s) assets k oe) as Ho'.
  { destruct assets. apply offered_overlay. by right. }
  destruct o as [le|]; [|by destruct (Hb k oe Ho')]. simpl in Hw.
  destruct Hb as (oe' & (? & [= <-] & Hd & _) & _ & _ & Hb). rewrite Hd in Hw. simpl in Hw.
  destruct (Hb k oe Ho' I) as [->|Hb']; [|congruence].
  specialize (Hin le eq_refl). unfold LedgerEntryKey in Hin. by rewrite Hd in Hin.
Qed.

Lemma spec_load_touched key l h l' e :
  spec_load σ key l = Ok (h, l') → v_sealed l = false → v_active l !! key = None → v_view l !! key = Some e →
  v_touched l' = {[key]} ∪ v_touched l.
Proof.
  unfold spec_load, guard_open. intros Hrun Hse Ha Hv. revert Hrun.
  erewrite bind_run. 2: { rewrite bind_gets, Hse. reflexivity. }
  rewrite bind_gets, Ha, bind_gets, Hv. by intros [= _ <-].
Qed.

Lemma sim_loadBestOffer buying selling : sim (loadBestOffer p buying selling) (spec_loadBestOffer σ buying selling).
Proof.
  apply sim_guards. intros s Hs Hopen. rewrite bind_gets.
  change (v_active (absLevel s)) with (mActive s). destruct (decide (mActive s ≠ ∅)) as [Hne|He%dec_stable].
  { erewrite bind_Throw; [done|]. unfold reads, Impl_getBestOffer. by rewrite decide_True. }
  pose proof (lk_open _ Hs Hopen) as Hc. rewrite He, dom_empty_L in Hc.
  destruct (Impl_getBestOffer_best owner p σ s Hc He buying selling None I) as (o & Hget & Hbest).
  fold (viewOf s) in Hbest.
  rewrite (bind_run _ _ s o s) by (unfold reads; by rewrite Hget). rewrite bind_gets.
  change (v_view (absLevel s)) with (viewOf s).
  pose proof (is_best_best _ _ _ (wf_viewOf _ _ Hc) Hbest) as Ho.
  destruct (best _) as [[d le]|], o as [le'|]; simpl in Ho; try done.
  - injection Ho as <-. pose proof (sim_load (GLedgerKey (LedgerEntryKey le)) s Hs) as Hload.
    destruct (load p _ s) as [[h s1]|e] eqn:Hrun.
    2: { by rewrite (bind_Throw _ _ _ _ Hrun). }
    destruct Hload as [Hspec Hs1]. rewrite (bind_run _ _ _ _ _ Hrun).
    pose proof Hbest as (oe & (? & [= <-] & Hd & _) & Hl & _ & _).
    rewrite (bind_run _ _ s1 oe s1) by (unfold reads, data_offer; by rewrite Hd).
    assert (dom (mEntry s1) = {[GLedgerKey (LedgerEntryKey le)]} ∪ dom (mEntry s)) as Hdom.
    { apply (spec_load_touched _ _ _ _ (GLedgerEntry le) Hspec); simpl; [done|by rewrite He|].
      unfold LedgerEntryKey. by rewrite Hd. }
    destruct (level_ok_worst s1 (buying, selling) (Some (descriptor oe)) Hs1) as (s2 & Hrun2 & Hs2 & Habs).
    + destruct (wf_viewOf _ _ Hc _ _ Hl) as [_ Hok]. simpl in Hok. rewrite Hd in Hok. by eapply offer_ok_desc.
    + pose proof (recorded_upto_best s _ _ (mEntry s1) Hbest) as Hup. simpl in Hup. rewrite Hd in Hup.
      apply Hup; [set_solver|]. intros ? [= <-]. set_solver.
    + rewrite (bind_run _ _ _ _ _ Hrun2). unfold mret, M_ret. by rewrite Habs.
  - destruct (level_ok_worst s (buying, selling) None Hs I) as (s2 & Hrun2 & Hs2 & Habs).
    + by apply (recorded_upto_best s _ _ (mEntry s) Hbest).
    + rewrite (bind_run _ _ _ _ _ Hrun2). unfold mret, M_ret. by rewrite Habs.
Qed.

(** ** Opening a child *)

Lemma deactivate_all s A (l : list (GeneralizedLedgerKey * EntryImpl)) :
  core_ok owner σ s A → (∀ kv, kv ∈ l → mEntry s !! kv.1 ≠ Some None) →
  ∃ books, forEach (λ kv, updateEntryIfRecorded p kv.1 false) l s = Ok (tt, set_mMultiOrderBook books s) ∧
    core_ok owner σ (set_mMultiOrderBook books s) (A ∖ list_to_set l.*1).
Proof.
  revert s A. induction l as [|[k i] l IH]; intros s A Hc Hl.
  - exists (mMultiOrderBook s). split; [by destruct s|]. eapply core_ok_set; [by eapply core_ok_ext|]. set_solver.
  - destruct (updateEntryIfRecorded_core s A k false Hc) as (books & Hrun & Hc').
    { apply (Hl (k, i)). set_solver. }
    destruct (IH _ _ Hc') as (books' & Hrun' & Hc'').
    { intros kv Hkv. apply Hl. set_solver. }
    exists books'. cbn [forEach]. rewrite (bind_run _ _ _ _ _ Hrun), Hrun'. split; [done|].
    eapply core_ok_set; [exact Hc''|]. set_solver.
Qed.

Lemma addChild_run s :
  level_ok s → mIsSealed s = false →
  ∃ books, addChild p s =
    Ok (tt, set_mActiveHeader None (set_mActive ∅ (set_mMultiOrderBook books (set_mChild true s)))) ∧
    core_ok owner σ (set_mActiveHeader None (set_mActive ∅ (set_mMultiOrderBook books (set_mChild true s)))) ∅.
Proof.
  intros Hs Hopen. unfold addChild, throwIfSealed, throwIfChild.
  rewrite (bind_run _ _ s tt s) by (unfold reads; by rewrite Hopen).
  rewrite (bind_run _ _ s tt s) by (unfold reads; by rewrite (lk_child _ Hs)).
  rewrite bind_modify, bind_gets. change (mActive (set_mChild true s)) with (mActive s).
  destruct (deactivate_all (set_mChild true s) (dom (mActive s)) (map_to_list (mActive s)))
    as (books & Hrun & Hc).
  { eapply core_ok_ext; [by apply lk_open|done..]. }
  { intros [k i] Hki%elem_of_map_to_list Hn. simpl in *.
    destruct (active_in_view s k i Hs Hki) as [e He]. unfold viewOf in He. by rewrite lookup_overlay, Hn in He. }
  exists books. erewrite bind_run. 2: { unfold orAbort. rewrite Hrun. reflexivity. }
  split; [done|]. eapply core_ok_set; [by eapply core_ok_ext|].
  intros k. rewrite elem_of_difference, elem_of_list_to_set. split; [set_solver|].
  intros [Hk Hn]. apply elem_of_dom in Hk as [i Hi]. destruct Hn.
  apply list_elem_of_fmap. exists (k, i). by rewrite elem_of_map_to_list.
Qed.

(** ** Taking over a child *)

(** The entry map after the entries of a child. *)
Definition committed (iter : list (GeneralizedLedgerKey * option GeneralizedLedgerEntry)) (m : EntryMap) : EntryMap :=
  foldl (λ m kv, recorded (eraseIfNull kv.1 kv.2) kv.1 kv.2 m) m iter.

Lemma lookup_committed iter m k :
  NoDup iter.*1 →
  committed iter m !! k =
  match (list_to_map iter : EntryMap) !! k with
  | Some o => if eraseIfNull k o then None else Some o
  | None => m !! k
  end.
Proof.
  revert m. induction iter as [|[key o] iter IH]; intros m Hnd; [by simpl; rewrite lookup_empty|].
  apply NoDup_cons in Hnd as [Hn Hnd]. unfold committed in *. cbn [foldl list_to_map foldr fst snd].
  change (foldr _ _ iter) with (list_to_map iter : EntryMap). rewrite (IH _ Hnd). unfold uncurry; simpl.
  destruct (decide (key = k)) as [->|Hne].
  - rewrite lookup_insert_eq, not_elem_of_list_to_map_1 by done. rewrite lookup_recorded, decide_True by done.
    done.
  - rewrite lookup_insert_ne by done. rewrite lookup_recorded, decide_False by done. done.
Qed.

Lemma commit_entries s iter :
  core_ok owner σ s ∅ → mActive s = ∅ → (∀ kv, kv ∈ iter → fits owner kv.1 kv.2) →
  ∃ books, forEach (λ kv, updateEntry p kv.1 kv.2) iter s =
             Ok (tt, set_mMultiOrderBook books (set_mEntry (committed iter (mEntry s)) s)) ∧
    core_ok owner σ (set_mMultiOrderBook books (set_mEntry (committed iter (mEntry s)) s)) ∅.
Proof.
  revert s. induction iter as [|[k o] iter IH]; intros s Hc Ha Hf.
  - exists (mMultiOrderBook s). by destruct s.
  - destruct (updateEntry_active_core s ∅ k o false Hc) as (books & Hrun & Hc').
    { apply (Hf (k, o)). set_solver. }
    destruct (IH (set_mMultiOrderBook books (set_mEntry (recorded (eraseIfNull k o) k o (mEntry s)) s)))
      as (books' & Hrun' & Hc'').
    { eapply core_ok_set; [exact Hc'|]. set_solver. } { done. } { intros kv Hkv. apply Hf. set_solver. }
    exists books'. cbn [forEach]. erewrite bind_run; [rewrite Hrun'; split; [reflexivity|exact Hc'']|].
    cbn [fst snd]. rewrite updateEntry_eq, Ha, bool_decide_eq_false_2; [exact Hrun|].
    rewrite lookup_empty. by intros [].
Qed.

Lemma commit_worst s A (l : list (AssetPair * option OfferDescriptor)) :
  core_ok owner σ s A → (∀ kw, kw ∈ l → limit_ok kw.2 ∧ recorded_upto σ (mEntry s) kw.1 kw.2) →
  ∃ W, forEach (λ kv, updateWorstBestOffer kv.1 kv.2) l s = Ok (tt, set_mWorstBestOffer W s) ∧
       core_ok owner σ (set_mWorstBestOffer W s) A.
Proof.
  revert s. induction l as [|[assets w] l IH]; intros s Hc Hl.
  - exists (mWorstBestOffer s). by destruct s.
  - destruct (Hl (assets, w)) as [Hw Hup]; [set_solver|].
    destruct (core_ok_worst s A assets w Hc Hw Hup) as (W & Hrun & Hc').
    destruct (IH (set_mWorstBestOffer W s) Hc') as (W' & Hrun' & Hc'').
    { intros kw Hkw. apply Hl. set_solver. }
    exists W'. cbn [forEach]. by rewrite (bind_run _ _ _ _ _ Hrun).
Qed.

(** The handles do not matter for a level that has none. *)
Lemma level_ok_fresh s : core_ok owner σ s ∅ → mActive s = ∅ → mIsSealed s = false → mChild s = false → level_ok s.
Proof.
  intros Hc Ha Hse Hch. apply level_ok_open; [by rewrite Ha, dom_empty_L| |done|done].
  split; rewrite Ha; intros *; by rewrite lookup_empty.
Qed.

Lemma overlay_committed (entries : EntryMap) m :
  overlay (committed (map_to_list entries) m) σ = overlay entries (overlay m σ).
Proof.
  apply map_eq. intros k. rewrite !lookup_overlay.
  rewrite lookup_committed, list_to_map_to_list by apply NoDup_fst_map_to_list.
  destruct (entries !! k) as [o|]; [|done]. unfold eraseIfNull.
  destruct (bool_decide (o = None)) eqn:E1, (bool_decide (σ !! k = None)) eqn:E2; try done. simpl.
  apply bool_decide_eq_true in E1 as ->. by apply bool_decide_eq_true in E2.
Qed.

Lemma dom_committed (entries : EntryMap) m :
  dom (committed (map_to_list entries) m) =
  merge_touched σ (overlay entries (overlay m σ)) (dom entries) (dom m).
Proof.
  apply set_eq. intros k. unfold merge_touched.
  rewrite elem_of_filter, elem_of_union, !elem_of_dom.
  rewrite lookup_committed, list_to_map_to_list by apply NoDup_fst_map_to_list.
  rewrite lookup_overlay. destruct (entries !! k) as [o|].
  - transitivity (¬ (o = None ∧ σ !! k = None)).
    + unfold eraseIfNull. case_bool_decide; case_bool_decide; simpl.
      * split; [by intros []|naive_solver].
      * split; [naive_solver|by eexists].
      * split; [naive_solver|by eexists].
      * split; [naive_solver|by eexists].
    + split; [|naive_solver]. intros Hn. split; [naive_solver|]. left. by eexists.
  - split.
    + intros Hm. split; [|by right]. by intros [[? [=]] _].
    + intros [_ [[? [=]]|?]]. done.
Qed.

(** The offers of the parent that a child has recorded are recorded here once it
    is committed. *)
Lemma recorded_upto_committed s (entries : EntryMap) mc assets w :
  dom entries = dom mc → recorded_upto (viewOf s) mc assets w →
  recorded_upto σ (committed (map_to_list entries) (mEntry s)) assets w.
Proof.
  intros Hd Hup k oe Ho Hw. apply elem_of_dom. rewrite dom_committed. unfold merge_touched.
  apply elem_of_filter. split.
  - intros (_ & _ & Hn). destruct Ho as (e & He & _). congruence.
  - destruct (mEntry s !! k) eqn:E; [apply elem_of_union_r, elem_of_dom; by eexists|].
    apply elem_of_union_l. rewrite Hd. apply elem_of_dom, (Hup k oe); [|done].
    destruct assets. apply offered_overlay. by right.
Qed.

Lemma commitChild_run s c (entries : EntryMap) :
  core_ok owner σ s ∅ → mActive s = ∅ → mIsSealed s = false →
  wf_entries owner entries → dom entries = dom (mEntry c) →
  (∀ assets w, mWorstBestOffer c !! assets = Some w →
     limit_ok w ∧ recorded_upto (viewOf s) (mEntry c) assets w) →
  ∃ s', commitChild p (map_to_list entries) (mConsistency c) c s = Ok (tt, s') ∧ level_ok s' ∧
    absLevel s' =
      mkLevel (overlay entries (viewOf s))
        (merge_touched σ (overlay entries (viewOf s)) (dom (mEntry c)) (dom (mEntry s)))
        (mHeader c) (mShouldUpdateLastModified s) ∅ (mActiveHeader s) (nextImpl s)
        (joinConsistencyLevels (mConsistency s) (mConsistency c)) false.
Proof.
  intros Hc Ha Hse Hwf Hdom Hworst. unfold commitChild. rewrite bind_modify.
  set (s1 := set_mConsistency (joinConsistencyLevels (mConsistency s) (mConsistency c)) s).
  assert (core_ok owner σ s1 ∅) as Hc1.
  { split; simpl; try apply Hc. destruct (mConsistency s) eqn:E; [|done]. intros _. by apply Hc. }
  destruct (commit_entries s1 (map_to_list entries) Hc1 Ha) as (books & Hrun & Hc2).
  { intros [k o] Hk%elem_of_map_to_list e He. simpl in *. subst o. by apply Hwf. }
  destruct (commit_worst _ ∅ (map_to_list (mWorstBestOffer c)) Hc2) as (W & Hrun' & Hc3).
  { intros [assets w] Hkw%elem_of_map_to_list. simpl in *. apply Hworst in Hkw as [? Hup].
    split; [done|]. by eapply recorded_upto_committed. }
  erewrite bind_run. 2: { unfold orAbort. erewrite bind_run by exact Hrun. rewrite Hrun'. reflexivity. }
  eexists. split; [reflexivity|]. split.
  - apply level_ok_fresh; [by eapply core_ok_ext|done|done|done].
  - unfold absLevel, viewOf. simpl. rewrite Ha, Hse, overlay_committed, dom_committed, Hdom. done.
Qed.

(** ** Sealing *)

Lemma toKey_stamp seq e : toKey (stampEntry seq e) = toKey e.
Proof. by destruct e. Qed.

Lemma entry_ok_stamp seq e : entry_ok owner e → entry_ok owner (stampEntry seq e).
Proof. by destruct e. Qed.

Lemma overlay_stamp seq (m : EntryMap) :
  overlay (fmap (M:=option) (stampEntry seq) <$> m) σ = stamp_view seq (dom m) (overlay m σ).
Proof.
  apply map_eq. intros k. unfold stamp_view. rewrite map_lookup_imap, !lookup_overlay, lookup_fmap.
  destruct (m !! k) as [o|] eqn:E; simpl.
  - destruct o; simpl; [|done]. rewrite decide_True; [done|]. apply elem_of_dom. by eexists.
  - destruct (σ !! k); simpl; [|done]. rewrite decide_False; [done|]. by apply not_elem_of_dom.
Qed.

Lemma committedEntries_run s :
  level_ok s →
  ∃ entries, committedEntries s = Ok entries ∧ wf_entries owner entries ∧
    dom entries = dom (mEntry s) ∧ overlay entries σ = sealed_view (absLevel s).
Proof.
  intros Hs. pose proof (co_wf _ _ _ _ (lk_core _ Hs)) as Hwf.
  unfold committedEntries, sealed_view, maybeUpdateLastModified, throwIfSealed, throwIfChild. simpl.
  destruct (mIsSealed s); [eauto|]. rewrite (lk_child _ Hs). cbn [mbind res_bind].
  eexists. split; [reflexivity|]. destruct (mShouldUpdateLastModified s).
  - split_and!; [|by rewrite dom_fmap_L|apply overlay_stamp].
    intros k e. rewrite lookup_fmap. destruct (mEntry s !! k) as [[e'|]|] eqn:E; simpl; try done.
    intros [= <-]. rewrite toKey_stamp. apply Hwf in E as [? ?]. split; [done|]. by apply entry_ok_stamp.
  - assert (fmap (M:=option) (λ e : GeneralizedLedgerEntry, e) <$> mEntry s = mEntry s) as ->.
    { apply map_eq. intros k. rewrite lookup_fmap. by destruct (mEntry s !! k) as [[]|]. }
    done.
Qed.

(** Queries that seal the level. *)
Lemma committedEntries_exact s entries :
  level_ok s → committedEntries s = Ok entries → mConsistency s = EXACT →
  ∀ k, entries !! k = Some None → is_Some (σ !! k).
Proof.
  intros Hs Hce HE k Hk. apply (co_exact _ _ _ _ (lk_core _ Hs) HE). revert Hce.
  unfold committedEntries, maybeUpdateLastModified, throwIfSealed, throwIfChild.
  destruct (mIsSealed s); [by intros [= ->]|]. rewrite (lk_child _ Hs). intros [= <-]. revert Hk.
  rewrite lookup_fmap. destruct (mEntry s !! k) as [[]|]; done.
Qed.

Lemma seal_run {A} s (f : EntryMap → Impl → res A) :
  level_ok s →
  ∃ entries, committedEntries s = Ok entries ∧
    match f entries s with
    | Ok a => ∃ s', maybeUpdateLastModifiedThenInvokeThenSeal f s = Ok (a, s') ∧ level_ok s' ∧
                    absLevel s' = spec_seal (absLevel s)
    | Throw e => maybeUpdateLastModifiedThenInvokeThenSeal f s = Throw e
    end.
Proof.
  intros Hs. destruct (committedEntries_run s Hs) as (entries & Hce & Hwf & Hdom & Hov).
  exists entries. split; [done|]. unfold maybeUpdateLastModifiedThenInvokeThenSeal. rewrite bind_gets.
  pose proof Hce as Hce'. unfold committedEntries in Hce. destruct (mIsSealed s) eqn:Hse.
  - injection Hce as <-. unfold reads. destruct (f _ s) as [a|e]; [|done].
    exists s. split_and!; [done|done|]. unfold spec_seal, sealed_view. simpl. rewrite Hse.
    destruct (lk_sealed _ Hs Hse) as [E1 E2]. unfold absLevel. by rewrite Hse, E1, E2.
  - rewrite (bind_run _ _ s entries s) by (unfold reads; by rewrite Hce).
    destruct (f entries s) as [a|e] eqn:Hf.
    2: { erewrite bind_Throw; [done|]. unfold reads. by rewrite Hf. }
    rewrite (bind_run _ _ s a s) by (unfold reads; by rewrite Hf). rewrite bind_modify.
    pose proof (lk_core _ Hs) as Hc. eexists. split_and!; [reflexivity| |].
    + split; simpl; [| |apply Hs|done].
      * split; simpl; [done| | |].
        -- intros HE. by apply (committedEntries_exact s entries).
        -- apply books_ok_empty. intros k Hk. apply elem_of_dom. by apply not_eq_None_Some.
        -- intros assets w Hw. apply (co_worst _ _ _ _ Hc) in Hw as [? Hup]. split; [done|].
           intros k oe Ho Hlim. apply elem_of_dom. rewrite Hdom. apply elem_of_dom. by eapply Hup.
      * split; simpl; intros *; by rewrite lookup_empty.
    + unfold absLevel, spec_seal. simpl. unfold viewOf at 1. simpl. by rewrite Hov, Hdom.
Qed.
End steps.
