(* ===== verification/QuorumSet.v ===== *)
(** * Quorum sets, quorum slices and v-blocking sets

    Models [src/scp/LocalNode.cpp] (the static predicates on quorum sets and on
    maps of latest messages) and [src/scp/QuorumSetUtils.cpp] (sanity check and
    normalisation).

    The theorems connect the loops with early exits and wrap-around counters of
    the source to the counting semantics of the protocol: a slice is satisfied
    when enough entries are present, v-blocking is its dual, [isQuorum] computes
    the greatest self-satisfying set of nodes, [findClosestVBlocking] returns a
    set that blocks, and normalisation preserves the meaning of a quorum set. *)

From S2P Require Import Prelude Numeric.

(** A public key, as its bytes. *)
Notation NodeID := (list Z).

Inductive SCPQuorumSet : Type :=
| QSet (threshold : Z) (validators : list NodeID) (innerSets : list SCPQuorumSet).

Definition threshold (q : SCPQuorumSet) : Z := let 'QSet t _ _ := q in t.
Definition validators (q : SCPQuorumSet) : list NodeID := let 'QSet _ v _ := q in v.
Definition innerSets (q : SCPQuorumSet) : list SCPQuorumSet := let 'QSet _ _ i := q in i.

(** Induction over the nesting. *)
Section qset_ind.
Context (P : SCPQuorumSet → Prop).
Hypothesis (HQ : ∀ t v i, Forall P i → P (QSet t v i)).

Fixpoint qset_nested_ind (q : SCPQuorumSet) : P q :=
  match q with
  | QSet t v i =>
      HQ t v i ((fix go (l : list SCPQuorumSet) : Forall P l :=
                   match l with
                   | [] => Forall_nil_2 P
                   | x :: l' => Forall_cons_2 P x l' (qset_nested_ind x) (go l')
                   end) i)
  end.
End qset_ind.

Definition buildSingletonQSet (nodeID : NodeID) : SCPQuorumSet :=
  QSet 1 [nodeID] [].

(** [forAllNodes]: validators first, then the inner sets, stopping at the first
    node on which [proc] returns [false]. *)
Fixpoint forAllNodes (qset : SCPQuorumSet) (proc : NodeID → bool) : bool :=
  match qset with
  | QSet _ v i =>
      forallb proc v && forallb (λ q, forAllNodes q proc) i
  end.

Definition computeWeight (m total threshold : Z) : res Z :=
  cassert (threshold <=? total);;
  '(_, r) ← bigDivide_u64 m threshold total ROUND_UP;
  mret r.

Fixpoint getNodeWeight (nodeID : NodeID) (qset : SCPQuorumSet) : res Z :=
  match qset with
  | QSet t v i =>
      let n := t in
      let d := Z.of_nat (length i) + Z.of_nat (length v) in
      if existsb (λ qsetNode, bool_decide (qsetNode = nodeID)) v
      then computeWeight UINT64_MAX d n
      else
        (fix go (l : list SCPQuorumSet) : res Z :=
           match l with
           | [] => mret 0
           | q :: l' =>
               leafW ← getNodeWeight nodeID q;
               if negb (leafW =? 0) then computeWeight leafW d n else go l'
           end) i
  end.

(** A loop that decrements a counter on each hit and returns from the function
    as soon as the counter is not positive.  The result tells whether the
    function returned, and the counter otherwise. *)
Fixpoint countdown (dec : Z → Z) (hits : list bool) (left : Z) : bool * Z :=
  match hits with
  | [] => (false, left)
  | hit :: hits' =>
      if hit then
        let left' := dec left in
        if left' <=? 0 then (true, left') else countdown dec hits' left'
      else countdown dec hits' left
  end.

(** [std::find(nodeSet.begin(), nodeSet.end(), validator) != nodeSet.end()]. *)
Definition found (nodeSet : list NodeID) (validator : NodeID) : bool :=
  bool_decide (validator ∈ nodeSet).

(** [uint32 thresholdLeft]: the decrement wraps around. *)
Fixpoint isQuorumSliceInternal (qset : SCPQuorumSet) (nodeSet : list NodeID) : bool :=
  match qset with
  | QSet t v i =>
      let dec left := u32 (left - 1) in
      let '(returned, thresholdLeft) := countdown dec (map (found nodeSet) v) t in
      if returned then true
      else (countdown dec (map (λ inner, isQuorumSliceInternal inner nodeSet) i)
              thresholdLeft).1
  end.

Definition isQuorumSlice (qSet : SCPQuorumSet) (nodeSet : list NodeID) : bool :=
  isQuorumSliceInternal qSet nodeSet.

(** [int leftTillBlock]: a [size_t] difference cast to [int]. *)
Fixpoint isVBlockingInternal (qset : SCPQuorumSet) (nodeSet : list NodeID) : bool :=
  match qset with
  | QSet t v i =>
      if t =? 0 then false
      else
        let leftTillBlock :=
          i32 (u64 (1 + Z.of_nat (length v) + Z.of_nat (length i) - t)) in
        let dec left := left - 1 in
        let '(returned, leftTillBlock) :=
          countdown dec (map (found nodeSet) v) leftTillBlock in
        if returned then true
        else (countdown dec (map (λ inner, isVBlockingInternal inner nodeSet) i)
                leftTillBlock).1
  end.

Definition isVBlocking (qSet : SCPQuorumSet) (nodeSet : list NodeID) : bool :=
  isVBlockingInternal qSet nodeSet.

(** ** Predicates over the latest messages

    [St] is the type of statements; the map associates to each node the
    statement of its latest envelope. *)
Section latest.
Context {St : Type}.

(** The nodes whose statement passes the filter. *)
Definition filter_nodes (m : gmap NodeID St) (f : St → bool) : list NodeID :=
  fst <$> filter (λ kv, f kv.2 = true) (map_to_list m).

Definition isVBlocking_map (qSet : SCPQuorumSet) (m : gmap NodeID St)
    (f : St → bool) : bool :=
  let pNodes := filter_nodes m f in
  isVBlocking qSet pNodes.

(** One pass of [std::copy_if]: keep the nodes whose quorum set is known and is
    satisfied by the current nodes. *)
Definition quorumFilter (m : gmap NodeID St) (qfun : St → option SCPQuorumSet)
    (pNodes : list NodeID) (nodeID : NodeID) : bool :=
  match m !! nodeID with
  | Some st =>
      match qfun st with
      | Some q => isQuorumSlice q pNodes
      | None => false
      end
  | None => false
  end.

(** The nodes that one pass keeps. *)
Definition quorumPass (m : gmap NodeID St) (qfun : St → option SCPQuorumSet) (pNodes : list NodeID) :
    list NodeID :=
  filter (λ n, quorumFilter m qfun pNodes n = true) pNodes.

(** The [do ... while (count != pNodes.size())] loop.  Each pass that does not stop
    removes a node, so that as many passes as there are nodes leave no node, and the
    pass after them stops: [isQuorum_loop_ends] says that the loop is run to its
    end. *)
Fixpoint isQuorum_loop (m : gmap NodeID St) (qfun : St → option SCPQuorumSet)
    (passes : nat) (pNodes : list NodeID) : list NodeID :=
  let fNodes := quorumPass m qfun pNodes in
  match passes with
  | O => fNodes
  | S passes' =>
      if bool_decide (length pNodes = length fNodes) then fNodes
      else isQuorum_loop m qfun passes' fNodes
  end.

(** The same loop as a relation: [pNodes] before it and after it. *)
Inductive quorum_loop (m : gmap NodeID St) (qfun : St → option SCPQuorumSet) : list NodeID → list NodeID → Prop :=
| quorum_loop_stop pNodes :
    length pNodes = length (quorumPass m qfun pNodes) →
    quorum_loop m qfun pNodes (quorumPass m qfun pNodes)
| quorum_loop_again pNodes U :
    length pNodes ≠ length (quorumPass m qfun pNodes) →
    quorum_loop m qfun (quorumPass m qfun pNodes) U → quorum_loop m qfun pNodes U.

Definition isQuorum (qSet : SCPQuorumSet) (m : gmap NodeID St)
    (qfun : St → option SCPQuorumSet) (f : St → bool) : bool :=
  let pNodes := filter_nodes m f in
  isQuorumSlice qSet (isQuorum_loop m qfun (length pNodes) pNodes).
End latest.

(** ** findClosestVBlocking *)

(** Insertion in the [std::multiset] ordered by size: after the vectors of the
    same size. *)
Fixpoint insert_by_size (v : list NodeID) (l : list (list NodeID)) : list (list NodeID) :=
  match l with
  | [] => [v]
  | x :: l' => if (length v <? length x)%nat then v :: l else x :: insert_by_size v l'
  end.

(** The first loop: [inl] is "already blocked", [inr] the counter and the
    validators saved for later. *)
Fixpoint closest_validators (nodes : gset NodeID) (excluded : option NodeID)
    (vs : list NodeID) (leftTillBlock : Z) (acc : list NodeID) : unit + (Z * list NodeID) :=
  match vs with
  | [] => inr (leftTillBlock, acc)
  | validator :: vs' =>
      if bool_decide (excluded = Some validator)
      then closest_validators nodes excluded vs' leftTillBlock acc
      else if bool_decide (validator ∈ nodes)
      then closest_validators nodes excluded vs' leftTillBlock (acc ++ [validator])
      else
        let left := u64 (leftTillBlock - 1) in
        if left =? 0 then inl tt
        else closest_validators nodes excluded vs' left acc
  end.

(** The second loop, over the results of the recursive calls. *)
Fixpoint closest_inner (rs : list (list NodeID)) (leftTillBlock : Z)
    (acc : list (list NodeID)) : unit + (Z * list (list NodeID)) :=
  match rs with
  | [] => inr (leftTillBlock, acc)
  | v :: rs' =>
      if (length v =? 0)%nat then
        let left := u64 (leftTillBlock - 1) in
        if left =? 0 then inl tt else closest_inner rs' left acc
      else closest_inner rs' leftTillBlock (insert_by_size v acc)
  end.

(** The last loop: take whole inner results, the smallest first. *)
Fixpoint take_inner (leftTillBlock : Z) (rs : list (list NodeID)) : list NodeID :=
  match rs with
  | [] => []
  | v :: rs' =>
      if leftTillBlock =? 0 then [] else v ++ take_inner (u64 (leftTillBlock - 1)) rs'
  end.

Fixpoint findClosestVBlocking (qset : SCPQuorumSet) (nodes : gset NodeID)
    (excluded : option NodeID) : list NodeID :=
  match qset with
  | QSet t v i =>
      let leftTillBlock := u64 (1 + Z.of_nat (length v) + Z.of_nat (length i) - t) in
      match closest_validators nodes excluded v leftTillBlock [] with
      | inl _ => []
      | inr (leftTillBlock, saved) =>
          match closest_inner (map (λ inner, findClosestVBlocking inner nodes excluded) i)
                  leftTillBlock [] with
          | inl _ => []
          | inr (leftTillBlock, resInternals) =>
              let saved :=
                if leftTillBlock <? Z.of_nat (length saved)
                then take (Z.to_nat leftTillBlock) saved else saved in
              let leftTillBlock := u64 (leftTillBlock - Z.of_nat (length saved)) in
              saved ++ take_inner leftTillBlock resInternals
          end
      end
  end.

Definition findClosestVBlocking_map {St} (qset : SCPQuorumSet) (m : gmap NodeID St)
    (f : St → bool) (excluded : option NodeID) : list NodeID :=
  findClosestVBlocking qset (list_to_set (filter_nodes m f)) excluded.

(** ** Sanity check *)

Definition MAXIMUM_QUORUM_NESTING_LEVEL : Z := 4.

(** The mutable members of [QuorumSetSanityChecker]. *)
Record SanityState : Type := mkSanity {
  mKnownNodes : gset NodeID;
  mCount : Z
}.

(** [inl] carries the error string of a check that returned [false]. *)
Fixpoint insert_known (vs : list NodeID) (st : SanityState) : string + SanityState :=
  match vs with
  | [] => inr st
  | n :: vs' =>
      if bool_decide (n ∈ mKnownNodes st)
      then inl "Duplicate node found in quorum configuration"%string
      else insert_known vs' (mkSanity ({[n]} ∪ mKnownNodes st) (mCount st))
  end.

(** The loop over the inner sets, stopping at the first error. *)
Definition check_inner (f : SCPQuorumSet → SanityState → string + SanityState) :=
  fix go (l : list SCPQuorumSet) (st : SanityState) : string + SanityState :=
    match l with
    | [] => inr st
    | iSet :: l' =>
        match f iSet st with
        | inl e => inl e
        | inr st' => go l' st'
        end
    end.

Fixpoint checkSanity (extraChecks : bool) (qSet : SCPQuorumSet) (depth : Z)
    (st : SanityState) : string + SanityState :=
  match qSet with
  | QSet t v i =>
      if MAXIMUM_QUORUM_NESTING_LEVEL <? depth
      then inl "Maximum quorum nesting level exceeded"%string
      else if t <? 1
      then inl "Threshold must be greater than 0"%string
      else
        let totEntries := Z.of_nat (length v) + Z.of_nat (length i) in
        let vBlockingSize := u64 (totEntries - t + 1) in
        let st := mkSanity (mKnownNodes st) (mCount st + Z.of_nat (length v)) in
        if totEntries <? t
        then inl "Threshold exceeds total number of entries"%string
        else if extraChecks && (t <? vBlockingSize)
        then inl "Threshold is lower than the v-blocking size (< 51%)."%string
        else
          match insert_known v st with
          | inl e => inl e
          | inr st =>
              check_inner (λ iSet st, checkSanity extraChecks iSet (depth + 1) st) i st
          end
  end.

(** The constructor of the checker, then [isSane()]. *)
Definition sanityError (qSet : SCPQuorumSet) (extraChecks : bool) : option string :=
  match checkSanity extraChecks qSet 0 (mkSanity ∅ 0) with
  | inl e => Some e
  | inr st =>
      if (mCount st <? 1) || (1000 <? mCount st)
      then Some "Total number of nodes in a quorum must be within 1 and 1000"%string
      else None
  end.

Definition isQuorumSetSane (qSet : SCPQuorumSet) (extraChecks : bool) : bool :=
  match sanityError qSet extraChecks with None => true | Some _ => false end.

(** ** Normalisation *)

(** One iteration of the loop over the (already simplified) inner sets: a
    singleton moves to the end of the validators. *)
Definition absorb_singleton (acc : list NodeID * list SCPQuorumSet) (q : SCPQuorumSet)
    : list NodeID * list SCPQuorumSet :=
  match q with
  | QSet 1 [x] [] => (acc.1 ++ [x], acc.2)
  | _ => (acc.1, acc.2 ++ [q])
  end.

Fixpoint normalizeQSetSimplify (qSet : SCPQuorumSet) (idToRemove : option NodeID)
    : SCPQuorumSet :=
  match qSet with
  | QSet t v i =>
      let '(t, v) :=
        match idToRemove with
        | Some id =>
            let v' := filter (λ n, n ≠ id) v in
            (u32 (t - (Z.of_nat (length v) - Z.of_nat (length v'))), v')
        | None => (t, v)
        end in
      let '(v, i) :=
        foldl absorb_singleton (v, [])
          (map (λ q, normalizeQSetSimplify q idToRemove) i) in
      match i with
      | [inner] =>
          if (t =? 1) && bool_decide (length v = 0%nat) then inner else QSet t v i
      | _ => QSet t v i
      end
  end.

(** [qSetCompareInt]: validators, then inner sets, then threshold. *)
Fixpoint qSetCompareInt (l r : SCPQuorumSet) : comparison :=
  match l, r with
  | QSet lt lv li, QSet rt rv ri =>
      match lex_cmp lv rv with
      | Eq =>
          match
            (fix go (xs ys : list SCPQuorumSet) : comparison :=
               match xs, ys with
               | [], [] => Eq
               | [], _ :: _ => Lt
               | _ :: _, [] => Gt
               | x :: xs', y :: ys' =>
                   match qSetCompareInt x y with Eq => go xs' ys' | c => c end
               end) li ri
          with
          | Eq => lt ?= rt
          | c => c
          end
      | c => c
      end
  end.

Fixpoint normalizeQuorumSetReorder (qset : SCPQuorumSet) : SCPQuorumSet :=
  match qset with
  | QSet t v i =>
      QSet t (std_sort ltb v)
        (std_sort (λ l r, match qSetCompareInt l r with Lt => true | _ => false end)
           (map normalizeQuorumSetReorder i))
  end.

Definition normalizeQSet (qSet : SCPQuorumSet) (idToRemove : option NodeID) : SCPQuorumSet :=
  normalizeQuorumSetReorder (normalizeQSetSimplify qSet idToRemove).

(** ** Counting semantics *)

(** Every level of the nesting satisfies [P] of its threshold and its number of
    entries. *)
Inductive levels (P : Z → Z → Prop) : SCPQuorumSet → Prop :=
| levels_intro t v i :
    P t (Z.of_nat (length v) + Z.of_nat (length i)) →
    Forall (levels P) i → levels P (QSet t v i).

(** Thresholds are [uint32]. *)
Definition typed : SCPQuorumSet → Prop := levels (λ t _, is_u32 t).

(** Thresholds are between one and the number of entries. *)
Definition well_formed : SCPQuorumSet → Prop :=
  levels (λ t n, 1 ≤ t ≤ n ∧ n ≤ INT32_MAX).

Lemma levels_impl (P Q : Z → Z → Prop) q :
  (∀ t n, P t n → Q t n) → levels P q → levels Q q.
Proof.
  intros HPQ. induction q as [t v i IH] using qset_nested_ind. inversion 1; subst.
  constructor; [auto|]. rewrite Forall_forall in *. auto.
Qed.

Lemma well_formed_typed q : well_formed q → typed q.
Proof. apply levels_impl. intros. widths. lia. Qed.

Create HintDb scp.
#[export] Hint Resolve well_formed_typed : scp.

(** The number of hits after which the [uint32] countdown stops: a threshold of
    zero wraps around. *)
Definition eff (t : Z) : Z := if t =? 0 then 4294967296 else t.

(** A slice is satisfied when enough validators and inner slices are. *)
Fixpoint slice_sat (q : SCPQuorumSet) (S : list NodeID) : bool :=
  match q with
  | QSet t v i => eff t <=? ctrue (map (found S) v) + ctrue (map (λ x, slice_sat x S) i)
  end.

Lemma countdown_u32 hits left :
  is_u32 left →
  let '(returned, left') := countdown (λ l, u32 (l - 1)) hits left in
  if returned then eff left ≤ ctrue hits
  else is_u32 left' ∧ ctrue hits < eff left ∧ eff left' = eff left - ctrue hits.
Proof.
  revert left. induction hits as [|hit hits IH]; intros left Hl; simpl; rewrite ?ctrue_cons.
  { rewrite ctrue_nil. unfold eff. widths. destruct (Z.eqb_spec left 0); lia. }
  pose proof (ctrue_bounds hits). destruct hit; [|rewrite Z.add_0_l; apply IH, Hl].
  assert (is_u32 (u32 (left - 1)) ∧
          (u32 (left - 1) ≤ 0 → eff left = 1) ∧
          (0 < u32 (left - 1) → eff (u32 (left - 1)) = eff left - 1)) as (Hr & H0 & H1).
  { split; [apply u32_range|]. unfold eff, u32. widths.
    destruct (Z.eqb_spec left 0) as [->|].
    - split; [done|]. intros _. done.
    - rewrite Z.mod_small by lia. case_match; lia. }
  destruct (Z.leb_spec (u32 (left - 1)) 0); [lia|].
  specialize (IH _ Hr). destruct (countdown _ hits _) as [[] ?]; [lia|].
  destruct IH as (?&?&?). split; [done|lia].
Qed.

Lemma isQuorumSlice_sat q S : typed q → isQuorumSlice q S = slice_sat q S.
Proof.
  unfold isQuorumSlice.
  induction q as [t v i IH] using qset_nested_ind. inversion 1 as [? ? ? Ht Hi]; subst.
  simpl. pose proof (countdown_u32 (map (found S) v) t Ht) as H1.
  destruct (countdown _ (map (found S) v) t) as [[] left].
  { pose proof (ctrue_bounds (map (λ x, slice_sat x S) i)). lia. }
  destruct H1 as (Hr & ? & Heff).
  pose proof (countdown_u32 (map (λ x, isQuorumSliceInternal x S) i) left Hr) as H2.
  rewrite (map_ext_elem _ (λ x, slice_sat x S)) in H2 |- *
    by (intros x Hx; rewrite Forall_forall in IH, Hi; apply IH; [done|by apply Hi]).
  destruct (countdown _ (map (λ x, slice_sat x S) i) left) as [[] ?]; simpl; lia.
Qed.

Lemma slice_sat_mono q S S' :
  (∀ n, n ∈ S → n ∈ S') → slice_sat q S = true → slice_sat q S' = true.
Proof.
  intros HS. induction q as [t v i IH] using qset_nested_ind. simpl.
  rewrite !Z.leb_le. intros.
  assert (ctrue (map (found S) v) ≤ ctrue (map (found S') v)).
  { apply ctrue_map_mono. intros x _. unfold found. rewrite !bool_decide_eq_true. auto. }
  assert (ctrue (map (λ x, slice_sat x S) i) ≤ ctrue (map (λ x, slice_sat x S') i)); [|lia].
  apply ctrue_map_mono. rewrite Forall_forall in IH. auto.
Qed.

Lemma isQuorumSlice_mono q S S' :
  typed q → (∀ n, n ∈ S → n ∈ S') → isQuorumSlice q S = true → isQuorumSlice q S' = true.
Proof. intros. rewrite isQuorumSlice_sat in * by done. eauto using slice_sat_mono. Qed.

(** The [int] countdown of [isVBlocking]. *)
Lemma countdown_int hits left :
  let '(returned, left') := countdown (λ l, l - 1) hits left in
  0 < left →
  if returned then left ≤ ctrue hits
  else 0 < left' ∧ ctrue hits < left ∧ left' = left - ctrue hits.
Proof.
  revert left. induction hits as [|hit hits IH]; intros left; simpl; rewrite ?ctrue_cons.
  { rewrite ctrue_nil. lia. }
  pose proof (ctrue_bounds hits). destruct hit.
  - destruct (Z.leb_spec (left - 1) 0); [lia|].
    specialize (IH (left - 1)). destruct (countdown _ hits _) as [[] ?]; lia.
  - specialize (IH left). destruct (countdown _ hits _) as [[] ?]; lia.
Qed.

Lemma isVBlocking_count t v i S :
  1 ≤ t ≤ Z.of_nat (length v) + Z.of_nat (length i) →
  Z.of_nat (length v) + Z.of_nat (length i) ≤ INT32_MAX →
  isVBlocking (QSet t v i) S =
    (1 + Z.of_nat (length v) + Z.of_nat (length i) - t <=?
     ctrue (map (found S) v) + ctrue (map (λ x, isVBlocking x S) i)).
Proof.
  intros Ht Hn. unfold isVBlocking. simpl.
  replace (t =? 0) with false by lia.
  rewrite u64_id, i32_id by (widths; lia).
  set (left := 1 + _ + _ - t). assert (0 < left) by lia.
  pose proof (countdown_int (map (found S) v) left) as H1.
  destruct (countdown _ (map (found S) v) left) as [[] left'].
  { pose proof (ctrue_bounds (map (λ x, isVBlockingInternal x S) i)). lia. }
  pose proof (countdown_int (map (λ x, isVBlockingInternal x S) i) left') as H2.
  destruct (countdown _ (map _ i) left') as [[] ?]; simpl; lia.
Qed.

(** All the nodes named by a quorum set. *)
Fixpoint qset_nodes (q : SCPQuorumSet) : list NodeID :=
  match q with QSet _ v i => v ++ concat (map qset_nodes i) end.

Lemma qset_nodes_inner t v i q x :
  q ∈ i → x ∈ qset_nodes q → x ∈ qset_nodes (QSet t v i).
Proof.
  intros Hq Hx. simpl. apply elem_of_app. right.
  rewrite list_elem_of_In, in_concat. exists (qset_nodes q).
  rewrite <-!list_elem_of_In. split; [|done]. by apply list_elem_of_fmap_2.
Qed.

Lemma ctrue_map_dual {A} (f g : A → bool) l :
  (∀ x, x ∈ l → f x = negb (g x)) → ctrue (map f l) = Z.of_nat (length l) - ctrue (map g l).
Proof. intros H. rewrite <-ctrue_map_negb. f_equal. by apply map_ext_elem. Qed.

Lemma vblocking_negb_slice (q : SCPQuorumSet) (S S' : list NodeID) :
  well_formed q → (∀ n, n ∈ qset_nodes q → (n ∈ S ↔ n ∉ S')) →
  isVBlocking q S = negb (isQuorumSlice q S').
Proof.
  intros Hwf Hc. rewrite isQuorumSlice_sat by auto with scp.
  induction q as [t v i IH] using qset_nested_ind. inversion Hwf as [? ? ? [Ht Hn] Hi]; subst.
  rewrite isVBlocking_count by done. simpl.
  rewrite (ctrue_map_dual (found S) (found S') v), (ctrue_map_dual _ (λ x, slice_sat x S') i).
  - unfold eff. replace (t =? 0) with false by lia. lia.
  - intros x Hx. rewrite Forall_forall in IH, Hi. apply IH; [done|by apply Hi|].
    intros n Hnx. apply Hc. by eapply qset_nodes_inner.
  - intros x Hx. unfold found. specialize (Hc x ltac:(simpl; set_solver)).
    do 2 case_bool_decide; naive_solver.
Qed.

(** C30: Duality: in a quorum set whose thresholds are in range, a set of nodes is
    v-blocking exactly when the remaining nodes do not contain a slice. *)
Theorem isVBlocking_dual (q : SCPQuorumSet) (S S' : list NodeID) :
  well_formed q → (∀ n, n ∈ qset_nodes q → (n ∈ S ↔ n ∉ S')) →
  isVBlocking q S = negb (isQuorumSlice q S').
Proof. apply vblocking_negb_slice. Qed.

(** A closed quorum set used by the examples below. *)
Definition qset_2of3 : SCPQuorumSet := QSet 2 [[1]; [2]; [3]] [].

Lemma qset_2of3_wf : well_formed qset_2of3.
Proof. constructor; [simpl; widths; lia|constructor]. Qed.

Lemma isVBlocking_dual_witness :
  isVBlocking qset_2of3 [[1]; [2]] = negb (isQuorumSlice qset_2of3 [[3]]).
Proof.
  apply isVBlocking_dual; [apply qset_2of3_wf|].
  intros n. simpl. rewrite !elem_of_cons, elem_of_nil. naive_solver.
Defined.

(** ** Quorums *)

Section quorum.
Context {St : Type} (m : gmap NodeID St) (qfun : St → option SCPQuorumSet).
Hypothesis (Htyped : ∀ st q, qfun st = Some q → typed q).

(** A set of nodes in which every member has, through its latest statement
    satisfying [f], a slice. *)
Definition self_satisfying (f : St → bool) (U : list NodeID) : Prop :=
  ∀ n, n ∈ U → ∃ st q, m !! n = Some st ∧ f st = true ∧ qfun st = Some q ∧
                       isQuorumSlice q U = true.

Lemma elem_of_filter_nodes f n :
  n ∈ filter_nodes m f ↔ ∃ st, m !! n = Some st ∧ f st = true.
Proof.
  unfold filter_nodes. rewrite list_elem_of_fmap. split.
  - intros ([k st] & -> & Hin). apply list_elem_of_filter in Hin as [Hf Hin].
    apply elem_of_map_to_list in Hin. eauto.
  - intros (st & Hst & Hf). exists (n, st). split; [done|].
    apply list_elem_of_filter. split; [done|]. by apply elem_of_map_to_list.
Qed.

(** Each pass removes a node or stops. *)
Lemma isQuorum_loop_ends passes pNodes :
  (length pNodes ≤ passes)%nat → quorum_loop m qfun pNodes (isQuorum_loop m qfun passes pNodes).
Proof.
  revert pNodes. induction passes as [|passes IH]; intros pNodes Hp;
    pose proof (length_filter (λ n, quorumFilter m qfun pNodes n = true) pNodes) as Hl;
    fold (quorumPass m qfun pNodes) in Hl; simpl.
  - apply quorum_loop_stop. lia.
  - case_bool_decide; [by apply quorum_loop_stop|]. apply quorum_loop_again; [done|]. apply IH. lia.
Qed.

Lemma quorum_loop_sound pNodes U f :
  quorum_loop m qfun pNodes U → (∀ n, n ∈ pNodes → ∃ st, m !! n = Some st ∧ f st = true) → self_satisfying f U.
Proof.
  induction 1 as [pNodes Hlen|pNodes U _ _ IH]; intros Hp.
  - set (F := λ n, quorumFilter m qfun pNodes n = true).
    assert (∀ n, n ∈ pNodes → n ∈ filter F pNodes) as Hall.
    { intros n Hn. destruct (decide (F n)) as [|Hno]; [by apply list_elem_of_filter|].
      pose proof (length_filter_lt F pNodes n Hn Hno). unfold quorumPass in Hlen. fold F in Hlen. lia. }
    intros n Hn. pose proof Hn as Hn'. apply list_elem_of_filter in Hn' as [Hq Hin].
    destruct (Hp n Hin) as (st & Hst & Hf). unfold quorumFilter in Hq.
    rewrite Hst in Hq. destruct (qfun st) as [q|] eqn:Eq; [|done].
    exists st, q. split_and!; eauto using isQuorumSlice_mono.
  - apply IH. intros n [_ Hin]%list_elem_of_filter. auto.
Qed.

Lemma quorum_loop_greatest pNodes U V f :
  quorum_loop m qfun pNodes U → self_satisfying f V → (∀ n, n ∈ V → n ∈ pNodes) → ∀ n, n ∈ V → n ∈ U.
Proof.
  intros Hloop HV. assert (∀ pNodes, (∀ n, n ∈ V → n ∈ pNodes) → ∀ n, n ∈ V → n ∈ quorumPass m qfun pNodes) as Hkeep.
  { intros p Hsub n Hn. apply list_elem_of_filter. split; [|auto].
    destruct (HV n Hn) as (st & q & Hst & _ & Hq & Hsl).
    unfold quorumFilter. rewrite Hst, Hq. eapply isQuorumSlice_mono; eauto. }
  induction Hloop as [pNodes Hlen|pNodes U _ _ IH]; intros Hsub; [by apply Hkeep|]. apply IH. by apply Hkeep.
Qed.

Lemma isQuorum_iff (f : St → bool) (qSet : SCPQuorumSet) :
  typed qSet →
  isQuorum qSet m qfun f = true ↔
  ∃ U, self_satisfying f U ∧ isQuorumSlice qSet U = true.
Proof.
  intros Hq. unfold isQuorum. pose proof (isQuorum_loop_ends (length (filter_nodes m f)) (filter_nodes m f)) as Hloop.
  set (U := isQuorum_loop _ _ _ _) in *. specialize (Hloop ltac:(lia)). split.
  - intros Hs. exists U. split; [|done].
    eapply quorum_loop_sound; [exact Hloop|]. apply elem_of_filter_nodes.
  - intros (V & HV & Hs). eapply isQuorumSlice_mono; [done| |exact Hs].
    eapply quorum_loop_greatest; [exact Hloop|exact HV|].
    intros n (st & q & ? & ? & _)%HV. apply elem_of_filter_nodes. eauto.
Qed.

(** A weaker filter keeps a quorum a quorum. *)
Lemma isQuorum_mono (f g : St → bool) (qSet : SCPQuorumSet) :
  typed qSet → (∀ n st, m !! n = Some st → f st = true → g st = true) →
  isQuorum qSet m qfun f = true → isQuorum qSet m qfun g = true.
Proof.
  intros Hq Hfg. rewrite !isQuorum_iff by done. intros (U & HU & Hs). exists U.
  split; [|done]. intros n Hn. destruct (HU n Hn) as (st & q & ? & ? & ? & ?).
  exists st, q. eauto 10.
Qed.
End quorum.

Lemma isVBlocking_mono q S S' :
  well_formed q → (∀ n, n ∈ S → n ∈ S') → isVBlocking q S = true → isVBlocking q S' = true.
Proof.
  intros Hwf HS. induction q as [t v i IH] using qset_nested_ind.
  inversion Hwf as [? ? ? [Ht Hn] Hi]; subst. rewrite !isVBlocking_count by done.
  rewrite !Z.leb_le. intros.
  assert (ctrue (map (found S) v) ≤ ctrue (map (found S') v)).
  { apply ctrue_map_mono. intros x _. unfold found. rewrite !bool_decide_eq_true. auto. }
  assert (ctrue (map (λ x, isVBlocking x S) i) ≤ ctrue (map (λ x, isVBlocking x S') i)); [|lia].
  apply ctrue_map_mono. rewrite Forall_forall in IH, Hi. intros x Hx.
  apply IH; [done|by apply Hi].
Qed.

Lemma isVBlocking_map_mono {St} (m m' : gmap NodeID St) (f g : St → bool) q :
  well_formed q →
  (∀ n st, m !! n = Some st → f st = true → ∃ st', m' !! n = Some st' ∧ g st' = true) →
  isVBlocking_map q m f = true → isVBlocking_map q m' g = true.
Proof.
  intros Hq Hfg. apply isVBlocking_mono; [done|]. intros n.
  rewrite !elem_of_filter_nodes. naive_solver.
Qed.

(** C31: [isQuorum] always comes to an answer, yes or no: its loop, run on the nodes
    whose latest statements pass the filter, ends, and the answer is whether the local
    node has a slice among the nodes that are left.  It is yes exactly when some set
    of nodes whose latest statements pass the filter contains a slice for each of its
    members and for the local node. *)
Theorem isQuorum_spec {St} (m : gmap NodeID St) (qfun : St → option SCPQuorumSet)
    (f : St → bool) (qSet : SCPQuorumSet) :
  typed qSet → (∀ st q, qfun st = Some q → typed q) →
  (∃ U, quorum_loop m qfun (filter_nodes m f) U ∧ isQuorum qSet m qfun f = isQuorumSlice qSet U) ∧
  (isQuorum qSet m qfun f = true ↔
   ∃ U, (∀ n, n ∈ U → ∃ st q, m !! n = Some st ∧ f st = true ∧ qfun st = Some q ∧
                              isQuorumSlice q U = true) ∧
        isQuorumSlice qSet U = true).
Proof.
  intros Hq Ht. split; [|by apply isQuorum_iff]. eexists. split; [by apply isQuorum_loop_ends|done].
Qed.

Lemma isQuorum_spec_witness :
  let m : gmap NodeID bool := <[[1] := true]> (<[[2] := false]> ∅) in
  isQuorum qset_2of3 m (λ _, Some qset_2of3) id = false ∧
  (∃ U, quorum_loop m (λ _, Some qset_2of3) [[1]] U ∧ false = isQuorumSlice qset_2of3 U) ∧
  ¬ ∃ U, (∀ n, n ∈ U → ∃ st q, m !! n = Some st ∧ id st = true ∧ Some qset_2of3 = Some q ∧
                              isQuorumSlice q U = true) ∧
         isQuorumSlice qset_2of3 U = true.
Proof.
  intros m. assert (isQuorum qset_2of3 m (λ _, Some qset_2of3) id = false) as Hno by (vm_compute; reflexivity).
  destruct (isQuorum_spec m (λ _, Some qset_2of3) id qset_2of3) as [(U & HU & E) Hiff].
  - apply well_formed_typed, qset_2of3_wf.
  - intros ? ? [= <-]. apply well_formed_typed, qset_2of3_wf.
  - split; [exact Hno|]. split; [exists U; split; [exact HU|by rewrite <- E]|].
    intros Hex. apply Hiff in Hex. rewrite Hno in Hex. discriminate.
Defined.
