(* ===== verification/QuorumSetProps.v ===== *)
(** * Properties of quorum-set checking, normalisation and blocking sets

    Theorems about the definitions of [QuorumSet]: what the sanity checker
    accepts, that normalisation ([src/scp/QuorumSetUtils.cpp]) keeps the meaning
    of a quorum set, what [findClosestVBlocking] returns and that node weights
    ([src/scp/LocalNode.cpp]) vanish exactly outside the quorum set. *)

From S2P Require Import Prelude Numeric QuorumSet.

(** ** The sanity checker *)

(** Number of nesting levels below the root. *)
Fixpoint qset_depth (q : SCPQuorumSet) : Z :=
  match q with
  | QSet _ _ i => foldr (λ x d, Z.max (1 + qset_depth x) d) 0 i
  end.

(** What one level must satisfy. *)
Definition level_ok (extraChecks : bool) (t n : Z) : Prop :=
  1 ≤ t ≤ n ∧ (extraChecks = true → u64 (n - t + 1) ≤ t).

(** The state after checking a list of nodes. *)
Definition add_nodes (ns : list NodeID) (st : SanityState) : SanityState :=
  mkSanity (list_to_set ns ∪ mKnownNodes st) (mCount st + Z.of_nat (length ns)).

Definition fresh_nodes (ns : list NodeID) (st : SanityState) : Prop :=
  NoDup ns ∧ ∀ x, x ∈ ns → x ∉ mKnownNodes st.

Lemma add_nodes_nil st : add_nodes [] st = st.
Proof. destruct st. unfold add_nodes. simpl. f_equal; [set_solver|lia]. Qed.

Lemma add_nodes_app a b st : add_nodes b (add_nodes a st) = add_nodes (a ++ b) st.
Proof.
  unfold add_nodes. simpl. f_equal; [set_solver|]. rewrite length_app. lia.
Qed.

Lemma fresh_nodes_app a b st :
  fresh_nodes (a ++ b) st ↔ fresh_nodes a st ∧ fresh_nodes b (add_nodes a st).
Proof.
  unfold fresh_nodes, add_nodes. simpl. rewrite NoDup_app. set_solver.
Qed.

Lemma insert_known_spec vs st st' :
  insert_known vs st = inr st' ↔
  fresh_nodes vs st ∧ st' = mkSanity (list_to_set vs ∪ mKnownNodes st) (mCount st).
Proof.
  revert st. induction vs as [|n vs IH]; intros st; simpl.
  { destruct st. unfold fresh_nodes. simpl. split.
    - intros [= <-]. split; [split; [constructor|set_solver]|]. f_equal. set_solver.
    - intros [_ ->]. do 2 f_equal. set_solver. }
  case_bool_decide as Hn.
  { split; [done|]. intros [[_ Hf] _]. set_solver. }
  rewrite IH. simpl. unfold fresh_nodes. rewrite NoDup_cons. simpl. split.
  - intros [[Hnd Hf] ->]. split; [|f_equal; set_solver]. set_solver.
  - intros [[[Hnin Hnd] Hf] ->]. split; [|f_equal; set_solver]. set_solver.
Qed.

Lemma foldr_max_le (l : list SCPQuorumSet) k :
  foldr (λ x d, Z.max (1 + qset_depth x) d) 0 l ≤ k ↔
  0 ≤ k ∧ ∀ x, x ∈ l → 1 + qset_depth x ≤ k.
Proof. induction l as [|y l IH]; simpl; [set_solver|]. rewrite Z.max_lub_iff, IH. set_solver. Qed.

Lemma qset_depth_nonneg q : 0 ≤ qset_depth q.
Proof. destruct q as [t v i]. simpl. destruct (proj1 (foldr_max_le i _) (Z.le_refl _)). lia. Qed.

(** What it takes for [checkSanity] to succeed, and the state it then returns. *)
Definition sanity_post (extra : bool) (q : SCPQuorumSet) (depth : Z)
    (st st' : SanityState) : Prop :=
  depth + qset_depth q ≤ 4 ∧ levels (level_ok extra) q ∧
  fresh_nodes (qset_nodes q) st ∧ st' = add_nodes (qset_nodes q) st.

Lemma check_inner_spec extra depth (l : list SCPQuorumSet) st st' :
  Forall (λ q, ∀ st st', checkSanity extra q (depth + 1) st = inr st' ↔
                         sanity_post extra q (depth + 1) st st') l →
  check_inner (λ q st, checkSanity extra q (depth + 1) st) l st = inr st' ↔
  (∀ x, x ∈ l → 1 + depth + qset_depth x ≤ 4) ∧ Forall (levels (level_ok extra)) l ∧
  fresh_nodes (concat (map qset_nodes l)) st ∧
  st' = add_nodes (concat (map qset_nodes l)) st.
Proof.
  intros Hl. revert st. induction Hl as [|q l Hq Hl IHl]; intros st; simpl.
  { rewrite add_nodes_nil. split; [|by intros (_&_&_&->)].
    intros [= ->]. repeat split; try done; [set_solver|constructor|set_solver]. }
  rewrite Forall_cons, fresh_nodes_app, <-add_nodes_app.
  destruct (checkSanity extra q (depth + 1) st) as [e|st3] eqn:E.
  - split; [done|]. intros (Hd & [? _] & [? _] & _).
    specialize (Hd q ltac:(set_solver)).
    assert (checkSanity extra q (depth + 1) st = inr (add_nodes (qset_nodes q) st)); [|congruence].
    apply Hq. repeat split; try done; [lia|apply H0..].
  - apply Hq in E as (Hd & Hlq & Hfr & ->). rewrite IHl. split.
    + intros (Hds & ? & ? & ->). split; [|done].
      intros x [->|]%elem_of_cons; [lia|auto].
    + intros (Hds & [_ ?] & [_ ?] & ->). split; [|done]. set_solver.
Qed.

Lemma levels_cons P t v i :
  levels P (QSet t v i) ↔
  P t (Z.of_nat (length v) + Z.of_nat (length i)) ∧ Forall (levels P) i.
Proof. split; [by inversion 1|intros []; by constructor]. Qed.

Lemma depth_cons t v i k :
  k + qset_depth (QSet t v i) ≤ 4 ↔ k ≤ 4 ∧ ∀ x, x ∈ i → 1 + k + qset_depth x ≤ 4.
Proof.
  simpl. pose proof (foldr_max_le i (4 - k)) as Hfm. split.
  - intros Hle. destruct (proj1 Hfm ltac:(lia)) as [? Hm]. split; [lia|].
    intros x Hx. specialize (Hm x Hx). lia.
  - intros [? Hm]. enough (foldr (λ x d, Z.max (1 + qset_depth x) d) 0 i ≤ 4 - k) by lia.
    apply Hfm. split; [lia|]. intros x Hx. specialize (Hm x Hx). lia.
Qed.

Lemma checkSanity_spec extra q depth st st' :
  checkSanity extra q depth st = inr st' ↔ sanity_post extra q depth st st'.
Proof.
  revert depth st st'. induction q as [t v i IH] using qset_nested_ind. intros depth st st'.
  unfold sanity_post. rewrite depth_cons, levels_cons. unfold level_ok at 1. simpl.
  unfold MAXIMUM_QUORUM_NESTING_LEVEL.
  destruct (Z.ltb_spec 4 depth); [split; [done|lia]|].
  destruct (Z.ltb_spec t 1); [split; [done|lia]|].
  destruct (Z.ltb_spec (Z.of_nat (length v) + Z.of_nat (length i)) t); [split; [done|lia]|].
  destruct (extra && (t <? _)) eqn:Eex.
  { split; [done|]. apply andb_true_iff in Eex as [-> Hlt%Z.ltb_lt].
    intros (_&[[_ Hu] _]&_). specialize (Hu eq_refl). lia. }
  assert (extra = true → u64 (Z.of_nat (length v) + Z.of_nat (length i) - t + 1) ≤ t) as Hex.
  { intros ->. simpl in Eex. lia. }
  rewrite fresh_nodes_app, <-add_nodes_app.
  destruct (insert_known v _) as [e|st2] eqn:Ein.
  { split; [done|]. intros (_ & _ & [Hfr _] & _).
    assert (insert_known v (mkSanity (mKnownNodes st) (mCount st + Z.of_nat (length v))) =
            inr (add_nodes v st)); [|congruence].
    by apply insert_known_spec. }
  apply insert_known_spec in Ein as [Hfv ->]. simpl in Hfv |- *.
  change (mkSanity _ _) with (add_nodes v st).
  rewrite check_inner_spec by (eapply Forall_impl; [exact IH|]; naive_solver).
  change (fresh_nodes v (mkSanity _ _)) with (fresh_nodes v st) in Hfv.
  clear Eex. naive_solver lia.
Qed.

(** Every level of an accepted set has at most as many entries as there are
    nodes below it. *)
Lemma levels_entries extra q :
  levels (level_ok extra) q →
  levels (λ t n, level_ok extra t n ∧ n ≤ Z.of_nat (length (qset_nodes q))) q ∧
  1 ≤ Z.of_nat (length (qset_nodes q)).
Proof.
  induction q as [t v i IH] using qset_nested_ind. rewrite !levels_cons.
  intros [Hok Hi]. simpl. rewrite length_app.
  assert (Z.of_nat (length i) ≤ Z.of_nat (length (concat (map qset_nodes i))) ∧
    ∀ x, x ∈ i → Z.of_nat (length (qset_nodes x)) ≤ Z.of_nat (length (concat (map qset_nodes i))))
    as [Hsum Hx].
  { clear Hok. induction i as [|q i IHi]; simpl; [split; [lia|set_solver]|].
    apply Forall_cons in IH as [IHq IH], Hi as [Hq Hi].
    destruct (IHi IH Hi) as [? Hx], (IHq Hq) as [_ ?]. rewrite length_app.
    split; [lia|]. intros x [->|Hin]%elem_of_cons; [lia|]. specialize (Hx x Hin). lia. }
  split; [split|].
  - split; [done|lia].
  - rewrite Forall_forall in IH, Hi |- *. intros x Hin.
    eapply levels_impl; [|apply (proj1 (IH x Hin (Hi x Hin)))].
    intros ? ? [??]. split; [done|]. specialize (Hx x Hin). lia.
  - destruct Hok as [? _]. lia.
Qed.

(** What a sane quorum set is. *)
Lemma sane_inv (q : SCPQuorumSet) (extra : bool) :
  isQuorumSetSane q extra = true →
  qset_depth q ≤ 4 ∧
  levels (λ t n, 1 ≤ t ≤ n ∧ n ≤ 1000 ∧ (extra = true → n - t + 1 ≤ t)) q ∧
  NoDup (qset_nodes q) ∧ 1 ≤ Z.of_nat (length (qset_nodes q)) ≤ 1000.
Proof.
  unfold isQuorumSetSane, sanityError. destruct (checkSanity _ _ _ _) as [|st] eqn:E; [done|].
  apply checkSanity_spec in E as (Hd & Hl & [Hnd _] & ->). simpl.
  intros Hc. destruct (_ || _) eqn:Eb in Hc; [done|]. split; [lia|].
  destruct (levels_entries _ _ Hl) as [Hl' _]. split; [|split; [done|lia]].
  eapply levels_impl; [|exact Hl']. intros t n [[? Hu] ?]. split; [done|]. split; [lia|].
  intros He. specialize (Hu He). rewrite u64_id in Hu by (widths; lia). lia.
Qed.

(** C33: [isQuorumSetSane] accepts exactly the quorum sets that are nested at most
    four levels deep, whose thresholds are between one and the number of entries
    (and, with the extra checks, at least the size of a blocking set), and that
    name between 1 and 1000 nodes, none of them twice. *)
Theorem isQuorumSetSane_spec (q : SCPQuorumSet) (extra : bool) :
  isQuorumSetSane q extra = true ↔
  qset_depth q ≤ 4 ∧
  levels (λ t n, 1 ≤ t ≤ n ∧ (extra = true → n - t + 1 ≤ t)) q ∧
  NoDup (qset_nodes q) ∧ 1 ≤ Z.of_nat (length (qset_nodes q)) ≤ 1000.
Proof.
  split.
  - intros (Hd & Hl & Hnd & Hc)%sane_inv. split; [done|]. split; [|by split].
    eapply levels_impl; [|exact Hl]. naive_solver.
  - intros (Hd & Hl & Hnd & Hc). unfold isQuorumSetSane, sanityError.
    assert (checkSanity extra q 0 (mkSanity ∅ 0) = inr (add_nodes (qset_nodes q) (mkSanity ∅ 0))) as ->.
    { apply checkSanity_spec. split; [lia|]. split; [|split; [|done]].
      - eapply levels_impl; [|exact Hl]. intros t n [??]. split; [done|]. intros He.
        unfold u64. rewrite Z.mod_le by lia. auto.
      - split; [done|set_solver]. }
    simpl. by replace (_ || _) with false by lia.
Qed.

(** The witness that the nesting limit is four levels. *)
Definition nested_singleton (k : nat) : SCPQuorumSet :=
  Nat.iter k (λ q, QSet 1 [] [q]) (QSet 1 [[7]] []).

(** The sanity checker accepts four levels of nesting below the root and
    rejects five (the XDR comment announces two). *)
Theorem nesting_limit :
  isQuorumSetSane (nested_singleton 4) false = true ∧
  sanityError (nested_singleton 5) false = Some "Maximum quorum nesting level exceeded"%string.
Proof. split; vm_compute; reflexivity. Qed.

(** ** Normalisation preserves meaning *)

Lemma sort_insert_perm {A} (lt : A → A → bool) x l : sort_insert lt x l ≡ₚ x :: l.
Proof. induction l as [|y l IH]; simpl; [done|]. case_match; [|done]. rewrite IH. constructor. Qed.

Lemma std_sort_perm {A} (lt : A → A → bool) l : std_sort lt l ≡ₚ l.
Proof. induction l as [|x l IH]; simpl; [done|]. by rewrite sort_insert_perm, IH. Qed.

Lemma reorder_sat q S : slice_sat (normalizeQuorumSetReorder q) S = slice_sat q S.
Proof.
  induction q as [t v i IH] using qset_nested_ind. simpl. f_equal. f_equal.
  - apply ctrue_perm. by rewrite std_sort_perm.
  - rewrite (ctrue_perm _ (map (λ x, slice_sat x S) (map normalizeQuorumSetReorder i)))
      by (by rewrite std_sort_perm).
    rewrite map_map. f_equal. apply map_ext_elem. by rewrite <-Forall_forall.
Qed.

Lemma reorder_levels P q : levels P q → levels P (normalizeQuorumSetReorder q).
Proof.
  induction q as [t v i IH] using qset_nested_ind. simpl. rewrite !levels_cons.
  rewrite !std_sort_perm, length_map. intros [? Hi]. split; [done|].
  rewrite Forall_forall in *. intros x (y & -> & Hy)%list_elem_of_fmap. auto.
Qed.

Lemma reorder_nodes q : qset_nodes (normalizeQuorumSetReorder q) ≡ₚ qset_nodes q.
Proof.
  induction q as [t v i IH] using qset_nested_ind. simpl.
  rewrite !std_sort_perm, map_map. f_equiv.
  induction IH as [|q l Hq Hl IHl]; simpl; [done|]. by rewrite Hq, IHl.
Qed.

(** The loop that moves singleton inner sets to the validators. *)
Lemma absorb_spec l v0 i0 :
  let '(v, i) := foldl absorb_singleton (v0, i0) l in
  (∀ S, ctrue (map (found S) v) + ctrue (map (λ x, slice_sat x S) i) =
        ctrue (map (found S) v0) + ctrue (map (λ x, slice_sat x S) i0) +
        ctrue (map (λ x, slice_sat x S) l)) ∧
  Z.of_nat (length v) + Z.of_nat (length i) =
    Z.of_nat (length v0) + Z.of_nat (length i0) + Z.of_nat (length l) ∧
  (∀ x, x ∈ i → x ∈ i0 ∨ x ∈ l) ∧
  v ++ concat (map qset_nodes i) ≡ₚ
    v0 ++ concat (map qset_nodes i0) ++ concat (map qset_nodes l).
Proof.
  revert v0 i0. induction l as [|q l IH]; intros v0 i0; simpl.
  { rewrite app_nil_r. split_and!; [intros; rewrite ctrue_nil|lia|set_solver|done]. lia. }
  assert ((∃ x, q = QSet 1 [x] [] ∧ absorb_singleton (v0, i0) q = (v0 ++ [x], i0)) ∨
          absorb_singleton (v0, i0) q = (v0, i0 ++ [q])) as [(x & -> & E)|E].
  { destruct q as [[|[]|] [|? []] []]; simpl; eauto. }
  - rewrite E. specialize (IH (v0 ++ [x]) i0).
    destruct (foldl _ _ l) as [v i]. destruct IH as (Hc & Hn & Hin & Hp). split_and!.
    + intros S. rewrite Hc, map_app, ctrue_app. cbn [map slice_sat].
      rewrite !ctrue_cons, !ctrue_nil. unfold eff. destruct (found S x); simpl; lia.
    + rewrite Hn, length_app. simpl. lia.
    + set_solver.
    + rewrite Hp. simpl. solve_Permutation.
  - rewrite E. specialize (IH v0 (i0 ++ [q])).
    destruct (foldl _ _ l) as [v i]. destruct IH as (Hc & Hn & Hin & Hp). split_and!.
    + intros S. rewrite Hc, map_app, ctrue_app. simpl. rewrite !ctrue_cons, ctrue_nil. lia.
    + rewrite Hn, length_app. simpl. lia.
    + set_solver.
    + rewrite Hp, map_app, concat_app. simpl. rewrite app_nil_r. solve_Permutation.
Qed.

Lemma collapse_sat t v i S :
  slice_sat match i with
            | [inner] => if (t =? 1) && bool_decide (length v = 0%nat) then inner else QSet t v i
            | _ => QSet t v i
            end S = slice_sat (QSet t v i) S.
Proof.
  destruct i as [|inner []]; try done. destruct (Z.eqb_spec t 1) as [->|]; [|done].
  case_bool_decide as Hv; [|done]. destruct v; [|done]. cbn [andb slice_sat map].
  rewrite ctrue_cons, !ctrue_nil. by destruct (slice_sat inner S).
Qed.

Lemma collapse_levels P t v i :
  levels P (QSet t v i) →
  levels P match i with
           | [inner] => if (t =? 1) && bool_decide (length v = 0%nat) then inner else QSet t v i
           | _ => QSet t v i
           end.
Proof.
  intros Hl. destruct i as [|inner []]; try done. case_match; [|done].
  apply levels_cons in Hl as [_ Hi]. by inversion Hi.
Qed.

Lemma collapse_nodes t v i :
  qset_nodes match i with
             | [inner] => if (t =? 1) && bool_decide (length v = 0%nat) then inner else QSet t v i
             | _ => QSet t v i
             end = qset_nodes (QSet t v i).
Proof.
  destruct i as [|inner []]; try done. destruct ((t =? 1) && _) eqn:E; [|done].
  apply andb_true_iff in E as [_ Hv%bool_decide_eq_true]. destruct v; [|done].
  simpl. by rewrite app_nil_r.
Qed.

Lemma simplify_sat q S : slice_sat (normalizeQSetSimplify q None) S = slice_sat q S.
Proof.
  induction q as [t v i IH] using qset_nested_ind. simpl.
  pose proof (absorb_spec (map (λ q, normalizeQSetSimplify q None) i) v []) as Hab.
  destruct (foldl _ _ _) as [v' i']. destruct Hab as (Hc & _).
  rewrite collapse_sat. simpl. rewrite Hc, map_map. simpl. rewrite ctrue_nil.
  rewrite (map_ext_elem _ (λ x, slice_sat x S)) by (by rewrite <-Forall_forall). f_equal. lia.
Qed.

Lemma simplify_levels P q : levels P q → levels P (normalizeQSetSimplify q None).
Proof.
  induction q as [t v i IH] using qset_nested_ind. simpl. rewrite levels_cons. intros [Ht Hi].
  pose proof (absorb_spec (map (λ q, normalizeQSetSimplify q None) i) v []) as Hab.
  destruct (foldl _ _ _) as [v' i']. destruct Hab as (_ & Hn & Hin & _).
  apply collapse_levels, levels_cons. rewrite length_map in Hn. simpl in Hn.
  split; [by rewrite Hn, Z.add_0_r|].
  apply Forall_forall. intros x Hx. destruct (Hin x Hx) as [[]%not_elem_of_nil|Hx'].
  apply list_elem_of_fmap in Hx' as (y & -> & Hy). rewrite Forall_forall in IH, Hi. auto.
Qed.

Lemma simplify_nodes q : qset_nodes (normalizeQSetSimplify q None) ≡ₚ qset_nodes q.
Proof.
  induction q as [t v i IH] using qset_nested_ind. simpl.
  pose proof (absorb_spec (map (λ q, normalizeQSetSimplify q None) i) v []) as Hab.
  destruct (foldl _ _ _) as [v' i']. destruct Hab as (_ & _ & _ & Hp).
  rewrite collapse_nodes. simpl. rewrite Hp. simpl. rewrite map_map. f_equiv.
  clear Hp. induction IH as [|q l Hq Hl IHl]; simpl; [done|]. by rewrite Hq, IHl.
Qed.

(** C32: Normalising a quorum set (merging singletons, collapsing trivial levels
    and sorting) keeps it well formed, keeps the same nodes and changes neither
    which sets contain a slice nor which sets are v-blocking. *)
Theorem normalizeQSet_preserves (q : SCPQuorumSet) (S : list NodeID) :
  well_formed q →
  well_formed (normalizeQSet q None) ∧
  qset_nodes (normalizeQSet q None) ≡ₚ qset_nodes q ∧
  isQuorumSlice (normalizeQSet q None) S = isQuorumSlice q S ∧
  isVBlocking (normalizeQSet q None) S = isVBlocking q S.
Proof.
  intros Hwf. unfold normalizeQSet.
  assert (well_formed (normalizeQuorumSetReorder (normalizeQSetSimplify q None))) as Hwf'.
  { by apply reorder_levels, simplify_levels. }
  assert (qset_nodes (normalizeQuorumSetReorder (normalizeQSetSimplify q None)) ≡ₚ qset_nodes q) as Hn.
  { by rewrite reorder_nodes, simplify_nodes. }
  assert (∀ S, isQuorumSlice (normalizeQuorumSetReorder (normalizeQSetSimplify q None)) S
               = isQuorumSlice q S) as Hs.
  { intros S'. rewrite !isQuorumSlice_sat by auto with scp. by rewrite reorder_sat, simplify_sat. }
  split_and!; try done.
  set (S' := filter (λ n, n ∉ S) (qset_nodes q)).
  rewrite (vblocking_negb_slice q S S'), (vblocking_negb_slice _ S S'), Hs; try done.
  - intros n. rewrite Hn. unfold S'. rewrite list_elem_of_filter.
    intros. destruct (decide (n ∈ S)); naive_solver.
  - intros n Hnq. unfold S'. rewrite list_elem_of_filter. destruct (decide (n ∈ S)); naive_solver.
Qed.

Lemma normalizeQSet_preserves_witness :
  well_formed (normalizeQSet (QSet 2 [[3]] [QSet 1 [[2]] []; QSet 1 [] [qset_2of3]]) None) ∧
  qset_nodes (normalizeQSet (QSet 2 [[3]] [QSet 1 [[2]] []; QSet 1 [] [qset_2of3]]) None) ≡ₚ
    qset_nodes (QSet 2 [[3]] [QSet 1 [[2]] []; QSet 1 [] [qset_2of3]]) ∧
  isQuorumSlice (normalizeQSet (QSet 2 [[3]] [QSet 1 [[2]] []; QSet 1 [] [qset_2of3]]) None) [[1]; [2]] =
    isQuorumSlice (QSet 2 [[3]] [QSet 1 [[2]] []; QSet 1 [] [qset_2of3]]) [[1]; [2]] ∧
  isVBlocking (normalizeQSet (QSet 2 [[3]] [QSet 1 [[2]] []; QSet 1 [] [qset_2of3]]) None) [[1]; [2]] =
    isVBlocking (QSet 2 [[3]] [QSet 1 [[2]] []; QSet 1 [] [qset_2of3]]) [[1]; [2]].
Proof.
  apply normalizeQSet_preserves.
  repeat first [apply qset_2of3_wf | constructor | progress (simpl; widths) | lia].
Defined.

(** ** Node weights *)

Lemma computeWeight_spec m total t :
  is_u64 m → 1 ≤ t ≤ total → total ≤ INT32_MAX →
  ∃ w, computeWeight m total t = Ok w ∧ 0 ≤ w ≤ m ∧ (w = 0 ↔ m = 0).
Proof.
  intros Hm Ht Hn. unfold computeWeight. rewrite cassert_true by lia. cbn [mbind res_bind].
  rewrite bigDivide_u64_exact by (widths; lia). cbn [mbind res_bind mret res_ret rdiv].
  eexists. split; [done|]. widths. name_ceil (m * t) total as w.
  assert (w ≤ m) by nia. rewrite u64_id by (widths; lia). nia.
Qed.

(** The weight of a node in a well-formed quorum set is computed without
    failing an assertion, is a 64-bit fraction, and is zero exactly for the nodes
    that the quorum set does not name. *)
Theorem getNodeWeight_spec (q : SCPQuorumSet) (node : NodeID) :
  well_formed q →
  ∃ w, getNodeWeight node q = Ok w ∧ is_u64 w ∧ (w = 0 ↔ node ∉ qset_nodes q).
Proof.
  induction q as [t v i IH] using qset_nested_ind. intros [[Ht Hn] Hi]%levels_cons. simpl.
  rewrite Z.add_comm. set (n := Z.of_nat (length v) + Z.of_nat (length i)) in *.
  destruct (existsb _ v) eqn:Ev.
  { apply existsb_exists in Ev as (x & Hx & ->%bool_decide_eq_true).
    destruct (computeWeight_spec UINT64_MAX n t) as (w & -> & ? & ?); [widths; lia..|].
    exists w. split; [done|]. split; [widths; lia|]. apply list_elem_of_In in Hx.
    split; [widths; lia|]. intros []. set_solver. }
  assert (node ∉ v) as Hv.
  { intros Hin. assert (existsb (λ x, bool_decide (x = node)) v = true); [|congruence].
    apply existsb_exists. exists node. rewrite <-list_elem_of_In.
    by rewrite bool_decide_eq_true. }
  clear Ev. setoid_rewrite not_elem_of_app. clearbody n.
  induction i as [|q i IHi]; [exists 0; split; [done|]; widths; set_solver by lia|].
  apply Forall_cons in IH as [Hq IH], Hi as [Hwq Hi].
  destruct (Hq Hwq) as (wq & -> & Hwu & Hw0). cbn [mbind res_bind map concat].
  setoid_rewrite not_elem_of_app. destruct (Z.eqb_spec wq 0) as [E0|E0]; simpl.
  - destruct (IHi IH Hi) as (w & -> & ? & ?). exists w. naive_solver.
  - destruct (computeWeight_spec wq n t) as (w & -> & ? & ?); [done..|].
    exists w. split; [done|]. split; [widths; lia|]. naive_solver lia.
Qed.

Lemma getNodeWeight_spec_witness :
  ∃ w, getNodeWeight [2] qset_2of3 = Ok w ∧ is_u64 w ∧ (w = 0 ↔ [2] ∉ qset_nodes qset_2of3).
Proof. apply getNodeWeight_spec, qset_2of3_wf. Defined.


(** ** Blocking sets *)

Section closest.
Context (nodes : gset NodeID).

Lemma closest_validators_spec vs left acc :
  1 ≤ left ≤ UINT64_MAX →
  let miss := ctrue (map (λ v, bool_decide (v ∉ nodes)) vs) in
  closest_validators nodes None vs left acc =
    if left <=? miss then inl tt
    else inr (left - miss, acc ++ filter (λ v, v ∈ nodes) vs).
Proof.
  revert left acc. induction vs as [|v vs IH]; intros left acc Hl; simpl.
  { rewrite ctrue_nil, app_nil_r, Z.sub_0_r. by replace (left <=? 0) with false by lia. }
  rewrite ctrue_cons, filter_cons.
  pose proof (ctrue_bounds (map (λ v, bool_decide (v ∉ nodes)) vs)).
  destruct (decide (v ∈ nodes)) as [Hin|Hin].
  - rewrite (bool_decide_true (v ∈ nodes)), (bool_decide_false (v ∉ nodes)) by naive_solver.
    rewrite IH by done. rewrite <-app_assoc. by rewrite Z.add_0_l.
  - rewrite (bool_decide_false (v ∈ nodes)), (bool_decide_true (v ∉ nodes)) by done.
    rewrite u64_id by (widths; lia).
    destruct (Z.eqb_spec (left - 1) 0).
    + by replace (left <=? _) with true by lia.
    + rewrite IH by lia. simpl. set (c := ctrue _).
      replace (left <=? 1 + c) with (left - 1 <=? c) by lia.
      case_match; [done|]. do 2 f_equal. lia.
Qed.

Lemma insert_by_size_perm v l : insert_by_size v l ≡ₚ v :: l.
Proof. induction l as [|x l IH]; simpl; [done|]. case_match; [done|]. rewrite IH. constructor. Qed.

Lemma closest_inner_spec rs left acc :
  1 ≤ left ≤ UINT64_MAX →
  let miss := ctrue (map (λ r, bool_decide (r = [])) rs) in
  (left ≤ miss ∧ closest_inner rs left acc = inl tt) ∨
  (miss < left ∧ ∃ acc', closest_inner rs left acc = inr (left - miss, acc') ∧
                         acc' ≡ₚ acc ++ filter (λ r, r ≠ []) rs).
Proof.
  revert left acc. induction rs as [|r rs IH]; intros left acc Hl; simpl.
  { right. rewrite ctrue_nil, app_nil_r, Z.sub_0_r. split; [lia|]. eauto. }
  rewrite ctrue_cons, filter_cons.
  pose proof (ctrue_bounds (map (λ r, bool_decide (r = [])) rs)).
  destruct r as [|x r]; simpl.
  - rewrite u64_id by (widths; lia). destruct (Z.eqb_spec (left - 1) 0); [left; split; [lia|done]|].
    destruct (IH (left - 1) acc ltac:(lia)) as [[? ->]|(? & acc' & -> & Hp)]; [left; split; [lia|done]|].
    right. split; [lia|]. exists acc'. split; [do 2 f_equal; lia|].
    exact Hp.
  - destruct (IH left (insert_by_size (x :: r) acc) Hl) as [[? ->]|(? & acc' & -> & Hp)].
    { left. split; [lia|done]. }
    right. split; [lia|]. exists acc'. split; [do 2 f_equal; lia|].
    rewrite Hp, insert_by_size_perm. solve_Permutation.
Qed.

Lemma take_inner_spec k rs :
  0 ≤ k ≤ UINT64_MAX → take_inner k rs = concat (take (Z.to_nat k) rs).
Proof.
  revert k. induction rs as [|r rs IH]; intros k Hk; simpl.
  { by rewrite take_nil. }
  destruct (Z.eqb_spec k 0) as [->|]; [done|].
  rewrite u64_id by (widths; lia). rewrite IH by lia.
  replace (Z.to_nat k) with (S (Z.to_nat (k - 1))) by lia. done.
Qed.

Lemma found_elements (X : gset NodeID) v : found (elements X) v = bool_decide (v ∈ X).
Proof. unfold found. apply bool_decide_ext. apply elem_of_elements. Qed.

(** Members of a prefix of a permutation of [l] account for as many elements of
    [l]. *)
Lemma ctrue_members {A} `{EqDecision A} (l T rest : list A) :
  l ≡ₚ T ++ rest → Z.of_nat (length T) ≤ ctrue (map (λ x, bool_decide (x ∈ T)) l).
Proof.
  intros Hp. rewrite (ctrue_perm _ (map (λ x, bool_decide (x ∈ T)) (T ++ rest))) by (by rewrite Hp).
  rewrite map_app, ctrue_app. pose proof (ctrue_bounds (map (λ x, bool_decide (x ∈ T)) rest)).
  enough (ctrue (map (λ x, bool_decide (x ∈ T)) T) = Z.of_nat (length T)) by lia.
  rewrite (map_ext_elem _ (λ _, negb false)) by (intros; by rewrite bool_decide_true).
  rewrite ctrue_map_negb. clear. induction T; simpl; rewrite ?ctrue_cons, ?ctrue_nil; lia.
Qed.
End closest.

Definition blocks (nodes : gset NodeID) (q : SCPQuorumSet) (R : list NodeID) : Prop :=
  (∀ x, x ∈ R → x ∈ nodes) ∧
  slice_sat q (elements (nodes ∖ list_to_set R)) = false ∧
  (R = [] ↔ slice_sat q (elements nodes) = false).

(** A slice fails when more entries are missing than it tolerates. *)
Lemma slice_missing (t : Z) (v : list NodeID) (i : list SCPQuorumSet) (X : gset NodeID) :
  1 ≤ t →
  slice_sat (QSet t v i) (elements X) = false ↔
  1 + Z.of_nat (length v) + Z.of_nat (length i) - t ≤
    ctrue (map (λ x, bool_decide (x ∉ X)) v) +
    ctrue (map (λ x, negb (slice_sat x (elements X))) i).
Proof.
  intros Ht. simpl. rewrite ctrue_map_negb.
  rewrite (ctrue_map_dual (λ x, bool_decide (x ∉ X)) (found (elements X)) v).
  - unfold eff. replace (t =? 0) with false by lia. lia.
  - intros x _. rewrite found_elements. do 2 case_bool_decide; naive_solver.
Qed.

Lemma missing_validators (nodes X : gset NodeID) (vs T rest : list NodeID) :
  filter (λ v, v ∈ nodes) vs = T ++ rest → (∀ x, x ∈ T → x ∉ X) → X ⊆ nodes →
  ctrue (map (λ v, bool_decide (v ∉ nodes)) vs) + Z.of_nat (length T) ≤
  ctrue (map (λ v, bool_decide (v ∉ X)) vs).
Proof.
  intros Hf HT HX.
  assert (Z.of_nat (length T) ≤ ctrue (map (λ x, bool_decide (x ∈ T)) (filter (λ v, v ∈ nodes) vs)))
    by (apply (ctrue_members _ T rest); by rewrite Hf).
  enough (ctrue (map (λ v, bool_decide (v ∉ nodes)) vs) +
          ctrue (map (λ x, bool_decide (x ∈ T)) (filter (λ v, v ∈ nodes) vs)) ≤
          ctrue (map (λ v, bool_decide (v ∉ X)) vs)) by lia.
  clear Hf H. induction vs as [|v vs IH]; simpl; [done|]. rewrite filter_cons, !ctrue_cons.
  destruct (decide (v ∈ nodes)); simpl; rewrite ?ctrue_cons; repeat case_bool_decide;
    set_solver by lia.
Qed.

Lemma missing_inner (nodes : gset NodeID) (R : list NodeID) (i : list SCPQuorumSet)
    (g : SCPQuorumSet → list NodeID) (T rest : list (list NodeID)) :
  Forall (λ q, blocks nodes q (g q)) i →
  filter (λ r, r ≠ []) (map g i) ≡ₚ T ++ rest →
  (∀ r x, r ∈ T → x ∈ r → x ∈ R) →
  ctrue (map (λ r, bool_decide (r = [])) (map g i)) + Z.of_nat (length T) ≤
  ctrue (map (λ x, negb (slice_sat x (elements (nodes ∖ list_to_set R)))) i).
Proof.
  intros Hg Hp HT.
  pose proof (ctrue_members _ T rest Hp).
  enough (ctrue (map (λ r, bool_decide (r = [])) (map g i)) +
          ctrue (map (λ x, bool_decide (x ∈ T)) (filter (λ r, r ≠ []) (map g i))) ≤
          ctrue (map (λ x, negb (slice_sat x (elements (nodes ∖ list_to_set R)))) i)) by lia.
  clear Hp H. induction Hg as [|q i Hq Hi IH]; simpl; [done|]. rewrite filter_cons, !ctrue_cons.
  destruct Hq as (_ & Hblk & Hnil).
  assert (g q = [] ∨ g q ∈ T → slice_sat q (elements (nodes ∖ list_to_set R)) = false) as Hqf.
  { intros Hor. apply not_true_is_false. intros Hs.
    destruct Hor as [E|Hin].
    - apply Hnil in E. eapply slice_sat_mono in Hs; [rewrite E in Hs; done|]. set_solver.
    - eapply slice_sat_mono in Hs; [rewrite Hblk in Hs; done|].
      intros n. rewrite !elem_of_elements. set_solver. }
  destruct (decide (g q = [])) as [E|E].
  - rewrite decide_False, bool_decide_true, Hqf by naive_solver. simpl. lia.
  - rewrite decide_True, bool_decide_false by done. simpl. rewrite ctrue_cons.
    case_bool_decide; [rewrite Hqf by auto; simpl; lia|]. destruct (negb _); lia.
Qed.

Lemma length_filter_ctrue {A} (P : A → Prop) `{∀ x, Decision (P x)} (l : list A) :
  Z.of_nat (length (filter P l)) =
  Z.of_nat (length l) - ctrue (map (λ x, bool_decide (¬ P x)) l).
Proof.
  induction l as [|x l IH]; simpl; [done|]. rewrite filter_cons, ctrue_cons.
  destruct (decide (P x)); simpl.
  - rewrite bool_decide_false by naive_solver. lia.
  - rewrite bool_decide_true by done. lia.
Qed.

(** The entries taken by the last steps of the search block the slice. *)
Lemma blocks_taken (nodes : gset NodeID) t v (i : list SCPQuorumSet) g acc left' :
  let left := 1 + Z.of_nat (length v) + Z.of_nat (length i) - t in
  let missV := ctrue (map (λ x, bool_decide (x ∉ nodes)) v) in
  let missI := ctrue (map (λ r, bool_decide (r = [])) (map g i)) in
  let saved := filter (λ x, x ∈ nodes) v in
  let T := take (Z.to_nat left') saved in
  let TI := take (Z.to_nat (left' - Z.of_nat (length T))) acc in
  1 ≤ t → left' = left - missV - missI → 1 ≤ left' →
  Forall (λ q, blocks nodes q (g q)) i → acc ≡ₚ filter (λ r, r ≠ []) (map g i) →
  (∀ x, x ∈ T ++ concat TI → x ∈ nodes) ∧
  slice_sat (QSet t v i) (elements (nodes ∖ list_to_set (T ++ concat TI))) = false ∧
  T ++ concat TI ≠ [].
Proof.
  intros left missV missI saved T TI Ht Hl' Hpos Hblk Hacc.
  assert (Z.of_nat (length saved) = Z.of_nat (length v) - missV) as Hsaved
    by (apply length_filter_ctrue).
  assert (Z.of_nat (length acc) = Z.of_nat (length i) - missI) as Hlacc.
  { rewrite Hacc. rewrite length_filter_ctrue, length_map. unfold missI. do 2 f_equal.
    apply map_ext. intros x. apply bool_decide_ext. destruct x; naive_solver. }
  assert (Z.of_nat (length T) + Z.of_nat (length TI) = left') as Hcount.
  { unfold TI, T. rewrite !length_take. lia. }
  assert (∀ r, r ∈ TI → r ≠ [] ∧ ∀ x, x ∈ r → x ∈ nodes) as HTI.
  { intros r Hr. assert (r ∈ acc) as Hra by (apply elem_of_take in Hr as (?&?%list_elem_of_lookup_2&?); done).
    rewrite Hacc in Hra. apply list_elem_of_filter in Hra as [Hne (q & -> & Hq)%list_elem_of_fmap].
    rewrite Forall_forall in Hblk. destruct (Hblk q Hq) as [Hsub _]. auto. }
  split; [|split].
  - intros x [Hx|Hx]%elem_of_app.
    + apply elem_of_take in Hx as (k & Hk%list_elem_of_lookup_2 & _).
      by apply list_elem_of_filter in Hk as [].
    + apply list_elem_of_In, in_concat in Hx as (r & Hr & Hx).
      apply list_elem_of_In in Hr, Hx. by apply (HTI r).
  - apply slice_missing; [done|].
    assert (∀ x, x ∈ T → x ∉ nodes ∖ list_to_set (T ++ concat TI)) as HT by set_solver.
    assert (∀ r x, r ∈ TI → x ∈ r → x ∈ T ++ concat TI) as HR.
    { intros r x Hr Hx. apply elem_of_app. right. apply list_elem_of_In, in_concat.
      exists r. by rewrite <-!list_elem_of_In. }
    pose proof (missing_validators nodes (nodes ∖ list_to_set (T ++ concat TI)) v T
      (drop (Z.to_nat left') saved) ltac:(unfold T; by rewrite take_drop) HT ltac:(set_solver)).
    pose proof (missing_inner nodes (T ++ concat TI) i g TI
      (drop (Z.to_nat (left' - Z.of_nat (length T))) acc) Hblk
      ltac:(unfold TI; by rewrite take_drop) HR).
    lia.
  - intros [HT HTI0]%app_eq_nil. rewrite HT in Hcount. simpl in Hcount.
    destruct TI as [|r TI']; [simpl in Hcount; lia|].
    destruct (HTI r ltac:(set_solver)) as [Hne _]. simpl in HTI0.
    by apply app_eq_nil in HTI0 as [].
Qed.

Lemma findClosestVBlocking_blocks_sat (nodes : gset NodeID) q :
  well_formed q → blocks nodes q (findClosestVBlocking q nodes None).
Proof.
  induction q as [t v i IH] using qset_nested_ind. intros [[Ht Hn] Hi]%levels_cons.
  assert (Forall (λ q, blocks nodes q (findClosestVBlocking q nodes None)) i) as Hblk.
  { rewrite Forall_forall in IH, Hi |- *. intros x Hx. apply IH; [done|by apply Hi]. }
  clear IH. set (g := λ q, findClosestVBlocking q nodes None) in *.
  assert (ctrue (map (λ r, bool_decide (r = [])) (map g i)) =
          ctrue (map (λ x, negb (slice_sat x (elements nodes))) i)) as HmissI.
  { rewrite map_map. f_equal. apply map_ext_elem. intros x Hx.
    rewrite Forall_forall in Hblk. destruct (Hblk x Hx) as (_ & _ & Hnil).
    case_bool_decide as E; [apply Hnil in E; by rewrite E|].
    destruct (slice_sat x _); [done|naive_solver]. }
  pose proof (slice_missing t v i nodes ltac:(lia)) as Hmiss. rewrite <-HmissI in Hmiss.
  assert (slice_sat (QSet t v i) (elements nodes) = false → blocks nodes (QSet t v i) []) as Hnil.
  { intros Hf. unfold blocks. simpl list_to_set.
    rewrite difference_empty_L. split; [set_solver|naive_solver]. }
  simpl findClosestVBlocking. fold g. rewrite u64_id by (widths; lia).
  rewrite closest_validators_spec by (widths; lia).
  set (missV := ctrue (map (λ v, bool_decide (v ∉ nodes)) v)) in *.
  set (missI := ctrue (map (λ r, bool_decide (r = [])) (map g i))) in *.
  pose proof (ctrue_bounds (map (λ v, bool_decide (v ∉ nodes)) v)).
  pose proof (ctrue_bounds (map (λ r, bool_decide (r = [])) (map g i))).
  destruct (Z.leb_spec (1 + Z.of_nat (length v) + Z.of_nat (length i) - t) missV) as [Hle|Hlt].
  { apply Hnil, Hmiss. lia. }
  destruct (closest_inner_spec (map g i)
    (1 + Z.of_nat (length v) + Z.of_nat (length i) - t - missV) []) as [[Hle ->]|(Hlt' & acc & -> & Hacc)];
    [widths; lia| |].
  { apply Hnil, Hmiss. lia. }
  fold missI. rewrite app_nil_l in *.
  set (left' := _ - missV - missI).
  assert ((if left' <? Z.of_nat (length (filter (λ v, v ∈ nodes) v))
           then take (Z.to_nat left') (filter (λ v, v ∈ nodes) v)
           else filter (λ v, v ∈ nodes) v) = take (Z.to_nat left') (filter (λ v, v ∈ nodes) v)) as ->.
  { destruct (Z.ltb_spec left' (Z.of_nat (length (filter (λ v, v ∈ nodes) v)))); [done|].
    rewrite take_ge; [done|lia]. }
  pose proof (length_take (filter (λ v, v ∈ nodes) v) (Z.to_nat left')).
  rewrite u64_id by (widths; lia). rewrite take_inner_spec by (widths; lia).
  destruct (blocks_taken nodes t v i g acc left') as (? & ? & ?); try done; try lia.
  split; [done|]. split; [done|]. split; [done|]. intros Hf%Hmiss. lia.
Qed.

(** [findClosestVBlocking] (without an excluded node) returns nodes of the
    given set whose removal leaves no slice, and returns none exactly when there
    is no slice to begin with. *)
Theorem findClosestVBlocking_blocks (q : SCPQuorumSet) (nodes : gset NodeID) :
  well_formed q →
  (∀ x, x ∈ findClosestVBlocking q nodes None → x ∈ nodes) ∧
  isQuorumSlice q (elements (nodes ∖ list_to_set (findClosestVBlocking q nodes None))) = false ∧
  (findClosestVBlocking q nodes None = [] ↔ isQuorumSlice q (elements nodes) = false).
Proof.
  intros Hwf. rewrite !isQuorumSlice_sat by auto with scp.
  by apply findClosestVBlocking_blocks_sat.
Qed.

Lemma findClosestVBlocking_blocks_witness :
  (∀ x, x ∈ findClosestVBlocking qset_2of3 {[ [1]; [2] ]} None → x ∈ ({[ [1]; [2] ]} : gset NodeID)) ∧
  isQuorumSlice qset_2of3 (elements (({[ [1]; [2] ]} : gset NodeID) ∖
    list_to_set (findClosestVBlocking qset_2of3 {[ [1]; [2] ]} None))) = false ∧
  (findClosestVBlocking qset_2of3 {[ [1]; [2] ]} None = [] ↔
   isQuorumSlice qset_2of3 (elements ({[ [1]; [2] ]} : gset NodeID)) = false).
Proof. apply findClosestVBlocking_blocks, qset_2of3_wf. Defined.
