(* ===== verification/QuorumTracker.v ===== *)
(** * The transitive quorum

    Models [herder/QuorumTracker.cpp]: the nodes that the local node depends on,
    directly or through others, with their quorum sets, their distances and the
    validators of the local quorum set they are closest to. *)

From S2P Require Import Prelude StateMonad QuorumSet.

(** A shared pointer to a quorum set: pointers are compared by address. *)
Record QSetPtr : Type := mkQSetPtr { ptr_addr : Z; ptr_qset : SCPQuorumSet }.

Definition SCPQuorumSetPtr : Type := option QSetPtr.

Record NodeInfo : Type := mkNodeInfo {
  mQuorumSet : SCPQuorumSetPtr;
  mDistance : Z;
  mClosestValidators : gset NodeID
}.

Notation QuorumMap := (gmap NodeID NodeInfo).

(** [LocalNode::forAllNodes] with a function that changes the state. *)
Fixpoint forAllM {S A} (proc : A → M S bool) (l : list A) : M S bool :=
  match l with
  | [] => mret true
  | x :: l' => ok ← proc x; if (ok : bool) then forAllM proc l' else mret false
  end.

Fixpoint forAllNodesM {S} (qset : SCPQuorumSet) (proc : NodeID → M S bool) : M S bool :=
  match qset with
  | QSet _ validators innerSets =>
      ok ← forAllM proc validators;
      if (ok : bool) then forAllM (λ q, forAllNodesM q proc) innerSets else mret false
  end.

Definition isNodeDefinitelyInQuorum (m : QuorumMap) (id : NodeID) : bool :=
  bool_decide (is_Some (m !! id)).

(** What [expand] does with each node of the quorum set. *)
Definition expandNode (newDist : Z) (closest : gset NodeID) (qNode : NodeID) : M QuorumMap bool :=
  info ← gets (λ m, m !! qNode);
  let add (i : NodeInfo) : M QuorumMap bool :=
    modify (<[qNode := mkNodeInfo (mQuorumSet i) (mDistance i)
                         (mClosestValidators i ∪ (if newDist =? 1 then {[qNode]} else closest))]>);;
    mret true in
  match info with
  | None => add (mkNodeInfo None newDist ∅)
  | Some i =>
      if mDistance i <? newDist then mret true
      else if mQuorumSet i is Some _ then mret false
      else if newDist <? mDistance i then add (mkNodeInfo None newDist ∅)
      else add i
  end.

Definition expand (id : NodeID) (qSet : SCPQuorumSetPtr) : M QuorumMap bool :=
  match qSet with
  | None => throw (RuntimeError "qSet")
  | Some q =>
      info ← gets (λ m, m !! id);
      match info with
      | None => mret false
      | Some nodeInfo =>
          match mQuorumSet nodeInfo with
          | Some p => mret (ptr_addr p =? ptr_addr q)
          | None =>
              modify (<[id := mkNodeInfo qSet (mDistance nodeInfo) (mClosestValidators nodeInfo)]>);;
              forAllNodesM (ptr_qset q) (expandNode (mDistance nodeInfo + 1) (mClosestValidators nodeInfo))
          end
      end
  end.

(** The nodes of a quorum set, in the order in which they join the backlog. *)
Fixpoint backlogOf (qset : SCPQuorumSet) : list NodeID :=
  match qset with QSet _ validators innerSets => validators ++ concat (map backlogOf innerSets) end.

Section rebuild.
Context (mLocalNodeID : NodeID) (lookup : NodeID → SCPQuorumSetPtr).

(** The loop over the backlog. *)
Fixpoint rebuildLoop (fuel : nat) (backlog : list NodeID) : M QuorumMap unit :=
  match backlog with
  | [] => mret tt
  | node :: backlog' =>
      match fuel with
      | O => throw OutOfFuel
      | S fuel' =>
          it ← gets (λ m, m !! node);
          match it with
          | None => throw (RuntimeError "node not in quorum map")
          | Some info =>
              match mQuorumSet info, lookup node with
              | None, Some q =>
                  success ← expand node (Some q);
                  if (success : bool) then rebuildLoop fuel' (backlog' ++ backlogOf (ptr_qset q))
                  else throw (RuntimeError "expand failed")
              | _, _ => rebuildLoop fuel' backlog'
              end
          end
      end
  end.

Definition rebuild (fuel : nat) : M QuorumMap unit :=
  modify (λ _, {[mLocalNodeID := mkNodeInfo None 0 ∅]});;
  rebuildLoop fuel [mLocalNodeID].
End rebuild.

Definition findClosestValidators (m : QuorumMap) (nodeOutsideQset : NodeID) : res (gset NodeID) :=
  match m !! nodeOutsideQset with
  | Some info => mret (mClosestValidators info)
  | None => Throw (RuntimeError "isNodeDefinitelyInQuorum(nodeOutsideQset)")
  end.
