(* ===== verification/QuorumTrackerProps.v ===== *)
(** * The transitive quorum is the nodes within reach

    Rebuilding the transitive quorum never fails: it visits nodes in the order of
    their distance, so that the update of a node that was expanded is never asked
    for.  The result holds exactly the nodes within reach, with the lengths of the
    shortest paths to them and the direct validators on such paths. *)

From S2P Require Import Prelude StateMonad QuorumSet QuorumTracker.
Open Scope Z_scope.

(** ** The loop over the nodes of a quorum set *)

Lemma forAllM_app {S A} (proc : A → M S bool) l l' s :
  forAllM proc (l ++ l') s = (ok ← forAllM proc l; if (ok : bool) then forAllM proc l' else mret false) s.
Proof.
  revert s. induction l as [|x l IH]; intros s; [done|]. cbn [forAllM app]. unfold mbind, M_bind in *.
  destruct (proc x s) as [[[] s']|e]; [apply IH|done|done].
Qed.

Lemma forAllNodesM_run {S} (q : SCPQuorumSet) (proc : NodeID → M S bool) s :
  forAllNodesM q proc s = forAllM proc (backlogOf q) s.
Proof.
  revert s. induction q as [t v i IH] using qset_nested_ind. intros s. cbn [forAllNodesM backlogOf].
  rewrite forAllM_app. unfold mbind, M_bind. destruct (forAllM proc v s) as [[[] s']|e]; [|done|done].
  clear s. revert s'. induction IH as [|q l Hq _ IHl]; intros s; [done|]. cbn [forAllM map concat]. rewrite forAllM_app.
  unfold mbind, M_bind. rewrite Hq. destruct (forAllM proc (backlogOf q) s) as [[[] s']|e]; [apply IHl|done|done].
Qed.

Lemma sum_list_with_split {A} `{EqDecision A} (f f' : A → nat) l x :
  NoDup l → x ∈ l → f' x = 0%nat → (∀ y, y ≠ x → f' y = f y) → sum_list_with f l = (f x + sum_list_with f' l)%nat.
Proof.
  intros Hl Hx H0 Hf. induction Hl as [|y l Hy Hl IH]; [by apply not_elem_of_nil in Hx|]. cbn.
  apply elem_of_cons in Hx as [->|Hx].
  - rewrite H0. cbn. f_equal. clear -Hy Hf. induction l as [|z l IH]; [done|]. cbn. rewrite Hf by set_solver.
    rewrite IH; [done|set_solver].
  - rewrite IH by done. rewrite (Hf y) by (by intros ->). lia.
Qed.

Section tracker.
Context (mLocalNodeID : NodeID) (lookup : NodeID → SCPQuorumSetPtr).
Implicit Types (m : QuorumMap) (a b c v x : NodeID) (i j : NodeInfo) (l : list NodeID).

(** ** Paths *)

Definition depends a b : Prop := ∃ q, lookup a = Some q ∧ b ∈ backlogOf (ptr_qset q).

Inductive path : nat → NodeID → NodeID → Prop :=
| path_refl a : path 0 a a
| path_step n a b c : path n a b → depends b c → path (S n) a c.

Lemma path_cons n a b c : depends a b → path n b c → path (S n) a c.
Proof. intros Hab. induction 1; econstructor; eauto using path. Qed.

Definition isExpanded i : Prop := mQuorumSet i ≠ None.

(** ** The invariant of the loop

    The backlog is in two parts, the nodes at distance [d] and those at distance
    [d + 1]; either part may name closer nodes again. *)
Record tracks m (d : Z) l l' : Prop := {
  tr_local : ∃ i, m !! mLocalNodeID = Some i ∧ mDistance i = 0 ∧ mClosestValidators i = ∅;
  tr_path a i : m !! a = Some i → ∃ n, mDistance i = Z.of_nat n ∧ path n mLocalNodeID a;
  tr_qset a i : m !! a = Some i → isExpanded i → mQuorumSet i = lookup a ∧ mDistance i ≤ d;
  tr_edge a i b : m !! a = Some i → isExpanded i → depends a b → ∃ j, m !! b = Some j ∧ mDistance j ≤ mDistance i + 1;
  tr_leaf a i : m !! a = Some i → ¬ isExpanded i → lookup a ≠ None → (mDistance i = d ∧ a ∈ l) ∨ (mDistance i = d + 1 ∧ a ∈ l');
  tr_far a i : m !! a = Some i → mDistance i ≤ d + 1;
  tr_first a : a ∈ l → ∃ i, m !! a = Some i ∧ mDistance i ≤ d;
  tr_second a : a ∈ l' → is_Some (m !! a);
  tr_closest b j : m !! b = Some j → ∀ v, v ∈ mClosestValidators j ↔
    ∃ a i, m !! a = Some i ∧ isExpanded i ∧ depends a b ∧ mDistance j = mDistance i + 1 ∧
           (if decide (mDistance j = 1) then v = b else v ∈ mClosestValidators i)
}.

(** The first part is done. *)
Lemma tracks_next m d l' : tracks m d [] l' → tracks m (d + 1) l' [].
Proof.
  intros Ht. split; try apply Ht.
  - intros a i Ha He. destruct (tr_qset _ _ _ _ Ht a i Ha He). split; [done|lia].
  - intros a i Ha He Hl. destruct (tr_leaf _ _ _ _ Ht a i Ha He Hl) as [[_ ?%not_elem_of_nil]|[? ?]]; [done|]. by left.
  - intros a i Ha. pose proof (tr_far _ _ _ _ Ht a i Ha). lia.
  - intros a [i Hi]%(tr_second _ _ _ _ Ht). exists i. split; [done|]. by apply (tr_far _ _ _ _ Ht a).
  - by intros a ?%not_elem_of_nil.
Qed.

(** A node that needs no expansion leaves the backlog. *)
Lemma tracks_skip m d x l l' i :
  tracks m d (x :: l) l' → m !! x = Some i → isExpanded i ∨ lookup x = None → tracks m d l l'.
Proof.
  intros Ht Hx Hskip. split; try apply Ht.
  - intros a ia Ha He Hl. destruct (tr_leaf _ _ _ _ Ht a ia Ha He Hl) as [[? [->|?]%elem_of_cons]|?]; [naive_solver|by left|by right].
  - intros a Ha. apply (tr_first _ _ _ _ Ht). by right.
Qed.

(** ** Expanding a node *)

Section expansion.
Context (d : Z) (C : gset NodeID).

Definition closer b : gset NodeID := if d + 1 =? 1 then {[b]} else C.

(** What becomes of a node that the quorum set names. *)
Definition grow b (o : option NodeInfo) : NodeInfo :=
  match o with
  | None => mkNodeInfo None (d + 1) (∅ ∪ closer b)
  | Some j => if mDistance j <? d + 1 then j else mkNodeInfo (mQuorumSet j) (mDistance j) (mClosestValidators j ∪ closer b)
  end.

Lemma grow_grow b o : grow b (Some (grow b o)) = grow b o.
Proof.
  destruct o as [j|]; cbn.
  - destruct (mDistance j <? d + 1) eqn:E; cbn; rewrite E; [done|]. f_equal. set_solver.
  - rewrite Z.ltb_irrefl. f_equal. set_solver.
Qed.

(** The nodes met so far are not farther than those to be added, which are leaves. *)
Definition near m : Prop :=
  ∀ b j, m !! b = Some j → mDistance j ≤ d + 1 ∧ (mDistance j = d + 1 → mQuorumSet j = None).

Lemma grow_near m b : near m → near (<[b := grow b (m !! b)]> m).
Proof.
  intros Hm c j. rewrite lookup_insert. case_decide; [subst c; intros [= <-]|apply Hm].
  destruct (m !! b) as [i|] eqn:E; cbn; [|by split]. pose proof (Hm b i E). by destruct (mDistance i <? d + 1).
Qed.

Lemma expandNode_run m b : near m → expandNode (d + 1) C b m = Ok (true, <[b := grow b (m !! b)]> m).
Proof.
  intros Hm. unfold expandNode. rewrite (bind_run _ _ _ (m !! b) m) by done. destruct (m !! b) as [j|] eqn:E; [|done].
  destruct (Hm b j E) as [Hle Hleaf]. cbn [grow]. destruct (Z.ltb_spec (mDistance j) (d + 1)).
  - by rewrite insert_id.
  - rewrite Hleaf by lia. destruct (Z.ltb_spec (d + 1) (mDistance j)); [lia|]. done.
Qed.

Lemma expandLoop_run L m :
  near m → ∃ m', forAllM (expandNode (d + 1) C) L m = Ok (true, m') ∧
                 ∀ b, m' !! b = if decide (b ∈ L) then Some (grow b (m !! b)) else m !! b.
Proof.
  revert m. induction L as [|x L IH]; intros m Hm; cbn [forAllM].
  { exists m. split; [done|]. intros b. rewrite decide_False; [done|apply not_elem_of_nil]. }
  rewrite (bind_run _ _ _ true _ (expandNode_run m x Hm)). destruct (IH _ (grow_near m x Hm)) as (m' & -> & Hm').
  exists m'. split; [done|]. intros b. rewrite Hm', lookup_insert. destruct (decide (x = b)) as [->|Hne].
  - rewrite (decide_True (P := b ∈ b :: L)) by left. case_decide; [by rewrite grow_grow|done].
  - destruct (decide (b ∈ L)); [rewrite decide_True by (by right)|rewrite decide_False by set_solver]; done.
Qed.
End expansion.

(** The state after a node has been expanded. *)
Definition expansion m d x i (q : QSetPtr) m' : Prop :=
  ∀ b, m' !! b =
    let o := <[x := mkNodeInfo (Some q) (mDistance i) (mClosestValidators i)]> m !! b in
    if decide (b ∈ backlogOf (ptr_qset q)) then Some (grow d (mClosestValidators i) b o) else o.

Lemma expand_run m d x l l' i q :
  tracks m d (x :: l) l' → m !! x = Some i → ¬ isExpanded i → lookup x = Some q →
  mDistance i = d ∧ ∃ m', expand x (Some q) m = Ok (true, m') ∧ expansion m d x i q m'.
Proof.
  intros Ht Hx Hn Hq. assert (mDistance i = d) as Hd.
  { destruct (tr_first _ _ _ _ Ht x) as (? & ? & ?); [left|]. simplify_eq.
    destruct (tr_leaf _ _ _ _ Ht x i Hx Hn) as [[? _]|[? _]]; [congruence|done|lia]. }
  split; [done|]. unfold expand. rewrite (bind_run _ _ _ (m !! x) m) by done. rewrite Hx.
  assert (mQuorumSet i = None) as -> by (by destruct (mQuorumSet i) eqn:E; [destruct Hn; unfold isExpanded; rewrite E|]).
  set (m1 := <[x := mkNodeInfo (Some q) (mDistance i) (mClosestValidators i)]> m).
  rewrite (bind_run _ _ _ tt m1) by done. rewrite forAllNodesM_run, Hd.
  destruct (expandLoop_run d (mClosestValidators i) (backlogOf (ptr_qset q)) m1) as (m' & Hrun & Hm').
  { intros b j. unfold m1. rewrite lookup_insert. case_decide; [intros [= <-]; cbn; lia|]. intros Hb.
    split; [by apply (tr_far _ _ _ _ Ht b)|]. intros Hj. destruct (mQuorumSet j) eqn:E; [|done].
    destruct (tr_qset _ _ _ _ Ht b j Hb) as [_ ?]; [unfold isExpanded; by rewrite E|lia]. }
  exists m'. split; [exact Hrun|exact Hm'].
Qed.

Section expanded.
Context (m m' : QuorumMap) (d : Z) (x : NodeID) (l l' : list NodeID) (i : NodeInfo) (q : QSetPtr).
Hypothesis (Ht : tracks m d (x :: l) l') (Hx : m !! x = Some i) (Hn : ¬ isExpanded i) (Hq : lookup x = Some q).
Hypothesis (Hd : mDistance i = d) (Hm' : expansion m d x i q m').

Local Notation xi := (mkNodeInfo (Some q) d (mClosestValidators i)).
Local Notation L := (backlogOf (ptr_qset q)).

Lemma expansion_x : m' !! x = Some xi.
Proof.
  rewrite (Hm' x). rewrite lookup_insert_eq, Hd. case_decide; [|done]. cbn. by destruct (Z.ltb_spec d (d + 1)); [|lia].
Qed.

(** A node that was there keeps its distance and whether it has been expanded. *)
Lemma expansion_old b j :
  m !! b = Some j → b ≠ x →
  ∃ j', m' !! b = Some j' ∧ mDistance j' = mDistance j ∧ mQuorumSet j' = mQuorumSet j ∧ (mDistance j ≤ d → j' = j) ∧
        ∀ v, v ∈ mClosestValidators j' ↔ v ∈ mClosestValidators j ∨ b ∈ L ∧ mDistance j = d + 1 ∧ v ∈ closer d (mClosestValidators i) b.
Proof.
  intros Hb Hne. rewrite (Hm' b), lookup_insert_ne by done. rewrite Hb. pose proof (tr_far _ _ _ _ Ht b j Hb).
  case_decide as HL; [|exists j; naive_solver]. cbn [grow]. destruct (Z.ltb_spec (mDistance j) (d + 1)).
  - exists j. split; [done|]. split; [done|]. split; [done|]. split; [done|]. intros v. split; [by left|]. intros [?|?]; [done|lia].
  - eexists. split; [done|]. cbn. split; [done|]. split; [done|]. split; [lia|]. intros v. rewrite elem_of_union.
    assert (mDistance j = d + 1) by lia. naive_solver.
Qed.

Lemma expansion_new b :
  m !! b = None → m' !! b = if decide (b ∈ L) then Some (mkNodeInfo None (d + 1) (∅ ∪ closer d (mClosestValidators i) b)) else None.
Proof. intros Hb. rewrite (Hm' b), lookup_insert_ne, Hb; [done|]. intros ->. by rewrite Hx in Hb. Qed.

(** The nodes of the new map. *)
Lemma expansion_cases b j :
  m' !! b = Some j →
  (b = x ∧ j = xi) ∨
  (b ≠ x ∧ ∃ j0, m !! b = Some j0 ∧ mDistance j = mDistance j0 ∧ mQuorumSet j = mQuorumSet j0 ∧ (mDistance j ≤ d → j = j0)) ∨
  (m !! b = None ∧ b ∈ L ∧ j = mkNodeInfo None (d + 1) (∅ ∪ closer d (mClosestValidators i) b)).
Proof.
  intros Hb. destruct (decide (b = x)) as [->|Hne]; [left; rewrite expansion_x in Hb; naive_solver|right].
  destruct (m !! b) as [j0|] eqn:E.
  - left. split; [done|]. destruct (expansion_old b j0 E Hne) as (j' & Hj' & ? & ? & Heq & _). simplify_eq. exists j0.
    split; [done|]. split; [done|]. split; [done|]. intros ?. apply Heq. lia.
  - right. rewrite (expansion_new b E) in Hb. case_decide; naive_solver.
Qed.

Lemma expansion_expanded a ia :
  m' !! a = Some ia → isExpanded ia → (a = x ∧ ia = xi) ∨ (a ≠ x ∧ m !! a = Some ia ∧ mDistance ia ≤ d).
Proof.
  intros Ha He. destruct (expansion_cases a ia Ha) as [?|[(Hne & j0 & Hj0 & HD & HQ & Heq)|(_ & _ & ->)]]; [by left| |by destruct He].
  right. split; [done|]. assert (mDistance j0 ≤ d) as Hle by (apply (tr_qset _ _ _ _ Ht a j0 Hj0); unfold isExpanded in *; congruence).
  rewrite Heq by lia. done.
Qed.

Lemma expansion_closest b j v :
  m' !! b = Some j → v ∈ mClosestValidators j ↔
  (∃ j0, m !! b = Some j0 ∧ v ∈ mClosestValidators j0) ∨ (b ∈ L ∧ mDistance j = d + 1 ∧ v ∈ closer d (mClosestValidators i) b).
Proof.
  intros Hb. destruct (decide (b = x)) as [->|Hne].
  - rewrite expansion_x in Hb. simplify_eq. cbn. rewrite Hx. split; [intros ?; left; by exists i|]. intros [(? & ? & ?)|?]; [by simplify_eq|lia].
  - destruct (m !! b) as [j0|] eqn:E.
    + destruct (expansion_old b j0 E Hne) as (j' & Hj' & HD & _ & _ & Hc). simplify_eq. rewrite Hc, HD. naive_solver.
    + rewrite (expansion_new b E) in Hb. case_decide; [|done]. simplify_eq. cbn. rewrite (left_id_L ∅ (∪)). naive_solver.
Qed.

Lemma expansion_distance b j j0 : m !! b = Some j0 → m' !! b = Some j → mDistance j = mDistance j0.
Proof.
  intros Hj0 Hb. destruct (decide (b = x)) as [->|Hbx]; [rewrite expansion_x in Hb; by simplify_eq|].
  destruct (expansion_old b j0 Hj0 Hbx) as (j' & Hj' & ? & _). congruence.
Qed.

Lemma tracks_closest b j v :
  m' !! b = Some j → v ∈ mClosestValidators j ↔
  ∃ a ia, m' !! a = Some ia ∧ isExpanded ia ∧ depends a b ∧ mDistance j = mDistance ia + 1 ∧
          (if decide (mDistance j = 1) then v = b else v ∈ mClosestValidators ia).
Proof.
  intros Hb. rewrite (expansion_closest b j v Hb). split.
  - intros [(j0 & Hj0 & Hv)|(HL & HD & Hv)].
    + pose proof Hv as (a & ia & Ha & He & Hab & HD & Hc)%(tr_closest _ _ _ _ Ht b j0 Hj0).
      assert (a ≠ x) as Hax by (intros ->; simplify_eq; done). destruct (tr_qset _ _ _ _ Ht a ia Ha He) as [_ Hle].
      destruct (expansion_old a ia Ha Hax) as (ia' & Ha' & _ & _ & Heq & _). rewrite (Heq Hle) in Ha'.
      exists a, ia. by rewrite (expansion_distance b j j0).
    + exists x, xi. split; [apply expansion_x|]. split; [done|]. split; [by exists q|]. split; [done|]. rewrite HD. cbn.
      unfold closer in Hv. destruct (Z.eqb_spec (d + 1) 1); [rewrite decide_True by done; set_solver|by rewrite decide_False].
  - intros (a & ia & Ha & He & Hab & HD & Hc). destruct (expansion_expanded a ia Ha He) as [[-> ->]|(Hax & Ha0 & Hle)].
    + right. cbn in HD. destruct Hab as (q' & Hq' & HbL). simplify_eq. split; [done|]. split; [done|]. unfold closer.
      destruct (Z.eqb_spec (mDistance i + 1) 1); case_decide; [set_solver|lia|lia|done].
    + left. destruct (tr_edge _ _ _ _ Ht a ia b Ha0 He Hab) as (j0 & Hj0 & _). exists j0. split; [done|].
      apply (tr_closest _ _ _ _ Ht b j0 Hj0). exists a, ia.
      by rewrite <- (expansion_distance b j j0).
Qed.

Lemma expansion_present b : is_Some (m !! b) ∨ b ∈ L → is_Some (m' !! b).
Proof.
  intros Hb. destruct (decide (b = x)) as [->|Hbx]; [rewrite expansion_x; by eexists|]. destruct (m !! b) as [j|] eqn:E.
  - destruct (expansion_old b j E Hbx) as (j' & -> & _). by eexists.
  - rewrite (expansion_new b E). destruct Hb as [[? ?]|Hb]; [done|]. rewrite decide_True by done. by eexists.
Qed.

Lemma expansion_far b j : m' !! b = Some j → mDistance j ≤ d + 1.
Proof.
  intros [[-> ->]|[(_ & j0 & Hj0 & -> & _)|(_ & _ & ->)]]%expansion_cases; cbn; [lia|by apply (tr_far _ _ _ _ Ht b)|lia].
Qed.

Lemma tracks_expand : tracks m' d l (l' ++ L).
Proof.
  split.
  - destruct (tr_local _ _ _ _ Ht) as (j & Hj & H0 & Hc). destruct (decide (mLocalNodeID = x)) as [E|Hne].
    + exists xi. rewrite E in *. split; [apply expansion_x|]. simplify_eq. by cbn.
    + destruct (expansion_old _ _ Hj Hne) as (j' & Hj' & HD & _ & Heq & _). exists j'. split; [done|].
      destruct (tr_path _ _ _ _ Ht x i Hx) as (n & Hdn & _). rewrite Heq by lia. done.
  - intros a j [[-> ->]|[(_ & j0 & Hj0 & -> & _)|(_ & HL & ->)]]%expansion_cases; cbn; [rewrite <- Hd|..]; [by eapply tr_path..|].
    destruct (tr_path _ _ _ _ Ht x i Hx) as (n & Hdn & Hp). exists (S n). split; [lia|]. econstructor; [exact Hp|by exists q].
  - intros a j Ha He. destruct (expansion_expanded a j Ha He) as [[-> ->]|(_ & Ha0 & ?)]; [by split; [|cbn; lia]|].
    by apply (tr_qset _ _ _ _ Ht a).
  - intros a j b Ha He Hab. destruct (expansion_present b) as [jb Hjb].
    { destruct (expansion_expanded a j Ha He) as [[-> ->]|(_ & Ha0 & _)]; [right; by destruct Hab as (? & ? & ?); simplify_eq|].
      left. destruct (tr_edge _ _ _ _ Ht a j b Ha0 He Hab) as (? & ? & _). by eexists. }
    exists jb. split; [done|]. destruct (expansion_expanded a j Ha He) as [[-> ->]|(_ & Ha0 & _)]; [cbn; by eapply expansion_far|].
    destruct (tr_edge _ _ _ _ Ht a j b Ha0 He Hab) as (j0 & Hj0 & ?). by rewrite (expansion_distance b jb j0).
  - intros a j [[-> ->]|[(Hne & j0 & Hj0 & HD & HQ & _)|(_ & HL & ->)]]%expansion_cases Hna Hla; [by destruct Hna| |].
    + unfold isExpanded in Hna. rewrite HQ in Hna. rewrite HD.
      destruct (tr_leaf _ _ _ _ Ht a j0 Hj0 Hna Hla) as [[? [?|?]%elem_of_cons]|[? ?]]; [done|by left|right].
      split; [done|]. apply elem_of_app. by left.
    + right. split; [done|]. apply elem_of_app. by right.
  - apply expansion_far.
  - intros a Ha. destruct (tr_first _ _ _ _ Ht a) as (j & Hj & ?); [by right|]. destruct (expansion_present a) as [j' Hj']; [left; by eexists|].
    exists j'. split; [done|]. by rewrite (expansion_distance a j' j).
  - intros a [Ha|Ha]%elem_of_app; apply expansion_present; [left; by apply (tr_second _ _ _ _ Ht)|by right].
  - intros b j Hb v. by apply tracks_closest.
Qed.
End expanded.

(** ** The loop *)

Section bounded.
Context (nodes : gset NodeID).
Hypothesis (Hnodes : ∀ a, lookup a ≠ None → a ∈ nodes).

(** The length of what expanding a node adds to the backlog. *)
Definition backlogSize a : nat := match lookup a with Some q => length (backlogOf (ptr_qset q)) | None => 0 end.

Definition unexpanded m a : nat := if m !! a ≫= mQuorumSet is Some _ then 0 else backlogSize a.

Definition work m : nat := sum_list_with (unexpanded m) (elements nodes).

Lemma work_expand m m' d x l l' i q :
  tracks m d (x :: l) l' → m !! x = Some i → ¬ isExpanded i → lookup x = Some q → mDistance i = d →
  expansion m d x i q m' → work m = (length (backlogOf (ptr_qset q)) + work m')%nat.
Proof.
  intros Ht Hx Hn Hq Hd Hm'. unfold work. rewrite (sum_list_with_split (unexpanded m) (unexpanded m') _ x).
  - f_equal. unfold unexpanded, backlogSize. rewrite Hx, Hq. cbn. destruct (mQuorumSet i) eqn:E; [|done].
    destruct Hn. unfold isExpanded. by rewrite E.
  - apply NoDup_elements.
  - apply elem_of_elements, Hnodes. by rewrite Hq.
  - unfold unexpanded. by rewrite (expansion_x m m' d x i q Hd Hm').
  - intros y Hy. unfold unexpanded. destruct (m !! y) as [j|] eqn:E.
    + destruct (expansion_old m m' d x l l' i q Ht Hd Hm' y j E Hy) as (j' & -> & _ & HQ & _). cbn. by rewrite HQ.
    + erewrite expansion_new by eassumption. by case_decide.
Qed.

Lemma rebuildLoop_spec fuel m d l l' :
  tracks m d l l' → (length (l ++ l') + work m ≤ fuel)%nat →
  ∃ m' d', rebuildLoop lookup fuel (l ++ l') m = Ok (tt, m') ∧ tracks m' d' [] [].
Proof.
  revert m d l l'. induction fuel as [|fuel IH]; intros m d l l' Ht Hf.
  { exists m, d. destruct l, l'; cbn in Hf; try lia. done. }
  assert (∀ d x l l', tracks m d (x :: l) l' → (length (x :: l ++ l') + work m ≤ S fuel)%nat →
    ∃ m' d', rebuildLoop lookup (S fuel) (x :: l ++ l') m = Ok (tt, m') ∧ tracks m' d' [] []) as Hstep.
  { clear d l l' Ht Hf. intros d x l l' Ht Hf. destruct (tr_first _ _ _ _ Ht x) as (i & Hx & _); [left|]. cbn [rebuildLoop length] in *.
    rewrite (bind_run _ _ _ (m !! x) m) by done. rewrite Hx. destruct (mQuorumSet i) as [p|] eqn:Ep.
    - apply (IH m d); [|lia]. eapply tracks_skip; [exact Ht|done|]. left. unfold isExpanded. by rewrite Ep.
    - destruct (lookup x) as [q|] eqn:Hq; [|apply (IH m d); [|lia]; eapply tracks_skip; [exact Ht|done|by right]].
      assert (¬ isExpanded i) as Hn by (intros He; by apply He).
      destruct (expand_run m d x l l' i q Ht Hx Hn Hq) as (Hd & m' & Hrun & Hm'). rewrite (bind_run _ _ _ _ _ Hrun).
      rewrite <- app_assoc. apply (IH m' d); [by eapply tracks_expand|].
      pose proof (work_expand m m' d x l l' i q Ht Hx Hn Hq Hd Hm'). rewrite !length_app in *. lia. }
  destruct l as [|x l]; [destruct l' as [|x l']|].
  - by exists m, d.
  - cbn [app] in *. rewrite <- (app_nil_r l') in *. apply (Hstep (d + 1)); [|done]. apply tracks_next. by rewrite app_nil_r in Ht.
  - by apply (Hstep d).
Qed.
End bounded.

(** ** The result *)

Section result.
Context (m : QuorumMap) (d : Z) (Ht : tracks m d [] []).

Lemma result_expanded a i b : m !! a = Some i → depends a b → isExpanded i.
Proof.
  intros Ha (q & Hq & _) Hn. destruct (tr_leaf _ _ _ _ Ht a i Ha) as [[_ []%not_elem_of_nil]|[_ []%not_elem_of_nil]]; [naive_solver|congruence].
Qed.

Lemma result_reach n a : path n mLocalNodeID a → ∃ i, m !! a = Some i ∧ mDistance i ≤ Z.of_nat n.
Proof.
  intros Hp. remember mLocalNodeID as a0 eqn:E0. induction Hp as [a|n a b c Hp IH Hbc]; subst.
  - destruct (tr_local _ _ _ _ Ht) as (i & Hi & ? & _). exists i. split; [done|lia].
  - destruct (IH eq_refl) as (i & Hi & ?). destruct (tr_edge _ _ _ _ Ht b i c Hi) as (j & Hj & ?); [by eapply result_expanded|done|].
    exists j. split; [done|lia].
Qed.

Lemma result_qset a i : m !! a = Some i → mQuorumSet i = lookup a.
Proof.
  intros Ha. destruct (mQuorumSet i) as [p|] eqn:E.
  - rewrite <- E. apply (tr_qset _ _ _ _ Ht a i Ha). unfold isExpanded. by rewrite E.
  - destruct (lookup a) as [q|] eqn:Hq; [|done]. destruct (tr_leaf _ _ _ _ Ht a i Ha) as [[_ []%not_elem_of_nil]|[_ []%not_elem_of_nil]]; [|by rewrite Hq].
    intros He. by destruct He.
Qed.

Lemma result_distance a i n k :
  m !! a = Some i → mDistance i = Z.of_nat n → path k mLocalNodeID a → (n ≤ k)%nat.
Proof. intros Ha Hn (j & Hj & ?)%result_reach. simplify_eq. lia. Qed.

Lemma result_closest n a i v :
  m !! a = Some i → mDistance i = Z.of_nat n →
  v ∈ mClosestValidators i ↔ ∃ k, n = S k ∧ depends mLocalNodeID v ∧ path k v a.
Proof.
  revert a i. induction n as [|n IH]; intros a i Ha Hn; rewrite (tr_closest _ _ _ _ Ht a i Ha).
  { split; [|naive_solver]. intros (b & j & Hb & _ & _ & HD & _). destruct (tr_path _ _ _ _ Ht b j Hb) as (? & ? & _). lia. }
  split.
  - intros (b & j & Hb & He & Hba & HD & Hc). exists n. split; [done|]. destruct (tr_path _ _ _ _ Ht b j Hb) as (n' & Hn' & Hp).
    assert (n' = n) as -> by lia. destruct n as [|n].
    + rewrite decide_True in Hc by lia. subst v. inversion Hp; subst. split; [done|constructor].
    + rewrite decide_False in Hc by lia. destruct (proj1 (IH b j Hb Hn') Hc) as (k & [= <-] & Hv & Hpv).
      split; [done|]. by econstructor.
  - intros (k & [= <-] & Hv & Hp). inversion Hp as [|n' ? b ? Hp' Hba]; subst.
    + destruct (tr_local _ _ _ _ Ht) as (j & Hj & ? & _). exists mLocalNodeID, j. split; [done|].
      split; [by eapply result_expanded|]. split; [done|]. split; [lia|]. by rewrite decide_True by lia.
    + assert (path (S n') mLocalNodeID b) as Hpb by (by eapply path_cons). destruct (result_reach _ _ Hpb) as (j & Hj & Hle).
      assert (isExpanded j) as He by (by eapply result_expanded). destruct (tr_edge _ _ _ _ Ht b j a Hj He Hba) as (? & ? & ?). simplify_eq.
      exists b, j. split; [done|]. split; [done|]. split; [done|]. split; [lia|]. rewrite decide_False by lia.
      apply (IH b j Hj); [lia|]. by exists n'.
Qed.
End result.
End tracker.

(** C13: Rebuilding the transitive quorum works: with the quorum sets of finitely many
    nodes known, the traversal ends without an error, after at most as many steps as
    those quorum sets name nodes, plus one.  The map it leaves holds exactly the
    nodes within reach of the local node, each with its quorum set if known, the
    length of a shortest path to it, and the members of the local quorum set that
    are on a shortest path to it. *)
Theorem rebuild_correct (mLocalNodeID : NodeID) (lookup : NodeID → SCPQuorumSetPtr) (nodes : gset NodeID)
    (fuel : nat) (m0 : QuorumMap) :
  (∀ a, lookup a ≠ None → a ∈ nodes) →
  (1 + sum_list_with (backlogSize lookup) (elements nodes) ≤ fuel)%nat →
  ∃ m, rebuild mLocalNodeID lookup fuel m0 = Ok (tt, m) ∧
    ∀ a, match m !! a with
         | None => ∀ n, ¬ path lookup n mLocalNodeID a
         | Some i =>
             mQuorumSet i = lookup a ∧
             ∃ n, mDistance i = Z.of_nat n ∧ path lookup n mLocalNodeID a ∧
                  (∀ k, path lookup k mLocalNodeID a → (n ≤ k)%nat) ∧
                  ∀ v, v ∈ mClosestValidators i ↔ ∃ k, n = S k ∧ depends lookup mLocalNodeID v ∧ path lookup k v a
         end.
Proof.
  intros Hnodes Hf. unfold rebuild. set (m1 := {[mLocalNodeID := mkNodeInfo None 0 ∅]} : QuorumMap).
  rewrite (bind_run _ _ _ tt m1) by done.
  destruct (rebuildLoop_spec mLocalNodeID lookup nodes Hnodes fuel m1 0 [mLocalNodeID] []) as (m & d & Hrun & Ht).
  { assert (∀ a i, m1 !! a = Some i → a = mLocalNodeID ∧ i = mkNodeInfo None 0 ∅) as H1 by (intros a i [? ?]%lookup_singleton_Some; done).
    assert (m1 !! mLocalNodeID = Some (mkNodeInfo None 0 ∅)) as H0 by apply lookup_singleton_eq.
    split.
    - by eexists.
    - intros a i [-> ->]%H1. exists 0%nat. split; [done|constructor].
    - intros a i [-> ->]%H1 He. by destruct He.
    - intros a i b [-> ->]%H1 He. by destruct He.
    - intros a i [-> ->]%H1 _ _. left. split; [done|left].
    - by intros a i [-> ->]%H1.
    - intros a ->%list_elem_of_singleton. by eexists.
    - by intros a ?%not_elem_of_nil.
    - intros b j [-> ->]%H1 v. cbn. split; [set_solver|]. intros (a & i & [-> ->]%H1 & He & _). by destruct He. }
  { etrans; [|exact Hf]. cbn. apply le_n_S. unfold work. clear. induction (elements nodes) as [|a l IH]; [done|]. cbn.
    apply Nat.add_le_mono; [|done]. unfold unexpanded. destruct (_ ≫= _); lia. }
  exists m. split; [exact Hrun|]. intros a. destruct (m !! a) as [i|] eqn:E.
  - split; [by eapply result_qset|]. destruct (tr_path _ _ _ _ _ _ Ht a i E) as (n & Hn & Hp). exists n. split; [done|]. split; [done|].
    split; [intros k; by eapply result_distance|]. intros v. by eapply result_closest.
  - intros n Hp. destruct (result_reach _ _ _ _ Ht n a Hp) as (? & ? & _). congruence.
Qed.

(** ** Two paths to a node *)

Definition diamond_lookup (a : NodeID) : SCPQuorumSetPtr :=
  if decide (a = [1]) then Some (mkQSetPtr 0 (QSet 2 [[1]; [2]] [QSet 1 [[3]] []]))
  else if decide (a = [2]) then Some (mkQSetPtr 1 (QSet 2 [[2]; [4]] []))
  else if decide (a = [3]) then Some (mkQSetPtr 2 (QSet 2 [[4]; [1]] []))
  else None.

Definition diamond_nodes : gset NodeID := {[ [1]; [2]; [3] ]}.

Lemma rebuild_correct_witness :
  ∃ m, rebuild [1] diamond_lookup 8 ∅ = Ok (tt, m) ∧ (mDistance <$> m !! [4]) = Some 2 ∧
       (∀ k, path diamond_lookup k [1] [4] → (2 ≤ k)%nat).
Proof.
  destruct (rebuild_correct [1] diamond_lookup diamond_nodes 8 ∅) as (m & Hrun & Hm).
  - intros a Ha. unfold diamond_lookup in Ha. repeat case_decide; subst; [set_solver..|done].
  - vm_compute. lia.
  - exists m. split; [exact Hrun|]. specialize (Hm [4]).
    assert (m !! [4] = Some (mkNodeInfo None 2 {[ [2]; [3] ]})) as E.
    { assert (match rebuild [1] diamond_lookup 8 ∅ with Ok (_, m) => m !! [4] | Throw _ => None end = Some (mkNodeInfo None 2 {[ [2]; [3] ]})) as E' by (by vm_compute).
      rewrite Hrun in E'. exact E'. }
    rewrite E in Hm |- *. destruct Hm as (_ & n & Hn & _ & Hmin & _). split; [done|]. cbn in Hn.
    assert (n = 2%nat) as -> by lia. exact Hmin.
Defined.
