(* ===== verification/BitSet.v ===== *)
(** * Bit sets

    Models [util/BitSet.h], the value-semantic bit set of the quorum intersection
    checker, over the word arrays of [lib/util/cbitset.h] and [cbitset.c]: a small
    set is one 64-bit word inside the object, a larger one is an array on the heap.

    The class [BitSetImpl] is what the checker uses of a bit set, and
    [BitSetLaws] what it relies on, for nodes below a bound; sets of nodes below 64
    satisfy the laws.  Setting bit 64 of a set stored in the object makes it
    reallocate memory that is not on the heap. *)

From S2P Require Import Prelude.
Open Scope nat_scope.

(** ** Words *)

(** [__builtin_popcountll] and [__builtin_ctzll]. *)
Definition word_bits (w : Z) : list nat := filter (λ j, Z.testbit w (Z.of_nat j) = true) (seq 0 64).
Definition popcount (w : Z) : nat := length (word_bits w).
Definition ctz (w : Z) : nat := default 64 (head (word_bits w)).

(** [((uint64_t)1) << (i % 64)]. *)
Definition bit_mask (i : nat) : Z := Z.shiftl 1 (Z.of_nat (i mod 64)).

(** ** Word arrays *)

Record bitset_t : Type := mkBitset { array : list Z; capacity : nat }.

Definition arraysize (b : bitset_t) : nat := length (array b).

Definition bitset_copy (b : bitset_t) : bitset_t := mkBitset (array b) (arraysize b).

Definition bitset_resize (b : bitset_t) (newarraysize : nat) : bitset_t :=
  mkBitset (take newarraysize (array b) ++ replicate (newarraysize - arraysize b) 0%Z)
    (if capacity b <? newarraysize then newarraysize * 2 else capacity b).

(** [onHeap] tells whether the array may be reallocated. *)
Definition bitset_grow (onHeap : bool) (b : bitset_t) (newarraysize : nat) : res bitset_t :=
  let array' := array b ++ replicate (newarraysize - arraysize b) 0%Z in
  if capacity b <? newarraysize then
    if onHeap then mret (mkBitset array' (newarraysize * 2)) else Throw BadRealloc
  else mret (mkBitset array' (capacity b)).

Definition bitset_set (onHeap : bool) (b : bitset_t) (i : nat) : res bitset_t :=
  let shiftedi := i / 64 in
  b ← (if arraysize b <=? shiftedi then bitset_grow onHeap b (shiftedi + 1) else mret b);
  mret (mkBitset (alter (λ w, Z.lor w (bit_mask i)) shiftedi (array b)) (capacity b)).

Definition bitset_unset (b : bitset_t) (i : nat) : bitset_t :=
  mkBitset (alter (λ w, Z.ldiff w (bit_mask i)) (i / 64) (array b)) (capacity b).

Definition bitset_get (b : bitset_t) (i : nat) : bool :=
  match array b !! (i / 64) with
  | Some w => negb (Z.land w (bit_mask i) =? 0)%Z
  | None => false
  end.

Definition bitset_clear (b : bitset_t) : bitset_t := mkBitset (replicate (arraysize b) 0%Z) (capacity b).

Definition bitset_count (b : bitset_t) : nat := sum_list (popcount <$> array b).

Definition bitset_minimum (b : bitset_t) : nat :=
  match list_find (λ w, w ≠ 0%Z) (array b) with Some (k, w) => ctz w + k * 64 | None => 0 end.

Fixpoint bitset_maximum_loop (ws : list Z) (k : nat) : nat :=
  match k with
  | O => 0
  | S k' =>
      match ws !! k' with
      | Some w => if (w =? 0)%Z then bitset_maximum_loop ws k' else Z.to_nat (Z.log2 w) + k' * 64
      | None => 0
      end
  end.

Definition bitset_maximum (b : bitset_t) : nat := bitset_maximum_loop (array b) (arraysize b).

(** The words of both, then the rest of the longer one. *)
Definition bitset_inplace_union (b1 b2 : bitset_t) : bitset_t :=
  mkBitset (zip_with Z.lor (array b1) (array b2) ++ drop (arraysize b2) (array b1) ++ drop (arraysize b1) (array b2))
    (capacity (bitset_resize b1 (arraysize b1 `max` arraysize b2))).

Definition bitset_inplace_intersection (b1 b2 : bitset_t) : bitset_t :=
  mkBitset (zip_with Z.land (array b1) (array b2) ++ replicate (arraysize b1 - arraysize b2) 0%Z) (capacity b1).

Definition bitset_inplace_difference (b1 b2 : bitset_t) : bitset_t :=
  mkBitset (zip_with Z.ldiff (array b1) (array b2) ++ drop (arraysize b2) (array b1)) (capacity b1).

Definition bitset_inplace_symmetric_difference (b1 b2 : bitset_t) : bitset_t :=
  mkBitset (zip_with Z.lxor (array b1) (array b2) ++ drop (arraysize b2) (array b1) ++ drop (arraysize b1) (array b2))
    (capacity (bitset_resize b1 (arraysize b1 `max` arraysize b2))).

Definition bitset_intersection_count (b1 b2 : bitset_t) : nat :=
  sum_list (popcount <$> zip_with Z.land (array b1) (array b2)).

Definition bitset_union_count (b1 b2 : bitset_t) : nat :=
  sum_list (popcount <$> zip_with Z.lor (array b1) (array b2)) +
  sum_list (popcount <$> drop (arraysize b1) (array b2)) +
  sum_list (popcount <$> drop (arraysize b2) (array b1)).

Definition bitset_difference_count (b1 b2 : bitset_t) : nat :=
  sum_list (popcount <$> zip_with Z.ldiff (array b1) (array b2)) +
  sum_list (popcount <$> drop (arraysize b2) (array b1)).

Definition bitset_symmetric_difference_count (b1 b2 : bitset_t) : nat :=
  sum_list (popcount <$> zip_with Z.lxor (array b1) (array b2)) +
  sum_list (popcount <$> drop (arraysize b1) (array b2)) +
  sum_list (popcount <$> drop (arraysize b2) (array b1)).

(** These two compare the words that both arrays have. *)
Definition bitset_equal (b1 b2 : bitset_t) : bool :=
  forallb (λ p, (p.1 =? p.2)%Z) (zip (array b1) (array b2)).

Definition bitset_subseteq (b1 b2 : bitset_t) : bool :=
  forallb (λ p, (Z.land p.1 p.2 =? p.1)%Z) (zip (array b1) (array b2)).

(** The first bit that is set at or after [i]. *)
Definition nextSetBit (b : bitset_t) (i : nat) : option nat :=
  let x := i / 64 in
  w ← array b !! x;
  let w := Z.shiftr w (Z.of_nat (i mod 64)) in
  if negb (w =? 0)%Z then Some (i + ctz w)
  else
    match list_find (λ w, w ≠ 0%Z) (drop (x + 1) (array b)) with
    | Some (k, w) => Some ((x + 1 + k) * 64 + ctz w)
    | None => None
    end.

(** ** The wrapper *)

Record BitSet : Type := mkBitSet {
  isStoredInline : bool;
  mPtr : bitset_t;
  mCountDirty : bool;
  mCount : nat
}.

Definition INLINE_NWORDS : nat := 1.
Definition INLINE_NBITS : nat := INLINE_NWORDS * 64.

(** The default constructor. *)
Definition setToEmptyAndInline : BitSet :=
  mkBitSet true (mkBitset (replicate INLINE_NWORDS 0%Z) INLINE_NWORDS) true 0.

Definition words_for (nBits : nat) : nat := (nBits + 63) / 64.

Definition setToEmptyWithCapacity (nBits : nat) : BitSet :=
  if INLINE_NBITS <? nBits
  then mkBitSet false (mkBitset (replicate (words_for nBits) 0%Z) (words_for nBits)) true 0
  else setToEmptyAndInline.

Definition copyOther (b : BitSet) : BitSet :=
  if isStoredInline b then b else mkBitSet false (bitset_copy (mPtr b)) (mCountDirty b) (mCount b).

(** Changing the words leaves the count to be computed again. *)
Definition setWords (w : bitset_t) (b : BitSet) : BitSet := mkBitSet (isStoredInline b) w true (mCount b).

Definition ensureCapacity (nBits : nat) (b : BitSet) : BitSet :=
  let nWords := words_for nBits in
  if nWords <=? capacity (mPtr b) then b
  else
    let ptr := if isStoredInline b then bitset_copy (mPtr b) else mPtr b in
    mkBitSet false (bitset_resize ptr nWords) (mCountDirty b) (mCount b).

Module Bits.
Definition set (i : nat) (b : BitSet) : res BitSet :=
  let b := ensureCapacity i b in
  ptr ← bitset_set (negb (isStoredInline b)) (mPtr b) i;
  mret (setWords ptr b).

Definition unset (i : nat) (b : BitSet) : BitSet := setWords (bitset_unset (mPtr b) i) b.

Definition get (b : BitSet) (i : nat) : bool := bitset_get (mPtr b) i.

Definition clear (b : BitSet) : BitSet := mkBitSet (isStoredInline b) (bitset_clear (mPtr b)) false 0.

Definition count (b : BitSet) : nat := if mCountDirty b then bitset_count (mPtr b) else mCount b.

Definition nextSet (b : BitSet) (i : nat) : option nat := nextSetBit (mPtr b) i.

Definition empty (b : BitSet) : bool := if nextSet b 0 is Some _ then false else true.

Definition min (b : BitSet) : nat := bitset_minimum (mPtr b).
Definition max (b : BitSet) : nat := bitset_maximum (mPtr b).

Definition size (b : BitSet) : nat := arraysize (mPtr b) * 64.

Definition inplaceUnion (other b : BitSet) : BitSet :=
  let b := ensureCapacity (size other) b in
  setWords (bitset_inplace_union (mPtr b) (mPtr other)) b.

Definition inplaceIntersection (other b : BitSet) : BitSet :=
  setWords (bitset_inplace_intersection (mPtr b) (mPtr other)) b.

Definition inplaceDifference (other b : BitSet) : BitSet :=
  setWords (bitset_inplace_difference (mPtr b) (mPtr other)) b.

Definition inplaceSymmetricDifference (other b : BitSet) : BitSet :=
  let b := ensureCapacity (size other) b in
  setWords (bitset_inplace_symmetric_difference (mPtr b) (mPtr other)) b.

Definition bitset_or (b other : BitSet) : BitSet := inplaceUnion other (copyOther b).
Definition bitset_and (b other : BitSet) : BitSet := inplaceIntersection other (copyOther b).
Definition bitset_minus (b other : BitSet) : BitSet := inplaceDifference other (copyOther b).
Definition symmetricDifference (b other : BitSet) : BitSet := inplaceSymmetricDifference other (copyOther b).

Definition unionCount (b other : BitSet) : nat := bitset_union_count (mPtr b) (mPtr other).
Definition intersectionCount (b other : BitSet) : nat := bitset_intersection_count (mPtr b) (mPtr other).
Definition differenceCount (b other : BitSet) : nat := bitset_difference_count (mPtr b) (mPtr other).
Definition symmetricDifferenceCount (b other : BitSet) : nat :=
  bitset_symmetric_difference_count (mPtr b) (mPtr other).

Definition bitset_eq (b other : BitSet) : bool := bitset_equal (mPtr b) (mPtr other).
Definition isSubsetEq (b other : BitSet) : bool := bitset_subseteq (mPtr b) (mPtr other).

(** The bits that [for (size_t i = 0; b.nextSet(i); ++i)] visits. *)
Fixpoint set_bits_from (fuel : nat) (b : BitSet) (i : nat) : list nat :=
  match fuel with
  | O => []
  | S fuel' => match nextSet b i with Some j => j :: set_bits_from fuel' b (S j) | None => [] end
  end.

Definition set_bits (b : BitSet) : list nat := set_bits_from (S (size b)) b 0.
End Bits.
(** ** What the checker uses of a bit set *)

Class BitSetImpl (B : Type) := {
  bs_empty : B;
  bs_sized : nat → B;
  bs_set : nat → B → res B;
  bs_unset : nat → B → B;
  bs_get : B → nat → bool;
  bs_count : B → nat;
  bs_isEmpty : B → bool;
  bs_max : B → nat;
  bs_or : B → B → B;
  bs_and : B → B → B;
  bs_minus : B → B → B;
  bs_intersectionCount : B → B → nat;
  bs_eq : B → B → bool;
  bs_subseteq : B → B → bool;
  bs_members : B → list nat
}.

#[export] Instance BitSet_impl : BitSetImpl BitSet := {|
  bs_empty := setToEmptyAndInline;
  bs_sized := setToEmptyWithCapacity;
  bs_set := Bits.set;
  bs_unset := Bits.unset;
  bs_get := Bits.get;
  bs_count := Bits.count;
  bs_isEmpty := Bits.empty;
  bs_max := Bits.max;
  bs_or := Bits.bitset_or;
  bs_and := Bits.bitset_and;
  bs_minus := Bits.bitset_minus;
  bs_intersectionCount := Bits.intersectionCount;
  bs_eq := Bits.bitset_eq;
  bs_subseteq := Bits.isSubsetEq;
  bs_members := Bits.set_bits
|}.

(** The set a bit set stands for. *)
Definition den {B} `{BitSetImpl B} (b : B) : gset nat := list_to_set (bs_members b).

(** The operations compute the set operations, on sets of numbers below [cap]. *)
Class BitSetLaws (B : Type) `{BitSetImpl B} (cap : nat) := {
  bs_ok : B → Prop;
  law_bound b i : bs_ok b → i ∈ den b → i < cap;
  law_members b : bs_ok b → NoDup (bs_members b);
  law_empty : bs_ok bs_empty ∧ den bs_empty = ∅;
  law_sized n : n ≤ cap → bs_ok (bs_sized n) ∧ den (bs_sized n) = ∅;
  law_set i b : bs_ok b → i < cap → ∃ b', bs_set i b = Ok b' ∧ bs_ok b' ∧ den b' = {[i]} ∪ den b;
  law_unset i b : bs_ok b → bs_ok (bs_unset i b) ∧ den (bs_unset i b) = den b ∖ {[i]};
  law_get b i : bs_ok b → bs_get b i = bool_decide (i ∈ den b);
  law_count b : bs_ok b → bs_count b = size (den b);
  law_isEmpty b : bs_ok b → bs_isEmpty b = bool_decide (den b = ∅);
  law_max b : bs_ok b → den b ≠ ∅ → bs_max b ∈ den b;
  law_or a b : bs_ok a → bs_ok b → bs_ok (bs_or a b) ∧ den (bs_or a b) = den a ∪ den b;
  law_and a b : bs_ok a → bs_ok b → bs_ok (bs_and a b) ∧ den (bs_and a b) = den a ∩ den b;
  law_minus a b : bs_ok a → bs_ok b → bs_ok (bs_minus a b) ∧ den (bs_minus a b) = den a ∖ den b;
  law_intersectionCount a b : bs_ok a → bs_ok b → bs_intersectionCount a b = size (den a ∩ den b);
  law_eq a b : bs_ok a → bs_ok b → bs_eq a b = bool_decide (den a = den b);
  law_subseteq a b : bs_ok a → bs_ok b → bs_subseteq a b = bool_decide (den a ⊆ den b)
}.

(** ** Bits of a word *)

Lemma elem_of_word_bits w j : j ∈ word_bits w ↔ j < 64 ∧ Z.testbit w (Z.of_nat j) = true.
Proof. unfold word_bits. rewrite list_elem_of_filter, elem_of_seq. naive_solver lia. Qed.

Lemma NoDup_word_bits w : NoDup (word_bits w).
Proof. apply NoDup_filter, NoDup_seq. Qed.

(** A word as a set. *)
Definition word_set (w : Z) : gset nat := list_to_set (word_bits w).

Lemma elem_of_word_set w j : j ∈ word_set w ↔ j < 64 ∧ Z.testbit w (Z.of_nat j) = true.
Proof. unfold word_set. by rewrite elem_of_list_to_set, elem_of_word_bits. Qed.

Lemma popcount_size w : popcount w = size (word_set w).
Proof. unfold popcount, word_set. by rewrite size_list_to_set by apply NoDup_word_bits. Qed.

Definition is_word (w : Z) : Prop := (0 ≤ w < 2 ^ 64)%Z.

Lemma is_word_testbit w : is_word w ↔ (0 ≤ w)%Z ∧ ∀ j, (64 ≤ j)%Z → Z.testbit w j = false.
Proof.
  unfold is_word. split.
  - intros [H0 H1]. split; [done|]. intros j Hj. destruct (decide (w = 0%Z)) as [->|]; [apply Z.bits_0|].
    apply Z.bits_above_log2; [done|]. apply Z.log2_lt_pow2; [lia|]. eapply Z.lt_le_trans; [exact H1|].
    apply Z.pow_le_mono_r; lia.
  - intros [H0 Hj]. split; [done|]. destruct (decide (w = 0%Z)) as [->|]; [done|].
    apply Z.log2_lt_pow2; [lia|]. destruct (Z.ltb_spec (Z.log2 w) 64); [done|].
    specialize (Hj (Z.log2 w) H). rewrite Z.bit_log2 in Hj; [done|lia].
Qed.

Lemma word_ext v w : is_word v → is_word w → word_set v = word_set w → v = w.
Proof.
  intros [Hv0 Hv]%is_word_testbit [Hw0 Hw]%is_word_testbit E. apply Z.bits_inj'. intros j Hj.
  destruct (Z.leb_spec 64 j); [by rewrite Hv, Hw|].
  pose proof (elem_of_word_set v (Z.to_nat j)) as H1. pose proof (elem_of_word_set w (Z.to_nat j)) as H2.
  rewrite E in H1. rewrite Z2Nat.id in H1, H2 by done.
  destruct (Z.testbit v j), (Z.testbit w j); naive_solver lia.
Qed.

Lemma testbit_mask i j : j < 64 → Z.testbit (bit_mask i) (Z.of_nat j) = bool_decide (j = i mod 64).
Proof.
  intros Hj. unfold bit_mask. rewrite Z.shiftl_spec by lia. pose proof (Nat.mod_upper_bound i 64).
  case_bool_decide as E; [subst; by rewrite Z.sub_diag|].
  destruct (Z.ltb_spec (Z.of_nat j) (Z.of_nat (i mod 64))); [by apply Z.testbit_neg_r; lia|].
  change 1%Z with (2 ^ 0)%Z. apply Z.pow2_bits_false. lia.
Qed.

Lemma word_set_lor v w : word_set (Z.lor v w) = word_set v ∪ word_set w.
Proof.
  apply set_eq. intros j. rewrite elem_of_union, !elem_of_word_set, Z.lor_spec, orb_true_iff. naive_solver.
Qed.

Lemma word_set_land v w : word_set (Z.land v w) = word_set v ∩ word_set w.
Proof.
  apply set_eq. intros j. rewrite elem_of_intersection, !elem_of_word_set, Z.land_spec, andb_true_iff. naive_solver.
Qed.

Lemma word_set_ldiff v w : word_set (Z.ldiff v w) = word_set v ∖ word_set w.
Proof.
  apply set_eq. intros j. rewrite elem_of_difference, !elem_of_word_set, Z.ldiff_spec, andb_true_iff, negb_true_iff.
  destruct (Z.testbit w (Z.of_nat j)); naive_solver.
Qed.

Lemma word_set_mask i : word_set (bit_mask i) = {[i mod 64]}.
Proof.
  apply set_eq. intros j. rewrite elem_of_word_set, elem_of_singleton. pose proof (Nat.mod_upper_bound i 64).
  split; [intros [Hj Hb]; rewrite testbit_mask in Hb by done; by apply bool_decide_eq_true in Hb|].
  intros ->. split; [lia|]. rewrite testbit_mask by lia. by apply bool_decide_eq_true.
Qed.

Lemma word_set_0 : word_set 0 = ∅.
Proof. apply set_eq. intros j. rewrite elem_of_word_set, Z.bits_0. set_solver. Qed.

Lemma is_word_mask i : is_word (bit_mask i).
Proof.
  unfold is_word, bit_mask. pose proof (Nat.mod_upper_bound i 64). rewrite Z.shiftl_1_l.
  split; [apply Z.pow_nonneg; lia|]. apply Z.pow_lt_mono_r; lia.
Qed.

Lemma is_word_lor v w : is_word v → is_word w → is_word (Z.lor v w).
Proof.
  rewrite !is_word_testbit. intros [Hv0 Hv] [Hw0 Hw]. split; [by apply Z.lor_nonneg|].
  intros j Hj. by rewrite Z.lor_spec, Hv, Hw.
Qed.

Lemma is_word_land v w : is_word v → is_word (Z.land v w).
Proof.
  rewrite !is_word_testbit. intros [Hv0 Hv]. split; [apply Z.land_nonneg; auto|].
  intros j Hj. by rewrite Z.land_spec, Hv.
Qed.

Lemma is_word_ldiff v w : is_word v → is_word (Z.ldiff v w).
Proof.
  rewrite !is_word_testbit. intros [Hv0 Hv]. split; [apply Z.ldiff_nonneg; auto|].
  intros j Hj. by rewrite Z.ldiff_spec, Hv.
Qed.

Lemma is_word_0 : is_word 0.
Proof. done. Qed.

#[local] Hint Resolve is_word_mask is_word_lor is_word_land is_word_ldiff is_word_0 : core.

Lemma word_set_empty w : is_word w → word_set w = ∅ ↔ w = 0%Z.
Proof.
  intros Hw. split; [|by intros ->; apply word_set_0]. rewrite <- word_set_0. by apply word_ext.
Qed.

(** ** Bits of an array of words *)

Lemma land_mask w i : is_word w → negb (Z.land w (bit_mask i) =? 0)%Z = bool_decide (i mod 64 ∈ word_set w).
Proof.
  intros Hw. apply eq_bool_prop_intro. rewrite bool_decide_spec, Is_true_true, negb_true_iff, Z.eqb_neq.
  rewrite <- word_set_empty, word_set_land, word_set_mask by auto. split.
  - intros Hne. destruct (decide (i mod 64 ∈ word_set w)); [done|]. destruct Hne. set_solver.
  - intros Hin E. assert (i mod 64 ∈ word_set w ∩ {[i mod 64]}) as H by set_solver. rewrite E in H. set_solver.
Qed.

Definition words_ok (b : bitset_t) : Prop := Forall is_word (array b).

Lemma bitset_get_spec b i :
  words_ok b → bitset_get b i = true ↔ ∃ w, array b !! (i / 64) = Some w ∧ i mod 64 ∈ word_set w.
Proof.
  intros Hb. unfold bitset_get. destruct (array b !! (i / 64)) as [w|] eqn:E; [|naive_solver].
  rewrite land_mask by (by eapply Forall_lookup_1). rewrite bool_decide_eq_true. naive_solver.
Qed.

Lemma words_ok_zeros l k : Forall is_word l → Forall is_word (l ++ replicate k 0%Z).
Proof. intros. apply Forall_app. split; [done|]. by apply Forall_replicate. Qed.

(** Words of zeros at the end do not change the set. *)
Lemma get_zeros l k c c' i :
  Forall is_word l → bitset_get (mkBitset (l ++ replicate k 0%Z) c) i = bitset_get (mkBitset l c') i.
Proof.
  intros Hl. apply eq_bool_prop_intro. rewrite !Is_true_true, !bitset_get_spec by (by try apply words_ok_zeros). cbn [array].
  destruct (decide (i / 64 < length l)) as [Hlt|Hge]; [by rewrite lookup_app_l|].
  assert (length l ≤ i / 64) by lia. rewrite lookup_app_r, (lookup_ge_None_2 l (i / 64)) by done. split; [|naive_solver].
  intros (w & [-> _]%lookup_replicate & Hw). by rewrite word_set_0 in Hw.
Qed.

Lemma get_alter_lor l c i j :
  Forall is_word l → i / 64 < length l →
  bitset_get (mkBitset (alter (λ w, Z.lor w (bit_mask i)) (i / 64) l) c) j =
  bool_decide (j = i) || bitset_get (mkBitset l c) j.
Proof.
  intros Hl Hlt. assert (Forall is_word (alter (λ w, Z.lor w (bit_mask i)) (i / 64) l)) as Hl'.
  { apply Forall_alter; auto. }
  apply eq_bool_prop_intro. rewrite !Is_true_true, orb_true_iff, bool_decide_eq_true, !bitset_get_spec by done. cbn [array].
  destruct (lookup_lt_is_Some_2 l (i / 64) Hlt) as [wi Hwi].
  pose proof (Nat.div_mod_eq i 64) as Hi. pose proof (Nat.div_mod_eq j 64) as Hj.
  destruct (decide (j / 64 = i / 64)) as [E|E].
  - rewrite E, list_lookup_alter_eq, Hwi.
    change ((λ w, Z.lor w (bit_mask i)) <$> Some wi) with (Some (Z.lor wi (bit_mask i))). split.
    + intros (w & Hw0 & Hw). injection Hw0 as <-.
      rewrite word_set_lor, word_set_mask, elem_of_union, elem_of_singleton in Hw.
      destruct Hw as [Hw|Hw]; [right; by exists wi|left; lia].
    + intros [->|(w & Hw0 & Hw)]; [|injection Hw0 as <-]; (eexists; split; [done|]);
        rewrite word_set_lor, word_set_mask, elem_of_union, elem_of_singleton; auto.
  - rewrite list_lookup_alter_ne by done. split; [auto|]. intros [->|]; done.
Qed.

(** ** Setting a bit *)

Record wf (b : BitSet) : Prop := {
  wf_words : words_ok (mPtr b);
  wf_capacity : arraysize (mPtr b) ≤ capacity (mPtr b);
  wf_inline : isStoredInline b = true → arraysize (mPtr b) = 1 ∧ capacity (mPtr b) = 1
}.

Lemma ensureCapacity_wf n b :
  wf b → wf (ensureCapacity n b) ∧ (∀ j, Bits.get (ensureCapacity n b) j = Bits.get b j) ∧
         words_for n ≤ capacity (mPtr (ensureCapacity n b)) ∧
         (isStoredInline (ensureCapacity n b) = true → isStoredInline b = true).
Proof.
  intros [Hw Hc Hi]. unfold ensureCapacity. destruct (Nat.leb_spec (words_for n) (capacity (mPtr b))) as [Hle|Hlt]; [by split|].
  assert (array (if isStoredInline b then bitset_copy (mPtr b) else mPtr b) = array (mPtr b)) as Ha
    by (by destruct (isStoredInline b)).
  set (ptr := if isStoredInline b then _ else _) in *.
  assert (array (bitset_resize ptr (words_for n)) = array (mPtr b) ++ replicate (words_for n - arraysize (mPtr b)) 0%Z) as Hr.
  { unfold bitset_resize, arraysize. cbn [array]. rewrite Ha, take_ge; [done|]. unfold arraysize in Hc. lia. }
  assert (arraysize (bitset_resize ptr (words_for n)) = words_for n) as Hs.
  { unfold arraysize. rewrite Hr, length_app, length_replicate. unfold arraysize in *. lia. }
  assert (words_for n ≤ capacity (bitset_resize ptr (words_for n))).
  { unfold bitset_resize. cbn [capacity]. destruct (Nat.ltb_spec (capacity ptr) (words_for n)); lia. }
  split_and!; [split; cbn [mPtr isStoredInline]| | |done].
  - unfold words_ok. rewrite Hr. by apply words_ok_zeros.
  - lia.
  - done.
  - intros j. unfold Bits.get. cbn [mPtr].
    transitivity (bitset_get (mkBitset (array (mPtr b) ++ replicate (words_for n - arraysize (mPtr b)) 0%Z) 0) j);
      [by unfold bitset_get; rewrite Hr|by rewrite get_zeros with (c' := capacity (mPtr b))].
  - done.
Qed.

Lemma bitset_grow_wf onHeap p n :
  words_ok p → arraysize p ≤ n →
  match bitset_grow onHeap p n with
  | Ok p' => words_ok p' ∧ arraysize p' = n ∧ (arraysize p ≤ capacity p → n ≤ capacity p') ∧
             (onHeap = false → capacity p' = capacity p) ∧ ∀ j, bitset_get p' j = bitset_get p j
  | Throw e => e = BadRealloc ∧ onHeap = false ∧ capacity p < n
  end.
Proof.
  intros Hw Hn. unfold bitset_grow.
  assert (∀ c, words_ok (mkBitset (array p ++ replicate (n - arraysize p) 0%Z) c) ∧
    arraysize (mkBitset (array p ++ replicate (n - arraysize p) 0%Z) c) = n ∧
    ∀ j, bitset_get (mkBitset (array p ++ replicate (n - arraysize p) 0%Z) c) j = bitset_get p j) as H.
  { intros c. split_and!; [by apply words_ok_zeros| |].
    - unfold arraysize in *. cbn [array]. rewrite length_app, length_replicate. lia.
    - intros j. rewrite (get_zeros _ _ _ (capacity p)) by done. by destruct p. }
  destruct (Nat.ltb_spec (capacity p) n) as [Hlt|Hge]; [destruct onHeap|]; cbn.
  - destruct (H (n * 2)) as (H1 & H2 & H3). split_and!; [done|done|lia|done|done].
  - done.
  - destruct (H (capacity p)) as (H1 & H2 & H3). split_and!; [done|done|lia|done|done].
Qed.

Lemma bitset_set_wf onHeap p i :
  words_ok p →
  match bitset_set onHeap p i with
  | Ok p' => words_ok p' ∧ arraysize p' = arraysize p `max` (i / 64 + 1) ∧
             (arraysize p ≤ capacity p → arraysize p' ≤ capacity p') ∧
             (onHeap = false → capacity p' = capacity p) ∧
             ∀ j, bitset_get p' j = bool_decide (j = i) || bitset_get p j
  | Throw e => e = BadRealloc ∧ onHeap = false ∧ arraysize p ≤ i / 64 ∧ capacity p ≤ i / 64
  end.
Proof.
  intros Hw. unfold bitset_set.
  assert (∀ q, words_ok q → i / 64 < arraysize q →
    let q' := mkBitset (alter (λ w, Z.lor w (bit_mask i)) (i / 64) (array q)) (capacity q) in
    words_ok q' ∧ arraysize q' = arraysize q ∧ ∀ j, bitset_get q' j = bool_decide (j = i) || bitset_get q j) as Hset.
  { intros q Hq Hlt q'. subst q'. split_and!; [by apply Forall_alter; auto|by unfold arraysize; cbn [array]; rewrite length_alter|].
    intros j. rewrite (get_alter_lor _ _ _ _ Hq Hlt). by destruct q. }
  destruct (Nat.leb_spec (arraysize p) (i / 64)) as [Hle|Hlt].
  - pose proof (bitset_grow_wf onHeap p (i / 64 + 1) Hw ltac:(lia)) as Hg.
    destruct (bitset_grow onHeap p (i / 64 + 1)) as [q|e]; cbn [mbind res_bind]; [|destruct Hg as (-> & -> & ?); split_and!; lia || done].
    destruct Hg as (Hq & Hs & Hc & Hc' & Hget). destruct (Hset q Hq ltac:(lia)) as (H1 & H2 & H3).
    cbn [mret res_ret]. split_and!; [done|lia|intros; cbn [capacity]; rewrite H2, Hs; auto|done|].
    intros j. by rewrite H3, Hget.
  - destruct (Hset p Hw Hlt) as (H1 & H2 & H3). cbn [mbind res_bind mret res_ret capacity].
    split_and!; [done|rewrite H2; lia|by rewrite H2|done|done].
Qed.

(** C26: setting a bit of a well-formed bit set adds it and keeps the others, except
    that the one bit 64 cannot be set in a set stored in the object: the capacity
    that is asked for is one bit short, and the array of the object itself is
    handed to [realloc]. *)
Theorem set_spec i b :
  wf b →
  match Bits.set i b with
  | Ok b' => wf b' ∧ (∀ j, Bits.get b' j = bool_decide (j = i) || Bits.get b j) ∧
             ¬ (isStoredInline b = true ∧ i = 64)
  | Throw e => e = BadRealloc ∧ isStoredInline b = true ∧ i = 64
  end.
Proof.
  intros Hb. destruct (ensureCapacity_wf i b Hb) as ([Hw Hc Hi] & Hget & Hcap & Hin). unfold Bits.set.
  set (b1 := ensureCapacity i b) in *. pose proof (bitset_set_wf (negb (isStoredInline b1)) (mPtr b1) i Hw) as H.
  pose proof (Nat.div_mod_eq i 64) as Hdm. pose proof (Nat.mod_upper_bound i 64 ltac:(lia)) as Hmod.
  pose proof (Nat.div_mod_eq (i + 63) 64) as Hdm'. pose proof (Nat.mod_upper_bound (i + 63) 64 ltac:(lia)) as Hmod'.
  unfold words_for in Hcap.
  destruct (bitset_set _ _ _) as [p|e]; cbn [mbind res_bind mret res_ret].
  - destruct H as (H1 & H2 & H3 & H4 & H5). split_and!.
    + split; cbn [mPtr setWords isStoredInline]; [done|auto|]. intros E. rewrite E in H4. cbn in H4.
      destruct (Hi E) as [E1 E2]. specialize (H4 eq_refl). specialize (H3 Hc). rewrite H2 in H3 |- *. lia.
    + intros j. unfold Bits.get in *. cbn [setWords mPtr]. by rewrite H5, Hget.
    + intros [E ->]. assert (b1 = b) as E1.
      { subst b1. unfold ensureCapacity. destruct (wf_inline b Hb E) as [_ ->]. done. }
      rewrite E1 in *. rewrite E in H4. specialize (H4 eq_refl). specialize (H3 Hc). destruct (Hi E) as [_ Hcap1].
      rewrite H2 in H3. change (64 / 64) with 1 in H3. lia.
  - destruct H as (-> & Hn & Hs & Hc'). apply negb_false_iff in Hn. split_and!; [done|auto|].
    destruct (Hi Hn) as [E1 E2]. lia.
Qed.

(** The object's own word, when it has 65 bits or more to hold. *)
Lemma set_spec_witness :
  wf setToEmptyAndInline ∧ Bits.set 64 setToEmptyAndInline = Throw BadRealloc.
Proof.
  assert (wf setToEmptyAndInline) as H by (split; [by repeat constructor|done|done]).
  split; [exact H|]. pose proof (set_spec 64 _ H) as Hs.
  destruct (Bits.set 64 setToEmptyAndInline) as [b|e]; [|by destruct Hs as [-> _]].
  exfalso. apply Hs. split; reflexivity.
Defined.

(** ** Sets of numbers below 64 *)

Record one_word (b : BitSet) (w : Z) : Prop := {
  ow_inline : isStoredInline b = true;
  ow_ptr : mPtr b = mkBitset [w] 1;
  ow_word : is_word w;
  ow_count : mCountDirty b = false → mCount b = popcount w
}.

(** The bits of a word from some position on. *)
Definition bits_from (w : Z) (i : nat) : list nat :=
  filter (λ j, Z.testbit w (Z.of_nat j) = true) (seq i (64 - i)).

Lemma bits_from_head w i :
  match head (bits_from w i) with
  | Some j => bits_from w i = j :: bits_from w (S j) ∧ i ≤ j < 64
  | None => bits_from w i = []
  end.
Proof.
  unfold bits_from. remember (64 - i) as k eqn:Hk. revert i Hk. induction k as [|k IH]; intros i Hk; [done|].
  cbn [seq]. rewrite filter_cons. case_decide as Hb.
  - cbn [head]. replace (64 - S i) with k by lia. split; [done|lia].
  - specialize (IH (S i) ltac:(lia)). destruct (head _) as [j|]; [|done]. destruct IH as [-> ?]. split; [done|lia].
Qed.

Lemma ctz_shiftr w i : is_word w → i < 64 → i + ctz (Z.shiftr w (Z.of_nat i)) = default (i + 64) (head (bits_from w i)).
Proof.
  intros Hw Hi. unfold ctz, word_bits, bits_from.
  assert (∀ s k, s ≤ k → 64 ≤ i + k →
    default (i + 64) ((λ j, i + j) <$> head (filter (λ j, Z.testbit (Z.shiftr w (Z.of_nat i)) (Z.of_nat j) = true) (seq s (k - s)))) =
    default (i + 64) (head (filter (λ j, Z.testbit w (Z.of_nat j) = true) (seq (i + s) (64 - (i + s)))))) as Hgen.
  { apply is_word_testbit in Hw as [_ Hw]. intros s k.
    intros Hs Hk. remember (k - s) as d eqn:Hd. revert s Hs Hd. induction d as [|d IH]; intros s Hs Hd.
    - replace (64 - (i + s)) with 0 by lia. done.
    - cbn [seq]. rewrite filter_cons. rewrite Z.shiftr_spec by lia.
      replace (Z.of_nat s + Z.of_nat i)%Z with (Z.of_nat (i + s)) by lia.
      destruct (decide (i + s < 64)) as [Hlt|Hge].
      + replace (64 - (i + s)) with (S (64 - (i + S s))) by lia. cbn [seq]. rewrite filter_cons.
        case_decide; [done|]. replace (S (i + s)) with (i + S s) by lia. apply (IH (S s)); lia.
      + rewrite decide_False by (rewrite Hw by lia; done).
        replace (64 - (i + s)) with 0 by lia. specialize (IH (S s)). replace (64 - (i + S s)) with 0 in IH by lia.
        apply IH; lia. }
  specialize (Hgen 0 64 ltac:(lia) ltac:(lia)). rewrite Nat.add_0_r in Hgen. rewrite <- Hgen.
  by destruct (head _).
Qed.

Lemma nextSet_one_word b w i : one_word b w → Bits.nextSet b i = head (bits_from w i).
Proof.
  intros [Hin Hp Hw _]. unfold Bits.nextSet, nextSetBit. rewrite Hp. cbn [array].
  destruct (decide (i < 64)) as [Hi|Hi].
  - rewrite Nat.div_small, Nat.mod_small by done. cbn [lookup list_lookup mbind option_bind drop list_find].
    pose proof (ctz_shiftr w i Hw Hi) as Hc. pose proof (bits_from_head w i) as Hh.
    destruct (Z.eqb_spec (Z.shiftr w (Z.of_nat i)) 0) as [E|E]; cbn [negb].
    + destruct (head _) as [j|] eqn:Ej; [|done]. exfalso. destruct Hh as [Hl Hj].
      assert (j ∈ bits_from w i) as Hin' by (rewrite Hl; left).
      unfold bits_from in Hin'. apply list_elem_of_filter in Hin' as [Hb _].
      assert (Z.testbit (Z.shiftr w (Z.of_nat i)) (Z.of_nat (j - i)) = true) as Hb'.
      { rewrite Z.shiftr_spec by lia. rewrite <- Hb. f_equal. lia. }
      by rewrite E, Z.bits_0 in Hb'.
    + destruct (head _) as [j|]; [by rewrite Hc|]. exfalso. apply E.
      apply Z.bits_inj'. intros n Hn. rewrite Z.shiftr_spec, Z.bits_0 by done.
      apply is_word_testbit in Hw as [_ Hw]. destruct (Z.leb_spec 64 (n + Z.of_nat i)); [by apply Hw|].
      destruct (Z.testbit w (n + Z.of_nat i)) eqn:Eb; [|done]. exfalso.
      assert (Z.to_nat (n + Z.of_nat i) ∈ bits_from w i) as Hin'; [|rewrite Hh in Hin'; by apply not_elem_of_nil in Hin'].
      unfold bits_from. apply list_elem_of_filter. rewrite Z2Nat.id, elem_of_seq by lia. split; [done|lia].
  - assert (1 ≤ i / 64) by (apply Nat.div_le_lower_bound; lia). rewrite (lookup_ge_None_2 [w]) by done. cbn.
    unfold bits_from. by replace (64 - i) with 0 by lia.
Qed.

Lemma set_bits_one_word b w : one_word b w → Bits.set_bits b = word_bits w.
Proof.
  intros Hb. assert (∀ fuel i, 65 - i ≤ fuel → Bits.set_bits_from fuel b i = bits_from w i) as H.
  { induction fuel as [|fuel IH]; intros i Hf; cbn [Bits.set_bits_from].
    - unfold bits_from. by replace (64 - i) with 0 by lia.
    - rewrite (nextSet_one_word b w i Hb). pose proof (bits_from_head w i) as Hh.
      destruct (head _) as [j|]; [|done]. destruct Hh as [-> ?]. f_equal. apply IH. lia. }
  unfold Bits.set_bits. rewrite H; [done|]. unfold Bits.size. by rewrite (ow_ptr _ _ Hb).
Qed.

Lemma den_one_word b w : one_word b w → den b = word_set w.
Proof. intros Hb. unfold den. cbn [bs_members BitSet_impl]. by rewrite (set_bits_one_word b w Hb). Qed.

(** An operation that replaces the word. *)
Lemma one_word_setWords b w : isStoredInline b = true → is_word w → one_word (setWords (mkBitset [w] 1) b) w.
Proof. by split. Qed.

Lemma copyOther_one_word b w : one_word b w → copyOther b = b.
Proof. intros Hb. unfold copyOther. by rewrite (ow_inline _ _ Hb). Qed.

Definition small (b : BitSet) : Prop := ∃ w, one_word b w.

Lemma small_empty : one_word setToEmptyAndInline 0.
Proof. by split. Qed.

Lemma small_get b w i : one_word b w → Bits.get b i = bool_decide (i ∈ word_set w).
Proof.
  intros [Hin Hp Hw _]. unfold Bits.get, bitset_get. rewrite Hp. cbn [array].
  destruct (decide (i < 64)) as [Hi|Hi].
  - rewrite Nat.div_small by done. cbn [lookup list_lookup]. rewrite land_mask by done. by rewrite Nat.mod_small.
  - assert (1 ≤ i / 64) by (apply Nat.div_le_lower_bound; lia). rewrite (lookup_ge_None_2 [w]) by done.
    symmetry. apply bool_decide_eq_false. rewrite elem_of_word_set. lia.
Qed.

Lemma small_set b w i :
  one_word b w → i < 64 → ∃ b', Bits.set i b = Ok b' ∧ one_word b' (Z.lor w (bit_mask i)).
Proof.
  intros [Hin Hp Hw _] Hi. unfold Bits.set, ensureCapacity, words_for.
  assert ((i + 63) / 64 < 2) by (apply Nat.div_lt_upper_bound; lia).
  rewrite Hp. cbn [capacity]. destruct (Nat.leb_spec ((i + 63) / 64) 1); [|lia].
  rewrite Hp, Hin. unfold bitset_set, arraysize. cbn [array length negb]. rewrite Nat.div_small by done.
  cbn [Nat.leb mbind res_bind mret res_ret array capacity alter list_alter]. eexists. split; [done|]. apply one_word_setWords; auto.
Qed.

Lemma small_unset b w i : one_word b w → one_word (Bits.unset i b) (if decide (i < 64) then Z.ldiff w (bit_mask i) else w).
Proof.
  intros [Hin Hp Hw _]. unfold Bits.unset, bitset_unset. rewrite Hp. cbn [array capacity].
  case_decide as Hi.
  - rewrite Nat.div_small by done.
    cbn [alter list_alter]. apply one_word_setWords; [done|by apply is_word_ldiff].
  - assert (1 ≤ i / 64) by (apply Nat.div_le_lower_bound; lia).
    assert (alter (λ w, Z.ldiff w (bit_mask i)) (i / 64) [w] = [w]) as ->; [|by apply one_word_setWords].
    destruct (i / 64) as [|[|k]] eqn:E; [lia|done|done].
Qed.

Lemma small_or a b v w : one_word a v → one_word b w → one_word (Bits.bitset_or a b) (Z.lor v w).
Proof.
  intros Ha Hb. unfold Bits.bitset_or, Bits.inplaceUnion. rewrite (copyOther_one_word _ _ Ha).
  destruct Ha as [Hia Hpa Hwa _], Hb as [Hib Hpb Hwb _].
  unfold ensureCapacity, Bits.size. rewrite Hpa, Hpb. cbn [capacity arraysize array length].
  change (words_for (1 * 64) <=? 1) with true. cbv iota. rewrite Hpa.
  change (bitset_inplace_union (mkBitset [v] 1) (mkBitset [w] 1)) with (mkBitset [Z.lor v w] 1).
  apply one_word_setWords; auto.
Qed.

Lemma small_and a b v w : one_word a v → one_word b w → one_word (Bits.bitset_and a b) (Z.land v w).
Proof.
  intros Ha Hb. unfold Bits.bitset_and, Bits.inplaceIntersection. rewrite (copyOther_one_word _ _ Ha).
  destruct Ha as [Hia Hpa Hwa _], Hb as [Hib Hpb Hwb _]. rewrite Hpa, Hpb.
  change (bitset_inplace_intersection (mkBitset [v] 1) (mkBitset [w] 1)) with (mkBitset [Z.land v w] 1).
  apply one_word_setWords; auto.
Qed.

Lemma small_minus a b v w : one_word a v → one_word b w → one_word (Bits.bitset_minus a b) (Z.ldiff v w).
Proof.
  intros Ha Hb. unfold Bits.bitset_minus, Bits.inplaceDifference. rewrite (copyOther_one_word _ _ Ha).
  destruct Ha as [Hia Hpa Hwa _], Hb as [Hib Hpb Hwb _]. rewrite Hpa, Hpb.
  change (bitset_inplace_difference (mkBitset [v] 1) (mkBitset [w] 1)) with (mkBitset [Z.ldiff v w] 1).
  apply one_word_setWords; auto.
Qed.

Lemma small_count b w : one_word b w → Bits.count b = size (word_set w).
Proof.
  intros [Hin Hp Hw Hc]. unfold Bits.count. rewrite <- popcount_size.
  destruct (mCountDirty b); [|by apply Hc]. rewrite Hp. unfold bitset_count. cbn [array]. simpl. lia.
Qed.

Lemma small_intersectionCount a b v w :
  one_word a v → one_word b w → Bits.intersectionCount a b = size (word_set v ∩ word_set w).
Proof.
  intros [_ Hpa _ _] [_ Hpb _ _]. unfold Bits.intersectionCount, bitset_intersection_count. rewrite Hpa, Hpb.
  cbn [array zip_with]. rewrite <- word_set_land, <- popcount_size. simpl. lia.
Qed.

Lemma small_empty_iff b w : one_word b w → Bits.empty b = bool_decide (word_set w = ∅).
Proof.
  intros Hb. unfold Bits.empty. rewrite (nextSet_one_word b w 0 Hb). change (bits_from w 0) with (word_bits w).
  symmetry. destruct (word_bits w) as [|j l] eqn:E; cbn [head].
  - apply bool_decide_eq_true. unfold word_set. by rewrite E.
  - apply bool_decide_eq_false. unfold word_set. rewrite E. set_solver.
Qed.

Lemma small_max b w : one_word b w → word_set w ≠ ∅ → Bits.max b ∈ word_set w.
Proof.
  intros [_ Hp Hw _] Hne. unfold Bits.max, bitset_maximum. rewrite Hp. unfold arraysize. cbn [array length bitset_maximum_loop lookup list_lookup].
  destruct (Z.eqb_spec w 0) as [->|Hw0]; [by rewrite word_set_0 in Hne|].
  rewrite Nat.mul_0_l, Nat.add_0_r. apply elem_of_word_set.
  assert (0 < w)%Z by (destruct Hw; lia). assert (Z.log2 w < 64)%Z by (apply Z.log2_lt_pow2; [done|by destruct Hw]).
  pose proof (Z.log2_nonneg w). split; [lia|]. rewrite Z2Nat.id by done. by apply Z.bit_log2.
Qed.

Lemma small_eq a b v w : one_word a v → one_word b w → Bits.bitset_eq a b = bool_decide (word_set v = word_set w).
Proof.
  intros [_ Hpa Hv _] [_ Hpb Hw _]. unfold Bits.bitset_eq, bitset_equal. rewrite Hpa, Hpb. cbn [array zip_with forallb fst snd].
  rewrite andb_true_r. apply eq_bool_prop_intro. rewrite bool_decide_spec, Is_true_true, Z.eqb_eq.
  split; [by intros ->|by apply word_ext].
Qed.

Lemma small_subseteq a b v w : one_word a v → one_word b w → Bits.isSubsetEq a b = bool_decide (word_set v ⊆ word_set w).
Proof.
  intros [_ Hpa Hv _] [_ Hpb Hw _]. unfold Bits.isSubsetEq, bitset_subseteq. rewrite Hpa, Hpb. cbn [array zip_with forallb fst snd].
  rewrite andb_true_r. apply eq_bool_prop_intro. rewrite bool_decide_spec, Is_true_true, Z.eqb_eq. split.
  - intros E. rewrite <- E, word_set_land. set_solver.
  - intros Hs. apply word_ext; [auto|done|]. rewrite word_set_land. set_solver.
Qed.

Ltac bits_simpl :=
  cbn [bs_empty bs_sized bs_set bs_unset bs_get bs_count bs_isEmpty bs_max bs_or bs_and bs_minus
       bs_intersectionCount bs_eq bs_subseteq bs_members BitSet_impl].

#[export] Program Instance BitSet_laws : BitSetLaws BitSet 64 := {| bs_ok := small |}.
Next Obligation. intros b i [w Hb]. bits_simpl. rewrite (den_one_word b w Hb), elem_of_word_set. naive_solver. Qed.
Next Obligation. intros b [w Hb]. bits_simpl. rewrite (set_bits_one_word b w Hb). apply NoDup_word_bits. Qed.
Next Obligation. bits_simpl. split; [by eexists; apply small_empty|]. by rewrite (den_one_word _ _ small_empty), word_set_0. Qed.
Next Obligation.
  intros n Hn. bits_simpl. unfold setToEmptyWithCapacity. change INLINE_NBITS with 64. destruct (Nat.ltb_spec 64 n); [lia|].
  split; [by eexists; apply small_empty|]. by rewrite (den_one_word _ _ small_empty), word_set_0.
Qed.
Next Obligation.
  intros i b [w Hb] Hi. bits_simpl. destruct (small_set b w i Hb Hi) as (b' & Hs & Hb'). exists b'. split; [done|]. split; [by eexists|].
  rewrite (den_one_word _ _ Hb'), (den_one_word _ _ Hb), word_set_lor, word_set_mask, Nat.mod_small by done. set_solver.
Qed.
Next Obligation.
  intros i b [w Hb]. bits_simpl. pose proof (small_unset b w i Hb) as Hu. split; [by eexists|].
  rewrite (den_one_word _ _ Hu), (den_one_word _ _ Hb). case_decide.
  - by rewrite word_set_ldiff, word_set_mask, Nat.mod_small.
  - apply set_eq. intros j. rewrite elem_of_difference, elem_of_singleton, elem_of_word_set. naive_solver lia.
Qed.
Next Obligation. intros b i [w Hb]. bits_simpl. rewrite (den_one_word _ _ Hb). by apply small_get. Qed.
Next Obligation. intros b [w Hb]. bits_simpl. rewrite (den_one_word _ _ Hb). by apply small_count. Qed.
Next Obligation. intros b [w Hb]. bits_simpl. rewrite (den_one_word _ _ Hb). by apply small_empty_iff. Qed.
Next Obligation. intros b [w Hb]. bits_simpl. rewrite (den_one_word _ _ Hb). by apply small_max. Qed.
Next Obligation.
  intros a b [v Ha] [w Hb]. bits_simpl. pose proof (small_or a b v w Ha Hb) as H. split; [by eexists|].
  rewrite (den_one_word _ _ H), (den_one_word _ _ Ha), (den_one_word _ _ Hb). apply word_set_lor.
Qed.
Next Obligation.
  intros a b [v Ha] [w Hb]. bits_simpl. pose proof (small_and a b v w Ha Hb) as H. split; [by eexists|].
  rewrite (den_one_word _ _ H), (den_one_word _ _ Ha), (den_one_word _ _ Hb). apply word_set_land.
Qed.
Next Obligation.
  intros a b [v Ha] [w Hb]. bits_simpl. pose proof (small_minus a b v w Ha Hb) as H. split; [by eexists|].
  rewrite (den_one_word _ _ H), (den_one_word _ _ Ha), (den_one_word _ _ Hb). apply word_set_ldiff.
Qed.
Next Obligation.
  intros a b [v Ha] [w Hb]. bits_simpl. rewrite (den_one_word _ _ Ha), (den_one_word _ _ Hb). by apply small_intersectionCount.
Qed.
Next Obligation.
  intros a b [v Ha] [w Hb]. bits_simpl. rewrite (den_one_word _ _ Ha), (den_one_word _ _ Hb). by apply small_eq.
Qed.
Next Obligation.
  intros a b [v Ha] [w Hb]. bits_simpl. rewrite (den_one_word _ _ Ha), (den_one_word _ _ Hb). by apply small_subseteq.
Qed.
