(* ===== verification/QuorumIntersection.v ===== *)
(** * The quorum intersection checker

    Models [herder/QuorumIntersectionCheckerImpl.cpp] and its header: the graph of
    quorum sets as bit sets, Tarjan's algorithm for its strongly connected
    components, the contraction of a set of nodes to its largest quorum, the
    enumeration of the minimal quorums with its early exits, the two stages of the
    check, and the search for groups of nodes that could split the network.

    The checker uses bit sets through [BitSetImpl].  Random choices are an argument;
    the flag that interrupts the search, statistics and logs are left out.  A copy
    of a bit set is the bit set: copying only gives up spare capacity. *)

From S2P Require Import Prelude StateMonad QuorumSet QuorumTracker BitSet.
Open Scope nat_scope.

(** [std::vector::at]. *)
Definition at_ {A} (l : list A) (i : nat) : res A :=
  match l !! i with Some x => mret x | None => Throw OutOfRange end.

(** A loop over a vector or over the bits of a set. *)
Fixpoint foldM {A S} (f : S → A → res S) (s : S) (l : list A) : res S :=
  match l with
  | [] => mret s
  | a :: l' => s' ← f s a; foldM f s' l'
  end.

Section checker.
Context {B : Type} `{BitSetImpl B}.

(** ** Quorum sets as bit sets *)

Inductive QBitSet : Type :=
| QBits (mThreshold : Z) (mNodes : B) (mInnerSets : list QBitSet) (mAllSuccessors : B).

Definition mAllSuccessors (q : QBitSet) : B := let 'QBits _ _ _ s := q in s.

Notation QGraph := (list QBitSet).

Definition getSuccessors (nodes : B) (inner : QGraph) : B :=
  foldl (λ out i, bs_or out (mAllSuccessors i)) nodes inner.

(** The constructor. *)
Definition mkQBitSet (threshold : Z) (nodes : B) (innerSets : QGraph) : QBitSet :=
  QBits threshold nodes innerSets (getSuccessors nodes innerSets).

(** ** Strongly connected components *)

Record SCCNode : Type := mkSCCNode { mIndex : Z; mLowLink : Z; mOnStack : bool }.

(** The top of the stack is its first element. *)
Record TarjanSCCCalculator : Type := mkTarjan {
  mNodes : list SCCNode;
  mStack : list nat;
  mNextIndex : Z;
  mSCCs : list B
}.

Definition setNode (i : nat) (n : SCCNode) (s : TarjanSCCCalculator) : TarjanSCCCalculator :=
  mkTarjan (<[i := n]> (mNodes s)) (mStack s) (mNextIndex s) (mSCCs s).

Definition nodeAt (i : nat) : M TarjanSCCCalculator SCCNode := reads (λ s, at_ (mNodes s) i).

(** [v.mLowLink = std::min(v.mLowLink, l)]. *)
Definition lowerLink (i : nat) (l : Z) : M TarjanSCCCalculator unit :=
  v ← nodeAt i;
  modify (setNode i (mkSCCNode (mIndex v) (Z.min (mLowLink v) l) (mOnStack v))).

(** The [do ... while] loop that empties the stack down to [i]. *)
Fixpoint popSCC (i : nat) (newScc : B) (stack : list nat) : M TarjanSCCCalculator B :=
  match stack with
  | [] => throw NullDereference
  | j :: stack' =>
      newScc ← reads (λ _, bs_set j newScc);
      modify (λ s, mkTarjan (mNodes s) stack' (mNextIndex s) (mSCCs s));;
      v ← nodeAt j;
      modify (setNode j (mkSCCNode (mIndex v) (mLowLink v) false));;
      if j =? i then mret newScc else popSCC i newScc stack'
  end.

Section tarjan.
Context (mGraph : QGraph).

(** The edges out of [i]. *)
Fixpoint sccEdges (scc : nat → M TarjanSCCCalculator unit) (i : nat) (succ : list nat) :
    M TarjanSCCCalculator unit :=
  match succ with
  | [] => mret tt
  | j :: succ' =>
      w ← nodeAt j;
      (if (mIndex w =? -1)%Z then
         scc j;;
         w ← nodeAt j;
         lowerLink i (mLowLink w)
       else if mOnStack w then lowerLink i (mIndex w)
       else mret tt);;
      sccEdges scc i succ'
  end.

Fixpoint scc (fuel : nat) (i : nat) : M TarjanSCCCalculator unit :=
  match fuel with
  | O => throw OutOfFuel
  | S fuel' =>
      _ ← nodeAt i;
      modify (λ s, mkTarjan (<[i := mkSCCNode (mNextIndex s) (mNextIndex s) true]> (mNodes s))
                     (i :: mStack s) (mNextIndex s + 1)%Z (mSCCs s));;
      q ← reads (λ _, at_ mGraph i);
      sccEdges (scc fuel') i (bs_members (mAllSuccessors q));;
      v ← nodeAt i;
      if (mLowLink v =? mIndex v)%Z then
        newScc ← reads (λ _, bs_set i bs_empty);
        stack ← gets mStack;
        newScc ← popSCC i newScc stack;
        modify (λ s, mkTarjan (mNodes s) (mStack s) (mNextIndex s) (mSCCs s ++ [newScc]))
      else mret tt
  end.

(** The recursion visits a new node each time: as many calls as nodes are enough. *)
Fixpoint sccLoop (nodes : list nat) : M TarjanSCCCalculator unit :=
  match nodes with
  | [] => mret tt
  | i :: nodes' =>
      v ← nodeAt i;
      (if (mIndex v =? -1)%Z then scc (length mGraph) i else mret tt);;
      sccLoop nodes'
  end.

Definition calculateSCCs : res (list B) :=
  '(_, s) ← sccLoop (seq 0 (length mGraph))
              (mkTarjan (replicate (length mGraph) (mkSCCNode (-1) (-1) false)) [] 0 []);
  mret (mSCCs s).
End tarjan.

(** ** Quorums in the graph *)

Section graph.
Context (mGraph : QGraph).

Fixpoint containsQuorumSlice (bs : B) (qbs : QBitSet) : bool :=
  match qbs with
  | QBits mThreshold mNodes mInnerSets mAllSuccessors =>
      let intersecting := Z.of_nat (bs_intersectionCount bs mNodes) in
      if (mThreshold <=? intersecting)%Z then true
      else
        let innerThreshold := (mThreshold - intersecting)%Z in
        if (Z.of_nat (length mInnerSets) <? innerThreshold)%Z then false
        else if (Z.of_nat (bs_intersectionCount bs mAllSuccessors) <? mThreshold)%Z then false
        else
          let innerFailLimit := (Z.of_nat (length mInnerSets) - innerThreshold + 1)%Z in
          (fix loop (inner : QGraph) (innerThreshold innerFailLimit : Z) : bool :=
             match inner with
             | [] => false
             | i :: inner' =>
                 if containsQuorumSlice bs i then
                   if (innerThreshold - 1 =? 0)%Z then true else loop inner' (innerThreshold - 1)%Z innerFailLimit
                 else
                   if (innerFailLimit - 1 =? 0)%Z then false else loop inner' innerThreshold (innerFailLimit - 1)%Z
             end) mInnerSets innerThreshold innerFailLimit
  end.

Definition containsQuorumSliceForNode (bs : B) (node : nat) : res bool :=
  if negb (bs_get bs node) then mret false
  else q ← at_ mGraph node; mret (containsQuorumSlice bs q).

(** One round of the loop below. *)
Definition filterSatisfied (nodes : B) : res B :=
  foldM (λ filtered i, ok ← containsQuorumSliceForNode nodes i; if (ok : bool) then bs_set i filtered else mret filtered)
    (bs_sized (bs_count nodes)) (bs_members nodes).

(** Each round that does not end the loop removes a node. *)
Fixpoint contractLoop (fuel : nat) (nodes : B) : res B :=
  match fuel with
  | O => Throw OutOfFuel
  | S fuel' =>
      filtered ← filterSatisfied nodes;
      if (bs_count filtered =? bs_count nodes) || bs_isEmpty filtered then mret filtered
      else contractLoop fuel' filtered
  end.

Definition contractToMaximalQuorum (nodes : B) : res B := contractLoop (S (bs_count nodes)) nodes.

Definition isAQuorum (nodes : B) : res bool :=
  q ← contractToMaximalQuorum nodes; mret (negb (bs_isEmpty q)).

(** The loop over the nodes: whether none can be left out. *)
Fixpoint minimalLoop (minQ : B) (nodes : list nat) : res bool :=
  match nodes with
  | [] => mret true
  | i :: nodes' =>
      let minQ := bs_unset i minQ in
      q ← isAQuorum minQ;
      if (q : bool) then mret false
      else minQ ← bs_set i minQ; minimalLoop minQ nodes'
  end.

Definition isMinimalQuorum (nodes : B) : res bool :=
  q ← contractToMaximalQuorum nodes;
  cassert (bs_eq q nodes);;
  if bs_isEmpty nodes then mret false else minimalLoop nodes (bs_members nodes).

(** ** The enumeration of minimal quorums *)

(** Whether the [n]-th call of [rand_uniform(0, maxCount)] in the search that has
    committed to some nodes and has some remaining returns zero. *)
Context (randZero : B → B → nat → bool).

Record PickState : Type := mkPick {
  inDegrees : list nat;
  maxNode : nat;
  maxCount : nat;
  maxDegree : nat;
  draws : nat
}.

Definition pickEdge (committed remaining : B) (s : PickState) (j : nat) : res PickState :=
  d ← at_ (inDegrees s) j;
  let currDegree := S d in
  let inDegrees := <[j := currDegree]> (inDegrees s) in
  if maxDegree s <=? currDegree then
    if currDegree =? maxDegree s then
      let maxCount := S (maxCount s) in
      if randZero committed remaining (draws s)
      then mret (mkPick inDegrees (maxNode s) maxCount (maxDegree s) (S (draws s)))
      else mret (mkPick inDegrees j maxCount currDegree (S (draws s)))
    else mret (mkPick inDegrees j 1 currDegree (draws s))
  else mret (mkPick inDegrees (maxNode s) (maxCount s) (maxDegree s) (draws s)).

Definition pickSplitNode (committed remaining : B) : res nat :=
  cassert (negb (bs_isEmpty remaining));;
  s ← foldM (λ s i, q ← at_ mGraph i;
                    foldM (pickEdge committed remaining) s (bs_members (bs_and (mAllSuccessors q) remaining)))
        (mkPick (replicate (length mGraph) 0) (bs_max remaining) 1 0 0) (bs_members remaining);
  mret (maxNode s).

Definition maxCommit (scanSCC : B) : nat := bs_count scanSCC / 2 + 1.

(** The two quorums that [noteFoundDisjointQuorums] reports, if any. *)
Definition hasDisjointQuorum (scanSCC nodes : B) : res (option (B * B)) :=
  disj ← contractToMaximalQuorum (bs_minus scanSCC nodes);
  mret (if bs_isEmpty disj then None else Some (nodes, disj)).

(** One node less remains in each recursive call. *)
Fixpoint anyMinQuorumHasDisjointQuorum (fuel : nat) (scanSCC committed remaining : B) : res (option (B * B)) :=
  match fuel with
  | O => Throw OutOfFuel
  | S fuel' =>
      let perimeter := bs_or committed remaining in
      if maxCommit scanSCC <? bs_count committed then mret None
      else
        committedQuorum ← contractToMaximalQuorum committed;
        if negb (bs_isEmpty committedQuorum) then
          minimal ← isMinimalQuorum committedQuorum;
          if (minimal : bool) then hasDisjointQuorum scanSCC committedQuorum else mret None
        else
          extensionQuorum ← contractToMaximalQuorum perimeter;
          if bs_isEmpty extensionQuorum then mret None
          else if negb (bs_subseteq committed extensionQuorum) then mret None
          else if bs_isEmpty remaining then mret None
          else
            split ← pickSplitNode committed remaining;
            let remaining := bs_unset split remaining in
            r ← anyMinQuorumHasDisjointQuorum fuel' scanSCC committed remaining;
            match r with
            | Some _ => mret r
            | None =>
                committed ← bs_set split committed;
                anyMinQuorumHasDisjointQuorum fuel' scanSCC committed remaining
            end
  end.

(** ** The check *)

(** The first stage: the component to scan and, when two components have quorums,
    the two quorums. *)
Fixpoint findScanSCC (scanSCC : B) (sccs : list B) : res (B * option (B * B)) :=
  match sccs with
  | [] => mret (scanSCC, None)
  | scc :: sccs' =>
      q ← contractToMaximalQuorum scc;
      if bs_isEmpty q then findScanSCC scanSCC sccs'
      else if bs_isEmpty scanSCC then findScanSCC scc sccs'
      else q' ← contractToMaximalQuorum scanSCC; mret (scanSCC, Some (q', q))
  end.

(** The answer, with the split that was found when it is no. *)
Definition networkEnjoysQuorumIntersection (sccs : list B) : res (bool * option (B * B)) :=
  '(scanSCC, found) ← findScanSCC bs_empty sccs;
  if bs_isEmpty scanSCC then mret (true, None)
  else
    found ← match found with
            | Some _ => mret found
            | None => anyMinQuorumHasDisjointQuorum (S (bs_count scanSCC)) scanSCC bs_empty scanSCC
            end;
    mret (match found with Some _ => false | None => true end, found).
End graph.

(** ** The graph of a network *)

Notation PubKeyBitNums := (gmap NodeID nat).

Fixpoint convertSCPQuorumSet (mPubKeyBitNums : PubKeyBitNums) (sqs : SCPQuorumSet) : res QBitSet :=
  match sqs with
  | QSet threshold validators innerSets =>
      nodeBits ← foldM (λ nodeBits v, match mPubKeyBitNums !! v with
                                      | Some i => bs_set i nodeBits
                                      | None => mret nodeBits
                                      end)
                   (bs_sized (base.size mPubKeyBitNums)) validators;
      inner ← (fix go (l : list SCPQuorumSet) : res QGraph :=
                 match l with
                 | [] => mret []
                 | q :: l' => q' ← convertSCPQuorumSet mPubKeyBitNums q; l'' ← go l'; mret (q' :: l'')
                 end) innerSets;
      mret (mkQBitSet threshold nodeBits inner)
  end.

(** The first pass numbers the nodes that have a quorum set, in the order of the
    map. *)
Definition numberNode (acc : list NodeID * PubKeyBitNums) (kv : NodeID * NodeInfo) : list NodeID * PubKeyBitNums :=
  let '(mBitNumPubKeys, mPubKeyBitNums) := acc in
  match mQuorumSet kv.2 with
  | Some _ => (mBitNumPubKeys ++ [kv.1], <[kv.1 := length mBitNumPubKeys]> mPubKeyBitNums)
  | None => acc
  end.

Definition graphNode (mPubKeyBitNums : PubKeyBitNums) (mGraph : QGraph) (kv : NodeID * NodeInfo) : res QGraph :=
  match mQuorumSet kv.2 with
  | Some q =>
      match mPubKeyBitNums !! kv.1 with
      | Some nodeNum =>
          cassert (nodeNum =? length mGraph);;
          qb ← convertSCPQuorumSet mPubKeyBitNums (ptr_qset q);
          mret (mGraph ++ [qb])
      | None => Throw AssertFailure
      end
  | None => mret mGraph
  end.

(** The nodes of the graph, in the order of their numbers, and the graph. *)
Definition buildGraph (qmap : list (NodeID * NodeInfo)) : res (list NodeID * QGraph) :=
  let '(mBitNumPubKeys, mPubKeyBitNums) := foldl numberNode ([], ∅) qmap in
  mGraph ← foldM (graphNode mPubKeyBitNums) [] qmap;
  mret (mBitNumPubKeys, mGraph).

(** Constructing a checker for a quorum map and asking it: the answer, and the keys
    of the nodes of the two quorums that were found. *)
Definition getPotentialSplit (mBitNumPubKeys : list NodeID) (b : B) : res (list NodeID) :=
  foldM (λ l i, k ← at_ mBitNumPubKeys i; mret (l ++ [k])) [] (bs_members b).

Definition checkIntersection (randZero : B → B → nat → bool) (qmap : list (NodeID * NodeInfo)) :
    res (bool * (list NodeID * list NodeID)) :=
  '(mBitNumPubKeys, mGraph) ← buildGraph qmap;
  sccs ← calculateSCCs mGraph;
  '(answer, found) ← networkEnjoysQuorumIntersection mGraph randZero sccs;
  match found with
  | None => mret (answer, ([], []))
  | Some (nodes, disj) =>
      first ← getPotentialSplit mBitNumPubKeys nodes;
      second ← getPotentialSplit mBitNumPubKeys disj;
      mret (answer, (first, second))
  end.

(** ** Groups of nodes that could split the network *)

Fixpoint pointsToCandidate (p : SCPQuorumSet) (candidate : NodeID) : bool :=
  match p with
  | QSet _ validators innerSets =>
      existsb (λ k, bool_decide (k = candidate)) validators ||
      existsb (λ i, pointsToCandidate i candidate) innerSets
  end.

(** [std::set] of keys, and of such sets. *)
Definition key_set (l : list NodeID) : list NodeID := foldl (λ s k, set_insert k s) [] l.

Fixpoint findCriticalityCandidates (p : SCPQuorumSet) (candidates : list (list NodeID)) (root : bool) :
    list (list NodeID) :=
  match p with
  | QSet _ validators innerSets =>
      let candidates := foldl (λ c k, set_insert [k] c) candidates validators in
      let candidates :=
        if negb root && bool_decide (innerSets = []) then set_insert (key_set validators) candidates else candidates in
      foldl (λ c i, findCriticalityCandidates i c false) candidates innerSets
  end.

(** [test_qmap[k] = info]. *)
Fixpoint qmap_set (k : NodeID) (info : NodeInfo) (m : list (NodeID * NodeInfo)) : list (NodeID * NodeInfo) :=
  match m with
  | [] => [(k, info)]
  | (k', i') :: m' => if decide (k' = k) then (k, info) :: m' else (k', i') :: qmap_set k info m'
  end.

Definition qmap_find (k : NodeID) (m : list (NodeID * NodeInfo)) : option NodeInfo :=
  snd <$> head (filter (λ kv, kv.1 = k) m).

(** The quorum set of the nodes of a group that go along with anyone. *)
Definition fickleQSet (qmap : list (NodeID * NodeInfo)) (group : list NodeID) : SCPQuorumSet :=
  let pointsToGroup :=
    key_set (flat_map (λ candidate,
      omap (λ d, match mQuorumSet d.2 with
                 | Some q => if negb (bool_decide (d.1 ∈ group)) && pointsToCandidate (ptr_qset q) candidate
                             then Some d.1 else None
                 | None => None
                 end) qmap) group) in
  QSet 2 [] [QSet (Z.of_nat (length group)) group []; QSet 1 pointsToGroup []].

Definition isCriticalGroup (randZero : B → B → nat → bool) (newAddr : Z) (qmap : list (NodeID * NodeInfo))
    (group : list NodeID) : res bool :=
  let info := mkNodeInfo (Some (mkQSetPtr newAddr (fickleQSet qmap group))) 0 ∅ in
  let test_qmap := foldl (λ m candidate, qmap_set candidate info m) qmap group in
  '(answer, _) ← checkIntersection randZero test_qmap;
  (** restoring the quorum sets of the group *)
  foldM (λ _ candidate, if qmap_find candidate qmap is Some _ then mret tt else Throw NullDereference) tt group;;
  mret (negb answer).

Definition getIntersectionCriticalGroups (randZero : B → B → nat → bool) (newAddr : Z)
    (qmap : list (NodeID * NodeInfo)) : res (list (list NodeID)) :=
  let candidates :=
    foldl (λ c kv, match mQuorumSet kv.2 with
                   | Some q => findCriticalityCandidates (ptr_qset q) c true
                   | None => c
                   end) [] qmap in
  foldM (λ critical group, c ← isCriticalGroup randZero newAddr qmap group;
                           mret (if (c : bool) then set_insert group critical else critical)) [] candidates.
End checker.
