(* ===== verification/QuorumEnumeration.v ===== *)
(** * Quorums of the graph and their enumeration

    The contraction of a set of nodes returns the largest quorum in it, and the
    enumeration of minimal quorums finds two disjoint quorums in a set of nodes
    whenever there are two disjoint minimal ones, in spite of its early exits and
    whatever nodes it splits on. *)

From S2P Require Import Prelude StateMonad QuorumSet QuorumTracker BitSet QuorumIntersection.
Open Scope nat_scope.

Section quorums.
Context {B : Type} {cap : nat} `{BL : BitSetLaws B cap}.
Local Notation QBitSet := (QBitSet (B:=B)).
Local Notation QGraph := (list QBitSet).
Implicit Types (b : B) (q : QBitSet) (g : QGraph) (X Y Q : gset nat) (i j : nat).

Lemma elem_of_den i b : i ∈ den b ↔ i ∈ bs_members b.
Proof. unfold den. apply elem_of_list_to_set. Qed.

(** ** Slices *)

Section qbitset_ind.
Context (P : QBitSet → Prop) (HQ : ∀ t n inner s, Forall P inner → P (QBits t n inner s)).

Fixpoint qbitset_nested_ind (q : QBitSet) : P q :=
  match q with
  | QBits t n inner s =>
      HQ t n inner s ((fix go (l : list QBitSet) : Forall P l :=
                     match l with
                     | [] => Forall_nil_2 P
                     | x :: l' => Forall_cons_2 P x l' (qbitset_nested_ind x) (go l')
                     end) inner)
  end.
End qbitset_ind.

(** The set contains enough of the entries. *)
Fixpoint sat (X : gset nat) (q : QBitSet) : bool :=
  match q with
  | QBits t n inner _ => (t <=? Z.of_nat (size (X ∩ den n)) + ctrue (map (sat X) inner))%Z
  end.

Definition succs (q : QBitSet) : gset nat := den (mAllSuccessors q).

(** Successors are the nodes of the quorum set and of its inner sets, no node is
    named twice, and inner sets are not satisfied for free. *)
Inductive qb_ok : QBitSet → Prop :=
| qb_ok_intro t n inner s :
    bs_ok n → bs_ok s → den s = den n ∪ ⋃ (succs <$> inner) →
    Forall qb_ok inner → Forall (λ q, den n ## succs q) inner →
    (∀ k l q r, inner !! k = Some q → inner !! l = Some r → k ≠ l → succs q ## succs r) →
    Forall (λ q, sat ∅ q = false) inner →
    qb_ok (QBits t n inner s).

Lemma elem_of_succs_list j (l : list QBitSet) : j ∈ ⋃ (succs <$> l) ↔ ∃ q, q ∈ l ∧ j ∈ succs q.
Proof. rewrite elem_of_union_list. setoid_rewrite list_elem_of_fmap. naive_solver. Qed.

Lemma sat_ext X Y q : qb_ok q → (∀ j, j ∈ succs q → j ∈ X ↔ j ∈ Y) → sat X q = sat Y q.
Proof.
  induction q as [t n inner s IH] using qbitset_nested_ind. intros Hq HXY. inversion_clear Hq as [? ? ? ? Hn Hs Hsucc Hi _ _ _].
  unfold succs in HXY. cbn [mAllSuccessors] in HXY. rewrite Hsucc in HXY. cbn [sat].
  assert (X ∩ den n = Y ∩ den n) as ->.
  { apply set_eq. intros j. specialize (HXY j). rewrite !elem_of_intersection. rewrite elem_of_union in HXY. naive_solver. }
  f_equal. f_equal. f_equal. apply map_ext_elem. intros q Hin. rewrite Forall_forall in IH, Hi.
  apply IH; [done|by apply Hi|]. intros j Hj. apply HXY, elem_of_union. right. apply elem_of_succs_list. eauto.
Qed.

Lemma sat_mono X Y q : X ⊆ Y → sat X q = true → sat Y q = true.
Proof.
  intros HXY. induction q as [t n inner s IH] using qbitset_nested_ind. cbn [sat]. rewrite !Z.leb_le.
  assert (size (X ∩ den n) ≤ size (Y ∩ den n)) by (apply subseteq_size; set_solver).
  rewrite Forall_forall in IH. pose proof (ctrue_map_mono (sat X) (sat Y) inner IH). lia.
Qed.

(** A satisfied inner set has a node in the set. *)
Lemma sat_meets X q : qb_ok q → sat ∅ q = false → sat X q = true → X ∩ succs q ≠ ∅.
Proof.
  intros Hq H0 HX E. rewrite (sat_ext X ∅ q Hq) in HX; [congruence|]. intros j Hj. set_solver.
Qed.

(** Inner sets without common nodes: each satisfied one takes a node of its own. *)
Lemma satisfied_count X inner :
  Forall qb_ok inner → Forall (λ q, sat ∅ q = false) inner →
  (∀ k l q r, inner !! k = Some q → inner !! l = Some r → k ≠ l → succs q ## succs r) →
  (ctrue (map (sat X) inner) ≤ Z.of_nat (size (X ∩ ⋃ (succs <$> inner))))%Z.
Proof.
  induction inner as [|q inner IH]; intros Hok H0 Hd; [cbn [map]; rewrite ctrue_nil; lia|].
  apply Forall_cons in Hok as [Hq Hok], H0 as [Hq0 H0]. cbn [map fmap list_fmap]. rewrite ctrue_cons.
  assert (ctrue (map (sat X) inner) ≤ Z.of_nat (size (X ∩ ⋃ (succs <$> inner))))%Z as IH'.
  { apply IH; [done|done|]. intros k l a b Ha Hb Hkl. apply (Hd (S k) (S l)); [done|done|lia]. }
  assert (X ∩ succs q ## X ∩ ⋃ (succs <$> inner)) as Hdis.
  { intros j [_ H1]%elem_of_intersection [_ (r & Hr & H2)%elem_of_succs_list]%elem_of_intersection.
    apply list_elem_of_lookup in Hr as [l Hl]. exact (Hd 0 (S l) q r eq_refl Hl ltac:(lia) j H1 H2). }
  replace (X ∩ ⋃ (succs q :: (succs <$> inner))) with ((X ∩ succs q) ∪ (X ∩ ⋃ (succs <$> inner))) by (simpl; set_solver).
  rewrite size_union by done. destruct (sat X q) eqn:E; [|lia].
  pose proof (sat_meets X q Hq Hq0 E) as Hne. assert (size (X ∩ succs q) ≠ 0) by (by intros ?%size_empty_inv%leibniz_equiv). lia.
Qed.

(** The loop over the inner sets, with its two limits. *)
Lemma contains_loop (X : gset nat) (f : QBitSet → bool) inner th fl :
  (0 < th)%Z → (0 < fl)%Z → (fl = Z.of_nat (length inner) - th + 1)%Z →
  (fix loop (inner : QGraph) (innerThreshold innerFailLimit : Z) : bool :=
     match inner with
     | [] => false
     | i :: inner' =>
         if f i then
           if (innerThreshold - 1 =? 0)%Z then true else loop inner' (innerThreshold - 1)%Z innerFailLimit
         else
           if (innerFailLimit - 1 =? 0)%Z then false else loop inner' innerThreshold (innerFailLimit - 1)%Z
     end) inner th fl = (th <=? ctrue (map f inner))%Z.
Proof.
  intros Ht Hf Hl. revert th fl Ht Hf Hl. induction inner as [|q inner IH]; intros th fl Ht Hf Hl; cbn [map].
  - rewrite ctrue_nil. symmetry. apply Z.leb_gt. lia.
  - rewrite ctrue_cons. cbn [length] in Hl. pose proof (ctrue_bounds (map f inner)) as Hb. rewrite length_map in Hb.
    destruct (f q).
    + destruct (Z.eqb_spec (th - 1) 0); [symmetry; apply Z.leb_le; lia|]. rewrite IH by lia.
      apply eq_bool_prop_intro. rewrite !Is_true_true, !Z.leb_le. lia.
    + destruct (Z.eqb_spec (fl - 1) 0); [symmetry; apply Z.leb_gt; lia|]. by rewrite IH by lia.
Qed.

Lemma containsQuorumSlice_sat b q : bs_ok b → qb_ok q → containsQuorumSlice b q = sat (den b) q.
Proof.
  intros Hb. induction q as [t n inner s IH] using qbitset_nested_ind. intros Hq.
  inversion_clear Hq as [? ? ? ? Hn Hs Hsucc Hok Hdn Hdi H0].
  cbn [containsQuorumSlice sat]. rewrite !law_intersectionCount by done.
  set (X := den b) in *. set (k := Z.of_nat (size (X ∩ den n))).
  assert (map (containsQuorumSlice b) inner = map (sat X) inner) as Hm.
  { apply map_ext_elem. intros q Hin. rewrite Forall_forall in IH, Hok. by apply IH, Hok. }
  pose proof (ctrue_bounds (map (sat X) inner)) as Hc. rewrite length_map in Hc.
  destruct (Z.leb_spec t k); [symmetry; apply Z.leb_le; lia|].
  destruct (Z.ltb_spec (Z.of_nat (length inner)) (t - k)); [symmetry; apply Z.leb_gt; lia|].
  destruct (Z.ltb_spec (Z.of_nat (size (X ∩ den s))) t) as [Hlt|_].
  - symmetry. apply Z.leb_gt. pose proof (satisfied_count X inner Hok H0 Hdi) as Hsat.
    rewrite Hsucc in Hlt. replace (X ∩ (den n ∪ ⋃ (succs <$> inner))) with ((X ∩ den n) ∪ (X ∩ ⋃ (succs <$> inner))) in Hlt by set_solver.
    rewrite size_union in Hlt; [lia|].
    intros j [_ Hj]%elem_of_intersection [_ (r & Hr & Hj')%elem_of_succs_list]%elem_of_intersection.
    rewrite Forall_forall in Hdn. exact (Hdn r Hr j Hj Hj').
  - rewrite (contains_loop X (containsQuorumSlice b)) by lia. rewrite Hm.
    apply eq_bool_prop_intro. rewrite !Is_true_true, !Z.leb_le. lia.
Qed.

(** ** Quorums *)

Section graph.
Context (g : QGraph).
Hypothesis (Hcap : length g ≤ cap).
Hypothesis (Hg : ∀ i q, g !! i = Some q → qb_ok q).

(** Node [i] has a slice in the set. *)
Definition satisfied (X : gset nat) (i : nat) : bool :=
  match g !! i with Some q => sat X q | None => false end.

Definition quorum (Q : gset nat) : Prop := Q ≠ ∅ ∧ ∀ i, i ∈ Q → satisfied Q i = true.

Lemma satisfied_mono X Y i : X ⊆ Y → satisfied X i = true → satisfied Y i = true.
Proof. unfold satisfied. destruct (g !! i); [apply sat_mono|done]. Qed.

Lemma quorum_bound Q i : quorum Q → i ∈ Q → i < length g.
Proof. intros [_ HQ] Hi. specialize (HQ i Hi). unfold satisfied in HQ. destruct (g !! i) eqn:E; [|done]. by eapply lookup_lt_Some. Qed.

(** [M] is the union of the quorums in [X]. *)
Record contracts_to (X M : gset nat) : Prop := {
  ct_sub : M ⊆ X;
  ct_sat : ∀ i, i ∈ M → satisfied M i = true;
  ct_max : ∀ Q, quorum Q → Q ⊆ X → Q ⊆ M
}.

Definition nodes_ok (b : B) : Prop := bs_ok b ∧ ∀ i, i ∈ den b → i < length g.

Lemma filterSatisfied_spec b :
  nodes_ok b → ∃ b', filterSatisfied g b = Ok b' ∧ nodes_ok b' ∧
                     ∀ i, i ∈ den b' ↔ i ∈ den b ∧ satisfied (den b) i = true.
Proof.
  intros [Hb Hlt]. unfold filterSatisfied.
  destruct (law_sized (bs_count b)) as [Hok Hempty].
  { rewrite law_count by done. etrans; [|exact Hcap].
    rewrite <- (size_set_seq (C:=gset nat) 0 (length g)). apply subseteq_size. intros i Hi. apply elem_of_set_seq. specialize (Hlt i Hi). lia. }
  assert (∀ l acc, bs_ok acc → (∀ i, i ∈ l → i ∈ den b) →
    ∃ b', foldM (λ filtered i, ok ← containsQuorumSliceForNode g b i; if (ok : bool) then bs_set i filtered else mret filtered) acc l = Ok b' ∧
          bs_ok b' ∧ ∀ i, i ∈ den b' ↔ i ∈ den acc ∨ (i ∈ l ∧ satisfied (den b) i = true)) as Hfold.
  { induction l as [|i l IH]; intros acc Hacc Hl; cbn [foldM]; [exists acc; set_solver|].
    assert (i ∈ den b) as Hi by (apply Hl; left). destruct (lookup_lt_is_Some_2 g i (Hlt i Hi)) as [q Hq].
    assert (containsQuorumSliceForNode g b i = Ok (satisfied (den b) i)) as ->.
    { unfold containsQuorumSliceForNode, satisfied, at_. rewrite law_get, bool_decide_true by done. rewrite Hq. cbn [negb mbind res_bind mret res_ret].
      by rewrite (containsQuorumSlice_sat b q Hb (Hg i q Hq)). }
    cbn [mbind res_bind]. destruct (satisfied (den b) i) eqn:E.
    - destruct (law_set i acc Hacc) as (acc' & -> & Hacc' & Hden); [by specialize (Hlt i Hi); lia|]. cbn [mbind res_bind].
      destruct (IH acc' Hacc') as (b' & -> & Hb' & Hiff); [set_solver|]. exists b'. split; [done|]. split; [done|].
      intros j. rewrite Hiff, Hden. set_unfold. naive_solver.
    - cbn [mbind res_bind mret res_ret]. destruct (IH acc Hacc) as (b' & -> & Hb' & Hiff); [set_solver|].
      exists b'. split; [done|]. split; [done|]. intros j. rewrite Hiff. set_unfold. naive_solver congruence. }
  destruct (Hfold (bs_members b) (bs_sized (bs_count b)) Hok) as (b' & Hf & Hb' & Hiff).
  { intros i. by rewrite elem_of_den. }
  exists b'. split; [done|]. assert (∀ i, i ∈ den b' ↔ i ∈ den b ∧ satisfied (den b) i = true) as Hiff'.
  { intros i. rewrite Hiff, Hempty, <- elem_of_den. set_solver. }
  split; [|done]. split; [done|]. intros i [Hi _]%Hiff'. auto.
Qed.

Lemma filter_quorum X Y Q :
  (∀ i, i ∈ Y ↔ i ∈ X ∧ satisfied X i = true) → quorum Q → Q ⊆ X → Q ⊆ Y.
Proof.
  intros HY [_ HQ] HQX i Hi. apply HY. split; [by apply HQX|]. eapply satisfied_mono; [exact HQX|by apply HQ].
Qed.

Lemma contractLoop_spec fuel b :
  nodes_ok b → size (den b) < fuel →
  ∃ b', contractLoop g fuel b = Ok b' ∧ nodes_ok b' ∧ contracts_to (den b) (den b').
Proof.
  revert b. induction fuel as [|fuel IH]; intros b Hb Hf; [lia|]. cbn [contractLoop].
  destruct (filterSatisfied_spec b Hb) as (f & -> & Hfok & Hf'). cbn [mbind res_bind].
  assert (den f ⊆ den b) as Hsub by (intros i; rewrite Hf'; naive_solver).
  rewrite !law_count, law_isEmpty by (by apply Hfok || apply Hb).
  destruct (Nat.eqb_spec (size (den f)) (size (den b))) as [E|E]; cbn [orb].
  - exists f. split; [done|]. split; [done|]. assert (den f = den b) as Heq.
    { apply set_eq. intros i. split; [apply Hsub|]. intros Hi. destruct (decide (i ∈ den f)); [done|].
      assert (den f ⊂ den b) as Hlt by (split; [done|]; set_solver). apply subset_size in Hlt. lia. }
    split; [done| |intros Q HQ HQb; by eapply filter_quorum].
    intros i Hi. rewrite Heq. by apply Hf'.
  - case_bool_decide as Hemp.
    + exists f. split; [done|]. split; [done|]. split; [done|rewrite Hemp; set_solver|intros Q HQ HQb; by eapply filter_quorum].
    + pose proof (subseteq_size _ _ Hsub). destruct (IH f Hfok ltac:(lia)) as (b' & -> & Hb' & [H1 H2 H3]).
      exists b'. split; [done|]. split; [done|]. split; [by etrans|done|]. intros Q HQ HQb. apply H3; [done|]. by eapply filter_quorum.
Qed.

Lemma contract_spec b :
  nodes_ok b → ∃ b', contractToMaximalQuorum g b = Ok b' ∧ nodes_ok b' ∧ contracts_to (den b) (den b').
Proof. intros Hb. apply contractLoop_spec; [done|]. rewrite law_count by apply Hb. lia. Qed.

Lemma contracts_to_quorum X M : contracts_to X M → M ≠ ∅ → quorum M.
Proof. intros HM Hne. split; [done|apply HM]. Qed.

Lemma contracts_to_empty X M Q : contracts_to X M → M = ∅ → quorum Q → ¬ Q ⊆ X.
Proof. intros HM -> HQ HQX. pose proof (ct_max _ _ HM Q HQ HQX). destruct HQ as [Hne _]. set_solver. Qed.

Lemma contracts_to_self Q M : quorum Q → contracts_to Q M → M = Q.
Proof. intros HQ HM. apply set_eq. intros i. split; [apply HM|]. by apply (ct_max _ _ HM Q). Qed.

Lemma isAQuorum_spec b :
  nodes_ok b → ∃ r, isAQuorum g b = Ok r ∧ (r = true ↔ ∃ Q, quorum Q ∧ Q ⊆ den b).
Proof.
  intros Hb. destruct (contract_spec b Hb) as (b' & Hc & Hb' & HM). unfold isAQuorum. rewrite Hc. cbn [mbind res_bind].
  eexists. split; [done|]. rewrite law_isEmpty, negb_true_iff, bool_decide_eq_false by apply Hb'. split.
  - intros Hne. exists (den b'). split; [by eapply contracts_to_quorum|apply HM].
  - intros (Q & HQ & HQb) E. by eapply contracts_to_empty.
Qed.

(** ** Minimal quorums *)

Definition minimal_quorum (Q : gset nat) : Prop := quorum Q ∧ ∀ Q', quorum Q' → Q' ⊆ Q → Q' = Q.

(** A node without a slice in the set is in no quorum of the set. *)
Lemma quorum_in_dec X : (∃ Q, quorum Q ∧ Q ⊆ X) ∨ ¬ ∃ Q, quorum Q ∧ Q ⊆ X.
Proof.
  remember (size X) as k eqn:Hk. revert X Hk. induction (lt_wf k) as [k _ IH]. intros X ->.
  destruct (decide (X = ∅)) as [->|Hne].
  { right. intros (Q & [Hne _] & HQ). set_solver. }
  destruct (decide (set_Forall (λ i, satisfied X i = true) X)) as [Hall|(i & Hi & Hn)%not_set_Forall_Exists]; [| |apply _].
  - left. exists X. by split; [|done].
  - assert (size (X ∖ {[i]}) < size X) as Hlt by (apply subset_size; set_solver).
    destruct (IH _ Hlt (X ∖ {[i]}) eq_refl) as [(Q & HQ & HQX)|Hno]; [left; exists Q; set_solver|].
    right. intros (Q & HQ & HQX). apply Hno. exists Q. split; [done|].
    assert (i ∉ Q); [|set_solver]. intros HiQ. apply Hn. eapply satisfied_mono; [exact HQX|by apply HQ].
Qed.

Lemma not_minimal Q : (∃ i Q', i ∈ Q ∧ quorum Q' ∧ Q' ⊆ Q ∖ {[i]}) ∨ ∀ i Q', i ∈ Q → quorum Q' → ¬ Q' ⊆ Q ∖ {[i]}.
Proof.
  assert (∀ l : list nat, (∃ i Q', i ∈ l ∧ quorum Q' ∧ Q' ⊆ Q ∖ {[i]}) ∨ ∀ i Q', i ∈ l → quorum Q' → ¬ Q' ⊆ Q ∖ {[i]}) as H'.
  { induction l as [|i l [IH|IH]]; [right; set_solver|left; set_solver|].
    destruct (quorum_in_dec (Q ∖ {[i]})) as [(Q' & ? & ?)|Hno]; [left; exists i, Q'; set_solver|].
    right. intros j Q' [->|Hj]%elem_of_cons HQ' Hs; [by apply Hno; exists Q'|by eapply IH]. }
  destruct (H' (elements Q)) as [(i & Q' & Hi & ?)|Hno]; [left; exists i, Q'; set_solver|].
  right. intros i Q' Hi. apply Hno. set_solver.
Qed.

(** Every quorum contains a minimal one. *)
Lemma minimal_exists Q : quorum Q → ∃ Q', minimal_quorum Q' ∧ Q' ⊆ Q.
Proof.
  remember (size Q) as k eqn:Hk. revert Q Hk. induction (lt_wf k) as [k _ IH]. intros Q -> HQ.
  destruct (not_minimal Q) as [(i & Q' & Hi & HQ' & Hs)|Hno].
  - assert (size Q' < size Q) as Hlt by (apply subset_size; set_solver).
    destruct (IH _ Hlt Q' eq_refl HQ') as (Q2 & Hm & ?). exists Q2. split; [done|set_solver].
  - exists Q. split; [|done]. split; [done|]. intros Q' HQ' Hs. apply set_eq. intros i. split; [apply Hs|].
    intros Hi. destruct (decide (i ∈ Q')); [done|]. destruct (Hno i Q' Hi HQ'). set_solver.
Qed.

Lemma minimalLoop_spec b l :
  nodes_ok b → (∀ i, i ∈ l → i ∈ den b) →
  ∃ r, minimalLoop g b l = Ok r ∧ (r = true ↔ ∀ i Q, i ∈ l → quorum Q → ¬ Q ⊆ den b ∖ {[i]}).
Proof.
  revert b. induction l as [|i l IH]; intros b Hb Hl; cbn [minimalLoop]; [exists true; split; [done|set_solver]|].
  assert (i ∈ den b) as Hi by (apply Hl; left).
  destruct (law_unset i b) as [Hu Hden]; [apply Hb|].
  assert (nodes_ok (bs_unset i b)) as Hub by (split; [done|]; intros j; rewrite Hden; intros Hj; apply Hb; set_solver).
  destruct (isAQuorum_spec _ Hub) as (r & -> & Hr). rewrite Hden in Hr. cbn [mbind res_bind]. destruct r.
  - exists false. split; [done|]. split; [done|]. intros Hno. destruct (proj1 Hr eq_refl) as (Q & HQ & Hs).
    by destruct (Hno i Q ltac:(left) HQ).
  - destruct (law_set i (bs_unset i b) Hu) as (b' & -> & Hb' & Hden'); [pose proof (proj2 Hb i Hi); lia|]. cbn [mbind res_bind].
    assert (den b' = den b) as E.
    { rewrite Hden', Hden. apply set_eq. intros j. destruct (decide (j = i)); set_solver. }
    destruct (IH b') as (r & -> & Hr'); [split; [done|rewrite E; apply Hb]|rewrite E; set_solver|].
    exists r. split; [done|]. rewrite Hr', E. split.
    + intros Hno j Q [->|Hj]%elem_of_cons HQ Hs; [|by eapply Hno].
      assert (false = true) by (apply Hr; by exists Q). done.
    + intros Hno j Q Hj. apply Hno. by right.
Qed.

Lemma isMinimalQuorum_spec b :
  nodes_ok b → quorum (den b) → ∃ r, isMinimalQuorum g b = Ok r ∧ (r = true ↔ minimal_quorum (den b)).
Proof.
  intros Hb HQ. unfold isMinimalQuorum. destruct (contract_spec b Hb) as (b' & -> & Hb' & HM). cbn [mbind res_bind].
  rewrite (law_eq b' b) by (apply Hb' || apply Hb). rewrite bool_decide_true by (by apply contracts_to_self). cbn [cassert mbind res_bind].
  rewrite law_isEmpty by apply Hb. rewrite bool_decide_false by apply HQ.
  destruct (minimalLoop_spec b (bs_members b) Hb) as (r & -> & Hr); [intros i; by rewrite elem_of_den|].
  exists r. split; [done|]. rewrite Hr. setoid_rewrite <- elem_of_den. split.
  - intros Hno. split; [done|]. intros Q' HQ' Hs. apply set_eq. intros i. split; [apply Hs|]. intros Hi.
    destruct (decide (i ∈ Q')); [done|]. destruct (Hno i Q' Hi HQ'). set_solver.
  - intros [_ Hmin] i Q' Hi HQ' Hs. rewrite <- (Hmin Q' HQ') in Hi by set_solver. set_solver.
Qed.

(** ** The node to split on *)

Section search.
Context (randZero : B → B → nat → bool).

Lemma foldM_invariant {A S} (f : S → A → res S) (P : S → Prop) (l : list A) s :
  P s → (∀ s a, P s → a ∈ l → ∃ s', f s a = Ok s' ∧ P s') → ∃ s', foldM f s l = Ok s' ∧ P s'.
Proof.
  revert s. induction l as [|a l IH]; intros s Hs Hf; cbn [foldM]; [by exists s|].
  destruct (Hf s a Hs) as (s1 & -> & Hs1); [by left|]. cbn [mbind res_bind]. apply IH; [done|].
  intros s2 a2 Hs2 Ha2. apply Hf; [done|by right].
Qed.

Definition pick_ok (r : B) (s : PickState) : Prop := length (inDegrees s) = length g ∧ maxNode s ∈ den r.

Lemma pickEdge_spec c r s j :
  nodes_ok r → pick_ok r s → j ∈ den r → ∃ s', pickEdge randZero c r s j = Ok s' ∧ pick_ok r s'.
Proof.
  intros [Hr Hlt] [Hlen Hmax] Hj. unfold pickEdge, at_.
  destruct (lookup_lt_is_Some_2 (inDegrees s) j) as [d ->]; [rewrite Hlen; auto|]. cbn [mbind res_bind mret res_ret].
  unfold pick_ok. destruct (maxDegree s <=? S d); [destruct (S d =? maxDegree s); [destruct (randZero c r (draws s))|]|];
    (eexists; split; [reflexivity|]; cbn [inDegrees maxNode]; by rewrite length_insert).
Qed.

Lemma pickSplitNode_spec c r :
  nodes_ok r → den r ≠ ∅ → ∃ i, pickSplitNode g randZero c r = Ok i ∧ i ∈ den r.
Proof.
  intros Hr Hne. unfold pickSplitNode. rewrite law_isEmpty, bool_decide_false by (done || apply Hr). cbn [negb cassert mbind res_bind].
  match goal with |- context [foldM ?f ?s ?l] => destruct (foldM_invariant f (pick_ok r) l s) as (s' & -> & [_ Hs]) end.
  - split; [apply length_replicate|]. apply law_max; [apply Hr|done].
  - intros s i Hs Hi. rewrite <- elem_of_den in Hi. unfold at_.
    destruct (lookup_lt_is_Some_2 g i (proj2 Hr i Hi)) as [q Hq]. rewrite Hq. cbn [mbind res_bind mret res_ret].
    apply foldM_invariant; [done|]. intros s2 j Hs2 Hj. rewrite <- elem_of_den in Hj.
    assert (bs_ok (mAllSuccessors q)) as Hsq by (specialize (Hg i q Hq); by inversion Hg).
    rewrite (proj2 (law_and _ _ Hsq (proj1 Hr))) in Hj. apply pickEdge_spec; [done|done|set_solver].
  - cbn [mbind res_bind]. by eexists.
Qed.

(** ** The enumeration *)

(** A split that was found. *)
Definition split_found (scan : gset nat) (r : option (B * B)) : Prop :=
  match r with
  | Some (a, d) => nodes_ok a ∧ nodes_ok d ∧ quorum (den a) ∧ quorum (den d) ∧ den a ## den d ∧
                   den a ⊆ scan ∧ den d ⊆ scan
  | None => True
  end.

(** A quorum to be found: a minimal one, not too large, that another one avoids. *)
Definition to_find (scan committed perimeter : gset nat) : Prop :=
  ∃ M Q, minimal_quorum M ∧ quorum Q ∧ M ## Q ∧ Q ⊆ scan ∧ committed ⊆ M ∧ M ⊆ perimeter ∧
         size M ≤ size scan / 2 + 1.

Lemma hasDisjointQuorum_spec scan b :
  nodes_ok scan → nodes_ok b → quorum (den b) → den b ⊆ den scan →
  ∃ r, hasDisjointQuorum g scan b = Ok r ∧ split_found (den scan) r ∧
       ((∃ Q, quorum Q ∧ den b ## Q ∧ Q ⊆ den scan) → r ≠ None).
Proof.
  intros Hs Hb HQ Hsub. unfold hasDisjointQuorum. destruct (law_minus scan b) as [Hm Hden]; [apply Hs|apply Hb|].
  destruct (contract_spec (bs_minus scan b)) as (d & -> & Hd & HM).
  { split; [done|]. rewrite Hden. intros i Hi. apply Hs. set_solver. }
  rewrite Hden in HM. cbn [mbind res_bind]. eexists. split; [done|]. rewrite law_isEmpty by apply Hd.
  case_bool_decide as He.
  - split; [done|]. intros (Q & HQ' & Hdis & Hsc) _. eapply contracts_to_empty; [exact HM|done|exact HQ'|].
    intros i Hi. apply elem_of_difference. split; [by apply Hsc|]. intros Hb'. exact (Hdis i Hb' Hi).
  - pose proof (ct_sub _ _ HM) as Hds. split; [|done]. cbn. split_and!; try done; [by eapply contracts_to_quorum|set_solver|set_solver].
Qed.

(** The nodes committed to contain a quorum: the search ends. *)
Lemma committed_spec scan c cq (P : gset nat) :
  nodes_ok scan → nodes_ok cq → contracts_to (den c) (den cq) → den cq ≠ ∅ → den cq ⊆ den scan →
  ∃ o, (minimal ← isMinimalQuorum g cq;
        if (minimal : bool) then hasDisjointQuorum g scan cq else mret None) = Ok o ∧
       split_found (den scan) o ∧ (to_find (den scan) (den c) P → o ≠ None).
Proof.
  intros Hs Hcq HMc Hne Hsub. assert (quorum (den cq)) as HQc by (by eapply contracts_to_quorum).
  pose proof (ct_sub _ _ HMc) as Hcc.
  assert (∀ M, minimal_quorum M → den c ⊆ M → den cq = M) as Hmin by (intros M HM Hcm; apply HM; [done|by etrans]).
  destruct (isMinimalQuorum_spec cq Hcq HQc) as (m & -> & Hm). cbn [mbind res_bind]. destruct m.
  - destruct (hasDisjointQuorum_spec scan cq Hs Hcq HQc Hsub) as (o & -> & Ho & Hfind).
    exists o. split; [done|]. split; [done|]. intros (M & Q & HM & HQ & Hdis & HQs & Hcm & _). apply Hfind.
    exists Q. by rewrite (Hmin M HM Hcm).
  - exists None. split; [done|]. split; [done|]. intros (M & Q & HM & _ & _ & _ & Hcm & _) _.
    assert (false = true) by (apply Hm; by rewrite (Hmin M HM Hcm)). done.
Qed.

Lemma enumerate_spec fuel scan c r :
  nodes_ok scan → nodes_ok c → nodes_ok r → den c ∪ den r ⊆ den scan → size (den r) < fuel →
  ∃ o, anyMinQuorumHasDisjointQuorum g randZero fuel scan c r = Ok o ∧ split_found (den scan) o ∧
       (to_find (den scan) (den c) (den c ∪ den r) → o ≠ None).
Proof.
  revert c r. induction fuel as [|fuel IH]; intros c r Hs Hc Hr Hsub Hf; [lia|]. cbn [anyMinQuorumHasDisjointQuorum].
  unfold maxCommit. rewrite !law_count by (apply Hs || apply Hc).
  destruct (Nat.ltb_spec (size (den scan) / 2 + 1) (size (den c))) as [Hbig|_].
  { exists None. split; [done|]. split; [done|]. intros (M & Q & _ & _ & _ & _ & Hcm & _ & Hsz) _.
    apply subseteq_size in Hcm. lia. }
  destruct (contract_spec c Hc) as (cq & -> & Hcq & HMc). cbn [mbind res_bind]. rewrite law_isEmpty by apply Hcq.
  case_bool_decide as Hce; cbn [negb].
  2:{ apply committed_spec; try done. etrans; [apply HMc|set_solver]. }
  destruct (law_or c r) as [Hor Hden]; [apply Hc|apply Hr|].
  assert (nodes_ok (bs_or c r)) as Hp.
  { split; [done|]. rewrite Hden. intros i [?|?]%elem_of_union; [by apply Hc|by apply Hr]. }
  destruct (contract_spec _ Hp) as (eq & -> & Heq & HMe). rewrite Hden in HMe. cbn [mbind res_bind].
  rewrite law_isEmpty by apply Heq.
  (* what is to be found lies in the largest quorum of the perimeter *)
  assert (to_find (den scan) (den c) (den c ∪ den r) → den eq ≠ ∅ ∧ den c ⊆ den eq) as Hext.
  { intros (M & Q & [HM _] & _ & _ & _ & Hcm & Hmp & _). pose proof (ct_max _ _ HMe M HM Hmp) as HMeq.
    destruct HM as [HneM _]. split; [set_solver|by etrans]. }
  case_bool_decide as Hee; [exists None; split; [done|]; split; [done|]; intros ?%Hext; naive_solver|].
  rewrite law_subseteq by (apply Hc || apply Heq).
  case_bool_decide as Hce'; cbn [negb]; [|exists None; split; [done|]; split; [done|]; intros ?%Hext; naive_solver].
  rewrite law_isEmpty by apply Hr. case_bool_decide as Hre.
  { exists None. split; [done|]. split; [done|]. intros (M & Q & [HM _] & _ & _ & _ & Hcm & Hmp & _) _.
    eapply (contracts_to_empty _ _ M HMc); [done|done|]. set_solver. }
  clear Hext. destruct (pickSplitNode_spec c r Hr Hre) as (i & -> & Hi). cbn [mbind res_bind].
  destruct (law_unset i r) as [Hu Hdu]; [apply Hr|].
  assert (nodes_ok (bs_unset i r)) as Hur by (split; [done|]; rewrite Hdu; intros j Hj; apply Hr; set_solver).
  assert (size (den (bs_unset i r)) < fuel) as Hsz.
  { rewrite Hdu. assert (size (den r ∖ {[i]}) < size (den r)); [|lia]. apply subset_size. set_solver. }
  destruct (IH c (bs_unset i r)) as (o & -> & Ho & Hfind); [done..|rewrite Hdu; set_solver|done|]. cbn [mbind res_bind].
  destruct o as [[a d]|]; [by exists (Some (a, d))|].
  destruct (law_set i c) as (c' & -> & Hc' & Hdc'); [apply Hc|pose proof (proj2 Hr i Hi); lia|]. cbn [mbind res_bind].
  destruct (IH c' (bs_unset i r)) as (o & -> & Ho' & Hfind'); [done| |done| |done|].
  - split; [done|]. rewrite Hdc'. intros j [->%elem_of_singleton|?]%elem_of_union; [by apply Hr|by apply Hc].
  - rewrite Hdc', Hdu. set_solver.
  - exists o. split; [done|]. split; [done|]. intros (M & Q & HM & HQ & Hdis & HQs & Hcm & Hmp & Hsm).
    destruct (decide (i ∈ M)) as [HiM|HiM].
    + apply Hfind'. exists M, Q. split_and!; try done; rewrite Hdc', ?Hdu; [set_solver|].
      intros j Hj. specialize (Hmp j Hj). destruct (decide (j = i)); set_solver.
    + exfalso. apply Hfind; [|done]. exists M, Q. split_and!; try done. rewrite Hdu.
      intros j Hj. specialize (Hmp j Hj). destruct (decide (j = i)); set_solver.
Qed.
End search.
End graph.
End quorums.
