(* ===== verification/Tarjan.v ===== *)
(** * Strongly connected components

    Tarjan's algorithm, as the checker runs it, returns a partition of the nodes
    such that the edges out of a component lead to the component itself or to
    earlier ones.  Hence nodes that can reach each other are in one component. *)

From stdpp Require Import sorting.
From S2P Require Import Prelude StateMonad QuorumSet QuorumTracker BitSet QuorumIntersection QuorumEnumeration.
Open Scope nat_scope.

Section tarjan.
Context {B : Type} {cap : nat} `{BL : BitSetLaws B cap}.
(** The nodes of some components. *)
Definition assigned (sccs : list B) : gset nat := ⋃ (den <$> sccs).

Lemma assigned_snoc sccs b : assigned (sccs ++ [b]) = assigned sccs ∪ den b.
Proof. unfold assigned. rewrite fmap_app, union_list_app_L. simpl. set_solver. Qed.

Context (g : list (QBitSet (B:=B))).
Local Notation Tarjan := (TarjanSCCCalculator (B:=B)).
Implicit Types (s : Tarjan) (i j x y : nat) (T : list nat).

Definition edge (x y : nat) : Prop := ∃ q, g !! x = Some q ∧ y ∈ succs q.

(** ** Components in topological order *)

Inductive topo : list B → Prop :=
| topo_nil : topo []
| topo_snoc sccs b :
    topo sccs → bs_ok b → (∀ x, x ∈ den b → x < length g) → den b ## assigned sccs →
    (∀ x y, x ∈ den b → edge x y → y ∈ den b ∪ assigned sccs) → topo (sccs ++ [b]).

Lemma topo_closed sccs x y : topo sccs → x ∈ assigned sccs → edge x y → y ∈ assigned sccs.
Proof.
  induction 1 as [|sccs b Ht IH Hb _ Hd Hc]; intros Hx He; [by unfold assigned in Hx; set_solver|].
  rewrite assigned_snoc in *. apply elem_of_union in Hx as [Hx|Hx]; [set_solver|].
  specialize (Hc x y Hx He). set_solver.
Qed.

(** Components have no common nodes. *)
Lemma topo_lookup sccs k b : topo sccs → sccs !! k = Some b → bs_ok b ∧ (∀ x, x ∈ den b → x < length g) ∧ (∀ l b', l ≠ k → sccs !! l = Some b' → den b ## den b').
Proof.
  induction 1 as [|sccs b0 Ht IH Hb Hlt Hd Hc]; [done|]. rewrite lookup_app_Some. intros Hk.
  assert (∀ l b', sccs !! l = Some b' → den b0 ## den b') as H0.
  { intros l b' Hl. assert (den b' ⊆ assigned sccs); [|set_solver]. unfold assigned. intros x Hx. apply elem_of_union_list.
    exists (den b'). split; [|done]. apply list_elem_of_fmap. exists b'. split; [done|]. by eapply list_elem_of_lookup_2. }
  destruct Hk as [Hk|[Hlen Hk]].
  - destruct (IH Hk) as (? & ? & Hdis). split; [done|]. split; [done|]. intros l b' Hne [Hl|[? Hl]]%lookup_app_Some; [by eapply Hdis|].
    apply list_lookup_singleton_Some in Hl as [_ <-]. symmetry. by eapply H0.
  - apply list_lookup_singleton_Some in Hk as [Hk <-]. split; [done|]. split; [done|]. intros l b' Hne [Hl|[? Hl]]%lookup_app_Some; [by eapply H0|].
    apply list_lookup_singleton_Some in Hl as [? <-]. lia.
Qed.
(** ** The state of the search *)

Hypothesis (Hcap : length g ≤ cap).
Hypothesis (Hok : ∀ i q, g !! i = Some q → bs_ok (mAllSuccessors q)).
Hypothesis (Hedge : ∀ x y, edge x y → y < length g).

Definition index_of s x : Z := match mNodes s !! x with Some v => mIndex v | None => -1%Z end.

Record inv s : Prop := {
  inv_length : length (mNodes s) = length g;
  inv_next : (0 ≤ mNextIndex s)%Z;
  inv_visited x v : mNodes s !! x = Some v → mIndex v ≠ (-1)%Z →
    (0 ≤ mIndex v < mNextIndex s)%Z ∧ (x ∈ mStack s ∨ x ∈ assigned (mSCCs s));
  inv_white x v : mNodes s !! x = Some v → mIndex v = (-1)%Z → x ∉ mStack s ∧ x ∉ assigned (mSCCs s);
  inv_onStack x v : mNodes s !! x = Some v → mOnStack v = true ↔ x ∈ mStack s;
  inv_stack x : x ∈ mStack s → x < length g ∧ x ∉ assigned (mSCCs s);
  inv_sorted : StronglySorted (λ x y, (index_of s y < index_of s x)%Z) (mStack s);
  inv_topo : topo (mSCCs s)
}.

Definition visited s x : Prop := index_of s x ≠ (-1)%Z.

(** What the search leaves of the nodes it found visited. *)
Record ext s s' (T : list nat) : Prop := {
  ext_nodes x v : mNodes s !! x = Some v → mIndex v ≠ (-1)%Z → mNodes s' !! x = Some v;
  ext_stack : mStack s' = T ++ mStack s;
  ext_new x : x ∈ T → ¬ visited s x;
  ext_index x : ¬ visited s x → visited s' x → (mNextIndex s ≤ index_of s' x)%Z;
  ext_next : (mNextIndex s ≤ mNextIndex s')%Z
}.

(** The new nodes have been dealt with, except perhaps some. *)
Definition black (P : nat → Prop) s s' : Prop :=
  ∀ x y, ¬ visited s x → visited s' x → P x → edge x y → visited s' y.

Lemma visited_index s x : visited s x → ∃ v, mNodes s !! x = Some v ∧ mIndex v = index_of s x ∧ mIndex v ≠ (-1)%Z.
Proof. unfold visited, index_of. destruct (mNodes s !! x) as [v|]; [eauto|done]. Qed.

Lemma ext_index_of s s' T x : ext s s' T → visited s x → index_of s' x = index_of s x.
Proof. intros He (v & Hv & Hi & Hn)%visited_index. unfold index_of. by rewrite (ext_nodes _ _ _ He x v Hv Hn), Hv. Qed.

Lemma ext_visited s s' T x : ext s s' T → visited s x → visited s' x.
Proof. intros He Hx. unfold visited. by rewrite (ext_index_of _ _ _ _ He Hx). Qed.

Lemma stack_visited s x : inv s → x ∈ mStack s → visited s x.
Proof.
  intros Hs Hx Hw. destruct (inv_stack _ Hs x Hx) as [Hlt _]. rewrite <- (inv_length _ Hs) in Hlt.
  apply lookup_lt_is_Some in Hlt as [v Hv]. unfold index_of in Hw. rewrite Hv in Hw.
  by destruct (inv_white _ Hs x v Hv Hw).
Qed.

(** A visited node that is on the stack afterwards was on it before. *)
Lemma ext_on_stack s s' T x : ext s s' T → visited s x → x ∈ mStack s' → x ∈ mStack s.
Proof. intros He Hx. rewrite (ext_stack _ _ _ He), elem_of_app. intros [HT|]; [by destruct (ext_new _ _ _ He x HT)|done]. Qed.

#[local] Instance visited_dec s x : Decision (visited s x).
Proof. unfold visited. apply _. Defined.

Lemma ext_refl s : ext s s [].
Proof. split; [done|done|set_solver|done|lia]. Qed.

Lemma ext_trans s s' s'' T T' : ext s s' T → ext s' s'' T' → ext s s'' (T' ++ T).
Proof.
  intros H1 H2. split.
  - intros x v Hx Hn. eapply ext_nodes; [exact H2|by eapply ext_nodes|done].
  - by rewrite (ext_stack _ _ _ H2), (ext_stack _ _ _ H1), app_assoc.
  - intros x [Hx|Hx]%elem_of_app; [|by apply (ext_new _ _ _ H1)].
    intros Hv. apply (ext_new _ _ _ H2 x Hx). by eapply ext_visited.
  - intros x Hn Hv. pose proof (ext_next _ _ _ H1). destruct (decide (visited s' x)) as [Hv'|Hn'].
    + rewrite (ext_index_of _ _ _ _ H2 Hv'). by apply (ext_index _ _ _ H1).
    + pose proof (ext_index _ _ _ H2 x Hn' Hv). lia.
  - pose proof (ext_next _ _ _ H1). pose proof (ext_next _ _ _ H2). lia.
Qed.

Lemma black_trans (P : nat → Prop) s s' s'' T' :
  ext s' s'' T' → black P s s' → black (λ _, True) s' s'' → black P s s''.
Proof.
  intros He H1 H2 x y Hn Hv HP Hxy. destruct (decide (visited s' x)) as [Hv'|Hn'].
  - eapply ext_visited; [exact He|]. by eapply H1.
  - by eapply H2.
Qed.

Lemma sorted_weaken {A} (R R' : A → A → Prop) (l : list A) :
  (∀ a c, a ∈ l → c ∈ l → R a c → R' a c) → StronglySorted R l → StronglySorted R' l.
Proof.
  intros HR. induction 1 as [|a l Hl IH Ha]; constructor.
  - apply IH. intros c d Hc Hd. apply HR; by right.
  - rewrite Forall_forall in Ha |- *. intros c Hc. apply HR; [by left|by right|by apply Ha].
Qed.

(** *** Lowering a link *)

Definition relink i (l : Z) s : Tarjan :=
  match mNodes s !! i with
  | Some v => setNode i (mkSCCNode (mIndex v) l (mOnStack v)) s
  | None => s
  end.

Lemma relink_lookup i l s x :
  mNodes (relink i l s) !! x =
  (λ v, if decide (x = i) then mkSCCNode (mIndex v) l (mOnStack v) else v) <$> mNodes s !! x.
Proof.
  unfold relink. destruct (mNodes s !! i) as [v|] eqn:E.
  - cbn [setNode mNodes]. destruct (decide (x = i)) as [->|Hne].
    + rewrite list_lookup_insert_eq by (by eapply lookup_lt_Some). by rewrite E.
    + rewrite list_lookup_insert_ne by done. by destruct (mNodes s !! x).
  - destruct (decide (x = i)) as [->|]; [by rewrite E|]. by destruct (mNodes s !! x).
Qed.

Lemma relink_rest i l s :
  mStack (relink i l s) = mStack s ∧ mNextIndex (relink i l s) = mNextIndex s ∧ mSCCs (relink i l s) = mSCCs s.
Proof. unfold relink. by destruct (mNodes s !! i). Qed.

Lemma relink_index i l s x : index_of (relink i l s) x = index_of s x.
Proof. unfold index_of. rewrite relink_lookup. destruct (mNodes s !! x); [|done]. simpl. by case_decide. Qed.

Lemma relink_inv i l s : inv s → inv (relink i l s).
Proof.
  intros Hs. destruct (relink_rest i l s) as (E1 & E2 & E3).
  assert (∀ x v, mNodes (relink i l s) !! x = Some v →
    ∃ v', mNodes s !! x = Some v' ∧ mIndex v' = mIndex v ∧ mOnStack v' = mOnStack v) as Hv.
  { intros x v. rewrite relink_lookup. intros (v' & -> & Hv')%fmap_Some. exists v'. destruct (decide (x = i)); naive_solver. }
  split; rewrite ?E1, ?E2, ?E3; try apply Hs.
  - unfold relink. destruct (mNodes s !! i); [cbn [setNode mNodes]; rewrite length_insert|]; apply Hs.
  - intros x v (v' & Hx & <- & _)%Hv. by apply (inv_visited _ Hs).
  - intros x v (v' & Hx & <- & _)%Hv. by apply (inv_white _ Hs).
  - intros x v (v' & Hx & _ & <-)%Hv. by apply (inv_onStack _ Hs).
  - eapply sorted_weaken; [|apply Hs]. intros x y _ _. by rewrite !relink_index.
Qed.

Lemma relink_ext i l s s' T : ¬ visited s i → ext s s' T → ext s (relink i l s') T.
Proof.
  intros Hn He. destruct (relink_rest i l s') as (E1 & E2 & E3). split; rewrite ?E1, ?E2; try apply He.
  - intros x v Hx Hv. rewrite relink_lookup, (ext_nodes _ _ _ He x v Hx Hv). simpl.
    case_decide as E; [|done]. subst x. destruct Hn. unfold visited, index_of. by rewrite Hx.
  - intros x Hx Hx'. unfold visited in Hx'. rewrite relink_index in Hx' |- *. by apply (ext_index _ _ _ He).
Qed.

Lemma lowerLink_run i l s v :
  mNodes s !! i = Some v → lowerLink i l s = Ok (tt, relink i (Z.min (mLowLink v) l) s).
Proof. intros Hv. unfold lowerLink, nodeAt, reads, at_, mbind, M_bind, relink. by rewrite Hv. Qed.

(** *** Entering a node *)

Definition push i s : Tarjan :=
  mkTarjan (<[i := mkSCCNode (mNextIndex s) (mNextIndex s) true]> (mNodes s)) (i :: mStack s)
    (mNextIndex s + 1)%Z (mSCCs s).

Lemma push_lookup i s x :
  i < length (mNodes s) →
  mNodes (push i s) !! x = if decide (x = i) then Some (mkSCCNode (mNextIndex s) (mNextIndex s) true) else mNodes s !! x.
Proof.
  intros Hi. cbn [push mNodes]. case_decide as E; [subst; by rewrite list_lookup_insert_eq|by rewrite list_lookup_insert_ne].
Qed.

Lemma push_index i s x :
  i < length (mNodes s) → index_of (push i s) x = if decide (x = i) then mNextIndex s else index_of s x.
Proof. intros Hi. unfold index_of. rewrite push_lookup by done. by case_decide. Qed.

Lemma index_next s x : inv s → (index_of s x < mNextIndex s)%Z.
Proof.
  intros Hs. unfold index_of. pose proof (inv_next _ Hs). destruct (mNodes s !! x) as [v|] eqn:E; [|lia].
  destruct (decide (mIndex v = -1)%Z) as [->|Hn]; [lia|]. apply (inv_visited _ Hs x v E Hn).
Qed.

Lemma push_inv i s : inv s → i < length g → ¬ visited s i → inv (push i s).
Proof.
  intros Hs Hi Hw. assert (i < length (mNodes s)) as Hi' by (by rewrite (inv_length _ Hs)).
  pose proof (inv_next _ Hs) as Hn. destruct (lookup_lt_is_Some_2 (mNodes s) i Hi') as [vi Hvi].
  assert (mIndex vi = -1)%Z as Hwi by (unfold visited, index_of in Hw; rewrite Hvi in Hw; lia).
  destruct (inv_white _ Hs i vi Hvi Hwi) as [Hst Has].
  split; change (mStack (push i s)) with (i :: mStack s); change (mSCCs (push i s)) with (mSCCs s);
    change (mNextIndex (push i s)) with (mNextIndex s + 1)%Z.
  - unfold push. cbn [mNodes]. rewrite length_insert. apply Hs.
  - lia.
  - intros x v. rewrite push_lookup by done. case_decide as E.
    + intros [= <-] _. cbn. split; [lia|]. left. subst. by left.
    + intros Hx Hv. destruct (inv_visited _ Hs x v Hx Hv) as [? [?|?]]; (split; [lia|]); [left; by right|by right].
  - intros x v. rewrite push_lookup by done. case_decide as E.
    + intros [= <-]. cbn. lia.
    + intros Hx Hv. destruct (inv_white _ Hs x v Hx Hv) as [? ?]. split; [|done]. by intros [->|?]%elem_of_cons.
  - intros x v. rewrite push_lookup by done. case_decide as E.
    + intros [= <-]. cbn. subst. split; [by left|done].
    + intros Hx. rewrite (inv_onStack _ Hs x v Hx), elem_of_cons. naive_solver.
  - intros x [->|Hx]%elem_of_cons; [by split|by apply (inv_stack _ Hs)].
  - constructor.
    + eapply sorted_weaken; [|apply Hs]. intros x y Hx Hy. rewrite !push_index by done.
      rewrite !decide_False by (by intros ->). done.
    + apply Forall_forall. intros x Hx. rewrite !push_index by done. rewrite (decide_True (P := i = i)) by done.
      rewrite decide_False by (by intros ->). by apply index_next.
  - apply Hs.
Qed.

Lemma push_ext i s : inv s → i < length g → ¬ visited s i → ext s (push i s) [i].
Proof.
  intros Hs Hi Hw. assert (i < length (mNodes s)) as Hi' by (by rewrite (inv_length _ Hs)). split.
  - intros x v Hx Hv. rewrite push_lookup by done. case_decide as E; [|done]. subst.
    destruct Hw. unfold visited, index_of. by rewrite Hx.
  - done.
  - intros x ->%list_elem_of_singleton. done.
  - intros x Hn Hv. unfold visited in Hv. rewrite push_index in * by done. case_decide; [lia|done].
  - cbn. lia.
Qed.

(** *** Emptying the stack *)

Definition unstack T s : Tarjan :=
  mkTarjan (imap (λ x v, if decide (x ∈ T) then mkSCCNode (mIndex v) (mLowLink v) false else v) (mNodes s))
    (mStack s) (mNextIndex s) (mSCCs s).

Definition set_stack (st : list nat) s : Tarjan := mkTarjan (mNodes s) st (mNextIndex s) (mSCCs s).

Lemma nodeAt_run i s v : mNodes s !! i = Some v → nodeAt i s = Ok (v, s).
Proof. intros Hv. unfold nodeAt, reads, at_. by rewrite Hv. Qed.

Lemma popSCC_step i j st b b' s v :
  bs_set j b = Ok b' → mNodes s !! j = Some v →
  popSCC i b (j :: st) s =
  (if j =? i then mret b' else popSCC i b' st) (set_stack st (setNode j (mkSCCNode (mIndex v) (mLowLink v) false) s)).
Proof.
  intros Hset Hv. cbn [popSCC]. rewrite (bind_run _ _ _ b' s) by (unfold reads; by rewrite Hset).
  rewrite (bind_run _ _ _ tt (set_stack st s)) by done.
  by rewrite (bind_run _ _ _ v (set_stack st s)) by (by apply nodeAt_run).
Qed.

Lemma unstack_nil s : unstack [] s = s.
Proof.
  destruct s as [nodes st n sccs]. unfold unstack. cbn. f_equal. apply list_eq. intros x. rewrite list_lookup_imap.
  by destruct (nodes !! x).
Qed.

Lemma unstack_cons j T s v :
  mNodes s !! j = Some v →
  unstack T (setNode j (mkSCCNode (mIndex v) (mLowLink v) false) s) = unstack (j :: T) s.
Proof.
  intros Hv. unfold unstack. cbn [setNode mNodes mStack mNextIndex mSCCs]. f_equal. apply list_eq. intros x.
  rewrite !list_lookup_imap. destruct (decide (x = j)) as [->|Hne].
  - rewrite list_lookup_insert_eq by (by eapply lookup_lt_Some). rewrite Hv. simpl. rewrite (decide_True (P := j ∈ j :: T)) by left.
    by case_decide.
  - rewrite list_lookup_insert_ne by done. destruct (mNodes s !! x); [|done]. simpl. do 2 f_equal.
    destruct (decide (x ∈ T)); [by rewrite decide_True by (by right)|]. rewrite decide_False; [done|]. by intros [->|?]%elem_of_cons.
Qed.

Lemma popSCC_run i T st b s :
  i ∉ T → (∀ x, x ∈ T ++ [i] → x < length g ∧ x < length (mNodes s)) → bs_ok b →
  ∃ b', popSCC i b (T ++ i :: st) s = Ok (b', set_stack st (unstack (T ++ [i]) s)) ∧ bs_ok b' ∧
        den b' = den b ∪ list_to_set (T ++ [i]).
Proof.
  revert b s. induction T as [|j T IH]; intros b s Hi Hlt Hb; cbn [app].
  - destruct (Hlt i) as [Hg Hn]; [by left|]. destruct (law_set i b Hb) as (b' & Hset & Hb' & Hden); [lia|].
    destruct (lookup_lt_is_Some_2 (mNodes s) i Hn) as [v Hv].
    rewrite (popSCC_step _ _ _ _ _ _ _ Hset Hv), Nat.eqb_refl. exists b'.
    split; [by rewrite <- (unstack_cons i [] s v Hv), unstack_nil|]. split; [done|]. clear -Hden. set_solver.
  - destruct (Hlt j) as [Hg Hn]; [by left|]. destruct (law_set j b Hb) as (b1 & Hset & Hb1 & Hden1); [lia|].
    destruct (lookup_lt_is_Some_2 (mNodes s) j Hn) as [v Hv]. rewrite (popSCC_step _ _ _ _ _ _ _ Hset Hv).
    assert (j ≠ i) as Hji by set_solver. destruct (Nat.eqb_spec j i); [done|].
    destruct (IH b1 (set_stack (T ++ i :: st) (setNode j (mkSCCNode (mIndex v) (mLowLink v) false) s))) as (b' & -> & Hb' & Hden).
    + set_solver.
    + intros x Hx. cbn. rewrite length_insert. apply Hlt. by right.
    + done.
    + exists b'. split; [by rewrite <- (unstack_cons j (T ++ [i]) s v Hv)|]. split; [done|].
      rewrite Hden, Hden1, list_to_set_cons. clear. set_solver.
Qed.

(** *** Leaving a component *)

Definition pop T (st : list nat) (b : B) s : Tarjan :=
  let s' := set_stack st (unstack T s) in mkTarjan (mNodes s') (mStack s') (mNextIndex s') (mSCCs s' ++ [b]).

Lemma pop_lookup T st b s x :
  mNodes (pop T st b s) !! x =
  (λ v, if decide (x ∈ T) then mkSCCNode (mIndex v) (mLowLink v) false else v) <$> mNodes s !! x.
Proof. cbn. apply list_lookup_imap. Qed.

Lemma pop_index T st b s x : index_of (pop T st b s) x = index_of s x.
Proof. unfold index_of. rewrite pop_lookup. destruct (mNodes s !! x); [|done]. cbn. by case_decide. Qed.

Lemma pop_visited T st b s x : visited (pop T st b s) x ↔ visited s x.
Proof. unfold visited. by rewrite pop_index. Qed.

Lemma stack_NoDup s : inv s → NoDup (mStack s).
Proof.
  intros Hs. induction (inv_sorted _ Hs) as [|x l _ IH Hx]; constructor; [|done].
  intros Hin. rewrite Forall_forall in Hx. specialize (Hx x Hin). lia.
Qed.

Lemma pop_topo T st b s :
  inv s → mStack s = T ++ st → bs_ok b → den b = list_to_set T →
  (∀ x y, x ∈ T → edge x y → y ∈ T ∨ y ∈ assigned (mSCCs s)) → topo (mSCCs s ++ [b]).
Proof.
  intros Hs Hst Hb Hden Hout. constructor; [apply Hs|done| | |]; rewrite Hden.
  - intros x Hx%elem_of_list_to_set. apply (inv_stack _ Hs). rewrite Hst, elem_of_app. by left.
  - intros x Hx%elem_of_list_to_set. apply (inv_stack _ Hs). rewrite Hst, elem_of_app. by left.
  - intros x y Hx%elem_of_list_to_set Hxy. rewrite elem_of_union, elem_of_list_to_set. eauto.
Qed.

Lemma pop_inv T st b s :
  inv s → mStack s = T ++ st → bs_ok b → den b = list_to_set T →
  (∀ x y, x ∈ T → edge x y → y ∈ T ∨ y ∈ assigned (mSCCs s)) → inv (pop T st b s).
Proof.
  intros Hs Hst Hb Hden Hout.
  pose proof (stack_NoDup _ Hs) as Hd. rewrite Hst in Hd. apply NoDup_app in Hd as (_ & Hd & _).
  assert (∀ x, x ∈ assigned (mSCCs s ++ [b]) ↔ x ∈ assigned (mSCCs s) ∨ x ∈ T) as Has.
  { intros x. by rewrite assigned_snoc, elem_of_union, Hden, elem_of_list_to_set. }
  assert (∀ x, x ∈ mStack s ↔ x ∈ T ∨ x ∈ st) as Hin by (intros x; by rewrite Hst, elem_of_app).
  assert (∀ x v, mNodes (pop T st b s) !! x = Some v → ∃ v', mNodes s !! x = Some v' ∧ mIndex v' = mIndex v ∧
    mOnStack v = (if decide (x ∈ T) then false else mOnStack v')) as Hv.
  { intros x v. rewrite pop_lookup. intros (v' & -> & ->)%fmap_Some. exists v'. by case_decide. }
  split; change (mStack (pop T st b s)) with st; change (mSCCs (pop T st b s)) with (mSCCs s ++ [b]);
    change (mNextIndex (pop T st b s)) with (mNextIndex s).
  - cbn. rewrite length_imap. apply Hs.
  - apply Hs.
  - intros x v (v' & Hx & <- & _)%Hv Hi. destruct (inv_visited _ Hs x v' Hx Hi) as [? Hc].
    split; [done|]. rewrite Has. rewrite Hin in Hc. tauto.
  - intros x v (v' & Hx & <- & _)%Hv Hi. destruct (inv_white _ Hs x v' Hx Hi) as [H1 H2]. rewrite Has. rewrite Hin in H1. tauto.
  - intros x v (v' & Hx & _ & ->)%Hv. pose proof (inv_onStack _ Hs x v' Hx) as Hx'. rewrite Hin in Hx'.
    specialize (Hd x). case_decide; [|tauto]. split; [done|]. intros ?. by destruct Hd.
  - intros x Hx. destruct (inv_stack _ Hs x) as [Hlt Hna]; [rewrite Hin; by right|]. rewrite Has. split; [done|].
    intros [?|HT]; [done|]. by apply (Hd x).
  - pose proof (inv_sorted _ Hs) as Hsort. rewrite Hst in Hsort. apply StronglySorted_app_1_r in Hsort.
    eapply sorted_weaken; [|exact Hsort]. intros x y _ _. by rewrite !pop_index.
  - by apply (pop_topo T st).
Qed.

Lemma pop_ext T b s s' : ext s s' T → ext s (pop T (mStack s) b s') [].
Proof.
  intros He. split.
  - intros x v Hx Hv. rewrite pop_lookup, (ext_nodes _ _ _ He x v Hx Hv). cbn. rewrite decide_False; [done|].
    intros HT. apply (ext_new _ _ _ He x HT). unfold visited, index_of. by rewrite Hx.
  - done.
  - set_solver.
  - intros x Hn. rewrite pop_visited, pop_index. by apply (ext_index _ _ _ He).
  - apply (ext_next _ _ _ He).
Qed.

(** ** The search *)

(** The edges out of some nodes that lead to the stack lead no lower than [low]. *)
Definition links (low : Z) s T : Prop :=
  ∀ x y, x ∈ T → edge x y → y ∈ mStack s → (low ≤ index_of s y)%Z.

(** What a link of a node entered in [s] cannot be lower than. *)
Definition bounded s (low : Z) : Prop :=
  ∀ d, (d ≤ mNextIndex s)%Z → (∀ y, y ∈ mStack s → (d ≤ index_of s y)%Z) → (d ≤ low)%Z.

(** The search from [i], begun in [s], has found the nodes [T], and has followed the
    edges to [D]. *)
Record during s i s' T (low : Z) (D : list nat) : Prop := {
  du_inv : inv s';
  du_ext : ext s s' (T ++ [i]);
  du_black : black (λ x, x ≠ i) s s';
  du_low : (low ≤ mNextIndex s)%Z;
  du_links : links low s' T;
  du_done y : y ∈ D → visited s' y ∧ (y ∈ mStack s' → (low ≤ index_of s' y)%Z);
  du_bounded : bounded s low
}.

(** The search from [i], begun in [s], is over. *)
Record explored s i s' T (low : Z) : Prop := {
  ex_inv : inv s';
  ex_ext : ext s s' T;
  ex_black : black (λ _, True) s s';
  ex_node : ∃ on, mNodes s' !! i = Some (mkSCCNode (mNextIndex s) low on);
  ex_low : (low ≤ mNextIndex s)%Z;
  ex_links : links low s' T;
  ex_bounded : bounded s low;
  ex_root : T ≠ [] → (low < mNextIndex s)%Z
}.

Lemma during_lower s i s' T low l D :
  during s i s' T low D → (l ≤ low)%Z → bounded s l → during s i s' T l D.
Proof.
  intros Hd Hl Hb. split; try apply Hd; [pose proof (du_low _ _ _ _ _ _ Hd); lia| | |done].
  - intros x y Hx Hxy Hy. pose proof (du_links _ _ _ _ _ _ Hd x y Hx Hxy Hy). lia.
  - intros y Hy. destruct (du_done _ _ _ _ _ _ Hd y Hy) as [? H']. split; [done|]. intros Hy'. specialize (H' Hy'). lia.
Qed.

Lemma during_relink s i s' T low l D :
  ¬ visited s i → during s i s' T low D → during s i (relink i l s') T low D.
Proof.
  intros Hn Hd. destruct (relink_rest i l s') as (E1 & E2 & E3). split; try apply Hd.
  - apply relink_inv, Hd.
  - apply relink_ext; [done|apply Hd].
  - intros x y Hx. unfold visited. rewrite !relink_index. by apply (du_black _ _ _ _ _ _ Hd).
  - intros x y. rewrite E1, relink_index. by apply (du_links _ _ _ _ _ _ Hd).
  - intros y Hy. unfold visited. rewrite E1, relink_index. by apply (du_done _ _ _ _ _ _ Hd).
Qed.

Lemma during_T s i s' T low D x : during s i s' T low D → x ∈ T → x ≠ i ∧ ¬ visited s x ∧ visited s' x.
Proof.
  intros Hd Hx. pose proof (stack_NoDup _ (du_inv _ _ _ _ _ _ Hd)) as Hnd.
  pose proof (du_ext _ _ _ _ _ _ Hd) as He. rewrite (ext_stack _ _ _ He) in Hnd.
  apply NoDup_app in Hnd as (Hnd & _ & _). apply NoDup_app in Hnd as (_ & Hnd & _).
  split; [intros ->; by apply (Hnd i Hx), list_elem_of_singleton|]. split.
  - apply (ext_new _ _ _ He). apply elem_of_app. by left.
  - apply stack_visited; [apply Hd|]. rewrite (ext_stack _ _ _ He), !elem_of_app. auto.
Qed.

(** Facts on edges survive a search that starts with their ends visited. *)
Lemma ext_low s s' T y (low : Z) :
  ext s s' T → visited s y → (y ∈ mStack s → (low ≤ index_of s y)%Z) → y ∈ mStack s' → (low ≤ index_of s' y)%Z.
Proof.
  intros He Hy Hlow Hs'. rewrite (ext_index_of _ _ _ _ He Hy). apply Hlow. by eapply ext_on_stack.
Qed.

Lemma during_extend s i s1 T low D j s2 T2 :
  during s i s1 T low D → inv s2 → ext s1 s2 T2 → black (λ _, True) s1 s2 → links low s2 T2 →
  visited s2 j → (j ∈ mStack s2 → (low ≤ index_of s2 j)%Z) → during s i s2 (T2 ++ T) low (j :: D).
Proof.
  intros Hd Hs2 He Hbl Hl Hj Hjl. split; [done| | |apply Hd| | |apply Hd].
  - rewrite <- app_assoc. eapply ext_trans; [apply Hd|done].
  - eapply black_trans; [done|apply Hd|done].
  - intros x y [Hx|Hx]%elem_of_app Hxy; [by eapply Hl|]. destruct (during_T _ _ _ _ _ _ _ Hd Hx) as (Hne & Hn & Hv).
    eapply ext_low; [done|by eapply (du_black _ _ _ _ _ _ Hd)|]. by apply (du_links _ _ _ _ _ _ Hd x y).
  - intros y [->|Hy]%elem_of_cons; [done|]. destruct (du_done _ _ _ _ _ _ Hd y Hy) as [Hv Hlow].
    split; [by eapply ext_visited|]. by eapply ext_low.
Qed.

Lemma ext_stack_low s s' T d y :
  inv s → inv s' → ext s s' T → (d ≤ mNextIndex s)%Z → (∀ y, y ∈ mStack s → (d ≤ index_of s y)%Z) →
  y ∈ mStack s' → (d ≤ index_of s' y)%Z.
Proof.
  intros Hs Hs' He Hd Hall Hy. pose proof (stack_visited _ _ Hs' Hy) as Hv. rewrite (ext_stack _ _ _ He), elem_of_app in Hy.
  destruct Hy as [Hy|Hy].
  - pose proof (ext_index _ _ _ He y (ext_new _ _ _ He y Hy) Hv). lia.
  - rewrite (ext_index_of _ _ _ _ He); [by apply Hall|by apply stack_visited].
Qed.

Lemma bounded_min s l l' : bounded s l → bounded s l' → bounded s (Z.min l l').
Proof. intros H1 H2 d Hd Hall. specialize (H1 d Hd Hall). specialize (H2 d Hd Hall). lia. Qed.

Lemma bounded_before s s' T l : inv s → inv s' → ext s s' T → bounded s' l → bounded s l.
Proof.
  intros Hs Hs' He Hb d Hd Hall. apply Hb; [pose proof (ext_next _ _ _ He); lia|]. intros y. by apply (ext_stack_low s s' T).
Qed.

Definition entered s i s' (low : Z) : Prop := mNodes s' !! i = Some (mkSCCNode (mNextIndex s) low true).

(** The link of [i] has been lowered. *)
Lemma during_link s i s' T low l D :
  ¬ visited s i → entered s i s' low → during s i s' T (Z.min low l) D →
  ∃ s'', lowerLink i l s' = Ok (tt, s'') ∧ entered s i s'' (Z.min low l) ∧ during s i s'' T (Z.min low l) D.
Proof.
  intros Hn Hv Hd. eexists. split; [by apply lowerLink_run|]. split; [|by apply during_relink].
  unfold entered. rewrite relink_lookup, Hv. cbn. by rewrite decide_True.
Qed.

(** The nodes that have not been visited, which bound the depth of the search. *)
Definition white s : gset nat := filter (λ x, ¬ visited s x) (set_seq 0 (length g)).

Lemma elem_of_white s x : x ∈ white s ↔ ¬ visited s x ∧ x < length g.
Proof. unfold white. rewrite elem_of_filter, elem_of_set_seq. naive_solver lia. Qed.

Lemma during_white s i s' T low D : i < length g → during s i s' T low D → size (white s') < size (white s).
Proof.
  intros Hi Hd. pose proof (du_ext _ _ _ _ _ _ Hd) as He.
  assert (i ∈ mStack s') as Hin by (rewrite (ext_stack _ _ _ He), !elem_of_app; left; right; by left).
  apply subset_size. split.
  - intros x. rewrite !elem_of_white. intros [Hn ?]. split; [|done]. intros Hv. apply Hn. by eapply ext_visited.
  - intros Hsub. destruct (proj1 (elem_of_white s' i)) as [Hw _]; [|by apply Hw, stack_visited; [apply Hd|]].
    apply Hsub, elem_of_white. split; [|done]. apply (ext_new _ _ _ He), elem_of_app. right. by left.
Qed.

(** A search that works from states with at most [W] nodes to visit. *)
Definition explores (f : nat → M Tarjan unit) (W : nat) : Prop :=
  ∀ s j, inv s → j < length g → ¬ visited s j → size (white s) ≤ W →
         ∃ s' T low, f j s = Ok (tt, s') ∧ explored s j s' T low.

Lemma unvisited_index s j v : mNodes s !! j = Some v → (mIndex v =? -1)%Z = bool_decide (¬ visited s j).
Proof.
  intros Hv. assert (visited s j ↔ mIndex v ≠ (-1)%Z) as Hi by (unfold visited, index_of; by rewrite Hv).
  destruct (Z.eqb_spec (mIndex v) (-1)); [rewrite bool_decide_true|rewrite bool_decide_false]; naive_solver.
Qed.

(** One edge. *)
Lemma sccEdge_spec f W s i s1 T low D j :
  explores f W → inv s → ¬ visited s i → i < length g → size (white s) ≤ S W → j < length g →
  during s i s1 T low D → entered s i s1 low →
  ∃ s2 T2 low2,
    (w ← nodeAt j;
     if (mIndex w =? -1)%Z then f j;; w ← nodeAt j; lowerLink i (mLowLink w)
     else if mOnStack w then lowerLink i (mIndex w) else mret tt) s1 = Ok (tt, s2) ∧
    during s i s2 T2 low2 (j :: D) ∧ entered s i s2 low2.
Proof.
  intros Hf Hs Hn Hi HW Hj Hd Hv. pose proof (du_inv _ _ _ _ _ _ Hd) as Hs1. pose proof (du_ext _ _ _ _ _ _ Hd) as He1.
  assert (j < length (mNodes s1)) as Hj1 by (by rewrite (inv_length _ Hs1)).
  destruct (lookup_lt_is_Some_2 _ _ Hj1) as [w Hw]. rewrite (bind_run _ _ _ w s1) by (by apply nodeAt_run).
  rewrite (unvisited_index _ _ _ Hw). case_bool_decide as Hjv.
  - destruct (Hf s1 j Hs1 Hj Hjv) as (s2 & T2 & l2 & Hrun & Hex).
    { pose proof (during_white _ _ _ _ _ _ Hi Hd). lia. }
    rewrite (bind_run _ _ _ tt s2) by done. destruct (ex_node _ _ _ _ _ Hex) as [on Hjn].
    rewrite (bind_run _ _ _ _ s2) by (by apply nodeAt_run).
    destruct (during_link s i s2 (T2 ++ T) low l2 (j :: D)) as (s3 & Hrun3 & Hv3 & Hd3); [done| | |by eauto 10].
    + eapply ext_nodes; [apply Hex|exact Hv|]. cbn. pose proof (inv_next _ Hs). lia.
    + pose proof (ex_low _ _ _ _ _ Hex). pose proof (inv_next _ Hs1). assert (index_of s2 j = mNextIndex s1) as Hji by (unfold index_of; by rewrite Hjn).
      eapply during_extend; [|apply Hex..| | |].
      * eapply during_lower; [exact Hd|lia|]. apply bounded_min; [apply Hd|]. by eapply bounded_before; [..|apply Hex].
      * intros x y Hx Hxy Hy. pose proof (ex_links _ _ _ _ _ Hex x y Hx Hxy Hy). lia.
      * unfold visited. lia.
      * lia.
  - assert (mIndex w = index_of s1 j) as Hwi by (unfold index_of; by rewrite Hw).
    pose proof (inv_onStack _ Hs1 j w Hw) as Hon. destruct (mOnStack w).
    + rewrite Hwi. destruct (during_link s i s1 T low (index_of s1 j) (j :: D)) as (s3 & Hrun3 & Hv3 & Hd3); [done|done| |by eauto 10].
      apply (during_extend s i s1 T _ D j s1 []); [|done|apply ext_refl|by intros ? ? ? ?|by intros ? ? ?%not_elem_of_nil|done|lia].
      eapply during_lower; [exact Hd|lia|]. apply bounded_min; [apply Hd|]. intros d Hdl Hall.
      eapply (ext_stack_low s s1); [done..|by apply Hon].
    + exists s1, T, low. split; [done|]. split; [|done].
      apply (during_extend s i s1 T _ D j s1 []); [done|done|apply ext_refl|by intros ? ? ? ?|by intros ? ? ?%not_elem_of_nil|done|].
      intros Hin. by apply Hon in Hin.
Qed.

Lemma sccEdges_spec f W s i succ s1 T low D :
  explores f W → inv s → ¬ visited s i → i < length g → size (white s) ≤ S W → (∀ j, j ∈ succ → j < length g) →
  during s i s1 T low D → entered s i s1 low →
  ∃ s2 T2 low2 D2, sccEdges f i succ s1 = Ok (tt, s2) ∧ during s i s2 T2 low2 D2 ∧ entered s i s2 low2 ∧
                   (∀ j, j ∈ succ ∨ j ∈ D → j ∈ D2).
Proof.
  intros Hf Hs Hn Hi HW. revert s1 T low D. induction succ as [|j succ IH]; intros s1 T low D Hlt Hd Hv; cbn [sccEdges].
  { exists s1, T, low, D. split; [done|]. split; [done|]. split; [done|]. by intros j [?%not_elem_of_nil|]. }
  destruct (sccEdge_spec f W s i s1 T low D j) as (s2 & T2 & l2 & Hrun & Hd2 & Hv2); [done..|apply Hlt; by left|done|done|].
  rewrite <- M_bind_assoc, (bind_run _ _ _ _ _ Hrun).
  destruct (IH s2 T2 l2 (j :: D)) as (s3 & T3 & l3 & D3 & Hrun3 & Hd3 & Hv3 & HD); [|done..|].
  { intros j' Hj'. apply Hlt. by right. }
  exists s3, T3, l3, D3. split; [done|]. split; [done|]. split; [done|].
  intros j' [[->|?]%elem_of_cons|?]; apply HD; [right; by left|by left|right; by right].
Qed.

Lemma during_start s i :
  inv s → i < length g → ¬ visited s i →
  during s i (push i s) [] (mNextIndex s) [] ∧ entered s i (push i s) (mNextIndex s).
Proof.
  intros Hs Hi Hn. assert (i < length (mNodes s)) as Hi' by (by rewrite (inv_length _ Hs)). split; [split|].
  - by apply push_inv.
  - by apply push_ext.
  - intros x y Hx Hv Hne. unfold visited in Hv. rewrite push_index in Hv by done. by rewrite decide_False in Hv.
  - done.
  - by intros x y ?%not_elem_of_nil.
  - by intros y ?%not_elem_of_nil.
  - by intros d Hd _.
  - unfold entered. rewrite push_lookup by done. by rewrite decide_True.
Qed.

(** All edges of [i] have been followed. *)
Lemma during_black s i s' T low D :
  (∀ y, edge i y → y ∈ D) → during s i s' T low D → black (λ _, True) s s' ∧ links low s' (T ++ [i]).
Proof.
  intros HD Hd. split.
  - intros x y Hx Hv _ Hxy. destruct (decide (x = i)) as [->|Hne]; [|by eapply (du_black _ _ _ _ _ _ Hd)].
    by apply (du_done _ _ _ _ _ _ Hd), HD.
  - intros x y [Hx| ->%list_elem_of_singleton]%elem_of_app Hxy; [by apply (du_links _ _ _ _ _ _ Hd x)|].
    by apply (du_done _ _ _ _ _ _ Hd), HD.
Qed.

(** A component is complete: its edges lead into it or to earlier ones. *)
Lemma during_closed s i s' T D x y :
  inv s → (∀ y, edge i y → y ∈ D) → during s i s' T (mNextIndex s) D → x ∈ T ++ [i] → edge x y →
  y ∈ T ++ [i] ∨ y ∈ assigned (mSCCs s').
Proof.
  intros Hs HD Hd Hx Hxy. destruct (during_black _ _ _ _ _ _ HD Hd) as [Hbl Hl].
  pose proof (du_inv _ _ _ _ _ _ Hd) as Hs'. pose proof (du_ext _ _ _ _ _ _ Hd) as He.
  assert (visited s' y) as Hy.
  { eapply Hbl; [by apply (ext_new _ _ _ He)| |done|done]. apply stack_visited; [done|].
    rewrite (ext_stack _ _ _ He). apply elem_of_app. by left. }
  destruct (visited_index _ _ Hy) as (v & Hv & _ & Hi). destruct (inv_visited _ Hs' y v Hv Hi) as [_ [Hst|]]; [|by right].
  pose proof (Hl x y Hx Hxy Hst) as Hlow. rewrite (ext_stack _ _ _ He), elem_of_app in Hst. destruct Hst as [|Hst]; [by left|].
  rewrite (ext_index_of _ _ _ _ He) in Hlow by (by apply stack_visited). pose proof (index_next s y Hs). lia.
Qed.

(** The node ends on the stack. *)
Lemma explored_stacked s i s' T low D :
  (∀ y, edge i y → y ∈ D) → during s i s' T low D → entered s i s' low → low ≠ mNextIndex s →
  explored s i s' (T ++ [i]) low.
Proof.
  intros HD Hd Hv Hne. destruct (during_black _ _ _ _ _ _ HD Hd) as [Hbl Hl]. pose proof (du_low _ _ _ _ _ _ Hd).
  split; try apply Hd; [done|by eexists|done|lia].
Qed.

(** The node is the root of a component. *)
Lemma explored_popped s i s' T D b :
  inv s → (∀ y, edge i y → y ∈ D) → during s i s' T (mNextIndex s) D → entered s i s' (mNextIndex s) →
  bs_ok b → den b = list_to_set (T ++ [i]) →
  explored s i (pop (T ++ [i]) (mStack s) b s') [] (mNextIndex s).
Proof.
  intros Hs HD Hd Hv Hb Hden. pose proof (du_ext _ _ _ _ _ _ Hd) as He. split.
  - apply pop_inv; [apply Hd|by rewrite (ext_stack _ _ _ He)|done|done|]. intros x y. by apply (during_closed s i s' T D).
  - by apply pop_ext.
  - intros x y Hx. rewrite !pop_visited. by apply (during_black _ _ _ _ _ _ HD Hd).
  - rewrite pop_lookup, Hv. cbn. rewrite decide_True by (apply elem_of_app; right; by left). by eexists.
  - done.
  - by intros x y ?%not_elem_of_nil.
  - apply Hd.
  - done.
Qed.

(** The end of the search from a node: its component is taken off the stack, or it
    stays there. *)
Lemma sccEnd_spec s i s' T low D :
  inv s → i < length g → (∀ y, edge i y → y ∈ D) → during s i s' T low D → entered s i s' low →
  ∃ s2 T2,
    (v ← nodeAt i;
     if (mLowLink v =? mIndex v)%Z then
       newScc ← reads (λ _, bs_set i bs_empty);
       stack ← gets mStack;
       newScc ← popSCC i newScc stack;
       modify (λ s, mkTarjan (mNodes s) (mStack s) (mNextIndex s) (mSCCs s ++ [newScc]))
     else mret tt) s' = Ok (tt, s2) ∧ explored s i s2 T2 low.
Proof.
  intros Hs Hi HD Hd Hv. rewrite (bind_run _ _ _ _ s') by (by apply nodeAt_run). cbn [mLowLink mIndex].
  destruct (Z.eqb_spec low (mNextIndex s)) as [->|Hne]; [|by eexists s', (T ++ [i]); split; [done|apply (explored_stacked _ _ _ _ _ D)]].
  pose proof (du_inv _ _ _ _ _ _ Hd) as Hs'. pose proof (du_ext _ _ _ _ _ _ Hd) as He.
  destruct law_empty as [Hb0 Hd0]. destruct (law_set i bs_empty Hb0) as (b1 & Hset & Hb1 & Hden1); [lia|].
  rewrite (bind_run _ _ _ b1 s') by (unfold reads; by rewrite Hset). rewrite (bind_run _ _ _ (mStack s') s') by done.
  destruct (popSCC_run i T (mStack s) b1 s') as (b2 & Hpop & Hb2 & Hden2).
  - intros HT. by destruct (during_T _ _ _ _ _ _ _ Hd HT).
  - intros x Hx. rewrite (inv_length _ Hs'). assert (x < length g); [|done]. apply (inv_stack _ Hs').
    rewrite (ext_stack _ _ _ He). apply elem_of_app. by left.
  - done.
  - rewrite (ext_stack _ _ _ He), <- app_assoc. cbn [app]. rewrite (bind_run _ _ _ _ _ Hpop).
    eexists (pop (T ++ [i]) (mStack s) b2 s'), []. split; [done|]. apply (explored_popped _ _ _ _ D); [done..|].
    rewrite Hden2, Hden1, Hd0. clear. set_solver.
Qed.

Lemma scc_spec fuel : explores (scc g fuel) fuel.
Proof.
  induction fuel as [|fuel IH]; intros s i Hs Hi Hn HW.
  { assert (i ∈ white s) as Hw by (by apply elem_of_white). assert (size (white s) = 0) as E by lia.
    apply size_empty_inv in E. set_solver. }
  assert (i < length (mNodes s)) as Hi' by (by rewrite (inv_length _ Hs)).
  destruct (lookup_lt_is_Some_2 _ _ Hi') as [v Hv], (lookup_lt_is_Some_2 _ _ Hi) as [q Hq].
  destruct (during_start s i Hs Hi Hn) as [Hd0 Hv0]. cbn [scc].
  rewrite (bind_run _ _ _ v s) by (by apply nodeAt_run). rewrite (bind_run _ _ _ tt (push i s)) by done.
  rewrite (bind_run _ _ _ q (push i s)) by (unfold reads, at_; by rewrite Hq).
  assert (∀ j, j ∈ bs_members (mAllSuccessors q) ↔ edge i j) as Hsucc.
  { intros j. rewrite <- elem_of_den. unfold edge. rewrite Hq. split; [by exists q|]. by intros (? & [= <-] & ?). }
  destruct (sccEdges_spec (scc g fuel) fuel s i (bs_members (mAllSuccessors q)) (push i s) [] (mNextIndex s) [])
    as (s2 & T2 & l2 & D2 & Hrun & Hd2 & Hv2 & HD); [done..| |done|done|].
  { intros j Hj. by eapply Hedge, Hsucc. }
  rewrite (bind_run _ _ _ _ _ Hrun). destruct (sccEnd_spec s i s2 T2 l2 D2) as (s3 & T3 & Hrun3 & Hex); [done..| |done|done|].
  { intros y Hy. apply HD. left. by apply Hsucc. }
  by exists s3, T3, l2.
Qed.

(** ** The components of the graph *)

Lemma sccLoop_spec nodes s :
  inv s → mStack s = [] → (∀ i, i ∈ nodes → i < length g) →
  ∃ s', sccLoop g nodes s = Ok (tt, s') ∧ inv s' ∧ mStack s' = [] ∧ (∀ i, i ∈ nodes ∨ visited s i → visited s' i).
Proof.
  revert s. induction nodes as [|i nodes IH]; intros s Hs Hst Hlt; cbn [sccLoop].
  { exists s. split; [done|]. split; [done|]. split; [done|]. by intros i [?%not_elem_of_nil|]. }
  assert (i < length g) as Hi by (apply Hlt; by left). assert (i < length (mNodes s)) as Hi' by (by rewrite (inv_length _ Hs)).
  destruct (lookup_lt_is_Some_2 _ _ Hi') as [v Hv]. rewrite (bind_run _ _ _ v s) by (by apply nodeAt_run).
  assert (∃ s1, (if (mIndex v =? -1)%Z then scc g (length g) i else mret tt) s = Ok (tt, s1) ∧ inv s1 ∧
                mStack s1 = [] ∧ (∀ j, j = i ∨ visited s j → visited s1 j)) as (s1 & Hrun & Hs1 & Hst1 & Hv1).
  { rewrite (unvisited_index _ _ _ Hv). case_bool_decide as Hn; [|by exists s; split; [done|]; split; [done|]; split; [done|]; naive_solver].
    destruct (scc_spec (length g) s i) as (s1 & T & low & Hrun & Hex); [done..| |].
    { transitivity (size (set_seq (C:=gset nat) 0 (length g))); [apply subseteq_size; set_solver|by rewrite size_set_seq]. }
    exists s1. split; [done|]. split; [apply Hex|]. split.
    - rewrite (ext_stack _ _ _ (ex_ext _ _ _ _ _ Hex)), Hst, app_nil_r. destruct (decide (T = [])) as [|HT]; [done|].
      pose proof (ex_root _ _ _ _ _ Hex HT). pose proof (ex_bounded _ _ _ _ _ Hex (mNextIndex s)) as Hb.
      rewrite Hst in Hb. specialize (Hb ltac:(lia)). destruct (Z.lt_irrefl low). apply Z.lt_le_trans with (mNextIndex s); [done|].
      apply Hb. by intros y ?%not_elem_of_nil.
    - intros j [->|Hj]; [|by eapply ext_visited; [apply Hex|]]. destruct (ex_node _ _ _ _ _ Hex) as [on Hon].
      unfold visited, index_of. rewrite Hon. cbn. pose proof (inv_next _ Hs). lia. }
  rewrite (bind_run _ _ _ _ _ Hrun). destruct (IH s1) as (s2 & Hrun2 & Hs2 & Hst2 & Hv2); [done|done|intros j Hj; apply Hlt; by right|].
  exists s2. split; [done|]. split; [done|]. split; [done|]. intros j [[->|?]%elem_of_cons|?]; apply Hv2; naive_solver.
Qed.

(** The components cover the nodes, and no edge leads to a later one. *)
Lemma calculateSCCs_spec :
  ∃ sccs, calculateSCCs g = Ok sccs ∧ topo sccs ∧ ∀ i, i < length g → i ∈ assigned sccs.
Proof.
  unfold calculateSCCs. set (s0 := mkTarjan _ _ _ _).
  assert (inv s0) as Hs0.
  { assert (∀ x v, mNodes s0 !! x = Some v → v = mkSCCNode (-1) (-1) false) as H0 by (by intros x v [? _]%lookup_replicate).
    split; cbn [mStack mSCCs mNextIndex s0].
    - apply length_replicate.
    - done.
    - by intros x v ->%H0.
    - intros x v _ _. split; [apply not_elem_of_nil|unfold assigned; set_solver].
    - intros x v ->%H0. cbn. split; [done|]. by intros ?%not_elem_of_nil.
    - by intros x ?%not_elem_of_nil.
    - constructor.
    - constructor. }
  destruct (sccLoop_spec (seq 0 (length g)) s0) as (s & -> & Hs & Hst & Hv); [done|done|by intros i ?%elem_of_seq; lia|].
  exists (mSCCs s). split; [done|]. split; [apply Hs|]. intros i Hi.
  destruct (visited_index s i) as (v & Hvi & _ & Hn); [apply Hv; left; apply elem_of_seq; lia|].
  destruct (inv_visited _ Hs i v Hvi Hn) as [_ [Hin|]]; [|done]. rewrite Hst in Hin. by apply not_elem_of_nil in Hin.
Qed.

End tarjan.
