(* ===== verification/QuorumIntersectionProps.v ===== *)
(** * The quorum intersection checker is right

    A quorum contains a quorum inside one strongly connected component, so scanning
    one component is enough; the checker returns whether any two quorums of the
    network have a common node and, if not, two quorums that have none.  A network
    that passes the check satisfies the assumption under which nodes agree. *)

From S2P Require Import Prelude StateMonad QuorumSet QuorumSetProps QuorumTracker BitSet QuorumIntersection QuorumEnumeration Tarjan.
Open Scope nat_scope.

Section graph.
Context {B : Type} {cap : nat} `{BL : BitSetLaws B cap}.
Context (g : list (QBitSet (B:=B))).
Hypothesis (Hcap : length g ≤ cap).
Hypothesis (Hg : ∀ i q, g !! i = Some q → qb_ok q).
Implicit Types (b scan : B) (Q M : gset nat) (sccs l : list B).

Local Notation quorum := (quorum g).
Local Notation nodes_ok := (nodes_ok g).

(** ** Quorums and components *)

Definition has_quorum b : Prop := ∃ Q, quorum Q ∧ Q ⊆ den b.

(** What a quorum has in the first component that it meets is a quorum. *)
Lemma quorum_component sccs Q :
  topo g sccs → quorum Q → ¬ Q ## assigned sccs → ∃ b, b ∈ sccs ∧ quorum (Q ∩ den b).
Proof.
  intros Ht HQ. induction Ht as [|sccs b Ht IH Hb Hlt Hd Hc]; intros Hm; [destruct Hm; unfold assigned; set_solver|].
  destruct (decide (Q ## assigned sccs)) as [Hdis|Hdis].
  - exists b. split; [apply elem_of_app; right; by left|]. rewrite assigned_snoc in Hm. split; [set_solver|].
    intros i [Hi Hib]%elem_of_intersection. destruct HQ as [_ HQ]. specialize (HQ i Hi). unfold satisfied in *.
    destruct (g !! i) as [q|] eqn:E; [|done]. rewrite (sat_ext _ Q); [done|by eapply Hg|].
    intros j Hj. assert (edge g i j) as He by (by exists q). specialize (Hc i j Hib He).
    rewrite elem_of_intersection. split; [tauto|]. intros HjQ. split; [done|]. set_solver.
  - destruct (IH Hdis) as (b' & Hb' & ?). exists b'. split; [apply elem_of_app; by left|done].
Qed.

Lemma quorum_covered sccs Q :
  topo g sccs → (∀ i, i < length g → i ∈ assigned sccs) → quorum Q → ∃ b Q', b ∈ sccs ∧ quorum Q' ∧ Q' ⊆ Q ∧ Q' ⊆ den b.
Proof.
  intros Ht Hcov HQ. destruct (quorum_component sccs Q Ht HQ) as (b & Hb & HQb).
  - destruct (set_choose_L Q) as [i Hi]; [apply HQ|]. intros Hdis. apply (Hdis i Hi), Hcov. by eapply quorum_bound.
  - exists b, (Q ∩ den b). split_and!; [done|done|set_solver|set_solver].
Qed.

(** ** The first stage *)

(** The components looked at so far: only [scan] has a quorum. *)
Record scanned l scan : Prop := {
  sd_nodes : nodes_ok scan;
  sd_scan : den scan = ∅ ∨ (scan ∈ l ∧ has_quorum scan);
  sd_only b : b ∈ l → has_quorum b → den b = den scan
}.

Lemma scanned_skip l scan b : scanned l scan → ¬ has_quorum b → scanned (l ++ [b]) scan.
Proof.
  intros Hs Hb. split; [apply Hs| |].
  - destruct (sd_scan _ _ Hs) as [?|[? ?]]; [by left|right; split; [apply elem_of_app; by left|done]].
  - intros b' [Hb'| ->%list_elem_of_singleton]%elem_of_app Hq; [by apply (sd_only _ _ Hs)|done].
Qed.

Lemma scanned_first l scan b :
  scanned l scan → den scan = ∅ → nodes_ok b → has_quorum b → scanned (l ++ [b]) b.
Proof.
  intros Hs He Hb Hq. split; [done|right; split; [apply elem_of_app; right; by left|done]|].
  intros b' [Hb'| ->%list_elem_of_singleton]%elem_of_app Hq'; [|done].
  pose proof (sd_only _ _ Hs b' Hb' Hq') as E. destruct Hq' as (Q & [Hne _] & HQ). set_solver.
Qed.

Lemma contract_has_quorum b b' : contracts_to g (den b) (den b') → den b' ≠ ∅ ↔ has_quorum b.
Proof.
  intros HM. split.
  - intros Hne. exists (den b'). split; [by eapply contracts_to_quorum|apply HM].
  - intros (Q & HQ & Hsub) He. by eapply contracts_to_empty.
Qed.

Lemma topo_nodes sccs b : topo g sccs → b ∈ sccs → nodes_ok b.
Proof. intros Ht [k Hk]%list_elem_of_lookup. destruct (topo_lookup g sccs k b Ht Hk) as (? & ? & _). done. Qed.

Lemma topo_disjoint l l' b b' : topo g (l ++ b :: l') → b' ∈ l → den b' ## den b.
Proof.
  intros Ht [k Hk]%list_elem_of_lookup. pose proof (lookup_lt_Some _ _ _ Hk).
  destruct (topo_lookup g _ k b' Ht) as (_ & _ & Hd); [by rewrite lookup_app_l|].
  apply (Hd (length l)); [lia|]. by apply list_lookup_middle.
Qed.

Lemma findScanSCC_spec l l' scan :
  topo g (l ++ l') → scanned l scan →
  ∃ scan' found, findScanSCC g scan l' = Ok (scan', found) ∧ den scan' ⊆ set_seq 0 (length g) ∧ nodes_ok scan' ∧
    match found with
    | None => scanned (l ++ l') scan'
    | Some _ => den scan' ≠ ∅ ∧ split_found g (set_seq 0 (length g)) found
    end.
Proof.
  assert (∀ b, nodes_ok b → den b ⊆ set_seq 0 (length g)) as Hseq.
  { intros b [_ Hb] i Hi. apply elem_of_set_seq. specialize (Hb i Hi). lia. }
  revert l scan. induction l' as [|b l' IH]; intros l scan Ht Hs; cbn [findScanSCC].
  { exists scan, None. rewrite app_nil_r. split; [done|]. split; [by apply Hseq, Hs|]. split; [apply Hs|done]. }
  assert (nodes_ok b) as Hb by (eapply topo_nodes; [done|]; apply elem_of_app; right; by left).
  destruct (contract_spec g Hcap Hg b Hb) as (q & -> & Hq & HM). cbn [mbind res_bind]. rewrite law_isEmpty by apply Hq.
  pose proof (contract_has_quorum _ _ HM) as Hbq. assert (l ++ b :: l' = (l ++ [b]) ++ l') as El by (by rewrite <- app_assoc).
  case_bool_decide as Hqe; [rewrite El in *; apply IH; [done|]; apply scanned_skip; naive_solver|].
  rewrite law_isEmpty by apply Hs. case_bool_decide as Hse.
  { rewrite El in *. apply IH; [done|]. eapply scanned_first; naive_solver. }
  destruct (sd_scan _ _ Hs) as [?|[Hin Hsq]]; [done|]. pose proof (sd_nodes _ _ Hs) as Hsn.
  destruct (contract_spec g Hcap Hg scan Hsn) as (q' & -> & Hq' & HM'). cbn [mbind res_bind].
  eexists scan, (Some (q', q)). split; [done|]. split; [by apply Hseq|]. split; [done|]. split; [done|].
  pose proof (topo_disjoint _ _ _ _ Ht Hin) as Hdis. pose proof (ct_sub _ _ _ HM). pose proof (ct_sub _ _ _ HM').
  cbn. split_and!; [done|done|eapply contracts_to_quorum; [done|by eapply contract_has_quorum]|by eapply contracts_to_quorum|set_solver|by apply Hseq..].
Qed.

(** ** The answer *)

Definition intersecting : Prop := ∀ Q1 Q2, quorum Q1 → quorum Q2 → ∃ i, i ∈ Q1 ∧ i ∈ Q2.

Lemma disjoint_intersecting : (∀ Q1 Q2, quorum Q1 → quorum Q2 → ¬ Q1 ## Q2) → intersecting.
Proof.
  intros Hd Q1 Q2 H1 H2. destruct (set_choose_or_empty (Q1 ∩ Q2)) as [[i Hi]|He]; [exists i; set_solver|].
  destruct (Hd Q1 Q2 H1 H2). set_solver.
Qed.

(** Of two disjoint quorums, one is small and contains a minimal one. *)
Lemma disjoint_to_find l scan Q1 Q2 :
  topo g l → (∀ i, i < length g → i ∈ assigned l) → scanned l scan → quorum Q1 → quorum Q2 → Q1 ## Q2 →
  to_find g (den scan) ∅ (den scan).
Proof.
  intros Ht Hcov Hs HQ1 HQ2 Hdis.
  assert (∀ Q, quorum Q → ∃ M, minimal_quorum g M ∧ M ⊆ Q ∧ M ⊆ den scan) as Hin.
  { intros Q HQ. destruct (quorum_covered l Q Ht Hcov HQ) as (b & Q' & Hb & HQ' & Hsub & Hbs).
    destruct (minimal_exists g Hcap Hg Q' HQ') as (M & HM & HMQ). exists M. split; [done|]. split; [set_solver|].
    rewrite <- (sd_only _ _ Hs b Hb); [set_solver|by exists Q']. }
  destruct (Hin Q1 HQ1) as (M1 & [HM1 Hmin1] & H1 & H1s), (Hin Q2 HQ2) as (M2 & [HM2 Hmin2] & H2 & H2s).
  assert (size M1 + size M2 ≤ size (den scan)) as Hsz.
  { rewrite <- size_union by set_solver. apply subseteq_size. set_solver. }
  assert (size M1 ≤ size (den scan) / 2 + 1 ∨ size M2 ≤ size (den scan) / 2 + 1) as [Hl|Hl].
  { pose proof (Nat.div_mod_eq (size (den scan)) 2). pose proof (Nat.mod_upper_bound (size (den scan)) 2). lia. }
  - exists M1, M2. split_and!; [done|done|set_solver|done|set_solver|done|done].
  - exists M2, M1. split_and!; [done|done|set_solver|done|set_solver|done|done].
Qed.

Lemma networkEnjoys_spec randZero sccs :
  topo g sccs → (∀ i, i < length g → i ∈ assigned sccs) →
  ∃ found : option (B * B), networkEnjoysQuorumIntersection g randZero sccs = Ok (if found then false else true, found) ∧
    match found with None => intersecting | Some _ => split_found g (set_seq 0 (length g)) found end.
Proof.
  intros Ht Hcov. unfold networkEnjoysQuorumIntersection. destruct law_empty as [He0 Hd0].
  destruct (findScanSCC_spec [] sccs bs_empty) as (scan & found & -> & Hseq & Hsn & Hf); [done| |].
  { split; [split; [done|rewrite Hd0; set_solver]|by left|by intros b ?%not_elem_of_nil]. }
  cbn [mbind res_bind app] in *. rewrite law_isEmpty by apply Hsn. case_bool_decide as Hse.
  { exists None. split; [done|]. destruct found; [by destruct Hf|]. apply disjoint_intersecting. intros Q1 Q2 HQ1 HQ2 Hdis.
    destruct (disjoint_to_find _ _ _ _ Ht Hcov Hf HQ1 HQ2 Hdis) as (M & _ & [[Hne _] _] & _ & _ & _ & _ & HM & _). set_solver. }
  destruct found as [[a d]|]; [by exists (Some (a, d)); split; [|apply Hf]|].
  destruct (enumerate_spec g Hcap Hg randZero (S (bs_count scan)) scan bs_empty scan) as (o & -> & Ho & Hfind); [done| |done| | |].
  { split; [done|]. rewrite Hd0. set_solver. }
  { rewrite Hd0. set_solver. }
  { rewrite law_count by apply Hsn. lia. }
  exists o. split; [by destruct o as [[]|]|]. destruct o as [[a d]|]; [unfold split_found in *; set_solver|].
  apply disjoint_intersecting. intros Q1 Q2 HQ1 HQ2 Hdis. apply Hfind; [|done]. rewrite Hd0, (left_id_L ∅ (∪)).
  by apply (disjoint_to_find sccs scan Q1 Q2).
Qed.

Lemma check_graph randZero :
  (∀ x y, edge g x y → y < length g) →
  ∃ sccs (found : option (B * B)), calculateSCCs g = Ok sccs ∧
    networkEnjoysQuorumIntersection g randZero sccs = Ok (if found then false else true, found) ∧
    match found with None => intersecting | Some _ => split_found g (set_seq 0 (length g)) found end.
Proof.
  intros He. destruct (calculateSCCs_spec g) as (sccs & Hrun & Ht & Hcov); [done| |done|].
  { intros i q Hq. by destruct (Hg i q Hq). }
  destruct (networkEnjoys_spec randZero sccs Ht Hcov) as (found & ? & ?). by exists sccs, found.
Qed.
End graph.

(** ** Quorum sets as bit sets *)

(** Different nodes have different numbers, small enough for a bit set. *)
Class Numbering (cap : nat) (nums : gmap NodeID nat) : Prop := {
  num_size : base.size nums ≤ cap;
  num_bound a i : nums !! a = Some i → i < base.size nums;
  num_inj a b i : nums !! a = Some i → nums !! b = Some i → a = b
}.

Section convert.
Context {B : Type} {cap : nat} `{BL : BitSetLaws B cap}.
Context (nums : gmap NodeID nat) `{!Numbering cap nums}.
Implicit Types (qs : SCPQuorumSet) (q : QBitSet (B:=B)) (v : list NodeID) (X : gset nat) (b n : B) (inner : list (QBitSet (B:=B))).

(** The numbers of some nodes. *)
Definition image v : gset nat := list_to_set (omap (λ a, nums !! a) v).

Lemma elem_of_image i v : i ∈ image v ↔ ∃ a, a ∈ v ∧ nums !! a = Some i.
Proof. unfold image. by rewrite elem_of_list_to_set, list_elem_of_omap. Qed.

Lemma image_app v v' : image (v ++ v') = image v ∪ image v'.
Proof. unfold image. by rewrite omap_app, list_to_set_app_L. Qed.

Lemma image_disjoint v v' : (∀ a, a ∈ v → a ∈ v' → False) → image v ## image v'.
Proof.
  intros Hd i (a & Ha & Hi)%elem_of_image (b & Hb & Hj)%elem_of_image. rewrite (num_inj a b i Hi Hj) in Ha. by apply (Hd b).
Qed.

Inductive conv : SCPQuorumSet → QBitSet (B:=B) → Prop :=
| conv_intro t v i n inner s :
    bs_ok n → den n = image v → Forall2 conv i inner →
    bs_ok s → den s = den n ∪ ⋃ (succs <$> inner) → conv (QSet t v i) (QBits t n inner s).

Lemma getSuccessors_spec n inner :
  bs_ok n → Forall (λ q, bs_ok (mAllSuccessors q)) inner →
  bs_ok (getSuccessors n inner) ∧ den (getSuccessors n inner) = den n ∪ ⋃ (succs <$> inner).
Proof.
  unfold getSuccessors. intros Hn Hi. revert n Hn. induction Hi as [|q inner Hq Hi IH]; intros n Hn; cbn.
  - split; [done|set_solver].
  - destruct (law_or n (mAllSuccessors q)) as [Hor Hden]; [done..|]. destruct (IH _ Hor) as [Hok Hd]. split; [done|].
    rewrite Hd, Hden. unfold succs at 2. by rewrite (assoc_L (∪)).
Qed.

Lemma nodeBits_spec v b :
  bs_ok b → ∃ b', foldM (λ (nodeBits : B) a, match nums !! a with Some i => bs_set i nodeBits | None => mret nodeBits end) b v = Ok b' ∧
                  bs_ok b' ∧ den b' = den b ∪ image v.
Proof.
  revert b. induction v as [|a v IH]; intros b Hb; cbn [foldM]; [exists b; set_solver|].
  change (a :: v) with ([a] ++ v). rewrite image_app. unfold image at 1. cbn [omap list_omap].
  destruct (nums !! a) as [i|] eqn:E; cbn [mbind res_bind mret res_ret].
  - destruct (law_set i b Hb) as (b1 & -> & Hb1 & Hd1); [pose proof (num_bound a i E); pose proof num_size; lia|]. cbn [mbind res_bind].
    destruct (IH b1 Hb1) as (b2 & -> & Hb2 & Hd2). exists b2. split; [done|]. split; [done|]. rewrite Hd2, Hd1. set_solver.
  - destruct (IH b Hb) as (b2 & -> & Hb2 & Hd2). exists b2. split; [done|]. split; [done|]. rewrite Hd2. set_solver.
Qed.

Lemma convert_spec qs : ∃ q, convertSCPQuorumSet nums qs = Ok q ∧ conv qs q.
Proof.
  induction qs as [t v i IH] using qset_nested_ind. cbn [convertSCPQuorumSet].
  destruct (law_sized (base.size nums) num_size) as [H0 Hd0]. destruct (nodeBits_spec v _ H0) as (n & -> & Hn & Hdn).
  cbn [mbind res_bind].
  match goal with |- context [?f i ≫= _] =>
    assert (∃ inner, f i = Ok inner ∧ Forall2 conv i inner) as (inner & Hrun & Hc) end.
  { induction IH as [|x l (q & Hq & Hx) _ (inner & Hl & Hin)]; [by exists []|].
    rewrite Hq. cbn [mbind res_bind]. rewrite Hl. cbn [mbind res_bind]. exists (q :: inner). split; [done|by constructor]. }
  rewrite Hrun. cbn [mbind res_bind]. eexists. split; [done|].
  destruct (getSuccessors_spec n inner) as [Hs Hds]; [done| |].
  { clear -Hc. induction Hc as [|? ? ? ? Hc ? IH]; constructor; [|done]. by destruct Hc. }
  by constructor; [done|rewrite Hdn, Hd0; set_solver|done|done|].
Qed.

Lemma conv_succs qs q : conv qs q → succs q = image (qset_nodes qs).
Proof.
  revert q. induction qs as [t v i IH] using qset_nested_ind. intros q Hc. inversion Hc as [? ? ? n inner s Hn Hdn Hi Hs Hds]; subst.
  unfold succs. cbn [mAllSuccessors qset_nodes]. rewrite Hds, Hdn, image_app. f_equal. clear -IH Hi.
  induction Hi as [|x q l inner Hx Hi IHi]; [done|]. apply Forall_cons in IH as [IHx IH]. cbn [map concat fmap list_fmap].
  rewrite image_app, <- IHi by done. cbn. by rewrite (IHx _ Hx).
Qed.

(** Nodes that the set contains, counted. *)
Lemma image_count X (S v : list NodeID) :
  NoDup v → (∀ a i, nums !! a = Some i → i ∈ X ↔ a ∈ S) → (∀ a, a ∈ S → is_Some (nums !! a)) →
  Z.of_nat (base.size (X ∩ image v)) = ctrue (map (found S) v).
Proof.
  intros Hv HX HS. induction Hv as [|a v Ha Hv IH]; cbn [map]; [rewrite ctrue_nil; unfold image; cbn; by rewrite (right_absorb_L ∅ (∩)), size_empty|].
  rewrite ctrue_cons, <- IH. unfold found. change (a :: v) with ([a] ++ v). rewrite image_app, intersection_union_l_L.
  rewrite size_union.
  - unfold image at 1. cbn [omap list_omap]. destruct (nums !! a) as [i|] eqn:E.
    + rewrite list_to_set_cons, list_to_set_nil, (right_id_L ∅ (∪)). specialize (HX a i E). case_bool_decide as Hin.
      * replace (X ∩ {[i]}) with ({[i]} : gset nat) by set_solver. rewrite size_singleton. lia.
      * replace (X ∩ {[i]}) with (∅ : gset nat) by set_solver. rewrite size_empty. lia.
    + rewrite bool_decide_false by (intros [? ?]%HS; congruence). cbn. rewrite (right_absorb_L ∅ (∩)), size_empty. lia.
  - assert (image [a] ## image v) as Hd; [|set_solver]. apply image_disjoint. by intros b ->%list_elem_of_singleton.
Qed.

Lemma elem_of_inner_nodes a (i : list SCPQuorumSet) : a ∈ concat (map qset_nodes i) ↔ ∃ x, x ∈ i ∧ a ∈ qset_nodes x.
Proof.
  rewrite list_elem_of_In, in_concat. setoid_rewrite in_map_iff. setoid_rewrite <- list_elem_of_In. naive_solver.
Qed.

Lemma nodup_inner v (i : list SCPQuorumSet) :
  NoDup (v ++ concat (map qset_nodes i)) →
  NoDup v ∧ (∀ x a, x ∈ i → a ∈ v → a ∈ qset_nodes x → False) ∧ (∀ x, x ∈ i → NoDup (qset_nodes x)) ∧
  (∀ k l x y, i !! k = Some x → i !! l = Some y → k ≠ l → ∀ a, a ∈ qset_nodes x → a ∈ qset_nodes y → False).
Proof.
  intros (Hv & Hvi & Hi)%NoDup_app. split; [done|]. split.
  { intros x a Hx Ha Hax. apply (Hvi a Ha), elem_of_inner_nodes. eauto. }
  clear Hvi Hv v. induction i as [|x0 i IH]; [split; [by intros x ?%not_elem_of_nil|done]|].
  cbn [map concat] in Hi. apply NoDup_app in Hi as (Hx0 & Hd & Hi). destruct (IH Hi) as [IH1 IH2].
  assert (∀ l x a, i !! l = Some x → a ∈ qset_nodes x → a ∈ qset_nodes x0 → False) as H0.
  { intros l x a Hl Ha Ha0. apply (Hd a Ha0), elem_of_inner_nodes. exists x. split; [by eapply list_elem_of_lookup_2|done]. }
  split; [intros x [->|Hx]%elem_of_cons; [done|by apply IH1]|].
  intros [|k] [|l] x y Hk Hl Hne a Hx Hy; cbn in Hk, Hl; simplify_eq; [eauto..|].
  by apply (IH2 k l x y Hk Hl ltac:(lia) a).
Qed.

Lemma conv_elements i inner k q :
  Forall2 conv i inner → inner !! k = Some q → ∃ x, i !! k = Some x ∧ conv x q.
Proof. intros Hi Hq. destruct (Forall2_lookup_r _ _ _ _ _ Hi Hq) as (x & ? & ?). eauto. Qed.

Lemma conv_ok qs q :
  conv qs q → NoDup (qset_nodes qs) → levels (λ t _, (1 ≤ t)%Z) qs → qb_ok q ∧ sat ∅ q = false.
Proof.
  revert q. induction qs as [t v i IH] using qset_nested_ind. intros q Hc Hnd Hl.
  inversion Hc as [? ? ? n inner s Hn Hdn Hi Hs Hds]; subst. apply nodup_inner in Hnd as (Hv & Hvi & Hnd & Hdis).
  inversion Hl as [? ? ? Ht Hli]; subst. rewrite Forall_forall in IH, Hli.
  assert (∀ k q, inner !! k = Some q → qb_ok q ∧ sat ∅ q = false) as Hin.
  { intros k q Hq. destruct (conv_elements _ _ _ _ Hi Hq) as (x & Hx%list_elem_of_lookup_2 & Hxq). eauto. }
  assert (ctrue (map (sat ∅) inner) = 0)%Z as E0.
  { rewrite (map_ext_elem _ (λ _, false)); [clear; induction inner; [done|by cbn [map]; rewrite ctrue_cons, IHinner]|].
    intros q [k Hk]%list_elem_of_lookup. by eapply Hin. }
  split; [|cbn [sat]; rewrite (left_absorb_L ∅ (∩)), size_empty, E0; apply Z.leb_gt; lia].
  constructor; [done|done|done|..].
  - apply Forall_lookup. intros k q Hq. by eapply Hin.
  - apply Forall_lookup. intros k q Hq. destruct (conv_elements _ _ _ _ Hi Hq) as (x & Hx%list_elem_of_lookup_2 & Hxq).
    rewrite Hdn, (conv_succs _ _ Hxq). apply image_disjoint. eauto.
  - intros k l q r Hq Hr Hne. destruct (conv_elements _ _ _ _ Hi Hq) as (x & Hx & Hxq), (conv_elements _ _ _ _ Hi Hr) as (y & Hy & Hyr).
    rewrite (conv_succs _ _ Hxq), (conv_succs _ _ Hyr). apply image_disjoint. eauto.
  - apply Forall_lookup. intros k q Hq. by eapply Hin.
Qed.

Lemma conv_sat qs q X (S : list NodeID) :
  conv qs q → NoDup (qset_nodes qs) → levels (λ t _, (1 ≤ t)%Z) qs →
  (∀ a i, nums !! a = Some i → i ∈ X ↔ a ∈ S) → (∀ a, a ∈ S → is_Some (nums !! a)) → sat X q = slice_sat qs S.
Proof.
  intros Hc Hnd Hl HX HS. revert q Hc Hnd Hl. induction qs as [t v i IH] using qset_nested_ind. intros q Hc Hnd Hl.
  inversion Hc as [? ? ? n inner s Hn Hdn Hi Hs Hds]; subst. apply nodup_inner in Hnd as (Hv & Hvi & Hnd & Hdis).
  inversion Hl as [? ? ? Ht Hli]; subst. cbn [sat slice_sat]. rewrite Hdn, (image_count X S v) by done.
  unfold eff. destruct (Z.eqb_spec t 0); [lia|]. do 2 f_equal. f_equal.
  clear -IH Hi Hli Hnd. induction Hi as [|x q i inner Hx Hi IHi]; [done|]. cbn [map].
  apply Forall_cons in IH as [IHx IH], Hli as [Hlx Hli]. rewrite (IHx _ Hx); [|by apply Hnd; left|done]. f_equal.
  apply IHi; try done. intros y Hy. apply Hnd. by right.
Qed.
End convert.

(** ** The graph of a network *)

(** The nodes whose quorum set is known. *)
Definition known (qmap : list (NodeID * NodeInfo)) : list (NodeID * SCPQuorumSet) :=
  omap (λ kv, (λ p, (kv.1, ptr_qset p)) <$> mQuorumSet kv.2) qmap.

(** A quorum of the network: each of its nodes has a slice in it. *)
Definition network_quorum (qmap : list (NodeID * NodeInfo)) (U : list NodeID) : Prop :=
  U ≠ [] ∧ ∀ a, a ∈ U → ∃ qs, (a, qs) ∈ known qmap ∧ isQuorumSlice qs U = true.

Lemma known_app l l' : known (l ++ l') = known l ++ known l'.
Proof. apply omap_app. Qed.

Lemma known_cons kv l :
  known (kv :: l) = match mQuorumSet kv.2 with Some p => (kv.1, ptr_qset p) :: known l | None => known l end.
Proof. unfold known. cbn. by destruct (mQuorumSet kv.2). Qed.

Lemma known_keys qmap : (known qmap).*1 `sublist_of` qmap.*1.
Proof.
  induction qmap as [|kv l IH]; [done|]. rewrite known_cons. destruct (mQuorumSet kv.2); cbn; by constructor.
Qed.

(** The numbers of the nodes. *)
Record numbered (names : list NodeID) (nums : gmap NodeID nat) : Prop := {
  nb_lookup a i : nums !! a = Some i ↔ names !! i = Some a;
  nb_size : base.size nums = length names
}.

Lemma numbered_snoc names nums a :
  numbered names nums → a ∉ names → numbered (names ++ [a]) (<[a := length names]> nums).
Proof.
  intros Hn Ha. assert (nums !! a = None) as Hnone.
  { destruct (nums !! a) as [i|] eqn:E; [|done]. apply (nb_lookup _ _ Hn) in E. by apply list_elem_of_lookup_2 in E. }
  split.
  - intros b i. rewrite lookup_insert, lookup_app. case_decide as Hab; [subst b|].
    + destruct (names !! i) as [c|] eqn:E.
      * pose proof (lookup_lt_Some _ _ _ E). split; [intros [=]; lia|]. intros [= ->]. by apply list_elem_of_lookup_2 in E.
      * apply lookup_ge_None in E. rewrite list_lookup_singleton_Some. split; [intros [= <-]; split; [lia|done]|intros [? _]; f_equal; lia].
    + rewrite (nb_lookup _ _ Hn). destruct (names !! i) eqn:E; [done|]. rewrite list_lookup_singleton_Some. naive_solver.
  - rewrite map_size_insert_None, (nb_size _ _ Hn), length_app by done. cbn. lia.
Qed.

Lemma numberNode_spec qmap names nums :
  numbered names nums → NoDup (names ++ (known qmap).*1) →
  ∃ nums', foldl numberNode (names, nums) qmap = (names ++ (known qmap).*1, nums') ∧ numbered (names ++ (known qmap).*1) nums'.
Proof.
  revert names nums. induction qmap as [|kv qmap IH]; intros names nums Hn Hnd; cbn [foldl].
  { exists nums. cbn. by rewrite app_nil_r. }
  rewrite known_cons in *. unfold numberNode at 2. destruct (mQuorumSet kv.2) as [p|]; [|by apply IH].
  cbn [fmap list_fmap fst] in *. assert (names ++ kv.1 :: (known qmap).*1 = (names ++ [kv.1]) ++ (known qmap).*1) as E by (by rewrite <- app_assoc).
  rewrite E in *. apply IH; [|done].
  apply numbered_snoc; [done|]. apply NoDup_app in Hnd as (Hnd & _ & _). apply NoDup_app in Hnd as (_ & Hd & _).
  intros Hin. apply (Hd _ Hin). by left.
Qed.

Section network.
Context {B : Type} {cap : nat} `{BL : BitSetLaws B cap}.
Context (qmap : list (NodeID * NodeInfo)).
Hypothesis (Hkeys : NoDup qmap.*1).
Hypothesis (Hlen : length qmap ≤ cap).
Hypothesis (Hsane : ∀ a qs, (a, qs) ∈ known qmap → isQuorumSetSane qs false = true).
Implicit Types (Q : gset nat) (U : list NodeID) (b : B).

Notation names := ((known qmap).*1).

Lemma names_nodup : NoDup names.
Proof. by eapply sublist_NoDup, known_keys. Qed.

Lemma names_length : length names ≤ cap.
Proof. pose proof (sublist_length _ _ (known_keys qmap)) as Hs. rewrite (length_fmap fst qmap) in Hs. lia. Qed.

#[local] Instance numbered_numbering nums : numbered names nums → Numbering cap nums.
Proof.
  intros Hn. split.
  - rewrite (nb_size _ _ Hn). apply names_length.
  - intros a i Ha%(nb_lookup _ _ Hn). rewrite (nb_size _ _ Hn). by eapply lookup_lt_Some.
  - intros a c i Ha%(nb_lookup _ _ Hn) Hc%(nb_lookup _ _ Hn). congruence.
Qed.

Lemma graph_spec nums l l' (g : list (QBitSet (B:=B))) :
  numbered names nums → qmap = l ++ l' → Forall2 (λ kq q, conv nums kq.2 q) (known l) g →
  ∃ g', foldM (graphNode nums) g l' = Ok g' ∧ Forall2 (λ kq q, conv nums kq.2 q) (known qmap) g'.
Proof.
  intros Hn. revert l g. induction l' as [|kv l' IH]; intros l g Eq Hg; cbn [foldM].
  { exists g. by rewrite Eq, app_nil_r. }
  assert (qmap = (l ++ [kv]) ++ l') as Eq' by (by rewrite <- app_assoc).
  destruct (mQuorumSet kv.2) as [p|] eqn:Ep.
  - assert (nums !! kv.1 = Some (length (known l))) as Hk.
    { apply (nb_lookup _ _ Hn). rewrite Eq, known_app, known_cons, Ep, fmap_app, lookup_app_r by (by rewrite length_fmap).
      by rewrite length_fmap, Nat.sub_diag. }
    pose proof (numbered_numbering nums Hn). destruct (convert_spec (B:=B) nums (ptr_qset p)) as (q & Hq & Hc).
    assert (graphNode nums g kv = Ok (g ++ [q])) as ->.
    { unfold graphNode. rewrite Ep, Hk, (Forall2_length _ _ _ Hg), Nat.eqb_refl. cbn [cassert mbind res_bind]. by rewrite Hq. }
    cbn [mbind res_bind]. apply (IH (l ++ [kv])); [done|]. rewrite known_app, known_cons, Ep.
    apply Forall2_app; [done|by constructor].
  - assert (graphNode nums g kv = Ok g) as -> by (unfold graphNode; by rewrite Ep). cbn [mbind res_bind]. apply (IH (l ++ [kv])); [done|].
    by rewrite known_app, known_cons, Ep, app_nil_r.
Qed.

Lemma buildGraph_spec :
  ∃ nums g, buildGraph (B:=B) qmap = Ok (names, g) ∧ numbered names nums ∧
            Forall2 (λ kq q, conv nums kq.2 q) (known qmap) g.
Proof.
  destruct (numberNode_spec qmap [] ∅) as (nums & Hrun & Hn); [by split|apply names_nodup|]. cbn [app] in *.
  destruct (graph_spec nums [] qmap []) as (g & Hg & Hc); [done|done|constructor|].
  exists nums, g. unfold buildGraph. rewrite Hrun, Hg. done.
Qed.

(** A set of numbers and the nodes it stands for. *)
Record stands_for Q U : Prop := {
  sf_iff i a : names !! i = Some a → i ∈ Q ↔ a ∈ U;
  sf_bound i : i ∈ Q → i < length names;
  sf_names a : a ∈ U → a ∈ names
}.

Lemma known_sane a qs :
  (a, qs) ∈ known qmap → NoDup (qset_nodes qs) ∧ levels (λ t _, (1 ≤ t)%Z) qs ∧ typed qs.
Proof.
  intros (_ & Hl & Hnd & _)%Hsane%sane_inv. split; [done|].
  split; (eapply levels_impl; [|exact Hl]); intros t n; widths; lia.
Qed.

Section graph.
Context (nums : gmap NodeID nat) (g : list (QBitSet (B:=B))).
Hypothesis (Hn : numbered names nums).
Hypothesis (Hg : Forall2 (λ kq q, conv nums kq.2 q) (known qmap) g).

Lemma graph_length : length g = length names.
Proof. by rewrite <- (Forall2_length _ _ _ Hg), length_fmap. Qed.

Lemma graph_node i q : g !! i = Some q → ∃ a qs, names !! i = Some a ∧ known qmap !! i = Some (a, qs) ∧ conv nums qs q.
Proof.
  intros Hq. destruct (Forall2_lookup_r _ _ _ _ _ Hg Hq) as ([a qs] & Hk & Hc). exists a, qs.
  by rewrite list_lookup_fmap, Hk.
Qed.

Lemma graph_ok i q : g !! i = Some q → qb_ok q.
Proof.
  intros (a & qs & _ & Hk & Hc)%graph_node. apply list_elem_of_lookup_2 in Hk. destruct (known_sane _ _ Hk) as (Hnd & Hl & _).
  pose proof (numbered_numbering nums Hn). by apply (conv_ok nums qs q).
Qed.

Lemma graph_edge x y : edge g x y → y < length g.
Proof.
  intros (q & (a & qs & _ & _ & Hc)%graph_node & Hy). rewrite (conv_succs nums _ _ Hc) in Hy.
  apply elem_of_image in Hy as (c & _ & Hc'). pose proof (numbered_numbering nums Hn).
  rewrite graph_length, <- (nb_size _ _ Hn). by eapply num_bound.
Qed.

Lemma stands_for_sat Q U i a qs :
  stands_for Q U → known qmap !! i = Some (a, qs) → satisfied g Q i = isQuorumSlice qs U.
Proof.
  intros Hs Hk. destruct (Forall2_lookup_l _ _ _ _ _ Hg Hk) as (q & Hq & Hc). cbn in Hc.
  apply list_elem_of_lookup_2 in Hk. destruct (known_sane _ _ Hk) as (Hnd & Hl & Ht).
  unfold satisfied. rewrite Hq, isQuorumSlice_sat by done. pose proof (numbered_numbering nums Hn).
  apply (conv_sat nums); [done..| |].
  - intros c j Hj%(nb_lookup _ _ Hn). by apply (sf_iff _ _ Hs).
  - intros c [j Hj]%(sf_names _ _ Hs)%list_elem_of_lookup. exists j. by apply (nb_lookup _ _ Hn).
Qed.

Lemma stands_for_quorum Q U : stands_for Q U → quorum g Q ↔ network_quorum qmap U.
Proof.
  intros Hs. assert (∀ i, i < length names → ∃ a qs, names !! i = Some a ∧ known qmap !! i = Some (a, qs)) as Hat.
  { intros i Hi. rewrite length_fmap in Hi. destruct (lookup_lt_is_Some_2 _ _ Hi) as [[a qs] Hk]. exists a, qs.
    by rewrite list_lookup_fmap, Hk. }
  split; intros [Hne HQ].
  - split.
    { intros ->. destruct (set_choose_L Q Hne) as [i Hi]. destruct (Hat i (sf_bound _ _ Hs i Hi)) as (a & _ & Ha & _).
      by eapply not_elem_of_nil, (sf_iff _ _ Hs i a Ha). }
    intros a Ha. pose proof (sf_names _ _ Hs a Ha) as [i Hi]%list_elem_of_lookup. pose proof (lookup_lt_Some _ _ _ Hi) as Hlt.
    destruct (Hat i Hlt) as (a' & qs & Ha' & Hk). simplify_eq. exists qs. split; [by eapply list_elem_of_lookup_2|].
    rewrite <- (stands_for_sat Q U i a qs Hs Hk). apply HQ. by apply (sf_iff _ _ Hs i a).
  - split.
    + destruct U as [|a U]; [done|]. pose proof (sf_names _ _ Hs a ltac:(by left)) as [i Hi]%list_elem_of_lookup.
      assert (i ∈ Q); [|set_solver]. apply (sf_iff _ _ Hs i a Hi). by left.
    + intros i Hi. destruct (Hat i (sf_bound _ _ Hs i Hi)) as (a & qs & Ha & Hk). rewrite (stands_for_sat Q U i a qs Hs Hk).
      destruct (HQ a) as (qs' & Hk' & Hsl); [by apply (sf_iff _ _ Hs i a)|]. apply list_elem_of_lookup in Hk' as [j Hj].
      assert (names !! j = Some a) as Hj' by (by rewrite list_lookup_fmap, Hj).
      rewrite (NoDup_lookup names i j a names_nodup Ha Hj') in Hk. congruence.
Qed.
End graph.

Lemma stands_for_image nums U : numbered names nums → (∀ a, a ∈ U → a ∈ names) → stands_for (image nums U) U.
Proof.
  intros Hn HU. split; [| |done].
  - intros i a Hi. rewrite elem_of_image. split; [|intros Ha; exists a; split; [done|by apply (nb_lookup _ _ Hn)]].
    intros (c & Hc & Hj%(nb_lookup _ _ Hn)). congruence.
  - intros i (a & _ & Hi%(nb_lookup _ _ Hn))%elem_of_image. by eapply lookup_lt_Some.
Qed.

Lemma getPotentialSplit_spec b :
  (∀ i, i ∈ den b → i < length names) → ∃ l, getPotentialSplit names b = Ok l ∧ stands_for (den b) l.
Proof.
  intros Hb. unfold getPotentialSplit.
  assert (∀ m l, (∀ i, i ∈ m → i ∈ den b) →
    ∃ l', foldM (λ l i, k ← at_ names i; mret (l ++ [k])) l m = Ok l' ∧
          ∀ a, a ∈ l' ↔ a ∈ l ∨ ∃ i, i ∈ m ∧ names !! i = Some a) as Hfold.
  { induction m as [|i m IH]; intros l Hm; cbn [foldM].
    - exists l. split; [done|]. intros a. split; [by left|]. intros [?|(? & ?%not_elem_of_nil & _)]; done.
    - destruct (lookup_lt_is_Some_2 names i) as [a Ha]; [apply Hb, Hm; by left|]. assert (at_ names i = Ok a) as -> by (unfold at_; by rewrite Ha).
      cbn [mbind res_bind mret res_ret]. destruct (IH (l ++ [a])) as (l' & -> & Hl'); [intros j Hj; apply Hm; by right|].
      exists l'. split; [done|]. intros c. rewrite Hl', elem_of_app, list_elem_of_singleton. setoid_rewrite elem_of_cons. naive_solver. }
  destruct (Hfold (bs_members b) []) as (l & -> & Hl); [intros i; by rewrite elem_of_den|]. exists l. split; [done|].
  assert (∀ a, a ∈ l ↔ ∃ i, i ∈ den b ∧ names !! i = Some a) as Hl'.
  { intros a. rewrite Hl. setoid_rewrite elem_of_den. split; [intros [?%not_elem_of_nil|?]; done|by right]. }
  split; [|done|intros a (i & _ & Hi)%Hl'; by eapply list_elem_of_lookup_2].
  intros i a Hi. rewrite Hl'. split; [by exists i|]. intros (j & Hj & Hja). by rewrite (NoDup_lookup names i j a names_nodup Hi Hja).
Qed.

(** The check on any implementation of bit sets that is large enough. *)
Lemma check_spec randZero :
  ∃ answer split, checkIntersection (B:=B) randZero qmap = Ok (answer, split) ∧
    if (answer : bool) then ∀ U1 U2, network_quorum qmap U1 → network_quorum qmap U2 → ∃ a, a ∈ U1 ∧ a ∈ U2
    else network_quorum qmap split.1 ∧ network_quorum qmap split.2 ∧ ∀ a, a ∈ split.1 → a ∈ split.2 → False.
Proof.
  destruct buildGraph_spec as (nums & g & Hrun & Hn & Hg). unfold checkIntersection. rewrite Hrun. cbn [mbind res_bind].
  pose proof (graph_length _ _ Hg) as Hgl. pose proof names_length.
  destruct (check_graph g ltac:(lia) (graph_ok nums g Hn Hg) randZero (graph_edge nums g Hn Hg)) as (sccs & found & -> & Hne & Hf).
  cbn [mbind res_bind]. rewrite Hne.
  cbn [mbind res_bind]. destruct found as [[x y]|].
  - destruct Hf as ([_ Hx] & [_ Hy] & HQx & HQy & Hdis & _). rewrite Hgl in Hx, Hy.
    destruct (getPotentialSplit_spec x Hx) as (l1 & -> & H1), (getPotentialSplit_spec y Hy) as (l2 & -> & H2).
    cbn [mbind res_bind]. eexists false, (l1, l2). split; [done|].
    split; [by eapply stands_for_quorum|]. split; [by eapply stands_for_quorum|]. intros a Ha1 Ha2.
    pose proof (sf_names _ _ H1 a Ha1) as [i Hi]%list_elem_of_lookup. apply (Hdis i); [by apply (sf_iff _ _ H1 i a)|by apply (sf_iff _ _ H2 i a)].
  - eexists true, _. split; [done|]. intros U1 U2 HU1 HU2.
    assert (∀ U, network_quorum qmap U → stands_for (image nums U) U) as Hs.
    { intros U [_ HU]. apply stands_for_image; [done|]. intros a (qs & Ha & _)%HU. apply list_elem_of_fmap. by exists (a, qs). }
    destruct (Hf (image nums U1) (image nums U2)) as (i & Hi1 & Hi2); [by eapply (stands_for_quorum nums), HU1; [..|apply Hs]|by eapply (stands_for_quorum nums), HU2; [..|apply Hs]|].
    destruct (lookup_lt_is_Some_2 names i) as [a Ha]; [by apply (sf_bound _ _ (Hs _ HU1))|].
    exists a. split; [by apply (sf_iff _ _ (Hs _ HU1) i a)|by apply (sf_iff _ _ (Hs _ HU2) i a)].
Qed.
End network.

(** C12: For a network of at most 64 nodes with sane quorum sets, the checker answers,
    whatever nodes it splits on.  The answer is yes exactly when any two quorums of
    the network have a node in common, in the sense of the slices that the protocol
    itself uses; when it is no, the two groups of nodes that the checker reports are
    quorums without a common node.  Nodes whose quorum set is not known take part in
    no quorum. *)
Theorem checkIntersection_correct (randZero : BitSet → BitSet → nat → bool) (qmap : list (NodeID * NodeInfo)) :
  NoDup qmap.*1 → length qmap ≤ 64 →
  (∀ a qs, (a, qs) ∈ known qmap → isQuorumSetSane qs false = true) →
  ∃ answer split, checkIntersection randZero qmap = Ok (answer, split) ∧
    if (answer : bool) then ∀ U1 U2, network_quorum qmap U1 → network_quorum qmap U2 → ∃ a, a ∈ U1 ∧ a ∈ U2
    else network_quorum qmap split.1 ∧ network_quorum qmap split.2 ∧ ∀ a, a ∈ split.1 → a ∈ split.2 → False.
Proof. intros Hk Hl Hs. by apply check_spec. Qed.

(** Nodes that all have the quorum set [qs]. *)
Definition uniform (qs : SCPQuorumSet) (l : list NodeID) : list (NodeID * NodeInfo) :=
  (λ a, (a, mkNodeInfo (Some (mkQSetPtr 0 qs)) 0 ∅)) <$> l.

(** Two of four nodes are a quorum, and so are the other two; a fifth node is down. *)
Definition two_halves : list (NodeID * NodeInfo) :=
  uniform (QSet 2 [[1%Z]; [2%Z]; [3%Z]; [4%Z]] []) [[1%Z]; [2%Z]; [3%Z]; [4%Z]] ++ [([5%Z], mkNodeInfo None 1 ∅)].

Lemma checkIntersection_correct_witness :
  checkIntersection (λ _ _ _, true) two_halves = Ok (false, ([[3%Z]; [4%Z]], [[1%Z]; [2%Z]])) ∧
  network_quorum two_halves [[3%Z]; [4%Z]] ∧ network_quorum two_halves [[1%Z]; [2%Z]].
Proof.
  assert (checkIntersection (λ _ _ _, true) two_halves = Ok (false, ([[3%Z]; [4%Z]], [[1%Z]; [2%Z]]))) as Hrun by (by vm_compute).
  split; [exact Hrun|]. destruct (checkIntersection_correct (λ _ _ _, true) two_halves) as (answer & split & Hr & Hspec).
  - apply (bool_decide_unpack _). by vm_compute.
  - by vm_compute; lia.
  - assert (Forall (λ kq, isQuorumSetSane kq.2 false = true) (known two_halves)) as Hall.
    { apply (bool_decide_unpack _). by vm_compute. }
    intros a qs Hin. rewrite Forall_forall in Hall. exact (Hall _ Hin).
  - rewrite Hrun in Hr. injection Hr as <- <-. destruct Hspec as (H1 & H2 & _). exact (conj H1 H2).
Defined.

(** A network of 65 nodes makes the checker resize memory it does not own: see
    [BitSet.set_spec]. *)
Example sixty_five_nodes :
  checkIntersection (λ _ _ _, true) (uniform (QSet 1 [[0%Z]] []) ((λ i, [Z.of_nat i]) <$> seq 0 65)) = Throw BadRealloc.
Proof. by vm_compute. Qed.
