(* ===== verification/BucketMerge.v ===== *)
(** * The merge of two buckets is the sequence of their updates

    From well-formed buckets the iterators, the output and the merge of [Bucket]
    do not throw, and the merged bucket has for each key the record that stands
    for the old one followed by the new one, unless it is elided: shadowed by a
    younger bucket, or a tombstone at the bottom of the list. *)

From S2P Require Import Prelude QuorumSet LedgerEntries Bucket.

(** ** Sorted records *)

Definition keys (es : list BucketEntry) : list LedgerKey := omap bucketEntryKey es.
Arguments keys : simpl never.

Definition find (k : LedgerKey) (es : list BucketEntry) : option BucketEntry :=
  snd <$> list_find (λ e, bucketEntryKey e = Some k) es.
Arguments find : simpl never.

Definition is_entry (e : BucketEntry) : Prop := is_Some (bucketEntryKey e).

Definition sorted_entries (es : list BucketEntry) : Prop :=
  Forall is_entry es ∧ StronglySorted (λ a b, BucketEntryIdCmp a b = true) es.

Lemma find_nil k : find k [] = None.
Proof. done. Qed.

Lemma find_cons k e es :
  find k (e :: es) = if decide (bucketEntryKey e = Some k) then Some e else find k es.
Proof.
  unfold find. simpl. destruct (decide _); [done|].
  by destruct (list_find _ es) as [[i x]|].
Qed.

Lemma find_app k es es' :
  find k (es ++ es') = match find k es with Some e => Some e | None => find k es' end.
Proof.
  induction es as [|e es IH]; [done|]. simpl. rewrite !find_cons. by case_decide.
Qed.

Lemma find_Some k es e : find k es = Some e → e ∈ es ∧ bucketEntryKey e = Some k.
Proof.
  induction es as [|x es IH]; [done|]. rewrite find_cons. case_decide.
  - intros [= <-]. split; [left|done].
  - intros [? ?]%IH. split; [by right|done].
Qed.

Lemma find_None k es : find k es = None ↔ k ∉ keys es.
Proof.
  unfold keys. induction es as [|e es IH]; [split; [by intros _ ?%not_elem_of_nil|done]|].
  rewrite find_cons. cbn [omap list_omap]. case_decide as Hk.
  - rewrite Hk. split; [done|]. intros Hn. destruct Hn. left.
  - rewrite IH. destruct (bucketEntryKey e) as [k'|] eqn:E; [|done].
    rewrite not_elem_of_cons. split; [|tauto]. intros ?. split; [congruence|done].
Qed.

Lemma keys_elem k es : k ∈ keys es ↔ ∃ e, e ∈ es ∧ bucketEntryKey e = Some k.
Proof. apply list_elem_of_omap. Qed.

(** On records with a key the comparison is that of the keys. *)
Lemma IdCmp_keys a b x y :
  bucketEntryKey a = Some x → bucketEntryKey b = Some y → BucketEntryIdCmp a b = ltb x y.
Proof. intros Ha Hb. unfold BucketEntryIdCmp. rewrite Ha, Hb. apply LedgerEntryIdCmp_ltb. Qed.

Lemma IdCmp_asym a b : BucketEntryIdCmp a b = true → BucketEntryIdCmp b a = false.
Proof.
  unfold BucketEntryIdCmp. destruct (bucketEntryKey a), (bucketEntryKey b); try done.
  rewrite !LedgerEntryIdCmp_ltb, ltb_lt. intros H. unfold ltb. by rewrite cmp_opp, H.
Qed.

Lemma IdCmp_trans a b c :
  BucketEntryIdCmp a b = true → BucketEntryIdCmp b c = true → BucketEntryIdCmp a c = true.
Proof.
  unfold BucketEntryIdCmp. destruct (bucketEntryKey a), (bucketEntryKey b), (bucketEntryKey c); try done.
  rewrite !LedgerEntryIdCmp_ltb, !ltb_lt. apply cmp_trans.
Qed.

Lemma IdCmp_equal a b x y :
  bucketEntryKey a = Some x → bucketEntryKey b = Some y →
  BucketEntryIdCmp a b = false → BucketEntryIdCmp b a = false → x = y.
Proof.
  intros Ha Hb. rewrite (IdCmp_keys a b x y), (IdCmp_keys b a y x) by done. unfold ltb.
  rewrite (cmp_opp x y). destruct (cmp x y) eqn:E; [|done..]. intros. by apply cmp_eq.
Qed.

Lemma IdCmp_irrefl a b k :
  bucketEntryKey a = Some k → bucketEntryKey b = Some k → BucketEntryIdCmp a b = false.
Proof. intros Ha Hb. rewrite (IdCmp_keys a b k k) by done. apply ltb_irrefl. Qed.

(** [below e es]: the key of [e] is below all those of [es]. *)
Definition below (e : BucketEntry) (es : list BucketEntry) : Prop :=
  ∀ x, x ∈ es → BucketEntryIdCmp e x = true.

Lemma sorted_cons e es :
  sorted_entries (e :: es) ↔ is_entry e ∧ below e es ∧ sorted_entries es.
Proof.
  unfold sorted_entries, below. rewrite Forall_cons. split.
  - intros [[He Hes] [Hss Hall]%StronglySorted_inv]. rewrite Forall_forall in Hall. done.
  - intros (He & Hb & Hes & Hss). split; [done|]. constructor; [done|].
    by apply Forall_forall.
Qed.

Lemma below_find e es k : bucketEntryKey e = Some k → below e es → find k es = None.
Proof.
  intros Hk Hb. apply find_None. intros (x & Hx & Hxk)%keys_elem.
  specialize (Hb x Hx). by rewrite (IdCmp_irrefl e x k) in Hb.
Qed.

Lemma below_trans a b es : BucketEntryIdCmp a b = true → below b es → below a es.
Proof. intros Hab Hb x Hx. eapply IdCmp_trans; [done|auto]. Qed.

Lemma below_cons a b es : BucketEntryIdCmp a b = true → below b es → below a (b :: es).
Proof. intros Hab Hb x [->|Hx]%elem_of_cons; [done|]. by eapply below_trans. Qed.

(** ** Well-formed buckets *)

Definition legal (v : Z) (e : BucketEntry) : Prop := checkProtocolLegality e v = Ok tt.

Definition header (v : Z) : list BucketEntry :=
  if FIRST_PROTOCOL_SUPPORTING_INITENTRY_AND_METAENTRY <=? v then [METAENTRY v] else [].

(** A bucket of version [v] with records [es]. *)
Definition wf_bucket (v : Z) (es : list BucketEntry) (b : Bucket) : Prop :=
  b = header v ++ es ∧ sorted_entries es ∧ Forall (legal v) es ∧
  (v < FIRST_PROTOCOL_SUPPORTING_INITENTRY_AND_METAENTRY → v = 0).

Lemma legal_new v e :
  FIRST_PROTOCOL_SUPPORTING_INITENTRY_AND_METAENTRY ≤ v → legal v e.
Proof.
  intros Hv%Z.ltb_ge. unfold legal, checkProtocolLegality. rewrite Hv. by destruct e.
Qed.

Lemma legal_mono v v' e : v ≤ v' → legal v e → legal v' e.
Proof.
  intros Hv. unfold legal, checkProtocolLegality. destruct e; try done.
  all: destruct (Z.ltb_spec v FIRST_PROTOCOL_SUPPORTING_INITENTRY_AND_METAENTRY); [done|].
  all: intros _; rewrite (proj2 (Z.ltb_ge _ _)) by lia; done.
Qed.

(** ** Iterators *)

Definition iter_is (it : BucketInputIterator) (v : Z) (es : list BucketEntry) : Prop :=
  mEntryPtr it = head es ∧ mIn it = tail es ∧ mMetadata it = v ∧
  sorted_entries es ∧ Forall (legal v) es.

Lemma load_entry_Ok it e es :
  is_entry e → legal (mMetadata it) e →
  loadEntry_from (e :: es) it =
  Ok (mkInput es (Some e) (mSeenMetadata it) true (mMetadata it)).
Proof.
  intros [k Hk] He. unfold legal in He. cbn [loadEntry_from].
  destruct e; [done|..]; destruct (mSeenMetadata it); by rewrite ?He.
Qed.

Lemma iter_next it v e es :
  iter_is it v (e :: es) → ∃ it', loadEntry it = Ok it' ∧ iter_is it' v es.
Proof.
  intros (_ & Hin & Hv & (_ & _ & Hs)%sorted_cons & [_ Hl]%Forall_cons).
  unfold loadEntry. rewrite Hin. simpl tail. destruct es as [|x es].
  - eexists. split; [done|]. unfold iter_is; simpl; split_and!; done.
  - pose proof Hs as (Hx & _ & _)%sorted_cons. pose proof Hl as [Hlx _]%Forall_cons.
    rewrite load_entry_Ok; [|done|by rewrite Hv]. eexists. split; [done|]. unfold iter_is; simpl; split_and!; done.
Qed.

Lemma open_Ok v es b : wf_bucket v es b → ∃ it, openBucket b = Ok it ∧ iter_is it v es.
Proof.
  intros (-> & Hs & Hl & Hv0). unfold openBucket, loadEntry, header. cbn [mIn].
  destruct (Z.leb_spec FIRST_PROTOCOL_SUPPORTING_INITENTRY_AND_METAENTRY v) as [Hv|Hv]; cbn [app].
  - cbn [loadEntry_from mSeenMetadata mSeenOtherEntries].
    destruct es as [|e es]; [eexists; split; [done|]; unfold iter_is; simpl; split_and!; done|].
    pose proof Hs as (He & _)%sorted_cons. pose proof Hl as [Hle _]%Forall_cons.
    rewrite load_entry_Ok by done. eexists. split; [done|]. unfold iter_is; simpl; split_and!; done.
  - specialize (Hv0 Hv) as ->.
    destruct es as [|e es]; [eexists; split; [done|]; unfold iter_is; simpl; split_and!; done|].
    pose proof Hs as (He & _)%sorted_cons. pose proof Hl as [Hle _]%Forall_cons.
    rewrite load_entry_Ok by done. eexists. split; [done|]. unfold iter_is; simpl; split_and!; done.
Qed.

(** ** The output *)

Definition out_is (o : BucketOutputIterator) (keep : bool) (v : Z) (es : list BucketEntry) : Prop :=
  getBucket o = header v ++ es ∧ (mBuf o = None → mOut o = []) ∧
  mKeepDeadEntries o = keep ∧ mMeta o = v.

(** A tombstone that is not kept. *)
Definition dropped (keep : bool) (e : BucketEntry) : bool :=
  match e with DEADENTRY _ => negb keep | _ => false end.

Lemma openOutput_Ok keep v : ∃ o, openOutput keep v = Ok o ∧ out_is o keep v [].
Proof.
  unfold openOutput, out_is, header.
  destruct (Z.leb_spec FIRST_PROTOCOL_SUPPORTING_INITENTRY_AND_METAENTRY v) as [Hv|Hv].
  - unfold put. cbn. rewrite (proj2 (Z.ltb_ge v _)) by done. cbn.
    eexists. split; [done|]. split_and!; done.
  - eexists. split; [done|]. split_and!; done.
Qed.

Lemma put_Ok o keep v es e :
  out_is o keep v es → is_entry e → legal v e → (∀ x, x ∈ es → BucketEntryIdCmp x e = true) →
  ∃ o', put e o = Ok o' ∧ out_is o' keep v (es ++ if dropped keep e then [] else [e]).
Proof.
  intros (Hb & Hn & <- & <-) He Hl Hlast. unfold put. rewrite Hl. cbn.
  assert (match e with METAENTRY _ => mPutMeta o | _ => false end = false) as ->
    by (destruct He; by destruct e).
  change (match e with DEADENTRY _ => negb (mKeepDeadEntries o) | _ => false end)
    with (dropped (mKeepDeadEntries o) e).
  destruct (dropped (mKeepDeadEntries o) e); cbn.
  { exists o. rewrite app_nil_r. split; [done|]. split_and!; done. }
  destruct (mBuf o) as [buf|] eqn:Hbuf; cbn.
  - assert (BucketEntryIdCmp buf e = true) as Hlt.
    { unfold getBucket in Hb. rewrite Hbuf in Hb. simpl in Hb.
      destruct es as [|x es _] using rev_ind.
      - rewrite app_nil_r in Hb. unfold header in Hb.
        destruct (_ <=? _); [|by destruct (mOut o)].
        apply (app_inj_tail (mOut o) []) in Hb as [_ ->].
        destruct He as [k Hk]. unfold BucketEntryIdCmp. by rewrite Hk.
      - rewrite app_assoc in Hb. apply app_inj_tail in Hb as [_ ->].
        apply Hlast, elem_of_app. right. left. }
    rewrite (IdCmp_asym _ _ Hlt), Hlt. cbn. eexists. split; [done|].
    split; [|done]. unfold getBucket in *. cbn. rewrite Hbuf in Hb. simpl in Hb.
    by rewrite Hb, app_assoc.
  - eexists. split; [done|]. split; [|done]. unfold getBucket in *. cbn.
    rewrite Hbuf, (Hn eq_refl) in Hb. simpl in Hb. rewrite (Hn eq_refl). cbn.
    by rewrite app_assoc, <-Hb.
Qed.

(** ** Shadows *)

Lemma keys_cons e es k : bucketEntryKey e = Some k → keys (e :: es) = k :: keys es.
Proof. intros Hk. unfold keys. cbn. by rewrite Hk. Qed.

Lemma skipShadow_Ok fuel entry k si v es :
  bucketEntryKey entry = Some k → iter_is si v es → (length es < fuel)%nat →
  ∃ si' es', skipShadow fuel entry si = Ok si' ∧ iter_is si' v es' ∧
    (∀ k', cmp k' k ≠ Lt → k' ∈ keys es' ↔ k' ∈ keys es) ∧
    match head es' with Some s => BucketEntryIdCmp s entry = false | None => True end.
Proof.
  intros Hk. revert si es. induction fuel as [|fuel IH]; intros si es Hit Hf; [lia|].
  cbn [skipShadow]. pose proof Hit as (He & _ & _ & Hs & _). rewrite He.
  destruct es as [|s es]; simpl; [by exists si, []|].
  destruct (BucketEntryIdCmp s entry) eqn:Hlt; [|by exists si, (s :: es)].
  destruct (iter_next si v s es Hit) as (si' & -> & Hit'). cbn.
  destruct (IH si' es Hit') as (si2 & es2 & Hrun & Hit2 & Hkeys & Hhead); [simpl in Hf; lia|].
  exists si2, es2. split_and!; [done..| |done]. intros k' Hk'. rewrite Hkeys by done.
  apply sorted_cons in Hs as ([ks Hks] & _). rewrite (keys_cons s es ks) by done.
  rewrite elem_of_cons. split; [auto|]. intros [->|?]; [|done]. exfalso. apply Hk'.
  rewrite (IdCmp_keys s entry ks k) in Hlt by done. by rewrite ltb_lt in Hlt.
Qed.

(** A shadow whose keys are [ks], as far as those in [P] are concerned. *)
Definition shadow_is (P : LedgerKey → Prop) (ks : list LedgerKey) (si : BucketInputIterator)
    : Prop :=
  ∃ v es, iter_is si v es ∧ ∀ k, P k → k ∈ keys es ↔ k ∈ ks.

Lemma shadow_is_mono (P Q : LedgerKey → Prop) ks si :
  (∀ k, Q k → P k) → shadow_is P ks si → shadow_is Q ks si.
Proof. intros HPQ (v & es & Hit & Hk). exists v, es. auto. Qed.

Lemma head_not_in es k s entry :
  sorted_entries (s :: es) → bucketEntryKey entry = Some k →
  BucketEntryIdCmp entry s = true → k ∉ keys (s :: es).
Proof.
  intros (Hs & Hb & _)%sorted_cons Hk Hlt Hin. apply find_None in Hin; [done|].
  apply (below_find entry); [done|]. by apply below_cons.
Qed.

Lemma scanShadows_Ok P entry k origs sis :
  bucketEntryKey entry = Some k → P k → Forall2 (shadow_is P) origs sis →
  ∃ sis' b, scanShadows entry sis = Ok (sis', b) ∧
    Forall2 (shadow_is (λ k', P k' ∧ cmp k' k ≠ Lt)) origs sis' ∧
    (b = true ↔ ∃ ks, ks ∈ origs ∧ k ∈ ks).
Proof.
  intros Hk HP. induction 1 as [|ks si origs sis (v & es & Hit & Hkeys) Hall IH].
  { exists [], false. split_and!; [done|constructor|]. split; [done|].
    intros (? & []%not_elem_of_nil & _). }
  cbn [scanShadows].
  destruct (skipShadow_Ok (S (S (length (mIn si)))) entry k si v es)
    as (si' & es' & -> & Hit' & Hsame & Hhead); [done|done| |].
  { destruct Hit as (_ & -> & _). destruct es; simpl; lia. }
  cbn [mbind res_bind].
  assert (shadow_is (λ k', P k' ∧ cmp k' k ≠ Lt) ks si') as Hsi.
  { exists v, es'. split; [done|]. intros k' [Hp Hge]. rewrite Hsame by done. by apply Hkeys. }
  assert (k ∈ keys es' ↔ k ∈ ks) as Hin.
  { rewrite Hsame; [by apply Hkeys|]. by rewrite cmp_refl. }
  pose proof Hit' as (He & _ & _ & Hs' & _). rewrite He.
  destruct (match head es' with Some s => negb (BucketEntryIdCmp entry s) | None => false end) eqn:Hc.
  - exists (si' :: sis), true. split_and!; [done| |].
    + constructor; [done|]. eapply Forall2_impl; [exact Hall|]. intros x y.
      apply shadow_is_mono. tauto.
    + split; [|done]. intros _. exists ks. split; [left|]. apply Hin.
      destruct es' as [|s es']; [done|]. simpl in *. apply negb_true_iff in Hc.
      apply sorted_cons in Hs' as ([ks' Hks'] & _). rewrite (keys_cons s es' ks') by done.
      rewrite (IdCmp_equal s entry ks' k Hks' Hk Hhead Hc). left.
  - destruct IH as (sis' & b & -> & Hall' & Hb). cbn. exists (si' :: sis'), b.
    split_and!; [done|by constructor|]. rewrite Hb. split.
    + intros (ks2 & H2 & Hk2). exists ks2. split; [by right|done].
    + intros (ks2 & [->|H2]%elem_of_cons & Hk2); [|eauto]. exfalso. apply Hin in Hk2.
      destruct es' as [|s es']; [by apply not_elem_of_nil in Hk2|]. simpl in *.
      apply negb_false_iff in Hc. by apply (head_not_in es' k s entry) in Hk2.
Qed.

(** ** One record *)

(** The old record of a key followed by its new one. *)
Definition combine (o n : option BucketEntry) : option BucketEntry :=
  match o, n with
  | None, x | x, None => x
  | Some (DEADENTRY _), Some (INITENTRY x) => Some (LIVEENTRY x)
  | Some (INITENTRY _), Some (LIVEENTRY y) => Some (INITENTRY y)
  | Some (INITENTRY _), Some (DEADENTRY _) => None
  | Some _, Some n => Some n
  end.

(** An entry is not created when it may exist. *)
Definition compatible (o n : option BucketEntry) : Prop :=
  match o, n with
  | Some (DEADENTRY _), _ => True
  | Some _, Some (INITENTRY _) => False
  | _, _ => True
  end.

Section merging.
Context (v : Z) (keepShadowed keepDead : bool) (origs : list (list LedgerKey)).

(** The record is in a younger bucket and may be left out. *)
Definition shadowed (e : BucketEntry) : bool :=
  negb (keepShadowed && match e with INITENTRY _ | DEADENTRY _ => true | _ => false end) &&
  match bucketEntryKey e with
  | Some k => existsb (λ ks, bool_decide (k ∈ ks)) origs
  | None => false
  end.

Definition elided (e : BucketEntry) : bool := shadowed e || dropped keepDead e.

Definition emit (e : BucketEntry) : list BucketEntry := if elided e then [] else [e].

(** The record of a key in the merged bucket. *)
Definition merged (o n : option BucketEntry) : option BucketEntry :=
  match combine o n with
  | Some e => if elided e then None else Some e
  | None => None
  end.

Record merge_is (os ns done : list BucketEntry) (m : MergeState) : Prop := {
  mi_old : ∃ ov, iter_is (oi m) ov os ∧ ov ≤ v;
  mi_new : ∃ nv, iter_is (ni m) nv ns ∧ nv ≤ v;
  mi_out : out_is (out m) keepDead v done;
  mi_shadows : Forall2 (shadow_is (λ k, k ∈ keys os ∨ k ∈ keys ns)) origs (shadowIterators m);
  mi_done : ∀ x, x ∈ done → below x os ∧ below x ns
}.

Lemma existsb_shadow k :
  existsb (λ ks, bool_decide (k ∈ ks)) origs = true ↔ ∃ ks, ks ∈ origs ∧ k ∈ ks.
Proof.
  rewrite existsb_exists. split; intros (ks & H1 & H2); exists ks.
  - apply bool_decide_eq_true in H2. by apply list_elem_of_In in H1.
  - split; [by apply list_elem_of_In|by apply bool_decide_eq_true].
Qed.

(** Putting a record that is above those put before. *)
Lemma maybePut_Ok (P : LedgerKey → Prop) e k done m :
  bucketEntryKey e = Some k → legal v e → P k →
  out_is (out m) keepDead v done → (∀ x, x ∈ done → BucketEntryIdCmp x e = true) →
  Forall2 (shadow_is P) origs (shadowIterators m) →
  ∃ m', maybePut keepShadowed e m = Ok m' ∧ oi m' = oi m ∧ ni m' = ni m ∧
    out_is (out m') keepDead v (done ++ emit e) ∧
    Forall2 (shadow_is (λ k', P k' ∧ cmp k' k ≠ Lt)) origs (shadowIterators m').
Proof.
  intros Hk Hl HP Ho Hd Hsh.
  destruct (put_Ok (out m) keepDead v done e Ho) as (o' & Hput & Ho'); [by exists k|done|done|].
  assert (Forall2 (shadow_is (λ k', P k' ∧ cmp k' k ≠ Lt)) origs (shadowIterators m)) as Hsh'.
  { eapply Forall2_impl; [exact Hsh|]. intros x y. apply shadow_is_mono. tauto. }
  unfold maybePut, emit, elided, shadowed.
  destruct (keepShadowed && _) eqn:Hc; cbn [negb andb orb].
  - rewrite Hput. cbn. eexists. split; [done|]. done.
  - destruct (scanShadows_Ok P e k origs _ Hk HP Hsh) as (sis' & b & -> & Hall & Hb).
    cbn. rewrite Hk. rewrite <-existsb_shadow in Hb.
    apply Bool.eq_true_iff_eq in Hb as <-. destruct b; cbn.
    + eexists. rewrite app_nil_r. split; [done|]. done.
    + rewrite Hput. cbn. eexists. split; [done|]. done.
Qed.

(** The records of a key at the heads of the two buckets. *)
Definition heads_of (k : LedgerKey) (oo nn : option BucketEntry) : Prop :=
  (is_Some oo ∨ is_Some nn) ∧ compatible oo nn ∧
  ∀ x, oo = Some x ∨ nn = Some x → bucketEntryKey x = Some k ∧ legal v x.

Lemma combine_key k oo nn e :
  heads_of k oo nn → combine oo nn = Some e → bucketEntryKey e = Some k ∧ legal v e.
Proof.
  intros (_ & Hc & Hx). destruct oo as [o|], nn as [n|]; cbn.
  - destruct (Hx o) as [Hko Hlo]; [by left|]. destruct (Hx n) as [Hkn Hln]; [by right|].
    destruct o, n; intros [= <-]; try done.
  - destruct o; intros [= <-]; auto.
  - intros [= <-]. auto.
  - done.
Qed.

Definition takeHeads (oo nn : option BucketEntry) (m : MergeState) : res MergeState :=
  m ← match combine oo nn with Some e => maybePut keepShadowed e m | None => mret m end;
  m ← match oo with Some _ => advance_old m | None => mret m end;
  match nn with Some _ => advance_new m | None => mret m end.

Lemma advance_Ok it w oo es :
  iter_is it w (option_list oo ++ es) →
  ∃ it', match oo with Some _ => loadEntry it | None => Ok it end = Ok it' ∧ iter_is it' w es.
Proof. destruct oo as [o|]; cbn; [apply iter_next|]. intros. by exists it. Qed.

Lemma takeHeads_split oo nn m m1 it1 it2 :
  match combine oo nn with Some e => maybePut keepShadowed e m | None => mret m end = Ok m1 →
  match oo with Some _ => loadEntry (oi m1) | None => Ok (oi m1) end = Ok it1 →
  match nn with Some _ => loadEntry (ni m1) | None => Ok (ni m1) end = Ok it2 →
  takeHeads oo nn m = Ok (mkMerge it1 it2 (out m1) (shadowIterators m1)).
Proof.
  intros H1 H2 H3. unfold takeHeads. rewrite H1. cbn [mbind res_bind].
  unfold advance_old, advance_new.
  destruct oo; cbn in *; [rewrite H2; cbn|injection H2 as <-];
    (destruct nn; cbn in *; [rewrite H3; cbn|injection H3 as <-]); try done; by destruct m1.
Qed.

Lemma below_keys e k es k' :
  bucketEntryKey e = Some k → below e es → k' ∈ keys es → cmp k' k ≠ Lt.
Proof.
  intros Hk Hb (x & Hx & Hkx)%keys_elem Hlt. specialize (Hb x Hx).
  rewrite (IdCmp_keys e x k k') in Hb by done. rewrite ltb_lt, cmp_opp, Hlt in Hb. done.
Qed.

Lemma below_same_key a b es : bucketEntryKey a = bucketEntryKey b → below a es → below b es.
Proof. unfold below, BucketEntryIdCmp. intros <-. done. Qed.

Lemma putHeads_Ok (P : LedgerKey → Prop) k oo nn done m :
  heads_of k oo nn → P k →
  (∀ x y, x ∈ done → oo = Some y ∨ nn = Some y → BucketEntryIdCmp x y = true) →
  out_is (out m) keepDead v done → Forall2 (shadow_is P) origs (shadowIterators m) →
  ∃ m1, match combine oo nn with Some e => maybePut keepShadowed e m | None => mret m end = Ok m1 ∧
    oi m1 = oi m ∧ ni m1 = ni m ∧
    out_is (out m1) keepDead v (done ++ from_option emit [] (combine oo nn)) ∧
    Forall2 (shadow_is (λ k', P k' ∧ cmp k' k ≠ Lt)) origs (shadowIterators m1).
Proof.
  intros Hh HP Hdone Hout Hsh. destruct (combine oo nn) as [e|] eqn:Hc; cbn.
  - destruct (combine_key k oo nn e Hh Hc) as [Hke Hle]. destruct Hh as (Hsome & _ & Hx).
    apply (maybePut_Ok P e k); [done..|intros y Hy|done].
    assert (∃ x, oo = Some x ∨ nn = Some x) as (x & Hx0) by (destruct Hsome as [[]|[]]; eauto).
    specialize (Hdone y x Hy Hx0). destruct (Hx x Hx0) as [Hkx _].
    unfold BucketEntryIdCmp in *. rewrite Hkx in Hdone. by rewrite Hke.
  - exists m. rewrite app_nil_r. split_and!; [done..|].
    eapply Forall2_impl; [exact Hsh|]. intros a b. apply shadow_is_mono. tauto.
Qed.

Lemma takeHeads_Ok k e0 oo nn os ns done m :
  merge_is (option_list oo ++ os) (option_list nn ++ ns) done m → heads_of k oo nn →
  bucketEntryKey e0 = Some k → below e0 os → below e0 ns →
  ∃ m', takeHeads oo nn m = Ok m' ∧
    merge_is os ns (done ++ from_option emit [] (combine oo nn)) m'.
Proof.
  intros [(ov & Hoi & Hov) (nv & Hni & Hnv) Hout Hsh Hdone] Hh Hk Hbo Hbn.
  destruct (λ a b, putHeads_Ok _ k oo nn done m Hh a b Hout Hsh)
    as (m1 & Hm1 & Ho1 & Hn1 & Hout1 & Hsh1); [| |].
  { destruct Hh as ([[x ->]|[x ->]] & _ & Hx); rewrite !keys_elem;
      [left|right]; exists x; (split; [left|]); apply Hx; auto. }
  { intros x y Hx Hy. destruct (Hdone x Hx) as [H1 H2].
    destruct Hy as [-> | ->]; [apply H1|apply H2]; left. }
  rewrite <-Ho1 in Hoi. rewrite <-Hn1 in Hni.
  destruct (advance_Ok _ _ _ _ Hoi) as (it1 & Hit1 & Hi1).
  destruct (advance_Ok _ _ _ _ Hni) as (it2 & Hit2 & Hi2).
  eexists. split; [apply takeHeads_split; eassumption|].
  split; cbn; [by exists ov|by exists nv|done| |].
  - eapply Forall2_impl; [exact Hsh1|]. intros a b. apply shadow_is_mono.
    unfold keys. rewrite !omap_app. intros k' Hin. rewrite !elem_of_app.
    split; [tauto|]. destruct Hin; [by apply (below_keys e0 k os)|by apply (below_keys e0 k ns)].
  - intros x [Hx|Hx]%elem_of_app.
    + destruct (Hdone x Hx) as [H1 H2].
      split; intros y Hy; [apply H1|apply H2]; apply elem_of_app; by right.
    + destruct (combine oo nn) as [e|] eqn:Hc; [|by apply not_elem_of_nil in Hx].
      destruct (combine_key k oo nn e Hh Hc) as [Hke _]. cbn in Hx. unfold emit in Hx.
      destruct (elided e); [by apply not_elem_of_nil in Hx|].
      apply list_elem_of_singleton in Hx as ->.
      split; (apply (below_same_key e0); [congruence|done]).
Qed.

Lemma equalKeys_takeHeads o n m :
  legal v o → legal v n → is_entry n → compatible (Some o) (Some n) →
  mergeCasesWithEqualKeys v keepShadowed o n m = takeHeads (Some o) (Some n) m.
Proof.
  intros Ho Hn [k Hk] Hc. unfold mergeCasesWithEqualKeys, takeHeads. rewrite Ho, Hn. cbn [mbind res_bind].
  destruct o, n; done.
Qed.

Lemma takeOld_takeHeads o m :
  legal v o → takeOld v keepShadowed o m = takeHeads (Some o) None m.
Proof.
  intros Ho. unfold takeOld, takeHeads. rewrite Ho. cbn [mbind res_bind].
  replace (combine (Some o) None) with (Some o) by (by destruct o).
  destruct (maybePut keepShadowed o m) as [m1|]; [|done]. cbn. unfold advance_old.
  by destruct (loadEntry (oi m1)).
Qed.

Lemma takeNew_takeHeads n m :
  legal v n → takeNew v keepShadowed n m = takeHeads None (Some n) m.
Proof. intros Hn. unfold takeNew, takeHeads. by rewrite Hn. Qed.

(** What a round does: it takes the records of the least key. *)
Lemma mergeRound_heads os ns done m :
  merge_is os ns done m → (0 < length os + length ns)%nat →
  (∀ k, compatible (find k os) (find k ns)) →
  ∃ k e0 oo nn os' ns', os = option_list oo ++ os' ∧ ns = option_list nn ++ ns' ∧
    heads_of k oo nn ∧ bucketEntryKey e0 = Some k ∧ below e0 os' ∧ below e0 ns' ∧
    mergeRound v keepShadowed m = takeHeads oo nn m.
Proof.
  intros [(ov & (Hoe & _ & _ & Hso & Hlo) & Hov) (nv & (Hne & _ & _ & Hsn & Hln) & Hnv) _ _ _] Hlen Hc.
  unfold mergeRound. rewrite Hoe, Hne.
  destruct os as [|o os], ns as [|n ns]; cbn [head]; [cbn in Hlen; lia|..].
  - apply sorted_cons in Hsn as ([k Hk] & Hb & _). apply Forall_cons in Hln as [Hl _].
    apply (legal_mono _ v) in Hl; [|done].
    exists k, n, None, (Some n), [], ns. split_and!; try done; [|by intros ? ?%not_elem_of_nil|by apply takeNew_takeHeads].
    split_and!; [by right|done|]. intros x [?|?]; by simplify_eq.
  - apply sorted_cons in Hso as ([k Hk] & Hb & _). apply Forall_cons in Hlo as [Hl _].
    apply (legal_mono _ v) in Hl; [|done].
    exists k, o, (Some o), None, os, []. split_and!; try done; [|by intros ? ?%not_elem_of_nil|by apply takeOld_takeHeads].
    split_and!; [by left|by destruct o|]. intros x [?|?]; by simplify_eq.
  - apply sorted_cons in Hsn as ([kn Hkn] & Hbn & _), Hso as ([ko Hko] & Hbo & _).
    apply Forall_cons in Hln as [Hln _], Hlo as [Hlo _].
    apply (legal_mono _ v) in Hln; [|done]. apply (legal_mono _ v) in Hlo; [|done].
    destruct (BucketEntryIdCmp o n) eqn:Hon; [|destruct (BucketEntryIdCmp n o) eqn:Hno].
    + exists ko, o, (Some o), None, os, (n :: ns).
      split_and!; try done; [|by apply below_cons|by apply takeOld_takeHeads].
      split_and!; [by left|by destruct o|]. intros x [?|?]; by simplify_eq.
    + exists kn, n, None, (Some n), (o :: os), ns.
      split_and!; try done; [|by apply below_cons|by apply takeNew_takeHeads].
      split_and!; [by right|done|]. intros x [?|?]; by simplify_eq.
    + pose proof (IdCmp_equal o n ko kn Hko Hkn Hon Hno) as ->. specialize (Hc kn).
      rewrite !find_cons, !decide_True in Hc by done.
      exists kn, n, (Some o), (Some n), os, ns. split_and!; try done.
      * split_and!; [by left|done|]. intros x [?|?]; by simplify_eq.
      * by apply (below_same_key o); [congruence|].
      * apply equalKeys_takeHeads; [done|done|by exists kn|done].
Qed.

Lemma find_heads_same k oo nn x :
  heads_of k oo nn → find k (option_list oo ++ x) = match oo with Some o => Some o | None => find k x end ∧
  find k (option_list nn ++ x) = match nn with Some n => Some n | None => find k x end.
Proof.
  intros (_ & _ & Hx). rewrite !find_app. split.
  - destruct oo as [o|]; [|done]. cbn. rewrite find_cons, decide_True; [done|]. apply Hx. by left.
  - destruct nn as [n|]; [|done]. cbn. rewrite find_cons, decide_True; [done|]. apply Hx. by right.
Qed.

Lemma find_single k k' e : bucketEntryKey e = Some k → k ≠ k' → find k' [e] = None.
Proof. intros Hk Hne. rewrite find_cons, decide_False, find_nil by congruence. done. Qed.

Lemma find_heads_other k k' oo nn x :
  heads_of k oo nn → k ≠ k' →
  find k' (option_list oo ++ x) = find k' x ∧ find k' (option_list nn ++ x) = find k' x.
Proof.
  intros (_ & _ & Hx) Hne. rewrite !find_app. split.
  - destruct oo as [o|]; [|done]. cbn. rewrite (find_single k); [done|apply Hx; by left|done].
  - destruct nn as [n|]; [|done]. cbn. rewrite (find_single k); [done|apply Hx; by right|done].
Qed.

Lemma find_emitted k e0 oo nn os ns k' :
  heads_of k oo nn → bucketEntryKey e0 = Some k → below e0 os → below e0 ns →
  match find k' (from_option emit [] (combine oo nn)) with
  | Some e => Some e
  | None => merged (find k' os) (find k' ns)
  end = merged (find k' (option_list oo ++ os)) (find k' (option_list nn ++ ns)).
Proof.
  intros Hh Hk Hbo Hbn. destruct (decide (k = k')) as [<-|Hne].
  - rewrite (proj1 (find_heads_same k oo nn os Hh)), (proj2 (find_heads_same k oo nn ns Hh)).
    rewrite (below_find e0 os k), (below_find e0 ns k) by done.
    replace (match oo with Some o => Some o | None => None end) with oo by (by destruct oo).
    replace (match nn with Some o => Some o | None => None end) with nn by (by destruct nn).
    unfold merged. destruct (combine oo nn) as [e|] eqn:Hc; [|done]. cbn [from_option emit].
    unfold emit. destruct (elided e); [done|].
    rewrite find_cons, decide_True; [done|]. by eapply combine_key.
  - rewrite (proj1 (find_heads_other k k' oo nn os Hh Hne)).
    rewrite (proj2 (find_heads_other k k' oo nn ns Hh Hne)).
    replace (find k' _) with (@None BucketEntry); [done|]. symmetry.
    destruct (combine oo nn) as [e|] eqn:Hc; [|done]. cbn. unfold emit.
    destruct (elided e); [done|]. apply (find_single k); [by eapply combine_key|done].
Qed.

Lemma compatible_tail k e0 oo nn os ns :
  heads_of k oo nn → bucketEntryKey e0 = Some k → below e0 os → below e0 ns →
  (∀ k', compatible (find k' (option_list oo ++ os)) (find k' (option_list nn ++ ns))) →
  ∀ k', compatible (find k' os) (find k' ns).
Proof.
  intros Hh Hk Hbo Hbn Hc k'. specialize (Hc k'). destruct (decide (k = k')) as [<-|Hne].
  - by rewrite (below_find e0 os k) by done.
  - rewrite (proj1 (find_heads_other k k' oo nn os Hh Hne)) in Hc.
    by rewrite (proj2 (find_heads_other k k' oo nn ns Hh Hne)) in Hc.
Qed.

Lemma merged_keys os ns es :
  (∀ k, find k es = merged (find k os) (find k ns)) →
  ∀ k, k ∈ keys es → k ∈ keys os ∨ k ∈ keys ns.
Proof.
  intros Hf k Hin. destruct (find k os) as [o|] eqn:Ho.
  { left. apply find_Some in Ho. apply keys_elem. eauto. }
  destruct (find k ns) as [n|] eqn:Hn.
  { right. apply find_Some in Hn. apply keys_elem. eauto. }
  specialize (Hf k). rewrite Ho, Hn in Hf. by apply find_None in Hf.
Qed.

Lemma emitted_sorted k e0 oo nn os ns es :
  heads_of k oo nn → bucketEntryKey e0 = Some k → below e0 os → below e0 ns →
  sorted_entries es → (∀ k, k ∈ keys es → k ∈ keys os ∨ k ∈ keys ns) →
  sorted_entries (from_option emit [] (combine oo nn) ++ es).
Proof.
  intros Hh Hk Hbo Hbn Hs Hkeys. destruct (combine oo nn) as [e|] eqn:Hc; [|done]. cbn. unfold emit.
  destruct (combine_key k oo nn e Hh Hc) as [Hke _].
  destruct (elided e); [done|]. apply sorted_cons. split_and!; [by exists k| |done].
  intros x Hx. destruct (Forall_forall is_entry es) as [He _].
  destruct (He (proj1 Hs) x Hx) as [kx Hkx].
  assert (∃ y, (y ∈ os ∨ y ∈ ns) ∧ bucketEntryKey y = Some kx) as (y & Hy & Hky).
  { destruct (Hkeys kx) as [(y & ? & ?)%keys_elem|(y & ? & ?)%keys_elem]; [|eauto..].
    apply keys_elem. eauto. }
  assert (BucketEntryIdCmp e0 y = true) as Hlt by (destruct Hy; auto).
  unfold BucketEntryIdCmp in *. rewrite Hk, Hky in Hlt. by rewrite Hke, Hkx.
Qed.

Lemma mergeLoop_Ok fuel iter os ns done m :
  merge_is os ns done m → (length os + length ns ≤ fuel)%nat →
  (∀ k, compatible (find k os) (find k ns)) →
  ∃ m' es, mergeLoop v keepShadowed false fuel iter m = Ok m' ∧
    out_is (out m') keepDead v (done ++ es) ∧ sorted_entries es ∧ Forall (legal v) es ∧
    ∀ k, find k es = merged (find k os) (find k ns).
Proof.
  revert iter os ns done m. induction fuel as [|fuel IH]; intros iter os ns done m Hm Hf Hc;
    (destruct (decide (length os + length ns = 0)%nat) as [Hz|Hz]; [|try lia]).
  1-2: destruct os, ns; [|cbn in Hz; lia..]; exists m, [].
  1-2: destruct Hm as [(ov & (Hoe & _) & _) (nv & (Hne & _) & _) Hout _ _].
  1-2: cbn [mergeLoop]; rewrite Hoe, Hne, app_nil_r.
  1-2: split_and!; [done|done|by split; constructor|by constructor|done].
  destruct (mergeRound_heads os ns done m) as
    (k & e0 & oo & nn & os' & ns' & -> & -> & Hh & Hk & Hbo & Hbn & Hround); [done|lia|done|].
  destruct (takeHeads_Ok k e0 oo nn os' ns' done m Hm Hh Hk Hbo Hbn) as (m1 & Hm1 & Hm1').
  pose proof Hm as [(ov & (Hoe & _) & _) (nv & (Hne & _) & _) _ _ _].
  destruct (IH (if 1000 <=? iter + 1 then 0 else iter + 1) _ _ _ m1 Hm1')
    as (m2 & es & Hrun & Ho & Hs & Hl & Hfind).
  { rewrite !length_app in Hf. destruct (proj1 Hh) as [[x ->]|[x ->]]; cbn in Hf; lia. }
  { by apply (compatible_tail k e0 oo nn). }
  exists m2, (from_option emit [] (combine oo nn) ++ es). split_and!.
  - cbn [mergeLoop]. rewrite Hoe, Hne, andb_false_r, Hround, Hm1. cbn [mbind res_bind].
    rewrite Hrun. by destruct (proj1 Hh) as [[x ->]|[x ->]]; cbn; try destruct (head _).
  - by rewrite app_assoc.
  - by apply (emitted_sorted k e0 oo nn os' ns'); [..|apply merged_keys].
  - apply Forall_app. split; [|done]. destruct (combine oo nn) as [e|] eqn:E; [|done].
    cbn. unfold emit. destruct (elided e); [done|]. apply Forall_singleton. by eapply combine_key.
  - intros k'. rewrite find_app, Hfind. by apply (find_emitted k e0).
Qed.
End merging.

(** ** The merge of two buckets *)

Lemma open_all_Ok svs shadows :
  Forall2 (λ sv b, wf_bucket sv.1 sv.2 b) svs shadows →
  ∃ sis, mapM_res openBucket shadows = Ok sis ∧ mMetadata <$> sis = svs.*1 ∧
    ∀ P, Forall2 (shadow_is P) (keys <$> svs.*2) sis.
Proof.
  induction 1 as [|[sv es] b svs shadows Hb _ (sis & Hs & Hv & Hall)].
  { exists []. split_and!; [done..|constructor]. }
  destruct (open_Ok sv es b Hb) as (it & Hit & Hi). exists (it :: sis).
  cbn [mapM_res]. rewrite Hit. cbn [mbind res_bind]. rewrite Hs. cbn. pose proof Hi as (_ & _ & Hvi & _). rewrite Hvi, Hv.
  split_and!; [done..|]. intros P. constructor; [|done]. by exists sv, es.
Qed.

Lemma version_fold svs v0 :
  v0 ≤ foldl (λ pv version, if version <? FIRST_PROTOCOL_SHADOWS_REMOVED
                             then Z.max version pv else pv) v0 svs.
Proof.
  revert v0. induction svs as [|x svs IH]; intros v0; cbn; [done|].
  etrans; [|apply IH]. destruct (_ <? _); lia.
Qed.

Lemma version_fold_zero svs v0 :
  (v0 < FIRST_PROTOCOL_SUPPORTING_INITENTRY_AND_METAENTRY → v0 = 0) →
  Forall (λ x, x < FIRST_PROTOCOL_SUPPORTING_INITENTRY_AND_METAENTRY → x = 0) svs →
  let v := foldl (λ pv version, if version <? FIRST_PROTOCOL_SHADOWS_REMOVED
                                 then Z.max version pv else pv) v0 svs in
  v < FIRST_PROTOCOL_SUPPORTING_INITENTRY_AND_METAENTRY → v = 0.
Proof.
  intros Hv0 Hall. revert v0 Hv0. induction Hall as [|x svs Hx _ IH]; intros v0 Hv0; cbn; [done|].
  apply IH. destruct (_ <? _); [|done].
  destruct (Z.max_spec x v0) as [[? ->]|[? ->]]; auto.
Qed.

(** What the version of a merge is. *)
Lemma mergeVersion_inv maxv ov nv svs v keep :
  calculateMergeProtocolVersion maxv ov nv svs = Ok (v, keep) →
  ov ≤ v ∧ nv ≤ v ∧ v ≤ maxv ∧
  keep = (FIRST_PROTOCOL_SUPPORTING_INITENTRY_AND_METAENTRY <=? v) ∧
  ((ov < FIRST_PROTOCOL_SUPPORTING_INITENTRY_AND_METAENTRY → ov = 0) →
   (nv < FIRST_PROTOCOL_SUPPORTING_INITENTRY_AND_METAENTRY → nv = 0) →
   Forall (λ x, x < FIRST_PROTOCOL_SUPPORTING_INITENTRY_AND_METAENTRY → x = 0) svs →
   v < FIRST_PROTOCOL_SUPPORTING_INITENTRY_AND_METAENTRY → v = 0).
Proof.
  unfold calculateMergeProtocolVersion.
  pose proof (version_fold svs (Z.max ov nv)) as Hle.
  pose proof (version_fold_zero svs (Z.max ov nv)) as Hz. cbv zeta in Hz.
  set (w := foldl _ _ _) in *. destruct (Z.ltb_spec maxv w); [done|].
  destruct (_ && _); [done|]. intros [= <- <-].
  split_and!; [lia|lia|lia|by rewrite Z.leb_antisym|].
  intros Ho Hn Hs. apply Hz; [|done].
  destruct (Z.max_spec ov nv) as [[? ->]|[? ->]]; auto.
Qed.

(** From well-formed buckets in which nothing is created twice the merge returns,
    with for each key the combined record unless it is elided. *)
Lemma merge_Ok maxv ov os old nv ns new svs shadows v keep keepDead :
  wf_bucket ov os old → wf_bucket nv ns new →
  Forall2 (λ sv b, wf_bucket sv.1 sv.2 b) svs shadows →
  calculateMergeProtocolVersion maxv ov nv svs.*1 = Ok (v, keep) →
  (∀ k, compatible (find k os) (find k ns)) →
  ∃ es, merge false maxv old new shadows keepDead = Ok (header v ++ es) ∧
    wf_bucket v es (header v ++ es) ∧
    ∀ k, find k es = merged keep keepDead (keys <$> svs.*2) (find k os) (find k ns).
Proof.
  intros Hold Hnew Hsh Hv Hc.
  destruct (mergeVersion_inv _ _ _ _ _ _ Hv) as (Hov & Hnv & _ & _ & Hz).
  destruct (open_Ok _ _ _ Hold) as (oit & Hoit & Hoi), (open_Ok _ _ _ Hnew) as (nit & Hnit & Hni).
  destruct (open_all_Ok svs shadows Hsh) as (sis & Hsis & Hvs & Hall).
  destruct (openOutput_Ok keepDead v) as (o & Ho & Hout).
  unfold merge. rewrite Hoit, Hnit. cbn [mbind res_bind]. rewrite Hsis. cbn [mbind res_bind].
  pose proof Hoi as (_ & _ & -> & _). pose proof Hni as (_ & _ & -> & _).
  rewrite Hvs, Hv. cbn [mbind res_bind]. rewrite Ho. cbn [mbind res_bind].
  destruct (mergeLoop_Ok v keep keepDead (keys <$> svs.*2) (length old + length new) 0 os ns []
    (mkMerge oit nit o sis)) as (m & es & -> & (Hb & _) & Hs & Hl & Hf); [|..|done|].
  - split; cbn; [by exists ov|by exists nv|done|apply Hall|by intros ? ?%not_elem_of_nil].
  - destruct Hold as (-> & _), Hnew as (-> & _). rewrite !length_app. lia.
  - cbn in *. exists es. rewrite Hb. split_and!; [done| |done]. split_and!; [done..|].
    apply Hz; [apply Hold|apply Hnew|]. clear -Hsh.
    induction Hsh as [|x b svs shadows Hb _ IH]; [constructor|].
    cbn. constructor; [apply Hb|done].
Qed.

(** ** The merge replays the updates *)

(** The effect of a record on the entry of its key.  An entry that is already
    there cannot be created. *)
Definition applyEntry (e : BucketEntry) (s : option LedgerEntry) : option (option LedgerEntry) :=
  match e with
  | METAENTRY _ => Some s
  | LIVEENTRY x => Some (Some x)
  | DEADENTRY _ => Some None
  | INITENTRY x => match s with None => Some (Some x) | Some _ => None end
  end.

Definition update (r : option BucketEntry) (s : option LedgerEntry)
    : option (option LedgerEntry) :=
  match r with Some e => applyEntry e s | None => Some s end.

(** The entry of [k] after the records of the buckets, in that order. *)
Fixpoint replay (k : LedgerKey) (bs : list (list BucketEntry)) (s : option LedgerEntry)
    : option (option LedgerEntry) :=
  match bs with
  | [] => Some s
  | es :: bs' => s ← update (find k es) s; replay k bs' s
  end.

Lemma update_combine o n s s1 s2 :
  (∀ w, n ≠ Some (METAENTRY w)) →
  update o s = Some s1 → update n s1 = Some s2 → update (combine o n) s = Some s2.
Proof.
  intros Hm. destruct n as [[w|x|d|x]|]; [by destruct (Hm w)|..]; destruct o as [[]|]; cbn;
    destruct s; cbn; intros; simplify_eq/=; done.
Qed.

Lemma compatible_replay o n s s1 s2 :
  update o s = Some s1 → update n s1 = Some s2 →
  (∀ w, o ≠ Some (METAENTRY w)) → compatible o n.
Proof.
  intros Ho Hn Hm. destruct o as [[w|x|d|x]|]; cbn in *; try done.
  - by destruct (Hm w).
  - simplify_eq. destruct n as [[]|]; done.
  - destruct s; [done|]. simplify_eq. destruct n as [[]|]; done.
Qed.

Lemma find_not_meta k es w : find k es ≠ Some (METAENTRY w).
Proof. by intros [_ ?]%find_Some. Qed.

(** A record that sets the entry whatever it was hides what came before. *)
Lemma replay_forget k bs s s1 s2 :
  (∃ es, es ∈ bs ∧ k ∈ keys es) →
  (∀ es x, es ∈ bs → find k es ≠ Some (INITENTRY x)) ∨ is_Some s1 →
  replay k bs s1 = Some s2 → replay k bs s = Some s2.
Proof.
  revert s s1. induction bs as [|es bs IH]; intros s s1 Hin Hni Hrun.
  { by destruct Hin as (? & ?%not_elem_of_nil & _). }
  cbn in *. destruct (find k es) as [e|] eqn:Hf; cbn in *.
  - destruct e as [w|x|d|x]; cbn in *.
    + by destruct (find_not_meta k es w).
    + done.
    + done.
    + destruct Hni as [Hni|[y ->]]; [|done]. destruct (Hni es x); [left|done].
  - apply (IH s s1); [|destruct Hni as [Hni|]; [left|by right]|done].
    + destruct Hin as (es' & [->|?]%elem_of_cons & Hk); [|eauto].
      by apply find_None in Hf.
    + intros es' x ?. apply Hni. by right.
Qed.

Lemma legal_not_init v e x :
  v < FIRST_PROTOCOL_SUPPORTING_INITENTRY_AND_METAENTRY → legal v e → e ≠ INITENTRY x.
Proof.
  intros Hv%Z.ltb_lt Hl ->. unfold legal, checkProtocolLegality in Hl. by rewrite Hv in Hl.
Qed.

(** Eliding the combined record is not seen by who replays the younger buckets. *)
Lemma replay_merged k v keepDead origs later o n s s' :
  (∀ e, combine o n = Some e → bucketEntryKey e = Some k ∧ legal v e) →
  (∀ ks, ks ∈ origs → ∃ es, es ∈ later ∧ ks = keys es) →
  (origs ≠ [] → Forall (Forall (legal v)) later) → (keepDead = false → s = None) →
  (s1 ← update (combine o n) s; replay k later s1) = Some s' →
  (s1 ← update (merged (FIRST_PROTOCOL_SUPPORTING_INITENTRY_AND_METAENTRY <=? v) keepDead origs o n) s;
   replay k later s1) = Some s'.
Proof.
  intros Hc Hin Hlegal Hdead. unfold merged. destruct (combine o n) as [e|]; [|done].
  destruct (Hc e eq_refl) as [Hk Hl]. unfold elided. destruct (shadowed _ _ e) eqn:Hsh; cbn.
  - unfold shadowed in Hsh. rewrite Hk in Hsh. apply andb_true_iff in Hsh as [Hkeep Hex].
    apply existsb_shadow in Hex as (ks & Hks & Hkin). destruct (Hin ks Hks) as (es & Hes & ->).
    assert (origs ≠ []) as Hne by (intros ->; by apply not_elem_of_nil in Hks).
    assert (v < FIRST_PROTOCOL_SUPPORTING_INITENTRY_AND_METAENTRY ∨ ∃ x, e = LIVEENTRY x) as Hcase.
    { destruct (Z.leb_spec FIRST_PROTOCOL_SUPPORTING_INITENTRY_AND_METAENTRY v); [right|by left].
      destruct e; by eauto. }
    destruct (applyEntry e s) as [s1|] eqn:He; cbn; [|done].
    intros Hrun. apply (replay_forget k later s s1); [eauto| |done].
    destruct Hcase as [Hv|[x ->]]; [left|right; cbn in He; simplify_eq; eauto].
    intros es' x Hes' [Hx _]%find_Some. specialize (Hlegal Hne).
    rewrite Forall_forall in Hlegal. specialize (Hlegal es' Hes').
    rewrite Forall_forall in Hlegal. by apply (legal_not_init v (INITENTRY x) x Hv); [apply Hlegal|].
  - destruct e as [w|x|d|x]; cbn; try done. destruct keepDead; cbn; [done|].
    by rewrite (Hdead eq_refl).
Qed.

Lemma wf_find v es b k e : wf_bucket v es b → find k es = Some e → bucketEntryKey e = Some k ∧ legal v e.
Proof.
  intros (_ & _ & Hl & _) [He Hk]%find_Some. rewrite Forall_forall in Hl. auto.
Qed.

Lemma combine_legal v ov os old nv ns new k e :
  wf_bucket ov os old → wf_bucket nv ns new → ov ≤ v → nv ≤ v →
  compatible (find k os) (find k ns) → combine (find k os) (find k ns) = Some e →
  bucketEntryKey e = Some k ∧ legal v e.
Proof.
  intros Hold Hnew Hov Hnv Hc He. eapply combine_key; [|exact He].
  assert (∀ x, find k os = Some x ∨ find k ns = Some x → bucketEntryKey x = Some k ∧ legal v x) as Hx.
  { intros x [Hx|Hx]; [destruct (wf_find _ _ _ _ _ Hold Hx)|destruct (wf_find _ _ _ _ _ Hnew Hx)];
      (split; [done|]); [by apply (legal_mono ov)|by apply (legal_mono nv)]. }
  split_and!; [|done|done]. destruct (find k os), (find k ns); cbn in He; try done; eauto.
Qed.

Lemma replay_compatible k os ns s s' :
  replay k [os; ns] s = Some s' → compatible (find k os) (find k ns).
Proof.
  cbn. destruct (update _ s) as [s1|] eqn:H1; cbn; [|done].
  destruct (update _ s1) as [s2|] eqn:H2; cbn; [|done]. intros _.
  eapply compatible_replay; [done..|]. apply find_not_meta.
Qed.

(** C16: the merge of two well-formed buckets whose updates follow each other
    returns a well-formed bucket of the merge version.  Replaying it and then the
    younger buckets [later] gives each key the entry it has after the old bucket,
    the new bucket and the younger ones: neither the annihilation of life cycle
    records, nor the elision of records that one of the shadows has, nor, where
    nothing older is left, the removal of the tombstones, can be observed. *)
Theorem merge_replays maxv ov os old nv ns new svs shadows v keep keepDead later :
  wf_bucket ov os old → wf_bucket nv ns new →
  Forall2 (λ sv b, wf_bucket sv.1 sv.2 b) svs shadows →
  calculateMergeProtocolVersion maxv ov nv svs.*1 = Ok (v, keep) →
  (∀ k, ∃ s s', replay k [os; ns] s = Some s') →
  (∀ es, es ∈ svs.*2 → es ∈ later) → (svs ≠ [] → Forall (Forall (legal v)) later) →
  ∃ es, merge false maxv old new shadows keepDead = Ok (header v ++ es) ∧
    wf_bucket v es (header v ++ es) ∧
    ∀ k s s', (keepDead = false → s = None) →
      replay k (os :: ns :: later) s = Some s' → replay k (es :: later) s = Some s'.
Proof.
  intros Hold Hnew Hsh Hv Hseq Hin Hlegal.
  assert (∀ k, compatible (find k os) (find k ns)) as Hc.
  { intros k. destruct (Hseq k) as (s & s' & Hs). by eapply replay_compatible. }
  destruct (mergeVersion_inv _ _ _ _ _ _ Hv) as (Hov & Hnv & _ & -> & _).
  destruct (merge_Ok maxv ov os old nv ns new svs shadows v _ keepDead Hold Hnew Hsh Hv Hc)
    as (es & Hrun & Hwf & Hf).
  exists es. split_and!; [done..|]. intros k s s' Hdead Hrep. cbn. rewrite Hf.
  apply replay_merged; [|..|done|].
  - intros e He. by apply (combine_legal v ov os old nv ns new).
  - intros ks (es' & -> & Hes')%list_elem_of_fmap. eauto.
  - intros Hne. apply Hlegal. by intros ->.
  - cbn in Hrep. destruct (update (find k os) s) as [s1|] eqn:H1; cbn in Hrep; [|done].
    destruct (update (find k ns) s1) as [s2|] eqn:H2; cbn in Hrep; [|done].
    rewrite (update_combine (find k os) (find k ns) s s1 s2); [done| |done..].
    apply find_not_meta.
Qed.

Module MergeExample.
Definition item (name value : Z) : LedgerEntry :=
  mkLedgerEntry 1 (DATA (mkData [1] [name] [value])) None.
Definition older : list BucketEntry :=
  [INITENTRY (item 1 10); INITENTRY (item 2 20); DEADENTRY (KEY_DATA [1] [3])].
Definition newer : list BucketEntry :=
  [DEADENTRY (KEY_DATA [1] [1]); LIVEENTRY (item 2 21); INITENTRY (item 3 30); LIVEENTRY (item 4 40)].
Definition shadow : list BucketEntry := [LIVEENTRY (item 4 41)].

Lemma older_wf : wf_bucket 11 older (header 11 ++ older).
Proof. split_and!; [done|split; repeat constructor; by eexists|repeat constructor|done]. Qed.
Lemma newer_wf : wf_bucket 11 newer (header 11 ++ newer).
Proof. split_and!; [done|split; repeat constructor; by eexists|repeat constructor|done]. Qed.
Lemma shadow_wf : wf_bucket 11 shadow (header 11 ++ shadow).
Proof. split_and!; [done|split; repeat constructor; by eexists|repeat constructor|done]. Qed.

Lemma replays k : ∃ s s', replay k [older; newer] s = Some s'.
Proof.
  exists None. unfold older, newer. cbn [replay]. rewrite !find_cons, !find_nil.
  repeat case_decide; simplify_eq; cbn; eauto.
Qed.
End MergeExample.

(** The first entry was created and erased, the last is in the shadow. *)
Lemma merge_replays_witness :
  ∃ es, merge false 11 (header 11 ++ MergeExample.older) (header 11 ++ MergeExample.newer)
          [header 11 ++ MergeExample.shadow] true = Ok (header 11 ++ es) ∧
    es = [INITENTRY (MergeExample.item 2 21); LIVEENTRY (MergeExample.item 3 30)] ∧
    ∀ k s s', (true = false → s = None) →
      replay k [MergeExample.older; MergeExample.newer; MergeExample.shadow] s = Some s' →
      replay k [es; MergeExample.shadow] s = Some s'.
Proof.
  destruct (merge_replays 11 11 MergeExample.older (header 11 ++ MergeExample.older)
    11 MergeExample.newer (header 11 ++ MergeExample.newer) [(11, MergeExample.shadow)]
    [header 11 ++ MergeExample.shadow] 11 true true [MergeExample.shadow])
    as (es & Hrun & Hwf & Hrep).
  - apply MergeExample.older_wf.
  - apply MergeExample.newer_wf.
  - constructor; [apply MergeExample.shadow_wf|constructor].
  - reflexivity.
  - apply MergeExample.replays.
  - intros es Hes. exact Hes.
  - intros _. repeat constructor.
  - exists es. split; [exact Hrun|]. split; [|exact Hrep].
    vm_compute in Hrun. by injection Hrun.
Defined.
