(* ===== verification/BucketList.v ===== *)
(** * The bucket list

    Models [bucket/BucketList.cpp], [bucket/FutureBucket.cpp] and
    [bucket/FutureBucket.h], the part of [bucket/BucketManagerImpl.cpp] and
    [history/HistoryArchive.cpp] that saves the list and takes it over, and
    [bucket/BucketApplicator.cpp] with [catchup/ApplyBucketsWork.cpp], which apply
    it to a ledger.

    A merge runs in the background and its result is fixed when it starts: a
    running merge holds the outcome that [resolve] will wait for, and which merges
    have finished when [addBatch] looks is an argument.  Attaching to a running
    merge of the same inputs gives the same outcome, so the cache of running
    merges is left out. *)

From S2P Require Import Prelude QuorumSet LedgerEntries Bucket.

(** ** Levels *)

Definition kNumLevels : nat := 11.

Definition levelSize (level : nat) : res Z :=
  cassert (level <? kNumLevels)%nat;;
  mret (u32 (Z.shiftl 1 (2 * (Z.of_nat level + 1)))).

Definition levelHalf (level : nat) : res Z :=
  size ← levelSize level; mret (Z.shiftr size 1).

Definition mask (v m : Z) : Z := Z.land v (u32 (Z.lnot (u32 (m - 1)))).

Definition levelShouldSpill (ledger : Z) (level : nat) : res bool :=
  if (level =? kNumLevels - 1)%nat then mret false
  else
    half ← levelHalf level;
    if ledger =? mask ledger half then mret true
    else size ← levelSize level; mret (ledger =? mask ledger size).

Definition keepDeadEntries (level : nat) : bool := (level <? kNumLevels - 1)%nat.

Definition shouldMergeWithEmptyCurr (ledger : Z) (level : nat) : res bool :=
  if negb (level =? 0)%nat then
    half ← levelHalf (level - 1);
    let mergeStartLedger := mask ledger half in
    let nextChangeLedger := u32 (mergeStartLedger + half) in
    levelShouldSpill nextChangeLedger level
  else mret false.

Fixpoint getMaxMergeLevel_from (currLedger : Z) (i fuel : nat) : res nat :=
  match fuel with
  | O => mret i
  | S fuel' =>
      spill ← levelShouldSpill currLedger i;
      if negb spill then mret i else getMaxMergeLevel_from currLedger (S i) fuel'
  end.

Definition getMaxMergeLevel (currLedger : Z) : res nat :=
  getMaxMergeLevel_from currLedger 0 (kNumLevels - 1).

(** The sizes of the buckets in ledgers.  The recursion goes to an older ledger or
    to the levels below; the loops are [sumLevels]. *)
Fixpoint sumLevels (size : nat → res Z) (n : nat) : res Z :=
  match n with
  | O => mret 0
  | S l => total ← sumLevels size l; s ← size l; mret (u32 (total + s))
  end.

Fixpoint sizeOf (fuel : nat) (snap : bool) (ledger : Z) (level : nat) : res Z :=
  match fuel with
  | O => Throw OutOfFuel
  | S fuel' =>
      let sizeOfCurr := sizeOf fuel' false in
      let sizeOfSnap := sizeOf fuel' true in
      let below :=
        sumLevels (λ l, c ← sizeOfCurr ledger l; s ← sizeOfSnap ledger l; mret (u32 (c + s))) level in
      cassert (negb (ledger =? 0));;
      cassert (level <? kNumLevels)%nat;;
      if snap then
        if (level =? kNumLevels - 1)%nat then mret 0
        else
          size ← levelSize level;
          if negb (mask ledger size =? 0) then levelHalf level
          else
            size ← below;
            curr ← sizeOfCurr ledger level;
            mret (u32 (ledger - u32 (size + curr)))
      else if (level =? 0)%nat then mret (if ledger =? 1 then 1 else 1 + ledger mod 2)
      else
        size ← levelSize level;
        half ← levelHalf level;
        if negb (level =? kNumLevels - 1)%nat && negb (mask ledger half =? 0) then
          let sizeDelta := u32 (Z.shiftl 1 (2 * Z.of_nat level - 1)) in
          if (mask ledger half =? ledger) || (mask ledger size =? ledger) then mret sizeDelta
          else
            prevSize ← levelSize (level - 1);
            prevHalf ← levelHalf (level - 1);
            let previousRelevantLedger :=
              Z.max (Z.max (mask (ledger - 1) prevHalf) (mask (ledger - 1) prevSize))
                (Z.max (mask (ledger - 1) half) (mask (ledger - 1) size)) in
            curr ← sizeOfCurr previousRelevantLedger level;
            if (mask ledger prevHalf =? ledger) || (mask ledger prevSize =? ledger)
            then mret (u32 (curr + sizeDelta))
            else mret curr
        else
          blsize ← below;
          mret (u32 (ledger - blsize))
  end.

(** On a level at most five older ledgers are looked at. *)
Definition sizeFuel : nat := 6 * kNumLevels.

Definition sizeOfCurr (ledger : Z) (level : nat) : res Z := sizeOf sizeFuel false ledger level.
Definition sizeOfSnap (ledger : Z) (level : nat) : res Z := sizeOf sizeFuel true ledger level.

Definition sizeOfLevel (ledger : Z) (l : nat) : res Z :=
  c ← sizeOfCurr ledger l; s ← sizeOfSnap ledger l; mret (u32 (c + s)).

Definition oldestLedgerInCurr (ledger : Z) (level : nat) : res Z :=
  cassert (negb (ledger =? 0));;
  cassert (level <? kNumLevels)%nat;;
  curr ← sizeOfCurr ledger level;
  if curr =? 0 then mret UINT32_MAX
  else
    below ← sumLevels (sizeOfLevel ledger) level;
    mret (u32 (u32 (ledger - below - curr) + 1)).

Definition oldestLedgerInSnap (ledger : Z) (level : nat) : res Z :=
  cassert (negb (ledger =? 0));;
  cassert (level <? kNumLevels)%nat;;
  snap ← sizeOfSnap ledger level;
  if snap =? 0 then mret UINT32_MAX
  else
    upto ← sumLevels (sizeOfLevel ledger) (S level);
    mret (u32 (u32 (ledger - upto) + 1)).

(** ** Merges in progress *)

Section list.
Context {Hash : Type} `{EqDecision Hash}.

Inductive FutureBucket : Type :=
| FB_CLEAR
| FB_HASH_OUTPUT (outputHash : Hash)
| FB_HASH_INPUTS (currHash snapHash : Hash) (shadowHashes : list Hash)
| FB_LIVE_OUTPUT (output : Bucket)
| FB_LIVE_INPUTS (curr snap : Bucket) (shadows : list Bucket) (outputFuture : res Bucket).

Definition isLive (fb : FutureBucket) : bool :=
  match fb with FB_LIVE_INPUTS _ _ _ _ | FB_LIVE_OUTPUT _ => true | _ => false end.
Definition isMerging (fb : FutureBucket) : bool :=
  match fb with FB_LIVE_INPUTS _ _ _ _ => true | _ => false end.
Definition hasHashes (fb : FutureBucket) : bool :=
  match fb with FB_HASH_INPUTS _ _ _ | FB_HASH_OUTPUT _ => true | _ => false end.
Definition isClear (fb : FutureBucket) : bool :=
  match fb with FB_CLEAR => true | _ => false end.
Definition hasOutputHash (fb : FutureBucket) : bool :=
  match fb with FB_LIVE_OUTPUT _ | FB_HASH_OUTPUT _ => true | _ => false end.

Definition startMerge (curr snap : Bucket) (shadows : list Bucket) (maxProtocolVersion : Z)
    (level : nat) : FutureBucket :=
  FB_LIVE_INPUTS curr snap shadows
    (merge false maxProtocolVersion curr snap shadows (keepDeadEntries level)).

(** The constructor of the class. *)
Definition mkFutureBucket (curr snap : Bucket) (shadows : list Bucket) (maxProtocolVersion : Z)
    (level : nat) : res FutureBucket :=
  version ← getBucketVersion snap;
  if (FIRST_PROTOCOL_SHADOWS_REMOVED <=? version) && negb (length shadows =? 0)%nat
  then Throw (RuntimeError "Invalid FutureBucket: ledger version doesn't support shadows")
  else mret (startMerge curr snap shadows maxProtocolVersion level).

(** The resolved merge and its output. *)
Definition resolve (fb : FutureBucket) : res (FutureBucket * Bucket) :=
  match fb with
  | FB_LIVE_OUTPUT output => mret (fb, output)
  | FB_LIVE_INPUTS _ _ _ outputFuture =>
      output ← outputFuture; mret (FB_LIVE_OUTPUT output, output)
  | _ => Throw AssertFailure
  end.

(** ** A level *)

Record BucketLevel : Type := mkLevel {
  mCurr : Bucket;
  mSnap : Bucket;
  mNextCurr : FutureBucket
}.

Definition setCurr (b : Bucket) (l : BucketLevel) : BucketLevel :=
  mkLevel b (mSnap l) FB_CLEAR.
Definition setSnap (b : Bucket) (l : BucketLevel) : BucketLevel :=
  mkLevel (mCurr l) b (mNextCurr l).
Definition setNext (fb : FutureBucket) (l : BucketLevel) : BucketLevel :=
  mkLevel (mCurr l) (mSnap l) fb.

Definition commit (l : BucketLevel) : res BucketLevel :=
  l ← (if isLive (mNextCurr l)
       then '(next, output) ← resolve (mNextCurr l); mret (setCurr output (setNext next l))
       else mret l);
  cassert (negb (isMerging (mNextCurr l)));;
  mret l.

Definition prepare (currLedger currLedgerProtocol : Z) (snap : Bucket) (shadows : list Bucket)
    (level : nat) (l : BucketLevel) : res BucketLevel :=
  cassert (negb (isMerging (mNextCurr l)));;
  withEmpty ← shouldMergeWithEmptyCurr currLedger level;
  let curr := if (withEmpty : bool) then [] else mCurr l in
  version ← getBucketVersion snap;
  let shadowsBasedOnProtocol :=
    if FIRST_PROTOCOL_SHADOWS_REMOVED <=? version then [] else shadows in
  next ← mkFutureBucket curr snap shadowsBasedOnProtocol currLedgerProtocol level;
  cassert (isMerging next);;
  mret (setNext next l).

Definition snapLevel (l : BucketLevel) : BucketLevel :=
  mkLevel [] (mCurr l) (mNextCurr l).

(** ** The list *)

Notation BucketList := (list BucketLevel).

Definition emptyList : BucketList := replicate kNumLevels (mkLevel [] [] FB_CLEAR).

Definition getLevel (levels : BucketList) (i : nat) : res BucketLevel := deref (levels !! i).

Definition resolveIfReady (ready : bool) (l : BucketLevel) : res BucketLevel :=
  if isMerging (mNextCurr l) && ready
  then '(next, _) ← resolve (mNextCurr l); mret (setNext next l)
  else mret l.

(** [ready] says which merges have completed. *)
Fixpoint resolveAnyReadyFutures (ready : nat → bool) (levels : BucketList) : res BucketList :=
  match levels with
  | [] => mret []
  | l :: levels' =>
      l ← resolveIfReady (ready O) l;
      levels' ← resolveAnyReadyFutures (λ i, ready (S i)) levels';
      mret (l :: levels')
  end.

Definition pop_two (shadows : list Bucket) : res (list Bucket) :=
  cassert (2 <=? length shadows)%nat;;
  mret (take (length shadows - 2) shadows).

(** The loop over the levels, from the oldest to level 1. *)
Fixpoint spillLevels (currLedger currLedgerProtocol : Z) (i : nat) (shadows : list Bucket)
    (levels : BucketList) : res (list Bucket * BucketList) :=
  match i with
  | O => mret (shadows, levels)
  | S j =>
      shadows ← pop_two shadows;
      spill ← levelShouldSpill currLedger j;
      levels ←
        (if (spill : bool) then
           prev ← getLevel levels j;
           let prev := snapLevel prev in
           let levels := <[j := prev]> levels in
           l ← getLevel levels i;
           l ← commit l;
           l ← prepare currLedger currLedgerProtocol (mSnap prev) shadows i l;
           mret (<[i := l]> levels)
         else mret levels);
      spillLevels currLedger currLedgerProtocol j shadows levels
  end.

Definition addBatch (pessimize : bool) (ready : nat → bool) (currLedger currLedgerProtocol : Z)
    (initEntries liveEntries : list LedgerEntry) (deadEntries : list LedgerKey)
    (levels : BucketList) : res BucketList :=
  cassert (0 <? currLedger);;
  let shadows := l ← levels; [mCurr l; mSnap l] in
  shadows ← pop_two shadows;
  '(shadows, levels) ← spillLevels currLedger currLedgerProtocol (length levels - 1) shadows levels;
  cassert (length shadows =? 0)%nat;;
  batch ← fresh currLedgerProtocol initEntries liveEntries deadEntries;
  l ← getLevel levels 0;
  l ← prepare currLedger currLedgerProtocol batch shadows 0 l;
  l ← commit l;
  let levels := <[0%nat := l]> levels in
  if (pessimize : bool) then mret levels else resolveAnyReadyFutures ready levels.

Definition futuresAllResolved (maxLevel : nat) (levels : BucketList) : res bool :=
  cassert (maxLevel <? length levels)%nat;;
  mret (forallb (λ l, negb (isMerging (mNextCurr l))) (take (S maxLevel) levels)).

(** ** Saving the list and taking it over *)

(** [sha256] is the hash of a file of records, [files] the bucket directory with
    the buckets in memory; the empty bucket has no file and hash zero. *)
Context (sha256 : list BucketEntry → Hash) (zero : Hash) (files : Hash → option Bucket).

Definition getHash (b : Bucket) : Hash := match b with [] => zero | _ => sha256 b end.

Definition getBucketByHash (h : Hash) : option Bucket :=
  if decide (h = zero) then Some [] else files h.

(** Serialisation keeps the hashes only. *)
Definition save (fb : FutureBucket) : FutureBucket :=
  match fb with
  | FB_LIVE_INPUTS curr snap shadows _ =>
      FB_HASH_INPUTS (getHash curr) (getHash snap) (getHash <$> shadows)
  | FB_LIVE_OUTPUT output => FB_HASH_OUTPUT (getHash output)
  | fb => fb
  end.

Definition makeLive (maxProtocolVersion : Z) (level : nat) (fb : FutureBucket) : res FutureBucket :=
  match fb with
  | FB_HASH_OUTPUT h => output ← deref (getBucketByHash h); mret (FB_LIVE_OUTPUT output)
  | FB_HASH_INPUTS hc hs hshadows =>
      let curr := getBucketByHash hc in
      let snap := getBucketByHash hs in
      shadows ← mapM_res
        (λ h, match getBucketByHash h with Some b => mret b | None => Throw AssertFailure end)
        hshadows;
      match curr, snap with
      | Some curr, Some snap => mret (startMerge curr snap shadows maxProtocolVersion level)
      | _, _ => Throw AssertFailure
      end
  | _ => Throw AssertFailure
  end.

(** The loop over the levels, with what is left of it and the previous level. *)
Fixpoint restartLevels (maxProtocolVersion ledger : Z) (i : nat) (prevSnap : Bucket)
    (levels : BucketList) : res BucketList :=
  match levels with
  | [] => mret []
  | level :: levels' =>
      let next := mNextCurr level in
      let continue level :=
        levels' ← restartLevels maxProtocolVersion ledger (S i) (mSnap level) levels';
        mret (level :: levels') in
      if hasHashes next && negb (isLive next) then
        next ← makeLive maxProtocolVersion i next;
        continue (setNext next level)
      else if isClear next && (0 <? i)%nat then
        if decide (getHash prevSnap = zero) then mret levels
        else
          version ← getBucketVersion prevSnap;
          if version <? FIRST_PROTOCOL_SHADOWS_REMOVED
          then Throw (RuntimeError "Invalid state: clear future bucket but old snap")
          else
            half ← levelHalf (i - 1);
            level ← prepare (mask ledger half) version prevSnap [] i level;
            continue level
      else continue level
  end.

Definition restartMerges (maxProtocolVersion ledger : Z) (levels : BucketList) : res BucketList :=
  restartLevels maxProtocolVersion ledger 0 [] levels.

Record HistoryStateBucket : Type := mkStateBucket {
  hsb_curr : Hash;
  hsb_next : FutureBucket;
  hsb_snap : Hash
}.

Record HistoryArchiveState : Type := mkArchiveState {
  currentLedger : Z;
  currentBuckets : list HistoryStateBucket
}.

Definition stateOf (ledgerSeq : Z) (levels : BucketList) : HistoryArchiveState :=
  mkArchiveState ledgerSeq
    ((λ l, mkStateBucket (getHash (mCurr l)) (mNextCurr l) (getHash (mSnap l))) <$> levels).

(** What is written to the archive and read back. *)
Definition published (has : HistoryArchiveState) : HistoryArchiveState :=
  mkArchiveState (currentLedger has)
    ((λ b, mkStateBucket (hsb_curr b) (save (hsb_next b)) (hsb_snap b)) <$> currentBuckets has).

Definition CURRENT_LEDGER_PROTOCOL_VERSION : Z := 15.

(** The levels after the first, [prev] being the one before. *)
Fixpoint prepareLevels (i : nat) (prev : HistoryStateBucket) (levels : list HistoryStateBucket)
    : res (list HistoryStateBucket) :=
  match levels with
  | [] => mret []
  | level :: levels' =>
      level' ←
        (clear ←
           (if negb (isClear (hsb_next level)) then
              snap ← deref (getBucketByHash (hsb_snap prev));
              version ← getBucketVersion snap;
              mret (FIRST_PROTOCOL_SHADOWS_REMOVED <=? version)
            else mret false);
         if (clear : bool) then mret (mkStateBucket (hsb_curr level) FB_CLEAR (hsb_snap level))
         else if hasHashes (hsb_next level) && negb (isLive (hsb_next level)) then
           next ← makeLive CURRENT_LEDGER_PROTOCOL_VERSION i (hsb_next level);
           mret (mkStateBucket (hsb_curr level) next (hsb_snap level))
         else mret level);
      levels' ← prepareLevels (S i) level' levels';
      mret (level' :: levels')
  end.

Definition prepareForPublish (has : HistoryArchiveState) : res HistoryArchiveState :=
  match currentBuckets has with
  | [] => Throw NullDereference
  | b :: bs =>
      cassert (isClear (hsb_next b));;
      bs ← prepareLevels 1 b bs;
      mret (mkArchiveState (currentLedger has) (b :: bs))
  end.

Fixpoint validLevels (prev : HistoryStateBucket) (levels : list HistoryStateBucket) : res bool :=
  match levels with
  | [] => mret true
  | level :: levels' =>
      match getBucketByHash (hsb_snap prev) with
      | None => Throw AssertFailure
      | Some snap =>
          if decide (getHash snap = zero) then validLevels level levels'
          else
            version ← getBucketVersion snap;
            if FIRST_PROTOCOL_SHADOWS_REMOVED <=? version then
              if negb (isClear (hsb_next level)) then mret false else validLevels level levels'
            else if negb (hasOutputHash (hsb_next level)) then mret false
            else validLevels level levels'
      end
  end.

Definition containsValidBuckets (has : HistoryArchiveState) : res bool :=
  match currentBuckets has with
  | [] => Throw NullDereference
  | b :: bs => cassert (isClear (hsb_next b));; validLevels b bs
  end.

Definition assumeLevel (b : HistoryStateBucket) (l : BucketLevel) : res BucketLevel :=
  match getBucketByHash (hsb_curr b), getBucketByHash (hsb_snap b) with
  | Some curr, Some snap => mret (setNext (hsb_next b) (setSnap snap (setCurr curr l)))
  | _, _ =>
      Throw (RuntimeError "Missing bucket files while assuming saved BucketList state")
  end.

(** The removal of stale files is left out. *)
Definition assumeState (has : HistoryArchiveState) (maxProtocolVersion : Z)
    (levels : BucketList) : res BucketList :=
  levels ← mapM_res
    (λ i, b ← deref (currentBuckets has !! i); l ← getLevel levels i; assumeLevel b l)
    (seq 0 kNumLevels);
  restartMerges maxProtocolVersion (currentLedger has) levels.
End list.
Arguments FutureBucket : clear implicits.
Arguments BucketLevel : clear implicits.
Notation BucketList Hash := (list (BucketLevel Hash)).
