(* ===== verification/BucketLevels.v ===== *)
(** * When the levels of the bucket list spill, and how many ledgers they hold

    The arithmetic of [BucketList] over machine words in closed form: the ledgers at
    which a level spills, whether a merge is prepared for a level that is about to
    spill, and the number of ledgers in each bucket. *)

From S2P Require Import Prelude QuorumSet LedgerEntries Bucket BucketList.

Definition half (l : nat) : Z := 2 ^ (2 * Z.of_nat l + 1).

Lemma half_pos l : 0 < half l.
Proof. apply Z.pow_pos_nonneg; lia. Qed.

Lemma half_S l : half (S l) = 4 * half l.
Proof.
  unfold half. replace (2 * Z.of_nat (S l) + 1) with (2 + (2 * Z.of_nat l + 1)) by lia.
  rewrite Z.pow_add_r by lia. done.
Qed.

Lemma half_mono l l' : (l ≤ l')%nat → half l ≤ half l'.
Proof. intros Hl. apply Z.pow_le_mono_r; lia. Qed.

Lemma half_word l : (l < kNumLevels)%nat → half l * 2 ^ (31 - 2 * Z.of_nat l) = 4294967296.
Proof.
  intros Hl. unfold kNumLevels in Hl. unfold half.
  rewrite <-Z.pow_add_r by lia. replace (_ + _) with 32 by lia. done.
Qed.

Lemma half_le_word l : (l < kNumLevels)%nat → half l ≤ 2097152.
Proof. intros Hl. unfold kNumLevels in Hl. apply (half_mono l 10). lia. Qed.

Lemma levelSize_Ok l : (l < kNumLevels)%nat → levelSize l = Ok (2 * half l).
Proof.
  intros Hl. unfold levelSize. rewrite (proj2 (Nat.ltb_lt _ _) Hl). cbn [cassert mbind res_bind].
  pose proof (half_le_word l Hl). pose proof (half_pos l).
  rewrite Z.shiftl_1_l. replace (2 ^ _) with (2 * half l).
  - rewrite u32_id; [done|]. unfold is_u32. widths. lia.
  - unfold half. rewrite <-Z.pow_succ_r by lia. f_equal. lia.
Qed.

Lemma levelHalf_Ok l : (l < kNumLevels)%nat → levelHalf l = Ok (half l).
Proof.
  intros Hl. unfold levelHalf. rewrite levelSize_Ok by done. cbn.
  rewrite <-Z.div2_spec, Z.mul_comm, Z.div2_div, Z.div_mul; done.
Qed.

(** [mask] rounds down to a multiple of a power of two. *)
Lemma mask_round v p :
  is_u32 v → 0 ≤ p < 32 → mask v (2 ^ p) = 2 ^ p * (v / 2 ^ p).
Proof.
  intros Hv Hp. unfold mask.
  assert (0 < 2 ^ p < 4294967296) as Hpow.
  { split; [apply Z.pow_pos_nonneg; lia|]. change 4294967296 with (2 ^ 32).
    apply Z.pow_lt_mono_r; lia. }
  rewrite (u32_id (2 ^ p - 1)) by (unfold is_u32; widths; lia).
  replace (2 ^ p - 1) with (Z.ones p) by (rewrite Z.ones_equiv; lia).
  unfold u32. change 4294967296 with (2 ^ 32). rewrite <-Z.land_ones by lia.
  rewrite (Z.land_comm (Z.lnot _)), Z.land_assoc, (Z.land_ones v) by lia.
  rewrite Z.mod_small by (unfold is_u32 in Hv; widths; lia).
  rewrite <-Z.ldiff_land, Z.ldiff_ones_r by lia.
  rewrite Z.shiftl_mul_pow2, Z.shiftr_div_pow2 by lia. lia.
Qed.

Lemma mask_half v l : is_u32 v → (l < kNumLevels)%nat → mask v (half l) = half l * (v / half l).
Proof. intros Hv Hl. unfold kNumLevels in Hl. apply mask_round; [done|lia]. Qed.

Lemma mask_size v l :
  is_u32 v → (l < kNumLevels)%nat → mask v (2 * half l) = 2 * half l * (v / (2 * half l)).
Proof.
  intros Hv Hl. unfold kNumLevels in Hl. unfold half. rewrite <-Z.pow_succ_r by lia.
  apply mask_round; [done|lia].
Qed.

(** ** Spills *)

Definition spills (n : Z) (l : nat) : bool := negb (l =? 10)%nat && (n mod half l =? 0).

Lemma round_eq n d : 0 < d → n = d * (n / d) ↔ n mod d = 0.
Proof. intros Hd. pose proof (Z.div_mod n d ltac:(lia)). lia. Qed.

Lemma mod_half_size n l : n mod (2 * half l) = 0 → n mod half l = 0.
Proof.
  pose proof (half_pos l). intros Hm. apply Z.mod_divide; [lia|].
  apply Z.mod_divide in Hm; [|lia]. destruct Hm as [q ->]. exists (q * 2). lia.
Qed.

Lemma levelShouldSpill_Ok n l :
  is_u32 n → (l < kNumLevels)%nat → levelShouldSpill n l = Ok (spills n l).
Proof.
  intros Hn Hl. unfold levelShouldSpill, spills, kNumLevels. cbn [Nat.sub].
  destruct (l =? 10)%nat; [done|]. pose proof (half_pos l).
  rewrite levelHalf_Ok, levelSize_Ok by done. cbn [mbind res_bind].
  rewrite mask_half, mask_size by done. cbn [negb andb].
  destruct (Z.eqb_spec n (half l * (n / half l))) as [He|He].
  - apply round_eq in He; [|done]. by rewrite He.
  - destruct (Z.eqb_spec n (2 * half l * (n / (2 * half l)))) as [He'|He'].
    + destruct He. apply round_eq; [done|]. apply mod_half_size, round_eq; [lia|done].
    + destruct (Z.eqb_spec (n mod half l) 0) as [H0|]; [|done]. by apply round_eq in H0.
Qed.

(** Whether the merge prepared for level [i] leaves its current bucket out. *)
Definition withEmpty (n : Z) (i : nat) : bool :=
  spills (half (i - 1) * (n / half (i - 1)) + half (i - 1)) i.

Lemma u32_mod_half x l : (l < kNumLevels)%nat → u32 x mod half l = x mod half l.
Proof.
  intros Hl. unfold u32. rewrite <-(half_word l) by done.
  rewrite Z.mul_comm. apply Z.mod_mod_divide. exists (2 ^ (31 - 2 * Z.of_nat l)). lia.
Qed.

Lemma shouldMergeWithEmptyCurr_Ok n i :
  is_u32 n → (0 < i < kNumLevels)%nat → shouldMergeWithEmptyCurr n i = Ok (withEmpty n i).
Proof.
  intros Hn Hi. unfold shouldMergeWithEmptyCurr.
  rewrite (proj2 (Nat.eqb_neq i 0)) by lia. cbn [negb].
  rewrite levelHalf_Ok by lia. cbn [mbind res_bind].
  rewrite mask_half by (done || lia). rewrite levelShouldSpill_Ok; [|apply u32_range|lia].
  unfold withEmpty, spills. by rewrite u32_mod_half by lia.
Qed.

Lemma spills_below n j : (S j < kNumLevels)%nat → spills n (S j) = true → spills n j = true.
Proof.
  unfold spills, kNumLevels. rewrite !andb_true_iff, !negb_true_iff, !Z.eqb_eq, !Nat.eqb_neq.
  intros Hj [Hne Hm]. split; [lia|]. pose proof (half_pos j). rewrite half_S in Hm.
  apply Z.mod_divide; [lia|]. apply Z.mod_divide in Hm; [|lia]. destruct Hm as [q ->].
  exists (q * 4). lia.
Qed.

(** At a spill of the level below, the merge that is committed left out the current
    bucket if and only if that bucket is snapped at the same ledger. *)
Lemma withEmpty_spill n j :
  (j < 10)%nat → spills n j = true → withEmpty (n - 1) (S j) = spills n (S j).
Proof.
  intros Hj. unfold withEmpty. replace (S j - 1)%nat with j by lia.
  unfold spills at 1. rewrite andb_true_iff, Z.eqb_eq. intros [_ Hm].
  pose proof (half_pos j). f_equal. apply round_eq in Hm; [|done].
  set (q := n / half j) in *. assert ((n - 1) / half j = q - 1) as ->; [|lia].
  symmetry. apply (Z.div_unique _ _ _ (half j - 1)); lia.
Qed.

Lemma div_pred n d : 0 < d → n mod d ≠ 0 → (n - 1) / d = n / d.
Proof.
  intros Hd Hm. symmetry. apply (Z.div_unique _ _ _ (n mod d - 1)).
  - pose proof (Z.mod_pos_bound n d Hd). lia.
  - pose proof (Z.div_mod n d ltac:(lia)). lia.
Qed.

Lemma no_spill n j : (j < 10)%nat → spills n j = false → n mod half j ≠ 0.
Proof.
  intros Hj. unfold spills. rewrite (proj2 (Nat.eqb_neq j 10)) by lia. cbn. apply Z.eqb_neq.
Qed.

Lemma withEmpty_no_spill n j :
  (j < 10)%nat → spills n j = false → withEmpty (n - 1) (S j) = withEmpty n (S j).
Proof.
  intros Hj Hs%no_spill; [|done]. unfold withEmpty. replace (S j - 1)%nat with j by lia.
  by rewrite div_pred by (done || apply half_pos).
Qed.

(** A level spills first after it has been given something. *)
Lemma first_spill n j :
  0 < n → spills n j = true → half j ≤ n.
Proof.
  unfold spills. rewrite andb_true_iff, Z.eqb_eq. intros Hn [_ Hm]. pose proof (half_pos j).
  apply Z.mod_divide in Hm; [|lia]. destruct Hm as [q ->].
  assert (0 < q) by nia. nia.
Qed.

(** ** Sizes *)

(** The ledgers that level [l] has not been given when it spills. *)
Fixpoint lag (l : nat) : Z :=
  match l with O => 0 | S l' => lag l' + 2 * half l' end.

Definition round (n : Z) (l : nat) : Z := half l * (n / half l).

(** The first ledger of the current bucket of level [l], and of level [l] and below;
    what is not in the levels above is in the last one. *)
Definition currFrom (n : Z) (l : nat) : Z :=
  if (l =? 10)%nat then 1 else Z.max 1 (round n l - lag l).
Definition levelFrom (n : Z) (l : nat) : Z :=
  if (l =? 10)%nat then 1 else Z.max 1 (round n l - lag l - half l).
(** The first ledger of the levels below [l]. *)
Definition belowFrom (n : Z) (l : nat) : Z :=
  match l with O => n + 1 | S l' => levelFrom n l' end.

Lemma lag_half l : 3 * lag l = 2 * half l - 4.
Proof. induction l as [|l IH]; [done|]. rewrite half_S. cbn [lag]. lia. Qed.

Lemma half_ge l : 2 ≤ half l.
Proof. pose proof (half_mono 0 l ltac:(lia)). change (half 0) with 2 in *. lia. Qed.

Lemma lag_bounds l : 0 ≤ lag l < half l.
Proof. pose proof (lag_half l). pose proof (half_ge l). lia. Qed.

Lemma round_bounds n l : round n l ≤ n < round n l + half l.
Proof. unfold round. apply Zfloor_bounds, half_pos. Qed.

Lemma round_half_S n l : round (round n l) (S l) = round n (S l).
Proof.
  unfold round. rewrite half_S. pose proof (half_pos l).
  rewrite (Z.mul_comm 4), <-!Z.div_div by lia. rewrite (Z.mul_comm (half l) (n / half l)).
  by rewrite Z.div_mul by lia.
Qed.

Lemma round_mono n l : round n (S l) ≤ round n l.
Proof. rewrite <-round_half_S. apply round_bounds. Qed.

Lemma round_zero n l : 0 ≤ n < half l → round n l = 0.
Proof. intros Hn. unfold round. rewrite Z.div_small by done. lia. Qed.

Lemma round_multiple n l q : n = half l * q → round n l = n.
Proof. intros ->. unfold round. rewrite (Z.mul_comm (half l) q), Z.div_mul; [lia|]. pose proof (half_pos l). lia. Qed.

Lemma levelFrom_bounds n l : 0 < n → 1 ≤ levelFrom n l ≤ currFrom n l ∧ currFrom n l ≤ n + 1.
Proof.
  intros Hn. unfold levelFrom, currFrom. destruct (_ =? _)%nat; [lia|].
  pose proof (half_pos l). pose proof (round_bounds n l). pose proof (lag_bounds l). lia.
Qed.

Lemma currFrom_below n l : 0 < n → (l < kNumLevels)%nat → currFrom n l ≤ belowFrom n l.
Proof.
  intros Hn Hl. unfold kNumLevels in Hl. destruct l as [|l]; [by apply levelFrom_bounds|].
  cbn [belowFrom]. unfold currFrom, levelFrom. rewrite (proj2 (Nat.eqb_neq l 10)) by lia.
  destruct (S l =? 10)%nat; [lia|]. cbn [lag]. pose proof (half_pos l).
  pose proof (round_mono n l). lia.
Qed.

Lemma belowFrom_bounds n l : 0 < n → 1 ≤ belowFrom n l ≤ n + 1.
Proof.
  intros Hn. destruct l as [|l]; cbn [belowFrom]; [lia|].
  pose proof (levelFrom_bounds n l Hn). lia.
Qed.

Lemma sumLevels_Ok n size l :
  0 < n → is_u32 n →
  (∀ j, (j < l)%nat → size j = Ok (belowFrom n j - belowFrom n (S j))) →
  sumLevels size l = Ok (n + 1 - belowFrom n l).
Proof.
  intros Hn Hu Hs. induction l as [|l IH]; cbn [sumLevels].
  { cbn. f_equal. lia. }
  rewrite IH by (intros; apply Hs; lia). cbn [mbind res_bind]. rewrite Hs by lia. cbn [mbind res_bind].
  pose proof (belowFrom_bounds n l Hn). pose proof (belowFrom_bounds n (S l) Hn).
  rewrite u32_id by (unfold is_u32 in *; widths; lia). cbn. f_equal. lia.
Qed.

(** How many older ledgers are looked at. *)
Definition lookBack (n : Z) (l : nat) : nat :=
  match l with
  | O => 0
  | S j => if n <? half l then 0 else Z.to_nat ((n - round n l + half j - 1) / half j)
  end.

Lemma lookBack_le n l : (lookBack n l ≤ 4)%nat.
Proof.
  destruct l as [|j]; cbn [lookBack]; [lia|]. destruct (_ <? _); [lia|].
  pose proof (half_pos j). pose proof (round_bounds n (S j)). rewrite half_S in *.
  assert ((n - round n (S j) + half j - 1) / half j < 5); [|lia].
  apply Z.div_lt_upper_bound; lia.
Qed.

Lemma round_coarse x d k : 0 < d → 0 < k → k * d * (x / (k * d)) ≤ d * (x / d).
Proof.
  intros Hd Hk. rewrite (Z.mul_comm k d), <-Z.div_div by lia.
  pose proof (Zfloor_bounds (x / d) k Hk). nia.
Qed.

Lemma round_between n m l : round n l ≤ m < round n l + half l → round m l = round n l.
Proof.
  intros Hm. unfold round in *. f_equal. symmetry.
  apply (Z.div_unique _ _ _ (m - half l * (n / half l))); lia.
Qed.

Lemma round_pred n l : round (n - 1) l = if n =? round n l then n - half l else round n l.
Proof.
  pose proof (half_pos l) as Hp. unfold round. destruct (Z.eqb_spec n (half l * (n / half l))) as [He|He].
  - set (q := n / half l) in *. assert ((n - 1) / half l = q - 1) as ->; [|lia].
    symmetry. apply (Z.div_unique _ _ _ (half l - 1)); lia.
  - rewrite div_pred; [done|done|]. intros H0. by apply round_eq in H0.
Qed.

(** The ledger looked at from [n]. *)
Definition previous (n : Z) (j : nat) : Z := if n =? round n j then n - half j else round n j.

Lemma previous_mask n j :
  is_u32 n → 0 < n → (S j < kNumLevels)%nat →
  Z.max (Z.max (mask (n - 1) (half j)) (mask (n - 1) (2 * half j)))
    (Z.max (mask (n - 1) (half (S j))) (mask (n - 1) (2 * half (S j)))) = previous n j.
Proof.
  intros Hn Hp Hj. assert (is_u32 (n - 1)) as Hn' by (unfold is_u32 in *; widths; lia).
  rewrite !mask_half, !mask_size by (done || lia).
  pose proof (half_pos j) as Hh. pose proof (round_coarse (n - 1) (half j) 2 Hh ltac:(lia)).
  pose proof (round_coarse (n - 1) (half j) 4 Hh ltac:(lia)).
  pose proof (round_coarse (n - 1) (half j) 8 Hh ltac:(lia)).
  rewrite half_S. replace (2 * (4 * half j)) with (8 * half j) by lia.
  unfold previous. rewrite <-round_pred. unfold round. lia.
Qed.

Lemma previous_spec n j :
  half (S j) ≤ n → n ≠ round n (S j) →
  half (S j) ≤ previous n j < n ∧ round (previous n j) (S j) = round n (S j) ∧
  round (previous n j) j = previous n j ∧ S (lookBack (previous n j) (S j)) = lookBack n (S j).
Proof.
  intros Hn Hne. pose proof (half_pos j) as Hh. pose proof (round_bounds n (S j)) as Hb.
  pose proof (round_mono n j) as Hm. pose proof (round_bounds n j) as Hbj.
  assert (half (S j) ≤ round n (S j)) as Hge.
  { unfold round. assert (1 ≤ n / half (S j)); [|nia].
    apply Z.div_le_lower_bound; [apply half_pos|lia]. }
  assert (round n j = round n (S j) + half j * (n / half j - 4 * (n / half (S j)))) as Hq
    by (unfold round; rewrite half_S; lia).
  set (q := n / half j - 4 * (n / half (S j))) in *.
  assert (round n (S j) ≤ previous n j < n ∧ ∃ p, previous n j = half j * p ∧
    (n - round n (S j) + half j - 1) / half j = (previous n j - round n (S j)) / half j + 1)
    as (Hprev & p & Hp & Hback).
  { unfold previous. destruct (Z.eqb_spec n (round n j)) as [He|He].
    - assert (0 < q) by nia. split; [nia|]. exists (n / half j - 1). split; [unfold round in He; lia|].
      replace (n - half j - round n (S j)) with ((q - 1) * half j) by lia.
      replace (n - round n (S j) + half j - 1) with (half j - 1 + q * half j) by lia.
      rewrite Z.div_add, Z.div_mul, Z.div_small by lia. lia.
    - assert (0 ≤ q) by nia. split; [nia|]. exists (n / half j). split; [done|].
      replace (round n j - round n (S j)) with (q * half j) by lia. rewrite Z.div_mul by lia.
      symmetry. apply (Z.div_unique _ _ _ (n - round n j - 1)); lia. }
  assert (round (previous n j) (S j) = round n (S j)) as Hr by (apply round_between; lia).
  split_and!; [lia|lia|done|by eapply round_multiple|].
  cbn [lookBack]. rewrite !(proj2 (Z.ltb_ge _ _)) by lia. rewrite Hr, Hback.
  replace (previous n j - round n (S j) + half j - 1)
    with (half j - 1 + (p - 4 * (n / half (S j))) * half j)
    by (rewrite Hp; unfold round; rewrite half_S; lia).
  replace (previous n j - round n (S j)) with ((p - 4 * (n / half (S j))) * half j)
    by (rewrite Hp; unfold round; rewrite half_S; lia).
  rewrite Z.div_add, Z.div_mul, Z.div_small by lia.
  assert (0 ≤ p - 4 * (n / half (S j))); [|lia].
  rewrite Hp in Hprev. unfold round in Hprev. rewrite half_S in Hprev at 1. nia.
Qed.

Section sizes.
Context (n : Z) (Hn : 0 < n) (Hu : is_u32 n).

(** What [sizeOf] returns for level [l], given enough fuel. *)
Definition sized (l : nat) : Prop :=
  ∀ fuel, (6 * l + 6 ≤ fuel)%nat →
    sizeOf fuel false n l = Ok (belowFrom n l - currFrom n l) ∧
    sizeOf fuel true n l = Ok (currFrom n l - levelFrom n l).

Lemma below_sized l fuel :
  (∀ j, (j < l)%nat → sized j) → (6 * l ≤ fuel)%nat → (l < kNumLevels)%nat →
  sumLevels (λ j, c ← sizeOf fuel false n j; s ← sizeOf fuel true n j; mret (u32 (c + s))) l
  = Ok (n + 1 - belowFrom n l).
Proof.
  intros IH Hf Hl. apply sumLevels_Ok; [done|done|]. intros j Hj.
  destruct (IH j Hj fuel) as [-> ->]; [lia|]. cbn. f_equal.
  pose proof (currFrom_below n j Hn ltac:(lia)). pose proof (levelFrom_bounds n j Hn).
  pose proof (belowFrom_bounds n j Hn).
  rewrite u32_id by (unfold is_u32 in *; widths; lia). lia.
Qed.
End sizes.

Lemma sizeDelta_half j : (S j < kNumLevels)%nat → u32 (Z.shiftl 1 (2 * Z.of_nat (S j) - 1)) = half j.
Proof.
  intros Hj. rewrite Z.shiftl_1_l. replace (2 ^ _) with (half j) by (unfold half; f_equal; lia).
  pose proof (half_pos j). pose proof (half_le_word j ltac:(lia)).
  apply u32_id. unfold is_u32. widths. lia.
Qed.

(** A level that has spilled holds what it was given since, by half of the level
    below at a time. *)
Lemma curr_spilled n j :
  (S j < 10)%nat → half (S j) ≤ n →
  belowFrom n (S j) - currFrom n (S j) = round n j - round n (S j) + half j.
Proof.
  intros Hj Hn. cbn [belowFrom]. unfold levelFrom, currFrom.
  rewrite (proj2 (Nat.eqb_neq (S j) 10)), (proj2 (Nat.eqb_neq j 10)) by lia. cbn [lag].
  pose proof (lag_bounds (S j)) as Hl. cbn [lag] in Hl. pose proof (half_pos j).
  pose proof (round_mono n j).
  assert (half (S j) ≤ round n (S j)).
  { unfold round. assert (1 ≤ n / half (S j)); [|nia].
    apply Z.div_le_lower_bound; [apply half_pos|lia]. }
  lia.
Qed.

Lemma mask_zero n l :
  is_u32 n → (l < kNumLevels)%nat → (mask n (half l) =? 0) = (n <? half l).
Proof.
  intros Hn Hl. rewrite mask_half by done. pose proof (half_pos l).
  assert (0 ≤ n) by (unfold is_u32 in Hn; lia).
  destruct (Z.ltb_spec n (half l)).
  - rewrite Z.div_small by lia. apply Z.eqb_eq. lia.
  - apply Z.eqb_neq. assert (1 ≤ n / half l); [|nia]. apply Z.div_le_lower_bound; lia.
Qed.

Lemma mask_size_zero n l :
  is_u32 n → (l < kNumLevels)%nat → (mask n (2 * half l) =? 0) = (n <? 2 * half l).
Proof.
  intros Hn Hl. rewrite mask_size by done. pose proof (half_pos l).
  assert (0 ≤ n) by (unfold is_u32 in Hn; lia).
  destruct (Z.ltb_spec n (2 * half l)).
  - rewrite Z.div_small by lia. apply Z.eqb_eq. lia.
  - apply Z.eqb_neq. assert (1 ≤ n / (2 * half l)); [|nia]. apply Z.div_le_lower_bound; lia.
Qed.

(** The tests of [sizeOfCurr] for a multiple of half a level. *)
Lemma multiple_test n l :
  is_u32 n → (l < kNumLevels)%nat →
  (mask n (half l) =? n) || (mask n (2 * half l) =? n) = (n =? round n l).
Proof.
  intros Hn Hl. rewrite mask_half, mask_size by done. fold (round n l). pose proof (half_pos l).
  destruct (Z.eqb_spec n (round n l)) as [He|He].
  - rewrite <-He, Z.eqb_refl. done.
  - apply orb_false_iff. split; apply Z.eqb_neq; [done|]. intros H2. apply He.
    apply round_eq; [done|]. apply mod_half_size, round_eq; [lia|done].
Qed.

(** One call of [sizeOfCurr] on a level above the first. *)
Lemma sizeOf_curr_step fuel n j :
  is_u32 n → 0 < n → (S j < kNumLevels)%nat →
  sizeOf (S fuel) false n (S j) =
  if negb (S j =? 10)%nat && negb (n <? half (S j)) then
    if n =? round n (S j) then Ok (half j)
    else
      curr ← sizeOf fuel false (previous n j) (S j);
      if n =? round n j then mret (u32 (curr + half j)) else mret curr
  else
    blsize ← sumLevels (λ l, c ← sizeOf fuel false n l; s ← sizeOf fuel true n l;
                             mret (u32 (c + s))) (S j);
    mret (u32 (n - blsize)).
Proof.
  intros Hu Hn Hj. cbn [sizeOf].
  rewrite (proj2 (Z.eqb_neq n 0)), (proj2 (Nat.ltb_lt _ _) Hj) by lia. cbn [negb cassert mbind res_bind].
  rewrite (proj2 (Nat.eqb_neq (S j) 0)), levelSize_Ok, levelHalf_Ok by lia. cbn [mbind res_bind].
  replace (S j - 1)%nat with j by lia. rewrite levelSize_Ok, levelHalf_Ok by lia.
  cbn [mbind res_bind]. rewrite mask_zero, !multiple_test, previous_mask, sizeDelta_half by (done || lia).
  done.
Qed.

Lemma sizeOf_spilled j b : (S j < 10)%nat →
  ∀ n fuel, is_u32 n → half (S j) ≤ n → lookBack n (S j) = b → (b < fuel)%nat →
  sizeOf fuel false n (S j) = Ok (round n j - round n (S j) + half j).
Proof.
  intros Hj. induction b as [|b IH]; intros n fuel Hu Hn Hb Hf;
    (destruct fuel as [|fuel]; [lia|]); pose proof (half_pos (S j)); pose proof (half_pos j).
  all: rewrite sizeOf_curr_step by (done || lia || (unfold kNumLevels; lia)).
  all: rewrite (proj2 (Nat.eqb_neq (S j) 10)), (proj2 (Z.ltb_ge _ _)) by lia; cbn [negb andb].
  all: destruct (Z.eqb_spec n (round n (S j))) as [He|He].
  all: try (rewrite (round_multiple n j (4 * (n / half (S j))))
         by (unfold round in He; rewrite half_S in He at 1; lia); f_equal; lia).
  all: destruct (previous_spec n j Hn He) as (Hprev & Hr & Hrj & Hback).
  { lia. }
  pose proof (round_bounds n (S j)). rewrite half_S in *.
  assert (is_u32 (previous n j)) as Hup by (unfold is_u32 in *; lia).
  rewrite (IH (previous n j) fuel) by (done || lia). cbn [mbind res_bind]. rewrite Hr, Hrj.
  unfold previous in *. destruct (Z.eqb_spec n (round n j)) as [He'|He']; cbn [mret res_ret].
  - rewrite u32_id by (unfold is_u32 in *; widths; lia). f_equal. lia.
  - done.
Qed.

Lemma sized_curr n l :
  0 < n → is_u32 n → (l < kNumLevels)%nat → (∀ j, (j < l)%nat → sized n j) →
  ∀ fuel, (6 * l + 5 ≤ fuel)%nat → sizeOf fuel false n l = Ok (belowFrom n l - currFrom n l).
Proof.
  intros Hn Hu Hl IH fuel Hf. destruct fuel as [|fuel]; [lia|].
  pose proof (belowFrom_bounds n l Hn) as Hb. destruct l as [|j].
  { cbn [sizeOf]. rewrite (proj2 (Z.eqb_neq n 0)) by lia. cbn. unfold currFrom, round. cbn.
    change (half 0) with 2. destruct (Z.eqb_spec n 1) as [->|]; [done|]. f_equal.
    pose proof (Z.div_mod n 2 ltac:(lia)). pose proof (Z.mod_pos_bound n 2 ltac:(lia)). lia. }
  destruct (negb (S j =? 10)%nat && negb (n <? half (S j))) eqn:Hc.
  - apply andb_true_iff in Hc as [H10%negb_true_iff%Nat.eqb_neq Hh%negb_true_iff%Z.ltb_ge].
    unfold kNumLevels in Hl. rewrite curr_spilled by lia.
    pose proof (lookBack_le n (S j)). apply (sizeOf_spilled j (lookBack n (S j))); lia || done.
  - rewrite sizeOf_curr_step, Hc by (done || lia).
    rewrite below_sized by (done || lia). cbn [mbind res_bind mret res_ret].
    rewrite u32_id by (unfold is_u32 in *; widths; lia). f_equal.
    unfold currFrom. destruct (S j =? 10)%nat; [lia|]. cbn in Hc.
    apply negb_false_iff, Z.ltb_lt in Hc. rewrite round_zero by lia.
    pose proof (lag_bounds (S j)). lia.
Qed.

Lemma sized_all n l : 0 < n → is_u32 n → (l < kNumLevels)%nat → sized n l.
Proof.
  intros Hn Hu. induction l as [l IH] using lt_wf_ind. intros Hl fuel Hf.
  assert (∀ j, (j < l)%nat → sized n j) as IH' by (intros; apply IH; lia).
  pose proof (sized_curr n l Hn Hu Hl IH') as Hcurr.
  split; [apply Hcurr; lia|]. destruct fuel as [|fuel]; [lia|]. cbn [sizeOf].
  rewrite (proj2 (Z.eqb_neq n 0)), (proj2 (Nat.ltb_lt _ _) Hl) by lia.
  cbn [negb cassert mbind res_bind]. change (kNumLevels - 1)%nat with 10%nat.
  pose proof (levelFrom_bounds n l Hn) as Hb. pose proof (currFrom_below n l Hn Hl) as Hcb.
  pose proof (belowFrom_bounds n l Hn) as Hbb.
  destruct (l =? 10)%nat eqn:H10.
  { unfold levelFrom, currFrom. by rewrite H10. }
  rewrite levelSize_Ok by done. cbn [mbind res_bind]. rewrite mask_size_zero by done.
  pose proof (half_pos l). pose proof (lag_bounds l). pose proof (round_bounds n l).
  destruct (Z.ltb_spec n (2 * half l)) as [Hlt|Hge]; cbn [negb].
  - rewrite below_sized by (done || lia). cbn [mbind res_bind].
    rewrite Hcurr by lia. cbn [mbind res_bind mret res_ret].
    rewrite (u32_id (_ + _)) by (unfold is_u32 in *; widths; lia).
    rewrite u32_id by (unfold is_u32 in *; widths; lia). f_equal.
    unfold levelFrom, currFrom in *. rewrite H10 in *.
    assert (round n l ≤ half l); [|lia]. unfold round.
    assert (n / half l < 2); [apply Z.div_lt_upper_bound; lia|]. nia.
  - rewrite levelHalf_Ok by done. f_equal. unfold levelFrom, currFrom in *. rewrite H10 in *.
    assert (2 * half l ≤ round n l); [|lia].
    unfold round. assert (2 ≤ n / half l); [|nia]. apply Z.div_le_lower_bound; lia.
Qed.

Lemma sizes_Ok n l :
  0 < n → is_u32 n → (l < kNumLevels)%nat →
  sizeOfCurr n l = Ok (belowFrom n l - currFrom n l) ∧
  sizeOfSnap n l = Ok (currFrom n l - levelFrom n l).
Proof.
  intros Hn Hu Hl. apply (sized_all n l Hn Hu Hl). unfold sizeFuel, kNumLevels in *. lia.
Qed.

Lemma sizeOfLevel_Ok n l :
  0 < n → is_u32 n → (l < kNumLevels)%nat →
  sizeOfLevel n l = Ok (belowFrom n l - belowFrom n (S l)).
Proof.
  intros Hn Hu Hl. unfold sizeOfLevel. destruct (sizes_Ok n l Hn Hu Hl) as [-> ->]. cbn.
  pose proof (currFrom_below n l Hn Hl). pose proof (levelFrom_bounds n l Hn).
  pose proof (belowFrom_bounds n l Hn).
  rewrite u32_id by (unfold is_u32 in *; widths; lia). f_equal. lia.
Qed.

(** ** How the ranges move *)

(** A level that spills: its snap takes over what its current bucket had. *)
Lemma spill_from n l :
  0 < n → (l < 10)%nat → spills n l = true →
  levelFrom n l = currFrom (n - 1) l ∧ currFrom n l = belowFrom (n - 1) l.
Proof.
  intros Hn Hl Hs.
  assert (∀ j, (j ≤ l)%nat → round n j = n ∧ round (n - 1) j = n - half j) as Hround.
  { intros j Hj. assert (spills n j = true) as Hsj.
    { induction Hj as [|l Hj IH]; [done|]. apply IH; [lia|].
      apply spills_below; [unfold kNumLevels; lia|done]. }
    unfold spills in Hsj. apply andb_true_iff in Hsj as [_ Hm%Z.eqb_eq].
    apply round_eq in Hm; [|apply half_pos]. fold (round n j) in Hm.
    split; [done|]. rewrite round_pred, <-Hm, Z.eqb_refl. done. }
  destruct (Hround l) as [H1 H2]; [lia|]. unfold levelFrom, currFrom, belowFrom.
  rewrite (proj2 (Nat.eqb_neq l 10)), H1, H2 by lia. split; [lia|].
  destruct l as [|j]; [cbn [lag]; lia|]. destruct (Hround j) as [_ H4]; [lia|].
  unfold levelFrom. rewrite (proj2 (Nat.eqb_neq j 10)), H4 by lia. cbn [lag]. lia.
Qed.

Lemma no_spill_from n l :
  (l ≤ 10)%nat → spills n l = false →
  levelFrom n l = levelFrom (n - 1) l ∧ currFrom n l = currFrom (n - 1) l.
Proof.
  intros Hl Hs. unfold levelFrom, currFrom. destruct (l =? 10)%nat eqn:H10; [done|].
  apply Nat.eqb_neq in H10. apply no_spill in Hs; [|lia].
  assert (round (n - 1) l = round n l) as ->; [|done].
  unfold round. by rewrite div_pred by (done || apply half_pos).
Qed.

(** The level that spills is not empty. *)
Lemma spill_filled n l :
  0 < n → (l < 10)%nat → spills n l = true → levelFrom n l < currFrom n l.
Proof.
  intros Hn Hl Hs. pose proof (first_spill n l Hn Hs) as Hge. unfold spills in Hs.
  apply andb_true_iff in Hs as [_ Hm%Z.eqb_eq]. apply round_eq in Hm; [|apply half_pos].
  fold (round n l) in Hm. unfold levelFrom, currFrom. rewrite (proj2 (Nat.eqb_neq l 10)) by lia.
  pose proof (lag_half l). pose proof (half_ge l). lia.
Qed.

(** The snap of a level has something once the level has spilled. *)
Lemma snap_filled n l : 0 < n → (l < 10)%nat → levelFrom n l < currFrom n l ↔ half l ≤ n.
Proof.
  intros Hn Hl. unfold levelFrom, currFrom. rewrite (proj2 (Nat.eqb_neq l 10)) by lia.
  pose proof (lag_half l). pose proof (half_ge l). pose proof (lag_bounds l). split; intros Hlt.
  - destruct (Z.lt_ge_cases n (half l)) as [Hs|]; [|done].
    rewrite round_zero in Hlt by lia. lia.
  - assert (half l ≤ round n l); [|lia]. unfold round.
    assert (1 ≤ n / half l); [|nia]. apply Z.div_le_lower_bound; lia.
Qed.

(** The ledger of the start of a merge determines its input. *)
Lemma withEmpty_start n j : withEmpty (round n j) (S j) = withEmpty n (S j).
Proof.
  unfold withEmpty, round. replace (S j - 1)%nat with j by lia. do 3 f_equal.
  rewrite (Z.mul_comm (half j)), Z.div_mul; [done|]. pose proof (half_pos j). lia.
Qed.

(** ** The sizes *)

Lemma bind_Ok {A B} (a : A) (f : A → res B) : Ok a ≫= f = f a.
Proof. done. Qed.

Lemma sum_sizes_Ok n l :
  0 < n → is_u32 n → (l ≤ kNumLevels)%nat →
  sumLevels (sizeOfLevel n) l = Ok (n + 1 - belowFrom n l).
Proof.
  intros Hn Hu Hl. apply sumLevels_Ok; [done|done|]. intros j Hj.
  apply sizeOfLevel_Ok; [done|done|lia].
Qed.

Lemma oldestLedgerInCurr_Ok n l :
  0 < n → is_u32 n → (l < kNumLevels)%nat →
  oldestLedgerInCurr n l = Ok (if belowFrom n l - currFrom n l =? 0 then UINT32_MAX else currFrom n l).
Proof.
  intros Hn Hu Hl. unfold oldestLedgerInCurr.
  rewrite (proj2 (Z.eqb_neq n 0)), (proj2 (Nat.ltb_lt _ _) Hl) by lia.
  rewrite !cassert_true, !bind_Ok by done. rewrite (proj1 (sizes_Ok n l Hn Hu Hl)), bind_Ok.
  pose proof (currFrom_below n l Hn Hl). pose proof (levelFrom_bounds n l Hn).
  pose proof (belowFrom_bounds n l Hn).
  destruct (Z.eqb_spec (belowFrom n l - currFrom n l) 0); [done|].
  rewrite sum_sizes_Ok by (done || lia). rewrite bind_Ok. unfold mret, res_ret.
  rewrite (u32_id (_ - _)), u32_id by (unfold is_u32 in *; widths; lia). f_equal. lia.
Qed.

Lemma oldestLedgerInSnap_Ok n l :
  0 < n → is_u32 n → (l < kNumLevels)%nat →
  oldestLedgerInSnap n l = Ok (if currFrom n l - levelFrom n l =? 0 then UINT32_MAX else levelFrom n l).
Proof.
  intros Hn Hu Hl. unfold oldestLedgerInSnap.
  rewrite (proj2 (Z.eqb_neq n 0)), (proj2 (Nat.ltb_lt _ _) Hl) by lia.
  rewrite !cassert_true, !bind_Ok by done. rewrite (proj2 (sizes_Ok n l Hn Hu Hl)), bind_Ok.
  pose proof (levelFrom_bounds n l Hn).
  destruct (Z.eqb_spec (currFrom n l - levelFrom n l) 0); [done|].
  rewrite (sum_sizes_Ok n (S l)) by (done || lia). rewrite bind_Ok. unfold mret, res_ret. cbn [belowFrom].
  rewrite (u32_id (_ - _)), u32_id by (unfold is_u32 in *; widths; lia). f_equal. lia.
Qed.

(** C39: for every ledger and level the recursive computation of the sizes of the
    buckets terminates within its fuel without an assertion failing or a word
    overflowing, the sizes of all buckets add up to the number of ledgers, and the
    oldest ledgers reported for the current bucket and the snap of a level are those
    where the ledgers of the younger buckets end. *)
Theorem sizes_partition n :
  0 < n → is_u32 n →
  sumLevels (sizeOfLevel n) kNumLevels = Ok n ∧
  ∀ l, (l < kNumLevels)%nat → ∃ curr snap below,
    sizeOfCurr n l = Ok curr ∧ sizeOfSnap n l = Ok snap ∧ sumLevels (sizeOfLevel n) l = Ok below ∧
    0 ≤ curr ∧ 0 ≤ snap ∧ 0 ≤ below ∧ below + curr + snap ≤ n ∧
    oldestLedgerInCurr n l = Ok (if curr =? 0 then UINT32_MAX else n - below - curr + 1) ∧
    oldestLedgerInSnap n l = Ok (if snap =? 0 then UINT32_MAX else n - below - curr - snap + 1).
Proof.
  intros Hn Hu. split.
  { rewrite sum_sizes_Ok by (done || lia). f_equal. unfold kNumLevels. cbn [belowFrom].
    unfold levelFrom. rewrite Nat.eqb_refl. lia. }
  intros l Hl. destruct (sizes_Ok n l Hn Hu Hl) as [Hc Hs].
  pose proof (currFrom_below n l Hn Hl). pose proof (levelFrom_bounds n l Hn).
  pose proof (belowFrom_bounds n l Hn).
  exists (belowFrom n l - currFrom n l), (currFrom n l - levelFrom n l), (n + 1 - belowFrom n l).
  split; [exact Hc|]. split; [exact Hs|]. split; [apply sum_sizes_Ok; [done|done|lia]|].
  rewrite oldestLedgerInCurr_Ok, oldestLedgerInSnap_Ok by done.
  split_and!; [lia..| |]; destruct (_ =? 0); f_equal; lia.
Qed.

Lemma sizes_partition_witness :
  sumLevels (sizeOfLevel 37) kNumLevels = Ok 37 ∧
  sizeOfCurr 37 2 = Ok 8 ∧ oldestLedgerInCurr 37 2 = Ok 12.
Proof.
  destruct (sizes_partition 37) as [Hsum Hall]; [lia|unfold is_u32; widths; lia|].
  destruct (Hall 2%nat) as (curr & snap & below & Hc & _ & Hb & _ & _ & _ & _ & Ho & _).
  { unfold kNumLevels. lia. }
  assert (Ok curr = Ok 8) as [= ->] by (rewrite <-Hc; vm_compute; reflexivity).
  assert (Ok below = Ok 18) as [= ->] by (rewrite <-Hb; vm_compute; reflexivity).
  split; [exact Hsum|]. split; [exact Hc|exact Ho].
Defined.
