(* ===== verification/BucketFresh.v ===== *)
(** * Fresh buckets

    [Bucket.fresh] turns the entries that a ledger created, updated and erased into a
    well-formed bucket which has the record of each of them. *)

From S2P Require Import Prelude QuorumSet QuorumSetProps LedgerEntries Bucket BucketMerge.

Definition Ledger : Type := LedgerKey → option LedgerEntry.

(** What a ledger does: the entries created, those updated and the keys erased. *)
Record Batch : Type := mkBatch {
  initEntries : list LedgerEntry;
  liveEntries : list LedgerEntry;
  deadEntries : list LedgerKey
}.

Definition batchKeys (b : Batch) : list LedgerKey :=
  (LedgerEntryKey <$> initEntries b ++ liveEntries b) ++ deadEntries b.

Definition entryWith (k : LedgerKey) (es : list LedgerEntry) : option LedgerEntry :=
  snd <$> list_find (λ e, LedgerEntryKey e = k) es.

(** The ledger after the batch. *)
Definition applyBatch (b : Batch) (σ : Ledger) : Ledger := λ k,
  match entryWith k (initEntries b ++ liveEntries b) with
  | Some e => Some e
  | None => if decide (k ∈ deadEntries b) then None else σ k
  end.

(** An entry is touched once, and what is created was not there. *)
Definition validBatch (b : Batch) (σ : Ledger) : Prop :=
  NoDup (batchKeys b) ∧ ∀ e, e ∈ initEntries b → σ (LedgerEntryKey e) = None.

(** ** Sorting the records *)

Lemma IdCmp_total a b :
  is_entry a → is_entry b → bucketEntryKey a ≠ bucketEntryKey b →
  BucketEntryIdCmp a b = false → BucketEntryIdCmp b a = true.
Proof.
  intros [x Hx] [y Hy] Hne Hab. destruct (BucketEntryIdCmp b a) eqn:Hba; [done|].
  destruct Hne. rewrite Hx, Hy. f_equal. by apply (IdCmp_equal a b x y).
Qed.

Lemma insert_elem {A} (lt : A → A → bool) x y l : y ∈ sort_insert lt x l ↔ y = x ∨ y ∈ l.
Proof. by rewrite sort_insert_perm, elem_of_cons. Qed.

Lemma insert_sorted x l :
  is_entry x → (∀ y, y ∈ l → bucketEntryKey y ≠ bucketEntryKey x) → sorted_entries l →
  sorted_entries (sort_insert BucketEntryIdCmp x l).
Proof.
  intros Hx. induction l as [|y l IH]; intros Hne Hs; cbn.
  { apply sorted_cons. split_and!; [done|by intros ? ?%not_elem_of_nil|done]. }
  pose proof Hs as (Hy & Hb & Hs')%sorted_cons. destruct (BucketEntryIdCmp y x) eqn:Hyx.
  - apply sorted_cons. split_and!; [done| |].
    + intros z [->|Hz]%insert_elem; [done|]. by apply Hb.
    + apply IH; [|done]. intros z Hz. apply Hne. by right.
  - assert (BucketEntryIdCmp x y = true) as Hxy.
    { apply IdCmp_total; [done|done| |done]. apply Hne. left. }
    apply sorted_cons. split_and!; [done| |done]. by apply below_cons.
Qed.

Lemma sort_sorted l :
  Forall is_entry l → NoDup (bucketEntryKey <$> l) → sorted_entries (std_sort BucketEntryIdCmp l).
Proof.
  induction l as [|x l IH]; intros He Hd; cbn. { by split; constructor. }
  apply Forall_cons in He as [Hx He]. apply NoDup_cons in Hd as [Hn Hd].
  apply insert_sorted; [done| |by apply IH]. intros y Hy Heq. apply Hn.
  change (y ∈ std_sort BucketEntryIdCmp l) in Hy. rewrite std_sort_perm in Hy.
  apply list_elem_of_fmap. eauto.
Qed.

Lemma sorted_no_adjacent l :
  sorted_entries l → no_adjacent (λ lhs rhs, negb (BucketEntryIdCmp lhs rhs)) l = true.
Proof.
  induction l as [|x l IH]; [done|]. intros (_ & Hb & Hs)%sorted_cons.
  destruct l as [|y l]; [done|]. cbn [no_adjacent]. rewrite (Hb y) by left. cbn. by apply IH.
Qed.

Lemma putAll_Ok v l o es :
  out_is o true v es → sorted_entries l → Forall (legal v) l →
  (∀ x, x ∈ es → below x l) →
  ∃ o', putAll l o = Ok o' ∧ out_is o' true v (es ++ l).
Proof.
  revert o es. induction l as [|e l IH]; intros o es Ho Hs Hl Hb.
  { exists o. by rewrite app_nil_r. }
  apply sorted_cons in Hs as (He & Hbe & Hs). apply Forall_cons in Hl as [Hle Hl].
  destruct (put_Ok o true v es e Ho He Hle) as (o1 & H1 & Ho1).
  { intros x Hx. apply (Hb x Hx). left. }
  replace (if dropped true e then [] else [e]) with [e] in Ho1 by (by destruct e).
  cbn [putAll]. rewrite H1. cbn [mbind res_bind].
  destruct (IH o1 (es ++ [e]) Ho1 Hs Hl) as (o2 & H2 & Ho2).
  { intros x [Hx|Hx]%elem_of_app; [|by apply list_elem_of_singleton in Hx as ->].
    intros y Hy. apply (Hb x Hx). by right. }
  exists o2. split; [done|]. by rewrite <-app_assoc in Ho2.
Qed.

(** ** The records of a batch *)

Definition batchRecords (b : Batch) : list BucketEntry :=
  (INITENTRY <$> initEntries b) ++ (LIVEENTRY <$> liveEntries b) ++ (DEADENTRY <$> deadEntries b).

Lemma batchRecords_keys b : bucketEntryKey <$> batchRecords b = Some <$> batchKeys b.
Proof.
  unfold batchRecords, batchKeys. rewrite !fmap_app, <-!list_fmap_compose, <-app_assoc. done.
Qed.

Lemma batchRecords_entries b : Forall is_entry (batchRecords b).
Proof.
  apply Forall_forall. intros e He. assert (bucketEntryKey e ∈ bucketEntryKey <$> batchRecords b) as Hk
    by (apply list_elem_of_fmap; eauto).
  rewrite batchRecords_keys in Hk. apply list_elem_of_fmap in Hk as (k & Hk & _). by exists k.
Qed.

Lemma find_perm k es es' :
  NoDup (bucketEntryKey <$> es) → es ≡ₚ es' → find k es = find k es'.
Proof.
  intros Hd Hp. induction Hp as [|x l l' Hp IH|x y l|l l2 l3 Hp1 IH1 Hp2 IH2]; [done|..].
  - apply NoDup_cons in Hd as [_ Hd]. rewrite !find_cons. by rewrite IH.
  - rewrite !find_cons. apply NoDup_cons in Hd as [Hn _].
    destruct (decide (bucketEntryKey y = Some k)) as [Hy|], (decide (bucketEntryKey x = Some k)) as [Hx|]; try done.
    destruct Hn. rewrite Hy, <-Hx. left.
  - rewrite IH1 by done. apply IH2. by rewrite <-Hp1.
Qed.

Lemma find_init k l : find k (INITENTRY <$> l) = INITENTRY <$> entryWith k l.
Proof.
  unfold entryWith. induction l as [|e l IH]; [done|]. rewrite fmap_cons, find_cons.
  cbn [bucketEntryKey list_find]. rewrite IH.
  destruct (decide (LedgerEntryKey e = k)) as [->|]; [by rewrite decide_True|].
  rewrite decide_False by congruence. by destruct (list_find _ l) as [[]|].
Qed.

Lemma find_live k l : find k (LIVEENTRY <$> l) = LIVEENTRY <$> entryWith k l.
Proof.
  unfold entryWith. induction l as [|e l IH]; [done|]. rewrite fmap_cons, find_cons.
  cbn [bucketEntryKey list_find]. rewrite IH.
  destruct (decide (LedgerEntryKey e = k)) as [->|]; [by rewrite decide_True|].
  rewrite decide_False by congruence. by destruct (list_find _ l) as [[]|].
Qed.

Lemma find_dead k l :
  find k (DEADENTRY <$> l) = if decide (k ∈ l) then Some (DEADENTRY k) else None.
Proof.
  induction l as [|x l IH].
  { rewrite decide_False; [done|]. apply not_elem_of_nil. }
  rewrite fmap_cons, find_cons. cbn [bucketEntryKey].
  destruct (decide (x = k)) as [->|Hne].
  - rewrite !decide_True; [done|left|done].
  - rewrite decide_False by congruence. rewrite IH.
    apply decide_ext. rewrite elem_of_cons. naive_solver.
Qed.

Lemma entryWith_app k l l' :
  entryWith k (l ++ l') = match entryWith k l with Some e => Some e | None => entryWith k l' end.
Proof.
  unfold entryWith. induction l as [|e l IH]; [done|]. simpl. case_decide; [done|].
  destruct (list_find _ l) as [[]|], (list_find _ (l ++ l')) as [[]|],
    (list_find _ l') as [[]|]; naive_solver.
Qed.

Lemma entryWith_Some k l e : entryWith k l = Some e → e ∈ l ∧ LedgerEntryKey e = k.
Proof.
  unfold entryWith. intros Hf. destruct (list_find _ l) as [[i x]|] eqn:Hl; [|done].
  cbn in Hf. simplify_eq. apply list_find_Some in Hl as (Hx & Hk & _).
  split; [|done]. by eapply list_elem_of_lookup_2.
Qed.

Lemma find_batch k b :
  find k (batchRecords b) =
  match entryWith k (initEntries b) with
  | Some e => Some (INITENTRY e)
  | None =>
      match entryWith k (liveEntries b) with
      | Some e => Some (LIVEENTRY e)
      | None => if decide (k ∈ deadEntries b) then Some (DEADENTRY k) else None
      end
  end.
Proof.
  unfold batchRecords. rewrite !find_app, find_init, find_live, find_dead.
  destruct (entryWith k (initEntries b)); [done|]. by destruct (entryWith k (liveEntries b)).
Qed.

Lemma batch_update b σ k :
  validBatch b σ → update (find k (batchRecords b)) (σ k) = Some (applyBatch b σ k).
Proof.
  intros [_ Hinit]. rewrite find_batch. unfold applyBatch. rewrite entryWith_app.
  destruct (entryWith k (initEntries b)) as [e|] eqn:Hi; cbn.
  { apply entryWith_Some in Hi as [He <-]. by rewrite Hinit. }
  destruct (entryWith k (liveEntries b)) as [e|]; cbn; [done|].
  by destruct (decide (k ∈ deadEntries b)).
Qed.

Lemma fresh_Ok P b σ :
  FIRST_PROTOCOL_SUPPORTING_INITENTRY_AND_METAENTRY ≤ P → validBatch b σ →
  ∃ es, fresh P (initEntries b) (liveEntries b) (deadEntries b) = Ok (header P ++ es) ∧
    wf_bucket P es (header P ++ es) ∧
    ∀ k, update (find k es) (σ k) = Some (applyBatch b σ k).
Proof.
  intros HP Hb. pose proof Hb as [Hd _].
  assert (NoDup (bucketEntryKey <$> batchRecords b)) as Hnd.
  { rewrite batchRecords_keys. by apply NoDup_fmap_2; [apply _|]. }
  set (es := std_sort BucketEntryIdCmp (batchRecords b)).
  assert (sorted_entries es) as Hs by (apply sort_sorted; [apply batchRecords_entries|done]).
  assert (Forall (legal P) es) as Hl by (apply Forall_forall; intros; by apply legal_new).
  destruct (openOutput_Ok true P) as (o & Ho & Hout).
  destruct (putAll_Ok P es o [] Hout Hs Hl) as (o' & Ho' & Hout' & _).
  { by intros ? ?%not_elem_of_nil. }
  exists es. split_and!.
  - unfold fresh, convertToBucketEntry. rewrite (proj2 (Z.leb_le _ _) HP).
    change ((λ e, INITENTRY e) <$> initEntries b) with (INITENTRY <$> initEntries b).
    fold (batchRecords b). fold es. rewrite sorted_no_adjacent by done. cbn [cassert mbind res_bind mret res_ret].
    rewrite Ho. cbn [mbind res_bind]. rewrite Ho'. cbn [mbind res_bind mret res_ret]. by rewrite Hout'.
  - split_and!; [done..|]. lia.
  - intros k. rewrite <-(batch_update b σ k Hb). f_equal. symmetry.
    apply find_perm; [done|]. symmetry. apply std_sort_perm.
Qed.
