(* ===== verification/BucketListProps.v ===== *)
(** * The bucket list holds the ledger

    Adding the batches of the ledgers one after the other never throws, and at every
    ledger each bucket of the list takes the ledger from the state before the first
    to the state after the last of the ledgers that the size computation says it
    holds.  Shadows were removed with protocol 12, the first that is covered. *)

From S2P Require Import Prelude QuorumSet LedgerEntries Bucket BucketMerge BucketList.
From S2P Require Import BucketLevels BucketFresh.

(** ** Buckets *)

Definition version (b : Bucket) : Z := match b with METAENTRY v :: _ => v | _ => 0 end.
Definition records (b : Bucket) : list BucketEntry :=
  match b with METAENTRY _ :: es => es | _ => b end.
Definition wf (b : Bucket) : Prop := wf_bucket (version b) (records b) b.

Lemma wf_header v es b : wf_bucket v es b → version b = v ∧ records b = es.
Proof.
  intros (-> & Hs & _ & Hv). unfold header.
  destruct (Z.leb_spec FIRST_PROTOCOL_SUPPORTING_INITENTRY_AND_METAENTRY v); [done|].
  rewrite Hv by done. destruct es as [|e es]; [done|]. apply sorted_cons in Hs as ([k Hk] & _).
  by destruct e.
Qed.

Lemma wf_intro v es b : wf_bucket v es b → wf b ∧ version b = v ∧ records b = es.
Proof. intros Hb. destruct (wf_header v es b Hb) as [<- <-]. done. Qed.

Lemma wf_nil : wf [].
Proof. split_and!; [done|by split; constructor|constructor|done]. Qed.

Lemma wf_version b : wf b → version b = 0 ∨ FIRST_PROTOCOL_SUPPORTING_INITENTRY_AND_METAENTRY ≤ version b.
Proof.
  intros (_ & _ & _ & Hv).
  destruct (Z.lt_ge_cases (version b) FIRST_PROTOCOL_SUPPORTING_INITENTRY_AND_METAENTRY); auto.
Qed.

Lemma wf_find_records b k : wf b → find k b = find k (records b).
Proof.
  intros (Hb & _). rewrite Hb at 1. rewrite find_app. unfold header. by destruct (_ <=? _).
Qed.

Lemma getBucketVersion_Ok b : wf b → getBucketVersion b = Ok (version b).
Proof.
  intros Hb. destruct (open_Ok _ _ _ Hb) as (it & Hit & _ & _ & Hv & _).
  unfold getBucketVersion. rewrite Hit. cbn. by rewrite Hv.
Qed.

(** The version bound of a merge only matters when it is exceeded. *)
Lemma merge_protocol P c s keep :
  wf c → wf s → version c ≤ version s → version s ≤ P →
  merge false P c s [] keep = merge false (version s) c s [] keep.
Proof.
  intros Hc Hs Hle HP. unfold merge.
  destruct (open_Ok _ _ _ Hc) as (it & -> & _ & _ & Hvc & _).
  destruct (open_Ok _ _ _ Hs) as (it' & -> & _ & _ & Hvs & _). cbn [mbind res_bind mapM_res mret res_ret].
  unfold calculateMergeProtocolVersion. cbn [fmap list_fmap foldl]. rewrite Hvc, Hvs.
  rewrite Z.max_r, Z.ltb_irrefl, (proj2 (Z.ltb_ge P _)) by lia. done.
Qed.

(** ** Ranges of ledgers *)

Section ledgers.
Context (σ : Z → Ledger).

(** Bucket [b] takes the ledger from [lo - 1] to [hi - 1]. *)
Definition holds (lo hi : Z) (b : Bucket) : Prop :=
  ∀ k, update (find k b) (σ (lo - 1) k) = Some (σ (hi - 1) k).

Record bucket_for (lo hi : Z) (b : Bucket) : Prop := {
  bf_wf : wf b;
  bf_holds : holds lo hi b;
  bf_le : lo ≤ hi;
  bf_version : lo < hi → FIRST_PROTOCOL_SHADOWS_REMOVED ≤ version b;
  bf_empty : lo = hi → b = []
}.

Lemma bucket_for_nil lo : bucket_for lo lo [].
Proof. split; [apply wf_nil|done|lia|lia|done]. Qed.

Lemma bucket_for_version lo hi b : bucket_for lo hi b → 0 ≤ version b.
Proof.
  intros Hb. destruct (wf_version b (bf_wf _ _ _ Hb)) as [->|Hv]; [lia|].
  unfold FIRST_PROTOCOL_SUPPORTING_INITENTRY_AND_METAENTRY in Hv. lia.
Qed.

Lemma update_merged keep keepDead o n s s' :
  (keepDead = false → s = None) →
  update (combine o n) s = Some s' → update (merged keep keepDead [] o n) s = Some s'.
Proof.
  intros Hd. unfold merged. destruct (combine o n) as [e|]; [|done].
  assert (elided keep keepDead [] e = dropped keepDead e) as ->.
  { unfold elided, shadowed. destruct (bucketEntryKey e); cbn; by rewrite andb_false_r. }
  destruct e as [w|x|d|x]; cbn; try done. destruct keepDead; cbn; [done|].
  by rewrite (Hd eq_refl).
Qed.

(** Buckets of adjacent ranges merge to the bucket of the whole range. *)
Lemma merge_ranges lo mid hi c s keepDead :
  bucket_for lo mid c → bucket_for mid hi s → mid < hi → version c ≤ version s →
  (keepDead = false → ∀ k, σ (lo - 1) k = None) →
  ∃ b, merge false (version s) c s [] keepDead = Ok b ∧ bucket_for lo hi b ∧ version b = version s.
Proof.
  intros Hc Hs Hlt Hv Hdead. pose proof (bf_version _ _ _ Hs Hlt) as H12.
  assert (∀ k, compatible (find k (records c)) (find k (records s))) as Hcomp.
  { intros k. rewrite <-!wf_find_records by (apply Hc || apply Hs).
    eapply compatible_replay; [apply Hc|apply Hs|]. apply find_not_meta. }
  destruct (merge_Ok (version s) (version c) (records c) c (version s) (records s) s [] []
    (version s) true keepDead) as (es & Hrun & Hwf & Hf); [apply Hc|apply Hs|constructor| |done|].
  { unfold calculateMergeProtocolVersion. cbn. rewrite Z.max_r, Z.ltb_irrefl by done.
    rewrite andb_false_r. unfold FIRST_PROTOCOL_SHADOWS_REMOVED in H12.
    unfold FIRST_PROTOCOL_SUPPORTING_INITENTRY_AND_METAENTRY.
    by rewrite (proj2 (Z.ltb_ge _ _)) by lia. }
  exists (header (version s) ++ es). split; [done|].
  destruct (wf_intro _ _ _ Hwf) as (Hwf' & Hver & Hrec). split; [|done].
  pose proof (bf_le _ _ _ Hc). split; [done| |lia|by rewrite Hver|lia].
  intros k. rewrite wf_find_records, Hrec, Hf by done.
  rewrite <-!wf_find_records by (apply Hc || apply Hs).
  apply update_merged; [auto|]. eapply update_combine; [apply find_not_meta|apply Hc|apply Hs].
Qed.

(** ** Levels *)

Context {Hash : Type} `{EqDecision Hash}.
Notation FutureBucket := (FutureBucket Hash).
Notation BucketLevel := (BucketLevel Hash).
Notation BucketList := (BucketList Hash).

(** What a merge in progress will give. *)
Definition outcome (fb : FutureBucket) : option (res Bucket) :=
  match fb with
  | FB_LIVE_INPUTS _ _ _ f => Some f
  | FB_LIVE_OUTPUT b => Some (Ok b)
  | _ => None
  end.

Definition mergeInput (n : Z) (i : nat) (curr : Bucket) : Bucket :=
  if withEmpty n i then [] else curr.

(** The merge of level [S j]: once level [j] has spilled it is that of the snap. *)
Definition linked (n : Z) (j : nat) (next : FutureBucket) (curr prevSnap : Bucket) : Prop :=
  (levelFrom n j < currFrom n j →
   outcome next = Some (merge false (version prevSnap) (mergeInput n (S j) curr) prevSnap []
                          (keepDeadEntries (S j)))) ∧
  (currFrom n j ≤ levelFrom n j → next = FB_CLEAR).

Section bounded.
Context (P : Z) (HP : FIRST_PROTOCOL_SHADOWS_REMOVED ≤ P) (Hσ0 : ∀ k, σ 0 k = None).

(** Level [l] at ledger [n]. *)
Record level_at (n : Z) (l : nat) (L : BucketLevel) : Prop := {
  la_snap : bucket_for (levelFrom n l) (currFrom n l) (mSnap L);
  la_curr : bucket_for (currFrom n l) (belowFrom n l) (mCurr L);
  la_version : version (mSnap L) ≤ version (mCurr L);
  la_bound : version (mCurr L) ≤ P
}.

(** Levels [j] and [S j] at ledger [n]. *)
Record pair_at (n : Z) (j : nat) (L' L : BucketLevel) : Prop := {
  pa_version : version (mCurr L) ≤ version (mSnap L');
  pa_linked : linked n j (mNextCurr L) (mCurr L) (mSnap L')
}.

Record list_at (n : Z) (levels : BucketList) : Prop := {
  li_length : length levels = kNumLevels;
  li_level : ∀ l L, levels !! l = Some L → level_at n l L;
  li_pair : ∀ j L' L, levels !! j = Some L' → levels !! S j = Some L → pair_at n j L' L;
  li_first : ∀ L, levels !! 0%nat = Some L → mNextCurr L = FB_CLEAR
}.

(** Level [i] at ledger [n] when the loop of [addBatch] comes to it: it has been
    snapped if it spills, but not been given what is pending. *)
Record halfway (n : Z) (i : nat) (L : BucketLevel) : Prop := {
  hw_snap : bucket_for (levelFrom n i) (currFrom n i) (mSnap L);
  hw_curr : bucket_for (currFrom n i) (belowFrom (n - 1) i) (mCurr L);
  hw_version : spills n i = false → version (mSnap L) ≤ version (mCurr L);
  hw_bound : version (mCurr L) ≤ P ∧ version (mSnap L) ≤ P
}.

Record mid_at (n : Z) (i : nat) (levels : BucketList) : Prop := {
  mi_length : length levels = kNumLevels;
  mi_above : ∀ l L, levels !! l = Some L → (i < l)%nat → level_at n l L;
  mi_pair_above : ∀ j L' L, levels !! j = Some L' → levels !! S j = Some L → (i ≤ j)%nat →
    pair_at n j L' L;
  mi_at : ∀ L, levels !! i = Some L → halfway n i L;
  mi_pair_at : ∀ j L' L, i = S j → levels !! j = Some L' → levels !! i = Some L →
    pair_at (n - 1) j L' L ∧ version (mSnap L) ≤ version (mSnap L');
  mi_below : ∀ l L, levels !! l = Some L → (l < i)%nat → level_at (n - 1) l L;
  mi_pair_below : ∀ j L' L, levels !! j = Some L' → levels !! S j = Some L → (S j < i)%nat →
    pair_at (n - 1) j L' L;
  mi_first : ∀ L, levels !! 0%nat = Some L → mNextCurr L = FB_CLEAR
}.

Lemma linked_no_spill n j next curr snap :
  (j < 10)%nat → spills n j = false → linked (n - 1) j next curr snap → linked n j next curr snap.
Proof.
  intros Hj Hs. unfold linked, mergeInput. destruct (no_spill_from n j ltac:(lia) Hs) as [-> ->].
  by rewrite withEmpty_no_spill.
Qed.

(** A level that is not spilled into stays as it is. *)
Lemma mid_no_spill n j levels :
  (j < 10)%nat → spills n j = false → mid_at n (S j) levels → mid_at n j levels.
Proof.
  intros Hj Hs Hm. destruct (no_spill_from n j ltac:(lia) Hs) as [Hlf Hcf].
  assert (spills n (S j) = false) as Hs'.
  { destruct (spills n (S j)) eqn:E; [|done].
    rewrite (spills_below n j) in Hs; [done|unfold kNumLevels; lia|done]. }
  split; [apply Hm|..].
  - intros l L HL Hl. destruct (decide (l = S j)) as [->|]; [|apply (mi_above _ _ _ Hm); [done|lia]].
    destruct (mi_at _ _ _ Hm L HL) as [H1 H2 H3 [H4 _]]. split; [done| |auto|done].
    cbn [belowFrom] in *. by rewrite Hlf.
  - intros j0 L' L HL' HL Hj0. destruct (decide (j0 = j)) as [->|];
      [|apply (mi_pair_above _ _ _ Hm); [done|done|lia]].
    destruct (mi_pair_at _ _ _ Hm j L' L eq_refl HL' HL) as [[Hv Hl] _].
    split; [done|]. by apply linked_no_spill.
  - intros L HL. destruct (mi_below _ _ _ Hm j L HL) as [H1 H2 H3 H4]; [lia|].
    split; [by rewrite Hlf, Hcf|by rewrite Hcf|done|lia].
  - intros j0 L' L -> HL' HL. destruct (mi_pair_below _ _ _ Hm j0 L' L HL' HL) as [Hv Hl]; [lia|].
    split; [done|]. pose proof (la_version _ _ _ (mi_below _ _ _ Hm (S j0) L HL ltac:(lia))). lia.
  - intros l L HL Hl. apply (mi_below _ _ _ Hm); [done|lia].
  - intros j0 L' L HL' HL Hj0. apply (mi_pair_below _ _ _ Hm); [done|done|lia].
  - apply Hm.
Qed.

(** The current bucket of a level that is spilled into is the input of its merge. *)
Lemma spilled_input n j L :
  0 < n → (j < 10)%nat → spills n j = true → halfway n (S j) L →
  mergeInput (n - 1) (S j) (mCurr L) = mCurr L.
Proof.
  intros Hn Hj Hs Hh. unfold mergeInput. rewrite withEmpty_spill by done.
  destruct (spills n (S j)) eqn:Hs'; [|done]. symmetry. apply (bf_empty _ _ _ (hw_curr _ _ _ Hh)).
  assert (S j < 10)%nat.
  { unfold spills in Hs'. apply andb_true_iff in Hs' as [H10%negb_true_iff%Nat.eqb_neq _]. lia. }
  by apply (spill_from n (S j)).
Qed.

Lemma keepDead_first n i :
  (i < kNumLevels)%nat → keepDeadEntries i = false → ∀ k, σ (currFrom n i - 1) k = None.
Proof.
  unfold keepDeadEntries, kNumLevels. intros Hi Hk%Nat.ltb_ge k.
  assert (i = 10)%nat as -> by lia. apply Hσ0.
Qed.

(** Committing what is pending. *)
Lemma commit_Ok n j L' L :
  0 < n → (j < 10)%nat → spills n j = true → halfway n (S j) L →
  level_at (n - 1) j L' → pair_at (n - 1) j L' L →
  ∃ b, commit L = Ok (mkLevel b (mSnap L) FB_CLEAR) ∧
    bucket_for (currFrom n (S j)) (belowFrom n (S j)) b ∧ version b = version (mSnap L').
Proof.
  intros Hn Hj Hs Hh HL' [Hv [Hlive Hclear]]. pose proof (spilled_input n j L Hn Hj Hs Hh) as Hin.
  destruct (spill_from n j Hn Hj Hs) as [Hlf _]. pose proof (hw_curr _ _ _ Hh) as Hc.
  pose proof (la_snap _ _ _ HL') as Hsn. cbn [belowFrom] in *. rewrite Hlf.
  destruct (Z.lt_ge_cases (levelFrom (n - 1) j) (currFrom (n - 1) j)) as [Hlt|Hge].
  - specialize (Hlive Hlt). rewrite Hin in Hlive.
    destruct (merge_ranges _ _ _ _ _ (keepDeadEntries (S j)) Hc Hsn Hlt Hv) as (b & Hb & Hbf & Hbv).
    { apply keepDead_first. unfold kNumLevels. lia. }
    exists b. split; [|done]. rewrite Hb in Hlive. unfold commit.
    destruct (mNextCurr L) as [| | |out|c s sh f]; try done; cbn in Hlive |- *; by simplify_eq.
  - specialize (Hclear Hge). exists (mCurr L).
    assert (levelFrom (n - 1) j = currFrom (n - 1) j) as Heq by (pose proof (bf_le _ _ _ Hsn); lia).
    split_and!.
    + unfold commit. rewrite Hclear. cbn. by destruct L; cbn in *; subst.
    + by rewrite <-Heq.
    + pose proof (bucket_for_version _ _ _ Hc). rewrite (bf_empty _ _ _ Hsn Heq) in *. cbn in *. lia.
Qed.

(** Preparing the merge with a new snap. *)
Lemma prepare_Ok n i snap shadows (L : BucketLevel) :
  is_u32 n → (0 < i < kNumLevels)%nat → mNextCurr L = FB_CLEAR → wf snap → wf (mCurr L) →
  FIRST_PROTOCOL_SHADOWS_REMOVED ≤ version snap → version (mCurr L) ≤ version snap →
  version snap ≤ P →
  prepare n P snap shadows i L = Ok (setNext (FB_LIVE_INPUTS (mergeInput n i (mCurr L)) snap []
    (merge false (version snap) (mergeInput n i (mCurr L)) snap [] (keepDeadEntries i))) L).
Proof.
  intros Hn Hi Hnext Hsnap Hcurr H12 Hv HvP. unfold prepare, mkFutureBucket. rewrite Hnext.
  cbn [isMerging negb cassert mbind res_bind]. rewrite shouldMergeWithEmptyCurr_Ok by done.
  cbn [mbind res_bind]. fold (mergeInput n i (mCurr L)).
  rewrite getBucketVersion_Ok by done. cbn [mbind res_bind].
  rewrite (proj2 (Z.leb_le _ _) H12). cbn [length Nat.eqb negb andb mret res_ret mbind res_bind].
  unfold startMerge. cbn [isMerging cassert mbind res_bind]. rewrite merge_protocol; [done|..|done].
  - unfold mergeInput. destruct (withEmpty n i); [apply wf_nil|done].
  - done.
  - unfold mergeInput. destruct (withEmpty n i); [|done].
    unfold FIRST_PROTOCOL_SHADOWS_REMOVED in H12. cbn. lia.
Qed.

(** What level [S j] is after level [j] has spilled into it. *)
Definition spilledInto (n : Z) (j : nat) (b : Bucket) (L' L : BucketLevel) : BucketLevel :=
  mkLevel b (mSnap L) (FB_LIVE_INPUTS (mergeInput n (S j) b) (mCurr L') []
    (merge false (version (mCurr L')) (mergeInput n (S j) b) (mCurr L') [] (keepDeadEntries (S j)))).

Lemma spill_facts n j (L' L : BucketLevel) :
  0 < n → is_u32 n → (j < 10)%nat → spills n j = true → halfway n (S j) L →
  level_at (n - 1) j L' → pair_at (n - 1) j L' L →
  FIRST_PROTOCOL_SHADOWS_REMOVED ≤ version (mCurr L') ∧
  ∃ b, commit L = Ok (mkLevel b (mSnap L) FB_CLEAR) ∧
    bucket_for (currFrom n (S j)) (belowFrom n (S j)) b ∧ version b = version (mSnap L') ∧
    ∀ shadows, prepare n P (mCurr L') shadows (S j) (mkLevel b (mSnap L) FB_CLEAR)
               = Ok (spilledInto n j b L' L).
Proof.
  intros Hn Hu Hj Hs Hh HL' Hp. destruct (commit_Ok n j L' L) as (b & Hb & Hbf & Hbv); [done..|].
  destruct (spill_from n j Hn Hj Hs) as [Hlf Hcf]. pose proof (spill_filled n j Hn Hj Hs) as Hlt.
  destruct HL' as [Hsn Hc Hv HvP].
  assert (FIRST_PROTOCOL_SHADOWS_REMOVED ≤ version (mCurr L')) as H12.
  { apply (bf_version _ _ _ Hc). lia. }
  split; [done|]. exists b. split_and!; [done..|]. intros shadows.
  rewrite prepare_Ok; [done|done|unfold kNumLevels; lia|done|apply Hc|apply Hbf|done|cbn; lia|done].
Qed.

Lemma spill_halfway n j L' :
  0 < n → (j < 10)%nat → spills n j = true → level_at (n - 1) j L' → halfway n j (snapLevel L').
Proof.
  intros Hn Hj Hs [Hsn Hc Hv HvP]. destruct (spill_from n j Hn Hj Hs) as [Hlf Hcf].
  split; cbn; [by rewrite Hlf, Hcf|rewrite Hcf; apply bucket_for_nil|congruence|].
  unfold FIRST_PROTOCOL_SHADOWS_REMOVED in HP. lia.
Qed.

Lemma spill_level_at n j b L' L :
  halfway n (S j) L → bucket_for (currFrom n (S j)) (belowFrom n (S j)) b →
  version b = version (mSnap L') → level_at (n - 1) j L' → version (mSnap L) ≤ version (mSnap L') →
  level_at n (S j) (spilledInto n j b L' L).
Proof. intros Hh Hb Hbv [_ _ Hv HvP] Hle. split; cbn; [apply Hh|done|lia|lia]. Qed.

Lemma spill_pair_at n j b L' L :
  0 < n → (j < 10)%nat → spills n j = true → version b = version (mSnap L') →
  level_at (n - 1) j L' → pair_at n j (snapLevel L') (spilledInto n j b L' L).
Proof.
  intros Hn Hj Hs Hbv [_ _ Hv _]. pose proof (spill_filled n j Hn Hj Hs).
  split; cbn; [lia|]. split; [done|lia].
Qed.

(** A level that was snapped keeps its merge, which leaves its current bucket out. *)
Lemma snapped_pair n j L0 L' :
  0 < n → (S j < 10)%nat → spills n (S j) = true → level_at (n - 1) j L0 →
  level_at (n - 1) (S j) L' → pair_at (n - 1) j L0 L' →
  pair_at (n - 1) j L0 (snapLevel L') ∧ version (mSnap (snapLevel L')) ≤ version (mSnap L0).
Proof.
  intros Hn Hj Hs H0 H' [Hv [Hl1 Hl2]].
  assert (withEmpty (n - 1) (S j) = true) as Hwe.
  { rewrite withEmpty_spill; [done|lia|]. apply spills_below; [unfold kNumLevels; lia|done]. }
  split; [|done]. split; cbn.
  - apply (bucket_for_version _ _ _ (la_snap _ _ _ H0)).
  - split; [|done]. unfold mergeInput in *. by rewrite Hwe in *.
Qed.

(** A level spills into the next. *)
Lemma mid_spill n j levels :
  0 < n → is_u32 n → (j < 10)%nat → spills n j = true → mid_at n (S j) levels →
  ∃ L' L b, levels !! j = Some L' ∧ levels !! S j = Some L ∧
    commit L = Ok (mkLevel b (mSnap L) FB_CLEAR) ∧
    (∀ shadows, prepare n P (mCurr L') shadows (S j) (mkLevel b (mSnap L) FB_CLEAR)
                = Ok (spilledInto n j b L' L)) ∧
    mid_at n j (<[S j := spilledInto n j b L' L]> (<[j := snapLevel L']> levels)).
Proof.
  intros Hn Hu Hj Hs Hm. pose proof (mi_length _ _ _ Hm) as Hlen. unfold kNumLevels in Hlen.
  destruct (lookup_lt_is_Some_2 levels j) as [L' HL']; [lia|].
  destruct (lookup_lt_is_Some_2 levels (S j)) as [L HL]; [lia|].
  pose proof (mi_at _ _ _ Hm L HL) as Hh. pose proof (mi_below _ _ _ Hm j L' HL' ltac:(lia)) as Hlow.
  destruct (mi_pair_at _ _ _ Hm j L' L eq_refl HL' HL) as [Hp Hle].
  destruct (spill_facts n j L' L) as (H12 & b & Hc & Hb & Hbv & Hprep); [done..|].
  exists L', L, b. split_and!; [done..|].
  pose proof (spill_level_at n j b L' L Hh Hb Hbv Hlow Hle) as HnewL.
  pose proof (spill_pair_at n j b L' L Hn Hj Hs Hbv Hlow) as HnewP.
  pose proof (spill_halfway n j L' Hn Hj Hs Hlow) as HnewH.
  split.
  - by rewrite !length_insert.
  - intros l X HX Hl. destruct (decide (l = S j)) as [->|Hne].
    + rewrite list_lookup_insert_eq in HX by (rewrite length_insert; lia). by simplify_eq.
    + rewrite !list_lookup_insert_ne in HX by lia. apply (mi_above _ _ _ Hm); [done|lia].
  - intros j0 X' X HX' HX Hj0. destruct (decide (j0 = j)) as [->|Hne].
    + rewrite list_lookup_insert_eq in HX by (rewrite length_insert; lia).
      rewrite list_lookup_insert_ne, list_lookup_insert_eq in HX' by lia. by simplify_eq.
    + rewrite !list_lookup_insert_ne in HX by lia. destruct (decide (j0 = S j)) as [->|Hne'].
      * rewrite list_lookup_insert_eq in HX' by (rewrite length_insert; lia). simplify_eq.
        destruct (mi_pair_above _ _ _ Hm (S j) L X HL HX) as [Hv Hl]; [lia|]. by split.
      * rewrite !list_lookup_insert_ne in HX' by lia. by apply (mi_pair_above _ _ _ Hm); [..|lia].
  - intros X HX. rewrite list_lookup_insert_ne, list_lookup_insert_eq in HX by lia. by simplify_eq.
  - intros j0 X' X -> HX' HX.
    rewrite !list_lookup_insert_ne in HX' by lia.
    rewrite list_lookup_insert_ne, list_lookup_insert_eq in HX by lia. simplify_eq.
    apply snapped_pair; [done|lia|done|apply (mi_below _ _ _ Hm); [done|lia]|done|].
    apply (mi_pair_below _ _ _ Hm); [done|done|lia].
  - intros l X HX Hl. rewrite !list_lookup_insert_ne in HX by lia.
    apply (mi_below _ _ _ Hm); [done|lia].
  - intros j0 X' X HX' HX Hj0. rewrite !list_lookup_insert_ne in HX, HX' by lia.
    apply (mi_pair_below _ _ _ Hm); [done|done|lia].
  - intros X HX. rewrite list_lookup_insert_ne in HX by lia.
    destruct (decide (j = 0)%nat) as [->|Hne].
    + rewrite list_lookup_insert_eq in HX by lia. simplify_eq.
      exact (mi_first _ _ _ Hm L' HL').
    + rewrite list_lookup_insert_ne in HX by lia. by apply (mi_first _ _ _ Hm).
Qed.

(** The loop over the levels. *)
Lemma spillLevels_Ok n i shadows levels :
  0 < n → is_u32 n → (i ≤ 10)%nat → (2 * i ≤ length shadows)%nat → mid_at n i levels →
  ∃ levels', spillLevels n P i shadows levels = Ok (take (length shadows - 2 * i) shadows, levels') ∧
    mid_at n 0 levels'.
Proof.
  intros Hn Hu. revert shadows levels. induction i as [|j IH]; intros shadows levels Hi Hsh Hm.
  { exists levels. split; [|done]. cbn. do 2 f_equal. rewrite Nat.sub_0_r. by rewrite take_ge. }
  cbn [spillLevels]. unfold pop_two. rewrite (proj2 (Nat.leb_le 2 _)) by lia.
  cbn [cassert mbind res_bind mret res_ret]. rewrite levelShouldSpill_Ok; [|done|unfold kNumLevels; lia].
  cbn [mbind res_bind mret res_ret]. set (sh := take (length shadows - 2) shadows).
  assert (length sh = length shadows - 2)%nat as Hlen by (unfold sh; rewrite length_take; lia).
  assert (take (length sh - 2 * j) sh = take (length shadows - 2 * S j) shadows) as Htake.
  { rewrite Hlen. unfold sh. rewrite take_take. f_equal. lia. }
  rewrite <-Htake. destruct (spills n j) eqn:Hs.
  - destruct (mid_spill n j levels) as (L' & L & b & HL' & HL & Hc & Hp & Hm'); [done..|].
    unfold getLevel. rewrite HL'. cbn [deref mbind res_bind].
    rewrite list_lookup_insert_ne, HL by lia. cbn [deref mbind res_bind]. rewrite Hc.
    cbn [mbind res_bind]. change (mSnap (snapLevel L')) with (mCurr L'). rewrite Hp.
    cbn [mbind res_bind mret res_ret]. apply IH; [lia|lia|done].
  - cbn [mbind res_bind mret res_ret]. apply IH; [lia|lia|]. by apply mid_no_spill; [lia|..].
Qed.

(** The state the loop starts from. *)
Lemma mid_start n levels : list_at (n - 1) levels → mid_at n 10 levels.
Proof.
  intros [Hlen Hl Hp H0]. unfold kNumLevels in Hlen.
  assert (spills n 10 = false) as Hs by done.
  destruct (no_spill_from n 10 ltac:(lia) Hs) as [Hlf Hcf]. split; [done|..].
  - intros l L HL%lookup_lt_Some Hlt. lia.
  - intros j L' L _ HL%lookup_lt_Some Hlt. lia.
  - intros L HL. destruct (Hl _ _ HL) as [H1 H2 H3 H4].
    split; [by rewrite Hlf, Hcf|by rewrite Hcf|done|lia].
  - intros j L' L -> HL' HL. destruct (Hp _ _ _ HL' HL) as [Hv Hlk]. split; [done|].
    pose proof (la_version _ _ _ (Hl _ _ HL)). lia.
  - auto.
  - auto.
  - done.
Qed.

(** The last step: the batch goes into level 0. *)
Lemma prepare_first n batch L :
  mNextCurr L = FB_CLEAR → wf batch → wf (mCurr L) → version batch = P → version (mCurr L) ≤ P →
  prepare n P batch [] 0 L =
  Ok (setNext (FB_LIVE_INPUTS (mCurr L) batch []
        (merge false (version batch) (mCurr L) batch [] true) : FutureBucket) L).
Proof.
  intros Hnext Hb Hc Hv HvP. unfold prepare, mkFutureBucket. rewrite Hnext.
  cbn [isMerging negb cassert mbind res_bind]. unfold shouldMergeWithEmptyCurr.
  cbn [Nat.eqb negb mret res_ret mbind res_bind].
  rewrite getBucketVersion_Ok by done. cbn [mbind res_bind].
  rewrite Hv, (proj2 (Z.leb_le _ _) HP). done.
Qed.

Lemma list_of_mid n levels L L0 :
  0 < n → mid_at n 0 levels → levels !! 0%nat = Some L0 →
  mSnap L = mSnap L0 → mNextCurr L = FB_CLEAR → version (mCurr L) = P →
  bucket_for (currFrom n 0) (n + 1) (mCurr L) → list_at n (<[0%nat := L]> levels).
Proof.
  intros Hn Hm HL0 Hsn Hnext Hv Hc. pose proof (mi_length _ _ _ Hm) as Hlen.
  unfold kNumLevels in Hlen. pose proof (mi_at _ _ _ Hm L0 HL0) as Hh. split.
  - by rewrite length_insert.
  - intros l X HX. destruct (decide (l = 0)%nat) as [->|Hne].
    + rewrite list_lookup_insert_eq in HX by lia. simplify_eq. split; [|done| |lia].
      * rewrite Hsn. apply Hh.
      * rewrite Hsn. pose proof (hw_bound _ _ _ Hh). lia.
    + rewrite list_lookup_insert_ne in HX by lia. apply (mi_above _ _ _ Hm); [done|lia].
  - intros j X' X HX' HX. rewrite list_lookup_insert_ne in HX by lia.
    destruct (decide (j = 0)%nat) as [->|Hne].
    + rewrite list_lookup_insert_eq in HX' by lia. simplify_eq.
      destruct (mi_pair_above _ _ _ Hm 0%nat L0 X HL0 HX) as [H1 H2]; [lia|].
      split; by rewrite Hsn.
    + rewrite list_lookup_insert_ne in HX' by lia. apply (mi_pair_above _ _ _ Hm); [done|done|lia].
  - intros X HX. rewrite list_lookup_insert_eq in HX by lia. by simplify_eq.
Qed.

(** Every merge in progress succeeds. *)
Lemma pending_Ok n j L' L r :
  0 < n → (j < 10)%nat → level_at n j L' → level_at n (S j) L → pair_at n j L' L →
  outcome (mNextCurr L) = Some r → ∃ b, r = Ok b.
Proof.
  intros Hn Hj HL' HL [Hv [Hlive Hclear]] Hr.
  destruct (Z.lt_ge_cases (levelFrom n j) (currFrom n j)) as [Hlt|Hge];
    [|by rewrite (Hclear Hge) in Hr].
  rewrite (Hlive Hlt) in Hr. simplify_eq. unfold mergeInput.
  pose proof (la_snap _ _ _ HL') as Hsn. pose proof (la_curr _ _ _ HL) as Hc.
  destruct (withEmpty n (S j)) eqn:Hwe.
  - destruct (merge_ranges _ _ _ [] (mSnap L') (keepDeadEntries (S j)) (bucket_for_nil _) Hsn Hlt)
      as (b & Hb & _); [apply (bucket_for_version _ _ _ Hsn)| |by exists b].
    unfold withEmpty, spills in Hwe. apply andb_true_iff in Hwe as [H10%negb_true_iff%Nat.eqb_neq _].
    intros Hk%Nat.ltb_ge. unfold kNumLevels in Hk. lia.
  - destruct (merge_ranges _ _ _ _ _ (keepDeadEntries (S j)) Hc Hsn Hlt Hv) as (b & Hb & _);
      [|by exists b]. apply keepDead_first. unfold kNumLevels. lia.
Qed.

(** ** Resolving merges is not observable *)

Definition future_equiv (a b : FutureBucket) : Prop :=
  a = b ∨ ∃ r, outcome a = Some r ∧ outcome b = Some r.

Definition level_equiv (L1 L2 : BucketLevel) : Prop :=
  mCurr L1 = mCurr L2 ∧ mSnap L1 = mSnap L2 ∧ future_equiv (mNextCurr L1) (mNextCurr L2).

Lemma future_equiv_outcome a b : future_equiv a b → outcome a = outcome b.
Proof. intros [->|(r & -> & ->)]; done. Qed.

Lemma future_equiv_clear a b : future_equiv a b → a = FB_CLEAR → b = FB_CLEAR.
Proof. intros [->|(r & Ha & _)] ->; done. Qed.

Lemma list_at_equiv n l1 l2 : Forall2 level_equiv l1 l2 → list_at n l1 → list_at n l2.
Proof.
  intros Heq [Hlen Hl Hp H0].
  assert (∀ i L2, l2 !! i = Some L2 → ∃ L1, l1 !! i = Some L1 ∧ level_equiv L1 L2) as Hlk.
  { intros i L2 H2. destruct (Forall2_lookup_r _ _ _ _ _ Heq H2) as (L1 & ? & ?). eauto. }
  split.
  - by rewrite <-(Forall2_length _ _ _ Heq).
  - intros l L2 H2. destruct (Hlk _ _ H2) as (L1 & H1 & Hc & Hs & _).
    destruct (Hl _ _ H1) as [? ? ? ?]. split; rewrite <-?Hc, <-?Hs; done.
  - intros j L2' L2 H2' H2. destruct (Hlk _ _ H2) as (L1 & H1 & Hc & Hs & Hn).
    destruct (Hlk _ _ H2') as (L1' & H1' & Hc' & Hs' & _).
    destruct (Hp _ _ _ H1' H1) as [Hv [Hl1 Hl2]]. split; rewrite <-?Hc, <-?Hs'; [done|].
    split; intros Hlt.
    + rewrite <-(future_equiv_outcome _ _ Hn). auto.
    + apply (future_equiv_clear _ _ Hn). auto.
  - intros L2 H2. destruct (Hlk _ _ H2) as (L1 & H1 & _ & _ & Hn).
    apply (future_equiv_clear _ _ Hn). auto.
Qed.

Lemma resolveIfReady_Ok ready (L : BucketLevel) :
  (∀ r, outcome (mNextCurr L) = Some r → ∃ b, r = Ok b) →
  ∃ L', resolveIfReady ready L = Ok L' ∧ level_equiv L L'.
Proof.
  intros Hok. unfold resolveIfReady. destruct ready; [|rewrite andb_false_r; exists L].
  2: { split; [done|]. split_and!; [done..|by left]. }
  rewrite andb_true_r.
  destruct (mNextCurr L) as [| | |out|c s sh f] eqn:Hn; cbn; try (exists L; split; [done|]; split_and!; [done..|by left]).
  destruct (Hok f eq_refl) as [b ->]. cbn. eexists. split; [done|].
  split_and!; [done..|]. right. exists (Ok b). by rewrite Hn.
Qed.

Lemma resolveAnyReadyFutures_Ok ready (levels : BucketList) :
  (∀ L r, L ∈ levels → outcome (mNextCurr L) = Some r → ∃ b, r = Ok b) →
  ∃ levels', resolveAnyReadyFutures ready levels = Ok levels' ∧ Forall2 level_equiv levels levels'.
Proof.
  revert ready. induction levels as [|L levels IH]; intros ready Hok; cbn; [by eexists|].
  destruct (resolveIfReady_Ok (ready 0%nat) L) as (L' & -> & HL').
  { intros r. apply Hok. left. }
  cbn. destruct (IH (λ i, ready (S i))) as (levels' & -> & Hl').
  { intros L0 r HL0. apply Hok. by right. }
  cbn. eexists. split; [done|]. by constructor.
Qed.

Lemma list_pending n levels L r :
  0 < n → list_at n levels → L ∈ levels → outcome (mNextCurr L) = Some r → ∃ b, r = Ok b.
Proof.
  intros Hn Hl [i Hi]%list_elem_of_lookup Hr. pose proof (li_length _ _ Hl) as Hlen.
  unfold kNumLevels in Hlen. pose proof (lookup_lt_Some _ _ _ Hi) as Hlt. destruct i as [|j].
  { by rewrite (li_first _ _ Hl L Hi) in Hr. }
  destruct (lookup_lt_is_Some_2 levels j) as [L' HL']; [lia|].
  apply (pending_Ok n j L' L); [done|lia|by apply (li_level _ _ Hl)..|by apply (li_pair _ _ Hl)|done].
Qed.

Lemma shadows_length (levels : BucketList) :
  length (l ← levels; [mCurr l; mSnap l]) = (2 * length levels)%nat.
Proof. induction levels as [|L levels IH]; [done|]. cbn in *. rewrite IH. lia. Qed.

(** The parts of [addBatch] put together. *)
Lemma addBatch_steps n pessimize ready b (levels levels1 : BucketList) batch L0 bk :
  0 < n → length levels = 11%nat → wf batch → version batch = P →
  spillLevels n P 10 (take 20 (l ← levels; [mCurr l; mSnap l])) levels = Ok ([], levels1) →
  fresh P (initEntries b) (liveEntries b) (deadEntries b) = Ok batch →
  levels1 !! 0%nat = Some L0 → mNextCurr L0 = FB_CLEAR → wf (mCurr L0) → version (mCurr L0) ≤ P →
  merge false (version batch) (mCurr L0) batch [] true = Ok bk →
  let levels2 := <[0%nat := mkLevel bk (mSnap L0) FB_CLEAR]> levels1 in
  addBatch pessimize ready n P (initEntries b) (liveEntries b) (deadEntries b) levels =
  if (pessimize : bool) then Ok levels2 else resolveAnyReadyFutures ready levels2.
Proof.
  intros Hn Hlen Hb Hver Hspill Hfresh HL0 Hnext Hc HvP Hbk.
  unfold addBatch. rewrite (proj2 (Z.ltb_lt 0 n) Hn). cbn [cassert mbind res_bind].
  unfold pop_two. rewrite shadows_length, Hlen. cbn [Nat.leb cassert mbind res_bind mret res_ret Nat.sub Nat.mul Nat.add].
  rewrite Hspill.
  cbn [mbind res_bind length Nat.eqb cassert]. rewrite Hfresh. cbn [mbind res_bind].
  unfold getLevel. rewrite HL0. cbn [deref mbind res_bind]. rewrite prepare_first by done.
  cbn [mbind res_bind]. unfold commit. cbn [setNext mNextCurr isLive resolve]. rewrite Hbk. done.
Qed.

Lemma fresh_range n b :
  validBatch b (σ (n - 1)) → (∀ k, σ n k = applyBatch b (σ (n - 1)) k) →
  ∃ batch, fresh P (initEntries b) (liveEntries b) (deadEntries b) = Ok batch ∧
    version batch = P ∧ bucket_for (n - 1 + 1) (n + 1) batch.
Proof.
  intros Hb Hσ. destruct (fresh_Ok P b (σ (n - 1))) as (es & Hfresh & Hwf & Hupd); [|done|].
  { unfold FIRST_PROTOCOL_SHADOWS_REMOVED in HP.
    unfold FIRST_PROTOCOL_SUPPORTING_INITENTRY_AND_METAENTRY. lia. }
  destruct (wf_intro _ _ _ Hwf) as (Hwfb & Hver & Hrec). exists (header P ++ es).
  split_and!; [done|done|]. split; [done| |lia|by rewrite Hver|lia].
  intros k. rewrite wf_find_records, Hrec by done.
  replace (n - 1 + 1 - 1) with (n - 1) by lia. replace (n + 1 - 1) with n by lia. by rewrite Hσ.
Qed.

(** Adding the batch of the next ledger. *)
Lemma addBatch_Ok n pessimize ready b levels :
  0 < n → is_u32 n → list_at (n - 1) levels → validBatch b (σ (n - 1)) →
  (∀ k, σ n k = applyBatch b (σ (n - 1)) k) →
  ∃ levels', addBatch pessimize ready n P (initEntries b) (liveEntries b) (deadEntries b) levels
             = Ok levels' ∧ list_at n levels'.
Proof.
  intros Hn Hu Hl Hb Hσ. pose proof (li_length _ _ Hl) as Hlen.
  destruct (spillLevels_Ok n 10 (take 20 (l ← levels; [mCurr l; mSnap l])) levels)
    as (levels1 & Hspill & Hm); [done|done|lia| |by apply mid_start|].
  { rewrite length_take, shadows_length, Hlen. unfold kNumLevels. lia. }
  rewrite length_take, shadows_length, Hlen in Hspill. cbn in Hspill.
  destruct (fresh_range n b Hb Hσ) as (batch & Hfresh & Hver & Hbatch).
  destruct (lookup_lt_is_Some_2 levels1 0) as [L0 HL0];
    [rewrite (mi_length _ _ _ Hm); unfold kNumLevels; lia|].
  pose proof (mi_at _ _ _ Hm L0 HL0) as Hh. pose proof (hw_curr _ _ _ Hh) as Hc. cbn [belowFrom] in Hc.
  destruct (merge_ranges _ _ _ (mCurr L0) batch true Hc Hbatch) as (bk & Hbk & Hbf & Hbv);
    [lia|rewrite Hver; apply Hh|done|].
  rewrite (addBatch_steps n pessimize ready b levels levels1 batch L0 bk);
    [|done..|apply Hbatch|done|done|done|done|by apply (mi_first _ _ _ Hm)|apply Hc|apply Hh|done].
  set (levels2 := <[0%nat := _]> levels1).
  assert (list_at n levels2) as Hfinal.
  { apply (list_of_mid n levels1 _ L0); try done. cbn. by rewrite Hbv. }
  destruct pessimize; [by eexists|].
  destruct (resolveAnyReadyFutures_Ok ready levels2) as (levels' & -> & Heq).
  { intros X r. by apply (list_pending n). }
  exists levels'. split; [done|]. by eapply list_at_equiv.
Qed.
End bounded.

Lemma list_at_mono P P' n levels : P ≤ P' → list_at P n levels → list_at P' n levels.
Proof.
  intros HP [Hlen Hl Hp H0]. split; [done| |done|done].
  intros l L HL. destruct (Hl l L HL) as [H1 H2 H3 H4]. split; [done..|lia].
Qed.

Lemma from_zero l : levelFrom 0 l = 1 ∧ currFrom 0 l = 1 ∧ belowFrom 0 l = 1.
Proof.
  assert (∀ l, levelFrom 0 l = 1 ∧ currFrom 0 l = 1) as H0.
  { intros l0. unfold levelFrom, currFrom. destruct (_ =? _)%nat; [done|].
    rewrite round_zero by (pose proof (half_pos l0); lia).
    pose proof (lag_bounds l0). pose proof (half_pos l0). lia. }
  destruct (H0 l) as [-> ->]. split_and!; [done..|]. destruct l; [done|]. by apply H0.
Qed.

Lemma list_at_empty P : FIRST_PROTOCOL_SHADOWS_REMOVED ≤ P → list_at P 0 (emptyList (Hash := Hash)).
Proof.
  unfold FIRST_PROTOCOL_SHADOWS_REMOVED. intros HP.
  assert (∀ l L, (emptyList (Hash := Hash)) !! l = Some L → L = mkLevel [] [] FB_CLEAR) as Hall.
  { unfold emptyList. by intros l L [-> _]%lookup_replicate. }
  split; [done|..].
  - intros l L ->%Hall. destruct (from_zero l) as (Hl & Hc & Hb).
    split; cbn; rewrite ?Hl, ?Hc, ?Hb; [apply bucket_for_nil..|lia|lia].
  - intros j L' L ->%Hall ->%Hall. destruct (from_zero j) as (Hl & Hc & _).
    split; cbn; [lia|]. split; [lia|done].
  - by intros L ->%Hall.
Qed.
(** *** The entries of the list *)

(** The newest record of a key: the lower levels are newer, and so is the current
    bucket of a level. *)
Fixpoint newestRecord (k : LedgerKey) (levels : BucketList) : option BucketEntry :=
  match levels with
  | [] => None
  | L :: levels' =>
      match find k (mCurr L), find k (mSnap L) with
      | Some e, _ | None, Some e => Some e
      | None, None => newestRecord k levels'
      end
  end.

Definition storedEntry (levels : BucketList) (k : LedgerKey) : option LedgerEntry :=
  match newestRecord k levels with
  | Some (INITENTRY e) | Some (LIVEENTRY e) => Some e
  | _ => None
  end.

Lemma update_stored b (k : LedgerKey) (s s' : option LedgerEntry) :
  update (find k b) s = Some s' →
  s' = match find k b with
       | Some (INITENTRY e) | Some (LIVEENTRY e) => Some e
       | Some _ => None
       | None => s
       end.
Proof.
  pose proof (find_not_meta k b) as Hm. destruct (find k b) as [[v|e|d|e]|]; destruct s; simpl; try congruence;
    by destruct (Hm v).
Qed.

Lemma stored_from P n levels l k :
  (∀ k, σ 0 k = None) → list_at P n levels → (l ≤ kNumLevels)%nat →
  storedEntry (drop l levels) k = σ (belowFrom n l - 1) k.
Proof.
  intros H0 Hl Hle. pose proof (li_length _ _ _ Hl) as Hlen. remember (kNumLevels - l)%nat as d eqn:Hd.
  revert l Hle Hd. induction d as [|d IH]; intros l Hle Hd.
  - assert (l = kNumLevels) as -> by lia. rewrite drop_ge by lia. symmetry. apply H0.
  - destruct (lookup_lt_is_Some_2 levels l) as [L HL]; [lia|]. rewrite (drop_S _ _ _ HL).
    specialize (IH (S l) ltac:(lia) ltac:(lia)). cbn [belowFrom] in IH.
    destruct (li_level _ _ _ Hl l L HL) as [Hs Hc _ _].
    apply bf_holds, (λ H, H k) in Hs, Hc. apply update_stored in Hs, Hc.
    unfold storedEntry in *. cbn [newestRecord]. rewrite Hc, Hs, <-IH.
    destruct (find k (mCurr L)) as [[]|]; [done..|]. by destruct (find k (mSnap L)) as [[]|].
Qed.

(** The list stores the ledger. *)
Lemma stored_at P n levels k :
  (∀ k, σ 0 k = None) → list_at P n levels → storedEntry levels k = σ n k.
Proof.
  intros H0 Hl. pose proof (stored_from P n levels 0 k H0 Hl ltac:(lia)) as Hs.
  rewrite drop_0 in Hs. rewrite Hs. f_equal. cbn. lia.
Qed.
End ledgers.

(** The list says nothing of later ledgers. *)
Lemma list_at_ext {Hash} (σ σ' : Z → Ledger) P n (levels : BucketList Hash) :
  0 ≤ n → (∀ j k, j ≤ n → σ j k = σ' j k) → list_at σ P n levels → list_at σ' P n levels.
Proof.
  intros Hn Hσ [Hlen Hl Hp H0].
  assert (∀ lo hi b, lo ≤ n + 1 → hi ≤ n + 1 → bucket_for σ lo hi b → bucket_for σ' lo hi b) as Hb.
  { intros lo hi b Hlo Hhi [H1 H2 H3 H4 H5]. split; try done. intros k. rewrite <-!Hσ by lia. apply H2. }
  assert (∀ l, (l < kNumLevels)%nat →
    levelFrom n l ≤ n + 1 ∧ currFrom n l ≤ n + 1 ∧ belowFrom n l ≤ n + 1) as Hfrom.
  { intros l Hlt. destruct (decide (n = 0)) as [->|Hne]; [destruct (from_zero l) as (-> & -> & ->); lia|].
    pose proof (levelFrom_bounds n l ltac:(lia)). pose proof (belowFrom_bounds n l ltac:(lia)). lia. }
  split; [done| |done|done]. intros l L HL. pose proof (lookup_lt_Some _ _ _ HL) as Hlt. rewrite Hlen in Hlt.
  destruct (Hfrom l Hlt) as (Hf1 & Hf2 & Hf3). destruct (Hl l L HL). split; auto.
Qed.

(** ** Histories *)

(** The protocol version and the batch of each ledger, from ledger 1 on. *)
Definition History : Type := list (Z * Batch).

(** The ledger after the first [j] batches. *)
Definition ledgerAt (hist : History) (j : nat) : Ledger :=
  foldl (λ σ b, applyBatch b σ) (λ _, None) (take j hist).*2.

(** The protocol version is at least 12 and does not decrease; the batches fit. *)
Definition valid_history (hist : History) : Prop :=
  (∀ j P b, hist !! j = Some (P, b) →
     FIRST_PROTOCOL_SHADOWS_REMOVED ≤ P ∧ validBatch b (ledgerAt hist j)) ∧
  (∀ j P b P' b', hist !! j = Some (P, b) → hist !! S j = Some (P', b') → P ≤ P').

(** Adding the batches, [ready n i] telling whether the merge of level [i] is found to
    have finished at ledger [n]. *)
Fixpoint addBatches {Hash} (pessimize : bool) (ready : Z → nat → bool) (n : Z) (hist : History)
    (levels : BucketList Hash) : res (BucketList Hash) :=
  match hist with
  | [] => mret levels
  | (P, b) :: hist' =>
      levels ← addBatch pessimize (ready (n + 1)) (n + 1) P (initEntries b) (liveEntries b)
                 (deadEntries b) levels;
      addBatches pessimize ready (n + 1) hist' levels
  end.

Section histories.
Context {Hash : Type} `{EqDecision Hash} (hist : History).

Definition ledgerOf (n : Z) : Ledger := ledgerAt hist (Z.to_nat n).

Lemma ledgerAt_S j P b : hist !! j = Some (P, b) → ledgerAt hist (S j) = applyBatch b (ledgerAt hist j).
Proof.
  intros Hj. unfold ledgerAt. rewrite (take_S_r _ _ _ Hj), fmap_app, foldl_app. done.
Qed.

Lemma addBatches_from pessimize ready post rest m P (levels : BucketList Hash) :
  valid_history hist → Z.of_nat (length hist) ≤ UINT32_MAX → drop m hist = post ++ rest →
  FIRST_PROTOCOL_SHADOWS_REMOVED ≤ P →
  (∀ P' b, hist !! m = Some (P', b) → P ≤ P') → list_at ledgerOf P (Z.of_nat m) levels →
  ∃ P' levels', addBatches pessimize ready (Z.of_nat m) post levels = Ok levels' ∧
    FIRST_PROTOCOL_SHADOWS_REMOVED ≤ P' ∧ (P' = P ∨ ∃ b, (P', b) ∈ post) ∧
    (∀ P1 b, hist !! (m + length post)%nat = Some (P1, b) → P' ≤ P1) ∧
    list_at ledgerOf P' (Z.of_nat (m + length post)) levels'.
Proof.
  intros [Hv Hmono] Hmax. revert m P levels.
  induction post as [|[P1 b] post IH]; intros m P levels Hpost HP Hnext Hl; cbn [addBatches].
  { exists P, levels. cbn [length]. rewrite Nat.add_0_r. split_and!; try done. by left. }
  assert (hist !! m = Some (P1, b)) as Hb.
  { pose proof (lookup_drop hist m 0) as Hd. by rewrite Hpost, Nat.add_0_r in Hd. }
  pose proof (lookup_lt_Some _ _ _ Hb) as Hlt. destruct (Hv _ _ _ Hb) as [HP1 Hvalid].
  assert (ledgerOf (Z.of_nat m + 1 - 1) = ledgerAt hist m) as Hbefore
    by (unfold ledgerOf; f_equal; lia).
  assert (ledgerOf (Z.of_nat m + 1) = ledgerAt hist (S m)) as Hafter
    by (unfold ledgerOf; f_equal; lia).
  destruct (addBatch_Ok ledgerOf P1 HP1 (λ _, eq_refl) (Z.of_nat m + 1) pessimize
    (ready (Z.of_nat m + 1)) b levels) as (levels1 & -> & Hl1).
  - lia.
  - unfold is_u32. lia.
  - rewrite Z.add_simpl_r. eapply list_at_mono; [|done]. by eapply Hnext.
  - by rewrite Hbefore.
  - intros k. by rewrite Hbefore, Hafter, (ledgerAt_S _ _ _ Hb).
  - cbn [mbind res_bind]. replace (Z.of_nat m + 1) with (Z.of_nat (S m)) in * by lia.
    destruct (IH (S m) P1 levels1) as (P' & levels' & Hrun & H12 & Hin & Hbound & Hl'); [|done| |done|].
    + rewrite <-Nat.add_1_r, <-drop_drop, Hpost. done.
    + intros P' b' Hb'. by eapply Hmono.
    + exists P', levels'. cbn [length]. rewrite Nat.add_succ_r. split_and!; try done. right.
      destruct Hin as [->|[b' Hin]]; [exists b; left|exists b'; by right].
Qed.

(** The list after the first ledgers of the history. *)
Lemma addBatches_prefix pessimize ready pre rest :
  valid_history hist → Z.of_nat (length hist) ≤ UINT32_MAX → hist = pre ++ rest → pre ≠ [] →
  ∃ P levels, addBatches pessimize ready 0 pre (emptyList (Hash := Hash)) = Ok levels ∧
    FIRST_PROTOCOL_SHADOWS_REMOVED ≤ P ∧ (∃ b, (P, b) ∈ pre) ∧
    (∀ P1 b, hist !! length pre = Some (P1, b) → P ≤ P1) ∧
    list_at ledgerOf P (Z.of_nat (length pre)) levels.
Proof.
  intros Hv Hmax Hpre Hne. destruct pre as [|[P0 b0] pre]; [done|].
  assert (hist !! 0%nat = Some (P0, b0)) as H0 by (by rewrite Hpre).
  destruct (proj1 Hv _ _ _ H0) as [H12 _].
  destruct (addBatches_from pessimize ready ((P0, b0) :: pre) rest 0 P0 (emptyList (Hash := Hash)))
    as (P & levels & Hrun & HP & Hin & Hbound & Hl); [done..| |by apply list_at_empty|].
  { intros P' b' Hb'. simplify_eq. done. }
  exists P, levels. split_and!; [done|done| |done|done].
  destruct Hin as [->|Hin]; [exists b0; left|done].
Qed.

(** C14: from the empty list, adding the batches of any history of protocol 12 or later
    never throws, whichever of the merges have finished when they are looked at.  At
    the end the current bucket and the snap of each level are well-formed, and take
    every entry of the ledger from its state before the first to its state after the
    last of the ledgers that the size computation gives them. *)
Theorem buckets_hold_ledgers pessimize ready :
  valid_history hist → hist ≠ [] → Z.of_nat (length hist) ≤ UINT32_MAX →
  let n := Z.of_nat (length hist) in
  ∃ levels, addBatches pessimize ready 0 hist (emptyList (Hash := Hash)) = Ok levels ∧
    length levels = kNumLevels ∧
    ∀ l L, levels !! l = Some L → ∃ curr snap below,
      sizeOfCurr n l = Ok curr ∧ sizeOfSnap n l = Ok snap ∧ sumLevels (sizeOfLevel n) l = Ok below ∧
      wf (mCurr L) ∧ wf (mSnap L) ∧
      ∀ k, update (find k (mSnap L)) (ledgerOf (n - below - curr - snap) k)
           = Some (ledgerOf (n - below - curr) k) ∧
           update (find k (mCurr L)) (ledgerOf (n - below - curr) k) = Some (ledgerOf (n - below) k).
Proof.
  intros Hv Hne Hmax n. destruct (addBatches_prefix pessimize ready hist [] Hv Hmax)
    as (P & levels & Hrun & _ & _ & _ & Hl); [by rewrite app_nil_r|done|].
  exists levels. split; [done|]. split; [apply Hl|]. intros l L HL.
  pose proof (lookup_lt_Some _ _ _ HL) as Hlt. rewrite (li_length _ _ _ _ Hl) in Hlt.
  assert (0 < n) as Hn by (unfold n; destruct hist; [done|cbn; lia]).
  assert (is_u32 n) as Hu by (unfold is_u32; lia).
  destruct (sizes_Ok n l Hn Hu Hlt) as [Hc Hs]. destruct (li_level _ _ _ _ Hl l L HL) as [H1 H2 _ _].
  exists (belowFrom n l - currFrom n l), (currFrom n l - levelFrom n l), (n + 1 - belowFrom n l).
  split; [exact Hc|]. split; [exact Hs|]. split; [apply sum_sizes_Ok; [done|done|lia]|].
  split; [apply H2|]. split; [apply H1|]. intros k.
  pose proof (bf_holds _ _ _ _ H1 k) as Hh1. pose proof (bf_holds _ _ _ _ H2 k) as Hh2. fold n in Hh1, Hh2.
  replace (n - (n + 1 - belowFrom n l) - (belowFrom n l - currFrom n l) - (currFrom n l - levelFrom n l))
    with (levelFrom n l - 1) by lia.
  replace (n - (n + 1 - belowFrom n l) - (belowFrom n l - currFrom n l)) with (currFrom n l - 1) by lia.
  replace (n - (n + 1 - belowFrom n l)) with (belowFrom n l - 1) by lia. done.
Qed.
End histories.

Module HistoryExample.
Definition item (name value : Z) : LedgerEntry :=
  mkLedgerEntry 1 (DATA (mkData [1] [name] [value])) None.
(** An entry is created and updated, another created and erased. *)
Definition hist : History :=
  [(12, mkBatch [item 1 10; item 2 20] [] []); (12, mkBatch [] [item 1 11] []);
   (13, mkBatch [item 3 30] [] [KEY_DATA [1] [2]]); (13, mkBatch [] [] []);
   (13, mkBatch [] [item 3 31] []); (13, mkBatch [item 2 21] [] [KEY_DATA [1] [3]]);
   (14, mkBatch [] [] []); (14, mkBatch [] [item 1 12] []); (15, mkBatch [item 4 40] [] [])].

Lemma hist_valid : valid_history hist.
Proof.
  split.
  - intros j P b Hj. destruct j as [|[|[|[|[|[|[|[|[|j]]]]]]]]]; [..|done].
    all: injection Hj as <- <-; split; [unfold FIRST_PROTOCOL_SHADOWS_REMOVED; lia|].
    all: split; [apply (bool_decide_unpack _); reflexivity|]. all: intros e He; cbn in He.
    all: repeat (apply elem_of_cons in He as [->|He]; [reflexivity|]).
    all: by apply not_elem_of_nil in He.
  - intros j P b P' b' Hj Hj'. destruct j as [|[|[|[|[|[|[|[|j]]]]]]]]; [..|done].
    all: injection Hj as <- <-; injection Hj' as <- <-; lia.
Qed.
End HistoryExample.

(** After nine ledgers the snap of level 1 has the first three: its records are the
    update of the first entry and the tombstone of nothing. *)
Lemma buckets_hold_ledgers_witness :
  ∃ levels, addBatches (Hash := unit) false (λ _ _, true) 0 HistoryExample.hist emptyList = Ok levels ∧
    sizeOfSnap 9 1 = Ok 3 ∧
    ∀ L, levels !! 1%nat = Some L → ∀ k,
      update (find k (mSnap L)) None = Some (ledgerOf HistoryExample.hist 3 k).
Proof.
  destruct (buckets_hold_ledgers (Hash := unit) HistoryExample.hist false (λ _ _, true))
    as (levels & Hrun & _ & Hall).
  - apply HistoryExample.hist_valid.
  - discriminate.
  - vm_compute. discriminate.
  - exists levels. split; [exact Hrun|]. split; [vm_compute; reflexivity|]. intros L HL k.
    destruct (Hall 1%nat L HL) as (curr & snap & below & Hc & Hs & Hb & _ & _ & Hk).
    assert (Ok curr = Ok 2) as [= ->] by (rewrite <-Hc; vm_compute; reflexivity).
    assert (Ok snap = Ok 3) as [= ->] by (rewrite <-Hs; vm_compute; reflexivity).
    assert (Ok below = Ok 4) as [= ->] by (rewrite <-Hb; vm_compute; reflexivity).
    apply (Hk k).
Defined.
