(* ===== verification/BucketEquiv.v ===== *)
(** * When merges are resolved is not observable

    Bucket lists with the same buckets whose merges in progress have the same outcome
    stay so when batches are added, whatever merges are found finished on the way. *)

From S2P Require Import Prelude QuorumSet LedgerEntries Bucket BucketMerge BucketList.
From S2P Require Import BucketLevels BucketFresh BucketListProps.

Section equiv.
Context {Hash : Type}.
Notation BucketLevel := (BucketLevel Hash).
Notation BucketList := (BucketList Hash).

#[export] Instance future_equiv_equivalence : Equivalence (future_equiv (Hash := Hash)).
Proof.
  split.
  - by left.
  - intros a b [->|(r & ? & ?)]; [by left|right; eauto].
  - intros a b c [->|(r & Ha & Hb)]; [done|]. intros Hbc%future_equiv_outcome.
    right. exists r. by rewrite <-Hbc.
Qed.

#[export] Instance level_equiv_equivalence : Equivalence (level_equiv (Hash := Hash)).
Proof.
  split.
  - by intros L.
  - intros L1 L2 (? & ? & ?). split_and!; by symmetry.
  - intros L1 L2 L3 (H1 & H2 & H3) (H4 & H5 & H6). split_and!; [congruence..|by transitivity (mNextCurr L2)].
Qed.

(** What [commit] leaves. *)
Lemma commit_inv (L L' : BucketLevel) :
  commit L = Ok L' →
  (∃ b, outcome (mNextCurr L) = Some (Ok b) ∧ L' = mkLevel b (mSnap L) FB_CLEAR) ∨
  (outcome (mNextCurr L) = None ∧ L' = L).
Proof.
  unfold commit. destruct (mNextCurr L) as [| | |out|c s sh [b|e]] eqn:Hn; cbn; rewrite ?Hn; cbn;
    intros H; try done; injection H as <-; [by right..|by left; eauto|by left; eauto].
Qed.

Lemma commit_equiv (L1 L2 L1' L2' : BucketLevel) :
  level_equiv L1 L2 → commit L1 = Ok L1' → commit L2 = Ok L2' → level_equiv L1' L2'.
Proof.
  intros (Hc & Hs & Hn) H1%commit_inv H2%commit_inv. pose proof (future_equiv_outcome _ _ Hn) as Ho.
  destruct H1 as [(b1 & Ho1 & ->)|[Ho1 ->]], H2 as [(b2 & Ho2 & ->)|[Ho2 ->]]; [|congruence..|done].
  assert (b1 = b2) as -> by congruence. split_and!; [done..|by left].
Qed.

Lemma prepare_inv n P snap shadows i (L L' : BucketLevel) :
  prepare n P snap shadows i L = Ok L' →
  ∃ next, L' = setNext next L ∧
    ∀ L2 L2', mCurr L2 = mCurr L → prepare n P snap shadows i L2 = Ok L2' → L2' = setNext next L2.
Proof.
  unfold prepare. destruct (cassert (negb (isMerging (mNextCurr L)))) as [[]|];
    cbn [mbind res_bind]; [|done].
  intros (we & Hwe & (v & Hv & (next & Hnext & ([] & Hmerging & [= <-])%res_bind_Ok)%res_bind_Ok)%res_bind_Ok)%res_bind_Ok.
  exists next. split; [done|]. intros L2 L2' Hcurr. destruct (cassert (negb _)) as [[]|];
    cbn [mbind res_bind]; [|done].
  rewrite Hwe. cbn [mbind res_bind]. rewrite Hv. cbn [mbind res_bind]. rewrite Hcurr, Hnext.
  cbn [mbind res_bind]. rewrite Hmerging. cbn. by intros [= <-].
Qed.

Lemma prepare_equiv n P snap shadows i (L1 L2 L1' L2' : BucketLevel) :
  level_equiv L1 L2 → prepare n P snap shadows i L1 = Ok L1' → prepare n P snap shadows i L2 = Ok L2' →
  level_equiv L1' L2'.
Proof.
  intros (Hc & Hs & _) (next & -> & Hany)%prepare_inv H2.
  rewrite (Hany L2 L2') by done. split_and!; [done..|by left].
Qed.

(** One round of the loop over the levels. *)
Lemma spillLevels_inv n P j shadows (levels : BucketList) r :
  spillLevels n P (S j) shadows levels = Ok r →
  ∃ sh spill levels1, pop_two shadows = Ok sh ∧ levelShouldSpill n j = Ok spill ∧
    spillLevels n P j sh levels1 = Ok r ∧
    if (spill : bool) then
      ∃ prev L L1 L2, levels !! j = Some prev ∧ <[j := snapLevel prev]> levels !! S j = Some L ∧
        commit L = Ok L1 ∧ prepare n P (mSnap (snapLevel prev)) sh (S j) L1 = Ok L2 ∧
        levels1 = <[S j := L2]> (<[j := snapLevel prev]> levels)
    else levels1 = levels.
Proof.
  cbn [spillLevels]. intros (sh & Hsh & (spill & Hspill & (levels1 & Hl & Hrun)%res_bind_Ok)%res_bind_Ok)%res_bind_Ok.
  exists sh, spill, levels1. split_and!; [done..|]. destruct spill; [|by injection Hl].
  apply res_bind_Ok in Hl as (prev & Hprev%deref_Ok & (L & HL%deref_Ok & (L1 & HL1 & (L2 & HL2 & [= <-])%res_bind_Ok)%res_bind_Ok)%res_bind_Ok).
  by exists prev, L, L1, L2.
Qed.

Lemma lookup_equiv (l1 l2 : BucketList) i L1 L2 :
  Forall2 level_equiv l1 l2 → l1 !! i = Some L1 → l2 !! i = Some L2 → level_equiv L1 L2.
Proof.
  intros Heq H1 H2. destruct (Forall2_lookup_l _ _ _ _ _ Heq H1) as (L2' & H2' & HL). by simplify_eq.
Qed.

Lemma spillLevels_equiv n P i shadows (l1 l2 l1' l2' : BucketList) r1 r2 :
  Forall2 level_equiv l1 l2 → spillLevels n P i shadows l1 = Ok (r1, l1') →
  spillLevels n P i shadows l2 = Ok (r2, l2') → r1 = r2 ∧ Forall2 level_equiv l1' l2'.
Proof.
  revert shadows l1 l2. induction i as [|j IH]; intros shadows l1 l2 Heq.
  { cbn. intros [= <- <-] [= <- <-]. by split. }
  intros (sh & spill & m1 & Hsh & Hspill & Hrun1 & H1)%spillLevels_inv
    (sh2 & spill2 & m2 & Hsh2 & Hspill2 & Hrun2 & H2)%spillLevels_inv.
  assert (sh2 = sh) as -> by congruence. assert (spill2 = spill) as -> by congruence.
  apply (IH sh m1 m2); [|done|done]. destruct spill; [|by subst].
  destruct H1 as (p1 & L1 & A1 & B1 & Hp1 & HL1 & HA1 & HB1 & ->).
  destruct H2 as (p2 & L2 & A2 & B2 & Hp2 & HL2 & HA2 & HB2 & ->).
  pose proof (lookup_equiv _ _ _ _ _ Heq Hp1 Hp2) as (Hc & Hs & Hn).
  assert (level_equiv (snapLevel p1) (snapLevel p2)) as Hsnap by (split_and!; done).
  assert (Forall2 level_equiv (<[j:=snapLevel p1]> l1) (<[j:=snapLevel p2]> l2)) as Heq'
    by (by apply Forall2_insert).
  pose proof (lookup_equiv _ _ _ _ _ Heq' HL1 HL2) as HL.
  apply Forall2_insert; [done|]. rewrite (proj1 (proj2 Hsnap)) in HB1.
  eapply prepare_equiv; [|done|done]. by eapply commit_equiv.
Qed.

Lemma resolveAny_equiv ready (levels levels' : BucketList) :
  resolveAnyReadyFutures ready levels = Ok levels' → Forall2 level_equiv levels levels'.
Proof.
  revert ready levels'. induction levels as [|L levels IH]; intros ready levels'; cbn.
  { by intros [= <-]. }
  intros (L' & HL & (ls & Hls & [= <-])%res_bind_Ok)%res_bind_Ok. constructor; [|by eapply IH].
  unfold resolveIfReady in HL. destruct (isMerging (mNextCurr L) && ready 0%nat) eqn:Hm.
  - destruct (mNextCurr L) as [| | |out|c s sh [b|e]] eqn:Hn; cbn in HL; try done.
    injection HL as <-.
    split_and!; [done..|]. right. exists (Ok b). by rewrite Hn.
  - by injection HL as <-.
Qed.

(** Adding the same batch to equivalent lists. *)
Lemma addBatch_equiv n P p1 ready1 p2 ready2 init live dead (l1 l2 l1' l2' : BucketList) :
  Forall2 level_equiv l1 l2 → addBatch p1 ready1 n P init live dead l1 = Ok l1' →
  addBatch p2 ready2 n P init live dead l2 = Ok l2' → Forall2 level_equiv l1' l2'.
Proof.
  intros Heq. unfold addBatch.
  assert ((l ← l2; [mCurr l; mSnap l]) = (l ← l1; [mCurr l; mSnap l])) as ->.
  { clear -Heq. induction Heq as [|L1 L2 l1 l2 (Hc & Hs & _) _ IH]; [done|]. cbn in *. by rewrite Hc, Hs, IH. }
  rewrite <-(Forall2_length _ _ _ Heq).
  destruct (cassert (0 <? n)) as [[]|]; cbn [mbind res_bind]; [|done].
  destruct (pop_two _) as [sh|]; cbn [mbind res_bind]; [|done].
  intros ([r1 m1] & Hr1 & H1)%res_bind_Ok ([r2 m2] & Hr2 & H2)%res_bind_Ok.
  destruct (spillLevels_equiv _ _ _ _ _ _ _ _ _ _ Heq Hr1 Hr2) as [-> Hm].
  destruct (cassert _) as [[]|]; cbn [mbind res_bind] in H1, H2; [|done].
  destruct (fresh P init live dead) as [batch|]; cbn [mbind res_bind] in H1, H2; [|done].
  apply res_bind_Ok in H1 as (L1 & HL1%deref_Ok & (A1 & HA1 & (B1 & HB1 & H1)%res_bind_Ok)%res_bind_Ok).
  apply res_bind_Ok in H2 as (L2 & HL2%deref_Ok & (A2 & HA2 & (B2 & HB2 & H2)%res_bind_Ok)%res_bind_Ok).
  pose proof (lookup_equiv _ _ _ _ _ Hm HL1 HL2) as HL.
  assert (level_equiv B1 B2) as HB by (eapply commit_equiv; [by eapply prepare_equiv|done|done]).
  assert (Forall2 level_equiv (<[0%nat:=B1]> m1) (<[0%nat:=B2]> m2)) as Hm' by (by apply Forall2_insert).
  assert (Forall2 level_equiv (<[0%nat:=B1]> m1) l1') as E1
    by (destruct p1; [by injection H1 as <-|by eapply resolveAny_equiv]).
  assert (Forall2 level_equiv (<[0%nat:=B2]> m2) l2') as E2
    by (destruct p2; [by injection H2 as <-|by eapply resolveAny_equiv]).
  etrans; [symmetry; exact E1|]. by etrans; [exact Hm'|].
Qed.

Lemma addBatches_equiv p1 ready1 p2 ready2 hist n (l1 l2 l1' l2' : BucketList) :
  Forall2 level_equiv l1 l2 → addBatches p1 ready1 n hist l1 = Ok l1' →
  addBatches p2 ready2 n hist l2 = Ok l2' → Forall2 level_equiv l1' l2'.
Proof.
  revert n l1 l2. induction hist as [|[P b] hist IH]; intros n l1 l2 Heq; cbn [addBatches].
  { by intros [= <-] [= <-]. }
  intros (m1 & Hm1 & H1)%res_bind_Ok (m2 & Hm2 & H2)%res_bind_Ok.
  eapply IH; [|done|done]. by eapply addBatch_equiv.
Qed.
End equiv.
