(* ===== verification/BucketApply.v ===== *)
(** * Applying the bucket list to a ledger

    Models [bucket/BucketApplicator.cpp] and [catchup/ApplyBucketsWork.cpp], with which
    a node that catches up fills its database from the buckets of an archive, and then
    takes the bucket list over.  The database is the ledger: a map from keys to
    entries; the batches in which it is written do not show.  The work items run one
    after the other; progress counters and the optional invariant checks are left
    out. *)

From S2P Require Import Prelude QuorumSet LedgerEntries Bucket BucketMerge BucketList BucketFresh.

(** ** One bucket *)

Definition createOrUpdateWithoutLoading (e : LedgerEntry) (σ : Ledger) : Ledger :=
  λ k, if decide (k = LedgerEntryKey e) then Some e else σ k.

Definition eraseWithoutLoading (key : LedgerKey) (σ : Ledger) : Ledger :=
  λ k, if decide (k = key) then None else σ k.

Definition deleteObjectsModifiedOnOrAfterLedger (ledger : Z) (σ : Ledger) : Ledger :=
  λ k, match σ k with
       | Some e => if ledger <=? lastModifiedLedgerSeq e then None else Some e
       | None => None
       end.

Definition LEDGER_ENTRY_BATCH_COMMIT_SIZE : nat := 4095.

Definition openApplicator (maxProtocolVersion : Z) (bucket : Bucket) : res BucketInputIterator :=
  it ← openBucket bucket;
  if maxProtocolVersion <? mMetadata it
  then Throw (RuntimeError "bucket protocol version exceeds maxProtocolVersion")
  else mret it.

Definition applyRecord (maxProtocolVersion : Z) (e : BucketEntry) (σ : Ledger) : res Ledger :=
  checkProtocolLegality e maxProtocolVersion;;
  match e with
  | LIVEENTRY x | INITENTRY x => mret (createOrUpdateWithoutLoading x σ)
  | DEADENTRY k => mret (eraseWithoutLoading k σ)
  | METAENTRY _ =>
      Throw (RuntimeError "Malformed bucket: unexpected non-INIT/LIVE/DEAD entry.")
  end.

(** [left] records may follow.  The loop stops at the last one without stepping over
    it, so that the next call starts with it again. *)
Fixpoint advance (maxProtocolVersion : Z) (left : nat) (it : BucketInputIterator) (σ : Ledger)
    : res (BucketInputIterator * Ledger) :=
  match mEntryPtr it with
  | None => mret (it, σ)
  | Some e =>
      σ ← applyRecord maxProtocolVersion e σ;
      match left with
      | O => mret (it, σ)
      | S left' => it ← loadEntry it; advance maxProtocolVersion left' it σ
      end
  end.

(** The work is run until the bucket is exhausted; each run steps over a record. *)
Fixpoint applyRest (maxProtocolVersion : Z) (fuel : nat) (it : BucketInputIterator) (σ : Ledger)
    : res Ledger :=
  match mEntryPtr it with
  | None => mret σ
  | Some _ =>
      match fuel with
      | O => Throw OutOfFuel
      | S fuel' =>
          '(it, σ) ← advance maxProtocolVersion LEDGER_ENTRY_BATCH_COMMIT_SIZE it σ;
          applyRest maxProtocolVersion fuel' it σ
      end
  end.

(** ** The levels *)

Section catchup.
Context {Hash : Type} `{EqDecision Hash}.
Context (sha256 : list BucketEntry → Hash) (zero : Hash) (files : Hash → option Bucket).
Context (inMemory : bool) (maxProtocolVersion : Z).

Definition getBucket_orAssert (h : Hash) : res Bucket :=
  match getBucketByHash zero files h with Some b => mret b | None => Throw AssertFailure end.

(** A bucket to apply, with its applicator. *)
Definition openFor (apply : bool) (h : Hash) : res (option (Bucket * BucketInputIterator)) :=
  if apply then
    b ← getBucket_orAssert h; it ← openApplicator maxProtocolVersion b; mret (Some (b, it))
  else mret None.

Definition runApplicator (a : option (Bucket * BucketInputIterator)) (σ : Ledger) : res Ledger :=
  match a with
  | Some (b, it) => applyRest maxProtocolVersion (length b) it σ
  | None => mret σ
  end.

(** [startLevel] and the runs of the work on level [n - 1], then on those below. *)
Fixpoint applyLevels (has : HistoryArchiveState) (levels : BucketList Hash) (n : nat)
    (mApplying : bool) (σ : Ledger) : res Ledger :=
  match n with
  | O => mret σ
  | S mLevel =>
      level ← getLevel levels mLevel;
      i ← deref (currentBuckets has !! mLevel);
      let applySnap := bool_decide (hsb_snap i ≠ getHash sha256 zero (mSnap level)) in
      let applyCurr := bool_decide (hsb_curr i ≠ getHash sha256 zero (mCurr level)) in
      σ ←
        (if negb mApplying && negb inMemory && (applySnap || applyCurr) then
           oldestLedger ←
             (if applySnap then oldestLedgerInSnap (currentLedger has) mLevel
              else oldestLedgerInCurr (currentLedger has) mLevel);
           mret (deleteObjectsModifiedOnOrAfterLedger oldestLedger σ)
         else mret σ);
      mSnapApplicator ← openFor (mApplying || applySnap) (hsb_snap i);
      let mApplying := mApplying || applySnap in
      mCurrApplicator ← openFor (mApplying || applyCurr) (hsb_curr i);
      let mApplying := mApplying || applyCurr in
      σ ← runApplicator mSnapApplicator σ;
      σ ← runApplicator mCurrApplicator σ;
      applyLevels has levels mLevel mApplying σ
  end.

(** The whole work; [None] when it fails. *)
Definition ApplyBucketsWork (has : HistoryArchiveState) (levels : BucketList Hash) (σ : Ledger)
    : res (option (BucketList Hash * Ledger)) :=
  valid ← containsValidBuckets sha256 zero files has;
  if negb valid then mret None
  else
    σ ← applyLevels has levels kNumLevels false σ;
    levels ← assumeState sha256 zero files has maxProtocolVersion levels;
    mret (Some (levels, σ)).
End catchup.
