(* ===== verification/LedgerTxnRoot.v ===== *)
(** * Nested ledger transactions: the root and the stack of levels

    [LedgerTxnRoot::Impl] of [ledger/LedgerTxn.cpp], the level that reads and
    writes the database, with its cache of the best offers of each asset pair,
    and the chain of open [LedgerTxn]s above it.

    The tables of the database are a finite map from keys to entries, and the
    SQL statements of [ledger/LedgerTxnOfferSQL.cpp] and its siblings are the
    map operations they describe.  The cache of entries, which is filled by
    reads and prefetches and evicts at random, is not modelled: reads go to the
    database. *)

From stdpp Require Import sorting.
From S2P Require Import Prelude StateMonad Numeric LedgerEntries GeneralizedEntries OfferOrder LedgerTxn BucketApply.

(** ** State *)

Record BestOffersCacheEntry : Type := mkBestOffers {
  bestOffers : list LedgerEntry;
  allLoaded : bool
}.

Record LedgerTxnRoot : Type := mkRoot {
  root_mHeader : LedgerHeader;
  root_db : gmap LedgerKey LedgerEntry;
  root_mChild : bool;
  mBestOffersCache : gmap AssetPair BestOffersCacheEntry
}.

Definition MIN_BEST_OFFERS_BATCH_SIZE : nat := 5.
Definition MAX_BEST_OFFERS_BATCH_SIZE : nat := 1024.

(** ** The best offers of the database *)

Definition entry_descriptor (le : LedgerEntry) : OfferDescriptor :=
  match entry_data le with
  | OFFER oe => descriptor oe
  | _ => mkOfferDescriptor (mkPrice 0 0) 0
  end.

(** The rows of the table of offers for a pair, or those worse than a
    descriptor. *)
Definition selects (buying selling : Asset) (worseThan : option OfferDescriptor) (le : LedgerEntry) : bool :=
  match entry_data le with
  | OFFER oe =>
      bool_decide (off_selling oe = selling) && bool_decide (off_buying oe = buying) &&
      match worseThan with
      | None => true
      | Some d => isBetterOffer d (descriptor oe)
      end
  | _ => false
  end.

Definition not_worse (a b : LedgerEntry) : Prop :=
  isBetterOffer (entry_descriptor b) (entry_descriptor a) = false.

#[export] Instance not_worse_dec a b : Decision (not_worse a b).
Proof. unfold not_worse. apply _. Defined.

(** [ORDER BY price, offerid LIMIT n]. *)
Definition sql_bestOffers (db : gmap LedgerKey LedgerEntry) (buying selling : Asset)
    (worseThan : option OfferDescriptor) (n : nat) : list LedgerEntry :=
  take n (merge_sort not_worse
            (filter (λ le, selects buying selling worseThan le = true) (map_to_list db).*2)).

Definition loadBestOffers (db : gmap LedgerKey LedgerEntry) (buying selling : Asset)
    (worseThan : option OfferDescriptor) (numOffers : nat) : res (list LedgerEntry) :=
  match worseThan with
  | Some d =>
      if od_offerID d =? INT64_MAX then Throw (RuntimeError "maximum offerID encountered")
      else mret (sql_bestOffers db buying selling worseThan numOffers)
  | None => mret (sql_bestOffers db buying selling worseThan numOffers)
  end.

(** ** The cache of best offers *)

(** The first position from [i] on that is worse than a descriptor. *)
Fixpoint firstWorse (d : OfferDescriptor) (offers : list LedgerEntry) : nat :=
  match offers with
  | [] => 0
  | le :: offers' => if isBetterOffer d (entry_descriptor le) then 0 else S (firstWorse d offers')
  end%nat.

Definition findIncludedOffer (i : nat) (offers : list LedgerEntry) (worseThan : option OfferDescriptor) : nat :=
  match worseThan with
  | Some d => (i + firstWorse d (drop i offers))%nat
  | None => i
  end.

(** Appends the next offers; the position of the first of them.  An error of the
    database stops the process. *)
Definition loadNextBestOffersIntoCache (db : gmap LedgerKey LedgerEntry) (cached : BestOffersCacheEntry)
    (buying selling : Asset) : res (nat * BestOffersCacheEntry) :=
  let offers := bestOffers cached in
  if allLoaded cached then mret (length offers, cached)
  else
    let BATCH_SIZE := Nat.min MAX_BEST_OFFERS_BATCH_SIZE
                        (Nat.max MIN_BEST_OFFERS_BATCH_SIZE (length offers)) in
    loaded ← match last offers with
             | None => loadBestOffers db buying selling None BATCH_SIZE
             | Some le =>
                 oe ← data_offer le;
                 match loadBestOffers db buying selling (Some (descriptor oe)) BATCH_SIZE with
                 | Ok l => Ok l
                 | Throw _ => Throw AssertFailure
                 end
             end;
    mret (length offers, mkBestOffers (offers ++ loaded) (bool_decide (length loaded < BATCH_SIZE)%nat)).

Fixpoint bestOffersLoop (fuel : nat) (db : gmap LedgerKey LedgerEntry) (buying selling : Asset)
    (worseThan : option OfferDescriptor) (iter : nat) (cached : BestOffersCacheEntry) :
    res (nat * BestOffersCacheEntry) :=
  if bool_decide (iter = length (bestOffers cached)) && negb (allLoaded cached) then
    match fuel with
    | O => Throw OutOfFuel
    | S fuel' =>
        '(iter, cached) ← loadNextBestOffersIntoCache db cached buying selling;
        bestOffersLoop fuel' db buying selling worseThan
          (findIncludedOffer iter (bestOffers cached) worseThan) cached
    end
  else mret (iter, cached).

Definition getFromBestOffersCache (r : LedgerTxnRoot) (buying selling : Asset) : BestOffersCacheEntry :=
  default (mkBestOffers [] false) (mBestOffersCache r !! (buying, selling)).

Definition Root_getBestOffer (r : LedgerTxnRoot) (buying selling : Asset) (worseThan : option OfferDescriptor) :
    res (option LedgerEntry * LedgerTxnRoot) :=
  let cached := getFromBestOffersCache r buying selling in
  '(iter, cached) ←
    bestOffersLoop (S (size (root_db r))) (root_db r) buying selling worseThan
      (findIncludedOffer 0 (bestOffers cached) worseThan) cached;
  let r' := mkRoot (root_mHeader r) (root_db r) (root_mChild r)
              (<[(buying, selling) := cached]> (mBestOffersCache r)) in
  match bestOffers cached !! iter with
  | Some le =>
      _ ← cassert match worseThan with
                  | None => true
                  | Some d => isBetterOffer d (entry_descriptor le)
                  end;
      mret (Some le, r')
  | None => mret (None, r')
  end.

(** ** The other queries *)

Definition Root_getNewestVersion (r : LedgerTxnRoot) (gkey : GeneralizedLedgerKey) : option GeneralizedLedgerEntry :=
  match gkey with
  | GLedgerKey key => GLedgerEntry <$> root_db r !! key
  | _ => None
  end.

Definition is_offer (le : LedgerEntry) : bool :=
  match entry_data le with OFFER _ => true | _ => false end.

Definition offerOf (account : AccountID) (asset : Asset) (le : LedgerEntry) : bool :=
  match entry_data le with
  | OFFER oe => bool_decide (off_sellerID oe = account) &&
                (bool_decide (off_selling oe = asset) || bool_decide (off_buying oe = asset))
  | _ => false
  end.

Definition Root_getAllOffers (r : LedgerTxnRoot) : gmap LedgerKey LedgerEntry :=
  filter (λ kv, is_offer kv.2 = true) (root_db r).

Definition Root_getOffersByAccountAndAsset (r : LedgerTxnRoot) (account : AccountID) (asset : Asset) :
    gmap LedgerKey LedgerEntry :=
  filter (λ kv, offerOf account asset kv.2 = true) (root_db r).

(** What the levels above see of the root.  Reading may fill the cache; a cache
    that agrees with the database answers as the database does. *)
Definition Root_asParent (r : LedgerTxnRoot) : AbstractLedgerTxnParent :=
  mkParent (root_mHeader r) (Root_getNewestVersion r)
    (λ buying selling worseThan, fst <$> Root_getBestOffer r buying selling worseThan)
    (Root_getAllOffers r) (Root_getOffersByAccountAndAsset r).

(** ** Committing to the database *)

Definition Root_addChild (r : LedgerTxnRoot) : res LedgerTxnRoot :=
  if root_mChild r then Throw (RuntimeError "LedgerTxnRoot already has child")
  else mret (mkRoot (root_mHeader r) (root_db r) true (mBestOffersCache r)).

(** The changes waiting to be written, by type of entry. *)
Record BulkLedgerEntryChangeAccumulator : Type := mkBleca {
  toUpsert : Z → list (LedgerKey * LedgerEntry);
  toDelete : Z → list LedgerKey
}.

Definition update_at {A} (t : Z) (a : A) (f : Z → A) : Z → A := λ t', if t' =? t then a else f t'.

Definition accumulate (bleca : BulkLedgerEntryChangeAccumulator)
    (kv : GeneralizedLedgerKey * option GeneralizedLedgerEntry) : res BulkLedgerEntryChangeAccumulator :=
  match kv.1 with
  | GLedgerKey key =>
      let t := ledger_key_type key in
      match kv.2 with
      | Some e =>
          le ← ledgerEntry e;
          mret (mkBleca (update_at t (toUpsert bleca t ++ [(key, le)]) (toUpsert bleca)) (toDelete bleca))
      | None =>
          mret (mkBleca (toUpsert bleca) (update_at t (toDelete bleca t ++ [key]) (toDelete bleca)))
      end
  | _ => mret bleca
  end.

(** [INSERT ... ON CONFLICT DO UPDATE]. *)
Definition bulkUpsert (entries : list (LedgerKey * LedgerEntry)) (db : gmap LedgerKey LedgerEntry) :
    gmap LedgerKey LedgerEntry :=
  foldl (λ db kv, <[kv.1 := kv.2]> db) db entries.

(** [DELETE], with the check of the number of rows. *)
Definition bulkDelete (keys : list LedgerKey) (cons : LedgerTxnConsistency) (db : gmap LedgerKey LedgerEntry) :
    res (gmap LedgerKey LedgerEntry) :=
  let db' := foldl (λ db k, delete k db) db keys in
  let affected := (size db - size db')%nat in
  if negb (bool_decide (affected = length keys)) && bool_decide (cons = EXACT)
  then Throw (RuntimeError "Could not update data in SQL")
  else mret db'.

(** The buffers over the threshold are written: for each type in turn, the
    changed entries and then the dead ones. *)
Fixpoint bulkApply (types : list Z) (bufferThreshold : nat) (cons : LedgerTxnConsistency)
    (bleca : BulkLedgerEntryChangeAccumulator) (db : gmap LedgerKey LedgerEntry) :
    res (BulkLedgerEntryChangeAccumulator * gmap LedgerKey LedgerEntry) :=
  match types with
  | [] => mret (bleca, db)
  | t :: types' =>
      let '(bleca, db) :=
        if decide (bufferThreshold < length (toUpsert bleca t))%nat
        then (mkBleca (update_at t [] (toUpsert bleca)) (toDelete bleca), bulkUpsert (toUpsert bleca t) db)
        else (bleca, db) in
      '(bleca, db) ←
        (if decide (bufferThreshold < length (toDelete bleca t))%nat
         then db ← bulkDelete (toDelete bleca t) cons db;
              mret (mkBleca (toUpsert bleca) (update_at t [] (toDelete bleca)), db)
         else mret (bleca, db));
      bulkApply types' bufferThreshold cons bleca db
  end.

(** Accounts, trust lines, offers, data, claimable balances. *)
Definition entryTypes : list Z := [0; 1; 2; 3; 4].

Fixpoint commitLoop (iter : list (GeneralizedLedgerKey * option GeneralizedLedgerEntry))
    (cons : LedgerTxnConsistency) (bleca : BulkLedgerEntryChangeAccumulator)
    (db : gmap LedgerKey LedgerEntry) : res (gmap LedgerKey LedgerEntry) :=
  match iter with
  | [] => mret db
  | kv :: iter' =>
      bleca ← accumulate bleca kv;
      let bufferThreshold :=
        match iter' with [] => 0%nat | _ => LEDGER_ENTRY_BATCH_COMMIT_SIZE end in
      '(bleca, db) ← bulkApply entryTypes bufferThreshold cons bleca db;
      commitLoop iter' cons bleca db
  end.

Definition Root_commitChild (iter : list (GeneralizedLedgerKey * option GeneralizedLedgerEntry))
    (cons : LedgerTxnConsistency) (childHeader : LedgerHeader) (r : LedgerTxnRoot) : res LedgerTxnRoot :=
  match commitLoop iter cons (mkBleca (λ _, []) (λ _, [])) (root_db r) with
  | Ok db => mret (mkRoot childHeader db false ∅)
  | Throw _ => Throw AssertFailure
  end.

Definition Root_rollbackChild (r : LedgerTxnRoot) : LedgerTxnRoot :=
  mkRoot (root_mHeader r) (root_db r) false (mBestOffersCache r).

(** ** The chain of open levels, the innermost first *)

Record LedgerTxnStack : Type := mkStack { levels : list Impl; base : LedgerTxnRoot }.

Definition chain (ls : list Impl) (r : LedgerTxnRoot) : AbstractLedgerTxnParent :=
  foldr (λ l p, Impl_asParent p l) (Root_asParent r) ls.

(** A method of the innermost level. *)
Definition innermost {A} (m : AbstractLedgerTxnParent → M Impl A) : M LedgerTxnStack A :=
  λ st, match levels st with
        | [] => Throw (RuntimeError "LedgerTxnEntry was handled")
        | l :: ls =>
            '(a, l') ← m (chain ls (base st)) l;
            Ok (a, mkStack (l' :: ls) (base st))
        end.

(** The constructor of [LedgerTxn]. *)
Definition openLedgerTxn (shouldUpdateLastModified : bool) : M LedgerTxnStack unit :=
  λ st,
    let child := newImpl (chain (levels st) (base st)) shouldUpdateLastModified in
    match levels st with
    | [] => r ← Root_addChild (base st); Ok (tt, mkStack [child] r)
    | l :: ls =>
        '(_, l') ← addChild (chain ls (base st)) l;
        Ok (tt, mkStack (child :: l' :: ls) (base st))
    end.

Definition commit : M LedgerTxnStack unit :=
  λ st, match levels st with
        | [] => Throw (RuntimeError "LedgerTxnEntry was handled")
        | [l] =>
            entries ← committedEntries l;
            r ← Root_commitChild (map_to_list entries) (mConsistency l) (mHeader l) (base st);
            Ok (tt, mkStack [] r)
        | l :: p :: ls =>
            entries ← committedEntries l;
            '(_, p') ← commitChild (chain ls (base st)) (map_to_list entries) (mConsistency l) l p;
            Ok (tt, mkStack (p' :: ls) (base st))
        end.

Definition rollback : M LedgerTxnStack unit :=
  λ st, match levels st with
        | [] => Throw (RuntimeError "LedgerTxnEntry was handled")
        | [_] => Ok (tt, mkStack [] (Root_rollbackChild (base st)))
        | _ :: p :: ls => Ok (tt, mkStack (set_mChild false p :: ls) (base st))
        end.

(** [rollback] of a level that has [n] descendants rolls these back first. *)
Fixpoint rollbackWithDescendants (n : nat) : M LedgerTxnStack unit :=
  match n with
  | O => rollback
  | S n' => rollback;; rollbackWithDescendants n'
  end.
