(* ===== verification/LedgerTxnRootProps.v ===== *)
(** * Nested ledger transactions: the root

    The root keeps the promise of a parent for the ledger in the database: the
    cache of best offers, filled in batches, answers as the database does.
    Writing a child to the database in batches, by type of entry, leaves the
    entries of the child over those that were there, and the checks on the
    number of deleted rows succeed. *)

From stdpp Require Import sorting.
From S2P Require Import Prelude StateMonad Numeric LedgerEntries GeneralizedEntries OfferOrder LedgerTxn LedgerTxnProps LedgerTxnSpec LedgerTxnSteps BucketApply LedgerTxnRoot.

#[export] Instance GLedgerKey_inj : Inj (=) (=) GLedgerKey.
Proof. by intros ? ? [=]. Qed.

(** The ledger in the database. *)
Definition db_view (db : gmap LedgerKey LedgerEntry) : View := kmap GLedgerKey (GLedgerEntry <$> db).

Lemma lookup_db_view db k : db_view db !! GLedgerKey k = GLedgerEntry <$> db !! k.
Proof. unfold db_view. by rewrite (lookup_kmap GLedgerKey), lookup_fmap. Qed.

Lemma db_view_Some db k e :
  db_view db !! k = Some e ↔ ∃ k' le, k = GLedgerKey k' ∧ e = GLedgerEntry le ∧ db !! k' = Some le.
Proof.
  unfold db_view. rewrite (lookup_kmap_Some GLedgerKey). setoid_rewrite lookup_fmap_Some. naive_solver.
Qed.

Lemma Root_newest r k : Root_getNewestVersion r k = db_view (root_db r) !! k.
Proof.
  destruct k as [k| |]; simpl; [by rewrite lookup_db_view| |];
    symmetry; apply eq_None_not_Some; intros [e (? & ? & ? & _)%db_view_Some]; done.
Qed.

Section root.
Variable owner : Z → AccountID.

(** ** Sorted lists of offers *)

Section offers.
Context (db : gmap LedgerKey LedgerEntry) (Hdb : wf_view owner (db_view db)) (buying selling : Asset).

(** The offers of the pair worse than a limit, in order. *)
Definition ordered (w : option OfferDescriptor) : list LedgerEntry :=
  merge_sort not_worse (filter (λ le, selects buying selling w le = true) (map_to_list db).*2).

Definition better (a b : LedgerEntry) : Prop :=
  isBetterOffer (entry_descriptor a) (entry_descriptor b) = true.

Lemma selects_spec w le :
  selects buying selling w le = true ↔
  ∃ oe, offer_of (buying, selling) oe (GLedgerEntry le) ∧ worse w (descriptor oe).
Proof.
  unfold selects, offer_of, worse. destruct (entry_data le) as [| |oe| |] eqn:Hd.
  1,2,4,5: split; [done|]; intros (? & (? & [= <-] & Hd' & _) & _); congruence.
  rewrite !andb_true_iff, !bool_decide_eq_true. split.
  - intros [[<- <-] Hw]. exists oe. split; [by exists le|]. by destruct w.
  - intros (oe' & (? & [= <-] & Hd' & [= -> ->]) & Hw). assert (oe' = oe) as -> by congruence.
    split; [done|]. by destruct w.
Qed.

Lemma elem_of_ordered w le :
  le ∈ ordered w ↔ ∃ k oe, db !! k = Some le ∧ offer_of (buying, selling) oe (GLedgerEntry le) ∧
                           worse w (descriptor oe).
Proof.
  unfold ordered. rewrite merge_sort_Permutation, list_elem_of_filter, selects_spec, list_elem_of_fmap. split.
  - intros [(oe & Hof & Hw) ([k ?] & -> & Hk%elem_of_map_to_list)]. eauto.
  - intros (k & oe & Hk & Hof & Hw). split; [eauto|]. exists (k, le). by rewrite elem_of_map_to_list.
Qed.

Lemma ordered_offer w le :
  le ∈ ordered w → ∃ oe, entry_data le = OFFER oe ∧ offered (db_view db) (buying, selling) (offer_key oe) oe ∧
    db_view db !! offer_key oe = Some (GLedgerEntry le) ∧
    entry_descriptor le = descriptor oe ∧ offer_ok owner oe ∧ worse w (descriptor oe).
Proof.
  intros (k & oe & Hk & Hof & Hw)%elem_of_ordered. pose proof Hof as (? & [= <-] & Hd & _).
  assert (db_view db !! GLedgerKey k = Some (GLedgerEntry le)) as Hv by (by rewrite lookup_db_view, Hk).
  assert (offered (db_view db) (buying, selling) (GLedgerKey k) oe) as Ho by (eexists; eauto).
  destruct (offered_ok owner _ _ _ _ Hdb Ho) as [E Hok]. rewrite E in Ho, Hv.
  exists oe. split_and!; try done. unfold entry_descriptor. by rewrite Hd.
Qed.

Lemma ordered_ids w x y :
  x ∈ ordered w → y ∈ ordered w → od_offerID (entry_descriptor x) = od_offerID (entry_descriptor y) → x = y.
Proof.
  intros (ox & _ & _ & Hx & -> & Hox & _)%ordered_offer (oy & _ & _ & Hy & -> & Hoy & _)%ordered_offer Hid.
  rewrite (offer_key_inj owner ox oy) in Hx by done. congruence.
Qed.

Lemma ordered_desc_ok w x : x ∈ ordered w → desc_ok (entry_descriptor x).
Proof. intros (ox & _ & _ & _ & -> & ? & _)%ordered_offer. by eapply offer_ok_desc. Qed.

Lemma NoDup_values : NoDup (map_to_list db).*2.
Proof.
  apply NoDup_fmap_2_strong; [|apply NoDup_map_to_list].
  intros [k1 e1] [k2 e2] H1%elem_of_map_to_list H2%elem_of_map_to_list. simpl. intros ->.
  assert (∀ k, db !! k = Some e2 → k = LedgerEntryKey e2) as Hk.
  { intros k Hk. assert (db_view db !! GLedgerKey k = Some (GLedgerEntry e2)) as Hv by (by rewrite lookup_db_view, Hk).
    apply Hdb in Hv as [[=] _]. done. }
  by rewrite (Hk _ H1), (Hk _ H2).
Qed.

Lemma ordered_NoDup w : NoDup (ordered w).
Proof. unfold ordered. rewrite merge_sort_Permutation. apply NoDup_filter, NoDup_values. Qed.

(** The order on arbitrary prices is asymmetric, which is what sorting needs. *)
#[local] Instance not_worse_total : Total not_worse.
Proof.
  intros a b. unfold not_worse. destruct (isBetterOffer (entry_descriptor b) (entry_descriptor a)) eqn:E; [|by left].
  right. revert E. unfold isBetterOffer. generalize (entry_descriptor a) as x, (entry_descriptor b) as y.
  intros x y. generalize (double_quotient (pn (od_price x)) (pd (od_price x))) as u,
    (double_quotient (pn (od_price y)) (pd (od_price y))) as v. intros u v.
  destruct u as [m k|[]|], v as [m' k'|[]|]; simpl; try done.
  - destruct (m' * 2 ^ k <? m * 2 ^ k') eqn:E1, (m * 2 ^ k' <? m' * 2 ^ k) eqn:E2,
      (m * 2 ^ k' =? m' * 2 ^ k) eqn:E3; try done; try lia.
    all: rewrite Z.eqb_sym, E3; intros; lia.
  - lia.
  - lia.
Qed.

(** A relation that is transitive on the elements of a list. *)
Lemma StronglySorted_on {A} (R : A → A → Prop) (l : list A) :
  (∀ x y z, x ∈ l → y ∈ l → z ∈ l → R x y → R y z → R x z) → Sorted R l → StronglySorted R l.
Proof.
  intros Ht Hs. pose (R' x y := R x y ∧ x ∈ l ∧ y ∈ l).
  assert (∀ l', Sorted R l' → (∀ x, x ∈ l' → x ∈ l) → Sorted R' l') as Hin.
  { induction 1 as [|x l' Hs' IH Hx]; intros Hl; constructor; [apply IH; set_solver|].
    destruct Hx; constructor. split; [done|]. split; apply Hl; set_solver. }
  assert (StronglySorted R' l) as Hss.
  { apply Sorted_StronglySorted; [|by apply Hin]. intros x y z [? [? ?]] [? [? ?]]. split; [by apply (Ht x y z)|done]. }
  clear -Hss. induction Hss as [|x l' _ IH Hx]; constructor; [done|].
  eapply Forall_impl; [exact Hx|]. by intros y [? _].
Qed.

Lemma StronglySorted_strict {A} (R R' : A → A → Prop) (l : list A) :
  NoDup l → (∀ x y, x ∈ l → y ∈ l → x ≠ y → R x y → R' x y) → StronglySorted R l → StronglySorted R' l.
Proof.
  intros Hnd HR Hs. induction Hs as [|x l Hs IH Hx]; constructor.
  - apply NoDup_cons in Hnd as [_ Hnd]. apply IH; [done|]. intros y z Hy Hz. apply HR; set_solver.
  - apply Forall_forall. intros y Hy. eapply Forall_forall in Hx; [|exact Hy].
    apply HR; [set_solver|set_solver| |done]. intros ->. by apply NoDup_cons in Hnd as [? _].
Qed.

Lemma ordered_sorted w : StronglySorted better (ordered w).
Proof.
  apply (StronglySorted_strict not_worse); [apply ordered_NoDup| |].
  - intros x y Hx Hy Hne HR. apply isBetterOffer_total; [by eapply ordered_desc_ok..| |done].
    intros Hid. apply Hne. by apply (ordered_ids w).
  - apply StronglySorted_on; [|apply Sorted_merge_sort; apply _].
    intros x y z Hx Hy Hz. unfold not_worse. intros Hxy Hyz. apply not_true_is_false. intros Hzx.
    assert (isBetterOffer (entry_descriptor z) (entry_descriptor y) = true); [|congruence].
    apply (isBetterOffer_lt_le _ (entry_descriptor x)); [by eapply ordered_desc_ok..|exact Hzx|exact Hxy].
Qed.

(** Sorted lists with the same elements are equal. *)
Lemma sorted_unique (l l' : list LedgerEntry) :
  StronglySorted better l → StronglySorted better l' →
  (∀ x, x ∈ l → desc_ok (entry_descriptor x)) → (∀ x, x ∈ l ↔ x ∈ l') → l = l'.
Proof.
  intros Hs. revert l'. induction Hs as [|x l Hs IH Hx]; intros l' Hs' Hok Heq.
  - destruct l' as [|y l']; [done|]. exfalso. apply (not_elem_of_nil y), Heq. set_solver.
  - destruct Hs' as [|y l' Hs' Hy]; [exfalso; apply (not_elem_of_nil x), Heq; set_solver|].
    assert (x = y) as <-.
    { assert (x ∈ y :: l') as [->|Hxl]%elem_of_cons by (apply Heq; set_solver); [done|].
      assert (y ∈ x :: l) as [->|Hyl]%elem_of_cons by (apply Heq; set_solver); [done|].
      eapply Forall_forall in Hx; [|exact Hyl]. eapply Forall_forall in Hy; [|exact Hxl].
      unfold better in *. rewrite isBetterOffer_asym in Hy; [done|apply Hok; set_solver..|done]. }
    assert (∀ l0, Forall (better x) l0 → x ∉ l0) as Hn.
    { intros l0 HF Hin. eapply Forall_forall in HF; [|exact Hin]. unfold better in HF.
      rewrite isBetterOffer_irrefl in HF; [done|]. apply Hok. set_solver. }
    f_equal. apply IH; [done|intros; apply Hok; set_solver|]. intros z. specialize (Heq z).
    pose proof (Hn _ Hx). pose proof (Hn _ Hy). set_solver.
Qed.

(** ** The cache *)

Notation all := (ordered None).

(** A cached list is a prefix of the offers of the pair. *)
Definition cache_ok (c : BestOffersCacheEntry) : Prop :=
  ∃ n, bestOffers c = take n all ∧ (allLoaded c = true → bestOffers c = all).

Lemma after_sorted (l1 l2 : list LedgerEntry) le :
  StronglySorted better (l1 ++ le :: l2) → (∀ x, x ∈ l1 ++ le :: l2 → desc_ok (entry_descriptor x)) →
  ∀ x, x ∈ l2 ↔ x ∈ l1 ++ le :: l2 ∧ better le x.
Proof.
  intros Hs Hok x. split.
  - intros Hx. split; [set_solver|]. induction l1 as [|y l1 IH]; simpl in *.
    + inversion Hs as [|? ? _ HF]; subst. by eapply Forall_forall in HF.
    + inversion Hs; subst. apply IH; [done|set_solver].
  - intros [Hx Hb]. assert (∀ y, y ∈ l1 → better y le) as Hl1.
    { clear Hx Hok. intros y Hy. induction l1 as [|z l1 IH]; [by apply elem_of_nil in Hy|].
      simpl in Hs. inversion Hs as [|? ? Hs' HF]; subst. apply elem_of_cons in Hy as [->|Hy]; [|by apply IH].
      eapply Forall_forall in HF; [exact HF|]. set_solver. }
    unfold better in *. apply elem_of_app in Hx as [Hx|[->|Hx]%elem_of_cons]; [| |done].
    + specialize (Hl1 x Hx). rewrite isBetterOffer_asym in Hl1; [done|apply Hok; set_solver..|done].
    + rewrite isBetterOffer_irrefl in Hb; [done|]. apply Hok. set_solver.
Qed.

Lemma StronglySorted_app_r {A} (R : A → A → Prop) (l1 l2 : list A) :
  StronglySorted R (l1 ++ l2) → StronglySorted R l2.
Proof. induction l1; simpl; [done|]. intros Hs. inversion Hs; auto. Qed.

(** The offers after the last one of a prefix. *)
Lemma ordered_after n le :
  last (take n all) = Some le →
  ordered (Some (entry_descriptor le)) = drop (length (take n all)) all.
Proof.
  intros [l1 Hl]%last_Some.
  assert (all = l1 ++ le :: drop n all) as Hall.
  { rewrite <- (take_drop n all) at 1. rewrite Hl, <- app_assoc. done. }
  assert (drop (length (take n all)) all = drop n all) as ->.
  { rewrite length_take. destruct (decide (n ≤ length all)%nat); [f_equal; lia|]. rewrite !drop_ge; [done|lia..]. }
  pose proof (ordered_sorted None) as Hs. pose proof (ordered_desc_ok None) as Hok.
  assert (∀ x, x ∈ drop n all ↔ x ∈ all ∧ better le x) as Hafter.
  { intros x. pose proof (after_sorted l1 (drop n all) le) as Ha. rewrite <- Hall in Ha. by apply Ha. }
  apply sorted_unique; [apply ordered_sorted| |apply ordered_desc_ok|].
  - rewrite Hall in Hs. apply StronglySorted_app_r in Hs. by inversion Hs.
  - intros x. rewrite (Hafter x). rewrite !elem_of_ordered. unfold better. split.
    + intros (k & oe & Hk & Hof & Hw). split; [by exists k, oe|]. simpl in Hw.
      destruct Hof as (? & [= <-] & Hd & _). unfold entry_descriptor at 2. by rewrite Hd.
    + intros [(k & oe & Hk & Hof & _) Hw]. exists k, oe. split_and!; [done|done|]. simpl.
      destruct Hof as (? & [= <-] & Hd & _). unfold entry_descriptor at 2 in Hw. by rewrite Hd in Hw.
Qed.

Lemma loadBestOffers_run w n :
  match w with None => True | Some d => od_offerID d ≠ INT64_MAX end →
  loadBestOffers db buying selling w n = Ok (take n (ordered w)).
Proof. destruct w as [d|]; simpl; [|done]. intros Hd. by rewrite (proj2 (Z.eqb_neq _ _) Hd). Qed.

Lemma loadNext_run c :
  cache_ok c → allLoaded c = false →
  ∃ loaded b, loadNextBestOffersIntoCache db c buying selling =
      Ok (length (bestOffers c), mkBestOffers (bestOffers c ++ loaded) b) ∧
    cache_ok (mkBestOffers (bestOffers c ++ loaded) b) ∧ (b = true ∨ loaded ≠ []).
Proof.
  intros (n & Hn & _) Hnl. unfold loadNextBestOffersIntoCache. rewrite Hnl.
  set (B := Nat.min _ _). assert (0 < B)%nat as HB by (unfold B, MAX_BEST_OFFERS_BATCH_SIZE, MIN_BEST_OFFERS_BATCH_SIZE; lia).
  assert (match last (bestOffers c) with
          | None => loadBestOffers db buying selling None B
          | Some le =>
              oe ← data_offer le;
              match loadBestOffers db buying selling (Some (descriptor oe)) B with
              | Ok l => Ok l
              | Throw _ => Throw AssertFailure
              end
          end = Ok (take B (drop (length (bestOffers c)) all))) as ->.
  { destruct (last (bestOffers c)) as [le|] eqn:Hlast.
    - rewrite Hn in Hlast |- *. assert (le ∈ all) as Hle.
      { apply last_Some in Hlast as [l1 Hl]. rewrite <- (take_drop n all), Hl. set_solver. }
      destruct (ordered_offer _ _ Hle) as (oe & Hd & _ & _ & He & (_ & _ & Hmax) & _).
      unfold data_offer. rewrite Hd. cbn [mbind res_bind].
      rewrite loadBestOffers_run by done. by rewrite <- He, (ordered_after n le).
    - apply last_None in Hlast. rewrite Hlast. apply loadBestOffers_run. done. }
  cbn [mbind res_bind]. eexists _, _. split; [reflexivity|]. rewrite length_take, length_drop.
  split.
  - exists (length (bestOffers c) + B)%nat. simpl.
    assert (take (length (bestOffers c)) all = bestOffers c) as Hpre.
    { rewrite Hn, length_take. destruct (decide (n ≤ length all)%nat); [f_equal; lia|]. rewrite !take_ge; [done|lia..]. }
    split.
    + rewrite <- Hpre at 1. by rewrite take_take_drop.
    + rewrite bool_decide_eq_true. intros Hlt. rewrite (take_ge (drop _ _)) by (rewrite length_drop; lia).
      rewrite <- Hpre at 1. apply take_drop.
  - case_bool_decide as Hlt; [by left|]. right. intros Hnil. apply (f_equal length) in Hnil.
    rewrite length_take, length_drop in Hnil. simpl in Hnil. lia.
Qed.

(** The first position of a list that is worse than a limit. *)
Lemma findIncludedOffer_spec w l :
  let i := findIncludedOffer 0 l w in
  (i ≤ length l)%nat ∧
  (∀ j x, (j < i)%nat → l !! j = Some x → ¬ worse w (entry_descriptor x)) ∧
  (∀ x, l !! i = Some x → worse w (entry_descriptor x)).
Proof.
  destruct w as [d|]; simpl; [|split_and!; [lia|lia|done]]. rewrite drop_0.
  induction l as [|y l (IH1 & IH2 & IH3)]; simpl; [split_and!; [lia|lia|done]|].
  destruct (isBetterOffer d (entry_descriptor y)) eqn:E.
  - split_and!; [lia|lia|]. intros x [= <-]. done.
  - split_and!; [lia| |done]. intros [|j] x Hj; simpl; [intros [= <-]; congruence|].
    intros Hx. eapply IH2; [|exact Hx]. lia.
Qed.

Lemma findIncludedOffer_app w l l' :
  findIncludedOffer 0 l w = length l →
  findIncludedOffer (length l) (l ++ l') w = findIncludedOffer 0 (l ++ l') w.
Proof.
  destruct w as [d|]; simpl; [|by intros ->]. rewrite !drop_0, drop_app_length. intros Hf.
  assert (∀ k, firstWorse d (k ++ l') = if decide (firstWorse d k = length k)
    then (length k + firstWorse d l')%nat else firstWorse d k) as Happ.
  { induction k as [|y k IH]; simpl; [done|]. destruct (isBetterOffer _ _).
    - by rewrite decide_False.
    - rewrite IH. destruct (decide _), (decide _); lia. }
  rewrite Happ, decide_True by done. done.
Qed.

Lemma bestOffersLoop_run w fuel c :
  cache_ok c →
  (length all + (if allLoaded c then 0 else 1) ≤ fuel + length (bestOffers c))%nat →
  ∃ c', bestOffersLoop fuel db buying selling w (findIncludedOffer 0 (bestOffers c) w) c =
          Ok (findIncludedOffer 0 (bestOffers c') w, c') ∧ cache_ok c' ∧
    (findIncludedOffer 0 (bestOffers c') w = length (bestOffers c') → allLoaded c' = true).
Proof.
  revert c. induction fuel as [|fuel IH]; intros c Hc Hfuel.
  all: cbn [bestOffersLoop];
    destruct (bool_decide (findIncludedOffer 0 (bestOffers c) w = length (bestOffers c))) eqn:Hend, (allLoaded c) eqn:Hall;
    simpl; try (exists c; split_and!; [done|done|]; rewrite ?Hall; try done; by apply bool_decide_eq_false in Hend).
  - exfalso. destruct Hc as (n & Hn & _). rewrite Hn, length_take in Hfuel. lia.
  - apply bool_decide_eq_true in Hend. destruct (loadNext_run c Hc Hall) as (loaded & b & -> & Hc' & Hprog).
    cbn [mbind res_bind bestOffers]. rewrite findIncludedOffer_app by done.
    apply (IH (mkBestOffers (bestOffers c ++ loaded) b) Hc'). simpl. rewrite length_app.
    destruct Hprog as [->|Hne]; [lia|]. destruct loaded; [done|]. simpl. destruct b; lia.
Qed.

Lemma StronglySorted_lookup {A} (R : A → A → Prop) (l : list A) i j x y :
  StronglySorted R l → l !! i = Some x → l !! j = Some y → (i < j)%nat → R x y.
Proof.
  intros Hs. revert i j. induction Hs as [|z l Hs IH Hz]; intros i j Hi Hj Hij; [done|].
  destruct j as [|j]; [lia|]. destruct i as [|i]; simpl in *.
  - injection Hi as <-. eapply Forall_forall; [exact Hz|]. by eapply list_elem_of_lookup_2.
  - eapply (IH i j); eauto. lia.
Qed.

(** The first cached offer worse than the limit is the best one worse than it. *)
Lemma cached_best w c :
  cache_ok c →
  (findIncludedOffer 0 (bestOffers c) w = length (bestOffers c) → allLoaded c = true) →
  is_best (db_view db) (buying, selling) w (bestOffers c !! findIncludedOffer 0 (bestOffers c) w).
Proof.
  intros (n & Hn & Hload) Hend. destruct (findIncludedOffer_spec w (bestOffers c)) as (Hle & Hbefore & Hat).
  set (i := findIncludedOffer 0 (bestOffers c) w) in *.
  assert (∀ k oe, offered (db_view db) (buying, selling) k oe → worse w (descriptor oe) →
    ∃ j le, all !! j = Some le ∧ (i ≤ j)%nat ∧ k = offer_key oe ∧ entry_descriptor le = descriptor oe ∧
            db_view db !! k = Some (GLedgerEntry le)) as Hall.
  { intros k oe Ho Hw. destruct (offered_ok owner _ _ _ _ Hdb Ho) as [-> _].
    destruct Ho as (e & He & Hof). pose proof Hof as (le & -> & Hd & _).
    assert (le ∈ all) as [j Hj]%list_elem_of_lookup.
    { apply elem_of_ordered. unfold offer_key in He. rewrite lookup_db_view in He.
      apply fmap_Some in He as (? & Hk & [= <-]). eexists _, oe. by split_and!. }
    assert (entry_descriptor le = descriptor oe) as Hde by (unfold entry_descriptor; by rewrite Hd).
    exists j, le. split_and!; try done. destruct (decide (i ≤ j)%nat) as [|Hlt]; [done|].
    destruct (Hbefore j le); [lia| |by rewrite Hde].
    rewrite Hn, lookup_take_Some. split; [done|]. rewrite Hn, length_take in Hle. lia. }
  destruct (bestOffers c !! i) as [le|] eqn:Hi.
  - assert (all !! i = Some le) as Hi'.
    { rewrite Hn in Hi. by apply lookup_take_Some in Hi as [? _]. }
    destruct (ordered_offer None le) as (oe & Hd & Ho & Hl & Hde & _).
    { by eapply list_elem_of_lookup_2. }
    exists oe. split_and!.
    + destruct Ho as (e & He & Hof). rewrite Hl in He. by injection He as <-.
    + done.
    + rewrite <- Hde. by apply Hat.
    + intros k oe' Ho' Hw'. destruct (Hall k oe' Ho' Hw') as (j & le' & Hj & Hij & -> & Hde' & Hl').
      destruct (decide (j = i)) as [->|Hne].
      * left. assert (le' = le) as -> by congruence. destruct Ho' as (e & He & (? & -> & Hd' & _)).
        rewrite Hl' in He. injection He as <-. congruence.
      * right. rewrite <- Hde, <- Hde'.
        apply (StronglySorted_lookup better all i j); [apply ordered_sorted|done|done|lia].
  - intros k oe Ho Hw. destruct (Hall k oe Ho Hw) as (j & le & Hj & Hij & _).
    apply lookup_ge_None in Hi. rewrite (Hload (Hend ltac:(lia))) in Hi. apply lookup_lt_Some in Hj. lia.
Qed.
End offers.

(** ** The promise of the root *)

Record root_ok (r : LedgerTxnRoot) : Prop := {
  ro_wf : wf_view owner (db_view (root_db r));
  ro_cache : ∀ assets c, mBestOffersCache r !! assets = Some c → cache_ok (root_db r) assets.1 assets.2 c
}.

Lemma cache_lookup_ok r buying selling :
  root_ok r → cache_ok (root_db r) buying selling (getFromBestOffersCache r buying selling).
Proof.
  intros Hr. unfold getFromBestOffersCache. destruct (mBestOffersCache r !! (buying, selling)) as [c|] eqn:Hc.
  - by apply (ro_cache r Hr) in Hc.
  - exists 0%nat. by split.
Qed.

Lemma Root_getBestOffer_run r buying selling w :
  root_ok r →
  ∃ o r', Root_getBestOffer r buying selling w = Ok (o, r') ∧
    is_best (db_view (root_db r)) (buying, selling) w o ∧ root_ok r' ∧ root_db r' = root_db r.
Proof.
  intros Hr. pose proof (cache_lookup_ok r buying selling Hr) as Hc. pose proof (ro_wf r Hr) as Hwf.
  unfold Root_getBestOffer. set (c := getFromBestOffersCache r buying selling) in *.
  destruct (bestOffersLoop_run (root_db r) Hwf buying selling w (S (size (root_db r))) c Hc)
    as (c' & -> & Hc' & Hend).
  { assert (length (ordered (root_db r) buying selling None) ≤ size (root_db r))%nat.
    { unfold ordered. rewrite merge_sort_Permutation. etrans; [apply length_filter|].
      rewrite length_fmap, length_map_to_list. done. }
    destruct (allLoaded c); lia. }
  cbn [mbind res_bind]. pose proof (cached_best _ Hwf _ _ w c' Hc' Hend) as Hbest.
  assert (root_ok (mkRoot (root_mHeader r) (root_db r) (root_mChild r) (<[(buying, selling):=c']> (mBestOffersCache r)))) as Hr'.
  { split; simpl; [done|]. intros assets c0. rewrite lookup_insert_Some. intros [[<- <-]|[_ ?]]; [done|].
    by apply (ro_cache r Hr). }
  destruct (bestOffers c' !! _) as [le|] eqn:Hle; [|by eexists _, _].
  destruct (findIncludedOffer_spec w (bestOffers c')) as (_ & _ & Hat). specialize (Hat le Hle).
  rewrite cassert_true by (by destruct w). by eexists _, _.
Qed.

Lemma root_lawful r : root_ok r → LawfulParent owner (Root_asParent r) (db_view (root_db r)).
Proof.
  intros Hr. split.
  - apply Hr.
  - intros k. apply Root_newest.
  - intros buying selling w _. destruct (Root_getBestOffer_run r buying selling w Hr) as (o & r' & Hrun & Hb & _).
    exists o. split; [|done]. simpl. by rewrite Hrun.
  - intros k le. simpl. unfold Root_getAllOffers. rewrite map_lookup_filter_Some, lookup_db_view. simpl.
    unfold is_offer. destruct (root_db r !! k) as [le'|]; simpl; [|naive_solver].
    split.
    + intros [[= <-] Hof]. destruct (entry_data le') as [| |oe| |] eqn:Hd; try done. by exists oe.
    + intros (oe & [= <-] & Hd & _). by rewrite Hd.
  - intros account asset k le. simpl. unfold Root_getOffersByAccountAndAsset.
    rewrite map_lookup_filter_Some, lookup_db_view. simpl.
    unfold offerOf, trades. destruct (root_db r !! k) as [le'|]; simpl; [|naive_solver].
    split.
    + intros [[= <-] Hof]. destruct (entry_data le') as [| |oe| |] eqn:Hd; try done. exists oe.
      by rewrite andb_true_iff, orb_true_iff, !bool_decide_eq_true in Hof.
    + intros (oe & [= <-] & Hd & Htr). rewrite Hd.
      by rewrite andb_true_iff, orb_true_iff, !bool_decide_eq_true.
Qed.

(** ** Writing a level to the database *)

Lemma bulkUpsert_other l db k : k ∉ l.*1 → bulkUpsert l db !! k = db !! k.
Proof.
  unfold bulkUpsert. revert db. induction l as [|[k' le] l IH]; intros db Hk; simpl in *; [done|].
  apply not_elem_of_cons in Hk as [Hne Hk]. by rewrite IH, lookup_insert_ne.
Qed.

Lemma bulkUpsert_in l db k le :
  (k, le) ∈ l → (∀ le', (k, le') ∈ l → le' = le) → bulkUpsert l db !! k = Some le.
Proof.
  unfold bulkUpsert. revert db. induction l as [|[k' le'] l IH]; intros db Hin Hfun; simpl in *; [set_solver|].
  destruct (decide (k ∈ l.*1)) as [([? le2] & -> & Hl)%list_elem_of_fmap|Hn].
  - assert (le2 = le) as -> by (apply Hfun; by right). apply IH; [done|]. intros le3 H3. apply Hfun. by right.
  - setoid_rewrite bulkUpsert_other; [|done]. apply elem_of_cons in Hin as [[= <- <-]|Hin]; [apply lookup_insert_eq|].
    destruct Hn. by apply (list_elem_of_fmap_2 fst) in Hin.
Qed.

Lemma lookup_foldl_delete (keys : list LedgerKey) (db : gmap LedgerKey LedgerEntry) k :
  foldl (λ db k, delete k db) db keys !! k = if decide (k ∈ keys) then None else db !! k.
Proof.
  revert db. induction keys as [|k' keys IH]; intros db.
  { by rewrite decide_False by set_solver. }
  simpl foldl. rewrite IH. destruct (decide (k ∈ keys)), (decide (k ∈ k' :: keys)) as [Hc|Hc]; try done; try set_solver.
  - apply elem_of_cons in Hc as [->|]; [apply lookup_delete_eq|done].
  - apply lookup_delete_ne. set_solver.
Qed.

Lemma bulkDelete_run keys cons (db : gmap LedgerKey LedgerEntry) :
  NoDup keys → (cons = EXACT → ∀ k, k ∈ keys → is_Some (db !! k)) →
  bulkDelete keys cons db = Ok (foldl (λ db k, delete k db) db keys).
Proof.
  intros Hnd Hin. unfold bulkDelete. destruct (decide (cons = EXACT)) as [Hc|Hc].
  2: { by rewrite (bool_decide_eq_false_2 (cons = EXACT)), andb_false_r. }
  specialize (Hin Hc). rewrite bool_decide_eq_true_2; [done|]. clear Hc.
  assert (size db = size (foldl (λ db k, delete k db) db keys) + length keys)%nat; [|lia].
  revert db Hin. induction Hnd as [|k keys Hk Hnd IH]; intros db Hin; simpl; [lia|].
  destruct (Hin k) as [le Hle]; [set_solver|].
  assert (size db = S (size (delete k db))) as ->.
  { rewrite <- (insert_delete_id db k le Hle) at 1. apply map_size_insert_None, lookup_delete_eq. }
  rewrite (IH (delete k db)); [lia|]. intros k' Hk'. rewrite lookup_delete_ne by set_solver. apply Hin. set_solver.
Qed.

(** What the database holds for a key once the entries are written. *)
Definition written (m : EntryMap) (db : gmap LedgerKey LedgerEntry) (k : LedgerKey) : option LedgerEntry :=
  match m !! GLedgerKey k with
  | Some (Some (GLedgerEntry le)) => Some le
  | Some _ => None
  | None => db !! k
  end.

Section commit.
Context (m : EntryMap) (db0 : gmap LedgerKey LedgerEntry) (cons : LedgerTxnConsistency).
Context (Hkeys : ∀ k e, m !! GLedgerKey k = Some (Some e) → toKey e = GLedgerKey k).
Context (Hexact : cons = EXACT → ∀ k, m !! GLedgerKey k = Some None → is_Some (db0 !! k)).

(** The entries not yet read from the iterator, those in the buffers and those
    in the database together are the entries of the level. *)
Record acc_ok (rest : list GeneralizedLedgerKey) (b : BulkLedgerEntryChangeAccumulator)
    (db : gmap LedgerKey LedgerEntry) : Prop := {
  acc_upsert : ∀ t k le, (k, le) ∈ toUpsert b t →
    ledger_key_type k = t ∧ m !! GLedgerKey k = Some (Some (GLedgerEntry le)) ∧ GLedgerKey k ∉ rest;
  acc_delete : ∀ t k, k ∈ toDelete b t →
    ledger_key_type k = t ∧ m !! GLedgerKey k = Some None ∧ GLedgerKey k ∉ rest ∧ db !! k = db0 !! k;
  acc_nodup : ∀ t, NoDup (toDelete b t);
  acc_rest : ∀ k, GLedgerKey k ∈ rest ∨ m !! GLedgerKey k = None → db !! k = db0 !! k;
  acc_done : ∀ k, is_Some (m !! GLedgerKey k) → GLedgerKey k ∉ rest →
    db !! k = written m db0 k ∨ (∃ le, (k, le) ∈ toUpsert b (ledger_key_type k)) ∨
    k ∈ toDelete b (ledger_key_type k)
}.

Lemma update_at_eq {A} t (a : A) f : update_at t a f t = a.
Proof. unfold update_at. by rewrite Z.eqb_refl. Qed.

Lemma update_at_ne {A} t t' (a : A) f : t' ≠ t → update_at t a f t' = f t'.
Proof. unfold update_at. by intros ->%Z.eqb_neq. Qed.

Lemma acc_ok_upsert rest b db t :
  acc_ok rest b db →
  acc_ok rest (mkBleca (update_at t [] (toUpsert b)) (toDelete b)) (bulkUpsert (toUpsert b t) db).
Proof.
  intros [Hu Hd Hn Hr Hdone].
  assert (∀ k, k ∈ (toUpsert b t).*1 → ∃ le, (k, le) ∈ toUpsert b t ∧
    m !! GLedgerKey k = Some (Some (GLedgerEntry le)) ∧ GLedgerKey k ∉ rest ∧
    bulkUpsert (toUpsert b t) db !! k = Some le) as Hin.
  { intros k ([? le] & -> & Hl)%list_elem_of_fmap. destruct (Hu _ _ _ Hl) as (_ & Hm & Hnr).
    exists le. split_and!; try done. apply bulkUpsert_in; [done|].
    intros le' (_ & Hm' & _)%Hu. simpl in *. congruence. }
  split; simpl.
  - intros t' k le. destruct (decide (t' = t)) as [->|]; [rewrite update_at_eq; set_solver|].
    rewrite update_at_ne by done. apply Hu.
  - intros t' k Hk. destruct (Hd _ _ Hk) as (? & Hm & ? & <-). split_and!; try done.
    apply bulkUpsert_other. intros (le & _ & Hm' & _)%Hin. congruence.
  - done.
  - intros k Hk. rewrite <- (Hr k Hk). apply bulkUpsert_other. intros (le & _ & Hm & Hnr & _)%Hin.
    destruct Hk; [done|congruence].
  - intros k Hk Hnr. destruct (decide (k ∈ (toUpsert b t).*1)) as [(le & _ & Hm & _ & ->)%Hin|Hni].
    { left. unfold written. by rewrite Hm. }
    rewrite bulkUpsert_other by done. destruct (Hdone k Hk Hnr) as [?|[[le Hle]|?]]; auto.
    right; left. exists le. rewrite update_at_ne; [done|]. intros <-.
    by apply Hni, (list_elem_of_fmap_2 fst _ (k, le)).
Qed.

Lemma acc_ok_delete rest b db t :
  acc_ok rest b db →
  ∃ db', bulkDelete (toDelete b t) cons db = Ok db' ∧
    acc_ok rest (mkBleca (toUpsert b) (update_at t [] (toDelete b))) db'.
Proof.
  intros [Hu Hd Hn Hr Hdone]. eexists. split.
  { apply bulkDelete_run; [apply Hn|]. intros Hc k (_ & Hm & _ & ->)%Hd. by apply Hexact. }
  split; simpl; [done| | | |].
  - intros t' k. destruct (decide (t' = t)) as [->|Hne]; [rewrite update_at_eq; set_solver|].
    rewrite update_at_ne by done. intros (Ht & ? & ? & Hdb)%Hd. split_and!; try done.
    rewrite lookup_foldl_delete, decide_False; [done|]. intros (? & _)%Hd. congruence.
  - intros t'. destruct (decide (t' = t)) as [->|]; [rewrite update_at_eq; constructor|].
    by rewrite update_at_ne.
  - intros k Hk. rewrite lookup_foldl_delete, decide_False; [by apply Hr|].
    intros (_ & Hm & Hnr & _)%Hd. destruct Hk; [done|congruence].
  - intros k Hk Hnr. rewrite lookup_foldl_delete. destruct (decide (k ∈ toDelete b t)) as [Hin|Hni].
    { left. apply Hd in Hin as (_ & Hm & _). unfold written. by rewrite Hm. }
    destruct (Hdone k Hk Hnr) as [?|[[le Hle]|?]]; [by left|by right; left; exists le|].
    right; right. rewrite update_at_ne; [done|]. by intros <-.
Qed.

Lemma bulkApply_run types n rest b db :
  acc_ok rest b db →
  ∃ b' db', bulkApply types n cons b db = Ok (b', db') ∧ acc_ok rest b' db' ∧
    (∀ t, length (toUpsert b' t) ≤ length (toUpsert b t) ∧ length (toDelete b' t) ≤ length (toDelete b t))%nat ∧
    (∀ t, t ∈ types → length (toUpsert b' t) ≤ n ∧ length (toDelete b' t) ≤ n)%nat.
Proof.
  revert b db. induction types as [|t types IH]; intros b db Hok; simpl.
  { exists b, db. split_and!; [done|done|lia|set_solver]. }
  assert (∃ b1 db1, (if decide (n < length (toUpsert b t))%nat
      then (mkBleca (update_at t [] (toUpsert b)) (toDelete b), bulkUpsert (toUpsert b t) db)
      else (b, db)) = (b1, db1) ∧ acc_ok rest b1 db1 ∧ toDelete b1 = toDelete b ∧
      (∀ t', length (toUpsert b1 t') ≤ length (toUpsert b t'))%nat ∧ (length (toUpsert b1 t) ≤ n)%nat)
    as (b1 & db1 & -> & Hok1 & Hd1 & Hu1 & Hn1).
  { case_decide; eexists _, _; (split_and!; [done| | |intros t'|]); try done; try lia; simpl.
    - by apply acc_ok_upsert.
    - unfold update_at. case_match; simpl; lia.
    - rewrite update_at_eq. simpl. lia. }
  assert (∃ b2 db2, (if decide (n < length (toDelete b1 t))%nat
      then db ← bulkDelete (toDelete b1 t) cons db1;
           mret (mkBleca (toUpsert b1) (update_at t [] (toDelete b1)), db)
      else mret (b1, db1)) = Ok (b2, db2) ∧ acc_ok rest b2 db2 ∧ toUpsert b2 = toUpsert b1 ∧
      (∀ t', length (toDelete b2 t') ≤ length (toDelete b1 t'))%nat ∧ (length (toDelete b2 t) ≤ n)%nat)
    as (b2 & db2 & -> & Hok2 & Hu2 & Hd2 & Hn2).
  { case_decide; [|eexists _, _; split_and!; [done|done|done|lia|lia]].
    destruct (acc_ok_delete _ _ _ t Hok1) as (db2 & -> & Hok2).
    eexists _, _. split_and!; [done|done|done|intros t'|]; simpl.
    - unfold update_at. case_match; simpl; lia.
    - rewrite update_at_eq. simpl. lia. }
  cbn [mbind res_bind]. destruct (IH b2 db2 Hok2) as (b3 & db3 & -> & Hok3 & Hle & Hn3).
  exists b3, db3. split_and!; [done|done| |].
  - intros t'. destruct (Hle t'). rewrite Hu2 in *. specialize (Hu1 t'). specialize (Hd2 t'). rewrite Hd1 in Hd2. lia.
  - intros t' [->|Ht']%elem_of_cons; [|by apply Hn3]. destruct (Hle t). rewrite Hu2 in *. lia.
Qed.

Lemma elem_of_update_snoc {A} t t' (a x : A) (f : Z → list A) :
  x ∈ update_at t (f t ++ [a]) f t' ↔ x ∈ f t' ∨ t' = t ∧ x = a.
Proof.
  destruct (decide (t' = t)) as [->|Hne]; [rewrite update_at_eq|rewrite update_at_ne by done]; set_solver.
Qed.

Lemma accumulate_run k v rest b db :
  acc_ok (k :: rest) b db → m !! k = Some v → k ∉ rest →
  ∃ b', accumulate b (k, v) = Ok b' ∧ acc_ok rest b' db.
Proof.
  intros [Hu Hd Hn Hr Hdone] Hm Hk.
  assert (∀ t k' le, (k', le) ∈ toUpsert b t →
    ledger_key_type k' = t ∧ m !! GLedgerKey k' = Some (Some (GLedgerEntry le)) ∧ GLedgerKey k' ∉ rest) as Hu'.
  { intros t k' le (? & ? & [_ ?]%not_elem_of_cons)%Hu. done. }
  assert (∀ t k', k' ∈ toDelete b t → ledger_key_type k' = t ∧ m !! GLedgerKey k' = Some None ∧
    GLedgerKey k' ∉ rest ∧ db !! k' = db0 !! k') as Hd'.
  { intros t k' (? & ? & [_ ?]%not_elem_of_cons & ?)%Hd. done. }
  assert (∀ k', GLedgerKey k' ∈ rest ∨ m !! GLedgerKey k' = None → db !! k' = db0 !! k') as Hr'.
  { intros k' [?|?]; apply Hr; [left; by right|by right]. }
  assert (∀ k', is_Some (m !! GLedgerKey k') → GLedgerKey k' ∉ rest → GLedgerKey k' ≠ k →
    db !! k' = written m db0 k' ∨ (∃ le, (k', le) ∈ toUpsert b (ledger_key_type k')) ∨
    k' ∈ toDelete b (ledger_key_type k')) as Hdone'.
  { intros k' Hk' Hnr Hne. apply Hdone; [done|]. by rewrite not_elem_of_cons. }
  destruct k as [k|s|s]; [|by exists b; split; [|split; auto]..].
  unfold accumulate; simpl. destruct v as [e|].
  - assert (∃ le, e = GLedgerEntry le) as [le ->] by (apply Hkeys in Hm; destruct e; naive_solver).
    eexists. split; [done|]. split; simpl; [| done | done | done |].
    + intros t k' le'. rewrite elem_of_update_snoc. intros [Hin|[-> [= -> ->]]]; [by apply Hu'|done].
    + intros k' Hk' Hnr. setoid_rewrite elem_of_update_snoc. destruct (decide (k' = k)) as [->|Hne].
      * right; left. exists le. by right.
      * destruct (Hdone' k' Hk' Hnr) as [?|[[le' ?]|?]]; [congruence|by left|right; left; eauto|by right; right].
  - eexists. split; [done|]. split; simpl; [done| | |done|].
    + intros t k'. rewrite elem_of_update_snoc. intros [Hin|[-> ->]]; [by apply Hd'|].
      split_and!; try done. apply Hr. left. by left.
    + intros t. destruct (decide (t = ledger_key_type k)) as [->|]; [|by rewrite update_at_ne].
      rewrite update_at_eq. apply NoDup_app. split_and!; [done| |apply NoDup_singleton].
      intros k' (_ & _ & [? _]%not_elem_of_cons & _)%Hd ->%list_elem_of_singleton. done.
    + intros k' Hk' Hnr. rewrite elem_of_update_snoc. destruct (decide (k' = k)) as [->|Hne]; [by right; right; right|].
      destruct (Hdone' k' Hk' Hnr) as [?|[?|?]]; [congruence|by left|by right; left|by right; right; left].
Qed.

Lemma entryTypes_all k : ledger_key_type k ∈ entryTypes.
Proof. destruct k; simpl; unfold entryTypes; set_solver. Qed.

Lemma commitLoop_run iter b db :
  (∀ kv, kv ∈ iter → m !! kv.1 = Some kv.2) → NoDup iter.*1 → acc_ok iter.*1 b db →
  (iter = [] → ∀ t, t ∈ entryTypes → toUpsert b t = [] ∧ toDelete b t = []) →
  ∃ db', commitLoop iter cons b db = Ok db' ∧ ∀ k, db' !! k = written m db0 k.
Proof.
  revert b db. induction iter as [|[k v] iter IH]; intros b db Hm Hnd Hok Hlast; cbn [commitLoop].
  - exists db. split; [done|]. intros k. destruct Hok as [_ _ _ Hr Hdone].
    destruct (m !! GLedgerKey k) eqn:Hk.
    + destruct (Hlast eq_refl _ (entryTypes_all k)) as [Hu Hd].
      destruct (Hdone k) as [?|[[le Hle]|Hdel]]; [by rewrite Hk|by apply not_elem_of_nil|done| |].
      * rewrite Hu in Hle. by apply not_elem_of_nil in Hle.
      * rewrite Hd in Hdel. by apply not_elem_of_nil in Hdel.
    + unfold written. rewrite Hk. apply Hr. by right.
  - apply NoDup_cons in Hnd as [Hni Hnd].
    destruct (accumulate_run k v iter.*1 b db Hok) as (b1 & -> & Hok1); [by apply (Hm (k, v)); left|done|].
    cbn [mbind res_bind]. match goal with |- context [bulkApply entryTypes ?x] => set (n := x) end.
    destruct (bulkApply_run entryTypes n _ _ _ Hok1) as (b2 & db2 & -> & Hok2 & _ & Hn).
    cbn [mbind res_bind]. apply IH; [|done|done|].
    + intros kv Hkv. apply Hm. by right.
    + intros -> t Ht. destruct (Hn t Ht). unfold n in *. by split; apply length_zero_iff_nil; lia.
Qed.
End commit.

(** The database after a commit. *)
Lemma Root_commitChild_run m cons h r :
  root_ok r → wf_entries owner m →
  (cons = EXACT → ∀ k, m !! k = Some None → is_Some (db_view (root_db r) !! k)) →
  ∃ r', Root_commitChild (map_to_list m) cons h r = Ok r' ∧ root_ok r' ∧
    root_mHeader r' = h ∧ root_mChild r' = false ∧
    ∀ k, root_db r' !! k = written m (root_db r) k.
Proof.
  intros Hr Hm Hex. unfold Root_commitChild.
  destruct (commitLoop_run m (root_db r) cons) with (iter := map_to_list m)
    (b := mkBleca (λ _, []) (λ _, [])) (db := root_db r) as (db' & -> & Hdb').
  - intros k e He. by apply Hm in He as [? _].
  - intros Hc k Hk. specialize (Hex Hc _ Hk). rewrite lookup_db_view in Hex. by apply fmap_is_Some in Hex.
  - intros [k v]. by rewrite elem_of_map_to_list.
  - apply NoDup_fst_map_to_list.
  - split; simpl; try set_solver; [intros; constructor|]. intros k [v Hv] Hni. destruct Hni.
    apply list_elem_of_fmap. exists (GLedgerKey k, v). by rewrite elem_of_map_to_list.
  - done.
  - eexists. split; [done|]. split_and!; try done. split; simpl; [|set_solver].
    intros k e (k' & le & -> & -> & Hl)%db_view_Some. rewrite Hdb' in Hl. unfold written in Hl.
    destruct (m !! GLedgerKey k') as [[[le'| |]|]|] eqn:E; try done.
    + injection Hl as ->. by apply Hm in E.
    + apply (ro_wf r Hr). by rewrite lookup_db_view, Hl.
Qed.
End root.
