(* ===== verification/LedgerTxnRefine.v ===== *)
(** * Nested ledger transactions: refinement

    A stack of nested [LedgerTxn]s over the database, with its entry maps, order
    books and caches, cannot be told by its clients from the specification of
    [LedgerTxnSpec], in which every level holds the whole ledger. *)

From S2P Require Import Prelude StateMonad Numeric LedgerEntries GeneralizedEntries OfferOrder LedgerTxn LedgerTxnProps LedgerTxnSpec LedgerTxnSteps LedgerTxnRoot LedgerTxnRootProps.

(** ** Clients of the ledger

    A client opens, closes and uses levels, and decides what to do next by the
    answers it gets.  In between, others may read from the root. *)

Inductive Request : Type → Type :=
| Open (shouldUpdateLastModified : bool) : Request unit
| Commit : Request unit
| Rollback : Request unit
| Create (e : GeneralizedLedgerEntry) : Request LedgerTxnEntry
| CreateOrUpdate (e : GeneralizedLedgerEntry) : Request unit
| Load (key : GeneralizedLedgerKey) : Request (option LedgerTxnEntry)
| LoadWithoutRecord (key : GeneralizedLedgerKey) : Request (option LedgerTxnEntry)
| Erase (key : GeneralizedLedgerKey) : Request unit
| EraseWithoutLoading (key : GeneralizedLedgerKey) : Request unit
| Current (h : LedgerTxnEntry) : Request GeneralizedLedgerEntry
| Write (h : LedgerTxnEntry) (e : GeneralizedLedgerEntry) : Request unit
| Deactivate (h : LedgerTxnEntry) : Request unit
| Release (h : LedgerTxnEntry) : Request unit
| EraseHandle (h : LedgerTxnEntry) : Request unit
| LoadBestOffer (buying selling : Asset) : Request (option LedgerTxnEntry)
| LoadAllOffers : Request (gmap AccountID (list (option LedgerTxnEntry)))
| LoadOffersByAccountAndAsset (account : AccountID) (asset : Asset) : Request (list (option LedgerTxnEntry))
| LoadHeader : Request Z
| CurrentHeader (id : Z) : Request LedgerHeader
| WriteHeader (id : Z) (h : LedgerHeader) : Request unit
| DeactivateHeader : Request unit
| ReleaseHeader (id : Z) : Request unit
| UnsealHeader (f : LedgerHeader → LedgerHeader) : Request unit
| GetChanges : Request (list LedgerEntryChange)
| GetDelta : Request LedgerTxnDelta
| GetAllEntries : Request (list LedgerEntry * list LedgerEntry * list LedgerKey)
| Warm (buying selling : Asset) (worseThan : option OfferDescriptor) : Request unit.

(** [Attempt] is a [try] block that catches [std::exception]: the levels opened in it
    are rolled back.  The blocks of the program after which it goes on, those of
    [applyOperations] and of the upgrades in [closeLedger], open a level first and
    close it last, so that nothing outside of it has changed when the exception is
    caught: [run] goes on from the state before the block, whose innermost level has
    had a child. *)
Inductive Client : Type → Type :=
| Done {A} (a : A) : Client A
| Raise {A} (e : exn) : Client A
| Ask {A B} (r : Request B) (k : B → Client A) : Client A
| Attempt {A B} (c : Client B) (k : option B → Client A) : Client A.

#[export] Instance Client_ret : MRet Client := @Done.

#[export] Instance Client_bind : MBind Client :=
  fix bind {A B} (f : A → Client B) (c : Client A) : Client B :=
    match c in Client A return (A → Client B) → Client B with
    | Done a => λ f, f a
    | Raise e => λ _, Raise e
    | Ask r k => λ f, Ask r (λ b, bind f (k b))
    | Attempt c k => λ f, Attempt c (λ o, bind f (k o))
    end f.

Definition ask {A} (r : Request A) : Client A := Ask r Done.

(** A read by someone else, which may fill the cache of the root. *)
Definition warm (buying selling : Asset) (worseThan : option OfferDescriptor) : M LedgerTxnStack unit :=
  λ st, '(_, r) ← Root_getBestOffer (base st) buying selling worseThan; Ok (tt, mkStack (levels st) r).

Definition serve {A} (r : Request A) : M LedgerTxnStack A :=
  match r with
  | Open b => openLedgerTxn b
  | Commit => commit
  | Rollback => rollback
  | Create e => innermost (λ p, create p e)
  | CreateOrUpdate e => innermost (λ p, createOrUpdateWithoutLoading p e)
  | Load key => innermost (λ p, load p key)
  | LoadWithoutRecord key => innermost (λ p, loadWithoutRecord p key)
  | Erase key => innermost (λ p, erase p key)
  | EraseWithoutLoading key => innermost (λ _, eraseWithoutLoading key)
  | Current h => innermost (λ _, currentGeneralized h)
  | Write h e => innermost (λ _, writeCurrent h e)
  | Deactivate h => innermost (λ p, deactivate p h)
  | Release h => innermost (λ p, release p h)
  | EraseHandle h => innermost (λ p, eraseHandle p h)
  | LoadBestOffer buying selling => innermost (λ p, loadBestOffer p buying selling)
  | LoadAllOffers => innermost loadAllOffers
  | LoadOffersByAccountAndAsset account asset => innermost (λ p, loadOffersByAccountAndAsset p account asset)
  | LoadHeader => innermost (λ _, loadHeader)
  | CurrentHeader id => innermost (λ _, currentHeader id)
  | WriteHeader id h => innermost (λ _, writeHeader id h)
  | DeactivateHeader => innermost (λ _, deactivateHeader)
  | ReleaseHeader id => innermost (λ _, releaseHeader id)
  | UnsealHeader f => innermost (λ _, unsealHeader f)
  | GetChanges => innermost getChanges
  | GetDelta => innermost getDelta
  | GetAllEntries => innermost getAllEntries
  | Warm buying selling w => warm buying selling w
  end.

Definition spec_serve {A} (r : Request A) : M SpecStack A :=
  match r with
  | Open b => spec_open b
  | Commit => spec_commit
  | Rollback => spec_rollback
  | Create e => spec_innermost (λ σ _, spec_create σ e)
  | CreateOrUpdate e => spec_innermost (λ σ _, spec_createOrUpdate σ e)
  | Load key => spec_innermost (λ σ _, spec_load σ key)
  | LoadWithoutRecord key => spec_innermost (λ _ _, spec_loadWithoutRecord key)
  | Erase key => spec_innermost (λ σ _, spec_erase σ key)
  | EraseWithoutLoading key => spec_innermost (λ _ _, spec_eraseWithoutLoading key)
  | Current h => spec_innermost (λ _ _, spec_current h)
  | Write h e => spec_innermost (λ σ _, spec_write σ h e)
  | Deactivate h => spec_innermost (λ _ _, spec_deactivate h)
  | Release h => spec_innermost (λ _ _, spec_release h)
  | EraseHandle h => spec_innermost (λ σ _, spec_eraseHandle σ h)
  | LoadBestOffer buying selling => spec_innermost (λ σ _, spec_loadBestOffer σ buying selling)
  | LoadAllOffers => spec_innermost (λ σ _, spec_loadAllOffers σ)
  | LoadOffersByAccountAndAsset account asset =>
      spec_innermost (λ σ _, spec_loadOffersByAccountAndAsset σ account asset)
  | LoadHeader => spec_innermost (λ _ _, spec_loadHeader)
  | CurrentHeader id => spec_innermost (λ _ _, spec_currentHeader id)
  | WriteHeader id h => spec_innermost (λ _ _, spec_writeHeader id h)
  | DeactivateHeader => spec_innermost (λ _ _, spec_deactivateHeader)
  | ReleaseHeader id => spec_innermost (λ _ _, spec_releaseHeader id)
  | UnsealHeader f => spec_innermost (λ _ _, spec_unsealHeader f)
  | GetChanges => spec_innermost (λ σ _, spec_getChanges σ)
  | GetDelta => spec_innermost (λ σ h, spec_getDelta σ h)
  | GetAllEntries => spec_innermost (λ σ _, spec_getAllEntries σ)
  | Warm _ _ _ => mret tt
  end.

Fixpoint run {S A} (server : ∀ B, Request B → M S B) (c : Client A) : M S A :=
  match c with
  | Done a => mret a
  | Raise e => throw e
  | Ask r k => b ← server _ r; run server (k b)
  | Attempt c k => λ st,
      match run server c st with
      | Ok (b, st') => run server (k (Some b)) st'
      | Throw e =>
          if std_exception e then (server _ (Open true);; server _ Rollback;; run server (k None)) st else Throw e
      end
  end.

(** What is stored is an entry of its key; an offer has a positive price and an
    identifier that its seller alone uses. *)
Definition request_ok (owner : Z → AccountID) {A} (r : Request A) : Prop :=
  match r with
  | Create e | CreateOrUpdate e => entry_ok owner e
  | Write h e => toKey e = h_key h ∧ entry_ok owner e
  | _ => True
  end.

(** Every request the client makes, when it is served by the specification. *)
Fixpoint client_ok (owner : Z → AccountID) {A} (c : Client A) (st : SpecStack) : Prop :=
  match c with
  | Done _ | Raise _ => True
  | Ask r k =>
      request_ok owner r ∧
      match spec_serve r st with
      | Ok (b, st') => client_ok owner (k b) st'
      | Throw _ => True
      end
  | Attempt c k =>
      client_ok owner c st ∧
      match run (@spec_serve) c st with
      | Ok (b, st') => client_ok owner (k (Some b)) st'
      | Throw e =>
          if std_exception e then
            match (spec_open true;; spec_rollback) st with
            | Ok (_, st') => client_ok owner (k None) st'
            | Throw _ => True
            end
          else True
      end
  end.

(** ** Reading off the changes of a level *)

Section sealing.
Variable owner : Z → AccountID.
Context (p : AbstractLedgerTxnParent) (σ : View) `{!LawfulParent owner p σ}.

Lemma lookup_spec_entries l k :
  spec_entries l !! k = if decide (k ∈ v_touched l) then Some (sealed_view l !! k) else None.
Proof.
  unfold spec_entries. rewrite map_lookup_imap, lookup_gset_to_gmap. case_decide.
  - by rewrite option_guard_True.
  - by rewrite option_guard_False.
Qed.

Lemma committedEntries_spec s :
  level_ok owner σ s → committedEntries s = Ok (spec_entries (absLevel σ s)).
Proof.
  intros Hs. destruct (committedEntries_run owner σ s Hs) as (entries & -> & _ & Hdom & Hov).
  f_equal. apply map_eq. intros k. rewrite lookup_spec_entries, <- Hov, lookup_overlay. simpl.
  rewrite <- Hdom. destruct (entries !! k) eqn:E.
  - rewrite decide_True; [done|]. apply elem_of_dom. by eexists.
  - rewrite decide_False; [done|]. by apply not_elem_of_dom.
Qed.

Lemma wf_spec_entries s : level_ok owner σ s → wf_entries owner (spec_entries (absLevel σ s)).
Proof.
  intros Hs. destruct (committedEntries_run owner σ s Hs) as (entries & Hce & Hwf & _).
  rewrite committedEntries_spec in Hce by done. by injection Hce as ->.
Qed.

Lemma sim_sealing {A} (f : EntryMap → Impl → res A) (g : EntryMap → Level → A) s :
  level_ok owner σ s →
  f (spec_entries (absLevel σ s)) s = Ok (g (spec_entries (absLevel σ s)) (absLevel σ s)) →
  ∃ a s', maybeUpdateLastModifiedThenInvokeThenSeal f s = Ok (a, s') ∧
    spec_sealing g (absLevel σ s) = Ok (a, absLevel σ s') ∧ level_ok owner σ s'.
Proof.
  intros Hs Hf. destruct (seal_run owner σ s f Hs) as (entries & Hce & Hrun).
  rewrite committedEntries_spec in Hce by done. injection Hce as <-. rewrite Hf in Hrun.
  destruct Hrun as (s' & Hrun & Hs' & Habs). eexists _, s'. unfold spec_sealing. by rewrite Habs.
Qed.

(** The entries of a list that fit their keys. *)
Definition fitting (l : list (GeneralizedLedgerKey * option GeneralizedLedgerEntry)) : Prop :=
  ∀ kv, kv ∈ l → fits owner kv.1 kv.2.

Lemma fitting_entries m : wf_entries owner m → fitting (map_to_list m).
Proof. intros Hm [k o] Hk%elem_of_map_to_list e Ho. simpl in *. subst o. by apply Hm. Qed.

Lemma fits_ledger k e : fits owner (GLedgerKey k) (Some e) → ∃ le, e = GLedgerEntry le.
Proof. intros Hf. destruct (Hf e eq_refl) as [Hk _]. destruct e; [eauto|done|done]. Qed.

Lemma allEntriesOf_run l :
  fitting l →
  allEntriesOf p l =
  Ok (omap (λ kv, match kv.2 with
                  | Some (GLedgerEntry le) => if σ !! kv.1 is None then Some le else None
                  | _ => None
                  end) l,
      omap (λ kv, match kv.2 with
                  | Some (GLedgerEntry le) => if σ !! kv.1 is Some _ then Some le else None
                  | _ => None
                  end) l,
      omap (λ kv, match kv with (GLedgerKey k, None) => Some k | _ => None end) l).
Proof.
  induction l as [|[k o] l IH]; intros Hl; [done|]. cbn [allEntriesOf]. rewrite IH by (intros kv ?; apply Hl; by right).
  assert (fits owner k o) as Hf by (apply (Hl (k, o)); by left).
  destruct k as [k|s|s].
  - rewrite (parent_newest owner p σ). destruct o as [e|]; [|done].
    destruct (fits_ledger _ _ Hf) as [le ->]. simpl. by destruct (σ !! GLedgerKey k).
  - destruct o as [[]|]; try done. by destruct (Hf _ eq_refl).
  - destruct o as [[]|]; try done. by destruct (Hf _ eq_refl).
Qed.

Lemma sim_getAllEntries : sim owner σ (getAllEntries p) (spec_getAllEntries σ).
Proof.
  intros s Hs. unfold getAllEntries, spec_getAllEntries.
  edestruct (sim_sealing (λ entries _, allEntriesOf p (map_to_list entries))) as (a & s' & -> & -> & Hs'); [done| |done].
  apply allEntriesOf_run, fitting_entries, wf_spec_entries, Hs.
Qed.

Lemma changesOf_run l :
  fitting l → (∀ kv, kv ∈ l → kv.2 = None → is_Some (σ !! kv.1)) →
  changesOf p l =
  Ok (flat_map (λ kv, match kv.1, σ !! kv.1, kv.2 with
                  | GLedgerKey _, None, Some (GLedgerEntry le) => [LEDGER_ENTRY_CREATED le]
                  | GLedgerKey _, Some (GLedgerEntry prev), Some (GLedgerEntry le) =>
                      [LEDGER_ENTRY_STATE prev; LEDGER_ENTRY_UPDATED le]
                  | GLedgerKey k, Some (GLedgerEntry prev), None => [LEDGER_ENTRY_STATE prev; LEDGER_ENTRY_REMOVED k]
                  | _, _, _ => []
                  end) l).
Proof.
  induction l as [|[k o] l IH]; intros Hl Hex; [done|]. cbn [changesOf flat_map].
  rewrite IH; [|intros kv ?; apply Hl; by right|intros kv ?; apply Hex; by right].
  assert (fits owner k o) as Hf by (apply (Hl (k, o)); by left).
  assert (o = None → is_Some (σ !! k)) as Hk by (apply (Hex (k, o)); by left).
  destruct k as [k|s|s]; [|done|done]. rewrite (parent_newest owner p σ). simpl.
  destruct (σ !! GLedgerKey k) as [prev|] eqn:Hp.
  - apply (lp_wf owner (p:=p)) in Hp as [Hp _]. destruct prev as [prev| |]; [|done|done].
    destruct o as [e|]; [|done]. by destruct (fits_ledger _ _ Hf) as [le ->].
  - destruct o as [e|]; [|by destruct Hk]. by destruct (fits_ledger _ _ Hf) as [le ->].
Qed.

Lemma sim_exact {A} (m : M Impl A) (a : M Level A) :
  (∀ s, level_ok owner σ s → mConsistency s = EXACT →
     match m s with
     | Ok (r, s') => a (absLevel σ s) = Ok (r, absLevel σ s') ∧ level_ok owner σ s'
     | Throw e => a (absLevel σ s) = Throw e
     end) →
  sim owner σ (_ ← reads throwIfNotExactConsistency; m) (guard_exact;; a).
Proof.
  intros Hm s Hs. specialize (Hm s Hs). unfold guard_exact. rewrite M_bind_assoc, bind_gets. simpl v_consistency.
  destruct (mConsistency s) eqn:HE.
  - rewrite (bind_run _ _ s tt s) by (unfold reads, throwIfNotExactConsistency; by rewrite HE). by apply Hm.
  - erewrite bind_Throw; [done|]. unfold reads, throwIfNotExactConsistency. by rewrite HE.
Qed.

Lemma sim_getChanges : sim owner σ (getChanges p) (spec_getChanges σ).
Proof.
  apply sim_exact. intros s Hs HE.
  edestruct (sim_sealing (λ entries _, changesOf p (map_to_list entries))) as (a & s' & -> & -> & Hs'); [done| |done].
  apply changesOf_run; [apply fitting_entries, wf_spec_entries, Hs|].
  intros [k o] Hk%elem_of_map_to_list Ho. simpl in *. subst o.
  by apply (committedEntries_exact owner σ s (spec_entries (absLevel σ s))); [|apply committedEntries_spec| |].
Qed.

Lemma sim_getDelta header :
  getHeader p = header → sim owner σ (getDelta p) (spec_getDelta σ header).
Proof.
  intros <-. apply sim_exact. intros s Hs HE.
  edestruct (sim_sealing (λ entries s,
    mret (mkDelta (map_imap (λ key entry, Some (entry, getNewestVersion p key)) entries)
            (mHeader s, getHeader p)))) as (a & s' & -> & -> & Hs'); [done| |done].
  unfold mret, res_ret. do 2 f_equal. apply map_eq. intros k. rewrite !map_lookup_imap.
  by rewrite (parent_newest owner p σ).
Qed.

Lemma sim_unsealHeader f : sim owner σ (unsealHeader f) (spec_unsealHeader f).
Proof.
  intros s Hs. unfold unsealHeader, spec_unsealHeader. rewrite !bind_gets.
  change (v_sealed (absLevel σ s)) with (mIsSealed s). destruct (mIsSealed s) eqn:Hse; [|done]. rewrite !bind_gets.
  change (v_activeHeader (absLevel σ s)) with (mActiveHeader s).
  destruct (lk_sealed _ _ _ Hs Hse) as [_ Ha]. rewrite Ha. unfold modify. split.
  - unfold set_headers, absLevel. destruct s; simpl in *. by rewrite Ha.
  - pose proof (level_ok_header owner σ s (f (mHeader s)) (mActiveHeader s) (nextImpl s) Hs) as Hh.
    destruct s. apply Hh; [done|simpl; lia].
Qed.
End sealing.

(** ** Loading many offers *)

Section offers.
Variable owner : Z → AccountID.
Context (p : AbstractLedgerTxnParent) (σ : View) `{!LawfulParent owner p σ}.

Lemma is_offers_unique σ' P m m' : is_offers σ' P m → is_offers σ' P m' → m = m'.
Proof. intros H1 H2. apply map_eq. intros k. apply option_eq. intros le. by rewrite (H1 k le), (H2 k le). Qed.

Lemma kept_offers_spec keep (P : OfferEntry → Prop) σ' :
  (∀ oe, keep oe = true ↔ P oe) → is_offers σ' P (kept_offers keep σ').
Proof.
  intros Hkeep k le. unfold kept_offers.
  set (f := λ kv : GeneralizedLedgerKey * GeneralizedLedgerEntry, _ : option (LedgerKey * LedgerEntry)).
  assert (∀ kv k le, f kv = Some (k, le) ↔
    ∃ oe, kv = (GLedgerKey k, GLedgerEntry le) ∧ entry_data le = OFFER oe ∧ keep oe = true) as Hf.
  { intros [gk e] k' le'. subst f. simpl.
    destruct gk as [gk| |]; [|by split; [|intros (? & [=] & _)]..].
    destruct e as [le2| |]; [|by split; [|intros (? & [=] & _)]..].
    split.
    - destruct (entry_data le2) as [| |oe| |] eqn:Hd; try done.
      destruct (keep oe) eqn:Hk; [|done]. intros [= <- <-]. eauto.
    - intros (oe & [= -> ->] & -> & ->). done. }
  assert (NoDup (omap f (map_to_list σ')).*1) as Hnd.
  { generalize (NoDup_fst_map_to_list σ'). induction (map_to_list σ') as [|kv l IH]; simpl; [constructor|].
    rewrite NoDup_cons. intros [Hni Hnd]. specialize (IH Hnd).
    destruct (f kv) as [[k' le']|] eqn:E; [|done]. simpl. constructor; [|done].
    intros ([k2 le2] & -> & (kv' & Hin & Hf2)%list_elem_of_omap)%list_elem_of_fmap.
    apply Hf in E as (? & -> & _). apply Hf in Hf2 as (? & -> & _).
    apply Hni. by apply (list_elem_of_fmap_2 fst) in Hin. }
  rewrite <- elem_of_list_to_map by done. rewrite list_elem_of_omap. split.
  - intros (kv & Hin & (oe & -> & Hd & Hk)%Hf). apply elem_of_map_to_list in Hin.
    exists oe. split_and!; [done|done|]. by apply Hkeep.
  - intros (oe & Hin & Hd & Hk). exists (GLedgerKey k, GLedgerEntry le).
    rewrite elem_of_map_to_list, Hf. split; [done|]. exists oe. split_and!; [done|done|]. by apply Hkeep.
Qed.

Lemma sim_loadKeys keys : sim owner σ (loadKeys p keys) (spec_loadKeys σ keys).
Proof.
  induction keys as [|k keys IH]; [apply sim_ret|]. simpl. apply sim_bind; [by apply sim_load|].
  intros h. apply sim_bind; [done|]. intros hs. apply sim_ret.
Qed.

Lemma getAllOffers_spec s :
  level_ok owner σ s → Impl_getAllOffers p s = kept_offers (λ _, true) (viewOf σ s).
Proof.
  intros Hs. eapply is_offers_unique; [|by apply (kept_offers_spec _ (λ _, True))].
  eapply is_offers_overlay; [done|apply (lk_core _ _ _ Hs)|by apply (lp_all owner)|done].
Qed.

Lemma sim_loadAllOffers : sim owner σ (loadAllOffers p) (spec_loadAllOffers σ).
Proof.
  apply sim_guards. intros s Hs _. rewrite !bind_gets, getAllOffers_spec by done.
  change (v_view (absLevel σ s)) with (viewOf σ s).
  apply (sim_bind owner σ _ _ _ _ (sim_loadKeys _)); [intros hs; apply sim_ret|done].
Qed.

Lemma sim_loadOffersByAccountAndAsset account asset :
  sim owner σ (loadOffersByAccountAndAsset p account asset) (spec_loadOffersByAccountAndAsset σ account asset).
Proof.
  apply sim_guards. intros s Hs _. rewrite !bind_gets.
  assert (Impl_getOffersByAccountAndAsset p s account asset =
          kept_offers (offer_trades account asset) (viewOf σ s)) as ->.
  { assert (∀ oe, offer_trades account asset oe = true ↔ trades account asset oe) as Ht.
    { intros oe. unfold offer_trades, trades. by rewrite andb_true_iff, orb_true_iff, !bool_decide_eq_true. }
    eapply is_offers_unique; [|by apply (kept_offers_spec _ (trades account asset))].
    eapply is_offers_overlay; [done|apply (lk_core _ _ _ Hs)|by apply (lp_account owner)|exact Ht]. }
  change (v_view (absLevel σ s)) with (viewOf σ s). by apply sim_loadKeys.
Qed.
End offers.

(** ** The stack *)

Section stack.
Variable owner : Z → AccountID.

(** The ledger the levels of a list show. *)
Fixpoint below (db : gmap LedgerKey LedgerEntry) (ls : list Impl) : View :=
  match ls with [] => db_view db | l :: ls' => overlay (mEntry l) (below db ls') end.

(** A level with a child has no handles. *)
Fixpoint outer_ok (db : gmap LedgerKey LedgerEntry) (ls : list Impl) : Prop :=
  match ls with
  | [] => True
  | l :: ls' =>
      core_ok owner (below db ls') l ∅ ∧ mActive l = ∅ ∧ mIsSealed l = false ∧ mChild l = true ∧ outer_ok db ls'
  end.

Record stack_ok (st : LedgerTxnStack) : Prop := {
  so_root : root_ok owner (base st);
  so_child : root_mChild (base st) = bool_decide (levels st ≠ []);
  so_levels : match levels st with
              | [] => True
              | l :: ls => level_ok owner (below (root_db (base st)) ls) l ∧ outer_ok (root_db (base st)) ls
              end
}.

Fixpoint absLevels (db : gmap LedgerKey LedgerEntry) (ls : list Impl) : list Level :=
  match ls with [] => [] | l :: ls' => absLevel (below db ls') l :: absLevels db ls' end.

Definition absStack (st : LedgerTxnStack) : SpecStack :=
  mkSpecStack (absLevels (root_db (base st)) (levels st)) (db_view (root_db (base st))) (root_mHeader (base st)).

Definition stack_sim {A} (m : M LedgerTxnStack A) (a : M SpecStack A) : Prop :=
  ∀ st, stack_ok st →
    match m st with
    | Ok (r, st') => a (absStack st) = Ok (r, absStack st') ∧ stack_ok st'
    | Throw e => a (absStack st) = Throw e
    end.

Lemma view_of_abs st ls st' :
  s_view st' = db_view (root_db (base st)) →
  view_of (absLevels (root_db (base st)) ls) st' = below (root_db (base st)) ls.
Proof. by destruct ls. Qed.

Lemma header_of_abs st ls st' :
  s_header st' = root_mHeader (base st) →
  header_of (absLevels (root_db (base st)) ls) st' = getHeader (chain ls (base st)).
Proof. by destruct ls. Qed.

Lemma chain_lawful r ls :
  root_ok owner r → outer_ok (root_db r) ls → LawfulParent owner (chain ls r) (below (root_db r) ls).
Proof.
  intros Hr. induction ls as [|l ls IH]; simpl; [intros _; by apply root_lawful|].
  intros (Hc & Ha & _ & _ & Ho). apply level_lawful; auto.
Qed.

Lemma sim_innermost {A} (m : AbstractLedgerTxnParent → M Impl A) (a : View → LedgerHeader → M Level A) :
  (∀ p σ, LawfulParent owner p σ → sim owner σ (m p) (a σ (getHeader p))) →
  stack_sim (innermost m) (spec_innermost a).
Proof.
  intros Hm [ls r] [Hr Hch Hls]. unfold innermost, spec_innermost, absStack in *. cbn [levels base s_levels] in *.
  destruct ls as [|l ls]; [done|]. destruct Hls as [Hl Ho]. cbn [absLevels].
  rewrite (view_of_abs (mkStack (l :: ls) r)), (header_of_abs (mkStack (l :: ls) r)) by done. cbn [base].
  specialize (Hm _ _ (chain_lawful r ls Hr Ho) l Hl).
  destruct (m _ l) as [[x l']|e]; [|by rewrite Hm].
  destruct Hm as [-> Hl']. cbn [mbind res_bind]. split; [done|]. by split.
Qed.

Lemma sim_open b : stack_sim (openLedgerTxn b) (spec_open b).
Proof.
  intros [ls r] [Hr Hch Hls]. unfold openLedgerTxn, spec_open, absStack in *. cbn [levels base s_levels] in *.
  rewrite (view_of_abs (mkStack ls r)), (header_of_abs (mkStack ls r)) by done. cbn [base].
  assert (∀ σ p, level_ok owner σ (newImpl p b)) as Hnew.
  { intros σ p. apply level_ok_fresh; [|done..]. split; simpl; try done.
    by apply books_ok_empty. }
  assert (∀ σ p, absLevel σ (newImpl p b) = spec_newLevel σ (getHeader p) b) as Habs.
  { intros σ p. unfold absLevel, viewOf, spec_newLevel. simpl. f_equal.
    apply map_eq. intros k. by rewrite lookup_overlay, lookup_empty. }
  destruct ls as [|l ls].
  - unfold Root_addChild. rewrite Hch, bool_decide_eq_false_2 by auto. split; [by rewrite <- Habs|].
    split; simpl; [|done|by split]. split; apply Hr.
  - destruct Hls as [Hl Ho]. pose proof (chain_lawful r ls Hr Ho) as Hp. cbn [absLevels v_sealed absLevel].
    destruct (mIsSealed l) eqn:Hse.
    { assert (addChild (chain ls r) l = Throw (RuntimeError "LedgerTxn is sealed")) as ->; [|done].
      apply bind_Throw. unfold reads, throwIfSealed. by rewrite Hse. }
    destruct (addChild_run owner _ _ l Hl Hse) as (books & -> & Hc). split.
    + rewrite <- Habs. cbn [mbind res_bind absLevels]. done.
    + split; [done|done|]. split; [apply Hnew|]. by split_and!.
Qed.

Lemma sim_rollback : stack_sim rollback spec_rollback.
Proof.
  intros [ls r] [Hr Hch Hls]. unfold rollback, spec_rollback. destruct ls as [|l [|l' ls]]; [done| |].
  - split; [done|]. split; [|done|done]. split; apply Hr.
  - split; [done|]. destruct Hls as [_ (Hc & Ha & Hse & _ & Ho)]. split; [done|done|].
    split; [|done]. apply level_ok_fresh; try done. by eapply core_ok_ext.
Qed.

Lemma written_view m db :
  wf_entries owner m → ∀ k, GLedgerEntry <$> written m db k = overlay m (db_view db) !! GLedgerKey k.
Proof.
  intros Hm k. unfold written. rewrite lookup_overlay, lookup_db_view.
  destruct (m !! GLedgerKey k) as [[e|]|] eqn:E; [|done|done]. apply Hm in E as [Hk _]. by destruct e.
Qed.

Lemma sim_commit : stack_sim commit spec_commit.
Proof.
  intros [ls r] [Hr Hch Hls]. unfold commit, spec_commit. destruct ls as [|l [|l' ls]]; [done| |]; simpl in Hls.
  - destruct Hls as [Hl _]. simpl levels. cbn iota beta.
    destruct (committedEntries_run owner _ l Hl) as (entries & Hce & Hwf & _ & Hov).
    destruct (Root_commitChild_run owner entries (mConsistency l) (mHeader l) r Hr Hwf) as (r' & Hrun & Hr' & Hh & Hc & Hdb).
    { by eapply committedEntries_exact. }
    rewrite Hce. cbn [mbind res_bind base]. rewrite Hrun. split.
    + simpl. do 2 f_equal. unfold absStack. simpl. rewrite Hh. f_equal. rewrite <- Hov.
      apply map_eq. intros k. apply option_eq. intros e. unfold ledger_part. rewrite map_lookup_filter_Some. simpl.
      destruct k as [k| |]; simpl.
      2,3: split; [by intros [_ ?]|by intros (? & ? & ? & _)%db_view_Some].
      rewrite <- written_view, lookup_db_view, Hdb by done. naive_solver.
    + by split.
  - destruct Hls as [Hl (Hc & Ha & Hse & _ & Ho)]. pose proof (chain_lawful r ls Hr Ho) as Hp.
    cbn [levels base absStack absLevels s_levels].
    destruct (committedEntries_run owner _ l Hl) as (entries & Hce & Hwf & Hdom & Hov).
    destruct (commitChild_run owner _ _ l' l entries Hc Ha Hse Hwf Hdom) as (s' & Hrun & Hs' & Habs).
    { apply (co_worst _ _ _ _ (lk_core _ _ _ Hl)). }
    rewrite Hce. cbn [mbind res_bind]. rewrite Hrun. split; [|by split].
    unfold absStack. cbn [levels base absLevels below]. rewrite Habs, (view_of_abs (mkStack (l :: l' :: ls) r)) by done.
    unfold spec_commitChild. rewrite <- Hov. cbn. by rewrite Ha, Hse.
Qed.

(** Reads of the best offers by others, which fill the cache of the root. *)
Lemma sim_warm buying selling w : stack_sim (warm buying selling w) (mret tt).
Proof.
  intros [ls r] [Hr Hch Hls]. unfold warm. cbn [base levels] in *.
  destruct (Root_getBestOffer_run owner r buying selling w Hr) as (o & r' & Hrun & _ & Hr' & Hdb).
  assert (root_mHeader r' = root_mHeader r ∧ root_mChild r' = root_mChild r) as [Hh Hc].
  { revert Hrun. unfold Root_getBestOffer. destruct (bestOffersLoop _ _ _ _ _ _ _) as [[i c]|]; [|done].
    cbn [mbind res_bind]. destruct (bestOffers c !! i); [|by intros [= <- <-]].
    destruct (cassert _); [|done]. by intros [= <- <-]. }
  rewrite Hrun. cbn [mbind res_bind]. unfold absStack. cbn [base levels]. rewrite Hdb, Hh.
  split; [done|]. split; cbn [base levels]; [done|congruence|by rewrite Hdb].
Qed.

(** ** Clients *)

Create HintDb ledger_sim.
#[local] Hint Resolve sim_create sim_createOrUpdate sim_load sim_loadWithoutRecord sim_erase sim_eraseWithoutLoading
  sim_current sim_write sim_deactivate sim_release sim_eraseHandle sim_loadBestOffer sim_loadAllOffers
  sim_loadOffersByAccountAndAsset sim_loadHeader sim_currentHeader sim_writeHeader sim_deactivateHeader sim_releaseHeader
  sim_unsealHeader sim_getChanges sim_getDelta sim_getAllEntries : ledger_sim.

Lemma serve_sim {A} (r : Request A) : request_ok owner r → stack_sim (serve r) (spec_serve r).
Proof.
  destruct r; intros Hr; simpl in *;
    try (apply sim_innermost; intros p σ Hp; simpl; eauto with ledger_sim).
  - apply sim_open.
  - apply sim_commit.
  - apply sim_rollback.
  - eapply sim_write; [exact Hp|by intros e' [= <-]].
  - apply sim_warm.
Qed.

Lemma run_sim {A} (c : Client A) st :
  stack_ok st → client_ok owner c (absStack st) →
  match run (@serve) c st with
  | Ok (a, st') => run (@spec_serve) c (absStack st) = Ok (a, absStack st') ∧ stack_ok st'
  | Throw e => run (@spec_serve) c (absStack st) = Throw e
  end.
Proof.
  revert st. induction c as [A a|A what|A B r k IH|A B c IHc k IH]; intros st Hst Hc; [done|done| |];
    simpl in *; destruct Hc as [Hr Hk].
  - pose proof (serve_sim r Hr st Hst) as Hs. destruct (serve r st) as [[b st']|e] eqn:Hrun.
    + destruct Hs as [Habs Hst']. rewrite Habs in Hk. rewrite (bind_run _ _ _ _ _ Hrun), (bind_run _ _ _ _ _ Habs).
      by apply IH.
    + by rewrite (bind_Throw _ _ _ _ Hrun), (bind_Throw _ _ _ _ Hs).
  - specialize (IHc st Hst Hr). destruct (run (@serve) c st) as [[b st']|e].
    + destruct IHc as [Habs Hst']. rewrite Habs in Hk. rewrite Habs. by apply IH.
    + rewrite IHc in Hk. rewrite IHc. destruct (std_exception e); [|done].
      pose proof (sim_open true st Hst) as Ho. destruct (openLedgerTxn true st) as [[[] st1]|e1] eqn:Hrun1.
      2: { by rewrite (bind_Throw _ _ _ _ Hrun1), (bind_Throw _ _ _ _ Ho). }
      destruct Ho as [Ho Hst1]. pose proof (sim_rollback st1 Hst1) as Hr1.
      rewrite (bind_run _ _ _ _ _ Hrun1), (bind_run _ _ _ _ _ Ho). rewrite (bind_run _ _ _ _ _ Ho) in Hk.
      destruct (rollback st1) as [[[] st2]|e1] eqn:Hrun2.
      2: { by rewrite (bind_Throw _ _ _ _ Hrun2), (bind_Throw _ _ _ _ Hr1). }
      destruct Hr1 as [Hr1 Hst2]. rewrite Hr1 in Hk.
      rewrite (bind_run _ _ _ _ _ Hrun2), (bind_run _ _ _ _ _ Hr1). by apply IH.
Qed.

(** A root that was just created on a database. *)
Lemma stack_ok_init header db :
  wf_view owner (db_view db) → stack_ok (mkStack [] (mkRoot header db false ∅)).
Proof. intros Hdb. split; [|done|done]. split; [done|]. intros assets c Hc. simpl in Hc. by rewrite lookup_empty in Hc. Qed.
End stack.

(** ** The errors of the specification *)

(** The only exceptions are those that report a misuse. *)
Definition checked {S A} (m : M S A) : Prop :=
  ∀ s, match m s with Ok _ => True | Throw e => ∃ what, e = RuntimeError what end.

Lemma checked_ret {S A} (a : A) : checked (S:=S) (mret a).
Proof. done. Qed.

Lemma checked_throw {S A} what : checked (S:=S) (A:=A) (throw (RuntimeError what)).
Proof. intros s. by eexists. Qed.

Lemma checked_bind {S A B} (m : M S A) (f : A → M S B) : checked m → (∀ a, checked (f a)) → checked (m ≫= f).
Proof.
  intros Hm Hf s. specialize (Hm s). unfold mbind, M_bind. destruct (m s) as [[a s']|e]; [apply Hf|done].
Qed.

Lemma checked_gets {S A} (f : S → A) : checked (gets f).
Proof. done. Qed.

Lemma checked_modify {S} (f : S → S) : checked (modify f).
Proof. done. Qed.

Lemma checked_new_id : checked new_id.
Proof. done. Qed.

Lemma checked_sealing {A} (f : EntryMap → Level → A) : checked (spec_sealing f).
Proof. done. Qed.

Lemma checked_current h : checked (spec_current h).
Proof.
  intros l. unfold spec_current, reads.
  destruct (spec_lock h l), (v_view l !! h_key h); simpl; eauto.
Qed.

Create HintDb checked.
#[local] Hint Resolve checked_ret checked_throw checked_bind checked_gets checked_modify checked_new_id
  checked_sealing checked_current : checked.

Ltac solve_checked :=
  repeat first [solve [eauto with checked] | apply checked_bind; [|intros ?] | case_match].

Lemma checked_loadKeys σ keys : checked (spec_loadKeys σ keys).
Proof. induction keys; unfold spec_load, guard_open, activate in *; simpl; solve_checked. Qed.

Lemma checked_innermost {A} (m : View → LedgerHeader → M Level A) :
  (∀ σ h, checked (m σ h)) → checked (spec_innermost m).
Proof.
  intros Hm st. unfold spec_innermost. destruct (s_levels st) as [|l ls]; [by eexists|].
  specialize (Hm (view_of ls st) (header_of ls st) l). by destruct (m _ _ l) as [[a l']|e].
Qed.

Lemma checked_serve {A} (r : Request A) : checked (spec_serve r).
Proof.
  destruct r; simpl; try (apply checked_innermost; intros σ h').
  - intros st. unfold spec_open. destruct (s_levels st) as [|l ls]; [done|]. destruct (v_sealed l); [by eexists|done].
  - intros st. unfold spec_commit. destruct (s_levels st) as [|l [|p ls]]; [by eexists|done|done].
  - intros st. unfold spec_rollback. destruct (s_levels st); [by eexists|done].
  - unfold spec_create, guard_open, activate. solve_checked.
  - unfold spec_createOrUpdate, guard_open. solve_checked.
  - unfold spec_load, guard_open, activate. solve_checked.
  - unfold spec_loadWithoutRecord, guard_open. solve_checked.
  - unfold spec_erase, guard_open. solve_checked.
  - unfold spec_eraseWithoutLoading, guard_open. solve_checked.
  - apply checked_current.
  - unfold spec_write. solve_checked.
  - unfold spec_deactivate. solve_checked.
  - unfold spec_release, spec_deactivate. solve_checked.
  - unfold spec_eraseHandle, spec_erase, guard_open. solve_checked.
  - unfold spec_loadBestOffer, spec_load, guard_open, activate. solve_checked.
  - unfold spec_loadAllOffers, guard_open. solve_checked. apply checked_loadKeys.
  - unfold spec_loadOffersByAccountAndAsset, guard_open. solve_checked. apply checked_loadKeys.
  - unfold spec_loadHeader, guard_open. solve_checked.
  - unfold spec_currentHeader. solve_checked.
  - unfold spec_writeHeader. solve_checked.
  - unfold spec_deactivateHeader. solve_checked.
  - unfold spec_releaseHeader, spec_deactivateHeader. solve_checked.
  - unfold spec_unsealHeader. solve_checked.
  - unfold spec_getChanges, guard_exact. solve_checked.
  - unfold spec_getDelta, guard_exact. solve_checked.
  - unfold spec_getAllEntries. solve_checked.
  - done.
Qed.

(** The exceptions a client raises itself. *)
Fixpoint raises {A} (c : Client A) (e : exn) : Prop :=
  match c with
  | Done _ => False
  | Raise e' => e = e'
  | Ask _ k => ∃ b, raises (k b) e
  | Attempt c k => raises c e ∨ ∃ o, raises (k o) e
  end.

Lemma checked_run {A} (c : Client A) st :
  match run (@spec_serve) c st with
  | Ok _ => True
  | Throw e => (∃ what, e = RuntimeError what) ∨ raises c e
  end.
Proof.
  revert st. induction c as [A a|A e|A B r k IH|A B c IHc k IH]; intros st; simpl; [done|by right| |].
  - unfold mbind, M_bind. pose proof (checked_serve r st) as Hr.
    destruct (spec_serve r st) as [[b st']|e]; [|by left].
    specialize (IH b st'). destruct (run _ (k b) st'); [done|]. destruct IH; eauto.
  - assert (∀ o st', match run (@spec_serve) (k o) st' with
                     | Ok _ => True
                     | Throw e => (∃ what, e = RuntimeError what) ∨ raises c e ∨ ∃ o, raises (k o) e
                     end) as Hk.
    { intros o st'. specialize (IH o st'). destruct (run _ (k o) st'); [done|]. destruct IH; eauto. }
    specialize (IHc st). destruct (run _ c st) as [[b st']|e]; [apply Hk|].
    destruct (std_exception e); [|destruct IHc; eauto]. unfold mbind, M_bind.
    pose proof (checked_serve (Open true) st) as Ho. simpl in Ho. destruct (spec_open true st) as [[? st1]|]; [|by left].
    pose proof (checked_serve Rollback st1) as Hr. simpl in Hr. destruct (spec_rollback st1) as [[? st2]|]; [apply Hk|by left].
Qed.

(** C5: whatever a client does with nested ledger transactions over a database,
    it gets the answers, or the exception, of the specification, in which every
    level holds the whole ledger and the best offer is searched for among all
    offers; in the end all levels, the header and the database hold the ledgers of
    the specification.  No assertion fails on the way, no null pointer is
    followed, and the loops end: the only exceptions are the documented ones and
    those the client raises itself. *)
Theorem nested_transactions_refine owner header db {A} (c : Client A) :
  wf_view owner (db_view db) → client_ok owner c (mkSpecStack [] (db_view db) header) →
  match run (@serve) c (mkStack [] (mkRoot header db false ∅)) with
  | Ok (a, st) => run (@spec_serve) c (mkSpecStack [] (db_view db) header) = Ok (a, absStack st)
  | Throw e =>
      run (@spec_serve) c (mkSpecStack [] (db_view db) header) = Throw e ∧
      ((∃ what, e = RuntimeError what) ∨ raises c e)
  end.
Proof.
  intros Hdb Hc. pose proof (run_sim owner c _ (stack_ok_init owner header db Hdb) Hc) as Hsim.
  destruct (run _ c _) as [[a st]|e] eqn:Hrun; [by destruct Hsim|]. split; [exact Hsim|].
  pose proof (checked_run c (mkSpecStack [] (db_view db) header)) as Hch.
  change (absStack (mkStack [] (mkRoot header db false ∅))) with (mkSpecStack [] (db_view db) header) in Hsim.
  by rewrite Hsim in Hch.
Qed.

(** Two offers for the same assets; the client takes the better one in a nested
    level, raises the price of the other one, fails to create an offer that exists,
    and commits both levels. *)
Module ClientExample.
Definition seller (id : Z) : AccountID := [id].
Definition goods : Asset := ASSET_TYPE_CREDIT_ALPHANUM4 [71; 0; 0; 0] [9].

Definition offer (id n d : Z) : LedgerEntry :=
  mkLedgerEntry 1 (OFFER (mkOffer (seller id) id goods ASSET_TYPE_NATIVE 100 (mkPrice n d) 0)) None.

Definition db : gmap LedgerKey LedgerEntry :=
  <[KEY_OFFER (seller 1) 1 := offer 1 2 1]> (<[KEY_OFFER (seller 2) 2 := offer 2 1 1]> ∅).

Definition header : LedgerHeader :=
  mkLedgerHeader 15 [] (mkDiamnetValue [] 0 [] None) [] [] 7 0 0 0 2 100 100 100 [].

Definition client : Client (option GeneralizedLedgerEntry * list LedgerEntryChange) :=
  ask (Open true);;
  ask (Open false);;
  h ← ask (LoadBestOffer ASSET_TYPE_NATIVE goods);
  taken ← match h with
          | None => mret None
          | Some h => e ← ask (Current h); ask (EraseHandle h);; mret (Some e)
          end;
  h ← ask (LoadBestOffer ASSET_TYPE_NATIVE goods);
  match h with
  | None => mret tt
  | Some h => ask (Write h (GLedgerEntry (offer 1 3 1)))
  end;;
  ask Commit;;
  ask (Warm ASSET_TYPE_NATIVE goods None);;
  Attempt (ask (Open true);; ask (Create (GLedgerEntry (offer 1 1 1)));; mret tt) (λ _, mret tt);;
  changes ← ask GetChanges;
  ask Commit;;
  mret (taken, changes).

Lemma db_wf : wf_view seller (db_view db).
Proof.
  intros k e (k' & le & -> & -> & Hl)%db_view_Some. unfold db in Hl.
  repeat (apply lookup_insert_Some in Hl as [[<- <-]|[_ Hl]];
          [by split; [|split_and!; vm_compute]|]).
  by rewrite lookup_empty in Hl.
Qed.
End ClientExample.

Lemma nested_transactions_refine_witness :
  match run (@serve) ClientExample.client (mkStack [] (mkRoot ClientExample.header ClientExample.db false ∅)) with
  | Ok (a, st) =>
      a.1 = Some (GLedgerEntry (ClientExample.offer 2 1 1)) ∧ length a.2 = 4%nat ∧
      run (@spec_serve) ClientExample.client
        (mkSpecStack [] (db_view ClientExample.db) ClientExample.header) = Ok (a, absStack st)
  | Throw _ => False
  end.
Proof.
  pose proof (nested_transactions_refine ClientExample.seller ClientExample.header ClientExample.db
    ClientExample.client ClientExample.db_wf) as H.
  assert (match run (@serve) ClientExample.client (mkStack [] (mkRoot ClientExample.header ClientExample.db false ∅)) with
          | Ok (a, _) => a.1 = Some (GLedgerEntry (ClientExample.offer 2 1 1)) ∧ length a.2 = 4%nat
          | Throw _ => False
          end) as Ha by (vm_compute; split; reflexivity).
  destruct (run (@serve) _ _) as [[a st]|e]; [|done]. destruct Ha as [Ha1 Ha2].
  split; [exact Ha1|]. split; [exact Ha2|]. apply H. vm_compute. repeat split; discriminate.
Defined.
