(* ===== verification/LedgerClient.v ===== *)
(** * Writing clients of the ledger

    The idioms of the code that works on a [LedgerTxn], as clients: loading and
    reading the header and entries, handles that end with their scope, assignments
    through handles, nested levels that are committed or rolled back, and
    functions that throw.  An empty [LedgerTxnEntry] is [None]. *)

From S2P Require Import Prelude Numeric LedgerEntries GeneralizedEntries Accounts LedgerTxn LedgerTxnRefine.

Definition lift {A} (r : res A) : Client A := match r with Ok a => Done a | Throw e => Raise e end.

Definition throw_runtime {A} (what : string) : Client A := Raise (RuntimeError what).

Fixpoint forTxs {A B} (f : A → Client B) (l : list A) : Client (list B) :=
  match l with
  | [] => mret []
  | x :: l' => b ← f x; bs ← forTxs f l'; mret (b :: bs)
  end.

(** ** The header *)

(** [ltx.loadHeader().current()]. *)
Definition readHeader : Client LedgerHeader :=
  id ← ask LoadHeader;
  h ← ask (CurrentHeader id);
  ask DeactivateHeader;;
  mret h.

(** [auto header = ltx.loadHeader();] with what follows in its scope. *)
Definition withHeader {A} (f : Z → Client A) : Client A :=
  header ← ask LoadHeader;
  a ← f header;
  ask (ReleaseHeader header);;
  mret a.

Definition ledgerVersion : Client Z := h ← readHeader; mret (lh_ledgerVersion h).

(** ** Handles *)

Notation Handle := (option LedgerTxnEntry).

Definition releaseEntry (h : Handle) : Client unit :=
  match h with Some h => ask (Release h) | None => mret tt end.

(** [auto entry = c;] with what follows in its scope. *)
Definition withEntry {A} (c : Client Handle) (f : Handle → Client A) : Client A :=
  h ← c;
  a ← f h;
  releaseEntry h;;
  mret a.

(** Whether an entry exists, for a handle that ends with the condition. *)
Definition there (c : Client Handle) : Client bool := withEntry c (λ h, mret (bool_decide (is_Some h))).

Definition notActive {A} : Client A := throw_runtime "LedgerTxnEntry not active".

Definition currentGeneralized (h : Handle) : Client GeneralizedLedgerEntry :=
  match h with Some h => ask (Current h) | None => notActive end.

Definition current (h : Handle) : Client LedgerEntry := e ← currentGeneralized h; lift (ledgerEntry e).

Definition assign (h : Handle) (le : LedgerEntry) : Client unit :=
  match h with Some h => ask (Write h (GLedgerEntry le)) | None => notActive end.

Definition eraseEntry (h : Handle) : Client unit :=
  match h with Some h => ask (EraseHandle h) | None => notActive end.

(** Changing an entry in place. *)
Definition change (h : Handle) (f : LedgerEntry → res LedgerEntry) : Client unit :=
  le ← current h;
  le' ← lift (f le);
  assign h le'.

Definition changeIf (h : Handle) (f : LedgerEntry → res (option LedgerEntry)) : Client bool :=
  le ← current h;
  o ← lift (f le);
  match o with
  | Some le' => assign h le';; mret true
  | None => mret false
  end.

(** ** Nested levels *)

(** [LedgerTxn ltx(ltxOuter);] with what follows in its scope, which says whether it
    has committed. *)
Definition nested {A} (c : Client (bool * A)) : Client A :=
  ask (Open true);;
  '(committed, a) ← c;
  ask (if committed : bool then Commit else Rollback);;
  mret a.

(** ** Entries of the ledger *)

Definition loadAccount (accountID : AccountID) : Client Handle := ask (Load (accountKey accountID)).
Definition loadAccountWithoutRecord (accountID : AccountID) : Client Handle :=
  ask (LoadWithoutRecord (accountKey accountID)).
Definition loadData (accountID : AccountID) (dataName : list Z) : Client Handle := ask (Load (dataKey accountID dataName)).
Definition loadOffer (sellerID : AccountID) (offerID : Z) : Client Handle := ask (Load (offerKey sellerID offerID)).
Definition loadClaimableBalance (balanceID : list Z) : Client Handle := ask (Load (claimableBalanceKey balanceID)).
Definition loadSponsorship (sponsoredID : AccountID) : Client Handle := ask (Load (sponsorshipKey sponsoredID)).
Definition loadSponsorshipCounter (sponsoringID : AccountID) : Client Handle :=
  ask (Load (sponsorshipCounterKey sponsoringID)).

Definition createEntry (le : LedgerEntry) : Client Handle := h ← ask (Create (GLedgerEntry le)); mret (Some h).

(** The functions of [TransactionUtils.cpp] that read through the handles of a
    header and an entry. *)
Definition reading {A} (f : LedgerHeader → LedgerEntry → res A) (header : Z) (entry : Handle) : Client A :=
  le ← current entry;
  lh ← ask (CurrentHeader header);
  lift (f lh le).

Definition changing (f : LedgerHeader → Z → LedgerEntry → res (option LedgerEntry))
    (header : Z) (entry : Handle) (delta : Z) : Client bool :=
  lh ← ask (CurrentHeader header);
  changeIf entry (f lh delta).

Definition getAvailableBalance_ltx := reading getAvailableBalance.
Definition getMaxAmountReceive_ltx := reading getMaxAmountReceive.
Definition getMinimumLimit_ltx := reading getMinimumLimit.
Definition getBuyingLiabilities_ltx := reading getBuyingLiabilities.
Definition getSellingLiabilities_ltx := reading getSellingLiabilities.
Definition getOfferBuyingLiabilities_ltx := reading getOfferBuyingLiabilities.
Definition getOfferSellingLiabilities_ltx := reading getOfferSellingLiabilities.

Definition addBalance_ltx := changing addBalanceTo.
Definition addBuyingLiabilities_ltx := changing addBuyingLiabilitiesTo.
Definition addSellingLiabilities_ltx := changing addSellingLiabilitiesTo.
