(* ===== verification/Sponsorship.v ===== *)
(** * Sponsored reserves

    [transactions/SponsorshipUtils.cpp]: who pays the reserve of an entry or of a
    signer, on single entries and on the ledger.  From protocol 14 on an account can
    sponsor the reserve of another one; the entry, and the two accounts, keep count.

    A signer is given by its place in the list of an account.  The pointer to the
    sponsored account can be null, or refer to the entry itself when that is an
    account. *)

From S2P Require Import Prelude Numeric LedgerEntries GeneralizedEntries Accounts LedgerTxn LedgerTxnRefine LedgerClient.

Inductive SponsorshipResult : Type :=
| SPONSORSHIP_SUCCESS
| LOW_RESERVE
| TOO_MANY_SUBENTRIES
| TOO_MANY_SPONSORING
| TOO_MANY_SPONSORED.

Inductive IsSignerSponsoredResult : Type := DOES_NOT_EXIST | NOT_SPONSORED | SPONSORED.

#[export] Instance SponsorshipResult_eq_dec : EqDecision SponsorshipResult.
Proof. solve_decision. Defined.
#[export] Instance IsSignerSponsoredResult_eq_dec : EqDecision IsSignerSponsoredResult.
Proof. solve_decision. Defined.

Inductive SponsoredAcc : Type :=
| NullAcc
| EntryItself
| OtherAcc (acc : LedgerEntry).

Definition sponsored_at (le : LedgerEntry) (s : SponsoredAcc) : option LedgerEntry :=
  match s with NullAcc => None | EntryItself => Some le | OtherAcc acc => Some acc end.

Definition FIRST_PROTOCOL_SUPPORTING_OPERATION_LIMITS : Z := 11.
Definition ACCOUNT_SUBENTRY_LIMIT : Z := 1000.

(** ** Counters *)

Definition set_numSponsored (v : Z) (x : AccountEntryExtensionV2) : AccountEntryExtensionV2 :=
  mkAccountV2 v (numSponsoring x) (signerSponsoringIDs x).
Definition set_numSponsoring (v : Z) (x : AccountEntryExtensionV2) : AccountEntryExtensionV2 :=
  mkAccountV2 (numSponsored x) v (signerSponsoringIDs x).
Definition set_signerSponsoringIDs (v : list SponsorshipDescriptor) (x : AccountEntryExtensionV2) :
    AccountEntryExtensionV2 :=
  mkAccountV2 (numSponsored x) (numSponsoring x) v.

Definition countOf (count : AccountEntryExtensionV2 → Z) (le : LedgerEntry) : res Z :=
  ae ← data_account le;
  mret match acc_ext ae with
       | Some (mkAccountV1 _ (Some v2)) => count v2
       | _ => 0
       end.

Definition getNumSponsored : LedgerEntry → res Z := countOf numSponsored.
Definition getNumSponsoring : LedgerEntry → res Z := countOf numSponsoring.

(** [prepareAccountEntryExtensionV2(...)] and [getAccountEntryExtensionV2(...)] with
    an assignment to what they return. *)
Definition on_prepared (f : AccountEntryExtensionV2 → AccountEntryExtensionV2) : LedgerEntry → res LedgerEntry :=
  on_account (λ ae, set_acc_v2 (f (prepareAccountEntryExtensionV2 ae)) ae).

Definition on_existing (f : AccountEntryExtensionV2 → res AccountEntryExtensionV2) (le : LedgerEntry) :
    res LedgerEntry :=
  ae ← data_account le;
  v2 ← getAccountEntryExtensionV2 ae;
  v2' ← f v2;
  mret (set_data (ACCOUNT (set_acc_v2 v2' ae)) le).

Definition add_sponsoring (n : Z) (x : AccountEntryExtensionV2) : AccountEntryExtensionV2 :=
  set_numSponsoring (u32 (numSponsoring x + n)) x.
Definition add_sponsored (n : Z) (x : AccountEntryExtensionV2) : AccountEntryExtensionV2 :=
  set_numSponsored (u32 (numSponsored x + n)) x.

(** ** Whether a sponsorship can be established, removed or transferred *)

Definition canEstablishSponsorshipHelper (lh : LedgerHeader) (sponsoringAcc : LedgerEntry)
    (sponsoredAcc : option LedgerEntry) (mult : Z) : res SponsorshipResult :=
  let reserve := i64 (mult * lh_baseReserve lh) in
  avail ← getAvailableBalance lh sponsoringAcc;
  if avail <? reserve then mret LOW_RESERVE
  else
    sponsoring ← getNumSponsoring sponsoringAcc;
    if UINT32_MAX - mult <? sponsoring then mret TOO_MANY_SPONSORING
    else
      match sponsoredAcc with
      | None => mret SPONSORSHIP_SUCCESS
      | Some acc =>
          sponsored ← getNumSponsored acc;
          mret (if UINT32_MAX - mult <? sponsored then TOO_MANY_SPONSORED else SPONSORSHIP_SUCCESS)
      end.

Definition canRemoveSponsorshipHelper (lh : LedgerHeader) (sponsoringAcc : LedgerEntry)
    (sponsoredAcc : option LedgerEntry) (mult : Z) : res SponsorshipResult :=
  sponsoring ← getNumSponsoring sponsoringAcc;
  if sponsoring <? mult then Throw (RuntimeError "insufficient numSponsoring")
  else
    match sponsoredAcc with
    | None => mret SPONSORSHIP_SUCCESS
    | Some acc =>
        sponsored ← getNumSponsored acc;
        if sponsored <? mult then Throw (RuntimeError "insufficient numSponsored")
        else
          let reserve := i64 (mult * lh_baseReserve lh) in
          avail ← getAvailableBalance lh acc;
          mret (if avail <? reserve then LOW_RESERVE else SPONSORSHIP_SUCCESS)
    end.

Definition canTransferSponsorshipHelper (lh : LedgerHeader) (oldSponsoringAcc newSponsoringAcc : LedgerEntry)
    (mult : Z) : res SponsorshipResult :=
  removeRes ← canRemoveSponsorshipHelper lh oldSponsoringAcc None mult;
  if decide (removeRes = SPONSORSHIP_SUCCESS) then canEstablishSponsorshipHelper lh newSponsoringAcc None mult
  else mret removeRes.

Definition accountIsSponsor (sponsoringID : SponsorshipDescriptor) (sponsoringAcc : LedgerEntry) : res unit :=
  let mismatch := Throw (RuntimeError "sponsorship doesn't match") in
  match sponsoringID with
  | None => mismatch
  | Some id => ae ← data_account sponsoringAcc; if decide (id = acc_accountID ae) then mret tt else mismatch
  end.

(** [signerSponsoringIDs.at(n)]. *)
Definition sponsor_at (n : nat) (v2 : AccountEntryExtensionV2) : res SponsorshipDescriptor :=
  match signerSponsoringIDs v2 !! n with Some d => Ok d | None => Throw OutOfRange end.

Definition isSignerSponsored (n : nat) (sponsoringAcc sponsoredAcc : LedgerEntry) : res IsSignerSponsoredResult :=
  ae ← data_account sponsoredAcc;
  if decide (n = length (acc_signers ae)) then mret DOES_NOT_EXIST
  else
    match acc_ext ae with
    | Some (mkAccountV1 _ (Some v2)) =>
        sponsoringID ← sponsor_at n v2;
        match sponsoringID with
        | Some _ => accountIsSponsor sponsoringID sponsoringAcc;; mret SPONSORED
        | None => mret NOT_SPONSORED
        end
    | _ => mret NOT_SPONSORED
    end.

Definition computeMultiplier (le : LedgerEntry) : Z :=
  match entry_data le with
  | ACCOUNT _ => 2
  | CLAIMABLE_BALANCE cb => u32 (Z.of_nat (length (cb_claimants cb)))
  | _ => 1
  end.

Definition isSubentry (le : LedgerEntry) : bool :=
  match entry_data le with
  | ACCOUNT _ | CLAIMABLE_BALANCE _ => false
  | TRUSTLINE _ | OFFER _ | DATA _ => true
  end.

Definition entrySponsor (le : LedgerEntry) : SponsorshipDescriptor :=
  match entry_ext le with Some v1 => sponsoringID v1 | None => None end.

Definition sponsorship_guard {A} (lh : LedgerHeader) (r : res A) : res A :=
  if lh_ledgerVersion lh <? 14 then Throw (RuntimeError "sponsorship before version 14") else r.

Definition canEstablishEntrySponsorship (lh : LedgerHeader) (le sponsoringAcc : LedgerEntry)
    (sponsoredAcc : option LedgerEntry) : res SponsorshipResult :=
  sponsorship_guard lh
    match entrySponsor le with
    | Some _ => Throw (RuntimeError "sponsoring sponsored entry")
    | None => canEstablishSponsorshipHelper lh sponsoringAcc sponsoredAcc (computeMultiplier le)
    end.

Definition canRemoveEntrySponsorship (lh : LedgerHeader) (le sponsoringAcc : LedgerEntry)
    (sponsoredAcc : option LedgerEntry) : res SponsorshipResult :=
  sponsorship_guard lh
    match entrySponsor le with
    | None => Throw (RuntimeError "removing sponsorship on unsponsored entry")
    | Some id =>
        accountIsSponsor (Some id) sponsoringAcc;;
        canRemoveSponsorshipHelper lh sponsoringAcc sponsoredAcc (computeMultiplier le)
    end.

Definition canTransferEntrySponsorship (lh : LedgerHeader) (le oldSponsoringAcc newSponsoringAcc : LedgerEntry) :
    res SponsorshipResult :=
  sponsorship_guard lh
    match entrySponsor le with
    | None => Throw (RuntimeError "transferring sponsorship on unsponsored entry")
    | Some id =>
        accountIsSponsor (Some id) oldSponsoringAcc;;
        canTransferSponsorshipHelper lh oldSponsoringAcc newSponsoringAcc (computeMultiplier le)
    end.

Definition expectSigner {A} (expected : IsSignerSponsoredResult) (n : nat) (sponsoringAcc sponsoredAcc : LedgerEntry)
    (r : res A) : res A :=
  s ← isSignerSponsored n sponsoringAcc sponsoredAcc;
  if decide (s = expected) then r else Throw (RuntimeError "bad signer sponsorship").

Definition canEstablishSignerSponsorship (lh : LedgerHeader) (n : nat) (sponsoringAcc sponsoredAcc : LedgerEntry) :
    res SponsorshipResult :=
  sponsorship_guard lh (expectSigner NOT_SPONSORED n sponsoringAcc sponsoredAcc
    (canEstablishSponsorshipHelper lh sponsoringAcc (Some sponsoredAcc) 1)).

Definition canRemoveSignerSponsorship (lh : LedgerHeader) (n : nat) (sponsoringAcc sponsoredAcc : LedgerEntry) :
    res SponsorshipResult :=
  sponsorship_guard lh (expectSigner SPONSORED n sponsoringAcc sponsoredAcc
    (canRemoveSponsorshipHelper lh sponsoringAcc (Some sponsoredAcc) 1)).

Definition canTransferSignerSponsorship (lh : LedgerHeader) (n : nat)
    (oldSponsoringAcc newSponsoringAcc sponsoredAcc : LedgerEntry) : res SponsorshipResult :=
  sponsorship_guard lh (expectSigner SPONSORED n oldSponsoringAcc sponsoredAcc
    (canTransferSponsorshipHelper lh oldSponsoringAcc newSponsoringAcc 1)).

(** ** Establishing, removing and transferring sponsorships

    The results are the entry, the sponsoring account and the sponsored one. *)

Definition on_sponsored (f : LedgerEntry → res LedgerEntry) (le : LedgerEntry) (s : SponsoredAcc) :
    res (LedgerEntry * SponsoredAcc) :=
  match s with
  | NullAcc => mret (le, NullAcc)
  | EntryItself => le' ← f le; mret (le', EntryItself)
  | OtherAcc acc => acc' ← f acc; mret (le, OtherAcc acc')
  end.

Definition establishEntrySponsorship (le sponsoringAcc : LedgerEntry) (sponsoredAcc : SponsoredAcc) :
    res (LedgerEntry * LedgerEntry * SponsoredAcc) :=
  let mult := computeMultiplier le in
  ae ← data_account sponsoringAcc;
  let le := set_ext (Some (mkEntryV1 (Some (acc_accountID ae)))) le in
  sponsoringAcc ← on_prepared (add_sponsoring mult) sponsoringAcc;
  '(le, sponsoredAcc) ← on_sponsored (on_prepared (add_sponsored mult)) le sponsoredAcc;
  mret (le, sponsoringAcc, sponsoredAcc).

Definition removeEntrySponsorship (le sponsoringAcc : LedgerEntry) (sponsoredAcc : SponsoredAcc) :
    res (LedgerEntry * LedgerEntry * SponsoredAcc) :=
  v1 ← getLedgerEntryExtensionV1 le;
  accountIsSponsor (sponsoringID v1) sponsoringAcc;;
  let le := set_ext (Some (mkEntryV1 None)) le in
  let mult := computeMultiplier le in
  sponsoringAcc ← on_existing (λ v2, mret (add_sponsoring (- mult) v2)) sponsoringAcc;
  '(le, sponsoredAcc) ← on_sponsored (on_existing (λ v2, mret (add_sponsored (- mult) v2))) le sponsoredAcc;
  mret (le, sponsoringAcc, sponsoredAcc).

Definition transferEntrySponsorship (le oldSponsoringAcc newSponsoringAcc : LedgerEntry) :
    res (LedgerEntry * LedgerEntry * LedgerEntry) :=
  v1 ← getLedgerEntryExtensionV1 le;
  accountIsSponsor (sponsoringID v1) oldSponsoringAcc;;
  let mult := computeMultiplier le in
  ae ← data_account newSponsoringAcc;
  let le := set_ext (Some (mkEntryV1 (Some (acc_accountID ae)))) le in
  newSponsoringAcc ← on_prepared (add_sponsoring mult) newSponsoringAcc;
  oldSponsoringAcc ← on_existing (λ v2, mret (add_sponsoring (- mult) v2)) oldSponsoringAcc;
  mret (le, oldSponsoringAcc, newSponsoringAcc).

Definition set_sponsor_at (n : nat) (d : SponsorshipDescriptor) (v2 : AccountEntryExtensionV2) :
    AccountEntryExtensionV2 :=
  set_signerSponsoringIDs (<[n := d]> (signerSponsoringIDs v2)) v2.

Definition establishSignerSponsorship (n : nat) (sponsoringAcc sponsoredAcc : LedgerEntry) :
    res (LedgerEntry * LedgerEntry) :=
  ae ← data_account sponsoredAcc;
  sponsoring ← data_account sponsoringAcc;
  let v2 := prepareAccountEntryExtensionV2 ae in
  _ ← sponsor_at n v2;
  let v2 := add_sponsored 1 (set_sponsor_at n (Some (acc_accountID sponsoring)) v2) in
  sponsoringAcc ← on_prepared (add_sponsoring 1) sponsoringAcc;
  mret (sponsoringAcc, set_data (ACCOUNT (set_acc_v2 v2 ae)) sponsoredAcc).

Definition removeSignerSponsorship (n : nat) (sponsoringAcc sponsoredAcc : LedgerEntry) :
    res (LedgerEntry * LedgerEntry) :=
  sponsoredAcc ← on_existing (λ v2,
    sponsoringID ← sponsor_at n v2;
    accountIsSponsor sponsoringID sponsoringAcc;;
    mret (add_sponsored (-1) (set_sponsor_at n None v2))) sponsoredAcc;
  sponsoringAcc ← on_existing (λ v2, mret (add_sponsoring (-1) v2)) sponsoringAcc;
  mret (sponsoringAcc, sponsoredAcc).

Definition transferSignerSponsorship (n : nat) (oldSponsoringAcc newSponsoringAcc sponsoredAcc : LedgerEntry) :
    res (LedgerEntry * LedgerEntry * LedgerEntry) :=
  new ← data_account newSponsoringAcc;
  sponsoredAcc ← on_existing (λ v2,
    sponsoringID ← sponsor_at n v2;
    accountIsSponsor sponsoringID oldSponsoringAcc;;
    mret (set_sponsor_at n (Some (acc_accountID new)) v2)) sponsoredAcc;
  newSponsoringAcc ← on_prepared (add_sponsoring 1) newSponsoringAcc;
  oldSponsoringAcc ← on_existing (λ v2, mret (add_sponsoring (-1) v2)) oldSponsoringAcc;
  mret (oldSponsoringAcc, newSponsoringAcc, sponsoredAcc).

(** ** Whether an entry or a signer can be created or removed *)

Definition canCreateEntryWithoutSponsorship (lh : LedgerHeader) (le acc : LedgerEntry) : res SponsorshipResult :=
  ae ← data_account acc;
  match entry_data le with
  | ACCOUNT new =>
      minBalance ← getMinBalance lh ae;
      mret (if acc_balance new <? minBalance then LOW_RESERVE else SPONSORSHIP_SUCCESS)
  | _ =>
      if (FIRST_PROTOCOL_SUPPORTING_OPERATION_LIMITS <=? lh_ledgerVersion lh) &&
         (ACCOUNT_SUBENTRY_LIMIT <=? acc_numSubEntries ae)
      then mret TOO_MANY_SUBENTRIES
      else
        let mult := computeMultiplier le in
        if lh_ledgerVersion lh <? 9 then
          accCopy ← on_account (λ a, set_acc_numSubEntries (u32 (acc_numSubEntries a + mult)) a) acc;
          avail ← getAvailableBalance lh accCopy;
          mret (if avail <? 0 then LOW_RESERVE else SPONSORSHIP_SUCCESS)
        else
          let reserve := i64 (mult * lh_baseReserve lh) in
          avail ← getAvailableBalance lh acc;
          mret (if avail <? reserve then LOW_RESERVE else SPONSORSHIP_SUCCESS)
  end.

Definition canCreateEntryWithSponsorship (lh : LedgerHeader) (le sponsoringAcc : LedgerEntry)
    (sponsoredAcc : option LedgerEntry) : res SponsorshipResult :=
  sponsorship_guard lh
    (full ← match sponsoredAcc with
            | Some acc =>
                if isSubentry le then
                  ae ← data_account acc; mret (ACCOUNT_SUBENTRY_LIMIT <=? acc_numSubEntries ae)
                else mret false
            | None => mret false
            end;
     if (full : bool) then mret TOO_MANY_SUBENTRIES
     else canEstablishEntrySponsorship lh le sponsoringAcc sponsoredAcc).

Definition is_account (le : LedgerEntry) : bool := match entry_data le with ACCOUNT _ => true | _ => false end.

Definition canRemoveEntryWithoutSponsorship (le acc : LedgerEntry) : res unit :=
  if is_account le then mret tt
  else
    ae ← data_account acc;
    if acc_numSubEntries ae <? computeMultiplier le then Throw (RuntimeError "invalid account state") else mret tt.

Definition canRemoveEntryWithSponsorship (lh : LedgerHeader) (le sponsoringAcc : LedgerEntry)
    (sponsoredAcc : option LedgerEntry) : res unit :=
  sponsorship_guard lh
    (let mult := computeMultiplier le in
     sponsoring ← getNumSponsoring sponsoringAcc;
     if sponsoring <? mult then Throw (RuntimeError "invalid sponsoring account state")
     else if is_account le && negb (bool_decide (sponsoredAcc = Some le))
     then Throw (RuntimeError "invalid sponsored account")
     else
       match sponsoredAcc with
       | None => mret tt
       | Some acc =>
           ae ← data_account acc;
           sponsored ← getNumSponsored acc;
           if (negb (is_account le) && (acc_numSubEntries ae <? mult)) || (sponsored <? mult)
           then Throw (RuntimeError "invalid sponsored account state")
           else mret tt
       end).

Definition canCreateSignerWithoutSponsorship (lh : LedgerHeader) (acc : LedgerEntry) : res SponsorshipResult :=
  ae ← data_account acc;
  if (FIRST_PROTOCOL_SUPPORTING_OPERATION_LIMITS <=? lh_ledgerVersion lh) &&
     (ACCOUNT_SUBENTRY_LIMIT <=? acc_numSubEntries ae)
  then mret TOO_MANY_SUBENTRIES
  else
    avail ← getAvailableBalance lh acc;
    mret (if avail <? lh_baseReserve lh then LOW_RESERVE else SPONSORSHIP_SUCCESS).

Definition canCreateSignerWithSponsorship (lh : LedgerHeader) (n : nat) (sponsoringAcc sponsoredAcc : LedgerEntry) :
    res SponsorshipResult :=
  sponsorship_guard lh
    (ae ← data_account sponsoredAcc;
     if ACCOUNT_SUBENTRY_LIMIT <=? acc_numSubEntries ae then mret TOO_MANY_SUBENTRIES
     else canEstablishSignerSponsorship lh n sponsoringAcc sponsoredAcc).

Definition canRemoveSignerWithoutSponsorship (acc : LedgerEntry) : res unit :=
  ae ← data_account acc;
  if acc_numSubEntries ae <? 1 then Throw (RuntimeError "invalid account state") else mret tt.

Definition canRemoveSignerWithSponsorship (lh : LedgerHeader) (sponsoringAcc sponsoredAcc : LedgerEntry) : res unit :=
  sponsorship_guard lh
    (sponsoring ← getNumSponsoring sponsoringAcc;
     if sponsoring <? 1 then Throw (RuntimeError "invalid sponsoring account state")
     else
       ae ← data_account sponsoredAcc;
       sponsored ← getNumSponsored sponsoredAcc;
       if (acc_numSubEntries ae <? 1) || (sponsored <? 1)
       then Throw (RuntimeError "invalid sponsored account state") else mret tt).

(** ** Creating and removing entries and signers *)

Definition add_subEntries (n : Z) : LedgerEntry → res LedgerEntry :=
  on_account (λ ae, set_acc_numSubEntries (u32 (acc_numSubEntries ae + n)) ae).

Definition createEntryWithoutSponsorship (le acc : LedgerEntry) : res LedgerEntry :=
  if isSubentry le then add_subEntries 1 acc else mret acc.

Definition createEntryWithSponsorship (le sponsoringAcc : LedgerEntry) (sponsoredAcc : SponsoredAcc) :
    res (LedgerEntry * LedgerEntry * SponsoredAcc) :=
  '(le, sponsoredAcc) ← on_sponsored (createEntryWithoutSponsorship le) le sponsoredAcc;
  establishEntrySponsorship le sponsoringAcc sponsoredAcc.

Definition removeEntryWithoutSponsorship (le acc : LedgerEntry) : res LedgerEntry :=
  if is_account le then mret acc else add_subEntries (-1) acc.

Definition removeEntryWithSponsorship (le sponsoringAcc : LedgerEntry) (sponsoredAcc : SponsoredAcc) :
    res (LedgerEntry * LedgerEntry * SponsoredAcc) :=
  '(le, sponsoredAcc) ← on_sponsored (removeEntryWithoutSponsorship le) le sponsoredAcc;
  removeEntrySponsorship le sponsoringAcc sponsoredAcc.

Definition createSignerWithoutSponsorship : LedgerEntry → res LedgerEntry := add_subEntries 1.

Definition createSignerWithSponsorship (n : nat) (sponsoringAcc sponsoredAcc : LedgerEntry) :
    res (LedgerEntry * LedgerEntry) :=
  sponsoredAcc ← createSignerWithoutSponsorship sponsoredAcc;
  establishSignerSponsorship n sponsoringAcc sponsoredAcc.

Definition removeSignerWithoutSponsorship (n : nat) (acc : LedgerEntry) : res LedgerEntry :=
  acc ← add_subEntries (-1) acc;
  acc ← on_account (λ ae, match acc_ext ae with
                          | Some (mkAccountV1 _ (Some v2)) =>
                              set_acc_v2 (set_signerSponsoringIDs (delete n (signerSponsoringIDs v2)) v2) ae
                          | _ => ae
                          end) acc;
  on_account (λ ae, set_acc_signers (delete n (acc_signers ae)) ae) acc.

Definition removeSignerWithSponsorship (n : nat) (sponsoringAcc sponsoredAcc : LedgerEntry) :
    res (LedgerEntry * LedgerEntry) :=
  '(sponsoringAcc, sponsoredAcc) ← removeSignerSponsorship n sponsoringAcc sponsoredAcc;
  sponsoredAcc ← removeSignerWithoutSponsorship n sponsoredAcc;
  mret (sponsoringAcc, sponsoredAcc).

(** ** With or without sponsorship, on the ledger *)

Definition sponsorshipEntry (e : GeneralizedLedgerEntry) : res (AccountID * AccountID) :=
  match e with
  | GSponsorship sponsoredID sponsoringID => Ok (sponsoredID, sponsoringID)
  | _ => Throw (RuntimeError "invalid union access")
  end.

Definition sponsorshipCounterEntry (e : GeneralizedLedgerEntry) : res (AccountID * Z) :=
  match e with
  | GSponsorshipCounter sponsoringID n => Ok (sponsoringID, n)
  | _ => Throw (RuntimeError "invalid union access")
  end.

(** The pointer to the account whose entry it is. *)
Definition sponsoredAccount (le : LedgerEntry) (acc : Handle) : Client SponsoredAcc :=
  match entry_data le with
  | ACCOUNT _ => mret EntryItself
  | CLAIMABLE_BALANCE _ => mret NullAcc
  | _ => a ← current acc; mret (OtherAcc a)
  end.

Definition assignSponsored (acc : Handle) (s : SponsoredAcc) : Client unit :=
  match s with OtherAcc a => assign acc a | _ => mret tt end.

(** The result has the entry as it is to be created. *)
Definition createEntryWithPossibleSponsorship (header : Z) (le : LedgerEntry) (acc : Handle) :
    Client (SponsorshipResult * LedgerEntry) :=
  accountID ← match entry_data le with
              | ACCOUNT ae => mret (acc_accountID ae)
              | _ => a ← current acc; ae ← lift (data_account a); mret (acc_accountID ae)
              end;
  withEntry (loadSponsorship accountID) (λ sponsorship,
    s ← sponsoredAccount le acc;
    match sponsorship, s with
    | Some _, _ =>
        g ← currentGeneralized sponsorship;
        se ← lift (sponsorshipEntry g);
        withEntry (loadAccount se.2) (λ sponsoringAcc,
          lh ← ask (CurrentHeader header);
          sponsoring ← current sponsoringAcc;
          res ← lift (canCreateEntryWithSponsorship lh le sponsoring (sponsored_at le s));
          if decide (res = SPONSORSHIP_SUCCESS) then
            '(le, sponsoring, s) ← lift (createEntryWithSponsorship le sponsoring s);
            assign sponsoringAcc sponsoring;;
            assignSponsored acc s;;
            mret (res, le)
          else mret (res, le))
    | None, NullAcc =>
        lh ← ask (CurrentHeader header);
        a ← current acc;
        res ← lift (canCreateEntryWithSponsorship lh le a None);
        if decide (res = SPONSORSHIP_SUCCESS) then
          '(le, a, _) ← lift (createEntryWithSponsorship le a NullAcc);
          assign acc a;;
          mret (res, le)
        else mret (res, le)
    | None, _ =>
        lh ← ask (CurrentHeader header);
        res ← lift (canCreateEntryWithoutSponsorship lh le (default le (sponsored_at le s)));
        if decide (res = SPONSORSHIP_SUCCESS) then
          '(le, s) ← lift (on_sponsored (createEntryWithoutSponsorship le) le s);
          assignSponsored acc s;;
          mret (res, le)
        else mret (res, le)
    end).

(** The result is the entry afterwards; the entry of an account is the one [acc]
    refers to. *)
Definition removeEntryWithPossibleSponsorship (header : Z) (le : LedgerEntry) (acc : Handle) : Client LedgerEntry :=
  a ← current acc;
  match entrySponsor le with
  | Some sponsoringID =>
      s ← sponsoredAccount le acc;
      ae ← lift (data_account a);
      if decide (acc_accountID ae = sponsoringID) then
        match entry_data le with
        | CLAIMABLE_BALANCE _ =>
            lh ← ask (CurrentHeader header);
            lift (canRemoveEntryWithSponsorship lh le a (sponsored_at le s));;
            '(le, a, _) ← lift (removeEntryWithSponsorship le a s);
            assign acc a;;
            mret le
        | _ => throw_runtime "sponsoringID == sourceAccount for non-CLAIMABLE_BALANCE entry"
        end
      else
        withEntry (loadAccount sponsoringID) (λ sponsoringAcc,
          lh ← ask (CurrentHeader header);
          sponsoring ← current sponsoringAcc;
          lift (canRemoveEntryWithSponsorship lh le sponsoring (sponsored_at le s));;
          '(le, sponsoring, s) ← lift (removeEntryWithSponsorship le sponsoring s);
          assign sponsoringAcc sponsoring;;
          assignSponsored acc s;;
          mret le)
  | None =>
      lift (canRemoveEntryWithoutSponsorship le a);;
      a ← lift (removeEntryWithoutSponsorship le a);
      assign acc a;;
      mret (if is_account le then a else le)
  end.

(** For an entry of the ledger that is then erased. *)
Definition removeLoadedEntry (header : Z) (entry acc : Handle) : Client unit :=
  le ← current entry;
  le ← removeEntryWithPossibleSponsorship header le acc;
  assign entry le.

Definition createSignerWithPossibleSponsorship (header : Z) (n : nat) (acc : Handle) : Client SponsorshipResult :=
  a ← current acc;
  ae ← lift (data_account a);
  withEntry (loadSponsorship (acc_accountID ae)) (λ sponsorship,
    lh ← ask (CurrentHeader header);
    match sponsorship with
    | Some _ =>
        g ← currentGeneralized sponsorship;
        se ← lift (sponsorshipEntry g);
        withEntry (loadAccount se.2) (λ sponsoringAcc,
          sponsoring ← current sponsoringAcc;
          res ← lift (canCreateSignerWithSponsorship lh n sponsoring a);
          if decide (res = SPONSORSHIP_SUCCESS) then
            '(sponsoring, a) ← lift (createSignerWithSponsorship n sponsoring a);
            assign sponsoringAcc sponsoring;;
            assign acc a;;
            mret res
          else mret res)
    | None =>
        res ← lift (canCreateSignerWithoutSponsorship lh a);
        if decide (res = SPONSORSHIP_SUCCESS) then change acc createSignerWithoutSponsorship;; mret res
        else mret res
    end).

Definition removeSignerWithPossibleSponsorship (header : Z) (n : nat) (acc : Handle) : Client unit :=
  a ← current acc;
  ae ← lift (data_account a);
  sponsoringID ← match acc_ext ae with
                 | Some (mkAccountV1 _ (Some v2)) => lift (sponsor_at n v2)
                 | _ => mret None
                 end;
  match sponsoringID with
  | Some id =>
      withEntry (loadAccount id) (λ sponsoringAcc,
        lh ← ask (CurrentHeader header);
        sponsoring ← current sponsoringAcc;
        lift (canRemoveSignerWithSponsorship lh sponsoring a);;
        '(sponsoring, a) ← lift (removeSignerWithSponsorship n sponsoring a);
        assign sponsoringAcc sponsoring;;
        assign acc a)
  | None =>
      lift (canRemoveSignerWithoutSponsorship a);;
      change acc (removeSignerWithoutSponsorship n)
  end.
