(* ===== verification/TrustLines.v ===== *)
(** * Trust lines and liabilities on the ledger

    [ledger/TrustLineWrapper.cpp], where the issuer of an asset holds any amount of
    it without a trust line, and the functions of [transactions/TransactionUtils.cpp]
    that book the liabilities of offers. *)

From S2P Require Import Prelude Numeric Exchange LedgerEntries GeneralizedEntries Accounts LedgerTxn LedgerTxnRefine LedgerClient.

(** ** [TrustLineWrapper] and [ConstTrustLineWrapper] *)

Inductive TrustLineWrapper : Type :=
| EmptyLine
| NonIssuerImpl (mEntry : LedgerTxnEntry)
| IssuerImpl (mAccountID : AccountID) (mAsset : Asset).

Definition fromEntry (h : Handle) : TrustLineWrapper :=
  match h with Some h => NonIssuerImpl h | None => EmptyLine end.

Definition loadLine (load : GeneralizedLedgerKey → Client Handle) (accountID : AccountID) (asset : Asset) :
    Client TrustLineWrapper :=
  issuer ← lift (getIssuer asset);
  if decide (issuer = accountID) then mret (IssuerImpl accountID asset)
  else entry ← load (trustlineKey accountID asset); mret (fromEntry entry).

Definition loadTrustLine (accountID : AccountID) (asset : Asset) : Client TrustLineWrapper :=
  if is_native asset then throw_runtime "trustline for native asset"
  else loadLine (λ key, ask (Load key)) accountID asset.

Definition loadTrustLineWithoutRecord (accountID : AccountID) (asset : Asset) : Client TrustLineWrapper :=
  loadLine (λ key, ask (LoadWithoutRecord key)) accountID asset.

Definition loadTrustLineIfNotNative (accountID : AccountID) (asset : Asset) : Client TrustLineWrapper :=
  if is_native asset then mret EmptyLine else loadTrustLine accountID asset.

Definition loadTrustLineWithoutRecordIfNotNative (accountID : AccountID) (asset : Asset) : Client TrustLineWrapper :=
  if is_native asset then mret EmptyLine else loadTrustLineWithoutRecord accountID asset.

Definition is_line (line : TrustLineWrapper) : bool := match line with EmptyLine => false | _ => true end.

Definition releaseLine (line : TrustLineWrapper) : Client unit :=
  match line with NonIssuerImpl h => ask (Release h) | _ => mret tt end.

Definition withLine {A} (c : Client TrustLineWrapper) (f : TrustLineWrapper → Client A) : Client A :=
  line ← c;
  a ← f line;
  releaseLine line;;
  mret a.

(** A method, with its result for the issuer. *)
Definition method {A} (issuer : A) (f : Handle → Client A) (line : TrustLineWrapper) : Client A :=
  match line with
  | EmptyLine => throw_runtime "TrustLineWrapper not active"
  | NonIssuerImpl h => f (Some h)
  | IssuerImpl _ _ => mret issuer
  end.

Definition line_getBalance : TrustLineWrapper → Client Z :=
  method INT64_MAX (λ h, le ← current h; tl ← lift (data_trustLine le); mret (tl_balance tl)).
Definition line_addBalance (header delta : Z) : TrustLineWrapper → Client bool :=
  method true (λ h, addBalance_ltx header h delta).
Definition line_addBuyingLiabilities (header delta : Z) : TrustLineWrapper → Client bool :=
  method true (λ h, addBuyingLiabilities_ltx header h delta).
Definition line_addSellingLiabilities (header delta : Z) : TrustLineWrapper → Client bool :=
  method true (λ h, addSellingLiabilities_ltx header h delta).
Definition line_getBuyingLiabilities (header : Z) : TrustLineWrapper → Client Z :=
  method 0 (getBuyingLiabilities_ltx header).
Definition line_getSellingLiabilities (header : Z) : TrustLineWrapper → Client Z :=
  method 0 (getSellingLiabilities_ltx header).
Definition line_isAuthorized : TrustLineWrapper → Client bool :=
  method true (λ h, le ← current h; lift (isAuthorized le)).
Definition line_isAuthorizedToMaintainLiabilities : TrustLineWrapper → Client bool :=
  method true (λ h, le ← current h; lift (isAuthorizedToMaintainLiabilities le)).
Definition line_getAvailableBalance (header : Z) : TrustLineWrapper → Client Z :=
  method INT64_MAX (getAvailableBalance_ltx header).
Definition line_getMaxAmountReceive (header : Z) : TrustLineWrapper → Client Z :=
  method INT64_MAX (getMaxAmountReceive_ltx header).

(** ** Liabilities of offers *)

(** What one side of an offer does: on the account for lumens, on the trust line
    otherwise. *)
Definition bookLiabilities (onAccount : Handle → Client bool) (onLine : TrustLineWrapper → Client bool)
    (what : string) (sellerID : AccountID) (asset : Asset) : Client unit :=
  ok ← (if is_native asset then
          withEntry (loadAccount sellerID) (λ account,
            match account with
            | None => throw_runtime "account does not exist"
            | Some _ => onAccount account
            end)
        else
          withLine (loadTrustLine sellerID asset) (λ trust,
            if is_line trust then onLine trust else throw_runtime "trustline does not exist"));
  if (ok : bool) then mret tt else throw_runtime what.

Definition acquireOrReleaseLiabilities (header : Z) (offerEntry : Handle) (isAcquire : bool) : Client unit :=
  le ← current offerEntry;
  offer ← lift (data_offer le);
  if decide (off_buying offer = off_selling offer) then throw_runtime "buying and selling same asset"
  else
    let sellerID := off_sellerID offer in
    buying ← getOfferBuyingLiabilities_ltx header offerEntry;
    let buyingLiabilities := if isAcquire then buying else - buying in
    bookLiabilities (λ account, addBuyingLiabilities_ltx header account buyingLiabilities)
      (line_addBuyingLiabilities header buyingLiabilities) "could not add buying liabilities"
      sellerID (off_buying offer);;
    selling ← getOfferSellingLiabilities_ltx header offerEntry;
    let sellingLiabilities := if isAcquire then selling else - selling in
    bookLiabilities (λ account, addSellingLiabilities_ltx header account sellingLiabilities)
      (line_addSellingLiabilities header sellingLiabilities) "could not add selling liabilities"
      sellerID (off_selling offer).

Definition acquireLiabilities (header : Z) (offer : Handle) : Client unit :=
  acquireOrReleaseLiabilities header offer true.
Definition releaseLiabilities (header : Z) (offer : Handle) : Client unit :=
  acquireOrReleaseLiabilities header offer false.

(** ** Numbers for new offers *)

Definition set_idPool (v : Z) (h : LedgerHeader) : LedgerHeader :=
  mkLedgerHeader (lh_ledgerVersion h) (lh_previousLedgerHash h) (lh_scpValue h) (lh_txSetResultHash h)
    (lh_bucketListHash h) (lh_ledgerSeq h) (lh_totalCoins h) (lh_feePool h) (lh_inflationSeq h)
    v (lh_baseFee h) (lh_baseReserve h) (lh_maxTxSetSize h) (lh_skipList h).

Definition generateID (header : Z) : Client Z :=
  lh ← ask (CurrentHeader header);
  let id := u64 (lh_idPool lh + 1) in
  ask (WriteHeader header (set_idPool id lh));;
  mret id.
