(* ===== verification/OfferCrossing.v ===== *)
(** * Crossing offers

    The part of [transactions/OfferExchange.cpp] that works on the ledger: what the
    owner of an offer can sell and buy, taking an offer from the book, and
    converting an amount of one asset into another with the best offers.  Sheep are
    sent and wheat is received by the one who crosses.

    The loop over the offers has fuel; every round but the last takes an offer off
    the book, see [OfferTermination]. *)

From S2P Require Import Prelude Numeric Exchange LedgerEntries GeneralizedEntries Accounts LedgerTxn LedgerTxnRefine LedgerClient Sponsorship TrustLines.

Definition MAX_OFFERS_TO_CROSS : Z := 1000.

Inductive CrossOfferResult : Type := eOfferPartial | eOfferTaken | eOfferCantConvert.

#[export] Instance CrossOfferResult_eq_dec : EqDecision CrossOfferResult.
Proof. solve_decision. Defined.

(** The reason a filter has to stop is part of the result. *)
Inductive ConvertResult (B : Type) : Type :=
| eOK
| ePartial
| eFilterStop (why : B)
| eCrossedTooMany.
Arguments eOK {B}.
Arguments ePartial {B}.
Arguments eFilterStop {B} why.
Arguments eCrossedTooMany {B}.

Record ClaimOfferAtom : Type := mkClaimOfferAtom {
  coa_sellerID : AccountID;
  coa_offerID : Z;
  coa_assetSold : Asset;
  coa_amountSold : Z;
  coa_assetBought : Asset;
  coa_amountBought : Z
}.

(** ** What an account can sell and buy *)

Definition canSellAtMostBasedOnSheep (header : Z) (sheep : Asset) (sheepLine : TrustLineWrapper) (wheatPrice : Price) :
    Client Z :=
  if is_native sheep then mret INT64_MAX
  else
    sellerMaxSheep ← (if is_line sheepLine then line_getMaxAmountReceive header sheepLine else mret 0);
    wheatAmount ← lift (bigDivide_i64_nothrow sellerMaxSheep (pd wheatPrice) (pn wheatPrice) ROUND_DOWN);
    mret (default INT64_MAX wheatAmount).

Definition canSellAtMost (header : Z) (account : Handle) (asset : Asset) (trustLine : TrustLineWrapper) : Client Z :=
  if is_native asset then
    avail ← getAvailableBalance_ltx header account;
    mret (Z.max avail 0)
  else
    authorized ← (if is_line trustLine then line_isAuthorizedToMaintainLiabilities trustLine else mret false);
    if (authorized : bool) then
      avail ← line_getAvailableBalance header trustLine;
      mret (Z.max avail 0)
    else mret 0.

Definition canBuyAtMost (header : Z) (account : Handle) (asset : Asset) (trustLine : TrustLineWrapper) : Client Z :=
  if is_native asset then
    m ← getMaxAmountReceive_ltx header account;
    mret (Z.max m 0)
  else if is_line trustLine then
    m ← line_getMaxAmountReceive header trustLine;
    mret (Z.max m 0)
  else mret 0.

Definition offerOf (h : Handle) : Client OfferEntry := le ← current h; lift (data_offer le).

Definition adjustOffer_ltx (header : Z) (offer account : Handle) (wheat : Asset) (wheatLine : TrustLineWrapper)
    (sheep : Asset) (sheepLine : TrustLineWrapper) : Client unit :=
  oe ← offerOf offer;
  sell ← canSellAtMost header account wheat wheatLine;
  let maxWheatSend := Z.min (off_amount oe) sell in
  maxSheepReceive ← canBuyAtMost header account sheep sheepLine;
  amount ← lift (adjustOffer (off_price oe) maxWheatSend maxSheepReceive);
  change offer (on_offer (set_off_amount amount)).

(** ** Taking an offer before protocol 10 *)

(** The result type with the wheat received, the sheep sent and the new amount. *)
Definition performExchange (header : Z) (sellingWheatOffer accountB : Handle)
    (wheatLineAccountB sheepLineAccountB : TrustLineWrapper) (maxWheatReceived maxSheepSend : Z) :
    Client (ExchangeResultType * Z * Z * Z) :=
  offer ← offerOf sellingWheatOffer;
  let sheep := off_buying offer in
  let wheat := off_selling offer in
  let price := off_price offer in
  bySheep ← canSellAtMostBasedOnSheep header sheep sheepLineAccountB price;
  byWheat ← canSellAtMost header accountB wheat wheatLineAccountB;
  let maxWheat := Z.min (Z.min bySheep byWheat) (off_amount offer) in
  lift (cassert (0 <=? maxWheat));;
  lh ← ask (CurrentHeader header);
  r ← lift ((if lh_ledgerVersion lh <? 3 then exchangeV2 else exchangeV3) maxWheat price maxWheatReceived maxSheepSend);
  match exchangeResultType r with
  | REDUCED_TO_ZERO => mret (REDUCED_TO_ZERO, er_numWheatReceived r, er_numSheepSend r, maxWheat)
  | BOGUS => mret (ExchangeNORMAL, 0, 0, 0)
  | ExchangeNORMAL =>
      let offerTaken := off_amount offer <=? er_numWheatReceived r in
      mret (ExchangeNORMAL, er_numWheatReceived r, er_numSheepSend r,
            if offerTaken then 0 else maxWheat - er_numWheatReceived r)
  end.

(** An amount paid to or taken from the owner of an offer, in a level of its own. *)
Definition payOwner (accountBID : AccountID) (asset : Asset) (delta : Z) : Client bool :=
  nested (withHeader (λ header,
    ok ← (if is_native asset then
            withEntry (loadAccount accountBID) (λ accountB, addBalance_ltx header accountB delta)
          else
            withLine (loadTrustLine accountBID asset) (line_addBalance header delta));
    mret (ok, ok))).

Definition crossOffer (sellingWheatOffer : Handle) (maxWheatReceived maxSheepSend : Z)
    (offerTrail : list ClaimOfferAtom) : Client (CrossOfferResult * Z * Z * list ClaimOfferAtom) :=
  lift (cassert (0 <? maxWheatReceived));;
  lift (cassert (0 <? maxSheepSend));;
  offer ← offerOf sellingWheatOffer;
  let sheep := off_buying offer in
  let wheat := off_selling offer in
  let accountBID := off_sellerID offer in
  '(exchangeResult, numWheat, numSheep, newAmount) ←
    withEntry (loadAccountWithoutRecord accountBID) (λ accountB,
      match accountB with
      | None => throw_runtime "invalid database state: offer must have matching account"
      | Some _ =>
          withLine (loadTrustLineWithoutRecordIfNotNative accountBID sheep) (λ sheepLineAccountB,
          withLine (loadTrustLineWithoutRecordIfNotNative accountBID wheat) (λ wheatLineAccountB,
          withHeader (λ header,
            performExchange header sellingWheatOffer accountB wheatLineAccountB sheepLineAccountB
              maxWheatReceived maxSheepSend)))
      end);
  if decide (exchangeResult = REDUCED_TO_ZERO) then mret (eOfferCantConvert, numWheat, numSheep, offerTrail)
  else
    (if newAmount =? 0 then
       withEntry (loadAccount accountBID) (λ accountB,
         withHeader (λ header, removeLoadedEntry header sellingWheatOffer accountB);;
         eraseEntry sellingWheatOffer)
     else change sellingWheatOffer (on_offer (set_off_amount newAmount)));;
    okSheep ← (if numSheep =? 0 then mret true else payOwner accountBID sheep numSheep);
    if negb okSheep then mret (eOfferCantConvert, numWheat, numSheep, offerTrail)
    else
      okWheat ← (if numWheat =? 0 then mret true else payOwner accountBID wheat (- numWheat));
      if negb okWheat then mret (eOfferCantConvert, numWheat, numSheep, offerTrail)
      else
        mret (if newAmount =? 0 then eOfferTaken else eOfferPartial, numWheat, numSheep,
              offerTrail ++ [mkClaimOfferAtom accountBID (off_offerID offer) wheat numWheat sheep numSheep]).

(** ** Taking an offer *)

(** Balances are adjusted through the handles at hand. *)
Definition payB (header : Z) (accountB : Handle) (line : TrustLineWrapper) (asset : Asset) (delta : Z) (what : string) :
    Client unit :=
  if delta =? 0 then mret tt
  else
    ok ← (if is_native asset then addBalance_ltx header accountB delta else line_addBalance header delta line);
    if (ok : bool) then mret tt else throw_runtime what.

(** The offer is removed, or its liabilities are booked again. *)
Definition settleOffer (accountBID : AccountID) (offerID : Z) (res : CrossOfferResult) : Client unit :=
  nested (withHeader (λ header,
    withEntry (loadOffer accountBID offerID) (λ sellingWheatOffer,
      (if decide (res = eOfferTaken) then
         withEntry (loadAccount accountBID) (λ account,
           removeLoadedEntry header sellingWheatOffer account;;
           eraseEntry sellingWheatOffer)
       else acquireLiabilities header sellingWheatOffer);;
      mret (true, tt)))).

Definition crossOfferV10 (sellingWheatOffer : Handle) (maxWheatReceived maxSheepSend : Z) (round : RoundingType)
    (offerTrail : list ClaimOfferAtom) : Client (CrossOfferResult * Z * Z * bool * list ClaimOfferAtom) :=
  lift (cassert (0 <? maxWheatReceived));;
  lift (cassert (0 <? maxSheepSend));;
  withHeader (λ header,
    offer ← offerOf sellingWheatOffer;
    let sheep := off_buying offer in
    let wheat := off_selling offer in
    let accountBID := off_sellerID offer in
    let offerID := off_offerID offer in
    exists_ ← there (loadAccountWithoutRecord accountBID);
    if negb exists_ then throw_runtime "invalid database state: offer must have matching account"
    else
      releaseLiabilities header sellingWheatOffer;;
      withEntry (if is_native wheat || is_native sheep then loadAccount accountBID else mret None) (λ accountB,
      withLine (loadTrustLineIfNotNative accountBID sheep) (λ sheepLineAccountB,
      withLine (loadTrustLineIfNotNative accountBID wheat) (λ wheatLineAccountB,
        adjustOffer_ltx header sellingWheatOffer accountB wheat wheatLineAccountB sheep sheepLineAccountB;;
        sell ← canSellAtMost header accountB wheat wheatLineAccountB;
        offer ← offerOf sellingWheatOffer;
        let maxWheatSend := Z.min (off_amount offer) sell in
        maxSheepReceive ← canBuyAtMost header accountB sheep sheepLineAccountB;
        r ← lift (exchangeV10 (off_price offer) maxWheatSend maxWheatReceived maxSheepSend maxSheepReceive round);
        let '(numWheat, numSheep) := (numWheatReceived r, numSheepSend r) in
        payB header accountB sheepLineAccountB sheep numSheep "overflowed sheep balance";;
        payB header accountB wheatLineAccountB wheat (- numWheat) "overflowed wheat balance";;
        (if wheatStays r then
           change sellingWheatOffer (on_offer (λ o, set_off_amount (off_amount o - numWheat) o));;
           adjustOffer_ltx header sellingWheatOffer accountB wheat wheatLineAccountB sheep sheepLineAccountB
         else change sellingWheatOffer (on_offer (set_off_amount 0)));;
        offer ← offerOf sellingWheatOffer;
        let res := if off_amount offer =? 0 then eOfferTaken else eOfferPartial in
        settleOffer accountBID offerID res;;
        mret (res, numWheat, numSheep, wheatStays r,
              offerTrail ++ [mkClaimOfferAtom accountBID offerID wheat numWheat sheep numSheep]))))).

(** ** Converting *)

Inductive CrossStep (B : Type) : Type :=
| StepBreak
| StepReturn (r : ConvertResult B)
| StepCrossed (cor : CrossOfferResult) (numWheat numSheep : Z) (needMore : bool) (offerTrail : list ClaimOfferAtom).
Arguments StepBreak {B}.
Arguments StepReturn {B} r.
Arguments StepCrossed {B} cor numWheat numSheep needMore offerTrail.

Section convert.
Context {B : Type}.
Variables (sheep wheat : Asset) (round : RoundingType) (filter : Handle → Client (option B)) (maxOffersToCross : Z).

(** One round: a level that is committed when an offer was crossed. *)
Definition crossBest (maxSheepSend maxWheatReceive : Z) (offerTrail : list ClaimOfferAtom) : Client (CrossStep B) :=
  nested (withEntry (ask (LoadBestOffer sheep wheat)) (λ wheatOffer,
    match wheatOffer with
    | None => mret (false, StepBreak)
    | Some _ =>
        stop ← filter wheatOffer;
        match stop with
        | Some why => mret (false, StepReturn (eFilterStop why))
        | None =>
            if u64 maxOffersToCross <=? Z.of_nat (length offerTrail) then mret (false, StepReturn eCrossedTooMany)
            else
              version ← ledgerVersion;
              '(cor, numWheat, numSheep, needMore, offerTrail) ←
                (if 10 <=? version then
                   '(cor, w, s, stays, trail) ← crossOfferV10 wheatOffer maxWheatReceive maxSheepSend round offerTrail;
                   mret (cor, w, s, negb stays, trail)
                 else
                   '(cor, w, s, trail) ← crossOffer wheatOffer maxWheatReceive maxSheepSend offerTrail;
                   mret (cor, w, s, true, trail));
              lift (cassert (0 <=? numSheep));;
              lift (cassert (numSheep <=? maxSheepSend));;
              lift (cassert (0 <=? numWheat));;
              lift (cassert (numWheat <=? maxWheatReceive));;
              if decide (cor = eOfferCantConvert) then mret (false, StepReturn ePartial)
              else mret (true, StepCrossed cor numWheat numSheep needMore offerTrail)
        end
    end)).

(** The result with the sheep sent, the wheat received and the offers claimed. *)
Fixpoint convertLoop (fuel : nat) (maxSheepSend maxWheatReceive sheepSend wheatReceived : Z)
    (offerTrail : list ClaimOfferAtom) : Client (ConvertResult B * Z * Z * list ClaimOfferAtom) :=
  match fuel with
  | O => Raise OutOfFuel
  | S fuel =>
      step ← crossBest maxSheepSend maxWheatReceive offerTrail;
      match step with
      | StepBreak =>
          version ← ledgerVersion;
          mret (if version <? 10 then eOK else ePartial, sheepSend, wheatReceived, offerTrail)
      | StepReturn r => mret (r, sheepSend, wheatReceived, offerTrail)
      | StepCrossed cor numWheat numSheep needMore offerTrail =>
          let sheepSend := sheepSend + numSheep in
          let maxSheepSend := maxSheepSend - numSheep in
          let wheatReceived := wheatReceived + numWheat in
          let maxWheatReceive := maxWheatReceive - numWheat in
          if negb (needMore && (0 <? maxWheatReceive) && (0 <? maxSheepSend))
          then mret (eOK, sheepSend, wheatReceived, offerTrail)
          else if decide (cor = eOfferPartial) then mret (ePartial, sheepSend, wheatReceived, offerTrail)
          else convertLoop fuel maxSheepSend maxWheatReceive sheepSend wheatReceived offerTrail
      end
  end.

Definition convertWithOffers (fuel : nat) (maxSheepSend maxWheatReceive : Z) :
    Client (ConvertResult B * Z * Z * list ClaimOfferAtom) :=
  if (0 <? maxWheatReceive) && (0 <? maxSheepSend)
  then convertLoop fuel maxSheepSend maxWheatReceive 0 0 []
  else _ ← ledgerVersion; mret (eOK, 0, 0, []).
End convert.
