(* ===== verification/PrepareLiabilities.v ===== *)
(** * Offers and liabilities after an upgrade

    The part of [herder/Upgrades.cpp] that brings the offers of the ledger in line
    with what their owners can buy and sell: the liabilities of every account are
    computed anew, offers in excess are erased, and the others are adjusted.  What is
    counted for the log is left out. *)

From S2P Require Import Prelude Numeric Exchange LedgerEntries GeneralizedEntries Accounts LedgerTxn LedgerTxnRefine LedgerClient Sponsorship TrustLines OfferCrossing.

(** [std::map] is walked in the order of its keys. *)
Definition in_order {K V} `{Countable K, TotalOrd K} (m : gmap K V) : list (K * V) :=
  std_sort (λ x y, ltb x.1 y.1) (map_to_list m).

(** A total of liabilities; [None] is one that overflows. *)
Notation Totals := (gmap Asset (option Z)).

Definition isIssuer (accountID : AccountID) (asset : Asset) : res bool :=
  if is_native asset then mret false else issuer ← getIssuer asset; mret (bool_decide (accountID = issuer)).

Definition addLiabilities (liabilities : Totals) (accountID : AccountID) (asset : Asset) (delta : Z) : res Totals :=
  let total := default (Some 0) (liabilities !! asset) in
  issuer ← isIssuer accountID asset;
  total ← match total with
          | Some v => if (issuer : bool) then mret (Some v) else addBalance v delta INT64_MAX
          | None => mret None
          end;
  mret (<[asset := total]> liabilities).

Definition getAvailableBalanceExcludingLiabilities (accountID : AccountID) (asset : Asset) (balanceAboveReserve : Z) :
    Client Z :=
  if is_native asset then mret balanceAboveReserve
  else
    issuer ← lift (isIssuer accountID asset);
    if (issuer : bool) then mret INT64_MAX
    else
      withLine (loadTrustLineWithoutRecord accountID asset) (λ trust,
        ok ← (if is_line trust then line_isAuthorizedToMaintainLiabilities trust else mret false);
        if (ok : bool) then line_getBalance trust else mret 0).

Definition getAvailableLimitExcludingLiabilities (accountID : AccountID) (asset : Asset) (balance : Z) : Client Z :=
  if is_native asset then mret (i64 (INT64_MAX - balance))
  else
    issuer ← lift (isIssuer accountID asset);
    if (issuer : bool) then mret INT64_MAX
    else
      withEntry (ask (LoadWithoutRecord (trustlineKey accountID asset))) (λ trust,
        match trust with
        | Some _ =>
            le ← current trust;
            ok ← lift (isAuthorizedToMaintainLiabilities le);
            if (ok : bool) then tl ← lift (data_trustLine le); mret (i64 (tl_limit tl - tl_balance tl)) else mret 0
        | None => mret 0
        end).

Definition shouldDeleteOffer (asset : Asset) (effectiveBalance : Z) (liabilities : Totals)
    (getCap : Asset → Z → Client Z) : Client bool :=
  match liabilities !! asset with
  | None => throw_runtime "liabilities were not calculated"
  | Some (Some v) => cap ← getCap asset effectiveBalance; mret (cap <? v)
  | Some None => mret true
  end.

Module Update.
Inductive UpdateOfferResult : Type := Unchanged | Adjusted | AdjustedToZero | Erase.
End Update.

(** [liabilities[asset]], with a field changed by [addBalance]. *)
Definition bookBuying (asset : Asset) (delta : Z) (liabilities : gmap Asset Liabilities) :
    res (gmap Asset Liabilities) :=
  let l := default (mkLiabilities 0 0) (liabilities !! asset) in
  o ← addBalance (li_buying l) delta INT64_MAX;
  match o with
  | Some v => mret (<[asset := mkLiabilities v (li_selling l)]> liabilities)
  | None => Throw (RuntimeError "could not add buying liabilities")
  end.

Definition bookSelling (asset : Asset) (delta : Z) (liabilities : gmap Asset Liabilities) :
    res (gmap Asset Liabilities) :=
  let l := default (mkLiabilities 0 0) (liabilities !! asset) in
  o ← addBalance (li_selling l) delta INT64_MAX;
  match o with
  | Some v => mret (<[asset := mkLiabilities (li_buying l) v]> liabilities)
  | None => Throw (RuntimeError "could not add selling liabilities")
  end.

Definition bookOffer (header : Z) (offerEntry : Handle) (liabilities : gmap Asset Liabilities) :
    Client (gmap Asset Liabilities) :=
  offer ← offerOf offerEntry;
  issuer ← lift (isIssuer (off_sellerID offer) (off_buying offer));
  liabilities ← (if (issuer : bool) then mret liabilities
                 else buying ← getOfferBuyingLiabilities_ltx header offerEntry;
                      lift (bookBuying (off_buying offer) buying liabilities));
  issuer ← lift (isIssuer (off_sellerID offer) (off_selling offer));
  if (issuer : bool) then mret liabilities
  else selling ← getOfferSellingLiabilities_ltx header offerEntry;
       lift (bookSelling (off_selling offer) selling liabilities).

Definition updateOffer (header : Z) (offerEntry : Handle) (balance balanceAboveReserve : Z)
    (liabilities : gmap Asset Liabilities) (initialBuyingLiabilities initialSellingLiabilities : Totals) :
    Client (Update.UpdateOfferResult * gmap Asset Liabilities) :=
  offer ← offerOf offerEntry;
  erase ← shouldDeleteOffer (off_selling offer) balanceAboveReserve initialSellingLiabilities
            (getAvailableBalanceExcludingLiabilities (off_sellerID offer));
  erase ← (if (erase : bool) then mret true
           else shouldDeleteOffer (off_buying offer) balance initialBuyingLiabilities
                  (getAvailableLimitExcludingLiabilities (off_sellerID offer)));
  if (erase : bool) then mret (Update.Erase, liabilities)
  else
    adjAmount ← lift (adjustOffer (off_price offer) (off_amount offer) INT64_MAX);
    if adjAmount =? 0 then mret (Update.AdjustedToZero, liabilities)
    else
      change offerEntry (on_offer (set_off_amount adjAmount));;
      liabilities ← bookOffer header offerEntry liabilities;
      mret (if adjAmount =? off_amount offer then Update.Unchanged else Update.Adjusted, liabilities).

(** The minimum balances of the accounts that have offers. *)
Fixpoint getOfferAccountMinBalances (header : Z) (accounts : list AccountID) (minBalanceMap : gmap AccountID Z) :
    Client (gmap AccountID Z) :=
  match accounts with
  | [] => mret minBalanceMap
  | accountID :: accounts =>
      minBalance ← withEntry (loadAccount accountID) (λ accountEntry,
                     match accountEntry with
                     | None => throw_runtime "account does not exist"
                     | Some _ =>
                         le ← current accountEntry;
                         acc ← lift (data_account le);
                         lh ← ask (CurrentHeader header);
                         lift (getMinBalance lh acc)
                     end);
      getOfferAccountMinBalances header accounts (<[accountID := minBalance]> minBalanceMap)
  end.

Fixpoint initialLiabilities (header : Z) (offers : list Handle) (buying selling : Totals) : Client (Totals * Totals) :=
  match offers with
  | [] => mret (buying, selling)
  | offerEntry :: offers =>
      offer ← offerOf offerEntry;
      b ← getOfferBuyingLiabilities_ltx header offerEntry;
      buying ← lift (addLiabilities buying (off_sellerID offer) (off_buying offer) b);
      s ← getOfferSellingLiabilities_ltx header offerEntry;
      selling ← lift (addLiabilities selling (off_sellerID offer) (off_selling offer) s);
      initialLiabilities header offers buying selling
  end.

Definition eraseOfferWithPossibleSponsorship (header : Z) (offerEntry accountEntry : Handle) : Client unit :=
  removeLoadedEntry header offerEntry accountEntry;;
  eraseEntry offerEntry.

Fixpoint updateOffers (header : Z) (accountEntry : Handle) (balance balanceAboveReserve : Z)
    (initialBuyingLiabilities initialSellingLiabilities : Totals) (offers : list Handle)
    (liabilities : gmap Asset Liabilities) : Client (gmap Asset Liabilities) :=
  match offers with
  | [] => mret liabilities
  | offerEntry :: offers =>
      _ ← offerOf offerEntry;
      '(res, liabilities) ← updateOffer header offerEntry balance balanceAboveReserve liabilities
                              initialBuyingLiabilities initialSellingLiabilities;
      match res with
      | Update.AdjustedToZero | Update.Erase => eraseOfferWithPossibleSponsorship header offerEntry accountEntry
      | _ => mret tt
      end;;
      updateOffers header accountEntry balance balanceAboveReserve initialBuyingLiabilities
        initialSellingLiabilities offers liabilities
  end.

Definition orThrow (what : string) (c : Client bool) : Client unit := ok ← c; if (ok : bool) then mret tt else throw_runtime what.

(** The liabilities of one asset become what the offers that are left come to. *)
Definition setLiabilities (header : Z) (accountID : AccountID) (accountEntry : Handle) (asset : Asset)
    (liab : Liabilities) : Client unit :=
  if is_native asset then
    selling ← getSellingLiabilities_ltx header accountEntry;
    buying ← getBuyingLiabilities_ltx header accountEntry;
    orThrow "invalid selling liabilities during upgrade"
      (addSellingLiabilities_ltx header accountEntry (i64 (li_selling liab - selling)));;
    orThrow "invalid buying liabilities during upgrade"
      (addBuyingLiabilities_ltx header accountEntry (i64 (li_buying liab - buying)))
  else
    withLine (loadTrustLine accountID asset) (λ trustEntry,
      selling ← line_getSellingLiabilities header trustEntry;
      let deltaSelling := i64 (li_selling liab - selling) in
      buying ← line_getBuyingLiabilities header trustEntry;
      let deltaBuying := i64 (li_buying liab - buying) in
      lh ← ask (CurrentHeader header);
      if (10 <? lh_ledgerVersion lh) && ((0 <? deltaSelling) || (0 <? deltaBuying))
      then throw_runtime "invalid liabilities delta"
      else
        orThrow "invalid selling liabilities during upgrade" (line_addSellingLiabilities header deltaSelling trustEntry);;
        orThrow "invalid buying liabilities during upgrade" (line_addBuyingLiabilities header deltaBuying trustEntry)).

Fixpoint setAllLiabilities (header : Z) (accountID : AccountID) (accountEntry : Handle)
    (liabilities : list (Asset * Liabilities)) : Client unit :=
  match liabilities with
  | [] => mret tt
  | (asset, liab) :: liabilities =>
      setLiabilities header accountID accountEntry asset liab;;
      setAllLiabilities header accountID accountEntry liabilities
  end.

Definition prepareAccount (header : Z) (minBalanceMap : gmap AccountID Z) (accountID : AccountID)
    (offers : list Handle) : Client unit :=
  '(initialBuyingLiabilities, initialSellingLiabilities) ← initialLiabilities header offers ∅ ∅;
  withEntry (loadAccount accountID) (λ accountEntry,
    match accountEntry with
    | None => throw_runtime "account does not exist"
    | Some _ =>
        le ← current accountEntry;
        acc ← lift (data_account le);
        match minBalanceMap !! accountID with
        | None => throw_runtime "min balance missing from map"
        | Some minBalance =>
            liabilities ← updateOffers header accountEntry (acc_balance acc) (i64 (acc_balance acc - minBalance))
                            initialBuyingLiabilities initialSellingLiabilities offers ∅;
            setAllLiabilities header accountID accountEntry (in_order liabilities)
        end
    end).

Fixpoint prepareAccounts (header : Z) (minBalanceMap : gmap AccountID Z) (offersByAccount : list (AccountID * list Handle)) :
    Client unit :=
  match offersByAccount with
  | [] => mret tt
  | (accountID, offers) :: offersByAccount =>
      prepareAccount header minBalanceMap accountID offers;;
      prepareAccounts header minBalanceMap offersByAccount
  end.

Fixpoint releaseAll (handles : list Handle) : Client unit :=
  match handles with
  | [] => mret tt
  | h :: handles => releaseEntry h;; releaseAll handles
  end.

(** The handles of the offers end with the function. *)
Definition prepareLiabilities (header : Z) : Client unit :=
  loaded ← ask LoadAllOffers;
  let offersByAccount := in_order loaded in
  minBalanceMap ← getOfferAccountMinBalances header offersByAccount.*1 ∅;
  prepareAccounts header minBalanceMap offersByAccount;;
  releaseAll (concat offersByAccount.*2).
