(* ===== verification/OperationTypes.v ===== *)
(** * Operations and their results

    The operations of [xdr/DiamNet-transaction.x] and the results they leave.  A
    result union whose cases are empty is its code; a code with an arm carries the
    arm. *)

From S2P Require Import Prelude Numeric LedgerEntries Accounts OfferCrossing.

(** ** Operations *)

Record CreateAccountOp : Type := mkCreateAccountOp { ca_destination : AccountID; ca_startingBalance : Z }.

Record PaymentOp : Type := mkPaymentOp { pay_destination : MuxedAccount; pay_asset : Asset; pay_amount : Z }.

Record PathPaymentStrictReceiveOp : Type := mkPathPaymentStrictReceiveOp {
  ppr_sendAsset : Asset;
  ppr_sendMax : Z;
  ppr_destination : MuxedAccount;
  ppr_destAsset : Asset;
  ppr_destAmount : Z;
  ppr_path : list Asset
}.

Record PathPaymentStrictSendOp : Type := mkPathPaymentStrictSendOp {
  pps_sendAsset : Asset;
  pps_sendAmount : Z;
  pps_destination : MuxedAccount;
  pps_destAsset : Asset;
  pps_destMin : Z;
  pps_path : list Asset
}.

Record ManageSellOfferOp : Type := mkManageSellOfferOp {
  mso_selling : Asset;
  mso_buying : Asset;
  mso_amount : Z;
  mso_price : Price;
  mso_offerID : Z
}.

Record ManageBuyOfferOp : Type := mkManageBuyOfferOp {
  mbo_selling : Asset;
  mbo_buying : Asset;
  mbo_buyAmount : Z;
  mbo_price : Price;
  mbo_offerID : Z
}.

Record CreatePassiveSellOfferOp : Type := mkCreatePassiveSellOfferOp {
  pso_selling : Asset;
  pso_buying : Asset;
  pso_amount : Z;
  pso_price : Price
}.

Record SetOptionsOp : Type := mkSetOptionsOp {
  so_inflationDest : option AccountID;
  so_clearFlags : option Z;
  so_setFlags : option Z;
  so_masterWeight : option Z;
  so_lowThreshold : option Z;
  so_medThreshold : option Z;
  so_highThreshold : option Z;
  so_homeDomain : option (list Z);
  so_signer : option Signer
}.

Record ChangeTrustOp : Type := mkChangeTrustOp { ct_line : Asset; ct_limit : Z }.

(** The type and code of an asset, without its issuer. *)
Inductive AssetCode : Type :=
| CODE_NATIVE
| CODE_ALPHANUM4 (assetCode4 : list Z)
| CODE_ALPHANUM12 (assetCode12 : list Z).

Record AllowTrustOp : Type := mkAllowTrustOp { at_trustor : AccountID; at_asset : AssetCode; at_authorize : Z }.

Record ManageDataOp : Type := mkManageDataOp { md_dataName : list Z; md_dataValue : option (list Z) }.

Record CreateClaimableBalanceOp : Type := mkCreateClaimableBalanceOp {
  ccb_asset : Asset;
  ccb_amount : Z;
  ccb_claimants : list Claimant
}.

Inductive RevokeSponsorshipOp : Type :=
| REVOKE_SPONSORSHIP_LEDGER_ENTRY (ledgerKey : LedgerKey)
| REVOKE_SPONSORSHIP_SIGNER (accountID : AccountID) (signerKey : SignerKey).

Inductive OperationBody : Type :=
| CREATE_ACCOUNT (createAccountOp : CreateAccountOp)
| PAYMENT (paymentOp : PaymentOp)
| PATH_PAYMENT_STRICT_RECEIVE (pathPaymentStrictReceiveOp : PathPaymentStrictReceiveOp)
| MANAGE_SELL_OFFER (manageSellOfferOp : ManageSellOfferOp)
| CREATE_PASSIVE_SELL_OFFER (createPassiveSellOfferOp : CreatePassiveSellOfferOp)
| SET_OPTIONS (setOptionsOp : SetOptionsOp)
| CHANGE_TRUST (changeTrustOp : ChangeTrustOp)
| ALLOW_TRUST (allowTrustOp : AllowTrustOp)
| ACCOUNT_MERGE (destination : MuxedAccount)
| INFLATION
| MANAGE_DATA (manageDataOp : ManageDataOp)
| BUMP_SEQUENCE (bumpTo : Z)
| MANAGE_BUY_OFFER (manageBuyOfferOp : ManageBuyOfferOp)
| PATH_PAYMENT_STRICT_SEND (pathPaymentStrictSendOp : PathPaymentStrictSendOp)
| CREATE_CLAIMABLE_BALANCE (createClaimableBalanceOp : CreateClaimableBalanceOp)
| CLAIM_CLAIMABLE_BALANCE (balanceID : list Z)
| BEGIN_SPONSORING_FUTURE_RESERVES (sponsoredID : AccountID)
| END_SPONSORING_FUTURE_RESERVES
| REVOKE_SPONSORSHIP (revokeSponsorshipOp : RevokeSponsorshipOp).

Record Operation : Type := mkOperation { op_sourceAccount : option MuxedAccount; op_body : OperationBody }.

(** ** Results *)

Inductive CreateAccountResult : Type :=
| CREATE_ACCOUNT_SUCCESS
| CREATE_ACCOUNT_MALFORMED
| CREATE_ACCOUNT_UNDERFUNDED
| CREATE_ACCOUNT_LOW_RESERVE
| CREATE_ACCOUNT_ALREADY_EXIST.

Inductive PaymentResult : Type :=
| PAYMENT_SUCCESS
| PAYMENT_MALFORMED
| PAYMENT_UNDERFUNDED
| PAYMENT_SRC_NO_TRUST
| PAYMENT_SRC_NOT_AUTHORIZED
| PAYMENT_NO_DESTINATION
| PAYMENT_NO_TRUST
| PAYMENT_NOT_AUTHORIZED
| PAYMENT_LINE_FULL
| PAYMENT_NO_ISSUER.

Record SimplePaymentResult : Type := mkSimplePaymentResult {
  spr_destination : AccountID;
  spr_asset : Asset;
  spr_amount : Z
}.

Inductive PathPaymentStrictReceiveResult : Type :=
| PATH_PAYMENT_STRICT_RECEIVE_SUCCESS (offers : list ClaimOfferAtom) (last : SimplePaymentResult)
| PATH_PAYMENT_STRICT_RECEIVE_MALFORMED
| PATH_PAYMENT_STRICT_RECEIVE_UNDERFUNDED
| PATH_PAYMENT_STRICT_RECEIVE_SRC_NO_TRUST
| PATH_PAYMENT_STRICT_RECEIVE_SRC_NOT_AUTHORIZED
| PATH_PAYMENT_STRICT_RECEIVE_NO_DESTINATION
| PATH_PAYMENT_STRICT_RECEIVE_NO_TRUST
| PATH_PAYMENT_STRICT_RECEIVE_NOT_AUTHORIZED
| PATH_PAYMENT_STRICT_RECEIVE_LINE_FULL
| PATH_PAYMENT_STRICT_RECEIVE_NO_ISSUER (noIssuer : Asset)
| PATH_PAYMENT_STRICT_RECEIVE_TOO_FEW_OFFERS
| PATH_PAYMENT_STRICT_RECEIVE_OFFER_CROSS_SELF
| PATH_PAYMENT_STRICT_RECEIVE_OVER_SENDMAX.

Inductive PathPaymentStrictSendResult : Type :=
| PATH_PAYMENT_STRICT_SEND_SUCCESS (offers : list ClaimOfferAtom) (last : SimplePaymentResult)
| PATH_PAYMENT_STRICT_SEND_MALFORMED
| PATH_PAYMENT_STRICT_SEND_UNDERFUNDED
| PATH_PAYMENT_STRICT_SEND_SRC_NO_TRUST
| PATH_PAYMENT_STRICT_SEND_SRC_NOT_AUTHORIZED
| PATH_PAYMENT_STRICT_SEND_NO_DESTINATION
| PATH_PAYMENT_STRICT_SEND_NO_TRUST
| PATH_PAYMENT_STRICT_SEND_NOT_AUTHORIZED
| PATH_PAYMENT_STRICT_SEND_LINE_FULL
| PATH_PAYMENT_STRICT_SEND_NO_ISSUER (noIssuer : Asset)
| PATH_PAYMENT_STRICT_SEND_TOO_FEW_OFFERS
| PATH_PAYMENT_STRICT_SEND_OFFER_CROSS_SELF
| PATH_PAYMENT_STRICT_SEND_UNDER_DESTMIN.

Inductive ManageOfferEffect : Type :=
| MANAGE_OFFER_CREATED (offer : OfferEntry)
| MANAGE_OFFER_UPDATED (offer : OfferEntry)
| MANAGE_OFFER_DELETED.

Inductive ManageSellOfferResult : Type :=
| MANAGE_SELL_OFFER_SUCCESS (offersClaimed : list ClaimOfferAtom) (offer : ManageOfferEffect)
| MANAGE_SELL_OFFER_MALFORMED
| MANAGE_SELL_OFFER_SELL_NO_TRUST
| MANAGE_SELL_OFFER_BUY_NO_TRUST
| MANAGE_SELL_OFFER_SELL_NOT_AUTHORIZED
| MANAGE_SELL_OFFER_BUY_NOT_AUTHORIZED
| MANAGE_SELL_OFFER_LINE_FULL
| MANAGE_SELL_OFFER_UNDERFUNDED
| MANAGE_SELL_OFFER_CROSS_SELF
| MANAGE_SELL_OFFER_SELL_NO_ISSUER
| MANAGE_SELL_OFFER_BUY_NO_ISSUER
| MANAGE_SELL_OFFER_NOT_FOUND
| MANAGE_SELL_OFFER_LOW_RESERVE.

Inductive ManageBuyOfferResult : Type :=
| MANAGE_BUY_OFFER_SUCCESS (offersClaimed : list ClaimOfferAtom) (offer : ManageOfferEffect)
| MANAGE_BUY_OFFER_MALFORMED
| MANAGE_BUY_OFFER_SELL_NO_TRUST
| MANAGE_BUY_OFFER_BUY_NO_TRUST
| MANAGE_BUY_OFFER_SELL_NOT_AUTHORIZED
| MANAGE_BUY_OFFER_BUY_NOT_AUTHORIZED
| MANAGE_BUY_OFFER_LINE_FULL
| MANAGE_BUY_OFFER_UNDERFUNDED
| MANAGE_BUY_OFFER_CROSS_SELF
| MANAGE_BUY_OFFER_SELL_NO_ISSUER
| MANAGE_BUY_OFFER_BUY_NO_ISSUER
| MANAGE_BUY_OFFER_NOT_FOUND
| MANAGE_BUY_OFFER_LOW_RESERVE.

Inductive SetOptionsResult : Type :=
| SET_OPTIONS_SUCCESS
| SET_OPTIONS_LOW_RESERVE
| SET_OPTIONS_TOO_MANY_SIGNERS
| SET_OPTIONS_BAD_FLAGS
| SET_OPTIONS_INVALID_INFLATION
| SET_OPTIONS_CANT_CHANGE
| SET_OPTIONS_UNKNOWN_FLAG
| SET_OPTIONS_THRESHOLD_OUT_OF_RANGE
| SET_OPTIONS_BAD_SIGNER
| SET_OPTIONS_INVALID_HOME_DOMAIN.

Inductive ChangeTrustResult : Type :=
| CHANGE_TRUST_SUCCESS
| CHANGE_TRUST_MALFORMED
| CHANGE_TRUST_NO_ISSUER
| CHANGE_TRUST_INVALID_LIMIT
| CHANGE_TRUST_LOW_RESERVE
| CHANGE_TRUST_SELF_NOT_ALLOWED.

Inductive AllowTrustResult : Type :=
| ALLOW_TRUST_SUCCESS
| ALLOW_TRUST_MALFORMED
| ALLOW_TRUST_NO_TRUST_LINE
| ALLOW_TRUST_TRUST_NOT_REQUIRED
| ALLOW_TRUST_CANT_REVOKE
| ALLOW_TRUST_SELF_NOT_ALLOWED.

Inductive AccountMergeResult : Type :=
| ACCOUNT_MERGE_SUCCESS (sourceAccountBalance : Z)
| ACCOUNT_MERGE_MALFORMED
| ACCOUNT_MERGE_NO_ACCOUNT
| ACCOUNT_MERGE_IMMUTABLE_SET
| ACCOUNT_MERGE_HAS_SUB_ENTRIES
| ACCOUNT_MERGE_SEQNUM_TOO_FAR
| ACCOUNT_MERGE_DEST_FULL
| ACCOUNT_MERGE_IS_SPONSOR.

Record InflationPayout : Type := mkInflationPayout { ip_destination : AccountID; ip_amount : Z }.

Inductive InflationResult : Type :=
| INFLATION_SUCCESS (payouts : list InflationPayout)
| INFLATION_NOT_TIME.

Inductive ManageDataResult : Type :=
| MANAGE_DATA_SUCCESS
| MANAGE_DATA_NOT_SUPPORTED_YET
| MANAGE_DATA_NAME_NOT_FOUND
| MANAGE_DATA_LOW_RESERVE
| MANAGE_DATA_INVALID_NAME.

Inductive BumpSequenceResult : Type :=
| BUMP_SEQUENCE_SUCCESS
| BUMP_SEQUENCE_BAD_SEQ.

Inductive CreateClaimableBalanceResult : Type :=
| CREATE_CLAIMABLE_BALANCE_SUCCESS (balanceID : list Z)
| CREATE_CLAIMABLE_BALANCE_MALFORMED
| CREATE_CLAIMABLE_BALANCE_LOW_RESERVE
| CREATE_CLAIMABLE_BALANCE_NO_TRUST
| CREATE_CLAIMABLE_BALANCE_NOT_AUTHORIZED
| CREATE_CLAIMABLE_BALANCE_UNDERFUNDED.

Inductive ClaimClaimableBalanceResult : Type :=
| CLAIM_CLAIMABLE_BALANCE_SUCCESS
| CLAIM_CLAIMABLE_BALANCE_DOES_NOT_EXIST
| CLAIM_CLAIMABLE_BALANCE_CANNOT_CLAIM
| CLAIM_CLAIMABLE_BALANCE_LINE_FULL
| CLAIM_CLAIMABLE_BALANCE_NO_TRUST
| CLAIM_CLAIMABLE_BALANCE_NOT_AUTHORIZED.

Inductive BeginSponsoringFutureReservesResult : Type :=
| BEGIN_SPONSORING_FUTURE_RESERVES_SUCCESS
| BEGIN_SPONSORING_FUTURE_RESERVES_MALFORMED
| BEGIN_SPONSORING_FUTURE_RESERVES_ALREADY_SPONSORED
| BEGIN_SPONSORING_FUTURE_RESERVES_RECURSIVE.

Inductive EndSponsoringFutureReservesResult : Type :=
| END_SPONSORING_FUTURE_RESERVES_SUCCESS
| END_SPONSORING_FUTURE_RESERVES_NOT_SPONSORED.

Inductive RevokeSponsorshipResult : Type :=
| REVOKE_SPONSORSHIP_SUCCESS
| REVOKE_SPONSORSHIP_DOES_NOT_EXIST
| REVOKE_SPONSORSHIP_NOT_SPONSOR
| REVOKE_SPONSORSHIP_LOW_RESERVE
| REVOKE_SPONSORSHIP_ONLY_TRANSFERABLE.

Inductive OperationResultTr : Type :=
| createAccountResult (r : CreateAccountResult)
| paymentResult (r : PaymentResult)
| pathPaymentStrictReceiveResult (r : PathPaymentStrictReceiveResult)
| manageSellOfferResult (r : ManageSellOfferResult)
| createPassiveSellOfferResult (r : ManageSellOfferResult)
| setOptionsResult (r : SetOptionsResult)
| changeTrustResult (r : ChangeTrustResult)
| allowTrustResult (r : AllowTrustResult)
| accountMergeResult (r : AccountMergeResult)
| inflationResult (r : InflationResult)
| manageDataResult (r : ManageDataResult)
| bumpSeqResult (r : BumpSequenceResult)
| manageBuyOfferResult (r : ManageBuyOfferResult)
| pathPaymentStrictSendResult (r : PathPaymentStrictSendResult)
| createClaimableBalanceResult (r : CreateClaimableBalanceResult)
| claimClaimableBalanceResult (r : ClaimClaimableBalanceResult)
| beginSponsoringFutureReservesResult (r : BeginSponsoringFutureReservesResult)
| endSponsoringFutureReservesResult (r : EndSponsoringFutureReservesResult)
| revokeSponsorshipResult (r : RevokeSponsorshipResult).

Inductive OperationResult : Type :=
| opINNER (tr : OperationResultTr)
| opBAD_AUTH
| opNO_ACCOUNT
| opNOT_SUPPORTED
| opTOO_MANY_SUBENTRIES
| opEXCEEDED_WORK_LIMIT
| opTOO_MANY_SPONSORING.

(** What applying an operation returns, with the result it leaves. *)
Notation Applied := (bool * OperationResult)%type.
