(* ===== verification/SignatureChecker.v ===== *)
(** * Checking the signatures of a transaction

    [transactions/SignatureChecker.cpp] and the part of
    [transactions/SignatureUtils.cpp] it calls.  A checker marks the signatures it
    has used; the marks are passed along.  Hashing and the verification of an
    ed25519 signature are libsodium calls and are arguments. *)

From S2P Require Import Prelude LedgerEntries Accounts.

Definition UINT8_MAX : Z := 255.

Record DecoratedSignature : Type := mkDecoratedSignature { sig_hint : list Z; sig_signature : list Z }.

Record SignatureChecker : Type := mkSignatureChecker {
  mProtocolVersion : Z;
  mContentsHash : list Z;
  mSignatures : list DecoratedSignature
}.

(** ** [SignatureUtils] *)

Definition doesHintMatch (bs hint : list Z) : bool :=
  if (length bs <? length hint)%nat then false
  else bool_decide (drop (length bs - length hint) bs = hint).

Section verification.
Context (sha256 : list Z → list Z) (verifySig : list Z → list Z → list Z → bool).

(** The keys that can be converted to a public key are the ed25519 ones. *)
Definition verify (hash : list Z) (sig : DecoratedSignature) (key : SignerKey) : bool :=
  match key with
  | SIGNER_KEY_TYPE_ED25519 pubKey =>
      doesHintMatch pubKey (sig_hint sig) && verifySig pubKey (sig_signature sig) hash
  | _ => false
  end.

Definition verifyHashX (sig : DecoratedSignature) (key : SignerKey) : bool :=
  match key with
  | SIGNER_KEY_TYPE_HASH_X x => doesHintMatch x (sig_hint sig) && bool_decide (x = sha256 (sig_signature sig))
  | _ => false
  end.

(** ** [SignatureChecker] *)

Definition is_preAuth (s : Signer) : bool :=
  match signer_key s with SIGNER_KEY_TYPE_PRE_AUTH_TX _ => true | _ => false end.
Definition is_hashX (s : Signer) : bool :=
  match signer_key s with SIGNER_KEY_TYPE_HASH_X _ => true | _ => false end.
Definition is_ed25519 (s : Signer) : bool :=
  match signer_key s with SIGNER_KEY_TYPE_ED25519 _ => true | _ => false end.

Section checker.
Context (checker : SignatureChecker) (neededWeight : Z).

Definition weightOf (s : Signer) : Z :=
  if (9 <? mProtocolVersion checker) && (UINT8_MAX <? signer_weight s) then UINT8_MAX else signer_weight s.

Definition isTxHash (s : Signer) : bool :=
  match signer_key s with
  | SIGNER_KEY_TYPE_PRE_AUTH_TX h => bool_decide (h = mContentsHash checker)
  | _ => false
  end.

(** The weight of the keys that name the transaction itself; [true] when it is
    enough. *)
Fixpoint preAuthWeight (signers : list Signer) (totalWeight : Z) : bool * Z :=
  match signers with
  | [] => (false, totalWeight)
  | s :: signers =>
      if isTxHash s then
        let totalWeight := i32 (totalWeight + weightOf s) in
        if neededWeight <=? totalWeight then (true, totalWeight) else preAuthWeight signers totalWeight
      else preAuthWeight signers totalWeight
  end.

(** The first signer that a signature verifies, with the others. *)
Fixpoint takeSigner (ok : Signer → bool) (signers : list Signer) : option (Signer * list Signer) :=
  match signers with
  | [] => None
  | s :: signers =>
      if ok s then Some (s, signers)
      else '(s', rest) ← takeSigner ok signers; Some (s', s :: rest)
  end.

Fixpoint verifyAll (ok : DecoratedSignature → Signer → bool) (signatures : list DecoratedSignature)
    (used : list bool) (signers : list Signer) (totalWeight : Z) : bool * list bool * Z :=
  match signatures, used with
  | sig :: signatures, u :: used =>
      match takeSigner (ok sig) signers with
      | Some (s, rest) =>
          let totalWeight := i32 (totalWeight + weightOf s) in
          if neededWeight <=? totalWeight then (true, true :: used, totalWeight)
          else
            let '(r, used, totalWeight) := verifyAll ok signatures used rest totalWeight in
            (r, true :: used, totalWeight)
      | None =>
          let '(r, used, totalWeight) := verifyAll ok signatures used signers totalWeight in
          (r, u :: used, totalWeight)
      end
  | _, _ => (false, used, totalWeight)
  end.

(** The marks have the length of the signatures. *)
Definition checkSignature (signers : list Signer) (used : list bool) : bool * list bool :=
  if mProtocolVersion checker =? 7 then (true, used)
  else
    let '(r, totalWeight) := preAuthWeight (List.filter is_preAuth signers) 0 in
    if r then (true, used)
    else
      let '(r, used, totalWeight) :=
        verifyAll (λ sig s, verifyHashX sig (signer_key s)) (mSignatures checker) used
          (List.filter is_hashX signers) totalWeight in
      if r then (true, used)
      else
        let '(r, used, _) :=
          verifyAll (λ sig s, verify (mContentsHash checker) sig (signer_key s)) (mSignatures checker) used
            (List.filter is_ed25519 signers) totalWeight in
        (r, used).
End checker.

Definition newMarks (checker : SignatureChecker) : list bool := replicate (length (mSignatures checker)) false.

Definition checkAllSignaturesUsed (checker : SignatureChecker) (used : list bool) : bool :=
  if mProtocolVersion checker =? 7 then true else forallb id used.

(** ** The signers of an account

    [TransactionFrame::checkSignature] and [checkSignatureNoAccount]. *)

(** The thresholds are four bytes: the weight of the master key, low, medium and
    high. *)
Definition threshold (i : nat) (acc : AccountEntry) : Z := nth i (acc_thresholds acc) 0.

Definition accountSigners (acc : AccountEntry) : list Signer :=
  (if negb (threshold 0 acc =? 0) then [mkSigner (SIGNER_KEY_TYPE_ED25519 (acc_accountID acc)) (threshold 0 acc)]
   else []) ++ acc_signers acc.

Definition checkAccountSignature (checker : SignatureChecker) (acc : AccountEntry) (neededWeight : Z)
    (used : list bool) : bool * list bool :=
  checkSignature checker neededWeight (accountSigners acc) used.

Definition checkSignatureNoAccount (checker : SignatureChecker) (accountID : AccountID) (used : list bool) :
    bool * list bool :=
  checkSignature checker 0 [mkSigner (SIGNER_KEY_TYPE_ED25519 accountID) 1] used.
End verification.
