(* ===== verification/SignatureProps.v ===== *)
(** * What a checked signature means

    When the signatures of a transaction are found to be enough for an account, there
    are signers of the account that stand behind it, each by the hash of the
    transaction or by a signature of its own, whose weights add up. *)

From S2P Require Import Prelude LedgerEntries Accounts SignatureChecker.

Definition weights (w : Signer → Z) (ss : list Signer) : Z := foldr (λ s z, w s + z) 0 ss.

(** The signers [ss] are verified by the signatures at the positions [ps], one each. *)
Definition verified (ok : DecoratedSignature → Signer → bool) (sigs : list DecoratedSignature)
    (ss : list Signer) (ps : list nat) : Prop :=
  NoDup ps ∧ Forall2 (λ s p, ∃ sig, sigs !! p = Some sig ∧ ok sig s = true) ss ps.

Lemma verified_nil ok sigs : verified ok sigs [] [].
Proof. split; constructor. Qed.

Lemma verified_later ok sig sigs ss ps : verified ok sigs ss ps → verified ok (sig :: sigs) ss (S <$> ps).
Proof.
  intros [Hnd Hf]. split; [by apply NoDup_fmap_2; [apply _|]|]. apply Forall2_fmap_r. eapply Forall2_impl; [exact Hf|].
  intros s p (sg & ? & ?). by exists sg.
Qed.

Lemma verified_cons ok sig sigs s ss ps :
  ok sig s = true → verified ok sigs ss ps → verified ok (sig :: sigs) (s :: ss) (0%nat :: (S <$> ps)).
Proof.
  intros Hs Hv. destruct (verified_later ok sig sigs ss ps Hv) as [Hnd Hf]. split.
  - constructor; [|done]. rewrite list_elem_of_fmap. by intros (p & ? & _).
  - constructor; [by exists sig|done].
Qed.

Lemma takeSigner_Some ok signers s rest :
  takeSigner ok signers = Some (s, rest) → ok s = true ∧ signers ≡ₚ s :: rest.
Proof.
  revert rest. induction signers as [|x signers IH]; intros rest; simpl; [done|].
  destruct (ok x) eqn:E; [by intros [= <- <-]|]. destruct (takeSigner ok signers) as [[s' rest']|]; simpl; [|done].
  intros [= -> <-]. destruct (IH rest' eq_refl) as [? ->]. split; [done|]. apply Permutation_swap.
Qed.

(** Every signer is of one of the three kinds. *)
Lemma kinds_of_signers l : List.filter is_preAuth l ++ List.filter is_hashX l ++ List.filter is_ed25519 l ≡ₚ l.
Proof.
  induction l as [|[k w] l IH]; [done|]. destruct k; simpl.
  all: rewrite <-?Permutation_middle, ?(assoc_L (++)), <-?Permutation_middle, <-?(assoc_L (++)); by rewrite IH.
Qed.

Section checker.
Context (sha256 : list Z → list Z) (verifySig : list Z → list Z → list Z → bool).
Context (checker : SignatureChecker) (neededWeight : Z) (Hv : 9 < mProtocolVersion checker).

Notation weightOf := (weightOf checker).

Lemma weightOf_bounds s : 0 ≤ signer_weight s → 0 ≤ weightOf s ≤ 255.
Proof.
  intros Hs. unfold SignatureChecker.weightOf, UINT8_MAX. rewrite (proj2 (Z.ltb_lt 9 _)) by done. simpl.
  destruct (Z.ltb_spec 255 (signer_weight s)); lia.
Qed.

(** A total that stays within the weights of the signers that are left never wraps. *)
Definition within (n : nat) (w : Z) : Prop := 0 ≤ w ∧ w + 255 * Z.of_nat n ≤ 255000.

Lemma within_add n w s :
  0 ≤ signer_weight s → within (S n) w → within n (w + weightOf s) ∧ i32 (w + weightOf s) = w + weightOf s.
Proof.
  intros Hs [? ?]. pose proof (weightOf_bounds s Hs). split; [split; lia|]. apply i32_id. lia.
Qed.

(** What a pass over some signers finds: [ss] of them are accepted, and their weight
    was added; it stops when the total is enough. *)
Definition counted (signers ss : list Signer) (w w' : Z) (enough : bool) : Prop :=
  ss ⊆+ signers ∧ w' = w + weights weightOf ss ∧ (enough = true → ss ≠ [] ∧ neededWeight ≤ w').

Lemma counted_cons s signers signers' ss w w' b :
  signers ≡ₚ s :: signers' → counted signers' ss (w + weightOf s) w' b → counted signers (s :: ss) w w' b.
Proof.
  intros Hp (Hs & -> & Hb). split_and!.
  - rewrite Hp. by apply submseteq_skip.
  - simpl. lia.
  - intros E. split; [done|]. apply (Hb E).
Qed.

Lemma counted_enough s signers signers' w :
  signers ≡ₚ s :: signers' → neededWeight ≤ w + weightOf s → counted signers [s] w (w + weightOf s) true.
Proof.
  intros Hp Hw. split_and!; [|simpl; lia|done]. rewrite Hp. apply submseteq_skip, submseteq_nil_l.
Qed.

Lemma counted_skip s signers ss w w' b : counted signers ss w w' b → counted (s :: signers) ss w w' b.
Proof. intros (Hs & ? & ?). split_and!; [|done|done]. by apply submseteq_cons. Qed.

Lemma counted_none signers w : counted signers [] w w false.
Proof. split_and!; [apply submseteq_nil_l|simpl; lia|done]. Qed.

Lemma within_less n m w : (m ≤ n)%nat → within n w → within m w.
Proof. intros ? [? ?]. split; lia. Qed.

Lemma preAuthWeight_counted signers rest w :
  Forall (λ s, 0 ≤ signer_weight s) signers → within (length signers + rest) w →
  let '(b, w') := preAuthWeight checker neededWeight signers w in
  within rest w' ∧ ∃ ss, Forall (λ s, isTxHash checker s = true) ss ∧ counted signers ss w w' b.
Proof.
  revert w. induction signers as [|s signers IH]; intros w Hf Hw; simpl.
  { split; [done|]. exists []. split; [constructor|apply counted_none]. }
  inversion Hf as [|? ? Hs Hf']; subst. destruct (isTxHash checker s) eqn:E.
  - destruct (within_add (length signers + rest) _ _ Hs Hw) as [Hw' ->]. destruct (Z.leb_spec neededWeight (w + weightOf s)).
    + split; [eapply within_less; [|done]; lia|]. exists [s]. split; [by repeat constructor|by eapply counted_enough].
    + specialize (IH _ Hf' Hw'). destruct (preAuthWeight _ _ _ _) as [b w']. destruct IH as (? & ss & ? & ?).
      split; [done|]. exists (s :: ss). split; [by constructor|by eapply counted_cons].
  - specialize (IH w Hf'). destruct (preAuthWeight _ _ _ _) as [b w'].
    destruct IH as (? & ss & ? & ?); [eapply within_less; [|done]; simpl; lia|].
    split; [done|]. exists ss. split; [done|by apply counted_skip].
Qed.

Lemma verifyAll_counted ok sigs used signers rest w :
  Forall (λ s, 0 ≤ signer_weight s) signers → within (length signers + rest) w → length used = length sigs →
  let '(b, used', w') := verifyAll checker neededWeight ok sigs used signers w in
  within rest w' ∧ length used' = length sigs ∧
  ∃ ss ps, verified ok sigs ss ps ∧ counted signers ss w w' b.
Proof.
  revert used signers w. induction sigs as [|sig sigs IH]; intros [|u used] signers w Hf Hw Hl; simpl; try done.
  { split_and!; [eapply within_less; [|done]; lia|done|]. exists [], []. split; [apply verified_nil|apply counted_none]. }
  destruct (takeSigner (ok sig) signers) as [[s signers']|] eqn:E.
  - apply takeSigner_Some in E as [Hok Hp]. rewrite Hp in Hw, Hf. inversion Hf as [|? ? Hs Hf']; subst.
    destruct (within_add (length signers' + rest) _ _ Hs Hw) as [Hw' ->]. destruct (Z.leb_spec neededWeight (w + weightOf s)).
    + split_and!; [eapply within_less; [|done]; lia|done|]. exists [s], [0%nat].
      split; [apply (verified_cons _ _ _ _ [] []), verified_nil; done|by eapply counted_enough].
    + specialize (IH used signers' _ Hf' Hw'). destruct (verifyAll _ _ _ _ _ _ _) as [[b used'] w'].
      destruct IH as (? & ? & ss & ps & ? & ?); [by injection Hl|]. split_and!; [done|simpl; lia|].
      exists (s :: ss), (0%nat :: (S <$> ps)). split; [by apply verified_cons|by eapply counted_cons].
  - specialize (IH used signers w Hf Hw). destruct (verifyAll _ _ _ _ _ _ _) as [[b used'] w'].
    destruct IH as (? & ? & ss & ps & ? & ?); [by injection Hl|]. split_and!; [done|simpl; lia|].
    exists ss, (S <$> ps). split; [by apply verified_later|done].
Qed.

Lemma counted_app (a a' b b' c c' signers : list Signer) :
  a ++ b ++ c ≡ₚ signers → a' ⊆+ a → b' ⊆+ b → c' ⊆+ c → a' ++ b' ++ c' ⊆+ signers.
Proof. intros <- ? ? ?. by repeat apply submseteq_app. Qed.

Lemma weights_app ss ss' : weights weightOf (ss ++ ss') = weights weightOf ss + weights weightOf ss'.
Proof. induction ss; simpl; lia. Qed.

Lemma filter_weights p signers :
  Forall (λ s, 0 ≤ signer_weight s) signers → Forall (λ s, 0 ≤ signer_weight s) (List.filter p signers).
Proof. rewrite !List.Forall_forall. intros H s [? _]%filter_In. by apply H. Qed.

(** C11: signatures that are found sufficient from protocol 10 on are those of signers of
    the account, of which there are at most 1000 and none of negative weight.
    There are distinct signers whose weights, each cut at 255, add up to the weight
    asked for, at least one of them; each names the hash of the transaction, or is
    the hash of the text of a signature, or has signed the hash of the transaction,
    and no signature stands for two signers of one kind. *)
Theorem checkSignature_sound signers used :
  Forall (λ s, 0 ≤ signer_weight s) signers → (length signers ≤ 1000)%nat →
  length used = length (mSignatures checker) →
  (checkSignature sha256 verifySig checker neededWeight signers used).1 = true →
  ∃ pre hx hps ed eps,
    pre ++ hx ++ ed ⊆+ signers ∧ pre ++ hx ++ ed ≠ [] ∧ neededWeight ≤ weights weightOf (pre ++ hx ++ ed) ∧
    Forall (λ s, signer_key s = SIGNER_KEY_TYPE_PRE_AUTH_TX (mContentsHash checker)) pre ∧
    verified (λ sig s, verifyHashX sha256 sig (signer_key s)) (mSignatures checker) hx hps ∧
    verified (λ sig s, verify verifySig (mContentsHash checker) sig (signer_key s)) (mSignatures checker) ed eps.
Proof.
  intros Hf Hl Hu. unfold checkSignature. rewrite (proj2 (Z.eqb_neq _ 7)) by lia.
  pose proof (kinds_of_signers signers) as Hk. apply Permutation_length in Hk as Hn. rewrite !length_app in Hn.
  pose proof (preAuthWeight_counted (List.filter is_preAuth signers)
    (length (List.filter is_hashX signers) + length (List.filter is_ed25519 signers)) 0 (filter_weights _ _ Hf)) as H1.
  destruct (preAuthWeight _ _ _ _) as [b1 w1]. destruct H1 as (Hw1 & pre & Hpre & Hs1 & E1 & Hb1); [split; lia|].
  assert (Forall (λ s, signer_key s = SIGNER_KEY_TYPE_PRE_AUTH_TX (mContentsHash checker)) pre) as Hpre'.
  { eapply Forall_impl; [exact Hpre|]. intros [[] ?]; unfold isTxHash; simpl; try done. intros H%bool_decide_eq_true. by f_equal. }
  destruct b1.
  { intros _. exists pre, [], [], [], []. destruct (Hb1 eq_refl). rewrite !app_nil_r.
    split_and!; [|done|lia|done|apply verified_nil|apply verified_nil].
    rewrite <-(app_nil_r pre). eapply (counted_app _ pre _ [] _ []); [exact Hk|done|apply submseteq_nil_l..]. }
  pose proof (verifyAll_counted (λ sig s, verifyHashX sha256 sig (signer_key s)) (mSignatures checker) used
    (List.filter is_hashX signers) (length (List.filter is_ed25519 signers)) w1 (filter_weights _ _ Hf) Hw1 Hu) as H2.
  destruct (verifyAll _ _ _ _ used _ _) as [[b2 used2] w2]. destruct H2 as (Hw2 & Hu2 & hx & hps & Hhx & Hs2 & E2 & Hb2).
  destruct b2.
  { intros _. exists pre, hx, hps, [], []. destruct (Hb2 eq_refl) as [Hne ?]. rewrite !app_nil_r, weights_app.
    split_and!; [|by intros [_ ?]%app_eq_nil|lia|done|done|apply verified_nil].
    rewrite <-(app_nil_r hx). eapply (counted_app _ pre _ hx _ []); [exact Hk|done|done|apply submseteq_nil_l]. }
  pose proof (verifyAll_counted (λ sig s, verify verifySig (mContentsHash checker) sig (signer_key s)) (mSignatures checker)
    used2 (List.filter is_ed25519 signers) 0 w2 (filter_weights _ _ Hf)) as H3.
  destruct (verifyAll _ _ _ _ used2 _ _) as [[b3 used3] w3].
  destruct H3 as (_ & _ & ed & eps & Hed & Hs3 & E3 & Hb3); [by rewrite Nat.add_0_r|done|]. simpl. intros ->.
  exists pre, hx, hps, ed, eps. destruct (Hb3 eq_refl) as [Hne ?]. rewrite !weights_app.
  split_and!; [by eapply counted_app|by intros [_ [_ ?]%app_eq_nil]%app_eq_nil|lia|done..].
Qed.
End checker.

(** A transaction signed by one of the two keys of an account, and named by the
    other. *)
Module SignatureExample.
Definition hash : list Z := [7].
Definition sig : DecoratedSignature := mkDecoratedSignature [] [1].
Definition checker : SignatureChecker := mkSignatureChecker 15 hash [sig].
Definition signers : list Signer :=
  [mkSigner (SIGNER_KEY_TYPE_ED25519 [5]) 2; mkSigner (SIGNER_KEY_TYPE_PRE_AUTH_TX hash) 1].
Definition signed (key signature text : list Z) : bool := bool_decide (signature = [1] ∧ text = hash).
End SignatureExample.
Import SignatureExample.

Lemma checkSignature_sound_witness :
  (checkSignature id signed checker 3 signers [false]).1 = true ∧
  ∃ pre hx hps ed eps,
    pre ++ hx ++ ed ⊆+ signers ∧ pre ++ hx ++ ed ≠ [] ∧ 3 ≤ weights (weightOf checker) (pre ++ hx ++ ed) ∧
    Forall (λ s, signer_key s = SIGNER_KEY_TYPE_PRE_AUTH_TX hash) pre ∧
    verified (λ sig s, verifyHashX id sig (signer_key s)) [sig] hx hps ∧
    verified (λ sig s, verify signed hash sig (signer_key s)) [sig] ed eps.
Proof.
  split; [vm_compute; reflexivity|].
  apply (checkSignature_sound id signed checker 3 ltac:(reflexivity) signers [false]); [|simpl; lia|done|vm_compute; reflexivity].
  repeat constructor; simpl; lia.
Defined.
