(* ===== verification/OperationBase.v ===== *)
(** * What operations share

    The members of [transactions/OperationFrame.cpp] that the operations use: the
    source account of an operation and how it is loaded. *)

From S2P Require Import Prelude LedgerEntries GeneralizedEntries Accounts LedgerTxn LedgerTxnRefine LedgerClient Sponsorship OperationTypes.

(** What an operation uses of the transaction it is part of.  Before protocol 8 the
    transaction caches its source account and writes the cached copy back when the
    account is loaded; that is [tx_loadCached].  [tx_operationHash] is the SHA-256 of
    an [OperationID], made of the source account, the sequence number and the
    position of the operation. *)
Record ParentTx : Type := mkParentTx {
  tx_sourceID : AccountID;
  tx_seqNum : Z;
  tx_loadCached : AccountID → Client Handle;
  tx_operationHash : MuxedAccount → Z → Z → list Z
}.

Definition loadAccount_tx (tx : ParentTx) (header : Z) (accountID : AccountID) : Client Handle :=
  lh ← ask (CurrentHeader header);
  if lh_ledgerVersion lh <? 8 then tx_loadCached tx accountID else loadAccount accountID.

Definition getSourceID (tx : ParentTx) (op : Operation) : AccountID :=
  match op_sourceAccount op with Some m => toAccountID m | None => tx_sourceID tx end.

(** The loop, and all that follows, is cut short by an early return: [inl] is the
    result of the operation that has failed. *)
Notation Early A := (OperationResult + A)%type.

Definition orFail {A} (c : Client (Early A)) (k : A → Client Applied) : Client Applied :=
  r ← c;
  match r with
  | inl res => mret (false, res)
  | inr a => k a
  end.

(** The same for a function that returns a [bool]: [None] is true. *)
Definition unlessFails {A} (c : Client (option OperationResult)) (k : Client (Early A)) : Client (Early A) :=
  r ← c;
  match r with
  | Some res => mret (inl res)
  | None => k
  end.

(** The switch over the result of [createEntryWithPossibleSponsorship]. *)
Definition whenCreated {A} (lowReserve : OperationResult) (res : SponsorshipResult) (k : Client (Early A)) :
    Client (Early A) :=
  match res with
  | SPONSORSHIP_SUCCESS => k
  | LOW_RESERVE => mret (inl lowReserve)
  | TOO_MANY_SUBENTRIES => mret (inl opTOO_MANY_SUBENTRIES)
  | TOO_MANY_SPONSORING => mret (inl opTOO_MANY_SPONSORING)
  | TOO_MANY_SPONSORED => throw_runtime "Unexpected result from createEntryWithPossibleSponsorship"
  end.

(** [ltx.create(entry);]. *)
Definition create (le : LedgerEntry) : Client unit := withEntry (createEntry le) (λ _, mret tt).

(** A level of an operation's own, committed when the operation succeeds. *)
Definition ownLevel {A} (c : Client (Early A)) : Client (Early A) :=
  nested (r ← c; mret (match r with inl _ => false | inr _ => true end, r)).

(** Success. *)
Definition applied (c : Client (Early OperationResult)) : Client Applied := orFail c (λ res, mret (true, res)).
