(* ===== verification/PaymentOps.v ===== *)
(** * Creating accounts and paying

    [transactions/CreateAccountOpFrame.cpp], [PathPaymentOpFrameBase.cpp],
    [PathPaymentStrictReceiveOpFrame.cpp], [PathPaymentStrictSendOpFrame.cpp],
    [PaymentOpFrame.cpp] and [MergeOpFrame.cpp]. *)

From S2P Require Import Prelude Exchange LedgerEntries GeneralizedEntries Accounts LedgerTxn LedgerTxnRefine LedgerClient Sponsorship TrustLines OfferCrossing OperationTypes OperationBase.

(** ** [CreateAccountOpFrame] *)

Module CreateAccount.
Section op.
Context (tx : ParentTx) (sourceID : AccountID) (op : CreateAccountOp).

Definition result (r : CreateAccountResult) : OperationResult := opINNER (createAccountResult r).

Definition newAccountEntry (lh : LedgerHeader) : LedgerEntry :=
  mkLedgerEntry 0
    (ACCOUNT (mkAccount (ca_destination op) (ca_startingBalance op)
                (i64 (getStartingSequenceNumber (lh_ledgerSeq lh))) 0 None 0 [] [1; 0; 0; 0] [] None)) None.

(** Moving the starting balance out of the source account. *)
Definition takeBalance (header : Z) (sourceAccount : Handle) (exists_ : bool) (le : LedgerEntry) :
    Client (Early OperationResult) :=
  avail ← getAvailableBalance_ltx header sourceAccount;
  if avail <? ca_startingBalance op then mret (inl (result CREATE_ACCOUNT_UNDERFUNDED))
  else if negb exists_ then throw_runtime "modifying account that does not exist"
  else
    ok ← addBalance_ltx header sourceAccount (- ca_startingBalance op);
    lift (cassert ok);;
    create le;;
    mret (inr (result CREATE_ACCOUNT_SUCCESS)).

Definition doApplyBeforeV14 : Client Applied :=
  applied (withHeader (λ header,
    lh ← ask (CurrentHeader header);
    minBalance ← lift (getMinBalance_of lh 0 0 0);
    if ca_startingBalance op <? minBalance then mret (inl (result CREATE_ACCOUNT_LOW_RESERVE))
    else
      doesAccountExist ← (if 8 <=? lh_ledgerVersion lh then mret true else there (loadAccountWithoutRecord sourceID));
      withEntry (loadAccount_tx tx header sourceID) (λ sourceAccount,
        takeBalance header sourceAccount doesAccountExist (newAccountEntry lh)))).

Definition doApplyFromV14 : Client Applied :=
  applied (ownLevel (withHeader (λ header,
    lh ← ask (CurrentHeader header);
    '(res, le) ← createEntryWithPossibleSponsorship header (newAccountEntry lh) None;
    whenCreated (result CREATE_ACCOUNT_LOW_RESERVE) res
      (withEntry (loadAccount sourceID) (λ sourceAccount, takeBalance header sourceAccount true le))))).

Definition doApply : Client Applied :=
  there_ ← there (loadAccount (ca_destination op));
  if (there_ : bool) then mret (false, result CREATE_ACCOUNT_ALREADY_EXIST)
  else
    version ← ledgerVersion;
    if version <? 14 then doApplyBeforeV14 else doApplyFromV14.

Definition doCheckValid (version : Z) : option OperationResult :=
  let minStartingBalance := if 14 <=? version then 0 else 1 in
  if ca_startingBalance op <? minStartingBalance then Some (result CREATE_ACCOUNT_MALFORMED)
  else if decide (ca_destination op = sourceID) then Some (result CREATE_ACCOUNT_MALFORMED)
  else None.
End op.
End CreateAccount.

(** ** [PathPaymentOpFrameBase] *)

Module PathPayment.

(** What the two kinds of path payment answer to the virtual methods. *)
Record Kind : Type := mkKind {
  getSourceAsset : Asset;
  getDestAsset : Asset;
  getDestID : AccountID;
  checkTransfer : Z → Z → Z → Z → bool;
  resultMalformed : OperationResult;
  resultUnderfunded : OperationResult;
  resultSourceNoTrust : OperationResult;
  resultSourceNotAuthorized : OperationResult;
  resultNoDest : OperationResult;
  resultDestNoTrust : OperationResult;
  resultDestNotAuthorized : OperationResult;
  resultLineFull : OperationResult;
  resultNoIssuer : Asset → OperationResult;
  resultTooFewOffers : OperationResult;
  resultOfferCrossSelf : OperationResult;
  resultConstraintNotMet : OperationResult
}.

Section base.
Context (tx : ParentTx) (sourceID : AccountID) (fuel : nat) (kind : Kind).

Definition checkIssuer (asset : Asset) : Client (option OperationResult) :=
  if is_native asset then mret None
  else
    version ← ledgerVersion;
    if version <? 13 then
      issuer ← lift (getIssuer asset);
      there_ ← there (loadAccountWithoutRecord issuer);
      mret (if (there_ : bool) then None else Some (resultNoIssuer kind asset))
    else mret None.

(** Stops at an offer of the one who pays. *)
Definition crossSelf (o : Handle) : Client (option OperationResult) :=
  offer ← offerOf o;
  mret (if decide (off_sellerID offer = sourceID) then Some (resultOfferCrossSelf kind) else None).

(** The amounts sent and received, and the offers claimed. *)
Definition convert (maxOffersToCross : Z) (sendAsset : Asset) (maxSend : Z) (recvAsset : Asset) (maxRecv : Z)
    (round : RoundingType) : Client (Early (Z * Z * list ClaimOfferAtom)) :=
  lift (cassert (negb (bool_decide (sendAsset = recvAsset))));;
  '(r, amountSend, amountRecv, offerTrail) ←
    convertWithOffers sendAsset recvAsset round crossSelf maxOffersToCross fuel maxSend maxRecv;
  if (amountSend <? 0) || (amountRecv <? 0) then throw_runtime "amount transferred out of bounds"
  else
    match r with
    | eFilterStop why => mret (inl why)
    | eOK =>
        if checkTransfer kind maxSend amountSend maxRecv amountRecv
        then mret (inr (amountSend, amountRecv, offerTrail))
        else mret (inl (resultTooFewOffers kind))
    | ePartial => mret (inl (resultTooFewOffers kind))
    | eCrossedTooMany => mret (inl opEXCEEDED_WORK_LIMIT)
    end.

Definition shouldBypassIssuerCheck (path : list Asset) : res bool :=
  if negb (is_native (getDestAsset kind)) && bool_decide (path = [])
     && bool_decide (getSourceAsset kind = getDestAsset kind)
  then issuer ← getIssuer (getDestAsset kind); mret (bool_decide (issuer = getDestID kind))
  else mret false.

(** Adding to a trust line: the result when there is none, when it is not
    authorized and when the amount does not fit. *)
Definition updateLine (accountID : AccountID) (asset : Asset) (delta : Z)
    (noTrust notAuthorized full : OperationResult) : Client (option OperationResult) :=
  withLine (loadTrustLine accountID asset) (λ line,
    if negb (is_line line) then mret (Some noTrust)
    else
      authorized ← line_isAuthorized line;
      if negb authorized then mret (Some notAuthorized)
      else
        ok ← withHeader (λ header, line_addBalance header delta line);
        mret (if (ok : bool) then None else Some full)).

Definition checkIssuerThen (bypassIssuerCheck : bool) (asset : Asset) (k : Client (option OperationResult)) :
    Client (option OperationResult) :=
  r ← (if bypassIssuerCheck then mret None else checkIssuer asset);
  match r with
  | Some res => mret (Some res)
  | None => k
  end.

Definition updateSourceBalance (amount : Z) (bypassIssuerCheck doesSourceAccountExist : bool) :
    Client (option OperationResult) :=
  let asset := getSourceAsset kind in
  if is_native asset then
    withHeader (λ header,
      lh ← ask (CurrentHeader header);
      withEntry (if 7 <? lh_ledgerVersion lh then loadAccount sourceID else loadAccount_tx tx header sourceID)
        (λ sourceAccount,
          if (7 <? lh_ledgerVersion lh) && bool_decide (sourceAccount = None) then mret (Some (resultMalformed kind))
          else
            avail ← getAvailableBalance_ltx header sourceAccount;
            if avail <? amount then mret (Some (resultUnderfunded kind))
            else if negb doesSourceAccountExist then throw_runtime "modifying account that does not exist"
            else
              ok ← addBalance_ltx header sourceAccount (- amount);
              lift (cassert ok);;
              mret None))
  else
    checkIssuerThen bypassIssuerCheck asset
      (updateLine sourceID asset (- amount) (resultSourceNoTrust kind) (resultSourceNotAuthorized kind)
         (resultUnderfunded kind)).

Definition updateDestBalance (amount : Z) (bypassIssuerCheck : bool) : Client (option OperationResult) :=
  let destID := getDestID kind in
  let asset := getDestAsset kind in
  if is_native asset then
    withEntry (loadAccount destID) (λ destination,
      ok ← withHeader (λ header, addBalance_ltx header destination amount);
      if (ok : bool) then mret None
      else
        version ← ledgerVersion;
        mret (Some (if 11 <=? version then resultLineFull kind else resultMalformed kind)))
  else
    checkIssuerThen bypassIssuerCheck asset
      (updateLine destID asset amount (resultDestNoTrust kind) (resultDestNotAuthorized kind) (resultLineFull kind)).

(** The account paid exists, unless the check is bypassed. *)
Definition checkDestination (bypassIssuerCheck : bool) : Client (option OperationResult) :=
  if bypassIssuerCheck then mret None
  else
    there_ ← there (loadAccountWithoutRecord (getDestID kind));
    mret (if (there_ : bool) then None else Some (resultNoDest kind)).
End base.
End PathPayment.

(** ** [PathPaymentStrictReceiveOpFrame] *)

Module StrictReceive.
Section op.
Context (tx : ParentTx) (sourceID : AccountID) (fuel : nat) (op : PathPaymentStrictReceiveOp).

Definition result (r : PathPaymentStrictReceiveResult) : OperationResult := opINNER (pathPaymentStrictReceiveResult r).

Definition kind : PathPayment.Kind := {|
  PathPayment.getSourceAsset := ppr_sendAsset op;
  PathPayment.getDestAsset := ppr_destAsset op;
  PathPayment.getDestID := toAccountID (ppr_destination op);
  PathPayment.checkTransfer := λ _ _ maxRecv amountRecv, maxRecv =? amountRecv;
  PathPayment.resultMalformed := result PATH_PAYMENT_STRICT_RECEIVE_MALFORMED;
  PathPayment.resultUnderfunded := result PATH_PAYMENT_STRICT_RECEIVE_UNDERFUNDED;
  PathPayment.resultSourceNoTrust := result PATH_PAYMENT_STRICT_RECEIVE_SRC_NO_TRUST;
  PathPayment.resultSourceNotAuthorized := result PATH_PAYMENT_STRICT_RECEIVE_SRC_NOT_AUTHORIZED;
  PathPayment.resultNoDest := result PATH_PAYMENT_STRICT_RECEIVE_NO_DESTINATION;
  PathPayment.resultDestNoTrust := result PATH_PAYMENT_STRICT_RECEIVE_NO_TRUST;
  PathPayment.resultDestNotAuthorized := result PATH_PAYMENT_STRICT_RECEIVE_NOT_AUTHORIZED;
  PathPayment.resultLineFull := result PATH_PAYMENT_STRICT_RECEIVE_LINE_FULL;
  PathPayment.resultNoIssuer := λ asset, result (PATH_PAYMENT_STRICT_RECEIVE_NO_ISSUER asset);
  PathPayment.resultTooFewOffers := result PATH_PAYMENT_STRICT_RECEIVE_TOO_FEW_OFFERS;
  PathPayment.resultOfferCrossSelf := result PATH_PAYMENT_STRICT_RECEIVE_OFFER_CROSS_SELF;
  PathPayment.resultConstraintNotMet := result PATH_PAYMENT_STRICT_RECEIVE_OVER_SENDMAX
|}.

(** Walking the path from the destination: what is still to be received of an
    asset is bought with the next one. *)
Fixpoint walk (fullPath : list Asset) (recvAsset : Asset) (maxAmountRecv : Z) (offers : list ClaimOfferAtom) :
    Client (Early (Z * list ClaimOfferAtom)) :=
  match fullPath with
  | [] => mret (inr (maxAmountRecv, offers))
  | sendAsset :: fullPath =>
      if decide (recvAsset = sendAsset) then walk fullPath recvAsset maxAmountRecv offers
      else
        unlessFails (PathPayment.checkIssuer kind sendAsset) (
          version ← ledgerVersion;
          let maxOffersToCross :=
            if FIRST_PROTOCOL_SUPPORTING_OPERATION_LIMITS <=? version
            then i64 (MAX_OFFERS_TO_CROSS - Z.of_nat (length offers)) else INT64_MAX in
          r ← PathPayment.convert sourceID fuel kind maxOffersToCross sendAsset INT64_MAX recvAsset maxAmountRecv
                Exchange.PATH_PAYMENT_STRICT_RECEIVE;
          match r with
          | inl res => mret (inl res)
          | inr (amountSend, _, offerTrail) => walk fullPath sendAsset amountSend (offerTrail ++ offers)
          end)
  end.

Definition doApply : Client Applied :=
  applied (
    version ← ledgerVersion;
    doesSourceAccountExist ← (if version <? 8 then there (loadAccountWithoutRecord sourceID) else mret true);
    bypassIssuerCheck ← lift (PathPayment.shouldBypassIssuerCheck kind (ppr_path op));
    unlessFails (PathPayment.checkDestination kind bypassIssuerCheck) (
      unlessFails (PathPayment.updateDestBalance kind (ppr_destAmount op) bypassIssuerCheck) (
        let last := mkSimplePaymentResult (PathPayment.getDestID kind) (ppr_destAsset op) (ppr_destAmount op) in
        r ← walk (rev (ppr_path op) ++ [ppr_sendAsset op]) (ppr_destAsset op) (ppr_destAmount op) [];
        match r with
        | inl res => mret (inl res)
        | inr (maxAmountRecv, offers) =>
            if ppr_sendMax op <? maxAmountRecv then mret (inl (PathPayment.resultConstraintNotMet kind))
            else
              unlessFails (PathPayment.updateSourceBalance tx sourceID kind maxAmountRecv bypassIssuerCheck
                             doesSourceAccountExist)
                (mret (inr (result (PATH_PAYMENT_STRICT_RECEIVE_SUCCESS offers last))))
        end))).

Definition doCheckValid (version : Z) : option OperationResult :=
  if (ppr_destAmount op <=? 0) || (ppr_sendMax op <=? 0) then Some (PathPayment.resultMalformed kind)
  else if negb (isAssetValid (ppr_sendAsset op)) || negb (isAssetValid (ppr_destAsset op))
  then Some (PathPayment.resultMalformed kind)
  else if negb (forallb isAssetValid (ppr_path op)) then Some (PathPayment.resultMalformed kind)
  else None.
End op.
End StrictReceive.

(** ** [PathPaymentStrictSendOpFrame] *)

Module StrictSend.
Section op.
Context (tx : ParentTx) (sourceID : AccountID) (fuel : nat) (op : PathPaymentStrictSendOp).

Definition result (r : PathPaymentStrictSendResult) : OperationResult := opINNER (pathPaymentStrictSendResult r).

Definition kind : PathPayment.Kind := {|
  PathPayment.getSourceAsset := pps_sendAsset op;
  PathPayment.getDestAsset := pps_destAsset op;
  PathPayment.getDestID := toAccountID (pps_destination op);
  PathPayment.checkTransfer := λ maxSend amountSend _ _, maxSend =? amountSend;
  PathPayment.resultMalformed := result PATH_PAYMENT_STRICT_SEND_MALFORMED;
  PathPayment.resultUnderfunded := result PATH_PAYMENT_STRICT_SEND_UNDERFUNDED;
  PathPayment.resultSourceNoTrust := result PATH_PAYMENT_STRICT_SEND_SRC_NO_TRUST;
  PathPayment.resultSourceNotAuthorized := result PATH_PAYMENT_STRICT_SEND_SRC_NOT_AUTHORIZED;
  PathPayment.resultNoDest := result PATH_PAYMENT_STRICT_SEND_NO_DESTINATION;
  PathPayment.resultDestNoTrust := result PATH_PAYMENT_STRICT_SEND_NO_TRUST;
  PathPayment.resultDestNotAuthorized := result PATH_PAYMENT_STRICT_SEND_NOT_AUTHORIZED;
  PathPayment.resultLineFull := result PATH_PAYMENT_STRICT_SEND_LINE_FULL;
  PathPayment.resultNoIssuer := λ asset, result (PATH_PAYMENT_STRICT_SEND_NO_ISSUER asset);
  PathPayment.resultTooFewOffers := result PATH_PAYMENT_STRICT_SEND_TOO_FEW_OFFERS;
  PathPayment.resultOfferCrossSelf := result PATH_PAYMENT_STRICT_SEND_OFFER_CROSS_SELF;
  PathPayment.resultConstraintNotMet := result PATH_PAYMENT_STRICT_SEND_UNDER_DESTMIN
|}.

Definition isVersionSupported (version : Z) : bool := 12 <=? version.

(** Walking the path to the destination: what is held of an asset is sold for the
    next one. *)
Fixpoint walk (fullPath : list Asset) (sendAsset : Asset) (maxAmountSend : Z) (offers : list ClaimOfferAtom) :
    Client (Early (Z * list ClaimOfferAtom)) :=
  match fullPath with
  | [] => mret (inr (maxAmountSend, offers))
  | recvAsset :: fullPath =>
      if decide (recvAsset = sendAsset) then walk fullPath sendAsset maxAmountSend offers
      else
        unlessFails (PathPayment.checkIssuer kind recvAsset) (
          let maxOffersToCross := i64 (MAX_OFFERS_TO_CROSS - Z.of_nat (length offers)) in
          r ← PathPayment.convert sourceID fuel kind maxOffersToCross sendAsset maxAmountSend recvAsset INT64_MAX
                Exchange.PATH_PAYMENT_STRICT_SEND;
          match r with
          | inl res => mret (inl res)
          | inr (_, amountRecv, offerTrail) => walk fullPath recvAsset amountRecv (offers ++ offerTrail)
          end)
  end.

Definition doApply : Client Applied :=
  applied (
    bypassIssuerCheck ← lift (PathPayment.shouldBypassIssuerCheck kind (pps_path op));
    unlessFails (PathPayment.checkDestination kind bypassIssuerCheck) (
      unlessFails (PathPayment.updateSourceBalance tx sourceID kind (pps_sendAmount op) bypassIssuerCheck true) (
        r ← walk (pps_path op ++ [pps_destAsset op]) (pps_sendAsset op) (pps_sendAmount op) [];
        match r with
        | inl res => mret (inl res)
        | inr (maxAmountSend, offers) =>
            if maxAmountSend <? pps_destMin op then mret (inl (PathPayment.resultConstraintNotMet kind))
            else
              unlessFails (PathPayment.updateDestBalance kind maxAmountSend bypassIssuerCheck)
                (let last := mkSimplePaymentResult (PathPayment.getDestID kind) (pps_destAsset op) maxAmountSend in
                 mret (inr (result (PATH_PAYMENT_STRICT_SEND_SUCCESS offers last))))
        end))).

Definition doCheckValid (version : Z) : option OperationResult :=
  if (pps_sendAmount op <=? 0) || (pps_destMin op <=? 0) then Some (PathPayment.resultMalformed kind)
  else if negb (isAssetValid (pps_sendAsset op)) || negb (isAssetValid (pps_destAsset op))
  then Some (PathPayment.resultMalformed kind)
  else if negb (forallb isAssetValid (pps_path op)) then Some (PathPayment.resultMalformed kind)
  else None.
End op.
End StrictSend.

(** ** [PaymentOpFrame] *)

Module Payment.
Section op.
Context (tx : ParentTx) (sourceID : AccountID) (fuel : nat) (op : PaymentOp).

Definition result (r : PaymentResult) : OperationResult := opINNER (paymentResult r).

(** The path payment with an empty path. *)
Definition pathPaymentOp : PathPaymentStrictReceiveOp :=
  mkPathPaymentStrictReceiveOp (pay_asset op) (pay_amount op) (pay_destination op) (pay_asset op) (pay_amount op) [].

Definition unexpectedCode {A} : Client A := throw_runtime "Unexpected error code from pathPaymentStrictReceive".

Definition failureOf (res : OperationResult) : Client Applied :=
  match res with
  | opINNER (pathPaymentStrictReceiveResult r) =>
      match r with
      | PATH_PAYMENT_STRICT_RECEIVE_UNDERFUNDED => mret (false, result PAYMENT_UNDERFUNDED)
      | PATH_PAYMENT_STRICT_RECEIVE_SRC_NOT_AUTHORIZED => mret (false, result PAYMENT_SRC_NOT_AUTHORIZED)
      | PATH_PAYMENT_STRICT_RECEIVE_SRC_NO_TRUST => mret (false, result PAYMENT_SRC_NO_TRUST)
      | PATH_PAYMENT_STRICT_RECEIVE_NO_DESTINATION => mret (false, result PAYMENT_NO_DESTINATION)
      | PATH_PAYMENT_STRICT_RECEIVE_NO_TRUST => mret (false, result PAYMENT_NO_TRUST)
      | PATH_PAYMENT_STRICT_RECEIVE_NOT_AUTHORIZED => mret (false, result PAYMENT_NOT_AUTHORIZED)
      | PATH_PAYMENT_STRICT_RECEIVE_LINE_FULL => mret (false, result PAYMENT_LINE_FULL)
      | PATH_PAYMENT_STRICT_RECEIVE_NO_ISSUER _ => mret (false, result PAYMENT_NO_ISSUER)
      | _ => unexpectedCode
      end
  | _ => unexpectedCode
  end.

Definition doApply : Client Applied :=
  version ← ledgerVersion;
  let destID := toAccountID (pay_destination op) in
  let instantSuccess :=
    if 2 <? version then bool_decide (destID = sourceID) && is_native (pay_asset op)
    else bool_decide (destID = sourceID) in
  if instantSuccess then mret (true, result PAYMENT_SUCCESS)
  else
    match StrictReceive.doCheckValid pathPaymentOp version with
    | Some res => failureOf res
    | None =>
        '(ok, res) ← StrictReceive.doApply tx sourceID fuel pathPaymentOp;
        if (ok : bool) then
          match res with
          | opINNER (pathPaymentStrictReceiveResult (PATH_PAYMENT_STRICT_RECEIVE_SUCCESS _ _)) =>
              mret (true, result PAYMENT_SUCCESS)
          | _ => Raise AssertFailure
          end
        else failureOf res
    end.

Definition doCheckValid (version : Z) : option OperationResult :=
  if pay_amount op <=? 0 then Some (result PAYMENT_MALFORMED)
  else if negb (isAssetValid (pay_asset op)) then Some (result PAYMENT_MALFORMED)
  else None.
End op.
End Payment.

(** ** [MergeOpFrame] *)

Module Merge.
Section op.
Context (tx : ParentTx) (sourceID : AccountID) (destination : MuxedAccount).

Definition result (r : AccountMergeResult) : OperationResult := opINNER (accountMergeResult r).

Definition isSeqnumTooFar (lh : LedgerHeader) (sourceAccount : AccountEntry) : bool :=
  i64 (getStartingSequenceNumber (lh_ledgerSeq lh)) <=? acc_seqNum sourceAccount.

Definition currentAccount (h : Handle) : Client AccountEntry :=
  le ← current h;
  lift (data_account le).

(** Removing the last signer until none is left: one round for each signer. *)
Fixpoint removeSigners (rounds : nat) (header : Z) (sourceAccountEntry : Handle) : Client unit :=
  sourceAccount ← currentAccount sourceAccountEntry;
  match acc_signers sourceAccount, rounds with
  | [], _ => mret tt
  | _, O => Raise OutOfFuel
  | signers, S rounds =>
      removeSignerWithPossibleSponsorship header (length signers - 1) sourceAccountEntry;;
      removeSigners rounds header sourceAccountEntry
  end.

(** The balance read before the account is loaded, in protocols 5 to 7. *)
Definition staleBalance (version : Z) : Client (Early Z) :=
  if (4 <? version) && (version <? 8) then
    withEntry (loadAccountWithoutRecord sourceID) (λ thisAccount,
      match thisAccount with
      | None => mret (inl (result ACCOUNT_MERGE_NO_ACCOUNT))
      | Some _ =>
          if 5 <? version then acc ← currentAccount thisAccount; mret (inr (acc_balance acc))
          else mret (inr 0)
      end)
  else mret (inr 0).

(** What can be told before anything is changed. *)
Definition checkMerge (lh : LedgerHeader) (sourceAccountEntry : Handle) : Client (option OperationResult) :=
  le ← current sourceAccountEntry;
  sourceAccount ← lift (data_account le);
  immutable ← lift (isImmutableAuth le);
  if (immutable : bool) then mret (Some (result ACCOUNT_MERGE_IMMUTABLE_SET))
  else if negb (acc_numSubEntries sourceAccount =? Z.of_nat (length (acc_signers sourceAccount)))
  then mret (Some (result ACCOUNT_MERGE_HAS_SUB_ENTRIES))
  else if (10 <=? lh_ledgerVersion lh) && isSeqnumTooFar lh sourceAccount
  then mret (Some (result ACCOUNT_MERGE_SEQNUM_TOO_FAR))
  else if 14 <=? lh_ledgerVersion lh then
    isSponsor ← there (loadSponsorshipCounter sourceID);
    if (isSponsor : bool) then mret (Some (result ACCOUNT_MERGE_IS_SPONSOR))
    else
      sponsoring ← lift (getNumSponsoring le);
      mret (if 0 <? sponsoring then Some (result ACCOUNT_MERGE_IS_SPONSOR) else None)
  else mret None.

Definition doApply : Client Applied :=
  applied (withHeader (λ header,
    withEntry (loadAccount (toAccountID destination)) (λ otherAccount,
      match otherAccount with
      | None => mret (inl (result ACCOUNT_MERGE_NO_ACCOUNT))
      | Some _ =>
          lh ← ask (CurrentHeader header);
          r ← staleBalance (lh_ledgerVersion lh);
          match r with
          | inl res => mret (inl res)
          | inr stale =>
              withEntry (loadAccount_tx tx header sourceID) (λ sourceAccountEntry,
                sourceAccount ← currentAccount sourceAccountEntry;
                let sourceBalance :=
                  if (lh_ledgerVersion lh <=? 5) || (8 <=? lh_ledgerVersion lh)
                  then acc_balance sourceAccount else stale in
                unlessFails (checkMerge lh sourceAccountEntry) (
                  (if 14 <=? lh_ledgerVersion lh
                   then removeSigners (length (acc_signers sourceAccount)) header sourceAccountEntry else mret tt);;
                  ok ← addBalance_ltx header otherAccount sourceBalance;
                  if negb ok then mret (inl (result ACCOUNT_MERGE_DEST_FULL))
                  else
                    removeLoadedEntry header sourceAccountEntry sourceAccountEntry;;
                    eraseEntry sourceAccountEntry;;
                    mret (inr (result (ACCOUNT_MERGE_SUCCESS sourceBalance)))))
          end
      end))).

Definition doCheckValid (version : Z) : option OperationResult :=
  if decide (sourceID = toAccountID destination) then Some (result ACCOUNT_MERGE_MALFORMED) else None.
End op.
End Merge.
