(* ===== verification/AccountOps.v ===== *)
(** * Operations on an account and its entries

    [transactions/ManageDataOpFrame.cpp], [BumpSequenceOpFrame.cpp],
    [SetOptionsOpFrame.cpp], [ChangeTrustOpFrame.cpp], [AllowTrustOpFrame.cpp] and
    [InflationOpFrame.cpp]. *)

From S2P Require Import Prelude Numeric LedgerEntries GeneralizedEntries Accounts LedgerTxn LedgerTxnRefine LedgerClient Sponsorship TrustLines OperationTypes OperationBase SignatureChecker.

(** ** [ManageDataOpFrame] *)

Module ManageData.
Section op.
Context (tx : ParentTx) (sourceID : AccountID) (op : ManageDataOp).

Definition result (r : ManageDataResult) : OperationResult := opINNER (manageDataResult r).

Definition newData (value : list Z) : LedgerEntry :=
  mkLedgerEntry 0 (DATA (mkData sourceID (md_dataName op) value)) None.

Definition set_dataValue (value : list Z) (le : LedgerEntry) : res LedgerEntry :=
  match entry_data le with
  | DATA d => Ok (set_data (DATA (mkData (data_accountID d) (data_dataName d) value)) le)
  | _ => Throw WrongUnion
  end.

Definition doApply : Client Applied :=
  applied (withHeader (λ header,
    lh ← ask (CurrentHeader header);
    if lh_ledgerVersion lh =? 3 then throw_runtime "MANAGE_DATA not supported on ledger version 3"
    else
      withEntry (loadData sourceID (md_dataName op)) (λ data,
        match md_dataValue op, data with
        | Some value, None =>
            withEntry (loadAccount_tx tx header sourceID) (λ sourceAccount,
              '(res, le) ← createEntryWithPossibleSponsorship header (newData value) sourceAccount;
              whenCreated (result MANAGE_DATA_LOW_RESERVE) res
                (create le;; mret (inr (result MANAGE_DATA_SUCCESS))))
        | Some value, Some _ =>
            change data (set_dataValue value);;
            mret (inr (result MANAGE_DATA_SUCCESS))
        | None, None => mret (inl (result MANAGE_DATA_NAME_NOT_FOUND))
        | None, Some _ =>
            withEntry (loadAccount_tx tx header sourceID) (λ sourceAccount,
              removeLoadedEntry header data sourceAccount;;
              eraseEntry data;;
              mret (inr (result MANAGE_DATA_SUCCESS)))
        end))).

Definition doCheckValid (version : Z) : option OperationResult :=
  if version <? 2 then Some (result MANAGE_DATA_NOT_SUPPORTED_YET)
  else if (length (md_dataName op) <? 1)%nat || negb (isString32Valid (md_dataName op))
  then Some (result MANAGE_DATA_INVALID_NAME)
  else None.
End op.
End ManageData.

(** ** [BumpSequenceOpFrame] *)

Module BumpSequence.
Section op.
Context (tx : ParentTx) (sourceID : AccountID) (bumpTo : Z).

Definition result (r : BumpSequenceResult) : OperationResult := opINNER (bumpSeqResult r).

Definition isVersionSupported (version : Z) : bool := 10 <=? version.

Definition doApply : Client Applied :=
  nested (withHeader (λ header,
    withEntry (loadAccount_tx tx header sourceID) (λ sourceAccountEntry,
      le ← current sourceAccountEntry;
      sourceAccount ← lift (data_account le);
      if acc_seqNum sourceAccount <? bumpTo then
        change sourceAccountEntry (on_account (set_acc_seqNum bumpTo));;
        mret (true, (true, result BUMP_SEQUENCE_SUCCESS))
      else mret (false, (true, result BUMP_SEQUENCE_SUCCESS))))).

Definition doCheckValid (version : Z) : option OperationResult :=
  if bumpTo <? 0 then Some (result BUMP_SEQUENCE_BAD_SEQ) else None.
End op.
End BumpSequence.

(** ** Signers *)

Definition signerKey_image (k : SignerKey) : Z * list Z :=
  match k with
  | SIGNER_KEY_TYPE_ED25519 b => (0, b)
  | SIGNER_KEY_TYPE_PRE_AUTH_TX b => (1, b)
  | SIGNER_KEY_TYPE_HASH_X b => (2, b)
  end.

(** The position of the first signer whose key is not smaller, and whether it is the
    one. *)
Fixpoint findSignerByKey (key : SignerKey) (signers : list Signer) : nat * bool :=
  match signers with
  | [] => (0%nat, false)
  | s :: signers =>
      if negb (ltb (signerKey_image (signer_key s)) (signerKey_image key))
      then (0%nat, bool_decide (signer_key s = key))
      else let '(n, found) := findSignerByKey key signers in (S n, found)
  end.

Definition insert_at {A} (n : nat) (x : A) (l : list A) : list A := take n l ++ x :: drop n l.

(** ** [SetOptionsOpFrame] *)

Module SetOptions.

Definition allAccountFlags : Z := Z.lor (Z.lor AUTH_REQUIRED_FLAG AUTH_REVOCABLE_FLAG) AUTH_IMMUTABLE_FLAG.
Definition allAccountAuthFlags : Z := Z.lor (Z.lor AUTH_REQUIRED_FLAG AUTH_REVOCABLE_FLAG) AUTH_IMMUTABLE_FLAG.

Section op.
Context (tx : ParentTx) (sourceID : AccountID) (op : SetOptionsOp).

Definition result (r : SetOptionsResult) : OperationResult := opINNER (setOptionsResult r).

(** Whether it changes who can sign. *)
Definition isHigh : bool :=
  bool_decide (is_Some (so_masterWeight op)) || bool_decide (is_Some (so_lowThreshold op)) ||
  bool_decide (is_Some (so_medThreshold op)) || bool_decide (is_Some (so_highThreshold op)) ||
  bool_decide (is_Some (so_signer op)).

Definition on_signers (f : list Signer → list Signer) : LedgerEntry → res LedgerEntry :=
  on_account (λ a, set_acc_signers (f (acc_signers a)) a).

(** The new signer with an empty sponsor beside it. *)
Definition insertSigner (n : nat) (signer : Signer) (le : LedgerEntry) : res LedgerEntry :=
  on_account (λ a,
    let a := set_acc_signers (insert_at n signer (acc_signers a)) a in
    if hasAccountEntryExtV2 a then
      let v2 := prepareAccountEntryExtensionV2 a in
      set_acc_v2 (set_signerSponsoringIDs (insert_at n None (signerSponsoringIDs v2)) v2) a
    else a) le.

Definition addOrChangeSigner (signer : Signer) : Client (Early unit) :=
  withHeader (λ header,
    withEntry (loadAccount_tx tx header sourceID) (λ sourceAccount,
      le ← current sourceAccount;
      account ← lift (data_account le);
      let '(n, found) := findSignerByKey (signer_key signer) (acc_signers account) in
      if found then
        change sourceAccount (on_signers (alter (λ s, mkSigner (signer_key s) (signer_weight signer)) n));;
        mret (inr tt)
      else if Z.of_nat (length (acc_signers account)) =? MAX_SIGNERS
      then mret (inl (result SET_OPTIONS_TOO_MANY_SIGNERS))
      else
        change sourceAccount (insertSigner n signer);;
        res ← createSignerWithPossibleSponsorship header n sourceAccount;
        whenCreated (result SET_OPTIONS_LOW_RESERVE) res (mret (inr tt)))).

Definition deleteSigner (signer : Signer) (header : Z) (sourceAccount : Handle) : Client unit :=
  le ← current sourceAccount;
  account ← lift (data_account le);
  let '(n, found) := findSignerByKey (signer_key signer) (acc_signers account) in
  if found : bool then removeSignerWithPossibleSponsorship header n sourceAccount else mret tt.

Definition setInflationDest (sourceAccount : Handle) : Client (option OperationResult) :=
  match so_inflationDest op with
  | None => mret None
  | Some inflationID =>
      known ← (if decide (inflationID = sourceID) then mret true else there (loadAccountWithoutRecord inflationID));
      if negb known then mret (Some (result SET_OPTIONS_INVALID_INFLATION))
      else change sourceAccount (on_account (set_acc_inflationDest (Some inflationID)));; mret None
  end.

(** Clearing and setting flags. *)
Definition changeFlags (given : option Z) (f : Z → Z → Z) (sourceAccount : Handle) : Client (option OperationResult) :=
  match given with
  | None => mret None
  | Some flags =>
      le ← current sourceAccount;
      immutable ← lift (isImmutableAuth le);
      if negb (Z.land flags allAccountAuthFlags =? 0) && immutable then mret (Some (result SET_OPTIONS_CANT_CHANGE))
      else change sourceAccount (on_account (λ a, set_acc_flags (f (acc_flags a) flags) a));; mret None
  end.

Definition setHomeDomain (sourceAccount : Handle) : Client unit :=
  match so_homeDomain op with
  | None => mret tt
  | Some homeDomain => change sourceAccount (on_account (set_acc_homeDomain homeDomain))
  end.

Definition setThreshold (i : nat) (given : option Z) (sourceAccount : Handle) : Client unit :=
  match given with
  | None => mret tt
  | Some v =>
      change sourceAccount
        (on_account (λ a, set_acc_thresholds (<[i := Z.land v UINT8_MAX]> (acc_thresholds a)) a))
  end.

Definition setSigner (header : Z) (sourceAccount : Handle) : Client (Early OperationResult) :=
  let success := mret (inr (result SET_OPTIONS_SUCCESS)) in
  match so_signer op with
  | None => success
  | Some signer =>
      if negb (signer_weight signer =? 0) then
        r ← ownLevel (addOrChangeSigner signer);
        match r with
        | inl res => mret (inl res)
        | inr _ => success
        end
      else deleteSigner signer header sourceAccount;; success
  end.

Definition doApply : Client Applied :=
  applied (withHeader (λ header,
    withEntry (loadAccount_tx tx header sourceID) (λ sourceAccount,
      unlessFails (setInflationDest sourceAccount) (
        unlessFails (changeFlags (so_clearFlags op) outside sourceAccount) (
          unlessFails (changeFlags (so_setFlags op) Z.lor sourceAccount) (
            setHomeDomain sourceAccount;;
            setThreshold 0 (so_masterWeight op) sourceAccount;;
            setThreshold 1 (so_lowThreshold op) sourceAccount;;
            setThreshold 2 (so_medThreshold op) sourceAccount;;
            setThreshold 3 (so_highThreshold op) sourceAccount;;
            setSigner header sourceAccount)))))).

Definition overByte (given : option Z) : bool := match given with Some v => UINT8_MAX <? v | None => false end.
Definition unknownFlag (given : option Z) : bool :=
  match given with Some v => negb (outside v allAccountFlags =? 0) | None => false end.

Definition badSigner (version : Z) (signer : Signer) : bool :=
  bool_decide (signer_key signer = SIGNER_KEY_TYPE_ED25519 sourceID) ||
  (negb (is_ed25519 signer) && (version <? 3)) ||
  ((UINT8_MAX <? signer_weight signer) && (9 <? version)).

Definition doCheckValid (version : Z) : option OperationResult :=
  if unknownFlag (so_setFlags op) || unknownFlag (so_clearFlags op) then Some (result SET_OPTIONS_UNKNOWN_FLAG)
  else if match so_setFlags op, so_clearFlags op with
          | Some s, Some c => negb (Z.land s c =? 0)
          | _, _ => false
          end then Some (result SET_OPTIONS_BAD_FLAGS)
  else if overByte (so_masterWeight op) || overByte (so_lowThreshold op) || overByte (so_medThreshold op) ||
          overByte (so_highThreshold op) then Some (result SET_OPTIONS_THRESHOLD_OUT_OF_RANGE)
  else if match so_signer op with Some s => badSigner version s | None => false end
  then Some (result SET_OPTIONS_BAD_SIGNER)
  else if match so_homeDomain op with Some d => negb (isString32Valid d) | None => false end
  then Some (result SET_OPTIONS_INVALID_HOME_DOMAIN)
  else None.
End op.
End SetOptions.

(** ** [ChangeTrustOpFrame] *)

Module ChangeTrust.
Section op.
Context (tx : ParentTx) (sourceID : AccountID) (op : ChangeTrustOp).

Definition result (r : ChangeTrustResult) : OperationResult := opINNER (changeTrustResult r).
Definition success : Client (Early OperationResult) := mret (inr (result CHANGE_TRUST_SUCCESS)).
Definition failure (r : ChangeTrustResult) : Client (Early OperationResult) := mret (inl (result r)).

(** Trusting oneself: not allowed since protocol 3; before, without effect. *)
Definition trustSelf (version : Z) (issuerID : AccountID) : Client (Early OperationResult) :=
  if 2 <? version then failure CHANGE_TRUST_SELF_NOT_ALLOWED
  else if ct_limit op <? INT64_MAX then failure CHANGE_TRUST_INVALID_LIMIT
  else
    there_ ← there (loadAccountWithoutRecord issuerID);
    if negb there_ then failure CHANGE_TRUST_NO_ISSUER else success.

Definition changeLine (header : Z) (issuerID : AccountID) (trustLine : Handle) : Client (Early OperationResult) :=
  minimum ← getMinimumLimit_ltx header trustLine;
  if ct_limit op <? minimum then failure CHANGE_TRUST_INVALID_LIMIT
  else if ct_limit op =? 0 then
    withEntry (loadAccount_tx tx header sourceID) (λ sourceAccount,
      removeLoadedEntry header trustLine sourceAccount;;
      eraseEntry trustLine;;
      success)
  else
    withEntry (loadAccountWithoutRecord issuerID) (λ issuer,
      match issuer with
      | None => failure CHANGE_TRUST_NO_ISSUER
      | Some _ => change trustLine (on_trustLine (set_tl_limit (ct_limit op)));; success
      end).

(** The flags of a new line, from its issuer. *)
Definition newFlags (issuerID : AccountID) : Client (Early Z) :=
  withEntry (loadAccountWithoutRecord issuerID) (λ issuer,
    match issuer with
    | None => mret (inl (result CHANGE_TRUST_NO_ISSUER))
    | Some _ =>
        le ← current issuer;
        required ← lift (isAuthRequired le);
        mret (inr (if (required : bool) then 0 else AUTHORIZED_FLAG))
    end).

Definition newLine (header : Z) (issuerID : AccountID) : Client (Early OperationResult) :=
  if ct_limit op =? 0 then failure CHANGE_TRUST_INVALID_LIMIT
  else
    r ← newFlags issuerID;
    match r with
    | inl res => mret (inl res)
    | inr flags =>
        let trustLineEntry := mkLedgerEntry 0 (TRUSTLINE (mkTrustLine sourceID (ct_line op) 0 (ct_limit op) flags None)) None in
        withEntry (loadAccount_tx tx header sourceID) (λ sourceAccount,
          '(res, le) ← createEntryWithPossibleSponsorship header trustLineEntry sourceAccount;
          whenCreated (result CHANGE_TRUST_LOW_RESERVE) res (create le;; success))
    end.

Definition doApply : Client Applied :=
  applied (withHeader (λ header,
    lh ← ask (CurrentHeader header);
    issuerID ← lift (getIssuer (ct_line op));
    if decide (issuerID = sourceID) then trustSelf (lh_ledgerVersion lh) issuerID
    else
      withEntry (ask (Load (trustlineKey sourceID (ct_line op)))) (λ trustLine,
        match trustLine with
        | Some _ => changeLine header issuerID trustLine
        | None => newLine header issuerID
        end))).

Definition doCheckValid (version : Z) : option OperationResult :=
  if ct_limit op <? 0 then Some (result CHANGE_TRUST_MALFORMED)
  else if negb (isAssetValid (ct_line op)) then Some (result CHANGE_TRUST_MALFORMED)
  else if (9 <? version) && is_native (ct_line op) then Some (result CHANGE_TRUST_MALFORMED)
  else None.
End op.
End ChangeTrust.

(** ** [AllowTrustOpFrame] *)

Module AllowTrust.
Section op.
Context (tx : ParentTx) (sourceID : AccountID) (op : AllowTrustOp).

Definition result (r : AllowTrustResult) : OperationResult := opINNER (allowTrustResult r).
Definition success : Client (Early OperationResult) := mret (inr (result ALLOW_TRUST_SUCCESS)).

(** The asset of the source account with the code of the operation. *)
Definition ci : Asset :=
  match at_asset op with
  | CODE_NATIVE => ASSET_TYPE_NATIVE
  | CODE_ALPHANUM4 code => ASSET_TYPE_CREDIT_ALPHANUM4 code sourceID
  | CODE_ALPHANUM12 code => ASSET_TYPE_CREDIT_ALPHANUM12 code sourceID
  end.

(** Whether authorization cannot be revoked, read on a level that is rolled back. *)
Definition authNotRevocable : Client (Early bool) :=
  nested (r ← withHeader (λ header,
    withEntry (loadAccount_tx tx header sourceID) (λ sourceAccountEntry,
      le ← current sourceAccountEntry;
      sourceAccount ← lift (data_account le);
      if negb (has_flag (acc_flags sourceAccount) AUTH_REQUIRED_FLAG)
      then mret (inl (result ALLOW_TRUST_TRUST_NOT_REQUIRED))
      else
        let notRevocable := negb (has_flag (acc_flags sourceAccount) AUTH_REVOCABLE_FLAG) in
        if notRevocable && (at_authorize op =? 0) then mret (inl (result ALLOW_TRUST_CANT_REVOKE))
        else mret (inr notRevocable))); mret (false, r)).

(** Whether the offers of the line have to go. *)
Definition checkLine (notRevocable : bool) : Client (Early bool) :=
  withEntry (ask (Load (trustlineKey (at_trustor op) ci))) (λ trust,
    match trust with
    | None => mret (inl (result ALLOW_TRUST_NO_TRUST_LINE))
    | Some _ =>
        le ← current trust;
        authorized ← lift (isAuthorized le);
        maintain ← lift (isAuthorizedToMaintainLiabilities le);
        if notRevocable && authorized && has_flag (at_authorize op) AUTHORIZED_TO_MAINTAIN_LIABILITIES_FLAG
        then mret (inl (result ALLOW_TRUST_CANT_REVOKE))
        else mret (inr (maintain && (at_authorize op =? 0)))
    end).

Fixpoint removeOffers (header : Z) (offers : list Handle) : Client unit :=
  match offers with
  | [] => mret tt
  | offer :: offers =>
      le ← current offer;
      oe ← lift (data_offer le);
      (if decide (off_sellerID oe = at_trustor op) then
         if decide (off_buying oe = ci ∨ off_selling oe = ci) then mret tt
         else throw_runtime "Offer not buying or selling expected asset"
       else throw_runtime "Offer not owned by expected account");;
      releaseLiabilities header offer;;
      withEntry (loadAccount (at_trustor op)) (λ trustAcc,
        removeLoadedEntry header offer trustAcc;;
        eraseEntry offer);;
      removeOffers header offers
  end.

Definition authorizeLine (shouldRemoveOffers : bool) : Client (Early OperationResult) :=
  withHeader (λ header,
    lh ← ask (CurrentHeader header);
    (if (10 <=? lh_ledgerVersion lh) && shouldRemoveOffers then
       offers ← ask (LoadOffersByAccountAndAsset (at_trustor op) ci);
       removeOffers header offers
     else mret tt);;
    withEntry (ask (Load (trustlineKey (at_trustor op) ci))) (λ trustLineEntry,
      lh ← ask (CurrentHeader header);
      change trustLineEntry (setAuthorized lh (at_authorize op));;
      success)).

Definition doApply : Client Applied :=
  applied (
    version ← ledgerVersion;
    if (2 <? version) && bool_decide (at_trustor op = sourceID)
    then mret (inl (result ALLOW_TRUST_SELF_NOT_ALLOWED))
    else
      r ← authNotRevocable;
      match r with
      | inl res => mret (inl res)
      | inr notRevocable =>
          if decide (at_trustor op = sourceID) then success
          else
            r ← checkLine notRevocable;
            match r with
            | inl res => mret (inl res)
            | inr shouldRemoveOffers => authorizeLine shouldRemoveOffers
            end
      end).

Definition doCheckValid (version : Z) : option OperationResult :=
  match at_asset op with
  | CODE_NATIVE => Some (result ALLOW_TRUST_MALFORMED)
  | _ =>
      if negb (trustLineFlagIsValid (at_authorize op) version) then Some (result ALLOW_TRUST_MALFORMED)
      else if negb (isAssetValid ci) then Some (result ALLOW_TRUST_MALFORMED)
      else None
  end.
End op.
End AllowTrust.

(** ** [InflationOpFrame] *)

Module Inflation.

Definition INFLATION_FREQUENCY : Z := 60 * 60 * 24 * 7.
Definition INFLATION_RATE_TRILLIONTHS : Z := 190721000.
Definition TRILLION : Z := 1000000000000.
Definition INFLATION_WIN_MIN_PERCENT : Z := 500000000.
Definition INFLATION_NUM_WINNERS : Z := 2000.
Definition INFLATION_START_TIME : Z := 1404172800.

(** The coins, the fee pool and the number of the inflation in the header. *)
Definition set_inflation (totalCoins feePool inflationSeq : Z) (h : LedgerHeader) : LedgerHeader :=
  mkLedgerHeader (lh_ledgerVersion h) (lh_previousLedgerHash h) (lh_scpValue h) (lh_txSetResultHash h)
    (lh_bucketListHash h) (lh_ledgerSeq h) totalCoins feePool inflationSeq (lh_idPool h)
    (lh_baseFee h) (lh_baseReserve h) (lh_maxTxSetSize h) (lh_skipList h).

Record InflationWinner : Type := mkInflationWinner { iw_accountID : AccountID; iw_votes : Z }.

Section op.
(** The tally of the votes, [AbstractLedgerTxn::queryInflationWinners]. *)
Context (queryInflationWinners : Z → Z → Client (list InflationWinner)).

Definition result (r : InflationResult) : OperationResult := opINNER (inflationResult r).

(** The amount for a winner, as much as the account can receive. *)
Definition payable (header version : Z) (w : InflationWinner) (toDole : Z) : Client Z :=
  if 10 <=? version then
    withEntry (loadAccountWithoutRecord (iw_accountID w)) (λ winner,
      match winner with
      | None => mret toDole
      | Some _ => most ← getMaxAmountReceive_ltx header winner; mret (Z.min most toDole)
      end)
  else mret toDole.

Definition payWinner (header version : Z) (w : InflationWinner) (toDole : Z) : Client (option InflationPayout) :=
  withEntry (loadAccount (iw_accountID w)) (λ winner,
    match winner with
    | None => mret None
    | Some _ =>
        (if version <=? 7 then
           lh ← ask (CurrentHeader header);
           ask (WriteHeader header
             (set_inflation (i64 (lh_totalCoins lh + toDole)) (lh_feePool lh) (lh_inflationSeq lh) lh))
         else mret tt);;
        ok ← addBalance_ltx header winner toDole;
        if negb ok then throw_runtime "inflation overflowed destination balance"
        else mret (Some (mkInflationPayout (iw_accountID w) toDole))
    end).

Fixpoint dole (header version amountToDole totalVotes : Z) (winners : list InflationWinner)
    (leftAfterDole : Z) (payouts : list InflationPayout) : Client (Z * list InflationPayout) :=
  match winners with
  | [] => mret (leftAfterDole, payouts)
  | w :: winners =>
      toDole ← lift (bigDivide_i64 amountToDole (iw_votes w) totalVotes ROUND_DOWN);
      if toDole =? 0 then dole header version amountToDole totalVotes winners leftAfterDole payouts
      else
        toDole ← payable header version w toDole;
        if toDole =? 0 then dole header version amountToDole totalVotes winners leftAfterDole payouts
        else
          paid ← payWinner header version w toDole;
          match paid with
          | None => dole header version amountToDole totalVotes winners leftAfterDole payouts
          | Some p =>
              dole header version amountToDole totalVotes winners (i64 (leftAfterDole - toDole)) (payouts ++ [p])
          end
  end.

Definition doApply : Client Applied :=
  withHeader (λ header,
    lh ← ask (CurrentHeader header);
    let closeTime := i64 (sv_closeTime (lh_scpValue lh)) in
    let inflationTime := i64 (INFLATION_START_TIME + lh_inflationSeq lh * INFLATION_FREQUENCY) in
    if closeTime <? inflationTime then mret (false, result INFLATION_NOT_TIME)
    else
      let totalVotes := lh_totalCoins lh in
      minBalance ← lift (bigDivide_i64 totalVotes INFLATION_WIN_MIN_PERCENT TRILLION ROUND_DOWN);
      winners ← queryInflationWinners INFLATION_NUM_WINNERS minBalance;
      inflationAmount ← lift (bigDivide_i64 (lh_totalCoins lh) INFLATION_RATE_TRILLIONTHS TRILLION ROUND_DOWN);
      let amountToDole := i64 (inflationAmount + lh_feePool lh) in
      ask (WriteHeader header (set_inflation (lh_totalCoins lh) 0 (u32 (lh_inflationSeq lh + 1)) lh));;
      '(leftAfterDole, payouts) ←
        dole header (lh_ledgerVersion lh) amountToDole totalVotes winners amountToDole [];
      lh ← ask (CurrentHeader header);
      let totalCoins :=
        if 7 <? lh_ledgerVersion lh then i64 (lh_totalCoins lh + inflationAmount) else lh_totalCoins lh in
      ask (WriteHeader header
        (set_inflation totalCoins (i64 (lh_feePool lh + leftAfterDole)) (lh_inflationSeq lh) lh));;
      mret (true, result (INFLATION_SUCCESS payouts))).

Definition isVersionSupported (version : Z) : bool := version <? 12.
End op.
End Inflation.
