(* ===== verification/OfferOps.v ===== *)
(** * Operations on offers

    [transactions/ManageOfferOpFrameBase.cpp] with [ManageSellOfferOpFrame.cpp],
    [ManageBuyOfferOpFrame.cpp] and [CreatePassiveSellOfferOpFrame.cpp]: an offer is
    crossed with the book first, and what remains of it is put there. *)

From S2P Require Import Prelude Numeric Exchange LedgerEntries GeneralizedEntries Accounts LedgerTxn LedgerTxnRefine LedgerClient Sponsorship TrustLines OfferCrossing OperationTypes OperationBase.

Module ManageOffer.

(** What the kinds of operation answer to the constructor and the virtual methods. *)
Record Kind : Type := mkKind {
  mSheep : Asset;
  mWheat : Asset;
  mOfferID : Z;
  mPrice : Price;
  mSetPassiveOnCreate : bool;
  isAmountValid : bool;
  isDeleteOffer : bool;
  offerBuyingLiabilities : res Z;
  offerSellingLiabilities : res Z;
  applyOperationSpecificLimits : Z → Z → Z → Z → Z * Z;
  getExchangeParametersBeforeV10 : Z → Z → res (Z * Z);
  resultSuccess : list ClaimOfferAtom → ManageOfferEffect → OperationResult;
  resultMalformed : OperationResult;
  resultSellNoTrust : OperationResult;
  resultBuyNoTrust : OperationResult;
  resultSellNotAuthorized : OperationResult;
  resultBuyNotAuthorized : OperationResult;
  resultLineFull : OperationResult;
  resultUnderfunded : OperationResult;
  resultCrossSelf : OperationResult;
  resultSellNoIssuer : OperationResult;
  resultBuyNoIssuer : OperationResult;
  resultNotFound : OperationResult;
  resultLowReserve : OperationResult
}.

Section base.
Context (tx : ParentTx) (sourceID : AccountID) (fuel : nat) (kind : Kind).

Definition buildOffer (amount flags : Z) (extension : option LedgerEntryExtensionV1) : LedgerEntry :=
  mkLedgerEntry 0
    (OFFER (mkOffer sourceID (mOfferID kind) (mSheep kind) (mWheat kind) amount (mPrice kind) flags)) extension.

(** ** Checks *)

Definition issuerExists (version : Z) (asset : Asset) : Client bool :=
  if version <? 13 then issuer ← lift (getIssuer asset); there (loadAccount issuer) else mret true.

Definition checkSheep (version : Z) : Client (option OperationResult) :=
  if is_native (mSheep kind) then mret None
  else
    withLine (loadTrustLine sourceID (mSheep kind)) (λ sheepLineA,
      issuer ← issuerExists version (mSheep kind);
      if negb issuer then mret (Some (resultSellNoIssuer kind))
      else if negb (is_line sheepLineA) then mret (Some (resultSellNoTrust kind))
      else
        balance ← line_getBalance sheepLineA;
        if balance =? 0 then mret (Some (resultUnderfunded kind))
        else
          authorized ← line_isAuthorized sheepLineA;
          mret (if negb authorized then Some (resultSellNotAuthorized kind) else None)).

Definition checkWheat (version : Z) : Client (option OperationResult) :=
  if is_native (mWheat kind) then mret None
  else
    withLine (loadTrustLine sourceID (mWheat kind)) (λ wheatLineA,
      issuer ← issuerExists version (mWheat kind);
      if negb issuer then mret (Some (resultBuyNoIssuer kind))
      else if negb (is_line wheatLineA) then mret (Some (resultBuyNoTrust kind))
      else
        authorized ← line_isAuthorized wheatLineA;
        mret (if negb authorized then Some (resultBuyNotAuthorized kind) else None)).

Definition checkOfferValid : Client (option OperationResult) :=
  nested (r ← (if isDeleteOffer kind then mret None
               else
                 version ← ledgerVersion;
                 r ← checkSheep version;
                 match r with
                 | Some res => mret (Some res)
                 | None => checkWheat version
                 end);
          mret (false, r)).

(** The switch over the result of [canCreateEntryWithoutSponsorship]. *)
Definition whenAllowed {A} (res : SponsorshipResult) (k : Client (Early A)) : Client (Early A) :=
  match res with
  | SPONSORSHIP_SUCCESS => k
  | LOW_RESERVE => mret (inl (resultLowReserve kind))
  | TOO_MANY_SUBENTRIES => mret (inl opTOO_MANY_SUBENTRIES)
  | _ => throw_runtime "Unexpected result from createEntryWithPossibleSponsorship"
  end.

(** Counting the offer as a subentry of its owner. *)
Definition countOffer {A} (header : Z) (le : LedgerEntry) (sourceAccount : Handle) (k : Client (Early A)) :
    Client (Early A) :=
  lh ← ask (CurrentHeader header);
  acc ← current sourceAccount;
  res ← lift (canCreateEntryWithoutSponsorship lh le acc);
  whenAllowed res (change sourceAccount (createEntryWithoutSponsorship le);; k).

(** ** How much can be exchanged *)

Definition exchangeLimits (header : Z) (sourceAccount : Handle) : Client (Early (Z * Z)) :=
  lh ← ask (CurrentHeader header);
  withLine (loadTrustLineIfNotNative sourceID (mSheep kind)) (λ sheepLineA,
    withLine (loadTrustLineIfNotNative sourceID (mWheat kind)) (λ wheatLineA,
      maxWheatReceive ← canBuyAtMost header sourceAccount (mWheat kind) wheatLineA;
      maxSheepSend ← canSellAtMost header sourceAccount (mSheep kind) sheepLineA;
      if 10 <=? lh_ledgerVersion lh then
        availableLimit ← (if is_native (mWheat kind) then getMaxAmountReceive_ltx header sourceAccount
                          else line_getMaxAmountReceive header wheatLineA);
        buying ← lift (offerBuyingLiabilities kind);
        if availableLimit <? buying then mret (inl (resultLineFull kind))
        else
          availableBalance ← (if is_native (mSheep kind) then getAvailableBalance_ltx header sourceAccount
                              else line_getAvailableBalance header sheepLineA);
          selling ← lift (offerSellingLiabilities kind);
          if availableBalance <? selling then mret (inl (resultUnderfunded kind))
          else mret (inr (applyOperationSpecificLimits kind maxSheepSend 0 maxWheatReceive 0))
      else
        limits ← lift (getExchangeParametersBeforeV10 kind maxSheepSend maxWheatReceive);
        mret (inr limits))).

(** The sheep to send and the wheat to receive at most, computed on a level that is
    rolled back. *)
Definition computeOfferExchangeParameters (creatingNewOffer : bool) : Client (Early (Z * Z)) :=
  nested (r ← withHeader (λ header,
      withEntry (loadAccount_tx tx header sourceID) (λ sourceAccount,
        lh ← ask (CurrentHeader header);
        let version := lh_ledgerVersion lh in
        if (version <? 14) && creatingNewOffer && ((10 <=? version) || (is_native (mSheep kind) && (8 <? version)))
        then countOffer header (buildOffer 0 0 None) sourceAccount (exchangeLimits header sourceAccount)
        else exchangeLimits header sourceAccount));
    mret (false, r)).

(** ** The offer before it is crossed *)

Record Prepared : Type := mkPrepared {
  creatingNewOffer : bool;
  passive : bool;
  flags : Z;
  extension : option LedgerEntryExtensionV1
}.

(** An offer that is modified is taken off the book. *)
Definition takeOffer : Client (Early Prepared) :=
  withEntry (loadOffer sourceID (mOfferID kind)) (λ sellSheepOffer,
    match sellSheepOffer with
    | None => mret (inl (resultNotFound kind))
    | Some _ =>
        withHeader (λ header,
          lh ← ask (CurrentHeader header);
          (if 10 <=? lh_ledgerVersion lh then releaseLiabilities header sellSheepOffer else mret tt);;
          le ← current sellSheepOffer;
          oe ← lift (data_offer le);
          eraseEntry sellSheepOffer;;
          mret (inr (mkPrepared false (has_flag (off_flags oe) PASSIVE_FLAG) (off_flags oe) (entry_ext le))))
    end).

(** The reserve of a new offer is established before it exists, from protocol 14. *)
Definition reserveOffer : Client (Early Prepared) :=
  let flags := if mSetPassiveOnCreate kind then PASSIVE_FLAG else 0 in
  let prepared ext := mkPrepared true (mSetPassiveOnCreate kind) flags ext in
  withHeader (λ header,
    lh ← ask (CurrentHeader header);
    if 14 <=? lh_ledgerVersion lh then
      withEntry (loadAccount sourceID) (λ sourceAccount,
        '(res, le) ← createEntryWithPossibleSponsorship header (buildOffer 0 0 None) sourceAccount;
        whenCreated (resultLowReserve kind) res (mret (inr (prepared (entry_ext le)))))
    else mret (inr (prepared None))).

Definition prepareOffer : Client (Early Prepared) :=
  if negb (mOfferID kind =? 0) then takeOffer else reserveOffer.

(** ** Crossing *)

(** Stops at an offer that is too expensive, and fails at one of the same account. *)
Definition offerFilter (passive : bool) (entry : Handle) : Client (option (option OperationResult)) :=
  let maxWheatPrice := mkPrice (pd (mPrice kind)) (pn (mPrice kind)) in
  o ← offerOf entry;
  lift (cassert (negb (off_offerID o =? mOfferID kind)));;
  mret (if (passive && price_ge (off_price o) maxWheatPrice) || price_gt (off_price o) maxWheatPrice
        then Some None
        else if decide (off_sellerID o = sourceID) then Some (Some (resultCrossSelf kind))
        else None).

(** Paying the account or its trust line. *)
Definition settle (header : Z) (asset : Asset) (delta : Z) (what : string) : Client unit :=
  ok ← (if is_native asset then
          withEntry (loadAccount_tx tx header sourceID) (λ sourceAccount, addBalance_ltx header sourceAccount delta)
        else withLine (loadTrustLine sourceID asset) (line_addBalance header delta));
  if negb ok then throw_runtime what else mret tt.

(** What is left to offer. *)
Definition remaining (header : Z) (sheepStays : bool) (maxSheepSend sheepSent wheatReceived : Z) : Client Z :=
  lh ← ask (CurrentHeader header);
  if 10 <=? lh_ledgerVersion lh then
    if sheepStays then
      withEntry (loadAccountWithoutRecord sourceID) (λ sourceAccount,
        withLine (loadTrustLineWithoutRecordIfNotNative sourceID (mSheep kind)) (λ sheepLineA,
          withLine (loadTrustLineWithoutRecordIfNotNative sourceID (mWheat kind)) (λ wheatLineA,
            sheepSendLimit ← canSellAtMost header sourceAccount (mSheep kind) sheepLineA;
            wheatReceiveLimit ← canBuyAtMost header sourceAccount (mWheat kind) wheatLineA;
            let '(sheepSendLimit, wheatReceiveLimit) :=
              applyOperationSpecificLimits kind sheepSendLimit sheepSent wheatReceiveLimit wheatReceived in
            lift (adjustOffer (mPrice kind) sheepSendLimit wheatReceiveLimit))))
    else mret 0
  else mret (maxSheepSend - sheepSent).

(** Whether sheep stay after the conversion; the other results end the operation. *)
Definition sheepStaysAfter (r : ConvertResult (option OperationResult)) : Early bool :=
  match r with
  | eOK => inr false
  | ePartial => inr true
  | eFilterStop (Some res) => inl res
  | eFilterStop None => inr true
  | eCrossedTooMany => inl opEXCEEDED_WORK_LIMIT
  end.

(** The amount that remains and the offers claimed. *)
Definition crossBook (prepared : Prepared) : Client (Early (Z * list ClaimOfferAtom)) :=
  r ← computeOfferExchangeParameters (creatingNewOffer prepared);
  match r with
  | inl res => mret (inl res)
  | inr (maxSheepSend, maxWheatReceive) =>
      if maxWheatReceive =? 0 then mret (inl (resultLineFull kind))
      else
        version ← ledgerVersion;
        let maxOffersToCross :=
          if FIRST_PROTOCOL_SUPPORTING_OPERATION_LIMITS <=? version then MAX_OFFERS_TO_CROSS else INT64_MAX in
        '(r, sheepSent, wheatReceived, offerTrail) ←
          convertWithOffers (mSheep kind) (mWheat kind) NORMAL (offerFilter (passive prepared)) maxOffersToCross fuel
            maxSheepSend maxWheatReceive;
        lift (cassert (0 <=? sheepSent));;
        match sheepStaysAfter r with
        | inl res => mret (inl res)
        | inr sheepStays =>
            amount ← withHeader (λ header,
              (if 0 <? wheatReceived then
                 settle header (mWheat kind) wheatReceived "offer claimed over limit";;
                 settle header (mSheep kind) (- sheepSent) "offer sold more than balance"
               else mret tt);;
              remaining header sheepStays maxSheepSend sheepSent wheatReceived);
            mret (inr (amount, offerTrail))
        end
  end.

(** ** The offer afterwards *)

Definition putOffer (header : Z) (prepared : Prepared) (newOffer : LedgerEntry) (claimed : list ClaimOfferAtom) :
    Client (Early OperationResult) :=
  withEntry (createEntry newOffer) (λ sellSheepOffer,
    oe ← offerOf sellSheepOffer;
    lh ← ask (CurrentHeader header);
    (if 10 <=? lh_ledgerVersion lh then acquireLiabilities header sellSheepOffer else mret tt);;
    mret (inr (resultSuccess kind claimed
      (if creatingNewOffer prepared then MANAGE_OFFER_CREATED oe else MANAGE_OFFER_UPDATED oe)))).

Definition set_off_offerID (id : Z) (o : OfferEntry) : OfferEntry :=
  mkOffer (off_sellerID o) id (off_selling o) (off_buying o) (off_amount o) (off_price o) (off_flags o).

Definition numberOffer (header : Z) (newOffer : LedgerEntry) : Client LedgerEntry :=
  id ← generateID header;
  lift (on_offer (set_off_offerID (i64 id)) newOffer).

Definition finishOffer (prepared : Prepared) (amount : Z) (claimed : list ClaimOfferAtom) :
    Client (Early OperationResult) :=
  withHeader (λ header,
    lh ← ask (CurrentHeader header);
    if 0 <? amount then
      let newOffer := buildOffer amount (flags prepared) (extension prepared) in
      if creatingNewOffer prepared then
        r ← (if lh_ledgerVersion lh <? 14 then
               withEntry (loadAccount_tx tx header sourceID) (λ sourceAccount,
                 countOffer header newOffer sourceAccount (mret (inr tt)))
             else mret (inr tt));
        match r with
        | inl res => mret (inl res)
        | inr _ => newOffer ← numberOffer header newOffer; putOffer header prepared newOffer claimed
        end
      else putOffer header prepared newOffer claimed
    else
      (if negb (creatingNewOffer prepared) || (14 <=? lh_ledgerVersion lh) then
         withEntry (loadAccount_tx tx header sourceID) (λ sourceAccount,
           removeEntryWithPossibleSponsorship header (buildOffer 0 0 (extension prepared)) sourceAccount;;
           mret tt)
       else mret tt);;
      mret (inr (resultSuccess kind claimed MANAGE_OFFER_DELETED))).

Definition doApply : Client Applied :=
  applied (ownLevel (unlessFails checkOfferValid (
    r ← prepareOffer;
    match r with
    | inl res => mret (inl res)
    | inr prepared =>
        r ← (if negb (isDeleteOffer kind) then crossBook prepared else mret (inr (0, [])));
        match r with
        | inl res => mret (inl res)
        | inr (amount, claimed) => finishOffer prepared amount claimed
        end
    end))).

Definition doCheckValid (version : Z) : option OperationResult :=
  if negb (isAssetValid (mSheep kind)) || negb (isAssetValid (mWheat kind)) then Some (resultMalformed kind)
  else if decide (mSheep kind = mWheat kind) then Some (resultMalformed kind)
  else if negb (isAmountValid kind) || (pd (mPrice kind) <=? 0) || (pn (mPrice kind) <=? 0)
  then Some (resultMalformed kind)
  else if (mOfferID kind =? 0) && isDeleteOffer kind && (11 <=? version) then Some (resultMalformed kind)
  else if (mOfferID kind =? 0) && isDeleteOffer kind && (3 <=? version) then Some (resultNotFound kind)
  else if (15 <=? version) && (mOfferID kind <? 0) then Some (resultMalformed kind)
  else None.
End base.
End ManageOffer.

(** ** [ManageSellOfferOpFrame] and [CreatePassiveSellOfferOpFrame] *)

Module ManageSellOffer.

Definition result (r : ManageSellOfferResult) : OperationResult := opINNER (manageSellOfferResult r).

Definition liabilities (op : ManageSellOfferOp) : res ExchangeResultV10 :=
  exchangeV10WithoutPriceErrorThresholds (mso_price op) (mso_amount op) INT64_MAX INT64_MAX INT64_MAX NORMAL.

Definition exchangeParametersBeforeV10 (op : ManageSellOfferOp) (maxSheepSend maxWheatReceive : Z) : res (Z * Z) :=
  onWheat ← bigDivide_i64_nothrow maxWheatReceive (pd (mso_price op)) (pn (mso_price op)) ROUND_DOWN;
  mret (Z.min (Z.min maxSheepSend (default INT64_MAX onWheat)) (mso_amount op), maxWheatReceive).

Definition kind (passive : bool) (op : ManageSellOfferOp) : ManageOffer.Kind := {|
  ManageOffer.mSheep := mso_selling op;
  ManageOffer.mWheat := mso_buying op;
  ManageOffer.mOfferID := mso_offerID op;
  ManageOffer.mPrice := mso_price op;
  ManageOffer.mSetPassiveOnCreate := passive;
  ManageOffer.isAmountValid := 0 <=? mso_amount op;
  ManageOffer.isDeleteOffer := mso_amount op =? 0;
  ManageOffer.offerBuyingLiabilities := numSheepSend <$> liabilities op;
  ManageOffer.offerSellingLiabilities := numWheatReceived <$> liabilities op;
  ManageOffer.applyOperationSpecificLimits := λ maxSheepSend sheepSent maxWheatReceive _,
    (Z.min (mso_amount op - sheepSent) maxSheepSend, maxWheatReceive);
  ManageOffer.getExchangeParametersBeforeV10 := exchangeParametersBeforeV10 op;
  ManageOffer.resultSuccess := λ claimed effect, result (MANAGE_SELL_OFFER_SUCCESS claimed effect);
  ManageOffer.resultMalformed := result MANAGE_SELL_OFFER_MALFORMED;
  ManageOffer.resultSellNoTrust := result MANAGE_SELL_OFFER_SELL_NO_TRUST;
  ManageOffer.resultBuyNoTrust := result MANAGE_SELL_OFFER_BUY_NO_TRUST;
  ManageOffer.resultSellNotAuthorized := result MANAGE_SELL_OFFER_SELL_NOT_AUTHORIZED;
  ManageOffer.resultBuyNotAuthorized := result MANAGE_SELL_OFFER_BUY_NOT_AUTHORIZED;
  ManageOffer.resultLineFull := result MANAGE_SELL_OFFER_LINE_FULL;
  ManageOffer.resultUnderfunded := result MANAGE_SELL_OFFER_UNDERFUNDED;
  ManageOffer.resultCrossSelf := result MANAGE_SELL_OFFER_CROSS_SELF;
  ManageOffer.resultSellNoIssuer := result MANAGE_SELL_OFFER_SELL_NO_ISSUER;
  ManageOffer.resultBuyNoIssuer := result MANAGE_SELL_OFFER_BUY_NO_ISSUER;
  ManageOffer.resultNotFound := result MANAGE_SELL_OFFER_NOT_FOUND;
  ManageOffer.resultLowReserve := result MANAGE_SELL_OFFER_LOW_RESERVE
|}.

(** The operation that a [CREATE_PASSIVE_SELL_OFFER] is turned into; its result is
    that of a [MANAGE_SELL_OFFER] too. *)
Definition fromPassive (op : CreatePassiveSellOfferOp) : ManageSellOfferOp :=
  mkManageSellOfferOp (pso_selling op) (pso_buying op) (pso_amount op) (pso_price op) 0.
End ManageSellOffer.

(** ** [ManageBuyOfferOpFrame] *)

Module ManageBuyOffer.

Definition result (r : ManageBuyOfferResult) : OperationResult := opINNER (manageBuyOfferResult r).

Definition getInversePrice (p : Price) : Price := mkPrice (pd p) (pn p).

Definition liabilities (op : ManageBuyOfferOp) : res ExchangeResultV10 :=
  exchangeV10WithoutPriceErrorThresholds (getInversePrice (mbo_price op)) INT64_MAX INT64_MAX INT64_MAX
    (mbo_buyAmount op) NORMAL.

Definition isVersionSupported (version : Z) : bool := 11 <=? version.

Definition kind (op : ManageBuyOfferOp) : ManageOffer.Kind := {|
  ManageOffer.mSheep := mbo_selling op;
  ManageOffer.mWheat := mbo_buying op;
  ManageOffer.mOfferID := mbo_offerID op;
  ManageOffer.mPrice := getInversePrice (mbo_price op);
  ManageOffer.mSetPassiveOnCreate := false;
  ManageOffer.isAmountValid := 0 <=? mbo_buyAmount op;
  ManageOffer.isDeleteOffer := mbo_buyAmount op =? 0;
  ManageOffer.offerBuyingLiabilities := numSheepSend <$> liabilities op;
  ManageOffer.offerSellingLiabilities := numWheatReceived <$> liabilities op;
  ManageOffer.applyOperationSpecificLimits := λ maxSheepSend _ maxWheatReceive wheatReceived,
    (maxSheepSend, Z.min (mbo_buyAmount op - wheatReceived) maxWheatReceive);
  ManageOffer.getExchangeParametersBeforeV10 := λ _ _,
    Throw (RuntimeError "ManageBuyOffer used before protocol version 10");
  ManageOffer.resultSuccess := λ claimed effect, result (MANAGE_BUY_OFFER_SUCCESS claimed effect);
  ManageOffer.resultMalformed := result MANAGE_BUY_OFFER_MALFORMED;
  ManageOffer.resultSellNoTrust := result MANAGE_BUY_OFFER_SELL_NO_TRUST;
  ManageOffer.resultBuyNoTrust := result MANAGE_BUY_OFFER_BUY_NO_TRUST;
  ManageOffer.resultSellNotAuthorized := result MANAGE_BUY_OFFER_SELL_NOT_AUTHORIZED;
  ManageOffer.resultBuyNotAuthorized := result MANAGE_BUY_OFFER_BUY_NOT_AUTHORIZED;
  ManageOffer.resultLineFull := result MANAGE_BUY_OFFER_LINE_FULL;
  ManageOffer.resultUnderfunded := result MANAGE_BUY_OFFER_UNDERFUNDED;
  ManageOffer.resultCrossSelf := result MANAGE_BUY_OFFER_CROSS_SELF;
  ManageOffer.resultSellNoIssuer := result MANAGE_BUY_OFFER_SELL_NO_ISSUER;
  ManageOffer.resultBuyNoIssuer := result MANAGE_BUY_OFFER_BUY_NO_ISSUER;
  ManageOffer.resultNotFound := result MANAGE_BUY_OFFER_NOT_FOUND;
  ManageOffer.resultLowReserve := result MANAGE_BUY_OFFER_LOW_RESERVE
|}.
End ManageBuyOffer.
