(* ===== verification/SponsorshipOps.v ===== *)
(** * Claimable balances and sponsorships

    [transactions/CreateClaimableBalanceOpFrame.cpp],
    [ClaimClaimableBalanceOpFrame.cpp], [BeginSponsoringFutureReservesOpFrame.cpp],
    [EndSponsoringFutureReservesOpFrame.cpp] and [RevokeSponsorshipOpFrame.cpp]. *)

From S2P Require Import Prelude LedgerEntries GeneralizedEntries Accounts LedgerTxn LedgerTxnRefine LedgerClient Sponsorship TrustLines OperationTypes OperationBase AccountOps.

(** ** [CreateClaimableBalanceOpFrame] *)

Module CreateClaimableBalance.

Definition relativeToAbsolute (closeTime relative : Z) : Z :=
  if u64 (INT64_MAX - relative) <? closeTime then INT64_MAX else i64 (u64 (closeTime + relative)).

(** Relative times become absolute. *)
Fixpoint updatePredicatesForApply (closeTime : Z) (pred : ClaimPredicate) : res ClaimPredicate :=
  match pred with
  | CLAIM_PREDICATE_AND l =>
      match l with
      | p :: q :: l =>
          p ← updatePredicatesForApply closeTime p;
          q ← updatePredicatesForApply closeTime q;
          mret (CLAIM_PREDICATE_AND (p :: q :: l))
      | _ => Throw OutOfRange
      end
  | CLAIM_PREDICATE_OR l =>
      match l with
      | p :: q :: l =>
          p ← updatePredicatesForApply closeTime p;
          q ← updatePredicatesForApply closeTime q;
          mret (CLAIM_PREDICATE_OR (p :: q :: l))
      | _ => Throw OutOfRange
      end
  | CLAIM_PREDICATE_NOT o =>
      match o with
      | Some p => p ← updatePredicatesForApply closeTime p; mret (CLAIM_PREDICATE_NOT (Some p))
      | None => Throw NullDereference
      end
  | CLAIM_PREDICATE_BEFORE_RELATIVE_TIME relBefore =>
      mret (CLAIM_PREDICATE_BEFORE_ABSOLUTE_TIME (relativeToAbsolute closeTime relBefore))
  | CLAIM_PREDICATE_BEFORE_ABSOLUTE_TIME _ | CLAIM_PREDICATE_UNCONDITIONAL => mret pred
  end.

Fixpoint validatePredicate (pred : ClaimPredicate) (depth : Z) : bool :=
  if 4 <? depth then false
  else
    match pred with
    | CLAIM_PREDICATE_UNCONDITIONAL => true
    | CLAIM_PREDICATE_AND l | CLAIM_PREDICATE_OR l =>
        match l with
        | [p; q] => validatePredicate p (depth + 1) && validatePredicate q (depth + 1)
        | _ => false
        end
    | CLAIM_PREDICATE_NOT o =>
        match o with
        | Some p => validatePredicate p (depth + 1)
        | None => false
        end
    | CLAIM_PREDICATE_BEFORE_ABSOLUTE_TIME absBefore => 0 <=? absBefore
    | CLAIM_PREDICATE_BEFORE_RELATIVE_TIME relBefore => 0 <=? relBefore
    end.

Fixpoint updateClaimants (closeTime : Z) (claimants : list Claimant) : res (list Claimant) :=
  match claimants with
  | [] => mret []
  | c :: claimants =>
      p ← updatePredicatesForApply closeTime (claimant_predicate c);
      claimants ← updateClaimants closeTime claimants;
      mret (mkClaimant (claimant_destination c) p :: claimants)
  end.

Section op.
Context (tx : ParentTx) (sourceID : AccountID) (op : CreateClaimableBalanceOp) (mOpIndex : Z).

Definition result (r : CreateClaimableBalanceResult) : OperationResult := opINNER (createClaimableBalanceResult r).

Definition isVersionSupported (version : Z) : bool := 14 <=? version.

Definition getBalanceID : list Z := tx_operationHash tx (toMuxedAccount (tx_sourceID tx)) (tx_seqNum tx) mOpIndex.

(** Taking the amount from the source account. *)
Definition takeAmount (header : Z) (sourceAccount : Handle) : Client (option OperationResult) :=
  if is_native (ccb_asset op) then
    avail ← getAvailableBalance_ltx header sourceAccount;
    if avail <? ccb_amount op then mret (Some (result CREATE_CLAIMABLE_BALANCE_UNDERFUNDED))
    else
      ok ← addBalance_ltx header sourceAccount (- ccb_amount op);
      lift (cassert ok);;
      mret None
  else
    withLine (loadTrustLine sourceID (ccb_asset op)) (λ trustline,
      if negb (is_line trustline) then mret (Some (result CREATE_CLAIMABLE_BALANCE_NO_TRUST))
      else
        authorized ← line_isAuthorized trustline;
        if negb authorized then mret (Some (result CREATE_CLAIMABLE_BALANCE_NOT_AUTHORIZED))
        else
          ok ← line_addBalance header (- ccb_amount op) trustline;
          mret (if negb ok then Some (result CREATE_CLAIMABLE_BALANCE_UNDERFUNDED) else None)).

(** The switch over the result of [createEntryWithPossibleSponsorship]. *)
Definition whenBalanceCreated (res : SponsorshipResult) (k : Client (Early OperationResult)) :
    Client (Early OperationResult) :=
  match res with
  | SPONSORSHIP_SUCCESS => k
  | LOW_RESERVE => mret (inl (result CREATE_CLAIMABLE_BALANCE_LOW_RESERVE))
  | TOO_MANY_SPONSORING => mret (inl opTOO_MANY_SPONSORING)
  | _ => throw_runtime "Unexpected result from canEstablishEntrySponsorship"
  end.

Definition doApply : Client Applied :=
  applied (withHeader (λ header,
    withEntry (loadAccount_tx tx header sourceID) (λ sourceAccount,
      unlessFails (takeAmount header sourceAccount) (
        lh ← ask (CurrentHeader header);
        claimants ← lift (updateClaimants (sv_closeTime (lh_scpValue lh)) (ccb_claimants op));
        let newClaimableBalance :=
          mkLedgerEntry 0
            (CLAIMABLE_BALANCE (mkClaimableBalance getBalanceID claimants (ccb_asset op) (ccb_amount op))) None in
        '(res, le) ← createEntryWithPossibleSponsorship header newClaimableBalance sourceAccount;
        whenBalanceCreated res
          (create le;; mret (inr (result (CREATE_CLAIMABLE_BALANCE_SUCCESS getBalanceID)))))))).

Definition doCheckValid (version : Z) : option OperationResult :=
  let claimants := ccb_claimants op in
  if negb (isAssetValid (ccb_asset op)) || (ccb_amount op <=? 0) || bool_decide (claimants = [])
  then Some (result CREATE_CLAIMABLE_BALANCE_MALFORMED)
  else if negb (bool_decide (NoDup (claimant_destination <$> claimants)))
  then Some (result CREATE_CLAIMABLE_BALANCE_MALFORMED)
  else if negb (forallb (λ c, validatePredicate (claimant_predicate c) 1) claimants)
  then Some (result CREATE_CLAIMABLE_BALANCE_MALFORMED)
  else None.
End op.
End CreateClaimableBalance.

(** ** [ClaimClaimableBalanceOpFrame] *)

Module ClaimClaimableBalance.

(** Whether a predicate holds at a time. *)
Fixpoint validatePredicate (closeTime : Z) (pred : ClaimPredicate) : res bool :=
  match pred with
  | CLAIM_PREDICATE_UNCONDITIONAL => mret true
  | CLAIM_PREDICATE_AND l =>
      match l with
      | p :: l =>
          b ← validatePredicate closeTime p;
          if (b : bool) then match l with q :: _ => validatePredicate closeTime q | [] => Throw OutOfRange end
          else mret false
      | [] => Throw OutOfRange
      end
  | CLAIM_PREDICATE_OR l =>
      match l with
      | p :: l =>
          b ← validatePredicate closeTime p;
          if (b : bool) then mret true
          else match l with q :: _ => validatePredicate closeTime q | [] => Throw OutOfRange end
      | [] => Throw OutOfRange
      end
  | CLAIM_PREDICATE_NOT o =>
      match o with
      | Some p => negb <$> validatePredicate closeTime p
      | None => Throw NullDereference
      end
  | CLAIM_PREDICATE_BEFORE_ABSOLUTE_TIME absBefore => mret (closeTime <? u64 absBefore)
  | CLAIM_PREDICATE_BEFORE_RELATIVE_TIME _ => Throw (RuntimeError "Invalid ClaimPredicate")
  end.

Section op.
Context (tx : ParentTx) (sourceID : AccountID) (balanceID : list Z).

Definition result (r : ClaimClaimableBalanceResult) : OperationResult := opINNER (claimClaimableBalanceResult r).

Definition isVersionSupported (version : Z) : bool := 14 <=? version.

Definition data_claimableBalance (le : LedgerEntry) : res ClaimableBalanceEntry :=
  match entry_data le with CLAIMABLE_BALANCE c => Ok c | _ => Throw WrongUnion end.

Definition canClaim (closeTime : Z) (claimants : list Claimant) : res bool :=
  match List.find (λ c, bool_decide (claimant_destination c = sourceID)) claimants with
  | None => mret false
  | Some c => validatePredicate closeTime (claimant_predicate c)
  end.

Definition receive (header : Z) (cb : ClaimableBalanceEntry) : Client (option OperationResult) :=
  if is_native (cb_asset cb) then
    withEntry (loadAccount_tx tx header sourceID) (λ sourceAccount,
      ok ← addBalance_ltx header sourceAccount (cb_amount cb);
      mret (if negb ok then Some (result CLAIM_CLAIMABLE_BALANCE_LINE_FULL) else None))
  else
    withLine (loadTrustLine sourceID (cb_asset cb)) (λ trustline,
      if negb (is_line trustline) then mret (Some (result CLAIM_CLAIMABLE_BALANCE_NO_TRUST))
      else
        authorized ← line_isAuthorized trustline;
        if negb authorized then mret (Some (result CLAIM_CLAIMABLE_BALANCE_NOT_AUTHORIZED))
        else
          ok ← line_addBalance header (cb_amount cb) trustline;
          mret (if negb ok then Some (result CLAIM_CLAIMABLE_BALANCE_LINE_FULL) else None)).

Definition doApply : Client Applied :=
  applied (withEntry (loadClaimableBalance balanceID) (λ claimableBalanceLtxEntry,
    match claimableBalanceLtxEntry with
    | None => mret (inl (result CLAIM_CLAIMABLE_BALANCE_DOES_NOT_EXIST))
    | Some _ =>
        le ← current claimableBalanceLtxEntry;
        cb ← lift (data_claimableBalance le);
        withHeader (λ header,
          lh ← ask (CurrentHeader header);
          can ← lift (canClaim (sv_closeTime (lh_scpValue lh)) (cb_claimants cb));
          if negb can then mret (inl (result CLAIM_CLAIMABLE_BALANCE_CANNOT_CLAIM))
          else
            unlessFails (receive header cb)
              (withEntry (loadAccount_tx tx header sourceID) (λ sourceAccount,
                 removeLoadedEntry header claimableBalanceLtxEntry sourceAccount;;
                 eraseEntry claimableBalanceLtxEntry;;
                 mret (inr (result CLAIM_CLAIMABLE_BALANCE_SUCCESS)))))
    end)).
End op.
End ClaimClaimableBalance.

(** ** [BeginSponsoringFutureReservesOpFrame] *)

Module BeginSponsoring.
Section op.
Context (sourceID sponsoredID : AccountID).

Definition result (r : BeginSponsoringFutureReservesResult) : OperationResult :=
  opINNER (beginSponsoringFutureReservesResult r).

Definition isVersionSupported (version : Z) : bool := 14 <=? version.

Definition createGeneralized (e : GeneralizedLedgerEntry) : Client unit :=
  withEntry (h ← ask (Create e); mret (Some h)) (λ _, mret tt).

Definition createSponsorship : Client unit := createGeneralized (GSponsorship sponsoredID sourceID).
Definition createSponsorshipCounter : Client unit := createGeneralized (GSponsorshipCounter sourceID 1).

Definition countSponsored : Client unit :=
  withEntry (loadSponsorshipCounter sourceID) (λ ltxe,
    match ltxe with
    | Some h =>
        g ← currentGeneralized ltxe;
        '(id, n) ← lift (sponsorshipCounterEntry g);
        ask (Write h (GSponsorshipCounter id (i64 (n + 1))))
    | None => createSponsorshipCounter
    end).

Definition doApply : Client Applied :=
  alreadySponsored ← there (loadSponsorship sponsoredID);
  if (alreadySponsored : bool) then mret (false, result BEGIN_SPONSORING_FUTURE_RESERVES_ALREADY_SPONSORED)
  else
    sourceSponsored ← there (loadSponsorship sourceID);
    if (sourceSponsored : bool) then mret (false, result BEGIN_SPONSORING_FUTURE_RESERVES_RECURSIVE)
    else
      sponsors ← there (loadSponsorshipCounter sponsoredID);
      if (sponsors : bool) then mret (false, result BEGIN_SPONSORING_FUTURE_RESERVES_RECURSIVE)
      else
        createSponsorship;;
        countSponsored;;
        mret (true, result BEGIN_SPONSORING_FUTURE_RESERVES_SUCCESS).

Definition doCheckValid (version : Z) : option OperationResult :=
  if decide (sponsoredID = sourceID) then Some (result BEGIN_SPONSORING_FUTURE_RESERVES_MALFORMED) else None.
End op.
End BeginSponsoring.

(** ** [EndSponsoringFutureReservesOpFrame] *)

Module EndSponsoring.
Section op.
Context (sourceID : AccountID).

Definition result (r : EndSponsoringFutureReservesResult) : OperationResult :=
  opINNER (endSponsoringFutureReservesResult r).

Definition isVersionSupported (version : Z) : bool := 14 <=? version.

Definition uncountSponsored (sponsoringID : AccountID) : Client unit :=
  withEntry (loadSponsorshipCounter sponsoringID) (λ sponsorshipCounter,
    match sponsorshipCounter with
    | None => throw_runtime "no sponsorship counter"
    | Some h =>
        g ← currentGeneralized sponsorshipCounter;
        '(id, n) ← lift (sponsorshipCounterEntry g);
        if n =? 0 then throw_runtime "bad sponsorship counter"
        else
          ask (Write h (GSponsorshipCounter id (i64 (n - 1))));;
          if n - 1 =? 0 then eraseEntry sponsorshipCounter else mret tt
    end).

Definition doApply : Client Applied :=
  withEntry (loadSponsorship sourceID) (λ sponsorship,
    match sponsorship with
    | None => mret (false, result END_SPONSORING_FUTURE_RESERVES_NOT_SPONSORED)
    | Some _ =>
        g ← currentGeneralized sponsorship;
        se ← lift (sponsorshipEntry g);
        uncountSponsored se.2;;
        eraseEntry sponsorship;;
        mret (true, result END_SPONSORING_FUTURE_RESERVES_SUCCESS)
    end).
End op.
End EndSponsoring.

(** ** [RevokeSponsorshipOpFrame] *)

Module RevokeSponsorship.
Section op.
Context (sourceID : AccountID) (op : RevokeSponsorshipOp).

Definition result (r : RevokeSponsorshipResult) : OperationResult := opINNER (revokeSponsorshipResult r).
Definition success : Client (Early OperationResult) := mret (inr (result REVOKE_SPONSORSHIP_SUCCESS)).
Definition failure {A} (r : RevokeSponsorshipResult) : Client (Early A) := mret (inl (result r)).

Definition isVersionSupported (version : Z) : bool := 14 <=? version.

Definition getAccountID (le : LedgerEntry) : res AccountID :=
  match entry_data le with
  | ACCOUNT a => mret (acc_accountID a)
  | TRUSTLINE t => mret (tl_accountID t)
  | OFFER o => mret (off_sellerID o)
  | DATA d => mret (data_accountID d)
  | CLAIMABLE_BALANCE _ =>
      match entry_ext le with
      | Some (mkEntryV1 (Some id)) => mret id
      | Some (mkEntryV1 None) => Throw NullDereference
      | None => Throw WrongUnion
      end
  end.

Definition processSponsorshipResult (sr : SponsorshipResult) (k : Client (Early OperationResult)) :
    Client (Early OperationResult) :=
  match sr with
  | SPONSORSHIP_SUCCESS => k
  | LOW_RESERVE => failure REVOKE_SPONSORSHIP_LOW_RESERVE
  | TOO_MANY_SPONSORING => mret (inl opTOO_MANY_SPONSORING)
  | _ => throw_runtime "unexpected sponsorship result"
  end.

(** Whether there is a sponsor, who has to be the source account; without one, the
    owner has to be. *)
Definition checkSponsor (sponsor : SponsorshipDescriptor) (owner : res AccountID) : Client (Early bool) :=
  match sponsor with
  | Some id => if decide (id = sourceID) then mret (inr true) else failure REVOKE_SPONSORSHIP_NOT_SPONSOR
  | None =>
      ownerID ← lift owner;
      if decide (ownerID = sourceID) then mret (inr false) else failure REVOKE_SPONSORSHIP_NOT_SPONSOR
  end.

(** The future sponsor, unless it is the owner. *)
Definition futureSponsor (owner : res AccountID) (sponsorship : Handle) : Client (option AccountID) :=
  match sponsorship with
  | None => mret None
  | Some _ =>
      g ← currentGeneralized sponsorship;
      se ← lift (sponsorshipEntry g);
      ownerID ← lift owner;
      mret (if decide (se.2 = ownerID) then None else Some se.2)
  end.

(** *** An entry *)

Definition transferEntry (header : Z) (ltxe : Handle) (oldID newID : AccountID) : Client (Early OperationResult) :=
  withEntry (loadAccount oldID) (λ oldSponsoringAcc,
    withEntry (loadAccount newID) (λ newSponsoringAcc,
      lh ← ask (CurrentHeader header);
      le ← current ltxe;
      old ← current oldSponsoringAcc;
      new ← current newSponsoringAcc;
      res ← lift (canTransferEntrySponsorship lh le old new);
      processSponsorshipResult res (
        '(le, old, new) ← lift (transferEntrySponsorship le old new);
        assign ltxe le;;
        assign oldSponsoringAcc old;;
        assign newSponsoringAcc new;;
        success))).

(** Removing or establishing: the sponsored account is the entry itself or another
    entry. *)
Definition tryUpdateEntry
    (can : LedgerHeader → LedgerEntry → LedgerEntry → option LedgerEntry → res SponsorshipResult)
    (update : LedgerEntry → LedgerEntry → SponsoredAcc → res (LedgerEntry * LedgerEntry * SponsoredAcc))
    (header : Z) (ltxe sponsoringAcc sponsoredAcc : Handle) (s : SponsoredAcc) : Client (Early OperationResult) :=
  lh ← ask (CurrentHeader header);
  le ← current ltxe;
  sponsoring ← current sponsoringAcc;
  res ← lift (can lh le sponsoring (sponsored_at le s));
  processSponsorshipResult res (
    '(le, sponsoring, s) ← lift (update le sponsoring s);
    assign ltxe le;;
    assign sponsoringAcc sponsoring;;
    assignSponsored sponsoredAcc s;;
    success).

Definition updateEntry
    (can : LedgerHeader → LedgerEntry → LedgerEntry → option LedgerEntry → res SponsorshipResult)
    (update : LedgerEntry → LedgerEntry → SponsoredAcc → res (LedgerEntry * LedgerEntry * SponsoredAcc))
    (header : Z) (ltxe : Handle) (sponsorID : AccountID) : Client (Early OperationResult) :=
  withEntry (loadAccount sponsorID) (λ sponsoringAcc,
    le ← current ltxe;
    if is_account le then tryUpdateEntry can update header ltxe sponsoringAcc None EntryItself
    else
      ownerID ← lift (getAccountID le);
      withEntry (loadAccount ownerID) (λ sponsoredAcc,
        sponsored ← current sponsoredAcc;
        tryUpdateEntry can update header ltxe sponsoringAcc sponsoredAcc (OtherAcc sponsored))).

Definition is_claimableBalance (le : LedgerEntry) : bool :=
  match entry_data le with CLAIMABLE_BALANCE _ => true | _ => false end.

Definition updateLedgerEntrySponsorship (ledgerKey : LedgerKey) : Client (Early OperationResult) :=
  withEntry (ask (Load (GLedgerKey ledgerKey))) (λ ltxe,
    match ltxe with
    | None => failure REVOKE_SPONSORSHIP_DOES_NOT_EXIST
    | Some _ =>
        le ← current ltxe;
        r ← checkSponsor (entrySponsor le) (getAccountID le);
        match r with
        | inl res => mret (inl res)
        | inr wasEntrySponsored =>
            withEntry (loadSponsorship sourceID) (λ sponsorship,
              future ← futureSponsor (getAccountID le) sponsorship;
              if bool_decide (future = None) && is_claimableBalance le
              then failure REVOKE_SPONSORSHIP_ONLY_TRANSFERABLE
              else
                withHeader (λ header,
                  match wasEntrySponsored, future with
                  | true, Some newID => transferEntry header ltxe sourceID newID
                  | true, None => updateEntry canRemoveEntrySponsorship removeEntrySponsorship header ltxe sourceID
                  | false, Some newID =>
                      updateEntry canEstablishEntrySponsorship establishEntrySponsorship header ltxe newID
                  | false, None => success
                  end))
        end
    end).

(** *** A signer *)

Definition signerSponsor (index : nat) (ae : AccountEntry) : res SponsorshipDescriptor :=
  match acc_ext ae with
  | Some (mkAccountV1 _ (Some v2)) =>
      match signerSponsoringIDs v2 !! index with
      | Some d => mret d
      | None => Throw (RuntimeError "bad signer sponsorships")
      end
  | _ => mret None
  end.

Definition transferSigner (header : Z) (index : nat) (sponsoredAcc : Handle) (oldID newID : AccountID) :
    Client (Early OperationResult) :=
  withEntry (loadAccount oldID) (λ oldSponsoringAcc,
    withEntry (loadAccount newID) (λ newSponsoringAcc,
      lh ← ask (CurrentHeader header);
      old ← current oldSponsoringAcc;
      new ← current newSponsoringAcc;
      sponsored ← current sponsoredAcc;
      res ← lift (canTransferSignerSponsorship lh index old new sponsored);
      processSponsorshipResult res (
        '(old, new, sponsored) ← lift (transferSignerSponsorship index old new sponsored);
        assign oldSponsoringAcc old;;
        assign newSponsoringAcc new;;
        assign sponsoredAcc sponsored;;
        success))).

Definition updateSigner (can : LedgerHeader → nat → LedgerEntry → LedgerEntry → res SponsorshipResult)
    (update : nat → LedgerEntry → LedgerEntry → res (LedgerEntry * LedgerEntry))
    (header : Z) (index : nat) (sponsoredAcc : Handle) (sponsorID : AccountID) : Client (Early OperationResult) :=
  withEntry (loadAccount sponsorID) (λ sponsoringAcc,
    lh ← ask (CurrentHeader header);
    sponsoring ← current sponsoringAcc;
    sponsored ← current sponsoredAcc;
    res ← lift (can lh index sponsoring sponsored);
    processSponsorshipResult res (
      '(sponsoring, sponsored) ← lift (update index sponsoring sponsored);
      assign sponsoringAcc sponsoring;;
      assign sponsoredAcc sponsored;;
      success)).

Definition updateSignerSponsorship (accountID : AccountID) (signerKey : SignerKey) : Client (Early OperationResult) :=
  withEntry (loadAccount accountID) (λ sponsoredAcc,
    match sponsoredAcc with
    | None => failure REVOKE_SPONSORSHIP_DOES_NOT_EXIST
    | Some _ =>
        le ← current sponsoredAcc;
        ae ← lift (data_account le);
        let '(index, found) := findSignerByKey signerKey (acc_signers ae) in
        if negb found then failure REVOKE_SPONSORSHIP_DOES_NOT_EXIST
        else
          sponsor ← lift (signerSponsor index ae);
          r ← checkSponsor sponsor (Ok accountID);
          match r with
          | inl res => mret (inl res)
          | inr wasSignerSponsored =>
              withEntry (loadSponsorship sourceID) (λ sponsorship,
                future ← futureSponsor (Ok accountID) sponsorship;
                withHeader (λ header,
                  match wasSignerSponsored, future with
                  | true, Some newID => transferSigner header index sponsoredAcc sourceID newID
                  | true, None =>
                      updateSigner canRemoveSignerSponsorship removeSignerSponsorship header index sponsoredAcc sourceID
                  | false, Some newID =>
                      updateSigner canEstablishSignerSponsorship establishSignerSponsorship header index sponsoredAcc newID
                  | false, None => success
                  end))
          end
    end).

Definition doApply : Client Applied :=
  applied match op with
          | REVOKE_SPONSORSHIP_LEDGER_ENTRY ledgerKey => updateLedgerEntrySponsorship ledgerKey
          | REVOKE_SPONSORSHIP_SIGNER accountID signerKey => updateSignerSponsorship accountID signerKey
          end.

(** A key that no entry can have. *)
Definition impossibleKey (lk : LedgerKey) : bool :=
  match lk with
  | KEY_TRUSTLINE accountID asset =>
      negb (isAssetValid asset) || is_native asset ||
      match getIssuer asset with Ok issuer => bool_decide (issuer = accountID) | Throw _ => true end
  | KEY_OFFER _ offerID => offerID <=? 0
  | KEY_DATA _ name => (length name <? 1)%nat || negb (isString32Valid name)
  | KEY_ACCOUNT _ | KEY_CLAIMABLE_BALANCE _ => false
  end.

Definition doCheckValid (version : Z) : option OperationResult :=
  if version <=? 14 then None
  else
    match op with
    | REVOKE_SPONSORSHIP_LEDGER_ENTRY lk =>
        if impossibleKey lk then Some (result REVOKE_SPONSORSHIP_DOES_NOT_EXIST) else None
    | REVOKE_SPONSORSHIP_SIGNER _ _ => None
    end.
End op.
End RevokeSponsorship.
