(* ===== verification/Operations.v ===== *)
(** * Applying an operation

    [transactions/OperationFrame.cpp]: the virtual methods of an operation by its
    type, the check of its signatures and validity, and its application. *)

From S2P Require Import Prelude LedgerEntries GeneralizedEntries Accounts LedgerTxn LedgerTxnRefine LedgerClient Sponsorship TrustLines OperationTypes SignatureChecker OperationBase PaymentOps AccountOps OfferOps SponsorshipOps.

Inductive ThresholdLevel : Type := LOW | MEDIUM | HIGH.

Definition getThresholdLevel (op : Operation) : ThresholdLevel :=
  match op_body op with
  | ALLOW_TRUST _ | INFLATION | BUMP_SEQUENCE _ | CLAIM_CLAIMABLE_BALANCE _ => LOW
  | ACCOUNT_MERGE _ => HIGH
  | SET_OPTIONS so => if SetOptions.isHigh so then HIGH else MEDIUM
  | _ => MEDIUM
  end.

Definition isVersionSupported (op : Operation) (version : Z) : bool :=
  match op_body op with
  | INFLATION => Inflation.isVersionSupported version
  | BUMP_SEQUENCE _ => BumpSequence.isVersionSupported version
  | MANAGE_BUY_OFFER _ => ManageBuyOffer.isVersionSupported version
  | PATH_PAYMENT_STRICT_SEND _ => StrictSend.isVersionSupported version
  | CREATE_CLAIMABLE_BALANCE _ => CreateClaimableBalance.isVersionSupported version
  | CLAIM_CLAIMABLE_BALANCE _ => ClaimClaimableBalance.isVersionSupported version
  | BEGIN_SPONSORING_FUTURE_RESERVES _ => BeginSponsoring.isVersionSupported version
  | END_SPONSORING_FUTURE_RESERVES => EndSponsoring.isVersionSupported version
  | REVOKE_SPONSORSHIP _ => RevokeSponsorship.isVersionSupported version
  | _ => true
  end.

Definition getNeededThreshold (acc : AccountEntry) (level : ThresholdLevel) : Z :=
  match level with
  | LOW => threshold 1 acc
  | MEDIUM => threshold 2 acc
  | HIGH => threshold 3 acc
  end.

Section operation.
Context (tx : ParentTx) (fuel : nat).

Definition doCheckValid (op : Operation) (version : Z) : option OperationResult :=
  let sourceID := getSourceID tx op in
  match op_body op with
  | CREATE_ACCOUNT o => CreateAccount.doCheckValid sourceID o version
  | PAYMENT o => Payment.doCheckValid o version
  | PATH_PAYMENT_STRICT_RECEIVE o => StrictReceive.doCheckValid o version
  | PATH_PAYMENT_STRICT_SEND o => StrictSend.doCheckValid o version
  | MANAGE_SELL_OFFER o => ManageOffer.doCheckValid (ManageSellOffer.kind false o) version
  | CREATE_PASSIVE_SELL_OFFER o =>
      ManageOffer.doCheckValid (ManageSellOffer.kind true (ManageSellOffer.fromPassive o)) version
  | MANAGE_BUY_OFFER o => ManageOffer.doCheckValid (ManageBuyOffer.kind o) version
  | SET_OPTIONS o => SetOptions.doCheckValid sourceID o version
  | CHANGE_TRUST o => ChangeTrust.doCheckValid o version
  | ALLOW_TRUST o => AllowTrust.doCheckValid sourceID o version
  | ACCOUNT_MERGE destination => Merge.doCheckValid sourceID destination version
  | MANAGE_DATA o => ManageData.doCheckValid o version
  | BUMP_SEQUENCE bumpTo => BumpSequence.doCheckValid bumpTo version
  | CREATE_CLAIMABLE_BALANCE o => CreateClaimableBalance.doCheckValid o version
  | BEGIN_SPONSORING_FUTURE_RESERVES sponsoredID => BeginSponsoring.doCheckValid sourceID sponsoredID version
  | REVOKE_SPONSORSHIP o => RevokeSponsorship.doCheckValid o version
  | INFLATION | CLAIM_CLAIMABLE_BALANCE _ | END_SPONSORING_FUTURE_RESERVES => None
  end.

(** [index] is the position of the operation in its transaction. *)
Definition doApply (queryInflationWinners : Z → Z → Client (list Inflation.InflationWinner))
    (op : Operation) (index : Z) : Client Applied :=
  let sourceID := getSourceID tx op in
  match op_body op with
  | CREATE_ACCOUNT o => CreateAccount.doApply tx sourceID o
  | PAYMENT o => Payment.doApply tx sourceID fuel o
  | PATH_PAYMENT_STRICT_RECEIVE o => StrictReceive.doApply tx sourceID fuel o
  | PATH_PAYMENT_STRICT_SEND o => StrictSend.doApply tx sourceID fuel o
  | MANAGE_SELL_OFFER o => ManageOffer.doApply tx sourceID fuel (ManageSellOffer.kind false o)
  | CREATE_PASSIVE_SELL_OFFER o =>
      ManageOffer.doApply tx sourceID fuel (ManageSellOffer.kind true (ManageSellOffer.fromPassive o))
  | MANAGE_BUY_OFFER o => ManageOffer.doApply tx sourceID fuel (ManageBuyOffer.kind o)
  | SET_OPTIONS o => SetOptions.doApply tx sourceID o
  | CHANGE_TRUST o => ChangeTrust.doApply tx sourceID o
  | ALLOW_TRUST o => AllowTrust.doApply tx sourceID o
  | ACCOUNT_MERGE destination => Merge.doApply tx sourceID destination
  | INFLATION => Inflation.doApply queryInflationWinners
  | MANAGE_DATA o => ManageData.doApply tx sourceID o
  | BUMP_SEQUENCE bumpTo => BumpSequence.doApply tx sourceID bumpTo
  | CREATE_CLAIMABLE_BALANCE o => CreateClaimableBalance.doApply tx sourceID o index
  | CLAIM_CLAIMABLE_BALANCE balanceID => ClaimClaimableBalance.doApply tx sourceID balanceID
  | BEGIN_SPONSORING_FUTURE_RESERVES sponsoredID => BeginSponsoring.doApply sourceID sponsoredID
  | END_SPONSORING_FUTURE_RESERVES => EndSponsoring.doApply sourceID
  | REVOKE_SPONSORSHIP o => RevokeSponsorship.doApply sourceID o
  end.

(** ** Signatures and validity

    The marks of the signatures are passed along; [None] is a check that passes. *)

Context (sha256 : list Z → list Z) (verifySig : list Z → list Z → list Z → bool) (checker : SignatureChecker).

Definition checkSignature (op : Operation) (forApply : bool) (used : list bool) :
    Client (list bool * option OperationResult) :=
  withHeader (λ header,
    withEntry (loadAccount_tx tx header (getSourceID tx op)) (λ sourceAccount,
      match sourceAccount with
      | Some _ =>
          le ← current sourceAccount;
          acc ← lift (data_account le);
          let neededThreshold := getNeededThreshold acc (getThresholdLevel op) in
          let '(ok, used) := checkAccountSignature sha256 verifySig checker acc neededThreshold used in
          mret (used, if ok then None else Some opBAD_AUTH)
      | None =>
          match op_sourceAccount op with
          | Some source =>
              if forApply then mret (used, Some opNO_ACCOUNT)
              else
                let '(ok, used) := checkSignatureNoAccount sha256 verifySig checker (toAccountID source) used in
                mret (used, if ok then None else Some opBAD_AUTH)
          | None => mret (used, Some opNO_ACCOUNT)
          end
      end)).

(** Whether the source account exists, where its signatures are not checked. *)
Definition checkSourceAccount (op : Operation) : Client (option OperationResult) :=
  there_ ← withHeader (λ header, there (loadAccount_tx tx header (getSourceID tx op)));
  mret (if (there_ : bool) then None else Some opNO_ACCOUNT).

Definition checkValid (op : Operation) (forApply : bool) (used : list bool) :
    Client (list bool * option OperationResult) :=
  nested (
    r ← (version ← ledgerVersion;
         if negb (isVersionSupported op version) then mret (used, Some opNOT_SUPPORTED)
         else
           '(used, r) ← (if negb forApply || (version <? 10) then checkSignature op forApply used
                         else r ← checkSourceAccount op; mret (used, r));
           mret (used, match r with Some res => Some res | None => doCheckValid op version end));
    mret (false, r)).

Definition apply (queryInflationWinners : Z → Z → Client (list Inflation.InflationWinner))
    (op : Operation) (index : Z) (used : list bool) : Client (list bool * Applied) :=
  '(used, r) ← checkValid op true used;
  match r with
  | Some res => mret (used, (false, res))
  | None => a ← doApply queryInflationWinners op index; mret (used, a)
  end.
End operation.
