(* ===== verification/Transactions.v ===== *)
(** * Transactions

    [transactions/TransactionFrame.cpp] and [transactions/FeeBumpTransactionFrame.cpp]:
    what a transaction pays, when it is valid, and how it is applied.  A frame keeps
    the result it leaves, and its signature checker marks the signatures it has
    used; both are passed along.  Metrics, logging and the metadata are left out. *)

From S2P Require Import Prelude Numeric LedgerEntries GeneralizedEntries Accounts LedgerTxn LedgerTxnRefine LedgerClient Sponsorship.
From S2P Require Import OperationTypes SignatureChecker OperationBase AccountOps Operations.

(** ** Envelopes *)

Inductive Memo : Type :=
| MEMO_NONE
| MEMO_TEXT (text : list Z)
| MEMO_ID (id : Z)
| MEMO_HASH (hash : list Z)
| MEMO_RETURN (retHash : list Z).

Record TimeBounds : Type := mkTimeBounds { tb_minTime : Z; tb_maxTime : Z }.

Record TransactionV0 : Type := mkTransactionV0 {
  v0_sourceAccountEd25519 : list Z;
  v0_fee : Z;
  v0_seqNum : Z;
  v0_timeBounds : option TimeBounds;
  v0_memo : Memo;
  v0_operations : list Operation
}.

Record Transaction : Type := mkTransactionV1 {
  v1_sourceAccount : MuxedAccount;
  v1_fee : Z;
  v1_seqNum : Z;
  v1_timeBounds : option TimeBounds;
  v1_memo : Memo;
  v1_operations : list Operation
}.

Record FeeBumpTransaction : Type := mkFeeBumpTransaction {
  fbt_feeSource : MuxedAccount;
  fbt_fee : Z;
  fbt_innerTx : Transaction * list DecoratedSignature
}.

Inductive TransactionEnvelope : Type :=
| ENVELOPE_TYPE_TX_V0 (tx : TransactionV0) (signatures : list DecoratedSignature)
| ENVELOPE_TYPE_TX (tx : Transaction) (signatures : list DecoratedSignature)
| ENVELOPE_TYPE_TX_FEE_BUMP (tx : FeeBumpTransaction) (signatures : list DecoratedSignature).

(** [hasMuxedAccount]: the accounts of an operation that can be multiplexed. *)
Definition isMuxed (m : MuxedAccount) : bool :=
  match m with KEY_TYPE_MUXED_ED25519 _ _ => true | KEY_TYPE_ED25519 _ => false end.

Definition op_hasMuxedAccount (op : Operation) : bool :=
  match op_sourceAccount op with Some m => isMuxed m | None => false end ||
  match op_body op with
  | PAYMENT o => isMuxed (pay_destination o)
  | PATH_PAYMENT_STRICT_RECEIVE o => isMuxed (ppr_destination o)
  | PATH_PAYMENT_STRICT_SEND o => isMuxed (pps_destination o)
  | ACCOUNT_MERGE destination => isMuxed destination
  | _ => false
  end.

Definition tx_hasMuxedAccount (tx : Transaction) : bool :=
  isMuxed (v1_sourceAccount tx) || existsb op_hasMuxedAccount (v1_operations tx).

Definition hasMuxedAccount (e : TransactionEnvelope) : bool :=
  match e with
  | ENVELOPE_TYPE_TX_V0 tx _ => existsb op_hasMuxedAccount (v0_operations tx)
  | ENVELOPE_TYPE_TX tx _ => tx_hasMuxedAccount tx
  | ENVELOPE_TYPE_TX_FEE_BUMP tx _ => isMuxed (fbt_feeSource tx) || tx_hasMuxedAccount (fbt_innerTx tx).1
  end.

(** [txbridge::convertForV13]. *)
Definition convertForV13 (input : TransactionEnvelope) : TransactionEnvelope :=
  match input with
  | ENVELOPE_TYPE_TX_V0 tx signatures =>
      ENVELOPE_TYPE_TX (mkTransactionV1 (KEY_TYPE_ED25519 (v0_sourceAccountEd25519 tx)) (v0_fee tx) (v0_seqNum tx)
                          (v0_timeBounds tx) (v0_memo tx) (v0_operations tx)) signatures
  | _ => input
  end.

(** ** Results *)

Inductive TransactionResultCode : Type :=
| txFEE_BUMP_INNER_SUCCESS
| txSUCCESS
| txFAILED
| txTOO_EARLY
| txTOO_LATE
| txMISSING_OPERATION
| txBAD_SEQ
| txBAD_AUTH
| txINSUFFICIENT_BALANCE
| txNO_ACCOUNT
| txINSUFFICIENT_FEE
| txBAD_AUTH_EXTRA
| txINTERNAL_ERROR
| txNOT_SUPPORTED
| txFEE_BUMP_INNER_FAILED
| txBAD_SPONSORSHIP.

(** The codes whose arm holds the results of the operations. *)
Definition has_results (c : TransactionResultCode) : bool :=
  match c with txSUCCESS | txFAILED => true | _ => false end.

(** The result of a transaction that is not a fee bump, which is also what a fee
    bump reports of its inner transaction. *)
Record TransactionResult : Type := mkTransactionResult {
  tr_feeCharged : Z;
  tr_code : TransactionResultCode;
  tr_results : list OperationResult
}.

(** A change to a code of another arm makes that arm anew. *)
Definition setCode (c : TransactionResultCode) (r : TransactionResult) : TransactionResult :=
  mkTransactionResult (tr_feeCharged r) c (if has_results c && has_results (tr_code r) then tr_results r else []).

Definition setResult (i : nat) (res : OperationResult) (r : TransactionResult) : TransactionResult :=
  mkTransactionResult (tr_feeCharged r) (tr_code r) (<[i := res]> (tr_results r)).

Definition set_feeCharged (v : Z) (r : TransactionResult) : TransactionResult :=
  mkTransactionResult v (tr_code r) (tr_results r).

(** The result of a fee bump; [None] is a pair as it is made, or no pair. *)
Record FeeBumpResult : Type := mkFeeBumpResult {
  fbr_feeCharged : Z;
  fbr_code : TransactionResultCode;
  fbr_innerResultPair : option (list Z * TransactionResult)
}.

(** What a frame keeps: its result and, in a fee bump, that of the inner frame. *)
Inductive FrameResult : Type :=
| TxResult (r : TransactionResult)
| BumpResult (outer : FeeBumpResult) (inner : TransactionResult).

(** [OperationFrame::resetResultSuccess]: the first case of the result of an
    operation, with its fields as they are made. *)
Definition zeroID : list Z := replicate 32 0.
Definition newPayment : SimplePaymentResult := mkSimplePaymentResult zeroID ASSET_TYPE_NATIVE 0.
Definition newOfferEffect : ManageOfferEffect :=
  MANAGE_OFFER_CREATED (mkOffer zeroID 0 ASSET_TYPE_NATIVE ASSET_TYPE_NATIVE 0 (mkPrice 0 0) 0).

Definition resetResultSuccess (op : Operation) : OperationResult :=
  opINNER match op_body op with
  | CREATE_ACCOUNT _ => createAccountResult CREATE_ACCOUNT_SUCCESS
  | PAYMENT _ => paymentResult PAYMENT_SUCCESS
  | PATH_PAYMENT_STRICT_RECEIVE _ => pathPaymentStrictReceiveResult (PATH_PAYMENT_STRICT_RECEIVE_SUCCESS [] newPayment)
  | MANAGE_SELL_OFFER _ => manageSellOfferResult (MANAGE_SELL_OFFER_SUCCESS [] newOfferEffect)
  | CREATE_PASSIVE_SELL_OFFER _ => createPassiveSellOfferResult (MANAGE_SELL_OFFER_SUCCESS [] newOfferEffect)
  | SET_OPTIONS _ => setOptionsResult SET_OPTIONS_SUCCESS
  | CHANGE_TRUST _ => changeTrustResult CHANGE_TRUST_SUCCESS
  | ALLOW_TRUST _ => allowTrustResult ALLOW_TRUST_SUCCESS
  | ACCOUNT_MERGE _ => accountMergeResult (ACCOUNT_MERGE_SUCCESS 0)
  | INFLATION => inflationResult (INFLATION_SUCCESS [])
  | MANAGE_DATA _ => manageDataResult MANAGE_DATA_SUCCESS
  | BUMP_SEQUENCE _ => bumpSeqResult BUMP_SEQUENCE_SUCCESS
  | MANAGE_BUY_OFFER _ => manageBuyOfferResult (MANAGE_BUY_OFFER_SUCCESS [] newOfferEffect)
  | PATH_PAYMENT_STRICT_SEND _ => pathPaymentStrictSendResult (PATH_PAYMENT_STRICT_SEND_SUCCESS [] newPayment)
  | CREATE_CLAIMABLE_BALANCE _ => createClaimableBalanceResult (CREATE_CLAIMABLE_BALANCE_SUCCESS zeroID)
  | CLAIM_CLAIMABLE_BALANCE _ => claimClaimableBalanceResult CLAIM_CLAIMABLE_BALANCE_SUCCESS
  | BEGIN_SPONSORING_FUTURE_RESERVES _ =>
      beginSponsoringFutureReservesResult BEGIN_SPONSORING_FUTURE_RESERVES_SUCCESS
  | END_SPONSORING_FUTURE_RESERVES => endSponsoringFutureReservesResult END_SPONSORING_FUTURE_RESERVES_SUCCESS
  | REVOKE_SPONSORSHIP _ => revokeSponsorshipResult REVOKE_SPONSORSHIP_SUCCESS
  end.

(** ** Frames *)

(** [TransactionFrameBase::makeTransactionFromWire]: the frame of an envelope, a fee
    bump with the frame of its inner transaction. *)
Inductive TransactionFrame : Type :=
| FrameV0 (tx : TransactionV0) (signatures : list DecoratedSignature)
| FrameV1 (tx : Transaction) (signatures : list DecoratedSignature).

Record FeeBumpTransactionFrame : Type := mkFeeBumpFrame {
  fb_feeSource : MuxedAccount;
  fb_fee : Z;
  fb_signatures : list DecoratedSignature;
  mInnerTx : TransactionFrame
}.

Definition makeTransactionFromWire (env : TransactionEnvelope) : TransactionFrame + FeeBumpTransactionFrame :=
  match env with
  | ENVELOPE_TYPE_TX_V0 tx signatures => inl (FrameV0 tx signatures)
  | ENVELOPE_TYPE_TX tx signatures => inl (FrameV1 tx signatures)
  | ENVELOPE_TYPE_TX_FEE_BUMP tx signatures =>
      inr (mkFeeBumpFrame (fbt_feeSource tx) (fbt_fee tx) signatures
             (FrameV1 (fbt_innerTx tx).1 (fbt_innerTx tx).2))
  end.

Definition mEnvelope (f : TransactionFrame) : TransactionEnvelope :=
  match f with
  | FrameV0 tx signatures => ENVELOPE_TYPE_TX_V0 tx signatures
  | FrameV1 tx signatures => ENVELOPE_TYPE_TX tx signatures
  end.

Section getters.
Context (f : TransactionFrame).

Definition isV0 : bool := match f with FrameV0 _ _ => true | FrameV1 _ _ => false end.
Definition getSeqNum : Z := match f with FrameV0 tx _ => v0_seqNum tx | FrameV1 tx _ => v1_seqNum tx end.
Definition getSourceID : AccountID :=
  match f with FrameV0 tx _ => v0_sourceAccountEd25519 tx | FrameV1 tx _ => toAccountID (v1_sourceAccount tx) end.
Definition getOperations : list Operation :=
  match f with FrameV0 tx _ => v0_operations tx | FrameV1 tx _ => v1_operations tx end.
Definition getNumOperations : Z := Z.of_nat (length getOperations).
Definition getFeeBid : Z := match f with FrameV0 tx _ => v0_fee tx | FrameV1 tx _ => v1_fee tx end.
Definition getTimeBounds : option TimeBounds :=
  match f with FrameV0 tx _ => v0_timeBounds tx | FrameV1 tx _ => v1_timeBounds tx end.
Definition getSignatures : list DecoratedSignature :=
  match f with FrameV0 _ signatures => signatures | FrameV1 _ signatures => signatures end.

Definition getMinFee (header : LedgerHeader) : Z := i64 (lh_baseFee header * Z.max 1 getNumOperations).

Definition getFee (header : LedgerHeader) (baseFee : Z) (applying : bool) : Z :=
  if (11 <=? lh_ledgerVersion header) || negb applying then
    let adjustedFee := i64 (baseFee * Z.max 1 getNumOperations) in
    if applying then Z.min getFeeBid adjustedFee else adjustedFee
  else getFeeBid.

Definition resetResults (header : LedgerHeader) (baseFee : Z) (applying : bool) : TransactionResult :=
  mkTransactionResult (getFee header baseFee applying) txSUCCESS (resetResultSuccess <$> getOperations).

Definition isTooEarly (header : LedgerHeader) (lowerBoundCloseTimeOffset : Z) : bool :=
  match getTimeBounds with
  | Some tb =>
      negb (tb_minTime tb =? 0) &&
      (u64 (sv_closeTime (lh_scpValue header) + lowerBoundCloseTimeOffset) <? tb_minTime tb)
  | None => false
  end.

Definition isTooLate (header : LedgerHeader) (upperBoundCloseTimeOffset : Z) : bool :=
  match getTimeBounds with
  | Some tb =>
      negb (tb_maxTime tb =? 0) &&
      (tb_maxTime tb <? u64 (sv_closeTime (lh_scpValue header) + upperBoundCloseTimeOffset))
  | None => false
  end.

Definition isBadSeq (seqNum : Z) : bool := (seqNum =? INT64_MAX) || negb (seqNum + 1 =? getSeqNum).
End getters.

(** What a transaction is worth after its first checks; the order is that of the
    enumeration. *)
Inductive ValidationType : Type := kInvalid | kInvalidUpdateSeqNum | kInvalidPostAuth | kMaybeValid.

Definition atLeast (least cv : ValidationType) : bool :=
  let rank v := match v with kInvalid => 0 | kInvalidUpdateSeqNum => 1 | kInvalidPostAuth => 2 | kMaybeValid => 3 end in
  rank least <=? rank cv.

Definition isMaybeValid (cv : ValidationType) : bool := match cv with kMaybeValid => true | _ => false end.

(** [printErrorAndAbort] where an exception is caught. *)
Definition orAbort {A} (c : Client A) : Client A :=
  Attempt c (λ o, match o with Some a => mret a | None => Raise AssertFailure end).

(** [addBalance] of [util/types.h] on the balance of an account: when it fails, the
    balance stays. *)
Definition takeFee (fee : Z) (acc : AccountEntry) : res AccountEntry :=
  o ← addBalance (acc_balance acc) (- fee) INT64_MAX;
  mret (match o with Some balance => set_acc_balance balance acc | None => acc end).

Definition set_feePool (v : Z) (h : LedgerHeader) : LedgerHeader :=
  mkLedgerHeader (lh_ledgerVersion h) (lh_previousLedgerHash h) (lh_scpValue h) (lh_txSetResultHash h)
    (lh_bucketListHash h) (lh_ledgerSeq h) (lh_totalCoins h) v (lh_inflationSeq h)
    (lh_idPool h) (lh_baseFee h) (lh_baseReserve h) (lh_maxTxSetSize h) (lh_skipList h).

Definition currentAccount (h : Handle) : Client AccountEntry := le ← current h; lift (data_account le).

(** The fee goes from the account [acc], held by a handle, to the fee pool.  What is
    charged is returned. *)
Definition payFee (header : Z) (account : Handle) (acc : AccountEntry) (feeCharged : Z) : Client Z :=
  if 0 <? feeCharged then
    let fee := Z.min (acc_balance acc) feeCharged in
    acc' ← lift (takeFee fee acc);
    change account (on_account (λ _, acc'));;
    lh ← ask (CurrentHeader header);
    ask (WriteHeader header (set_feePool (i64 (lh_feePool lh + fee)) lh));;
    mret fee
  else mret feeCharged.

(** A transaction as the ledger manager knows it: clients of the ledger that charge
    its fee and apply it to the result its frame keeps. *)
Record TransactionFrameBase : Type := mkTransaction {
  tx_contentsHash : list Z;
  tx_processFeeSeqNum : Z → Client FrameResult;
  tx_apply : FrameResult → Client FrameResult
}.

(** ** [TransactionFrame] *)

(** [hashContents] is the SHA-256 of the transaction as it is signed;
    [hash_order] is the order in which a [std::unordered_set] is walked;
    [invariantsHold] is what [InvariantManager] finds of an operation and what it
    changes. *)
Section transaction.
Context (sha256 : list Z → list Z) (verifySig : list Z → list Z → list Z → bool).
Context (hashContents : TransactionEnvelope → list Z) (hash_order : list AccountID → list AccountID).
Context (loadCached : TransactionFrame → AccountID → Client Handle) (operationHash : MuxedAccount → Z → Z → list Z).
Context (queryInflationWinners : Z → Z → Client (list Inflation.InflationWinner)).
Context (invariantsHold : Operation → OperationResult → LedgerTxnDelta → bool).
Context (fuel : nat).

Section frame.
Context (f : TransactionFrame).

Definition parentTx : ParentTx := mkParentTx (getSourceID f) (getSeqNum f) (loadCached f) operationHash.

Definition getContentsHash : list Z := hashContents (mEnvelope f).

Definition makeChecker (version : Z) : SignatureChecker :=
  mkSignatureChecker version getContentsHash (getSignatures f).

(** Before protocol 8 the account is also put in the cache. *)
Definition loadSourceAccount (header : Z) : Client Handle := loadAccount_tx parentTx header (getSourceID f).

(** [None] when the checks pass. *)
Definition commonValidPreSeqNum (chargeFee : bool) (lowerBoundCloseTimeOffset upperBoundCloseTimeOffset : Z) :
    Client (option TransactionResultCode) :=
  withHeader (λ header,
    lh ← ask (CurrentHeader header);
    let version := lh_ledgerVersion lh in
    if ((version <? 13) && (negb (isV0 f) || hasMuxedAccount (mEnvelope f))) || ((13 <=? version) && isV0 f)
    then mret (Some txNOT_SUPPORTED)
    else if getNumOperations f =? 0 then mret (Some txMISSING_OPERATION)
    else if isTooEarly f lh lowerBoundCloseTimeOffset then mret (Some txTOO_EARLY)
    else if isTooLate f lh upperBoundCloseTimeOffset then mret (Some txTOO_LATE)
    else if chargeFee && (getFeeBid f <? getMinFee f lh) then mret (Some txINSUFFICIENT_FEE)
    else if negb chargeFee && (getFeeBid f <? 0) then mret (Some txINSUFFICIENT_FEE)
    else
      loaded ← there (loadSourceAccount header);
      mret (if (loaded : bool) then None else Some txNO_ACCOUNT)).

Definition processSeqNum : Client unit :=
  withHeader (λ header,
    lh ← ask (CurrentHeader header);
    if 10 <=? lh_ledgerVersion lh then
      withEntry (loadSourceAccount header) (λ sourceAccount,
        acc ← currentAccount sourceAccount;
        if getSeqNum f <? acc_seqNum acc then throw_runtime "unexpected sequence number"
        else change sourceAccount (on_account (set_acc_seqNum (getSeqNum f))))
    else mret tt).

(** *** One-time signers *)

Definition preAuthTxKey : SignerKey := SIGNER_KEY_TYPE_PRE_AUTH_TX getContentsHash.

Definition removeAccountSigner (accountID : AccountID) (signerKey : SignerKey) : Client unit :=
  nested (
    withEntry (loadAccount accountID) (λ account,
      match account with
      | None => mret (false, tt)
      | Some _ =>
          withHeader (λ header,
            acc ← currentAccount account;
            let '(n, found) := findSignerByKey signerKey (acc_signers acc) in
            if (found : bool) then
              removeSignerWithPossibleSponsorship header n account;;
              mret (true, tt)
            else mret (false, tt))
      end)).

Fixpoint removeAccountSigners (accounts : list AccountID) : Client unit :=
  match accounts with
  | [] => mret tt
  | accountID :: accounts => removeAccountSigner accountID preAuthTxKey;; removeAccountSigners accounts
  end.

Definition removeOneTimeSignerFromAllSourceAccounts : Client unit :=
  version ← ledgerVersion;
  if version =? 7 then mret tt
  else
    removeAccountSigners
      (hash_order (remove_dups (getSourceID f :: (OperationBase.getSourceID parentTx <$> getOperations f)))).

(** *** Signatures *)

(** The operations from the [i]-th on; a failure does not stop the loop. *)
Fixpoint checkSignatures (checker : SignatureChecker) (ops : list Operation) (i : nat) (allOpsValid : bool)
    (used : list bool) (result : TransactionResult) : Client (bool * list bool * TransactionResult) :=
  match ops with
  | [] => mret (allOpsValid, used, result)
  | op :: ops =>
      '(used, r) ← Operations.checkSignature parentTx sha256 verifySig checker op false used;
      match r with
      | Some res => checkSignatures checker ops (S i) false used (setResult i res result)
      | None => checkSignatures checker ops (S i) allOpsValid used result
      end
  end.

Definition processSignatures (cv : ValidationType) (checker : SignatureChecker) (used : list bool)
    (result : TransactionResult) : Client (bool * list bool * TransactionResult) :=
  let maybeValid := isMaybeValid cv in
  version ← ledgerVersion;
  if version <? 10 then mret (maybeValid, used, result)
  else if (13 <=? version) && negb maybeValid then
    removeOneTimeSignerFromAllSourceAccounts;;
    mret (false, used, result)
  else if (version <? 13) && negb (atLeast kInvalidPostAuth cv) then mret (false, used, result)
  else
    '(allOpsValid, used, result) ←
      nested (r ← checkSignatures checker (getOperations f) 0 true used result; mret (false, r));
    removeOneTimeSignerFromAllSourceAccounts;;
    mret (if negb allOpsValid then (false, used, setCode txFAILED result)
          else if negb (checkAllSignaturesUsed checker used) then (false, used, setCode txBAD_AUTH_EXTRA result)
          else (maybeValid, used, result)).

(** *** Validity *)

(** The last checks, of the signatures of the source account and its balance.  In
    protocols up to 8, and before the transaction is applied, the fee has yet to be
    paid. *)
Definition checkSource (checker : SignatureChecker) (applying chargeFee : bool) (header : Z) (sourceAccount : Handle)
    (used : list bool) : Client (list bool * (ValidationType * option TransactionResultCode)) :=
  acc ← currentAccount sourceAccount;
  let '(ok, used) := checkAccountSignature sha256 verifySig checker acc (threshold 1 acc) used in
  if negb ok then mret (used, (kInvalidUpdateSeqNum, Some txBAD_AUTH))
  else
    lh ← ask (CurrentHeader header);
    let feeToPay := if applying && (8 <? lh_ledgerVersion lh) then 0 else u32 (getFeeBid f) in
    poor ← (if chargeFee : bool
            then available ← getAvailableBalance_ltx header sourceAccount; mret (available <? feeToPay)
            else mret false);
    mret (used, if (poor : bool) then (kInvalidPostAuth, Some txINSUFFICIENT_BALANCE) else (kMaybeValid, None)).

(** With the code that is set when the transaction is not valid. *)
Definition commonValid (checker : SignatureChecker) (current_ : Z) (applying chargeFee : bool)
    (lowerBoundCloseTimeOffset upperBoundCloseTimeOffset : Z) (used : list bool) :
    Client (list bool * (ValidationType * option TransactionResultCode)) :=
  nested (
    r ← (if applying && (negb (lowerBoundCloseTimeOffset =? 0) || negb (upperBoundCloseTimeOffset =? 0))
         then Raise (InvalidArgument "Applying transaction with non-current closeTime")
         else
           pre ← commonValidPreSeqNum chargeFee lowerBoundCloseTimeOffset upperBoundCloseTimeOffset;
           match pre with
           | Some code => mret (used, (kInvalid, Some code))
           | None =>
               withHeader (λ header,
                 withEntry (loadSourceAccount header) (λ sourceAccount,
                   lh ← ask (CurrentHeader header);
                   bad ← (if (10 <=? lh_ledgerVersion lh) || negb applying then
                            seq ← (if current_ =? 0 then acc ← currentAccount sourceAccount; mret (acc_seqNum acc)
                                   else mret current_);
                            mret (isBadSeq f seq)
                          else mret false);
                   if (bad : bool) then mret (used, (kInvalid, Some txBAD_SEQ))
                   else checkSource checker applying chargeFee header sourceAccount used))
           end);
    mret (false, r)).

Definition withCode (code : option TransactionResultCode) (result : TransactionResult) : TransactionResult :=
  match code with Some c => setCode c result | None => result end.

Fixpoint checkOperations (checker : SignatureChecker) (ops : list Operation) (i : nat) (used : list bool)
    (result : TransactionResult) : Client (bool * list bool * TransactionResult) :=
  match ops with
  | [] => mret (true, used, result)
  | op :: ops =>
      '(used, r) ← Operations.checkValid parentTx sha256 verifySig checker op false used;
      match r with
      | Some res => mret (false, used, setCode txFAILED (setResult i res result))
      | None => checkOperations checker ops (S i) used (setResult i (resetResultSuccess op) result)
      end
  end.

Definition checkValid (current_ : Z) (chargeFee : bool) (lowerBoundCloseTimeOffset upperBoundCloseTimeOffset : Z) :
    Client (bool * TransactionResult) :=
  nested (
    minBaseFee ← (if chargeFee : bool then lh ← readHeader; mret (lh_baseFee lh) else mret 0);
    lh ← readHeader;
    let result := resetResults f lh minBaseFee false in
    version ← ledgerVersion;
    let checker := makeChecker version in
    '(used, (cv, code)) ← commonValid checker current_ false chargeFee lowerBoundCloseTimeOffset
                            upperBoundCloseTimeOffset (newMarks checker);
    let result := withCode code result in
    r ← (if isMaybeValid cv then
           '(ok, used, result) ← checkOperations checker (getOperations f) 0 used result;
           mret (if negb ok then (false, result)
                 else if negb (checkAllSignaturesUsed checker used) then (false, setCode txBAD_AUTH_EXTRA result)
                 else (true, result))
         else mret (false, result));
    mret (false, r)).

(** *** Fees *)

Definition processFeeSeqNum (baseFee : Z) : Client TransactionResult :=
  withHeader (λ header,
    lh ← ask (CurrentHeader header);
    let result := resetResults f lh baseFee true in
    withEntry (loadSourceAccount header) (λ sourceAccount,
      match sourceAccount with
      | None => throw_runtime "Unexpected database state"
      | Some _ =>
          acc ← currentAccount sourceAccount;
          fee ← payFee header sourceAccount acc (tr_feeCharged result);
          lh ← ask (CurrentHeader header);
          (if lh_ledgerVersion lh <=? 9 then
             acc ← currentAccount sourceAccount;
             if negb (acc_seqNum acc + 1 =? getSeqNum f) then throw_runtime "Unexpected account state"
             else change sourceAccount (on_account (set_acc_seqNum (getSeqNum f)))
           else mret tt);;
          mret (set_feeCharged fee result)
      end)).

(** *** Applying *)

Definition isSponsorshipKey (k : GeneralizedLedgerKey) : bool :=
  match k with GLedgerKey _ => false | GSponsorshipKey _ | GSponsorshipCounterKey _ => true end.

(** Whether a level has left a sponsorship, or ended one. *)
Definition touchesSponsorship (delta : LedgerTxnDelta) : bool :=
  existsb (λ kv, isSponsorshipKey kv.1) (map_to_list (delta_entry delta)).

(** One operation on a level of its own. *)
Definition applyOperation (checker : SignatureChecker) (version : Z) (op : Operation) (i : nat) (success : bool)
    (used : list bool) (result : TransactionResult) : Client (bool * list bool * TransactionResult) :=
  nested (
    '(used, (txRes, res)) ←
      Operations.apply parentTx fuel sha256 verifySig checker queryInflationWinners op (Z.of_nat i) used;
    let success := success && txRes in
    (if success : bool then
       delta ← ask GetDelta;
       if invariantsHold op res delta then mret tt else Raise AssertFailure
     else mret tt);;
    if txRes || (version <? 14) then
      _ ← ask GetChanges;
      mret (true, (success, used, setResult i res result))
    else mret (false, (success, used, setResult i res result))).

Fixpoint applyAll (checker : SignatureChecker) (version : Z) (ops : list Operation) (i : nat) (success : bool)
    (used : list bool) (result : TransactionResult) : Client (bool * list bool * TransactionResult) :=
  match ops with
  | [] => mret (success, used, result)
  | op :: ops =>
      '(success, used, result) ← applyOperation checker version op i success used result;
      applyAll checker version ops (S i) success used result
  end.

(** What follows when every operation has succeeded; the level is committed, or
    not. *)
Definition finishOperations (checker : SignatureChecker) (version : Z) (used : list bool) (result : TransactionResult) :
    Client (bool * (bool * TransactionResult)) :=
  if version <? 10 then
    if negb (checkAllSignaturesUsed checker used) then mret (false, (false, setCode txBAD_AUTH_EXTRA result))
    else
      nested (removeOneTimeSignerFromAllSourceAccounts;; _ ← ask GetChanges; mret (true, tt));;
      mret (true, (true, result))
  else if 14 <=? version then
    delta ← ask GetDelta;
    mret (if touchesSponsorship delta then (false, (false, setCode txBAD_SPONSORSHIP result)) else (true, (true, result)))
  else mret (true, (true, result)).

Definition applyOperations (checker : SignatureChecker) (used : list bool) (result : TransactionResult) :
    Client (bool * TransactionResult) :=
  Attempt
    (nested (
       version ← ledgerVersion;
       '(success, used, result) ← applyAll checker version (getOperations f) 0 true used result;
       if (success : bool) then finishOperations checker version used result
       else mret (false, (false, setCode txFAILED result))))
    (λ o, mret (match o with Some r => r | None => (false, setCode txINTERNAL_ERROR result) end)).

(** The sequence number and the signatures, before the operations. *)
Definition beforeOperations (checker : SignatureChecker) (chargeFee : bool) (result : TransactionResult) :
    Client (bool * list bool * TransactionResult) :=
  nested (
    '(used, (cv, code)) ← commonValid checker 0 true chargeFee 0 0 (newMarks checker);
    let result := withCode code result in
    (if atLeast kInvalidUpdateSeqNum cv then processSeqNum else mret tt);;
    '(signaturesValid, used, result) ← processSignatures cv checker used result;
    _ ← ask GetChanges;
    mret (true, (signaturesValid && isMaybeValid cv, used, result))).

Definition apply (chargeFee : bool) (result : TransactionResult) : Client (bool * TransactionResult) :=
  orAbort (
    version ← ledgerVersion;
    let checker := makeChecker version in
    '(valid, used, result) ← beforeOperations checker chargeFee result;
    if (valid : bool) then orAbort (applyOperations checker used result) else mret (false, result)).
End frame.

(** ** [FeeBumpTransactionFrame] *)

Section feeBump.
Context (hashFeeBump : FeeBumpTransactionFrame → list Z) (b : FeeBumpTransactionFrame).

Definition fb_getNumOperations : Z := u32 (getNumOperations (mInnerTx b) + 1).
Definition fb_getFeeSourceID : AccountID := toAccountID (fb_feeSource b).
Definition fb_getMinFee (header : LedgerHeader) : Z := i64 (lh_baseFee header * Z.max 1 fb_getNumOperations).
Definition fb_getFee (header : LedgerHeader) (baseFee : Z) (applying : bool) : Z :=
  let adjustedFee := i64 (baseFee * Z.max 1 fb_getNumOperations) in
  if applying then Z.min (fb_fee b) adjustedFee else adjustedFee.

Definition fb_setCode (c : TransactionResultCode) (r : FeeBumpResult) : FeeBumpResult := mkFeeBumpResult (fbr_feeCharged r) c None.

Definition fb_resetResults (header : LedgerHeader) (baseFee : Z) (applying : bool) : FeeBumpResult * TransactionResult :=
  (mkFeeBumpResult (fb_getFee header baseFee applying) txFEE_BUMP_INNER_SUCCESS None,
   resetResults (mInnerTx b) header baseFee applying).

(** The results of the operations are copied where the code has them. *)
Definition updateResult (outer : FeeBumpResult) (inner : TransactionResult) : FeeBumpResult :=
  mkFeeBumpResult (fbr_feeCharged outer)
    (match tr_code inner with txSUCCESS => txFEE_BUMP_INNER_SUCCESS | _ => txFEE_BUMP_INNER_FAILED end)
    (Some (getContentsHash (mInnerTx b),
           mkTransactionResult (tr_feeCharged inner) (tr_code inner)
             (if has_results (tr_code inner) then tr_results inner else []))).

Definition fb_processFeeSeqNum (baseFee : Z) : Client (FeeBumpResult * TransactionResult) :=
  lh ← readHeader;
  let '(outer, inner) := fb_resetResults lh baseFee true in
  withEntry (loadAccount fb_getFeeSourceID) (λ feeSource,
    match feeSource with
    | None => throw_runtime "Unexpected database state"
    | Some _ =>
        acc ← currentAccount feeSource;
        withHeader (λ header,
          fee ← payFee header feeSource acc (fbr_feeCharged outer);
          mret (mkFeeBumpResult fee (fbr_code outer) (fbr_innerResultPair outer), inner))
    end).

Definition removeOneTimeSignerKeyFromFeeSource : Client unit :=
  withEntry (loadAccount fb_getFeeSourceID) (λ account,
    match account with
    | None => mret tt
    | Some _ =>
        withHeader (λ header,
          acc ← currentAccount account;
          let '(n, found) := findSignerByKey (SIGNER_KEY_TYPE_PRE_AUTH_TX (hashFeeBump b)) (acc_signers acc) in
          if (found : bool) then removeSignerWithPossibleSponsorship header n account else mret tt)
    end).

Definition fb_apply (outer : FeeBumpResult) (inner : TransactionResult) :
    Client (bool * (FeeBumpResult * TransactionResult)) :=
  orAbort (nested (removeOneTimeSignerKeyFromFeeSource;; _ ← ask GetChanges; mret (true, tt)));;
  orAbort (
    '(res, inner) ← apply (mInnerTx b) false inner;
    mret (res, (updateResult outer inner, inner))).

(** *** Validity *)

(** A fee bump bids at least as much for each operation as its inner transaction. *)
Definition fb_commonValidPreSeqNum (outer : FeeBumpResult) : Client (bool * FeeBumpResult) :=
  withHeader (λ header,
    lh ← ask (CurrentHeader header);
    if lh_ledgerVersion lh <? 13 then mret (false, fb_setCode txNOT_SUPPORTED outer)
    else if fb_fee b <? fb_getMinFee lh then mret (false, fb_setCode txINSUFFICIENT_FEE outer)
    else
      v1 ← lift (bigMultiply_i64 (fb_fee b) (getMinFee (mInnerTx b) lh));
      v2 ← lift (bigMultiply_i64 (getFeeBid (mInnerTx b)) (fb_getMinFee lh));
      if v1 <? v2 then
        o ← lift (bigDivide128_i64_nothrow v2 (getMinFee (mInnerTx b) lh) ROUND_UP);
        mret (false, mkFeeBumpResult (default INT64_MAX o) txINSUFFICIENT_FEE None)
      else
        loaded ← there (loadAccount fb_getFeeSourceID);
        mret (if (loaded : bool) then (true, outer) else (false, fb_setCode txNO_ACCOUNT outer))).

(** [kFullyValid] is [true]. *)
Definition fb_commonValid (checker : SignatureChecker) (applying : bool) (used : list bool) (outer : FeeBumpResult) :
    Client (list bool * (bool * FeeBumpResult)) :=
  nested (
    r ← ('(ok, outer) ← fb_commonValidPreSeqNum outer;
         if negb ok then mret (used, (false, outer))
         else
           withEntry (loadAccount fb_getFeeSourceID) (λ feeSource,
             acc ← currentAccount feeSource;
             let '(ok, used) := checkAccountSignature sha256 verifySig checker acc (threshold 1 acc) used in
             if negb ok then mret (used, (false, fb_setCode txBAD_AUTH outer))
             else
               withHeader (λ header,
                 available ← getAvailableBalance_ltx header feeSource;
                 mret (used, if available <? (if applying then 0 else fb_fee b)
                             then (false, fb_setCode txINSUFFICIENT_BALANCE outer) else (true, outer)))));
    mret (false, r)).

Definition fb_checkValid (current_ lowerBoundCloseTimeOffset upperBoundCloseTimeOffset : Z) :
    Client (bool * FeeBumpResult) :=
  nested (
    lh ← readHeader;
    lh' ← readHeader;
    let '(outer, _) := fb_resetResults lh' (lh_baseFee lh) false in
    version ← ledgerVersion;
    let checker := mkSignatureChecker version (hashFeeBump b) (fb_signatures b) in
    '(used, (ok, outer)) ← fb_commonValid checker false (newMarks checker) outer;
    r ← (if negb ok then mret (false, outer)
         else if negb (checkAllSignaturesUsed checker used) then mret (false, fb_setCode txBAD_AUTH_EXTRA outer)
         else
           '(res, inner) ← checkValid (mInnerTx b) current_ false lowerBoundCloseTimeOffset upperBoundCloseTimeOffset;
           mret (res, updateResult outer inner));
    mret (false, r)).
End feeBump.

(** ** As the ledger manager knows them *)

Definition txBase (f : TransactionFrame) : TransactionFrameBase :=
  mkTransaction (getContentsHash f)
    (λ baseFee, r ← processFeeSeqNum f baseFee; mret (TxResult r))
    (λ frame, match frame with
              | TxResult r => '(_, r) ← apply f true r; mret (TxResult r)
              | BumpResult _ _ => Raise WrongUnion
              end).

Definition feeBumpBase (hashFeeBump : FeeBumpTransactionFrame → list Z) (b : FeeBumpTransactionFrame) :
    TransactionFrameBase :=
  mkTransaction (hashFeeBump b)
    (λ baseFee, '(outer, inner) ← fb_processFeeSeqNum b baseFee; mret (BumpResult outer inner))
    (λ frame, match frame with
              | BumpResult outer inner =>
                  '(_, (outer, inner)) ← fb_apply hashFeeBump b outer inner; mret (BumpResult outer inner)
              | TxResult _ => Raise WrongUnion
              end).

(** The transaction of an envelope. *)
Definition fromWire (hashFeeBump : FeeBumpTransactionFrame → list Z) (env : TransactionEnvelope) : TransactionFrameBase :=
  match makeTransactionFromWire env with
  | inl f => txBase f
  | inr b => feeBumpBase hashFeeBump b
  end.
End transaction.
