(* ===== verification/CatchupProps.v ===== *)
(** * A node that catches up from published buckets

    The bucket list of a node, saved, prepared for publication and read back by a new
    node, gives the new node the same ledger and a bucket list that is the same up to
    merges being resolved. *)

From S2P Require Import Prelude QuorumSet LedgerEntries Bucket BucketMerge BucketList.
From S2P Require Import BucketLevels BucketFresh BucketListProps BucketEquiv BucketApply.

(** ** Applying a bucket *)

(** The ledger after the records. *)
Definition effect (es : list BucketEntry) (σ : Ledger) : Ledger := λ k,
  match find k es with
  | Some (LIVEENTRY x) | Some (INITENTRY x) => Some x
  | Some (DEADENTRY _) => None
  | _ => σ k
  end.

Lemma effect_update es σ k s : update (find k es) (σ k) = Some s → effect es σ k = s.
Proof.
  unfold effect. destruct (find k es) as [[w|x|d|x]|] eqn:Hf; cbn; [..|by intros [= <-]].
  - by destruct (find_not_meta k es w).
  - by intros [= <-].
  - by intros [= <-].
  - destruct (σ k); [done|]. by intros [= <-].
Qed.

(** The effect of one record. *)
Definition effect1 (e : BucketEntry) (σ : Ledger) : Ledger :=
  match e with
  | LIVEENTRY x | INITENTRY x => createOrUpdateWithoutLoading x σ
  | DEADENTRY k => eraseWithoutLoading k σ
  | METAENTRY _ => σ
  end.

Lemma effect1_at e σ k : is_entry e → effect1 e σ k = effect [e] σ k.
Proof.
  intros [k' Hk]. unfold effect. rewrite find_cons, find_nil.
  destruct e as [w|x|d|x]; cbn in Hk |- *; [done|..]; simplify_eq;
    unfold createOrUpdateWithoutLoading, eraseWithoutLoading; repeat case_decide; by simplify_eq.
Qed.

Lemma effect_cons e es σ k :
  sorted_entries (e :: es) → effect es (effect1 e σ) k = effect (e :: es) σ k.
Proof.
  intros (He & Hb & _)%sorted_cons. pose proof (effect1_at e σ k He) as H1.
  unfold effect in *. rewrite find_cons, find_nil in H1. rewrite find_cons.
  destruct (decide (bucketEntryKey e = Some k)) as [Hk|Hk].
  - by rewrite (below_find e es k Hk Hb).
  - rewrite H1. by destruct (find k es) as [[]|].
Qed.

(** Applying a record again changes nothing. *)
Lemma effect_again e es σ k :
  sorted_entries (e :: es) → effect (e :: es) (effect1 e σ) k = effect (e :: es) σ k.
Proof.
  intros (He & _)%sorted_cons. pose proof (effect1_at e σ k He) as H1.
  unfold effect in *. rewrite find_cons, find_nil in H1. rewrite find_cons.
  destruct (decide (bucketEntryKey e = Some k)) as [Hk|Hk].
  - destruct e; by rewrite ?H1.
  - by rewrite H1.
Qed.

Section applying.
Context (maxv v : Z) (Hv : v ≤ maxv).

Lemma applyRecord_Ok e σ : is_entry e → legal v e → applyRecord maxv e σ = Ok (effect1 e σ).
Proof.
  intros [k Hk] Hl. unfold applyRecord. rewrite (legal_mono v maxv e Hv Hl). cbn.
  by destruct e.
Qed.

Lemma advance_applies left it es σ :
  iter_is it v es →
  ∃ it' es' σ', advance maxv left it σ = Ok (it', σ') ∧ iter_is it' v es' ∧
    (∀ k, effect es' σ' k = effect es σ k) ∧
    (length es' + (if decide (es = []) then 0 else Nat.min left 1) ≤ length es)%nat.
Proof.
  revert it es σ. induction left as [|left IH]; intros it es σ Hit;
    pose proof Hit as (He & _ & _ & Hs & Hl); cbn [advance]; rewrite He;
    (destruct es as [|e es]; [exists it, [], σ; split_and!; done|]); cbn [head].
  all: pose proof Hs as (Hen & _)%sorted_cons; pose proof Hl as [Hle _]%Forall_cons.
  all: rewrite applyRecord_Ok by done; cbn [mbind res_bind].
  - exists it, (e :: es), (effect1 e σ). split_and!; [done|done| |].
    + intros k. by apply effect_again.
    + rewrite decide_False by done. lia.
  - destruct (iter_next it v e es Hit) as (it1 & -> & Hit1). cbn [mbind res_bind].
    destruct (IH it1 es (effect1 e σ) Hit1) as (it' & es' & σ' & -> & Hit' & Heff & Hlen).
    exists it', es', σ'. split_and!; [done|done| |].
    + intros k. rewrite Heff. by apply effect_cons.
    + rewrite decide_False by done. cbn [length]. destruct (decide (es = [])); lia.
Qed.

Lemma applyRest_Ok fuel it es σ :
  iter_is it v es → (length es ≤ fuel)%nat →
  ∃ σ', applyRest maxv fuel it σ = Ok σ' ∧ ∀ k, σ' k = effect es σ k.
Proof.
  revert it es σ. induction fuel as [|fuel IH]; intros it es σ Hit Hf;
    pose proof Hit as (He & _); cbn [applyRest]; rewrite He;
    (destruct es as [|e es]; [exists σ; split_and!; done|]); [cbn in Hf; lia|]. cbn [head].
  destruct (advance_applies LEDGER_ENTRY_BATCH_COMMIT_SIZE it (e :: es) σ Hit)
    as (it' & es' & σ1 & -> & Hit' & Heff & Hlen). cbn [mbind res_bind].
  rewrite decide_False in Hlen by done.
  destruct (IH it' es' σ1 Hit') as (σ' & -> & Hσ').
  { unfold LEDGER_ENTRY_BATCH_COMMIT_SIZE in Hlen. lia. }
  exists σ'. split; [done|]. intros k. by rewrite Hσ', Heff.
Qed.
End applying.

(** ** Publishing a list and taking it over *)

Section catchup.
Context {Hash : Type} `{EqDecision Hash}.
Context (sha256 : list BucketEntry → Hash) (zero : Hash) (files : Hash → option Bucket).
Context (σ : Z → Ledger) (P n : Z) (levels : BucketList Hash).

(** The archive has the buckets of the list, under hashes that are not zero. *)
Record Archived : Prop := {
  sha256_nonzero : ∀ b, b ≠ [] → sha256 b ≠ zero;
  files_has : ∀ L b, L ∈ levels → b = mCurr L ∨ b = mSnap L → b ≠ [] → files (sha256 b) = Some b
}.

Context (HA : Archived) (HP : FIRST_PROTOCOL_SHADOWS_REMOVED ≤ P) (Hσ0 : ∀ k, σ 0 k = None).
Context (Hn : 0 < n) (Hu : is_u32 n) (Hlist : list_at σ P n levels).

Notation hashOf := (getHash sha256 zero).

Lemma hash_zero b : hashOf b = zero ↔ b = [].
Proof.
  destruct b as [|e b]; cbn; [done|]. split; [|done]. intros Hz.
  by destruct (sha256_nonzero HA (e :: b)).
Qed.

Lemma stored L b :
  L ∈ levels → b = mCurr L ∨ b = mSnap L → getBucketByHash zero files (hashOf b) = Some b.
Proof.
  intros HL Hb. unfold getBucketByHash. case_decide as Hz.
  - apply hash_zero in Hz. by subst.
  - destruct b as [|e b]; [done|]. cbn. by apply (files_has HA L).
Qed.

Definition clearedLevel (L : BucketLevel Hash) : BucketLevel Hash :=
  mkLevel (mCurr L) (mSnap L) FB_CLEAR.

Definition clearedBucket (L : BucketLevel Hash) : HistoryStateBucket :=
  mkStateBucket (hashOf (mCurr L)) FB_CLEAR (hashOf (mSnap L)).

Lemma level_lookup l L : levels !! l = Some L → level_at σ P n l L ∧ (l < kNumLevels)%nat ∧ L ∈ levels.
Proof.
  intros HL. split_and!; [by apply (li_level _ _ _ _ Hlist)| |by eapply list_elem_of_lookup_2].
  rewrite <-(li_length _ _ _ _ Hlist). by eapply lookup_lt_Some.
Qed.

(** A bucket that is not empty is of protocol 12 or later. *)
Lemma nonempty_version lo hi b :
  bucket_for σ lo hi b → b ≠ [] → FIRST_PROTOCOL_SHADOWS_REMOVED ≤ version b ∧ lo < hi.
Proof.
  intros Hb Hne. pose proof (bf_le _ _ _ _ Hb).
  assert (lo < hi) as Hlt by (destruct (Z.eq_dec lo hi); [by destruct Hne; apply Hb|lia]).
  split; [|done]. by apply Hb.
Qed.

Lemma empty_range lo hi : bucket_for σ lo hi [] → lo = hi.
Proof.
  intros Hb. pose proof (bf_le _ _ _ _ Hb). destruct (Z.eq_dec lo hi); [done|].
  pose proof (bf_version _ _ _ _ Hb ltac:(lia)) as H12.
  unfold FIRST_PROTOCOL_SHADOWS_REMOVED in H12. cbn in H12. lia.
Qed.

(** Preparing for publication clears every merge. *)
Lemma prepareLevels_Ok j L suffix :
  (j < 10)%nat → levels !! j = Some L → suffix = drop (S j) levels →
  ∀ next, prepareLevels zero files (S j) (mkStateBucket (hashOf (mCurr L)) next (hashOf (mSnap L)))
    ((λ L, mkStateBucket (hashOf (mCurr L)) (save sha256 zero (mNextCurr L)) (hashOf (mSnap L))) <$> suffix)
  = Ok (clearedBucket <$> suffix).
Proof.
  revert j L. induction suffix as [|L1 suffix IH]; intros j L Hj HL Hsuf next; [done|].
  assert (levels !! S j = Some L1) as HL1.
  { pose proof (lookup_drop levels (S j) 0) as Hd. by rewrite <-Hsuf, Nat.add_0_r in Hd. }
  destruct (li_pair _ _ _ _ Hlist j L L1 HL HL1) as [Hpv [Hlive Hclear]].
  destruct (level_lookup j L HL) as ([Hsn _ _ _] & _ & HLin).
  rewrite !fmap_cons. cbn [prepareLevels hsb_next hsb_snap hsb_curr].
  assert (prepareLevels zero files (S (S j)) (clearedBucket L1)
    ((λ L, mkStateBucket (hashOf (mCurr L)) (save sha256 zero (mNextCurr L)) (hashOf (mSnap L))) <$> suffix)
    = Ok (clearedBucket <$> suffix)) as Hrest.
  { destruct suffix as [|L2 suffix]; [done|]. apply (IH (S j) L1); [|done|].
    - apply (f_equal length) in Hsuf. rewrite length_drop in Hsuf.
      rewrite (li_length _ _ _ _ Hlist) in Hsuf. unfold kNumLevels in Hsuf. cbn in Hsuf. lia.
    - rewrite <-(Nat.add_1_r (S j)), <-drop_drop, <-Hsuf. done. }
  destruct (Z.lt_ge_cases (levelFrom n j) (currFrom n j)) as [Hlt|Hge].
  - specialize (Hlive Hlt). pose proof (bf_version _ _ _ _ Hsn Hlt) as H12.
    assert (isClear (save sha256 zero (mNextCurr L1)) = false) as -> by (by destruct (mNextCurr L1)).
    cbn [negb]. rewrite (stored L) by auto. cbn [deref mbind res_bind].
    rewrite getBucketVersion_Ok by apply Hsn. cbn [mbind res_bind mret res_ret].
    rewrite (proj2 (Z.leb_le _ _) H12). cbn [mbind res_bind mret res_ret].
    fold (clearedBucket L1). by rewrite Hrest.
  - rewrite (Hclear Hge). cbn [save isClear negb mret res_ret mbind res_bind hasHashes andb].
    fold (clearedBucket L1). by rewrite Hrest.
Qed.

Lemma prepareForPublish_Ok :
  prepareForPublish zero files (published sha256 zero (stateOf sha256 zero n levels))
  = Ok (mkArchiveState n (clearedBucket <$> levels)).
Proof.
  unfold prepareForPublish, published, stateOf. cbn [currentBuckets currentLedger].
  rewrite <-list_fmap_compose. pose proof (li_length _ _ _ _ Hlist) as Hlen.
  destruct (lookup_lt_is_Some_2 levels 0) as [L0 HL0]; [rewrite Hlen; unfold kNumLevels; lia|].
  assert (levels = L0 :: drop 1 levels) as Hls by (by destruct levels; simplify_eq/=).
  rewrite Hls, !fmap_cons. cbn [compose hsb_next hsb_curr hsb_snap].
  rewrite (li_first _ _ _ _ Hlist L0 HL0). cbn [save isClear cassert mbind res_bind].
  pose proof (prepareLevels_Ok 0 L0 (drop 1 levels) ltac:(lia) HL0 eq_refl FB_CLEAR) as Hprep.
  unfold compose. cbn [hsb_next hsb_curr hsb_snap]. rewrite Hprep. done.
Qed.

Definition archive : HistoryArchiveState := mkArchiveState n (clearedBucket <$> levels).

Lemma published_archive : published sha256 zero archive = archive.
Proof.
  unfold published, archive. cbn [currentLedger currentBuckets]. by rewrite <-list_fmap_compose.
Qed.

Lemma validLevels_Ok suffix L :
  L ∈ levels → (∀ L0, L0 ∈ suffix → L0 ∈ levels) →
  validLevels sha256 zero files (clearedBucket L) (clearedBucket <$> suffix) = Ok true.
Proof.
  revert L. induction suffix as [|L1 suffix IH]; intros L HL Hin; [done|].
  rewrite fmap_cons. cbn [validLevels clearedBucket hsb_snap]. rewrite (stored L) by auto.
  assert (validLevels sha256 zero files (clearedBucket L1) (clearedBucket <$> suffix) = Ok true) as Hrest.
  { apply IH; [apply Hin; left|]. intros L0 HL0. apply Hin. by right. }
  case_decide as Hz; [done|]. apply list_elem_of_lookup in HL as [l Hl].
  destruct (level_lookup l L Hl) as ([Hsn _ _ _] & _ & _).
  destruct (nonempty_version _ _ _ Hsn) as [H12 _]; [by intros Hnil; apply Hz; apply hash_zero|].
  rewrite getBucketVersion_Ok by apply Hsn. cbn [mbind res_bind].
  rewrite (proj2 (Z.leb_le _ _) H12). done.
Qed.

Lemma levels_first : ∃ L0, levels !! 0%nat = Some L0 ∧ levels = L0 :: drop 1 levels.
Proof.
  destruct (lookup_lt_is_Some_2 levels 0) as [L0 HL0].
  { rewrite (li_length _ _ _ _ Hlist). unfold kNumLevels. lia. }
  exists L0. split; [done|]. by destruct levels; simplify_eq/=.
Qed.

Lemma containsValidBuckets_Ok : containsValidBuckets sha256 zero files archive = Ok true.
Proof.
  destruct levels_first as (L0 & HL0 & Hls). unfold containsValidBuckets, archive.
  cbn [currentBuckets]. rewrite Hls, fmap_cons. cbn [clearedBucket hsb_next isClear cassert mbind res_bind].
  apply validLevels_Ok; [by eapply list_elem_of_lookup_2|].
  intros L HL. rewrite Hls. by right.
Qed.

(** *** The ledger *)

Section ledger.
Context (inMemory : bool) (maxv : Z) (Hmaxv : P ≤ maxv).

Lemma run_bucket L b lo hi :
  L ∈ levels → b = mCurr L ∨ b = mSnap L → bucket_for σ lo hi b → version b ≤ P →
  ∃ a, openFor zero files maxv true (hashOf b) = Ok a ∧
    ∀ ρ, (∀ k, ρ k = σ (lo - 1) k) →
    ∃ ρ', runApplicator maxv a ρ = Ok ρ' ∧ ∀ k, ρ' k = σ (hi - 1) k.
Proof.
  intros HL Hb Hbf Hv. destruct (open_Ok _ _ _ (bf_wf _ _ _ _ Hbf)) as (it & Hit & Hi).
  exists (Some (b, it)). split.
  - unfold openFor, getBucket_orAssert, openApplicator. rewrite (stored L) by done.
    cbn [mbind res_bind mret res_ret]. rewrite Hit. cbn [mbind res_bind].
    pose proof Hi as (_ & _ & -> & _). by rewrite (proj2 (Z.ltb_ge _ _)) by lia.
  - intros ρ Hρ. cbn [runApplicator].
    destruct (applyRest_Ok maxv (version b) ltac:(lia) (length b) it (records b) ρ Hi) as (ρ' & Hrun & Heff).
    { destruct (bf_wf _ _ _ _ Hbf) as (Heq & _). rewrite Heq at 2. rewrite length_app. lia. }
    exists ρ'. split; [done|]. intros k. rewrite Heff. apply effect_update.
    rewrite <-wf_find_records, Hρ by apply Hbf. apply Hbf.
Qed.

(** A bucket that is skipped is empty. *)
Lemma run_maybe L b lo hi (apply : bool) :
  L ∈ levels → b = mCurr L ∨ b = mSnap L → bucket_for σ lo hi b → version b ≤ P →
  (apply = false → b = []) →
  ∃ a, openFor zero files maxv apply (hashOf b) = Ok a ∧
    ∀ ρ, (∀ k, ρ k = σ (lo - 1) k) →
    ∃ ρ', runApplicator maxv a ρ = Ok ρ' ∧ ∀ k, ρ' k = σ (hi - 1) k.
Proof.
  intros HL Hb Hbf Hv Hskip. destruct apply; [by apply (run_bucket L)|].
  exists None. split; [done|]. intros ρ Hρ. exists ρ. split; [done|].
  rewrite (Hskip eq_refl) in Hbf. by rewrite (empty_range _ _ Hbf) in Hρ.
Qed.

Lemma delete_nothing ledger (ρ : Ledger) k : ρ k = None → deleteObjectsModifiedOnOrAfterLedger ledger ρ k = None.
Proof. unfold deleteObjectsModifiedOnOrAfterLedger. by intros ->. Qed.

(** The entries that a local database may have are deleted before the first bucket. *)
Lemma delete_Ok l (mApplying applySnap applyCurr : bool) (ρ : Ledger) :
  (l < kNumLevels)%nat → (mApplying = false → ∀ k, ρ k = None) →
  ∃ ρ1 : Ledger, (if negb mApplying && negb inMemory && (applySnap || applyCurr) then
           oldestLedger ← (if applySnap then oldestLedgerInSnap n l else oldestLedgerInCurr n l);
           mret (deleteObjectsModifiedOnOrAfterLedger oldestLedger ρ)
         else mret ρ) = Ok ρ1 ∧ ∀ k, ρ1 k = ρ k.
Proof.
  intros Hl Hnone. destruct (negb mApplying && negb inMemory && _) eqn:Hc; [|by exists ρ].
  apply andb_true_iff in Hc as [[Ha%negb_true_iff _]%andb_true_iff _].
  rewrite oldestLedgerInSnap_Ok, oldestLedgerInCurr_Ok by done.
  destruct applySnap; (eexists; split; [done|]); intros k; rewrite delete_nothing; by rewrite (Hnone Ha).
Qed.

Lemma applyLevels_Ok m mApplying (ρ : Ledger) :
  (m ≤ kNumLevels)%nat → (∀ k, ρ k = σ (match m with O => n | S l => levelFrom n l - 1 end) k) →
  (mApplying = false → ∀ k, ρ k = None) →
  ∃ ρ', applyLevels sha256 zero files inMemory maxv archive emptyList m mApplying ρ = Ok ρ' ∧
    ∀ k, ρ' k = σ n k.
Proof.
  revert mApplying ρ. induction m as [|l IH]; intros mApplying ρ Hm Hρ Hnone; [by exists ρ|].
  destruct (lookup_lt_is_Some_2 levels l) as [L HL]; [rewrite (li_length _ _ _ _ Hlist); lia|].
  destruct (level_lookup l L HL) as ([Hsn Hc Hv HvP] & Hl & HLin).
  cbn [applyLevels]. unfold getLevel, emptyList. rewrite lookup_replicate_2 by lia.
  unfold archive. cbn [deref mbind res_bind currentBuckets currentLedger]. rewrite list_lookup_fmap, HL.
  cbn [fmap option_fmap option_map deref mbind res_bind clearedBucket hsb_snap hsb_curr mSnap mCurr].
  set (applySnap := bool_decide (hashOf (mSnap L) ≠ hashOf [])).
  set (applyCurr := bool_decide (hashOf (mCurr L) ≠ hashOf [])).
  assert (applySnap = false → mSnap L = []) as HskipS.
  { intros Hf%bool_decide_eq_false. apply hash_zero. by apply dec_stable in Hf. }
  assert (applyCurr = false → mCurr L = []) as HskipC.
  { intros Hf%bool_decide_eq_false. apply hash_zero. by apply dec_stable in Hf. }
  destruct (delete_Ok l mApplying applySnap applyCurr ρ Hl Hnone) as (ρ1 & -> & Hρ1).
  cbn [mbind res_bind].
  destruct (run_maybe L (mSnap L) _ _ (mApplying || applySnap) HLin (or_intror eq_refl) Hsn)
    as (a1 & -> & Hrun1); [lia|by intros [_ ?]%orb_false_iff; auto|]. cbn [mbind res_bind].
  destruct (run_maybe L (mCurr L) _ _ ((mApplying || applySnap) || applyCurr) HLin (or_introl eq_refl) Hc)
    as (a2 & -> & Hrun2); [done|by intros [_ ?]%orb_false_iff; auto|]. cbn [mbind res_bind].
  destruct (Hrun1 ρ1) as (ρ2 & -> & Hρ2); [intros k; by rewrite Hρ1, Hρ|]. cbn [mbind res_bind].
  destruct (Hrun2 ρ2 Hρ2) as (ρ3 & -> & Hρ3). cbn [mbind res_bind].
  apply IH; [lia| |].
  - intros k. rewrite Hρ3. destruct l; cbn [belowFrom]; [by rewrite Z.add_simpl_r|done].
  - intros [[Ha HaS]%orb_false_iff HaC]%orb_false_iff k. rewrite Hρ3.
    rewrite (HskipS HaS) in Hsn. rewrite (HskipC HaC) in Hc.
    rewrite <-(empty_range _ _ Hc), <-(empty_range _ _ Hsn), <-Hρ. auto.
Qed.
End ledger.

(** *** The list *)

Lemma snap_missing j L' : (j < 10)%nat → levels !! j = Some L' → mSnap L' = [] → n < half j.
Proof.
  intros Hj HL' Hnil. destruct (level_lookup j L' HL') as ([Hsn _ _ _] & _ & _).
  rewrite Hnil in Hsn. apply empty_range in Hsn. pose proof (snap_filled n j Hn Hj) as [_ Hf].
  destruct (Z.lt_ge_cases n (half j)) as [|Hge]; [done|]. specialize (Hf Hge). lia.
Qed.

Lemma clear_above j i L :
  (j < 10)%nat → n < half j → (j < i)%nat → levels !! i = Some L → mNextCurr L = FB_CLEAR.
Proof.
  intros Hj Hlt Hi HL. destruct i as [|i]; [lia|].
  destruct (level_lookup _ _ HL) as (_ & Hi11 & _). unfold kNumLevels in Hi11.
  destruct (lookup_lt_is_Some_2 levels i) as [L' HL'];
    [rewrite (li_length _ _ _ _ Hlist); unfold kNumLevels; lia|].
  destruct (li_pair _ _ _ _ Hlist i L' L HL' HL) as [_ [_ Hclear]]. apply Hclear.
  pose proof (half_mono j i ltac:(lia)). pose proof (snap_filled n i Hn ltac:(lia)) as [Hf _].
  destruct (Z.lt_ge_cases (levelFrom n i) (currFrom n i)) as [Hl|]; [|done]. specialize (Hf Hl). lia.
Qed.

(** Restarting the merge of level [S j]. *)
Lemma restart_prepare j L' L :
  (j < 10)%nat → levels !! j = Some L' → levels !! S j = Some L → mSnap L' ≠ [] →
  ∃ L2, prepare (mask n (half j)) (version (mSnap L')) (mSnap L') [] (S j) (clearedLevel L) = Ok L2 ∧
    FIRST_PROTOCOL_SHADOWS_REMOVED ≤ version (mSnap L') ∧ mSnap L2 = mSnap L ∧ level_equiv L L2.
Proof.
  intros Hj HL' HL Hne. destruct (level_lookup j L' HL') as ([Hsn _ _ _] & _ & _).
  destruct (level_lookup _ L HL) as ([_ Hc _ _] & _ & _).
  destruct (nonempty_version _ _ _ Hsn Hne) as [H12 Hlt].
  destruct (li_pair _ _ _ _ Hlist j L' L HL' HL) as [Hv [Hlive _]].
  assert (mask n (half j) = round n j) as Hmask by (apply mask_half; [done|unfold kNumLevels; lia]).
  pose proof (round_bounds n j) as Hrb. assert (0 ≤ round n j).
  { unfold round. apply Z.mul_nonneg_nonneg; [pose proof (half_pos j); lia|].
    apply Z.div_pos; [lia|apply half_pos]. }
  rewrite Hmask, prepare_Ok;
    [|unfold is_u32 in *; lia|unfold kNumLevels; lia|done|apply Hsn|apply Hc|done|done|done].
  eexists. split; [done|]. split_and!; [done|done|]. split_and!; [done|done|].
  right. eexists. split; [by apply Hlive|]. cbn. unfold mergeInput. by rewrite withEmpty_start.
Qed.

Lemma equiv_cleared L : mNextCurr L = FB_CLEAR → level_equiv L (clearedLevel L).
Proof. intros HL. split_and!; [done..|]. left. by rewrite HL. Qed.

Lemma restartLevels_Ok maxv suffix i prevSnap :
  suffix = drop i levels → (i ≤ kNumLevels)%nat →
  (∀ j, i = S j → ∃ L', levels !! j = Some L' ∧ prevSnap = mSnap L') →
  ∃ levels', restartLevels sha256 zero files maxv n i prevSnap (clearedLevel <$> suffix) = Ok levels' ∧
    Forall2 level_equiv suffix levels'.
Proof.
  revert i prevSnap. induction suffix as [|L suffix IH]; intros i prevSnap Hsuf Hi Hprev.
  { exists []. split; [done|constructor]. }
  assert (levels !! i = Some L) as HL.
  { pose proof (lookup_drop levels i 0) as Hd. by rewrite <-Hsuf, Nat.add_0_r in Hd. }
  assert (suffix = drop (S i) levels) as Hsuf'.
  { rewrite <-(Nat.add_1_r i), <-drop_drop, <-Hsuf. done. }
  destruct (level_lookup _ _ HL) as (_ & Hi11 & _). unfold kNumLevels in Hi11.
  destruct (IH (S i) (mSnap L) Hsuf') as (rest & Hrest & Heq);
    [unfold kNumLevels; lia|intros j [= <-]; eauto|].
  rewrite fmap_cons. cbn [restartLevels]. change (mNextCurr (clearedLevel L)) with (@FB_CLEAR Hash).
  cbn [hasHashes andb isClear].
  destruct i as [|j]; cbn [Nat.ltb Nat.leb].
  - exists (clearedLevel L :: rest). change (mSnap (clearedLevel L)) with (mSnap L). rewrite Hrest. split; [done|].
    constructor; [|done]. apply equiv_cleared. by apply (li_first _ _ _ _ Hlist).
  - destruct (Hprev j eq_refl) as (L' & HL' & ->). case_decide as Hz.
    + apply hash_zero in Hz. eexists. split; [done|].
      pose proof (snap_missing j L' ltac:(lia) HL' Hz) as Hlt.
      change (Forall2 level_equiv (L :: suffix) (clearedLevel <$> L :: suffix)).
      rewrite Hsuf. apply Forall2_fmap_r, Forall_Forall2_diag, Forall_forall.
      intros X [k Hk]%list_elem_of_lookup. rewrite lookup_drop in Hk. apply equiv_cleared.
      apply (clear_above j (S j + k)); [lia|done|lia|done].
    + destruct (restart_prepare j L' L) as (L2 & Hprep & H12 & Hsn2 & HeqL);
        [lia|done|done|by intros Hnil; apply Hz; apply hash_zero|].
      destruct (level_lookup j L' HL') as ([Hsn _ _ _] & _ & _).
      rewrite getBucketVersion_Ok by apply Hsn. cbn [mbind res_bind].
      rewrite (proj2 (Z.ltb_ge _ _)) by done. replace (S j - 1)%nat with j by lia.
      rewrite levelHalf_Ok by (unfold kNumLevels; lia). cbn [mbind res_bind].
      rewrite Hprep.
      cbn [mbind res_bind]. rewrite Hsn2, Hrest. eexists. split; [done|]. by constructor.
Qed.

Lemma mapM_Forall2 {A B} (f : A → res B) l l' :
  Forall2 (λ x y, f x = Ok y) l l' → mapM_res f l = Ok l'.
Proof. induction 1 as [|x y l l' Hx _ IH]; [done|]. cbn. rewrite Hx. cbn. by rewrite IH. Qed.

Lemma assumeState_Ok maxv :
  ∃ levels', assumeState sha256 zero files archive maxv (emptyList (Hash := Hash)) = Ok levels' ∧
    Forall2 level_equiv levels levels'.
Proof.
  destruct (restartLevels_Ok maxv levels 0 []) as (levels' & Hrun & Heq);
    [done|lia|done|]. exists levels'. split; [|done]. unfold assumeState.
  rewrite (mapM_Forall2 _ _ (clearedLevel <$> levels)); [done|].
  apply Forall2_same_length_lookup_2; [by rewrite length_seq, length_fmap, (li_length _ _ _ _ Hlist)|].
  intros i j L2 Hj HL2. apply lookup_seq in Hj as [-> Hi].
  rewrite list_lookup_fmap in HL2. destruct (levels !! i) as [L|] eqn:HL; [|done].
  cbn in HL2. simplify_eq. unfold archive. cbn [currentBuckets]. rewrite list_lookup_fmap.
  replace (0 + i)%nat with i by lia. rewrite HL. cbn [fmap option_fmap option_map deref mbind res_bind].
  unfold getLevel, emptyList. rewrite lookup_replicate_2 by lia. cbn [deref mbind res_bind].
  destruct (level_lookup i L HL) as (_ & _ & HLin).
  unfold assumeLevel. cbn [clearedBucket hsb_curr hsb_snap hsb_next]. by rewrite !(stored L) by auto.
Qed.

(** The work of a new node. *)
Lemma ApplyBucketsWork_Ok inMemory maxv :
  P ≤ maxv →
  ∃ levels' ρ, ApplyBucketsWork sha256 zero files inMemory maxv archive (emptyList (Hash := Hash)) (λ _, None)
               = Ok (Some (levels', ρ)) ∧
    (∀ k, ρ k = σ n k) ∧ Forall2 level_equiv levels levels'.
Proof.
  intros Hmaxv. unfold ApplyBucketsWork. rewrite containsValidBuckets_Ok. cbn [mbind res_bind negb].
  destruct (applyLevels_Ok inMemory maxv Hmaxv kNumLevels false (λ _, None)) as (ρ & -> & Hρ);
    [done|intros k; by rewrite Hσ0|done|].
  destruct (assumeState_Ok maxv) as (levels' & Hrun & Heq). cbn [mbind res_bind].
  rewrite Hrun. by exists levels', ρ.
Qed.
End catchup.

(** ** A node that catches up stays in step *)

Section in_step.
Context {Hash : Type} `{EqDecision Hash}.
Context (sha256 : list BucketEntry → Hash) (zero : Hash) (files : Hash → option Bucket).

Lemma ledgerOf_prefix hist hist2 n k :
  n = Z.of_nat (length hist) → ledgerOf (hist ++ hist2) n k = ledgerOf hist n k.
Proof.
  intros ->. unfold ledgerOf, ledgerAt. rewrite Nat2Z.id.
  by rewrite take_app_length, (take_ge hist) by lia.
Qed.

(** C15: a node adds the batches of a history of protocol 12 or later and publishes its
    bucket list, merges cleared.  A new node with the archive's buckets finds the state valid, applies it
    without an error to its empty database, oldest bucket first, and takes the list
    over.  Its database is then the ledger of the history, and the two nodes stay in
    step: whatever batches follow, adding them succeeds on both and leaves the same
    buckets, with merges in progress that have the same outcome. *)
Theorem catchup_in_step hist hist2 p1 ready1 p2 ready2 inMemory maxv levels :
  valid_history (hist ++ hist2) → hist ≠ [] → Z.of_nat (length (hist ++ hist2)) ≤ UINT32_MAX →
  (∀ P b, (P, b) ∈ hist → P ≤ maxv) →
  addBatches p1 ready1 0 hist emptyList = Ok levels → Archived sha256 zero files levels →
  let n := Z.of_nat (length hist) in
  ∃ has levels' ρ,
    prepareForPublish zero files (published sha256 zero (stateOf sha256 zero n levels)) = Ok has ∧
    ApplyBucketsWork sha256 zero files inMemory maxv (published sha256 zero has) emptyList (λ _, None)
    = Ok (Some (levels', ρ)) ∧
    (∀ k, ρ k = ledgerOf hist n k) ∧
    ∃ l1 l2, addBatches p1 ready1 n hist2 levels = Ok l1 ∧ addBatches p2 ready2 n hist2 levels' = Ok l2 ∧
      Forall2 level_equiv l1 l2.
Proof.
  intros Hv Hne Hmax HPmax Hrun HA n.
  destruct (addBatches_prefix (Hash := Hash) (hist ++ hist2) p1 ready1 hist hist2 Hv Hmax eq_refl Hne)
    as (P & levels0 & Hrun0 & H12 & (b & Hb) & Hnext & Hl).
  assert (levels0 = levels) as -> by congruence. fold n in Hl.
  assert (0 < n) as Hn by (unfold n; destruct hist; [done|cbn; lia]).
  assert (is_u32 n) as Hu by (unfold is_u32, n; rewrite length_app in Hmax; lia).
  exists (archive sha256 zero n levels).
  destruct (ApplyBucketsWork_Ok sha256 zero files (ledgerOf (hist ++ hist2)) P n levels HA
    (λ _, eq_refl) Hn Hu Hl inMemory maxv) as (levels' & ρ & Hwork & Hρ & Heq); [by apply (HPmax P b)|].
  exists levels', ρ. rewrite published_archive. split_and!; [|done| |].
  - by apply (prepareForPublish_Ok sha256 zero files (ledgerOf (hist ++ hist2)) P).
  - intros k. rewrite Hρ. by apply ledgerOf_prefix.
  - assert (drop (length hist) (hist ++ hist2) = hist2 ++ []) as Hdrop
      by (by rewrite drop_app_length, app_nil_r).
    destruct (addBatches_from (hist ++ hist2) p1 ready1 hist2 [] (length hist) P levels)
      as (P1 & l1 & Hl1 & _); [done..|].
    destruct (addBatches_from (hist ++ hist2) p2 ready2 hist2 [] (length hist) P levels')
      as (P2 & l2 & Hl2 & _); [done..|by eapply list_at_equiv|].
    exists l1, l2. split_and!; [done..|]. by eapply addBatches_equiv.
Qed.
End in_step.

Module CatchupExample.
(** A collision-free hash: the file itself. *)
Definition sha256 (b : list BucketEntry) : option (list BucketEntry) := Some b.
Definition files (h : option (list BucketEntry)) : option Bucket := h.

Lemma archived levels : Archived sha256 None files levels.
Proof. split; done. Qed.

Definition item := HistoryExample.item.
Definition hist : History :=
  [(12, mkBatch [item 1 10; item 2 20] [] []); (12, mkBatch [] [item 1 11] []);
   (13, mkBatch [item 3 30] [] [KEY_DATA [1] [2]])].
Definition next : History :=
  [(13, mkBatch [item 2 21] [item 3 31] []); (14, mkBatch [] [] [KEY_DATA [1] [1]])].

Lemma catchup_hist_valid : valid_history (hist ++ next).
Proof.
  split.
  - intros j P b Hj. destruct j as [|[|[|[|[|j]]]]]; [..|done].
    all: injection Hj as <- <-; split; [unfold FIRST_PROTOCOL_SHADOWS_REMOVED; lia|].
    all: split; [apply (bool_decide_unpack _); reflexivity|]. all: intros e He; cbn in He.
    all: repeat (apply elem_of_cons in He as [->|He]; [reflexivity|]).
    all: by apply not_elem_of_nil in He.
  - intros j P b P' b' Hj Hj'. destruct j as [|[|[|[|j]]]]; [..|done].
    all: injection Hj as <- <-; injection Hj' as <- <-; lia.
Qed.

Lemma protocols P b : (P, b) ∈ hist → P ≤ 15.
Proof.
  intros Hin. repeat (apply elem_of_cons in Hin as [Hin|Hin]; [injection Hin as -> _; lia|]).
  by apply not_elem_of_nil in Hin.
Qed.
End CatchupExample.

Lemma catchup_in_step_witness :
  ∃ levels has levels' ρ,
    addBatches false (λ _ _, true) 0 CatchupExample.hist emptyList = Ok levels ∧
    prepareForPublish None CatchupExample.files
      (published CatchupExample.sha256 None (stateOf CatchupExample.sha256 None 3 levels)) = Ok has ∧
    ApplyBucketsWork CatchupExample.sha256 None CatchupExample.files false 15
      (published CatchupExample.sha256 None has) emptyList (λ _, None) = Ok (Some (levels', ρ)) ∧
    ρ (KEY_DATA [1] [1]) = Some (CatchupExample.item 1 11) ∧ ρ (KEY_DATA [1] [2]) = None.
Proof.
  destruct (addBatches false (λ _ _, true) 0 CatchupExample.hist emptyList) as [levels|e] eqn:Hrun;
    [|exfalso; vm_compute in Hrun; discriminate].
  destruct (catchup_in_step CatchupExample.sha256 None CatchupExample.files CatchupExample.hist
    CatchupExample.next false (λ _ _, true) true (λ _ _, false) false 15 levels)
    as (has & levels' & ρ & Hpub & Hwork & Hρ & _).
  - apply CatchupExample.catchup_hist_valid.
  - discriminate.
  - vm_compute. discriminate.
  - apply CatchupExample.protocols.
  - exact Hrun.
  - apply CatchupExample.archived.
  - exists levels, has, levels', ρ. split; [reflexivity|]. split; [exact Hpub|]. split; [exact Hwork|].
    split; rewrite Hρ; reflexivity.
Defined.

(** ** From protocol 10 or earlier straight to 12 or later *)

(** A data entry is created at ledger 1 and erased at ledger 26, under the protocol of
    the genesis ledger.  Ledger 30 upgrades to protocol 15 and creates it again, and
    ledger 33 erases it. *)
Module UpgradeExample.
Definition key : LedgerKey := KEY_DATA [1] [1].
Definition item (value : Z) : LedgerEntry := mkLedgerEntry 1 (DATA (mkData [1] [1] [value])) None.

Definition batch (n : nat) : Z * Batch :=
  (if (n <? 30)%nat then 0%Z else 15%Z,
   match n with
   | 1 => mkBatch [item 1] [] []
   | 30 => mkBatch [item 2] [] []
   | 26 | 33 => mkBatch [] [] [key]
   | _ => mkBatch [] [] []
   end)%nat.

Definition hist : History := map batch (seq 1 63).

(** What a new node has for [key] when it catches up at ledger 63. *)
Definition restored : res (option (option LedgerEntry)) :=
  levels ← addBatches false (λ _ _, true) 0 hist emptyList;
  has ← prepareForPublish None CatchupExample.files
          (published CatchupExample.sha256 None (stateOf CatchupExample.sha256 None 63 levels));
  r ← ApplyBucketsWork CatchupExample.sha256 None CatchupExample.files false 15
        (published CatchupExample.sha256 None has) emptyList (λ _, None);
  mret (match r with Some (_, ρ) => Some (ρ key) | None => None end).
End UpgradeExample.

(** The theorems about the bucket list start at protocol 12 for a reason.  When a
    network goes from a protocol without INITENTRY straight to one without shadows, a
    merge of old buckets drops the tombstone of an entry because a new shadow has an
    INITENTRY for it; that INITENTRY and the next tombstone cancel each other, and what
    is left in the list is the entry that was erased first.  The ledger has no such
    entry, a node that catches up has it. *)
Lemma direct_upgrade_resurrects :
  ledgerOf UpgradeExample.hist 63 UpgradeExample.key = None ∧
  UpgradeExample.restored = Ok (Some (Some (UpgradeExample.item 1))).
Proof. split; vm_compute; reflexivity. Qed.
