(* ===== verification/Upgrades.v ===== *)
(** * Upgrades

    [herder/Upgrades.cpp]: the changes of the protocol version and of the network
    parameters that an operator schedules, that the nodes vote for, and that are
    applied when a ledger is closed.  Serialisation is a parameter, [decode] giving
    nothing for bytes that are not an upgrade. *)

From S2P Require Import Prelude StateMonad Numeric LedgerEntries GeneralizedEntries LedgerTxn LedgerTxnRefine PrepareLiabilities.

(** ** Changing one field of a header *)

Definition set_ledgerVersion (v : Z) (h : LedgerHeader) : LedgerHeader :=
  mkLedgerHeader v (lh_previousLedgerHash h) (lh_scpValue h) (lh_txSetResultHash h)
    (lh_bucketListHash h) (lh_ledgerSeq h) (lh_totalCoins h) (lh_feePool h) (lh_inflationSeq h)
    (lh_idPool h) (lh_baseFee h) (lh_baseReserve h) (lh_maxTxSetSize h) (lh_skipList h).

Definition set_baseFee (v : Z) (h : LedgerHeader) : LedgerHeader :=
  mkLedgerHeader (lh_ledgerVersion h) (lh_previousLedgerHash h) (lh_scpValue h) (lh_txSetResultHash h)
    (lh_bucketListHash h) (lh_ledgerSeq h) (lh_totalCoins h) (lh_feePool h) (lh_inflationSeq h)
    (lh_idPool h) v (lh_baseReserve h) (lh_maxTxSetSize h) (lh_skipList h).

Definition set_baseReserve (v : Z) (h : LedgerHeader) : LedgerHeader :=
  mkLedgerHeader (lh_ledgerVersion h) (lh_previousLedgerHash h) (lh_scpValue h) (lh_txSetResultHash h)
    (lh_bucketListHash h) (lh_ledgerSeq h) (lh_totalCoins h) (lh_feePool h) (lh_inflationSeq h)
    (lh_idPool h) (lh_baseFee h) v (lh_maxTxSetSize h) (lh_skipList h).

Definition set_maxTxSetSize (v : Z) (h : LedgerHeader) : LedgerHeader :=
  mkLedgerHeader (lh_ledgerVersion h) (lh_previousLedgerHash h) (lh_scpValue h) (lh_txSetResultHash h)
    (lh_bucketListHash h) (lh_ledgerSeq h) (lh_totalCoins h) (lh_feePool h) (lh_inflationSeq h)
    (lh_idPool h) (lh_baseFee h) (lh_baseReserve h) v (lh_skipList h).

(** ** Upgrades *)

Inductive LedgerUpgrade : Type :=
| LEDGER_UPGRADE_VERSION (newLedgerVersion : Z)
| LEDGER_UPGRADE_BASE_FEE (newBaseFee : Z)
| LEDGER_UPGRADE_MAX_TX_SET_SIZE (newMaxTxSetSize : Z)
| LEDGER_UPGRADE_BASE_RESERVE (newBaseReserve : Z).

#[export] Instance LedgerUpgrade_eq_dec : EqDecision LedgerUpgrade.
Proof. solve_decision. Defined.

(** Points in time are in nanoseconds. *)
Record UpgradeParameters : Type := mkUpgradeParameters {
  mUpgradeTime : Z;
  mProtocolVersion : option Z;
  mBaseFee : option Z;
  mMaxTxSize : option Z;
  mBaseReserve : option Z
}.

Definition from_time_t (t : Z) : Z := t * 1000000000.

Definition UPDGRADE_EXPIRATION_HOURS : Z := 12 * 3600 * 1000000000.

Inductive UpgradeValidity : Type := VALID | XDR_INVALID | INVALID.

Section upgrades.
Variable decode : list Z → option LedgerUpgrade.
Variable LEDGER_PROTOCOL_VERSION : Z.

Definition setParameters (params : UpgradeParameters) : res UpgradeParameters :=
  match mProtocolVersion params with
  | Some v =>
      if LEDGER_PROTOCOL_VERSION <? v then Throw (InvalidArgument "Protocol version error") else mret params
  | None => mret params
  end.

Definition timeForUpgrade (mParams : UpgradeParameters) (time : Z) : bool :=
  mUpgradeTime mParams <=? from_time_t time.

(** A parameter that is set and differs from the header. *)
Definition wanted (o : option Z) (current : Z) (mk : Z → LedgerUpgrade) : list LedgerUpgrade :=
  match o with
  | Some v => if current =? v then [] else [mk v]
  | None => []
  end.

Definition createUpgradesFor (mParams : UpgradeParameters) (header : LedgerHeader) : list LedgerUpgrade :=
  if negb (timeForUpgrade mParams (sv_closeTime (lh_scpValue header))) then []
  else
    wanted (mProtocolVersion mParams) (lh_ledgerVersion header) LEDGER_UPGRADE_VERSION ++
    wanted (mBaseFee mParams) (lh_baseFee header) LEDGER_UPGRADE_BASE_FEE ++
    wanted (mMaxTxSize mParams) (lh_maxTxSetSize header) LEDGER_UPGRADE_MAX_TX_SET_SIZE ++
    wanted (mBaseReserve mParams) (lh_baseReserve header) LEDGER_UPGRADE_BASE_RESERVE.

(** *** Removing upgrades that have been applied *)

Definition is_set (o : option Z) : bool := match o with Some _ => true | None => false end.

Definition resetParam (o : option Z) (v : Z) : option Z * bool :=
  match o with
  | Some w => if w =? v then (None, true) else (o, false)
  | None => (o, false)
  end.

Definition removeUpgrade (u : list Z) (acc : UpgradeParameters * bool) : UpgradeParameters * bool :=
  let '(p, updated) := acc in
  match decode u with
  | None => acc
  | Some (LEDGER_UPGRADE_VERSION v) =>
      let '(o, b) := resetParam (mProtocolVersion p) v in
      (mkUpgradeParameters (mUpgradeTime p) o (mBaseFee p) (mMaxTxSize p) (mBaseReserve p), updated || b)
  | Some (LEDGER_UPGRADE_BASE_FEE v) =>
      let '(o, b) := resetParam (mBaseFee p) v in
      (mkUpgradeParameters (mUpgradeTime p) (mProtocolVersion p) o (mMaxTxSize p) (mBaseReserve p), updated || b)
  | Some (LEDGER_UPGRADE_MAX_TX_SET_SIZE v) =>
      let '(o, b) := resetParam (mMaxTxSize p) v in
      (mkUpgradeParameters (mUpgradeTime p) (mProtocolVersion p) (mBaseFee p) o (mBaseReserve p), updated || b)
  | Some (LEDGER_UPGRADE_BASE_RESERVE v) =>
      let '(o, b) := resetParam (mBaseReserve p) v in
      (mkUpgradeParameters (mUpgradeTime p) (mProtocolVersion p) (mBaseFee p) (mMaxTxSize p) o, updated || b)
  end.

(** The parameters that are left, and whether any were removed. *)
Definition removeUpgrades (mParams : UpgradeParameters) (updates : list (list Z)) (closeTime : Z) :
    UpgradeParameters * bool :=
  if mUpgradeTime mParams + UPDGRADE_EXPIRATION_HOURS <=? from_time_t closeTime then
    (mkUpgradeParameters (mUpgradeTime mParams) None None None None,
     is_set (mProtocolVersion mParams) || is_set (mBaseFee mParams) ||
     is_set (mMaxTxSize mParams) || is_set (mBaseReserve mParams))
  else foldl (λ acc u, removeUpgrade u acc) (mParams, false) updates.

(** *** Checking *)

Definition isValidForApply (opaqueUpgrade : list Z) (header : LedgerHeader) :
    UpgradeValidity * option LedgerUpgrade :=
  match decode opaqueUpgrade with
  | None => (XDR_INVALID, None)
  | Some upgrade =>
      let valid :=
        match upgrade with
        | LEDGER_UPGRADE_VERSION newVersion =>
            (newVersion <=? LEDGER_PROTOCOL_VERSION) && (lh_ledgerVersion header <? newVersion)
        | LEDGER_UPGRADE_BASE_FEE newBaseFee => negb (newBaseFee =? 0)
        | LEDGER_UPGRADE_MAX_TX_SET_SIZE _ => true
        | LEDGER_UPGRADE_BASE_RESERVE newBaseReserve => negb (newBaseReserve =? 0)
        end in
      (if valid then VALID else INVALID, Some upgrade)
  end.

Definition wants (o : option Z) (v : Z) : bool :=
  match o with Some w => v =? w | None => false end.

Definition isValidForNomination (mParams : UpgradeParameters) (upgrade : LedgerUpgrade) (header : LedgerHeader) : bool :=
  if negb (timeForUpgrade mParams (sv_closeTime (lh_scpValue header))) then false
  else
    match upgrade with
    | LEDGER_UPGRADE_VERSION v => wants (mProtocolVersion mParams) v
    | LEDGER_UPGRADE_BASE_FEE v => wants (mBaseFee mParams) v
    | LEDGER_UPGRADE_MAX_TX_SET_SIZE v => wants (mMaxTxSize mParams) v
    | LEDGER_UPGRADE_BASE_RESERVE v => wants (mBaseReserve mParams) v
    end.

(** The type of the upgrade when it is valid. *)
Definition upgradeType (u : LedgerUpgrade) : Z :=
  match u with
  | LEDGER_UPGRADE_VERSION _ => 1
  | LEDGER_UPGRADE_BASE_FEE _ => 2
  | LEDGER_UPGRADE_MAX_TX_SET_SIZE _ => 3
  | LEDGER_UPGRADE_BASE_RESERVE _ => 4
  end.

Definition isValid (mParams : UpgradeParameters) (upgrade : list Z) (nomination : bool) (header : LedgerHeader) :
    option Z :=
  match isValidForApply upgrade header with
  | (VALID, Some lupgrade) =>
      if negb nomination || isValidForNomination mParams lupgrade header then Some (upgradeType lupgrade) else None
  | _ => None
  end.

(** *** Applying *)

(** [ltx.loadHeader().current().field = ...]. *)
Definition modifyHeader (f : LedgerHeader → LedgerHeader) : Client unit :=
  id ← ask LoadHeader;
  h ← ask (CurrentHeader id);
  ask (WriteHeader id (f h));;
  ask DeactivateHeader.

Definition applyVersionUpgrade (newVersion : Z) : Client unit :=
  id ← ask LoadHeader;
  h ← ask (CurrentHeader id);
  ask (WriteHeader id (set_ledgerVersion newVersion h));;
  (if (10 <=? newVersion) && (lh_ledgerVersion h <? 10) then prepareLiabilities id else mret tt);;
  ask DeactivateHeader.

Definition applyReserveUpgrade (newReserve : Z) : Client unit :=
  id ← ask LoadHeader;
  h ← ask (CurrentHeader id);
  ask (WriteHeader id (set_baseReserve newReserve h));;
  (if (10 <=? lh_ledgerVersion h) && (lh_baseReserve h <? newReserve) then prepareLiabilities id else mret tt);;
  ask DeactivateHeader.

Definition applyTo (upgrade : LedgerUpgrade) : Client unit :=
  match upgrade with
  | LEDGER_UPGRADE_VERSION v => applyVersionUpgrade v
  | LEDGER_UPGRADE_BASE_FEE v => modifyHeader (set_baseFee v)
  | LEDGER_UPGRADE_MAX_TX_SET_SIZE v => modifyHeader (set_maxTxSetSize v)
  | LEDGER_UPGRADE_BASE_RESERVE v => applyReserveUpgrade v
  end.
End upgrades.
