(* ===== verification/LedgerManager.v ===== *)
(** * Closing ledgers

    [ledger/LedgerManagerImpl.cpp]: a node closes the next ledger by applying the
    transactions and upgrades the network agreed on in a [LedgerTxn], adding what
    changed to the bucket list, and committing to the database; the header of the
    ledger has the hash of the previous one and of the bucket list.

    A transaction is what [TransactionFrameBase] offers to this code.  SHA-256, the serialisation of headers,
    results and upgrades, and the state of catchup are parameters.  Metrics, the
    history tables and the stream of metadata are left out. *)

From S2P Require Import Prelude StateMonad Numeric LedgerEntries GeneralizedEntries OfferOrder LedgerTxn LedgerTxnRoot LedgerTxnRefine LedgerClient Transactions Upgrades.
From S2P Require Import Bucket BucketList BucketApply.

(** The transactions are in the order in which they are applied. *)
Record LedgerCloseData : Type := mkLedgerCloseData {
  lcd_ledgerSeq : Z;
  lcd_value : DiamnetValue;
  lcd_previousLedgerHash : list Z;
  lcd_contentsHash : list Z;
  lcd_txs : list TransactionFrameBase;
  lcd_baseFee : LedgerHeader → Z
}.

Inductive LM_State : Type := LM_BOOTING_STATE | LM_SYNCED_STATE | LM_CATCHING_UP_STATE.

(** [kLastClosedLedger] and [kHistoryArchiveState] are in [mPersistentState]. *)
Record LedgerManagerImpl : Type := mkLedgerManager {
  lm_stack : LedgerTxnStack;
  mBucketList : BucketList (list Z);
  mLastClosedLedger : LedgerHeader * list Z;
  mPersistentState : option (list Z * HistoryArchiveState (Hash := list Z));
  mState : LM_State
}.

Definition set_lm_stack (st : LedgerTxnStack) (m : LedgerManagerImpl) : LedgerManagerImpl :=
  mkLedgerManager st (mBucketList m) (mLastClosedLedger m) (mPersistentState m) (mState m).
Definition set_mBucketList (bl : BucketList (list Z)) (m : LedgerManagerImpl) : LedgerManagerImpl :=
  mkLedgerManager (lm_stack m) bl (mLastClosedLedger m) (mPersistentState m) (mState m).
Definition set_mLastClosedLedger (l : LedgerHeader * list Z) (m : LedgerManagerImpl) : LedgerManagerImpl :=
  mkLedgerManager (lm_stack m) (mBucketList m) l (mPersistentState m) (mState m).
Definition set_mPersistentState (p : list Z * HistoryArchiveState) (m : LedgerManagerImpl) : LedgerManagerImpl :=
  mkLedgerManager (lm_stack m) (mBucketList m) (mLastClosedLedger m) (Some p) (mState m).
Definition setState (s : LM_State) (m : LedgerManagerImpl) : LedgerManagerImpl :=
  mkLedgerManager (lm_stack m) (mBucketList m) (mLastClosedLedger m) (mPersistentState m) s.

(** ** The header of a ledger *)

Definition set_ledgerSeq (v : Z) (h : LedgerHeader) : LedgerHeader :=
  mkLedgerHeader (lh_ledgerVersion h) (lh_previousLedgerHash h) (lh_scpValue h) (lh_txSetResultHash h)
    (lh_bucketListHash h) v (lh_totalCoins h) (lh_feePool h) (lh_inflationSeq h)
    (lh_idPool h) (lh_baseFee h) (lh_baseReserve h) (lh_maxTxSetSize h) (lh_skipList h).

Definition set_previousLedgerHash (v : list Z) (h : LedgerHeader) : LedgerHeader :=
  mkLedgerHeader (lh_ledgerVersion h) v (lh_scpValue h) (lh_txSetResultHash h)
    (lh_bucketListHash h) (lh_ledgerSeq h) (lh_totalCoins h) (lh_feePool h) (lh_inflationSeq h)
    (lh_idPool h) (lh_baseFee h) (lh_baseReserve h) (lh_maxTxSetSize h) (lh_skipList h).

Definition set_scpValue (v : DiamnetValue) (h : LedgerHeader) : LedgerHeader :=
  mkLedgerHeader (lh_ledgerVersion h) (lh_previousLedgerHash h) v (lh_txSetResultHash h)
    (lh_bucketListHash h) (lh_ledgerSeq h) (lh_totalCoins h) (lh_feePool h) (lh_inflationSeq h)
    (lh_idPool h) (lh_baseFee h) (lh_baseReserve h) (lh_maxTxSetSize h) (lh_skipList h).

Definition set_txSetResultHash (v : list Z) (h : LedgerHeader) : LedgerHeader :=
  mkLedgerHeader (lh_ledgerVersion h) (lh_previousLedgerHash h) (lh_scpValue h) v
    (lh_bucketListHash h) (lh_ledgerSeq h) (lh_totalCoins h) (lh_feePool h) (lh_inflationSeq h)
    (lh_idPool h) (lh_baseFee h) (lh_baseReserve h) (lh_maxTxSetSize h) (lh_skipList h).

Definition set_bucketListHash (v : list Z) (h : LedgerHeader) : LedgerHeader :=
  mkLedgerHeader (lh_ledgerVersion h) (lh_previousLedgerHash h) (lh_scpValue h) (lh_txSetResultHash h)
    v (lh_ledgerSeq h) (lh_totalCoins h) (lh_feePool h) (lh_inflationSeq h)
    (lh_idPool h) (lh_baseFee h) (lh_baseReserve h) (lh_maxTxSetSize h) (lh_skipList h).

Definition set_skipList (v : list (list Z)) (h : LedgerHeader) : LedgerHeader :=
  mkLedgerHeader (lh_ledgerVersion h) (lh_previousLedgerHash h) (lh_scpValue h) (lh_txSetResultHash h)
    (lh_bucketListHash h) (lh_ledgerSeq h) (lh_totalCoins h) (lh_feePool h) (lh_inflationSeq h)
    (lh_idPool h) (lh_baseFee h) (lh_baseReserve h) (lh_maxTxSetSize h) v.

Definition SKIP_1 : Z := 50.
Definition SKIP_2 : Z := 5000.
Definition SKIP_3 : Z := 50000.
Definition SKIP_4 : Z := 500000.

(** [skipList] is an array of four hashes. *)
Definition shift (i j : nat) (sl : list (list Z)) : list (list Z) := <[j := sl !!! i]> sl.

Definition calculateSkipValues (h : LedgerHeader) : LedgerHeader :=
  let seq := lh_ledgerSeq h in
  if seq mod SKIP_1 =? 0 then
    let v := i32 (seq - SKIP_1) in
    let sl :=
      if (0 <? v) && (Z.rem v SKIP_2 =? 0) then
        let v := i32 (seq - SKIP_2 - SKIP_1) in
        let sl :=
          if (0 <? v) && (Z.rem v SKIP_3 =? 0) then
            let v := i32 (seq - SKIP_3 - SKIP_2 - SKIP_1) in
            let sl :=
              if (0 <? v) && (Z.rem v SKIP_4 =? 0) then shift 2 3 (lh_skipList h) else lh_skipList h in
            shift 1 2 sl
          else lh_skipList h in
        shift 0 1 sl
      else lh_skipList h in
    set_skipList (<[0%nat := lh_bucketListHash h]> sl) h
  else h.

(** ** Reading and applying *)

Definition processFeesSeqNums (txs : list TransactionFrameBase) (baseFee : Z) :
    Client (list FrameResult) :=
  nested (
    _ ← readHeader;
    frames ← forTxs (λ tx,
               nested (frame ← tx_processFeeSeqNum tx baseFee;
                       _ ← ask GetChanges;
                       mret (true, frame))) txs;
    mret (true, frames)).

(** The hashes of the transactions with their results.  Each frame has the result
    that the processing of its fee has left. *)
Definition applyTransactions (MODE_STORES_HISTORY : bool) (txs : list (TransactionFrameBase * FrameResult)) :
    Client (list (list Z * FrameResult)) :=
  match txs with [] => mret tt | _ => _ ← readHeader; mret tt end;;
  results ← forTxs (λ '(tx, frame),
              r ← tx_apply tx frame;
              (if MODE_STORES_HISTORY then _ ← readHeader; mret tt else mret tt);;
              mret (tx_contentsHash tx, r)) txs;
  _ ← readHeader;
  mret results.

(** ** Closing a ledger *)

Section manager.
Variable sha256 : list Z → list Z.
Variable bucketHash : list BucketEntry → list Z.
Variable xdr_header : LedgerHeader → list Z.
Variable xdr_results : list (list Z * FrameResult) → list Z.
Variable decode : list Z → option LedgerUpgrade.

(** Options of the configuration. *)
Variable LEDGER_PROTOCOL_VERSION : Z.
Variables MODE_STORES_HISTORY MODE_ENABLES_BUCKETLIST : bool.

(** Of the bucket list: whether new merges run in the foreground, and which have
    finished at a ledger. *)
Variables (pessimize : bool) (ready : Z → nat → bool).

Definition zeroHash : list Z := replicate 32 0.

(** *** Hashes *)

Definition headerHash (h : LedgerHeader) : list Z := sha256 (xdr_header h).

Definition BucketLevel_getHash (l : BucketLevel (list Z)) : list Z :=
  sha256 (getHash bucketHash zeroHash (mCurr l) ++ getHash bucketHash zeroHash (mSnap l)).

Definition BucketList_getHash (levels : BucketList (list Z)) : list Z :=
  sha256 (concat (BucketLevel_getHash <$> levels)).

Definition snapshotLedger (levels : BucketList (list Z)) (h : LedgerHeader) : LedgerHeader :=
  let hash := if MODE_ENABLES_BUCKETLIST then BucketList_getHash levels else zeroHash in
  calculateSkipValues (set_bucketListHash hash h).

(** *** The changes of the ledger *)

Definition applyUpgrade (opaque : list Z) : Client unit :=
  h ← readHeader;
  match isValidForApply decode LEDGER_PROTOCOL_VERSION opaque h with
  | (VALID, Some lupgrade) =>
      Attempt (nested (applyTo lupgrade;;
                       _ ← readHeader;
                       _ ← ask GetChanges;
                       mret (true, tt))) (λ _, mret tt)
  | (XDR_INVALID, _) => Raise (RuntimeError "Unknown upgrade at index")
  | (_, _) => Raise (RuntimeError "Invalid upgrade at index")
  end.

(** [closeLedger] until the ledger is closed. *)
Definition closeClient (lastHash : list Z) (data : LedgerCloseData) : Client unit :=
  ask (Open true);;
  id ← ask LoadHeader;
  h ← ask (CurrentHeader id);
  ask (WriteHeader id (set_previousLedgerHash lastHash (set_ledgerSeq (u32 (lh_ledgerSeq h + 1)) h)));;
  if LEDGER_PROTOCOL_VERSION <? lh_ledgerVersion h
  then Raise (RuntimeError "cannot apply ledger with not supported version")
  else if negb (bool_decide (lcd_previousLedgerHash data = lastHash)) then Raise (RuntimeError "txset mismatch")
  else if negb (bool_decide (lcd_contentsHash data = sv_txSetHash (lcd_value data)))
  then Raise (RuntimeError "corrupt transaction set")
  else
    h ← ask (CurrentHeader id);
    ask (WriteHeader id (set_scpValue (lcd_value data) h));;
    h ← ask (CurrentHeader id);
    frames ← processFeesSeqNums (lcd_txs data) (lcd_baseFee data h);
    results ← applyTransactions MODE_STORES_HISTORY (zip (lcd_txs data) frames);
    modifyHeader (set_txSetResultHash (sha256 (xdr_results results)));;
    _ ← forTxs applyUpgrade (sv_upgrades (lcd_value data));
    mret tt.

(** The first part of [ledgerClosed]. *)
Definition sealClient : Client (Z * Z * (list LedgerEntry * list LedgerEntry * list LedgerKey)) :=
  h ← readHeader;
  h' ← readHeader;
  batch ← ask GetAllEntries;
  mret (lh_ledgerSeq h, lh_ledgerVersion h', batch).

(** *** The node *)

Definition onLedger {A} (c : Client A) : M LedgerManagerImpl A :=
  λ m, '(a, st) ← run (@serve) c (lm_stack m); Ok (a, set_lm_stack st m).

(** The header of the innermost level. *)
Definition currentLedgerHeader (m : LedgerManagerImpl) : LedgerHeader :=
  getHeader (chain (levels (lm_stack m)) (base (lm_stack m))).

Definition storeCurrentLedger (header : LedgerHeader) : M LedgerManagerImpl unit :=
  let hash := headerHash header in
  reads (λ _, cassert (negb (bool_decide (hash = zeroHash))));;
  modify (λ m, set_mPersistentState
                 (hash, stateOf bucketHash zeroHash (lh_ledgerSeq header)
                          (if MODE_ENABLES_BUCKETLIST then mBucketList m else emptyList)) m).

Definition advanceLedgerPointers (header : LedgerHeader) : M LedgerManagerImpl unit :=
  modify (set_mLastClosedLedger (header, headerHash header)).

Definition transferLedgerEntriesToBucketList (ledgerSeq ledgerVers : Z)
    (batch : list LedgerEntry * list LedgerEntry * list LedgerKey) : M LedgerManagerImpl unit :=
  if MODE_ENABLES_BUCKETLIST then
    let '(initEntries, liveEntries, deadEntries) := batch in
    levels ← reads (λ m, addBatch pessimize (ready ledgerSeq) ledgerSeq ledgerVers
                           initEntries liveEntries deadEntries (mBucketList m));
    modify (set_mBucketList levels)
  else mret tt.

Definition ledgerClosed : M LedgerManagerImpl unit :=
  '(ledgerSeq, ledgerVers, batch) ← onLedger sealClient;
  transferLedgerEntriesToBucketList ledgerSeq ledgerVers batch;;
  bl ← gets mBucketList;
  onLedger (ask (UnsealHeader (snapshotLedger bl)));;
  lh ← gets currentLedgerHeader;
  storeCurrentLedger lh;;
  advanceLedgerPointers lh.

Definition closeLedger (data : LedgerCloseData) : M LedgerManagerImpl unit :=
  last ← gets mLastClosedLedger;
  onLedger (closeClient last.2 data);;
  ledgerClosed;;
  onLedger (ask Commit).

(** *** The first ledger *)

Definition rootEntry (rootAccount : AccountID) (totalCoins : Z) : LedgerEntry :=
  mkLedgerEntry 1 (ACCOUNT (mkAccount rootAccount totalCoins 0 0 None 0 [] [1; 0; 0; 0] [] None)) None.

Definition startNewLedger (rootAccount : AccountID) (genesisLedger : LedgerHeader) : M LedgerManagerImpl unit :=
  onLedger (ask (Open false);;
            modifyHeader (λ _, genesisLedger);;
            h ← ask (Create (GLedgerEntry (rootEntry rootAccount (lh_totalCoins genesisLedger))));
            ask (Deactivate h));;
  ledgerClosed;;
  onLedger (ask Commit).

Definition genesisLedger : LedgerHeader :=
  mkLedgerHeader 0 zeroHash (mkDiamnetValue zeroHash 0 [] None) zeroHash zeroHash 1 1000000000000000000
    0 0 0 100 100000000 100 (replicate 4 zeroHash).

(** *** The end of catchup *)

(** The header that was caught up to. *)
Definition setLastClosedLedger (lastClosed : LedgerHeader) : M LedgerManagerImpl unit :=
  onLedger (ask (Open true);;
            id ← ask LoadHeader;
            ask (WriteHeader id lastClosed));;
  storeCurrentLedger lastClosed;;
  onLedger (ask Commit);;
  advanceLedgerPointers lastClosed.

(** *** Externalized values *)

(** The two booleans are [isCatchupInitialized] and [catchupWorkIsDone] of the
    catchup manager. *)
Definition closeLedgerIf (isCatchupInitialized catchupWorkIsDone : bool) (data : LedgerCloseData) :
    M LedgerManagerImpl unit :=
  last ← gets mLastClosedLedger;
  let lastSeq := lh_ledgerSeq last.1 in
  if u32 (lastSeq + 1) =? lcd_ledgerSeq data then
    if isCatchupInitialized && negb catchupWorkIsDone then mret tt else closeLedger data
  else if lcd_ledgerSeq data <=? lastSeq then mret tt
  else modify (setState LM_CATCHING_UP_STATE).

(** Whether the catchup manager still has a buffered ledger after it has seen this
    one is an argument. *)
Definition valueExternalized (isCatchupInitialized catchupWorkIsDone hasBufferedLedger : bool)
    (data : LedgerCloseData) : M LedgerManagerImpl unit :=
  closeLedgerIf isCatchupInitialized catchupWorkIsDone data;;
  if hasBufferedLedger then mret tt else modify (setState LM_SYNCED_STATE).
End manager.
