(* ===== verification/ClientProps.v ===== *)
(** * Closing ledgers: what the clients leave

    What a level hands to the bucket list is a batch that fits the ledger below and
    leads to the ledger of the level.  Clients that work on the innermost level
    leave the others and the fixed part of the header alone; the client that closes
    a ledger leaves one open level with the header of the next ledger. *)

From S2P Require Import Prelude StateMonad Numeric LedgerEntries GeneralizedEntries OfferOrder LedgerTxn LedgerTxnProps LedgerTxnSpec LedgerTxnSteps LedgerTxnRoot LedgerTxnRootProps LedgerTxnRefine LedgerClient.
From S2P Require Import Bucket BucketMerge BucketList BucketLevels BucketFresh BucketListProps BucketApply CatchupProps PrepareLiabilities Transactions Upgrades LedgerManager.

(** ** The changes of a level as a batch *)

Lemma NoDup_omap_in {K A B} (f : K * A → option B) (l : list (K * A)) :
  NoDup l.*1 →
  (∀ kv1 kv2 b, kv1 ∈ l → kv2 ∈ l → f kv1 = Some b → f kv2 = Some b → kv1.1 = kv2.1) → NoDup (omap f l).
Proof.
  intros Hnd. induction l as [|kv l IH]; intros Hinj; simpl in *; [constructor|].
  apply NoDup_cons in Hnd as [Hni Hnd].
  assert (NoDup (omap f l)) as Hl by (apply IH; [done|]; intros; eapply Hinj; eauto using list_elem_of_further).
  destruct (f kv) as [b|] eqn:E; [|done]. constructor; [|done].
  intros (kv' & Hin & E')%list_elem_of_omap. destruct Hni.
  rewrite (Hinj kv kv' b); [by apply list_elem_of_fmap_2|by left|by right|done|done].
Qed.

(** The ledger as the bucket list sees it. *)
Definition ledger_at (σ : View) : Ledger := λ k,
  match σ !! GLedgerKey k with Some (GLedgerEntry le) => Some le | _ => None end.

Section batch.
Context (σ : View) (m : EntryMap).
Context (Hm : ∀ k e, m !! k = Some (Some e) → toKey e = k).

Definition batch_of : Batch := mkBatch (new_entries σ m) (changed_entries σ m) (dead_keys m).

Lemma elem_of_new le :
  le ∈ new_entries σ m ↔ m !! GLedgerKey (LedgerEntryKey le) = Some (Some (GLedgerEntry le)) ∧
                         σ !! GLedgerKey (LedgerEntryKey le) = None.
Proof.
  unfold new_entries. rewrite list_elem_of_omap. setoid_rewrite elem_of_map_to_list'. split.
  - intros ([k o] & Hk & Hf). simpl in *. destruct o as [[le'| |]|]; try done.
    destruct (σ !! k) eqn:E; [done|]. injection Hf as ->. pose proof (Hm _ _ Hk) as <-. done.
  - intros [Hk Hs]. exists (GLedgerKey (LedgerEntryKey le), Some (GLedgerEntry le)). simpl. by rewrite Hs.
Qed.

Lemma elem_of_changed le :
  le ∈ changed_entries σ m ↔ m !! GLedgerKey (LedgerEntryKey le) = Some (Some (GLedgerEntry le)) ∧
                             is_Some (σ !! GLedgerKey (LedgerEntryKey le)).
Proof.
  unfold changed_entries. rewrite list_elem_of_omap. setoid_rewrite elem_of_map_to_list'. split.
  - intros ([k o] & Hk & Hf). simpl in *. destruct o as [[le'| |]|]; try done.
    destruct (σ !! k) eqn:E; [|done]. injection Hf as ->. pose proof (Hm _ _ Hk) as <-. simpl in E. by rewrite E.
  - intros [Hk [e Hs]]. exists (GLedgerKey (LedgerEntryKey le), Some (GLedgerEntry le)). simpl. by rewrite Hs.
Qed.

Lemma elem_of_dead k : k ∈ dead_keys m ↔ m !! GLedgerKey k = Some None.
Proof.
  unfold dead_keys. rewrite list_elem_of_omap. setoid_rewrite elem_of_map_to_list'. split.
  - intros ([[k'| |] [o|]] & Hk & Hf); try done. by injection Hf as ->.
  - intros Hk. by exists (GLedgerKey k, None).
Qed.

Lemma elem_of_batch le :
  le ∈ new_entries σ m ++ changed_entries σ m ↔
  m !! GLedgerKey (LedgerEntryKey le) = Some (Some (GLedgerEntry le)).
Proof.
  rewrite elem_of_app, elem_of_new, elem_of_changed.
  destruct (σ !! GLedgerKey (LedgerEntryKey le)); split; [naive_solver|eauto|naive_solver|eauto].
Qed.

Lemma NoDup_batch : NoDup (batchKeys batch_of).
Proof.
  assert (NoDup (map_to_list m).*1) as Hnd by apply NoDup_fst_map_to_list.
  assert (∀ f : GeneralizedLedgerKey * option GeneralizedLedgerEntry → option LedgerEntry,
    (∀ kv le, f kv = Some le → kv.2 = Some (GLedgerEntry le)) → NoDup (omap f (map_to_list m))) as Hentries.
  { intros f Hf. apply NoDup_omap_in; [done|]. intros [k1 o1] [k2 o2] le H1 H2 E1%Hf E2%Hf.
    rewrite elem_of_map_to_list' in H1, H2. simpl in *. subst. by rewrite <- (Hm _ _ H1), <- (Hm _ _ H2). }
  unfold batchKeys, batch_of. simpl. apply NoDup_app. split_and!.
  - apply NoDup_fmap_2_strong.
    + intros x y Hx%elem_of_batch Hy%elem_of_batch E. rewrite E, Hy in Hx. congruence.
    + apply NoDup_app. split_and!.
      * apply Hentries. intros [k o] le. simpl. destruct o as [[]|], (σ !! k); try done. by intros [= ->].
      * intros le [_ H1]%elem_of_new [_ [? H2]]%elem_of_changed. congruence.
      * apply Hentries. intros [k o] le. simpl. destruct o as [[]|], (σ !! k); try done. by intros [= ->].
  - intros k (le & -> & Hle%elem_of_batch)%list_elem_of_fmap Hd%elem_of_dead. congruence.
  - apply NoDup_omap_in; [done|]. intros [k1 o1] [k2 o2] k _ _. simpl.
    destruct k1, k2, o1, o2; try done. by intros [= ->] [= ->].
Qed.

Lemma batch_valid : validBatch batch_of (ledger_at σ).
Proof.
  split; [apply NoDup_batch|]. intros e [_ He]%elem_of_new. unfold ledger_at. by rewrite He.
Qed.

Lemma batch_applied k : applyBatch batch_of (ledger_at σ) k = ledger_at (overlay m σ) k.
Proof.
  unfold applyBatch, batch_of, ledger_at. simpl. rewrite lookup_overlay.
  destruct (entryWith k _) as [e|] eqn:E.
  - apply entryWith_Some in E as [He <-]. apply elem_of_batch in He. by rewrite He.
  - destruct (decide (k ∈ dead_keys m)) as [Hd|Hd]; [apply elem_of_dead in Hd; by rewrite Hd|].
    destruct (m !! GLedgerKey k) as [[e|]|] eqn:Hk; [|by apply elem_of_dead in Hk|done].
    pose proof (Hm _ _ Hk) as HK. destruct e as [le| |]; [|done|done]. injection HK as <-.
    apply elem_of_batch in Hk. exfalso. revert E. unfold entryWith.
    destruct (list_find _ _) as [[i x]|] eqn:Hl; [done|]. apply list_find_None in Hl.
    by eapply Forall_forall in Hl.
Qed.
End batch.

(** ** Clients that leave the levels in place *)

Lemma bind_eq {S A B} (m : M S A) (f : A → M S B) s :
  (m ≫= f) s = match m s with Ok (a, s') => f a s' | Throw e => Throw e end.
Proof. done. Qed.

Lemma run_bind {S A B} (server : ∀ B, Request B → M S B) (c : Client A) (f : A → Client B) st :
  run server (c ≫= f) st = (run server c ≫= λ a, run server (f a)) st.
Proof.
  revert f st. induction c as [A a|A what|A C r k IH|A C c IHc k IH]; intros f st; [done|done| |].
  - change (run server (Ask r k ≫= f) st) with ((server _ r ≫= λ b, run server (k b ≫= f)) st).
    change (run server (Ask r k)) with (server _ r ≫= λ b, run server (k b)).
    rewrite M_bind_assoc, !bind_eq. destruct (server _ r st) as [[b st']|e]; [apply IH|done].
  - change (run server (Attempt c k ≫= f) st) with
      (match run server c st with
       | Ok (b, st') => run server (k (Some b) ≫= f) st'
       | Throw e =>
           if std_exception e then (server _ (Open true);; server _ Rollback;; run server (k None ≫= f)) st else Throw e
       end).
    rewrite (bind_eq (run server (Attempt c k))). cbn [run]. destruct (run server c st) as [[b st']|e]; [apply IH|].
    destruct (std_exception e); [|done]. rewrite !bind_eq.
    destruct (server _ (Open true) st) as [[u st1]|e1]; [|done]. rewrite !bind_eq.
    destruct (server _ Rollback st1) as [[u' st2]|e1]; [apply IH|done].
Qed.

Notation specRun := (run (@spec_serve)).

(** What holds when a client gets to its end on the specification. *)
Definition ends {A} (c : Client A) (st : SpecStack) (Q : A → SpecStack → Prop) : Prop :=
  match specRun c st with Ok (a, st') => Q a st' | Throw _ => True end.

Lemma ends_bind {A B} (c : Client A) (f : A → Client B) st Q :
  ends c st (λ a st', ends (f a) st' Q) → ends (c ≫= f) st Q.
Proof.
  unfold ends. rewrite run_bind. unfold mbind, M_bind. destruct (specRun c st) as [[a st']|e]; done.
Qed.

Lemma ends_ret {A} (a : A) st Q : Q a st → ends (mret a) st Q.
Proof. done. Qed.

Lemma ends_raise {A} what st Q : ends (A:=A) (Raise what) st Q.
Proof. done. Qed.

Lemma ends_ask {A} (r : Request A) st Q :
  match spec_serve r st with Ok (a, st') => Q a st' | Throw _ => True end → ends (ask r) st Q.
Proof.
  unfold ends, ask. change (specRun (Ask r Done) st) with ((spec_serve r ≫= λ b, mret b) st).
  unfold mbind, M_bind. by destruct (spec_serve r st) as [[a st']|e].
Qed.

Lemma ends_mono {A} (c : Client A) st (Q Q' : A → SpecStack → Prop) :
  (∀ a st', Q a st' → Q' a st') → ends c st Q → ends c st Q'.
Proof. unfold ends. intros HQ. destruct (specRun c st) as [[a st']|e]; auto. Qed.

Lemma ends_and {A} (c : Client A) st (Q Q' : A → SpecStack → Prop) :
  ends c st Q → ends c st Q' → ends c st (λ a st', Q a st' ∧ Q' a st').
Proof. unfold ends. destruct (specRun c st) as [[a st']|e]; auto. Qed.

(** From the protocol on in which buckets have no shadows, the client works on the
    innermost level, which it leaves open, and changes its header as allowed. *)
Notation modern h := (FIRST_PROTOCOL_SHADOWS_REMOVED ≤ lh_ledgerVersion h).

Definition tame_in (R : LedgerHeader → LedgerHeader → Prop) {A} (c : Client A) : Prop :=
  ∀ l ls σ h, v_sealed l = false → modern (v_header l) →
    ends c (mkSpecStack (l :: ls) σ h) (λ _ st', ∃ l', st' = mkSpecStack (l' :: ls) σ h ∧
      v_sealed l' = false ∧ R (v_header l) (v_header l')).

(** The version never goes back. *)
Class Grows (R : LedgerHeader → LedgerHeader → Prop) : Prop :=
  grows h h' : R h h' → lh_ledgerVersion h ≤ lh_ledgerVersion h'.

Section tame.
Context (R : LedgerHeader → LedgerHeader → Prop) `{!PreOrder R, !Grows R}.

Lemma tame_ret {A} (a : A) : tame_in R (mret a).
Proof. intros l ls σ h Hs _. apply ends_ret. by exists l. Qed.

Lemma tame_raise {A} what : tame_in R (Raise (A:=A) what).
Proof. intros l ls σ h Hs _. apply ends_raise. Qed.

Lemma tame_bind {A B} (c : Client A) (f : A → Client B) :
  tame_in R c → (∀ a, tame_in R (f a)) → tame_in R (c ≫= f).
Proof.
  intros Hc Hf l ls σ h Hs Hm. apply ends_bind. eapply ends_mono; [|by apply Hc].
  intros a st' (l' & -> & Hs' & HR). eapply ends_mono; [|apply Hf; [done|by etrans; [exact Hm|apply grows]]].
  intros b st'' (l'' & -> & Hs'' & HR'). exists l''. split_and!; [done|done|]. by etrans.
Qed.

Lemma tame_mono (R' : LedgerHeader → LedgerHeader → Prop) {A} (c : Client A) :
  (∀ h h', R' h h' → R h h') → tame_in R' c → tame_in R c.
Proof.
  intros HR Hc l ls σ h Hs Hm. eapply ends_mono; [|by apply Hc]. intros a st' (l' & -> & Hs' & ?). eauto 6.
Qed.

Lemma tame_forTxs {A B} (f : A → Client B) xs : Forall (λ x, tame_in R (f x)) xs → tame_in R (forTxs f xs).
Proof.
  induction 1 as [|x xs Hx _ IH]; cbn [forTxs]; [apply tame_ret|].
  apply tame_bind; [done|intros b]. apply tame_bind; [done|]. intros bs. apply tame_ret.
Qed.

(** *** The header *)

Lemma load_header l ls σ h (Q : Z → SpecStack → Prop) :
  v_sealed l = false →
  Q (v_next l) (mkSpecStack (LedgerTxnSpec.mkLevel (v_view l) (v_touched l) (v_header l) (v_stamp l) (v_active l)
                               (Some (v_next l)) (v_next l + 1) (v_consistency l) false :: ls) σ h) →
  ends (ask LoadHeader) (mkSpecStack (l :: ls) σ h) Q.
Proof.
  intros Hs HQ. apply ends_ask. destruct l as [view t hd stamp a ah n c sealed]. simpl in *. subst sealed.
  by destruct ah.
Qed.

Lemma current_header id l ls σ h (Q : LedgerHeader → SpecStack → Prop) :
  v_activeHeader l = Some id → Q (v_header l) (mkSpecStack (l :: ls) σ h) →
  ends (ask (CurrentHeader id)) (mkSpecStack (l :: ls) σ h) Q.
Proof.
  intros Ha HQ. apply ends_ask. destruct l. simpl in *. subst. unfold spec_innermost, spec_currentHeader. simpl.
  unfold mbind, M_bind, gets. simpl. by rewrite decide_True.
Qed.

Lemma write_header id hd l ls σ h (Q : unit → SpecStack → Prop) :
  v_activeHeader l = Some id → Q tt (mkSpecStack (set_headers hd (Some id) l :: ls) σ h) →
  ends (ask (WriteHeader id hd)) (mkSpecStack (l :: ls) σ h) Q.
Proof.
  intros Ha HQ. apply ends_ask. destruct l. simpl in *. subst. unfold spec_innermost, spec_writeHeader. simpl.
  unfold mbind, M_bind, gets. simpl. by rewrite decide_True.
Qed.

Lemma deactivate_header l ls σ h (Q : unit → SpecStack → Prop) :
  Q tt (mkSpecStack (set_headers (v_header l) None l :: ls) σ h) →
  ends (ask DeactivateHeader) (mkSpecStack (l :: ls) σ h) Q.
Proof. intros HQ. apply ends_ask. destruct l as [? ? ? ? ? [] ? ? ?]; done. Qed.

Lemma tame_modifyHeader f : (∀ h, R h (f h)) → tame_in R (modifyHeader f).
Proof.
  intros Hf l ls σ h Hs _. apply ends_bind, load_header; [done|]. apply ends_bind, current_header; [done|].
  apply ends_bind, write_header; [done|]. apply deactivate_header. eexists. split_and!; [done|done|apply Hf].
Qed.

Lemma tame_readHeader : tame_in R readHeader.
Proof.
  intros l ls σ h Hs _. apply ends_bind, load_header; [done|]. apply ends_bind, current_header; [done|].
  apply ends_bind, deactivate_header. apply ends_ret. eexists. split_and!; [done|done|reflexivity].
Qed.

(** *** Nested levels *)

Lemma open_ends b l ls σ h (Q : unit → SpecStack → Prop) :
  v_sealed l = false →
  Q tt (mkSpecStack (spec_newLevel (v_view l) (v_header l) b :: spec_addChild l :: ls) σ h) →
  ends (ask (Open b)) (mkSpecStack (l :: ls) σ h) Q.
Proof. intros Hs HQ. apply ends_ask. simpl. unfold spec_open. simpl. by rewrite Hs. Qed.

(** The level below after a commit. *)
Definition closed (l p : Level) (ls : list Level) σ h (st : SpecStack) : Prop :=
  ∃ p', st = mkSpecStack (p' :: ls) σ h ∧ v_sealed p' = v_sealed p ∧ v_header p' = v_header l.

Lemma commit_ends l p ls σ h (Q : unit → SpecStack → Prop) :
  (∀ st', closed l p ls σ h st' → Q tt st') → ends (ask Commit) (mkSpecStack (l :: p :: ls) σ h) Q.
Proof. intros HQ. apply ends_ask. simpl. apply HQ. by eexists. Qed.

Lemma changes_ends {A} (k : Client A) l ls σ h (Q : A → SpecStack → Prop) :
  ends k (mkSpecStack (spec_seal l :: ls) σ h) Q → ends (_ ← ask GetChanges; k) (mkSpecStack (l :: ls) σ h) Q.
Proof.
  intros HQ. apply ends_bind, ends_ask. simpl. unfold spec_getChanges, guard_exact. simpl.
  unfold spec_innermost. simpl. rewrite M_bind_assoc, bind_gets. by destruct (v_consistency l).
Qed.

(** A level that is committed. *)
Lemma nested_ends {A} (c : Client (bool * A)) l ls σ h (Q : A → SpecStack → Prop) :
  v_sealed l = false →
  ends c (mkSpecStack (spec_newLevel (v_view l) (v_header l) true :: spec_addChild l :: ls) σ h)
    (λ r st', ∃ l', st' = mkSpecStack (l' :: spec_addChild l :: ls) σ h ∧ r.1 = true ∧
                    ∀ st'', closed l' l ls σ h st'' → Q r.2 st'') →
  ends (nested c) (mkSpecStack (l :: ls) σ h) Q.
Proof.
  intros Hs Hc. apply ends_bind, open_ends; [done|]. apply ends_bind.
  eapply ends_mono; [|exact Hc]. intros [b a] st' (l' & -> & [= ->] & HQ). apply ends_bind, commit_ends.
  intros st' Hst'. apply ends_ret, HQ, Hst'.
Qed.

(** A level that is sealed by asking for its changes. *)
Lemma tame_nested {A} (c : Client A) :
  tame_in R c → tame_in R (nested (a ← c; _ ← ask GetChanges; mret (true, a))).
Proof.
  intros Hc l ls σ h Hs Hm. apply nested_ends; [done|]. apply ends_bind.
  eapply ends_mono; [|by apply Hc]. intros a st' (l' & -> & _ & HR). apply changes_ends, ends_ret.
  eexists. split_and!; [done|done|]. intros st' (p' & -> & Hs' & Hh). exists p'. by rewrite Hs', Hh.
Qed.

Lemma tame_attempt {A B} (c : Client B) (k : option B → Client A) :
  tame_in R c → (∀ o, tame_in R (k o)) → tame_in R (Attempt c k).
Proof.
  intros Hc Hk l ls σ h Hs Hm. unfold ends. cbn [run]. specialize (Hc l ls σ h Hs Hm). unfold ends in Hc.
  destruct (specRun c _) as [[b st']|e].
  - destruct Hc as (l' & -> & Hs' & HR). specialize (Hk (Some b) l' ls σ h Hs' ltac:(by etrans; [exact Hm|apply grows])). unfold ends in Hk.
    destruct (specRun (k (Some b)) _) as [[a st'']|e]; [|done].
    destruct Hk as (l'' & -> & ? & HR'). exists l''. split_and!; [done|done|by etrans].
  - destruct (std_exception e); [|done]. rewrite bind_eq. simpl spec_serve. unfold spec_open. simpl. rewrite Hs.
    rewrite bind_eq. simpl spec_serve. unfold spec_rollback. simpl.
    specialize (Hk None (spec_addChild l) ls σ h Hs Hm). unfold ends in Hk.
    by destruct (specRun (k None) _) as [[a st'']|e1].
Qed.
End tame.

(** ** Requests that use the innermost level only *)

Definition same_header (l l' : Level) : Prop := v_sealed l' = v_sealed l ∧ v_header l' = v_header l.

#[export] Instance same_header_preorder : PreOrder same_header.
Proof. split; [done|]. intros l1 l2 l3 [] []. split; congruence. Qed.

Definition plain {A} (r : Request A) : bool :=
  match r with
  | Create _ | CreateOrUpdate _ | Load _ | LoadWithoutRecord _ | Erase _ | EraseWithoutLoading _
  | Current _ | Write _ _ | Deactivate _ | Release _ | EraseHandle _ | LoadBestOffer _ _ | LoadAllOffers
  | LoadOffersByAccountAndAsset _ _ | LoadHeader | CurrentHeader _ | DeactivateHeader | ReleaseHeader _
  | Warm _ _ _ => true
  | _ => false
  end.

Lemma keeps_header_modify f : (∀ l, same_header l (f l)) → keeps same_header (modify f).
Proof. apply keeps_modify. Qed.

Lemma keeps_new_id : keeps same_header new_id.
Proof. intros l. by eapply wp_run. Qed.

#[local] Hint Resolve keeps_new_id : keeps.
#[local] Hint Extern 2 (keeps same_header (modify _)) => apply keeps_header_modify; intros ?; split; reflexivity : keeps.
#[local] Hint Extern 1 (keeps same_header (spec_current _)) => apply keeps_reads; apply _ : keeps.

Lemma keeps_loadKeys σ keys : keeps same_header (spec_loadKeys σ keys).
Proof. induction keys; cbn [spec_loadKeys]; unfold spec_load, guard_open, activate in *; solve_keeps. Qed.

#[local] Hint Resolve keeps_loadKeys : keeps.

Lemma tame_innermost R `{!PreOrder R} {A} (r : Request A) (m : View → LedgerHeader → M Level A) :
  spec_serve r = spec_innermost m → (∀ σ h, keeps same_header (m σ h)) → tame_in R (ask r).
Proof.
  intros Hr Hm l ls σ h Hs _. apply ends_ask. rewrite Hr. unfold spec_innermost. cbn [s_levels].
  match goal with |- context [m ?x ?y l] => specialize (Hm x y l); destruct (m x y l) as [[a l']|e] eqn:E end; [|done].
  eapply wp_Ok in Hm as [Hs' Hh]; [|exact E]. cbn [mbind res_bind]. exists l'. rewrite Hs', Hh. by split_and!.
Qed.

Lemma tame_plain R `{!PreOrder R} {A} (r : Request A) : plain r = true → tame_in R (ask r).
Proof.
  destruct r; try done; intros _; try (eapply tame_innermost; [apply _|reflexivity|intros ? ?; cbv beta]).
  - unfold spec_create, guard_open, activate. solve_keeps.
  - unfold spec_createOrUpdate, guard_open. solve_keeps.
  - unfold spec_load, guard_open, activate. solve_keeps.
  - unfold spec_loadWithoutRecord, guard_open. solve_keeps.
  - unfold spec_erase, guard_open. solve_keeps.
  - unfold spec_eraseWithoutLoading, guard_open. solve_keeps.
  - solve_keeps.
  - unfold spec_write. solve_keeps.
  - unfold spec_deactivate. solve_keeps.
  - unfold spec_release, spec_deactivate. solve_keeps.
  - unfold spec_eraseHandle, spec_erase, guard_open. solve_keeps.
  - unfold spec_loadBestOffer, spec_load, guard_open, activate. solve_keeps.
  - unfold spec_loadAllOffers, guard_open. solve_keeps.
  - unfold spec_loadOffersByAccountAndAsset, guard_open. solve_keeps.
  - unfold spec_loadHeader, guard_open. solve_keeps.
  - unfold spec_currentHeader. solve_keeps.
  - unfold spec_deactivateHeader. solve_keeps.
  - unfold spec_releaseHeader, spec_deactivateHeader. solve_keeps.
  - intros l ls σ h Hs _. apply ends_ask. by exists l.
Qed.

(** ** The header of a closed ledger *)

(** Transactions change the coins, the fees and the numbers of the header only. *)
Definition only_pools (h h' : LedgerHeader) : Prop :=
  ∃ coins fees inflation ids,
    h' = mkLedgerHeader (lh_ledgerVersion h) (lh_previousLedgerHash h) (lh_scpValue h) (lh_txSetResultHash h)
           (lh_bucketListHash h) (lh_ledgerSeq h) coins fees inflation ids (lh_baseFee h) (lh_baseReserve h)
           (lh_maxTxSetSize h) (lh_skipList h).

Notation tame := (tame_in only_pools).

(** Upgrades raise the version. *)
Record upgraded (h h' : LedgerHeader) : Prop := {
  up_version : lh_ledgerVersion h ≤ lh_ledgerVersion h';
  up_seq : lh_ledgerSeq h' = lh_ledgerSeq h;
  up_previous : lh_previousLedgerHash h' = lh_previousLedgerHash h;
  up_value : lh_scpValue h' = lh_scpValue h
}.

#[export] Instance only_pools_preorder : PreOrder only_pools.
Proof.
  split.
  - intros h. destruct h. by repeat eexists.
  - intros h1 h2 h3 (? & ? & ? & ? & ->) (? & ? & ? & ? & ->). by repeat eexists.
Qed.

#[export] Instance upgraded_preorder : PreOrder upgraded.
Proof.
  split.
  - intros h. by split.
  - intros h1 h2 h3 [] []. split; [lia|congruence..].
Qed.

#[export] Instance only_pools_grows : Grows only_pools.
Proof. by intros h h' (? & ? & ? & ? & ->). Qed.

#[export] Instance upgraded_grows : Grows upgraded.
Proof. by intros h h' []. Qed.

Lemma only_pools_upgraded h h' : only_pools h h' → upgraded h h'.
Proof. intros (? & ? & ? & ? & ->). by split. Qed.

Definition tame_tx (tx : TransactionFrameBase) : Prop :=
  (∀ fee, tame (tx_processFeeSeqNum tx fee)) ∧ ∀ frame, tame (tx_apply tx frame).

Lemma txs_impl (P Q : TransactionFrameBase → Prop) txs : Forall P txs → (∀ tx, P tx → Q tx) → Forall Q txs.
Proof. induction 1; intros HPQ; constructor; auto. Qed.

(** The same for transactions with what their fees have left. *)
Lemma frames_impl (P : TransactionFrameBase → Prop) (Q : TransactionFrameBase * FrameResult → Prop) txs frames :
  Forall P txs → (∀ tx frame, P tx → Q (tx, frame)) → Forall Q (zip txs frames).
Proof.
  intros HP HPQ. revert frames. induction HP as [|tx txs]; intros [|frame frames]; constructor; auto.
Qed.

Ltac solve_tame :=
  repeat first
    [ solve [apply tame_ret; apply _ | apply tame_raise | apply tame_readHeader; apply _
            | apply tame_plain; [apply _|reflexivity]]
    | apply tame_nested | apply tame_bind; [apply _|apply _| |intros ?]
    | apply tame_forTxs; [apply _|apply _|eapply txs_impl; [eassumption|intros ? [? ?]; cbv beta]] | case_match ].

Lemma tame_processFees txs fee :
  Forall tame_tx txs → tame (processFeesSeqNums txs fee).
Proof.
  intros Htx l ls σ h Hs Hm. apply nested_ends; [done|]. apply ends_bind.
  eapply ends_mono; [|by apply (tame_readHeader only_pools)]. intros hd st' (l1 & -> & Hs1 & HR1).
  apply ends_bind. eapply ends_mono.
  2: { eapply (tame_forTxs only_pools); [|exact Hs1|etrans; [exact Hm|exact (grows _ _ HR1)]]. eapply txs_impl; [exact Htx|].
       intros tx [Hfee _]. solve_tame. apply Hfee. }
  intros frames st' (l2 & -> & Hs2 & HR2). apply ends_ret. exists l2. split_and!; [done|done|].
  intros st' (p' & -> & Hs' & Hh). exists p'. rewrite Hs', Hh. split_and!; [done|done|by etrans].
Qed.

Lemma tame_applyTransactions store txs frames :
  Forall tame_tx txs → tame (applyTransactions store (zip txs frames)).
Proof.
  intros Htx. unfold applyTransactions. apply tame_bind; [apply _|apply _|solve_tame|intros _].
  apply tame_bind; [apply _|apply _| |intros results; solve_tame]. apply tame_forTxs; [apply _|apply _|].
  eapply frames_impl; [exact Htx|]. intros tx frame [_ Ha]. solve_tame. apply Ha.
Qed.

Lemma attempt_ends {B} (c : Client B) l ls σ h (Q : unit → SpecStack → Prop) :
  v_sealed l = false → ends c (mkSpecStack (l :: ls) σ h) (λ _, Q tt) →
  Q tt (mkSpecStack (spec_addChild l :: ls) σ h) →
  ends (Attempt c (λ _, mret tt)) (mkSpecStack (l :: ls) σ h) Q.
Proof.
  intros Hs Hc Hfail. unfold ends in *. cbn [run]. destruct (specRun c _) as [[b st']|e]; [done|].
  destruct (std_exception e); [|done]. rewrite bind_eq. simpl spec_serve. unfold spec_open. simpl. by rewrite Hs.
Qed.

Lemma readHeader_ends l ls σ h (Q : LedgerHeader → SpecStack → Prop) :
  v_sealed l = false →
  (∀ l', v_sealed l' = false → v_header l' = v_header l → v_view l' = v_view l → Q (v_header l) (mkSpecStack (l' :: ls) σ h)) →
  ends readHeader (mkSpecStack (l :: ls) σ h) Q.
Proof.
  intros Hs HQ. apply ends_bind, load_header; [done|]. apply ends_bind, current_header; [done|].
  apply ends_bind, deactivate_header. apply ends_ret. by apply HQ.
Qed.

Lemma root_open_ends b σ h (Q : unit → SpecStack → Prop) :
  Q tt (mkSpecStack [spec_newLevel σ h b] σ h) → ends (ask (Open b)) (mkSpecStack [] σ h) Q.
Proof. intros HQ. by apply ends_ask. Qed.

Lemma all_entries_ends l σ h (Q : _ → SpecStack → Prop) :
  Q (new_entries σ (spec_entries l), changed_entries σ (spec_entries l), dead_keys (spec_entries l))
    (mkSpecStack [spec_seal l] σ h) →
  ends (ask GetAllEntries) (mkSpecStack [l] σ h) Q.
Proof. intros HQ. by apply ends_ask. Qed.

Section closing.
Context (sha256 : list Z → list Z) (xdr_results : list (list Z * FrameResult) → list Z).
Context (decode : list Z → option LedgerUpgrade).
Context (LEDGER_PROTOCOL_VERSION : Z) (MODE_STORES_HISTORY : bool).
Context (Hprep : ∀ header, tame (prepareLiabilities header)).

Lemma applyTo_ends u l ls σ h :
  v_sealed l = false → modern (v_header l) →
  match u with LEDGER_UPGRADE_VERSION v => lh_ledgerVersion (v_header l) < v | _ => True end →
  ends (applyTo u) (mkSpecStack (l :: ls) σ h) (λ _ st', ∃ l',
    st' = mkSpecStack (l' :: ls) σ h ∧ v_sealed l' = false ∧ upgraded (v_header l) (v_header l')).
Proof.
  intros Hs Hm Hu.
  assert (∀ (b : bool) id (l1 : Level), v_sealed l1 = false → upgraded (v_header l) (v_header l1) →
    ends ((if b then prepareLiabilities id else mret tt);; ask DeactivateHeader) (mkSpecStack (l1 :: ls) σ h)
      (λ _ st', ∃ l', st' = mkSpecStack (l' :: ls) σ h ∧ v_sealed l' = false ∧
                      upgraded (v_header l) (v_header l'))) as Hlast.
  { intros b id l1 Hs1 Hup. apply ends_bind. eapply ends_mono.
    2: { assert (tame (if b then prepareLiabilities id else mret tt)) as Ht by (destruct b; [done|solve_tame]).
         apply Ht; [done|]. etrans; [exact Hm|exact (grows _ _ Hup)]. }
    intros _ st' (l2 & -> & Hs2 & Hp). apply deactivate_header. eexists. split_and!; [done|done|].
    etrans; [done|]. by apply only_pools_upgraded. }
  destruct u as [v|v|v|v]; simpl.
  2,3: by apply (tame_modifyHeader upgraded).
  1,2: apply ends_bind, load_header; [done|]; apply ends_bind, current_header; [done|];
       apply ends_bind, write_header; [done|]; apply Hlast; [done|].
  - split; try done. simpl. lia.
  - by split.
Qed.

Lemma applyUpgrade_tame opaque :
  tame_in upgraded (applyUpgrade decode LEDGER_PROTOCOL_VERSION opaque).
Proof.
  intros l ls σ h Hs Hm. apply ends_bind, readHeader_ends; [done|]. intros l1 Hs1 Hh1 _.
  unfold isValidForApply. destruct (decode opaque) as [u|]; [|apply ends_raise].
  match goal with |- context [if ?b then VALID else INVALID] => destruct b eqn:Hvalid end; [|apply ends_raise].
  apply attempt_ends; [done| |].
  - apply nested_ends; [done|]. apply ends_bind. eapply ends_mono.
    2: { apply (applyTo_ends u); [done|by simpl; rewrite Hh1|]. simpl. rewrite Hh1. destruct u; try done.
         apply andb_true_iff in Hvalid as [_ ?%Z.ltb_lt]. done. }
    intros _ st' (l2 & -> & Hs2 & Hup). apply ends_bind, readHeader_ends; [done|]. intros l3 Hs3 Hh3 _.
    apply changes_ends, ends_ret. eexists. split_and!; [done|done|]. intros st' (p' & -> & Hs' & Hh'). exists p'. simpl in *.
    rewrite Hs', Hh', Hh3. split_and!; [done|done|]. by rewrite <- Hh1.
  - eexists. split_and!; [done|done|]. simpl. by rewrite Hh1.
Qed.

Lemma closeClient_ends lastHash data σ h :
  Forall tame_tx (lcd_txs data) → modern h →
  ends (closeClient sha256 xdr_results decode LEDGER_PROTOCOL_VERSION MODE_STORES_HISTORY
          lastHash data) (mkSpecStack [] σ h)
    (λ _ st', ∃ l, st' = mkSpecStack [l] σ h ∧ v_sealed l = false ∧
       lh_ledgerSeq (v_header l) = u32 (lh_ledgerSeq h + 1) ∧
       lh_previousLedgerHash (v_header l) = lastHash ∧
       lh_scpValue (v_header l) = lcd_value data ∧
       lh_ledgerVersion h ≤ lh_ledgerVersion (v_header l)).
Proof.
  intros Htx Hm. unfold closeClient. apply ends_bind, root_open_ends.
  apply ends_bind, load_header; [done|]. apply ends_bind, current_header; [done|].
  apply ends_bind, write_header; [done|]. simpl v_header.
  destruct (_ <? _); [apply ends_raise|]. destruct (negb _); [apply ends_raise|].
  destruct (negb _); [apply ends_raise|].
  apply ends_bind, current_header; [done|]. apply ends_bind, write_header; [done|].
  apply ends_bind, current_header; [done|]. simpl v_header.
  set (h1 := set_scpValue _ _). assert (modern h1) as Hm0 by done.
  apply ends_bind. eapply ends_mono; [|by apply tame_processFees].
  intros frames st' (l1 & -> & Hs1 & Hh1%only_pools_upgraded). cbn [v_header set_headers] in Hh1.
  assert (modern (v_header l1)) as Hm1 by (etrans; [exact Hm0|exact (grows _ _ Hh1)]). apply ends_bind.
  eapply ends_mono; [|by apply tame_applyTransactions].
  intros results st' (l2 & -> & Hs2 & Hh2%only_pools_upgraded).
  assert (modern (v_header l2)) as Hm2 by (etrans; [exact Hm1|exact (grows _ _ Hh2)]). apply ends_bind.
  eapply ends_mono; [|by apply (tame_modifyHeader upgraded)].
  intros _ st' (l3 & -> & Hs3 & Hh3).
  assert (modern (v_header l3)) as Hm3 by (etrans; [exact Hm2|exact (grows _ _ Hh3)]). apply ends_bind.
  eapply ends_mono; [|apply (tame_forTxs upgraded); [|done|done]; apply Forall_true; intros; apply applyUpgrade_tame].
  intros _ st' (l4 & -> & Hs4 & Hh4). apply ends_ret. exists l4.
  assert (upgraded h1 (v_header l4)) as [] by (by do 3 (etrans; [done|])). by split_and!.
Qed.

Lemma sealClient_ends l σ h :
  v_sealed l = false →
  ends sealClient (mkSpecStack [l] σ h) (λ r st', ∃ l', st' = mkSpecStack [spec_seal l'] σ h ∧
    v_header l' = v_header l ∧ v_view l' = v_view l ∧ r = (lh_ledgerSeq (v_header l), lh_ledgerVersion (v_header l),
      (new_entries σ (spec_entries l'), changed_entries σ (spec_entries l'), dead_keys (spec_entries l')))).
Proof.
  intros Hs. apply ends_bind, readHeader_ends; [done|]. intros l1 Hs1 Hh1 Hv1.
  apply ends_bind, readHeader_ends; [done|]. intros l2 Hs2 Hh2 Hv2. apply ends_bind, all_entries_ends.
  apply ends_ret. exists l2. by rewrite Hh2, Hh1, Hv2, Hv1.
Qed.
End closing.
