(* ===== verification/OfferTermination.v ===== *)
(** * Crossing offers ends

    The loop that converts with the best offers of the book takes one offer per
    round and stops when it has taken as many as it may: fuel for one more round is
    enough, and what the loop does then does not depend on the fuel. *)

From S2P Require Import Prelude StateMonad Numeric Exchange LedgerEntries GeneralizedEntries Accounts LedgerTxn LedgerTxnProps LedgerTxnSpec LedgerTxnRefine LedgerClient Sponsorship TrustLines OfferCrossing ClientProps.

(** Whatever the answers, the value that the client ends with has the property. *)
Fixpoint returns {A} (c : Client A) : (A → Prop) → Prop :=
  match c with
  | Done a => λ P, P a
  | Raise _ => λ _, True
  | Ask _ k => λ P, ∀ b, returns (k b) P
  | Attempt _ k => λ P, ∀ o, returns (k o) P
  end.

Lemma returns_run {S A} (server : ∀ B, Request B → M S B) (c : Client A) P st a st' :
  returns c P → run server c st = Ok (a, st') → P a.
Proof.
  revert st. induction c as [A a'|A e|A B r k IH|A B c _ k IH]; intros st HP; simpl in *.
  - by intros [= <- _].
  - done.
  - unfold mbind, M_bind. destruct (server B r st) as [[b st1]|e]; [|done]. by apply IH.
  - destruct (run server c st) as [[b st1]|e]; [by apply IH|]. destruct (std_exception e); [|done].
    unfold mbind, M_bind. destruct (server _ (Open true) st) as [[? st1]|]; [|done].
    destruct (server _ Rollback st1) as [[? st2]|]; [|done]. by apply IH.
Qed.

Lemma returns_bind {A B} (c : Client A) (k : A → Client B) Q P :
  returns c Q → (∀ a, Q a → returns (k a) P) → returns (c ≫= k) P.
Proof.
  revert k Q. induction c as [A a|A e|A C r f IH|A C c _ f IH]; intros k Q Hc Hk; simpl in *; [by apply Hk|done|..];
    intros b; by eapply IH.
Qed.

Lemma returns_true {A} (c : Client A) : returns c (λ _, True).
Proof. induction c; simpl; auto. Qed.

Lemma returns_any {A B} (c : Client A) (k : A → Client B) P :
  (∀ a, returns (k a) P) → returns (c ≫= k) P.
Proof. intros Hk. eapply returns_bind; [apply returns_true|auto]. Qed.

Lemma returns_withEntry {A} c (f : Handle → Client A) P : (∀ h, returns (f h) P) → returns (withEntry c f) P.
Proof.
  intros Hf. apply returns_any. intros h. eapply returns_bind; [apply Hf|]. intros a Ha. by apply returns_any.
Qed.

Lemma returns_withHeader {A} (f : Z → Client A) P : (∀ h, returns (f h) P) → returns (withHeader f) P.
Proof.
  intros Hf. apply returns_any. intros h. eapply returns_bind; [apply Hf|]. intros a Ha. by apply returns_any.
Qed.

Lemma returns_withLine {A} c (f : TrustLineWrapper → Client A) P : (∀ l, returns (f l) P) → returns (withLine c f) P.
Proof.
  intros Hf. apply returns_any. intros h. eapply returns_bind; [apply Hf|]. intros a Ha. by apply returns_any.
Qed.

Lemma returns_nested {A} (c : Client (bool * A)) P : returns c (λ r, P r.2) → returns (nested c) P.
Proof.
  intros Hc. apply returns_any. intros _. eapply returns_bind; [exact Hc|]. intros [committed a] Ha. by apply returns_any.
Qed.

(** An offer that is crossed is added to the trail. *)
Definition one_more {A} (f : A → CrossOfferResult * list ClaimOfferAtom) (trail : list ClaimOfferAtom) (r : A) : Prop :=
  (f r).1 = eOfferCantConvert ∨ ∃ atom, (f r).2 = trail ++ [atom].

Lemma crossOffer_trail offer w s trail :
  returns (crossOffer offer w s trail) (one_more (λ '(cor, _, _, trail), (cor, trail)) trail).
Proof.
  unfold crossOffer. do 3 (apply returns_any; intros ?). apply returns_any. intros [[[result numWheat] numSheep] newAmount].
  case_decide; [by left|]. apply returns_any. intros _. apply returns_any. intros ok. destruct (negb ok); [by left|].
  apply returns_any. intros ok'. destruct (negb ok'); [by left|]. right. by eexists.
Qed.

Lemma crossOfferV10_trail offer w s round trail :
  returns (crossOfferV10 offer w s round trail) (one_more (λ '(cor, _, _, _, trail), (cor, trail)) trail).
Proof.
  unfold crossOfferV10. do 2 (apply returns_any; intros ?). apply returns_withHeader. intros header.
  do 2 (apply returns_any; intros ?). destruct (negb _); [done|]. apply returns_any. intros _.
  apply returns_withEntry. intros accountB. apply returns_withLine. intros sheepLine. apply returns_withLine. intros wheatLine.
  do 10 (apply returns_any; intros ?). right. by eexists.
Qed.

Section convert.
Context {B : Type} (sheep wheat : Asset) (round : RoundingType) (filter : Handle → Client (option B)) (maxOffersToCross : Z).

Notation crossBest := (crossBest sheep wheat round filter maxOffersToCross).
Notation convertLoop := (convertLoop sheep wheat round filter maxOffersToCross).
Notation convertWithOffers := (convertWithOffers sheep wheat round filter maxOffersToCross).

(** A round crosses one more offer, if there may be one more. *)
Definition crossed (trail : list ClaimOfferAtom) (step : CrossStep B) : Prop :=
  match step with
  | StepCrossed _ _ _ _ trail' => Z.of_nat (length trail) < u64 maxOffersToCross ∧ length trail' = S (length trail)
  | _ => True
  end.

Lemma crossBest_crossed s w trail : returns (crossBest s w trail) (crossed trail).
Proof.
  apply returns_nested, returns_withEntry. intros [h|]; [|done]. apply returns_any. intros [why|]; [done|].
  destruct (Z.leb_spec (u64 maxOffersToCross) (Z.of_nat (length trail))) as [|Hlt]; [done|].
  apply returns_any. intros version.
  eapply (returns_bind _ _ (one_more (λ '(cor, _, _, _, trail), (cor, trail)) trail)).
  - destruct (10 <=? version).
    + eapply returns_bind; [apply crossOfferV10_trail|]. by intros [[[[cor w'] s'] stays] trail'].
    + eapply returns_bind; [apply crossOffer_trail|]. by intros [[[cor w'] s'] trail'].
  - intros [[[[cor numWheat] numSheep] needMore] trail'] Hone. do 4 (apply returns_any; intros ?).
    case_decide as Hcor; [done|]. destruct Hone as [Hone|[atom Hone]]; simpl in Hone; [done|]. subst trail'.
    split; [done|]. rewrite length_app. simpl. lia.
Qed.

Lemma convertLoop_fuel {S} (server : ∀ B, Request B → M S B) f1 f2 ms mw s w trail st :
  let n := Z.of_nat (length trail) in
  n ≤ u64 maxOffersToCross → u64 maxOffersToCross < n + Z.of_nat f1 → u64 maxOffersToCross < n + Z.of_nat f2 →
  run server (convertLoop f1 ms mw s w trail) st = run server (convertLoop f2 ms mw s w trail) st.
Proof.
  cbv zeta. revert f2 ms mw s w trail st. induction f1 as [|f1 IH]; intros f2 ms mw s w trail st Hn H1 H2; [lia|].
  destruct f2 as [|f2]; [lia|]. cbn [OfferCrossing.convertLoop]. rewrite !run_bind, !bind_eq.
  destruct (run server (crossBest ms mw trail) st) as [[step st']|e] eqn:Hrun; [|done].
  pose proof (returns_run server _ _ _ _ _ (crossBest_crossed ms mw trail) Hrun) as Hc.
  destruct step as [|r|cor numWheat numSheep needMore trail']; [done|done|]. destruct Hc as [Hlt Hlen].
  destruct (negb _); [done|]. case_decide; [done|]. apply IH; rewrite Hlen; lia.
Qed.

(** C40: converting an amount with the offers of the book ends, whatever the ledger and
    the filter answer: at most as many rounds as offers may be crossed are followed by
    another one.  With fuel for these rounds and the last one the model does what it
    does with any more of it, in particular it does not run out. *)
Theorem convertWithOffers_ends {S} (server : ∀ B, Request B → M S B) fuel more ms mw st :
  u64 maxOffersToCross < Z.of_nat fuel →
  run server (convertWithOffers (fuel + more) ms mw) st = run server (convertWithOffers fuel ms mw) st.
Proof.
  intros Hf. unfold OfferCrossing.convertWithOffers. destruct (_ && _); [|done].
  apply convertLoop_fuel; simpl; [|lia..]. unfold u64. apply Z.mod_pos_bound. lia.
Qed.
End convert.

(** Three offers for the same assets, of which at most two may be crossed. *)
Module BookExample.
Definition usd : Asset := ASSET_TYPE_CREDIT_ALPHANUM4 [85; 83; 68; 0] [2].
Definition account : LedgerEntry :=
  mkLedgerEntry 1 (ACCOUNT (mkAccount [2] 10000 0 3 None 0 [] [1; 0; 0; 0] []
    (Some (mkAccountV1 (mkLiabilities 0 300) None)))) None.
Definition offer (id : Z) : LedgerEntry :=
  mkLedgerEntry 1 (OFFER (mkOffer [2] id ASSET_TYPE_NATIVE usd 100 (mkPrice 1 1) 0)) None.
Definition header : LedgerHeader :=
  mkLedgerHeader 15 [] (mkDiamnetValue [] 0 [] None) [] [] 1 10000 0 0 0 100 100 100 [].
Definition view : View :=
  list_to_map ((λ e, (toKey (GLedgerEntry e), GLedgerEntry e)) <$> [account; offer 1; offer 2; offer 3]).
Definition start : SpecStack := mkSpecStack [spec_newLevel view header true] view header.
Definition convert (fuel : nat) : Client (ConvertResult unit * Z * Z * list ClaimOfferAtom) :=
  convertWithOffers usd ASSET_TYPE_NATIVE NORMAL (λ _, mret None) 2 fuel 250 250.
Definition result (fuel : nat) : option (ConvertResult unit * Z * Z * nat) :=
  match run (@spec_serve) (convert fuel) start with
  | Ok (r, sent, received, trail, _) => Some (r, sent, received, length trail)
  | Throw _ => None
  end.
End BookExample.

Lemma convertWithOffers_ends_witness :
  BookExample.result (3 + 1000) = Some (eCrossedTooMany, 200, 200, 2%nat).
Proof.
  unfold BookExample.result, BookExample.convert.
  rewrite (convertWithOffers_ends BookExample.usd ASSET_TYPE_NATIVE NORMAL (λ _, mret None) 2 (@spec_serve) 3 1000).
  - vm_compute. reflexivity.
  - vm_compute. reflexivity.
Defined.
