(* ===== verification/ClientLogic.v ===== *)
(** * Reasoning about clients of the ledger

    A weakest precondition for clients that work on the innermost level: what holds
    of the level when the client gets to its end.  The rules follow the idioms of
    [LedgerClient]. *)

From S2P Require Import Prelude StateMonad Numeric LedgerEntries GeneralizedEntries Accounts OfferOrder LedgerTxn LedgerTxnProps LedgerTxnSpec LedgerTxnRefine LedgerClient.
From S2P Require Import Upgrades LedgerManager ClientProps.

Definition lwp {A} (c : Client A) (Q : A → Level → Prop) (l : Level) : Prop :=
  v_sealed l = false → ∀ ls σ h,
    ends c (mkSpecStack (l :: ls) σ h) (λ a st', ∃ l', st' = mkSpecStack (l' :: ls) σ h ∧ v_sealed l' = false ∧ Q a l').

(** The ledger and the header are left alone. *)
Definition same_view (l l' : Level) : Prop := v_view l' = v_view l ∧ v_header l' = v_header l.

#[export] Instance same_view_preorder : PreOrder same_view.
Proof. split; [done|]. intros l1 l2 l3 [] []. split; congruence. Qed.

(** The same where the client may have sealed the level. *)
Definition swp {A} (c : Client A) (Q : A → Level → Prop) (l : Level) : Prop :=
  ∀ ls σ h, ends c (mkSpecStack (l :: ls) σ h) (λ a st', ∃ l', st' = mkSpecStack (l' :: ls) σ h ∧ Q a l').

Section rules.
Context {A B : Type}.
Implicit Types (Q : A → Level → Prop) (l : Level).

Lemma lwp_ret (a : A) Q l : Q a l → lwp (mret a) Q l.
Proof. intros HQ Hs ls σ h. apply ends_ret. by exists l. Qed.

Lemma lwp_raise e Q l : lwp (Raise e) Q l.
Proof. intros Hs ls σ h. apply ends_raise. Qed.

Lemma lwp_bind (c : Client B) (f : B → Client A) Q l :
  lwp c (λ b l', lwp (f b) Q l') l → lwp (c ≫= f) Q l.
Proof.
  intros Hc Hs ls σ h. apply ends_bind. eapply ends_mono; [|by apply Hc].
  intros b st' (l' & -> & Hs' & Hf). by apply Hf.
Qed.

Lemma lwp_mono (c : Client A) (Q Q' : A → Level → Prop) l :
  (∀ a l', Q a l' → Q' a l') → lwp c Q l → lwp c Q' l.
Proof.
  intros HQ Hc Hs ls σ h. eapply ends_mono; [|by apply Hc]. intros a st' (l' & -> & ? & ?). eauto.
Qed.

Lemma swp_lwp (c : Client A) Q l : v_sealed l = false → lwp c Q l → swp c Q l.
Proof. intros Hs Hc ls σ h. eapply ends_mono; [|by apply Hc]. intros a st' (l' & -> & _ & HQ). eauto. Qed.

Lemma swp_bind (c : Client B) (f : B → Client A) Q l :
  swp c (λ b l', swp (f b) Q l') l → swp (c ≫= f) Q l.
Proof.
  intros Hc ls σ h. apply ends_bind. eapply ends_mono; [|by apply Hc]. intros b st' (l' & -> & Hf). by apply Hf.
Qed.

(** The level stays open until the first part has ended. *)
Lemma swp_lwp_bind (c : Client B) (f : B → Client A) Q l :
  v_sealed l = false → lwp c (λ b l', v_sealed l' = false → swp (f b) Q l') l → swp (c ≫= f) Q l.
Proof.
  intros Hs Hc ls σ h. apply ends_bind. eapply ends_mono; [|by apply Hc].
  intros b st' (l' & -> & Hs' & Hf). by apply Hf.
Qed.

Lemma swp_mono (c : Client A) (Q Q' : A → Level → Prop) l :
  (∀ a l', Q a l' → Q' a l') → swp c Q l → swp c Q' l.
Proof. intros HQ Hc ls σ h. eapply ends_mono; [|by apply Hc]. intros a st' (l' & -> & ?). eauto. Qed.

Lemma lwp_lift (r : res A) Q l : (∀ a, r = Ok a → Q a l) → lwp (lift r) Q l.
Proof. destruct r; intros HQ; [by apply lwp_ret, HQ|apply lwp_raise]. Qed.

(** A request that is served by the innermost level. *)
Lemma lwp_innermost (r : Request A) (m : View → LedgerHeader → M Level A) Q l :
  spec_serve r = spec_innermost m →
  (v_sealed l = false → ∀ σ h, wp (m σ h) (λ a l', v_sealed l' = false ∧ Q a l') (λ _, True) l) →
  lwp (ask r) Q l.
Proof.
  intros Hr Hm Hs ls σ h. apply ends_ask. rewrite Hr. unfold spec_innermost. cbn [s_levels].
  match goal with |- context [m ?x ?y l] => specialize (Hm Hs x y); destruct (m x y l) as [[a l']|e] eqn:E end; [|done].
  eapply wp_Ok in Hm as [Hs' HQ]; [|exact E]. cbn [mbind res_bind]. by exists l'.
Qed.
End rules.

Lemma swp_getDelta (Q : LedgerTxnDelta → Level → Prop) l : (∀ d, Q d (spec_seal l)) → swp (ask GetDelta) Q l.
Proof.
  intros HQ ls σ h. apply ends_ask. simpl. unfold spec_innermost, spec_getDelta, guard_exact. simpl.
  rewrite M_bind_assoc, bind_gets. destruct (v_consistency l); simpl; eauto.
Qed.

Lemma swp_getChanges (Q : list LedgerEntryChange → Level → Prop) l :
  (∀ d, Q d (spec_seal l)) → swp (ask GetChanges) Q l.
Proof.
  intros HQ ls σ h. apply ends_ask. simpl. unfold spec_innermost, spec_getChanges, guard_exact. simpl.
  rewrite M_bind_assoc, bind_gets. destruct (v_consistency l); simpl; eauto.
Qed.

(** ** Requests *)

(** A handle of an entry. *)
Definition on_key (key : GeneralizedLedgerKey) (o : Handle) : Prop :=
  match o with Some h => h_key h = key | None => True end.

(** A request to one level, run step by step. *)
Ltac serve :=
  eapply lwp_innermost; [reflexivity|]; intros Hopen ? ?; cbv beta;
  unfold spec_eraseHandle, spec_loadBestOffer, spec_release, spec_deactivate, spec_current, spec_load,
    spec_loadWithoutRecord, spec_create, spec_write, spec_erase, spec_loadHeader, spec_currentHeader, spec_writeHeader,
    spec_releaseHeader, spec_deactivateHeader, guard_open, activate;
  repeat first [wp_step | progress (cbv beta iota; intros) | case_match; try exact I
               | match goal with |- wp new_id _ _ _ => eapply wp_run; [reflexivity|] end].

Section requests.
Implicit Types (l : Level).

Lemma same_view_refl l : same_view l l.
Proof. done. Qed.

Lemma same_view_put σ key e l l' :
  v_view l !! key = Some e → same_view l l' → same_view l (put_level σ key (Some e) l').
Proof. intros He [Hv Hh]. split; [|done]. simpl. rewrite Hv. by apply insert_id. Qed.

Lemma lwp_load key Q l :
  (∀ o l', on_key key o → (o = None → v_view l !! key = None) → same_view l l' → Q o l') → lwp (ask (Load key)) Q l.
Proof. intros HQ. serve; (split; [done|apply HQ]; [done|done|]); [by apply same_view_put|done]. Qed.

Lemma lwp_loadWithoutRecord key Q l :
  (∀ o l', on_key key o → (o = None → v_view l !! key = None) → same_view l l' → Q o l') →
  lwp (ask (LoadWithoutRecord key)) Q l.
Proof. intros HQ. serve; (split; [done|by apply HQ]). Qed.

Lemma lwp_current_handle h (Q : GeneralizedLedgerEntry → Level → Prop) l :
  (∀ e, v_view l !! h_key h = Some e → Q e l) → lwp (ask (Current h)) Q l.
Proof. intros HQ. serve; try done. naive_solver. Qed.

Lemma lwp_write h e (Q : unit → Level → Prop) l :
  (∀ l', v_view l' = <[h_key h := e]> (v_view l) → v_header l' = v_header l → Q tt l') → lwp (ask (Write h e)) Q l.
Proof. intros HQ. serve. split; [done|]. by apply HQ. Qed.

Lemma lwp_release h (Q : unit → Level → Prop) l : (∀ l', same_view l l' → Q tt l') → lwp (ask (Release h)) Q l.
Proof. intros HQ. serve; try done. all: split; [done|by apply HQ]. Qed.

Lemma lwp_eraseHandle h (Q : unit → Level → Prop) l :
  (∀ e l', v_view l !! h_key h = Some e → v_view l' = delete (toKey e) (v_view l) → v_header l' = v_header l → Q tt l') →
  lwp (ask (EraseHandle h)) Q l.
Proof. intros HQ. serve; try done. split; [done|]. naive_solver. Qed.

Lemma lwp_create e (Q : LedgerTxnEntry → Level → Prop) l :
  (∀ h l', h_key h = toKey e → v_view l !! toKey e = None → v_view l' = <[toKey e := e]> (v_view l) →
     v_header l' = v_header l → Q h l') →
  lwp (ask (Create e)) Q l.
Proof. intros HQ. serve. split; [done|]. by apply HQ. Qed.

Lemma best_elem (os : list (OfferDescriptor * LedgerEntry)) o : best os = Some o → o ∈ os.
Proof.
  revert o. induction os as [|x os IH]; intros o; simpl; [done|].
  destruct (best os) as [y|] eqn:E; [|intros [= ->]; by left].
  destruct (isBetterOffer _ _); intros [= <-]; [right; by apply IH|by left].
Qed.

Lemma offers_of_elem σ assets d le :
  (d, le) ∈ offers_of σ assets →
  ∃ k oe, σ !! k = Some (GLedgerEntry le) ∧ entry_data le = OFFER oe ∧ (off_buying oe, off_selling oe) = assets.
Proof.
  unfold offers_of. rewrite list_elem_of_omap. intros ([k e] & Hk%elem_of_map_to_list & He). simpl in He.
  destruct e as [le'| |]; [|done|done]. destruct (entry_data le') as [| |oe| |] eqn:E; try done.
  case_decide; [|done]. injection He as <- <-. eauto.
Qed.

(** The best offer is an offer for the assets. *)
Lemma lwp_loadBestOffer buying selling Q l :
  (∀ o l', same_view l l' →
     ((∀ k e, v_view l !! k = Some e → toKey e = k) → ∀ h, o = Some h → ∃ le oe,
        v_view l !! h_key h = Some (GLedgerEntry le) ∧ entry_data le = OFFER oe ∧
        off_buying oe = buying ∧ off_selling oe = selling) →
     Q o l') →
  lwp (ask (LoadBestOffer buying selling)) Q l.
Proof.
  intros HQ. eapply lwp_innermost; [reflexivity|]. intros Hopen σ h. unfold spec_loadBestOffer, guard_open.
  do 2 apply wp_bind. apply wp_gets. rewrite Hopen. apply wp_ret. apply wp_bind, wp_gets.
  case_decide; [by apply wp_throw|]. apply wp_bind, wp_gets.
  destruct (best _) as [[d le]|] eqn:E; [|apply wp_ret; split; [done|]; by apply HQ].
  apply best_elem, offers_of_elem in E as (k & oe & Hk & Hoe & Hpair). injection Hpair as Hb Hs.
  unfold spec_load, guard_open, activate. do 2 apply wp_bind. apply wp_gets. rewrite Hopen. apply wp_ret.
  apply wp_bind, wp_gets. destruct (v_active l !! _); [by apply wp_throw|]. apply wp_bind, wp_gets.
  destruct (v_view l !! GLedgerKey (LedgerEntryKey le)) as [e|] eqn:He; [|apply wp_ret; split; [done|]; by apply HQ].
  do 2 apply wp_bind. eapply wp_run; [reflexivity|]. apply wp_bind, wp_modify. apply wp_bind, wp_modify. apply wp_ret.
  apply wp_ret. split; [done|]. apply HQ; [by apply same_view_put|]. intros Hkeyed h' [= <-]. simpl.
  pose proof (Hkeyed _ _ Hk) as Hkk. simpl in Hkk. subst k. exists le, oe. by rewrite Hk.
Qed.

(** The handles of a list of keys. *)
Lemma wp_spec_loadKeys σ keys l :
  v_sealed l = false →
  wp (spec_loadKeys σ keys) (λ _ l', v_sealed l' = false ∧ same_view l l') (λ _, True) l.
Proof.
  revert l. induction keys as [|k keys IH]; intros l Hopen; simpl; [by apply wp_ret|].
  apply wp_bind. apply (wp_conseq _ (λ _ l', v_sealed l' = false ∧ same_view l l')).
  - unfold spec_load, guard_open, activate.
    do 2 apply wp_bind. apply wp_gets. rewrite Hopen. apply wp_ret. apply wp_bind, wp_gets.
    destruct (v_active l !! _); [by apply wp_throw|]. apply wp_bind, wp_gets.
    destruct (v_view l !! _) as [e|] eqn:He; [|by apply wp_ret].
    do 2 apply wp_bind. eapply wp_run; [reflexivity|]. apply wp_bind, wp_modify. apply wp_bind, wp_modify.
    do 2 apply wp_ret. split; [done|by apply same_view_put].
  - intros o l1 [H1 Hl1]. apply wp_bind. eapply wp_conseq; [by apply IH|]. intros hs l2 [H2 Hl2].
    apply wp_ret. split; [done|by etrans].
Qed.

Lemma lwp_loadOffersByAccountAndAsset account asset Q l :
  (∀ hs l', same_view l l' → Q hs l') → lwp (ask (LoadOffersByAccountAndAsset account asset)) Q l.
Proof.
  intros HQ. eapply lwp_innermost; [reflexivity|]. intros Hopen σ h.
  unfold spec_loadOffersByAccountAndAsset, guard_open. do 2 apply wp_bind. apply wp_gets. rewrite Hopen. apply wp_ret.
  apply wp_bind, wp_gets. eapply wp_conseq; [by apply wp_spec_loadKeys|]. intros hs l' [? ?]. auto.
Qed.

Lemma lwp_loadAllOffers Q l : (∀ hs l', same_view l l' → Q hs l') → lwp (ask LoadAllOffers) Q l.
Proof.
  intros HQ. eapply lwp_innermost; [reflexivity|]. intros Hopen σ h.
  unfold spec_loadAllOffers, guard_open. do 2 apply wp_bind. apply wp_gets. rewrite Hopen. apply wp_ret.
  apply wp_bind, wp_gets, wp_bind. eapply wp_conseq; [by apply wp_spec_loadKeys|]. intros hs l' [? ?]. apply wp_ret. auto.
Qed.

Lemma lwp_loadHeader Q l : (∀ id l', same_view l l' → Q id l') → lwp (ask LoadHeader) Q l.
Proof. intros HQ. serve. split; [done|by apply HQ]. Qed.

Lemma lwp_currentHeader id (Q : LedgerHeader → Level → Prop) l : Q (v_header l) l → lwp (ask (CurrentHeader id)) Q l.
Proof. intros HQ. serve. done. Qed.

Lemma lwp_writeHeader id hd (Q : unit → Level → Prop) l :
  (∀ l', v_view l' = v_view l → v_header l' = hd → Q tt l') → lwp (ask (WriteHeader id hd)) Q l.
Proof. intros HQ. serve. split; [done|]. by apply HQ. Qed.

Lemma lwp_releaseHeader id (Q : unit → Level → Prop) l :
  (∀ l', same_view l l' → Q tt l') → lwp (ask (ReleaseHeader id)) Q l.
Proof. intros HQ. serve; (split; [done|]); by apply HQ. Qed.

Lemma lwp_deactivateHeader (Q : unit → Level → Prop) l :
  (∀ l', same_view l l' → Q tt l') → lwp (ask DeactivateHeader) Q l.
Proof. intros HQ. serve. split; [done|]. by apply HQ. Qed.
End requests.

(** ** Idioms *)

Section idioms.
Context {A : Type}.
Implicit Types (Q : A → Level → Prop) (l : Level).

Lemma lwp_readHeader (Q : LedgerHeader → Level → Prop) l :
  (∀ l', same_view l l' → Q (v_header l) l') → lwp readHeader Q l.
Proof.
  intros HQ. apply lwp_bind, lwp_loadHeader. intros id l1 H1. apply lwp_bind, lwp_currentHeader.
  apply lwp_bind, lwp_deactivateHeader. intros l2 H2. apply lwp_ret. destruct H1 as [? Hh]. rewrite Hh.
  apply HQ. destruct H2. split; congruence.
Qed.

Lemma lwp_ledgerVersion (Q : Z → Level → Prop) l :
  (∀ l', same_view l l' → Q (lh_ledgerVersion (v_header l)) l') → lwp ledgerVersion Q l.
Proof. intros HQ. apply lwp_bind, lwp_readHeader. intros l' Hl'. by apply lwp_ret, HQ. Qed.

Lemma lwp_withHeader (f : Z → Client A) Q l :
  (∀ id l', same_view l l' → lwp (f id) (λ a l1, ∀ l2, same_view l1 l2 → Q a l2) l') → lwp (withHeader f) Q l.
Proof.
  intros HQ. apply lwp_bind, lwp_loadHeader. intros id l1 H1. apply lwp_bind. eapply lwp_mono; [|by apply HQ].
  intros a l2 H2. apply lwp_bind, lwp_releaseHeader. intros l3 H3. by apply lwp_ret, H2.
Qed.

Lemma lwp_releaseEntry h (Q : unit → Level → Prop) l : (∀ l', same_view l l' → Q tt l') → lwp (releaseEntry h) Q l.
Proof. destruct h; simpl; [apply lwp_release|]. intros HQ. by apply lwp_ret, HQ. Qed.

Lemma lwp_withEntry (c : Client Handle) (f : Handle → Client A) Q l :
  lwp c (λ h l', lwp (f h) (λ a l1, ∀ l2, same_view l1 l2 → Q a l2) l') l → lwp (withEntry c f) Q l.
Proof.
  intros HQ. apply lwp_bind. eapply lwp_mono; [|exact HQ]. intros h l1 H1. apply lwp_bind. eapply lwp_mono; [|exact H1].
  intros a l2 H2. apply lwp_bind, lwp_releaseEntry. intros l3 H3. by apply lwp_ret, H2.
Qed.

Lemma lwp_currentGeneralized h (Q : GeneralizedLedgerEntry → Level → Prop) l :
  (∀ h' e, h = Some h' → v_view l !! h_key h' = Some e → Q e l) → lwp (currentGeneralized h) Q l.
Proof. intros HQ. destruct h; [|apply lwp_raise]. apply lwp_current_handle. eauto. Qed.

Lemma lwp_current h (Q : LedgerEntry → Level → Prop) l :
  (∀ h' le, h = Some h' → v_view l !! h_key h' = Some (GLedgerEntry le) → Q le l) → lwp (current h) Q l.
Proof.
  intros HQ. apply lwp_bind, lwp_currentGeneralized. intros h' e Hh He. apply lwp_lift. intros le Hle.
  destruct e; [|done|done]. injection Hle as ->. eauto.
Qed.

Lemma lwp_assign h le (Q : unit → Level → Prop) l :
  (∀ h' l', h = Some h' → v_view l' = <[h_key h' := GLedgerEntry le]> (v_view l) → v_header l' = v_header l → Q tt l') →
  lwp (assign h le) Q l.
Proof. intros HQ. destruct h; [|apply lwp_raise]. apply lwp_write. eauto. Qed.

Lemma lwp_eraseEntry h (Q : unit → Level → Prop) l :
  (∀ h' e l', h = Some h' → v_view l !! h_key h' = Some e → v_view l' = delete (toKey e) (v_view l) →
     v_header l' = v_header l → Q tt l') →
  lwp (eraseEntry h) Q l.
Proof. intros HQ. destruct h; [|apply lwp_raise]. apply lwp_eraseHandle. eauto. Qed.

(** A nested level: the ledger below becomes the one it leaves, or stays. *)
Lemma lwp_nested_sealing (c : Client (bool * A)) Q l :
  swp c (λ r l1, ∀ l', v_view l' = (if r.1 then sealed_view l1 else v_view l) →
                       v_header l' = (if r.1 then v_header l1 else v_header l) → Q r.2 l')
    (spec_newLevel (v_view l) (v_header l) true) →
  lwp (nested c) Q l.
Proof.
  intros Hc Hs ls σ h. apply ends_bind, open_ends; [done|]. apply ends_bind.
  eapply ends_mono; [|by apply Hc]. intros [b a] st' (l1 & -> & HQ). cbn [fst snd] in HQ. apply ends_bind.
  destruct b; apply ends_ask; simpl.
  - apply ends_ret. eexists. split_and!; [reflexivity|exact Hs|]. by apply HQ.
  - apply ends_ret. eexists. split_and!; [reflexivity|exact Hs|]. by apply HQ.
Qed.

Lemma lwp_nested (c : Client (bool * A)) Q l :
  lwp c (λ r l1, ∀ l', v_view l' = (if r.1 then sealed_view l1 else v_view l) →
                       v_header l' = (if r.1 then v_header l1 else v_header l) → Q r.2 l')
    (spec_newLevel (v_view l) (v_header l) true) →
  lwp (nested c) Q l.
Proof. intros Hc. apply lwp_nested_sealing. by apply swp_lwp. Qed.

(** A [try] block: what is done in it is undone when an exception is caught. *)
Lemma lwp_attempt {B} (c : Client B) (k : option B → Client A) Q l :
  lwp c (λ b l', lwp (k (Some b)) Q l') l → (∀ l', same_view l l' → lwp (k None) Q l') → lwp (Attempt c k) Q l.
Proof.
  intros Hc Hk Hs ls σ h. unfold ends. cbn [run]. specialize (Hc Hs ls σ h). unfold ends in Hc.
  destruct (specRun c _) as [[b st']|e].
  - destruct Hc as (l' & -> & Hs' & HQ). by apply (HQ Hs').
  - destruct (std_exception e); [|done]. rewrite bind_eq. simpl spec_serve. unfold spec_open. simpl. rewrite Hs.
    rewrite bind_eq. simpl spec_serve. unfold spec_rollback. simpl. by apply (Hk (spec_addChild l)).
Qed.
End idioms.
