(* ===== verification/Lumens.v ===== *)
(** * Lumens

    The lumens of a ledger: the balances of its accounts and the claimable balances
    of the native asset.  Clients are described by how many lumens they add; most of
    them leave every entry with the lumens it has. *)

From S2P Require Import Prelude StateMonad Numeric LedgerEntries GeneralizedEntries Accounts OfferOrder LedgerTxn LedgerTxnProps LedgerTxnSpec LedgerTxnRefine LedgerClient.
From S2P Require Import Upgrades LedgerManager ClientProps ClientLogic TrustLines.

(** ** Counting *)

Definition lumens_of (le : LedgerEntry) : Z :=
  match entry_data le with
  | ACCOUNT a => acc_balance a
  | CLAIMABLE_BALANCE c => if is_native (cb_asset c) then cb_amount c else 0
  | _ => 0
  end.

Definition lumens (e : GeneralizedLedgerEntry) : Z := match e with GLedgerEntry le => lumens_of le | _ => 0 end.

Definition coins (σ : View) : Z := map_fold (λ _ e z, lumens e + z) 0 σ.

Definition lumens_at (σ : View) (k : GeneralizedLedgerKey) : Z := default 0 (lumens <$> σ !! k).

Lemma coins_empty : coins ∅ = 0.
Proof. apply map_fold_empty. Qed.

Lemma coins_insert_fresh σ k e : σ !! k = None → coins (<[k := e]> σ) = lumens e + coins σ.
Proof. intros Hk. unfold coins. apply (map_fold_insert_L (λ _ e z, lumens e + z) 0 k e σ); [intros; lia|done]. Qed.

Lemma coins_delete σ k : coins (delete k σ) = coins σ - lumens_at σ k.
Proof.
  unfold lumens_at. destruct (σ !! k) as [e|] eqn:Hk; simpl; [|rewrite delete_id by done; lia].
  rewrite <- (insert_delete_id σ k e Hk) at 2. rewrite coins_insert_fresh by apply lookup_delete_eq. lia.
Qed.

Lemma coins_insert σ k e : coins (<[k := e]> σ) = coins σ - lumens_at σ k + lumens e.
Proof.
  rewrite <- insert_delete_eq, coins_insert_fresh by apply lookup_delete_eq. rewrite coins_delete. lia.
Qed.

(** The lumens of the entries determine the sum. *)
Lemma coins_pointwise σ σ' : (∀ k, lumens_at σ' k = lumens_at σ k) → coins σ' = coins σ.
Proof.
  revert σ'. induction σ as [|k e σ Hk IH] using map_ind; intros σ' Hp.
  - rewrite coins_empty. induction σ' as [|k e σ' Hk IH] using map_ind; [apply coins_empty|].
    rewrite coins_insert_fresh by done. pose proof (Hp k) as Hpk. unfold lumens_at in Hpk.
    rewrite lookup_insert_eq, lookup_empty in Hpk. simpl in Hpk. rewrite IH; [lia|]. intros j.
    destruct (decide (j = k)) as [->|]; [unfold lumens_at; by rewrite Hk|].
    pose proof (Hp j) as Hpj. unfold lumens_at in *. by rewrite lookup_insert_ne in Hpj.
  - rewrite coins_insert_fresh by done. pose proof (Hp k) as Hpk. unfold lumens_at in Hpk at 2.
    rewrite lookup_insert_eq in Hpk. simpl in Hpk. rewrite <- (IH (delete k σ')); [rewrite coins_delete; lia|].
    intros j. destruct (decide (j = k)) as [->|].
    + unfold lumens_at. by rewrite lookup_delete_eq, Hk.
    + specialize (Hp j). unfold lumens_at in *. by rewrite lookup_delete_ne, Hp, lookup_insert_ne.
Qed.

(** ** Sound ledgers *)

Definition sound (σ : View) : Prop := ∀ k e, σ !! k = Some e → toKey e = k ∧ 0 ≤ lumens e.

Lemma sound_insert σ k e : sound σ → toKey e = k → 0 ≤ lumens e → sound (<[k := e]> σ).
Proof. intros Hσ Hk He j e'. rewrite lookup_insert_Some. intros [[<- <-]|[_ Hj]]; [done|by apply Hσ]. Qed.

Lemma sound_delete σ k : sound σ → sound (delete k σ).
Proof. intros Hσ j e. rewrite lookup_delete_Some. intros [_ Hj]. by apply Hσ. Qed.

Lemma lumens_stamp seq e : lumens (stampEntry seq e) = lumens e ∧ toKey (stampEntry seq e) = toKey e.
Proof. by destruct e as [[]| |]. Qed.

Lemma lookup_sealed l k :
  ∃ f : GeneralizedLedgerEntry → GeneralizedLedgerEntry, sealed_view l !! k = f <$> v_view l !! k ∧
    ∀ e, lumens (f e) = lumens e ∧ toKey (f e) = toKey e.
Proof.
  assert (v_view l !! k = id <$> v_view l !! k) as Hid by (by destruct (_ !! k)).
  unfold sealed_view. destruct (v_sealed l); [by exists id|]. destruct (v_stamp l); [|by exists id].
  unfold stamp_view. exists (λ e, if decide (k ∈ v_touched l) then stampEntry (lh_ledgerSeq (v_header l)) e else e).
  split.
  - rewrite map_lookup_imap. by destruct (v_view l !! k).
  - intros e. case_decide; [apply lumens_stamp|done].
Qed.

Lemma sealed_lumens l k : lumens_at (sealed_view l) k = lumens_at (v_view l) k.
Proof.
  destruct (lookup_sealed l k) as (f & Hk & Hf). unfold lumens_at. rewrite Hk.
  destruct (v_view l !! k); simpl; [apply Hf|done].
Qed.

Lemma sealed_sound l : sound (v_view l) → sound (sealed_view l).
Proof.
  intros Hl k e He. destruct (lookup_sealed l k) as (f & Hk & Hf). rewrite Hk in He.
  destruct (v_view l !! k) as [e0|] eqn:E; [|done]. injection He as <-. destruct (Hf e0) as [-> ->]. by apply Hl.
Qed.

(** ** Quiet steps and moves *)

Definition same_but_ids (h h' : LedgerHeader) : Prop := ∃ ids, h' = set_idPool ids h.

#[export] Instance same_but_ids_preorder : PreOrder same_but_ids.
Proof.
  split; [intros h; exists (lh_idPool h); by destruct h|].
  intros h1 h2 h3 [ids ->] [ids' ->]. by exists ids'.
Qed.

(** Every entry keeps its lumens. *)
Definition quiet (l l' : Level) : Prop :=
  same_but_ids (v_header l) (v_header l') ∧
  (sound (v_view l) → sound (v_view l') ∧ ∀ k, lumens_at (v_view l') k = lumens_at (v_view l) k).

#[export] Instance quiet_preorder : PreOrder quiet.
Proof.
  split; [intros l; by split|]. intros l1 l2 l3 [Hh1 H1] [Hh2 H2]. split; [by etrans|]. intros Hs.
  destruct (H1 Hs) as [Hs2 E1], (H2 Hs2) as [Hs3 E2]. split; [done|]. intros k. by rewrite E2.
Qed.

Lemma quiet_same l l' : same_view l l' → quiet l l'.
Proof. intros [Hv Hh]. unfold quiet. by rewrite Hv, Hh. Qed.

(** The lumens change by [δ]. *)
Definition moved (δ : Z) (l l' : Level) : Prop :=
  same_but_ids (v_header l) (v_header l') ∧
  (sound (v_view l) → sound (v_view l') ∧ coins (v_view l') = coins (v_view l) + δ).

Lemma moved_quiet l l' : quiet l l' → moved 0 l l'.
Proof.
  intros [Hh Hq]. split; [done|]. intros Hs. destruct (Hq Hs) as [Hs' Hp]. split; [done|].
  rewrite (coins_pointwise _ _ Hp). lia.
Qed.

Lemma moved_trans δ1 δ2 l1 l2 l3 : moved δ1 l1 l2 → moved δ2 l2 l3 → moved (δ1 + δ2) l1 l3.
Proof.
  intros [Hh1 H1] [Hh2 H2]. split; [by etrans|]. intros Hs. destruct (H1 Hs) as [Hs2 E1], (H2 Hs2) as [Hs3 E2].
  split; [done|]. lia.
Qed.

(** ** Clients that leave every entry with its lumens *)

Definition calm (l0 : Level) {A} (c : Client A) (R : A → Prop) : Prop :=
  ∀ l, quiet l0 l → lwp c (λ a l', quiet l0 l' ∧ R a) l.

(** The entry of a handle, with the lumens it has. *)
Definition at_key (l0 : Level) (h : Handle) (le : LedgerEntry) : Prop :=
  sound (v_view l0) →
  ∃ h', h = Some h' ∧ toKey (GLedgerEntry le) = h_key h' ∧ lumens_of le = lumens_at (v_view l0) (h_key h').

Definition at_gkey (l0 : Level) (h : Handle) (e : GeneralizedLedgerEntry) : Prop :=
  sound (v_view l0) → ∃ h', h = Some h' ∧ toKey e = h_key h' ∧ lumens e = lumens_at (v_view l0) (h_key h').

Definition keeps_lumens (le le' : LedgerEntry) : Prop :=
  LedgerEntryKey le' = LedgerEntryKey le ∧ lumens_of le' = lumens_of le.

#[export] Instance keeps_lumens_preorder : PreOrder keeps_lumens.
Proof. split; [done|]. intros e1 e2 e3 [] []. split; congruence. Qed.

Lemma at_key_keeps l0 h le le' : at_key l0 h le → keeps_lumens le le' → at_key l0 h le'.
Proof.
  intros Ha [Hk Hl] Hs. destruct (Ha Hs) as (h' & -> & Hk' & Hl'). exists h'. simpl in *.
  split_and!; congruence.
Qed.

Section calm.
Context (l0 : Level).

Lemma calm_ret {A} (a : A) (R : A → Prop) : R a → calm l0 (mret a) R.
Proof. intros HR l Hl. by apply lwp_ret. Qed.

Lemma calm_raise {A} e (R : A → Prop) : calm l0 (Raise e) R.
Proof. intros l Hl. apply lwp_raise. Qed.

Lemma calm_bind {A B} (c : Client A) (f : A → Client B) R R' :
  calm l0 c R → (∀ a, R a → calm l0 (f a) R') → calm l0 (c ≫= f) R'.
Proof.
  intros Hc Hf l Hl. apply lwp_bind. eapply lwp_mono; [|by apply Hc]. intros a l' [Hl' HR]. by apply Hf.
Qed.

Lemma calm_mono {A} (c : Client A) (R R' : A → Prop) : calm l0 c R → (∀ a, R a → R' a) → calm l0 c R'.
Proof. intros Hc HR l Hl. eapply lwp_mono; [|by apply Hc]. intros a l' []. auto. Qed.

Lemma calm_lift {A} (r : res A) (R : A → Prop) : (∀ a, r = Ok a → R a) → calm l0 (lift r) R.
Proof. intros HR l Hl. apply lwp_lift. eauto. Qed.

(** A client that leaves the ledger alone. *)
Lemma calm_same {A} (c : Client A) (R : A → Prop) :
  (∀ l Q, (∀ a l', R a → same_view l l' → Q a l') → lwp c Q l) → calm l0 c R.
Proof.
  intros Hc l Hl. apply Hc. intros a l' HR Hl'. split; [|done]. etrans; [exact Hl|by apply quiet_same].
Qed.

Lemma calm_load key : calm l0 (ask (Load key)) (on_key key).
Proof. apply calm_same. intros l Q HQ. apply lwp_load. eauto. Qed.

Lemma calm_loadWithoutRecord key : calm l0 (ask (LoadWithoutRecord key)) (on_key key).
Proof. apply calm_same. intros l Q HQ. apply lwp_loadWithoutRecord. eauto. Qed.

Lemma calm_loadBestOffer b s : calm l0 (ask (LoadBestOffer b s)) (λ _, True).
Proof. apply calm_same. intros l Q HQ. apply lwp_loadBestOffer. eauto. Qed.

Lemma calm_currentHeader id : calm l0 (ask (CurrentHeader id)) (λ h, same_but_ids (v_header l0) h).
Proof. intros l Hl. apply lwp_currentHeader. split; [done|apply Hl]. Qed.

Lemma calm_readHeader : calm l0 readHeader (λ h, same_but_ids (v_header l0) h).
Proof.
  intros l Hl. apply lwp_readHeader. intros l' Hl'. split; [|apply Hl]. etrans; [exact Hl|by apply quiet_same].
Qed.

Lemma calm_ledgerVersion : calm l0 ledgerVersion (λ v, v = lh_ledgerVersion (v_header l0)).
Proof. eapply calm_bind; [apply calm_readHeader|]. intros h [ids ->]. by apply calm_ret. Qed.

Lemma calm_withHeader {A} (f : Z → Client A) R : (∀ id, calm l0 (f id) R) → calm l0 (withHeader f) R.
Proof.
  intros Hf l Hl. apply lwp_withHeader. intros id l' Hl'. eapply lwp_mono; [|apply Hf; etrans; [exact Hl|by apply quiet_same]].
  intros a l1 [H1 HR] l2 H2. split; [|done]. etrans; [exact H1|by apply quiet_same].
Qed.

Lemma calm_withEntry {A} (c : Client Handle) (f : Handle → Client A) R R' :
  calm l0 c R → (∀ h, R h → calm l0 (f h) R') → calm l0 (withEntry c f) R'.
Proof.
  intros Hc Hf l Hl. apply lwp_withEntry. eapply lwp_mono; [|by apply Hc]. intros h l1 [H1 HR].
  eapply lwp_mono; [|by apply (Hf h)]. intros a l2 [H2 HR'] l3 H3. split; [|done].
  etrans; [exact H2|by apply quiet_same].
Qed.

Lemma calm_there c R : calm l0 c R → calm l0 (there c) (λ _, True).
Proof. intros Hc. eapply calm_withEntry; [exact Hc|]. intros h _. by apply calm_ret. Qed.

Lemma calm_currentGeneralized h : calm l0 (currentGeneralized h) (at_gkey l0 h).
Proof.
  intros l [Hh Hq]. apply lwp_currentGeneralized. intros h' e -> He. split; [done|]. intros Hs.
  destruct (Hq Hs) as [Hs' Hp]. exists h'. split_and!; [done|by apply Hs' in He as [? _]|].
  rewrite <- Hp. unfold lumens_at. by rewrite He.
Qed.

Lemma calm_current h : calm l0 (current h) (at_key l0 h).
Proof.
  eapply calm_bind; [apply calm_currentGeneralized|]. intros [le| |] He; [|apply calm_raise..]. by apply calm_ret.
Qed.

Lemma calm_write h e : at_gkey l0 (Some h) e → calm l0 (ask (Write h e)) (λ _, True).
Proof.
  intros Ha l [Hh Hq]. apply lwp_write. intros l' Hv Hh'. split; [|done]. split; [by rewrite Hh'|].
  intros Hs. destruct (Ha Hs) as (h1 & [= <-] & Hk & Hl). destruct (Hq Hs) as [Hs' Hp]. rewrite Hv. split.
  - apply sound_insert; [done|done|]. rewrite Hl. unfold lumens_at.
    destruct (v_view l0 !! h_key h) as [e0|] eqn:E; simpl; [|lia]. by apply Hs in E as [_ ?].
  - intros k. unfold lumens_at. destruct (decide (k = h_key h)) as [->|].
    + rewrite lookup_insert_eq. exact Hl.
    + rewrite lookup_insert_ne by done. apply Hp.
Qed.

Lemma calm_assign h le : at_key l0 h le → calm l0 (assign h le) (λ _, True).
Proof. intros Ha. destruct h as [h|]; [|apply calm_raise]. by apply calm_write. Qed.

Lemma calm_createHandle e :
  lumens e = 0 → calm l0 (ask (Create e)) (λ _, True).
Proof.
  intros Hl l [Hh Hq]. apply lwp_create. intros h l' _ Hn Hv Hh'. split; [|done].
  split; [by rewrite Hh'|]. intros Hs. destruct (Hq Hs) as [Hs' Hp]. rewrite Hv.
  split; [apply sound_insert; [done|done|by rewrite Hl]|]. intros k. rewrite <- Hp. unfold lumens_at.
  destruct (decide (k = toKey e)) as [->|].
  - rewrite lookup_insert_eq, Hn. simpl. by rewrite Hl.
  - by rewrite lookup_insert_ne.
Qed.

Lemma calm_create le : lumens_of le = 0 → calm l0 (createEntry le) (λ _, True).
Proof. intros Hl. eapply calm_bind; [by apply calm_createHandle|]. intros h _. by apply calm_ret. Qed.

Lemma calm_erase h :
  (sound (v_view l0) → ∀ h', h = Some h' → lumens_at (v_view l0) (h_key h') = 0) → calm l0 (eraseEntry h) (λ _, True).
Proof.
  intros Hz l [Hh Hq]. apply lwp_eraseEntry. intros h' e l' -> He Hv Hh'. split; [|done].
  split; [by rewrite Hh'|]. intros Hs. specialize (Hz Hs h' eq_refl). destruct (Hq Hs) as [Hs' Hp].
  destruct (Hs' _ _ He) as [Hk' _]. rewrite Hv, Hk'. split; [by apply sound_delete|]. intros k.
  destruct (decide (k = h_key h')) as [->|].
  - unfold lumens_at at 1. rewrite lookup_delete_eq. simpl. lia.
  - rewrite <- Hp. unfold lumens_at. by rewrite lookup_delete_ne.
Qed.

(** Most kinds of entries have no lumens. *)
Lemma calm_erase_key h key :
  match key with GLedgerKey (KEY_ACCOUNT _ | KEY_CLAIMABLE_BALANCE _) => False | _ => True end →
  on_key key h → calm l0 (eraseEntry h) (λ _, True).
Proof.
  intros Hkey Hk. apply calm_erase. intros Hs h' ->. simpl in Hk. subst key. unfold lumens_at.
  destruct (v_view l0 !! h_key h') as [e|] eqn:E; [|done]. apply Hs in E as [E _]. simpl.
  destruct e as [le| |]; [|done|done]. rewrite <- E in Hkey. simpl in *. unfold LedgerEntryKey, lumens_of in *.
  by destruct (entry_data le).
Qed.

Lemma calm_nested {A} (c : Client (bool * A)) R : calm l0 c (λ r, R r.2) → calm l0 (nested c) R.
Proof.
  intros Hc l [Hh Hq]. apply lwp_nested.
  assert (quiet l0 (spec_newLevel (v_view l) (v_header l) true)) as Hn by done.
  eapply lwp_mono; [|by apply Hc]. intros [b a] l1 [[Hh1 Hq1] HR] l' Hv Hh'. cbn [fst snd] in *. split; [|done].
  destruct b; split; rewrite ?Hv, ?Hh'; try done. intros Hs. destruct (Hq1 Hs) as [Hs1 Hp1].
  split; [by apply sealed_sound|]. intros k. by rewrite sealed_lumens.
Qed.

Lemma calm_change h f :
  (∀ le le', f le = Ok le' → keeps_lumens le le') → calm l0 (change h f) (λ _, True).
Proof.
  intros Hf. eapply calm_bind; [apply calm_current|]. intros le Ha.
  eapply calm_bind; [by apply (calm_lift _ (keeps_lumens le)), Hf|]. intros le' Hk.
  apply calm_assign. by eapply at_key_keeps.
Qed.

Lemma calm_changeIf h f :
  (∀ le le', f le = Ok (Some le') → keeps_lumens le le') → calm l0 (changeIf h f) (λ _, True).
Proof.
  intros Hf. eapply calm_bind; [apply calm_current|]. intros le Ha.
  eapply calm_bind; [by apply (calm_lift _ (λ o, ∀ le', o = Some le' → keeps_lumens le le')); intros o Ho le' ->; apply Hf|].
  intros [le'|] Hk; [|by apply calm_ret]. eapply calm_bind; [|intros; by apply calm_ret].
  apply calm_assign. by eapply at_key_keeps; [|apply Hk].
Qed.

Lemma calm_reading {A} (f : LedgerHeader → LedgerEntry → res A) header h :
  calm l0 (reading f header h) (λ a, ∃ lh le, same_but_ids (v_header l0) lh ∧ at_key l0 h le ∧ f lh le = Ok a).
Proof.
  eapply calm_bind; [apply calm_current|]. intros le Ha. eapply calm_bind; [apply calm_currentHeader|].
  intros lh Hh. apply calm_lift. eauto 6.
Qed.

Lemma calm_generateID header : calm l0 (generateID header) (λ _, True).
Proof.
  intros l [Hh Hq]. apply lwp_bind, lwp_currentHeader. apply lwp_bind, lwp_writeHeader. intros l' Hv Hh'.
  apply lwp_ret. split; [|done]. split; [|by rewrite Hv]. etrans; [exact Hh|]. rewrite Hh'. by eexists.
Qed.
End calm.
