(* ===== verification/SponsorshipProps.v ===== *)
(** * Sponsorships, trust lines and liabilities move no lumens

    The functions on single entries keep the key and the lumens of every entry they
    are given, so that the clients built from them are calm. *)

From S2P Require Import Prelude StateMonad Numeric Exchange LedgerEntries GeneralizedEntries Accounts OfferOrder LedgerTxn LedgerTxnSpec LedgerTxnRefine LedgerClient.
From S2P Require Import ClientProps ClientLogic Lumens Sponsorship TrustLines.

(** ** Entries *)

(** Taking a computation that succeeded apart. *)
Ltac inv_res :=
  repeat match goal with
  | H : (_ ≫= _) = Ok _ |- _ => apply res_bind_Ok in H as (? & ? & ?)
  | H : mret _ = Ok _ |- _ => injection H as <-
  | H : Ok _ = Ok _ |- _ => injection H as <-
  | H : Throw _ = Ok _ |- _ => discriminate H
  | H : (if ?b then _ else _) = Ok _ |- _ => destruct b eqn:?
  | H : (match ?x with _ => _ end) = Ok _ |- _ => destruct x eqn:?
  | H : Some _ = Some _ |- _ => injection H as <-
  | H : (_, _) = (_, _) |- _ => injection H as ? ?
  | _ => progress simplify_eq
  end.

Lemma data_account_Ok le a : data_account le = Ok a ↔ entry_data le = ACCOUNT a.
Proof. unfold data_account. destruct (entry_data le); naive_solver. Qed.

Lemma data_trustLine_Ok le t : data_trustLine le = Ok t ↔ entry_data le = TRUSTLINE t.
Proof. unfold data_trustLine. destruct (entry_data le); naive_solver. Qed.

Lemma data_offer_Ok le o : data_offer le = Ok o ↔ entry_data le = OFFER o.
Proof. unfold data_offer. destruct (entry_data le); naive_solver. Qed.

(** A change of an account that keeps its name and its balance. *)
Definition keeps_balance (f : AccountEntry → AccountEntry) : Prop :=
  ∀ a, acc_accountID (f a) = acc_accountID a ∧ acc_balance (f a) = acc_balance a.

Lemma keeps_account le a a' :
  entry_data le = ACCOUNT a → acc_accountID a' = acc_accountID a → acc_balance a' = acc_balance a →
  keeps_lumens le (set_data (ACCOUNT a') le).
Proof. intros Hle Hi Hb. unfold keeps_lumens, LedgerEntryKey, lumens_of. simpl. rewrite Hle. simpl. by rewrite Hi, Hb. Qed.

Lemma on_account_keeps f le le' : keeps_balance f → on_account f le = Ok le' → keeps_lumens le le'.
Proof.
  intros Hf Hle. unfold on_account in Hle. inv_res. destruct (Hf x) as [? ?].
  apply (keeps_account _ x); [by apply data_account_Ok|done|done].
Qed.

Lemma on_trustLine_keeps f le le' :
  (∀ t, tl_accountID (f t) = tl_accountID t ∧ tl_asset (f t) = tl_asset t) →
  on_trustLine f le = Ok le' → keeps_lumens le le'.
Proof.
  intros Hf Hle. unfold on_trustLine in Hle. inv_res. destruct (Hf x) as [Hi Ha]. apply data_trustLine_Ok in H.
  unfold keeps_lumens, LedgerEntryKey, lumens_of. simpl. rewrite H. simpl. by rewrite Hi, Ha.
Qed.

Lemma on_offer_keeps f le le' :
  (∀ o, off_sellerID (f o) = off_sellerID o ∧ off_offerID (f o) = off_offerID o) →
  on_offer f le = Ok le' → keeps_lumens le le'.
Proof.
  intros Hf Hle. unfold on_offer in Hle. inv_res. destruct (Hf x) as [Hi Ha]. apply data_offer_Ok in H.
  unfold keeps_lumens, LedgerEntryKey, lumens_of. simpl. rewrite H. simpl. by rewrite Hi, Ha.
Qed.

Lemma set_ext_keeps x le : keeps_lumens le (set_ext x le).
Proof. done. Qed.

(** ** Sponsorships on entries *)

Lemma on_prepared_keeps f le le' : on_prepared f le = Ok le' → keeps_lumens le le'.
Proof. apply on_account_keeps. by split. Qed.

Lemma on_existing_keeps f le le' : on_existing f le = Ok le' → keeps_lumens le le'.
Proof.
  unfold on_existing. intros H. inv_res. apply (keeps_account _ x); [by apply data_account_Ok|done|done].
Qed.

Lemma add_subEntries_keeps n le le' : add_subEntries n le = Ok le' → keeps_lumens le le'.
Proof. apply on_account_keeps. by split. Qed.

#[local] Hint Resolve on_prepared_keeps on_existing_keeps add_subEntries_keeps set_ext_keeps : core.

(** The sponsored account, where it is another entry. *)
Definition keeps_sponsored (s s' : SponsoredAcc) : Prop :=
  match s, s' with
  | NullAcc, NullAcc | EntryItself, EntryItself => True
  | OtherAcc a, OtherAcc a' => keeps_lumens a a'
  | _, _ => False
  end.

#[export] Instance keeps_sponsored_preorder : PreOrder keeps_sponsored.
Proof.
  split; [intros []; simpl; done|]. intros [] [] []; simpl; try done. intros. by etrans.
Qed.

Lemma on_sponsored_keeps f le s le' s' :
  (∀ e e', f e = Ok e' → keeps_lumens e e') → on_sponsored f le s = Ok (le', s') →
  keeps_lumens le le' ∧ keeps_sponsored s s'.
Proof. intros Hf H. destruct s; simpl in H; inv_res; split; simpl; try done; by apply Hf. Qed.

Lemma createEntryWithoutSponsorship_keeps le acc acc' :
  createEntryWithoutSponsorship le acc = Ok acc' → keeps_lumens acc acc'.
Proof. unfold createEntryWithoutSponsorship. intros H. inv_res; [by eapply add_subEntries_keeps|done]. Qed.

Lemma removeEntryWithoutSponsorship_keeps le acc acc' :
  removeEntryWithoutSponsorship le acc = Ok acc' → keeps_lumens acc acc'.
Proof. unfold removeEntryWithoutSponsorship. intros H. inv_res; [done|by eapply add_subEntries_keeps]. Qed.

Lemma establishEntrySponsorship_keeps le sp s le' sp' s' :
  establishEntrySponsorship le sp s = Ok (le', sp', s') →
  keeps_lumens le le' ∧ keeps_lumens sp sp' ∧ keeps_sponsored s s'.
Proof.
  unfold establishEntrySponsorship. intros H. inv_res.
  match goal with H : on_sponsored _ _ _ = _ |- _ => apply on_sponsored_keeps in H as [? ?]; [|apply on_prepared_keeps] end.
  split_and!; [|eauto|done]. etrans; [apply set_ext_keeps|done].
Qed.

Lemma removeEntrySponsorship_keeps le sp s le' sp' s' :
  removeEntrySponsorship le sp s = Ok (le', sp', s') →
  keeps_lumens le le' ∧ keeps_lumens sp sp' ∧ keeps_sponsored s s'.
Proof.
  unfold removeEntrySponsorship. intros H. inv_res.
  match goal with H : on_sponsored _ _ _ = _ |- _ => apply on_sponsored_keeps in H as [? ?]; [|apply on_existing_keeps] end.
  split_and!; [|eauto|done]. etrans; [apply set_ext_keeps|done].
Qed.

Lemma createEntryWithSponsorship_keeps le sp s le' sp' s' :
  createEntryWithSponsorship le sp s = Ok (le', sp', s') →
  keeps_lumens le le' ∧ keeps_lumens sp sp' ∧ keeps_sponsored s s'.
Proof.
  unfold createEntryWithSponsorship. intros H. inv_res.
  match goal with H : on_sponsored _ _ _ = _ |- _ =>
    apply on_sponsored_keeps in H as [? ?]; [|apply createEntryWithoutSponsorship_keeps] end.
  match goal with H : establishEntrySponsorship _ _ _ = _ |- _ => apply establishEntrySponsorship_keeps in H as (? & ? & ?) end.
  split_and!; [by etrans|done|by etrans].
Qed.

Lemma removeEntryWithSponsorship_keeps le sp s le' sp' s' :
  removeEntryWithSponsorship le sp s = Ok (le', sp', s') →
  keeps_lumens le le' ∧ keeps_lumens sp sp' ∧ keeps_sponsored s s'.
Proof.
  unfold removeEntryWithSponsorship. intros H. inv_res.
  match goal with H : on_sponsored _ _ _ = _ |- _ =>
    apply on_sponsored_keeps in H as [? ?]; [|apply removeEntryWithoutSponsorship_keeps] end.
  match goal with H : removeEntrySponsorship _ _ _ = _ |- _ => apply removeEntrySponsorship_keeps in H as (? & ? & ?) end.
  split_and!; [by etrans|done|by etrans].
Qed.

Lemma transferEntrySponsorship_keeps le old new le' old' new' :
  transferEntrySponsorship le old new = Ok (le', old', new') →
  keeps_lumens le le' ∧ keeps_lumens old old' ∧ keeps_lumens new new'.
Proof. unfold transferEntrySponsorship. intros H. inv_res. split_and!; eauto. Qed.

Lemma establishSignerSponsorship_keeps n sp acc sp' acc' :
  establishSignerSponsorship n sp acc = Ok (sp', acc') → keeps_lumens sp sp' ∧ keeps_lumens acc acc'.
Proof.
  unfold establishSignerSponsorship. intros H. inv_res. split; [eauto|].
  eapply keeps_account; [by apply data_account_Ok|done|done].
Qed.

Lemma removeSignerSponsorship_keeps n sp acc sp' acc' :
  removeSignerSponsorship n sp acc = Ok (sp', acc') → keeps_lumens sp sp' ∧ keeps_lumens acc acc'.
Proof. unfold removeSignerSponsorship. intros H. inv_res. split; eauto. Qed.

Lemma transferSignerSponsorship_keeps n old new acc old' new' acc' :
  transferSignerSponsorship n old new acc = Ok (old', new', acc') →
  keeps_lumens old old' ∧ keeps_lumens new new' ∧ keeps_lumens acc acc'.
Proof. unfold transferSignerSponsorship. intros H. inv_res. split_and!; eauto. Qed.

Lemma createSignerWithSponsorship_keeps n sp acc sp' acc' :
  createSignerWithSponsorship n sp acc = Ok (sp', acc') → keeps_lumens sp sp' ∧ keeps_lumens acc acc'.
Proof.
  unfold createSignerWithSponsorship, createSignerWithoutSponsorship. intros H. inv_res.
  match goal with H : establishSignerSponsorship _ _ _ = _ |- _ => apply establishSignerSponsorship_keeps in H as [? ?] end.
  split; [done|]. etrans; [by eapply add_subEntries_keeps|done].
Qed.

Lemma removeSignerWithoutSponsorship_keeps n acc acc' :
  removeSignerWithoutSponsorship n acc = Ok acc' → keeps_lumens acc acc'.
Proof.
  unfold removeSignerWithoutSponsorship. intros H. inv_res. etrans; [by eapply add_subEntries_keeps|].
  etrans; (eapply on_account_keeps; [|eassumption]); intros a; [|done].
  by destruct (acc_ext a) as [[? []]|].
Qed.

Lemma removeSignerWithSponsorship_keeps n sp acc sp' acc' :
  removeSignerWithSponsorship n sp acc = Ok (sp', acc') → keeps_lumens sp sp' ∧ keeps_lumens acc acc'.
Proof.
  unfold removeSignerWithSponsorship. intros H. inv_res.
  match goal with H : removeSignerSponsorship _ _ _ = _ |- _ => apply removeSignerSponsorship_keeps in H as [? ?] end.
  split; [done|]. etrans; [done|by eapply removeSignerWithoutSponsorship_keeps].
Qed.

(** ** Clients *)

Lemma calm_lift_eq l0 {A} (r : res A) : calm l0 (lift r) (λ a, r = Ok a).
Proof. by apply calm_lift. Qed.

Lemma calm_true l0 {A} (c : Client A) R : calm l0 c R → calm l0 c (λ _, True).
Proof. intros Hc. by eapply calm_mono. Qed.

Create HintDb calm.
#[export] Hint Constants Opaque : calm.
#[export] Hint Resolve calm_raise calm_load calm_loadWithoutRecord calm_loadBestOffer calm_currentHeader calm_readHeader
  calm_ledgerVersion calm_currentGeneralized calm_current calm_reading calm_generateID calm_there calm_lift_eq : calm.
#[export] Hint Extern 1 (calm _ (throw_runtime _) _) => apply calm_raise : calm.
#[export] Hint Extern 1 (calm _ (loadAccount _) _) => apply calm_load : calm.
#[export] Hint Extern 1 (calm _ (loadAccountWithoutRecord _) _) => apply calm_loadWithoutRecord : calm.
#[export] Hint Extern 1 (calm _ (loadData _ _) _) => apply calm_load : calm.
#[export] Hint Extern 1 (calm _ (loadOffer _ _) _) => apply calm_load : calm.
#[export] Hint Extern 1 (calm _ (loadClaimableBalance _) _) => apply calm_load : calm.
#[export] Hint Extern 1 (calm _ (loadSponsorship _) _) => apply calm_load : calm.
#[export] Hint Extern 1 (calm _ (loadSponsorshipCounter _) _) => apply calm_load : calm.
#[export] Hint Extern 1 (calm _ (getAvailableBalance_ltx _ _) _) => apply calm_reading : calm.
#[export] Hint Extern 1 (calm _ (getMaxAmountReceive_ltx _ _) _) => apply calm_reading : calm.
#[export] Hint Extern 1 (calm _ (getMinimumLimit_ltx _ _) _) => apply calm_reading : calm.
#[export] Hint Extern 1 (calm _ (getBuyingLiabilities_ltx _ _) _) => apply calm_reading : calm.
#[export] Hint Extern 1 (calm _ (getSellingLiabilities_ltx _ _) _) => apply calm_reading : calm.
#[export] Hint Extern 1 (calm _ (getOfferBuyingLiabilities_ltx _ _) _) => apply calm_reading : calm.
#[export] Hint Extern 1 (calm _ (getOfferSellingLiabilities_ltx _ _) _) => apply calm_reading : calm.

(** A client, step by step; what is left are facts about entries.  The first part of
    a sequence has a lemma of its own, or nothing is said of its result. *)
Ltac calm_first := first [solve [eauto 3 with calm nocore] | eapply (calm_true _ _ (λ _, True))].

Ltac calm_step :=
  lazymatch goal with
  | |- calm _ (mret _) _ => apply calm_ret
  | |- calm _ (throw_runtime _) _ => apply calm_raise
  | |- calm _ notActive _ => apply calm_raise
  | |- calm _ (Raise _) _ => apply calm_raise
  | |- calm _ (lift _) _ => apply calm_lift; intros ? ?
  | |- calm _ (mbind _ _) _ => eapply calm_bind; [calm_first|intros ? ?; cbv beta in *]
  | |- calm _ (withEntry _ _) _ => eapply calm_withEntry; [calm_first|intros ? ?; cbv beta in *]
  | |- calm _ (withHeader _) _ => apply calm_withHeader; intros ?; cbv beta
  | |- calm _ (nested _) _ => apply calm_nested
  | |- calm _ (match _ with _ => _ end) _ => case_match
  | |- calm _ (let _ := _ in _) _ => cbv zeta
  | |- calm _ _ _ => first [solve [eauto 3 with calm nocore] | eapply calm_true; solve [eauto 3 with calm nocore]]
  end.

Ltac solve_calm := repeat calm_step; try lazymatch goal with |- calm _ _ _ => fail | |- _ => solve [exact I | done] end.

Section clients.
Context (l0 : Level).

Lemma calm_sponsoredAccount le acc :
  calm l0 (sponsoredAccount le acc) (λ s, match s with OtherAcc a => at_key l0 acc a | _ => True end).
Proof. unfold sponsoredAccount. solve_calm. Qed.

Lemma calm_assignSponsored acc s s' :
  match s with OtherAcc a => at_key l0 acc a | _ => True end → keeps_sponsored s s' →
  calm l0 (assignSponsored acc s') (λ _, True).
Proof.
  intros Ha Hs. destruct s, s'; simpl in *; try done; try by apply calm_ret. apply calm_assign. by eapply at_key_keeps.
Qed.
#[local] Hint Resolve calm_sponsoredAccount : calm.

(** What the functions on entries keep. *)
Ltac keeps_facts :=
  repeat match goal with
  | H : createEntryWithSponsorship _ _ _ = _ |- _ => apply createEntryWithSponsorship_keeps in H as (? & ? & ?)
  | H : removeEntryWithSponsorship _ _ _ = _ |- _ => apply removeEntryWithSponsorship_keeps in H as (? & ? & ?)
  | H : createSignerWithSponsorship _ _ _ = _ |- _ => apply createSignerWithSponsorship_keeps in H as (? & ?)
  | H : removeSignerWithSponsorship _ _ _ = _ |- _ => apply removeSignerWithSponsorship_keeps in H as (? & ?)
  | H : removeEntryWithoutSponsorship _ _ = _ |- _ => apply removeEntryWithoutSponsorship_keeps in H
  | H : on_sponsored _ _ _ = _ |- _ =>
      apply on_sponsored_keeps in H as (? & ?); [|apply createEntryWithoutSponsorship_keeps]
  end;
  eauto 3 using calm_assign, at_key_keeps.

#[local] Hint Extern 2 (calm _ (assignSponsored _ _) _) => eapply calm_assignSponsored; [|eassumption]; done : core.

Lemma calm_createEntryWithPossibleSponsorship header le acc :
  calm l0 (createEntryWithPossibleSponsorship header le acc) (λ r, keeps_lumens le r.2).
Proof. unfold createEntryWithPossibleSponsorship. solve_calm; keeps_facts. Qed.

(** [entry] refers to the entry that is removed. *)
Lemma calm_removeEntryWithPossibleSponsorship header entry le acc :
  at_key l0 entry le → (sound (v_view l0) → is_account le = true → entry = acc) →
  calm l0 (removeEntryWithPossibleSponsorship header le acc) (at_key l0 entry).
Proof.
  intros Ha He. unfold removeEntryWithPossibleSponsorship. solve_calm; keeps_facts.
  intros Hs. destruct (is_account le); [|by apply Ha]. rewrite He by done. by eapply at_key_keeps.
Qed.

Lemma calm_removeLocalEntry header le acc :
  is_account le = false →
  calm l0 (removeEntryWithPossibleSponsorship header le acc) (λ le', keeps_lumens le le').
Proof.
  intros Ha. unfold removeEntryWithPossibleSponsorship. rewrite Ha. solve_calm; keeps_facts.
Qed.

Lemma calm_removeLoadedEntry header entry acc :
  (∀ le, sound (v_view l0) → at_key l0 entry le → is_account le = true → entry = acc) →
  calm l0 (removeLoadedEntry header entry acc) (λ _, True).
Proof.
  intros He. unfold removeLoadedEntry. eapply calm_bind; [apply calm_current|]. intros le Hle.
  eapply calm_bind; [apply calm_removeEntryWithPossibleSponsorship; eauto|]. apply calm_assign.
Qed.

Lemma calm_removeKey header entry acc key :
  match key with GLedgerKey (KEY_ACCOUNT _) => False | _ => True end →
  on_key key entry → calm l0 (removeLoadedEntry header entry acc) (λ _, True).
Proof.
  intros Hkey Hk. apply calm_removeLoadedEntry. intros le Hs Ha Hle. destruct (Ha Hs) as (h' & -> & Hk' & _).
  simpl in Hk. rewrite <- Hk, <- Hk' in Hkey. simpl in Hkey. unfold is_account, LedgerEntryKey in *.
  by destruct (entry_data le).
Qed.

Lemma calm_createSignerWithPossibleSponsorship header n acc :
  calm l0 (createSignerWithPossibleSponsorship header n acc) (λ _, True).
Proof.
  unfold createSignerWithPossibleSponsorship. solve_calm; keeps_facts.
  apply calm_change. apply add_subEntries_keeps.
Qed.

Lemma calm_removeSignerWithPossibleSponsorship header n acc :
  calm l0 (removeSignerWithPossibleSponsorship header n acc) (λ _, True).
Proof.
  unfold removeSignerWithPossibleSponsorship. solve_calm; keeps_facts.
  apply calm_change. apply removeSignerWithoutSponsorship_keeps.
Qed.
End clients.

#[export] Hint Resolve calm_createEntryWithPossibleSponsorship calm_createSignerWithPossibleSponsorship
  calm_removeSignerWithPossibleSponsorship : calm.

(** ** Liabilities and trust lines *)

Lemma addBuyingLiabilitiesTo_keeps lh d le le' : addBuyingLiabilitiesTo lh d le = Ok (Some le') → keeps_lumens le le'.
Proof.
  unfold addBuyingLiabilitiesTo. intros H. inv_res; try done.
  all: match goal with H : mret (_ <$> ?o) = _ |- _ => destruct o; [injection H as <-|done] end.
  all: unfold keeps_lumens, LedgerEntryKey, lumens_of; simpl;
    match goal with H : entry_data _ = _ |- _ => rewrite H end; done.
Qed.

Lemma addSellingLiabilitiesTo_keeps lh d le le' : addSellingLiabilitiesTo lh d le = Ok (Some le') → keeps_lumens le le'.
Proof.
  unfold addSellingLiabilitiesTo. intros H. inv_res; try done.
  all: match goal with H : mret (_ <$> ?o) = _ |- _ => destruct o; [injection H as <-|done] end.
  all: unfold keeps_lumens, LedgerEntryKey, lumens_of; simpl;
    match goal with H : entry_data _ = _ |- _ => rewrite H end; done.
Qed.

Section lines.
Context (l0 : Level).

Lemma calm_changing f header h d :
  (∀ lh le le', f lh d le = Ok (Some le') → keeps_lumens le le') → calm l0 (changing f header h d) (λ _, True).
Proof. intros Hf. eapply calm_bind; [apply calm_currentHeader|]. intros lh _. apply calm_changeIf, Hf. Qed.

Lemma calm_addBuyingLiabilities header h d : calm l0 (addBuyingLiabilities_ltx header h d) (λ _, True).
Proof. apply calm_changing. intros lh. apply addBuyingLiabilitiesTo_keeps. Qed.

Lemma calm_addSellingLiabilities header h d : calm l0 (addSellingLiabilities_ltx header h d) (λ _, True).
Proof. apply calm_changing. intros lh. apply addSellingLiabilitiesTo_keeps. Qed.

(** A trust line that was loaded. *)
Definition line_on_key (accountID : AccountID) (asset : Asset) (line : TrustLineWrapper) : Prop :=
  match line with NonIssuerImpl h => h_key h = trustlineKey accountID asset | _ => True end.

Lemma calm_loadLine load accountID asset :
  (∀ key, calm l0 (load key) (on_key key)) → calm l0 (loadLine load accountID asset) (line_on_key accountID asset).
Proof.
  intros Hload. unfold loadLine. eapply calm_bind; [apply calm_lift_eq|]. intros issuer _. case_decide; [by apply calm_ret|].
  eapply calm_bind; [apply Hload|]. intros [h|] Hh; by apply calm_ret.
Qed.

Lemma calm_loadTrustLine accountID asset : calm l0 (loadTrustLine accountID asset) (line_on_key accountID asset).
Proof. unfold loadTrustLine. case_match; [apply calm_raise|]. apply calm_loadLine, calm_load. Qed.

Lemma calm_loadTrustLineWithoutRecord accountID asset :
  calm l0 (loadTrustLineWithoutRecord accountID asset) (line_on_key accountID asset).
Proof. apply calm_loadLine, calm_loadWithoutRecord. Qed.

Lemma calm_loadTrustLineIfNotNative accountID asset :
  calm l0 (loadTrustLineIfNotNative accountID asset) (line_on_key accountID asset).
Proof. unfold loadTrustLineIfNotNative. case_match; [by apply calm_ret|apply calm_loadTrustLine]. Qed.

Lemma calm_loadTrustLineWithoutRecordIfNotNative accountID asset :
  calm l0 (loadTrustLineWithoutRecordIfNotNative accountID asset) (line_on_key accountID asset).
Proof. unfold loadTrustLineWithoutRecordIfNotNative. case_match; [by apply calm_ret|apply calm_loadTrustLineWithoutRecord]. Qed.

Lemma calm_withLine {A} c (f : TrustLineWrapper → Client A) R R' :
  calm l0 c R → (∀ line, R line → calm l0 (f line) R') → calm l0 (withLine c f) R'.
Proof.
  intros Hc Hf. eapply calm_bind; [exact Hc|]. intros line HR. eapply calm_bind; [by apply Hf|]. intros a HR'.
  eapply calm_bind; [|intros _ _; by apply calm_ret]. instantiate (1 := λ _, True).
  destruct line; try by apply calm_ret. apply calm_same. intros l Q HQ. apply lwp_release. eauto.
Qed.

Lemma calm_method {A} (a : A) (f : Handle → Client A) line R :
  R a → (∀ h, calm l0 (f h) R) → calm l0 (method a f line) R.
Proof. intros Ha Hf. destruct line; [apply calm_raise|apply Hf|by apply calm_ret]. Qed.

Lemma calm_line_addBuyingLiabilities header d line : calm l0 (line_addBuyingLiabilities header d line) (λ _, True).
Proof. apply calm_method; [done|]. intros h. apply calm_addBuyingLiabilities. Qed.

Lemma calm_line_addSellingLiabilities header d line : calm l0 (line_addSellingLiabilities header d line) (λ _, True).
Proof. apply calm_method; [done|]. intros h. apply calm_addSellingLiabilities. Qed.

Lemma calm_line_read {A} (a : A) (f : LedgerEntry → res A) line :
  calm l0 (method a (λ h, le ← current h; lift (f le)) line) (λ _, True).
Proof. apply calm_method; [done|]. intros h. eapply calm_bind; [apply calm_current|]. intros le _. by apply calm_lift. Qed.

Lemma calm_line_reading {A} (a : A) (f : LedgerHeader → LedgerEntry → res A) header line :
  calm l0 (method a (reading f header) line) (λ _, True).
Proof. apply calm_method; [done|]. intros h. eapply calm_true, calm_reading. Qed.

#[local] Hint Resolve calm_addBuyingLiabilities calm_addSellingLiabilities calm_line_addBuyingLiabilities
  calm_line_addSellingLiabilities : calm.

Lemma calm_bookLiabilities onAccount onLine what sellerID asset :
  (∀ h, calm l0 (onAccount h) (λ _, True)) → (∀ line, calm l0 (onLine line) (λ _, True)) →
  calm l0 (bookLiabilities onAccount onLine what sellerID asset) (λ _, True).
Proof.
  intros Ha Hl. eapply calm_bind; [|intros []; [by intros; apply calm_ret|intros; apply calm_raise]].
  instantiate (1 := λ _, True). case_match.
  - eapply calm_withEntry; [apply calm_load|]. intros [h|] _; [apply Ha|apply calm_raise].
  - eapply calm_withLine; [apply calm_loadTrustLine|]. intros line _. case_match; [apply Hl|apply calm_raise].
Qed.

Lemma calm_acquireOrReleaseLiabilities header offer acquire :
  calm l0 (acquireOrReleaseLiabilities header offer acquire) (λ _, True).
Proof.
  unfold acquireOrReleaseLiabilities. do 2 (eapply calm_bind; [eauto 2 with calm nocore|intros ? ?]).
  case_decide; [apply calm_raise|]. cbv zeta. eapply calm_bind; [apply calm_reading|]. intros b _.
  eapply calm_bind; [apply calm_bookLiabilities; eauto 2 with calm nocore|]. intros _ _.
  eapply calm_bind; [apply calm_reading|]. intros s _. apply calm_bookLiabilities; eauto 2 with calm nocore.
Qed.
End lines.

#[export] Hint Resolve calm_addBuyingLiabilities calm_addSellingLiabilities calm_line_addBuyingLiabilities
  calm_line_addSellingLiabilities calm_acquireOrReleaseLiabilities calm_loadTrustLine calm_loadTrustLineWithoutRecord
  calm_loadTrustLineIfNotNative calm_loadTrustLineWithoutRecordIfNotNative : calm.
#[export] Hint Extern 1 (calm _ (line_isAuthorized _) _) => apply calm_line_read : calm.
#[export] Hint Extern 1 (calm _ (line_isAuthorizedToMaintainLiabilities _) _) => apply calm_line_read : calm.
#[export] Hint Extern 1 (calm _ (line_getAvailableBalance _ _) _) => apply calm_line_reading : calm.
#[export] Hint Extern 1 (calm _ (line_getMaxAmountReceive _ _) _) => apply calm_line_reading : calm.
#[export] Hint Extern 1 (calm _ (line_getBuyingLiabilities _ _) _) => apply calm_line_reading : calm.
#[export] Hint Extern 1 (calm _ (line_getSellingLiabilities _ _) _) => apply calm_line_reading : calm.
#[export] Hint Extern 1 (calm _ (acquireLiabilities _ _) _) =>
  unfold acquireLiabilities; apply calm_acquireOrReleaseLiabilities : calm.
#[export] Hint Extern 1 (calm _ (releaseLiabilities _ _) _) =>
  unfold releaseLiabilities; apply calm_acquireOrReleaseLiabilities : calm.
