(* ===== verification/LumenMoves.v ===== *)
(** * Clients that move lumens

    How many lumens a client adds to the ledger, as a relation between its result
    and the amount; for paying accounts, and for crossing offers, where the lumens
    that the owners of the offers get are those that the one who crosses sends. *)

From S2P Require Import Prelude StateMonad Numeric Exchange LedgerEntries GeneralizedEntries Accounts OfferOrder LedgerTxn LedgerTxnSpec LedgerTxnRefine LedgerClient.
From S2P Require Import ClientProps ClientLogic Lumens Sponsorship TrustLines OfferCrossing SponsorshipProps.

(** From a level of protocol [V]. *)
Definition moves (V : Z) {A} (c : Client A) (P : A → Z → Prop) : Prop :=
  ∀ l, lh_ledgerVersion (v_header l) = V → lwp c (λ a l', ∃ δ, P a δ ∧ moved δ l l') l.

Lemma moved_version δ l l' : moved δ l l' → lh_ledgerVersion (v_header l') = lh_ledgerVersion (v_header l).
Proof. by intros [[ids ->] _]. Qed.

Section moves.
Context (V : Z).

Lemma moves_ret {A} (a : A) (P : A → Z → Prop) : P a 0 → moves V (mret a) P.
Proof. intros HP l _. apply lwp_ret. exists 0. split; [done|]. by apply moved_quiet. Qed.

Lemma moves_raise {A} e (P : A → Z → Prop) : moves V (Raise e) P.
Proof. intros l _. apply lwp_raise. Qed.

Lemma moves_bind {A B} (c : Client A) (f : A → Client B) P Q :
  moves V c P → (∀ a δ, P a δ → moves V (f a) (λ b δ', Q b (δ + δ'))) → moves V (c ≫= f) Q.
Proof.
  intros Hc Hf l HV. apply lwp_bind. eapply lwp_mono; [|by apply Hc]. intros a l1 (δ & HP & Hm).
  eapply lwp_mono; [|apply (Hf a δ HP); by rewrite (moved_version _ _ _ Hm)].
  intros b l2 (δ' & HQ & Hm'). exists (δ + δ'). split; [done|]. by eapply moved_trans.
Qed.

Lemma moves_mono {A} (c : Client A) (P Q : A → Z → Prop) : moves V c P → (∀ a δ, P a δ → Q a δ) → moves V c Q.
Proof. intros Hc HPQ l HV. eapply lwp_mono; [|by apply Hc]. intros a l' (δ & HP & Hm). eauto. Qed.

Lemma moves_calm {A} (c : Client A) (R : A → Prop) (P : A → Z → Prop) :
  (∀ l0, lh_ledgerVersion (v_header l0) = V → calm l0 c R) → (∀ a, R a → P a 0) → moves V c P.
Proof.
  intros Hc HP l HV. eapply lwp_mono; [|by apply (Hc l HV l)]. intros a l' [Hq HR]. exists 0. split; [by apply HP|].
  by apply moved_quiet.
Qed.

(** The first part of a sequence is calm. *)
Lemma moves_calm_bind {A B} (c : Client A) (f : A → Client B) (R : A → Prop) Q :
  (∀ l0, lh_ledgerVersion (v_header l0) = V → calm l0 c R) → (∀ a, R a → moves V (f a) Q) → moves V (c ≫= f) Q.
Proof.
  intros Hc Hf. eapply (moves_bind _ _ (λ a δ, R a ∧ δ = 0)); [by eapply moves_calm|]. intros a δ [HR ->].
  eapply moves_mono; [by apply Hf|]. done.
Qed.

Lemma moved_same δ l l1 l2 : moved δ l l1 → same_view l1 l2 → moved δ l l2.
Proof. unfold moved, same_view. intros Hm [-> ->]. exact Hm. Qed.

Lemma moved_same_l δ l l1 l2 : same_view l l1 → moved δ l1 l2 → moved δ l l2.
Proof. unfold moved, same_view. intros [-> ->] Hm. exact Hm. Qed.

Lemma moves_withEntry {A} (c : Client Handle) (f : Handle → Client A) (R : Handle → Prop) Q :
  (∀ l0, lh_ledgerVersion (v_header l0) = V → calm l0 c R) → (∀ h, R h → moves V (f h) Q) → moves V (withEntry c f) Q.
Proof.
  intros Hc Hf. unfold withEntry. eapply moves_calm_bind; [exact Hc|]. intros h HR.
  eapply moves_bind; [by apply Hf|]. intros a δ HQ. eapply (moves_calm_bind _ _ (λ _, True)).
  - intros l0 _. apply calm_same. intros l Q' HQ'. apply lwp_releaseEntry. eauto.
  - intros _ _. apply moves_ret. by rewrite Z.add_0_r.
Qed.

Lemma moves_withHeader {A} (f : Z → Client A) Q : (∀ id, moves V (f id) Q) → moves V (withHeader f) Q.
Proof.
  intros Hf l HV. apply lwp_withHeader. intros id l1 H1.
  eapply lwp_mono; [|apply Hf; by destruct H1 as [_ ->]].
  intros a l2 (δ & HQ & Hm) l3 H3. exists δ. split; [done|]. eapply moved_same; [|exact H3].
  by eapply moved_same_l.
Qed.

Lemma moves_withLine {A} (c : Client TrustLineWrapper) (f : TrustLineWrapper → Client A) (R : TrustLineWrapper → Prop) Q :
  (∀ l0, lh_ledgerVersion (v_header l0) = V → calm l0 c R) → (∀ h, R h → moves V (f h) Q) → moves V (withLine c f) Q.
Proof.
  intros Hc Hf. unfold withLine. eapply moves_calm_bind; [exact Hc|]. intros line HR.
  eapply moves_bind; [by apply Hf|]. intros a δ HQ. eapply (moves_calm_bind _ _ (λ _, True)).
  - intros l0 _. destruct line; try by apply calm_ret. apply calm_same. intros l Q' HQ'. apply lwp_release. eauto.
  - intros _ _. apply moves_ret. by rewrite Z.add_0_r.
Qed.

(** A nested level moves lumens when it is committed. *)
Lemma moves_nested {A} (c : Client (bool * A)) (P : bool * A → Z → Prop) Q :
  moves V c P → (∀ b a δ, P (b, a) δ → Q a (if b : bool then δ else 0)) → moves V (nested c) Q.
Proof.
  intros Hc HPQ l HV. apply lwp_nested. eapply lwp_mono; [|by apply Hc].
  intros [b a] l1 (δ & HP & [Hh Hm]) l' Hv Hh'. cbn [fst snd] in *. eexists. split; [by eapply HPQ|].
  destruct b; split; rewrite ?Hv, ?Hh'; try done.
  - intros Hs. destruct (Hm Hs) as [Hs1 Hco]. split; [by apply sealed_sound|].
    rewrite (coins_pointwise (v_view l1)) by apply sealed_lumens. exact Hco.
  - intros Hs. split; [done|]. lia.
Qed.

(** ** Paying *)

Lemma addBalanceTo_account lh d le le' a :
  entry_data le = ACCOUNT a → 0 ≤ acc_balance a → addBalanceTo lh d le = Ok (Some le') →
  LedgerEntryKey le' = LedgerEntryKey le ∧ lumens_of le' = lumens_of le + d ∧ 0 ≤ lumens_of le'.
Proof.
  intros Hle Ha H. unfold addBalanceTo in H. rewrite Hle in H. unfold LedgerEntryKey, lumens_of.
  assert (∀ n, addBalance (acc_balance a) d INT64_MAX = Ok (Some n) → n = acc_balance a + d ∧ 0 ≤ n) as Hadd.
  { intros n Hn. unfold addBalance in Hn. inv_res; repeat match goal with H : mret _ = Ok _ |- _ => injection H as H end; lia. }
  inv_res; rewrite ?Hle; simpl; rewrite ?Hle; try (split_and!; [done|lia|lia]).
  all: match goal with H : addBalance _ _ _ = _ |- _ => apply Hadd in H as [-> ?] end; split_and!; try done; lia.
Qed.

Lemma addBalanceTo_line lh d le le' t :
  entry_data le = TRUSTLINE t → addBalanceTo lh d le = Ok (Some le') → keeps_lumens le le'.
Proof.
  intros Hle H. unfold addBalanceTo in H. rewrite Hle in H. unfold keeps_lumens, LedgerEntryKey, lumens_of.
  inv_res; rewrite ?Hle; simpl; by rewrite ?Hle.
Qed.

Lemma account_at_key le id : toKey (GLedgerEntry le) = accountKey id → ∃ a, entry_data le = ACCOUNT a.
Proof. unfold toKey, LedgerEntryKey, accountKey. destruct (entry_data le); naive_solver. Qed.

Lemma line_at_key le id asset : toKey (GLedgerEntry le) = trustlineKey id asset → ∃ t, entry_data le = TRUSTLINE t.
Proof. unfold toKey, LedgerEntryKey, trustlineKey. destruct (entry_data le); naive_solver. Qed.

(** The lumens of one entry change by [d]. *)
Definition paid (k : GeneralizedLedgerKey) (d : Z) (l l' : Level) : Prop :=
  moved d l l' ∧ (sound (v_view l) → ∀ k', k' ≠ k → lumens_at (v_view l') k' = lumens_at (v_view l) k').

Lemma lwp_addBalance header h id d l :
  on_key (accountKey id) h →
  lwp (addBalance_ltx header h d) (λ b l', if b : bool then paid (accountKey id) d l l' else same_view l l') l.
Proof.
  intros Hk. apply lwp_bind, lwp_currentHeader. apply lwp_bind, lwp_current. intros h' le -> Hle.
  apply lwp_bind, lwp_lift. intros [le'|] Hadd; [|by apply lwp_ret].
  apply lwp_bind, lwp_assign. intros h1 l' [= <-] Hv Hh. apply lwp_ret. simpl in Hk. split; [split; [by rewrite Hh|]|].
  - intros Hs. destruct (Hs _ _ Hle) as [Hkey Hpos]. rewrite Hk in Hkey.
    destruct (account_at_key _ _ Hkey) as [a Ha].
    assert (0 ≤ acc_balance a) as Hbal by (simpl in Hpos; unfold lumens_of in Hpos; by rewrite Ha in Hpos).
    destruct (addBalanceTo_account _ _ _ _ _ Ha Hbal Hadd) as (Hk' & Hl' & Hp').
    rewrite Hv. split.
    + apply sound_insert; [done| |done]. rewrite Hk, <- Hkey. simpl. by rewrite Hk'.
    + rewrite coins_insert. unfold lumens_at. rewrite Hle. simpl. lia.
  - intros _ k' Hne. rewrite Hv. unfold lumens_at. by rewrite lookup_insert_ne by congruence.
Qed.

Lemma moves_addBalance header h id d :
  on_key (accountKey id) h →
  moves V (addBalance_ltx header h d) (λ b δ, δ = if b then d else 0).
Proof.
  intros Hk l HV. eapply lwp_mono; [|by apply lwp_addBalance]. intros [] l' Hl'; eexists; (split; [reflexivity|]).
  - apply Hl'.
  - by apply moved_quiet, quiet_same.
Qed.

Lemma calm_line_addBalance l0 header d id asset line :
  line_on_key id asset line → calm l0 (line_addBalance header d line) (λ _, True).
Proof.
  intros Hk. destruct line as [|h|]; [apply calm_raise| |by apply calm_ret]. simpl in Hk.
  eapply calm_bind; [apply calm_currentHeader|]. intros lh _. eapply calm_bind; [apply calm_current|]. intros le Ha.
  eapply calm_bind; [apply calm_lift_eq|]. intros [le'|] Hadd; [|by apply calm_ret].
  eapply calm_bind; [|intros; by apply calm_ret]. apply calm_assign. intros Hs. pose proof (Ha Hs) as (h' & [= <-] & Hkey & _).
  rewrite Hk in Hkey. destruct (line_at_key _ _ _ Hkey) as [t Ht].
  by eapply (at_key_keeps l0 (Some h) le); [|eapply addBalanceTo_line|].
Qed.
End moves.

(** ** Crossing offers *)

(** The lumens in an amount of an asset. *)
Definition native (asset : Asset) (n : Z) : Z := if is_native asset then n else 0.

Lemma native_add asset n m : native asset (n + m) = native asset n + native asset m.
Proof. unfold native. by destruct (is_native asset). Qed.

Section crossing_calm.
Context (l0 : Level).

Lemma calm_offerOf h : calm l0 (offerOf h) (λ _, True).
Proof. unfold offerOf. solve_calm. Qed.

Lemma calm_canSellAtMostBasedOnSheep header sheep line p :
  calm l0 (canSellAtMostBasedOnSheep header sheep line p) (λ _, True).
Proof. unfold canSellAtMostBasedOnSheep. solve_calm. Qed.

Lemma calm_canSellAtMost header account asset line : calm l0 (canSellAtMost header account asset line) (λ _, True).
Proof. unfold canSellAtMost. solve_calm. Qed.

Lemma calm_canBuyAtMost header account asset line : calm l0 (canBuyAtMost header account asset line) (λ _, True).
Proof. unfold canBuyAtMost. solve_calm. Qed.

Lemma calm_set_off_amount h f : calm l0 (change h (on_offer (λ o, set_off_amount (f o) o))) (λ _, True).
Proof. apply calm_change. intros le le'. by apply on_offer_keeps. Qed.

#[local] Hint Resolve calm_offerOf calm_canSellAtMost calm_canBuyAtMost : calm.

Lemma calm_adjustOffer header offer account wheat wheatLine sheep sheepLine :
  calm l0 (adjustOffer_ltx header offer account wheat wheatLine sheep sheepLine) (λ _, True).
Proof. unfold adjustOffer_ltx. solve_calm. apply calm_set_off_amount. Qed.

Lemma calm_settleOffer accountBID offerID res : calm l0 (settleOffer accountBID offerID res) (λ _, True).
Proof.
  unfold settleOffer. solve_calm.
  - by eapply calm_removeKey; [|eassumption].
  - by eapply calm_erase_key; [|eassumption].
Qed.

(** The offer after its exchange. *)
Lemma calm_reduceOffer header h accountB wheat wheatLine sheep sheepLine (stays : bool) n :
  calm l0 (if stays then
             change h (on_offer (λ o, set_off_amount (off_amount o - n) o));;
             adjustOffer_ltx header h accountB wheat wheatLine sheep sheepLine
           else change h (on_offer (set_off_amount 0))) (λ _, True).
Proof.
  destruct stays; [|apply calm_set_off_amount].
  eapply calm_bind; [apply calm_set_off_amount|]. intros _ _. apply calm_adjustOffer.
Qed.
End crossing_calm.

#[export] Hint Resolve calm_offerOf calm_canSellAtMostBasedOnSheep calm_canSellAtMost calm_canBuyAtMost
  calm_adjustOffer calm_settleOffer calm_reduceOffer : calm.

(** ** Automation *)

Lemma calm_version V l0 :
  lh_ledgerVersion (v_header l0) = V → calm l0 ledgerVersion (λ v, v = V).
Proof. intros <-. apply calm_ledgerVersion. Qed.

Lemma calm_headerVersion V l0 id :
  lh_ledgerVersion (v_header l0) = V → calm l0 (ask (CurrentHeader id)) (λ h, lh_ledgerVersion h = V).
Proof. intros <-. eapply calm_mono; [apply calm_currentHeader|]. by intros h [ids ->]. Qed.

Create HintDb moves.
#[export] Hint Constants Opaque : moves.

(** The first part of a sequence: it is calm, or has a lemma of its own. *)
Ltac calm_part :=
  intros ? ?;
  first [ solve [by eapply calm_version | by eapply calm_headerVersion] | solve [eauto 3 with calm nocore]
        | eapply calm_true; solve [eauto 3 with calm nocore] ].

Ltac moves_step :=
  lazymatch goal with
  | |- moves _ (mret _) _ => apply moves_ret
  | |- moves _ (throw_runtime _) _ => apply moves_raise
  | |- moves _ (Raise _) _ => apply moves_raise
  | |- moves _ (mbind _ _) _ =>
      first [ eapply moves_calm_bind; [solve [calm_part]|intros ? ?; cbv beta in *]
            | eapply moves_bind; [solve [eauto 3 with moves nocore]|intros ? ? ?; cbv beta in *] ]
  | |- moves _ (withEntry _ _) _ => eapply moves_withEntry; [solve [calm_part]|intros ? ?; cbv beta in *]
  | |- moves _ (withLine _ _) _ => eapply moves_withLine; [solve [calm_part]|intros ? ?; cbv beta in *]
  | |- moves _ (withHeader _) _ => apply moves_withHeader; intros ?; cbv beta
  | |- moves _ (match _ with _ => _ end) _ => case_match
  | |- moves _ (let _ := _ in _) _ => cbv zeta
  end.

Section crossing.
Context (V : Z).

Lemma moves_payB header accountB line asset id d what :
  on_key (accountKey id) accountB → line_on_key id asset line →
  moves V (payB header accountB line asset d what) (λ _ δ, δ = native asset d).
Proof.
  intros Hacc Hline. unfold payB, native. destruct (d =? 0) eqn:Hd.
  { apply moves_ret. apply Z.eqb_eq in Hd as ->. by destruct (is_native asset). }
  destruct (is_native asset).
  - eapply moves_bind; [by apply (moves_addBalance _ _ _ id)|]. intros [] δ ->; [|apply moves_raise]. apply moves_ret. lia.
  - eapply (moves_calm_bind _ _ _ (λ _, True)); [intros; by eapply calm_line_addBalance|].
    intros [] _; [by apply moves_ret|apply moves_raise].
Qed.

(** The offer a handle refers to, with its assets. *)
Definition offer_at (l : Level) (h : Handle) (sheep wheat : Asset) : Prop :=
  sound (v_view l) → ∀ h', h = Some h' → ∃ le oe, v_view l !! h_key h' = Some (GLedgerEntry le) ∧
    entry_data le = OFFER oe ∧ off_buying oe = sheep ∧ off_selling oe = wheat.

(** What is given for an offer of [wheat] for [sheep]. *)
Definition crossed (sheep wheat : Asset) (numWheat numSheep : Z) : Z := native sheep numSheep - native wheat numWheat.

Lemma lwp_offerOf h (Q : OfferEntry → Level → Prop) l :
  (∀ h' le oe, h = Some h' → v_view l !! h_key h' = Some (GLedgerEntry le) → entry_data le = OFFER oe → Q oe l) →
  lwp (offerOf h) Q l.
Proof.
  intros HQ. apply lwp_bind, lwp_current. intros h' le Hh Hle. apply lwp_lift. intros oe Hoe%data_offer_Ok. eauto.
Qed.

(** Nothing is sent where nothing is received, when both amounts are rounded. *)
Definition paidFor (round : RoundingType) (numWheat numSheep : Z) : Prop := round = NORMAL → numWheat = 0 → numSheep = 0.

Lemma exchangeV10_paidFor p mws mwr mss msr round r :
  exchangeV10 p mws mwr mss msr round = Ok r → paidFor round (numWheatReceived r) (numSheepSend r).
Proof.
  unfold exchangeV10, applyPriceErrorThresholds. intros H -> Hw. inv_res; simpl in *; try done; lia.
Qed.

Lemma moves_crossOfferV10 h sheep wheat maxWheat maxSheep round trail l :
  lh_ledgerVersion (v_header l) = V → offer_at l h sheep wheat →
  lwp (crossOfferV10 h maxWheat maxSheep round trail)
    (λ '(_, numWheat, numSheep, _, _) l',
       paidFor round numWheat numSheep ∧ moved (crossed sheep wheat numWheat numSheep) l l') l.
Proof.
  intros HV Ho. unfold crossOfferV10. do 2 (apply lwp_bind, lwp_lift; intros _ _).
  apply lwp_withHeader. intros header l1 [Hv1 Hh1]. apply lwp_bind, lwp_offerOf. intros h' le oe -> Hle Hoe. cbv zeta.
  match goal with |- lwp ?c _ _ => assert (moves V c (λ '(_, numWheat, numSheep, _, _) δ,
    paidFor round numWheat numSheep ∧ δ = crossed (off_buying oe) (off_selling oe) numWheat numSheep)) as Hm end.
  { repeat moves_step.
    eapply (moves_withEntry _ _ _ (on_key (accountKey (off_sellerID oe)))).
    { intros l0 _. case_match; [apply calm_load|by apply calm_ret]. }
    intros accountB HB. repeat moves_step.
    eapply moves_bind; [by eapply moves_payB|]. intros _ δ1 ->. eapply moves_bind; [by eapply moves_payB|]. intros _ δ2 ->.
    repeat moves_step. split; [by eapply exchangeV10_paidFor|].
    unfold crossed, native. destruct (is_native _), (is_native _); lia. }
  eapply lwp_mono; [|apply Hm; by rewrite Hh1].
  intros [[[[cor numWheat] numSheep] stays] trail'] l2 (δ & [Hpaid ->] & Hmv) l3 H3. split; [done|].
  assert (moved (crossed (off_buying oe) (off_selling oe) numWheat numSheep) l l3) as [Hh Hmv3].
  { eapply moved_same; [eapply moved_same_l; [|exact Hmv]; by split|exact H3]. }
  split; [done|]. intros Hs. destruct (Ho Hs h' eq_refl) as (le' & oe' & Hle' & Hoe' & <- & <-).
  rewrite Hv1, Hle' in Hle. injection Hle as <-. rewrite Hoe' in Hoe. injection Hoe as <-. by apply Hmv3.
Qed.

(** A filter that only looks at the offer. *)
Definition looks {B} (filter : Handle → Client (option B)) : Prop :=
  ∀ h l, lwp (filter h) (λ _ l', same_view l l') l.

Lemma offer_at_same l l' h sheep wheat : same_view l l' → offer_at l h sheep wheat → offer_at l' h sheep wheat.
Proof. unfold offer_at. intros [-> _]. done. Qed.

Context (HV : 12 ≤ V).

Lemma moves_crossBest {B} sheep wheat round (filter : Handle → Client (option B)) maxOffers maxSheep maxWheat trail :
  looks filter →
  moves V (crossBest sheep wheat round filter maxOffers maxSheep maxWheat trail)
    (λ step δ, match step with
               | StepCrossed _ numWheat numSheep _ _ =>
                   δ = crossed sheep wheat numWheat numSheep ∧ 0 ≤ numWheat ∧ paidFor round numWheat numSheep
               | _ => δ = 0
               end).
Proof.
  intros Hf. eapply (moves_nested _ _ (λ r δ, match r with
      | (true, StepCrossed _ numWheat numSheep _ _) =>
          δ = crossed sheep wheat numWheat numSheep ∧ 0 ≤ numWheat ∧ paidFor round numWheat numSheep
      | (true, _) => δ = 0
      | (false, StepCrossed _ _ _ _ _) => False
      | (false, _) => True
      end)).
  2: { intros [] [] δ; done. }
  intros l Hl. apply lwp_withEntry, lwp_loadBestOffer. intros h l1 H1 Hbest.
  assert (offer_at l1 h sheep wheat) as Ho.
  { eapply offer_at_same; [exact H1|]. intros Hs. apply Hbest. intros k e. by apply Hs. }
  destruct h as [h|]; [|apply lwp_ret; intros l2 H2; exists 0; split; [done|]; apply moved_quiet, quiet_same; by etrans].
  apply lwp_bind. eapply lwp_mono; [|apply Hf]. intros stop l2 H2.
  assert (same_view l l2) as H02 by (by etrans). assert (∀ l3, same_view l2 l3 → moved 0 l l3) as Hstay.
  { intros l3 H3. apply moved_quiet, quiet_same. by etrans. }
  destruct stop; [apply lwp_ret; eauto|]. case_match; [apply lwp_ret; eauto|].
  apply lwp_bind, lwp_ledgerVersion. intros l3 H3. rewrite (proj2 H02), Hl.
  rewrite (proj2 (Z.leb_le 10 V)) by lia. apply lwp_bind, lwp_bind.
  assert (same_view l l3) as H03 by (by etrans).
  eapply lwp_mono; [|eapply moves_crossOfferV10; [by rewrite (proj2 H03)|exact (offer_at_same _ _ _ _ _ H3 (offer_at_same _ _ _ _ _ H2 Ho))]].
  intros [[[[cor numWheat] numSheep] stays] trail'] l4 [Hpaid Hmv]. apply lwp_ret.
  do 2 (apply lwp_bind, lwp_lift; intros _ _). apply lwp_bind, lwp_lift. intros ? Hpos. apply lwp_bind, lwp_lift. intros _ _.
  assert (0 ≤ numWheat) by (destruct (Z.leb_spec 0 numWheat); [done|discriminate Hpos]).
  case_decide; apply lwp_ret; intros l5 H5; eexists; (split; [done|]);
    (eapply moved_same; [eapply moved_same_l; [exact H03|exact Hmv]|exact H5]).
Qed.

Lemma crossed_add sheep wheat w1 s1 w2 s2 :
  crossed sheep wheat (w1 + w2) (s1 + s2) = crossed sheep wheat w1 s1 + crossed sheep wheat w2 s2.
Proof. unfold crossed, native. destruct (is_native sheep), (is_native wheat); lia. Qed.

Lemma moves_convertLoop {B} sheep wheat round (filter : Handle → Client (option B)) maxOffers fuel :
  looks filter → ∀ maxSheep maxWheat sheepSend wheatReceived trail,
  moves V (convertLoop sheep wheat round filter maxOffers fuel maxSheep maxWheat sheepSend wheatReceived trail)
    (λ '(_, sheepSend', wheatReceived', _) δ,
       δ = crossed sheep wheat (wheatReceived' - wheatReceived) (sheepSend' - sheepSend) ∧
       wheatReceived ≤ wheatReceived' ∧ paidFor round (wheatReceived' - wheatReceived) (sheepSend' - sheepSend)).
Proof.
  intros Hf. induction fuel as [|fuel IH]; intros; [apply moves_raise|]. cbn [convertLoop].
  assert (∀ w s, crossed sheep wheat (w - w) (s - s) = 0) as H0.
  { intros w s. unfold crossed, native. destruct (is_native _), (is_native _); lia. }
  assert (∀ w s, paidFor round (w - w) (s - s)) as Hp0 by (intros w s ? ?; lia).
  eapply moves_bind; [by apply moves_crossBest|]. intros [ | r|cor numWheat numSheep needMore trail'] δ.
  - intros ->. repeat moves_step. by rewrite H0.
  - intros ->. apply moves_ret. by rewrite H0.
  - intros (-> & Hpos & Hpaid). cbv zeta.
    assert (∀ w s, crossed sheep wheat numWheat numSheep = crossed sheep wheat (w + numWheat - w) (s + numSheep - s) ∧
      w ≤ w + numWheat ∧ paidFor round (w + numWheat - w) (s + numSheep - s)) as H1.
    { intros w s. split_and!; [f_equal; lia|lia|]. intros Hr Hw. rewrite Hpaid; [lia|done|lia]. }
    case_match; [apply moves_ret; rewrite Z.add_0_r; apply H1|].
    case_decide; [apply moves_ret; rewrite Z.add_0_r; apply H1|].
    eapply moves_mono; [apply IH|]. intros [[[r s] w] t] δ (-> & Hw & Hp). rewrite <-crossed_add.
    split_and!; [f_equal; lia|lia|]. intros Hr Hz. specialize (Hp Hr ltac:(lia)). specialize (Hpaid Hr ltac:(lia)). lia.
Qed.

Lemma moves_convertWithOffers {B} sheep wheat round (filter : Handle → Client (option B)) maxOffers fuel maxSheep maxWheat :
  looks filter →
  moves V (convertWithOffers sheep wheat round filter maxOffers fuel maxSheep maxWheat)
    (λ '(_, sheepSend, wheatReceived, _) δ,
       δ = crossed sheep wheat wheatReceived sheepSend ∧ 0 ≤ wheatReceived ∧ paidFor round wheatReceived sheepSend).
Proof.
  intros Hf. unfold convertWithOffers. case_match.
  - eapply moves_mono; [by apply moves_convertLoop|]. intros [[[r s] w] t] δ. by rewrite !Z.sub_0_r.
  - repeat moves_step. unfold crossed, native. destruct (is_native _), (is_native _); split_and!; done || lia.
Qed.

End crossing.
