(* ===== verification/CalmOps.v ===== *)
(** * Operations that move no lumens

    From protocol 12 on, the operations on data, sequence numbers, options, trust
    lines, sponsorships and authorization leave every entry with the lumens it has. *)

From S2P Require Import Prelude StateMonad Numeric LedgerEntries GeneralizedEntries Accounts LedgerTxn LedgerTxnSpec LedgerTxnRefine LedgerClient.
From S2P Require Import ClientProps ClientLogic Lumens Sponsorship TrustLines SponsorshipProps LumenMoves OperationTypes OperationBase AccountOps SponsorshipOps.

(** ** What operations share *)

Lemma calm_loadAccount_tx l0 tx header id :
  12 ≤ lh_ledgerVersion (v_header l0) → calm l0 (loadAccount_tx tx header id) (on_key (accountKey id)).
Proof.
  intros HV. eapply calm_bind; [by eapply calm_headerVersion|]. intros lh Hlh. rewrite Hlh.
  rewrite (proj2 (Z.ltb_ge _ 8)) by lia. apply calm_load.
Qed.

#[export] Hint Extern 1 (calm _ (loadAccount_tx _ _ _) _) => apply calm_loadAccount_tx; lia : calm.

Lemma calm_line_getBalance l0 line : calm l0 (line_getBalance line) (λ _, True).
Proof. apply calm_method; [done|]. intros h. solve_calm. Qed.

#[export] Hint Resolve calm_line_getBalance : calm.

(** An operation with early returns. *)
Lemma calm_orFail l0 {A} (c : Client (Early A)) k :
  calm l0 c (λ _, True) → (∀ a, calm l0 (k a) (λ _, True)) → calm l0 (orFail c k) (λ _, True).
Proof. intros Hc Hk. eapply calm_bind; [exact Hc|]. intros [r|a] _; [by apply calm_ret|apply Hk]. Qed.

Lemma calm_applied l0 c : calm l0 c (λ _, True) → calm l0 (applied c) (λ _, True).
Proof. intros Hc. apply calm_orFail; [done|]. intros. by apply calm_ret. Qed.

Lemma calm_unlessFails l0 {A} c (k : Client (Early A)) :
  calm l0 c (λ _, True) → calm l0 k (λ _, True) → calm l0 (unlessFails c k) (λ _, True).
Proof. intros Hc Hk. eapply calm_bind; [exact Hc|]. intros [r|] _; [by apply calm_ret|done]. Qed.

Lemma calm_whenCreated l0 {A} low res (k : Client (Early A)) :
  calm l0 k (λ _, True) → calm l0 (whenCreated low res k) (λ _, True).
Proof. intros Hk. destruct res; simpl; first [done | by apply calm_ret | apply calm_raise]. Qed.

Lemma calm_create_entry l0 le : lumens_of le = 0 → calm l0 (create le) (λ _, True).
Proof. intros Hl. eapply calm_withEntry; [by apply calm_create|]. intros. by apply calm_ret. Qed.

Lemma calm_ownLevel l0 {A} (c : Client (Early A)) : calm l0 c (λ _, True) → calm l0 (ownLevel c) (λ _, True).
Proof. intros Hc. apply calm_nested. eapply calm_bind; [exact Hc|]. intros r _. by apply calm_ret. Qed.

(** Steps through the idioms of operations as well. *)
Ltac op_step :=
  lazymatch goal with
  | |- calm _ (applied _) _ => apply calm_applied
  | |- calm _ (orFail _ _) _ => apply calm_orFail; [|intros ?]
  | |- calm _ (unlessFails _ _) _ => apply calm_unlessFails
  | |- calm _ (whenCreated _ _ _) _ => apply calm_whenCreated
  | |- calm _ (ownLevel _) _ => apply calm_ownLevel
  | |- calm _ (create _) _ => apply calm_create_entry
  | |- calm _ (withLine _ _) _ => eapply calm_withLine; [calm_first|intros ? ?; cbv beta in *]
  | |- _ => calm_step
  end.
(** Changing a field of an account that is neither its key nor its balance. *)
Lemma calm_account_field l0 h f :
  keeps_balance f → calm l0 (change h (on_account f)) (λ _, True).
Proof. intros Hf. apply calm_change. intros le le'. by apply on_account_keeps. Qed.

(** What is left: entries without lumens are created, removed and erased. *)
Ltac op_fact :=
  lazymatch goal with
  | |- calm _ (removeLoadedEntry _ _ _) _ => by eapply calm_removeKey; [|eassumption]
  | |- calm _ (eraseEntry _) _ => by eapply calm_erase_key; [|eassumption]
  | |- calm _ (change _ (on_account _)) _ => apply calm_account_field; by split
  | H : keeps_lumens _ (_, _).2 |- lumens_of _ = 0 => etrans; [apply H|done]
  | |- calm _ _ _ => fail
  | |- _ => solve [exact I | done]
  end.

Ltac solve_op := repeat op_step; try op_fact.

Section calm_ops.
Context (l0 : Level) (HV : 12 ≤ lh_ledgerVersion (v_header l0)).

(** ** Data and sequence numbers *)

Lemma set_dataValue_keeps v le le' : ManageData.set_dataValue v le = Ok le' → keeps_lumens le le'.
Proof.
  unfold ManageData.set_dataValue. destruct (entry_data le) eqn:E; try done. intros [= <-].
  unfold keeps_lumens, LedgerEntryKey, lumens_of. simpl. by rewrite E.
Qed.

Lemma calm_ManageData tx id op : calm l0 (ManageData.doApply tx id op) (λ _, True).
Proof. unfold ManageData.doApply. solve_op. apply calm_change. apply set_dataValue_keeps. Qed.

Lemma calm_BumpSequence tx id bumpTo : calm l0 (BumpSequence.doApply tx id bumpTo) (λ _, True).
Proof. unfold BumpSequence.doApply. solve_op. Qed.

(** ** Options *)

Lemma calm_addOrChangeSigner tx id signer : calm l0 (SetOptions.addOrChangeSigner tx id signer) (λ _, True).
Proof.
  unfold SetOptions.addOrChangeSigner, SetOptions.on_signers. solve_op.
  apply calm_change. intros le le'. apply on_account_keeps. intros account. cbv beta zeta. by case_match.
Qed.

Lemma calm_deleteSigner signer header h : calm l0 (SetOptions.deleteSigner signer header h) (λ _, True).
Proof. unfold SetOptions.deleteSigner. solve_op. Qed.
#[local] Hint Resolve calm_addOrChangeSigner calm_deleteSigner : calm.

Lemma calm_SetOptions tx id op : calm l0 (SetOptions.doApply tx id op) (λ _, True).
Proof.
  unfold SetOptions.doApply, SetOptions.setInflationDest, SetOptions.changeFlags, SetOptions.setHomeDomain,
    SetOptions.setThreshold, SetOptions.setSigner. solve_op.
Qed.

(** ** Trust lines *)

Lemma calm_ChangeTrust tx id op : calm l0 (ChangeTrust.doApply tx id op) (λ _, True).
Proof.
  unfold ChangeTrust.doApply, ChangeTrust.trustSelf, ChangeTrust.changeLine, ChangeTrust.newLine, ChangeTrust.newFlags,
    ChangeTrust.success, ChangeTrust.failure. solve_op.
  apply calm_change. intros le le'. by apply on_trustLine_keeps.
Qed.

Lemma calm_loadOffers account asset :
  calm l0 (ask (LoadOffersByAccountAndAsset account asset)) (λ _, True).
Proof. apply calm_same. intros l Q HQ. apply lwp_loadOffersByAccountAndAsset. eauto. Qed.

(** An offer that a handle refers to. *)
Lemma calm_removeOffer header h acc le oe :
  at_key l0 h le → data_offer le = Ok oe →
  calm l0 (removeLoadedEntry header h acc) (λ _, True) ∧ calm l0 (eraseEntry h) (λ _, True).
Proof.
  intros Ha Ho%data_offer_Ok. split.
  - apply calm_removeLoadedEntry. intros le' Hs Ha' Hacc. exfalso.
    destruct (Ha Hs) as (h1 & -> & Hk & _), (Ha' Hs) as (h2 & [= <-] & Hk' & _). rewrite <- Hk in Hk'.
    simpl in Hk'. unfold LedgerEntryKey, is_account in *. rewrite Ho in Hk'. by destruct (entry_data le').
  - apply calm_erase. intros Hs h' ->. destruct (Ha Hs) as (h1 & [= <-] & _ & <-). unfold lumens_of. by rewrite Ho.
Qed.

Lemma calm_removeOffers id op header offers : calm l0 (AllowTrust.removeOffers id op header offers) (λ _, True).
Proof.
  induction offers as [|h offers IH]; cbn [AllowTrust.removeOffers]; [by apply calm_ret|]. eapply calm_bind; [apply calm_current|]. intros le Ha.
  eapply calm_bind; [apply calm_lift_eq|]. intros oe Ho. eapply (calm_bind _ _ _ (λ _, True)); [solve_op|]. intros _ _.
  eapply (calm_bind _ _ _ (λ _, True)); [eauto 3 with calm nocore|]. intros _ _.
  eapply (calm_bind _ _ _ (λ _, True)); [|done]. solve_op; by eapply calm_removeOffer.
Qed.
#[local] Hint Resolve calm_loadOffers calm_removeOffers : calm.

Lemma calm_AllowTrust tx id op : calm l0 (AllowTrust.doApply tx id op) (λ _, True).
Proof.
  unfold AllowTrust.doApply, AllowTrust.authNotRevocable, AllowTrust.checkLine, AllowTrust.authorizeLine, AllowTrust.success.
  solve_op. apply calm_change. intros le le'. unfold setAuthorized. case_match; [|done]. by apply on_trustLine_keeps.
Qed.

(** ** Sponsoring *)

Lemma calm_createGeneralized e : lumens e = 0 → calm l0 (BeginSponsoring.createGeneralized e) (λ _, True).
Proof.
  intros He. eapply calm_withEntry; [|intros; by apply calm_ret].
  eapply calm_bind; [by apply calm_createHandle|]. intros h _. by apply (calm_ret _ _ (λ _, True)).
Qed.

(** A counter keeps its key and has no lumens. *)
Lemma at_counter h e id n m :
  at_gkey l0 h e → sponsorshipCounterEntry e = Ok (id, n) → at_gkey l0 h (GSponsorshipCounter id m).
Proof.
  intros Ha He Hs. destruct (Ha Hs) as (h' & -> & Hk & Hl). destruct e; try done. injection He as -> ->. by exists h'.
Qed.

Lemma calm_BeginSponsoring id sponsored : calm l0 (BeginSponsoring.doApply id sponsored) (λ _, True).
Proof.
  unfold BeginSponsoring.doApply, BeginSponsoring.createSponsorship, BeginSponsoring.countSponsored,
    BeginSponsoring.createSponsorshipCounter. solve_op; try by apply calm_createGeneralized.
  subst. apply calm_write. by eapply at_counter.
Qed.

Lemma calm_EndSponsoring id : calm l0 (EndSponsoring.doApply id) (λ _, True).
Proof.
  unfold EndSponsoring.doApply, EndSponsoring.uncountSponsored. solve_op.
  subst. apply calm_write. by eapply at_counter.
Qed.

(** *** Revoking *)

Lemma calm_processSponsorshipResult sr k :
  calm l0 k (λ _, True) → calm l0 (RevokeSponsorship.processSponsorshipResult sr k) (λ _, True).
Proof. intros Hk. destruct sr; simpl; first [done | by apply calm_ret | apply calm_raise]. Qed.

Lemma calm_checkSponsor id sponsor owner : calm l0 (RevokeSponsorship.checkSponsor id sponsor owner) (λ _, True).
Proof. unfold RevokeSponsorship.checkSponsor, RevokeSponsorship.failure. solve_op. Qed.

Lemma calm_futureSponsor owner h : calm l0 (RevokeSponsorship.futureSponsor owner h) (λ _, True).
Proof. unfold RevokeSponsorship.futureSponsor. solve_op. Qed.

Ltac revoke :=
  unfold RevokeSponsorship.success, RevokeSponsorship.failure;
  repeat first [op_step
               | lazymatch goal with |- calm _ (RevokeSponsorship.processSponsorshipResult _ _) _ =>
                   apply calm_processSponsorshipResult end].

(** What changing sponsorships keeps. *)
Ltac revoke_facts :=
  repeat match goal with
  | H : transferEntrySponsorship _ _ _ = _ |- _ => apply transferEntrySponsorship_keeps in H as (? & ? & ?)
  | H : transferSignerSponsorship _ _ _ _ = _ |- _ => apply transferSignerSponsorship_keeps in H as (? & ? & ?)
  end;
  eauto 3 using calm_assign, at_key_keeps.

Lemma calm_transferEntry header h old new : calm l0 (RevokeSponsorship.transferEntry header h old new) (λ _, True).
Proof. unfold RevokeSponsorship.transferEntry. revoke; revoke_facts. Qed.

(** The functions on an entry and its accounts keep their lumens. *)
Definition update_keeps
    (update : LedgerEntry → LedgerEntry → SponsoredAcc → res (LedgerEntry * LedgerEntry * SponsoredAcc)) : Prop :=
  ∀ le sp s le' sp' s', update le sp s = Ok (le', sp', s') →
    keeps_lumens le le' ∧ keeps_lumens sp sp' ∧ keeps_sponsored s s'.

Lemma calm_tryUpdateEntry can update header h sp hs s :
  update_keeps update → match s with OtherAcc a => at_key l0 hs a | _ => True end →
  calm l0 (RevokeSponsorship.tryUpdateEntry can update header h sp hs s) (λ _, True).
Proof.
  intros Hu Hs. unfold RevokeSponsorship.tryUpdateEntry. revoke;
    try match goal with H : update _ _ _ = _ |- _ => apply Hu in H as (? & ? & ?) end;
    eauto 3 using calm_assign, at_key_keeps. all: eapply calm_assignSponsored; [|eassumption]; done.
Qed.

Lemma calm_updateEntry can update header h id :
  update_keeps update → calm l0 (RevokeSponsorship.updateEntry can update header h id) (λ _, True).
Proof. intros Hu. unfold RevokeSponsorship.updateEntry. revoke; by apply calm_tryUpdateEntry. Qed.

Lemma calm_transferSigner header n h old new : calm l0 (RevokeSponsorship.transferSigner header n h old new) (λ _, True).
Proof. unfold RevokeSponsorship.transferSigner. revoke; revoke_facts. Qed.

Lemma calm_updateSigner can update header n h id :
  (∀ sp acc sp' acc', update n sp acc = Ok (sp', acc') → keeps_lumens sp sp' ∧ keeps_lumens acc acc') →
  calm l0 (RevokeSponsorship.updateSigner can update header n h id) (λ _, True).
Proof.
  intros Hu. unfold RevokeSponsorship.updateSigner. revoke;
    try match goal with H : update _ _ _ = _ |- _ => apply Hu in H as (? & ?) end; eauto 3 using calm_assign, at_key_keeps.
Qed.
#[local] Hint Resolve calm_checkSponsor calm_futureSponsor calm_transferEntry calm_transferSigner : calm.

Lemma calm_RevokeSponsorship id op : calm l0 (RevokeSponsorship.doApply id op) (λ _, True).
Proof.
  unfold RevokeSponsorship.doApply, RevokeSponsorship.updateLedgerEntrySponsorship,
    RevokeSponsorship.updateSignerSponsorship. revoke; try exact I.
  - apply calm_updateEntry. exact removeEntrySponsorship_keeps.
  - apply calm_updateEntry. exact establishEntrySponsorship_keeps.
  - apply calm_updateSigner. apply removeSignerSponsorship_keeps.
  - apply calm_updateSigner. apply establishSignerSponsorship_keeps.
Qed.
End calm_ops.
