(* ===== verification/PrepareLiabilitiesProps.v ===== *)
(** * What upgrades do to the ledger

    Bringing offers and liabilities in line takes no lumens from any entry, and the
    header keeps its fields. *)

From S2P Require Import Prelude StateMonad Numeric Exchange LedgerEntries GeneralizedEntries Accounts LedgerTxn LedgerTxnSpec LedgerTxnRefine LedgerClient.
From S2P Require Import ClientProps ClientLogic Lumens Sponsorship TrustLines OfferCrossing SponsorshipProps LumenMoves CalmOps PrepareLiabilities.

(** A client that is calm keeps the header. *)
Lemma calm_tame {A} (c : Client A) : (∀ l0, calm l0 c (λ _, True)) → tame c.
Proof.
  intros Hc l ls σ h Hs _. eapply ends_mono; [|by apply (Hc l l)].
  intros a st' (l' & -> & Hs' & [[ids Hh] _] & _). exists l'. split_and!; [done|done|]. rewrite Hh. by repeat eexists.
Qed.

Section calm.
Context (l0 : Level) (header : Z).

Lemma calm_loadAllOffers : calm l0 (ask LoadAllOffers) (λ _, True).
Proof. apply calm_same. intros l Q HQ. apply lwp_loadAllOffers. eauto. Qed.

Lemma calm_availableBalance id asset b : calm l0 (getAvailableBalanceExcludingLiabilities id asset b) (λ _, True).
Proof. unfold getAvailableBalanceExcludingLiabilities. solve_op. Qed.

Lemma calm_availableLimit id asset b : calm l0 (getAvailableLimitExcludingLiabilities id asset b) (λ _, True).
Proof. unfold getAvailableLimitExcludingLiabilities. solve_op. Qed.

Lemma calm_shouldDelete asset b totals cap :
  (∀ a v, calm l0 (cap a v) (λ _, True)) → calm l0 (shouldDeleteOffer asset b totals cap) (λ _, True).
Proof. intros Hcap. unfold shouldDeleteOffer. solve_op; try apply Hcap. Qed.

#[local] Hint Resolve calm_loadAllOffers calm_availableBalance calm_availableLimit calm_offerOf calm_set_off_amount : calm.

Lemma calm_bookOffer h liab : calm l0 (bookOffer header h liab) (λ _, True).
Proof. unfold bookOffer. solve_op. Qed.
#[local] Hint Resolve calm_bookOffer : calm.

Lemma calm_updateOffer h b r liab buying selling :
  calm l0 (updateOffer header h b r liab buying selling) (λ _, True).
Proof.
  unfold updateOffer. eapply calm_bind; [apply calm_offerOf|]. intros oe _. eapply (calm_bind _ _ _ (λ _, True)).
  { apply calm_shouldDelete. intros. apply calm_availableBalance. }
  intros erase _. eapply (calm_bind _ _ _ (λ _, True)).
  { case_match; [by apply calm_ret|]. apply calm_shouldDelete. intros. apply calm_availableLimit. }
  intros erase' _. solve_op.
Qed.

Lemma calm_minBalances accounts m : calm l0 (getOfferAccountMinBalances header accounts m) (λ _, True).
Proof.
  revert m. induction accounts as [|id accounts IH]; intros m; cbn [getOfferAccountMinBalances]; [by apply calm_ret|].
  eapply (calm_bind _ _ _ (λ _, True)); [solve_op|]. intros b _. apply IH.
Qed.

Lemma calm_initialLiabilities offers buying selling :
  calm l0 (initialLiabilities header offers buying selling) (λ _, True).
Proof.
  revert buying selling. induction offers as [|h offers IH]; intros buying selling; cbn [initialLiabilities]; [by apply calm_ret|].
  repeat (op_step; try apply IH).
Qed.

Lemma calm_offer_at h : calm l0 (offerOf h) (λ oe, ∃ le, at_key l0 h le ∧ data_offer le = Ok oe).
Proof.
  eapply calm_bind; [apply calm_current|]. intros le Hle. apply calm_lift. intros oe Hoe. by exists le.
Qed.

Lemma calm_updateOffers acc b r buying selling offers liab :
  calm l0 (updateOffers header acc b r buying selling offers liab) (λ _, True).
Proof.
  revert liab. induction offers as [|h offers IH]; intros liab; cbn [updateOffers]; [by apply calm_ret|].
  eapply calm_bind; [apply calm_offer_at|]. intros oe (le & Hle & Hoe).
  eapply calm_bind; [apply calm_updateOffer|]. intros [res liab'] _.
  eapply (calm_bind _ _ _ (λ _, True)); [|intros _ _; apply IH]. destruct (calm_removeOffer l0 header h acc le oe Hle Hoe) as [Hr He].
  unfold eraseOfferWithPossibleSponsorship. destruct res; try (by apply calm_ret); (eapply calm_bind; [exact Hr|by intros]).
Qed.

Lemma calm_setLiabilities id acc asset liab : calm l0 (setLiabilities header id acc asset liab) (λ _, True).
Proof. unfold setLiabilities, orThrow. solve_op. Qed.

Lemma calm_setAllLiabilities id acc liabs : calm l0 (setAllLiabilities header id acc liabs) (λ _, True).
Proof.
  induction liabs as [|[asset liab] liabs IH]; cbn [setAllLiabilities]; [by apply calm_ret|].
  eapply calm_bind; [apply calm_setLiabilities|done].
Qed.

Lemma calm_prepareAccount m id offers : calm l0 (prepareAccount header m id offers) (λ _, True).
Proof.
  unfold prepareAccount. eapply calm_bind; [apply calm_initialLiabilities|]. intros [buying selling] _. solve_op.
  - apply calm_updateOffers.
  - apply calm_setAllLiabilities.
Qed.

Lemma calm_releaseAll handles : calm l0 (releaseAll handles) (λ _, True).
Proof.
  induction handles as [|h handles IH]; cbn [releaseAll]; [by apply calm_ret|].
  eapply (calm_bind _ _ _ (λ _, True)); [|done]. apply calm_same. intros l Q HQ. apply lwp_releaseEntry. eauto.
Qed.

Lemma calm_prepareLiabilities : calm l0 (prepareLiabilities header) (λ _, True).
Proof.
  unfold prepareLiabilities. eapply calm_bind; [apply calm_loadAllOffers|]. intros loaded _. cbv zeta.
  eapply calm_bind; [apply calm_minBalances|]. intros m _. eapply (calm_bind _ _ _ (λ _, True)); [|intros _ _; apply calm_releaseAll].
  induction (in_order loaded) as [|[id offers] rest IH]; cbn [prepareAccounts]; [by apply calm_ret|].
  eapply calm_bind; [apply calm_prepareAccount|done].
Qed.
End calm.

Lemma tame_prepareLiabilities header : tame (prepareLiabilities header).
Proof. apply calm_tame. intros l0. apply calm_prepareLiabilities. Qed.
