(* ===== verification/PaymentMoves.v ===== *)
(** * Operations that move lumens

    From protocol 12 on, an operation that succeeds leaves the ledger with as many
    lumens as it had: what it takes from one entry it gives to others. *)

From S2P Require Import Prelude StateMonad Numeric Exchange LedgerEntries GeneralizedEntries Accounts LedgerTxn LedgerTxnSpec LedgerTxnRefine LedgerClient.
From S2P Require Import ClientProps ClientLogic Lumens Sponsorship TrustLines OfferCrossing SponsorshipProps LumenMoves OperationTypes OperationBase CalmOps PaymentOps OfferOps SponsorshipOps.

(** ** What operations share *)

(** A part of an operation that moves [d] lumens, unless it fails. *)
Definition early {A} (P : A → Z → Prop) (r : Early A) (δ : Z) : Prop :=
  match r with inr a => P a δ | inl _ => True end.
Definition unless (d : Z) (r : option OperationResult) (δ : Z) : Prop :=
  match r with None => δ = d | Some _ => True end.

Section shared.
Context (V : Z).

Lemma moves_applied c : moves V c (early (λ _ δ, δ = 0)) → moves V (applied c) (λ r δ, r.1 = true → δ = 0).
Proof.
  intros Hc. eapply moves_bind; [exact Hc|]. intros [res|res] δ HP; apply moves_ret; [done|]. intros _. simpl in *. lia.
Qed.

Lemma moves_unlessFails {A} c (k : Client (Early A)) d P :
  moves V c (unless d) → moves V k (early (λ a δ, P a (d + δ))) → moves V (unlessFails c k) (early P).
Proof.
  intros Hc Hk. eapply moves_bind; [exact Hc|]. intros [res|] δ HP; [by apply moves_ret|]. simpl in HP. subst δ.
  eapply moves_mono; [exact Hk|]. by intros [].
Qed.

Lemma moves_ownLevel {A} (c : Client (Early A)) P : moves V c (early P) → moves V (ownLevel c) (early P).
Proof.
  intros Hc. eapply (moves_nested _ _ (λ r δ, match r with
      | (true, inr a) => P a δ | (false, inl _) => True | _ => False end)).
  - eapply moves_bind; [exact Hc|]. intros [res|a] δ HP; apply moves_ret; [done|]. by rewrite Z.add_0_r.
  - by intros [] [] δ.
Qed.

Lemma moves_whenCreated {A} low res (k : Client (Early A)) P :
  moves V k (early P) → moves V (whenCreated low res k) (early P).
Proof. intros Hk. destruct res; simpl; first [done | by apply moves_ret | apply moves_raise]. Qed.

Lemma moves_create le : 0 ≤ lumens_of le → moves V (create le) (λ _ δ, δ = lumens_of le).
Proof.
  intros Hpos l HV. apply lwp_withEntry, lwp_bind, lwp_create. intros h l1 _ Hn Hv Hh. do 2 apply lwp_ret.
  intros l2 H2. exists (lumens_of le). split; [done|]. eapply moved_same; [|exact H2]. split; [by rewrite Hh|].
  intros Hs. rewrite Hv. split; [by apply sound_insert|]. rewrite coins_insert. unfold lumens_at. rewrite Hn. simpl. lia.
Qed.
End shared.

Ltac op_moves :=
  lazymatch goal with
  | |- moves _ (applied _) _ => apply moves_applied
  | |- moves _ (ownLevel _) _ => apply moves_ownLevel
  | |- moves _ (whenCreated _ _ _) _ => apply moves_whenCreated
  | |- _ => moves_step
  end.

Lemma cassert_Ok_inv b u : cassert b = Ok u → b = true.
Proof. by destruct b. Qed.

Section operations.
Context (V : Z) (HV : 12 ≤ V).

(** Taking lumens from an account, where it is known to have them. *)
Lemma moves_take {A} header h id d (k : Client A) P :
  on_key (accountKey id) h → moves V k (λ a δ, P a (d + δ)) →
  moves V (ok ← addBalance_ltx header h d; lift (cassert ok);; k) P.
Proof.
  intros Hk Hm. eapply moves_bind; [by eapply moves_addBalance|]. intros ok δ ->.
  eapply moves_calm_bind; [intros; apply calm_lift_eq|]. intros u Hu%cassert_Ok_inv. by subst ok.
Qed.

(** ** Creating an account *)

Lemma moves_takeBalance op header h id le :
  on_key (accountKey id) h → lumens_of le = ca_startingBalance op → 0 ≤ ca_startingBalance op →
  moves V (CreateAccount.takeBalance op header h true le) (early (λ _ δ, δ = 0)).
Proof.
  intros Hk Hle Hpos. unfold CreateAccount.takeBalance. repeat moves_step; try done.
  eapply moves_take; [exact Hk|]. eapply moves_bind; [apply moves_create; lia|]. intros _ δ ->. apply moves_ret. simpl. lia.
Qed.

Lemma moves_CreateAccount tx id op :
  CreateAccount.doCheckValid id op V = None →
  moves V (CreateAccount.doApply tx id op) (λ r δ, r.1 = true → δ = 0).
Proof.
  intros Hvalid. assert (0 ≤ ca_startingBalance op) as Hpos.
  { unfold CreateAccount.doCheckValid in Hvalid. repeat case_match; done || lia. }
  unfold CreateAccount.doApply, CreateAccount.doApplyBeforeV14, CreateAccount.doApplyFromV14.
  repeat op_moves; try done.
  - rewrite H3, (proj2 (Z.leb_le 8 V)) by lia.
    eapply (moves_calm_bind _ _ _ (λ b, b = true)); [intros; by apply calm_ret|]. intros _ ->. moves_step.
    by eapply moves_takeBalance.
  - eapply moves_takeBalance; [eassumption|by apply H4|done].
Qed.

(** ** Path payments *)

Lemma looks_offer {B} (f : OfferEntry → option B) : looks (λ h, o ← offerOf h; mret (f o)).
Proof. intros h l. apply lwp_bind, lwp_offerOf. intros h' le oe _ _ _. by apply lwp_ret. Qed.

Section path.
Context (tx : ParentTx) (id : AccountID) (fuel : nat) (kind : PathPayment.Kind).

Lemma calm_checkIssuer l0 asset : calm l0 (PathPayment.checkIssuer kind asset) (λ _, True).
Proof. unfold PathPayment.checkIssuer. solve_op. Qed.

Lemma calm_updateLine l0 account asset d noTrust notAuth full :
  calm l0 (PathPayment.updateLine account asset d noTrust notAuth full) (λ _, True).
Proof.
  unfold PathPayment.updateLine. eapply calm_withLine; [apply calm_loadTrustLine|]. intros line Hl. solve_op.
  by eapply calm_line_addBalance.
Qed.

Lemma calm_checkIssuerThen l0 bypass asset k :
  calm l0 k (λ _, True) → calm l0 (PathPayment.checkIssuerThen kind bypass asset k) (λ _, True).
Proof.
  intros Hk. unfold PathPayment.checkIssuerThen. eapply (calm_bind _ _ _ (λ _, True)).
  - destruct bypass; [by apply calm_ret|apply calm_checkIssuer].
  - intros [] _; [by apply calm_ret|done].
Qed.

Lemma moves_updateSourceBalance amount bypass :
  moves V (PathPayment.updateSourceBalance tx id kind amount bypass true)
    (unless (- native (PathPayment.getSourceAsset kind) amount)).
Proof.
  unfold PathPayment.updateSourceBalance, native. destruct (is_native _); cbv zeta.
  - repeat moves_step. rewrite H, (proj2 (Z.ltb_lt 7 V)) by lia. repeat moves_step; try done.
    eapply moves_take; [eassumption|]. apply moves_ret. simpl. lia.
  - eapply moves_calm; [intros; apply calm_checkIssuerThen, calm_updateLine|]. by intros [].
Qed.

Lemma moves_updateDestBalance amount bypass :
  moves V (PathPayment.updateDestBalance kind amount bypass) (unless (native (PathPayment.getDestAsset kind) amount)).
Proof.
  unfold PathPayment.updateDestBalance, native. destruct (is_native _); cbv zeta.
  - moves_step. eapply moves_bind; [apply moves_withHeader; intros; by eapply moves_addBalance|].
    intros [] δ ->; repeat moves_step; simpl; lia.
  - eapply moves_calm; [intros; apply calm_checkIssuerThen, calm_updateLine|]. by intros [].
Qed.

Lemma calm_checkDestination l0 bypass : calm l0 (PathPayment.checkDestination kind bypass) (λ _, True).
Proof. unfold PathPayment.checkDestination. solve_op. Qed.

(** What is exchanged with the owners of offers, in full. *)
Lemma moves_convert maxOffers send maxSend recv maxRecv round :
  moves V (PathPayment.convert id fuel kind maxOffers send maxSend recv maxRecv round)
    (early (λ '(amountSend, amountRecv, _) δ,
       δ = crossed send recv amountRecv amountSend ∧ PathPayment.checkTransfer kind maxSend amountSend maxRecv amountRecv = true)).
Proof.
  unfold PathPayment.convert. moves_step.
  eapply moves_bind; [apply moves_convertWithOffers; [done|]; apply looks_offer|].
  intros [[[r amountSend] amountRecv] trail] δ [-> _]. repeat moves_step; simpl; try done. split; [lia|done].
Qed.
End path.

(** An early return passes on. *)
Lemma moves_early {A B} (c : Client (Early A)) (k : A → Client (Early B)) P Q :
  moves V c (early P) → (∀ a δ, P a δ → moves V (k a) (early (λ b δ', Q b (δ + δ')))) →
  moves V (r ← c; match r with inl res => mret (inl res) | inr a => k a end) (early Q).
Proof.
  intros Hc Hk. eapply moves_bind; [exact Hc|]. intros [res|a] δ HP; [by apply moves_ret|].
  eapply moves_mono; [by apply Hk|]. by intros [].
Qed.

Lemma last_cons {A} (x y : A) l : List.last (y :: l) x = List.last l y.
Proof. revert x y. induction l as [|z l IH]; intros x y; [done|]. cbn [List.last] in *. by rewrite (IH y z), (IH x z). Qed.

Lemma moves_walkReceive id fuel op path : ∀ recv m offers,
  moves V (StrictReceive.walk id fuel op path recv m offers)
    (early (λ '(m', _) δ, δ = native (List.last path recv) m' - native recv m)).
Proof.
  induction path as [|send path IH]; intros recv m offers; cbn [StrictReceive.walk].
  { apply moves_ret. simpl. lia. }
  rewrite last_cons. case_decide as Hd; [subst send; apply IH|].
  eapply (moves_unlessFails _ _ _ 0); [by eapply moves_calm; [intros; apply calm_checkIssuer|]; intros []|].
  moves_step. cbv zeta. eapply moves_bind; [apply moves_convert|].
  intros [res|[[amountSend amountRecv] trail]] δ HP; [by apply moves_ret|]. destruct HP as [-> Ht%Z.eqb_eq]. subst amountRecv.
  eapply moves_mono; [apply IH|]. intros [res|[m' offers']] δ; simpl; [done|]. unfold crossed. lia.
Qed.

Lemma moves_walkSend id fuel op path : ∀ send m offers,
  moves V (StrictSend.walk id fuel op path send m offers)
    (early (λ '(m', _) δ, δ = native send m - native (List.last path send) m')).
Proof.
  induction path as [|recv path IH]; intros send m offers; cbn [StrictSend.walk].
  { apply moves_ret. simpl. lia. }
  rewrite last_cons. case_decide as Hd; [subst recv; apply IH|].
  eapply (moves_unlessFails _ _ _ 0); [by eapply moves_calm; [intros; apply calm_checkIssuer|]; intros []|].
  cbv zeta. eapply moves_bind; [apply moves_convert|].
  intros [res|[[amountSend amountRecv] trail]] δ HP; [by apply moves_ret|]. destruct HP as [-> Ht%Z.eqb_eq]. subst amountSend.
  eapply moves_mono; [apply IH|]. intros [res|[m' offers']] δ; simpl; [done|]. unfold crossed. lia.
Qed.

Lemma moves_StrictReceive tx id fuel op :
  moves V (StrictReceive.doApply tx id fuel op) (λ r δ, r.1 = true → δ = 0).
Proof.
  unfold StrictReceive.doApply. apply moves_applied. moves_step. subst.
  rewrite (proj2 (Z.ltb_ge V 8)) by lia.
  eapply (moves_calm_bind _ _ _ (λ b, b = true)); [intros; by apply calm_ret|]. intros _ ->. moves_step.
  eapply (moves_unlessFails _ _ _ 0); [by eapply moves_calm; [intros; apply calm_checkDestination|]; intros []|].
  eapply moves_unlessFails; [apply moves_updateDestBalance|]. cbv zeta.
  eapply moves_early; [apply moves_walkReceive|]. intros [m offers] δ ->. rewrite List.last_last.
  case_match; [by apply moves_ret|]. eapply moves_unlessFails; [apply moves_updateSourceBalance|].
  apply moves_ret. simpl. lia.
Qed.

Lemma moves_StrictSend tx id fuel op :
  moves V (StrictSend.doApply tx id fuel op) (λ r δ, r.1 = true → δ = 0).
Proof.
  unfold StrictSend.doApply. apply moves_applied. moves_step.
  eapply (moves_unlessFails _ _ _ 0); [by eapply moves_calm; [intros; apply calm_checkDestination|]; intros []|].
  eapply moves_unlessFails; [apply moves_updateSourceBalance|].
  eapply moves_early; [apply moves_walkSend|]. intros [m offers] δ ->. rewrite List.last_last.
  case_match; [by apply moves_ret|]. eapply moves_unlessFails; [apply moves_updateDestBalance|].
  cbv zeta. apply moves_ret. simpl. lia.
Qed.

Lemma moves_Payment tx id fuel op :
  moves V (Payment.doApply tx id fuel op) (λ r δ, r.1 = true → δ = 0).
Proof.
  assert (∀ res (Q : Applied → Z → Prop), (∀ res', Q (false, res') 0) → moves V (Payment.failureOf res) Q) as Hfail.
  { intros res Q HQ. unfold Payment.failureOf, Payment.unexpectedCode. repeat moves_step; apply HQ. }
  unfold Payment.doApply. moves_step. cbv zeta.
  match goal with |- moves _ (if ?b then _ else _) _ => destruct b end; [by apply moves_ret|].
  case_match; [by apply Hfail|]. eapply moves_bind; [apply moves_StrictReceive|].
  intros [[] res] δ HP; [|by apply Hfail]. repeat moves_step. intros _. simpl in HP. rewrite HP by done. done.
Qed.

(** ** Offers *)

Section offers.
Context (tx : ParentTx) (id : AccountID) (fuel : nat) (kind : ManageOffer.Kind).

Lemma calm_checkOfferValid l0 : calm l0 (ManageOffer.checkOfferValid id kind) (λ _, True).
Proof.
  unfold ManageOffer.checkOfferValid, ManageOffer.checkSheep, ManageOffer.checkWheat, ManageOffer.issuerExists. solve_op.
Qed.

Lemma calm_countOffer l0 {A} header le h (k : Client (Early A)) :
  calm l0 k (λ _, True) → calm l0 (ManageOffer.countOffer kind header le h k) (λ _, True).
Proof.
  intros Hk. unfold ManageOffer.countOffer, ManageOffer.whenAllowed. solve_op; try done.
  apply calm_change. apply createEntryWithoutSponsorship_keeps.
Qed.

Lemma calm_exchangeLimits l0 header h : calm l0 (ManageOffer.exchangeLimits id kind header h) (λ _, True).
Proof. unfold ManageOffer.exchangeLimits. solve_op. Qed.

Lemma calm_computeOfferExchangeParameters l0 creating :
  12 ≤ lh_ledgerVersion (v_header l0) →
  calm l0 (ManageOffer.computeOfferExchangeParameters tx id kind creating) (λ _, True).
Proof.
  intros Hl. unfold ManageOffer.computeOfferExchangeParameters. apply calm_nested.
  eapply (calm_bind _ _ _ (λ _, True)); [|intros r _; by apply calm_ret]. solve_op.
  - apply calm_countOffer, calm_exchangeLimits.
  - apply calm_exchangeLimits.
Qed.

Lemma calm_prepareOffer l0 :
  12 ≤ lh_ledgerVersion (v_header l0) → calm l0 (ManageOffer.prepareOffer id kind) (λ _, True).
Proof.
  intros Hl. unfold ManageOffer.prepareOffer, ManageOffer.takeOffer, ManageOffer.reserveOffer. solve_op.
Qed.

Lemma calm_remaining l0 header stays a b c : calm l0 (ManageOffer.remaining id kind header stays a b c) (λ _, True).
Proof. unfold ManageOffer.remaining. solve_op. Qed.

Lemma moves_settle header asset d what :
  moves V (ManageOffer.settle tx id header asset d what) (λ _ δ, δ = native asset d).
Proof.
  unfold ManageOffer.settle, native. destruct (is_native asset).
  - eapply moves_bind; [moves_step; by eapply moves_addBalance|]. intros [] δ ->; cbn [negb]; [apply moves_ret; lia|apply moves_raise].
  - eapply (moves_calm_bind _ _ _ (λ _, True)); [|intros; by repeat moves_step].
    intros l0 _. eapply calm_withLine; [apply calm_loadTrustLine|]. intros line Hl. by eapply calm_line_addBalance.
Qed.

Lemma moves_crossBook prepared :
  moves V (ManageOffer.crossBook tx id fuel kind prepared) (early (λ _ δ, δ = 0)).
Proof.
  unfold ManageOffer.crossBook.
  eapply (moves_calm_bind _ _ _ (λ _, True)); [intros l0 Hl0; apply calm_computeOfferExchangeParameters; lia|].
  intros [res|[maxSheep maxWheat]] _; [by apply moves_ret|]. case_match; [by apply moves_ret|]. moves_step. cbv zeta.
  eapply moves_bind; [apply moves_convertWithOffers; [done|]|].
  { intros h l. apply lwp_bind, lwp_offerOf. intros h' le oe _ _ _. apply lwp_bind, lwp_lift. intros _ _. by apply lwp_ret. }
  intros [[[r sent] received] trail] δ (-> & Hpos & Hpaid). moves_step. case_match; [by apply moves_ret|].
  eapply (moves_bind _ _ _ (λ _ δ, δ = - crossed (ManageOffer.mSheep kind) (ManageOffer.mWheat kind) received sent)).
  - apply moves_withHeader. intros header. eapply moves_bind.
    + instantiate (1 := λ _ δ, δ = - crossed (ManageOffer.mSheep kind) (ManageOffer.mWheat kind) received sent).
      unfold crossed, native in *. case_match eqn:Hr.
      * eapply moves_bind; [apply moves_settle|]. intros _ δ1 ->. eapply moves_mono; [apply moves_settle|].
        intros _ δ2 ->. unfold native. destruct (is_native _), (is_native _); lia.
      * apply moves_ret. assert (received = 0) as -> by lia. rewrite (Hpaid eq_refl eq_refl).
        destruct (is_native _), (is_native _); lia.
    + intros _ δ ->. eapply moves_calm; [intros; apply calm_remaining|]. intros. lia.
  - intros amount δ ->. apply moves_ret. simpl. lia.
Qed.

Lemma calm_numberOffer l0 header le : calm l0 (ManageOffer.numberOffer header le) (λ le', lumens_of le' = 0).
Proof.
  unfold ManageOffer.numberOffer. solve_op. unfold on_offer in *. inv_res. by unfold lumens_of.
Qed.

Lemma calm_putOffer l0 header prepared le claimed :
  lumens_of le = 0 → calm l0 (ManageOffer.putOffer kind header prepared le claimed) (λ _, True).
Proof.
  intros Hle. unfold ManageOffer.putOffer. eapply calm_withEntry; [by apply calm_create|]. intros h _. solve_op.
Qed.
#[local] Hint Resolve calm_numberOffer : calm.

Lemma calm_finishOffer l0 prepared amount claimed :
  12 ≤ lh_ledgerVersion (v_header l0) →
  calm l0 (ManageOffer.finishOffer tx id kind prepared amount claimed) (λ _, True).
Proof.
  intros Hl. unfold ManageOffer.finishOffer. solve_op; try by apply calm_putOffer.
  - by apply calm_countOffer, calm_ret.
  - by eapply calm_true, calm_removeLocalEntry.
Qed.

Lemma moves_ManageOffer : moves V (ManageOffer.doApply tx id fuel kind) (λ r δ, r.1 = true → δ = 0).
Proof.
  apply moves_applied, moves_ownLevel.
  eapply (moves_unlessFails _ _ _ 0); [by eapply moves_calm; [intros; apply calm_checkOfferValid|]; intros []|].
  eapply (moves_calm_bind _ _ _ (λ _, True)); [intros l0 Hl0; apply calm_prepareOffer; lia|].
  intros [res|prepared] _; [by apply moves_ret|].
  eapply (moves_early _ _ (λ _ δ, δ = 0)).
  - case_match; [apply moves_crossBook|by apply moves_ret].
  - intros [amount claimed] δ ->. eapply moves_calm; [intros l0 Hl0; apply calm_finishOffer; lia|]. by intros [] _.
Qed.
End offers.

(** ** Entries that are paid out and erased *)

(** The lumens of an entry are paid to an account, then the entry is erased. *)
Lemma moved_pay_erase l l1 l2 l3 l4 k k0 d e :
  quiet l l1 → paid k d l1 l2 → quiet l2 l3 → k0 ≠ k → (sound (v_view l) → lumens_at (v_view l) k0 = d) →
  v_view l3 !! k0 = Some e → v_view l4 = delete (toKey e) (v_view l3) → v_header l4 = v_header l3 → moved 0 l l4.
Proof.
  intros [Hh1 H1] [[Hh2 H2] Hk2] [Hh3 H3] Hne Hd He Hv Hh4.
  split; [rewrite Hh4; by do 2 (etrans; [eassumption|])|]. intros Hs.
  destruct (H1 Hs) as [Hs1 E1], (H2 Hs1) as [Hs2 E2], (H3 Hs2) as [Hs3 E3]. destruct (Hs3 _ _ He) as [Hke _].
  rewrite Hv, Hke. split; [by apply sound_delete|]. rewrite coins_delete, (coins_pointwise _ _ E3), E2, (coins_pointwise _ _ E1).
  rewrite E3, (Hk2 Hs1) by done. rewrite E1, Hd by done. lia.
Qed.

(** Paying out of an entry that is then erased, with calm clients in between. *)
Lemma lwp_payThenErase header h id d hs k0 (c1 c2 : Client unit) (full res : OperationResult) lb l :
  on_key (accountKey id) h → on_key k0 hs → k0 ≠ accountKey id →
  (sound (v_view lb) → lumens_at (v_view lb) k0 = d) →
  (∀ l0, lh_ledgerVersion (v_header l0) = V → calm l0 c1 (λ _, True)) →
  (∀ l0, lh_ledgerVersion (v_header l0) = V → calm l0 c2 (λ _, True)) →
  lh_ledgerVersion (v_header lb) = V → quiet lb l →
  lwp (c1;; ok ← addBalance_ltx header h d; if negb ok then mret (inl full)
       else c2;; eraseEntry hs;; mret (inr res))
    (λ r l', ∃ δ, early (λ _ δ, δ = 0) r δ ∧ moved δ lb l') l.
Proof.
  intros Hk Hks Hne Hd Hc1 Hc2 Hl Hq. apply lwp_bind. eapply lwp_mono; [|by apply (Hc1 lb Hl l)]. intros _ l1 [Hq1 _].
  apply lwp_bind. eapply lwp_mono; [|by apply lwp_addBalance]. intros [] l2 H2; cbn [negb].
  2: { apply lwp_ret. exists 0. split; [done|]. apply moved_quiet. etrans; [exact Hq1|by apply quiet_same]. }
  assert (lh_ledgerVersion (v_header l2) = V) as Hl2.
  { destruct H2 as [[[ids ->] _] _], Hq1 as [[ids' ->] _]. done. }
  apply lwp_bind. eapply lwp_mono; [|by apply (Hc2 l2 Hl2 l2)]. intros _ l3 [Hq3 _].
  apply lwp_bind, lwp_eraseEntry. intros h' e l4 -> He Hv Hh. apply lwp_ret. simpl in Hks. rewrite Hks in He.
  exists 0. split; [done|]. by eapply moved_pay_erase.
Qed.

Lemma calm_removeSigners l0 n header h : calm l0 (Merge.removeSigners n header h) (λ _, True).
Proof.
  induction n as [|n IH]; cbn [Merge.removeSigners]; unfold Merge.currentAccount; solve_op; done.
Qed.

Lemma calm_checkMerge l0 id lh h : calm l0 (Merge.checkMerge id lh h) (λ _, True).
Proof. unfold Merge.checkMerge. solve_op. Qed.

Lemma moves_Merge tx id destination :
  Merge.doCheckValid id destination V = None →
  moves V (Merge.doApply tx id destination) (λ r δ, r.1 = true → δ = 0).
Proof.
  intros Hvalid. unfold Merge.doCheckValid in Hvalid. case_decide as Hne; [done|]. clear Hvalid.
  apply moves_applied. unfold Merge.doApply. repeat op_moves; try done. unfold Merge.staleBalance. rewrite H1.
  rewrite (proj2 (Z.ltb_ge V 8)), andb_false_r by lia. apply (moves_bind _ _ _ (λ r δ, r = inr 0 ∧ δ = 0)); [by apply moves_ret|].
  intros _ _ [-> ->]. moves_step. intros l1 Hl1. apply lwp_bind, lwp_bind, lwp_current. intros hs le -> Hle.
  apply lwp_lift. intros acc Hacc%data_account_Ok. rewrite (proj2 (Z.leb_le 8 V)), orb_true_r by lia.
  apply lwp_bind. eapply lwp_mono; [|by apply calm_checkMerge]. intros [res|] l2 [Hq2 _].
  { apply lwp_ret. exists 0. split; [done|]. by apply moved_quiet. }
  eapply lwp_mono; [|eapply (lwp_payThenErase _ _ (toAccountID destination) _ _ (accountKey id)); try done].
  - intros r l3 (δ & Hr & Hm). by exists δ.
  - intros [=]. by apply Hne.
  - intros _. simpl in H2. unfold lumens_at. rewrite <- H2, Hle. simpl. unfold lumens_of. by rewrite Hacc.
  - intros l0 _. case_match; [apply calm_removeSigners|by apply calm_ret].
  - intros l0 _. by apply calm_removeLoadedEntry.
Qed.

(** ** Claimable balances *)

Lemma moves_CreateClaimableBalance tx id op index :
  CreateClaimableBalance.doCheckValid op V = None →
  moves V (CreateClaimableBalance.doApply tx id op index) (λ r δ, r.1 = true → δ = 0).
Proof.
  intros Hvalid. assert (0 < ccb_amount op) as Hpos.
  { unfold CreateClaimableBalance.doCheckValid in Hvalid. repeat case_match; done || lia. }
  apply moves_applied. moves_step. moves_step.
  eapply (moves_unlessFails _ _ _ (- native (ccb_asset op) (ccb_amount op))).
  - unfold CreateClaimableBalance.takeAmount, native. destruct (is_native _).
    + repeat moves_step; try done. eapply moves_take; [eassumption|]. apply moves_ret. simpl. lia.
    + eapply (moves_calm _ _ (λ _, True)); [|by intros []]. intros l0 _. solve_op. by eapply calm_line_addBalance.
  - repeat moves_step. unfold CreateClaimableBalance.whenBalanceCreated. case_match; repeat moves_step; try done.
    assert (lumens_of l = native (ccb_asset op) (ccb_amount op)) as Hl.
    { destruct H2 as [_ H2]. cbn [snd] in H2. rewrite H2. unfold lumens_of, native. simpl. by destruct (ccb_asset op). }
    eapply moves_bind; [apply moves_create; rewrite Hl; unfold native; case_match; lia|]. intros _ δ ->.
    apply moves_ret. simpl. lia.
Qed.

Lemma paid_quiet k d l l1 l2 l3 : quiet l l1 → paid k d l1 l2 → quiet l2 l3 → paid k d l l3.
Proof.
  intros Hq1 [Hm Hk] Hq3. split.
  - rewrite <- (Z.add_0_r d), <- (Z.add_0_l (d + 0)). eapply moved_trans; [by apply moved_quiet|].
    eapply moved_trans; [exact Hm|by apply moved_quiet].
  - intros Hs k' Hne. destruct (proj2 Hq1 Hs) as [Hs1 E1]. destruct (proj2 Hm Hs1) as [Hs2 _].
    destruct (proj2 Hq3 Hs2) as [_ E3]. by rewrite E3, Hk, E1.
Qed.

Lemma paid_none k l l' : quiet l l' → paid k 0 l l'.
Proof. intros Hq. split; [by apply moved_quiet|]. intros Hs k' _. by apply (proj2 Hq Hs). Qed.

Lemma lwp_receive tx id header cb l :
  lh_ledgerVersion (v_header l) = V →
  lwp (ClaimClaimableBalance.receive tx id header cb)
    (λ r l', match r with
             | None => paid (accountKey id) (native (cb_asset cb) (cb_amount cb)) l l'
             | Some _ => quiet l l'
             end) l.
Proof.
  intros Hl. unfold ClaimClaimableBalance.receive, native. destruct (is_native _).
  - apply lwp_withEntry. eapply lwp_mono; [|apply (calm_loadAccount_tx l tx header id); [lia|done]].
    intros h l1 [Hq1 Hh]. apply lwp_bind. eapply lwp_mono; [|by apply lwp_addBalance].
    intros [] l2 H2; apply lwp_ret; intros l3 H3; cbn [negb].
    + by eapply paid_quiet; [exact Hq1|exact H2|apply quiet_same].
    + etrans; [exact Hq1|apply quiet_same]. by etrans.
  - match goal with |- lwp ?c _ _ => assert (calm l c (λ _, True)) as Hc end.
    { solve_op. by eapply calm_line_addBalance. }
    eapply lwp_mono; [|by apply (Hc l)]. intros [res|] l1 [Hq _]; [done|by apply paid_none].
Qed.

Lemma lwp_claim tx id header h b cb (res : OperationResult) lb l :
  on_key (claimableBalanceKey b) h → lh_ledgerVersion (v_header lb) = V → quiet lb l →
  (sound (v_view lb) → lumens_at (v_view lb) (claimableBalanceKey b) = native (cb_asset cb) (cb_amount cb)) →
  lwp (unlessFails (ClaimClaimableBalance.receive tx id header cb)
         (withEntry (loadAccount_tx tx header id) (λ sourceAccount,
            removeLoadedEntry header h sourceAccount;; eraseEntry h;; mret (inr res))))
    (λ r l', ∃ δ, early (λ _ δ, δ = 0) r δ ∧ moved δ lb l') l.
Proof.
  intros Hk Hlb Hq Hd. apply lwp_bind. eapply lwp_mono; [|apply lwp_receive; by destruct Hq as [[ids ->] _]].
  intros [r|] l1 H1.
  { apply lwp_ret. exists 0. split; [done|]. apply moved_quiet. by etrans. }
  assert (lh_ledgerVersion (v_header l1) = V) as Hl1.
  { by rewrite (moved_version _ _ _ (proj1 H1)), (moved_version 0 lb l (moved_quiet _ _ Hq)). }
  apply lwp_withEntry. eapply lwp_mono; [|apply (calm_loadAccount_tx l1 tx header id); [lia|done]].
  intros hs l2 [Hq2 _]. apply lwp_bind.
  eapply lwp_mono; [|by apply (calm_removeKey l1 _ h hs (claimableBalanceKey b))]. intros _ l3 [Hq3 _].
  apply lwp_bind, lwp_eraseEntry. intros h' e l4 -> He Hv Hh. apply lwp_ret. intros l5 H5.
  simpl in Hk. rewrite Hk in He. exists 0. split; [done|]. eapply moved_same; [|exact H5].
  eapply (moved_pay_erase lb l l1 l3 l4); try eassumption. done.
Qed.

Lemma moves_ClaimClaimableBalance tx id balanceID :
  moves V (ClaimClaimableBalance.doApply tx id balanceID) (λ r δ, r.1 = true → δ = 0).
Proof.
  apply moves_applied. unfold ClaimClaimableBalance.doApply. moves_step. case_match; [|by apply moves_ret].
  intros lb Hlb. apply lwp_bind, lwp_current. intros h' le [= <-] Hle. apply lwp_bind, lwp_lift. intros cb Hcb.
  apply lwp_withHeader. intros header l1 H1. apply lwp_bind, lwp_currentHeader. apply lwp_bind, lwp_lift. intros [] Hcan; cbn [negb].
  - eapply lwp_mono; [|eapply (lwp_claim _ _ _ _ balanceID cb _ lb); try done].
    + intros r l2 (δ & Hr & Hm) l3 H3. exists δ. split; [done|]. by eapply moved_same.
    + by apply quiet_same.
    + intros _. unfold lumens_at. simpl in H. rewrite <- H, Hle. simpl. unfold lumens_of, native.
      unfold ClaimClaimableBalance.data_claimableBalance in Hcb. case_match; by simplify_eq.
  - apply lwp_ret. intros l2 H2. exists 0. split; [done|]. apply moved_quiet, quiet_same. by etrans.
Qed.
End operations.
