(* ===== verification/TransactionMoves.v ===== *)
(** * Transactions and the lumens of the ledger

    From protocol 12 on, a transaction that is applied leaves the ledger with as many
    lumens as it had, whether it succeeds or not, and what its fee takes from an
    account goes to the fee pool. *)

From S2P Require Import Prelude StateMonad Numeric LedgerEntries GeneralizedEntries Accounts LedgerTxn LedgerTxnSpec LedgerTxnRefine LedgerClient.
From S2P Require Import ClientProps ClientLogic Lumens Sponsorship TrustLines SponsorshipProps LumenMoves OperationTypes SignatureChecker OperationBase CalmOps PaymentOps AccountOps OfferOps SponsorshipOps PaymentMoves.
From S2P Require Import Operations Transactions.

(** ** Levels that are sealed before they are closed *)

Lemma quiet_seal l : quiet l (spec_seal l).
Proof.
  split; [done|]. intros Hs. split; [by apply sealed_sound|]. intros k. apply (sealed_lumens l k).
Qed.

(** What is left to do may seal the level. *)
Definition seals {A} (c : Client A) (R : A → Prop) : Prop := ∀ l, swp c (λ a l', quiet l l' ∧ R a) l.

Lemma seals_ret {A} (a : A) (R : A → Prop) : R a → seals (mret a) R.
Proof. intros HR l ls σ h. apply ends_ret. by exists l. Qed.

Lemma seals_raise {A} e (R : A → Prop) : seals (Raise e) R.
Proof. intros l ls σ h. apply ends_raise. Qed.

Lemma seals_bind {A B} (c : Client A) (k : A → Client B) (R : A → Prop) R' :
  seals c R → (∀ a, R a → seals (k a) R') → seals (c ≫= k) R'.
Proof.
  intros Hc Hk l. apply swp_bind. eapply swp_mono; [|apply Hc]. intros a l1 [Hq HR].
  eapply swp_mono; [|by apply Hk]. intros b l2 [Hq2 HR2]. split; [by etrans|done].
Qed.

Lemma seals_getDelta : seals (ask GetDelta) (λ _, True).
Proof. intros l. apply swp_getDelta. intros d. split; [apply quiet_seal|done]. Qed.

Lemma seals_getChanges : seals (ask GetChanges) (λ _, True).
Proof. intros l. apply swp_getChanges. intros d. split; [apply quiet_seal|done]. Qed.

Section settling.
Context (V : Z).

Definition settles {A} (c : Client A) (P : A → Z → Prop) : Prop :=
  ∀ l, lh_ledgerVersion (v_header l) = V → v_sealed l = false → swp c (λ a l', ∃ δ, P a δ ∧ moved δ l l') l.

Lemma settles_bind {A B} (c : Client A) (k : A → Client B) P Q :
  moves V c P → (∀ a δ, P a δ → settles (k a) (λ b δ', Q b (δ + δ'))) → settles (c ≫= k) Q.
Proof.
  intros Hc Hk l Hl Hs. apply swp_lwp_bind; [done|]. eapply lwp_mono; [|by apply Hc].
  intros a l1 (δ & HP & Hm) Hs1. eapply swp_mono.
  2: { apply Hk; [exact HP| |done]. by rewrite (moved_version _ _ _ Hm). }
  intros b l2 (δ' & HQ & Hm'). exists (δ + δ'). split; [done|by eapply moved_trans].
Qed.

Lemma settles_seals {A} (c : Client A) (R : A → Prop) P : seals c R → (∀ a, R a → P a 0) → settles c P.
Proof.
  intros Hc HP l _ _. eapply swp_mono; [|apply Hc]. intros a l' [Hq HR]. exists 0. split; [by apply HP|by apply moved_quiet].
Qed.

Lemma moves_nested_settles {A} (c : Client (bool * A)) P Q :
  settles c P → (∀ b a δ, P (b, a) δ → Q a (if b : bool then δ else 0)) → moves V (nested c) Q.
Proof.
  intros Hc HPQ l HV. apply lwp_nested_sealing. eapply swp_mono; [|by apply Hc].
  intros [b a] l1 (δ & HP & Hm) l' Hv Hh'. cbn [fst snd] in *. eexists. split; [by eapply HPQ|].
  destruct b; [|apply moved_quiet, quiet_same; by split].
  rewrite <- (Z.add_0_r δ). eapply moved_trans; [exact Hm|]. apply moved_quiet. etrans; [apply quiet_seal|].
  by apply quiet_same.
Qed.

Lemma moves_attempt {A B} (c : Client B) (k : option B → Client A) P Q :
  moves V c P → (∀ b δ, P b δ → moves V (k (Some b)) (λ a δ', Q a (δ + δ'))) → moves V (k None) Q →
  moves V (Attempt c k) Q.
Proof.
  intros Hc Hk Hn l Hl. apply lwp_attempt.
  - eapply lwp_mono; [|by apply Hc]. intros b l1 (δ & HP & Hm). eapply lwp_mono.
    2: { apply Hk; [exact HP|]. by rewrite (moved_version _ _ _ Hm). }
    intros a l2 (δ' & HQ & Hm'). exists (δ + δ'). split; [done|by eapply moved_trans].
  - intros l1 H1. eapply lwp_mono; [|apply Hn; by destruct H1 as [_ ->]].
    intros a l2 (δ & HQ & Hm). exists δ. split; [done|by eapply moved_same_l].
Qed.
End settling.

Lemma moves_orAbort V {A} (c : Client A) P : moves V c P → moves V (orAbort c) P.
Proof.
  intros Hc. eapply moves_attempt; [exact Hc| |apply moves_raise].
  intros a δ HP. apply moves_ret. by rewrite Z.add_0_r.
Qed.

(** ** Operations *)

Section operations.
Context (V : Z) (HV : 12 ≤ V) (tx : ParentTx) (fuel : nat).

(** A calm operation, by its lemma. *)
Ltac calm_operation H := eapply (moves_calm _ _ (λ _, True)); [intros ? ?; eapply H; lia|done].

Lemma moves_doApply winners op index :
  isVersionSupported op V = true → Operations.doCheckValid tx op V = None →
  moves V (Operations.doApply tx fuel winners op index) (λ r δ, r.1 = true → δ = 0).
Proof.
  unfold isVersionSupported, Operations.doCheckValid, Operations.doApply. destruct (op_body op); intros Hv Hc.
  - by eapply moves_CreateAccount.
  - by eapply moves_Payment.
  - by eapply moves_StrictReceive.
  - by eapply moves_ManageOffer.
  - by eapply moves_ManageOffer.
  - calm_operation calm_SetOptions.
  - calm_operation calm_ChangeTrust.
  - calm_operation calm_AllowTrust.
  - by eapply moves_Merge.
  - apply Z.ltb_lt in Hv. lia.
  - calm_operation calm_ManageData.
  - calm_operation calm_BumpSequence.
  - by eapply moves_ManageOffer.
  - by eapply moves_StrictSend.
  - by eapply moves_CreateClaimableBalance.
  - by eapply moves_ClaimClaimableBalance.
  - calm_operation calm_BeginSponsoring.
  - calm_operation calm_EndSponsoring.
  - calm_operation calm_RevokeSponsorship.
Qed.

Context (sha256 : list Z → list Z) (verifySig : list Z → list Z → list Z → bool) (checker : SignatureChecker).

Lemma calm_checkSignature l0 op forApply used :
  12 ≤ lh_ledgerVersion (v_header l0) →
  calm l0 (Operations.checkSignature tx sha256 verifySig checker op forApply used) (λ _, True).
Proof. intros Hl. unfold Operations.checkSignature. solve_op. Qed.

(** An operation that is found valid is one that can be applied. *)
Lemma calm_checkValid l0 op used :
  lh_ledgerVersion (v_header l0) = V →
  calm l0 (Operations.checkValid tx sha256 verifySig checker op true used)
    (λ r, r.2 = None → isVersionSupported op V = true ∧ Operations.doCheckValid tx op V = None).
Proof.
  intros Hl. unfold Operations.checkValid. apply calm_nested.
  eapply (calm_bind _ _ _ (λ r, r.2 = None → isVersionSupported op V = true ∧ Operations.doCheckValid tx op V = None));
    [|by intros r Hr; apply calm_ret].
  eapply calm_bind; [by eapply calm_version|]. intros version ->. destruct (isVersionSupported op V); cbn [negb]; [|by apply calm_ret].
  rewrite (proj2 (Z.ltb_ge V 10)) by lia. cbn [orb]. eapply (calm_bind _ _ _ (λ _, True)).
  - unfold checkSourceAccount. solve_op.
  - intros [used' [res|]] _; by apply calm_ret.
Qed.

Lemma moves_apply winners op index used :
  moves V (Operations.apply tx fuel sha256 verifySig checker winners op index used) (λ r δ, r.2.1 = true → δ = 0).
Proof.
  unfold Operations.apply. eapply moves_calm_bind; [intros l0 Hl0; by apply calm_checkValid|].
  intros [used' [res|]] Hvalid; [by apply moves_ret|]. destruct (Hvalid eq_refl) as [Hv Hc].
  eapply moves_bind; [by apply moves_doApply|]. intros a δ Ha. apply moves_ret. by rewrite Z.add_0_r.
Qed.
End operations.

(** ** Before the operations *)

Section transaction.
Context (V : Z) (HV : 12 ≤ V).
Context (sha256 : list Z → list Z) (verifySig : list Z → list Z → list Z → bool).
Context (hashContents : TransactionEnvelope → list Z) (hash_order : list AccountID → list AccountID).
Context (loadCached : TransactionFrame → AccountID → Client Handle) (operationHash : MuxedAccount → Z → Z → list Z).
Context (queryInflationWinners : Z → Z → Client (list Inflation.InflationWinner)).
Context (invariantsHold : Operation → OperationResult → LedgerTxnDelta → bool).
Context (fuel : nat) (f : TransactionFrame).

Notation parentTx := (parentTx loadCached operationHash f).

Section calm.
Context (l0 : Level) (HV0 : 12 ≤ lh_ledgerVersion (v_header l0)).

Lemma calm_currentAccount h : calm l0 (currentAccount h) (λ _, True).
Proof. unfold currentAccount. solve_op. Qed.

Lemma calm_loadSourceAccount header :
  calm l0 (loadSourceAccount loadCached operationHash f header) (on_key (accountKey (Transactions.getSourceID f))).
Proof. by apply calm_loadAccount_tx. Qed.

Lemma calm_commonValidPreSeqNum chargeFee lower upper :
  calm l0 (commonValidPreSeqNum loadCached operationHash f chargeFee lower upper) (λ _, True).
Proof. unfold commonValidPreSeqNum, loadSourceAccount. solve_op. Qed.

#[local] Hint Resolve calm_currentAccount calm_loadSourceAccount calm_commonValidPreSeqNum : calm.

Lemma calm_processSeqNum : calm l0 (processSeqNum loadCached operationHash f) (λ _, True).
Proof. unfold processSeqNum. solve_op. Qed.

Lemma calm_checkSource checker applying chargeFee header h used :
  calm l0 (checkSource sha256 verifySig f checker applying chargeFee header h used) (λ _, True).
Proof. unfold checkSource. solve_op. Qed.
#[local] Hint Resolve calm_checkSource : calm.

Lemma calm_commonValid checker seq applying chargeFee lower upper used :
  calm l0 (commonValid sha256 verifySig loadCached operationHash f checker seq applying chargeFee lower upper used)
    (λ _, True).
Proof. unfold commonValid. apply calm_nested. solve_op. Qed.

Lemma calm_removeAccountSigner id key : calm l0 (removeAccountSigner id key) (λ _, True).
Proof. unfold removeAccountSigner. apply calm_nested. solve_op. Qed.

Lemma calm_removeAccountSigners accounts : calm l0 (removeAccountSigners hashContents f accounts) (λ _, True).
Proof.
  induction accounts as [|id accounts IH]; cbn [removeAccountSigners]; [by apply calm_ret|].
  eapply calm_bind; [apply calm_removeAccountSigner|done].
Qed.

Lemma calm_removeOneTimeSigner :
  calm l0 (removeOneTimeSignerFromAllSourceAccounts hashContents hash_order loadCached operationHash f) (λ _, True).
Proof. unfold removeOneTimeSignerFromAllSourceAccounts. solve_op. apply calm_removeAccountSigners. Qed.
#[local] Hint Resolve calm_removeOneTimeSigner : calm.

Lemma calm_checkSignatures checker ops i all used result :
  calm l0 (checkSignatures sha256 verifySig loadCached operationHash f checker ops i all used result) (λ _, True).
Proof.
  revert i all used result. induction ops as [|op ops IH]; intros i all used result; cbn [checkSignatures]; [by apply calm_ret|].
  eapply calm_bind; [by apply calm_checkSignature|]. intros [used' [res|]] _; apply IH.
Qed.

Lemma calm_processSignatures cv checker used result :
  calm l0 (processSignatures sha256 verifySig hashContents hash_order loadCached operationHash f cv checker used result)
    (λ _, True).
Proof.
  unfold processSignatures. solve_op. apply calm_checkSignatures.
Qed.
End calm.

Lemma moves_beforeOperations checker chargeFee result :
  moves V (beforeOperations sha256 verifySig hashContents hash_order loadCached operationHash f checker chargeFee result)
    (λ _ δ, δ = 0).
Proof.
  unfold beforeOperations. eapply (moves_nested_settles _ _ (λ _ δ, δ = 0)); [|by intros [] ? ? ->].
  eapply (settles_bind _ _ _ (λ _ δ, δ = 0)).
  { eapply moves_calm; [intros l0 Hl0; apply calm_commonValid; lia|done]. }
  intros [used [cv code]] _ ->. cbv zeta. eapply (settles_bind _ _ _ (λ _ δ, δ = 0)).
  { case_match; [|by apply moves_ret]. eapply moves_calm; [intros l0 Hl0; apply calm_processSeqNum; lia|done]. }
  intros _ _ ->. eapply (settles_bind _ _ _ (λ _ δ, δ = 0)).
  { eapply moves_calm; [intros l0 Hl0; apply calm_processSignatures; lia|done]. }
  intros [[ok used'] result'] _ ->. eapply settles_seals.
  - eapply seals_bind; [apply seals_getChanges|]. intros _ _. by apply (seals_ret _ (λ _, True)).
  - by intros.
Qed.

(** ** The operations *)

(** The lumens are as they were unless an operation has failed. *)
Definition kept (success : bool) (r : bool * list bool * TransactionResult) (δ : Z) : Prop :=
  r.1.1 = true → success = true ∧ δ = 0.

Lemma moves_applyOperation checker version op i success used result :
  moves V (applyOperation sha256 verifySig loadCached operationHash queryInflationWinners invariantsHold fuel f
             checker version op i success used result) (kept success).
Proof.
  unfold applyOperation.
  eapply (moves_nested_settles _ _ (λ r δ, kept success r.2 δ)); [|intros [] r δ Hr; [exact Hr|]; intros Hok; by destruct (Hr Hok)].
  eapply settles_bind; [by apply moves_apply|]. intros [used' [txRes res]] δ Hδ. cbv zeta. cbn [fst snd] in Hδ.
  apply (settles_seals _ _ (λ r, r.2.1.1 = success && txRes)).
  - eapply (seals_bind _ _ (λ _, True)).
    + case_match; [|by apply seals_ret]. eapply seals_bind; [apply seals_getDelta|]. intros delta _.
      case_match; [by apply seals_ret|apply seals_raise].
    + intros _ _. case_match; [|by apply seals_ret]. eapply seals_bind; [apply seals_getChanges|]. intros _ _. by apply seals_ret.
  - intros r Hr Hok. rewrite Hr in Hok. apply andb_true_iff in Hok as [-> ->]. rewrite Hδ by done. done.
Qed.

Lemma moves_applyAll checker version ops i success used result :
  moves V (applyAll sha256 verifySig loadCached operationHash queryInflationWinners invariantsHold fuel f
             checker version ops i success used result) (kept success).
Proof.
  revert i success used result. induction ops as [|op ops IH]; intros i success used result; cbn [applyAll]; [by apply moves_ret|].
  eapply moves_bind; [apply moves_applyOperation|]. intros [[success' used'] result'] δ Hδ.
  eapply moves_mono; [apply IH|]. intros r δ' Hr Hok. destruct (Hr Hok) as [-> ->]. by destruct (Hδ eq_refl) as [-> ->].
Qed.

Lemma moves_applyOperations checker used result :
  moves V (applyOperations sha256 verifySig hashContents hash_order loadCached operationHash queryInflationWinners
             invariantsHold fuel f checker used result) (λ _ δ, δ = 0).
Proof.
  unfold applyOperations. eapply (moves_attempt _ _ _ (λ _ δ, δ = 0)).
  - eapply (moves_nested_settles _ _ (λ r δ, r.1 = true → δ = 0)); [|intros [] r δ Hr; [by apply Hr|done]].
    eapply (settles_bind _ _ _ (λ v δ, v = V ∧ δ = 0)).
    { eapply moves_calm; [intros l0 Hl0; by apply calm_version|done]. }
    intros version _ [-> ->]. eapply settles_bind; [apply moves_applyAll|]. intros [[success used'] result'] δ Hδ.
    destruct success.
    + destruct (Hδ eq_refl) as [_ ->]. eapply (settles_seals _ _ (λ _, True)); [|done].
      unfold finishOperations. rewrite (proj2 (Z.ltb_ge V 10)) by lia. case_match; [|by apply seals_ret].
      eapply seals_bind; [apply seals_getDelta|]. intros delta _. by apply seals_ret.
    + by eapply (settles_seals _ _ (λ r, r.1 = false)); [apply seals_ret|intros r ->].
  - intros r _ ->. by apply moves_ret.
  - by apply moves_ret.
Qed.

(** A transaction that is applied leaves the lumens as they were. *)
Lemma moves_transaction chargeFee result :
  moves V (Transactions.apply sha256 verifySig hashContents hash_order loadCached operationHash queryInflationWinners
             invariantsHold fuel f chargeFee result) (λ _ δ, δ = 0).
Proof.
  unfold Transactions.apply. apply moves_orAbort. eapply (moves_bind _ _ _ (λ _ δ, δ = 0)).
  { eapply moves_calm; [intros l0 Hl0; by apply calm_version|done]. }
  intros version _ ->. cbv zeta. eapply moves_bind; [apply moves_beforeOperations|].
  intros [[valid used] result'] _ ->. destruct valid; [|by apply moves_ret]. apply moves_orAbort.
  eapply moves_mono; [apply moves_applyOperations|]. by intros r δ ->.
Qed.
End transaction.

(** ** Fee bumps *)

Section feeBump.
Context (V : Z) (HV : 12 ≤ V).
Context (sha256 : list Z → list Z) (verifySig : list Z → list Z → list Z → bool).
Context (hashContents : TransactionEnvelope → list Z) (hash_order : list AccountID → list AccountID).
Context (loadCached : TransactionFrame → AccountID → Client Handle) (operationHash : MuxedAccount → Z → Z → list Z).
Context (queryInflationWinners : Z → Z → Client (list Inflation.InflationWinner)).
Context (invariantsHold : Operation → OperationResult → LedgerTxnDelta → bool).
Context (fuel : nat) (hashFeeBump : FeeBumpTransactionFrame → list Z) (b : FeeBumpTransactionFrame).

Lemma calm_removeFromFeeSource l0 : calm l0 (removeOneTimeSignerKeyFromFeeSource hashFeeBump b) (λ _, True).
Proof. unfold removeOneTimeSignerKeyFromFeeSource, currentAccount. solve_op. Qed.

Lemma moves_feeBump outer inner :
  moves V (fb_apply sha256 verifySig hashContents hash_order loadCached operationHash queryInflationWinners
             invariantsHold fuel hashFeeBump b outer inner) (λ _ δ, δ = 0).
Proof.
  unfold fb_apply. eapply (moves_bind _ _ _ (λ _ δ, δ = 0)).
  - apply moves_orAbort. eapply (moves_nested_settles _ _ (λ _ δ, δ = 0)); [|by intros [] ? ? ->].
    eapply (settles_bind _ _ _ (λ _ δ, δ = 0)).
    { eapply moves_calm; [intros l0 _; apply calm_removeFromFeeSource|done]. }
    intros _ _ ->. eapply settles_seals; [|done].
    eapply seals_bind; [apply seals_getChanges|]. intros _ _. by apply (seals_ret _ (λ _, True)).
  - intros _ _ ->. apply moves_orAbort. eapply moves_bind; [by apply moves_transaction|].
    intros [res inner'] _ ->. by apply moves_ret.
Qed.
End feeBump.
