(* ===== verification/TransactionProps.v ===== *)
(** * A transaction is all or nothing

    When a transaction does not succeed, what its operations did is undone: the ledger
    is the one that taking its sequence number and checking its signatures left. *)

From S2P Require Import Prelude StateMonad Numeric LedgerEntries GeneralizedEntries Accounts LedgerTxn LedgerTxnSpec LedgerTxnRefine LedgerClient.
From S2P Require Import ClientProps ClientLogic Lumens SponsorshipProps LumenMoves OperationTypes SignatureChecker OperationBase CalmOps AccountOps.
From S2P Require Import Bucket Transactions TransactionMoves.

(** Two stacks with the same ledger and header at the innermost level, and the same
    levels below. *)
Definition same_ledger (st st' : SpecStack) : Prop :=
  ∃ l l' ls σ h, st = mkSpecStack (l :: ls) σ h ∧ st' = mkSpecStack (l' :: ls) σ h ∧ same_view l l'.

Lemma orAbort_Ok {A} (c : Client A) st a st' : specRun (orAbort c) st = Ok (a, st') → specRun c st = Ok (a, st').
Proof.
  unfold orAbort. cbn [run]. destruct (specRun c st) as [[b st1]|e]; [done|]. destruct (std_exception e); [|done].
  rewrite bind_eq. destruct (spec_serve _ _) as [[[] st1]|]; [|done].
  rewrite bind_eq. destruct (spec_serve _ _) as [[[] st2]|]; done.
Qed.

Section transaction.
Context (sha256 : list Z → list Z) (verifySig : list Z → list Z → list Z → bool).
Context (hashContents : TransactionEnvelope → list Z) (hash_order : list AccountID → list AccountID).
Context (loadCached : TransactionFrame → AccountID → Client Handle) (operationHash : MuxedAccount → Z → Z → list Z).
Context (queryInflationWinners : Z → Z → Client (list Inflation.InflationWinner)).
Context (invariantsHold : Operation → OperationResult → LedgerTxnDelta → bool) (fuel : nat).
Context (f : TransactionFrame).

Notation beforeOperations := (beforeOperations sha256 verifySig hashContents hash_order loadCached operationHash f).
Notation applyOperations := (applyOperations sha256 verifySig hashContents hash_order loadCached operationHash
  queryInflationWinners invariantsHold fuel f).
Notation apply_ := (Transactions.apply sha256 verifySig hashContents hash_order loadCached operationHash
  queryInflationWinners invariantsHold fuel f).

Lemma applyOperations_undone checker used result l :
  modern (v_header l) → lwp (applyOperations checker used result) (λ r l', r.1 = false → same_view l l') l.
Proof.
  intros Hl. apply lwp_attempt; [|intros l' Hl'; by apply lwp_ret]. apply lwp_nested_sealing.
  eapply (swp_mono _ (λ r _, r.1 = r.2.1)).
  { intros [b r] l1 Hr l' Hv Hh. cbn [fst snd] in *. apply lwp_ret. rewrite <- Hr. by intros ->. }
  set (V := lh_ledgerVersion (v_header l)). match goal with |- swp ?c _ ?n =>
    assert (settles V c (λ r δ, r.1 = r.2.1)) as Hc end.
  2: { eapply swp_mono; [|exact (Hc (spec_newLevel (v_view l) (v_header l) true) eq_refl eq_refl)]. by intros r l1 (δ & ? & _). }
  eapply (settles_bind _ _ _ (λ v δ, v = V)).
  { eapply moves_calm; [intros l0 Hl0; by apply calm_version|by intros]. }
  intros version _ ->. eapply settles_bind; [by apply moves_applyAll|]. intros [[success used'] result'] δ _.
  eapply (settles_seals _ _ (λ r, r.1 = r.2.1)); [|by intros]. destruct success; [|by apply seals_ret].
  unfold finishOperations. rewrite (proj2 (Z.ltb_ge V 10)) by (unfold FIRST_PROTOCOL_SHADOWS_REMOVED in *; lia).
  case_match; [|by apply seals_ret]. eapply seals_bind; [apply seals_getDelta|]. intros delta _. apply seals_ret. by case_match.
Qed.

(** C10: from protocol 12 on a transaction is all or nothing.  Applying it runs the part
    before its operations, which takes the sequence number and removes the signers that
    can be used once; when the transaction does not succeed, whether it was not valid
    there, an operation failed, a sponsorship was left open or an exception was thrown,
    the ledger and the header are the ones that part left. *)
Theorem failed_transaction_undone chargeFee result l ls σ h r st' :
  v_sealed l = false → modern (v_header l) →
  specRun (apply_ chargeFee result) (mkSpecStack (l :: ls) σ h) = Ok ((false, r), st') →
  ∃ version st0 a st1,
    specRun ledgerVersion (mkSpecStack (l :: ls) σ h) = Ok (version, st0) ∧
    specRun (beforeOperations (makeChecker hashContents f version) chargeFee result) st0 = Ok (a, st1) ∧
    same_ledger st1 st'.
Proof.
  intros Hs Hl Hrun%orAbort_Ok. rewrite run_bind, bind_eq in Hrun.
  assert (lwp ledgerVersion (λ _ l1, same_view l l1) l) as Hv by (by apply lwp_ledgerVersion).
  specialize (Hv Hs ls σ h). unfold ends in Hv. destruct (specRun ledgerVersion _) as [[version st0]|]; [|done].
  destruct Hv as (l0 & -> & Hs0 & [_ Hh0]). cbv zeta in Hrun. rewrite run_bind, bind_eq in Hrun.
  assert (modern (v_header l0)) as Hl0 by (by rewrite Hh0).
  pose proof (moves_beforeOperations (lh_ledgerVersion (v_header l0)) Hl0 sha256 verifySig hashContents hash_order loadCached
    operationHash f (makeChecker hashContents f version) chargeFee result l0 eq_refl Hs0 ls σ h) as Hb.
  unfold ends in Hb. destruct (specRun (beforeOperations _ _ _) _) as [[[[valid used] result'] st1]|] eqn:E; [|done].
  destruct Hb as (l1 & -> & Hs1 & δ & _ & Hm). eexists _, _, _, _. split_and!; [done|exact E|].
  destruct valid.
  - apply orAbort_Ok in Hrun. pose proof (applyOperations_undone (makeChecker hashContents f version) used result' l1) as Ho.
    specialize (Ho ltac:(by rewrite (moved_version _ _ _ Hm)) Hs1 ls σ h). unfold ends in Ho. rewrite Hrun in Ho.
    destruct Ho as (l2 & -> & _ & H2). exists l1, l2, ls, σ, h. split_and!; [done|done|by apply H2].
  - injection Hrun as _ <-. by exists l1, l1, ls, σ, h.
Qed.
End transaction.

(** A transaction of two payments, the second of which is more than there is. *)
Module FailedExample.
Definition alice : AccountID := [1].
Definition bob : AccountID := [2].
Definition account (id : AccountID) : GeneralizedLedgerEntry :=
  GLedgerEntry (mkLedgerEntry 1 (ACCOUNT (mkAccount id 1000 4 0 None 0 [] [1; 0; 0; 0] [] None)) None).
Definition header : LedgerHeader :=
  mkLedgerHeader 15 [] (mkDiamnetValue [] 0 [] None) [] [] 9 2000 0 0 0 10 10 100 [].
Definition level : Level := spec_newLevel (<[accountKey alice := account alice]> {[accountKey bob := account bob]}) header true.
Definition pay (amount : Z) : Operation :=
  mkOperation None (PAYMENT (mkPaymentOp (KEY_TYPE_ED25519 bob) ASSET_TYPE_NATIVE amount)).
Definition frame : TransactionFrame :=
  FrameV1 (mkTransactionV1 (KEY_TYPE_ED25519 alice) 200 5 None MEMO_NONE [pay 10; pay 5000]) [mkDecoratedSignature alice alice].
Definition verifySig (key sig hash : list Z) : bool := bool_decide (sig = key).
Definition result : TransactionResult := resetResults frame header 100 true.
Definition start : SpecStack := mkSpecStack [level] ∅ header.
Definition applied : res (bool * TransactionResult * SpecStack) :=
  specRun (Transactions.apply id verifySig (λ _, [7]) id (λ _, loadAccount) (λ _ _ _, []) (λ _ _, mret [])
    (λ _ _ _, true) 10 frame true result) start.
Definition after : (bool * TransactionResult) * SpecStack :=
  match applied with Ok r => r | Throw _ => ((true, result), start) end.
End FailedExample.
Import FailedExample.

Lemma failed_transaction_undone_witness :
  after.1.1 = false ∧ tr_code after.1.2 = txFAILED ∧
  ∃ version st0 a st1,
    specRun ledgerVersion start = Ok (version, st0) ∧
    specRun (beforeOperations id verifySig (λ _, [7]) id (λ _, loadAccount) (λ _ _ _, []) frame
      (makeChecker (λ _, [7]) frame version) true result) st0 = Ok (a, st1) ∧
    same_ledger st1 after.2.
Proof.
  split; [vm_compute; reflexivity|]. split; [vm_compute; reflexivity|].
  apply (failed_transaction_undone id verifySig (λ _, [7]) id (λ _, loadAccount) (λ _ _ _, []) (λ _ _, mret [])
    (λ _ _ _, true) 10 frame true result level [] ∅ header after.1.2); [reflexivity|vm_compute; discriminate|vm_compute; reflexivity].
Defined.
