(* ===== verification/LedgerManagerProps.v ===== *)
(** * Closing ledgers: the database and the bucket list stay in step

    After any number of ledgers the database is the ledger the bucket list stands
    for, the headers form a chain, and a node that catches up from the published
    list gets the same database. *)

From S2P Require Import Prelude StateMonad Numeric LedgerEntries GeneralizedEntries OfferOrder LedgerTxn LedgerTxnProps LedgerTxnSpec LedgerTxnSteps LedgerTxnRoot LedgerTxnRootProps LedgerTxnRefine LedgerClient.
From S2P Require Import Bucket BucketMerge BucketList BucketLevels BucketFresh BucketListProps BucketApply CatchupProps Transactions Upgrades LedgerManager ClientProps PrepareLiabilitiesProps.

(** ** One ledger more *)

Lemma validBatch_ext b (σ σ' : Ledger) : (∀ k, σ k = σ' k) → validBatch b σ → validBatch b σ'.
Proof. intros Hσ [Hnd Hi]. split; [done|]. intros e He. rewrite <- Hσ. by apply Hi. Qed.

Lemma applyBatch_ext b (σ σ' : Ledger) k : (∀ k, σ k = σ' k) → applyBatch b σ k = applyBatch b σ' k.
Proof. intros Hσ. unfold applyBatch. by rewrite Hσ. Qed.

(** The ledgers so far, and [ρ] for the next one. *)
Definition extend (σ : Z → Ledger) (n : Z) (ρ : Ledger) : Z → Ledger := λ j, if j <=? n then σ j else ρ.

Lemma extend_le σ n ρ j : j ≤ n → extend σ n ρ j = σ j.
Proof. intros Hj. unfold extend. by rewrite (proj2 (Z.leb_le _ _) Hj). Qed.

Lemma extend_gt σ n ρ j : n < j → extend σ n ρ j = ρ.
Proof. intros Hj. unfold extend. by rewrite (proj2 (Z.leb_gt _ _) Hj). Qed.

Lemma stamp_nothing n (V : View) : stamp_view n ∅ V = V.
Proof. apply map_eq. intros k. unfold stamp_view. rewrite map_lookup_imap. by destruct (V !! k). Qed.

(** Clients that store nothing but entries they are given. *)
Ltac solve_client_ok :=
  cbn -[spec_serve];
  repeat (split; [done|]; match goal with |- context [spec_serve ?r ?s] => destruct (spec_serve r s) as [[? ?]|] end; [|done]);
  done.

(** ** The node *)

Section node.
Variable owner : Z → AccountID.
Context (sha256 : list Z → list Z) (bucketHash : list BucketEntry → list Z).
Context (xdr_header : LedgerHeader → list Z) (xdr_results : list (list Z * FrameResult) → list Z).
Context (decode : list Z → option LedgerUpgrade).
Context (LEDGER_PROTOCOL_VERSION : Z) (MODE_STORES_HISTORY pessimize : bool) (ready : Z → nat → bool).

Notation headerHash := (headerHash sha256 xdr_header).
Notation ledgerClosed := (ledgerClosed sha256 bucketHash xdr_header true pessimize ready).
Notation snapshotLedger := (snapshotLedger sha256 bucketHash true).
Notation closeClient :=
  (closeClient sha256 xdr_results decode LEDGER_PROTOCOL_VERSION MODE_STORES_HISTORY).
Notation closeLedger :=
  (closeLedger sha256 bucketHash xdr_header xdr_results decode LEDGER_PROTOCOL_VERSION
     MODE_STORES_HISTORY true pessimize ready).
Notation startNewLedger := (startNewLedger sha256 bucketHash xdr_header true pessimize ready).
Notation valueExternalized :=
  (valueExternalized sha256 bucketHash xdr_header xdr_results decode LEDGER_PROTOCOL_VERSION
     MODE_STORES_HISTORY true pessimize ready).

Lemma onLedger_run {A} (c : Client A) m (a : SpecStack) (Q : A → SpecStack → Prop) :
  stack_ok owner (lm_stack m) → absStack (lm_stack m) = a → client_ok owner c a → ends c a Q →
  match onLedger c m with
  | Ok (x, m') => ∃ st', m' = set_lm_stack st' m ∧ stack_ok owner st' ∧ Q x (absStack st')
  | Throw e => (∃ what, e = RuntimeError what) ∨ raises c e
  end.
Proof.
  intros Hst <- Hc HQ. unfold onLedger. pose proof (run_sim owner c _ Hst Hc) as Hsim.
  pose proof (checked_run c (absStack (lm_stack m))) as Hch. unfold ends in HQ.
  destruct (run (@serve) c (lm_stack m)) as [[a st']|e]; cbn [mbind res_bind].
  - destruct Hsim as [Hs Hst']. rewrite Hs in HQ. by exists st'.
  - by rewrite Hsim in Hch.
Qed.

(** The level that was sealed. *)
Lemma sealed_entries st l σ h :
  stack_ok owner st → absStack st = mkSpecStack [spec_seal l] σ h →
  wf_entries owner (spec_entries l) ∧ overlay (spec_entries l) σ = sealed_view l.
Proof.
  destruct st as [ls r]. intros [Hr _ Hls] Habs. unfold absStack in Habs. simpl in *.
  destruct ls as [|s [|s' ls]]; [done| |done]. cbn [absLevels below] in *. destruct Hls as [Hs _].
  pose proof (f_equal s_view Habs) as Hσ. simpl in Hσ. subst σ.
  pose proof (f_equal (λ st, head (s_levels st)) Habs) as Hl. simpl in Hl. apply (inj Some) in Hl.
  pose proof (root_lawful owner r Hr) as Hp.
  assert (spec_entries (absLevel (db_view (root_db r)) s) = spec_entries l) as He by (by rewrite Hl).
  rewrite <- He. split; [by apply (wf_spec_entries owner)|].
  destruct (committedEntries_run owner _ s Hs) as (entries & Hce & _ & _ & Hov).
  rewrite (committedEntries_spec owner (db_view (root_db r))) in Hce by done. injection Hce as ->.
  simpl in Hov. by rewrite Hov, Hl.
Qed.

Notation header m := (root_mHeader (base (lm_stack m))).
Notation database m := (root_db (base (lm_stack m))).

(** A node between two ledgers, with the ledgers so far. *)
Record node_ok (m : LedgerManagerImpl) (σ : Z → Ledger) : Prop := {
  no_stack : stack_ok owner (lm_stack m);
  no_levels : levels (lm_stack m) = [];
  no_modern : modern (header m);
  no_seq : 0 < lh_ledgerSeq (header m) ≤ UINT32_MAX;
  no_zero : ∀ k, σ 0 k = None;
  no_buckets : list_at σ (lh_ledgerVersion (header m)) (lh_ledgerSeq (header m)) (mBucketList m);
  no_db : ∀ k, database m !! k = σ (lh_ledgerSeq (header m)) k;
  no_last : mLastClosedLedger m = (header m, headerHash (header m));
  no_saved : mPersistentState m = Some ((mLastClosedLedger m).2,
    stateOf bucketHash zeroHash (lh_ledgerSeq (header m)) (mBucketList m));
  no_hash : lh_bucketListHash (header m) = BucketList_getHash sha256 bucketHash (mBucketList m)
}.

Lemma ledger_part_lookup db (V : View) k : db_view db = ledger_part V → db !! k = ledger_at V k.
Proof.
  intros Ev. unfold ledger_at. assert (db_view db !! GLedgerKey k = V !! GLedgerKey k) as Ek.
  { rewrite Ev. unfold ledger_part. apply option_eq. intros e. rewrite map_lookup_filter_Some. naive_solver. }
  rewrite <- Ek, lookup_db_view. by destruct (db !! k).
Qed.

Lemma client_ok_seal st : client_ok owner sealClient st.
Proof. solve_client_ok. Qed.

Lemma snapshotLedger_keeps levels h :
  lh_ledgerSeq (snapshotLedger levels h) = lh_ledgerSeq h ∧
  lh_ledgerVersion (snapshotLedger levels h) = lh_ledgerVersion h ∧
  lh_previousLedgerHash (snapshotLedger levels h) = lh_previousLedgerHash h ∧
  lh_scpValue (snapshotLedger levels h) = lh_scpValue h ∧
  lh_bucketListHash (snapshotLedger levels h) = BucketList_getHash sha256 bucketHash levels.
Proof. unfold snapshotLedger, calculateSkipValues. case_match; done. Qed.

(** The batch of the sealed level goes to the bucket list. *)
Lemma transfer_run m σ n st' l h :
  stack_ok owner st' → absStack st' = mkSpecStack [spec_seal l] (db_view (database m)) h →
  (∀ k, σ 0 k = None) → 0 ≤ n → n + 1 ≤ UINT32_MAX → modern (v_header l) →
  list_at σ (lh_ledgerVersion (v_header l)) n (mBucketList m) →
  (∀ k, database m !! k = σ n k) →
  let b := batch_of (db_view (database m)) (spec_entries l) in
  ∃ levels, transferLedgerEntriesToBucketList true pessimize ready (n + 1)
      (lh_ledgerVersion (v_header l)) (initEntries b, liveEntries b, deadEntries b) (set_lm_stack st' m) =
    Ok (tt, set_mBucketList levels (set_lm_stack st' m)) ∧
    list_at (extend σ n (ledger_at (sealed_view l))) (lh_ledgerVersion (v_header l)) (n + 1) levels.
Proof.
  intros Hst Habs H0 Hn Hmax HP Hl Hdb b.
  destruct (sealed_entries st' l _ _ Hst Habs) as [Hwf Hov].
  assert (∀ k e, spec_entries l !! k = Some (Some e) → toKey e = k) as Hkeys by (intros k e []%Hwf; done).
  assert (∀ k, ledger_at (db_view (database m)) k = σ n k) as Hσ.
  { intros k. rewrite <- Hdb. unfold ledger_at. rewrite lookup_db_view. by destruct (_ !! k). }
  set (σ' := extend σ n (ledger_at (sealed_view l))).
  assert (σ' (n + 1 - 1) = σ n) as Hn1 by (rewrite Z.add_simpl_r; by apply extend_le).
  assert (∀ k, σ' 0 k = None) as H0' by (intros k; unfold σ'; by rewrite extend_le).
  destruct (addBatch_Ok σ' (lh_ledgerVersion (v_header l)) HP H0' (n + 1) pessimize (ready (n + 1)) b (mBucketList m))
    as (levels & Hadd & Hl').
  - lia.
  - unfold is_u32. lia.
  - rewrite Z.add_simpl_r. eapply list_at_ext; [done| |exact Hl]. intros j k Hj. unfold σ'. by rewrite extend_le.
  - rewrite Hn1. eapply validBatch_ext; [exact Hσ|]. by apply batch_valid.
  - intros k. rewrite Hn1, <- (applyBatch_ext _ _ _ _ Hσ). unfold b, σ'.
    rewrite batch_applied, extend_gt by (done || lia). by rewrite Hov.
  - exists levels. split; [|done]. unfold transferLedgerEntriesToBucketList.
    unfold mbind, M_bind, reads. cbn [set_lm_stack mBucketList]. by rewrite Hadd.
Qed.

Lemma client_ok_ask {A} (r : Request A) st : request_ok owner r → client_ok owner (ask r) st.
Proof. intros Hr. split; [done|]. by destruct (spec_serve r st) as [[]|]. Qed.

(** The header is completed and the level is committed. *)
Lemma finish_run m l σ h :
  stack_ok owner (lm_stack m) → absStack (lm_stack m) = mkSpecStack [spec_seal l] σ h →
  let hd := snapshotLedger (mBucketList m) (v_header l) in
  match ((bl ← gets mBucketList;
          onLedger (ask (UnsealHeader (snapshotLedger bl)));;
          lh ← gets currentLedgerHeader;
          storeCurrentLedger sha256 bucketHash xdr_header true lh;;
          advanceLedgerPointers sha256 xdr_header lh);; onLedger (ask Commit)) m with
  | Ok (_, m') => stack_ok owner (lm_stack m') ∧ absStack (lm_stack m') = mkSpecStack [] (ledger_part (sealed_view l)) hd ∧
      mBucketList m' = mBucketList m ∧ mLastClosedLedger m' = (hd, headerHash hd) ∧
      mPersistentState m' = Some (headerHash hd, stateOf bucketHash zeroHash (lh_ledgerSeq hd) (mBucketList m))
  | Throw e => (∃ what, e = RuntimeError what) ∨ ∃ h, headerHash h = zeroHash
  end.
Proof.
  intros Hst Habs hd. rewrite M_bind_assoc, bind_gets, M_bind_assoc, bind_eq.
  set (l' := set_headers hd None (spec_seal l)).
  assert (ends (ask (UnsealHeader (snapshotLedger (mBucketList m)))) (mkSpecStack [spec_seal l] σ h)
            (λ _ st, st = mkSpecStack [l'] σ h)) as Hends by (by apply ends_ask).
  pose proof (onLedger_run _ m _ _ Hst Habs (client_ok_ask (UnsealHeader _) _ I) Hends) as Hun.
  destruct (onLedger _ m) as [[u m1]|e]; [|left; by destruct Hun as [?|[? []]]].
  destruct Hun as (st1 & -> & Hst1 & Habs1).
  rewrite M_bind_assoc, bind_gets.
  assert (currentLedgerHeader (set_lm_stack st1 m) = hd) as ->.
  { unfold currentLedgerHeader. cbn [lm_stack set_lm_stack]. rewrite <- (header_of_abs st1 _ (absStack st1)) by done.
    unfold absStack in Habs1. pose proof (f_equal s_levels Habs1) as E. cbn [s_levels] in E. by rewrite E. }
  rewrite M_bind_assoc. unfold storeCurrentLedger. rewrite M_bind_assoc, bind_eq. unfold reads at 1.
  destruct (decide (headerHash hd = zeroHash)) as [Hz|Hz].
  { rewrite (bool_decide_eq_true_2 _ Hz). right. by exists hd. }
  rewrite (bool_decide_eq_false_2 _ Hz). cbn [negb cassert]. unfold advanceLedgerPointers. rewrite !bind_modify.
  set (m2 := set_mLastClosedLedger _ _).
  assert (ends (ask Commit) (mkSpecStack [l'] σ h)
            (λ _ st, st = mkSpecStack [] (ledger_part (sealed_view l)) hd)) as Hends' by (by apply ends_ask).
  pose proof (onLedger_run _ m2 _ _ Hst1 Habs1 (client_ok_ask Commit _ I) Hends') as Hcm.
  destruct (onLedger _ m2) as [[u' m3]|e]; [|left; by destruct Hcm as [?|[? []]]].
  destruct Hcm as (st2 & -> & Hst2 & Habs2). by split_and!.
Qed.

(** The node after a level has been closed. *)
Definition leaves (l : Level) (m : LedgerManagerImpl) : Prop :=
  ∃ l', v_view l' = v_view l ∧ v_header l' = v_header l ∧
    db_view (root_db (base (lm_stack m))) = ledger_part (sealed_view l') ∧
    root_mHeader (base (lm_stack m)) = snapshotLedger (mBucketList m) (v_header l).

Lemma ledgerClosed_step m σ n l :
  stack_ok owner (lm_stack m) → s_levels (absStack (lm_stack m)) = [l] → v_sealed l = false →
  (∀ k, σ 0 k = None) → 0 ≤ n → n + 1 ≤ UINT32_MAX → modern (v_header l) →
  list_at σ (lh_ledgerVersion (v_header l)) n (mBucketList m) →
  (∀ k, database m !! k = σ n k) → lh_ledgerSeq (v_header l) = n + 1 →
  match (ledgerClosed;; onLedger (ask Commit)) m with
  | Ok (_, m') => (∃ σ', node_ok m' σ') ∧ lh_ledgerSeq (header m') = n + 1 ∧
      lh_ledgerVersion (header m') = lh_ledgerVersion (v_header l) ∧
      lh_previousLedgerHash (header m') = lh_previousLedgerHash (v_header l) ∧
      lh_scpValue (header m') = lh_scpValue (v_header l) ∧ leaves l m'
  | Throw e => (∃ what, e = RuntimeError what) ∨ ∃ h, headerHash h = zeroHash
  end.
Proof.
  intros Hst Hl Hs H0 Hn Hmax HP Hlist Hdb Hseq. unfold ledgerClosed. rewrite M_bind_assoc, bind_eq.
  set (ρ := db_view (database m)) in *. set (h0 := header m).
  assert (absStack (lm_stack m) = mkSpecStack [l] ρ h0) as Habs by (unfold absStack in *; by rewrite <- Hl).
  pose proof (onLedger_run sealClient m _ _ Hst Habs (client_ok_seal _) (sealClient_ends l ρ h0 Hs)) as Hseal.
  destruct (onLedger sealClient m) as [[r m1]|e]; [|left; naive_solver].
  destruct Hseal as (st1 & -> & Hst1 & l1 & Habs1 & Hh1 & Hv1 & ->). rewrite Hseq, <- Hh1.
  rewrite <- Hh1 in HP, Hlist, Hseq.
  destruct (transfer_run m σ n st1 l1 h0 Hst1 Habs1 H0 Hn Hmax HP Hlist Hdb) as (levels & Htr & Hlist').
  unfold batch_of in Htr. cbn [initEntries liveEntries deadEntries] in Htr.
  rewrite M_bind_assoc, (bind_run _ _ _ _ _ Htr).
  set (m2 := set_mBucketList levels (set_lm_stack st1 m)).
  pose proof (finish_run m2 l1 ρ h0 Hst1 Habs1) as Hfin. cbv zeta in Hfin.
  match type of Hfin with match ?x with _ => _ end => destruct x as [[u m3]|e] end; [|done].
  change (mBucketList m2) with levels in Hfin. destruct Hfin as (Hst3 & Habs3 & Hbl & Hlc & Hps).
  destruct (snapshotLedger_keeps levels (v_header l1)) as (E1 & E2 & E3 & E4 & E5).
  pose proof (f_equal s_header Habs3) as Eh. pose proof (f_equal s_view Habs3) as Ev.
  pose proof (f_equal s_levels Habs3) as El. cbn [s_header s_view s_levels absStack] in Eh, Ev, El.
  split; [|rewrite Eh; split_and!; [by rewrite E1|done..|]; exists l1; by rewrite Eh, Hbl, Hh1].
  exists (extend σ n (ledger_at (sealed_view l1))). split; rewrite ?Eh, ?E1, ?E2, ?Hseq.
  - done.
  - destruct (LedgerTxnRoot.levels (lm_stack m3)); done.
  - done.
  - lia.
  - intros k. by rewrite extend_le.
  - by rewrite Hbl.
  - intros k. rewrite extend_gt by lia. apply ledger_part_lookup. by rewrite Ev.
  - by rewrite Hlc.
  - by rewrite Hps, Hlc, Hbl, E1, Hseq.
  - by rewrite E5, Hbl.
Qed.

(** ** Reachable nodes *)

Definition freshNode (h : LedgerHeader) (last : LedgerHeader * list Z) : LedgerManagerImpl :=
  mkLedgerManager (mkStack [] (mkRoot h ∅ false ∅)) emptyList last None LM_BOOTING_STATE.

(** What is to be applied: the transactions keep to their part of the header, and
    what they store are entries. *)
Definition close_ok (m : LedgerManagerImpl) (data : LedgerCloseData) : Prop :=
  Forall tame_tx (lcd_txs data) ∧
  client_ok owner (closeClient (mLastClosedLedger m).2 data) (absStack (lm_stack m)).

(** A bucket list of protocol 12 or later at ledger [n]: there are ledgers such that
    each bucket takes the one before the first to the one after the last of those that
    the size computation gives it, and what is being merged are these buckets. *)
Definition sound_list (P n : Z) (bl : BucketList (list Z)) : Prop :=
  ∃ σ : Z → Ledger, (∀ k, σ 0 k = None) ∧ list_at σ P n bl.

(** A node that has joined the network with the buckets of an archive: it took over
    the list, which has the hash that the header names, its database is what applying
    the buckets has left, and its last ledger is that of the header. *)
Definition caught_up (lastClosed : LedgerHeader) (m : LedgerManagerImpl) : Prop :=
  ∃ files inMemory archived bl ρ h db last saved state u,
    modern lastClosed ∧ 0 < lh_ledgerSeq lastClosed ≤ UINT32_MAX ∧
    sound_list (lh_ledgerVersion lastClosed) (lh_ledgerSeq lastClosed) archived ∧
    lh_bucketListHash lastClosed = BucketList_getHash sha256 bucketHash archived ∧
    Archived bucketHash zeroHash files archived ∧
    ApplyBucketsWork bucketHash zeroHash files inMemory (lh_ledgerVersion lastClosed)
      (archive bucketHash zeroHash (lh_ledgerSeq lastClosed) archived) emptyList (λ _, None) = Ok (Some (bl, ρ)) ∧
    (∀ k, db !! k = ρ k) ∧ wf_view owner (db_view db) ∧
    setLastClosedLedger sha256 bucketHash xdr_header true lastClosed
      (mkLedgerManager (mkStack [] (mkRoot h db false ∅)) bl last saved state) = Ok (u, m).

(** A node that started a new network or has caught up with one, and the values that
    the network externalizes. *)
Inductive reachable : LedgerManagerImpl → Prop :=
| reachable_start h last rootAccount genesis u m :
    modern genesis → lh_ledgerSeq genesis = 1 →
    startNewLedger rootAccount genesis (freshNode h last) = Ok (u, m) → reachable m
| reachable_catchup lastClosed m : caught_up lastClosed m → reachable m
| reachable_value m initialized done buffered data u m' :
    reachable m → lh_ledgerSeq (mLastClosedLedger m).1 < UINT32_MAX → close_ok m data →
    valueExternalized initialized done buffered data m = Ok (u, m') → reachable m'.

Lemma create_ends e l ls σ h (Q : LedgerTxnEntry → SpecStack → Prop) :
  (∀ hdl l', v_sealed l' = v_sealed l → v_header l' = v_header l → v_view l' = <[toKey e := e]> (v_view l) →
     Q hdl (mkSpecStack (l' :: ls) σ h)) →
  ends (ask (Create e)) (mkSpecStack (l :: ls) σ h) Q.
Proof.
  intros HQ. apply ends_ask. destruct l as [view t hd stamp a ah n c sealed]. simpl.
  unfold spec_innermost. simpl. unfold spec_create, guard_open, activate, mbind, M_bind, gets. simpl.
  destruct sealed; [done|]. simpl. destruct (view !! toKey e); [done|]. by apply HQ.
Qed.

Lemma deactivate_ends hdl l ls σ h (Q : unit → SpecStack → Prop) :
  (∀ l', v_sealed l' = v_sealed l → v_header l' = v_header l → v_view l' = v_view l → Q tt (mkSpecStack (l' :: ls) σ h)) →
  ends (ask (Deactivate hdl)) (mkSpecStack (l :: ls) σ h) Q.
Proof.
  intros HQ. apply ends_ask. simpl. unfold spec_innermost. simpl. unfold spec_deactivate, spec_current, reads.
  unfold mbind, M_bind. destruct (spec_lock hdl l); [|done]. destruct (v_view l !! h_key hdl); [|done]. by apply HQ.
Qed.

Lemma db_view_lookup db db' k : db_view db = db_view db' → db !! k = db' !! k.
Proof.
  intros E. pose proof (f_equal (lookup (GLedgerKey k)) E) as Hk. rewrite !lookup_db_view in Hk.
  destruct (db !! k), (db' !! k); simpl in Hk; congruence.
Qed.

Lemma start_run h last rootAccount genesis :
  modern genesis → lh_ledgerSeq genesis = 1 →
  match startNewLedger rootAccount genesis (freshNode h last) with
  | Ok (_, m) => (∃ σ, node_ok m σ) ∧ ∃ l, leaves l m ∧ v_header l = genesis ∧
      let root := rootEntry rootAccount (lh_totalCoins genesis) in v_view l = {[toKey (GLedgerEntry root) := GLedgerEntry root]}
  | Throw e => (∃ what, e = RuntimeError what) ∨ ∃ h, headerHash h = zeroHash
  end.
Proof.
  intros HP Hseq. set (root := rootEntry rootAccount (lh_totalCoins genesis)). unfold startNewLedger.
  set (c := ask (Open false);; _). rewrite bind_eq.
  assert (ends c (mkSpecStack [] (db_view ∅) h) (λ _ st', ∃ l, st' = mkSpecStack [l] (db_view ∅) h ∧
    v_sealed l = false ∧ v_header l = genesis ∧ v_view l = {[toKey (GLedgerEntry root) := GLedgerEntry root]})) as Hends.
  { apply ends_bind, root_open_ends. apply ends_bind. apply ends_bind, load_header; [done|].
    apply ends_bind, current_header; [done|]. apply ends_bind, write_header; [done|].
    apply deactivate_header. apply ends_bind, create_ends. intros hdl l Hs Hh Hv. apply deactivate_ends.
    intros l' Hs' Hh' Hv'. exists l'. rewrite Hs', Hs, Hh', Hh, Hv', Hv. by split_and!. }
  assert (client_ok owner c (mkSpecStack [] (db_view ∅) h)) as Hok by solve_client_ok.
  assert (stack_ok owner (lm_stack (freshNode h last))) as Hst.
  { apply stack_ok_init. intros k e (? & ? & _ & _ & Hl)%db_view_Some. by rewrite lookup_empty in Hl. }
  pose proof (onLedger_run c (freshNode h last) _ _ Hst eq_refl Hok Hends) as Hrun.
  destruct (onLedger c _) as [[u m]|e]; [|left; naive_solver]. destruct Hrun as (st & -> & Hst' & l & Habs & Hs & Hh & Hroot).
  assert (∀ k, root_db (base st) !! k = None) as Hdb.
  { intros k. rewrite (db_view_lookup _ ∅ k (f_equal s_view Habs)). apply lookup_empty. }
  rewrite <- Hh in HP, Hseq.
  pose proof (ledgerClosed_step (set_lm_stack st (freshNode h last)) (λ _ _, None) 0 l Hst' (f_equal s_levels Habs) Hs
    (λ _, eq_refl) ltac:(done) ltac:(done) HP (list_at_empty _ _ HP) Hdb Hseq) as Hclose.
  match goal with |- match ?x with _ => _ end => destruct x as [[u' m']|e] end; [|done].
  destruct Hclose as (Hok' & _ & _ & _ & _ & Hl). split; [done|]. by exists l.
Qed.

(** The end of catchup leaves the database and sets the header. *)
Lemma setLastClosedLedger_run lastClosed m :
  stack_ok owner (lm_stack m) → levels (lm_stack m) = [] →
  match setLastClosedLedger sha256 bucketHash xdr_header true lastClosed m with
  | Ok (_, m') => stack_ok owner (lm_stack m') ∧ levels (lm_stack m') = [] ∧ header m' = lastClosed ∧
      (∀ k, database m' !! k = database m !! k) ∧ mBucketList m' = mBucketList m ∧
      mLastClosedLedger m' = (lastClosed, headerHash lastClosed) ∧
      mPersistentState m' = Some (headerHash lastClosed, stateOf bucketHash zeroHash (lh_ledgerSeq lastClosed) (mBucketList m))
  | Throw _ => True
  end.
Proof.
  intros Hst Hlv. unfold setLastClosedLedger. set (c := ask (Open true);; _). rewrite bind_eq.
  set (V := db_view (database m)). set (h := header m).
  assert (absStack (lm_stack m) = mkSpecStack [] V h) as Habs by (unfold absStack; by rewrite Hlv).
  set (l := set_headers lastClosed (Some 0) (LedgerTxnSpec.mkLevel V ∅ h true ∅ (Some 0) 1 EXACT false)).
  assert (ends c (mkSpecStack [] V h) (λ _ st', st' = mkSpecStack [l] V h)) as Hends.
  { apply ends_bind, root_open_ends, ends_bind, load_header; [done|]. by apply write_header. }
  pose proof (onLedger_run c m _ _ Hst Habs ltac:(solve_client_ok) Hends) as Hrun.
  destruct (onLedger c m) as [[u m1]|e]; [|done]. destruct Hrun as (st & -> & Hst1 & Habs1).
  unfold storeCurrentLedger. rewrite M_bind_assoc, bind_eq. unfold reads at 1.
  destruct (cassert _) as [[]|]; [|done]. cbn [mbind res_bind]. rewrite bind_modify, bind_eq. set (m2 := set_mPersistentState _ _).
  assert (ends (ask Commit) (mkSpecStack [l] V h) (λ _ st, st = mkSpecStack [] (ledger_part (sealed_view l)) lastClosed))
    as Hends' by (by apply ends_ask).
  pose proof (onLedger_run _ m2 _ _ Hst1 Habs1 (client_ok_ask Commit _ I) Hends') as Hcm.
  destruct (onLedger _ m2) as [[u' m3]|e]; [|done]. destruct Hcm as (st2 & -> & Hst2 & Habs2).
  pose proof (f_equal s_header Habs2) as Eh. pose proof (f_equal s_view Habs2) as Ev.
  pose proof (f_equal s_levels Habs2) as El. cbn [s_header s_view s_levels absStack] in Eh, Ev, El.
  unfold advanceLedgerPointers. cbn -[sealed_view]. split_and!; try done.
  - destruct (LedgerTxnRoot.levels st2); done.
  - intros k. rewrite (ledger_part_lookup _ _ k Ev). unfold ledger_at.
    assert (sealed_view l = V) as -> by apply stamp_nothing.
    unfold V. rewrite lookup_db_view. by destruct (database m !! k).
Qed.

Lemma hash_equiv (l1 l2 : BucketList (list Z)) :
  Forall2 level_equiv l1 l2 → BucketList_getHash sha256 bucketHash l1 = BucketList_getHash sha256 bucketHash l2.
Proof.
  intros Heq. unfold BucketList_getHash. do 2 f_equal.
  induction Heq as [|L1 L2 l1 l2 (Hc & Hs & _) _ IH]; [done|]. rewrite !fmap_cons, IH.
  unfold BucketLevel_getHash. by rewrite Hc, Hs.
Qed.

Lemma caught_up_ok lastClosed m : caught_up lastClosed m → header m = lastClosed ∧ ∃ σ, node_ok m σ.
Proof.
  intros (files & inMemory & archived & bl & ρ & h & db & last & saved & state & u & Hmod & Hseq & (σ & H0 & Hl) &
    Hhash & HA & Hwork & Hdb & Hwf & Hrun).
  assert (is_u32 (lh_ledgerSeq lastClosed)) as Hu by (unfold is_u32; lia).
  destruct (ApplyBucketsWork_Ok bucketHash zeroHash files σ _ _ archived HA H0 (proj1 Hseq) Hu Hl
    inMemory (lh_ledgerVersion lastClosed) (Z.le_refl _)) as (bl' & ρ' & Hwork' & Hρ & Heq).
  rewrite Hwork in Hwork'. injection Hwork' as <- <-.
  pose proof (setLastClosedLedger_run lastClosed
    (mkLedgerManager (mkStack [] (mkRoot h db false ∅)) bl last saved state) (stack_ok_init _ _ _ Hwf) eq_refl) as Hs.
  rewrite Hrun in Hs. destruct Hs as (Hst & Hlv & Hh & Hk & Hbl & Hlc & Hps). simpl in Hk, Hbl, Hps.
  split; [done|]. exists σ. split; rewrite ?Hh, ?Hbl; try done.
  - by eapply list_at_equiv.
  - intros k. by rewrite Hk, Hdb, Hρ.
  - by rewrite Hps, Hlc.
  - rewrite Hhash. by apply hash_equiv.
Qed.

(** With what is known of the level that the client leaves. *)
Lemma closeLedger_leaves (Q : Level → Prop) m σ data :
  node_ok m σ → lh_ledgerSeq (mLastClosedLedger m).1 < UINT32_MAX → close_ok m data →
  ends (closeClient (mLastClosedLedger m).2 data) (absStack (lm_stack m)) (λ _ st', ∀ l, s_levels st' = [l] → Q l) →
  match closeLedger data m with
  | Ok (_, m') => (∃ σ', node_ok m' σ') ∧ lh_ledgerSeq (header m') = lh_ledgerSeq (header m) + 1 ∧
      lh_ledgerVersion (header m) ≤ lh_ledgerVersion (header m') ∧
      lh_previousLedgerHash (header m') = (mLastClosedLedger m).2 ∧
      lh_scpValue (header m') = lcd_value data ∧ ∃ l, Q l ∧ leaves l m'
  | Throw e => ((∃ what, e = RuntimeError what) ∨ raises (closeClient (mLastClosedLedger m).2 data) e) ∨
               ∃ h, headerHash h = zeroHash
  end.
Proof.
  intros Hm Hmax [Htx Hok] HQ. unfold closeLedger. rewrite bind_gets, bind_eq. set (h := header m).
  assert (absStack (lm_stack m) = mkSpecStack [] (db_view (database m)) h) as Habs.
  { unfold absStack. by rewrite (no_levels _ _ Hm). }
  rewrite Habs in Hok, HQ.
  pose proof (onLedger_run _ m _ _ (no_stack _ _ Hm) Habs Hok (ends_and _ _ _ _ (closeClient_ends sha256 xdr_results decode
    LEDGER_PROTOCOL_VERSION MODE_STORES_HISTORY tame_prepareLiabilities _ data _ h Htx (no_modern _ _ Hm)) HQ)) as Hrun.
  destruct (onLedger (closeClient _ data) m) as [[u m1]|e]; [|by left].
  destruct Hrun as (st & -> & Hst & (l & Habs1 & Hs & Hseq & Hprev & Hval & Hver) & HQl).
  specialize (HQl l (f_equal s_levels Habs1)). pose proof (no_seq _ _ Hm) as Hn. fold h in Hn.
  rewrite (no_last _ _ Hm) in Hmax. simpl in Hmax. fold h in Hmax. rewrite u32_id in Hseq by (split; lia).
  assert (∀ k, root_db (base st) !! k = σ (lh_ledgerSeq h) k) as Hdb.
  { intros k. unfold h. rewrite <- (no_db _ _ Hm). apply db_view_lookup. exact (f_equal s_view Habs1). }
  pose proof (ledgerClosed_step (set_lm_stack st m) σ (lh_ledgerSeq h) l Hst (f_equal s_levels Habs1) Hs (no_zero _ _ Hm)
    ltac:(lia) ltac:(lia) ltac:(etrans; [apply (no_modern _ _ Hm)|exact Hver])
    (list_at_mono _ _ _ _ _ Hver (no_buckets _ _ Hm)) Hdb Hseq) as Hclose.
  match goal with |- match ?x with _ => _ end => destruct x as [[u' m']|e] end.
  - destruct Hclose as (Hok' & -> & -> & -> & -> & Hl). split_and!; try done. eauto.
  - destruct Hclose as [?|?]; [by do 2 left|by right].
Qed.

Lemma closeLedger_run m σ data :
  node_ok m σ → lh_ledgerSeq (mLastClosedLedger m).1 < UINT32_MAX → close_ok m data →
  match closeLedger data m with
  | Ok (_, m') => (∃ σ', node_ok m' σ') ∧ lh_ledgerSeq (header m') = lh_ledgerSeq (header m) + 1 ∧
      lh_ledgerVersion (header m) ≤ lh_ledgerVersion (header m') ∧
      lh_previousLedgerHash (header m') = (mLastClosedLedger m).2 ∧ lh_scpValue (header m') = lcd_value data
  | Throw e => ((∃ what, e = RuntimeError what) ∨ raises (closeClient (mLastClosedLedger m).2 data) e) ∨
               ∃ h, headerHash h = zeroHash
  end.
Proof.
  intros Hm Hmax Hok. assert (ends (closeClient (mLastClosedLedger m).2 data) (absStack (lm_stack m))
    (λ _ st', ∀ l, s_levels st' = [l] → True)) as HQ by (unfold ends; by destruct (specRun _ _) as [[]|]).
  pose proof (closeLedger_leaves _ m σ data Hm Hmax Hok HQ) as Hrun.
  destruct (closeLedger data m) as [[u m']|e]; [|done]. by destruct Hrun as (? & ? & ? & ? & ? & _).
Qed.

Lemma node_ok_setState s m σ : node_ok m σ → node_ok (setState s m) σ.
Proof. intros []. by split. Qed.

Lemma valueExternalized_run m σ initialized done buffered data :
  node_ok m σ → lh_ledgerSeq (mLastClosedLedger m).1 < UINT32_MAX → close_ok m data →
  match valueExternalized initialized done buffered data m with
  | Ok (_, m') => ∃ σ', node_ok m' σ'
  | Throw _ => True
  end.
Proof.
  intros Hm Hmax Hok. unfold valueExternalized, closeLedgerIf. rewrite M_bind_assoc, bind_gets.
  assert (∀ m' σ', node_ok m' σ' →
    match (if buffered then mret tt else modify (setState LM_SYNCED_STATE)) m' with
    | Ok (_, m'') => ∃ σ', node_ok m'' σ'
    | Throw _ => True
    end) as Hlast.
  { intros m' σ' Hm'. destruct buffered; [by exists σ'|]. exists σ'. by apply node_ok_setState. }
  destruct (u32 _ =? _); [|destruct (_ <=? _)].
  - destruct (initialized && negb done); [by apply (Hlast m σ)|]. rewrite bind_eq. pose proof (closeLedger_run m σ data Hm Hmax Hok) as Hc.
    destruct (closeLedger data m) as [[u m']|e]; [|done]. destruct Hc as ([σ' Hm'] & _). by eapply Hlast.
  - by apply (Hlast m σ).
  - rewrite bind_modify. by eapply Hlast, node_ok_setState.
Qed.

Lemma reachable_ok m : reachable m → ∃ σ, node_ok m σ.
Proof.
  induction 1 as [h last rootAccount genesis u m HP Hseq Hrun|lastClosed m Hm|m i d bf data u m' _ [σ Hm] Hmax Hok Hrun].
  - pose proof (start_run h last rootAccount genesis HP Hseq) as Hs. rewrite Hrun in Hs. apply Hs.
  - by eapply caught_up_ok.
  - pose proof (valueExternalized_run m σ i d bf data Hm Hmax Hok) as Hs. by rewrite Hrun in Hs.
Qed.

(** *** What closing a ledger can throw *)














(** ** The theorems *)

(** C3: take any node that started a network of protocol 12 or later, or caught up with
    a network from an archive whose buckets are all of protocol 12 or later, and
    then closed ledgers for the values the network externalized.  For every key its
    database has the entry that the newest record of the bucket list has for it, the
    buckets hold the ledgers that the size computation gives them, and the header
    that was closed last has the hash of the bucket list. *)
Theorem node_in_step m :
  reachable m →
  (∀ k, database m !! k = storedEntry (mBucketList m) k) ∧
  sound_list (lh_ledgerVersion (mLastClosedLedger m).1) (lh_ledgerSeq (mLastClosedLedger m).1) (mBucketList m) ∧
  header m = (mLastClosedLedger m).1 ∧ (mLastClosedLedger m).2 = headerHash (mLastClosedLedger m).1 ∧
  lh_bucketListHash (mLastClosedLedger m).1 = BucketList_getHash sha256 bucketHash (mBucketList m).
Proof.
  intros [σ Hm]%reachable_ok. rewrite (no_last _ _ Hm). simpl. split_and!; [| |done|done|by apply Hm].
  - intros k. rewrite (stored_at σ _ _ _ _ (no_zero _ _ Hm) (no_buckets _ _ Hm)). by apply Hm.
  - exists σ. split; [apply (no_zero _ _ Hm)|apply (no_buckets _ _ Hm)].
Qed.


(** C9: the state that a [reachable] node saved when it closed its last ledger is enough to
    rebuild it: published, with the buckets in an archive, it lets a new node apply
    the buckets to its empty database without an error, and the new database is that
    of the first node. *)
Theorem catchup_restores_database m files inMemory maxv :
  reachable m → Archived bucketHash zeroHash files (mBucketList m) →
  lh_ledgerVersion (mLastClosedLedger m).1 ≤ maxv →
  ∃ saved has bl ρ,
    mPersistentState m = Some ((mLastClosedLedger m).2, saved) ∧
    prepareForPublish zeroHash files (published bucketHash zeroHash saved) = Ok has ∧
    ApplyBucketsWork bucketHash zeroHash files inMemory maxv (published bucketHash zeroHash has) emptyList (λ _, None)
    = Ok (Some (bl, ρ)) ∧
    ∀ k, ρ k = database m !! k.
Proof.
  intros [σ Hm]%reachable_ok HA Hmaxv. pose proof (no_seq _ _ Hm) as Hn. rewrite (no_last _ _ Hm) in Hmaxv. simpl in Hmaxv.
  set (n := lh_ledgerSeq (header m)) in *. assert (is_u32 n) as Hu by (unfold is_u32; lia).
  exists (stateOf bucketHash zeroHash n (mBucketList m)), (archive bucketHash zeroHash n (mBucketList m)).
  destruct (ApplyBucketsWork_Ok bucketHash zeroHash files σ _ n (mBucketList m) HA
    (no_zero _ _ Hm) (proj1 Hn) Hu (no_buckets _ _ Hm) inMemory maxv Hmaxv) as (bl & ρ & Hwork & Hρ & _).
  exists bl, ρ. rewrite published_archive. split_and!; [by apply Hm| |done|].
  - by apply (prepareForPublish_Ok bucketHash zeroHash files σ _ _ _ HA (no_buckets _ _ Hm)).
  - intros k. by rewrite Hρ, (no_db _ _ Hm).
Qed.
End node.

(** A new network and its second ledger, with one transaction that pays a fee and
    stores a data entry. *)
Module NodeExample.
Definition root : AccountID := [1].
Definition sha256 (bytes : list Z) : list Z := 1 :: bytes.
Definition bucketHash (b : list BucketEntry) : list Z := [Z.of_nat (length b)].
Definition xdr_header (h : LedgerHeader) : list Z := [lh_ledgerSeq h].
Definition xdr_results (r : list (list Z * FrameResult)) : list Z := concat r.*1.
Definition decode (u : list Z) : option LedgerUpgrade :=
  match u with [v] => Some (LEDGER_UPGRADE_BASE_FEE v) | _ => None end.
Definition owner (id : Z) : AccountID := [id].

Definition genesis : LedgerHeader :=
  mkLedgerHeader 15 zeroHash (mkDiamnetValue zeroHash 0 [] None) zeroHash zeroHash 1 1000 0 0 0 100 100 100
    (replicate 4 zeroHash).

Definition pay (fee : Z) : Client FrameResult :=
  h ← ask (Load (GLedgerKey (KEY_ACCOUNT root)));
  match h with
  | None => Raise (RuntimeError "no account")
  | Some h =>
      e ← ask (Current h);
      ask (Write h (GLedgerEntry (rootEntry root (1000 - fee))));;
      ask (Deactivate h);;
      mret (TxResult (mkTransactionResult fee txSUCCESS []))
  end.

Definition entry : LedgerEntry := mkLedgerEntry 0 (DATA (mkData root [5] [6])) None.

Definition store (frame : FrameResult) : Client FrameResult :=
  h ← ask (Create (GLedgerEntry entry));
  ask (Deactivate h);;
  mret frame.

Definition data : LedgerCloseData :=
  mkLedgerCloseData 2 (mkDiamnetValue [7] 5 [[200]] None) [1; 1] [7]
    [mkTransaction [3] (λ fee, pay fee) store] lh_baseFee.

Definition start := startNewLedger sha256 bucketHash xdr_header true false (λ _ _, true).
Definition external :=
  valueExternalized sha256 bucketHash xdr_header xdr_results decode 15 true true false (λ _ _, true).

Definition empty : LedgerManagerImpl := freshNode genesis (genesis, []).
Definition node1 : LedgerManagerImpl := match start root genesis empty with Ok (_, m) => m | Throw _ => empty end.
Definition node2 : LedgerManagerImpl :=
  match external false false false data node1 with Ok (_, m) => m | Throw _ => empty end.

Definition reach := reachable owner sha256 bucketHash xdr_header xdr_results decode 15 true false (λ _ _, true).

Lemma txs_tame : Forall tame_tx (lcd_txs data).
Proof.
  constructor; [|constructor]. split; [intros fee|intros frame]; simpl; unfold pay, store; solve_tame.
Qed.

Lemma node1_reachable : reach node1.
Proof.
  apply (reachable_start _ _ _ _ _ _ _ _ _ _ genesis (genesis, []) root genesis tt).
  - vm_compute. discriminate.
  - reflexivity.
  - vm_compute. reflexivity.
Qed.

Lemma data_ok :
  close_ok owner sha256 xdr_results decode 15 true node1 data.
Proof.
  split; [apply txs_tame|]. vm_compute. repeat split.
Qed.

Lemma node2_reachable : reach node2.
Proof.
  apply (reachable_value _ _ _ _ _ _ _ _ _ _ node1 false false false data tt).
  - apply node1_reachable.
  - vm_compute. reflexivity.
  - apply data_ok.
  - vm_compute. reflexivity.
Qed.

Definition files (h : list Z) : option Bucket :=
  snd <$> list_find (λ b, bucketHash b = h) (l ← mBucketList node2; [mCurr l; mSnap l]).

Definition in_files (b : Bucket) : bool := bool_decide (b = [] ∨ files (bucketHash b) = Some b).

Lemma node1_archived : Archived bucketHash zeroHash files (mBucketList node2).
Proof.
  assert (forallb (λ L, in_files (mCurr L) && in_files (mSnap L)) (mBucketList node2) = true) as Hall
    by (vm_compute; reflexivity).
  split; [by intros [|? ?]|]. intros L b HL Hb Hne. rewrite forallb_forall in Hall.
  apply list_elem_of_In, Hall, andb_true_iff in HL as [Hc Hs].
  unfold in_files in *. rewrite bool_decide_eq_true in *. destruct Hb as [->| ->].
  - destruct Hc as [Hc|Hc]; [exfalso; exact (Hne Hc)|exact Hc].
  - destruct Hs as [Hs|Hs]; [exfalso; exact (Hne Hs)|exact Hs].
Qed.

(** A third node that catches up with the second. *)
Lemma node3_caught_up :
  ∃ m, caught_up owner sha256 bucketHash xdr_header (mLastClosedLedger node2).1 m.
Proof.
  destruct (reachable_ok _ _ _ _ _ _ _ _ _ _ _ node2_reachable) as [σ Hm].
  assert (root_mHeader (base (lm_stack node2)) = (mLastClosedLedger node2).1) as Hh by (vm_compute; reflexivity).
  pose proof (no_buckets _ _ _ _ _ _ Hm) as Hl. pose proof (no_db _ _ _ _ _ _ Hm) as Hdb. rewrite Hh in Hl, Hdb.
  pose proof (no_seq _ _ _ _ _ _ Hm) as Hn. pose proof (no_modern _ _ _ _ _ _ Hm) as Hv. rewrite Hh in Hn, Hv.
  assert (is_u32 (lh_ledgerSeq (mLastClosedLedger node2).1)) as Hu by (unfold is_u32; lia).
  destruct (ApplyBucketsWork_Ok bucketHash zeroHash files σ _ _ _ node1_archived (no_zero _ _ _ _ _ _ Hm) (proj1 Hn) Hu Hl
    false _ (Z.le_refl _)) as (bl & ρ & Hwork & Hρ & Heq).
  set (joined := mkLedgerManager (mkStack [] (mkRoot genesis (root_db (base (lm_stack node2))) false ∅)) bl (genesis, [])
    None LM_CATCHING_UP_STATE).
  assert (match setLastClosedLedger sha256 bucketHash xdr_header true (mLastClosedLedger node2).1 joined with
          | Ok _ => True | Throw _ => False end) as Hset by (vm_compute; exact I).
  destruct (setLastClosedLedger _ _ _ _ _ joined) as [[u m]|e] eqn:Hrun; [|destruct Hset].
  exists m, files, false, (mBucketList node2), bl, ρ, genesis, (root_db (base (lm_stack node2))), (genesis, []), None,
    LM_CATCHING_UP_STATE, u.
  split; [exact Hv|]. split; [exact Hn|]. split; [exists σ; split; [apply (no_zero _ _ _ _ _ _ Hm)|exact Hl]|].
  split; [vm_compute; reflexivity|]. split; [apply node1_archived|]. split; [exact Hwork|].
  split; [intros k; by rewrite Hdb, Hρ|]. split; [apply (no_stack _ _ _ _ _ _ Hm)|exact Hrun].
Qed.

Lemma node3_reachable : ∃ m, reach m ∧ root_mHeader (base (lm_stack m)) = (mLastClosedLedger node2).1.
Proof.
  destruct node3_caught_up as [m Hm]. exists m. split; [by eapply reachable_catchup|].
  by destruct (caught_up_ok _ _ _ _ decode 15 (λ _ _, true) _ _ Hm).
Qed.
End NodeExample.

Lemma node_in_step_witness :
  (storedEntry (mBucketList NodeExample.node2) (KEY_DATA NodeExample.root [5]) =
     Some (mkLedgerEntry 2 (entry_data NodeExample.entry) None)) ∧
  ∃ m, NodeExample.reach m ∧ lh_ledgerSeq (root_mHeader (base (lm_stack m))) = 2 ∧
    ∀ k, root_db (base (lm_stack m)) !! k = storedEntry (mBucketList m) k.
Proof.
  split.
  - destruct (node_in_step NodeExample.owner NodeExample.sha256 NodeExample.bucketHash NodeExample.xdr_header
      NodeExample.xdr_results NodeExample.decode 15 true false (λ _ _, true)
      NodeExample.node2 NodeExample.node2_reachable) as (Hdb & _).
    rewrite <- Hdb. vm_compute. reflexivity.
  - destruct NodeExample.node3_reachable as (m & Hm & Hh). exists m. split; [exact Hm|].
    split; [rewrite Hh; vm_compute; reflexivity|].
    apply (node_in_step NodeExample.owner NodeExample.sha256 NodeExample.bucketHash NodeExample.xdr_header
      NodeExample.xdr_results NodeExample.decode 15 true false (λ _ _, true) m Hm).
Defined.


Lemma catchup_restores_database_witness :
  ∃ saved has levels ρ,
    mPersistentState NodeExample.node2 = Some ((mLastClosedLedger NodeExample.node2).2, saved) ∧
    prepareForPublish zeroHash NodeExample.files (published NodeExample.bucketHash zeroHash saved) = Ok has ∧
    ApplyBucketsWork NodeExample.bucketHash zeroHash NodeExample.files false 15
      (published NodeExample.bucketHash zeroHash has) emptyList (λ _, None) = Ok (Some (levels, ρ)) ∧
    ρ (KEY_DATA NodeExample.root [5]) = Some (mkLedgerEntry 2 (entry_data NodeExample.entry) None).
Proof.
  destruct (catchup_restores_database NodeExample.owner NodeExample.sha256 NodeExample.bucketHash
    NodeExample.xdr_header NodeExample.xdr_results NodeExample.decode 15 true false (λ _ _, true)
    NodeExample.node2 NodeExample.files false 15 NodeExample.node2_reachable)
    as (saved & has & levels & ρ & Hs & Hp & Hw & Hρ).
  - apply NodeExample.node1_archived.
  - vm_compute. discriminate.
  - exists saved, has, levels, ρ. split; [exact Hs|]. split; [exact Hp|]. split; [exact Hw|].
    rewrite Hρ. vm_compute. reflexivity.
Defined.
