(* ===== verification/Conservation.v ===== *)
(** * The lumens of the ledger add up

    The lumens of accounts and claimable balances, and the fee pool, add up to the
    coins in the header.  From protocol 12 on this is kept by every transaction, by
    the fees, by the upgrades, and so by every ledger that is closed. *)

From S2P Require Import Prelude StateMonad Numeric LedgerEntries GeneralizedEntries Accounts LedgerTxn LedgerTxnSpec LedgerTxnRefine LedgerClient.
From S2P Require Import ClientProps ClientLogic Lumens Sponsorship TrustLines SponsorshipProps LumenMoves OperationTypes SignatureChecker OperationBase CalmOps AccountOps PaymentMoves.
From S2P Require Import Bucket Transactions TransactionMoves PrepareLiabilities PrepareLiabilitiesProps Upgrades LedgerManager LedgerTxnRoot LedgerTxnRootProps LedgerManagerProps.

(** ** The books *)

Record balanced (l : Level) : Prop := {
  bal_sound : sound (v_view l);
  bal_pool : 0 ≤ lh_feePool (v_header l);
  bal_total : coins (v_view l) + lh_feePool (v_header l) = lh_totalCoins (v_header l);
  bal_bound : lh_totalCoins (v_header l) ≤ INT64_MAX
}.

Lemma coins_nonneg σ : sound σ → 0 ≤ coins σ.
Proof.
  induction σ as [|k e σ Hk IH] using map_ind; intros Hs; [by rewrite coins_empty|].
  rewrite coins_insert_fresh by done. destruct (Hs k e) as [_ He]; [by rewrite lookup_insert_eq|].
  assert (sound σ) as Hσ.
  { intros k' e' He'. apply Hs. rewrite lookup_insert_ne; [done|]. by intros <-; rewrite Hk in He'. }
  specialize (IH Hσ). lia.
Qed.

(** No entry has more than all of them. *)
Lemma lumens_at_coins σ k : sound σ → lumens_at σ k ≤ coins σ.
Proof.
  intros Hs. pose proof (coins_delete σ k). pose proof (coins_nonneg (delete k σ) (sound_delete _ _ Hs)). lia.
Qed.

(** The coins stay and the version grows. *)
Definition forward (h h' : LedgerHeader) : Prop :=
  lh_ledgerVersion h ≤ lh_ledgerVersion h' ∧ lh_totalCoins h' = lh_totalCoins h.

#[export] Instance forward_preorder : PreOrder forward.
Proof. split; [done|]. intros h1 h2 h3 [] []. split; [lia|congruence]. Qed.
#[export] Instance forward_grows : Grows forward.
Proof. by intros h h' []. Qed.

(** What a transaction changes of the header: the fee pool and the numbers. *)
Definition banked (h h' : LedgerHeader) : Prop := ∃ ids pool, h' = set_feePool pool (set_idPool ids h).

#[export] Instance banked_preorder : PreOrder banked.
Proof.
  split; [intros h; exists (lh_idPool h), (lh_feePool h); by destruct h|].
  intros h1 h2 h3 (ids & pool & ->) (ids' & pool' & ->). by exists ids', pool'.
Qed.
#[export] Instance banked_grows : Grows banked.
Proof. by intros h h' (ids & pool & ->). Qed.

Lemma balanced_moved l l' : moved 0 l l' → balanced l → balanced l'.
Proof.
  intros [[ids Hh] Hm] [Hs Hp Ht Hb]. destruct (Hm Hs) as [Hs' Hc].
  split; rewrite ?Hh; simpl; [done|done|lia|done].
Qed.

Lemma balanced_same l l' : same_view l l' → balanced l → balanced l'.
Proof. intros H. by apply balanced_moved, moved_quiet, quiet_same. Qed.

(** ** Clients that keep the books *)

Definition onward (R : LedgerHeader → LedgerHeader → Prop) (l l' : Level) : Prop :=
  R (v_header l) (v_header l') ∧ (balanced l → balanced l').

#[export] Instance onward_preorder R : PreOrder R → PreOrder (onward R).
Proof. intros HR. split; [done|]. intros l1 l2 l3 [H1 ?] [H2 ?]. split; [by etrans|auto]. Qed.

Lemma onward_quiet l l' : quiet l l' → onward banked l l'.
Proof.
  intros Hq. split; [|by apply balanced_moved, moved_quiet]. destruct Hq as [[ids ->] _].
  by exists ids, (lh_feePool (v_header l)).
Qed.

Definition books (R : LedgerHeader → LedgerHeader → Prop) {A} (c : Client A) : Prop :=
  ∀ l, modern (v_header l) → lwp c (λ _, onward R l) l.

Section books.
Context (R : LedgerHeader → LedgerHeader → Prop) `{!PreOrder R, !Grows R}.

Lemma books_ret {A} (a : A) : books R (mret a).
Proof. intros l _. by apply lwp_ret. Qed.

Lemma books_raise {A} e : books R (Raise (A:=A) e).
Proof. intros l _. apply lwp_raise. Qed.

Lemma books_bind {A B} (c : Client A) (k : A → Client B) : books R c → (∀ a, books R (k a)) → books R (c ≫= k).
Proof.
  intros Hc Hk l Hl. apply lwp_bind. eapply lwp_mono; [|by apply Hc]. intros a l1 H1. pose proof (proj1 H1) as HR1.
  eapply lwp_mono; [|apply Hk; etrans; [exact Hl|exact (grows _ _ HR1)]]. intros b l2 H2. cbv beta in *. by etrans.
Qed.

Lemma books_forTxs {A B} (f : A → Client B) xs : Forall (λ x, books R (f x)) xs → books R (forTxs f xs).
Proof.
  induction 1 as [|x xs Hx _ IH]; cbn [forTxs]; [apply books_ret|].
  apply books_bind; [done|intros b]. apply books_bind; [done|]. intros bs. apply books_ret.
Qed.

Lemma books_readHeader : books R readHeader.
Proof. intros l _. apply lwp_readHeader. intros l' Hl'. split; [by destruct Hl' as [_ ->]|by apply balanced_same]. Qed.

Lemma lwp_nested_onward {A} (c : Client (bool * A)) l :
  (let n := spec_newLevel (v_view l) (v_header l) true in swp c (λ _, onward R n) n) → lwp (nested c) (λ _, onward R l) l.
Proof.
  intros Hc. apply lwp_nested_sealing. eapply swp_mono; [|exact Hc].
  intros [b a] l1 [HR Hb] l' Hv Hh. cbn [fst snd] in *. unfold onward. rewrite Hh. destruct b; (split; [done|]); intros Hbal.
  - apply (balanced_moved l1); [|apply Hb; by destruct Hbal]. apply moved_quiet. etrans; [apply quiet_seal|by apply quiet_same].
  - by apply (balanced_same l).
Qed.

Lemma swp_changes {B} (b : B) l l1 :
  onward R l l1 → swp (_ ← ask GetChanges; mret (true, b)) (λ _, onward R l) l1.
Proof.
  intros [HR Hb]. apply swp_bind, swp_getChanges. intros d ls σ h. apply ends_ret. eexists. split; [done|].
  split; [done|]. intros Hbal. apply (balanced_moved l1); [by apply moved_quiet, quiet_seal|auto].
Qed.

(** A level that is sealed by asking for its changes. *)
Lemma books_changes {A} (c : Client A) :
  books R c → books R (nested (a ← c; _ ← ask GetChanges; mret (true, a))).
Proof.
  intros Hc l Hl. apply lwp_nested_onward. cbv zeta. apply swp_lwp_bind; [done|]. eapply lwp_mono; [|by apply Hc].
  intros a l1 H1 _. by apply swp_changes.
Qed.
End books.

Lemma books_mono (R R' : LedgerHeader → LedgerHeader → Prop) {A} (c : Client A) :
  (∀ h h', R h h' → R' h h') → books R c → books R' c.
Proof. intros HR Hc l Hl. eapply lwp_mono; [|by apply Hc]. intros a l' [? ?]. split; auto. Qed.

Lemma banked_forward h h' : banked h h' → forward h h'.
Proof. by intros (ids & pool & ->). Qed.

Lemma books_moves {A} (c : Client A) : (∀ V, 12 ≤ V → moves V c (λ _ δ, δ = 0)) → books banked c.
Proof.
  intros Hc l Hl. eapply lwp_mono; [|by eapply (Hc _ Hl)]. intros a l' (δ & -> & Hm).
  split; [|by apply balanced_moved]. destruct Hm as [[ids ->] _]. exists ids, (lh_feePool (v_header l)). done.
Qed.

Lemma books_tame {A} (c : Client A) : books banked c → tame c.
Proof.
  intros Hc l ls σ h Hs Hm. eapply ends_mono; [|by apply (Hc l)].
  intros a st' (l' & -> & Hs' & (ids & pool & Hh) & _). exists l'. split_and!; [done|done|]. rewrite Hh. by repeat eexists.
Qed.

(** ** Fees *)

Lemma takeFee_Ok fee acc :
  0 ≤ fee ≤ acc_balance acc → acc_balance acc ≤ INT64_MAX → takeFee fee acc = Ok (set_acc_balance (acc_balance acc - fee) acc).
Proof.
  intros Hfee Hmax. unfold takeFee. rewrite addBalance_spec by lia. rewrite bool_decide_true by lia. done.
Qed.

Lemma lwp_payFee header h id le acc fee l :
  on_key (accountKey id) h → v_view l !! accountKey id = Some (GLedgerEntry le) → entry_data le = ACCOUNT acc →
  lwp (payFee header h acc fee) (λ _, onward banked l) l.
Proof.
  intros Hk Hle Hacc. unfold payFee. destruct (Z.ltb_spec 0 fee) as [Hfee|]; [|by apply lwp_ret]. cbv zeta.
  set (paid_ := acc_balance acc `min` fee). apply lwp_bind, lwp_lift. intros acc' Hacc'.
  apply lwp_bind, lwp_bind, lwp_current. intros h' le' -> Hle'.
  simpl in Hk. rewrite Hk, Hle in Hle'. injection Hle' as <-. apply lwp_bind, lwp_lift. unfold on_account, data_account. rewrite Hacc.
  intros le' [= <-]. apply lwp_assign. intros h1 l1 [= <-] Hv1 Hh1. rewrite Hk in Hv1.
  apply lwp_bind, lwp_currentHeader, lwp_bind, lwp_writeHeader. intros l2 Hv2 Hh2. apply lwp_ret. unfold onward. rewrite Hh2, Hh1.
  split; [by exists (lh_idPool (v_header l)), (i64 (lh_feePool (v_header l) + paid_))|]. intros [Hs Hp Ht Hb].
  destruct (Hs _ _ Hle) as [Hkey Hpos]. pose proof (lumens_at_coins _ (accountKey id) Hs) as Hc.
  assert (lumens_at (v_view l) (accountKey id) = acc_balance acc) as Hat.
  { unfold lumens_at. rewrite Hle. simpl. unfold lumens_of. by rewrite Hacc. }
  simpl in Hpos. unfold lumens_of in Hpos. rewrite Hacc in Hpos. rewrite Hat in Hc.
  assert (0 ≤ paid_ ≤ acc_balance acc) as Hpaid by lia. rewrite takeFee_Ok in Hacc' by lia. injection Hacc' as <-.
  assert (is_i64 (lh_feePool (v_header l) + paid_)) as Hi by (unfold is_i64, INT64_MIN, INT64_MAX in *; lia).
  split; rewrite ?Hh2, ?Hv2, ?Hh1, ?Hv1; simpl; rewrite ?i64_id by done; [|lia| |done].
  - apply sound_insert; [done| |change (0 ≤ acc_balance acc - paid_); lia]. rewrite <- Hkey. simpl. unfold LedgerEntryKey. by rewrite Hacc.
  - rewrite coins_insert, Hat. change (lumens _) with (acc_balance acc - paid_). lia.
Qed.

(** ** Transactions *)

Section transactions.
Context (sha256 : list Z → list Z) (verifySig : list Z → list Z → list Z → bool).
Context (hashContents : TransactionEnvelope → list Z) (hash_order : list AccountID → list AccountID).
Context (loadCached : TransactionFrame → AccountID → Client Handle) (operationHash : MuxedAccount → Z → Z → list Z).
Context (queryInflationWinners : Z → Z → Client (list Inflation.InflationWinner)).
Context (invariantsHold : Operation → OperationResult → LedgerTxnDelta → bool).
Context (fuel : nat) (hashFeeBump : FeeBumpTransactionFrame → list Z).

Lemma modern_same l l' : same_view l l' → modern (v_header l) → modern (v_header l').
Proof. by intros [_ ->]. Qed.

Lemma onward_same l l' : same_view l l' → onward banked l l'.
Proof. intros H. by apply onward_quiet, quiet_same. Qed.

(** The account of a handle pays. *)
Lemma lwp_payFeeOf {A} header h id fee (k : Z → Client A) l :
  on_key (accountKey id) h → (∀ fee', books banked (k fee')) → modern (v_header l) →
  lwp (acc ← currentAccount h; fee' ← payFee header h acc fee; k fee') (λ _, onward banked l) l.
Proof.
  intros Hk Hc Hl. apply lwp_bind, lwp_bind, lwp_current. intros h' le -> Hle. apply lwp_lift. intros acc Hacc%data_account_Ok.
  simpl in Hk. rewrite Hk in Hle. apply lwp_bind. eapply lwp_mono; [|by eapply lwp_payFee]. intros fee' l1 H1.
  eapply lwp_mono; [|apply Hc; etrans; [exact Hl|exact (grows _ _ (proj1 H1))]]. intros a l2 H2. cbv beta in *. by etrans.
Qed.

Lemma books_processFeeSeqNum f baseFee : books banked (processFeeSeqNum loadCached operationHash f baseFee).
Proof.
  intros l Hl. apply lwp_withHeader. intros header l1 H1. apply lwp_bind, lwp_currentHeader. cbv zeta. apply lwp_withEntry.
  pose proof (modern_same _ _ H1 Hl) as Hl1.
  eapply lwp_mono; [|by apply (calm_loadSourceAccount loadCached operationHash f l1 Hl1 header l1)].
  intros h l2 [Hq2 Hk]. destruct h as [h|]; [|apply lwp_raise].
  assert (modern (v_header l2)) as Hl2 by (by destruct Hq2 as [[ids ->] _]).
  eapply lwp_mono; [|eapply lwp_payFeeOf; [exact Hk| |done]].
  - intros r l3 H3 l4 H4 l5 H5. etrans; [by apply onward_same|]. etrans; [by apply onward_quiet|].
    etrans; [exact H3|]. apply onward_same. by etrans.
  - intros fee' l3 Hl3. apply lwp_bind, lwp_currentHeader. rewrite (proj2 (Z.leb_gt _ _)) by (unfold FIRST_PROTOCOL_SHADOWS_REMOVED in *; lia).
    apply lwp_bind, lwp_ret. by apply lwp_ret.
Qed.

Lemma books_fb_processFeeSeqNum b baseFee : books banked (fb_processFeeSeqNum b baseFee).
Proof.
  intros l Hl. apply lwp_bind, lwp_readHeader. intros l1 H1. pose proof (modern_same _ _ H1 Hl) as Hl1. unfold fb_resetResults.
  apply lwp_withEntry. eapply lwp_mono; [|by apply (calm_load l1 _ l1)]. intros h l2 [Hq2 Hk]. destruct h as [h|]; [|apply lwp_raise].
  assert (modern (v_header l2)) as Hl2 by (by destruct Hq2 as [[ids ->] _]).
  apply lwp_bind, lwp_bind, lwp_current. intros h' le [= <-] Hle. apply lwp_lift. intros acc Hacc%data_account_Ok.
  apply lwp_withHeader. intros header l3 H3. apply lwp_bind. simpl in Hk. rewrite Hk in Hle. rewrite <- (proj1 H3) in Hle.
  eapply lwp_mono; [|by eapply lwp_payFee]. intros fee l4 H4. apply lwp_ret. intros l5 H5 l6 H6.
  etrans; [by apply onward_same|]. etrans; [by apply onward_quiet|]. etrans; [by apply onward_same|].
  etrans; [exact H4|]. apply onward_same. by etrans.
Qed.

Notation fromWire := (fromWire sha256 verifySig hashContents hash_order loadCached operationHash queryInflationWinners
  invariantsHold fuel hashFeeBump).

(** What the ledger manager asks of a transaction. *)
Lemma books_transaction env :
  (∀ baseFee, books banked (tx_processFeeSeqNum (fromWire env) baseFee)) ∧
  ∀ frame, books banked (tx_apply (fromWire env) frame).
Proof.
  unfold Transactions.fromWire. destruct (makeTransactionFromWire env) as [f|b]; (split; [intros baseFee|intros frame]);
    cbn [tx_processFeeSeqNum tx_apply txBase feeBumpBase].
  - apply books_bind; [apply _|apply _|apply books_processFeeSeqNum|]. intros r. apply books_ret, _.
  - destruct frame; [|apply books_raise]. apply books_bind; [apply _|apply _| |intros []; apply books_ret, _].
    apply books_moves. intros V HV. by apply moves_transaction.
  - apply books_bind; [apply _|apply _|apply books_fb_processFeeSeqNum|]. intros []. apply books_ret, _.
  - destruct frame; [apply books_raise|]. apply books_bind; [apply _|apply _| |intros [? []]; apply books_ret, _].
    apply books_moves. intros V HV. by apply moves_feeBump.
Qed.

Lemma tame_transaction env : tame_tx (fromWire env).
Proof. destruct (books_transaction env) as [Hf Ha]. split; intros; apply books_tame; auto. Qed.
End transactions.

(** ** Closing a ledger *)

Section closing.
Context (sha256 : list Z → list Z) (xdr_results : list (list Z * FrameResult) → list Z).
Context (decode : list Z → option LedgerUpgrade) (LEDGER_PROTOCOL_VERSION : Z) (MODE_STORES_HISTORY : bool).

(** The transactions of a ledger keep the books. *)
Definition honest (tx : TransactionFrameBase) : Prop :=
  (∀ baseFee, books banked (tx_processFeeSeqNum tx baseFee)) ∧ ∀ frame, books banked (tx_apply tx frame).

Lemma books_processFees txs fee : Forall honest txs → books banked (processFeesSeqNums txs fee).
Proof.
  intros Htx l Hl. apply (lwp_nested_onward banked). cbv zeta. apply swp_lwp; [done|].
  apply (books_bind banked); [apply books_readHeader, _| |done]. intros _.
  apply (books_bind banked); [|intros frames; apply books_ret, _]. apply books_forTxs; [apply _|apply _|].
  eapply txs_impl; [exact Htx|]. intros tx [Hf _]. apply (books_changes banked), Hf.
Qed.

Lemma books_applyTransactions store txs frames :
  Forall honest txs → books banked (applyTransactions store (zip txs frames)).
Proof.
  intros Htx. apply (books_bind banked).
  { case_match; [apply books_ret, _|]. apply (books_bind banked); [apply books_readHeader, _|]. intros _. apply books_ret, _. }
  intros _. apply (books_bind banked).
  - apply books_forTxs; [apply _|apply _|]. eapply frames_impl; [exact Htx|]. intros tx frame [_ Ha].
    apply (books_bind banked); [apply Ha|]. intros r. apply (books_bind banked); [|intros _; apply books_ret, _].
    case_match; [|apply books_ret, _]. apply (books_bind banked); [apply books_readHeader, _|]. intros _. apply books_ret, _.
  - intros results. apply (books_bind banked); [apply books_readHeader, _|]. intros _. apply books_ret, _.
Qed.

(** A header that is written keeps the coins and the pool. *)
Lemma onward_header l l' :
  v_view l' = v_view l → lh_ledgerVersion (v_header l) ≤ lh_ledgerVersion (v_header l') →
  lh_totalCoins (v_header l') = lh_totalCoins (v_header l) → lh_feePool (v_header l') = lh_feePool (v_header l) →
  onward forward l l'.
Proof. intros Hv Hh Ht Hp. split; [by split|]. intros []. split; rewrite ?Hv, ?Ht, ?Hp; done. Qed.

Lemma onward_banked l l' : onward banked l l' → onward forward l l'.
Proof. intros [H ?]. split; [by apply banked_forward|done]. Qed.

Lemma lwp_modifyHeader f l :
  (∀ h, lh_ledgerVersion (f h) = lh_ledgerVersion h ∧ lh_totalCoins (f h) = lh_totalCoins h ∧ lh_feePool (f h) = lh_feePool h) →
  lwp (modifyHeader f) (λ _, onward forward l) l.
Proof.
  intros Hf. apply lwp_bind, lwp_loadHeader. intros id l1 [Hv1 Hh1]. apply lwp_bind, lwp_currentHeader, lwp_bind, lwp_writeHeader.
  intros l2 Hv2 Hh2. apply lwp_deactivateHeader. intros l3 [Hv3 Hh3]. destruct (Hf (v_header l)) as (E1 & E2 & E3).
  apply onward_header; rewrite ?Hv3, ?Hh3, ?Hv2, ?Hh2, ?Hv1, ?Hh1, ?E1; done.
Qed.

(** The header is written, and the offers may be brought in line. *)
Lemma lwp_upgradeHeader (f : LedgerHeader → LedgerHeader) (b : LedgerHeader → bool) l :
  (let h := v_header l in lh_ledgerVersion h ≤ lh_ledgerVersion (f h) ∧ lh_totalCoins (f h) = lh_totalCoins h ∧
     lh_feePool (f h) = lh_feePool h) →
  lwp (id ← ask LoadHeader;
       h ← ask (CurrentHeader id);
       ask (WriteHeader id (f h));;
       (if b h then prepareLiabilities id else mret tt);;
       ask DeactivateHeader) (λ _, onward forward l) l.
Proof.
  intros (E1 & E2 & E3). apply lwp_bind, lwp_loadHeader. intros id l1 [Hv1 Hh1]. apply lwp_bind, lwp_currentHeader, lwp_bind, lwp_writeHeader.
  intros l2 Hv2 Hh2. rewrite Hh1 in Hh2. assert (onward forward l l2) as H2.
  { apply onward_header; rewrite ?Hv2, ?Hh2; done. }
  apply lwp_bind. eapply (lwp_mono _ (λ _ l3, quiet l2 l3)).
  - intros _ l3 H3. apply lwp_deactivateHeader. intros l4 H4. etrans; [exact H2|]. apply onward_banked. etrans; [by apply onward_quiet|].
    by apply onward_same.
  - case_match; [|by apply lwp_ret]. eapply lwp_mono; [|by apply (calm_prepareLiabilities l2 id l2)]. by intros _ l3 [? _].
Qed.

Lemma lwp_applyTo u l :
  match u with LEDGER_UPGRADE_VERSION v => lh_ledgerVersion (v_header l) < v | _ => True end →
  lwp (applyTo u) (λ _, onward forward l) l.
Proof.
  intros Hu. destruct u as [v|v|v|v]; cbn [applyTo].
  - apply (lwp_upgradeHeader (set_ledgerVersion v) (λ h, (10 <=? v) && (lh_ledgerVersion h <? 10))). split; [simpl; lia|done].
  - by apply lwp_modifyHeader.
  - by apply lwp_modifyHeader.
  - by apply (lwp_upgradeHeader (set_baseReserve v) (λ h, (10 <=? lh_ledgerVersion h) && (lh_baseReserve h <? v))).
Qed.

Lemma books_applyUpgrade opaque : books forward (applyUpgrade decode LEDGER_PROTOCOL_VERSION opaque).
Proof.
  intros l Hl. apply lwp_bind, lwp_readHeader. intros l1 H1. unfold isValidForApply. destruct (decode opaque) as [u|]; [|apply lwp_raise].
  match goal with |- context [if ?b then VALID else INVALID] => destruct b eqn:Hvalid end; [|apply lwp_raise].
  assert (onward forward l l1) as Ho by (by apply onward_banked, onward_same). apply lwp_attempt.
  - eapply lwp_mono; [|apply (lwp_nested_onward forward); cbv zeta].
    { intros ? l2 H2. cbv beta in H2. apply lwp_ret. by etrans. }
    apply swp_lwp_bind; [done|]. eapply lwp_mono; [|apply lwp_applyTo].
    + intros ? l2 H2 Hs2. cbv beta in H2. apply swp_lwp_bind; [done|]. apply lwp_readHeader. intros l3 H3 _. apply (swp_changes forward).
      etrans; [exact H2|]. by apply onward_banked, onward_same.
    + destruct u; try done. simpl. rewrite (proj2 H1). by apply andb_true_iff in Hvalid as [_ ?%Z.ltb_lt].
  - intros l2 H2. apply lwp_ret. etrans; [exact Ho|]. by apply onward_banked, onward_same.
Qed.

(** The books of a ledger are those of its first level. *)
Lemma closeClient_books lastHash data σ h :
  Forall honest (lcd_txs data) → modern h → balanced (spec_newLevel σ h true) →
  ends (closeClient sha256 xdr_results decode LEDGER_PROTOCOL_VERSION MODE_STORES_HISTORY lastHash data)
    (mkSpecStack [] σ h) (λ _ st', ∃ l, st' = mkSpecStack [l] σ h ∧ balanced l ∧ forward h (v_header l)).
Proof.
  intros Htx Hm Hbal. apply ends_bind, root_open_ends.
  match goal with |- ends ?c (mkSpecStack [?l0] _ _) _ => assert (lwp c (λ _, onward forward l0) l0) as Hc end.
  2: { eapply ends_mono; [|by apply Hc]. intros _ st' (l & -> & _ & Hf & Hb). exists l. split_and!; [done|by apply Hb|exact Hf]. }
  apply lwp_bind, lwp_loadHeader. intros id l1 [Hv1 Hh1]. apply lwp_bind, lwp_currentHeader, lwp_bind, lwp_writeHeader.
  intros l2 Hv2 Hh2. destruct (_ <? _); [apply lwp_raise|]. destruct (negb _); [apply lwp_raise|]. destruct (negb _); [apply lwp_raise|].
  apply lwp_bind, lwp_currentHeader, lwp_bind, lwp_writeHeader. intros l3 Hv3 Hh3.
  assert (onward forward (spec_newLevel σ h true) l3) as H3.
  { apply onward_header; rewrite ?Hv3, ?Hh3, ?Hv2, ?Hh2, ?Hv1, ?Hh1; done. }
  apply lwp_bind, lwp_currentHeader.
  assert (books forward (frames ← processFeesSeqNums (lcd_txs data) (lcd_baseFee data (v_header l3));
    results ← applyTransactions MODE_STORES_HISTORY (zip (lcd_txs data) frames);
    modifyHeader (set_txSetResultHash (sha256 (xdr_results results)));;
    _ ← forTxs (applyUpgrade decode LEDGER_PROTOCOL_VERSION) (sv_upgrades (lcd_value data)); mret tt)) as Hrest.
  { apply (books_bind forward); [by eapply books_mono, books_processFees; [apply banked_forward|]|]. intros frames.
    apply (books_bind forward); [by eapply books_mono, books_applyTransactions; [apply banked_forward|]|]. intros results.
    apply (books_bind forward); [intros l _; by apply lwp_modifyHeader|]. intros _.
    apply (books_bind forward); [|intros _; apply books_ret, _]. apply (books_forTxs forward), Forall_true.
    intros u. apply books_applyUpgrade. }
  eapply lwp_mono; [|apply Hrest; etrans; [exact Hm|exact (grows _ _ (proj1 H3))]]. intros ? l4 H4. cbv beta in *. by etrans.
Qed.
End closing.

(** ** A network *)

Section network.
Context (owner : Z → AccountID).
Context (sha256 : list Z → list Z) (verifySig : list Z → list Z → list Z → bool).
Context (bucketHash : list BucketEntry → list Z) (xdr_header : LedgerHeader → list Z).
Context (xdr_results : list (list Z * FrameResult) → list Z) (decode : list Z → option LedgerUpgrade).
Context (hashContents : TransactionEnvelope → list Z) (hashFeeBump : FeeBumpTransactionFrame → list Z).
Context (hash_order : list AccountID → list AccountID).
Context (loadCached : TransactionFrame → AccountID → Client Handle) (operationHash : MuxedAccount → Z → Z → list Z).
Context (queryInflationWinners : Z → Z → Client (list Inflation.InflationWinner)).
Context (invariantsHold : Operation → OperationResult → LedgerTxnDelta → bool) (fuel : nat).
Context (LEDGER_PROTOCOL_VERSION : Z) (MODE_STORES_HISTORY pessimize : bool) (ready : Z → nat → bool).

Notation fromWire := (fromWire sha256 verifySig hashContents hash_order loadCached operationHash queryInflationWinners
  invariantsHold fuel hashFeeBump).
Notation closeClient := (closeClient sha256 xdr_results decode LEDGER_PROTOCOL_VERSION MODE_STORES_HISTORY).
Notation closeLedger := (closeLedger sha256 bucketHash xdr_header xdr_results decode LEDGER_PROTOCOL_VERSION
  MODE_STORES_HISTORY true pessimize ready).
Notation startNewLedger := (startNewLedger sha256 bucketHash xdr_header true pessimize ready).
Notation valueExternalized := (valueExternalized sha256 bucketHash xdr_header xdr_results decode LEDGER_PROTOCOL_VERSION
  MODE_STORES_HISTORY true pessimize ready).
Notation node_ok := (node_ok owner sha256 bucketHash xdr_header).
Notation caught_up := (caught_up owner sha256 bucketHash xdr_header).

Definition first_level (m : LedgerManagerImpl) : Level :=
  spec_newLevel (db_view (root_db (base (lm_stack m)))) (root_mHeader (base (lm_stack m))) true.

(** A node of a network that started with [total] lumens in its root account, or that
    caught up with one at a ledger whose books balance, after any number of values
    with transactions in them.  What the transactions store are entries, as in
    [close_ok]. *)
Inductive running (total : Z) : LedgerManagerImpl → Prop :=
| running_start h last rootAccount genesis u m :
    modern genesis → lh_ledgerSeq genesis = 1 → lh_feePool genesis = 0 →
    lh_totalCoins genesis = total → 0 ≤ total ≤ INT64_MAX →
    startNewLedger rootAccount genesis (freshNode h last) = Ok (u, m) → running total m
| running_catchup lastClosed m :
    caught_up lastClosed m → balanced (first_level m) → lh_totalCoins lastClosed = total → running total m
| running_value m initialized done buffered data envelopes u m' :
    running total m → lh_ledgerSeq (mLastClosedLedger m).1 < UINT32_MAX → lcd_txs data = map fromWire envelopes →
    client_ok owner (closeClient (mLastClosedLedger m).2 data) (absStack (lm_stack m)) →
    valueExternalized initialized done buffered data m = Ok (u, m') → running total m'.

Lemma ledger_part_lumens σ k : sound σ → lumens_at (ledger_part σ) k = lumens_at σ k.
Proof.
  intros Hs. unfold lumens_at, ledger_part. rewrite map_lookup_filter. destruct (σ !! k) as [e|] eqn:E; [|done]. simpl.
  case_guard as Hk; [done|]. simpl. destruct (Hs _ _ E) as [<- _]. by destruct e.
Qed.

Lemma leaves_balanced l m :
  leaves sha256 bucketHash l m → balanced l →
  balanced (first_level m) ∧ lh_totalCoins (root_mHeader (base (lm_stack m))) = lh_totalCoins (v_header l).
Proof.
  intros (l' & Hv & Hh & Hdb & Hroot) [Hs Hp Ht Hb].
  assert (∀ levels h, lh_feePool (snapshotLedger sha256 bucketHash true levels h) = lh_feePool h ∧
    lh_totalCoins (snapshotLedger sha256 bucketHash true levels h) = lh_totalCoins h) as Hsnap.
  { intros levels h. unfold snapshotLedger, calculateSkipValues. by case_match. }
  destruct (Hsnap (mBucketList m) (v_header l)) as [Ep Et]. rewrite <- Hv in Hs.
  assert (sound (sealed_view l')) as Hs' by (by apply sealed_sound).
  split; [|by rewrite Hroot]. split; unfold first_level; cbn [spec_newLevel v_view v_header]; rewrite ?Hdb, ?Hroot, ?Ep, ?Et; try done.
  - intros k e [He _]%map_lookup_filter_Some. by apply Hs'.
  - rewrite <- Ht, <- Hv. f_equal. apply coins_pointwise. intros k. by rewrite ledger_part_lumens, sealed_lumens.
Qed.

(** What holds between ledgers. *)
Definition node_balanced (total : Z) (m : LedgerManagerImpl) : Prop :=
  (∃ σ, node_ok m σ) ∧ balanced (first_level m) ∧ lh_totalCoins (root_mHeader (base (lm_stack m))) = total.

Lemma start_balanced h last rootAccount genesis u m :
  modern genesis → lh_ledgerSeq genesis = 1 → lh_feePool genesis = 0 → 0 ≤ lh_totalCoins genesis ≤ INT64_MAX →
  startNewLedger rootAccount genesis (freshNode h last) = Ok (u, m) → node_balanced (lh_totalCoins genesis) m.
Proof.
  intros Hm Hseq Hpool Htotal Hrun.
  pose proof (start_run owner sha256 bucketHash xdr_header decode LEDGER_PROTOCOL_VERSION pessimize ready h last rootAccount genesis Hm Hseq) as Hs.
  rewrite Hrun in Hs. destruct Hs as (Hok & l & Hl & Hh & Hv). split; [done|]. destruct (leaves_balanced l m Hl) as [? E].
  - rewrite <- Hh in Hpool, Htotal. split; rewrite ?Hpool; try lia; cbv zeta in Hv; rewrite Hv.
    + intros k e [<- <-]%lookup_singleton_Some. split; [done|]. rewrite <- Hh. change (0 ≤ lh_totalCoins (v_header l)). lia.
    + rewrite <- insert_empty, coins_insert_fresh, coins_empty, <- Hh by apply lookup_empty.
      change (lumens _) with (lh_totalCoins (v_header l)). lia.
  - split; [done|]. by rewrite E, Hh.
Qed.

Lemma honest_fromWire envelopes : Forall honest (map fromWire envelopes).
Proof. induction envelopes; constructor; [apply books_transaction|done]. Qed.

Lemma tame_fromWire envelopes : Forall tame_tx (map fromWire envelopes).
Proof. induction envelopes; constructor; [apply tame_transaction|done]. Qed.

Lemma close_balanced total m data envelopes u m' :
  node_balanced total m → lh_ledgerSeq (mLastClosedLedger m).1 < UINT32_MAX → lcd_txs data = map fromWire envelopes →
  client_ok owner (closeClient (mLastClosedLedger m).2 data) (absStack (lm_stack m)) →
  closeLedger data m = Ok (u, m') → node_balanced total m'.
Proof.
  intros ([σ Hok] & Hbal & Htotal) Hmax Htx Hclient Hrun. set (h := root_mHeader (base (lm_stack m))) in *.
  assert (absStack (lm_stack m) = mkSpecStack [] (db_view (root_db (base (lm_stack m)))) h) as Habs.
  { unfold absStack. by rewrite (no_levels _ _ _ _ _ _ Hok). }
  assert (modern h) as Hm by exact (no_modern _ _ _ _ _ _ Hok).
  pose proof (closeClient_books sha256 xdr_results decode LEDGER_PROTOCOL_VERSION MODE_STORES_HISTORY
    (mLastClosedLedger m).2 data (db_view (root_db (base (lm_stack m)))) h) as Hbooks.
  rewrite Htx in Hbooks. specialize (Hbooks (honest_fromWire _) Hm Hbal). rewrite <- Habs in Hbooks.
  pose proof (closeLedger_leaves owner sha256 bucketHash xdr_header xdr_results decode LEDGER_PROTOCOL_VERSION
    MODE_STORES_HISTORY pessimize ready (λ l, balanced l ∧ forward h (v_header l)) m σ data Hok Hmax) as Hc.
  rewrite Hrun in Hc. destruct Hc as (Hok' & _ & _ & _ & _ & l & [Hl Hf] & Hleaves).
  - split; [|done]. rewrite Htx. apply tame_fromWire.
  - eapply ends_mono; [|exact Hbooks]. intros _ st' (l & -> & Hl & Hf) l0 [= <-]. done.
  - destruct (leaves_balanced l m' Hleaves Hl) as [Hb' Ht']. split; [done|]. split; [done|].
    rewrite Ht', (proj2 Hf). done.
Qed.

Lemma running_balanced total m : running total m → node_balanced total m.
Proof.
  assert (∀ s m, node_balanced total m → node_balanced total (setState s m)) as Hset.
  { intros s m' ([σ Hm'] & Hb & Ht). split; [exists σ; by apply node_ok_setState|done]. }
  induction 1 as [h last rootAccount genesis u m Hm Hseq Hpool <- Htotal Hrun|lastClosed m Hm Hb <-|m i d bf data envelopes u m' _ IH Hmax Htx Hclient Hrun].
  { by eapply start_balanced. }
  { destruct (caught_up_ok _ _ _ _ decode LEDGER_PROTOCOL_VERSION ready _ _ Hm) as [Hh Hok]. split; [done|]. by rewrite Hh. }
  assert (∀ m1, node_balanced total m1 → (if bf then mret tt else modify (setState LM_SYNCED_STATE)) m1 = Ok (u, m') →
    node_balanced total m') as Hlast.
  { intros m1 Hm1. destruct bf; intros [= _ <-]; auto. }
  unfold valueExternalized, closeLedgerIf in Hrun. rewrite M_bind_assoc, bind_gets in Hrun.
  destruct (u32 _ =? _); [|destruct (_ <=? _)].
  - destruct (i && negb d); [by apply (Hlast m)|]. rewrite bind_eq in Hrun. destruct (closeLedger data m) as [[u1 m1]|e] eqn:E; [|done].
    apply (Hlast m1); [|done]. by eapply close_balanced.
  - by apply (Hlast m).
  - rewrite bind_modify in Hrun. apply (Hlast (setState LM_CATCHING_UP_STATE m)); [by apply Hset|done].
Qed.

(** C4: no lumens are made or lost.  Take a node of a network that started at protocol
    12 or later with some number of lumens, or one that caught up at such a protocol
    with a ledger whose books balance.  After any number of ledgers with transactions,
    fee bumps and upgrades in them, failed ones included, that store well-formed
    entries, the lumens of the accounts and claimable balances in the database and the
    fee pool of the last header add up to that number, and none of them is negative. *)
Theorem lumens_conserved total m :
  running total m →
  let '(db, header) := (root_db (base (lm_stack m)), (mLastClosedLedger m).1) in
  coins (db_view db) + lh_feePool header = total ∧ lh_totalCoins header = total ∧
  0 ≤ lh_feePool header ∧ ∀ k le, db !! k = Some le → 0 ≤ lumens_of le.
Proof.
  intros ([σ Hok] & [Hs Hp Ht Hb] & <-)%running_balanced. rewrite (no_last _ _ _ _ _ _ Hok). cbn [fst].
  split_and!; [exact Ht|done|exact Hp|]. intros k le Hle. apply (Hs (GLedgerKey k) (GLedgerEntry le)).
  simpl. by rewrite lookup_db_view, Hle.
Qed.
End network.

(** A network of 10000 lumens, with a ledger in which the root account opens an
    account and pays it, and then, by a fee bump, tries to pay more than it has. *)
Module LumensExample.
Definition root : AccountID := [1].
Definition bob : AccountID := [2].
Definition sha256 (bytes : list Z) : list Z := 1 :: bytes.
Definition verifySig (key sig hash : list Z) : bool := bool_decide (sig = key).
Definition bucketHash (b : list BucketEntry) : list Z := [Z.of_nat (length b)].
Definition xdr_header (h : LedgerHeader) : list Z := [lh_ledgerSeq h].
Definition xdr_results (r : list (list Z * FrameResult)) : list Z := [Z.of_nat (length r)].
Definition decode (u : list Z) : option LedgerUpgrade := None.
Definition hashContents (e : TransactionEnvelope) : list Z := [7].
Definition owner (id : Z) : AccountID := [id].

Definition genesis : LedgerHeader :=
  mkLedgerHeader 15 zeroHash (mkDiamnetValue zeroHash 0 [] None) zeroHash zeroHash 1 10000 0 0 0 100 100 100
    (replicate 4 zeroHash).

Definition sent (source : AccountID) (seqNum : Z) (body : OperationBody) : TransactionEnvelope :=
  ENVELOPE_TYPE_TX (mkTransactionV1 (KEY_TYPE_ED25519 source) 100 seqNum None MEMO_NONE [mkOperation None body])
    [mkDecoratedSignature source source].

Definition pay (destination : AccountID) (amount : Z) : OperationBody :=
  PAYMENT (mkPaymentOp (KEY_TYPE_ED25519 destination) ASSET_TYPE_NATIVE amount).

Definition envelopes : list TransactionEnvelope :=
  [sent root 1 (CREATE_ACCOUNT (mkCreateAccountOp bob 600)); sent root 2 (pay bob 50);
   ENVELOPE_TYPE_TX_FEE_BUMP (mkFeeBumpTransaction (KEY_TYPE_ED25519 root) 400
     (mkTransactionV1 (KEY_TYPE_ED25519 root) 100 3 None MEMO_NONE [mkOperation None (pay bob 100000)],
      [mkDecoratedSignature root root])) [mkDecoratedSignature root root]].

Definition fromWire :=
  fromWire sha256 verifySig hashContents id (λ _, loadAccount) (λ _ _ _, []) (λ _ _, mret []) (λ _ _ _, true) 10%nat (λ _, [8]).

Definition data : LedgerCloseData :=
  mkLedgerCloseData 2 (mkDiamnetValue [7] 5 [] None) [1; 1] [7] (map fromWire envelopes) lh_baseFee.

Definition empty : LedgerManagerImpl := freshNode genesis (genesis, []).
Definition node1 : LedgerManagerImpl :=
  match startNewLedger sha256 bucketHash xdr_header true false (λ _ _, true) root genesis empty with
  | Ok (_, m) => m | Throw _ => empty end.
Definition node2 : LedgerManagerImpl :=
  match valueExternalized sha256 bucketHash xdr_header xdr_results decode 15 true true false (λ _ _, true)
          false false false data node1 with
  | Ok (_, m) => m | Throw _ => empty end.

Definition runs := running owner sha256 verifySig bucketHash xdr_header xdr_results decode hashContents (λ _, [8]) id
  (λ _, loadAccount) (λ _ _ _, []) (λ _ _, mret []) (λ _ _ _, true) 10%nat 15 true false (λ _ _, true).

Lemma node1_runs : runs 10000 node1.
Proof. eapply (running_start _ _ _ _ _ _ _ _ _ _ _ _ _ _ _ _ _ _ _ 10000 genesis (genesis, []) root genesis tt); vm_compute; try done; by split. Qed.

Lemma node2_runs : runs 10000 node2.
Proof.
  eapply (running_value _ _ _ _ _ _ _ _ _ _ _ _ _ _ _ _ _ _ _ 10000 node1 false false false data envelopes tt).
  - apply node1_runs.
  - vm_compute. reflexivity.
  - reflexivity.
  - vm_compute. repeat split.
  - vm_compute. reflexivity.
Qed.
End LumensExample.

Lemma lumens_conserved_witness :
  coins (db_view (root_db (base (lm_stack LumensExample.node2)))) +
    lh_feePool (mLastClosedLedger LumensExample.node2).1 = 10000 ∧
  lh_feePool (mLastClosedLedger LumensExample.node2).1 = 400.
Proof.
  split; [|vm_compute; reflexivity].
  apply (lumens_conserved _ _ _ _ _ _ _ _ _ _ _ _ _ _ _ _ _ _ _ _ _ LumensExample.node2_runs).
Defined.
