(* ===== verification/ScpTypes.v ===== *)
(** * SCP data types and the state of a slot

    The types of [xdr/DiamNet-SCP.x], the interface to the embedding application
    ([scp/SCPDriver.h]), the state of a slot ([scp/Slot.h]) with those of its two
    sub-protocols ([scp/BallotProtocol.h], [scp/NominationProtocol.h]), and the
    slot methods both of them use.

    The union [SCPStatement.pledges] is split in two: the three kinds of ballot
    statements and the nomination statements.  [Slot::processEnvelope] sends each
    part to its own sub-protocol, so the [default:] branches by which each
    sub-protocol aborts on the other's statements have no counterpart here.

    A [SCPEnvelopeWrapperPtr] is compared as a pointer in one place
    ([BallotProtocol::sendLatestEnvelope]), so a wrapper carries an identity
    besides its envelope; [ValueWrapperPtr] is only used for the value it holds.

    Calls to the driver that return nothing are recorded in [mCalls]; those that
    return something are fields of [SCPDriver]. *)

From S2P Require Import Prelude StateMonad QuorumSet.

Notation Value := (list Z).
Notation Hash := (list Z).
Notation Signature := (list Z).

(** ** Ballots *)

Record SCPBallot : Type := mkSCPBallot {
  counter : Z;
  value : Value
}.

#[export] Instance SCPBallot_eq_dec : EqDecision SCPBallot.
Proof. solve_decision. Defined.

(** A default-constructed ballot. *)
Definition SCPBallot0 : SCPBallot := mkSCPBallot 0 [].

(** [BallotProtocol::compareBallots]; also the order of [std::set<SCPBallot>]. *)
Definition compareBallots (b1 b2 : SCPBallot) : comparison :=
  if counter b1 <? counter b2 then Lt
  else if counter b2 <? counter b1 then Gt
  else if ltb (value b1) (value b2) then Lt
  else if ltb (value b2) (value b1) then Gt
  else Eq.

Definition areBallotsCompatible (b1 b2 : SCPBallot) : bool :=
  bool_decide (value b1 = value b2).

Definition ballot_leb (b1 b2 : SCPBallot) : bool :=
  match compareBallots b1 b2 with Gt => false | _ => true end.

Definition ballot_ltb (b1 b2 : SCPBallot) : bool :=
  match compareBallots b1 b2 with Lt => true | _ => false end.

Definition areBallotsLessAndIncompatible (b1 b2 : SCPBallot) : bool :=
  ballot_leb b1 b2 && negb (areBallotsCompatible b1 b2).

Definition areBallotsLessAndCompatible (b1 b2 : SCPBallot) : bool :=
  ballot_leb b1 b2 && areBallotsCompatible b1 b2.

Lemma compareBallots_lex b1 b2 :
  compareBallots b1 b2 =
  match Z.compare (counter b1) (counter b2) with
  | Eq => cmp (value b1) (value b2)
  | c => c
  end.
Proof.
  unfold compareBallots, ltb. rewrite (cmp_opp (value b1) (value b2)).
  destruct (Z.compare_spec (counter b1) (counter b2)),
    (Z.ltb_spec (counter b1) (counter b2)), (Z.ltb_spec (counter b2) (counter b1));
    try lia; try done.
  by destruct (cmp (value b1) (value b2)).
Qed.

#[export] Program Instance SCPBallot_TotalOrd : TotalOrd SCPBallot :=
  {| cmp := compareBallots |}.
Next Obligation.
  intros [c1 v1] [c2 v2]. rewrite compareBallots_lex. cbn [counter value].
  destruct (Z.compare_spec c1 c2); split; intros Heq; try done; try (simplify_eq; lia).
  - apply cmp_eq in Heq. by simplify_eq.
  - simplify_eq. apply cmp_refl.
Qed.
Next Obligation.
  intros b1 b2. rewrite !compareBallots_lex, Z.compare_antisym, (cmp_opp (value b1)).
  by destruct (Z.compare (counter b1) (counter b2)).
Qed.
Next Obligation.
  intros b1 b2 b3. rewrite !compareBallots_lex.
  destruct (Z.compare_spec (counter b1) (counter b2)),
    (Z.compare_spec (counter b2) (counter b3)),
    (Z.compare_spec (counter b1) (counter b3)); try lia; try done.
  apply cmp_trans.
Qed.

(** The overload on [std::unique_ptr<SCPBallot>]: null is the least. *)
Definition compareBallots_opt (b1 b2 : option SCPBallot) : comparison :=
  match b1, b2 with
  | Some b1, Some b2 => compareBallots b1 b2
  | Some _, None => Gt
  | None, Some _ => Lt
  | None, None => Eq
  end.

(** ** Statements and envelopes *)

Record SCPPrepare : Type := mkPrepare {
  prep_quorumSetHash : Hash;
  prep_ballot : SCPBallot;
  prep_prepared : option SCPBallot;
  prep_preparedPrime : option SCPBallot;
  prep_nC : Z;
  prep_nH : Z
}.

Record SCPConfirm : Type := mkConfirm {
  conf_ballot : SCPBallot;
  conf_nPrepared : Z;
  conf_nCommit : Z;
  conf_nH : Z;
  conf_quorumSetHash : Hash
}.

Record SCPExternalize : Type := mkExternalize {
  ext_commit : SCPBallot;
  ext_nH : Z;
  ext_commitQuorumSetHash : Hash
}.

Record SCPNomination : Type := mkNomination {
  nom_quorumSetHash : Hash;
  nom_votes : list Value;
  nom_accepted : list Value
}.

Inductive BallotPledges : Type :=
| SCP_ST_PREPARE (p : SCPPrepare)
| SCP_ST_CONFIRM (c : SCPConfirm)
| SCP_ST_EXTERNALIZE (e : SCPExternalize).

Definition SCPPledges : Type := BallotPledges + SCPNomination.

Record Statement (P : Type) : Type := mkStatement {
  nodeID : NodeID;
  slotIndex : Z;
  pledges : P
}.
Arguments mkStatement {P}.
Arguments nodeID {P}.
Arguments slotIndex {P}.
Arguments pledges {P}.

Record Envelope (P : Type) : Type := mkEnvelope {
  statement : Statement P;
  signature : Signature
}.
Arguments mkEnvelope {P}.
Arguments statement {P}.
Arguments signature {P}.

(** [SCPEnvelopeWrapper]: [wrapperId] is the address of the object. *)
Record EnvelopeWrapper (P : Type) : Type := mkWrapper {
  wrapperId : Z;
  getEnvelope : Envelope P
}.
Arguments mkWrapper {P}.
Arguments wrapperId {P}.
Arguments getEnvelope {P}.

Definition getStatement {P} (w : EnvelopeWrapper P) : Statement P :=
  statement (getEnvelope w).

Notation BallotStatement := (Statement BallotPledges).
Notation BallotEnvelopeW := (EnvelopeWrapper BallotPledges).
Notation NominationStatement := (Statement SCPNomination).
Notation NominationEnvelopeW := (EnvelopeWrapper SCPNomination).
Notation SCPStatement := (Statement SCPPledges).
Notation SCPEnvelope := (Envelope SCPPledges).

(** Changing the pledges of a statement or envelope: the passage between the
    union and its parts. *)
Definition map_statement {P Q} (f : P → Q) (st : Statement P) : Statement Q :=
  mkStatement (nodeID st) (slotIndex st) (f (pledges st)).

Definition map_envelope {P Q} (f : P → Q) (e : Envelope P) : Envelope Q :=
  mkEnvelope (map_statement f (statement e)) (signature e).

#[export] Instance SCPPrepare_eq_dec : EqDecision SCPPrepare.
Proof. solve_decision. Defined.
#[export] Instance SCPConfirm_eq_dec : EqDecision SCPConfirm.
Proof. solve_decision. Defined.
#[export] Instance SCPExternalize_eq_dec : EqDecision SCPExternalize.
Proof. solve_decision. Defined.
#[export] Instance SCPNomination_eq_dec : EqDecision SCPNomination.
Proof. solve_decision. Defined.
#[export] Instance BallotPledges_eq_dec : EqDecision BallotPledges.
Proof. solve_decision. Defined.
#[export] Instance Statement_eq_dec {P} `{EqDecision P} : EqDecision (Statement P).
Proof. solve_decision. Defined.
#[export] Instance Envelope_eq_dec {P} `{EqDecision P} : EqDecision (Envelope P).
Proof. solve_decision. Defined.

(** ** The driver *)

Inductive ValidationLevel : Type :=
| kInvalidValue
| kMaybeValidValue
| kFullyValidatedValue.

#[export] Instance ValidationLevel_eq_dec : EqDecision ValidationLevel.
Proof. solve_decision. Defined.

Definition vl_min (a b : ValidationLevel) : ValidationLevel :=
  match a, b with
  | kInvalidValue, _ | _, kInvalidValue => kInvalidValue
  | kMaybeValidValue, _ | _, kMaybeValidValue => kMaybeValidValue
  | _, _ => kFullyValidatedValue
  end.

(** The methods of [SCPDriver] whose result the protocol uses. *)
Record SCPDriver : Type := mkSCPDriver {
  validateValue : Z → Value → bool → ValidationLevel;
  extractValidValue : Z → Value → option Value;
  getQSet : Hash → option SCPQuorumSet;
  signEnvelope : SCPStatement → Signature;
  computeHashNode : Z → Value → bool → Z → NodeID → Z;
  computeValueHash : Z → Value → Z → Value → Z;
  combineCandidates : Z → list Value → option Value
}.

(** What the node knows about itself. *)
Record LocalNode : Type := mkLocalNode {
  getNodeID : NodeID;
  isValidator : bool;
  getQuorumSet : SCPQuorumSet;
  getQuorumSetHash : Hash
}.

Inductive TimerCallback : Type :=
| NoCallback
| BallotProtocolTimerExpired
| NominateTimedOut (value : Value) (previousValue : Value).

Definition NOMINATION_TIMER : Z := 0.
Definition BALLOT_PROTOCOL_TIMER : Z := 1.

(** The methods of [SCPDriver] called for their effect, with their arguments. *)
Inductive DriverCall : Type :=
| SignEnvelope (st : SCPStatement)
| EmitEnvelope (e : SCPEnvelope)
| SetupTimer (slotIndex : Z) (timerID : Z) (timeout : Z) (cb : TimerCallback)
| ValueExternalized (slotIndex : Z) (v : Value)
| NominatingValue (slotIndex : Z) (v : Value)
| UpdatedCandidateValue (slotIndex : Z) (v : Value)
| StartedBallotProtocol (slotIndex : Z) (b : SCPBallot)
| AcceptedBallotPrepared (slotIndex : Z) (b : SCPBallot)
| ConfirmedBallotPrepared (slotIndex : Z) (b : SCPBallot)
| AcceptedCommit (slotIndex : Z) (b : SCPBallot)
| BallotDidHearFromQuorum (slotIndex : Z) (b : SCPBallot).

Definition MAX_TIMEOUT_SECONDS : Z := 30 * 60.

(** In milliseconds. *)
Definition computeTimeout (roundNumber : Z) : Z :=
  let timeoutInSeconds :=
    if MAX_TIMEOUT_SECONDS <? roundNumber then MAX_TIMEOUT_SECONDS
    else roundNumber in
  1000 * timeoutInSeconds.

(** ** State *)

Inductive SCPPhase : Type :=
| SCP_PHASE_PREPARE
| SCP_PHASE_CONFIRM
| SCP_PHASE_EXTERNALIZE.

#[export] Instance SCPPhase_eq_dec : EqDecision SCPPhase.
Proof. solve_decision. Defined.

Inductive EnvelopeState : Type := INVALID | VALID.

#[export] Instance EnvelopeState_eq_dec : EqDecision EnvelopeState.
Proof. solve_decision. Defined.

Record BallotProtocol : Type := mkBallotProtocol {
  mHeardFromQuorum : bool;
  mPhase : SCPPhase;  (* Phi *)
  mCurrentBallot : option SCPBallot;  (* b *)
  mPrepared : option SCPBallot;  (* p *)
  mPreparedPrime : option SCPBallot;  (* p' *)
  mHighBallot : option SCPBallot;  (* h *)
  mCommit : option SCPBallot;  (* c *)
  mLatestEnvelopes : gmap NodeID BallotEnvelopeW;  (* M *)
  mValueOverride : option Value;  (* z *)
  mCurrentMessageLevel : Z;
  mLastEnvelope : option BallotEnvelopeW;
  mLastEnvelopeEmit : option BallotEnvelopeW
}.

Definition set_mHeardFromQuorum (x : bool) (s : BallotProtocol) : BallotProtocol :=
  mkBallotProtocol x (mPhase s) (mCurrentBallot s) (mPrepared s) (mPreparedPrime s)
    (mHighBallot s) (mCommit s) (mLatestEnvelopes s) (mValueOverride s)
    (mCurrentMessageLevel s) (mLastEnvelope s) (mLastEnvelopeEmit s).
Definition set_mPhase (x : SCPPhase) (s : BallotProtocol) : BallotProtocol :=
  mkBallotProtocol (mHeardFromQuorum s) x (mCurrentBallot s) (mPrepared s)
    (mPreparedPrime s) (mHighBallot s) (mCommit s) (mLatestEnvelopes s)
    (mValueOverride s) (mCurrentMessageLevel s) (mLastEnvelope s) (mLastEnvelopeEmit s).
Definition set_mCurrentBallot (x : option SCPBallot) (s : BallotProtocol) : BallotProtocol :=
  mkBallotProtocol (mHeardFromQuorum s) (mPhase s) x (mPrepared s) (mPreparedPrime s)
    (mHighBallot s) (mCommit s) (mLatestEnvelopes s) (mValueOverride s)
    (mCurrentMessageLevel s) (mLastEnvelope s) (mLastEnvelopeEmit s).
Definition set_mPrepared (x : option SCPBallot) (s : BallotProtocol) : BallotProtocol :=
  mkBallotProtocol (mHeardFromQuorum s) (mPhase s) (mCurrentBallot s) x
    (mPreparedPrime s) (mHighBallot s) (mCommit s) (mLatestEnvelopes s)
    (mValueOverride s) (mCurrentMessageLevel s) (mLastEnvelope s) (mLastEnvelopeEmit s).
Definition set_mPreparedPrime (x : option SCPBallot) (s : BallotProtocol) : BallotProtocol :=
  mkBallotProtocol (mHeardFromQuorum s) (mPhase s) (mCurrentBallot s) (mPrepared s) x
    (mHighBallot s) (mCommit s) (mLatestEnvelopes s) (mValueOverride s)
    (mCurrentMessageLevel s) (mLastEnvelope s) (mLastEnvelopeEmit s).
Definition set_mHighBallot (x : option SCPBallot) (s : BallotProtocol) : BallotProtocol :=
  mkBallotProtocol (mHeardFromQuorum s) (mPhase s) (mCurrentBallot s) (mPrepared s)
    (mPreparedPrime s) x (mCommit s) (mLatestEnvelopes s) (mValueOverride s)
    (mCurrentMessageLevel s) (mLastEnvelope s) (mLastEnvelopeEmit s).
Definition set_mCommit (x : option SCPBallot) (s : BallotProtocol) : BallotProtocol :=
  mkBallotProtocol (mHeardFromQuorum s) (mPhase s) (mCurrentBallot s) (mPrepared s)
    (mPreparedPrime s) (mHighBallot s) x (mLatestEnvelopes s) (mValueOverride s)
    (mCurrentMessageLevel s) (mLastEnvelope s) (mLastEnvelopeEmit s).
Definition set_mLatestEnvelopes (x : gmap NodeID BallotEnvelopeW) (s : BallotProtocol) : BallotProtocol :=
  mkBallotProtocol (mHeardFromQuorum s) (mPhase s) (mCurrentBallot s) (mPrepared s)
    (mPreparedPrime s) (mHighBallot s) (mCommit s) x (mValueOverride s)
    (mCurrentMessageLevel s) (mLastEnvelope s) (mLastEnvelopeEmit s).
Definition set_mValueOverride (x : option Value) (s : BallotProtocol) : BallotProtocol :=
  mkBallotProtocol (mHeardFromQuorum s) (mPhase s) (mCurrentBallot s) (mPrepared s)
    (mPreparedPrime s) (mHighBallot s) (mCommit s) (mLatestEnvelopes s) x
    (mCurrentMessageLevel s) (mLastEnvelope s) (mLastEnvelopeEmit s).
Definition set_mCurrentMessageLevel (x : Z) (s : BallotProtocol) : BallotProtocol :=
  mkBallotProtocol (mHeardFromQuorum s) (mPhase s) (mCurrentBallot s) (mPrepared s)
    (mPreparedPrime s) (mHighBallot s) (mCommit s) (mLatestEnvelopes s)
    (mValueOverride s) x (mLastEnvelope s) (mLastEnvelopeEmit s).
Definition set_mLastEnvelope (x : option BallotEnvelopeW) (s : BallotProtocol) : BallotProtocol :=
  mkBallotProtocol (mHeardFromQuorum s) (mPhase s) (mCurrentBallot s) (mPrepared s)
    (mPreparedPrime s) (mHighBallot s) (mCommit s) (mLatestEnvelopes s)
    (mValueOverride s) (mCurrentMessageLevel s) x (mLastEnvelopeEmit s).
Definition set_mLastEnvelopeEmit (x : option BallotEnvelopeW) (s : BallotProtocol) : BallotProtocol :=
  mkBallotProtocol (mHeardFromQuorum s) (mPhase s) (mCurrentBallot s) (mPrepared s)
    (mPreparedPrime s) (mHighBallot s) (mCommit s) (mLatestEnvelopes s)
    (mValueOverride s) (mCurrentMessageLevel s) (mLastEnvelope s) x.

Record NominationProtocol : Type := mkNominationProtocol {
  mRoundNumber : Z;
  mVotes : list Value;  (* X *)
  mAccepted : list Value;  (* Y *)
  mCandidates : list Value;  (* Z *)
  mLatestNominations : gmap NodeID NominationEnvelopeW;  (* N *)
  mLastNomination : option NominationEnvelopeW;  (* mLastEnvelope *)
  mRoundLeaders : list NodeID;
  mNominationStarted : bool;
  mLatestCompositeCandidate : option Value;
  mPreviousValue : Value
}.

Definition set_mRoundNumber (x : Z) (s : NominationProtocol) : NominationProtocol :=
  mkNominationProtocol x (mVotes s) (mAccepted s) (mCandidates s) (mLatestNominations s)
    (mLastNomination s) (mRoundLeaders s) (mNominationStarted s)
    (mLatestCompositeCandidate s) (mPreviousValue s).
Definition set_mVotes (x : list Value) (s : NominationProtocol) : NominationProtocol :=
  mkNominationProtocol (mRoundNumber s) x (mAccepted s) (mCandidates s)
    (mLatestNominations s) (mLastNomination s) (mRoundLeaders s) (mNominationStarted s)
    (mLatestCompositeCandidate s) (mPreviousValue s).
Definition set_mAccepted (x : list Value) (s : NominationProtocol) : NominationProtocol :=
  mkNominationProtocol (mRoundNumber s) (mVotes s) x (mCandidates s)
    (mLatestNominations s) (mLastNomination s) (mRoundLeaders s) (mNominationStarted s)
    (mLatestCompositeCandidate s) (mPreviousValue s).
Definition set_mCandidates (x : list Value) (s : NominationProtocol) : NominationProtocol :=
  mkNominationProtocol (mRoundNumber s) (mVotes s) (mAccepted s) x
    (mLatestNominations s) (mLastNomination s) (mRoundLeaders s) (mNominationStarted s)
    (mLatestCompositeCandidate s) (mPreviousValue s).
Definition set_mLatestNominations (x : gmap NodeID NominationEnvelopeW) (s : NominationProtocol) : NominationProtocol :=
  mkNominationProtocol (mRoundNumber s) (mVotes s) (mAccepted s) (mCandidates s) x
    (mLastNomination s) (mRoundLeaders s) (mNominationStarted s)
    (mLatestCompositeCandidate s) (mPreviousValue s).
Definition set_mLastNomination (x : option NominationEnvelopeW) (s : NominationProtocol) : NominationProtocol :=
  mkNominationProtocol (mRoundNumber s) (mVotes s) (mAccepted s) (mCandidates s)
    (mLatestNominations s) x (mRoundLeaders s) (mNominationStarted s)
    (mLatestCompositeCandidate s) (mPreviousValue s).
Definition set_mRoundLeaders (x : list NodeID) (s : NominationProtocol) : NominationProtocol :=
  mkNominationProtocol (mRoundNumber s) (mVotes s) (mAccepted s) (mCandidates s)
    (mLatestNominations s) (mLastNomination s) x (mNominationStarted s)
    (mLatestCompositeCandidate s) (mPreviousValue s).
Definition set_mNominationStarted (x : bool) (s : NominationProtocol) : NominationProtocol :=
  mkNominationProtocol (mRoundNumber s) (mVotes s) (mAccepted s) (mCandidates s)
    (mLatestNominations s) (mLastNomination s) (mRoundLeaders s) x
    (mLatestCompositeCandidate s) (mPreviousValue s).
Definition set_mLatestCompositeCandidate (x : option Value) (s : NominationProtocol) : NominationProtocol :=
  mkNominationProtocol (mRoundNumber s) (mVotes s) (mAccepted s) (mCandidates s)
    (mLatestNominations s) (mLastNomination s) (mRoundLeaders s) (mNominationStarted s)
    x (mPreviousValue s).
Definition set_mPreviousValue (x : Value) (s : NominationProtocol) : NominationProtocol :=
  mkNominationProtocol (mRoundNumber s) (mVotes s) (mAccepted s) (mCandidates s)
    (mLatestNominations s) (mLastNomination s) (mRoundLeaders s) (mNominationStarted s)
    (mLatestCompositeCandidate s) x.

Record Slot : Type := mkSlot {
  mSlotIndex : Z;
  mBallotProtocol : BallotProtocol;
  mNominationProtocol : NominationProtocol;
  mFullyValidated : bool;
  mStatementsHistory : list (SCPStatement * bool);
  mNextWrapper : Z;  (* next envelope wrapper *)
  mCalls : list DriverCall  (* newest first *)
}.

Definition set_mSlotIndex (x : Z) (s : Slot) : Slot :=
  mkSlot x (mBallotProtocol s) (mNominationProtocol s) (mFullyValidated s)
    (mStatementsHistory s) (mNextWrapper s) (mCalls s).
Definition set_mBallotProtocol (x : BallotProtocol) (s : Slot) : Slot :=
  mkSlot (mSlotIndex s) x (mNominationProtocol s) (mFullyValidated s)
    (mStatementsHistory s) (mNextWrapper s) (mCalls s).
Definition set_mNominationProtocol (x : NominationProtocol) (s : Slot) : Slot :=
  mkSlot (mSlotIndex s) (mBallotProtocol s) x (mFullyValidated s) (mStatementsHistory s)
    (mNextWrapper s) (mCalls s).
Definition set_mFullyValidated (x : bool) (s : Slot) : Slot :=
  mkSlot (mSlotIndex s) (mBallotProtocol s) (mNominationProtocol s) x
    (mStatementsHistory s) (mNextWrapper s) (mCalls s).
Definition set_mStatementsHistory (x : list (SCPStatement * bool)) (s : Slot) : Slot :=
  mkSlot (mSlotIndex s) (mBallotProtocol s) (mNominationProtocol s) (mFullyValidated s)
    x (mNextWrapper s) (mCalls s).
Definition set_mNextWrapper (x : Z) (s : Slot) : Slot :=
  mkSlot (mSlotIndex s) (mBallotProtocol s) (mNominationProtocol s) (mFullyValidated s)
    (mStatementsHistory s) x (mCalls s).
Definition set_mCalls (x : list DriverCall) (s : Slot) : Slot :=
  mkSlot (mSlotIndex s) (mBallotProtocol s) (mNominationProtocol s) (mFullyValidated s)
    (mStatementsHistory s) (mNextWrapper s) x.

Notation slotM := (M Slot).

(** Access to the state of the ballot protocol. *)
Definition bget {A} (f : BallotProtocol → A) : slotM A :=
  gets (λ s, f (mBallotProtocol s)).

Definition bset (f : BallotProtocol → BallotProtocol) : slotM unit :=
  modify (λ s, set_mBallotProtocol (f (mBallotProtocol s)) s).

Definition nget {A} (f : NominationProtocol → A) : slotM A :=
  gets (λ s, f (mNominationProtocol s)).

Definition nset (f : NominationProtocol → NominationProtocol) : slotM unit :=
  modify (λ s, set_mNominationProtocol (f (mNominationProtocol s)) s).

(** A call to the driver. *)
Definition call (c : DriverCall) : slotM unit :=
  modify (λ s, set_mCalls (c :: mCalls s) s).

(** ** Slot methods *)

(** [BallotProtocol::BallotProtocol], [NominationProtocol::NominationProtocol]
    and [Slot::Slot]. *)
Definition initBallotProtocol : BallotProtocol :=
  mkBallotProtocol false SCP_PHASE_PREPARE None None None None None ∅ None 0 None None.

Definition initNominationProtocol : NominationProtocol :=
  mkNominationProtocol 0 [] [] [] ∅ None [] false None [].

Definition initSlot (L : LocalNode) (index : Z) : Slot :=
  mkSlot index initBallotProtocol initNominationProtocol (isValidator L) [] 0 [].

Definition recordStatement (st : SCPStatement) : slotM unit :=
  modify (λ s, set_mStatementsHistory (mStatementsHistory s ++ [(st, mFullyValidated s)]) s).

Definition setFullyValidated (b : bool) : slotM unit := modify (set_mFullyValidated b).

Definition stopNomination : slotM unit := nset (set_mNominationStarted false).

Section slot.
Context (D : SCPDriver) (L : LocalNode).

(** Fills in the sender and the slot, and signs. *)
Definition createEnvelope {P} (inj : P → SCPPledges) (pl : P) : slotM (Envelope P) :=
  idx ← gets mSlotIndex;
  let st := mkStatement (getNodeID L) idx pl in
  call (SignEnvelope (map_statement inj st));;
  mret (mkEnvelope st (signEnvelope D (map_statement inj st))).

Definition wrapEnvelope {P} (e : Envelope P) : slotM (EnvelopeWrapper P) :=
  id ← gets mNextWrapper;
  modify (set_mNextWrapper (id + 1));;
  mret (mkWrapper id e).

(** [Slot::getQuorumSetFromStatement], on the two kinds of statements. *)
Definition getQuorumSetFromStatement (st : BallotStatement) : option SCPQuorumSet :=
  match pledges st with
  | SCP_ST_EXTERNALIZE _ => Some (buildSingletonQSet (nodeID st))
  | SCP_ST_PREPARE p => getQSet D (prep_quorumSetHash p)
  | SCP_ST_CONFIRM c => getQSet D (conf_quorumSetHash c)
  end.

Definition getQuorumSetFromNomination (st : NominationStatement) : option SCPQuorumSet :=
  getQSet D (nom_quorumSetHash (pledges st)).

Section federated.
Context {P : Type} (qfun : Statement P → option SCPQuorumSet).

Definition federatedAccept_with (voted accepted : Statement P → bool)
    (envs : gmap NodeID (EnvelopeWrapper P)) : bool :=
  if isVBlocking_map (getQuorumSet L) envs (λ e, accepted (getStatement e)) then true
  else
    let ratifyFilter st := accepted st || voted st in
    if isQuorum (getQuorumSet L) envs (λ e, qfun (getStatement e))
         (λ e, ratifyFilter (getStatement e))
    then true
    else false.

Definition federatedRatify_with (voted : Statement P → bool)
    (envs : gmap NodeID (EnvelopeWrapper P)) : bool :=
  isQuorum (getQuorumSet L) envs (λ e, qfun (getStatement e))
    (λ e, voted (getStatement e)).
End federated.
End slot.
