(* ===== verification/Ballot.v ===== *)
(** * The ballot protocol

    Models [scp/BallotProtocol.cpp] method by method, with the parts of
    [scp/Slot.cpp] it goes through.  The first half holds the functions on
    statements; the second half the methods, as computations on the state of the
    slot.

    The methods are mutually recursive: a state change emits a statement, which
    the node processes as if it came from the network, which may change the state
    again.  [emitCurrentStateStatement] and the methods built on it therefore
    take [process], the recursive call of [Slot::processEnvelope]; the knot is
    tied by [processEnvelope_fuel] at the end. *)

From S2P Require Import Prelude StateMonad QuorumSet ScpTypes.

Definition MAX_ADVANCE_SLOT_RECURSION : Z := 50.

(** ** Statements *)

Definition pledges_type (pl : BallotPledges) : Z :=
  match pl with
  | SCP_ST_PREPARE _ => 0
  | SCP_ST_CONFIRM _ => 1
  | SCP_ST_EXTERNALIZE _ => 2
  end.

(** The total order of the SCP paper. *)
Definition isNewerStatement_st (oldst st : BallotStatement) : bool :=
  if negb (pledges_type (pledges oldst) =? pledges_type (pledges st))
  then pledges_type (pledges oldst) <? pledges_type (pledges st)
  else
    match pledges oldst, pledges st with
    | SCP_ST_CONFIRM oldC, SCP_ST_CONFIRM c =>
        match compareBallots (conf_ballot oldC) (conf_ballot c) with
        | Lt => true
        | Eq =>
            if conf_nPrepared oldC =? conf_nPrepared c
            then conf_nH oldC <? conf_nH c
            else conf_nPrepared oldC <? conf_nPrepared c
        | Gt => false
        end
    | SCP_ST_PREPARE oldPrep, SCP_ST_PREPARE prep =>
        match compareBallots (prep_ballot oldPrep) (prep_ballot prep) with
        | Lt => true
        | Gt => false
        | Eq =>
            match compareBallots_opt (prep_prepared oldPrep) (prep_prepared prep) with
            | Lt => true
            | Gt => false
            | Eq =>
                match compareBallots_opt (prep_preparedPrime oldPrep)
                        (prep_preparedPrime prep) with
                | Lt => true
                | Gt => false
                | Eq => prep_nH oldPrep <? prep_nH prep
                end
            end
        end
    | _, _ => false
    end.

(** [isNewerStatement(nodeID, st)], on the latest envelopes. *)
Definition isNewerStatement (latest : gmap NodeID BallotEnvelopeW) (node : NodeID)
    (st : BallotStatement) : bool :=
  match latest !! node with
  | None => true
  | Some old => isNewerStatement_st (getStatement old) st
  end.

Definition isStatementSane (D : SCPDriver) (st : BallotStatement) (self : bool) : bool :=
  match getQuorumSetFromStatement D st with
  | None => false
  | Some qSet =>
      if negb (isQuorumSetSane qSet false) then false
      else
        match pledges st with
        | SCP_ST_PREPARE p =>
            (self || (0 <? counter (prep_ballot p)))
            && match prep_preparedPrime p, prep_prepared p with
               | Some p', Some pr => areBallotsLessAndIncompatible p' pr
               | _, _ => true
               end
            && ((prep_nH p =? 0)
                || match prep_prepared p with
                   | Some pr => prep_nH p <=? counter pr
                   | None => false
                   end)
            && ((prep_nC p =? 0)
                || (negb (prep_nH p =? 0) && (prep_nH p <=? counter (prep_ballot p))
                    && (prep_nC p <=? prep_nH p)))
        | SCP_ST_CONFIRM c =>
            (0 <? counter (conf_ballot c))
            && (conf_nH c <=? counter (conf_ballot c))
            && (conf_nCommit c <=? conf_nH c)
        | SCP_ST_EXTERNALIZE e =>
            (0 <? counter (ext_commit e)) && (counter (ext_commit e) <=? ext_nH e)
        end
  end.

(** Does [st] vote to prepare [ballot]? (the first lambda of
    [attemptAcceptPrepared]) *)
Definition votesPrepare (ballot : SCPBallot) (st : BallotStatement) : bool :=
  match pledges st with
  | SCP_ST_PREPARE p => areBallotsLessAndCompatible ballot (prep_ballot p)
  | SCP_ST_CONFIRM c => areBallotsCompatible ballot (conf_ballot c)
  | SCP_ST_EXTERNALIZE e => areBallotsCompatible ballot (ext_commit e)
  end.

Definition opt_is {A} (f : A → bool) (o : option A) : bool :=
  match o with Some a => f a | None => false end.

Definition hasPreparedBallot (ballot : SCPBallot) (st : BallotStatement) : bool :=
  match pledges st with
  | SCP_ST_PREPARE p =>
      opt_is (areBallotsLessAndCompatible ballot) (prep_prepared p)
      || opt_is (areBallotsLessAndCompatible ballot) (prep_preparedPrime p)
  | SCP_ST_CONFIRM c =>
      areBallotsLessAndCompatible ballot
        (mkSCPBallot (conf_nPrepared c) (value (conf_ballot c)))
  | SCP_ST_EXTERNALIZE e => areBallotsCompatible ballot (ext_commit e)
  end.

Notation Interval := (Z * Z)%type.

(** Does [st] vote to commit [ballot]'s value for all counters in [cur]? (the
    inner lambda of [attemptAcceptCommit]) *)
Definition votesCommit (ballot : SCPBallot) (cur : Interval) (st : BallotStatement) : bool :=
  match pledges st with
  | SCP_ST_PREPARE p =>
      areBallotsCompatible ballot (prep_ballot p) && negb (prep_nC p =? 0)
      && (prep_nC p <=? cur.1) && (cur.2 <=? prep_nH p)
  | SCP_ST_CONFIRM c =>
      areBallotsCompatible ballot (conf_ballot c) && (conf_nCommit c <=? cur.1)
  | SCP_ST_EXTERNALIZE e =>
      areBallotsCompatible ballot (ext_commit e) && (counter (ext_commit e) <=? cur.1)
  end.

Definition commitPredicate (ballot : SCPBallot) (check : Interval) (st : BallotStatement)
    : bool :=
  match pledges st with
  | SCP_ST_PREPARE _ => false
  | SCP_ST_CONFIRM c =>
      areBallotsCompatible ballot (conf_ballot c)
      && (conf_nCommit c <=? check.1) && (check.2 <=? conf_nH c)
  | SCP_ST_EXTERNALIZE e =>
      areBallotsCompatible ballot (ext_commit e) && (counter (ext_commit e) <=? check.1)
  end.

Definition statementBallotCounter (st : BallotStatement) : Z :=
  match pledges st with
  | SCP_ST_PREPARE p => counter (prep_ballot p)
  | SCP_ST_CONFIRM c => counter (conf_ballot c)
  | SCP_ST_EXTERNALIZE _ => UINT32_MAX
  end.

Definition getCompanionQuorumSetHashFromStatement (st : BallotStatement) : Hash :=
  match pledges st with
  | SCP_ST_PREPARE p => prep_quorumSetHash p
  | SCP_ST_CONFIRM c => conf_quorumSetHash c
  | SCP_ST_EXTERNALIZE e => ext_commitQuorumSetHash e
  end.

Definition getWorkingBallot (st : BallotStatement) : SCPBallot :=
  match pledges st with
  | SCP_ST_PREPARE p => prep_ballot p
  | SCP_ST_CONFIRM c => mkSCPBallot (conf_nCommit c) (value (conf_ballot c))
  | SCP_ST_EXTERNALIZE e => ext_commit e
  end.

Definition insert_opt {A B} `{TotalOrd B} (f : A → B) (o : option A) (l : list B) : list B :=
  match o with Some a => set_insert (f a) l | None => l end.

Definition getStatementValues (st : BallotStatement) : list Value :=
  match pledges st with
  | SCP_ST_PREPARE p =>
      let values :=
        if negb (counter (prep_ballot p) =? 0)
        then set_insert (value (prep_ballot p)) [] else [] in
      insert_opt value (prep_preparedPrime p) (insert_opt value (prep_prepared p) values)
  | SCP_ST_CONFIRM c => [value (conf_ballot c)]
  | SCP_ST_EXTERNALIZE e => [value (ext_commit e)]
  end.

Definition validateValues (D : SCPDriver) (idx : Z) (st : BallotStatement) : ValidationLevel :=
  match getStatementValues st with
  | [] => kInvalidValue
  | values =>
      foldl (λ lv v,
               if bool_decide (lv = kInvalidValue) then lv
               else vl_min (validateValue D idx v false) lv)
        kFullyValidatedValue values
  end.

(** ** Candidates and boundaries *)

(** The ballots a statement brings up. *)
Definition hintBallots (hint : BallotStatement) : list SCPBallot :=
  match pledges hint with
  | SCP_ST_PREPARE prep =>
      insert_opt id (prep_preparedPrime prep)
        (insert_opt id (prep_prepared prep) (set_insert (prep_ballot prep) []))
  | SCP_ST_CONFIRM con =>
      set_insert (mkSCPBallot UINT32_MAX (value (conf_ballot con)))
        (set_insert (mkSCPBallot (conf_nPrepared con) (value (conf_ballot con))) [])
  | SCP_ST_EXTERNALIZE ext =>
      set_insert (mkSCPBallot UINT32_MAX (value (ext_commit ext))) []
  end.

Definition insert_if (b : bool) (x : SCPBallot) (l : list SCPBallot) : list SCPBallot :=
  if b then set_insert x l else l.

(** The candidates that the statement [st] adds below [topVote]. *)
Definition addCandidates (topVote : SCPBallot) (candidates : list SCPBallot)
    (st : BallotStatement) : list SCPBallot :=
  match pledges st with
  | SCP_ST_PREPARE prep =>
      let candidates :=
        insert_if (areBallotsLessAndCompatible (prep_ballot prep) topVote)
          (prep_ballot prep) candidates in
      let candidates :=
        match prep_prepared prep with
        | Some p => insert_if (areBallotsLessAndCompatible p topVote) p candidates
        | None => candidates
        end in
      match prep_preparedPrime prep with
      | Some p' => insert_if (areBallotsLessAndCompatible p' topVote) p' candidates
      | None => candidates
      end
  | SCP_ST_CONFIRM con =>
      if areBallotsCompatible topVote (conf_ballot con) then
        let candidates := set_insert topVote candidates in
        insert_if (conf_nPrepared con <? counter topVote)
          (mkSCPBallot (conf_nPrepared con) (value topVote)) candidates
      else candidates
  | SCP_ST_EXTERNALIZE ext =>
      insert_if (areBallotsCompatible topVote (ext_commit ext)) topVote candidates
  end.

Definition latest_statements (latest : gmap NodeID BallotEnvelopeW) : list BallotStatement :=
  (λ e, getStatement e.2) <$> map_to_list latest.

Definition getPrepareCandidates (latest : gmap NodeID BallotEnvelopeW)
    (hint : BallotStatement) : list SCPBallot :=
  foldl (λ candidates topVote,
           foldl (addCandidates topVote) candidates (latest_statements latest))
    [] (rev (hintBallots hint)).

Definition addBoundaries (ballot : SCPBallot) (res : list Z) (st : BallotStatement) : list Z :=
  match pledges st with
  | SCP_ST_PREPARE p =>
      if areBallotsCompatible ballot (prep_ballot p) && negb (prep_nC p =? 0)
      then set_insert (prep_nH p) (set_insert (prep_nC p) res)
      else res
  | SCP_ST_CONFIRM c =>
      if areBallotsCompatible ballot (conf_ballot c)
      then set_insert (conf_nH c) (set_insert (conf_nCommit c) res)
      else res
  | SCP_ST_EXTERNALIZE e =>
      if areBallotsCompatible ballot (ext_commit e)
      then set_insert UINT32_MAX
             (set_insert (ext_nH e) (set_insert (counter (ext_commit e)) res))
      else res
  end.

Definition getCommitBoundariesFromStatements (latest : gmap NodeID BallotEnvelopeW)
    (ballot : SCPBallot) : list Z :=
  foldl (addBoundaries ballot) [] (latest_statements latest).

(** The loop of [findExtendedInterval], on the boundaries from the top. *)
Fixpoint extendInterval (pred : Interval → bool) (bs : list Z) (candidate : Interval)
    : Interval :=
  match bs with
  | [] => candidate
  | b :: bs' =>
      if (negb (candidate.1 =? 0)) && (candidate.2 <? b)
      then extendInterval pred bs' candidate
      else
        let cur := if candidate.1 =? 0 then (b, b) else (b, candidate.2) in
        if pred cur then extendInterval pred bs' cur
        else if negb (candidate.1 =? 0) then candidate
        else extendInterval pred bs' candidate
  end.

Definition findExtendedInterval (boundaries : list Z) (pred : Interval → bool) : Interval :=
  extendInterval pred (rev boundaries) (0, 0).

(** ** Invariants checked at run time *)

Definition is_some {A} (o : option A) : bool := match o with Some _ => true | None => false end.

Definition checkInvariants (bp : BallotProtocol) : res unit :=
  (match mCurrentBallot bp with
   | Some b => cassert (negb (counter b =? 0))
   | None => mret tt
   end);;
  (match mPrepared bp, mPreparedPrime bp with
   | Some p, Some p' => cassert (areBallotsLessAndIncompatible p' p)
   | _, _ => mret tt
   end);;
  (match mHighBallot bp with
   | Some h =>
       cassert (is_some (mCurrentBallot bp));;
       b ← deref (mCurrentBallot bp);
       cassert (areBallotsLessAndCompatible h b)
   | None => mret tt
   end);;
  (match mCommit bp with
   | Some c =>
       cassert (is_some (mCurrentBallot bp));;
       h ← deref (mHighBallot bp);
       cassert (areBallotsLessAndCompatible c h);;
       b ← deref (mCurrentBallot bp);
       cassert (areBallotsLessAndCompatible h b)
   | None => mret tt
   end);;
  match mPhase bp with
  | SCP_PHASE_PREPARE => mret tt
  | SCP_PHASE_CONFIRM => cassert (is_some (mCommit bp))
  | SCP_PHASE_EXTERNALIZE =>
      cassert (is_some (mCommit bp));; cassert (is_some (mHighBallot bp))
  end.

(** ** Methods *)

Section methods.
Context (D : SCPDriver) (L : LocalNode).

Definition federatedAccept (voted accepted : BallotStatement → bool)
    (latest : gmap NodeID BallotEnvelopeW) : bool :=
  federatedAccept_with L (getQuorumSetFromStatement D) voted accepted latest.

Definition federatedRatify (voted : BallotStatement → bool)
    (latest : gmap NodeID BallotEnvelopeW) : bool :=
  federatedRatify_with L (getQuorumSetFromStatement D) voted latest.

Definition checkInvariantsM : slotM unit := reads (λ s, checkInvariants (mBallotProtocol s)).

Definition recordEnvelope (env : BallotEnvelopeW) : slotM unit :=
  latest ← bget mLatestEnvelopes;
  bset (set_mLatestEnvelopes (<[ nodeID (getStatement env) := env ]> latest));;
  recordStatement (map_statement inl (getStatement env)).

Definition bumpToBallot (ballot : SCPBallot) (check : bool) : slotM unit :=
  bp ← bget id;
  dbgAssert (bool_decide (mPhase bp ≠ SCP_PHASE_EXTERNALIZE));;
  when check
    (dbgAssert (match mCurrentBallot bp with
                | None => true
                | Some cur => ballot_leb cur ballot
                end));;
  let gotBumped :=
    match mCurrentBallot bp with
    | None => true
    | Some cur => negb (counter cur =? counter ballot)
    end in
  idx ← gets mSlotIndex;
  when (negb (is_some (mCurrentBallot bp))) (call (StartedBallotProtocol idx ballot));;
  bset (set_mCurrentBallot (Some ballot));;
  when (match mHighBallot bp with
        | Some h => negb (areBallotsCompatible ballot h)
        | None => false
        end)
    (bset (set_mHighBallot None);; bset (set_mCommit None));;
  when gotBumped (bset (set_mHeardFromQuorum false)).

Definition updateCurrentValue (ballot : SCPBallot) : slotM bool :=
  bp ← bget id;
  if bool_decide (mPhase bp = SCP_PHASE_EXTERNALIZE) then mret false
  else
    match mCurrentBallot bp with
    | None =>
        bumpToBallot ballot true;;
        checkInvariantsM;;
        mret true
    | Some cur =>
        dbgAssert (ballot_leb cur ballot);;
        if match mCommit bp with
           | Some c => negb (areBallotsCompatible c ballot)
           | None => false
           end
        then mret false
        else
          match compareBallots cur ballot with
          | Lt =>
              bumpToBallot ballot true;;
              checkInvariantsM;;
              mret true
          | Gt => mret false
          | Eq =>
              checkInvariantsM;;
              mret false
          end
    end.

Definition updateCurrentIfNeeded (h : SCPBallot) : slotM bool :=
  cur ← bget mCurrentBallot;
  if match cur with None => true | Some b => ballot_ltb b h end
  then bumpToBallot h true;; mret true
  else mret false.

Definition createStatement (type : SCPPhase) : slotM BallotPledges :=
  checkInvariantsM;;
  reads (λ s,
    let bp := mBallotProtocol s in
    match type with
    | SCP_PHASE_PREPARE =>
        mret (SCP_ST_PREPARE
          (mkPrepare (getQuorumSetHash L)
             (default SCPBallot0 (mCurrentBallot bp))
             (mPrepared bp) (mPreparedPrime bp)
             (match mCommit bp with Some c => counter c | None => 0 end)
             (match mHighBallot bp with Some h => counter h | None => 0 end)))
    | SCP_PHASE_CONFIRM =>
        b ← deref (mCurrentBallot bp);
        p ← deref (mPrepared bp);
        c ← deref (mCommit bp);
        h ← deref (mHighBallot bp);
        mret (SCP_ST_CONFIRM
          (mkConfirm b (counter p) (counter c) (counter h) (getQuorumSetHash L)))
    | SCP_PHASE_EXTERNALIZE =>
        c ← deref (mCommit bp);
        h ← deref (mHighBallot bp);
        mret (SCP_ST_EXTERNALIZE (mkExternalize c (counter h) (getQuorumSetHash L)))
    end).

Definition sendLatestEnvelope : slotM unit :=
  bp ← bget id;
  full ← gets mFullyValidated;
  match mLastEnvelope bp with
  | Some last =>
      when ((mCurrentMessageLevel bp =? 0) && full
            && match mLastEnvelopeEmit bp with
               | None => true
               | Some e => negb (wrapperId last =? wrapperId e)
               end)
        (bset (set_mLastEnvelopeEmit (Some last));;
         call (EmitEnvelope (map_envelope inl (getEnvelope last))))
  | None => mret tt
  end.

Definition startBallotProtocolTimer : slotM unit :=
  b ← reads (λ s, deref (mCurrentBallot (mBallotProtocol s)));
  idx ← gets mSlotIndex;
  call (SetupTimer idx BALLOT_PROTOCOL_TIMER (computeTimeout (counter b))
          BallotProtocolTimerExpired).

Definition stopBallotProtocolTimer : slotM unit :=
  idx ← gets mSlotIndex;
  call (SetupTimer idx BALLOT_PROTOCOL_TIMER 0 NoCallback).

(** Is the sender at the counter [n] or above? (the lambda of
    [checkHeardFromQuorum]) *)
Definition atOrAbove (n : Z) (st : BallotStatement) : bool :=
  match pledges st with
  | SCP_ST_PREPARE p => n <=? counter (prep_ballot p)
  | _ => true
  end.

Definition checkHeardFromQuorum : slotM unit :=
  bp ← bget id;
  match mCurrentBallot bp with
  | None => mret tt
  | Some b =>
      if isQuorum (getQuorumSet L) (mLatestEnvelopes bp)
           (λ e, getQuorumSetFromStatement D (getStatement e))
           (λ e, atOrAbove (counter b) (getStatement e))
      then
        let oldHQ := mHeardFromQuorum bp in
        bset (set_mHeardFromQuorum true);;
        idx ← gets mSlotIndex;
        when (negb oldHQ)
          (call (BallotDidHearFromQuorum idx b);;
           when (bool_decide (mPhase bp ≠ SCP_PHASE_EXTERNALIZE)) startBallotProtocolTimer);;
        when (bool_decide (mPhase bp = SCP_PHASE_EXTERNALIZE)) stopBallotProtocolTimer
      else
        bset (set_mHeardFromQuorum false);;
        stopBallotProtocolTimer
  end.

(** *** Methods that emit statements *)

Section emit.
(** The recursive call of [Slot::processEnvelope]. *)
Context (process : BallotEnvelopeW → bool → slotM EnvelopeState).

Definition emitCurrentStateStatement : slotM unit :=
  t ← bget mPhase;
  pl ← createStatement t;
  envelope ← createEnvelope D L inl pl;
  canEmit ← bget (λ bp, is_some (mCurrentBallot bp));
  lastEnv ← bget (λ bp, mLatestEnvelopes bp !! getNodeID L);
  if match lastEnv with
     | None => true
     | Some e => bool_decide (getEnvelope e ≠ envelope)
     end
  then
    envW ← wrapEnvelope envelope;
    r ← process envW true;
    if bool_decide (r = VALID) then
      last ← bget mLastEnvelope;
      when (canEmit && match last with
                       | None => true
                       | Some l => isNewerStatement_st (getStatement l) (statement envelope)
                       end)
        (bset (set_mLastEnvelope (Some envW));;
         sendLatestEnvelope)
    else throw (RuntimeError "moved to a bad state (ballot protocol)")
  else mret tt.

(** **** Moving to a new ballot *)

Definition bumpState_n (value : Value) (n : Z) : slotM bool :=
  bp ← bget id;
  if bool_decide (mPhase bp = SCP_PHASE_EXTERNALIZE) then mret false
  else
    let newb :=
      match mValueOverride bp with
      | Some z => mkSCPBallot n z
      | None => mkSCPBallot n value
      end in
    updated ← updateCurrentValue newb;
    when updated (emitCurrentStateStatement;; checkHeardFromQuorum);;
    mret updated.

Definition bumpState (value : Value) (force : bool) : slotM bool :=
  cur ← bget mCurrentBallot;
  if negb force && is_some cur then mret false
  else
    let n := match cur with Some b => u32 (counter b + 1) | None => 1 end in
    bumpState_n value n.

Definition non_empty (v : option Value) : option Value :=
  match v with Some (x :: l) => Some (x :: l) | _ => None end.

Definition abandonBallot (n : Z) : slotM bool :=
  composite ← nget mLatestCompositeCandidate;
  cur ← bget mCurrentBallot;
  let v :=
    match non_empty composite with
    | Some v => Some v
    | None => match cur with Some b => non_empty (Some (value b)) | None => None end
    end in
  match v with
  | Some v => if n =? 0 then bumpState v true else bumpState_n v n
  | None => mret false
  end.

Definition ballotProtocolTimerExpired : slotM unit :=
  abandonBallot 0;; mret tt.

(** **** Preparing *)

Definition setPrepared (ballot : SCPBallot) : slotM bool :=
  bp ← bget id;
  match mPrepared bp with
  | Some p =>
      match compareBallots p ballot with
      | Lt =>
          when (negb (areBallotsCompatible p ballot)) (bset (set_mPreparedPrime (Some p)));;
          bset (set_mPrepared (Some ballot));;
          mret true
      | Gt =>
          if match mPreparedPrime bp with
             | None => true
             | Some p' => ballot_ltb p' ballot && negb (areBallotsCompatible p ballot)
             end
          then bset (set_mPreparedPrime (Some ballot));; mret true
          else mret false
      | Eq => mret false
      end
  | None =>
      bset (set_mPrepared (Some ballot));;
      mret true
  end.

Definition setAcceptPrepared (ballot : SCPBallot) : slotM bool :=
  didWork ← setPrepared ballot;
  bp ← bget id;
  didWork ←
    (match mCommit bp, mHighBallot bp with
     | Some _, Some h =>
         if opt_is (areBallotsLessAndIncompatible h) (mPrepared bp)
            || opt_is (areBallotsLessAndIncompatible h) (mPreparedPrime bp)
         then
           dbgAssert (bool_decide (mPhase bp = SCP_PHASE_PREPARE));;
           bset (set_mCommit None);;
           mret true
         else mret didWork
     | _, _ => mret didWork
     end);
  when didWork
    (idx ← gets mSlotIndex;
     call (AcceptedBallotPrepared idx ballot);;
     emitCurrentStateStatement);;
  mret didWork.

(** The loop of [attemptAcceptPrepared]: the first candidate worth accepting
    that can be accepted. *)
Fixpoint acceptPreparedScan (bp : BallotProtocol) (accepts : SCPBallot → bool)
    (cands : list SCPBallot) : res (option SCPBallot) :=
  match cands with
  | [] => mret None
  | ballot :: rest =>
      skip ←
        (if bool_decide (mPhase bp = SCP_PHASE_CONFIRM) then
           p ← deref (mPrepared bp);
           if negb (areBallotsLessAndCompatible p ballot) then mret true
           else
             c ← deref (mCommit bp);
             cassert (areBallotsCompatible c ballot);;
             mret false
         else mret false);
      if (skip : bool) || opt_is (ballot_leb ballot) (mPreparedPrime bp)
         || opt_is (areBallotsLessAndCompatible ballot) (mPrepared bp)
      then acceptPreparedScan bp accepts rest
      else if accepts ballot then mret (Some ballot)
      else acceptPreparedScan bp accepts rest
  end.

Definition attemptAcceptPrepared (hint : BallotStatement) : slotM bool :=
  bp ← bget id;
  if bool_decide (mPhase bp = SCP_PHASE_EXTERNALIZE) then mret false
  else
    let latest := mLatestEnvelopes bp in
    let candidates := getPrepareCandidates latest hint in
    let accepts ballot :=
      federatedAccept (votesPrepare ballot) (hasPreparedBallot ballot) latest in
    found ← reads (λ s, acceptPreparedScan (mBallotProtocol s) accepts (rev candidates));
    match found with
    | Some ballot => setAcceptPrepared ballot
    | None => mret false
    end.

Definition setConfirmPrepared (newC newH : SCPBallot) : slotM bool :=
  bset (set_mValueOverride (Some (value newH)));;
  bp ← bget id;
  didWork ←
    (if match mCurrentBallot bp with
        | None => true
        | Some b => areBallotsCompatible b newH
        end
     then
       let raise := match mHighBallot bp with
                    | None => true
                    | Some h => ballot_ltb h newH
                    end in
       when raise (bset (set_mHighBallot (Some newH)));;
       when (negb (counter newC =? 0))
         (dbgAssert (negb (is_some (mCommit bp)));;
          bset (set_mCommit (Some newC)));;
       let didWork := raise || negb (counter newC =? 0) in
       idx ← gets mSlotIndex;
       when didWork (call (ConfirmedBallotPrepared idx newH));;
       mret didWork
     else mret false);
  updated ← updateCurrentIfNeeded newH;
  let didWork := (updated : bool) || (didWork : bool) in
  when didWork emitCurrentStateStatement;;
  mret didWork.

(** The first loop of [attemptConfirmPrepared]: the highest ratified candidate
    that raises [h], with the candidates from there on. *)
Fixpoint findNewH (high : option SCPBallot) (ratifies : SCPBallot → bool)
    (cands : list SCPBallot) : option (SCPBallot * list SCPBallot) :=
  match cands with
  | [] => None
  | ballot :: rest =>
      if opt_is (ballot_leb ballot) high then None
      else if ratifies ballot then Some (ballot, cands)
      else findNewH high ratifies rest
  end.

(** The second loop: the lowest ballot compatible with [newH] down to which all
    candidates from [b] on are ratified. *)
Fixpoint findNewC (ratifies : SCPBallot → bool) (b newH : SCPBallot)
    (cands : list SCPBallot) (newC : SCPBallot) : SCPBallot :=
  match cands with
  | [] => newC
  | ballot :: rest =>
      if ballot_ltb ballot b then newC
      else if negb (areBallotsLessAndCompatible ballot newH)
      then findNewC ratifies b newH rest newC
      else if ratifies ballot then findNewC ratifies b newH rest ballot
      else newC
  end.

Definition attemptConfirmPrepared (hint : BallotStatement) : slotM bool :=
  bp ← bget id;
  if bool_decide (mPhase bp ≠ SCP_PHASE_PREPARE) || negb (is_some (mPrepared bp))
  then mret false
  else
    let latest := mLatestEnvelopes bp in
    let candidates := getPrepareCandidates latest hint in
    let ratifies ballot := federatedRatify (hasPreparedBallot ballot) latest in
    match findNewH (mHighBallot bp) ratifies (rev candidates) with
    | None => mret false
    | Some (newH, rest) =>
        let b := default SCPBallot0 (mCurrentBallot bp) in
        let newC :=
          if negb (is_some (mCommit bp))
             && negb (opt_is (areBallotsLessAndIncompatible newH) (mPrepared bp))
             && negb (opt_is (areBallotsLessAndIncompatible newH) (mPreparedPrime bp))
          then findNewC ratifies b newH rest SCPBallot0
          else SCPBallot0 in
        setConfirmPrepared newC newH
    end.

(** **** Committing *)

Definition setAcceptCommit (c h : SCPBallot) : slotM bool :=
  bset (set_mValueOverride (Some (value h)));;
  bp ← bget id;
  let changed :=
    match mHighBallot bp, mCommit bp with
    | Some h0, Some c0 =>
        negb (match compareBallots h0 h with Eq => true | _ => false end)
        || negb (match compareBallots c0 c with Eq => true | _ => false end)
    | _, _ => true
    end in
  when changed (bset (set_mCommit (Some c));; bset (set_mHighBallot (Some h)));;
  let preparing := bool_decide (mPhase bp = SCP_PHASE_PREPARE) in
  when preparing
    (bset (set_mPhase SCP_PHASE_CONFIRM);;
     cur ← bget mCurrentBallot;
     when (match cur with
           | Some b => negb (areBallotsLessAndCompatible h b)
           | None => false
           end)
       (bumpToBallot h false);;
     bset (set_mPreparedPrime None));;
  let didWork := changed || preparing in
  when didWork
    (high ← reads (λ s, deref (mHighBallot (mBallotProtocol s)));
     updateCurrentIfNeeded high;;
     idx ← gets mSlotIndex;
     call (AcceptedCommit idx h);;
     emitCurrentStateStatement);;
  mret didWork.

(** The value a statement votes or accepts to commit, as a ballot; [None] when
    it does neither. *)
Definition commitHint (hint : BallotStatement) : option SCPBallot :=
  match pledges hint with
  | SCP_ST_PREPARE prep =>
      if negb (prep_nC prep =? 0)
      then Some (mkSCPBallot (prep_nH prep) (value (prep_ballot prep))) else None
  | SCP_ST_CONFIRM con => Some (mkSCPBallot (conf_nH con) (value (conf_ballot con)))
  | SCP_ST_EXTERNALIZE ext => Some (mkSCPBallot (ext_nH ext) (value (ext_commit ext)))
  end.

Definition attemptAcceptCommit (hint : BallotStatement) : slotM bool :=
  bp ← bget id;
  if bool_decide (mPhase bp = SCP_PHASE_EXTERNALIZE) then mret false
  else
    match commitHint hint with
    | None => mret false
    | Some ballot =>
        skip ←
          (if bool_decide (mPhase bp = SCP_PHASE_CONFIRM) then
             h ← reads (λ s, deref (mHighBallot (mBallotProtocol s)));
             mret (negb (areBallotsCompatible ballot h))
           else mret false);
        if (skip : bool) then mret false
        else
          let latest := mLatestEnvelopes bp in
          let pred cur :=
            federatedAccept (votesCommit ballot cur) (commitPredicate ballot cur) latest in
          let boundaries := getCommitBoundariesFromStatements latest ballot in
          match boundaries with
          | [] => mret false
          | _ =>
              let candidate := findExtendedInterval boundaries pred in
              if candidate.1 =? 0 then mret false
              else
                higher ←
                  (if bool_decide (mPhase bp = SCP_PHASE_CONFIRM) then
                     h ← reads (λ s, deref (mHighBallot (mBallotProtocol s)));
                     mret (counter h <? candidate.2)
                   else mret true);
                if (higher : bool) then
                  setAcceptCommit (mkSCPBallot candidate.1 (value ballot))
                    (mkSCPBallot candidate.2 (value ballot))
                else mret false
          end
    end.

Definition setConfirmCommit (c h : SCPBallot) : slotM bool :=
  bset (set_mCommit (Some c));;
  bset (set_mHighBallot (Some h));;
  updateCurrentIfNeeded h;;
  bset (set_mPhase SCP_PHASE_EXTERNALIZE);;
  emitCurrentStateStatement;;
  stopNomination;;
  commit ← reads (λ s, deref (mCommit (mBallotProtocol s)));
  idx ← gets mSlotIndex;
  call (ValueExternalized idx (value commit));;
  mret true.

Definition attemptConfirmCommit (hint : BallotStatement) : slotM bool :=
  bp ← bget id;
  if bool_decide (mPhase bp ≠ SCP_PHASE_CONFIRM) then mret false
  else
    match mHighBallot bp, mCommit bp with
    | Some _, Some commit =>
        match pledges hint, commitHint hint with
        | SCP_ST_PREPARE _, _ | _, None => mret false
        | _, Some ballot =>
            if negb (areBallotsCompatible ballot commit) then mret false
            else
              let latest := mLatestEnvelopes bp in
              let boundaries := getCommitBoundariesFromStatements latest ballot in
              let pred cur := federatedRatify (commitPredicate ballot cur) latest in
              let candidate := findExtendedInterval boundaries pred in
              if candidate.1 =? 0 then mret false
              else
                setConfirmCommit (mkSCPBallot candidate.1 (value ballot))
                  (mkSCPBallot candidate.2 (value ballot))
        end
    | _, _ => mret false
    end.

(** **** Catching up with a v-blocking set *)

Definition hasVBlockingSubsetStrictlyAheadOf (latest : gmap NodeID BallotEnvelopeW) (n : Z)
    : bool :=
  isVBlocking_map (getQuorumSet L) latest
    (λ e, n <? statementBallotCounter (getStatement e)).

(** All counters above [localCounter], in increasing order. *)
Definition countersAbove (latest : gmap NodeID BallotEnvelopeW) (localCounter : Z) : list Z :=
  foldl (λ allCounters st,
           let c := statementBallotCounter st in
           if localCounter <? c then set_insert c allCounters else allCounters)
    [] (latest_statements latest).

Definition attemptBump : slotM bool :=
  bp ← bget id;
  if bool_decide (mPhase bp = SCP_PHASE_EXTERNALIZE) then mret false
  else
    let latest := mLatestEnvelopes bp in
    let localCounter :=
      match mCurrentBallot bp with Some b => counter b | None => 0 end in
    if negb (hasVBlockingSubsetStrictlyAheadOf latest localCounter) then mret false
    else
      match
        find (λ n, negb (hasVBlockingSubsetStrictlyAheadOf latest n))
          (countersAbove latest localCounter)
      with
      | Some n => abandonBallot n
      | None => mret false
      end.

(** The [do ... while (didBump)] loop; the result says whether any iteration
    bumped.  [attemptBump] returns [true] at most once in each of the phases
    PREPARE and CONFIRM, so three iterations are enough. *)
Fixpoint bumpLoop (fuel : nat) : slotM bool :=
  match fuel with
  | O => throw OutOfFuel
  | S fuel' =>
      didBump ← attemptBump;
      if (didBump : bool) then bumpLoop fuel';; mret true else mret false
  end.

Definition advanceSlot (hint : BallotStatement) : slotM unit :=
  bset (λ bp, set_mCurrentMessageLevel (mCurrentMessageLevel bp + 1) bp);;
  level ← bget mCurrentMessageLevel;
  if MAX_ADVANCE_SLOT_RECURSION <=? level
  then throw (RuntimeError "maximum number of transitions reached in advanceSlot")
  else
    work1 ← attemptAcceptPrepared hint;
    work2 ← attemptConfirmPrepared hint;
    work3 ← attemptAcceptCommit hint;
    work4 ← attemptConfirmCommit hint;
    level ← bget mCurrentMessageLevel;
    work5 ←
      (if level =? 1 then
         bumped ← bumpLoop 3;
         checkHeardFromQuorum;;
         mret bumped
       else mret false);
    bset (λ bp, set_mCurrentMessageLevel (mCurrentMessageLevel bp - 1) bp);;
    when ((work1 : bool) || (work2 : bool) || (work3 : bool) || (work4 : bool)
          || (work5 : bool))
      sendLatestEnvelope.

(** **** Processing an envelope *)

Definition processEnvelope_body (env : BallotEnvelopeW) (self : bool) : slotM EnvelopeState :=
  idx ← gets mSlotIndex;
  let statement := getStatement env in
  dbgAssert (slotIndex statement =? idx);;
  bp ← bget id;
  if negb (isStatementSane D statement self) then mret INVALID
  else if negb (isNewerStatement (mLatestEnvelopes bp) (nodeID statement) statement)
  then mret INVALID
  else
    let validationRes := validateValues D idx statement in
    if bool_decide (validationRes = kInvalidValue) then mret INVALID
    else if bool_decide (mPhase bp ≠ SCP_PHASE_EXTERNALIZE) then
      when (bool_decide (validationRes = kMaybeValidValue)) (setFullyValidated false);;
      recordEnvelope env;;
      advanceSlot statement;;
      mret VALID
    else
      commit ← reads (λ s, deref (mCommit (mBallotProtocol s)));
      if bool_decide (value commit = value (getWorkingBallot statement)) then
        recordEnvelope env;;
        mret VALID
      else mret INVALID.
End emit.

(** Each recursive call enters [advanceSlot] one message level deeper, and
    [advanceSlot] throws at level [MAX_ADVANCE_SLOT_RECURSION]: fuel 50 is
    enough from level 0. *)
Fixpoint processEnvelope_fuel (fuel : nat) (env : BallotEnvelopeW) (self : bool)
    : slotM EnvelopeState :=
  match fuel with
  | O => throw OutOfFuel
  | S fuel' => processEnvelope_body (processEnvelope_fuel fuel') env self
  end.

Definition processEnvelope : BallotEnvelopeW → bool → slotM EnvelopeState :=
  processEnvelope_fuel 50.

(** *** Restoring and reporting the state *)

Definition setStateFromEnvelope (e : BallotEnvelopeW) : slotM unit :=
  cur ← bget mCurrentBallot;
  if is_some cur
  then throw (RuntimeError "Cannot set state after starting ballot protocol")
  else
    recordEnvelope e;;
    bset (set_mLastEnvelope (Some e));;
    bset (set_mLastEnvelopeEmit (Some e));;
    match pledges (getStatement e) with
    | SCP_ST_PREPARE prep =>
        let b := prep_ballot prep in
        bumpToBallot b true;;
        when (is_some (prep_prepared prep)) (bset (set_mPrepared (prep_prepared prep)));;
        when (is_some (prep_preparedPrime prep))
          (bset (set_mPreparedPrime (prep_preparedPrime prep)));;
        when (negb (prep_nH prep =? 0))
          (bset (set_mHighBallot (Some (mkSCPBallot (prep_nH prep) (value b)))));;
        when (negb (prep_nC prep =? 0))
          (bset (set_mCommit (Some (mkSCPBallot (prep_nC prep) (value b)))));;
        bset (set_mPhase SCP_PHASE_PREPARE)
    | SCP_ST_CONFIRM c =>
        let v := value (conf_ballot c) in
        bumpToBallot (conf_ballot c) true;;
        bset (set_mPrepared (Some (mkSCPBallot (conf_nPrepared c) v)));;
        bset (set_mHighBallot (Some (mkSCPBallot (conf_nH c) v)));;
        bset (set_mCommit (Some (mkSCPBallot (conf_nCommit c) v)));;
        bset (set_mPhase SCP_PHASE_CONFIRM)
    | SCP_ST_EXTERNALIZE ext =>
        let v := value (ext_commit ext) in
        bumpToBallot (mkSCPBallot UINT32_MAX v) true;;
        bset (set_mPrepared (Some (mkSCPBallot UINT32_MAX v)));;
        bset (set_mHighBallot (Some (mkSCPBallot (ext_nH ext) v)));;
        bset (set_mCommit (Some (ext_commit ext)));;
        bset (set_mPhase SCP_PHASE_EXTERNALIZE)
    end.
End methods.

(** The map is iterated in the order of its keys. *)
Definition in_key_order {A} (m : gmap NodeID A) : list (NodeID * A) :=
  std_sort (λ l r, ltb l.1 r.1) (map_to_list m).

(** The visitor [f] stops the iteration by returning [false]; the envelopes it
    was handed, and whether it saw them all. *)
Fixpoint visit (f : SCPEnvelope → bool) (envs : list SCPEnvelope) : list SCPEnvelope * bool :=
  match envs with
  | [] => ([], true)
  | e :: envs' =>
      if f e then let r := visit f envs' in (e :: r.1, r.2) else ([e], false)
  end.

Definition processCurrentState (L : LocalNode) (s : Slot) (f : SCPEnvelope → bool)
    (forceSelf : bool) : list SCPEnvelope * bool :=
  visit f
    ((λ n, map_envelope inl (getEnvelope n.2)) <$>
     filter (λ n, forceSelf = true ∨ n.1 ≠ getNodeID L ∨ mFullyValidated s = true)
       (in_key_order (mLatestEnvelopes (mBallotProtocol s)))).

Definition getLatestMessage (s : Slot) (id : NodeID) : option (Envelope BallotPledges) :=
  getEnvelope <$> mLatestEnvelopes (mBallotProtocol s) !! id.

Definition getExternalizingState (L : LocalNode) (s : Slot) : res (list SCPEnvelope) :=
  let bp := mBallotProtocol s in
  if bool_decide (mPhase bp = SCP_PHASE_EXTERNALIZE) then
    foldr (λ n rest,
             keep ←
               (if bool_decide (n.1 ≠ getNodeID L) then
                  c ← deref (mCommit bp);
                  mret (areBallotsCompatible (getWorkingBallot (getStatement n.2)) c)
                else mret (mFullyValidated s));
             res ← rest;
             mret (if (keep : bool) then map_envelope inl (getEnvelope n.2) :: res else res))
      (mret []) (in_key_order (mLatestEnvelopes bp))
  else mret [].

(** *** The public operations, with the recursion closed *)

Section public.
Context (D : SCPDriver) (L : LocalNode).

Definition Slot_bumpState (value : Value) (force : bool) : slotM bool :=
  bumpState D L (processEnvelope D L) value force.

Definition Slot_abandonBallot : slotM bool := abandonBallot D L (processEnvelope D L) 0.

Definition Slot_timerExpired : slotM unit :=
  ballotProtocolTimerExpired D L (processEnvelope D L).
End public.
