(* ===== verification/Nomination.v ===== *)
(** * The nomination protocol

    Models [scp/NominationProtocol.cpp] method by method, and the methods of
    [scp/Slot.cpp] that choose between the two protocols.

    As in the ballot protocol a node processes its own statements:
    [emitNomination] and the methods built on it take [process], the recursive
    call of [processEnvelope]; the knot is tied by [processNomination_fuel].  The
    search for round leaders is a loop whose end depends on the hash function: it
    takes its own fuel. *)

From S2P Require Import Prelude StateMonad QuorumSet ScpTypes Ballot.

(** ** Statements *)

(** [std::includes] on two sorted ranges: [p] in [v]. *)
Fixpoint std_includes (v p : list Value) : bool :=
  match p with
  | [] => true
  | b :: p' =>
      match v with
      | [] => false
      | a :: v' =>
          if ltb b a then false
          else if ltb a b then std_includes v' p
          else std_includes v' p'
      end
  end.

(** Whether [p] is a subset of [v], and [notEqual]. *)
Definition isSubsetHelper (p v : list Value) : bool * bool :=
  if (length p <=? length v)%nat then
    if std_includes v p then (true, negb (length p =? length v)%nat) else (false, true)
  else (false, true).

Definition isNewerNomination_st (oldst st : SCPNomination) : bool :=
  let '(sub, grows) := isSubsetHelper (nom_votes oldst) (nom_votes st) in
  if sub then
    let '(sub', g) := isSubsetHelper (nom_accepted oldst) (nom_accepted st) in
    if sub' then grows || g else false
  else false.

Definition isNewerNomination (latest : gmap NodeID NominationEnvelopeW) (node : NodeID)
    (st : SCPNomination) : bool :=
  match latest !! node with
  | None => true
  | Some old => isNewerNomination_st (pledges (getStatement old)) st
  end.

(** No two adjacent values that are not increasing: [std::adjacent_find]. *)
Fixpoint adjacent_increasing (l : list Value) : bool :=
  match l with
  | x :: (y :: _) as l' => ltb x y && adjacent_increasing l'
  | _ => true
  end.

Definition isSaneNomination (nom : SCPNomination) : bool :=
  negb (length (nom_votes nom) + length (nom_accepted nom) =? 0)%nat
  && adjacent_increasing (nom_votes nom) && adjacent_increasing (nom_accepted nom).

Definition acceptPredicate (v : Value) (st : NominationStatement) : bool :=
  bool_decide (v ∈ nom_accepted (pledges st)).

(** The first predicate given to [federatedAccept]. *)
Definition votePredicate (v : Value) (st : NominationStatement) : bool :=
  bool_decide (v ∈ nom_votes (pledges st)).

(** The values [applyAll] hands to its processor, in order. *)
Definition applyAll (nom : SCPNomination) : list Value :=
  nom_votes nom ++ filter (λ a, a ∉ nom_votes nom) (nom_accepted nom).

Definition getNominationValues (st : NominationStatement) : list Value := applyAll (pledges st).

(** ** Priorities and leaders *)

Section leaders.
Context (D : SCPDriver) (L : LocalNode) (idx : Z).
Implicit Types (np : NominationProtocol).

Definition hashNode np (isPriority : bool) (node : NodeID) : res Z :=
  cassert (negb (length (mPreviousValue np) =? 0)%nat);;
  mret (computeHashNode D idx (mPreviousValue np) isPriority (mRoundNumber np) node).

Definition hashValue np (v : Value) : res Z :=
  cassert (negb (length (mPreviousValue np) =? 0)%nat);;
  mret (computeValueHash D idx (mPreviousValue np) (mRoundNumber np) v).

Definition getNodePriority np (node : NodeID) (qset : SCPQuorumSet) : res Z :=
  w ← (if bool_decide (node = getNodeID L) then mret UINT64_MAX else getNodeWeight node qset);
  if 0 <? w then
    h ← hashNode np false node;
    if h <=? w then hashNode np true node else mret 0
  else mret 0.

(** The inner loop of [updateRoundLeaders]: the nodes of highest priority. *)
Fixpoint topLeaders np (qset : SCPQuorumSet) (nodes : list NodeID) (topPriority : Z)
    (newRoundLeaders : list NodeID) : res (list NodeID) :=
  match nodes with
  | [] => mret newRoundLeaders
  | cur :: nodes' =>
      w ← getNodePriority np cur qset;
      let '(top, leaders) :=
        if topPriority <? w then (w, []) else (topPriority, newRoundLeaders) in
      topLeaders np qset nodes' top
        (if (w =? top) && (0 <? w) then set_insert cur leaders else leaders)
  end.

(** [forAllNodes] with a processor that never stops visits [qset_nodes] in order. *)
Definition newLeaders np (qset : SCPQuorumSet) : res (list NodeID) :=
  top ← getNodePriority np (getNodeID L) qset;
  topLeaders np qset (qset_nodes qset) top [getNodeID L].

Fixpoint updateRoundLeaders_loop (fuel : nat) (qset : SCPQuorumSet) (maxLeaderCount : nat)
    np : res NominationProtocol :=
  match fuel with
  | O => Throw OutOfFuel
  | S fuel' =>
      if (length (mRoundLeaders np) <? maxLeaderCount)%nat then
        new ← newLeaders np qset;
        let leaders := foldl (λ l n, set_insert n l) (mRoundLeaders np) new in
        if (length (mRoundLeaders np) =? length leaders)%nat
        then updateRoundLeaders_loop fuel' qset maxLeaderCount
               (set_mRoundNumber (i32 (mRoundNumber np + 1)) (set_mRoundLeaders leaders np))
        else mret (set_mRoundLeaders leaders np)
      else mret np
  end.

Definition updateRoundLeaders (fuel : nat) np : res NominationProtocol :=
  let myQSet := normalizeQSet (getQuorumSet L) (Some (getNodeID L)) in
  updateRoundLeaders_loop fuel myQSet (S (length (qset_nodes myQSet))) np.

(** ** New values from a leader *)

(** What the node would vote for in place of [v]. *)
Definition valueToNominate (v : Value) : option Value :=
  if bool_decide (validateValue D idx v true = kFullyValidatedValue) then Some v
  else extractValidValue D idx v.

Fixpoint bestNewValue np (values : list Value) (newHash : Z) (newVote : option Value)
    : res (option Value) :=
  match values with
  | [] => mret newVote
  | v :: values' =>
      match valueToNominate v with
      | Some x =>
          if bool_decide (x ∈ mVotes np) then bestNewValue np values' newHash newVote
          else
            curHash ← hashValue np x;
            if newHash <=? curHash then bestNewValue np values' curHash (Some x)
            else bestNewValue np values' newHash newVote
      | None => bestNewValue np values' newHash newVote
      end
  end.

Definition getNewValueFromNomination np (nom : SCPNomination) : res (option Value) :=
  bestNewValue np (applyAll nom) 0 None.
End leaders.

(** ** Methods *)

Section methods.
Context (D : SCPDriver) (L : LocalNode).

Definition recordNomination (env : NominationEnvelopeW) : slotM unit :=
  latest ← nget mLatestNominations;
  nset (set_mLatestNominations (<[ nodeID (getStatement env) := env ]> latest));;
  recordStatement (map_statement inr (getStatement env)).

(** Runs a function on the state of the protocol that does not change it. *)
Definition nreads {A} (f : Z → NominationProtocol → res A) : slotM A :=
  reads (λ s, f (mSlotIndex s) (mNominationProtocol s)).

Section emit.
(** The recursive call of [Slot::processEnvelope]. *)
Context (process : NominationEnvelopeW → slotM EnvelopeState).

Definition emitNomination : slotM unit :=
  np ← nget id;
  let nom := mkNomination (getQuorumSetHash L) (mVotes np) (mAccepted np) in
  envelope ← createEnvelope D L inr nom;
  envW ← wrapEnvelope envelope;
  r ← process envW;
  if bool_decide (r = VALID) then
    last ← nget mLastNomination;
    when (match last with
          | None => true
          | Some l => isNewerNomination_st (pledges (getStatement l)) nom
          end)
      (nset (set_mLastNomination (Some envW));;
       full ← gets mFullyValidated;
       when full (call (EmitEnvelope (map_envelope inr envelope))))
  else throw (RuntimeError "moved to a bad state (nomination)").

(** Promotes one of the votes to accepted, or votes for a variation of it. *)
Definition promoteVote (v : Value) : slotM bool :=
  idx ← gets mSlotIndex;
  np ← nget id;
  if bool_decide (v ∈ mAccepted np) then mret false
  else if federatedAccept_with L (getQuorumSetFromNomination D) (votePredicate v)
            (acceptPredicate v) (mLatestNominations np) then
    if bool_decide (validateValue D idx v true = kFullyValidatedValue) then
      nset (λ np, set_mVotes (set_insert v (mVotes np))
                    (set_mAccepted (set_insert v (mAccepted np)) np));;
      mret true
    else
      match extractValidValue D idx v with
      | Some toVote =>
          nset (λ np, set_mVotes (set_insert toVote (mVotes np)) np);;
          mret (negb (bool_decide (toVote ∈ mVotes np)))
      | None => mret false
      end
  else mret false.

Fixpoint promoteVotes (votes : list Value) (modified : bool) : slotM bool :=
  match votes with
  | [] => mret modified
  | v :: votes' =>
      m ← promoteVote v;
      promoteVotes votes' ((m : bool) || modified)
  end.

(** Promotes accepted values to candidates. *)
Fixpoint promoteAccepted (accepted : list Value) (newCandidates : bool) : slotM bool :=
  match accepted with
  | [] => mret newCandidates
  | a :: accepted' =>
      np ← nget id;
      if bool_decide (a ∈ mCandidates np) then promoteAccepted accepted' newCandidates
      else if federatedRatify_with L (getQuorumSetFromNomination D) (acceptPredicate a)
                (mLatestNominations np) then
        nset (λ np, set_mCandidates (set_insert a (mCandidates np)) np);;
        promoteAccepted accepted' true
      else promoteAccepted accepted' newCandidates
  end.

(** Votes for a new value of a leader; whether it did. *)
Definition takeLeaderVote (nom : SCPNomination) : slotM bool :=
  idx ← gets mSlotIndex;
  newVote ← nreads (λ idx np, getNewValueFromNomination D idx np nom);
  match newVote with
  | Some v =>
      nset (λ np, set_mVotes (set_insert v (mVotes np)) np);;
      call (NominatingValue idx v);;
      mret true
  | None => mret false
  end.

(** Combines the candidates and starts a ballot on the result. *)
Definition updateCandidate : slotM unit :=
  idx ← gets mSlotIndex;
  np ← nget id;
  nset (set_mLatestCompositeCandidate (combineCandidates D idx (mCandidates np)));;
  candidate ← reads (λ s, deref (mLatestCompositeCandidate (mNominationProtocol s)));
  call (UpdatedCandidateValue idx candidate);;
  Slot_bumpState D L candidate false;;
  mret tt.

(** What a recorded statement of [sender] changes once nomination has started. *)
Definition reactToNomination (sender : NodeID) (nom : SCPNomination) : slotM unit :=
  modified ← promoteVotes (nom_votes nom) false;
  accepted ← nget mAccepted;
  newCandidates ← promoteAccepted accepted false;
  np ← nget id;
  took ←
    (if bool_decide (mCandidates np = []) && bool_decide (sender ∈ mRoundLeaders np)
     then takeLeaderVote nom else mret false);
  when ((modified : bool) || (took : bool)) emitNomination;;
  when newCandidates updateCandidate.

Definition processNomination_body (env : NominationEnvelopeW) : slotM EnvelopeState :=
  idx ← gets mSlotIndex;
  let st := getStatement env in
  let nom := pledges st in
  dbgAssert (slotIndex st =? idx);;
  np ← nget id;
  if negb (isNewerNomination (mLatestNominations np) (nodeID st) nom) then mret INVALID
  else if negb (isSaneNomination nom) then mret INVALID
  else
    recordNomination env;;
    started ← nget mNominationStarted;
    when started (reactToNomination (nodeID st) nom);;
    mret VALID.
End emit.

Fixpoint processNomination_fuel (fuel : nat) (env : NominationEnvelopeW) : slotM EnvelopeState :=
  match fuel with
  | O => throw OutOfFuel
  | S fuel' => processNomination_body (processNomination_fuel fuel') env
  end.

(** All the values in the statements the node has and in its own sets, with
    duplicates. *)
Definition mentioned (s : Slot) : list Value :=
  let np := mNominationProtocol s in
  concat ((λ e, let nom := pledges (getStatement e.2) in nom_votes nom ++ nom_accepted nom)
            <$> map_to_list (mLatestNominations np)) ++ mVotes np ++ mAccepted np.

(** Each recursive call follows the growth of the votes or of the accepted
    values, all of them among the values mentioned and the valid values extracted
    from these. *)
Definition nomination_fuel (s : Slot) (nom : SCPNomination) : nat :=
  S (4 * (length (mentioned s) + length (nom_votes nom) + length (nom_accepted nom))).

Definition processNomination (env : NominationEnvelopeW) : slotM EnvelopeState :=
  λ s, processNomination_fuel (nomination_fuel s (pledges (getStatement env))) env s.

(** The values of the leaders the node has heard from. *)
Fixpoint takeLeaderVotes (leaders : list NodeID) (updated : bool) : slotM bool :=
  match leaders with
  | [] => mret updated
  | leader :: leaders' =>
      latest ← nget mLatestNominations;
      match latest !! leader with
      | Some e =>
          took ← takeLeaderVote (pledges (getStatement e));
          takeLeaderVotes leaders' ((took : bool) || updated)
      | None => takeLeaderVotes leaders' updated
      end
  end.

(** [fuel] bounds the search for new leaders. *)
Definition nominate (fuel : nat) (v previousValue : Value) (timedout : bool) : slotM bool :=
  started ← nget mNominationStarted;
  if timedout && negb started then mret false
  else
    nset (set_mNominationStarted true);;
    nset (set_mPreviousValue previousValue);;
    nset (λ np, set_mRoundNumber (i32 (mRoundNumber np + 1)) np);;
    np' ← nreads (λ idx np, updateRoundLeaders D L idx fuel np);
    nset (λ _, np');;
    let timeout := computeTimeout (u32 (mRoundNumber np')) in
    idx ← gets mSlotIndex;
    updated ←
      (if bool_decide (getNodeID L ∈ mRoundLeaders np') && negb (bool_decide (v ∈ mVotes np'))
       then
         nset (λ np, set_mVotes (set_insert v (mVotes np)) np);;
         call (NominatingValue idx v);;
         mret true
       else mret false);
    updated ← takeLeaderVotes (mRoundLeaders np') updated;
    call (SetupTimer idx NOMINATION_TIMER timeout (NominateTimedOut v previousValue));;
    when updated (emitNomination processNomination);;
    mret updated.

Definition setStateFromNomination (e : NominationEnvelopeW) : slotM unit :=
  started ← nget mNominationStarted;
  if (started : bool)
  then throw (RuntimeError "Cannot set state after nomination is started")
  else
    recordNomination e;;
    let nom := pledges (getStatement e) in
    nset (λ np, set_mAccepted (foldl (λ l a, set_insert a l) (mAccepted np) (nom_accepted nom)) np);;
    nset (λ np, set_mVotes (foldl (λ l v, set_insert v l) (mVotes np) (nom_votes nom)) np);;
    nset (set_mLastNomination (Some e)).

(** ** The slot *)

(** An envelope, by the type of its statement. *)
Definition split_envelope (w : EnvelopeWrapper SCPPledges)
    : BallotEnvelopeW + NominationEnvelopeW :=
  let e := getEnvelope w in
  let st := statement e in
  match pledges st with
  | inl pl =>
      inl (mkWrapper (wrapperId w)
             (mkEnvelope (mkStatement (nodeID st) (slotIndex st) pl) (signature e)))
  | inr nom =>
      inr (mkWrapper (wrapperId w)
             (mkEnvelope (mkStatement (nodeID st) (slotIndex st) nom) (signature e)))
  end.

Definition Slot_processEnvelope (w : EnvelopeWrapper SCPPledges) (self : bool)
    : slotM EnvelopeState :=
  match split_envelope w with
  | inl env => processEnvelope D L env self
  | inr env => processNomination env
  end.

Definition Slot_setStateFromEnvelope (w : EnvelopeWrapper SCPPledges) : slotM unit :=
  idx ← gets mSlotIndex;
  let st := statement (getEnvelope w) in
  when (bool_decide (nodeID st = getNodeID L) && (slotIndex st =? idx))
    (match split_envelope w with
     | inl env => setStateFromEnvelope env
     | inr env => setStateFromNomination env
     end).
End methods.

(** *** Reporting the state *)

Definition getLatestMessagesSend (s : Slot) : list SCPEnvelope :=
  if mFullyValidated s then
    let nom := map_envelope inr ∘ getEnvelope <$> mLastNomination (mNominationProtocol s) in
    let bal := map_envelope inl ∘ getEnvelope <$> mLastEnvelopeEmit (mBallotProtocol s) in
    option_list nom ++ option_list bal
  else [].

Definition processCurrentNominations (L : LocalNode) (s : Slot) (f : SCPEnvelope → bool)
    (forceSelf : bool) : list SCPEnvelope * bool :=
  visit f
    ((λ n, map_envelope inr (getEnvelope n.2)) <$>
     filter (λ n, forceSelf = true ∨ n.1 ≠ getNodeID L ∨ mFullyValidated s = true)
       (in_key_order (mLatestNominations (mNominationProtocol s)))).

(** The nominations first; the ballots if the visitor saw all of them. *)
Definition Slot_processCurrentState (L : LocalNode) (s : Slot) (f : SCPEnvelope → bool)
    (forceSelf : bool) : list SCPEnvelope :=
  let r := processCurrentNominations L s f forceSelf in
  if r.2 then r.1 ++ (processCurrentState L s f forceSelf).1 else r.1.

(** The latest ballot statement of a node, its latest nomination otherwise. *)
Definition Slot_getLatestMessage (s : Slot) (id : NodeID) : option SCPEnvelope :=
  match getLatestMessage s id with
  | Some e => Some (map_envelope inl e)
  | None =>
      map_envelope inr ∘ getEnvelope <$> mLatestNominations (mNominationProtocol s) !! id
  end.
