(* ===== verification/NominationOrder.v ===== *)
(** * The order of nomination statements

    A node's nominations supersede each other by the growth of their sets: the
    functions that compare them, on sorted vectors, against inclusion of sets. *)

From stdpp Require Import sorting.
From S2P Require Import Prelude StateMonad QuorumSet ScpTypes Ballot Nomination.

(** ** Strictly increasing lists as sets *)

Section increasing.
Context {A : Type} `{TotalOrd A}.
Implicit Types (l : list A).

Lemma increasing_cons x l : increasing (x :: l) ↔ (∀ y, y ∈ l → cmp x y = Lt) ∧ increasing l.
Proof.
  unfold increasing. split.
  - intros [Hl Hx]%StronglySorted_inv. by rewrite Forall_forall in Hx.
  - intros [Hx Hl]. constructor; [done|]. by apply Forall_forall.
Qed.

Lemma increasing_notin x l : increasing (x :: l) → x ∉ l.
Proof. intros [Hx _]%increasing_cons Hin. specialize (Hx x Hin). by rewrite cmp_refl in Hx. Qed.

Lemma increasing_NoDup l : increasing l → NoDup l.
Proof.
  induction l as [|x l IH]; [constructor|]. intros Hl. constructor; [by apply increasing_notin|].
  apply IH. by apply increasing_cons in Hl as [_ ?].
Qed.

Lemma set_insert_in x l : increasing l → x ∈ l → set_insert x l = l.
Proof.
  induction l as [|y l IH]; [by intros _ ?%not_elem_of_nil|].
  intros [Hy Hl]%increasing_cons Hx. simpl. apply elem_of_cons in Hx as [->|Hx].
  - by rewrite cmp_refl.
  - specialize (Hy x Hx). assert (cmp x y = Gt) as -> by (by apply cmp_gt_lt).
    f_equal. auto.
Qed.

Lemma set_insert_length x l : increasing l → x ∉ l → length (set_insert x l) = S (length l).
Proof.
  induction l as [|y l IH]; [done|]. intros [Hy Hl]%increasing_cons Hx. simpl.
  destruct (cmp x y) eqn:E; [apply cmp_eq in E; set_solver|done|].
  simpl. rewrite IH; set_solver.
Qed.

(** Inclusion of increasing lists, and when it is strict. *)
Lemma increasing_subset_length l l' :
  increasing l → (∀ x, x ∈ l → x ∈ l') → (length l ≤ length l')%nat.
Proof.
  intros Hl Hsub. apply submseteq_length, NoDup_submseteq; [by apply increasing_NoDup|done].
Qed.

Lemma increasing_ext l l' :
  increasing l → increasing l' → (∀ x, x ∈ l ↔ x ∈ l') → l = l'.
Proof.
  revert l'. induction l as [|x l IH]; intros [|y l'] Hl Hl' Heq; [done|set_solver..|].
  pose proof Hl as [Hx Hi]%increasing_cons. pose proof Hl' as [Hy Hi']%increasing_cons.
  assert (x = y) as ->.
  { destruct (cmp x y) eqn:E; [by apply cmp_eq| |].
    - assert (x ∈ y :: l') as Hin by (apply Heq; left).
      apply elem_of_cons in Hin as [->|Hin]; [done|]. specialize (Hy x Hin).
      pose proof (cmp_trans _ _ _ E Hy) as Hf. by rewrite cmp_refl in Hf.
    - apply cmp_gt_lt in E. assert (y ∈ x :: l) as Hin by (apply Heq; left).
      apply elem_of_cons in Hin as [->|Hin]; [done|]. specialize (Hx y Hin).
      pose proof (cmp_trans _ _ _ E Hx) as Hf. by rewrite cmp_refl in Hf. }
  f_equal. apply IH; [done..|]. intros z.
  pose proof (increasing_notin _ _ Hl). pose proof (increasing_notin _ _ Hl').
  specialize (Heq z). set_solver.
Qed.

Lemma increasing_subset_eq l l' :
  increasing l → increasing l' → (∀ x, x ∈ l → x ∈ l') → length l = length l' → l = l'.
Proof.
  intros Hl Hl' Hsub Hlen. apply increasing_ext; [done..|]. intros x. split; [auto|].
  assert (l ≡ₚ l') as ->; [|done]. apply submseteq_length_Permutation; [|lia].
  apply NoDup_submseteq; [by apply increasing_NoDup|done].
Qed.
End increasing.

(** ** [std::includes] and [isSubsetHelper] *)

Lemma std_includes_spec v p :
  increasing v → increasing p → std_includes v p = true ↔ ∀ x, x ∈ p → x ∈ v.
Proof.
  revert p. induction v as [|a v IH]; intros [|b p] Hv Hp; cbn [std_includes];
    [split; set_solver|split; set_solver|split; set_solver|].
  pose proof Hv as [Ha Hv']%increasing_cons. pose proof Hp as [Hb Hp']%increasing_cons.
  destruct (ltb b a) eqn:E1; [|destruct (ltb a b) eqn:E2].
  - apply ltb_lt in E1. split; [done|]. intros Hsub. exfalso.
    assert (b ∈ a :: v) as Hin by (apply Hsub; left).
    apply elem_of_cons in Hin as [->|Hin]; [by rewrite cmp_refl in E1|].
    pose proof (cmp_trans _ _ _ E1 (Ha b Hin)) as Hf. by rewrite cmp_refl in Hf.
  - apply ltb_lt in E2. rewrite IH by done.
    assert (∀ x, x ∈ b :: p → x ≠ a) as Hne.
    { intros x Hx ->. apply elem_of_cons in Hx as [->|Hx]; [by rewrite cmp_refl in E2|].
      pose proof (cmp_trans _ _ _ E2 (Hb a Hx)) as Hf. by rewrite cmp_refl in Hf. }
    split; intros Hsub x Hx; specialize (Hsub x Hx); [by right|].
    apply elem_of_cons in Hsub as [->|?]; [by apply Hne in Hx|done].
  - assert (a = b) as ->.
    { apply cmp_eq. unfold ltb in *. destruct (cmp a b) eqn:E; [done|done|].
      apply cmp_gt_lt in E. by rewrite E in E1. }
    rewrite IH by done. pose proof (increasing_notin _ _ Hp). set_solver.
Qed.

Lemma isSubsetHelper_spec p v sub notEqual :
  increasing p → increasing v → isSubsetHelper p v = (sub, notEqual) →
  (sub = true ↔ ∀ x, x ∈ p → x ∈ v) ∧ (notEqual = true ↔ p ≠ v).
Proof.
  intros Hp Hv. unfold isSubsetHelper.
  assert ((∀ x, x ∈ p → x ∈ v) → p ≠ v ↔ length p ≠ length v) as Heq.
  { intros Hsub. split; intros Hne E; [|by subst].
    by apply Hne, increasing_subset_eq. }
  destruct (Nat.leb_spec (length p) (length v)).
  - destruct (std_includes v p) eqn:E; intros [= <- <-].
    + pose proof (proj1 (std_includes_spec v p Hv Hp) E) as Hsub. split; [done|]. rewrite Heq by done.
      rewrite negb_true_iff. by rewrite Nat.eqb_neq.
    + assert (¬ ∀ x, x ∈ p → x ∈ v) as Hn
        by (rewrite <-std_includes_spec by done; by rewrite E).
      split; [by split|]. split; [|done]. intros _ ->. by apply Hn.
  - intros [= <- <-]. split; [split; [done|]|split; [|done]].
    + intros Hsub. apply increasing_subset_length in Hsub; [lia|done].
    + intros _ ->. lia.
Qed.

(** ** Nominations *)

(** Sorted without duplicates, as [isSane] checks. *)
Definition sorted_nomination (a : SCPNomination) : Prop :=
  increasing (nom_votes a) ∧ increasing (nom_accepted a).

Definition nom_le (a b : SCPNomination) : Prop :=
  (∀ x, x ∈ nom_votes a → x ∈ nom_votes b) ∧ (∀ x, x ∈ nom_accepted a → x ∈ nom_accepted b).

Definition same_sets (a b : SCPNomination) : Prop :=
  nom_votes a = nom_votes b ∧ nom_accepted a = nom_accepted b.

#[export] Instance nom_le_preorder : PreOrder nom_le.
Proof.
  split; [done|]. intros a b c [V1 A1] [V2 A2]. split; auto.
Qed.

Lemma isNewerNomination_le a b :
  sorted_nomination a → sorted_nomination b →
  isNewerNomination_st a b = true ↔ nom_le a b ∧ ¬ same_sets a b.
Proof.
  intros [Va Aa] [Vb Ab]. unfold isNewerNomination_st.
  destruct (isSubsetHelper (nom_votes a) (nom_votes b)) as [sv nv] eqn:Ev.
  destruct (isSubsetHelper (nom_accepted a) (nom_accepted b)) as [sa na] eqn:Ea.
  apply isSubsetHelper_spec in Ev as [Hsv Hnv]; [|done..].
  apply isSubsetHelper_spec in Ea as [Hsa Hna]; [|done..].
  unfold nom_le, same_sets. rewrite <-Hsv, <-Hsa.
  destruct sv; [|naive_solver]. destruct sa; [|naive_solver].
  rewrite orb_true_iff, Hnv, Hna.
  destruct (decide (nom_votes a = nom_votes b)), (decide (nom_accepted a = nom_accepted b));
    naive_solver.
Qed.

Lemma adjacent_increasing_spec l : adjacent_increasing l = true ↔ increasing l.
Proof.
  induction l as [|x l IH]; [split; [constructor|done]|].
  destruct l as [|y l].
  { split; [|done]. intros _. repeat constructor. }
  change (adjacent_increasing (x :: y :: l)) with (ltb x y && adjacent_increasing (y :: l)).
  rewrite andb_true_iff, ltb_lt, IH, (increasing_cons x). split.
  - intros [Hxy Hl]. split; [|done]. intros z [->|Hz]%elem_of_cons; [done|].
    apply increasing_cons in Hl as [Hy _]. eapply cmp_trans; [done|auto].
  - intros [Hx Hl]. split; [apply Hx; left|done].
Qed.

Lemma isSaneNomination_spec nom :
  isSaneNomination nom = true ↔
  (nom_votes nom ≠ [] ∨ nom_accepted nom ≠ []) ∧ sorted_nomination nom.
Proof.
  unfold isSaneNomination, sorted_nomination.
  rewrite !andb_true_iff, !adjacent_increasing_spec, negb_true_iff, Nat.eqb_neq.
  destruct (nom_votes nom), (nom_accepted nom); naive_solver lia.
Qed.

(** C24: on statements that pass [isSane], [isNewerStatement] of the nomination
    protocol is strict growth: no vote and no accepted value is lost and at least
    one of the two sets gets larger.  It is therefore a strict order. *)
Theorem isNewerNomination_growth (a b c : SCPNomination) :
  isSaneNomination a = true → isSaneNomination b = true → isSaneNomination c = true →
  (isNewerNomination_st a b = true ↔
   nom_le a b ∧ (nom_votes a ≠ nom_votes b ∨ nom_accepted a ≠ nom_accepted b)) ∧
  isNewerNomination_st a a = false ∧
  (isNewerNomination_st a b = true → isNewerNomination_st b c = true →
   isNewerNomination_st a c = true).
Proof.
  intros [_ Ha]%isSaneNomination_spec [_ Hb]%isSaneNomination_spec [_ Hc]%isSaneNomination_spec.
  split; [|split].
  - rewrite isNewerNomination_le by done. unfold same_sets.
    destruct (decide (nom_votes a = nom_votes b)), (decide (nom_accepted a = nom_accepted b));
      naive_solver.
  - apply not_true_is_false. rewrite isNewerNomination_le by done. intros [_ Hn]. by apply Hn.
  - rewrite !isNewerNomination_le by done. intros [Hab Hnab] [Hbc Hnbc].
    split; [by etrans|]. intros [Ev Ea]. apply Hnab.
    destruct Ha, Hb, Hab, Hbc. split; apply increasing_ext; try done; intros x; split; auto.
    + rewrite Ev. auto.
    + rewrite Ea. auto.
Qed.

Lemma isNewerNomination_growth_witness :
  isNewerNomination_st (mkNomination [] [[1]] []) (mkNomination [] [[1]; [2]] []) = true ↔
  nom_le (mkNomination [] [[1]] []) (mkNomination [] [[1]; [2]] []) ∧
  ([[1]] ≠ [[1]; [2]] ∨ ([] : list Value) ≠ []).
Proof.
  apply (isNewerNomination_growth (mkNomination [] [[1]] []) (mkNomination [] [[1]; [2]] [])
           (mkNomination [] [[1]; [2]] [[1]])); reflexivity.
Defined.
