(* ===== verification/Leaders.v ===== *)
(** * The search for round leaders

    [NominationProtocol::updateRoundLeaders]: which nodes become leaders, when
    the search ends, and a quorum set for which it does not. *)

From S2P Require Import Prelude Numeric QuorumSet QuorumSetProps ScpTypes Nomination.
From S2P Require Import NominationOrder.

(** ** Weights *)

Lemma computeWeight_Throw m total threshold e :
  0 < total → computeWeight m total threshold = Throw e → e = AssertFailure.
Proof.
  intros Ht. unfold computeWeight, cassert. case_match; [|by intros [= <-]].
  unfold bigDivide_u64. cbn. by rewrite div_u128_pos.
Qed.

Lemma getNodeWeight_Throw node q e : getNodeWeight node q = Throw e → e = AssertFailure.
Proof.
  induction q as [t v i IH] using qset_nested_ind. simpl.
  destruct (existsb _ v) eqn:Ev.
  { apply computeWeight_Throw. destruct v; [done|]. simpl. lia. }
  assert (i ≠ [] → 0 < Z.of_nat (length i) + Z.of_nat (length v)) as Hpos
    by (destruct i; simpl; [done|lia]).
  revert Hpos. generalize (Z.of_nat (length i) + Z.of_nat (length v)). intros d Hpos.
  assert (∀ l, Forall (λ q, getNodeWeight node q = Throw e → e = AssertFailure) l →
    (l ≠ [] → 0 < d) →
    (fix go (l : list SCPQuorumSet) : res Z :=
       match l with
       | [] => mret 0
       | q :: l' =>
           leafW ← getNodeWeight node q;
           if negb (leafW =? 0) then computeWeight leafW d t else go l'
       end) l = Throw e → e = AssertFailure) as Hgo; [|by apply Hgo].
  clear. intros l. induction l as [|q l IHl]; [done|]. intros [Hq Hl]%Forall_cons Hd.
  destruct (getNodeWeight node q) as [w|e'] eqn:Ew; [|intros [= ->]; by apply Hq].
  cbn. destruct (negb (w =? 0)); [by apply computeWeight_Throw, Hd|].
  apply IHl; [done|]. intros _. by apply Hd.
Qed.

(** ** The quorum set without the node itself *)

Lemma simplify_remove_nodes q id :
  qset_nodes (normalizeQSetSimplify q (Some id)) ≡ₚ filter (λ n, n ≠ id) (qset_nodes q).
Proof.
  induction q as [t v i IH] using qset_nested_ind. cbn [normalizeQSetSimplify].
  pose proof (absorb_spec (map (λ q, normalizeQSetSimplify q (Some id)) i)
    (filter (λ n, n ≠ id) v) []) as Hab.
  destruct (foldl _ _ _) as [v' i']. destruct Hab as (_ & _ & _ & Hp).
  rewrite collapse_nodes. cbn [qset_nodes]. rewrite Hp, filter_app. cbn [map concat].
  rewrite map_map. f_equiv.
  clear Hp. induction IH as [|q l Hq Hl IHl]; simpl; [done|]. by rewrite Hq, IHl, filter_app.
Qed.

(** The other nodes of the local quorum set, as [updateRoundLeaders] counts them. *)
Definition leaderQSet (L : LocalNode) : SCPQuorumSet :=
  normalizeQSet (getQuorumSet L) (Some (getNodeID L)).

Lemma leaderQSet_nodes L x :
  x ∈ qset_nodes (leaderQSet L) ↔ x ∈ qset_nodes (getQuorumSet L) ∧ x ≠ getNodeID L.
Proof.
  unfold leaderQSet, normalizeQSet. rewrite reorder_nodes, simplify_remove_nodes.
  rewrite list_elem_of_filter. naive_solver.
Qed.

Section search.
Context (D : SCPDriver) (L : LocalNode) (idx : Z).
Implicit Types (n : NominationProtocol).

Lemma hashNode_Throw n p node e : hashNode D idx n p node = Throw e → e = AssertFailure.
Proof. unfold hashNode. destruct (negb _); cbn; [done|]. by intros [= <-]. Qed.

Lemma getNodePriority_Throw n node q e :
  getNodePriority D L idx n node q = Throw e → e = AssertFailure.
Proof.
  unfold getNodePriority. intros H.
  destruct (if bool_decide (node = getNodeID L) then mret UINT64_MAX else getNodeWeight node q)
    as [w|e'] eqn:Ew; cbn in H.
  - destruct (0 <? w); [|done]. destruct (hashNode D idx n false node) as [h|e1] eqn:Eh;
      cbn in H; [|injection H as ->; by eapply hashNode_Throw].
    destruct (h <=? w); [by eapply hashNode_Throw|done].
  - case_bool_decide; [done|]. injection H as ->. by eapply getNodeWeight_Throw.
Qed.

Lemma topLeaders_Throw n q nodes top leaders e :
  topLeaders D L idx n q nodes top leaders = Throw e → e = AssertFailure.
Proof.
  revert top leaders. induction nodes as [|cur nodes IH]; intros top leaders; simpl; [done|].
  destruct (getNodePriority D L idx n cur q) as [w|e'] eqn:Ew; cbn.
  - case_match. apply IH.
  - intros [= ->]. by eapply getNodePriority_Throw.
Qed.

Lemma newLeaders_Throw n q e : newLeaders D L idx n q = Throw e → e = AssertFailure.
Proof.
  unfold newLeaders. destruct (getNodePriority _ _ _ _ _ _) as [w|e'] eqn:Ew; cbn.
  - apply topLeaders_Throw.
  - intros [= ->]. by eapply getNodePriority_Throw.
Qed.

(** ** What one round finds *)

(** The nodes of the highest priority among [seen], if it is positive or that of
    the node itself. *)
Definition tops (pr : NodeID → Z) (seen : list NodeID) (top : Z) (leaders : list NodeID) : Prop :=
  (∀ x, x ∈ seen → pr x ≤ top) ∧ 0 ≤ top ∧
  ∀ x, x ∈ leaders ↔ x ∈ seen ∧ pr x = top ∧ (0 < pr x ∨ x = getNodeID L).

Lemma topLeaders_spec n q pr seen nodes top leaders :
  (∀ x, x ∈ nodes → getNodePriority D L idx n x q = Ok (pr x)) →
  getNodeID L ∉ nodes → tops pr seen top leaders →
  ∃ top' leaders', topLeaders D L idx n q nodes top leaders = Ok leaders' ∧
    tops pr (seen ++ nodes) top' leaders'.
Proof.
  revert seen top leaders. induction nodes as [|cur nodes IH]; intros seen top leaders Hpr Hself Ht.
  { exists top, leaders. rewrite app_nil_r. done. }
  simpl. rewrite (Hpr cur) by left. cbn. destruct Ht as (Hmax & H0 & Hl).
  set (top' := if top <? pr cur then pr cur else top).
  set (leaders1 := if top <? pr cur then [] else leaders).
  assert ((if top <? pr cur then (pr cur, []) else (top, leaders)) = (top', leaders1)) as ->.
  { subst top' leaders1. by destruct (top <? pr cur). }
  rewrite (app_assoc seen [cur] nodes : seen ++ cur :: nodes = _).
  apply IH; [set_solver|set_solver|].
  assert (∀ x, x ∈ leaders1 ↔ x ∈ seen ∧ pr x = top' ∧ (0 < pr x ∨ x = getNodeID L)) as Hl1.
  { subst top' leaders1. destruct (Z.ltb_spec top (pr cur)); [|done].
    intros x. split; [by intros ?%not_elem_of_nil|]. intros (Hx & E & _).
    specialize (Hmax x Hx). lia. }
  split_and!.
  - intros x [Hx| ->%list_elem_of_singleton]%elem_of_app; subst top';
      destruct (Z.ltb_spec top (pr cur)); try lia; specialize (Hmax x Hx); lia.
  - subst top'. destruct (Z.ltb_spec top (pr cur)); lia.
  - intros x. assert (getNodeID L ≠ cur) by set_solver.
    destruct (Z.eqb_spec (pr cur) top') as [E|E], (Z.ltb_spec 0 (pr cur)); simpl;
      rewrite ?elem_of_set_insert, Hl1, elem_of_app, list_elem_of_singleton; split; naive_solver lia.
Qed.

Lemma newLeaders_spec n q pr :
  (∀ x, x = getNodeID L ∨ x ∈ qset_nodes q → getNodePriority D L idx n x q = Ok (pr x)) →
  getNodeID L ∉ qset_nodes q → 0 ≤ pr (getNodeID L) →
  ∃ top leaders, newLeaders D L idx n q = Ok leaders ∧
    tops pr (getNodeID L :: qset_nodes q) top leaders.
Proof.
  intros Hpr Hself H0. unfold newLeaders. rewrite Hpr by auto. cbn.
  destruct (topLeaders_spec n q pr [getNodeID L] (qset_nodes q) (pr (getNodeID L)) [getNodeID L])
    as (top & leaders & -> & Ht).
  - auto.
  - done.
  - split_and!; [|done|].
    + by intros x ->%list_elem_of_singleton.
    + intros x. rewrite list_elem_of_singleton. naive_solver.
  - by exists top, leaders.
Qed.

(** ** The loop over rounds *)

Definition round_after (k : nat) n : Z := Nat.iter k (λ r, i32 (r + 1)) (mRoundNumber n).
Definition at_round (k : nat) n : NominationProtocol := set_mRoundNumber (round_after k n) n.

Definition add_leaders (new : list NodeID) n : NominationProtocol :=
  set_mRoundLeaders (foldl (λ l x, set_insert x l) (mRoundLeaders n) new) n.

(** A round that brings nothing, and one that does. *)
Definition idle n (q : SCPQuorumSet) (k : nat) : Prop :=
  ∃ new, newLeaders D L idx (at_round k n) q = Ok new ∧ ∀ x, x ∈ new → x ∈ mRoundLeaders n.

Definition brings n (q : SCPQuorumSet) (k : nat) (new : list NodeID) : Prop :=
  newLeaders D L idx (at_round k n) q = Ok new ∧ ∃ x, x ∈ new ∧ x ∉ mRoundLeaders n.

Lemma fold_insert_same (new l : list NodeID) :
  increasing l → (∀ x : NodeID, x ∈ new → x ∈ l) → foldl (λ l x, set_insert x l) l new = l.
Proof.
  intros Hl. induction new as [|x new IH]; intros Hsub; [done|]. cbn [foldl].
  rewrite (set_insert_in x l Hl (Hsub x ltac:(left))). apply IH. intros y Hy. apply Hsub. by right.
Qed.

Lemma fold_insert_length (new l : list NodeID) :
  increasing l → (length l ≤ length (foldl (λ l (x : NodeID), set_insert x l) l new))%nat ∧
  ((∃ x, x ∈ new ∧ x ∉ l) → (length l < length (foldl (λ l x, set_insert x l) l new))%nat).
Proof.
  revert l. induction new as [|x new IH]; intros l Hl; cbn [foldl].
  { split; [done|]. intros (x & Hx & _). by apply not_elem_of_nil in Hx. }
  destruct (IH (set_insert x l)) as [Hle Hlt]; [by apply set_insert_increasing|].
  destruct (decide (x ∈ l)) as [Hx|Hx].
  - rewrite (set_insert_in x l) in * by done. split; [done|].
    intros (y & Hy & Hyl). apply Hlt. exists y. split; [|done].
    by apply elem_of_cons in Hy as [->|?].
  - rewrite (set_insert_length x l) in * by done. lia.
Qed.

Lemma at_round_S k n :
  at_round k (set_mRoundNumber (i32 (mRoundNumber n + 1)) n) = at_round (S k) n.
Proof.
  assert (round_after k (set_mRoundNumber (i32 (mRoundNumber n + 1)) n) = round_after (S k) n) as E
    by exact (Nat.iter_swap k Z (λ r, i32 (r + 1)) (mRoundNumber n)).
  unfold at_round. by rewrite E.
Qed.

Lemma loop_idle fuel q max n :
  increasing (mRoundLeaders n) → (length (mRoundLeaders n) < max)%nat → idle n q 0 →
  updateRoundLeaders_loop D L idx (S fuel) q max n =
  updateRoundLeaders_loop D L idx fuel q max (set_mRoundNumber (i32 (mRoundNumber n + 1)) n).
Proof.
  intros Hi Hlt (new & Hnew & Hsub). cbn [updateRoundLeaders_loop].
  rewrite (proj2 (Nat.ltb_lt _ _) Hlt).
  assert (newLeaders D L idx n q = Ok new) as -> by (by destruct n).
  cbn. rewrite fold_insert_same by done. rewrite Nat.eqb_refl. by destruct n.
Qed.

Lemma loop_brings fuel q max n new :
  increasing (mRoundLeaders n) → (length (mRoundLeaders n) < max)%nat → brings n q 0 new →
  updateRoundLeaders_loop D L idx (S fuel) q max n = Ok (add_leaders new n).
Proof.
  intros Hi Hlt (Hnew & Hx). cbn [updateRoundLeaders_loop]. rewrite (proj2 (Nat.ltb_lt _ _) Hlt).
  assert (newLeaders D L idx n q = Ok new) as -> by (by destruct n). cbn.
  destruct (fold_insert_length new (mRoundLeaders n) Hi) as [_ Hlt'].
  rewrite (proj2 (Nat.eqb_neq _ _)) by (specialize (Hlt' Hx); lia). done.
Qed.

Lemma idle_S n q k :
  idle (set_mRoundNumber (i32 (mRoundNumber n + 1)) n) q k ↔ idle n q (S k).
Proof. unfold idle. rewrite at_round_S. by destruct n. Qed.

Lemma brings_S n q k new :
  brings (set_mRoundNumber (i32 (mRoundNumber n + 1)) n) q k new ↔ brings n q (S k) new.
Proof. unfold brings. rewrite at_round_S. by destruct n. Qed.

(** The search stops at the first round that brings a new leader. *)
Lemma search_stops fuel q max n k new :
  increasing (mRoundLeaders n) → (length (mRoundLeaders n) < max)%nat → (k < fuel)%nat →
  (∀ j, (j < k)%nat → idle n q j) → brings n q k new →
  updateRoundLeaders_loop D L idx fuel q max n = Ok (add_leaders new (at_round k n)).
Proof.
  revert fuel n. induction k as [|k IH]; intros [|fuel] n Hi Hlt Hk Hidle Hb; try lia.
  - rewrite (loop_brings fuel q max n new) by done. by destruct n.
  - rewrite loop_idle by (try done; apply Hidle; lia).
    rewrite IH; [by rewrite at_round_S|done|done|lia| |by apply brings_S].
    intros j Hj. apply idle_S, Hidle. lia.
Qed.

(** The search does not end while every round is idle. *)
Lemma search_idle fuel q max n :
  increasing (mRoundLeaders n) → (length (mRoundLeaders n) < max)%nat →
  (∀ j, (j < fuel)%nat → idle n q j) →
  updateRoundLeaders_loop D L idx fuel q max n = Throw OutOfFuel.
Proof.
  revert n. induction fuel as [|fuel IH]; intros n Hi Hlt Hidle; [done|].
  rewrite loop_idle by (try done; apply Hidle; lia). apply IH; [done|done|].
  intros j Hj. apply idle_S, Hidle. lia.
Qed.

Lemma updateRoundLeaders_loop_Ok fuel q max n n' :
  increasing (mRoundLeaders n) → updateRoundLeaders_loop D L idx fuel q max n = Ok n' →
  (n' = n ∧ (max ≤ length (mRoundLeaders n))%nat) ∨
  ∃ k new, (k < fuel)%nat ∧ brings n q k new ∧ n' = add_leaders new (at_round k n).
Proof.
  revert n. induction fuel as [|fuel IH]; intros n Hi; [done|].
  destruct (Nat.ltb_spec (length (mRoundLeaders n)) max) as [Hlt|Hge].
  - destruct (newLeaders D L idx n q) as [new|e] eqn:Hnew.
    + assert (newLeaders D L idx (at_round 0 n) q = Ok new) as Hnew0 by (by destruct n).
      destruct (decide (Forall (λ x, x ∈ mRoundLeaders n) new)) as [Hall|Hsome].
      * rewrite loop_idle; [|done|done|exists new; by rewrite Forall_forall in Hall].
        intros Hrun. destruct (IH (set_mRoundNumber (i32 (mRoundNumber n + 1)) n) Hi Hrun) as [[_ Hge]|(k & new' & Hk & Hb & ->)];
          [simpl in Hge; lia|].
        right. exists (S k), new'. rewrite at_round_S. split_and!; [lia|by apply brings_S|done].
      * apply not_Forall_Exists in Hsome as (x & Hx & Hout)%Exists_exists; [|solve_decision].
        rewrite (loop_brings fuel q max n new); [|done|done|by split; [|exists x]].
        intros [= <-]. right. exists 0%nat, new. split_and!; [lia|by split; [|exists x]|].
        by destruct n.
    + cbn [updateRoundLeaders_loop]. rewrite (proj2 (Nat.ltb_lt _ _) Hlt), Hnew. done.
  - cbn [updateRoundLeaders_loop]. rewrite (proj2 (Nat.ltb_ge _ _) Hge).
    intros [= <-]. by left.
Qed.

Lemma updateRoundLeaders_loop_Throw fuel q max n e :
  updateRoundLeaders_loop D L idx fuel q max n = Throw e → e = AssertFailure ∨ e = OutOfFuel.
Proof.
  revert n. induction fuel as [|fuel IH]; intros n; cbn [updateRoundLeaders_loop];
    [intros [= <-]; auto|].
  destruct (_ <? _)%nat; [|done].
  destruct (newLeaders D L idx n q) as [new|e'] eqn:Hnew; cbn.
  - destruct (_ =? _)%nat; [apply IH|done].
  - intros [= ->]. left. by eapply newLeaders_Throw.
Qed.

(** The search only changes the round and the leaders. *)
Lemma updateRoundLeaders_loop_frame fuel q max n n' :
  updateRoundLeaders_loop D L idx fuel q max n = Ok n' →
  ∃ round leaders, n' = set_mRoundNumber round (set_mRoundLeaders leaders n).
Proof.
  revert n. induction fuel as [|fuel IH]; intros n; cbn [updateRoundLeaders_loop]; [done|].
  destruct (_ <? _)%nat.
  - destruct (newLeaders D L idx n q) as [new|]; [cbn|done]. destruct (_ =? _)%nat.
    + intros (r & l & ->)%IH. by exists r, l.
    + intros [= <-]. exists (mRoundNumber n), (foldl (λ l x, set_insert x l) (mRoundLeaders n) new).
      by destruct n.
  - intros [= <-]. exists (mRoundNumber n), (mRoundLeaders n). by destruct n.
Qed.
End search.

(** C23: the search for round leaders.  When [updateRoundLeaders] returns, either
    every node of the local quorum set and the node itself were leaders already
    and nothing changed, or some round brought new leaders: the round number has
    advanced to that round and its leaders, the nodes of the highest priority
    among the node itself and the others of its quorum set, were added.
    Conversely it does return as soon as a round brings a new leader. *)
Theorem updateRoundLeaders_spec (D : SCPDriver) (L : LocalNode) (idx : Z) (fuel : nat)
    (n : NominationProtocol) :
  increasing (mRoundLeaders n) →
  (∀ n', updateRoundLeaders D L idx fuel n = Ok n' →
     (n' = n ∧ (S (length (qset_nodes (leaderQSet L))) ≤ length (mRoundLeaders n))%nat) ∨
     ∃ k new, (k < fuel)%nat ∧ brings D L idx n (leaderQSet L) k new ∧
       n' = add_leaders new (at_round k n) ∧
       ∀ pr, (∀ x, x = getNodeID L ∨ x ∈ qset_nodes (leaderQSet L) →
                getNodePriority D L idx (at_round k n) x (leaderQSet L) = Ok (pr x)) →
             0 ≤ pr (getNodeID L) →
             ∃ top, tops L pr (getNodeID L :: qset_nodes (leaderQSet L)) top new) ∧
  (∀ k new, (length (mRoundLeaders n) < S (length (qset_nodes (leaderQSet L))))%nat →
     (k < fuel)%nat → (∀ j, (j < k)%nat → idle D L idx n (leaderQSet L) j) →
     brings D L idx n (leaderQSet L) k new →
     updateRoundLeaders D L idx fuel n = Ok (add_leaders new (at_round k n))).
Proof.
  intros Hi. split.
  - intros n' Hrun. destruct (updateRoundLeaders_loop_Ok D L idx fuel (leaderQSet L) _ n n' Hi Hrun)
      as [?|(k & new & Hk & Hb & ->)]; [by left|]. right. exists k, new.
    split_and!; [done..|]. intros pr Hpr H0.
    destruct (newLeaders_spec D L idx (at_round k n) (leaderQSet L) pr)
      as (top & new' & Hnew & Ht); [done| |done|].
    + rewrite leaderQSet_nodes. by intros [_ ?].
    + destruct Hb as [Hb _]. exists top. rewrite Hb in Hnew. by injection Hnew as ->.
  - intros k new Hlt Hk Hidle Hb. by apply search_stops.
Qed.

(** ** Three nodes in which the search succeeds *)

Module LeaderExamples.
Definition hash3 (round : Z) (node : NodeID) : Z :=
  match node with [x] => (7 * x + 3 * round) mod 5 | _ => 0 end.

Definition driver3 : SCPDriver :=
  mkSCPDriver (λ _ _ _, kFullyValidatedValue) (λ _ v, Some v) (λ _, None) (λ _, [])
    (λ _ _ p r x, if (p : bool) then hash3 r x else 0) (λ _ _ _ _, 0) (λ _ vs, head vs).

Definition local3 : LocalNode := mkLocalNode [1] true (QSet 2 [[1]; [2]; [3]] []) [7].
Definition state3 : NominationProtocol :=
  set_mPreviousValue [1] (set_mRoundLeaders [[1]] initNominationProtocol).
End LeaderExamples.

Lemma updateRoundLeaders_spec_witness :
  updateRoundLeaders LeaderExamples.driver3 LeaderExamples.local3 5 3 LeaderExamples.state3 =
  Ok (add_leaders [[2]] (at_round 0 LeaderExamples.state3)).
Proof.
  apply (updateRoundLeaders_spec LeaderExamples.driver3 LeaderExamples.local3 5 3
           LeaderExamples.state3).
  - repeat constructor.
  - vm_compute. lia.
  - lia.
  - intros j Hj. lia.
  - split; [vm_compute; reflexivity|]. exists [2]. split; [left|].
    intros [E|E%not_elem_of_nil]%elem_of_cons; done.
Defined.

(** ** Quorum sets on which the search never ends *)

Lemma hashNode_Ok D idx n p node : mPreviousValue n ≠ [] → ∃ h, hashNode D idx n p node = Ok h.
Proof. intros Hp. unfold hashNode. destruct (mPreviousValue n); [done|]. simpl. eauto. Qed.

Lemma getNodePriority_Ok D L idx n node q w :
  mPreviousValue n ≠ [] → node ≠ getNodeID L → getNodeWeight node q = Ok w → 0 ≤ w →
  ∃ p, getNodePriority D L idx n node q = Ok p ∧ (w = 0 → p = 0).
Proof.
  intros Hp Hn Hw H0. unfold getNodePriority. rewrite bool_decide_false, Hw by done. cbn.
  destruct (Z.ltb_spec 0 w); [|by exists 0].
  destruct (hashNode_Ok D idx n false node Hp) as [h ->]. cbn.
  destruct (h <=? w); [|by exists 0].
  destruct (hashNode_Ok D idx n true node Hp) as [h' ->]. exists h'. split; [done|lia].
Qed.

Lemma topLeaders_in D L idx n q nodes top leaders (P : NodeID → Prop) :
  (∀ x, x ∈ nodes → ∃ p, getNodePriority D L idx n x q = Ok p ∧ (0 < p → P x)) →
  (∀ x, x ∈ leaders → P x) →
  ∃ r, topLeaders D L idx n q nodes top leaders = Ok r ∧ ∀ x, x ∈ r → P x.
Proof.
  revert top leaders. induction nodes as [|cur nodes IH]; intros top leaders Hn Hl; cbn [topLeaders].
  { by exists leaders. }
  destruct (Hn cur) as (p & -> & Hp); [left|]. cbn. case_match eqn:E.
  apply IH; [intros x Hx; apply Hn; by right|].
  assert (∀ x, x ∈ l → P x) as Hl'.
  { destruct (top <? p); injection E as <- <-; [by intros x ?%not_elem_of_nil|done]. }
  destruct ((p =? z) && (0 <? p)) eqn:Ep; [|done].
  apply andb_true_iff in Ep as [_ ?%Z.ltb_lt].
  intros x [->|Hx]%elem_of_set_insert; auto.
Qed.

(** C25: the search for round leaders does not always end.  Once the node itself
    and all the nodes of positive weight are leaders, and there is a node of its
    quorum set whose weight is zero when the node itself is left out, the loop
    of [updateRoundLeaders] runs forever, whatever the hash function. *)
Theorem updateRoundLeaders_stuck (D : SCPDriver) (L : LocalNode) (idx : Z) (fuel : nat)
    (n : NominationProtocol) :
  mPreviousValue n ≠ [] → increasing (mRoundLeaders n) → getNodeID L ∈ mRoundLeaders n →
  (∀ x, x ∈ qset_nodes (leaderQSet L) →
     ∃ w, getNodeWeight x (leaderQSet L) = Ok w ∧ 0 ≤ w ∧ (w = 0 ∨ x ∈ mRoundLeaders n)) →
  (length (mRoundLeaders n) < S (length (qset_nodes (leaderQSet L))))%nat →
  updateRoundLeaders D L idx fuel n = Throw OutOfFuel.
Proof.
  intros Hp Hi Hself Hw Hlt. apply search_idle; [done|done|]. intros k _. unfold idle.
  change (normalizeQSet (getQuorumSet L) (Some (getNodeID L))) with (leaderQSet L).
  unfold newLeaders. unfold getNodePriority at 1. rewrite bool_decide_true by done.
  destruct (hashNode_Ok D idx (at_round k n) false (getNodeID L) Hp) as [h Hh].
  destruct (hashNode_Ok D idx (at_round k n) true (getNodeID L) Hp) as [h' Hh'].
  assert (∀ top, ∃ r, topLeaders D L idx (at_round k n) (leaderQSet L)
    (qset_nodes (leaderQSet L)) top [getNodeID L] = Ok r ∧
    ∀ x, x ∈ r → x ∈ mRoundLeaders n) as Htop.
  { intros top. apply topLeaders_in; [|by intros x ->%list_elem_of_singleton].
    intros x Hx. destruct (Hw x Hx) as (w & Hwx & H0 & Hor).
    apply leaderQSet_nodes in Hx as [_ Hne].
    destruct (getNodePriority_Ok D L idx (at_round k n) x (leaderQSet L) w Hp Hne Hwx H0)
      as (p & Hpr & Hz). exists p. split; [done|]. intros Hpos.
    destruct Hor as [->|?]; [specialize (Hz eq_refl); lia|done]. }
  cbn. rewrite Hh. cbn. destruct (h <=? UINT64_MAX); cbn; rewrite ?Hh'; apply Htop.
Qed.

(** Two of: node 2, and one of the node itself and node 3.  Without the node
    itself the inner threshold is 0, and so is the weight of node 3. *)
Lemma updateRoundLeaders_stuck_witness :
  isQuorumSetSane (QSet 2 [[2]] [QSet 1 [[1]; [3]] []]) false = true ∧
  updateRoundLeaders LeaderExamples.driver3
    (mkLocalNode [1] true (QSet 2 [[2]] [QSet 1 [[1]; [3]] []]) [7]) 5 1000
    (set_mPreviousValue [1] (set_mRoundLeaders [[1]; [2]] initNominationProtocol)) =
  Throw OutOfFuel.
Proof.
  split; [vm_compute; reflexivity|]. apply updateRoundLeaders_stuck.
  - done.
  - repeat constructor.
  - left.
  - intros x Hx. vm_compute in Hx.
    apply elem_of_cons in Hx as [->|[->|Hx%not_elem_of_nil]%elem_of_cons]; [| |done].
    + eexists. split; [vm_compute; reflexivity|]. split; [lia|]. right. right. left.
    + eexists. split; [vm_compute; reflexivity|]. split; [lia|]. by left.
  - vm_compute. lia.
Defined.
