(* ===== verification/NominationFrame.v ===== *)
(** * What the ballot protocol leaves alone

    The methods of [Ballot] only touch the nomination protocol by stopping it,
    and none of their calls to the driver is about nominations. *)

From S2P Require Import Prelude StateMonad QuorumSet ScpTypes Ballot Nomination.

(** The nominations a call signs or emits. *)
Definition signed_nomination (c : DriverCall) : option SCPNomination :=
  match c with
  | SignEnvelope st => match pledges st with inl _ => None | inr nom => Some nom end
  | _ => None
  end.

Definition emitted_nomination (c : DriverCall) : option SCPNomination :=
  match c with
  | EmitEnvelope e => match pledges (statement e) with inl _ => None | inr nom => Some nom end
  | _ => None
  end.

Definition signed_nominations (s : Slot) : list SCPNomination :=
  omap signed_nomination (mCalls s).

Definition emitted_nominations (s : Slot) : list SCPNomination :=
  omap emitted_nomination (mCalls s).

Record nom_frame (s s' : Slot) : Prop := {
  nf_idx : mSlotIndex s' = mSlotIndex s;
  nf_state : set_mNominationStarted false (mNominationProtocol s') =
             set_mNominationStarted false (mNominationProtocol s);
  nf_signed : signed_nominations s' = signed_nominations s;
  nf_emitted : emitted_nominations s' = emitted_nominations s
}.

#[export] Instance nom_frame_preorder : PreOrder nom_frame.
Proof.
  split; [done|]. intros s1 s2 s3 [] []. split; etrans; eauto.
Qed.

Notation framed := (keeps nom_frame).

Section primitives.
Lemma framed_bget {A} (f : BallotProtocol → A) : framed (bget f).
Proof. apply keeps_gets, _. Qed.

Lemma framed_nget {A} (f : NominationProtocol → A) : framed (nget f).
Proof. apply keeps_gets, _. Qed.

Lemma framed_bset f : framed (bset f).
Proof. apply keeps_modify. by intros s. Qed.

Lemma framed_call c :
  signed_nomination c = None → emitted_nomination c = None → framed (call c).
Proof.
  intros Hs He. apply keeps_modify. intros s. split; try done;
    unfold signed_nominations, emitted_nominations; simpl; by rewrite ?Hs, ?He.
Qed.

Lemma framed_stopNomination : framed stopNomination.
Proof. apply keeps_modify. by intros s. Qed.

Lemma framed_setFullyValidated b : framed (setFullyValidated b).
Proof. apply keeps_modify. by intros s. Qed.

Lemma framed_recordStatement st : framed (recordStatement st).
Proof. apply keeps_modify. by intros s. Qed.

Lemma framed_wrapEnvelope {P} (e : Envelope P) : framed (wrapEnvelope e).
Proof.
  unfold wrapEnvelope. solve_keeps. apply keeps_modify. by intros s.
Qed.
End primitives.

#[export] Hint Resolve framed_bget framed_nget framed_bset framed_stopNomination
  framed_setFullyValidated framed_recordStatement framed_wrapEnvelope : keeps.
#[export] Hint Extern 1 (framed (call _)) => (apply framed_call; reflexivity) : keeps.

Section ballot.
Context (D : SCPDriver) (L : LocalNode).

Lemma framed_createEnvelope pl : framed (createEnvelope D L inl pl).
Proof. unfold createEnvelope. solve_keeps. Qed.
#[local] Hint Resolve framed_createEnvelope : keeps.

Lemma framed_checkInvariantsM : framed (checkInvariantsM).
Proof. unfold checkInvariantsM. solve_keeps. Qed.
#[local] Hint Resolve framed_checkInvariantsM : keeps.

Lemma framed_recordEnvelope env : framed (recordEnvelope env).
Proof. unfold recordEnvelope. solve_keeps. Qed.
#[local] Hint Resolve framed_recordEnvelope : keeps.

Lemma framed_bumpToBallot b check : framed (bumpToBallot b check).
Proof. unfold bumpToBallot. solve_keeps. Qed.
#[local] Hint Resolve framed_bumpToBallot : keeps.

Lemma framed_updateCurrentValue b : framed (updateCurrentValue b).
Proof. unfold updateCurrentValue. solve_keeps. Qed.
#[local] Hint Resolve framed_updateCurrentValue : keeps.

Lemma framed_updateCurrentIfNeeded h : framed (updateCurrentIfNeeded h).
Proof. unfold updateCurrentIfNeeded. solve_keeps. Qed.
#[local] Hint Resolve framed_updateCurrentIfNeeded : keeps.

Lemma framed_createStatement ph : framed (createStatement L ph).
Proof. unfold createStatement. solve_keeps. Qed.
#[local] Hint Resolve framed_createStatement : keeps.

Lemma framed_sendLatestEnvelope : framed (sendLatestEnvelope).
Proof. unfold sendLatestEnvelope. solve_keeps. Qed.
#[local] Hint Resolve framed_sendLatestEnvelope : keeps.

Lemma framed_startTimer : framed (startBallotProtocolTimer).
Proof. unfold startBallotProtocolTimer. solve_keeps. Qed.
#[local] Hint Resolve framed_startTimer : keeps.

Lemma framed_stopTimer : framed (stopBallotProtocolTimer).
Proof. unfold stopBallotProtocolTimer. solve_keeps. Qed.
#[local] Hint Resolve framed_stopTimer : keeps.

Lemma framed_checkHeardFromQuorum : framed (checkHeardFromQuorum D L).
Proof. unfold checkHeardFromQuorum. solve_keeps. Qed.
#[local] Hint Resolve framed_checkHeardFromQuorum : keeps.

Section emit.
Context (process : BallotEnvelopeW → bool → slotM EnvelopeState).
Context (Hprocess : ∀ env self, framed (process env self)).
#[local] Hint Resolve Hprocess : keeps.

Lemma framed_emit : framed (emitCurrentStateStatement D L process).
Proof. unfold emitCurrentStateStatement. solve_keeps. Qed.
#[local] Hint Resolve framed_emit : keeps.

Lemma framed_bumpState_n v n : framed (bumpState_n D L process v n).
Proof. unfold bumpState_n. solve_keeps. Qed.
#[local] Hint Resolve framed_bumpState_n : keeps.

Lemma framed_bumpState v force : framed (bumpState D L process v force).
Proof. unfold bumpState. solve_keeps. Qed.
#[local] Hint Resolve framed_bumpState : keeps.

Lemma framed_abandonBallot n : framed (abandonBallot D L process n).
Proof. unfold abandonBallot. solve_keeps. Qed.
#[local] Hint Resolve framed_abandonBallot : keeps.

Lemma framed_setPrepared b : framed (setPrepared b).
Proof. unfold setPrepared. solve_keeps. Qed.
#[local] Hint Resolve framed_setPrepared : keeps.

Lemma framed_setAcceptPrepared b : framed (setAcceptPrepared D L process b).
Proof. unfold setAcceptPrepared. solve_keeps. Qed.
#[local] Hint Resolve framed_setAcceptPrepared : keeps.

Lemma framed_attemptAcceptPrepared hint : framed (attemptAcceptPrepared D L process hint).
Proof. unfold attemptAcceptPrepared. solve_keeps. Qed.
#[local] Hint Resolve framed_attemptAcceptPrepared : keeps.

Lemma framed_setConfirmPrepared c h : framed (setConfirmPrepared D L process c h).
Proof. unfold setConfirmPrepared. solve_keeps. Qed.
#[local] Hint Resolve framed_setConfirmPrepared : keeps.

Lemma framed_attemptConfirmPrepared hint : framed (attemptConfirmPrepared D L process hint).
Proof. unfold attemptConfirmPrepared. solve_keeps. Qed.
#[local] Hint Resolve framed_attemptConfirmPrepared : keeps.

Lemma framed_setAcceptCommit c h : framed (setAcceptCommit D L process c h).
Proof. unfold setAcceptCommit. solve_keeps. Qed.
#[local] Hint Resolve framed_setAcceptCommit : keeps.

Lemma framed_attemptAcceptCommit hint : framed (attemptAcceptCommit D L process hint).
Proof. unfold attemptAcceptCommit. solve_keeps. Qed.
#[local] Hint Resolve framed_attemptAcceptCommit : keeps.

Lemma framed_setConfirmCommit c h : framed (setConfirmCommit D L process c h).
Proof. unfold setConfirmCommit. solve_keeps. Qed.
#[local] Hint Resolve framed_setConfirmCommit : keeps.

Lemma framed_attemptConfirmCommit hint : framed (attemptConfirmCommit D L process hint).
Proof. unfold attemptConfirmCommit. solve_keeps. Qed.
#[local] Hint Resolve framed_attemptConfirmCommit : keeps.

Lemma framed_attemptBump : framed (attemptBump D L process).
Proof. unfold attemptBump. solve_keeps. Qed.
#[local] Hint Resolve framed_attemptBump : keeps.

Lemma framed_bumpLoop k : framed (bumpLoop D L process k).
Proof. induction k as [|k IH]; cbn [bumpLoop]; solve_keeps. Qed.
#[local] Hint Resolve framed_bumpLoop : keeps.

Lemma framed_advanceSlot hint : framed (advanceSlot D L process hint).
Proof. unfold advanceSlot. solve_keeps. Qed.
#[local] Hint Resolve framed_advanceSlot : keeps.

Lemma framed_processEnvelope_body env self : framed (processEnvelope_body D L process env self).
Proof. unfold processEnvelope_body. solve_keeps. Qed.
#[local] Hint Resolve framed_processEnvelope_body : keeps.

End emit.

Lemma framed_processEnvelope_fuel fuel env self : framed (processEnvelope_fuel D L fuel env self).
Proof.
  revert env self. induction fuel as [|fuel IH]; intros env self; cbn [processEnvelope_fuel];
    [apply keeps_throw|by apply framed_processEnvelope_body].
Qed.

Lemma framed_Slot_bumpState v force : framed (Slot_bumpState D L v force).
Proof. apply framed_bumpState. intros. apply framed_processEnvelope_fuel. Qed.
End ballot.
