(* ===== verification/BallotOrder.v ===== *)
(** * Ballots and statements: order

    Facts about the comparison of ballots, the order in which a node's statements
    supersede each other, and the interval search of the commit steps. *)

From stdpp Require Import sorting.
From S2P Require Import Prelude QuorumSet ScpTypes Ballot.

Create HintDb ballot.

(** ** Ballots *)

Definition ble (b1 b2 : SCPBallot) : Prop := ballot_leb b1 b2 = true.
Definition blt (b1 b2 : SCPBallot) : Prop := ballot_ltb b1 b2 = true.

Infix "≤b" := ble (at level 70).
Infix "<b" := blt (at level 70).

Lemma blt_cmp b1 b2 : b1 <b b2 ↔ cmp b1 b2 = Lt.
Proof. unfold blt, ballot_ltb. simpl. destruct (compareBallots b1 b2); naive_solver. Qed.

Lemma ble_lteq b1 b2 : b1 ≤b b2 ↔ b1 <b b2 ∨ b1 = b2.
Proof.
  rewrite blt_cmp, <-(cmp_eq b1 b2). unfold ble, ballot_leb. simpl.
  destruct (compareBallots b1 b2); naive_solver.
Qed.

Lemma blt_irrefl b : ¬ b <b b.
Proof. rewrite blt_cmp, cmp_refl. done. Qed.

Lemma blt_trans b1 b2 b3 : b1 <b b2 → b2 <b b3 → b1 <b b3.
Proof. rewrite !blt_cmp. apply cmp_trans. Qed.

Lemma ble_refl b : b ≤b b.
Proof. apply ble_lteq. auto. Qed.

Lemma ble_trans b1 b2 b3 : b1 ≤b b2 → b2 ≤b b3 → b1 ≤b b3.
Proof. rewrite !ble_lteq. intros [?| ->] [?| ->]; eauto using blt_trans. Qed.

Lemma blt_ble b1 b2 : b1 <b b2 → b1 ≤b b2.
Proof. rewrite ble_lteq. auto. Qed.

Lemma blt_ble_trans b1 b2 b3 : b1 <b b2 → b2 ≤b b3 → b1 <b b3.
Proof. rewrite ble_lteq. intros ? [?| <-]; eauto using blt_trans. Qed.

Lemma ble_blt_trans b1 b2 b3 : b1 ≤b b2 → b2 <b b3 → b1 <b b3.
Proof. rewrite ble_lteq. intros [?| ->] ?; eauto using blt_trans. Qed.

Lemma not_ble b1 b2 : ballot_leb b1 b2 = false ↔ b2 <b b1.
Proof.
  rewrite blt_cmp, <-cmp_gt_lt. unfold ballot_leb. simpl.
  destruct (compareBallots b1 b2); naive_solver.
Qed.

Lemma not_blt b1 b2 : ballot_ltb b1 b2 = false ↔ b2 ≤b b1.
Proof.
  unfold ble, ballot_ltb, ballot_leb.
  pose proof (cmp_opp b1 b2) as Hopp. simpl in Hopp. rewrite Hopp.
  destruct (compareBallots b1 b2); naive_solver.
Qed.

Lemma ble_antisym b1 b2 : b1 ≤b b2 → b2 ≤b b1 → b1 = b2.
Proof.
  rewrite !ble_lteq. intros [H1|?] [H2|?]; try done.
  destruct (blt_irrefl b1). eauto using blt_trans.
Qed.

Lemma compareBallots_spec b1 b2 :
  CompareSpec (b1 = b2) (b1 <b b2) (b2 <b b1) (compareBallots b1 b2).
Proof.
  pose proof (blt_cmp b1 b2) as H12. pose proof (blt_cmp b2 b1) as H21.
  pose proof (cmp_eq b1 b2) as Heq. pose proof (cmp_opp b1 b2) as Hopp.
  simpl in *. rewrite Hopp in H21.
  destruct (compareBallots b1 b2); constructor; naive_solver.
Qed.

Lemma ble_counter b1 b2 : b1 ≤b b2 → counter b1 ≤ counter b2.
Proof.
  unfold ble, ballot_leb. rewrite compareBallots_lex.
  destruct (Z.compare_spec (counter b1) (counter b2)); naive_solver lia.
Qed.

Lemma counter_blt b1 b2 : counter b1 < counter b2 → b1 <b b2.
Proof.
  intros. apply blt_cmp. simpl. rewrite compareBallots_lex.
  by replace (counter b1 ?= counter b2) with Lt by (symmetry; by apply Z.compare_lt_iff).
Qed.

(** [b1 ≲ b2] *)
Definition lc (b1 b2 : SCPBallot) : Prop := value b1 = value b2 ∧ counter b1 ≤ counter b2.
(** [b1 ⋦ b2] *)
Definition li (b1 b2 : SCPBallot) : Prop := b1 ≤b b2 ∧ value b1 ≠ value b2.

Lemma compat_spec b1 b2 : areBallotsCompatible b1 b2 = true ↔ value b1 = value b2.
Proof. apply bool_decide_eq_true. Qed.

Lemma ncompat_spec b1 b2 : areBallotsCompatible b1 b2 = false ↔ value b1 ≠ value b2.
Proof. apply bool_decide_eq_false. Qed.

Lemma lc_spec b1 b2 : areBallotsLessAndCompatible b1 b2 = true ↔ lc b1 b2.
Proof.
  unfold areBallotsLessAndCompatible, lc. rewrite andb_true_iff, compat_spec.
  split; intros [Hb Hv]; [split; [done|by apply ble_counter]|].
  split; [|done]. unfold ballot_leb. rewrite compareBallots_lex, Hb, cmp_refl.
  by destruct (Z.compare_spec (counter b1) (counter b2)); [| |lia].
Qed.

Lemma nlc_spec b1 b2 : areBallotsLessAndCompatible b1 b2 = false ↔ ¬ lc b1 b2.
Proof. rewrite <-lc_spec. destruct (areBallotsLessAndCompatible b1 b2); naive_solver. Qed.

Lemma li_spec b1 b2 : areBallotsLessAndIncompatible b1 b2 = true ↔ li b1 b2.
Proof.
  unfold areBallotsLessAndIncompatible, li.
  by rewrite andb_true_iff, negb_true_iff, ncompat_spec.
Qed.

Lemma nli_spec b1 b2 : areBallotsLessAndIncompatible b1 b2 = false ↔ ¬ li b1 b2.
Proof. rewrite <-li_spec. destruct (areBallotsLessAndIncompatible b1 b2); naive_solver. Qed.

Lemma lc_ble b1 b2 : lc b1 b2 → b1 ≤b b2.
Proof. intros H%lc_spec. by apply andb_true_iff in H as [? _]. Qed.

Lemma lc_refl b : lc b b.
Proof. split; [done|lia]. Qed.

Lemma lc_trans b1 b2 b3 : lc b1 b2 → lc b2 b3 → lc b1 b3.
Proof. intros [? ?] [? ?]. split; [congruence|lia]. Qed.

Lemma ble_compat_lc b1 b2 : b1 ≤b b2 → value b1 = value b2 → lc b1 b2.
Proof. intros Hb Hv. split; [done|by apply ble_counter]. Qed.

#[export] Hint Resolve ble_refl blt_ble lc_refl lc_ble : ballot.

(** Booleans about ballots in the hypotheses become propositions. *)
Ltac ballots :=
  repeat match goal with
  | H : areBallotsLessAndCompatible _ _ = true |- _ => apply lc_spec in H
  | H : areBallotsLessAndCompatible _ _ = false |- _ => apply nlc_spec in H
  | H : areBallotsLessAndIncompatible _ _ = true |- _ => apply li_spec in H
  | H : areBallotsLessAndIncompatible _ _ = false |- _ => apply nli_spec in H
  | H : areBallotsCompatible _ _ = true |- _ => apply compat_spec in H
  | H : areBallotsCompatible _ _ = false |- _ => apply ncompat_spec in H
  | H : negb _ = true |- _ => apply negb_true_iff in H
  | H : negb _ = false |- _ => apply negb_false_iff in H
  | H : _ && _ = true |- _ => apply andb_true_iff in H; destruct H
  | H : _ || _ = false |- _ => apply orb_false_iff in H; destruct H
  | H : ballot_leb ?a ?b = true |- _ => change (a ≤b b) in H
  | H : ballot_ltb ?a ?b = true |- _ => change (a <b b) in H
  | H : ballot_leb _ _ = false |- _ => apply not_ble in H
  | H : ballot_ltb _ _ = false |- _ => apply not_blt in H
  end.

(** ** Statements *)

(** What the order on statements looks at: the type, then [b], [p], [p'] and
    [h]; a CONFIRM statement has only the counter of [p], an EXTERNALIZE
    statement has nothing to compare. *)
Definition newness (pl : BallotPledges)
    : Z * (SCPBallot * (option SCPBallot * (option SCPBallot * Z))) :=
  match pl with
  | SCP_ST_PREPARE p =>
      (0, (prep_ballot p, (prep_prepared p, (prep_preparedPrime p, prep_nH p))))
  | SCP_ST_CONFIRM c =>
      (1, (conf_ballot c, (Some (mkSCPBallot (conf_nPrepared c) []), (None, conf_nH c))))
  | SCP_ST_EXTERNALIZE e => (2, (SCPBallot0, (None, (None, 0))))
  end.

Lemma isNewerStatement_newness st st' :
  isNewerStatement_st st st' = true ↔
  cmp (newness (pledges st)) (newness (pledges st')) = Lt.
Proof.
  unfold isNewerStatement_st.
  destruct (pledges st) as [p|c|e], (pledges st') as [p'|c'|e']; simpl; try done.
  - destruct (compareBallots (prep_ballot p) (prep_ballot p')); try done.
    unfold compareBallots_opt.
    destruct (prep_prepared p) as [pp|], (prep_prepared p') as [pp'|]; try done;
      try destruct (compareBallots pp pp'); try done;
      destruct (prep_preparedPrime p) as [q|], (prep_preparedPrime p') as [q'|]; try done;
      try destruct (compareBallots q q'); try done;
      by rewrite Z.ltb_lt, Z.compare_lt_iff.
  - destruct (compareBallots (conf_ballot c) (conf_ballot c')); try done.
    rewrite compareBallots_lex. simpl.
    destruct (Z.compare_spec (conf_nPrepared c) (conf_nPrepared c')) as [->|?|?].
    + rewrite Z.eqb_refl. rewrite Z.ltb_lt. by rewrite <-Z.compare_lt_iff.
    + replace (_ =? _) with false by lia. by rewrite Z.ltb_lt.
    + replace (_ =? _) with false by lia. rewrite Z.ltb_lt. split; [lia|done].
Qed.

Lemma isNewer_irrefl st : isNewerStatement_st st st = false.
Proof.
  apply not_true_is_false. rewrite isNewerStatement_newness. by rewrite cmp_refl.
Qed.

Lemma isNewer_trans st1 st2 st3 :
  isNewerStatement_st st1 st2 = true → isNewerStatement_st st2 st3 = true →
  isNewerStatement_st st1 st3 = true.
Proof. rewrite !isNewerStatement_newness. apply cmp_trans. Qed.

(** C27: The relation by which a node's statements supersede each other is a
    strict order that is total up to the fields it compares: it is transitive and
    asymmetric, and two statements of which neither is newer agree on the type
    and on every compared field. *)
Theorem isNewerStatement_order (st1 st2 st3 : BallotStatement) :
  isNewerStatement_st st1 st2 = true → isNewerStatement_st st2 st3 = true →
  isNewerStatement_st st1 st3 = true ∧ isNewerStatement_st st2 st1 = false ∧
  (∀ st st', isNewerStatement_st st st' = false → isNewerStatement_st st' st = false →
             newness (pledges st) = newness (pledges st')).
Proof.
  intros H12 H23. split; [by eapply isNewer_trans|]. split.
  - apply not_true_is_false. intros H21.
    pose proof (isNewer_trans _ _ _ H12 H21) as H11. by rewrite isNewer_irrefl in H11.
  - intros st st'. rewrite <-!not_true_iff_false, !isNewerStatement_newness, <-cmp_eq.
    rewrite (cmp_opp (newness (pledges st)) (newness (pledges st'))).
    destruct (cmp (newness (pledges st)) _); naive_solver.
Qed.

Definition st_prepare (n : Z) : BallotStatement :=
  mkStatement [1] 5 (SCP_ST_PREPARE (mkPrepare [] (mkSCPBallot n [9]) None None 0 0)).

Lemma isNewerStatement_order_witness :
  isNewerStatement_st (st_prepare 1) (st_prepare 2) = true ∧
  isNewerStatement_st (st_prepare 1) (st_prepare 3) = true.
Proof.
  split; [reflexivity|].
  apply (isNewerStatement_order (st_prepare 1) (st_prepare 2) (st_prepare 3)); reflexivity.
Defined.

(** ** The interval search *)

Section interval.
Context (pred : Interval → bool).

(** Boundaries from the top: decreasing. *)
Definition decreasing (bs : list Z) : Prop := StronglySorted (λ a b, b < a) bs.

(** Once the high bound is known the search only moves the low bound, down to
    the last boundary such that all of them up to there extend the interval. *)
Lemma extendInterval_down bs lo hi :
  lo ≠ 0 → lo ≤ hi → pred (lo, hi) = true → decreasing bs → Forall (λ b, 0 < b < lo) bs →
  ∃ lo', extendInterval pred bs (lo, hi) = (lo', hi) ∧ pred (lo', hi) = true ∧
    0 ≠ lo' ∧ lo' ≤ lo ∧ (lo' = lo ∨ lo' ∈ bs) ∧
    (∀ b, b ∈ bs → lo' ≤ b → pred (b, hi) = true) ∧
    (∀ b, b ∈ bs → b < lo' → ∃ b', b' ∈ bs ∧ b ≤ b' < lo' ∧ pred (b', hi) = false).
Proof.
  revert lo. induction bs as [|b bs IH]; intros lo Hlo Hle Hp Hs Hlt; simpl.
  { exists lo. set_solver by lia. }
  apply StronglySorted_inv in Hs as [Hs Hb]. apply Forall_cons in Hlt as [Hblo Hlt].
  replace (lo =? 0) with false by lia. replace (hi <? b) with false by lia. simpl.
  destruct (pred (b, hi)) eqn:Hpb.
  - destruct (IH b) as (lo' & -> & ? & ? & ? & Hin & Hup & Hdown);
      [lia|lia|done|done| |].
    { rewrite Forall_forall in Hb, Hlt |- *. intros x Hx.
      specialize (Hb x Hx). specialize (Hlt x Hx). simpl in *. lia. }
    exists lo'. split; [done|]. split; [done|]. split; [done|]. split; [lia|].
    split; [destruct Hin as [->|?]; right; set_solver|]. split.
    + intros x [->|Hx]%elem_of_cons ?; auto.
    + intros x [->|Hx]%elem_of_cons Hxlo; [lia|].
      destruct (Hdown x Hx Hxlo) as (b' & ? & ?). exists b'. set_solver.
  - exists lo. split; [done|]. split; [done|]. split; [lia|]. split; [lia|]. split; [auto|].
    assert (∀ x, x ∈ b :: bs → x ≤ b).
    { intros x [->|Hx]%elem_of_cons; [lia|]. eapply Forall_forall in Hb; [|done]. simpl in Hb. lia. }
    split.
    + intros x Hx ?. specialize (H x Hx). lia.
    + intros x Hx ?. exists b. specialize (H x Hx). set_solver by lia.
Qed.

(** The high bound is the greatest boundary that is an interval by itself. *)
Lemma extendInterval_high bs :
  decreasing bs → Forall (λ b, 0 < b) bs →
  (extendInterval pred bs (0, 0) = (0, 0) ∧ ∀ b, b ∈ bs → pred (b, b) = false) ∨
  (∃ hi above below, bs = above ++ hi :: below ∧ pred (hi, hi) = true ∧
    (∀ b, b ∈ above → pred (b, b) = false) ∧
    extendInterval pred bs (0, 0) = extendInterval pred below (hi, hi)).
Proof.
  induction bs as [|b bs IH]; intros Hs Hpos; simpl; [left; set_solver|].
  apply StronglySorted_inv in Hs as [Hs Hb]. apply Forall_cons in Hpos as [Hb0 Hpos].
  destruct (pred (b, b)) eqn:Hp.
  - right. exists b, [], bs. set_solver.
  - destruct (IH Hs Hpos) as [[? ?]|(hi & above & below & -> & ? & ? & ?)];
      [left; set_solver|].
    right. exists hi, (b :: above), below. set_solver.
Qed.

(** Whatever the boundaries, the interval found satisfies the predicate. *)
Lemma extendInterval_sound bs cand :
  (cand.1 ≠ 0 → pred cand = true ∧ cand.1 ≤ cand.2) →
  let r := extendInterval pred bs cand in r.1 ≠ 0 → pred r = true ∧ r.1 ≤ r.2.
Proof.
  revert cand. induction bs as [|b bs IH]; intros [lo hi] Hc; simpl in *; [done|].
  destruct (Z.eqb_spec lo 0) as [->|Hlo]; simpl.
  - destruct (pred (b, b)) eqn:Hp; apply IH; simpl; [split; [done|lia]|done].
  - destruct (Z.ltb_spec hi b); [by apply IH|].
    destruct (pred (b, hi)) eqn:Hp; [|done]. apply IH. simpl. split; [done|lia].
Qed.

Lemma findExtendedInterval_sound boundaries :
  let r := findExtendedInterval boundaries pred in r.1 ≠ 0 → pred r = true ∧ r.1 ≤ r.2.
Proof. by apply extendInterval_sound. Qed.
End interval.

Lemma increasing_rev (l : list Z) : increasing l → decreasing (rev l).
Proof.
  unfold increasing, decreasing. induction 1 as [|x l Hl IH Hx]; simpl; [constructor|].
  apply StronglySorted_app. split; [|split; [done|repeat constructor]].
  intros y z Hy%list_elem_of_In%in_rev%list_elem_of_In Hz.
  apply list_elem_of_singleton in Hz as ->.
  rewrite Forall_forall in Hx. by apply Z.compare_lt_iff, Hx.
Qed.

(** C28: [findExtendedInterval], on increasing positive boundaries, finds nothing
    exactly when no boundary is an interval by itself; otherwise the high bound is
    the greatest boundary that is, every boundary of the interval extends it from
    the high bound, and below the low bound some boundary does not. *)
Theorem findExtendedInterval_spec (boundaries : list Z) (pred : Interval → bool) :
  increasing boundaries → Forall (λ b, 0 < b) boundaries →
  let r := findExtendedInterval boundaries pred in
  (r = (0, 0) ∧ ∀ b, b ∈ boundaries → pred (b, b) = false) ∨
  (0 < r.1 ≤ r.2 ∧ r.1 ∈ boundaries ∧ r.2 ∈ boundaries ∧ pred r = true ∧
   (∀ b, b ∈ boundaries → r.2 < b → pred (b, b) = false) ∧
   (∀ b, b ∈ boundaries → r.1 ≤ b ≤ r.2 → pred (b, r.2) = true) ∧
   (∀ b, b ∈ boundaries → b < r.1 →
      ∃ b', b' ∈ boundaries ∧ b ≤ b' < r.1 ∧ pred (b', r.2) = false)).
Proof.
  intros Hs%increasing_rev Hpos. unfold findExtendedInterval.
  assert (∀ b, b ∈ boundaries ↔ b ∈ rev boundaries) as Hrev.
  { intros b. by rewrite !list_elem_of_In, <-in_rev. }
  assert (Forall (λ b, 0 < b) (rev boundaries)) as Hpos'.
  { rewrite Forall_forall in Hpos |- *. intros b Hb. by apply Hpos, Hrev. }
  setoid_rewrite Hrev. clear Hrev Hpos. generalize dependent (rev boundaries).
  intros bs Hs Hpos.
  destruct (extendInterval_high pred bs Hs Hpos)
    as [[-> ?]|(hi & above & below & -> & Hp & Habove & ->)]; [by left|right].
  apply StronglySorted_app in Hs as (Hab & _ & [Hs Hlt]%StronglySorted_inv).
  apply Forall_app in Hpos as [_ [Hhi Hpos]%Forall_cons].
  destruct (extendInterval_down pred below hi hi)
    as (lo & -> & ? & ? & ? & Hin & Hup & Hdown); [lia|done|done|done| |].
  { rewrite Forall_forall in Hlt, Hpos |- *. intros x Hx. specialize (Hlt x Hx).
    specialize (Hpos x Hx). simpl in *. lia. }
  assert (0 < lo).
  { destruct Hin as [->|Hin]; [done|]. by rewrite Forall_forall in Hpos; apply Hpos. }
  simpl. split; [done|]. split; [set_solver|]. split; [set_solver|]. split; [done|].
  rewrite Forall_forall in Hlt. setoid_rewrite elem_of_app. setoid_rewrite elem_of_cons.
  split; [|split].
  - intros b [Hb|[->|Hb]] ?; [auto|lia|]. specialize (Hlt b Hb). simpl in Hlt. lia.
  - intros b [Hb|[->|Hb]] ?; [|done|by apply Hup; [|lia]].
    specialize (Hab b hi Hb ltac:(set_solver)). simpl in Hab. lia.
  - intros b [Hb|[->|Hb]] ?; [|lia|].
    { specialize (Hab b hi Hb ltac:(set_solver)). simpl in Hab. lia. }
    destruct (Hdown b Hb) as (b' & ? & ?); [done|]. exists b'. auto.
Qed.

Lemma findExtendedInterval_spec_witness :
  let r := findExtendedInterval [1; 3; 5; 8] (λ i, (2 <=? i.1) && (i.2 <=? 7)) in
  r = (3, 5) ∧ 0 < r.1 ≤ r.2.
Proof.
  split; [reflexivity|].
  destruct (findExtendedInterval_spec [1; 3; 5; 8] (λ i, (2 <=? i.1) && (i.2 <=? 7)))
    as [[H _]|[H _]]; [repeat constructor|repeat constructor|discriminate H|exact H].
Defined.
