(* ===== verification/BallotSpec.v ===== *)
(** * The ballot protocol as a transition system

    An abstract view of the ballot protocol of one node: the variables of the SCP
    paper, the statements the node has signed and the values it has reported as
    decided; and one rule per kind of protocol step, with the conditions under
    which the protocol allows it.  Messages, timers, recursion and the order of
    calls do not appear.  [BallotRefine] shows that the methods of
    [BallotProtocol] only ever take such steps; what follows from the rules alone
    is proved here, by induction on the rules. *)

From S2P Require Import Prelude StateMonad QuorumSet ScpTypes Ballot BallotOrder.

Record Node : Type := mkNode {
  n_phase : SCPPhase;
  n_b : option SCPBallot;
  n_p : option SCPBallot;
  n_pp : option SCPBallot;
  n_h : option SCPBallot;
  n_c : option SCPBallot;
  n_z : option Value;
  n_M : gmap NodeID BallotEnvelopeW;
  n_signed : list BallotStatement;
  n_decided : list Value
}.

(** The ballot statements and the decisions among the calls to the driver. *)
Definition signed_statement (c : DriverCall) : option BallotStatement :=
  match c with
  | SignEnvelope st =>
      match pledges st with
      | inl pl => Some (mkStatement (nodeID st) (slotIndex st) pl)
      | inr _ => None
      end
  | _ => None
  end.

Definition decided_value (c : DriverCall) : option Value :=
  match c with ValueExternalized _ v => Some v | _ => None end.

Definition abs (s : Slot) : Node :=
  let bp := mBallotProtocol s in
  mkNode (mPhase bp) (mCurrentBallot bp) (mPrepared bp) (mPreparedPrime bp)
    (mHighBallot bp) (mCommit bp) (mValueOverride bp) (mLatestEnvelopes bp)
    (omap signed_statement (mCalls s)) (omap decided_value (mCalls s)).

(** ** Effects of the steps *)

(** Moving to [ballot] forgets [h] and [c] when they are on another value. *)
Definition bump_node (ballot : SCPBallot) (n : Node) : Node :=
  let clear := opt_is (λ h, negb (areBallotsCompatible ballot h)) (n_h n) in
  mkNode (n_phase n) (Some ballot) (n_p n) (n_pp n)
    (if clear then None else n_h n) (if clear then None else n_c n)
    (n_z n) (n_M n) (n_signed n) (n_decided n).

(** [p] and [p'] are the two highest incompatible ballots accepted prepared. *)
Definition next_prepared (ballot : SCPBallot) (p pp : option SCPBallot)
    : option SCPBallot * option SCPBallot :=
  match p with
  | None => (Some ballot, pp)
  | Some p0 =>
      match compareBallots p0 ballot with
      | Lt => (Some ballot, if areBallotsCompatible p0 ballot then pp else Some p0)
      | Gt => (p, Some ballot)
      | Eq => (p, pp)
      end
  end.

(** Accepting [p] or [p'] as prepared aborts [h] when it is below and on another
    value. *)
Definition aborted (h : option SCPBallot) (q : option SCPBallot * option SCPBallot) : bool :=
  opt_is (λ h, opt_is (areBallotsLessAndIncompatible h) q.1
               || opt_is (areBallotsLessAndIncompatible h) q.2) h.

Definition accept_prepared_node (ballot : SCPBallot) (n : Node) : Node :=
  let q := next_prepared ballot (n_p n) (n_pp n) in
  mkNode (n_phase n) (n_b n) q.1 q.2 (n_h n)
    (if aborted (n_h n) q then None else n_c n)
    (n_z n) (n_M n) (n_signed n) (n_decided n).

(** [b <- ballot] if [ballot] is higher. *)
Definition raise_node (ballot : SCPBallot) (n : Node) : Node :=
  if match n_b n with None => true | Some b => ballot_ltb b ballot end
  then bump_node ballot n else n.

Definition confirm_prepared_node (newC newH : SCPBallot) (n : Node) : Node :=
  let ok := match n_b n with None => true | Some b => areBallotsCompatible b newH end in
  raise_node newH
    (mkNode (n_phase n) (n_b n) (n_p n) (n_pp n)
       (if ok then Some newH else n_h n)
       (if ok && negb (counter newC =? 0) then Some newC else n_c n)
       (Some (value newH)) (n_M n) (n_signed n) (n_decided n)).

Definition with_commit (c h : SCPBallot) (n : Node) : Node :=
  mkNode (n_phase n) (n_b n) (n_p n) (n_pp n) (Some h) (Some c) (Some (value h)) (n_M n)
    (n_signed n) (n_decided n).

(** Entering the CONFIRM phase, on a ballot compatible with [h]. *)
Definition enter_confirm_node (h : SCPBallot) (n : Node) : Node :=
  if bool_decide (n_phase n = SCP_PHASE_PREPARE) then
    let n1 :=
      mkNode SCP_PHASE_CONFIRM (n_b n) (n_p n) None (n_h n) (n_c n) (n_z n) (n_M n)
        (n_signed n) (n_decided n) in
    if opt_is (λ b, negb (areBallotsLessAndCompatible h b)) (n_b n)
    then bump_node h n1 else n1
  else n.

Definition accept_commit_node (c h : SCPBallot) (n : Node) : Node :=
  raise_node h (enter_confirm_node h (with_commit c h n)).

Definition confirm_commit_node (c h : SCPBallot) (n : Node) : Node :=
  let n1 := raise_node h
    (mkNode (n_phase n) (n_b n) (n_p n) (n_pp n) (Some h) (Some c) (n_z n) (n_M n)
       (n_signed n) (n_decided n)) in
  mkNode SCP_PHASE_EXTERNALIZE (n_b n1) (n_p n1) (n_pp n1) (n_h n1) (n_c n1) (n_z n1)
    (n_M n1) (n_signed n1) (n_decided n1).

Definition record_node (env : BallotEnvelopeW) (n : Node) : Node :=
  mkNode (n_phase n) (n_b n) (n_p n) (n_pp n) (n_h n) (n_c n) (n_z n)
    (<[ nodeID (getStatement env) := env ]> (n_M n)) (n_signed n) (n_decided n).

Definition sign_node (st : BallotStatement) (n : Node) : Node :=
  mkNode (n_phase n) (n_b n) (n_p n) (n_pp n) (n_h n) (n_c n) (n_z n) (n_M n)
    (st :: n_signed n) (n_decided n).

Definition decide_node (v : Value) (n : Node) : Node :=
  mkNode (n_phase n) (n_b n) (n_p n) (n_pp n) (n_h n) (n_c n) (n_z n) (n_M n)
    (n_signed n) (v :: n_decided n).

(** What a node may say about its state. *)
Definition says (L : LocalNode) (n : Node) (pl : BallotPledges) : Prop :=
  match n_phase n, pl with
  | SCP_PHASE_PREPARE, SCP_ST_PREPARE p =>
      p = mkPrepare (getQuorumSetHash L) (default SCPBallot0 (n_b n)) (n_p n) (n_pp n)
            (match n_c n with Some c => counter c | None => 0 end)
            (match n_h n with Some h => counter h | None => 0 end)
  | SCP_PHASE_CONFIRM, SCP_ST_CONFIRM cf =>
      ∃ b p c h, n_b n = Some b ∧ n_p n = Some p ∧ n_c n = Some c ∧ n_h n = Some h ∧
        cf = mkConfirm b (counter p) (counter c) (counter h) (getQuorumSetHash L)
  | SCP_PHASE_EXTERNALIZE, SCP_ST_EXTERNALIZE e =>
      ∃ c h, n_c n = Some c ∧ n_h n = Some h ∧
        e = mkExternalize c (counter h) (getQuorumSetHash L)
  | _, _ => False
  end.

(** ** Rules *)

Section rules.
Context (D : SCPDriver) (L : LocalNode) (idx : Z).
(** The statements that may arrive from outside during the run. *)
Context (incoming : BallotStatement → Prop).

Inductive node_step : Node → Node → Prop :=
| step_bump n ballot :
    n_phase n ≠ SCP_PHASE_EXTERNALIZE →
    (∀ b, n_b n = Some b → b <b ballot) →
    (∀ b c, n_b n = Some b → n_c n = Some c → value c = value ballot) →
    (∀ z, n_z n = Some z → value ballot = z) →
    node_step n (bump_node ballot n)
| step_accept_prepared n ballot :
    n_phase n ≠ SCP_PHASE_EXTERNALIZE →
    (n_phase n = SCP_PHASE_CONFIRM → ∃ p, n_p n = Some p ∧ lc p ballot) →
    (∀ p', n_pp n = Some p' → p' <b ballot) →
    (∀ p, n_p n = Some p → ¬ lc ballot p) →
    federatedAccept D L (votesPrepare ballot) (hasPreparedBallot ballot) (n_M n) = true →
    (is_Some (n_c n) → aborted (n_h n) (next_prepared ballot (n_p n) (n_pp n)) = true →
     n_phase n = SCP_PHASE_PREPARE) →
    node_step n (accept_prepared_node ballot n)
| step_confirm_prepared n newC newH :
    n_phase n = SCP_PHASE_PREPARE →
    is_Some (n_p n) →
    (∀ h, n_h n = Some h → h <b newH) →
    federatedRatify D L (hasPreparedBallot newH) (n_M n) = true →
    (counter newC ≠ 0 →
     n_c n = None ∧ lc newC newH ∧ (∀ b, n_b n = Some b → b ≤b newC) ∧
     federatedRatify D L (hasPreparedBallot newC) (n_M n) = true ∧
     (∀ p, n_p n = Some p → ¬ li newH p) ∧ (∀ p', n_pp n = Some p' → ¬ li newH p')) →
    node_step n (confirm_prepared_node newC newH n)
| step_accept_commit n c h :
    n_phase n ≠ SCP_PHASE_EXTERNALIZE →
    is_Some (n_p n) →
    (n_phase n = SCP_PHASE_CONFIRM →
     ∃ h0, n_h n = Some h0 ∧ value h0 = value h ∧ counter h0 < counter h) →
    counter c ≠ 0 → lc c h →
    (∃ k, federatedAccept D L (votesCommit (mkSCPBallot k (value h)) (counter c, counter h))
       (commitPredicate (mkSCPBallot k (value h)) (counter c, counter h)) (n_M n) = true) →
    node_step n (accept_commit_node c h n)
| step_confirm_commit n c h :
    n_phase n = SCP_PHASE_CONFIRM →
    (∃ c0, n_c n = Some c0 ∧ value c0 = value c) →
    counter c ≠ 0 → lc c h →
    (∃ k, federatedRatify D L
       (commitPredicate (mkSCPBallot k (value h)) (counter c, counter h)) (n_M n) = true) →
    node_step n (confirm_commit_node c h n)
| step_record n env :
    incoming (getStatement env) ∨ getStatement env ∈ n_signed n →
    slotIndex (getStatement env) = idx →
    isNewerStatement (n_M n) (nodeID (getStatement env)) (getStatement env) = true →
    (∃ self, isStatementSane D (getStatement env) self = true) →
    validateValues D idx (getStatement env) ≠ kInvalidValue →
    (n_phase n = SCP_PHASE_EXTERNALIZE →
     ∃ c, n_c n = Some c ∧ value (getWorkingBallot (getStatement env)) = value c) →
    node_step n (record_node env n)
| step_sign n pl :
    says L n pl →
    node_step n (sign_node (mkStatement (getNodeID L) idx pl) n)
| step_decide n c :
    n_phase n = SCP_PHASE_EXTERNALIZE → n_c n = Some c → n_decided n = [] →
    node_step n (decide_node (value c) n).
End rules.

(** ** Invariants *)

Record node_inv (n : Node) : Prop := {
  inv_pp : ∀ p', n_pp n = Some p' → ∃ p, n_p n = Some p ∧ li p' p;
  inv_h : ∀ h, n_h n = Some h → ∃ b, n_b n = Some b ∧ lc h b;
  inv_c : ∀ c, n_c n = Some c → ∃ h, n_h n = Some h ∧ lc c h;
  inv_committed : n_phase n ≠ SCP_PHASE_PREPARE →
    is_Some (n_b n) ∧ is_Some (n_p n) ∧ is_Some (n_c n) ∧ n_pp n = None;
  inv_vote : ∀ c h, n_phase n = SCP_PHASE_PREPARE → n_c n = Some c → n_h n = Some h →
    (∀ p, n_p n = Some p → ¬ li h p) ∧ (∀ p', n_pp n = Some p' → ¬ li h p');
  inv_decided : n_decided n = [] ∨
    n_phase n = SCP_PHASE_EXTERNALIZE ∧ ∃ c, n_c n = Some c ∧ n_decided n = [value c]
}.

Definition init_node : Node :=
  mkNode SCP_PHASE_PREPARE None None None None None None ∅ [] [].

Lemma init_node_inv : node_inv init_node.
Proof. split; simpl; try done. by left. Qed.

Lemma li_blt b1 b2 : li b1 b2 → b1 <b b2.
Proof. intros [H%ble_lteq Hv]. destruct H as [|<-]; done. Qed.

Lemma blt_li b1 b2 : b1 <b b2 → value b1 ≠ value b2 → li b1 b2.
Proof. intros. split; [by apply blt_ble|done]. Qed.

Lemma bump_node_h ballot n h :
  n_h (bump_node ballot n) = Some h ↔ n_h n = Some h ∧ value ballot = value h.
Proof.
  unfold bump_node. simpl. destruct (n_h n) as [h0|]; simpl; [|naive_solver].
  destruct (areBallotsCompatible ballot h0) eqn:E; ballots; naive_solver.
Qed.

Lemma bump_node_c ballot n c :
  (∀ c, n_c n = Some c → is_Some (n_h n)) →
  n_c (bump_node ballot n) = Some c ↔
  n_c n = Some c ∧ ∃ h, n_h n = Some h ∧ value ballot = value h.
Proof.
  intros Hc. unfold bump_node. simpl. destruct (n_h n) as [h0|]; simpl.
  - destruct (areBallotsCompatible ballot h0) eqn:E; ballots; naive_solver.
  - split; [intros Hc'; destruct (Hc _ Hc'); done|]. by intros (_ & ? & ? & _).
Qed.

(** The parts of a [raise_node]. *)
Lemma raise_node_cases ballot m :
  (raise_node ballot m = bump_node ballot m ∧ ∀ b, n_b m = Some b → b <b ballot) ∨
  (raise_node ballot m = m ∧ ∃ b, n_b m = Some b ∧ ballot ≤b b).
Proof.
  unfold raise_node. destruct (n_b m) as [b|]; [|left; done].
  destruct (ballot_ltb b ballot) eqn:E; ballots; [left|right]; naive_solver.
Qed.

(** The ballot a node ends up on when it accepts to commit up to [h]. *)
Lemma bump_node_same ballot n :
  n_h n = Some ballot →
  bump_node ballot n =
    mkNode (n_phase n) (Some ballot) (n_p n) (n_pp n) (n_h n) (n_c n) (n_z n) (n_M n)
      (n_signed n) (n_decided n).
Proof.
  intros Hh. unfold bump_node. rewrite Hh. simpl. unfold areBallotsCompatible.
  by rewrite bool_decide_true.
Qed.

Lemma raise_node_same h n :
  n_h n = Some h → (∀ b, n_b n = Some b → value b = value h) →
  ∃ b, lc h b ∧
    raise_node h n =
      mkNode (n_phase n) (Some b) (n_p n) (n_pp n) (n_h n) (n_c n) (n_z n) (n_M n)
        (n_signed n) (n_decided n).
Proof.
  intros Hh Hb. unfold raise_node. rewrite bump_node_same by done.
  destruct (n_b n) as [b|] eqn:Eb; [|eauto with ballot].
  destruct (ballot_ltb b h) eqn:E; ballots; [eauto with ballot|].
  exists b. split; [apply ble_compat_lc; [done|symmetry; by apply Hb]|].
  rewrite <-Eb. by destruct n.
Qed.

Lemma accept_commit_node_eq c h n :
  n_phase n ≠ SCP_PHASE_EXTERNALIZE →
  (n_phase n = SCP_PHASE_CONFIRM → n_pp n = None) →
  (n_phase n = SCP_PHASE_CONFIRM → ∀ b, n_b n = Some b → value b = value h) →
  ∃ b, lc h b ∧
    accept_commit_node c h n =
      mkNode SCP_PHASE_CONFIRM (Some b) (n_p n) None (Some h) (Some c) (Some (value h))
        (n_M n) (n_signed n) (n_decided n).
Proof.
  intros Hph Hpp Hb. unfold accept_commit_node, enter_confirm_node. simpl.
  destruct (n_phase n) eqn:Eph; [| |done].
  - rewrite bool_decide_true by done. simpl.
    destruct (n_b n) as [b|] eqn:Eb; simpl;
      [destruct (areBallotsLessAndCompatible h b) eqn:E; simpl; ballots|].
    + destruct E as [Ev _]. edestruct (raise_node_same h) as (b' & ? & ->); [done| |eauto].
      simpl. by intros ? [= <-].
    + rewrite bump_node_same by done.
      edestruct (raise_node_same h) as (b' & ? & ->); [done| |eauto]. simpl. by intros ? [= <-].
    + edestruct (raise_node_same h) as (b' & ? & ->); [done| |eauto]. done.
  - rewrite bool_decide_false by done. unfold with_commit. rewrite Eph, Hpp by done.
    edestruct (raise_node_same h) as (b' & ? & ->); [done| |eauto]. simpl. auto.
Qed.

Lemma confirm_commit_node_eq c h n :
  (∃ b, n_b n = Some b ∧ value b = value h) →
  ∃ b, lc h b ∧
    confirm_commit_node c h n =
      mkNode SCP_PHASE_EXTERNALIZE (Some b) (n_p n) (n_pp n) (Some h) (Some c) (n_z n)
        (n_M n) (n_signed n) (n_decided n).
Proof.
  intros (b0 & Hb0 & Hv). unfold confirm_commit_node.
  edestruct (raise_node_same h) as (b & ? & ->); [done| |eauto].
  simpl. intros b Hb. congruence.
Qed.

Section preserve.
Context (n : Node) (Hinv : node_inv n).

Lemma bump_inv ballot :
  n_phase n ≠ SCP_PHASE_EXTERNALIZE →
  (∀ b, n_b n = Some b → b <b ballot) →
  (∀ b c, n_b n = Some b → n_c n = Some c → value c = value ballot) →
  node_inv (bump_node ballot n).
Proof.
  intros Hph Hb Hc. destruct Hinv as [Ipp Ih Ic Icom Iv Id].
  assert (∀ c, n_c n = Some c → is_Some (n_h n)) as Hch by naive_solver.
  assert (∀ c h, n_c n = Some c → n_h n = Some h → value ballot = value h) as Hcompat.
  { intros c h Hc' Hh. destruct (Ih h Hh) as (b & Hb' & _).
    destruct (Ic c Hc') as (h' & ? & [? ?]). simplify_eq. rewrite <-(Hc b c Hb' Hc'). congruence. }
  split.
  - exact Ipp.
  - intros h [Hh Hv]%bump_node_h. exists ballot. split; [done|].
    destruct (Ih h Hh) as (b & Hb' & [? ?]). specialize (Hb b Hb').
    apply blt_ble, ble_counter in Hb. split; [done|lia].
  - intros c [Hc' (h & Hh & Hv)]%bump_node_c; [|done].
    destruct (Ic c Hc') as (h' & ? & ?). simplify_eq.
    exists h. split; [by apply bump_node_h|done].
  - intros Hph'. destruct (Icom Hph') as (? & ? & [c Hc'] & ?).
    split; [done|]. split; [done|]. split; [|done].
    exists c. apply bump_node_c; [done|]. split; [done|].
    destruct (Hch c Hc') as [h Hh]. eauto.
  - intros c h Hph' [Hc' _]%bump_node_c [Hh _]%bump_node_h; [|done]. by apply (Iv c h).
  - destruct Id as [?|[? _]]; [by left|done].
Qed.

Lemma next_prepared_spec ballot q :
  (∀ p', n_pp n = Some p' → p' <b ballot) →
  (∀ p, n_p n = Some p → ¬ lc ballot p) →
  q = next_prepared ballot (n_p n) (n_pp n) →
  is_Some q.1 ∧ (∀ p', q.2 = Some p' → ∃ p, q.1 = Some p ∧ li p' p) ∧
  ((∃ p, n_p n = Some p ∧ lc p ballot) → q.2 = n_pp n).
Proof.
  intros Hpp Hp ->. destruct Hinv as [Ipp _ _ _ _ _]. unfold next_prepared.
  destruct (n_p n) as [p0|]; simpl.
  - destruct (compareBallots_spec p0 ballot) as [->|?|?]; simpl.
    + destruct (Hp ballot); auto with ballot.
    + split; [done|].
      destruct (areBallotsCompatible p0 ballot) eqn:Ec; ballots.
      * split; [|done]. intros p' Hp'. exists ballot. split; [done|].
        destruct (Ipp p' Hp') as (p & [= <-] & [_ ?]). apply blt_li; [auto|congruence].
      * split; [|intros (? & [= <-] & [? _]); done].
        intros p' [= <-]. exists ballot. split; [done|by apply blt_li].
    + split; [done|].
      assert (value ballot ≠ value p0).
      { intros Hv. apply (Hp p0); [done|]. apply ble_compat_lc; auto with ballot. }
      split; [intros p' [= <-]; exists p0; split; [done|by apply blt_li]|].
      intros (? & [= <-] & [? _]). congruence.
  - split; [done|]. split; [|naive_solver]. intros p' Hp'.
    destruct (Ipp p' Hp') as (? & ? & _). done.
Qed.

Lemma aborted_false h q :
  aborted (Some h) q = false →
  (∀ p, q.1 = Some p → ¬ li h p) ∧ (∀ p', q.2 = Some p' → ¬ li h p').
Proof.
  unfold aborted. simpl. intros [H1 H2]%orb_false_iff.
  split; intros ? E; rewrite E in *; simpl in *; by ballots.
Qed.

Lemma accept_prepared_inv ballot :
  n_phase n ≠ SCP_PHASE_EXTERNALIZE →
  (n_phase n = SCP_PHASE_CONFIRM → ∃ p, n_p n = Some p ∧ lc p ballot) →
  (∀ p', n_pp n = Some p' → p' <b ballot) →
  (∀ p, n_p n = Some p → ¬ lc ballot p) →
  (is_Some (n_c n) → aborted (n_h n) (next_prepared ballot (n_p n) (n_pp n)) = true →
   n_phase n = SCP_PHASE_PREPARE) →
  node_inv (accept_prepared_node ballot n).
Proof.
  intros Hph Hconf Hpp Hp Hab. pose proof (next_prepared_spec ballot _ Hpp Hp eq_refl) as Hq.
  destruct Hinv as [Ipp Ih Ic Icom Iv Id]. unfold accept_prepared_node.
  set (q := next_prepared ballot (n_p n) (n_pp n)) in *. destruct Hq as (Hq1 & Hq2 & Hq3).
  split; simpl.
  - exact Hq2.
  - exact Ih.
  - intros c. case_match; [done|]. apply Ic.
  - intros Hph'. assert (n_phase n = SCP_PHASE_CONFIRM) as Hc by (by destruct (n_phase n)).
    destruct (Icom Hph') as (? & ? & ? & Hnone). rewrite Hq3 by auto.
    destruct (aborted (n_h n) q) eqn:Ea; [|done]. specialize (Hab H1 eq_refl). congruence.
  - intros c h Hph'. destruct (aborted (n_h n) q) eqn:Ea; [done|].
    intros Hc Hh. rewrite Hh in Ea. by apply aborted_false.
  - destruct Id as [?|[? _]]; [by left|done].
Qed.

Lemma confirm_prepared_inv newC newH :
  n_phase n = SCP_PHASE_PREPARE →
  (∀ h, n_h n = Some h → h <b newH) →
  (counter newC ≠ 0 →
   n_c n = None ∧ lc newC newH ∧
   (∀ p, n_p n = Some p → ¬ li newH p) ∧ (∀ p', n_pp n = Some p' → ¬ li newH p')) →
  node_inv (confirm_prepared_node newC newH n).
Proof.
  intros Hph Hh HC. destruct Hinv as [Ipp Ih Ic Icom Iv Id].
  assert (n_decided n = []) as Hdec by (destruct Id as [?|[? _]]; [done|congruence]).
  unfold confirm_prepared_node.
  set (ok := match n_b n with None => true | Some b => areBallotsCompatible b newH end).
  set (m := mkNode _ _ _ _ _ _ _ _ _ _).
  assert (∀ b, n_b n = Some b → ok = true → value b = value newH) as Hok.
  { unfold ok. intros b ->. by intros ?%compat_spec. }
  assert (∀ c, ok = true → n_c m = Some c → lc c newH ∧
     (∀ p, n_p n = Some p → ¬ li newH p) ∧ (∀ p', n_pp n = Some p' → ¬ li newH p')) as Hcm.
  { intros c Ht. simpl. rewrite Ht. simpl. destruct (Z.eqb_spec (counter newC) 0) as [|Hn0]; simpl.
    - intros Hc. destruct (Ic c Hc) as (h & Hh' & Hlc). specialize (Hh h Hh').
      destruct (Ih h Hh') as (b & Hb & [Hv _]). specialize (Hok b Hb Ht).
      assert (value h = value newH) by congruence.
      destruct (Iv c h Hph Hc Hh') as [Hp Hp'].
      split; [eapply lc_trans; [done|]; apply ble_compat_lc; auto with ballot|].
      split; intros p Hp0 [? ?]; [apply (Hp p Hp0)|apply (Hp' p Hp0)];
        (split; [apply (ble_trans _ newH); auto with ballot|congruence]).
    - intros [= <-]. destruct (HC Hn0) as (_ & ? & ? & ?). done. }
  assert (ok = false → ∀ h, n_h n = Some h → value h ≠ value newH) as Hnok.
  { unfold ok. intros Hf h Hh'. destruct (Ih h Hh') as (b & Hb & [Hv _]).
    rewrite Hb in Hf. ballots. congruence. }
  destruct (raise_node_cases newH m) as [[-> Hlow]|[-> (b & Hb & Hle)]].
  - assert (∀ h, n_h (bump_node newH m) = Some h → ok = true ∧ h = newH) as Hbh.
    { intros h [Hm Hv]%bump_node_h. simpl in Hm.
      destruct ok; [by simplify_eq|]. destruct (Hnok eq_refl h); done. }
    assert (∀ c, n_c m = Some c → is_Some (n_h m)) as Hch.
    { simpl. intros c. destruct ok; [done|]. simpl. intros (? & -> & _)%Ic. done. }
    split; [exact Ipp| | |by intros []| |by left].
    + intros h Hh'. apply Hbh in Hh' as [_ ->]. eauto with ballot.
    + intros c [Hc (h & Hmh & Hv)]%bump_node_c; [|done].
      destruct (Hbh h) as [Hok' ->]; [by apply bump_node_h|].
      exists newH. split; [by apply (bump_node_h newH m)|by apply (Hcm c)].
    + intros c h _ [Hc _]%bump_node_c Hh'; [|done]. apply Hbh in Hh' as [Hok' ->].
      by apply (Hcm c).
  - simpl in Hb. split; simpl; [exact Ipp| | |by intros []| |by left].
    + intros h. destruct ok eqn:Eok; [|apply Ih]. intros [= <-]. exists b. split; [done|].
      apply ble_compat_lc; [done|]. symmetry. by apply Hok.
    + intros c Hc. destruct ok eqn:Eok; [|by apply Ic]. exists newH. split; [done|].
      by apply (Hcm c).
    + intros c h _ Hc Hh'. destruct ok eqn:Eok; [|by apply (Iv c h)].
      simplify_eq. by apply (Hcm c).
Qed.

Lemma accept_commit_inv c h :
  n_phase n ≠ SCP_PHASE_EXTERNALIZE →
  is_Some (n_p n) →
  (n_phase n = SCP_PHASE_CONFIRM →
   ∃ h0, n_h n = Some h0 ∧ value h0 = value h ∧ counter h0 < counter h) →
  lc c h → node_inv (accept_commit_node c h n).
Proof.
  intros Hph Hp Hconf Hlc. destruct Hinv as [Ipp Ih Ic Icom Iv Id].
  assert (n_decided n = []) as Hdec by (destruct Id as [?|[? _]]; [done|congruence]).
  assert (n_phase n = SCP_PHASE_CONFIRM → ∃ b, n_b n = Some b ∧ value b = value h) as Hbh.
  { intros Hc. destruct (Hconf Hc) as (h0 & Hh & Hv & _).
    destruct (Ih h0 Hh) as (b & ? & [? _]). exists b. split; [done|congruence]. }
  assert (n_phase n = SCP_PHASE_CONFIRM → n_pp n = None) as Hpp
    by (intros Hc; apply Icom; congruence).
  assert (∃ b, lc h b ∧
    accept_commit_node c h n =
      mkNode SCP_PHASE_CONFIRM (Some b) (n_p n) None (Some h) (Some c) (Some (value h))
        (n_M n) (n_signed n) (n_decided n)) as (b & Hhb & ->).
  { apply accept_commit_node_eq; [done|done|]. intros Hc. destruct (Hbh Hc); naive_solver. }
  split; simpl; try done.
  - intros ? [= <-]. eauto.
  - intros ? [= <-]. eauto.
  - by left.
Qed.

Lemma confirm_commit_inv c h :
  n_phase n = SCP_PHASE_CONFIRM →
  (∃ c0, n_c n = Some c0 ∧ value c0 = value c) →
  lc c h → node_inv (confirm_commit_node c h n).
Proof.
  intros Hph (c0 & Hc0 & Hv) Hlc. destruct Hinv as [Ipp Ih Ic Icom Iv Id].
  destruct (Ic c0 Hc0) as (h0 & Hh0 & [Hv0 _]). destruct (Ih h0 Hh0) as (b0 & Hb0 & [Hv1 _]).
  destruct Icom as (_ & Hp & _ & Hpp); [congruence|].
  destruct (confirm_commit_node_eq c h n) as (b & Hhb & ->).
  { exists b0. destruct Hlc as [? _]. split; [done|congruence]. }
  split; simpl; rewrite ?Hpp; try done.
  - intros ? [= <-]. eauto.
  - intros ? [= <-]. eauto.
  - left. destruct Id as [?|[? _]]; [done|congruence].
Qed.
End preserve.

Lemma step_inv D L idx incoming n n' :
  node_inv n → node_step D L idx incoming n n' → node_inv n'.
Proof.
  intros Hinv Hst. destruct Hst.
  - by apply bump_inv.
  - by apply accept_prepared_inv.
  - apply confirm_prepared_inv; [done|done|done|]. intros Hn0.
    destruct (H3 Hn0) as (? & ? & _ & _ & ? & ?). done.
  - by apply accept_commit_inv.
  - by apply confirm_commit_inv.
  - destruct Hinv. by split.
  - destruct Hinv. by split.
  - destruct Hinv. split; try done. right. split; [done|]. exists c. simpl. by rewrite H1.
Qed.

Lemma steps_inv D L idx incoming n n' :
  rtc (node_step D L idx incoming) n n' → node_inv n → node_inv n'.
Proof. induction 1; eauto using step_inv. Qed.

(** ** What never changes *)

(** The node has accepted to commit [v]. *)
Definition locked (n : Node) (v : Value) : Prop :=
  n_phase n ≠ SCP_PHASE_PREPARE ∧ ∃ c, n_c n = Some c ∧ value c = v.

Lemma locked_fun n v v' : locked n v → locked n v' → v = v'.
Proof. intros (_ & c & Hc & <-) (_ & c' & Hc' & <-). congruence. Qed.

Definition phase_rank (ph : SCPPhase) : Z :=
  match ph with
  | SCP_PHASE_PREPARE => 0
  | SCP_PHASE_CONFIRM => 1
  | SCP_PHASE_EXTERNALIZE => 2
  end.

Section monotone.
Context (D : SCPDriver) (L : LocalNode) (idx : Z) (incoming : BallotStatement → Prop).

Lemma raise_node_phase h n : n_phase (raise_node h n) = n_phase n.
Proof. unfold raise_node. by case_match. Qed.

Lemma step_locked n n' v :
  node_inv n → node_step D L idx incoming n n' → locked n v → locked n' v.
Proof.
  intros Hinv Hst [Hph (c0 & Hc0 & Hv)].
  destruct (inv_c n Hinv c0 Hc0) as (h0 & Hh0 & [Hch _]).
  destruct (inv_h n Hinv h0 Hh0) as (b0 & Hb0 & [Hhb _]).
  destruct Hst; try congruence; try (split; [done|]; eauto; fail).
  - split; [done|]. exists c0. split; [|done]. apply bump_node_c; [naive_solver|].
    split; [done|]. exists h0. split; [done|]. rewrite <-(H1 b0 c0 Hb0 Hc0). done.
  - split; [done|]. exists c0. split; [|done]. simpl.
    destruct (aborted _ _) eqn:Ea; [|done]. destruct Hph. apply H4; [by eexists|done].
  - assert (n_phase n = SCP_PHASE_CONFIRM) as Hc by (by destruct (n_phase n)).
    destruct (H1 Hc) as (? & ? & ? & _). simplify_eq.
    destruct (accept_commit_node_eq c h n) as (b & _ & ->); [done| | |].
    + intros _. apply (inv_committed n Hinv). congruence.
    + intros _ b Hb. congruence.
    + split; [done|]. exists c. destruct H3. split; [done|congruence].
  - destruct H0 as (? & ? & ?). simplify_eq. destruct H2.
    destruct (confirm_commit_node_eq c h n) as (b & _ & ->).
    { exists b0. split; [done|congruence]. }
    split; [done|]. exists c. split; [done|congruence].
Qed.

Lemma enter_confirm_phase h n :
  n_phase n ≠ SCP_PHASE_EXTERNALIZE →
  n_phase (enter_confirm_node h n) = SCP_PHASE_CONFIRM.
Proof.
  intros Hph. unfold enter_confirm_node. case_bool_decide; [by case_match|].
  by destruct (n_phase n).
Qed.

Lemma step_phase n n' :
  node_step D L idx incoming n n' → phase_rank (n_phase n) ≤ phase_rank (n_phase n').
Proof.
  destruct 1; unfold confirm_prepared_node, accept_commit_node; rewrite ?raise_node_phase;
    simpl; try lia.
  - rewrite enter_confirm_phase by done. by destruct (n_phase n).
  - by destruct (n_phase n).
Qed.

Lemma raise_node_p h n : n_p (raise_node h n) = n_p n.
Proof. unfold raise_node. by case_match. Qed.

Lemma raise_node_M h n : n_M (raise_node h n) = n_M n.
Proof. unfold raise_node. by case_match. Qed.

Lemma raise_node_decided h n : n_decided (raise_node h n) = n_decided n.
Proof. unfold raise_node. by case_match. Qed.

(** Once something was accepted prepared, [p] is set for good. *)
Lemma enter_confirm_p h n : n_p (enter_confirm_node h n) = n_p n.
Proof. unfold enter_confirm_node. case_match; [by case_match|done]. Qed.

Lemma enter_confirm_h h n : n_h n = Some h → n_h (enter_confirm_node h n) = Some h.
Proof.
  intros Hh. unfold enter_confirm_node. case_bool_decide; [|done].
  destruct (opt_is _ _); [by rewrite bump_node_same|done].
Qed.

Lemma enter_confirm_M h n : n_M (enter_confirm_node h n) = n_M n.
Proof. unfold enter_confirm_node. case_match; [by case_match|done]. Qed.

Lemma enter_confirm_decided h n : n_decided (enter_confirm_node h n) = n_decided n.
Proof. unfold enter_confirm_node. case_match; [by case_match|done]. Qed.

Lemma step_p n n' : node_step D L idx incoming n n' → is_Some (n_p n) → is_Some (n_p n').
Proof.
  destruct 1; unfold confirm_prepared_node, accept_commit_node, confirm_commit_node;
    simpl; rewrite ?raise_node_p, ?enter_confirm_p; simpl; try done.
  unfold next_prepared. intros [p ->]. case_match; simpl; done.
Qed.

Lemma raise_node_b h n b :
  n_b n = Some b → ∃ b', n_b (raise_node h n) = Some b' ∧ b ≤b b'.
Proof.
  intros Hb. destruct (raise_node_cases h n) as [[-> Hlow]|[-> _]].
  - exists h. split; [done|]. auto with ballot.
  - eauto with ballot.
Qed.

(** Within a phase the ballot only goes up. *)
Lemma step_b n n' b :
  node_step D L idx incoming n n' → n_phase n' = n_phase n → n_b n = Some b →
  ∃ b', n_b n' = Some b' ∧ b ≤b b'.
Proof.
  destruct 1; intros Hph Hb; try (exists b; split; [done|apply ble_refl]).
  - exists ballot. split; [done|]. auto with ballot.
  - by apply raise_node_b.
  - unfold accept_commit_node in *. rewrite raise_node_phase in Hph.
    rewrite enter_confirm_phase in Hph by done. apply raise_node_b.
    unfold enter_confirm_node. simpl. by rewrite bool_decide_false by congruence.
  - unfold confirm_commit_node. simpl. by apply raise_node_b.
Qed.
End monotone.

Section monotone_steps.
Context (D : SCPDriver) (L : LocalNode) (idx : Z) (incoming : BallotStatement → Prop).
Notation steps := (rtc (node_step D L idx incoming)).

Lemma steps_p n n' : steps n n' → is_Some (n_p n) → is_Some (n_p n').
Proof. induction 1; eauto using step_p. Qed.

Lemma steps_rank n n' : steps n n' → phase_rank (n_phase n) ≤ phase_rank (n_phase n').
Proof. induction 1; [done|]. etrans; [by eapply step_phase|done]. Qed.

Lemma phase_rank_inj ph ph' : phase_rank ph = phase_rank ph' → ph = ph'.
Proof. by destruct ph, ph'. Qed.

Lemma steps_b n n' b :
  steps n n' → n_phase n' = n_phase n → n_b n = Some b →
  ∃ b', n_b n' = Some b' ∧ b ≤b b'.
Proof.
  intros Hst. revert b. induction Hst as [n|n1 n2 n3 H12 H23 IH]; intros b Hph Hb;
    [eauto with ballot|].
  pose proof (step_phase _ _ _ _ _ _ H12). pose proof (steps_rank _ _ H23).
  assert (n_phase n2 = n_phase n1) as Hph12 by (apply phase_rank_inj; rewrite Hph in *; lia).
  destruct (step_b _ _ _ _ _ _ b H12 Hph12 Hb) as (b2 & Hb2 & ?).
  destruct (IH b2) as (b3 & ? & ?); [congruence|done|]. eauto using ble_trans.
Qed.

Lemma steps_locked n n' v : steps n n' → node_inv n → locked n v → locked n' v.
Proof. induction 1; eauto using step_locked, step_inv. Qed.
End monotone_steps.
