(* ===== verification/BallotVote.v ===== *)
(** * Federated voting over ballot statements

    Monotonicity of the two voting predicates, membership in the candidate sets,
    and the fact on which the absence of null dereferences in the CONFIRM phase
    rests: whenever a commit can be accepted, one of the prepare candidates raised
    by the same statement can be accepted too. *)

From S2P Require Import Prelude QuorumSet ScpTypes Ballot BallotOrder.

(** ** Candidates *)

Lemma elem_of_foldl {A B} (f : list A → B → list A) (P : B → A → Prop) l bs x :
  (∀ l b x, x ∈ f l b ↔ x ∈ l ∨ P b x) →
  x ∈ foldl f l bs ↔ x ∈ l ∨ ∃ b, b ∈ bs ∧ P b x.
Proof.
  intros Hf. revert l. induction bs as [|b bs IH]; intros l; simpl; [set_solver|].
  rewrite IH, Hf. set_solver.
Qed.

Lemma elem_of_insert_if b y l x : x ∈ insert_if b y l ↔ x ∈ l ∨ b = true ∧ x = y.
Proof. unfold insert_if. destruct b; [rewrite elem_of_set_insert|]; naive_solver. Qed.

(** The candidates that a statement contributes below [topVote]. *)
Definition contributes (topVote : SCPBallot) (st : BallotStatement) (x : SCPBallot) : Prop :=
  match pledges st with
  | SCP_ST_PREPARE p =>
      lc x topVote ∧
      (x = prep_ballot p ∨ prep_prepared p = Some x ∨ prep_preparedPrime p = Some x)
  | SCP_ST_CONFIRM c =>
      value topVote = value (conf_ballot c) ∧
      (x = topVote ∨
       conf_nPrepared c < counter topVote ∧ x = mkSCPBallot (conf_nPrepared c) (value topVote))
  | SCP_ST_EXTERNALIZE e => value topVote = value (ext_commit e) ∧ x = topVote
  end.

Lemma elem_of_addCandidates topVote l st x :
  x ∈ addCandidates topVote l st ↔ x ∈ l ∨ contributes topVote st x.
Proof.
  unfold addCandidates, contributes. destruct (pledges st) as [p|c|e].
  - assert (∀ q l, x ∈ match q with
                       | Some y => insert_if (areBallotsLessAndCompatible y topVote) y l
                       | None => l
                       end ↔ x ∈ l ∨ lc x topVote ∧ q = Some x) as Hopt.
    { intros [q|] l'; [rewrite elem_of_insert_if, lc_spec|]; naive_solver. }
    rewrite !Hopt, elem_of_insert_if, lc_spec. naive_solver.
  - destruct (areBallotsCompatible topVote (conf_ballot c)) eqn:E; ballots; [|naive_solver].
    rewrite elem_of_insert_if, elem_of_set_insert, Z.ltb_lt. naive_solver.
  - rewrite elem_of_insert_if, compat_spec. naive_solver.
Qed.

Lemma elem_of_getPrepareCandidates latest hint x :
  x ∈ getPrepareCandidates latest hint ↔
  ∃ topVote st, topVote ∈ hintBallots hint ∧ st ∈ latest_statements latest ∧
                contributes topVote st x.
Proof.
  unfold getPrepareCandidates.
  rewrite (elem_of_foldl _ (λ t x, ∃ st, st ∈ latest_statements latest ∧ contributes t st x)).
  - rewrite elem_of_nil. setoid_rewrite list_elem_of_In. setoid_rewrite <-in_rev.
    setoid_rewrite <-list_elem_of_In. naive_solver.
  - intros l t y. apply elem_of_foldl. intros. apply elem_of_addCandidates.
Qed.

Lemma elem_of_latest_statements latest st :
  st ∈ latest_statements latest ↔ ∃ n e, latest !! n = Some e ∧ getStatement e = st.
Proof.
  unfold latest_statements. rewrite list_elem_of_fmap. split.
  - intros ([n e] & -> & Hin%elem_of_map_to_list). eauto.
  - intros (n & e & Hin & <-). exists (n, e). split; [done|]. by apply elem_of_map_to_list.
Qed.

Lemma min_counter (T : SCPBallot) (l : list SCPBallot) :
  ∃ t, t ∈ T :: l ∧ ∀ x, x ∈ T :: l → counter t ≤ counter x.
Proof.
  induction l as [|y l (t & Ht & Hmin)]; [exists T; set_solver by lia|].
  destruct (Z.le_gt_cases (counter t) (counter y)).
  - exists t. split; [set_solver|]. intros x. rewrite !elem_of_cons. intros [->|[->|?]];
      [apply Hmin; set_solver|done|apply Hmin; set_solver].
  - exists y. split; [set_solver|]. intros x. rewrite !elem_of_cons. intros [->|[->|?]];
      [|done|]; (transitivity (counter t); [lia|]; apply Hmin; set_solver).
Qed.

(** ** Voting *)

Section voting.
Context (D : SCPDriver) (L : LocalNode).
Hypothesis (HL : well_formed (getQuorumSet L)).
Hypothesis (HD : ∀ h q, getQSet D h = Some q → typed q).

Lemma singleton_well_formed n : well_formed (buildSingletonQSet n).
Proof. constructor; [simpl; widths; lia|constructor]. Qed.

Lemma qfun_typed st q : getQuorumSetFromStatement D st = Some q → typed q.
Proof.
  unfold getQuorumSetFromStatement. destruct (pledges st); [by apply HD|by apply HD|].
  intros [= <-]. apply well_formed_typed, singleton_well_formed.
Qed.

Lemma federatedAccept_cases voted accepted latest :
  federatedAccept D L voted accepted latest = true ↔
  isVBlocking_map (getQuorumSet L) latest (λ e, accepted (getStatement e)) = true ∨
  isQuorum (getQuorumSet L) latest (λ e, getQuorumSetFromStatement D (getStatement e))
    (λ e, accepted (getStatement e) || voted (getStatement e)) = true.
Proof.
  unfold federatedAccept, federatedAccept_with.
  destruct (isVBlocking_map _ _ _); [naive_solver|]. destruct (isQuorum _ _ _ _); naive_solver.
Qed.

(** The hint's own top vote is among the candidates it raises. *)
Lemma commitHint_topVote hint ballot latest :
  commitHint hint = Some ballot → hint ∈ latest_statements latest →
  ∃ T, T ∈ hintBallots hint ∧ value T = value ballot ∧
       T ∈ getPrepareCandidates latest hint.
Proof.
  intros Hc Hin.
  assert (∃ T, T ∈ hintBallots hint ∧ value T = value ballot ∧ contributes T hint T)
    as (T & ? & ? & ?); [|exists T; rewrite elem_of_getPrepareCandidates; eauto 10].
  unfold commitHint, hintBallots, contributes in *. destruct (pledges hint) as [p|c|e].
  - destruct (prep_nC p =? 0); simplify_eq/=. exists (prep_ballot p).
    split; [|split; [done|split; [apply lc_refl|auto]]]. unfold insert_opt.
    destruct (prep_preparedPrime p), (prep_prepared p);
      rewrite ?elem_of_set_insert; set_solver.
  - injection Hc as <-. exists (mkSCPBallot UINT32_MAX (value (conf_ballot c))).
    rewrite elem_of_set_insert. auto.
  - injection Hc as <-. exists (mkSCPBallot UINT32_MAX (value (ext_commit e))).
    rewrite elem_of_set_insert. auto.
Qed.

(** The lowest of the counters, up to that of [T], that the nodes selected by [f]
    mention with the value of [T]. *)
Lemma lowest_mention (T : SCPBallot) (mention : BallotStatement → option SCPBallot)
    (sts : list BallotStatement) :
  (∀ st x, st ∈ sts → mention st = Some x → value x = value T) →
  ∃ t, value t = value T ∧ counter t ≤ counter T ∧
    (t = T ∨ ∃ st, st ∈ sts ∧ mention st = Some t ∧ counter t < counter T) ∧
    (∀ st x, st ∈ sts → mention st = Some x → counter t ≤ counter x).
Proof.
  intros Hval. set (l := filter (λ x, counter x < counter T) (omap mention sts)).
  destruct (min_counter T l) as (t & Ht & Hmin). exists t.
  assert (t = T ∨ ∃ st, st ∈ sts ∧ mention st = Some t ∧ counter t < counter T) as Ht'.
  { apply elem_of_cons in Ht as [->|Ht]; [by left|right].
    apply list_elem_of_filter in Ht as [? (st & ? & ?)%list_elem_of_omap]. eauto. }
  split; [destruct Ht' as [->|(st & ? & ? & _)]; eauto|].
  split; [apply Hmin; set_solver|]. split; [done|]. intros st x Hst Hx.
  destruct (Z.lt_ge_cases (counter x) (counter T)).
  - apply Hmin. right. apply list_elem_of_filter. split; [done|].
    apply list_elem_of_omap. eauto.
  - transitivity (counter T); [apply Hmin; set_solver|done].
Qed.

(** What a statement says about preparing the value it commits. *)
Definition prepared_mention (v : Value) (st : BallotStatement) : option SCPBallot :=
  match pledges st with
  | SCP_ST_CONFIRM c =>
      if bool_decide (value (conf_ballot c) = v)
      then Some (mkSCPBallot (conf_nPrepared c) v) else None
  | _ => None
  end.

Definition voted_mention (v : Value) (st : BallotStatement) : option SCPBallot :=
  match pledges st with
  | SCP_ST_PREPARE p =>
      if bool_decide (value (prep_ballot p) = v) then Some (prep_ballot p) else None
  | _ => None
  end.

Lemma commit_prepares hint ballot cur latest :
  hint ∈ latest_statements latest → commitHint hint = Some ballot →
  federatedAccept D L (votesCommit ballot cur) (commitPredicate ballot cur) latest = true →
  ∃ t, t ∈ getPrepareCandidates latest hint ∧
       federatedAccept D L (votesPrepare t) (hasPreparedBallot t) latest = true.
Proof.
  intros Hin Hhint. destruct (commitHint_topVote hint ballot latest Hhint Hin)
    as (T & HT & Hv & HTc).
  assert (∀ x st, st ∈ latest_statements latest → contributes T st x →
                  x ∈ getPrepareCandidates latest hint) as Hcand.
  { intros x st Hst Hx. apply elem_of_getPrepareCandidates. eauto 10. }
  assert (∀ n e, latest !! n = Some e → getStatement e ∈ latest_statements latest) as Hlat.
  { intros. apply elem_of_latest_statements. eauto. }
  rewrite federatedAccept_cases. intros [Hblock|Hquorum].
  - destruct (lowest_mention T (prepared_mention (value T)) (latest_statements latest))
      as (t & Hvt & HtT & Ht & Hmin).
    { intros st x _. unfold prepared_mention. destruct (pledges st); try done.
      case_bool_decide; [|done]. by intros [= <-]. }
    exists t. split.
    + destruct Ht as [->|(st & Hst & Hm & Hlt)]; [done|]. apply (Hcand _ st Hst).
      unfold prepared_mention, contributes in *.
      destruct (pledges st) as [p|c|x]; [done| |done]. case_bool_decide as E; [|done].
      injection Hm as <-. auto.
    + apply federatedAccept_cases. left. revert Hblock. apply isVBlocking_map_mono; [done|].
      intros n e He Hp. exists e. split; [done|]. specialize (Hmin (getStatement e)).
      unfold prepared_mention, commitPredicate, hasPreparedBallot in *.
      destruct (pledges (getStatement e)) as [p|c|x]; [done| |]; ballots.
      * apply lc_spec. split; [simpl; congruence|]. simpl.
        rewrite bool_decide_true in Hmin by congruence. by apply (Hmin _ (Hlat n e He) eq_refl).
      * apply compat_spec. congruence.
  - destruct (lowest_mention T (voted_mention (value T)) (latest_statements latest))
      as (t & Hvt & HtT & Ht & Hmin).
    { intros st x _. unfold voted_mention. destruct (pledges st); try done.
      case_bool_decide; [|done]. by intros [= <-]. }
    exists t. split.
    + destruct Ht as [->|(st & Hst & Hm & Hlt)]; [done|]. apply (Hcand _ st Hst).
      unfold voted_mention, contributes in *.
      destruct (pledges st) as [p|c|x]; [|done|done]. case_bool_decide as E; [|done].
      injection Hm as <-. split; [split; [done|lia]|auto].
    + apply federatedAccept_cases. right. revert Hquorum. apply isQuorum_mono.
      { intros e q. apply qfun_typed. }
      { by apply well_formed_typed. }
      intros n e He Hp. specialize (Hmin (getStatement e)). apply orb_true_iff. right.
      unfold voted_mention, commitPredicate, votesCommit, votesPrepare in *.
      destruct (pledges (getStatement e)) as [p|c|x]; simpl in Hp.
      * ballots. apply lc_spec. split; [congruence|].
        rewrite bool_decide_true in Hmin by congruence. by apply (Hmin _ (Hlat n e He) eq_refl).
      * apply compat_spec. apply orb_true_iff in Hp as [Hp|Hp]; ballots; congruence.
      * apply compat_spec. apply orb_true_iff in Hp as [Hp|Hp]; ballots; congruence.
Qed.
End voting.
