(* ===== verification/BallotRefine.v ===== *)
(** * The ballot protocol implements its specification

    Every method of [BallotProtocol] is run symbolically, from an arbitrary state
    that satisfies the invariant of [BallotSpec] and for arbitrary incoming
    statements.  It is shown that
    - the abstract state only moves along the rules of [BallotSpec];
    - the only way not to return is a failed assertion or a [runtime_error]: no
      null pointer is dereferenced, and neither the recursion nor the bump loop
      runs out of fuel;
    - the envelopes handed to the network are strictly newer each time. *)

From S2P Require Import Prelude StateMonad QuorumSet ScpTypes Ballot BallotOrder.
From S2P Require Import BallotVote BallotSpec.

(** ** What a method may do *)

Notation latest s := (mLatestEnvelopes (mBallotProtocol s)).
Notation phase s := (mPhase (mBallotProtocol s)).
Notation level s := (mCurrentMessageLevel (mBallotProtocol s)).

Definition cur_counter (s : Slot) : Z :=
  match mCurrentBallot (mBallotProtocol s) with Some b => counter b | None => 0 end.

(** The ballot statements handed to the network, newest first. *)
Definition emitted_statement (c : DriverCall) : option BallotStatement :=
  match c with
  | EmitEnvelope e =>
      match pledges (statement e) with
      | inl pl => Some (mkStatement (nodeID (statement e)) (slotIndex (statement e)) pl)
      | inr _ => None
      end
  | _ => None
  end.

Definition emitted (s : Slot) : list BallotStatement := omap emitted_statement (mCalls s).

Definition newer_or_same (st st' : BallotStatement) : Prop :=
  st = st' ∨ isNewerStatement_st st st' = true.

Lemma newer_or_same_newer st1 st2 st3 :
  newer_or_same st1 st2 → isNewerStatement_st st2 st3 = true →
  isNewerStatement_st st1 st3 = true.
Proof. intros [->|?] ?; eauto using isNewer_trans. Qed.

(** What was emitted is increasing, and up to date with [mLastEnvelopeEmit],
    itself not ahead of [mLastEnvelope]. *)
Record emit_inv (s : Slot) : Prop := {
  emit_sorted : StronglySorted (λ new old, isNewerStatement_st old new = true) (emitted s);
  emit_last : ∀ st, st ∈ emitted s →
    ∃ e, mLastEnvelopeEmit (mBallotProtocol s) = Some e ∧ newer_or_same st (getStatement e);
  emit_next : ∀ e, mLastEnvelopeEmit (mBallotProtocol s) = Some e →
    ∃ l, mLastEnvelope (mBallotProtocol s) = Some l ∧
         (l = e ∨ isNewerStatement_st (getStatement e) (getStatement l) = true)
}.

(** The exceptions a method may end with. *)
Definition ballot_errors : list string :=
  ["moved to a bad state (ballot protocol)";
   "maximum number of transitions reached in advanceSlot"].

Definition allowed (e : exn) : Prop :=
  match e with
  | AssertFailure => True
  | RuntimeError msg => existsb (String.eqb msg) ballot_errors = true
  | _ => False
  end.

(** What the abstraction does not see and most steps leave alone. *)
Record same_frame (s s' : Slot) : Prop := {
  sf_idx : mSlotIndex s' = mSlotIndex s;
  sf_level : level s' = level s;
  sf_last : mLastEnvelope (mBallotProtocol s') = mLastEnvelope (mBallotProtocol s);
  sf_emit : mLastEnvelopeEmit (mBallotProtocol s') = mLastEnvelopeEmit (mBallotProtocol s);
  sf_emitted : emitted s' = emitted s
}.

Lemma same_frame_refl s : same_frame s s.
Proof. done. Qed.

Lemma same_frame_trans s1 s2 s3 : same_frame s1 s2 → same_frame s2 s3 → same_frame s1 s3.
Proof. intros [] []. split; congruence. Qed.

Lemma same_frame_emit_inv s s' : same_frame s s' → emit_inv s → emit_inv s'.
Proof. intros [_ _ Hl He Hm] []. split; rewrite ?Hm, ?Hl, ?He; done. Qed.

#[export] Hint Resolve same_frame_refl : ballot.

Section refine.
Context (D : SCPDriver) (L : LocalNode).

(** The node's own latest statement is not ahead of its ballot. *)
Definition self_current (s : Slot) : Prop :=
  phase s ≠ SCP_PHASE_EXTERNALIZE →
  ∀ e, latest s !! getNodeID L = Some e →
       statementBallotCounter (getStatement e) ≤ cur_counter s.

(** Steps of the specification without incoming statement. *)
Notation steps s s' :=
  (rtc (node_step D L (mSlotIndex s) (λ _, False)) (abs s) (abs s')).

Record ev (s s' : Slot) : Prop := {
  ev_steps : steps s s';
  ev_idx : mSlotIndex s' = mSlotIndex s;
  ev_level : level s' = level s;
  ev_others : ∀ n, n ≠ getNodeID L → latest s' !! n = latest s !! n;
  ev_emit : emit_inv s → emit_inv s';
  ev_ext : phase s = SCP_PHASE_EXTERNALIZE → n_decided (abs s') = n_decided (abs s)
}.

Lemma steps_phase s s' : steps s s' → phase_rank (phase s) ≤ phase_rank (phase s').
Proof.
  change (phase s) with (n_phase (abs s)). change (phase s') with (n_phase (abs s')).
  generalize (abs s) (abs s'). induction 1; [done|].
  etrans; [by eapply step_phase|done].
Qed.

Lemma ev_refl s : ev s s.
Proof. by split. Qed.

Lemma ev_trans s1 s2 s3 : ev s1 s2 → ev s2 s3 → ev s1 s3.
Proof.
  intros [S12 I12 L12 O12 E12 X12] [S23 I23 L23 O23 E23 X23]. split.
  - etrans; [done|]. by rewrite I12 in S23.
  - congruence.
  - congruence.
  - intros n Hn. by rewrite O23, O12.
  - auto.
  - intros Hx. rewrite X23, X12; [done|done|].
    apply steps_phase in S12. rewrite Hx in S12. by destruct (phase s2).
Qed.

Lemma ev_inv s s' : ev s s' → node_inv (abs s) → node_inv (abs s').
Proof. intros [Hs _ _ _ _ _]. by eapply steps_inv. Qed.

(** A step of the specification. *)
Lemma ev_step s s' n' :
  node_step D L (mSlotIndex s) (λ _, False) (abs s) n' → abs s' = n' → same_frame s s' →
  n_M n' = latest s → n_decided n' = n_decided (abs s) → ev s s'.
Proof.
  intros Hs Ha Hf HM Hd. split.
  - rewrite Ha. by apply rtc_once.
  - apply Hf.
  - apply Hf.
  - intros n _. change (latest s') with (n_M (abs s')). by rewrite Ha, HM.
  - by apply same_frame_emit_inv.
  - intros _. by rewrite Ha.
Qed.

(** A change the specification does not see. *)
Lemma ev_silent s s' : abs s' = abs s → same_frame s s' → ev s s'.
Proof.
  intros Ha Hf. split.
  - by rewrite Ha.
  - apply Hf.
  - apply Hf.
  - intros n _. change (latest s') with (n_M (abs s')). by rewrite Ha.
  - by apply same_frame_emit_inv.
  - intros _. by rewrite Ha.
Qed.

Lemma self_current_ext s s' :
  n_phase (abs s') = n_phase (abs s) → n_b (abs s') = n_b (abs s) →
  n_M (abs s') = n_M (abs s) → self_current s → self_current s'.
Proof. unfold self_current, cur_counter. simpl. by intros -> -> ->. Qed.

Lemma ev_self_current s s' : abs s' = abs s → self_current s → self_current s'.
Proof. intros Ha. apply self_current_ext; by rewrite Ha. Qed.
End refine.

(** ** Symbolic execution *)

Section wp_rules.
Context {A : Type} (E : exn → Prop) (s : Slot).

Lemma wp_bget (f : BallotProtocol → A) Q : Q (f (mBallotProtocol s)) s → wp (bget f) Q E s.
Proof. apply (wp_gets (λ s, f (mBallotProtocol s))). Qed.

Lemma wp_nget (f : NominationProtocol → A) Q :
  Q (f (mNominationProtocol s)) s → wp (nget f) Q E s.
Proof. apply (wp_gets (λ s, f (mNominationProtocol s))). Qed.

Lemma wp_bset f Q :
  Q tt (set_mBallotProtocol (f (mBallotProtocol s)) s) → wp (bset f) Q E s.
Proof. apply (wp_modify (λ s, set_mBallotProtocol (f (mBallotProtocol s)) s)). Qed.

Lemma wp_call c Q : Q tt (set_mCalls (c :: mCalls s) s) → wp (call c) Q E s.
Proof. apply (wp_modify (λ s, set_mCalls (c :: mCalls s) s)). Qed.
End wp_rules.

Ltac bstep :=
  lazymatch goal with
  | |- wp (bget _) _ _ _ => apply wp_bget
  | |- wp (nget _) _ _ _ => apply wp_nget
  | |- wp (bset _) _ _ _ => apply wp_bset
  | |- wp (call _) _ _ _ => apply wp_call
  | |- _ => wp_step
  end.

(** Runs the straight-line part of a method. *)
Ltac brun := repeat (bstep; cbv beta delta [id]).

Section methods.
Context (D : SCPDriver) (L : LocalNode).
Implicit Types (E : exn → Prop) (s : Slot).

Lemma wp_bumpToBallot ballot check (Q : unit → Slot → Prop) E s :
  E AssertFailure →
  (∀ s1, phase s ≠ SCP_PHASE_EXTERNALIZE →
     (check = true → ∀ b, mCurrentBallot (mBallotProtocol s) = Some b → b ≤b ballot) →
     abs s1 = bump_node ballot (abs s) → same_frame s s1 → Q tt s1) →
  wp (bumpToBallot ballot check) Q E s.
Proof.
  intros HE HQ. unfold bumpToBallot. brun; [|done]. intros Hph%bool_decide_eq_true.
  unfold bump_node, opt_is in HQ. simpl in HQ.
  destruct (mCurrentBallot (mBallotProtocol s)) as [cur|],
    (mHighBallot (mBallotProtocol s)) as [h|] eqn:Eh.
  all: try destruct (areBallotsCompatible ballot h) eqn:Ec.
  all: try destruct (counter cur =? counter ballot).
  all: destruct check; cbn [when negb is_some]; brun; try done; try intros Hle; brun; apply HQ; try done.
  all: first [by intros _ ? [= <-] | unfold abs; simpl; by rewrite ?Eh].
Qed.

Lemma wp_send (Q : unit → Slot → Prop) E s :
  (∀ s1, ev D L s s1 → abs s1 = abs s → Q tt s1) → wp sendLatestEnvelope Q E s.
Proof.
  intros HQ. unfold sendLatestEnvelope. brun.
  destruct (mLastEnvelope (mBallotProtocol s)) as [last|] eqn:El;
    [|brun; apply HQ; auto using ev_refl].
  brun; [|intros _; apply HQ; auto using ev_refl].
  intros [_ Hdiff]%andb_true_iff. brun. apply HQ; [|done].
  split; try done. intros [Hs Hl Hn].
  assert (∀ st, st ∈ emitted s → isNewerStatement_st st (getStatement last) = true) as Hnew.
  { intros st Hst. destruct (Hl st Hst) as (e & He & Hse). rewrite He in Hdiff.
    destruct (Hn e He) as (l & Hl' & Hle). rewrite El in Hl'. injection Hl' as <-.
    destruct Hle as [<-|Hle]; [by rewrite Z.eqb_refl in Hdiff|].
    by eapply newer_or_same_newer. }
  assert (emitted (set_mCalls (EmitEnvelope (map_envelope inl (getEnvelope last)) :: mCalls s) s)
    = getStatement last :: emitted s) as Hem.
  { unfold emitted, getStatement. simpl. by destruct (statement (getEnvelope last)). }
  split.
  - unfold emitted in *. simpl in *. rewrite Hem. constructor; [done|].
    by apply Forall_forall.
  - unfold emitted in *. simpl in *. rewrite Hem. intros st Hst. exists last. split; [done|].
    apply elem_of_cons in Hst as [->|Hst]; [by left|]. right. by apply Hnew.
  - simpl. intros e [= <-]. exists last. auto.
Qed.

Lemma wp_checkHeard (Q : unit → Slot → Prop) E s :
  (∀ s1, abs s1 = abs s → same_frame s s1 → Q tt s1) → wp (checkHeardFromQuorum D L) Q E s.
Proof.
  intros HQ. unfold checkHeardFromQuorum, startBallotProtocolTimer, stopBallotProtocolTimer.
  brun. destruct (mCurrentBallot (mBallotProtocol s)) as [b|] eqn:Eb; [|brun; by apply HQ].
  destruct (isQuorum _ _ _ _); [|brun; by apply HQ].
  brun; intros; brun; intros; brun; intros; brun; intros; brun; try (by apply HQ).
  all: simpl in *; rewrite Eb in *; simplify_eq/=.
Qed.
End methods.

(** ** Emitting a statement *)

Section emit.
Context (D : SCPDriver) (L : LocalNode).
Implicit Types (s : Slot).

Notation ev := (ev D L).
Notation self_current := (self_current L).

Lemma checkInvariants_allowed bp e :
  (∀ c, mCommit bp = Some c → is_Some (mHighBallot bp)) →
  checkInvariants bp = Throw e → e = AssertFailure.
Proof.
  intros Hc. unfold checkInvariants. intros He.
  assert (∀ b e, cassert b = Throw e → e = AssertFailure) as Hassert
    by (by intros [] ?; simpl; intros [= <-]).
  repeat (apply res_bind_Throw in He as [He|(? & _ & He)]; [|]).
  - case_match; [eauto|done].
  - repeat case_match; eauto; done.
  - case_match; [|done].
    destruct (mCurrentBallot bp); simpl in He; [eauto|by injection He as <-].
  - destruct (mCommit bp) as [c|] eqn:Ec; [|done]. destruct (Hc c eq_refl) as [h Hh].
    destruct (mCurrentBallot bp); simpl in He; [|by injection He as <-].
    rewrite Hh in He. simpl in He. apply res_bind_Throw in He as [?|(_ & _ & He)]; eauto.
  - destruct (mPhase bp); [done|eauto|].
    apply res_bind_Throw in He as [?|(_ & _ & He)]; eauto.
Qed.

Lemma wp_checkInvariantsM (Q : unit → Slot → Prop) s :
  node_inv (abs s) → (checkInvariants (mBallotProtocol s) = Ok tt → Q tt s) →
  wp checkInvariantsM Q allowed s.
Proof.
  intros Hinv HQ. apply wp_reads.
  - by intros [] ?%HQ.
  - intros e He. apply checkInvariants_allowed in He as ->; [done|].
    intros c Hc. destruct (inv_c _ Hinv c Hc) as (h & Hh & _). by exists h.
Qed.

(** The statement describes the state; nothing it needs is null. *)
Lemma wp_createStatement (Q : BallotPledges → Slot → Prop) s :
  node_inv (abs s) → (∀ pl, says L (abs s) pl → Q pl s) →
  wp (createStatement L (phase s)) Q allowed s.
Proof.
  intros Hinv HQ. unfold createStatement. apply wp_bind, wp_checkInvariantsM; [done|].
  intros _. apply wp_reads.
  - intros pl Hpl. apply HQ. unfold says. simpl.
    destruct (phase s); res_simpl; eauto 20.
  - intros e. change (phase s) with (n_phase (abs s)).
    destruct (n_phase (abs s)) eqn:Hph; [done| |]; simpl.
    + destruct (inv_committed _ Hinv) as ([b Hb] & [p Hp] & [c Hc] & _); [congruence|].
      destruct (inv_c _ Hinv c Hc) as (h & Hh & _). simpl in *. by rewrite Hb, Hp, Hc, Hh.
    + destruct (inv_committed _ Hinv) as (_ & _ & [c Hc] & _); [congruence|].
      destruct (inv_c _ Hinv c Hc) as (h & Hh & _). simpl in *. by rewrite Hc, Hh.
Qed.

(** What the recursive call promises on the node's own statements, with the
    fuel that is left. *)
Definition process_spec (fuel : nat)
    (process : BallotEnvelopeW → bool → slotM EnvelopeState) : Prop :=
  ∀ env self s,
    node_inv (abs s) → level s < MAX_ADVANCE_SLOT_RECURSION ≤ Z.of_nat fuel + level s →
    getStatement env ∈ n_signed (abs s) → nodeID (getStatement env) = getNodeID L →
    wp (process env self)
      (λ r s', ev s s' ∧
         (r = VALID →
          (phase s ≠ SCP_PHASE_EXTERNALIZE →
           statementBallotCounter (getStatement env) ≤ cur_counter s) →
          self_current s'))
      allowed s.

Lemma says_counter s pl idx :
  says L (abs s) pl → phase s ≠ SCP_PHASE_EXTERNALIZE →
  statementBallotCounter (mkStatement (getNodeID L) idx pl) = cur_counter s.
Proof.
  unfold says, statementBallotCounter, cur_counter. simpl.
  destruct (phase s), pl; simpl; try done.
  - intros -> _. simpl. by destruct (mCurrentBallot (mBallotProtocol s)).
  - intros (b & ? & ? & ? & -> & _ & _ & _ & ->) _. done.
Qed.

Context (fuel : nat) (process : BallotEnvelopeW → bool → slotM EnvelopeState).
Hypothesis (Hprocess : process_spec fuel process).

(** The level from which the recursive call may be made. *)
Definition can_process (s : Slot) : Prop :=
  level s < MAX_ADVANCE_SLOT_RECURSION ≤ Z.of_nat fuel + level s.

Lemma ev_set_last s envW :
  match mLastEnvelope (mBallotProtocol s) with
  | Some l => isNewerStatement_st (getStatement l) (getStatement envW) = true
  | None => True
  end →
  ev s (set_mBallotProtocol (set_mLastEnvelope (Some envW) (mBallotProtocol s)) s).
Proof.
  intros Hnew. split; try done. intros [Hs Hl Hn]. split; try done.
  simpl. intros e He. exists envW. split; [done|]. right.
  destruct (Hn e He) as (l & Hl' & Hle). rewrite Hl' in Hnew.
  destruct Hle as [->|Hle]; [done|]. by eapply isNewer_trans.
Qed.

Lemma wp_emit s :
  node_inv (abs s) → can_process s →
  wp (emitCurrentStateStatement D L process) (λ _ s', ev s s' ∧ self_current s') allowed s.
Proof.
  intros Hinv Hlevel. unfold emitCurrentStateStatement. brun.
  apply wp_createStatement; [done|]. intros pl Hpl. cbv beta.
  unfold createEnvelope. brun. set (st := mkStatement (getNodeID L) (mSlotIndex s) pl).
  set (env := mkEnvelope st (signEnvelope D (map_statement inl st))).
  set (s1 := set_mCalls _ s).
  assert (ev s s1) as Hev1.
  { eapply ev_step; [by apply (step_sign _ _ _ _ _ pl)|done|done|done|done]. }
  assert (node_inv (abs s1)) as Hinv1 by (by eapply ev_inv).
  case_match eqn:Hsame.
  - unfold wrapEnvelope. brun. set (s2 := set_mNextWrapper _ s1).
    set (envW := mkWrapper (mNextWrapper s1) env).
    assert (ev s s2) as Hev2.
    { eapply ev_trans; [exact Hev1|]. by apply ev_silent. }
    eapply wp_conseq; [apply (Hprocess envW true s2)|].
    + exact Hinv1.
    + exact Hlevel.
    + simpl. unfold getStatement. simpl. left.
    + done.
    + intros r s3 (Hev3 & Hcur). cbv beta.
      case_bool_decide as Hr; [|brun; done]. subst r.
      assert (self_current s3) as Hcur3.
      { apply Hcur; [done|]. intros Hph.
        change (statementBallotCounter st ≤ cur_counter s).
        by rewrite <-(says_counter s pl (mSlotIndex s) Hpl Hph). }
      assert (ev s s3) as Hs3 by (by eapply ev_trans).
      brun; [|by intros _; split].
      intros [_ Hnew]%andb_true_iff. brun.
      apply (wp_send D L). intros s4 Hev4 Ha4.
      split; [|by eapply ev_self_current; [exact Ha4|]].
      eapply ev_trans; [exact Hs3|]. eapply ev_trans; [|exact Hev4].
      apply ev_set_last. by case_match.
  - brun. split; [done|]. intros Hph e He.
    rewrite He in Hsame.
    apply bool_decide_eq_false, dec_stable in Hsame. unfold getStatement. rewrite Hsame.
    change (statementBallotCounter st ≤ cur_counter s).
    by rewrite <-(says_counter s pl (mSlotIndex s) Hpl Hph).
Qed.

(** ** Steps followed by an emission *)

Lemma wp_emit_after s s1 :
  node_inv (abs s) → can_process s → ev s s1 →
  wp (emitCurrentStateStatement D L process)
    (λ _ s', ev s s' ∧ ev s1 s' ∧ self_current s') allowed s1.
Proof.
  intros Hinv Hl Hev. eapply wp_conseq; [apply wp_emit|].
  - by eapply ev_inv.
  - unfold can_process in *. by rewrite (ev_level _ _ _ _ Hev).
  - intros _ s' [? ?]. split; [by eapply ev_trans|done].
Qed.

Lemma ev_prepared s s' :
  ev s s' → is_Some (mPrepared (mBallotProtocol s)) → is_Some (mPrepared (mBallotProtocol s')).
Proof. intros Hev. by apply (steps_p _ _ _ _ _ _ (ev_steps _ _ _ _ Hev)). Qed.

Lemma wp_setPrepared ballot (Q : bool → Slot → Prop) E s :
  node_inv (abs s) →
  (∀ p', mPreparedPrime (mBallotProtocol s) = Some p' → p' <b ballot) →
  (∀ p, mPrepared (mBallotProtocol s) = Some p → ¬ lc ballot p) →
  (∀ s1, let q := next_prepared ballot (n_p (abs s)) (n_pp (abs s)) in
     abs s1 = mkNode (n_phase (abs s)) (n_b (abs s)) q.1 q.2 (n_h (abs s)) (n_c (abs s))
                (n_z (abs s)) (n_M (abs s)) (n_signed (abs s)) (n_decided (abs s)) →
     same_frame s s1 → Q true s1) →
  wp (setPrepared ballot) Q E s.
Proof.
  intros Hinv Hpp Hp HQ. unfold setPrepared. brun. simpl in HQ. unfold next_prepared in HQ.
  destruct (mPrepared (mBallotProtocol s)) as [p|] eqn:Ep; [|brun; by apply HQ].
  destruct (compareBallots_spec p ballot) as [->|Hlt|Hgt].
  - destruct (Hp ballot); auto with ballot.
  - brun; intros Hc; brun; apply HQ; try done; unfold abs; simpl; ballots.
    + unfold areBallotsCompatible. by rewrite bool_decide_false.
    + unfold areBallotsCompatible. by rewrite bool_decide_true.
  - assert (value p ≠ value ballot) as Hv.
    { intros Hv. apply (Hp p eq_refl). apply ble_compat_lc; auto with ballot. }
    destruct (mPreparedPrime (mBallotProtocol s)) as [p'|] eqn:Epp.
    + rewrite (Hpp p' eq_refl). unfold areBallotsCompatible. rewrite bool_decide_false by done.
      simpl. brun. apply HQ; [|done]. unfold abs. simpl. by rewrite Ep.
    + brun. apply HQ; [|done]. unfold abs. simpl. by rewrite Ep.
Qed.

Lemma wp_setAcceptPrepared ballot s :
  node_inv (abs s) → can_process s →
  phase s ≠ SCP_PHASE_EXTERNALIZE →
  (phase s = SCP_PHASE_CONFIRM →
   ∃ p, mPrepared (mBallotProtocol s) = Some p ∧ lc p ballot) →
  (∀ p', mPreparedPrime (mBallotProtocol s) = Some p' → p' <b ballot) →
  (∀ p, mPrepared (mBallotProtocol s) = Some p → ¬ lc ballot p) →
  federatedAccept D L (votesPrepare ballot) (hasPreparedBallot ballot) (latest s) = true →
  wp (setAcceptPrepared D L process ballot)
    (λ _ s', ev s s' ∧ self_current s' ∧ is_Some (mPrepared (mBallotProtocol s')))
    allowed s.
Proof.
  intros Hinv Hl Hph Hconf Hpp Hp Hacc. unfold setAcceptPrepared. apply wp_bind.
  apply wp_setPrepared; [done|done|done|]. intros s1 q Ha Hf. brun.
  assert (∀ s2, (is_Some (n_c (abs s)) → aborted (n_h (abs s)) q = true →
                 phase s = SCP_PHASE_PREPARE) →
    abs s2 = accept_prepared_node ballot (abs s) → same_frame s s2 →
    wp (when true (idx ← gets mSlotIndex; call (AcceptedBallotPrepared idx ballot);;
                   emitCurrentStateStatement D L process);; mret true)
      (λ _ s', ev s s' ∧ self_current s' ∧ is_Some (mPrepared (mBallotProtocol s')))
      allowed s2) as Hend.
  { intros s2 Hab Ha2 Hf2. cbn [when]. brun.
    set (s3 := set_mCalls _ s2).
    assert (ev s s3) as Hev.
    { eapply ev_step; [by apply (step_accept_prepared _ _ _ _ _ ballot)|by rewrite <-Ha2| |done|done].
      eapply same_frame_trans; [exact Hf2|done]. }
    eapply wp_conseq; [by apply (wp_emit_after s)|]. cbv beta. intros _ s' (Hev' & Hev3 & Hcur).
    brun. split; [done|]. split; [done|].
    apply (ev_prepared s3); [done|]. change (is_Some (n_p (abs s2))). rewrite Ha2. simpl.
    by eapply next_prepared_spec. }
  pose proof (f_equal n_c Ha) as Hc1. pose proof (f_equal n_h Ha) as Hh1.
  pose proof (f_equal n_p Ha) as Hp1. pose proof (f_equal n_pp Ha) as Hpp1.
  pose proof (f_equal n_phase Ha) as Hph1. simpl in Hc1, Hh1, Hp1, Hpp1, Hph1.
  rewrite Hc1, Hh1, Hp1, Hpp1, Hph1.
  destruct (mCommit (mBallotProtocol s)) as [c|] eqn:Ec;
    [destruct (mHighBallot (mBallotProtocol s)) as [h|] eqn:Eh|].
  - destruct (opt_is (areBallotsLessAndIncompatible h) q.1
              || opt_is (areBallotsLessAndIncompatible h) q.2) eqn:Eab.
    + apply wp_bind, wp_assert; [|done]. intros Hprep%bool_decide_eq_true.
      apply wp_bind, wp_bset, wp_ret, Hend; [done| |].
      * unfold accept_prepared_node. fold q. simpl. rewrite Eh. unfold aborted. simpl.
        rewrite Eab. unfold abs in Ha |- *. simpl in *. injection Ha as -> -> -> -> -> _ -> -> -> ->. by rewrite Eh.
      * eapply same_frame_trans; [exact Hf|done].
    + apply wp_ret, Hend; [| |done].
      * intros _. simpl. rewrite Eh. unfold aborted. simpl. by rewrite Eab.
      * rewrite Ha. unfold accept_prepared_node. fold q. simpl. rewrite Eh. unfold aborted. simpl.
        by rewrite Eab.
  - apply wp_ret, Hend; [| |done].
    + intros _. simpl. by rewrite Eh.
    + rewrite Ha. unfold accept_prepared_node. fold q. simpl. by rewrite Eh.
  - apply wp_ret, Hend; [| |done].
    + simpl. rewrite Ec. by intros [? ?].
    + rewrite Ha. unfold accept_prepared_node. fold q. simpl. rewrite Ec. by case_match.
Qed.

(** What the scan of the candidates finds. *)
Lemma acceptPreparedScan_Some bp accepts cands ballot :
  acceptPreparedScan bp accepts cands = Ok (Some ballot) →
  accepts ballot = true ∧
  (mPhase bp = SCP_PHASE_CONFIRM → ∃ p, mPrepared bp = Some p ∧ lc p ballot) ∧
  (∀ p', mPreparedPrime bp = Some p' → p' <b ballot) ∧
  (∀ p, mPrepared bp = Some p → ¬ lc ballot p).
Proof.
  induction cands as [|b cands IH]; simpl; [done|]. intros H.
  apply res_bind_Ok in H as (skip & Hskip & H).
  destruct ((skip || _) || _) eqn:Eskip; [by apply IH|].
  destruct (accepts b) eqn:Eacc; [|by apply IH]. injection H as ->. ballots. subst skip.
  split; [done|]. split; [|split].
  - intros Hc. rewrite bool_decide_true in Hskip by done.
    apply res_bind_Ok in Hskip as (p & Hp & Hskip). apply deref_Ok in Hp. exists p.
    split; [done|]. destruct (areBallotsLessAndCompatible p ballot) eqn:E; [by ballots|done].
  - intros p' Hp'. rewrite Hp' in *. simpl in *. by ballots.
  - intros p Hp. rewrite Hp in *. simpl in *. by ballots.
Qed.

Lemma acceptPreparedScan_None bp accepts cands :
  acceptPreparedScan bp accepts cands = Ok None →
  mPhase bp ≠ SCP_PHASE_CONFIRM → mPrepared bp = None → mPreparedPrime bp = None →
  ∀ b, b ∈ cands → accepts b = false.
Proof.
  intros Hscan Hph Hp Hpp. induction cands as [|b cands IH]; [set_solver|]. simpl in Hscan.
  rewrite bool_decide_false, Hp, Hpp in Hscan by done. simpl in Hscan.
  destruct (accepts b) eqn:Eacc; [done|]. set_solver.
Qed.

Lemma acceptPreparedScan_Throw bp accepts cands e :
  (mPhase bp = SCP_PHASE_CONFIRM → is_Some (mPrepared bp) ∧ is_Some (mCommit bp)) →
  acceptPreparedScan bp accepts cands = Throw e → allowed e.
Proof.
  intros Hset. induction cands as [|b cands IH]; simpl; [done|]. intros H.
  apply res_bind_Throw in H as [H|(skip & _ & H)].
  - case_bool_decide as Hc; [|done]. destruct (Hset Hc) as [[p Hp] [c Hcm]].
    rewrite Hp, Hcm in H. simpl in H. destruct (negb _); [done|].
    destruct (areBallotsCompatible c b); simpl in H; [done|by injection H as <-].
  - destruct ((skip || _) || _); [by apply IH|]. destruct (accepts b); [done|by apply IH].
Qed.

(** Nothing is accepted prepared, and nothing raised by [hint] can be. *)
Definition tried (hint : BallotStatement) (s : Slot) : Prop :=
  mPrepared (mBallotProtocol s) = None →
  hint ∈ latest_statements (latest s) ∧
  ∀ t, t ∈ getPrepareCandidates (latest s) hint →
       federatedAccept D L (votesPrepare t) (hasPreparedBallot t) (latest s) = false.

Lemma tried_prepared hint s : is_Some (mPrepared (mBallotProtocol s)) → tried hint s.
Proof. intros [p Hp] Hn. congruence. Qed.

Lemma committed_prepared s :
  node_inv (abs s) → phase s ≠ SCP_PHASE_PREPARE →
  is_Some (mPrepared (mBallotProtocol s)) ∧ is_Some (mCommit (mBallotProtocol s)).
Proof. intros Hinv Hph. by destruct (inv_committed _ Hinv Hph) as (_ & ? & ? & _). Qed.

Lemma wp_attemptAcceptPrepared hint s :
  node_inv (abs s) → can_process s → hint ∈ latest_statements (latest s) →
  wp (attemptAcceptPrepared D L process hint)
    (λ _ s', ev s s' ∧ (self_current s → self_current s') ∧ tried hint s') allowed s.
Proof.
  intros Hinv Hl Hhint. unfold attemptAcceptPrepared. brun.
  case_bool_decide as Hph.
  { brun. split; [apply ev_refl|]. split; [done|]. apply tried_prepared, committed_prepared;
      [done|congruence]. }
  apply wp_bind, wp_reads.
  - intros [ballot|] Hscan; cbv beta.
    + destruct (acceptPreparedScan_Some _ _ _ _ Hscan) as (? & ? & ? & ?).
      eapply wp_conseq; [by apply wp_setAcceptPrepared|]. cbv beta.
      intros r s' (? & ? & ?). split; [done|]. split; [done|]. by apply tried_prepared.
    + brun. split; [apply ev_refl|]. split; [done|]. intros Hp. split; [done|].
      intros t Ht. eapply (acceptPreparedScan_None _ _ _ Hscan); [|done| |].
      * intros Hc. destruct (committed_prepared s Hinv) as [[? ?] _]; congruence.
      * destruct (mPreparedPrime (mBallotProtocol s)) as [p'|] eqn:Epp; [|done].
        destruct (inv_pp _ Hinv p' Epp) as (? & ? & _). simpl in *. congruence.
      * by rewrite list_elem_of_In, <-in_rev, <-list_elem_of_In.
  - intros e. apply acceptPreparedScan_Throw. intros Hc.
    apply committed_prepared; [done|congruence].
Qed.

Lemma wp_updateCurrentIfNeeded h (Q : bool → Slot → Prop) E s :
  E AssertFailure →
  (∀ r s1, abs s1 = raise_node h (abs s) → same_frame s s1 →
     (r = false → abs s1 = abs s) → Q r s1) →
  wp (updateCurrentIfNeeded h) Q E s.
Proof.
  intros HE HQ. unfold updateCurrentIfNeeded, raise_node in *. simpl in HQ. brun.
  destruct (match mCurrentBallot (mBallotProtocol s) with
            | Some b => ballot_ltb b h
            | None => true
            end).
  - apply wp_bind, wp_bumpToBallot; [done|]. intros s1 _ _ Ha Hf. brun. by apply HQ.
  - brun. by apply HQ.
Qed.

Lemma wp_setConfirmPrepared newC newH s :
  node_inv (abs s) → can_process s →
  phase s = SCP_PHASE_PREPARE → is_Some (n_p (abs s)) →
  (∀ h, n_h (abs s) = Some h → h <b newH) →
  federatedRatify D L (hasPreparedBallot newH) (latest s) = true →
  (counter newC ≠ 0 →
   n_c (abs s) = None ∧ lc newC newH ∧ (∀ b, n_b (abs s) = Some b → b ≤b newC) ∧
   federatedRatify D L (hasPreparedBallot newC) (latest s) = true ∧
   (∀ p, n_p (abs s) = Some p → ¬ li newH p) ∧
   (∀ p', n_pp (abs s) = Some p' → ¬ li newH p')) →
  wp (setConfirmPrepared D L process newC newH)
    (λ _ s', ev s s' ∧ (self_current s → self_current s')) allowed s.
Proof.
  intros Hinv Hl Hph Hp Hh Hrat HC. unfold setConfirmPrepared. apply wp_bind, wp_bset.
  set (s0 := set_mBallotProtocol _ s). apply wp_bind, wp_bget. cbv beta delta [id].
  set (ok := match mCurrentBallot (mBallotProtocol s) with
             | None => true
             | Some b => areBallotsCompatible b newH
             end).
  (* the state after [h] and [c] are set *)
  apply wp_bind. eapply (wp_conseq _ (λ r s1, r = ok ∧ same_frame s s1 ∧
    abs s1 = mkNode (n_phase (abs s)) (n_b (abs s)) (n_p (abs s)) (n_pp (abs s))
      (if ok then Some newH else n_h (abs s))
      (if ok && negb (counter newC =? 0) then Some newC else n_c (abs s))
      (Some (value newH)) (n_M (abs s)) (n_signed (abs s)) (n_decided (abs s)))).
  { change (mCurrentBallot (mBallotProtocol s0)) with (mCurrentBallot (mBallotProtocol s)).
    fold ok. destruct ok; [|brun; done].
    change (mHighBallot (mBallotProtocol s0)) with (mHighBallot (mBallotProtocol s)).
    assert (match mHighBallot (mBallotProtocol s) with
            | Some h => ballot_ltb h newH | None => true end = true) as ->.
    { destruct (mHighBallot (mBallotProtocol s)) as [h|] eqn:E; [|done]. by apply Hh. }
    destruct (Z.eqb_spec (counter newC) 0) as [|Hn0]; cbn [negb when orb andb].
    - brun. done.
    - brun; [|done]. intros _. brun. done. }
  cbv beta. intros r s1 (-> & Hf1 & Ha1).
  apply wp_bind, wp_updateCurrentIfNeeded; [done|]. intros upd s2 Ha2 Hf2 Hupd.
  assert (abs s2 = confirm_prepared_node newC newH (abs s)) as Ha
    by (by rewrite Ha2, Ha1).
  assert (ev s s2) as Hev.
  { eapply ev_step; [by apply (step_confirm_prepared _ _ _ _ _ newC newH)|exact Ha| | |].
    - by eapply same_frame_trans.
    - etrans; [apply raise_node_M|done].
    - etrans; [apply raise_node_decided|done]. }
  apply wp_bind. destruct (upd || ok) eqn:Edid; cbn [when].
  - eapply wp_conseq; [by apply (wp_emit_after s)|]. cbv beta. intros _ s' (? & ? & ?).
    brun. done.
  - apply orb_false_iff in Edid as [-> Hok]. brun. split; [done|].
    specialize (Hupd eq_refl). rewrite Ha1 in Hupd.
    apply self_current_ext; by rewrite Hupd.
Qed.

Lemma findNewH_Some high ratifies cands newH rest :
  findNewH high ratifies cands = Some (newH, rest) →
  ratifies newH = true ∧ (∀ h, high = Some h → h <b newH).
Proof.
  induction cands as [|b cands IH]; simpl; [done|].
  destruct (opt_is (ballot_leb b) high) eqn:Eh; [done|].
  destruct (ratifies b) eqn:Er; [|done]. intros [= <- <-]. split; [done|].
  intros h ->. simpl in Eh. by ballots.
Qed.

Lemma findNewC_spec ratifies b newH cands newC :
  let c := findNewC ratifies b newH cands newC in
  c = newC ∨ ratifies c = true ∧ b ≤b c ∧ lc c newH.
Proof.
  revert newC. induction cands as [|x cands IH]; intros newC; simpl; [auto|].
  destruct (ballot_ltb x b) eqn:Eb; [auto|].
  destruct (areBallotsLessAndCompatible x newH) eqn:El; simpl; [|apply IH].
  destruct (ratifies x) eqn:Er; [|auto]. ballots.
  destruct (IH x) as [->|?]; auto.
Qed.

Lemma wp_attemptConfirmPrepared hint s :
  node_inv (abs s) → can_process s →
  wp (attemptConfirmPrepared D L process hint)
    (λ _ s', ev s s' ∧ (self_current s → self_current s') ∧ (tried hint s → tried hint s'))
    allowed s.
Proof.
  intros Hinv Hl. unfold attemptConfirmPrepared. brun.
  case_match eqn:Hguard; [brun; auto using ev_refl|].
  apply orb_false_iff in Hguard as [Hph Hp]. apply bool_decide_eq_false, dec_stable in Hph.
  assert (is_Some (mPrepared (mBallotProtocol s))) as HpS
    by (by destruct (mPrepared (mBallotProtocol s))).
  destruct (findNewH _ _ _) as [[newH rest]|] eqn:Ef; [|brun; auto using ev_refl].
  apply findNewH_Some in Ef as [Hrat Hh].
  eapply wp_conseq; [apply wp_setConfirmPrepared; try done|].
  - intros Hn0. destruct (mCommit (mBallotProtocol s)) as [c|] eqn:Ec; [done|].
    cbn [is_some negb andb] in Hn0 |- *.
    destruct (opt_is (areBallotsLessAndIncompatible newH) (mPrepared (mBallotProtocol s))) eqn:E1;
      [done|].
    destruct (opt_is (areBallotsLessAndIncompatible newH) (mPreparedPrime (mBallotProtocol s)))
      eqn:E2; [done|]. cbn [negb andb] in Hn0 |- *.
    destruct (findNewC_spec (λ ballot, federatedRatify D L (hasPreparedBallot ballot) (latest s))
      (from_option (λ x, x) SCPBallot0 (mCurrentBallot (mBallotProtocol s))) newH rest
      SCPBallot0) as [E|(? & Hb & ?)]; [by rewrite E in Hn0|].
    split; [done|]. split; [done|]. split; [intros b Hb'; simpl in Hb'; by rewrite Hb' in Hb |- *|].
    split; [done|]. split; intros p Hp'; simpl in Hp'; rewrite Hp' in *; simpl in *; by ballots.
  - cbv beta. intros r s' [Hev Hcur]. split; [done|]. split; [done|]. intros _.
    apply tried_prepared. by eapply ev_prepared.
Qed.

Lemma compare_Eq b1 b2 :
  match compareBallots b1 b2 with Eq => true | _ => false end = true → b1 = b2.
Proof. by destruct (compareBallots_spec b1 b2). Qed.

(** The state before [setAcceptCommit] raises the ballot and emits. *)
Lemma wp_enterConfirm h s (Q : unit → Slot → Prop) E :
  E AssertFailure → n_h (abs s) = Some h →
  (∀ s1, abs s1 = enter_confirm_node h (abs s) → same_frame s s1 → Q tt s1) →
  wp (when (bool_decide (phase s = SCP_PHASE_PREPARE))
        (bset (set_mPhase SCP_PHASE_CONFIRM);;
         cur ← bget mCurrentBallot;
         when (match cur with
               | Some b => negb (areBallotsLessAndCompatible h b)
               | None => false
               end)
           (bumpToBallot h false);;
         bset (set_mPreparedPrime None))) Q E s.
Proof.
  intros HE Hh HQ. unfold enter_confirm_node, opt_is in HQ. simpl in Hh, HQ.
  case_bool_decide as Hprep; cbn [when]; [|brun; by apply HQ].
  apply wp_bind, wp_bset. set (s1 := set_mBallotProtocol _ s). brun.
  - change (mCurrentBallot (mBallotProtocol s1)) with (mCurrentBallot (mBallotProtocol s)).
    intros Hb. rewrite Hb in HQ. apply wp_bumpToBallot; [done|]. intros s2 _ _ Ha Hf. brun.
    rewrite bump_node_same in Ha, HQ by done. apply HQ.
    + unfold abs in Ha |- *. simpl in *. injection Ha. intros. f_equal; congruence.
    + by apply (same_frame_trans _ s2); [apply (same_frame_trans _ s1)|].
  - change (mCurrentBallot (mBallotProtocol s1)) with (mCurrentBallot (mBallotProtocol s)).
    intros Hb. rewrite Hb in HQ. brun. by apply HQ.
Qed.

Lemma wp_setCommit c h s (Q : unit → Slot → Prop) E :
  let changed :=
    match mHighBallot (mBallotProtocol s), mCommit (mBallotProtocol s) with
    | Some h0, Some c0 =>
        negb (match compareBallots h0 h with Eq => true | _ => false end)
        || negb (match compareBallots c0 c with Eq => true | _ => false end)
    | _, _ => true
    end in
  n_z (abs s) = Some (value h) →
  (∀ s1, abs s1 = with_commit c h (abs s) → same_frame s s1 →
     (changed = false → mHighBallot (mBallotProtocol s) = Some h) → Q tt s1) →
  wp (when changed (bset (set_mCommit (Some c));; bset (set_mHighBallot (Some h)))) Q E s.
Proof.
  intros changed Hz HQ. unfold with_commit in HQ. simpl in Hz, HQ. brun.
  - intros Hch. brun. apply HQ; [|done|congruence]. unfold abs. simpl. by rewrite Hz.
  - unfold changed. intros Hch.
    destruct (mHighBallot (mBallotProtocol s)) as [h0|] eqn:Eh; [|done].
    destruct (mCommit (mBallotProtocol s)) as [c0|] eqn:Ec; [|done].
    apply orb_false_iff in Hch as [H1%negb_false_iff%compare_Eq H2%negb_false_iff%compare_Eq].
    subst h0 c0. apply HQ; [|done|done]. unfold abs. simpl. by rewrite Hz, Eh, Ec.
Qed.

Lemma wp_setAcceptCommit c h s :
  node_inv (abs s) → can_process s →
  phase s ≠ SCP_PHASE_EXTERNALIZE → is_Some (n_p (abs s)) →
  (phase s = SCP_PHASE_CONFIRM →
   ∃ h0, n_h (abs s) = Some h0 ∧ value h0 = value h ∧ counter h0 < counter h) →
  counter c ≠ 0 → lc c h →
  (∃ k, federatedAccept D L (votesCommit (mkSCPBallot k (value h)) (counter c, counter h))
     (commitPredicate (mkSCPBallot k (value h)) (counter c, counter h)) (latest s) = true) →
  wp (setAcceptCommit D L process c h)
    (λ _ s', ev s s' ∧ (self_current s → self_current s')) allowed s.
Proof.
  intros Hinv Hl Hph Hp Hconf Hc0 Hlc Hfed. unfold setAcceptCommit.
  apply wp_bind, wp_bset. set (s0 := set_mBallotProtocol _ s).
  apply wp_bind, wp_bget. cbv beta delta [id]. cbv zeta.
  apply wp_bind, wp_setCommit; [done|]. intros s1 Ha1 Hf1 Hch.
  pose proof (f_equal n_phase Ha1) as Hph1. simpl in Hph1.
  change (mPhase (mBallotProtocol s0)) with (phase s). rewrite <-Hph1.
  assert (n_h (abs s1) = Some h) as Hh1 by (by rewrite Ha1).
  apply wp_bind, wp_enterConfirm; [done|done|]. intros s2 Ha2 Hf2.
  assert (n_h (abs s2) = Some h) as Hh2 by (rewrite Ha2; by apply enter_confirm_h).
  match goal with |- context [when ?b _] => assert (b = true) as -> end.
  { apply orb_true_iff. case_bool_decide as Hprep; [by right|left].
    apply not_false_iff_true. intros Hch'. apply Hch in Hch'.
    destruct (Hconf) as (h0 & Hh0 & _ & ?); [rewrite <-Hph1; by destruct (phase s1)|].
    change (mHighBallot (mBallotProtocol s0)) with (n_h (abs s)) in Hch'.
    rewrite Hh0 in Hch'. injection Hch' as ->. lia. }
  cbn [when]. apply wp_bind, wp_bind, wp_reads.
  2: { simpl in Hh2. rewrite Hh2. done. }
  simpl in Hh2. rewrite Hh2. intros high [= <-]. apply wp_bind, wp_updateCurrentIfNeeded; [done|].
  intros r s3 Ha3 Hf3 _. apply wp_bind, wp_gets, wp_bind, wp_call.
  set (s4 := set_mCalls _ s3).
  assert (ev s s4) as Hev.
  { eapply ev_step; [by apply (step_accept_commit _ _ _ _ _ c h)| | |etrans; [apply raise_node_M|]|
      etrans; [apply raise_node_decided|]].
    - change (abs s4) with (abs s3). by rewrite Ha3, Ha2, Ha1.
    - apply (same_frame_trans _ s3); [|done]. apply (same_frame_trans _ s2); [|done].
      apply (same_frame_trans _ s1); [|done]. by apply (same_frame_trans _ s0).
    - by rewrite enter_confirm_M.
    - by rewrite enter_confirm_decided. }
  eapply wp_conseq; [by apply (wp_emit_after s)|]. cbv beta. intros _ s' (? & ? & ?). brun. done.
Qed.

Lemma committed_high s :
  node_inv (abs s) → phase s ≠ SCP_PHASE_PREPARE →
  ∃ c h, mCommit (mBallotProtocol s) = Some c ∧ mHighBallot (mBallotProtocol s) = Some h ∧
         lc c h.
Proof.
  intros Hinv Hph. destruct (inv_committed _ Hinv Hph) as (_ & _ & [c Hc] & _).
  destruct (inv_c _ Hinv c Hc) as (h & Hh & ?). eauto.
Qed.

Lemma wp_setConfirmCommit c h s :
  node_inv (abs s) → can_process s → phase s = SCP_PHASE_CONFIRM →
  (∃ c0, n_c (abs s) = Some c0 ∧ value c0 = value c) →
  counter c ≠ 0 → lc c h →
  (∃ k, federatedRatify D L
     (commitPredicate (mkSCPBallot k (value h)) (counter c, counter h)) (latest s) = true) →
  wp (setConfirmCommit D L process c h)
    (λ _ s', ev s s' ∧ (self_current s → self_current s')) allowed s.
Proof.
  intros Hinv Hl Hph Hc Hc0 Hlc Hfed. unfold setConfirmCommit.
  apply wp_bind, wp_bset, wp_bind, wp_bset. set (s0 := set_mBallotProtocol _ _).
  apply wp_bind, wp_updateCurrentIfNeeded; [done|]. intros r s1 Ha1 Hf1 _.
  apply wp_bind, wp_bset. set (s2 := set_mBallotProtocol _ s1).
  assert (abs s2 = confirm_commit_node c h (abs s)) as Ha2.
  { unfold confirm_commit_node. change (mkNode _ _ _ _ (Some h) (Some c) _ _ _ _) with (abs s0).
    rewrite <-Ha1. done. }
  assert (ev s s2) as Hev2.
  { eapply ev_step; [by apply (step_confirm_commit _ _ _ _ _ c h)|exact Ha2| | |].
    - by apply (same_frame_trans _ s1); [apply (same_frame_trans _ s0)|].
    - etrans; [apply raise_node_M|done].
    - etrans; [apply raise_node_decided|done]. }
  apply wp_bind. eapply wp_conseq; [by apply (wp_emit_after s)|]. cbv beta.
  intros _ s3 (Hev & Hev23 & Hcur). apply wp_bind. unfold stopNomination.
  apply (wp_modify (λ s, set_mNominationProtocol _ s)). set (s4 := set_mNominationProtocol _ s3).
  assert (phase s3 = SCP_PHASE_EXTERNALIZE) as Hph3.
  { pose proof (steps_phase _ _ _ _ (ev_steps _ _ _ _ Hev23)) as Hr.
    change (phase s2) with (n_phase (abs s2)) in Hr. rewrite Ha2 in Hr. simpl in Hr.
    by destruct (phase s3). }
  assert (n_decided (abs s3) = []) as Hdec.
  { rewrite (ev_ext _ _ _ _ Hev23) by (change (phase s2) with (n_phase (abs s2)); by rewrite Ha2).
    rewrite Ha2. simpl. rewrite raise_node_decided.
    destruct (inv_decided _ Hinv) as [?|[? _]]; [done|]. simpl in *. congruence. }
  destruct (committed_high s3) as (c3 & h3 & Hc3 & _ & _);
    [by apply (ev_inv _ _ _ _ Hev)|congruence|].
  apply wp_bind, wp_reads.
  2: { change (mCommit (mBallotProtocol s4)) with (mCommit (mBallotProtocol s3)).
       by rewrite Hc3. }
  change (mCommit (mBallotProtocol s4)) with (mCommit (mBallotProtocol s3)). rewrite Hc3.
  intros commit [= <-]. brun. split.
  - destruct Hev as [Hst Hidx Hlev Hoth Hemit _]. split; [|done|done|done| |].
    + eapply rtc_r; [exact Hst|]. exact (step_decide D L _ _ (abs s3) c3 Hph3 Hc3 Hdec).
    + intros He%Hemit. by apply (same_frame_emit_inv s3).
    + congruence.
  - intros _ Hx. done.
Qed.

Hypothesis (HL : well_formed (getQuorumSet L)).
Hypothesis (HD : ∀ h q, getQSet D h = Some q → typed q).

Lemma ballot_eta b : mkSCPBallot (counter b) (value b) = b.
Proof. by destruct b. Qed.

Lemma wp_attemptAcceptCommit hint s :
  node_inv (abs s) → can_process s → tried hint s →
  wp (attemptAcceptCommit D L process hint)
    (λ _ s', ev s s' ∧ (self_current s → self_current s')) allowed s.
Proof.
  intros Hinv Hl Htried. unfold attemptAcceptCommit. brun.
  case_bool_decide as Hext; [brun; auto using ev_refl|].
  destruct (commitHint hint) as [ballot|] eqn:Ehint; [|brun; auto using ev_refl].
  assert (phase s = SCP_PHASE_CONFIRM →
    ∃ h0, mHighBallot (mBallotProtocol s) = Some h0) as Hhigh.
  { intros Hc. destruct (committed_high s Hinv) as (? & ? & _ & ? & _); [congruence|]. eauto. }
  apply wp_bind. eapply (wp_conseq _ (λ skip s', s' = s ∧
    (skip = false → phase s = SCP_PHASE_CONFIRM →
     ∃ h0, mHighBallot (mBallotProtocol s) = Some h0 ∧ value h0 = value ballot))).
  { case_bool_decide as Hc; [|brun; done]. destruct (Hhigh Hc) as [h0 Hh0].
    apply wp_bind, wp_reads; rewrite Hh0; [|done]. intros h [= <-]. brun.
    split; [done|]. intros Hskip _. exists h0. ballots. done. }
  intros skip s' [-> Hskip]. cbv beta. destruct skip; [brun; auto using ev_refl|].
  set (pred := λ cur, federatedAccept D L (votesCommit ballot cur) (commitPredicate ballot cur)
                        (latest s)).
  destruct (getCommitBoundariesFromStatements (latest s) ballot) as [|b0 bs] eqn:Eb;
    [brun; auto using ev_refl|].
  pose proof (findExtendedInterval_sound pred (b0 :: bs)) as Hsound.
  set (cand := findExtendedInterval (b0 :: bs) pred) in *.
  destruct (Z.eqb_spec cand.1 0) as [|Hn0]; [brun; auto using ev_refl|].
  destruct (Hsound Hn0) as [Hpred Hle].
  apply wp_bind. eapply (wp_conseq _ (λ higher s', s' = s ∧
    (higher = true → phase s = SCP_PHASE_CONFIRM →
     ∃ h0, mHighBallot (mBallotProtocol s) = Some h0 ∧ counter h0 < cand.2))).
  { case_bool_decide as Hc; [|brun; done]. destruct (Hhigh Hc) as [h0 Hh0].
    apply wp_bind, wp_reads; rewrite Hh0; [|done]. intros h [= <-]. brun.
    split; [done|]. intros Hlt _. exists h0. split; [done|]. by apply Z.ltb_lt. }
  intros higher s' [-> Hhigher]. cbv beta. destruct higher; [|brun; auto using ev_refl].
  apply wp_setAcceptCommit; [done|done|done| |simpl| |split; done|].
  - destruct (mPrepared (mBallotProtocol s)) as [p|] eqn:Ep; [simpl; rewrite Ep; eauto|].
    destruct (Htried Ep) as [Hin Hno].
    destruct (commit_prepares D L HL HD hint ballot cand (latest s) Hin Ehint Hpred)
      as (t & Ht & Hacc). by rewrite (Hno t Ht) in Hacc.
  - intros Hc. destruct (Hskip eq_refl Hc) as (h0 & Hh0 & ?).
    destruct (Hhigher eq_refl Hc) as (h1 & ? & ?). simplify_eq. eauto.
  - done.
  - exists (counter ballot). simpl. rewrite ballot_eta, <-surjective_pairing. exact Hpred.
Qed.

Lemma wp_attemptConfirmCommit hint s :
  node_inv (abs s) → can_process s →
  wp (attemptConfirmCommit D L process hint)
    (λ _ s', ev s s' ∧ (self_current s → self_current s')) allowed s.
Proof.
  intros Hinv Hl. unfold attemptConfirmCommit. brun.
  case_bool_decide as Hph; [brun; auto using ev_refl|].
  destruct (mHighBallot (mBallotProtocol s)) as [h0|] eqn:Eh; [|brun; auto using ev_refl].
  destruct (mCommit (mBallotProtocol s)) as [c0|] eqn:Ec; [|brun; auto using ev_refl].
  assert (∀ ballot,
    wp (if negb (areBallotsCompatible ballot c0) then mret false
        else
          let latest := latest s in
          let boundaries := getCommitBoundariesFromStatements latest ballot in
          let pred cur := federatedRatify D L (commitPredicate ballot cur) latest in
          let candidate := findExtendedInterval boundaries pred in
          if candidate.1 =? 0 then mret false
          else setConfirmCommit D L process (mkSCPBallot candidate.1 (value ballot))
                 (mkSCPBallot candidate.2 (value ballot)))
      (λ _ s', ev s s' ∧ (self_current s → self_current s')) allowed s) as Hrest.
  { intros ballot. destruct (areBallotsCompatible ballot c0) eqn:Ecompat; cbn [negb];
      [|brun; auto using ev_refl]. ballots. cbv zeta.
    set (pred := λ cur, federatedRatify D L (commitPredicate ballot cur) (latest s)).
    set (bs := getCommitBoundariesFromStatements (latest s) ballot).
    pose proof (findExtendedInterval_sound pred bs) as Hsound.
    set (cand := findExtendedInterval bs pred) in *.
    destruct (Z.eqb_spec cand.1 0) as [|Hn0]; [brun; auto using ev_refl|].
    destruct (Hsound Hn0) as [Hpred Hle].
    apply wp_setConfirmCommit; [done|done|done| |done|split; done|].
    - exists c0. split; [done|]. simpl. congruence.
    - exists (counter ballot). simpl. rewrite ballot_eta, <-surjective_pairing. exact Hpred. }
  unfold commitHint in *. destruct (pledges hint); [brun; auto using ev_refl| |]; apply Hrest.
Qed.

(** ** Moving to a new ballot *)

(** The method returned without changing the slot. *)
Ltac stay := split_and?; [apply ev_refl|..]; intros.

Lemma wp_updateCurrentValue ballot (Q : bool → Slot → Prop) s :
  node_inv (abs s) → (∀ z, n_z (abs s) = Some z → value ballot = z) →
  Q false s →
  (∀ s1, ev s s1 → n_b (abs s1) = Some ballot → n_phase (abs s1) = n_phase (abs s) →
     Q true s1) →
  wp (updateCurrentValue ballot) Q allowed s.
Proof.
  intros Hinv Hz Hno Hyes. unfold updateCurrentValue. brun.
  case_bool_decide as Hph; [by brun|].
  assert ((∀ b, n_b (abs s) = Some b → b <b ballot) →
    (∀ b c, n_b (abs s) = Some b → n_c (abs s) = Some c → value c = value ballot) →
    wp (bumpToBallot ballot true;; checkInvariantsM;; mret true) Q allowed s) as Hbump.
  { intros Hb Hc. apply wp_bind, wp_bumpToBallot; [done|]. intros s1 _ _ Ha Hf.
    assert (ev s s1) as Hev.
    { eapply ev_step; [by apply (step_bump _ _ _ _ _ ballot)|exact Ha|done|done|done]. }
    apply wp_bind, wp_checkInvariantsM; [by eapply ev_inv|]. intros _. brun.
    apply Hyes; [done|by rewrite Ha|by rewrite Ha]. }
  destruct (mCurrentBallot (mBallotProtocol s)) as [cur|] eqn:Ecur.
  - brun; [|done]. intros Hle. case_match eqn:Ec; [by brun|].
    destruct (compareBallots_spec cur ballot) as [->|Hlt|Hgt].
    + apply wp_bind, wp_checkInvariantsM; [done|]. intros _. by brun.
    + apply Hbump; simpl; rewrite Ecur.
      * by intros b [= <-].
      * intros b c _ Hc. rewrite Hc in Ec. by ballots.
    + by brun.
  - apply Hbump; simpl; rewrite Ecur; done.
Qed.

(** What the bump methods guarantee: when they return [true] the node is on a
    counter of at least [n], unless it changed phase. *)
Definition bumped_to (n : Z) (s s' : Slot) : Prop :=
  phase s ≠ SCP_PHASE_EXTERNALIZE ∧ (phase s' = phase s → n ≤ cur_counter s').

Lemma ev_cur_counter s s' b :
  ev s s' → phase s' = phase s → mCurrentBallot (mBallotProtocol s) = Some b →
  counter b ≤ cur_counter s'.
Proof.
  intros Hev Hph Hb.
  destruct (steps_b _ _ _ _ _ _ b (ev_steps _ _ _ _ Hev) Hph Hb) as (b' & Hb' & Hle%ble_counter).
  unfold cur_counter. simpl in Hb'. by rewrite Hb'.
Qed.

Lemma wp_bumpState_n v n s :
  node_inv (abs s) → can_process s →
  wp (bumpState_n D L process v n)
    (λ r s', ev s s' ∧ (self_current s → self_current s') ∧
       (r = true → bumped_to n s s' ∧ self_current s')) allowed s.
Proof.
  intros Hinv Hl. unfold bumpState_n. brun.
  case_bool_decide as Hph; [by brun; stay|]. cbv zeta. apply wp_bind.
  apply wp_updateCurrentValue; [done| | |].
  - simpl. by intros z ->.
  - brun; [done|]. intros _. by brun; stay.
  - intros s1 Hev Hb Hph1. apply wp_bind. cbn [when]. apply wp_bind.
    eapply wp_conseq; [by apply (wp_emit_after s)|]. cbv beta. intros _ s2 (Hev2 & Hev12 & Hcur).
    apply wp_checkHeard. intros s3 Ha3 Hf3. brun.
    assert (self_current s3) as Hcur3 by (by eapply ev_self_current).
    assert (ev s2 s3) as Hev23 by (by apply ev_silent).
    split; [by eapply ev_trans|]. split; [done|]. intros _. split; [|done]. split; [done|].
    intros Hph3. simpl in Hph1.
    pose proof (ev_cur_counter s1 s3 _ (ev_trans _ _ _ _ _ Hev12 Hev23) ltac:(congruence) Hb).
    by destruct (mValueOverride (mBallotProtocol s)).
Qed.

Lemma bumped_to_le m n s s' : bumped_to n s s' → m ≤ n → bumped_to m s s'.
Proof. intros [? Hn] ?. split; [done|]. intros Hph. specialize (Hn Hph). lia. Qed.

Lemma wp_bumpState v force s :
  node_inv (abs s) → can_process s →
  wp (bumpState D L process v force)
    (λ r s', ev s s' ∧ (self_current s → self_current s') ∧
       (r = true → bumped_to 0 s s' ∧ self_current s')) allowed s.
Proof.
  intros Hinv Hl. unfold bumpState. brun. case_match; [by brun; stay|].
  cbv zeta. eapply wp_conseq; [by apply wp_bumpState_n|]. cbv beta. intros r s' (? & ? & Hr).
  split_and!; [done..|]. intros Ht. destruct (Hr Ht) as [Hb ?]. split; [|done].
  eapply bumped_to_le; [exact Hb|]. case_match; [|lia]. apply u32_range.
Qed.

Lemma wp_abandonBallot n s :
  node_inv (abs s) → can_process s →
  wp (abandonBallot D L process n)
    (λ r s', ev s s' ∧ (self_current s → self_current s') ∧
       (r = true → bumped_to n s s' ∧ self_current s')) allowed s.
Proof.
  intros Hinv Hl. unfold abandonBallot. brun. case_match; [|by brun; stay].
  destruct (Z.eqb_spec n 0) as [->|]; [by apply wp_bumpState|by apply wp_bumpState_n].
Qed.

(** ** The bump loop *)

(** No v-blocking set is ahead: [attemptBump] has nothing to do. *)
Definition quiet (s : Slot) : Prop :=
  phase s = SCP_PHASE_EXTERNALIZE ∨
  hasVBlockingSubsetStrictlyAheadOf L (latest s) (cur_counter s) = false.

Lemma bumped_quiet n s s' :
  ev s s' → bumped_to n s s' → self_current s' →
  hasVBlockingSubsetStrictlyAheadOf L (latest s) n = false →
  phase s' = phase s → quiet s'.
Proof.
  intros Hev [Hph Hn] Hcur Hquiet Hphs. right. specialize (Hn Hphs).
  apply not_true_is_false. intros Hb. apply not_true_iff_false in Hquiet. apply Hquiet.
  revert Hb. apply isVBlocking_map_mono; [done|]. intros m e He Hlt%Z.ltb_lt.
  destruct (decide (m = getNodeID L)) as [->|Hm].
  - specialize (Hcur ltac:(congruence) e He). lia.
  - exists e. rewrite <-(ev_others _ _ _ _ Hev m Hm). split; [done|]. apply Z.ltb_lt. lia.
Qed.

Lemma wp_attemptBump s :
  node_inv (abs s) → can_process s →
  wp (attemptBump D L process)
    (λ r s', ev s s' ∧ (self_current s → self_current s') ∧
       (r = true → ¬ quiet s ∧ (phase s' = phase s → quiet s'))) allowed s.
Proof.
  intros Hinv Hl. unfold attemptBump. brun.
  case_bool_decide as Hph; [by brun; stay|]. cbv zeta.
  change (match mCurrentBallot (mBallotProtocol s) with
          | Some b => counter b | None => 0 end) with (cur_counter s).
  destruct (hasVBlockingSubsetStrictlyAheadOf L (latest s) (cur_counter s)) eqn:Eb; cbn [negb];
    [|by brun; stay].
  destruct (find _ _) as [n|] eqn:Efind; [|by brun; stay].
  apply find_some in Efind as [_ Hquiet%negb_true_iff].
  eapply wp_conseq; [by apply wp_abandonBallot|]. cbv beta. intros r s' (Hev & Hcur & Hr).
  split; [done|]. split; [done|]. intros Ht. destruct (Hr Ht) as [Hb Hc]. split.
  - intros [?|?]; congruence.
  - by apply (bumped_quiet n).
Qed.

Lemma wp_bumpLoop k s :
  node_inv (abs s) → can_process s →
  quiet s ∧ (1 ≤ k)%nat ∨ 3 - phase_rank (phase s) ≤ Z.of_nat k →
  wp (bumpLoop D L process k)
    (λ _ s', ev s s' ∧ (self_current s → self_current s')) allowed s.
Proof.
  revert s. induction k as [|k IH]; intros s Hinv Hl Hk.
  { exfalso. destruct Hk as [[_ ?]|Hk]; [lia|]. by destruct (phase s). }
  cbn [bumpLoop]. apply wp_bind. eapply wp_conseq; [by apply wp_attemptBump|].
  cbv beta. intros [] s1 (Hev & Hcur & Hr); [|by brun]. destruct (Hr eq_refl) as [Hnq Hq].
  apply wp_bind. eapply wp_conseq; [apply IH|].
  - by eapply ev_inv.
  - unfold can_process. by rewrite (ev_level _ _ _ _ Hev).
  - destruct Hk as [[? _]|Hk]; [done|].
    pose proof (steps_phase _ _ _ _ (ev_steps _ _ _ _ Hev)) as Hrank.
    destruct (decide (phase s1 = phase s)) as [He|Hne].
    + destruct (decide (phase s = SCP_PHASE_EXTERNALIZE)); [by destruct Hnq; left|].
      left. split; [auto|]. destruct (phase s); simpl in *; try done; lia.
    + right. assert (phase_rank (phase s) ≠ phase_rank (phase s1)) by
        (intros ?%phase_rank_inj; congruence). lia.
  - intros _ s2 [Hev2 Hcur2]. brun. split; [by eapply ev_trans|auto].
Qed.

(** ** Advancing the slot *)

Notation with_level l s :=
  (set_mBallotProtocol (set_mCurrentMessageLevel l (mBallotProtocol s)) s).

Lemma emit_inv_level l s : emit_inv (with_level l s) ↔ emit_inv s.
Proof. split; intros [? ? ?]; by split. Qed.

Lemma ev_bracket s s2 :
  ev (with_level (level s + 1) s) s2 → ev s (with_level (level s2 - 1) s2).
Proof.
  intros [S I Lv O E X]. split; try done; [simpl in *; lia|].
  rewrite emit_inv_level in *. done.
Qed.

Lemma ev_ready s s' :
  ev s s' → node_inv (abs s) ∧ can_process s → node_inv (abs s') ∧ can_process s'.
Proof.
  intros Hev [Hinv Hl]. split; [by eapply ev_inv|]. unfold can_process.
  by rewrite (ev_level _ _ _ _ Hev).
Qed.

Lemma wp_attempts {A} hint s (k : bool → bool → bool → bool → slotM A) Q :
  node_inv (abs s) ∧ can_process s → hint ∈ latest_statements (latest s) →
  (∀ w1 w2 w3 w4 s', ev s s' → (self_current s → self_current s') →
     wp (k w1 w2 w3 w4) Q allowed s') →
  wp (w1 ← attemptAcceptPrepared D L process hint;
      w2 ← attemptConfirmPrepared D L process hint;
      w3 ← attemptAcceptCommit D L process hint;
      w4 ← attemptConfirmCommit D L process hint;
      k w1 w2 w3 w4) Q allowed s.
Proof.
  intros Hs Hhint HQ.
  apply wp_bind. eapply wp_conseq; [by apply wp_attemptAcceptPrepared; destruct Hs|].
  cbv beta. intros w1 s1 (E1 & C1 & T1). apply (ev_ready _ _ E1) in Hs.
  apply wp_bind. eapply wp_conseq; [by apply wp_attemptConfirmPrepared; destruct Hs|].
  cbv beta. intros w2 s2 (E2 & C2 & T2). apply (ev_ready _ _ E2) in Hs.
  apply wp_bind. eapply wp_conseq; [by apply wp_attemptAcceptCommit; destruct Hs; auto|].
  cbv beta. intros w3 s3 (E3 & C3). apply (ev_ready _ _ E3) in Hs.
  apply wp_bind. eapply wp_conseq; [by apply wp_attemptConfirmCommit; destruct Hs|].
  cbv beta. intros w4 s4 (E4 & C4). apply HQ; [|by auto].
  eapply ev_trans; [|exact E4]. eapply ev_trans; [|exact E3]. by eapply ev_trans.
Qed.

Lemma wp_advanceSlot hint s :
  level s < MAX_ADVANCE_SLOT_RECURSION ≤ Z.of_nat (S fuel) + level s →
  node_inv (abs s) → hint ∈ latest_statements (latest s) →
  wp (advanceSlot D L process hint)
    (λ _ s', ev s s' ∧ (self_current s → self_current s')) allowed s.
Proof.
  intros Hl Hinv Hhint. unfold advanceSlot. apply wp_bind, wp_bset, wp_bind, wp_bget.
  set (s1 := with_level (level s + 1) s). change (level s1) with (level s + 1).
  destruct (Z.leb_spec MAX_ADVANCE_SLOT_RECURSION (level s + 1)) as [|Hlt]; [by brun|].
  assert (node_inv (abs s1) ∧ can_process s1) as Hs1
    by (split; [done|unfold can_process; simpl; lia]).
  assert (∀ w s3, ev s1 s3 → (self_current s1 → self_current s3) →
    wp (bset (λ bp, set_mCurrentMessageLevel (mCurrentMessageLevel bp - 1) bp);;
        when w sendLatestEnvelope)
      (λ _ s', ev s s' ∧ (self_current s → self_current s')) allowed s3) as Hend.
  { intros w s3 E3 C3. brun; [|by intros _; split; [apply ev_bracket|]].
    intros _. apply (wp_send D L). intros s4 E4 A4. split.
    - eapply ev_trans; [|exact E4]. by apply ev_bracket.
    - intros Hc. eapply ev_self_current; [exact A4|]. by apply C3. }
  apply wp_attempts; [done|done|]. intros w1 w2 w3 w4 s2 E2 C2.
  pose proof (ev_ready _ _ E2 Hs1) as [Hinv2 Hl2].
  apply wp_bind, wp_bget, wp_bind. destruct (level s2 =? 1);
    [|by apply wp_ret, Hend].
  apply wp_bind. eapply wp_conseq; [apply wp_bumpLoop; [done|done|]|].
  { right. destruct (phase s2); simpl; lia. }
  cbv beta. intros w5 s3 [E3 C3]. apply wp_bind, wp_checkHeard. intros s4 A4 F4. apply wp_ret.
  apply Hend.
  - eapply ev_trans; [exact E2|]. eapply ev_trans; [exact E3|]. by apply ev_silent.
  - intros Hc. eapply ev_self_current; [exact A4|]. auto.
Qed.

(** ** Processing an envelope *)

(** What [processEnvelope] has checked when it records an envelope. *)
Definition recordable (env : BallotEnvelopeW) (s : Slot) : Prop :=
  let st := getStatement env in
  slotIndex st = mSlotIndex s ∧
  isNewerStatement (latest s) (nodeID st) st = true ∧
  (∃ self, isStatementSane D st self = true) ∧
  validateValues D (mSlotIndex s) st ≠ kInvalidValue ∧
  (phase s = SCP_PHASE_EXTERNALIZE →
   ∃ c, mCommit (mBallotProtocol s) = Some c ∧ value (getWorkingBallot st) = value c).

Lemma recordable_step incoming env s :
  recordable env s → incoming (getStatement env) ∨ getStatement env ∈ n_signed (abs s) →
  node_step D L (mSlotIndex s) incoming (abs s) (record_node env (abs s)).
Proof. intros (? & ? & ? & ? & ?) ?. by apply step_record. Qed.

Lemma record_hint env s s1 :
  abs s1 = record_node env (abs s) → getStatement env ∈ latest_statements (latest s1).
Proof.
  intros Ha. apply elem_of_latest_statements. exists (nodeID (getStatement env)), env.
  split; [|done]. change (latest s1) with (n_M (abs s1)). rewrite Ha. apply lookup_insert_eq.
Qed.

Lemma wp_recordEnvelope env (Q : unit → Slot → Prop) E s :
  (∀ s1, abs s1 = record_node env (abs s) → same_frame s s1 → Q tt s1) →
  wp (recordEnvelope env) Q E s.
Proof. intros HQ. unfold recordEnvelope, recordStatement. brun. by apply HQ. Qed.

Lemma wp_process env self (Q : EnvelopeState → Slot → Prop) s :
  node_inv (abs s) →
  Q INVALID s →
  (∀ s1, recordable env s → abs s1 = record_node env (abs s) → same_frame s s1 →
     phase s ≠ SCP_PHASE_EXTERNALIZE →
     wp (advanceSlot D L process (getStatement env)) (λ _, Q VALID) allowed s1) →
  (∀ s1, recordable env s → abs s1 = record_node env (abs s) → same_frame s s1 →
     phase s = SCP_PHASE_EXTERNALIZE → Q VALID s1) →
  wp (processEnvelope_body D L process env self) Q allowed s.
Proof.
  intros Hinv Hinvalid Hadv Hext. unfold processEnvelope_body. brun; [|done].
  intros Hidx%Z.eqb_eq. brun.
  destruct (isStatementSane D (getStatement env) self) eqn:Hsane; cbn [negb]; [|by brun].
  cbv zeta. case_match eqn:Hnewer; [by brun|]. apply negb_false_iff in Hnewer.
  case_bool_decide as Hval; [by brun|].
  assert ((phase s = SCP_PHASE_EXTERNALIZE → ∃ c, mCommit (mBallotProtocol s) = Some c ∧
    value (getWorkingBallot (getStatement env)) = value c) → recordable env s) as Hrec
    by (unfold recordable; eauto 10).
  case_bool_decide as Hph.
  - assert (recordable env s) as Hr by (apply Hrec; done). clear Hrec.
    apply wp_bind. unfold setFullyValidated. brun.
    all: intros _; brun; apply wp_recordEnvelope; intros s1 Ha Hf; apply wp_bind;
      (eapply wp_conseq; [apply (Hadv s1 Hr Ha); [by destruct Hf|done]|]); intros; by brun.
  - destruct (inv_committed _ Hinv) as (_ & _ & [c Hc] & _); [simpl; congruence|].
    simpl in Hc. apply wp_bind, wp_reads; rewrite Hc; [|done]. intros ? [= <-].
    case_bool_decide as Hv; [|by brun].
    apply wp_bind, wp_recordEnvelope. intros s1 Ha Hf. brun. apply Hext; try done.
    apply Hrec. intros _. exists c. by rewrite Hv.
Qed.

Lemma ev_record_self env s s1 :
  recordable env s → getStatement env ∈ n_signed (abs s) →
  nodeID (getStatement env) = getNodeID L →
  abs s1 = record_node env (abs s) → same_frame s s1 → ev s s1.
Proof.
  intros Hr Hs Hid Ha Hf. split.
  - rewrite Ha. apply rtc_once, recordable_step; auto.
  - apply Hf.
  - apply Hf.
  - intros n Hn. change (latest s1) with (n_M (abs s1)). rewrite Ha. simpl.
    apply lookup_insert_ne. congruence.
  - by apply same_frame_emit_inv.
  - intros _. by rewrite Ha.
Qed.

Lemma self_current_record env s s1 :
  nodeID (getStatement env) = getNodeID L → abs s1 = record_node env (abs s) →
  (phase s ≠ SCP_PHASE_EXTERNALIZE →
   statementBallotCounter (getStatement env) ≤ cur_counter s) → self_current s1.
Proof.
  intros Hid Ha Hc Hph e. change (latest s1) with (n_M (abs s1)).
  change (cur_counter s1) with (match n_b (abs s1) with Some b => counter b | None => 0 end).
  change (n_phase (abs s1) ≠ SCP_PHASE_EXTERNALIZE) in Hph. rewrite Ha in *. simpl in *.
  rewrite Hid, lookup_insert_eq. intros [= <-]. by apply Hc.
Qed.

(** One more level of the recursion. *)
Lemma process_spec_S : process_spec (S fuel) (processEnvelope_body D L process).
Proof.
  intros env self s Hinv Hl Hsigned Hself. apply wp_process; [done|..].
  - by stay.
  - intros s1 Hr Ha Hf Hph. pose proof (ev_record_self _ _ _ Hr Hsigned Hself Ha Hf) as Hev.
    eapply wp_conseq; [apply wp_advanceSlot|].
    + by rewrite (ev_level _ _ _ _ Hev).
    + by eapply ev_inv.
    + by eapply record_hint.
    + intros _ s2 [Hev2 Hcur]. split; [by eapply ev_trans|]. intros _ Hc. apply Hcur.
      by eapply self_current_record.
  - intros s1 Hr Ha Hf Hph. split; [by eapply ev_record_self|]. intros _ Hc.
    by eapply self_current_record.
Qed.
End emit.

(** ** Closing the recursion *)

(** What [LocalNode]'s constructor and the XDR types ensure. *)
Class ValidLocalNode (L : LocalNode) : Prop :=
  valid_qset : well_formed (getQuorumSet L).

Class TypedDriver (D : SCPDriver) : Prop :=
  typed_qsets : ∀ h q, getQSet D h = Some q → typed q.

Section closed.
Context (D : SCPDriver) (L : LocalNode) `{!ValidLocalNode L, !TypedDriver D}.

Lemma processEnvelope_fuel_spec f : process_spec D L f (processEnvelope_fuel D L f).
Proof.
  induction f as [|f IH]; [|by apply process_spec_S].
  intros env self s _ Hl. lia.
Qed.

Lemma wp_Slot_bumpState v force s :
  node_inv (abs s) → level s = 0 →
  wp (Slot_bumpState D L v force) (λ _ s', ev D L s s') allowed s.
Proof.
  intros Hinv Hl. eapply wp_conseq.
  - apply (wp_bumpState D L 50 (processEnvelope D L) (processEnvelope_fuel_spec 50));
      [done|]. unfold can_process. by rewrite Hl.
  - by intros r s' [? _].
Qed.
End closed.
