(* ===== verification/NominationRefine.v ===== *)
(** * The nomination protocol keeps its invariants

    The methods of [Nomination] are run symbolically from a slot that satisfies
    [nom_inv].  Votes and accepted values only grow, every statement the node
    makes is strictly newer than its previous one, so it never refuses its own
    statement, and the recursion on its own statements ends.  What the ballot
    protocol sees of it are the calls to [bumpState]. *)

From S2P Require Import Prelude StateMonad QuorumSet ScpTypes Ballot BallotSpec.
From S2P Require Import BallotRefine Nomination NominationOrder Leaders NominationFrame.

Notation np s := (mNominationProtocol s).

(** What the driver's documentation promises: an extracted value is fully valid,
    and candidates can be combined. *)
Class NominationDriver (D : SCPDriver) : Prop := {
  extracted_valid : ∀ idx v w,
    extractValidValue D idx v = Some w → validateValue D idx w true = kFullyValidatedValue;
  combined : ∀ idx vs, vs ≠ [] → is_Some (combineCandidates D idx vs)
}.

Section nomination.
Context (D : SCPDriver) (L : LocalNode) `{!ValidLocalNode L, !TypedDriver D}.
Implicit Types (s : Slot).

Notation ev := (ev D L).

(** The statement the node would make now. *)
Definition own s : SCPNomination :=
  mkNomination (getQuorumSetHash L) (mVotes (np s)) (mAccepted (np s)).

Record nom_inv s : Prop := {
  nomi_own : sorted_nomination (own s);
  nomi_sub : ∀ x, x ∈ mAccepted (np s) → x ∈ mVotes (np s);
  nomi_cand : ∀ x, x ∈ mCandidates (np s) → x ∈ mAccepted (np s);
  nomi_latest : ∀ n e, mLatestNominations (np s) !! n = Some e →
    sorted_nomination (pledges (getStatement e));
  nomi_self : ∀ e, mLatestNominations (np s) !! getNodeID L = Some e →
    nom_le (pledges (getStatement e)) (own s);
  nomi_signed : ∀ nom, nom ∈ signed_nominations s → nom_le nom (own s);
  nomi_last : ∀ l, mLastNomination (np s) = Some l →
    sorted_nomination (pledges (getStatement l)) ∧ nom_le (pledges (getStatement l)) (own s);
  nomi_sorted : StronglySorted (λ new old, isNewerNomination_st old new = true)
    (emitted_nominations s);
  nomi_emitted : ∀ nom, nom ∈ emitted_nominations s →
    sorted_nomination nom ∧
    ∃ l, mLastNomination (np s) = Some l ∧ nom_le nom (pledges (getStatement l))
}.

(** ** Frames *)

(** [s'] differs from [s] in nothing the invariant reads of the protocol's state
    but the votes, accepted values and candidates, which grew. *)
Record grow s s' : Prop := {
  gr_abs : abs s' = abs s;
  gr_frame : same_frame s s';
  gr_latest : mLatestNominations (np s') = mLatestNominations (np s);
  gr_last : mLastNomination (np s') = mLastNomination (np s);
  gr_signed : signed_nominations s' = signed_nominations s;
  gr_emitted : emitted_nominations s' = emitted_nominations s;
  gr_own : nom_le (own s) (own s');
  gr_cand : ∀ x, x ∈ mCandidates (np s) → x ∈ mCandidates (np s')
}.

#[export] Instance grow_preorder : PreOrder grow.
Proof.
  split.
  - intros s. by split.
  - intros s1 s2 s3 [A1 F1 L1 La1 S1 E1 O1 C1] [A2 F2 L2 La2 S2 E2 O2 C2].
    split; try congruence; [|by etrans|by auto].
    by eapply same_frame_trans.
Qed.

(** Growth keeps the invariant when the new sets are well formed. *)
Lemma grow_inv s s' :
  grow s s' → nom_inv s → sorted_nomination (own s') →
  (∀ x, x ∈ mAccepted (np s') → x ∈ mVotes (np s')) →
  (∀ x, x ∈ mCandidates (np s') → x ∈ mAccepted (np s')) → nom_inv s'.
Proof.
  intros [A F La Ls S E O C] [I1 I2 I3 I4 I5 I6 I7 I8 I9] Hs Hsub Hc.
  split; rewrite ?La, ?Ls, ?S, ?E; try done.
  - intros e He. etrans; [by apply I5|done].
  - intros nom Hn. etrans; [by apply I6|done].
  - intros l Hl. destruct (I7 l Hl). split; [done|by etrans].
Qed.

Lemma sorted_antisym a b c :
  sorted_nomination a → sorted_nomination b → nom_le a b → nom_le b c →
  same_sets a c → same_sets a b.
Proof.
  intros [] [] [V1 A1] [V2 A2] [Ev Ea].
  split; apply increasing_ext; try done; intros x; split; auto.
  - rewrite Ev. auto.
  - rewrite Ea. auto.
Qed.

Lemma own_grown s s1 s2 :
  nom_inv s → nom_inv s1 → nom_le (own s) (own s1) → nom_le (own s1) (own s2) →
  ¬ same_sets (own s) (own s1) → ¬ same_sets (own s) (own s2).
Proof.
  intros I1 I2 H1 H2 Hn Hs. apply Hn. eapply sorted_antisym; [apply I1|apply I2|done..].
Qed.

(** ** The values the protocol can ever mention *)

Definition closed (idx : Z) (uni : list Value) : Prop :=
  ∀ v w, v ∈ uni → valueToNominate D idx v = Some w → w ∈ uni.

Definition within (uni : list Value) s : Prop :=
  (∀ x, x ∈ mVotes (np s) → x ∈ uni) ∧ (∀ x, x ∈ mAccepted (np s) → x ∈ uni) ∧
  (∀ n e x, mLatestNominations (np s) !! n = Some e →
     x ∈ nom_votes (pledges (getStatement e)) ∨ x ∈ nom_accepted (pledges (getStatement e)) →
     x ∈ uni).

(** How many times the votes or the accepted values may still grow. *)
Definition room (uni : list Value) s : Z :=
  2 * Z.of_nat (length uni) - Z.of_nat (length (mVotes (np s)))
  - Z.of_nat (length (mAccepted (np s))).

Lemma room_nonneg uni s : nom_inv s → within uni s → 0 ≤ room uni s.
Proof.
  intros Hi (HV & HA & _). destruct (nomi_own _ Hi) as [Hv Ha]. unfold room.
  pose proof (increasing_subset_length _ _ Hv HV). pose proof (increasing_subset_length _ _ Ha HA).
  simpl in *. lia.
Qed.

Lemma room_grown uni s s' :
  nom_inv s → nom_inv s' → nom_le (own s) (own s') → ¬ same_sets (own s) (own s') →
  room uni s' < room uni s.
Proof.
  intros Hi Hi' [HV HA] Hn. destruct (nomi_own _ Hi) as [Hv Ha], (nomi_own _ Hi') as [Hv' Ha'].
  pose proof (increasing_subset_length _ _ Hv HV). pose proof (increasing_subset_length _ _ Ha HA).
  unfold room. simpl in *.
  destruct (decide (length (mVotes (np s)) = length (mVotes (np s')))) as [E1|]; [|lia].
  destruct (decide (length (mAccepted (np s)) = length (mAccepted (np s')))) as [E2|]; [|lia].
  exfalso. apply Hn. split; by apply increasing_subset_eq.
Qed.

(** ** Promoting values *)

(** The outcome of a step that may enlarge the node's sets. *)
Definition enlarged (values : list Value) (changed : bool) s s' : Prop :=
  grow s s' ∧ nom_inv s' ∧
  (changed = true → ¬ same_sets (own s) (own s')) ∧
  (∀ uni, closed (mSlotIndex s) uni → (∀ v, v ∈ values → v ∈ uni) →
     within uni s → within uni s').

Lemma enlarged_refl values s : nom_inv s → enlarged values false s s.
Proof. intros Hi. split; [done|]. by split. Qed.

Lemma enlarged_trans values values' c c' s1 s2 s3 :
  nom_inv s1 → enlarged values c s1 s2 → enlarged values' c' s2 s3 →
  enlarged (values ++ values') (c' || c) s1 s3.
Proof.
  intros I1 (G1 & I2 & N1 & W1) (G2 & I3 & N2 & W2). split; [by etrans|]. split; [done|]. split.
  - intros Hc Hs. apply orb_true_iff in Hc as [Hc|Hc].
    + apply N2; [done|]. pose proof (sorted_antisym (own s1) (own s2) (own s3)
        (nomi_own _ I1) (nomi_own _ I2) (gr_own _ _ G1) (gr_own _ _ G2) Hs) as [E1 E2].
      destruct Hs. split; congruence.
    + by apply (own_grown s1 s2 s3 I1 I2 (gr_own _ _ G1) (gr_own _ _ G2) (N1 Hc)).
  - intros uni Hc Hv Hw. rewrite <-(sf_idx _ _ (gr_frame _ _ G1)) in Hc.
    apply W2; [done|set_solver|]. apply W1; [|set_solver|done].
    by rewrite <-(sf_idx _ _ (gr_frame _ _ G1)).
Qed.

Lemma wp_nset f (Q : unit → Slot → Prop) E s :
  Q tt (set_mNominationProtocol (f (np s)) s) → wp (nset f) Q E s.
Proof. intros HQ. unfold nset. by apply wp_modify. Qed.

(** New votes and accepted values. *)
Lemma enlarged_intro values c (V A : list Value) s s' :
  nom_inv s → abs s' = abs s → same_frame s s' →
  np s' = set_mVotes V (set_mAccepted A (np s)) →
  signed_nominations s' = signed_nominations s →
  emitted_nominations s' = emitted_nominations s →
  increasing V → increasing A →
  (∀ x, x ∈ mVotes (np s) → x ∈ V) → (∀ x, x ∈ mAccepted (np s) → x ∈ A) →
  (∀ x, x ∈ A → x ∈ V) →
  (∀ x, x ∈ V → x ∈ mVotes (np s) ∨ x ∈ values ∨
     ∃ v, v ∈ values ∧ valueToNominate D (mSlotIndex s) v = Some x) →
  (c = true → V ≠ mVotes (np s) ∨ A ≠ mAccepted (np s)) →
  enlarged values c s s'.
Proof.
  intros Hi Ha Hf Hn Hsg Hem HV HA HsV HsA Hsub Hfrom Hc.
  assert (grow s s') as Hg.
  { split; try done; rewrite ?Hn; try done. split; unfold own; by rewrite Hn. }
  split; [done|]. split; [|split].
  - eapply grow_inv; [done|done|..]; unfold own, sorted_nomination; rewrite Hn; simpl; [done..|].
    intros x Hx. by apply HsA, (nomi_cand _ Hi).
  - intros Ht [EV EA]. unfold own in *. rewrite Hn in *. simpl in *.
    destruct (Hc Ht); congruence.
  - intros uni Hcl Hvs (W1 & W2 & W3). unfold within. rewrite Hn. simpl.
    assert (∀ x, x ∈ V → x ∈ uni) as HVu.
    { intros x Hx. destruct (Hfrom x Hx) as [?|[?|(v & Hv & Hw)]]; [auto..|].
      eapply Hcl; [by apply Hvs|done]. }
    split_and!; [done|auto|done].
Qed.

Lemma set_insert_new {A} `{TotalOrd A} (x : A) l : x ∉ l → set_insert x l ≠ l.
Proof. intros Hx E. apply Hx. rewrite <-E. apply elem_of_set_insert. auto. Qed.

(** A new vote. *)
Lemma enlarged_vote values v w s s' :
  nom_inv s → v ∈ values → v = w ∨ valueToNominate D (mSlotIndex s) v = Some w →
  abs s' = abs s → same_frame s s' →
  np s' = set_mVotes (set_insert w (mVotes (np s))) (np s) →
  signed_nominations s' = signed_nominations s →
  emitted_nominations s' = emitted_nominations s →
  enlarged values (negb (bool_decide (w ∈ mVotes (np s)))) s s'.
Proof.
  intros Hi Hv Hw Ha Hf Hn Hsg Hem. destruct (nomi_own _ Hi) as [HV HA].
  apply (enlarged_intro _ _ (set_insert w (mVotes (np s))) (mAccepted (np s))); try done.
  - by apply set_insert_increasing.
  - intros x Hx. apply elem_of_set_insert. auto.
  - intros x Hx. apply elem_of_set_insert. right. by apply (nomi_sub _ Hi).
  - intros x [->|Hx]%elem_of_set_insert; [|auto]. destruct Hw as [->|Hw]; eauto.
  - intros Hc%negb_true_iff%bool_decide_eq_false. left. by apply set_insert_new.
Qed.

Lemma wp_promoteVote v s E :
  nom_inv s → wp (promoteVote D L v) (λ m s', enlarged [v] m s s') E s.
Proof.
  intros Hi. unfold promoteVote. brun.
  case_bool_decide as Hacc; [brun; by apply enlarged_refl|].
  destruct (federatedAccept_with _ _ _ _ _); [|brun; by apply enlarged_refl].
  case_bool_decide as Hval.
  - apply wp_bind, wp_nset. brun. destruct (nomi_own _ Hi) as [HV HA].
    eapply (enlarged_intro _ _ (set_insert v (mVotes (np s))) (set_insert v (mAccepted (np s))));
      try done.
    + by apply set_insert_increasing.
    + by apply set_insert_increasing.
    + intros x Hx. apply elem_of_set_insert. auto.
    + intros x Hx. apply elem_of_set_insert. auto.
    + intros x. rewrite !elem_of_set_insert. intros [->|Hx]; [auto|].
      right. by apply (nomi_sub _ Hi).
    + intros x [->|Hx]%elem_of_set_insert; [|auto]. right. left. left.
    + intros _. right. by apply set_insert_new.
  - destruct (extractValidValue D (mSlotIndex s) v) as [w|] eqn:Ew;
      [|brun; by apply enlarged_refl].
    apply wp_bind, wp_nset. brun. apply (enlarged_vote _ v); try done; [left|]. right.
    unfold valueToNominate. by rewrite bool_decide_false.
Qed.

Lemma enlarged_weaken values values' c s s' :
  (∀ v, v ∈ values → v ∈ values') → enlarged values c s s' → enlarged values' c s s'.
Proof. intros Hsub (G & I & N & W). split_and!; try done. intros uni Hc Hv. apply W; auto. Qed.

Lemma wp_promoteVotes all votes c s0 s E :
  nom_inv s0 → enlarged all c s0 s → (∀ v, v ∈ votes → v ∈ all) →
  wp (promoteVotes D L votes c) (λ m s', enlarged all m s0 s') E s.
Proof.
  intros Hi. revert c s. induction votes as [|v votes IH]; intros c s He Hsub; cbn [promoteVotes];
    [by brun|].
  apply wp_bind. eapply wp_conseq; [apply wp_promoteVote; apply He|]. intros m s1 Hm.
  apply IH; [|set_solver]. eapply enlarged_weaken; [|eapply enlarged_trans; [done|exact He|exact Hm]].
  set_solver.
Qed.

Lemma enlarged_candidates s s' :
  nom_inv s → (∃ C, np s' = set_mCandidates C (np s) ∧
    (∀ x, x ∈ mCandidates (np s) → x ∈ C) ∧ (∀ x, x ∈ C → x ∈ mAccepted (np s))) →
  abs s' = abs s → same_frame s s' → signed_nominations s' = signed_nominations s →
  emitted_nominations s' = emitted_nominations s → enlarged [] false s s'.
Proof.
  intros Hi (C & Hn & HC & HCA) Ha Hf Hsg Hem.
  assert (grow s s') as Hg.
  { split; try done; rewrite ?Hn; try done. split; unfold own; by rewrite Hn. }
  split; [done|]. split; [|split; [done|]].
  - eapply grow_inv; [done|done|..]; unfold own, sorted_nomination; rewrite Hn; simpl; [|..|done].
    + apply (nomi_own _ Hi).
    + apply (nomi_sub _ Hi).
  - intros uni _ _ Hw. unfold within. by rewrite Hn.
Qed.

Lemma wp_promoteAccepted accepted c s0 s E :
  nom_inv s0 → enlarged [] false s0 s → (c = true → mCandidates (np s) ≠ []) →
  (∀ a, a ∈ accepted → a ∈ mAccepted (np s)) →
  wp (promoteAccepted D L accepted c)
    (λ r s', enlarged [] false s0 s' ∧ (r = true → mCandidates (np s') ≠ [])) E s.
Proof.
  intros Hi. revert c s. induction accepted as [|a accepted IH]; intros c s He Hc Hsub;
    cbn [promoteAccepted]; [by brun|].
  brun. case_bool_decide as Ha; [apply IH; [done|done|set_solver]|].
  destruct (federatedRatify_with _ _ _ _); [|apply IH; [done|done|set_solver]].
  apply wp_bind, wp_nset. apply IH; [| |set_solver].
  - apply (enlarged_trans [] [] false false s0 s _ Hi He).
    apply enlarged_candidates; [apply He| |done..].
    exists (set_insert a (mCandidates (np s))). split; [done|]. split.
    + intros x Hx. apply elem_of_set_insert. auto.
    + intros x [->|Hx]%elem_of_set_insert; [set_solver|].
      destruct He as (_ & Hi' & _). by apply (nomi_cand _ Hi').
  - intros _ E'. assert (a ∈ set_insert a (mCandidates (np s))) as Hin
      by (apply elem_of_set_insert; auto).
    simpl in E'. rewrite E' in Hin. by apply not_elem_of_nil in Hin.
Qed.

(** ** Votes taken from leaders *)

Lemma bestNewValue_Ok idx n values h nv r :
  bestNewValue D idx n values h nv = Ok r →
  r = nv ∨ ∃ v w, v ∈ values ∧ valueToNominate D idx v = Some w ∧ w ∉ mVotes n ∧ r = Some w.
Proof.
  revert h nv. induction values as [|v values IH]; intros h nv; cbn [bestNewValue].
  { intros [= <-]. auto. }
  assert (∀ h nv, bestNewValue D idx n values h nv = Ok r →
    r = nv ∨ ∃ v0 w, v0 ∈ v :: values ∧ valueToNominate D idx v0 = Some w ∧ w ∉ mVotes n ∧
      r = Some w) as IH'.
  { intros h' nv' [?|(v0 & w & ? & ?)]%IH; [auto|]. right. exists v0, w. set_solver. }
  destruct (valueToNominate D idx v) as [x|] eqn:Ex; [|apply IH'].
  case_bool_decide as Hx; [apply IH'|]. unfold hashValue.
  destruct (cassert _) as [[]|e]; [|done]. cbn.
  destruct (h <=? _); [|apply IH'].
  intros [->|?]%IH'; [|auto]. right. exists v, x. split; [left|done].
Qed.

Lemma bestNewValue_Throw idx n values h nv e :
  bestNewValue D idx n values h nv = Throw e → e = AssertFailure.
Proof.
  revert h nv. induction values as [|v values IH]; intros h nv; cbn [bestNewValue]; [done|].
  destruct (valueToNominate D idx v) as [x|] eqn:Ex; [|apply IH].
  case_bool_decide as Hx; [apply IH|]. unfold hashValue, cassert.
  case_match; cbn; [|by intros [= <-]]. case_match; apply IH.
Qed.

Lemma wp_takeLeaderVote nom s (E : exn → Prop) :
  nom_inv s → E AssertFailure →
  wp (takeLeaderVote D nom) (λ r s', enlarged (applyAll nom) r s s') E s.
Proof.
  intros Hi HE. unfold takeLeaderVote, nreads. apply wp_bind, wp_gets, wp_bind, wp_reads.
  - intros r [->|(v & w & Hv & Hw & Hnew & ->)]%bestNewValue_Ok; [brun; by apply enlarged_refl|].
    apply wp_bind, wp_nset. brun.
    assert (true = negb (bool_decide (w ∈ mVotes (np s)))) as -> by (by rewrite bool_decide_false).
    apply (enlarged_vote _ v); try done. by right.
  - by intros e ->%bestNewValue_Throw.
Qed.

(** ** Emitting a statement *)

(** Between two operations of the ballot protocol. *)
Definition rest s : Prop := node_inv (abs s) ∧ level s = 0.

Record progress s s' : Prop := {
  pg_ev : ev s s';
  pg_inv : nom_inv s';
  pg_own : nom_le (own s) (own s');
  pg_cand : ∀ x, x ∈ mCandidates (np s) → x ∈ mCandidates (np s')
}.

Lemma progress_refl s : nom_inv s → progress s s.
Proof. intros Hi. split; [apply ev_refl|done..]. Qed.

Lemma progress_trans s1 s2 s3 : progress s1 s2 → progress s2 s3 → progress s1 s3.
Proof.
  intros [E1 I1 O1 C1] [E2 I2 O2 C2]. split; [by eapply ev_trans|done|by etrans|auto].
Qed.

Lemma ev_rest s s' : ev s s' → rest s → rest s'.
Proof.
  intros Hev [Hn Hl]. split; [by eapply ev_inv|]. by rewrite (ev_level _ _ _ _ Hev).
Qed.

Lemma grow_ev s s' : grow s s' → ev s s'.
Proof. intros Hg. apply ev_silent; apply Hg. Qed.

Lemma enlarged_progress values c s s' : enlarged values c s s' → progress s s'.
Proof. intros (Hg & Hi & _). split; [by apply grow_ev|done|apply Hg|apply Hg]. Qed.

(** The statement of the node is not its latest one. *)
Definition fresh s : Prop :=
  (mVotes (np s) ≠ [] ∨ mAccepted (np s) ≠ []) ∧
  ∀ e, mLatestNominations (np s) !! getNodeID L = Some e →
       ¬ same_sets (pledges (getStatement e)) (own s).

Definition own_envelope (env : NominationEnvelopeW) s : Prop :=
  nodeID (getStatement env) = getNodeID L ∧ slotIndex (getStatement env) = mSlotIndex s ∧
  pledges (getStatement env) = own s.

(** The node does not refuse its own statement, in states that satisfy [G]. *)
Definition accepts_own (G : Slot → Prop) (process : NominationEnvelopeW → slotM EnvelopeState)
    : Prop :=
  ∀ env s, own_envelope env s → nom_inv s → rest s → fresh s → G s →
    wp (process env) (λ r s', r = VALID ∧ progress s s') allowed s.

(** After a strict growth the statement is fresh. *)
Lemma grown_fresh s s' :
  nom_inv s → nom_inv s' → mLatestNominations (np s') = mLatestNominations (np s) →
  nom_le (own s) (own s') → ¬ same_sets (own s) (own s') → fresh s'.
Proof.
  intros Hi Hi' Hl Hle Hn. split.
  - destruct (mVotes (np s')) eqn:EV; [|by left]. destruct (mAccepted (np s')) eqn:EA; [|by right].
    exfalso. apply Hn. destruct Hle as [HV HA]. unfold same_sets, own in *. simpl in *.
    rewrite EV, EA in *.
    split; apply elem_of_nil_inv; intros x Hx; [apply HV in Hx|apply HA in Hx];
      by apply not_elem_of_nil in Hx.
  - intros e. rewrite Hl. intros He [E1 E2]. apply Hn.
    pose proof (nomi_self _ Hi e He) as [HV HA].
    destruct Hle as [HV' HA'], (nomi_own _ Hi), (nomi_own _ Hi').
    split; apply increasing_ext; try done; intros x; split; auto.
    + rewrite <-E1. auto.
    + rewrite <-E2. auto.
Qed.

(** Recording the emission of the node's statement [nom]. *)
Lemma emitted_inv nom envW s s' :
  nom_inv s → sorted_nomination nom → nom_le nom (own s) → pledges (getStatement envW) = nom →
  match mLastNomination (np s) with
  | None => True
  | Some l => isNewerNomination_st (pledges (getStatement l)) nom = true
  end →
  np s' = set_mLastNomination (Some envW) (np s) →
  signed_nominations s' = signed_nominations s →
  emitted_nominations s' = emitted_nominations s ∨
  emitted_nominations s' = nom :: emitted_nominations s →
  nom_inv s'.
Proof.
  intros [I1 I2 I3 I4 I5 I6 I7 I8 I9] Hs Hle Hp Hnew Hn Hsg Hem.
  assert (∀ old, old ∈ emitted_nominations s →
    sorted_nomination old ∧ nom_le old nom ∧ isNewerNomination_st old nom = true) as Hold.
  { intros old Hin. destruct (I9 old Hin) as (Hso & l & Hl & Hol). rewrite Hl in Hnew.
    destruct (I7 l Hl) as [Hsl _]. apply isNewerNomination_le in Hnew as [Hln Hne]; [|done..].
    assert (nom_le old nom) by (by etrans). split_and!; [done..|].
    apply isNewerNomination_le; [done..|]. split; [done|]. intros Hsame. apply Hne.
    pose proof (sorted_antisym _ _ _ Hso Hsl Hol Hln Hsame) as [E1 E2].
    destruct Hsame. split; congruence. }
  split; unfold own in *; rewrite ?Hn, ?Hsg; try done; simpl.
  - intros l [= <-]. by rewrite Hp.
  - destruct Hem as [->| ->]; [done|]. constructor; [done|]. apply Forall_forall.
    intros old Hin. by destruct (Hold old Hin) as (_ & _ & ?).
  - intros n Hin. destruct Hem as [Hem|Hem]; rewrite Hem in Hin.
    + destruct (Hold n Hin) as (? & ? & _). split; [done|]. exists envW. by rewrite Hp.
    + apply elem_of_cons in Hin as [->|Hin].
      * split; [done|]. exists envW. by rewrite Hp.
      * destruct (Hold n Hin) as (? & ? & _). split; [done|]. exists envW. by rewrite Hp.
Qed.

(** Signing the node's statement. *)
Lemma signed_inv s s' :
  nom_inv s → np s' = np s → signed_nominations s' = own s :: signed_nominations s →
  emitted_nominations s' = emitted_nominations s → nom_inv s'.
Proof.
  intros [I1 I2 I3 I4 I5 I6 I7 I8 I9] Hn Hsg Hem.
  split; unfold own in *; rewrite ?Hn, ?Hsg, ?Hem; try done.
  intros nom [->|Hin]%elem_of_cons; [done|auto].
Qed.

(** What the ballot protocol does. *)
Lemma frame_nom s s' :
  nom_inv s → nom_frame s s' →
  nom_inv s' ∧ own s' = own s ∧ mCandidates (np s') = mCandidates (np s).
Proof.
  intros Hi [Fi Fs Fg Fe].
  pose proof (f_equal mVotes Fs) as EV. pose proof (f_equal mAccepted Fs) as EA.
  pose proof (f_equal mCandidates Fs) as EC. pose proof (f_equal mLatestNominations Fs) as EL.
  pose proof (f_equal mLastNomination Fs) as Els. simpl in *.
  assert (own s' = own s) as Eo by (unfold own; by rewrite EV, EA).
  destruct Hi as [I1 I2 I3 I4 I5 I6 I7 I8 I9]. split; [|done].
  split; rewrite ?Eo, ?EV, ?EA, ?EC, ?EL, ?Els, ?Fg, ?Fe; done.
Qed.

Lemma frame_progress s s' : nom_inv s → ev s s' → nom_frame s s' → progress s s'.
Proof.
  intros Hi Hev Hf. destruct (frame_nom s s' Hi Hf) as (Hi' & Ho & Hc).
  split; [done..|by rewrite Ho|by rewrite Hc].
Qed.

Section emit.
Context (G : Slot → Prop) (process : NominationEnvelopeW → slotM EnvelopeState).
Context (HG : ∀ s s', np s' = np s → mSlotIndex s' = mSlotIndex s → G s → G s').
Context (Hprocess : accepts_own G process).

Lemma wp_emitNomination s :
  nom_inv s → rest s → fresh s → G s →
  wp (emitNomination D L process) (λ _ s', progress s s') allowed s.
Proof.
  intros Hi Hr Hf Hg. unfold emitNomination, createEnvelope, wrapEnvelope. brun.
  set (env := mkEnvelope _ _). set (envW := mkWrapper _ env). set (s1 := set_mNextWrapper _ _).
  assert (ev s s1) as Hev1 by (by apply ev_silent).
  assert (nom_inv s1) as Hi1 by (by apply (signed_inv s)).
  eapply wp_conseq; [apply (Hprocess envW s1)|]; try done.
  - by apply (HG s).
  - cbv beta. intros r s2 (-> & [Ev2 Hi2 O2 C2]). rewrite bool_decide_true by done.
    assert (progress s s2) as Hp2.
    { split; [by eapply ev_trans|done..]. }
    brun; [|by intros _].
    intros Hnew. apply wp_bind, wp_nset. brun; intros _; brun.
    all: eapply progress_trans; [exact Hp2|]; split; [by apply ev_silent| |done..].
    all: apply (emitted_inv (own s) envW s2); try done; [apply Hi|by destruct (mLastNomination _)|..].
    + by right.
    + by left.
Qed.

(** ** Processing a statement *)

Context `{!NominationDriver D}.

Lemma wp_updateCandidate s :
  nom_inv s → rest s → mCandidates (np s) ≠ [] →
  wp (updateCandidate D L) (λ _ s', progress s s') allowed s.
Proof.
  intros Hi Hr Hne. unfold updateCandidate.
  apply wp_bind, wp_gets, wp_bind, wp_nget, wp_bind, wp_nset, wp_bind.
  destruct (combined (mSlotIndex s) _ Hne) as [v Hv]. cbv beta delta [id].
  apply wp_reads; simpl; rewrite Hv; [|done]. intros a [= <-].
  apply wp_bind, wp_call, wp_bind. set (s1 := set_mCalls _ _).
  assert (progress s s1) as Hp1.
  { split; [by apply ev_silent| |done..]. eapply grow_inv; [|exact Hi|apply Hi..]. by split. }
  eapply wp_conseq.
  - eapply keeps_wp; [apply framed_Slot_bumpState|].
    destruct (ev_rest _ _ (pg_ev _ _ Hp1) Hr). by apply wp_Slot_bumpState.
  - cbv beta. intros b s2 [Ev2 Fr2]. apply wp_ret.
    eapply progress_trans; [exact Hp1|]. apply frame_progress; [apply Hp1|done..].
Qed.

Lemma wp_emitWhen values c s s' :
  nom_inv s → rest s → (∀ s', enlarged values true s s' → G s') →
  enlarged values c s s' →
  wp (when c (emitNomination D L process))
    (λ _ s'', progress s s'' ∧ progress s' s'') allowed s'.
Proof.
  intros Hi Hr HGr He. pose proof (enlarged_progress _ _ _ _ He) as Hp.
  pose proof He as (Hg & Hi' & Hc & _). apply wp_when.
  - intros ->. eapply wp_conseq; [apply wp_emitNomination|].
    + done.
    + eapply ev_rest; [apply Hp|done].
    + apply (grown_fresh s); [done|done|apply Hg|apply Hg|auto].
    + auto.
    + cbv beta. intros _ s'' Hp'. split; [by eapply progress_trans|done].
  - intros _. split; [done|]. by apply progress_refl.
Qed.

Lemma wp_react sender nom s :
  nom_inv s → rest s → (∀ s', enlarged (applyAll nom) true s s' → G s') →
  wp (reactToNomination D L process sender nom) (λ _ s', progress s s') allowed s.
Proof.
  intros Hi Hr HGr. unfold reactToNomination. apply wp_bind.
  eapply wp_conseq; [apply (wp_promoteVotes (applyAll nom)); [done|by apply enlarged_refl|]|].
  { intros v Hv. apply elem_of_app. auto. }
  cbv beta. intros m s1 H1. apply wp_bind, wp_nget, wp_bind. pose proof H1 as (_ & Hi1 & _).
  eapply wp_conseq; [apply wp_promoteAccepted; [done|by apply enlarged_refl|done|done]|].
  cbv beta. intros newC s2 (H2 & Hne). apply wp_bind, wp_nget, wp_bind.
  pose proof (enlarged_trans _ _ _ _ _ _ _ Hi H1 H2) as H12.
  assert (∀ took s3, enlarged (applyAll nom) took s2 s3 →
    wp (when (m || took) (emitNomination D L process);; when newC (updateCandidate D L))
      (λ _ s', progress s s') allowed s3) as Hend.
  { intros took s3 H3. pose proof (enlarged_trans _ _ _ _ _ _ _ Hi H12 H3) as H13.
    apply (enlarged_weaken _ (applyAll nom)) in H13; [|set_solver].
    rewrite orb_false_l, orb_comm in H13.
    apply wp_bind. eapply wp_conseq; [apply (wp_emitWhen (applyAll nom) _ s); [done..|exact H13]|]. cbv beta. intros _ s4 [H4 H34].
    apply wp_when; [|done]. intros ->.
    eapply wp_conseq; [apply wp_updateCandidate|].
    - apply H4.
    - eapply ev_rest; [apply H4|done].
    - intros E. apply (Hne eq_refl). apply elem_of_nil_inv. intros x Hx.
      destruct H3 as (G3 & _). apply (gr_cand _ _ G3), (pg_cand _ _ H34) in Hx.
      rewrite E in Hx. by apply not_elem_of_nil in Hx.
    - cbv beta. intros _ s5 H5. by eapply progress_trans. }
  destruct (bool_decide _ && bool_decide _); [|by apply wp_ret, Hend, enlarged_refl; apply H2].
  eapply wp_conseq; [apply wp_takeLeaderVote; [apply H2|done]|]. cbv beta. exact Hend.
Qed.

Lemma recorded_inv env s s' :
  nom_inv s → sorted_nomination (pledges (getStatement env)) →
  (nodeID (getStatement env) = getNodeID L → nom_le (pledges (getStatement env)) (own s)) →
  np s' = set_mLatestNominations
            (<[ nodeID (getStatement env) := env ]> (mLatestNominations (np s))) (np s) →
  signed_nominations s' = signed_nominations s →
  emitted_nominations s' = emitted_nominations s → nom_inv s'.
Proof.
  intros [I1 I2 I3 I4 I5 I6 I7 I8 I9] Hs Hle Hn Hsg Hem.
  split; unfold own in *; rewrite ?Hn, ?Hsg, ?Hem; try done; simpl.
  - intros n e He. apply lookup_insert_Some in He as [[_ <-]|[_ He]]; eauto.
  - intros e He. apply lookup_insert_Some in He as [[E <-]|[_ He]]; auto.
Qed.

(** The state in which a recorded statement is processed. *)
Definition recorded (env : NominationEnvelopeW) s s1 : Prop :=
  progress s s1 ∧ own s1 = own s ∧ mSlotIndex s1 = mSlotIndex s ∧
  mLatestNominations (np s1) =
    <[ nodeID (getStatement env) := env ]> (mLatestNominations (np s)).

Lemma wp_processNomination_body env s :
  let nom := pledges (getStatement env) in
  nom_inv s → rest s →
  (nodeID (getStatement env) = getNodeID L → nom_le nom (own s)) →
  (∀ s1 s2, recorded env s s1 → enlarged (applyAll nom) true s1 s2 → G s2) →
  wp (processNomination_body D L process env)
    (λ r s', progress s s' ∧
       (isNewerNomination (mLatestNominations (np s)) (nodeID (getStatement env)) nom = true →
        isSaneNomination nom = true → r = VALID)) allowed s.
Proof.
  intros nom Hi Hr Hself HGr. unfold processNomination_body. brun; [|done]. intros _.
  brun. cbv zeta. case_match eqn:Hnew.
  { brun. split; [by apply progress_refl|]. intros Ht. subst nom. by rewrite Ht in Hnew. }
  case_match eqn:Hsane.
  { brun. split; [by apply progress_refl|]. intros _ Ht. subst nom. by rewrite Ht in Hsane. }
  apply negb_false_iff, isSaneNomination_spec in Hsane as [_ Hsorted].
  unfold recordNomination, recordStatement. apply wp_bind. brun. apply wp_nset, wp_modify.
  apply wp_bind, wp_nget, wp_bind.
  set (s1 := set_mStatementsHistory _ _).
  assert (nom_inv s1) as Hi1 by (by apply (recorded_inv env s)).
  assert (progress s s1) as Hp1 by (split; [by apply ev_silent|done..]).
  assert (rest s1) as Hr1 by done.
  apply wp_when; [|by intros _; brun].
  intros _. eapply wp_conseq; [apply wp_react; [done|done|]|].
  - intros s2. by apply HGr.
  - cbv beta. intros _ s2 Hp2. brun. split; [by eapply progress_trans|done].
Qed.
End emit.

(** ** The recursion ends *)

Context `{!NominationDriver D}.

Definition bounded (uni : list Value) (k : nat) s : Prop :=
  closed (mSlotIndex s) uni ∧ within uni s ∧ room uni s < Z.of_nat k.

Lemma bounded_ext uni k s s' :
  np s' = np s → mSlotIndex s' = mSlotIndex s → bounded uni k s → bounded uni k s'.
Proof. unfold bounded, within, room. intros Hn Hx. by rewrite Hn, Hx. Qed.

(** Recording a statement on known values, then growing. *)
Lemma bounded_step uni k env s s1 s2 :
  let nom := pledges (getStatement env) in
  nom_inv s → recorded env s s1 → enlarged (applyAll nom) true s1 s2 →
  closed (mSlotIndex s) uni → within uni s → room uni s < Z.of_nat (S k) →
  (∀ x, x ∈ nom_votes nom ∨ x ∈ nom_accepted nom → x ∈ uni) → bounded uni k s2.
Proof.
  intros nom Hi (Hp & Ho & Hx & Hl) He Hc (W1 & W2 & W3) Hroom Hvals.
  pose proof He as (Hg & Hi2 & Hne & Hw).
  assert (mVotes (np s1) = mVotes (np s) ∧ mAccepted (np s1) = mAccepted (np s)) as [EV EA]
    by (by injection Ho).
  assert (within uni s1) as Hw1.
  { split_and!; [by rewrite EV|by rewrite EA|]. intros n e x. rewrite Hl.
    intros [[_ <-]|[_ He']]%lookup_insert_Some; [apply Hvals|by apply (W3 n)]. }
  rewrite <-Hx in Hc. split_and!.
  - by rewrite (sf_idx _ _ (gr_frame _ _ Hg)).
  - apply Hw; [done| |done]. intros v. unfold applyAll. rewrite elem_of_app, list_elem_of_filter.
    intros [?|[_ ?]]; apply Hvals; auto.
  - pose proof (room_grown uni s1 s2 (pg_inv _ _ Hp) Hi2 (gr_own _ _ Hg) (Hne eq_refl)).
    assert (room uni s1 = room uni s) by (unfold room; by rewrite EV, EA). lia.
Qed.

Lemma fresh_newer env s :
  nom_inv s → fresh s → own_envelope env s →
  isNewerNomination (mLatestNominations (np s)) (nodeID (getStatement env))
    (pledges (getStatement env)) = true ∧ isSaneNomination (pledges (getStatement env)) = true.
Proof.
  intros Hi [Hne Hf] (Hid & _ & Hp). rewrite Hid, Hp. split.
  - unfold isNewerNomination. destruct (mLatestNominations (np s) !! getNodeID L) as [e|] eqn:E;
      [|done].
    apply isNewerNomination_le; [by eapply nomi_latest|apply Hi|].
    split; [by apply (nomi_self _ Hi)|by apply Hf].
  - apply isSaneNomination_spec. split; [done|apply Hi].
Qed.

Lemma accepts_own_fuel uni k : accepts_own (bounded uni k) (processNomination_fuel D L k).
Proof.
  induction k as [|k IH]; intros env s Hown Hi Hr Hf (Hc & Hw & Hroom).
  { pose proof (room_nonneg _ _ Hi Hw). lia. }
  cbn [processNomination_fuel]. destruct (fresh_newer env s Hi Hf Hown) as [Hnew Hsane].
  destruct Hown as (Hid & Hidx & Hp).
  eapply wp_conseq; [apply (wp_processNomination_body (bounded uni k))|].
  - apply bounded_ext.
  - exact IH.
  - done.
  - done.
  - done.
  - intros _. by rewrite Hp.
  - intros s1 s2 Hrec He. eapply bounded_step; try done. rewrite Hp. simpl.
    destruct Hw as (? & ? & _). intros x [?|?]; auto.
  - cbv beta. intros r s' [Hpg Hr']. split; [by apply Hr'|done].
Qed.

(** All the values the protocol may mention from [s] on. *)
Definition universe (idx : Z) (base : list Value) : list Value :=
  base ++ omap (valueToNominate D idx) base.

Lemma universe_closed idx base : closed idx (universe idx base).
Proof.
  intros v w [Hv|Hv]%elem_of_app Hw; apply elem_of_app; right; apply list_elem_of_omap.
  - eauto.
  - apply list_elem_of_omap in Hv as (u & Hu & Huv). exists u. split; [done|].
    assert (validateValue D idx v true = kFullyValidatedValue) as Hval.
    { unfold valueToNominate in Huv. case_bool_decide as E; [congruence|].
      by eapply extracted_valid. }
    rewrite Huv. unfold valueToNominate in Hw. by rewrite bool_decide_true in Hw.
Qed.

Lemma universe_length idx base : (length (universe idx base) ≤ 2 * length base)%nat.
Proof.
  unfold universe. rewrite length_app.
  enough (length (omap (valueToNominate D idx) base) ≤ length base)%nat by lia.
  induction base as [|x base IH]; [done|]. cbn [omap list_omap length] in *.
  destruct (valueToNominate D idx x); cbn [length]; lia.
Qed.

Definition base (nom : SCPNomination) s : list Value :=
  mentioned s ++ nom_votes nom ++ nom_accepted nom.

Lemma within_base nom s : within (universe (mSlotIndex s) (base nom s)) s.
Proof.
  assert (∀ x, x ∈ mentioned s → x ∈ universe (mSlotIndex s) (base nom s)) as Hin.
  { intros x Hx. apply elem_of_app. left. apply elem_of_app. by left. }
  split_and!; intros; apply Hin; unfold mentioned; rewrite !elem_of_app; [tauto..|].
  left. apply list_elem_of_In, in_concat.
  eexists. split; [apply in_map_iff; exists (n, e); split; [done|]|].
  - by apply list_elem_of_In, elem_of_map_to_list.
  - apply list_elem_of_In, elem_of_app. tauto.
Qed.

Lemma room_base nom s :
  room (universe (mSlotIndex s) (base nom s)) s < Z.of_nat (nomination_fuel s nom).
Proof.
  pose proof (universe_length (mSlotIndex s) (base nom s)) as Hu.
  unfold base in Hu at 2. rewrite !length_app in Hu. unfold room, nomination_fuel. lia.
Qed.

(** Processing a statement; a statement of the node itself is one it signed. *)
Lemma wp_processNomination env s :
  let nom := pledges (getStatement env) in
  nom_inv s → rest s →
  (nodeID (getStatement env) = getNodeID L → nom_le nom (own s)) →
  wp (processNomination D L env)
    (λ r s', progress s s' ∧
       (isNewerNomination (mLatestNominations (np s)) (nodeID (getStatement env)) nom = true →
        isSaneNomination nom = true → r = VALID)) allowed s.
Proof.
  intros nom Hi Hr Hself. set (uni := universe (mSlotIndex s) (base nom s)).
  unfold processNomination. apply (wp_state (λ s, processNomination_fuel D L _ env)).
  pose proof (room_base nom s) as Hroom. fold nom. unfold nomination_fuel in *.
  cbn [processNomination_fuel]. set (k := (4 * _)%nat) in *.
  apply (wp_processNomination_body (bounded uni k)); try done.
  - apply bounded_ext.
  - apply accepts_own_fuel.
  - intros s1 s2 Hrec He. eapply bounded_step; try done.
    + apply universe_closed.
    + apply within_base.
    + intros x Hx. apply elem_of_app. left. apply elem_of_app. right. by apply elem_of_app.
Qed.

Lemma accepts_own_processNomination : accepts_own (λ _, True) (processNomination D L).
Proof.
  intros env s Hown Hi Hr Hf _. destruct (fresh_newer env s Hi Hf Hown) as [Hnew Hsane].
  destruct Hown as (_ & _ & Hp). eapply wp_conseq; [apply wp_processNomination; [done..|]|].
  - by rewrite Hp.
  - cbv beta. intros r s' [Hpg Hv]. auto.
Qed.

(** ** Starting a round *)

(** A step that does not change the state of the protocol. *)
Lemma enlarged_silent values c s s' s'' :
  enlarged values c s s' → np s'' = np s' → abs s'' = abs s' → same_frame s' s'' →
  signed_nominations s'' = signed_nominations s' →
  emitted_nominations s'' = emitted_nominations s' → enlarged values c s s''.
Proof.
  intros (Hg & Hi & Hc & Hw) Hn Ha Hf Hsg Hem.
  assert (own s'' = own s') as Eo by (unfold own; by rewrite Hn).
  assert (grow s' s'') as Hg' by (split; rewrite ?Hn, ?Eo; done).
  split; [by etrans|]. split; [|rewrite Eo; split; [done|]].
  - apply (grow_inv s'); rewrite ?Eo, ?Hn; try done; apply Hi.
  - unfold within. rewrite Hn. done.
Qed.

Lemma wp_takeLeaderVotes leaders values c s0 s :
  nom_inv s0 → enlarged values c s0 s →
  wp (takeLeaderVotes D leaders c) (λ r s', ∃ values', enlarged values' r s0 s') allowed s.
Proof.
  intros Hi. revert values c s.
  induction leaders as [|leader leaders IH]; intros values c s He; cbn [takeLeaderVotes];
    [apply wp_ret; eauto|].
  apply wp_bind, wp_nget. destruct (_ !! _) as [e|]; [|by eapply IH].
  apply wp_bind. eapply wp_conseq; [apply wp_takeLeaderVote; [apply He|done]|].
  cbv beta. intros took s1 H1. eapply IH. by eapply enlarged_trans.
Qed.

(** The state in which [nominate] looks for leaders. *)
Definition nominating (previousValue : Value) (n : NominationProtocol) : NominationProtocol :=
  set_mRoundNumber (i32 (mRoundNumber n + 1))
    (set_mPreviousValue previousValue (set_mNominationStarted true n)).

(** The exceptions of [nominate]: those of the other methods, or a search for
    leaders longer than [fuel] rounds. *)
Definition nominate_throws (fuel : nat) (previousValue : Value) s (e : exn) : Prop :=
  allowed e ∨
  e = OutOfFuel ∧
  updateRoundLeaders D L (mSlotIndex s) fuel (nominating previousValue (np s)) = Throw OutOfFuel.

Lemma wp_nominate fuel v previousValue timedout s :
  nom_inv s → rest s →
  wp (nominate D L fuel v previousValue timedout) (λ _ s', progress s s')
    (nominate_throws fuel previousValue s) s.
Proof.
  intros Hi Hr. unfold nominate. apply wp_bind, wp_nget.
  destruct (_ && _); [by apply wp_ret, progress_refl|].
  do 3 (apply wp_bind, wp_nset). unfold nreads. apply wp_bind. apply wp_reads; cbv beta.
  2: { intros e He. unfold nominate_throws.
       destruct (updateRoundLeaders_loop_Throw _ _ _ _ _ _ _ _ He) as [->| ->]; [by left|].
       right. split; [done|]. exact He. }
  intros n' Hn'. unfold updateRoundLeaders in Hn'.
  apply updateRoundLeaders_loop_frame in Hn' as (round & leaders & ->).
  apply wp_bind, wp_nset. cbv zeta. apply wp_bind, wp_gets, wp_bind.
  match goal with |- wp _ _ _ ?s1 => set (s0 := s1) end.
  assert (grow s s0) as Hg by (by split).
  assert (nom_inv s0) as Hi0 by (by apply (grow_inv s); [|apply Hi..]).
  eapply wp_conseq with (Q := λ c s1, enlarged [v] c s0 s1).
  { destruct (_ && _) eqn:Hc; [|apply wp_ret; by apply enlarged_refl].
    apply andb_true_iff in Hc as [_ Hc].
    apply wp_bind, wp_nset. brun. rewrite <-Hc.
    apply (enlarged_vote _ v); try done; [left|by left]. }
  cbv beta. intros c s1 H1. apply wp_bind.
  eapply wp_mono; [by eapply wp_takeLeaderVotes|..|by left].
  cbv beta. intros c2 s2 [values2 H2]. apply wp_bind, wp_call, wp_bind.
  eapply wp_mono; [apply (wp_emitWhen (λ _, True) (processNomination D L) (λ _ _ _ _ _, I)
    accepts_own_processNomination values2 _ s0)|..|by left].
  - done.
  - eapply ev_rest; [by apply grow_ev|done].
  - done.
  - by eapply enlarged_silent.
  - cbv beta. intros _ s4 [H4 _]. apply wp_ret. eapply progress_trans; [|exact H4].
    split; [by apply grow_ev|done|apply Hg..].
Qed.

(** A new slot. *)
Lemma nom_inv_init idx : nom_inv (initSlot L idx).
Proof.
  split; simpl; try done.
  - split; constructor.
  - intros nom Hn. by apply not_elem_of_nil in Hn.
  - constructor.
  - intros nom Hn. by apply not_elem_of_nil in Hn.
Qed.
End nomination.
