(* ===== verification/SlotProps.v ===== *)
(** * What a slot guarantees to the rest of the node

    The theorems on the public operations of a slot, from the symbolic execution
    of [BallotRefine] and [NominationRefine]: they refine the transition system of
    [BallotSpec], they return or end with a failed assertion or a known
    [runtime_error], and over any history of operations the invariants hold, the
    value a node is committed to never changes, what it nominated is never taken
    back, and what it emits gets strictly newer. *)

From S2P Require Import Prelude StateMonad QuorumSet ScpTypes Ballot BallotOrder.
From S2P Require Import BallotSpec BallotRefine Nomination NominationOrder Leaders.
From S2P Require Import NominationFrame NominationRefine.

(** ** The operations the rest of the node can apply to a slot *)

Inductive SlotOp : Type :=
| ReceiveEnvelope (env : EnvelopeWrapper SCPPledges)
| BumpState (v : Value) (force : bool)
| AbandonBallot
| TimerExpired
| Nominate (fuel : nat) (v previousValue : Value) (timedout : bool)
| StopNomination.

Definition runOp (D : SCPDriver) (L : LocalNode) (op : SlotOp) : slotM unit :=
  match op with
  | ReceiveEnvelope env => Slot_processEnvelope D L env false;; mret tt
  | BumpState v force => Slot_bumpState D L v force;; mret tt
  | AbandonBallot => Slot_abandonBallot D L;; mret tt
  | TimerExpired => Slot_timerExpired D L
  | Nominate fuel v previousValue timedout =>
      nominate D L fuel v previousValue timedout;; mret tt
  | StopNomination => stopNomination
  end.

(** The ballot statement an operation brings in. *)
Definition incoming_of (op : SlotOp) : BallotStatement → Prop :=
  match op with
  | ReceiveEnvelope w =>
      match split_envelope w with inl env => eq (getStatement env) | inr _ => λ _, False end
  | _ => λ _, False
  end.

(** The nomination an operation brings in is the node's own only if it signed
    it: envelopes are verified before they are handed to the slot. *)
Definition own_signed (L : LocalNode) (s : Slot) (op : SlotOp) : Prop :=
  match op with
  | ReceiveEnvelope w =>
      match split_envelope w with
      | inl _ => True
      | inr env => nodeID (getStatement env) = getNodeID L →
                   pledges (getStatement env) ∈ signed_nominations s
      end
  | _ => True
  end.

(** The drivers that behave as [SCPDriver] is documented. *)
Class DocumentedDriver (D : SCPDriver) : Prop := {
  documented_typed :: TypedDriver D;
  documented_nomination :: NominationDriver D
}.

(** The exceptions an operation may end with. *)
Definition op_throws (D : SCPDriver) (L : LocalNode) (op : SlotOp) (s : Slot) (e : exn) : Prop :=
  match op with
  | Nominate fuel _ previousValue _ => nominate_throws D L fuel previousValue s e
  | _ => allowed e
  end.

(** ** One operation *)

Lemma node_step_mono D L idx (P Q : BallotStatement → Prop) n n' :
  (∀ st, P st → Q st) → node_step D L idx P n n' → node_step D L idx Q n n'.
Proof. intros HPQ. destruct 1; try by constructor. apply step_record; naive_solver. Qed.

(** What holds between two operations. *)
Record at_rest (L : LocalNode) (s : Slot) : Prop := {
  rest_inv : node_inv (abs s);
  rest_level : level s = 0;
  rest_emit : emit_inv s;
  rest_nom : nom_inv L s
}.

Section operation.
Context (D : SCPDriver) (L : LocalNode) `{!ValidLocalNode L, !DocumentedDriver D}.
Implicit Types (s : Slot).

(** What an operation does to the ballot protocol. *)
Record ballot_ev (incoming : BallotStatement → Prop) (s s' : Slot) : Prop := {
  ballot_steps : rtc (node_step D L (mSlotIndex s) incoming) (abs s) (abs s');
  ballot_idx : mSlotIndex s' = mSlotIndex s;
  ballot_level : level s' = level s;
  ballot_emit : emit_inv s → emit_inv s'
}.

Lemma ballot_ev_ev incoming s s' : ev D L s s' → ballot_ev incoming s s'.
Proof.
  intros Hev. split; try apply Hev. eapply rtc_subrel; [|apply Hev].
  intros n n'. by apply node_step_mono.
Qed.

Lemma ballot_ev_trans incoming s1 s2 s3 :
  ballot_ev incoming s1 s2 → ballot_ev incoming s2 s3 → ballot_ev incoming s1 s3.
Proof.
  intros [S12 I12 L12 E12] [S23 I23 L23 E23]. split; [|congruence..|auto].
  etrans; [done|]. by rewrite I12 in S23.
Qed.

Lemma wp_receive env s :
  at_rest L s →
  wp (processEnvelope D L env false) (λ _ s', ballot_ev (eq (getStatement env)) s s') allowed s.
Proof.
  intros [Hinv Hl _ _]. change (processEnvelope D L) with
    (processEnvelope_body D L (processEnvelope_fuel D L 49)).
  assert (∀ s1, recordable D env s → abs s1 = record_node env (abs s) → same_frame s s1 →
    ballot_ev (eq (getStatement env)) s s1) as Hrec.
  { intros s1 Hr Ha Hf. split; try apply Hf; [|by apply same_frame_emit_inv].
    rewrite Ha. apply rtc_once, recordable_step; auto. }
  apply wp_process; [done|..].
  - apply ballot_ev_ev, ev_refl.
  - intros s1 Hr Ha Hf Hph. specialize (Hrec s1 Hr Ha Hf).
    eapply wp_conseq; [apply (wp_advanceSlot D L 49)|].
    + apply processEnvelope_fuel_spec; apply _.
    + apply valid_qset.
    + apply typed_qsets.
    + rewrite (ballot_level _ _ _ Hrec), Hl. done.
    + eapply steps_inv; [apply Hrec|done].
    + by eapply record_hint.
    + intros _ s2 [Hev _]. eapply ballot_ev_trans; [done|]. by apply ballot_ev_ev.
  - intros s1 Hr Ha Hf _. auto.
Qed.

Lemma framed_processEnvelope env self : framed (processEnvelope D L env self).
Proof. apply framed_processEnvelope_fuel. Qed.

#[local] Opaque processEnvelope.

(** What an operation does, between two calls from outside. *)
Record op_ev (incoming : BallotStatement → Prop) (s s' : Slot) : Prop := {
  op_ballot : ballot_ev incoming s s';
  op_nom : nom_inv L s';
  op_own : nom_le (own L s) (own L s');
  op_cand : ∀ x, x ∈ mCandidates (np s) → x ∈ mCandidates (np s')
}.

Lemma op_ev_progress incoming s s' : progress D L s s' → op_ev incoming s s'.
Proof. intros [Hev Hi Ho Hc]. split; [by apply ballot_ev_ev|done..]. Qed.

(** A method of the ballot protocol. *)
Lemma op_ev_frame incoming s s' :
  nom_inv L s → ballot_ev incoming s s' → nom_frame s s' → op_ev incoming s s'.
Proof.
  intros Hi Hb Hf. destruct (frame_nom L s s' Hi Hf) as (Hi' & Ho & Hc).
  split; [done..|by rewrite Ho|by rewrite Hc].
Qed.

Lemma wp_ballot_op {A} (m : slotM A) incoming s :
  nom_inv L s → framed m → wp m (λ _ s', ballot_ev incoming s s') allowed s →
  wp (m;; mret tt) (λ _ s', op_ev incoming s s') allowed s.
Proof.
  intros Hi Hf Hm. apply wp_bind. eapply wp_conseq; [by eapply keeps_wp|].
  cbv beta. intros r s' [Hb Hn]. apply wp_ret. by apply op_ev_frame.
Qed.

Lemma wp_abandon s :
  at_rest L s → wp (Slot_abandonBallot D L) (λ _ s', ballot_ev (λ _, False) s s') allowed s.
Proof.
  intros Hs. eapply wp_conseq.
  - apply (wp_abandonBallot D L 50 _ (processEnvelope_fuel_spec D L 50)); [apply Hs|].
    unfold can_process. by rewrite (rest_level _ _ Hs).
  - intros r s' [? _]. by apply ballot_ev_ev.
Qed.

Lemma wp_runOp op s :
  at_rest L s → own_signed L s op →
  wp (runOp D L op) (λ _, op_ev (incoming_of op) s) (op_throws D L op s) s.
Proof.
  intros Hs Hown. pose proof (rest_nom _ _ Hs) as Hi.
  assert (rest s) as Hr by (split; apply Hs).
  destruct op as [w|v force| | |fuel v prev timedout|]; cbn [runOp incoming_of op_throws].
  - unfold Slot_processEnvelope. cbn in Hown. destruct (split_envelope w) as [env|env].
    + apply wp_ballot_op; [done|apply framed_processEnvelope|by apply wp_receive].
    + apply wp_bind. eapply wp_conseq; [apply (wp_processNomination D L env s Hi Hr)|].
      * intros Hid. apply (nomi_signed _ _ Hi). auto.
      * cbv beta. intros r s' [Hp _]. apply wp_ret. by apply op_ev_progress.
  - apply wp_ballot_op; [done|apply framed_Slot_bumpState|].
    eapply wp_conseq; [apply (wp_Slot_bumpState D L); apply Hs|]. intros r s' ?. by apply ballot_ev_ev.
  - apply wp_ballot_op; [done|apply framed_abandonBallot, framed_processEnvelope|by apply wp_abandon].
  - apply wp_ballot_op; [done|apply framed_abandonBallot, framed_processEnvelope|by apply wp_abandon].
  - apply wp_bind. eapply wp_conseq; [exact (wp_nominate D L fuel v prev timedout s Hi Hr)|].
    cbv beta. intros r s' Hp. apply wp_ret. by apply op_ev_progress.
  - apply wp_nset, op_ev_frame; [done| |done]. by apply ballot_ev_ev, ev_silent.
Qed.
End operation.

(** ** Histories of operations *)

(** The driver's answers may change from one call to the next. *)
Definition slot_step (L : LocalNode) (s s' : Slot) : Prop :=
  ∃ D op, DocumentedDriver D ∧ own_signed L s op ∧ runOp D L op s = Ok (tt, s').

Notation reachable L idx s := (rtc (slot_step L) (initSlot L idx) s).

Section history.
Context (L : LocalNode) `{!ValidLocalNode L}.
Implicit Types (s : Slot).

Lemma at_rest_init idx : at_rest L (initSlot L idx).
Proof.
  split; [apply init_node_inv|done| |apply nom_inv_init]. split; [constructor|..].
  - intros st Hst. by apply not_elem_of_nil in Hst.
  - done.
Qed.

Lemma runOp_op_ev D op s s' :
  DocumentedDriver D → at_rest L s → own_signed L s op → runOp D L op s = Ok (tt, s') →
  op_ev D L (incoming_of op) s s'.
Proof.
  intros HD Hs Ho Hrun. pose proof (wp_runOp D L op s Hs Ho) as Hwp. by eapply wp_Ok in Hwp.
Qed.

Lemma op_ev_at_rest D incoming s s' : at_rest L s → op_ev D L incoming s s' → at_rest L s'.
Proof.
  intros [Hinv Hl He Hi] [Hb Hi' _ _]. split.
  - eapply steps_inv; [apply Hb|done].
  - rewrite (ballot_level _ _ _ _ _ Hb). done.
  - by apply Hb.
  - done.
Qed.

(** One step of a history. *)
Lemma slot_step_ev s s' :
  slot_step L s s' → at_rest L s → at_rest L s' ∧ ∃ D P, op_ev D L P s s'.
Proof.
  intros (D & op & HD & Ho & Hrun) Hs. pose proof (runOp_op_ev _ _ _ _ HD Hs Ho Hrun) as Hev.
  split; [by eapply op_ev_at_rest|eauto].
Qed.

(** A preorder respected by the operations is respected by histories. *)
Lemma slot_steps_ind (R : Slot → Slot → Prop) `{!PreOrder R} s s' :
  (∀ D P s s', at_rest L s → op_ev D L P s s' → R s s') →
  rtc (slot_step L) s s' → at_rest L s → at_rest L s' ∧ R s s'.
Proof.
  intros HR. induction 1 as [s|s1 s2 s3 H12 _ IH]; intros Hs; [done|].
  destruct (slot_step_ev _ _ H12 Hs) as (Hs2 & D & P & Hev).
  destruct (IH Hs2) as [Hs3 H23]. split; [done|]. etrans; [by eapply HR|done].
Qed.

(** A node that is past the PREPARE phase keeps its value and its phase. *)
Definition committed_le s s' : Prop :=
  phase_rank (phase s) ≤ phase_rank (phase s') ∧
  ∀ v, locked (abs s) v → locked (abs s') v.

#[local] Instance committed_le_preorder : PreOrder committed_le.
Proof.
  split; [done|]. intros s1 s2 s3 [R1 L1] [R2 L2]. split; [by etrans|auto].
Qed.

Lemma slot_steps_committed s s' :
  rtc (slot_step L) s s' → at_rest L s → at_rest L s' ∧ committed_le s s'.
Proof.
  apply (slot_steps_ind committed_le). clear. intros D P s s' Hs [Hb _ _ _]. split.
  - apply (steps_rank _ _ _ _ _ _ (ballot_steps _ _ _ _ _ Hb)).
  - intros v. eapply steps_locked; [apply Hb|apply Hs].
Qed.

Lemma reachable_at_rest idx s : reachable L idx s → at_rest L s.
Proof. intros Hr. eapply slot_steps_committed; [done|]. apply at_rest_init. Qed.

Definition nominated_le s s' : Prop :=
  nom_le (own L s) (own L s') ∧ ∀ x, x ∈ mCandidates (np s) → x ∈ mCandidates (np s').

#[local] Instance nominated_le_preorder : PreOrder nominated_le.
Proof.
  split; [done|]. intros s1 s2 s3 [O1 C1] [O2 C2]. split; [by etrans|auto].
Qed.

Lemma Ok_seq (m k : res unit) : m = Ok tt → k = Ok tt → (m;; k) = Ok tt.
Proof. by intros -> ->. Qed.

Lemma node_inv_checkInvariants s :
  node_inv (abs s) →
  (∀ b, mCurrentBallot (mBallotProtocol s) = Some b → counter b ≠ 0) →
  checkInvariants (mBallotProtocol s) = Ok tt.
Proof.
  intros [Ipp Ih Ic Icm _ _] Hz. simpl in *. unfold checkInvariants.
  destruct (mBallotProtocol s) as [? ph b p p' h c ? ? ? ? ?]; simpl in *.
  assert (∀ h0, h = Some h0 → ∃ b0, b = Some b0 ∧ areBallotsLessAndCompatible h0 b0 = true)
    as Hh by (intros h0 Hh0; destruct (Ih h0 Hh0) as (b0 & -> & ?%lc_spec); eauto).
  repeat apply Ok_seq.
  - destruct b as [b|]; [|done]. apply cassert_true, negb_true_iff, Z.eqb_neq. auto.
  - destruct p as [p|], p' as [p'|]; try done. apply cassert_true, li_spec.
    destruct (Ipp p' eq_refl) as (? & [= <-] & ?). done.
  - destruct h as [h|]; [|done]. destruct (Hh h eq_refl) as (b0 & -> & Hle). simpl.
    by rewrite Hle.
  - destruct c as [c|]; [|done]. destruct (Ic c eq_refl) as (h0 & -> & Hch%lc_spec).
    destruct (Hh h0 eq_refl) as (b0 & -> & Hle). simpl. by rewrite Hch; simpl; rewrite Hle.
  - destruct ph; [done|..]; destruct Icm as (_ & _ & [c0 ->] & _); try done.
    by destruct (Ic c0 eq_refl) as (h0 & -> & _).
Qed.

(** C6: refinement.  An operation that returns, applied to any slot between two
    operations, moves the abstract state of the node along the rules of the
    ballot protocol: statements it records are the incoming one or its own,
    ballots are accepted and confirmed as prepared or committed only through
    federated voting on the recorded statements, a vote to commit is never cast
    for a ballot aborted by one accepted as prepared, it signs only what its
    state says, and announces at most one decision, the value of its commit
    ballot in the EXTERNALIZE phase.  Nomination adds nothing but new ballots. *)
Theorem runOp_refines D op s s' :
  DocumentedDriver D → at_rest L s → own_signed L s op → runOp D L op s = Ok (tt, s') →
  rtc (node_step D L (mSlotIndex s) (incoming_of op)) (abs s) (abs s') ∧ at_rest L s'.
Proof.
  intros HD Hs Ho Hrun. pose proof (runOp_op_ev _ _ _ _ HD Hs Ho Hrun) as Hev.
  split; [apply Hev|by eapply op_ev_at_rest].
Qed.

(** C7: from every reachable slot, every operation returns or ends with a failed
    assertion or with one of two known [runtime_error]s, none of them about
    nomination; [nominate] may also not find a new leader within [fuel] rounds.
    No null pointer is dereferenced, the bump loop, the recursion between
    [advanceSlot] and [processEnvelope] and that of the nomination protocol on
    the node's own statements end. *)
Theorem runOp_returns D idx s op :
  DocumentedDriver D → reachable L idx s → own_signed L s op →
  (∃ s', runOp D L op s = Ok (tt, s')) ∨
  runOp D L op s = Throw AssertFailure ∨
  (∃ msg, msg ∈ ballot_errors ∧ runOp D L op s = Throw (RuntimeError msg)) ∨
  (∃ fuel v prev timedout, op = Nominate fuel v prev timedout ∧
     updateRoundLeaders D L (mSlotIndex s) fuel (nominating prev (np s)) = Throw OutOfFuel ∧
     runOp D L op s = Throw OutOfFuel).
Proof.
  intros HD Hs%reachable_at_rest Ho. pose proof (wp_runOp D L op s Hs Ho) as Hwp.
  destruct (runOp D L op s) as [[[] s']|e] eqn:Hrun; [eauto|]. right.
  eapply wp_Throw in Hwp; [|exact Hrun].
  assert (allowed e → e = AssertFailure ∨ ∃ msg, msg ∈ ballot_errors ∧ e = RuntimeError msg) as Ha.
  { destruct e as [| |msg| | | | | |]; try done; [by left|]. intros Hm. right. exists msg.
    split; [|done]. apply existsb_exists in Hm as (m & Hin & ->%String.eqb_eq).
    by apply list_elem_of_In. }
  destruct op; cbn in Hwp; try (destruct (Ha Hwp) as [->|(msg & ? & ->)]; eauto).
  destruct Hwp as [Hwp|[-> Hwp]]; [destruct (Ha Hwp) as [->|(msg & ? & ->)]; eauto|].
  right. right. eauto 10.
Qed.

(** C19: in every reachable slot [checkInvariants] succeeds as soon as the counter
    of the current ballot is not zero: the prepared ballots are ordered and
    incompatible, c <= h <= b and all three are compatible, and the phases CONFIRM
    and EXTERNALIZE have their ballots set. *)
Theorem reachable_checkInvariants idx s :
  reachable L idx s →
  (∀ b, mCurrentBallot (mBallotProtocol s) = Some b → counter b ≠ 0) →
  checkInvariants (mBallotProtocol s) = Ok tt.
Proof.
  intros Hs%reachable_at_rest Hz. apply node_inv_checkInvariants; [apply Hs|done].
Qed.

(** C18: what a slot emits to the network gets strictly newer: of two ballot
    statements emitted by a reachable slot, the later one is newer in the sense
    of [isNewerStatement], which makes its peers accept it. *)
Theorem reachable_emissions idx s :
  reachable L idx s →
  StronglySorted (λ new old, isNewerStatement_st old new = true) (emitted s).
Proof. intros Hs%reachable_at_rest. apply Hs. Qed.

(** C17: a commitment is final.  Once a reachable slot is past the PREPARE phase
    with a commit ballot, it stays past it and keeps the value of its commit
    ballot through any further operations; and it announces at most one decision,
    for that value. *)
Theorem commitment_is_final idx s s' c :
  reachable L idx s → phase s ≠ SCP_PHASE_PREPARE → mCommit (mBallotProtocol s) = Some c →
  rtc (slot_step L) s s' →
  phase_rank (phase s) ≤ phase_rank (phase s') ∧
  (∃ c', mCommit (mBallotProtocol s') = Some c' ∧ value c' = value c) ∧
  (n_decided (abs s') = [] ∨ n_decided (abs s') = [value c]).
Proof.
  intros Hs%reachable_at_rest Hph Hc Hst.
  destruct (slot_steps_committed _ _ Hst Hs) as [Hs' [Hrank Hlocked]].
  destruct (Hlocked (value c)) as (_ & c' & Hc' & Hv); [split; [done|eauto]|].
  split; [done|]. split; [by eauto|].
  destruct (inv_decided _ (rest_inv _ _ Hs')) as [?|(_ & c2 & Hc2 & Hd)]; [auto|right].
  congruence.
Qed.

(** C21: nomination sets.  In every reachable slot the candidates are accepted
    values and the accepted values are votes, and the votes and accepted values
    are sorted sets, as are those of every statement recorded. *)
Theorem reachable_nomination_sets idx s :
  reachable L idx s →
  (∀ x, x ∈ mCandidates (np s) → x ∈ mAccepted (np s)) ∧
  (∀ x, x ∈ mAccepted (np s) → x ∈ mVotes (np s)) ∧
  increasing (mVotes (np s)) ∧ increasing (mAccepted (np s)) ∧
  (∀ n e, mLatestNominations (np s) !! n = Some e →
     sorted_nomination (pledges (getStatement e))).
Proof.
  intros Hs%reachable_at_rest. destruct (rest_nom _ _ Hs) as [[HV HA] Hsub Hc Hl _ _ _ _ _].
  done.
Qed.

(** C20: what a slot emits as nominations gets strictly newer: of two nominations
    emitted by a reachable slot, the later one is newer in the sense of
    [isNewerStatement], which makes its peers accept it; and a nomination is
    never taken back, through any further operations the votes, the accepted
    values and the candidates of the node only grow. *)
Theorem reachable_nominations idx s s' :
  reachable L idx s → rtc (slot_step L) s s' →
  StronglySorted (λ new old, isNewerNomination_st old new = true) (emitted_nominations s') ∧
  nom_le (own L s) (own L s') ∧
  (∀ x, x ∈ mCandidates (np s) → x ∈ mCandidates (np s')).
Proof.
  intros Hs%reachable_at_rest Hst.
  destruct (slot_steps_ind nominated_le s s') as [Hs' Hle]; [|done..|].
  - intros D P s1 s2 _ [_ _ Ho Hc]. done.
  - split; [apply (nomi_sorted _ _ (rest_nom _ _ Hs'))|done].
Qed.
End history.

(** ** A standalone validator and one of three validators *)

Module Examples.
Definition driverOf (q : SCPQuorumSet) : SCPDriver :=
  mkSCPDriver (λ _ _ _, kFullyValidatedValue) (λ _ v, Some v)
    (λ h, if bool_decide (h = [7]) then Some q else None)
    (λ _, []) (λ _ _ _ _ _, 0) (λ _ _ _ _, 0) (λ _ vs, head vs).

Definition qset1 : SCPQuorumSet := QSet 1 [[1]] [].
Definition qset3 : SCPQuorumSet := QSet 2 [[1]; [2]; [3]] [].
Definition node1 : LocalNode := mkLocalNode [1] true qset1 [7].
Definition node3 : LocalNode := mkLocalNode [1] true qset3 [7].

#[export] Instance node1_valid : ValidLocalNode node1.
Proof. constructor; [widths; simpl; lia|constructor]. Qed.

#[export] Instance node3_valid : ValidLocalNode node3.
Proof. constructor; [widths; simpl; lia|constructor]. Qed.

Lemma driverOf_documented q : typed q → DocumentedDriver (driverOf q).
Proof.
  intros Hq. split.
  - intros h q'. simpl. case_bool_decide; [|done]. by intros [= <-].
  - split; [done|]. intros idx [|v vs] Hv; [done|]. simpl. eauto.
Qed.

#[export] Instance driver1_documented : DocumentedDriver (driverOf qset1).
Proof. apply driverOf_documented. constructor; [widths; simpl; lia|constructor]. Qed.

#[export] Instance driver3_documented : DocumentedDriver (driverOf qset3).
Proof. apply driverOf_documented. constructor; [widths; simpl; lia|constructor]. Qed.

(** The slot after an operation. *)
Definition after (D : SCPDriver) (L : LocalNode) (op : SlotOp) (s : Slot) : Slot :=
  match runOp D L op s with Ok (_, s') => s' | Throw _ => s end.

Definition slot1 : Slot := initSlot node1 5.
Definition slot1_decided : Slot := after (driverOf qset1) node1 (BumpState [9] false) slot1.
Definition slot1_later : Slot := after (driverOf qset1) node1 AbandonBallot slot1_decided.
Definition slot3 : Slot := initSlot node3 5.
Definition slot3_voted : Slot := after (driverOf qset3) node3 (BumpState [9] false) slot3.

(** A peer's vote to prepare the same ballot. *)
Definition vote3 (n : NodeID) : EnvelopeWrapper SCPPledges :=
  mkWrapper 100 (mkEnvelope (mkStatement n 5
    (inl (SCP_ST_PREPARE (mkPrepare [7] (mkSCPBallot 1 [9]) None None 0 0)))) []).
Definition slot3_accepted : Slot :=
  after (driverOf qset3) node3 (ReceiveEnvelope (vote3 [2])) slot3_voted.

Lemma reach1 : rtc (slot_step node1) slot1 slot1_decided.
Proof.
  apply rtc_once. exists (driverOf qset1), (BumpState [9] false). split; [apply _|]. split; [exact I|].
  vm_compute. reflexivity.
Qed.

Lemma reach3 : rtc (slot_step node3) slot3 slot3_voted.
Proof.
  apply rtc_once. exists (driverOf qset3), (BumpState [9] false). split; [apply _|]. split; [exact I|].
  vm_compute. reflexivity.
Qed.
End Examples.
Import Examples.

Lemma runOp_refines_witness :
  mPrepared (mBallotProtocol slot3_accepted) = Some (mkSCPBallot 1 [9]) ∧
  rtc (node_step (driverOf qset3) node3 5 (incoming_of (ReceiveEnvelope (vote3 [2]))))
    (abs slot3_voted) (abs slot3_accepted) ∧ at_rest node3 slot3_accepted.
Proof.
  split; [vm_compute; reflexivity|].
  apply (runOp_refines node3 (driverOf qset3) (ReceiveEnvelope (vote3 [2])) slot3_voted).
  - apply _.
  - apply (reachable_at_rest node3 5), reach3.
  - exact I.
  - vm_compute. reflexivity.
Defined.

Lemma runOp_returns_witness :
  let op := ReceiveEnvelope (vote3 [2]) in
  let D := driverOf qset3 in
  (∃ s', runOp D node3 op slot3_voted = Ok (tt, s')) ∨
  runOp D node3 op slot3_voted = Throw AssertFailure ∨
  (∃ msg, msg ∈ ballot_errors ∧ runOp D node3 op slot3_voted = Throw (RuntimeError msg)) ∨
  (∃ fuel v prev timedout, op = Nominate fuel v prev timedout ∧
     updateRoundLeaders D node3 (mSlotIndex slot3_voted) fuel (nominating prev (np slot3_voted)) =
     Throw OutOfFuel ∧
     runOp D node3 op slot3_voted = Throw OutOfFuel).
Proof.
  apply (runOp_returns node3 (driverOf qset3) 5 slot3_voted); [apply _|apply reach3|exact I].
Defined.

Lemma reachable_checkInvariants_witness :
  mPhase (mBallotProtocol slot1_decided) = SCP_PHASE_EXTERNALIZE ∧
  checkInvariants (mBallotProtocol slot1_decided) = Ok tt.
Proof.
  split; [vm_compute; reflexivity|].
  apply (reachable_checkInvariants node1 5); [apply reach1|].
  vm_compute. by intros ? [= <-].
Defined.

Lemma reachable_emissions_witness :
  length (emitted slot3_accepted) = 2%nat ∧
  StronglySorted (λ new old, isNewerStatement_st old new = true) (emitted slot3_accepted).
Proof.
  split; [vm_compute; reflexivity|]. apply (reachable_emissions node3 5).
  eapply rtc_r; [apply reach3|].
  exists (driverOf qset3), (ReceiveEnvelope (vote3 [2])). split; [apply _|]. split; [exact I|].
  vm_compute. reflexivity.
Defined.

Lemma commitment_is_final_witness :
  phase_rank (phase slot1_decided) ≤ phase_rank (phase slot1_later) ∧
  (∃ c', mCommit (mBallotProtocol slot1_later) = Some c' ∧ value c' = [9]) ∧
  (n_decided (abs slot1_later) = [] ∨ n_decided (abs slot1_later) = [[9]]).
Proof.
  apply (commitment_is_final node1 5 slot1_decided slot1_later (mkSCPBallot 1 [9])).
  - apply reach1.
  - vm_compute. discriminate.
  - vm_compute. reflexivity.
  - apply rtc_once. exists (driverOf qset1), AbandonBallot. split; [apply _|]. split; [exact I|].
    vm_compute. reflexivity.
Defined.

(** Node 1 nominates its value, then hears from a peer that votes for it. *)
Definition slot3_nominated : Slot :=
  after (driverOf qset3) node3 (Nominate 10 [9] [1] false) slot3.

Definition nomination3 (n : NodeID) : EnvelopeWrapper SCPPledges :=
  mkWrapper 100 (mkEnvelope (mkStatement n 5 (inr (mkNomination [7] [[9]] [[9]]))) []).

Definition slot3_candidate : Slot :=
  after (driverOf qset3) node3 (ReceiveEnvelope (nomination3 [2])) slot3_nominated.

Lemma reach_nominated : rtc (slot_step node3) slot3 slot3_nominated.
Proof.
  apply rtc_once. exists (driverOf qset3), (Nominate 10 [9] [1] false).
  split; [apply _|]. split; [exact I|]. vm_compute. reflexivity.
Qed.

Lemma reach_candidate : rtc (slot_step node3) slot3_nominated slot3_candidate.
Proof.
  apply rtc_once. exists (driverOf qset3), (ReceiveEnvelope (nomination3 [2])).
  split; [apply _|]. split; [by intros ?|]. vm_compute. reflexivity.
Qed.

Lemma reachable_nomination_sets_witness :
  mCandidates (np slot3_candidate) = [[9]] ∧
  (∀ x, x ∈ mCandidates (np slot3_candidate) → x ∈ mAccepted (np slot3_candidate)).
Proof.
  split; [vm_compute; reflexivity|].
  apply (reachable_nomination_sets node3 5 slot3_candidate).
  etrans; [apply reach_nominated|apply reach_candidate].
Defined.

Lemma reachable_nominations_witness :
  length (emitted_nominations slot3_candidate) = 2%nat ∧
  StronglySorted (λ new old, isNewerNomination_st old new = true)
    (emitted_nominations slot3_candidate) ∧
  nom_le (own node3 slot3_nominated) (own node3 slot3_candidate) ∧
  (∀ x, x ∈ mCandidates (np slot3_nominated) → x ∈ mCandidates (np slot3_candidate)).
Proof.
  split; [vm_compute; reflexivity|].
  apply (reachable_nominations node3 5); [apply reach_nominated|apply reach_candidate].
Defined.

(** ** Counters at the ends of their range *)

Module Counters.
(** A node that trusts one peer. *)
Definition qset2 : SCPQuorumSet := QSet 1 [[2]] [].
Definition follower : LocalNode := mkLocalNode [1] true qset2 [7].
Definition prepare2 (b : SCPBallot) (p : option SCPBallot) : EnvelopeWrapper SCPPledges :=
  mkWrapper 100
    (mkEnvelope (mkStatement [2] 5 (inl (SCP_ST_PREPARE (mkPrepare [7] b p None 0 0)))) []).

(** A statement that is sane and claims to have accepted (0, x) as prepared makes
    the node confirm (0, x) and move to it: the check that the current ballot
    never has counter zero fails. *)
Theorem zero_counter_aborts :
  let env := prepare2 (mkSCPBallot 1 [9]) (Some (mkSCPBallot 0 [9])) in
  match split_envelope env with
  | inl e => isStatementSane (driverOf qset2) (getStatement e) false = true
  | inr _ => False
  end ∧
  runOp (driverOf qset2) follower (ReceiveEnvelope env) (initSlot follower 5) =
  Throw AssertFailure.
Proof. vm_compute. done. Qed.

(** A v-blocking peer on the largest counter brings the node to it; when the
    ballot timer then expires the counter wraps to zero and the check that
    ballots only grow fails. *)
Theorem max_counter_aborts :
  let env := prepare2 (mkSCPBallot UINT32_MAX [8]) None in
  let s := after (driverOf qset2) follower (BumpState [9] false) (initSlot follower 5) in
  let s' := after (driverOf qset2) follower (ReceiveEnvelope env) s in
  mCurrentBallot (mBallotProtocol s') = Some (mkSCPBallot UINT32_MAX [9]) ∧
  runOp (driverOf qset2) follower TimerExpired s' = Throw AssertFailure.
Proof. vm_compute. done. Qed.
End Counters.
