(* ===== verification/Scp.v ===== *)
(** * The SCP object

    Models [scp/SCP.cpp]: the node's slots, by index, and the calls the rest of
    the node makes.  The theorem says that the slots are independent of each
    other: after any history of calls each slot is in a state reachable by the
    operations on that slot alone, and, unless a saved state was restored or the
    local quorum set was changed, by those of [SlotProps], so that the guarantees of
    [SlotProps] hold for all of them, until they are purged. *)

From stdpp Require Import sorting.
From S2P Require Import Prelude StateMonad QuorumSet ScpTypes Ballot Nomination.
From S2P Require Import BallotSpec BallotRefine NominationFrame NominationRefine SlotProps.

Record SCP : Type := mkSCP {
  mLocalNode : LocalNode;
  mKnownSlots : gmap Z Slot
}.

Definition set_mKnownSlots (m : gmap Z Slot) (p : SCP) : SCP := mkSCP (mLocalNode p) m.
Definition set_mLocalNode (L : LocalNode) (p : SCP) : SCP := mkSCP L (mKnownSlots p).

Notation scpM := (M SCP).

Definition initSCP (L : LocalNode) : SCP := mkSCP L ∅.

(** ** Slots *)

Definition getSlot (slotIndex : Z) (create : bool) : scpM (option Slot) :=
  slots ← gets mKnownSlots;
  match slots !! slotIndex with
  | Some s => mret (Some s)
  | None =>
      if create then
        L ← gets mLocalNode;
        let s := initSlot L slotIndex in
        modify (set_mKnownSlots (<[ slotIndex := s ]> slots));;
        mret (Some s)
      else mret None
  end.

(** Runs a method on a slot, which is shared with the map. *)
Definition onSlot {A} (slotIndex : Z) (s : Slot) (m : LocalNode → slotM A) : scpM A := λ p,
  match m (mLocalNode p) s with
  | Ok (a, s') => Ok (a, set_mKnownSlots (<[ slotIndex := s' ]> (mKnownSlots p)) p)
  | Throw e => Throw e
  end.

(** Runs a method on a slot, created if it is not known. *)
Definition onSlotCreated {A} (slotIndex : Z) (m : LocalNode → slotM A) : scpM A :=
  slot ← getSlot slotIndex true;
  s ← reads (λ _, deref slot);
  onSlot slotIndex s m.

(** Runs a method on a slot, if it is known. *)
Definition onSlotIfKnown (slotIndex : Z) (m : LocalNode → slotM unit) : scpM unit :=
  slot ← getSlot slotIndex false;
  match slot with Some s => onSlot slotIndex s m | None => mret tt end.

Section calls.
Context (D : SCPDriver).

Definition SCP_receiveEnvelope (envelope : EnvelopeWrapper SCPPledges) : scpM EnvelopeState :=
  let index := slotIndex (statement (getEnvelope envelope)) in
  onSlotCreated index (λ L, Slot_processEnvelope D L envelope false).

Definition SCP_nominate (fuel : nat) (slotIndex : Z) (value previousValue : Value) : scpM bool :=
  validator ← gets (isValidator ∘ mLocalNode);
  dbgAssert validator;;
  onSlotCreated slotIndex (λ L, nominate D L fuel value previousValue false).

Definition SCP_stopNomination (slotIndex : Z) : scpM unit :=
  onSlotIfKnown slotIndex (λ _, stopNomination).

Definition SCP_setStateFromEnvelope (slotIndex : Z) (e : EnvelopeWrapper SCPPledges)
    : scpM unit :=
  onSlotCreated slotIndex (λ L, Slot_setStateFromEnvelope L e).

(** The slots below [maxSlotIndex] are erased. *)
Definition SCP_purgeSlots (maxSlotIndex : Z) : scpM unit :=
  modify (λ p, set_mKnownSlots (filter (λ it, ¬ it.1 < maxSlotIndex) (mKnownSlots p)) p).

(** The callbacks of the timers of a slot. *)
Definition SCP_timerFired (fuel : nat) (slotIndex : Z) (cb : TimerCallback) : scpM unit :=
  onSlotIfKnown slotIndex
    (λ L, match cb with
          | NoCallback => mret tt
          | BallotProtocolTimerExpired => Slot_timerExpired D L
          | NominateTimedOut v previousValue => nominate D L fuel v previousValue true;; mret tt
          end).

(** [quorumSetHash] is the driver's hash of the XDR of a quorum set. *)
Definition SCP_updateLocalQuorumSet (quorumSetHash : SCPQuorumSet → Hash) (qSet : SCPQuorumSet)
    : scpM unit :=
  modify (λ p, set_mLocalNode
    (mkLocalNode (getNodeID (mLocalNode p)) (isValidator (mLocalNode p)) qSet
       (quorumSetHash qSet)) p).
End calls.

(** ** Reporting *)

Definition isSlotFullyValidated (slotIndex : Z) (p : SCP) : bool :=
  match mKnownSlots p !! slotIndex with Some s => mFullyValidated s | None => false end.

Definition getKnownSlotsCount (p : SCP) : nat := size (mKnownSlots p).

Definition getCumulativeStatemtCount (p : SCP) : nat :=
  foldr (λ it c, length (mStatementsHistory it.2) + c)%nat 0%nat (map_to_list (mKnownSlots p)).

Definition SCP_getLatestMessagesSend (slotIndex : Z) (p : SCP) : list SCPEnvelope :=
  match mKnownSlots p !! slotIndex with Some s => getLatestMessagesSend s | None => [] end.

Definition SCP_empty (p : SCP) : bool := bool_decide (mKnownSlots p = ∅).

(** The indices of the slots, ascending. *)
Definition slotIndices (p : SCP) : list Z := merge_sort Z.le (map_to_list (mKnownSlots p)).*1.

(** The slots from [startingSlot] on that the visitor is called with: it stops
    at the first one for which [f] answers no. *)
Fixpoint visitSlots (f : Z → bool) (l : list Z) : list Z :=
  match l with
  | [] => []
  | i :: l' => if f i then i :: visitSlots f l' else [i]
  end.

Definition processSlotsAscendingFrom (startingSlot : Z) (f : Z → bool) (p : SCP) : list Z :=
  visitSlots f (filter (λ i, startingSlot ≤ i) (slotIndices p)).

Definition SCP_processCurrentState (slotIndex : Z) (f : SCPEnvelope → bool) (forceSelf : bool)
    (p : SCP) : list SCPEnvelope :=
  match mKnownSlots p !! slotIndex with
  | Some s => Slot_processCurrentState (mLocalNode p) s f forceSelf
  | None => []
  end.

(** The message of the highest slot that has one. *)
Definition SCP_getLatestMessage (id : NodeID) (p : SCP) : option SCPEnvelope :=
  foldr (λ i rest,
           match mKnownSlots p !! i ≫= λ s, Slot_getLatestMessage s id with
           | Some e => Some e
           | None => rest
           end) None (rev (slotIndices p)).

Definition SCP_getExternalizingState (slotIndex : Z) (p : SCP) : res (list SCPEnvelope) :=
  match mKnownSlots p !! slotIndex with
  | Some s => getExternalizingState (mLocalNode p) s
  | None => mret []
  end.

(** ** The calls of the rest of the node *)

Inductive ScpCall : Type :=
| CallReceive (envelope : EnvelopeWrapper SCPPledges)
| CallNominate (fuel : nat) (slotIndex : Z) (value previousValue : Value)
| CallStopNomination (slotIndex : Z)
| CallTimer (fuel : nat) (slotIndex : Z) (cb : TimerCallback)
| CallPurge (maxSlotIndex : Z)
| CallSetState (slotIndex : Z) (e : EnvelopeWrapper SCPPledges)
| CallUpdateQuorumSet (quorumSetHash : SCPQuorumSet → Hash) (qSet : SCPQuorumSet).

Definition runCall (D : SCPDriver) (c : ScpCall) : scpM unit :=
  match c with
  | CallReceive envelope => SCP_receiveEnvelope D envelope;; mret tt
  | CallNominate fuel i v prev => SCP_nominate D fuel i v prev;; mret tt
  | CallStopNomination i => SCP_stopNomination i
  | CallTimer fuel i cb => SCP_timerFired D fuel i cb
  | CallPurge max => SCP_purgeSlots max
  | CallSetState i e => SCP_setStateFromEnvelope i e
  | CallUpdateQuorumSet quorumSetHash qSet => SCP_updateLocalQuorumSet quorumSetHash qSet
  end.

(** The calls other than those a node makes when it starts on a saved state or changes
    its quorum set. *)
Definition ordinary (c : ScpCall) : Prop :=
  match c with CallSetState _ _ | CallUpdateQuorumSet _ _ => False | _ => True end.

(** The slot a call is about. *)
Definition call_slot (c : ScpCall) : option Z :=
  match c with
  | CallReceive envelope => Some (slotIndex (statement (getEnvelope envelope)))
  | CallNominate _ i _ _ | CallStopNomination i | CallTimer _ i _ | CallSetState i _ => Some i
  | CallPurge _ | CallUpdateQuorumSet _ _ => None
  end.

(** A slot, or the one that would be created. *)
Definition slotOf (p : SCP) (i : Z) : Slot :=
  default (initSlot (mLocalNode p) i) (mKnownSlots p !! i).

(** Envelopes are verified before they are handed over. *)
Definition call_signed (p : SCP) (c : ScpCall) : Prop :=
  match c with
  | CallReceive envelope =>
      own_signed (mLocalNode p) (slotOf p (slotIndex (statement (getEnvelope envelope))))
        (ReceiveEnvelope envelope)
  | _ => True
  end.

Section calls.
Context (D : SCPDriver) `{!DocumentedDriver D}.
Implicit Types (p : SCP).

(** What a call does to the slots: operations on the slot it is about, which
    is created if needed, nothing on the others. *)
Definition one_slot (R : Slot → Slot → Prop) (i : Z) p p' : Prop :=
  mLocalNode p' = mLocalNode p ∧
  (∀ j, j ≠ i → mKnownSlots p' !! j = mKnownSlots p !! j) ∧
  (mKnownSlots p' !! i = mKnownSlots p !! i ∨
   ∃ s', mKnownSlots p' !! i = Some s' ∧ rtc R (slotOf p i) s').

Lemma onSlotCreated_Ok {A} i (m : LocalNode → slotM A) p a p' :
  onSlotCreated i m p = Ok (a, p') →
  ∃ s', m (mLocalNode p) (slotOf p i) = Ok (a, s') ∧
        p' = set_mKnownSlots (<[i:=s']> (mKnownSlots p)) p.
Proof.
  unfold onSlotCreated, getSlot, slotOf, onSlot, reads, mbind, M_bind, mret, M_ret, gets, modify. cbn.
  destruct (mKnownSlots p !! i) as [s|] eqn:Hs; cbn.
  - destruct (m (mLocalNode p) s) as [[a' s']|]; [|done]. intros [= <- <-]. eauto.
  - destruct (m (mLocalNode p) _) as [[a' s']|]; [|done]. intros [= <- <-].
    exists s'. split; [done|]. destruct p. unfold set_mKnownSlots. simpl.
    by rewrite insert_insert_eq.
Qed.

Lemma onSlotIfKnown_Ok i (m : LocalNode → slotM unit) p p' :
  onSlotIfKnown i m p = Ok (tt, p') →
  p' = p ∨
  ∃ s', m (mLocalNode p) (slotOf p i) = Ok (tt, s') ∧
        p' = set_mKnownSlots (<[i:=s']> (mKnownSlots p)) p.
Proof.
  unfold onSlotIfKnown, getSlot, slotOf, onSlot, mbind, M_bind, mret, M_ret, gets. cbn.
  destruct (mKnownSlots p !! i) as [s|] eqn:Hs; cbn; [|by intros [= <-]; left].
  destruct (m (mLocalNode p) s) as [[[] s']|]; [|done]. intros [= <-]. eauto.
Qed.

Lemma one_slot_step (R : Slot → Slot → Prop) i p s' :
  rtc R (slotOf p i) s' → one_slot R i p (set_mKnownSlots (<[i:=s']> (mKnownSlots p)) p).
Proof.
  intros Hs. split; [done|]. simpl. split.
  - intros j Hj. by rewrite lookup_insert_ne.
  - right. exists s'. by rewrite lookup_insert_eq.
Qed.

Lemma one_slot_op i p s' op :
  own_signed (mLocalNode p) (slotOf p i) op →
  runOp D (mLocalNode p) op (slotOf p i) = Ok (tt, s') →
  one_slot (slot_step (mLocalNode p)) i p (set_mKnownSlots (<[i:=s']> (mKnownSlots p)) p).
Proof. intros Ho Hrun. apply one_slot_step, rtc_once. by exists D, op. Qed.

Lemma one_slot_refl R i p : one_slot R i p p.
Proof. split; [done|]. auto. Qed.

Lemma runOp_ret {A} (m : slotM A) s a s' : m s = Ok (a, s') → (m;; mret tt) s = Ok (tt, s').
Proof. intros Hm. unfold mbind, M_bind. by rewrite Hm. Qed.

Lemma ret_Ok {A} (m : scpM A) p p' : (m;; mret tt) p = Ok (tt, p') → ∃ a, m p = Ok (a, p').
Proof. unfold mbind, M_bind. destruct (m p) as [[a q]|]; [|done]. intros [= <-]. eauto. Qed.

Lemma runCall_one_slot c i p p' :
  ordinary c → call_slot c = Some i → call_signed p c → runCall D c p = Ok (tt, p') →
  one_slot (slot_step (mLocalNode p)) i p p'.
Proof.
  intros Hord Hc Hsig Hrun.
  destruct c as [w|fuel k v prev|k|fuel k cb|max|k e|h q]; try done; injection Hc as <-;
    cbn [runCall] in Hrun.
  - apply ret_Ok in Hrun as (r & (s' & Hs & ->)%onSlotCreated_Ok).
    apply (one_slot_op _ _ _ (ReceiveEnvelope w)); [done|]. by eapply runOp_ret.
  - apply ret_Ok in Hrun as (r & Hrun). unfold SCP_nominate, dbgAssert, mbind at 1 2, M_bind at 1 2, gets in Hrun.
    cbn in Hrun. destruct (isValidator (mLocalNode p)); [|done].
    apply onSlotCreated_Ok in Hrun as (s' & Hs & ->).
    apply (one_slot_op _ _ _ (Nominate fuel v prev false)); [done|]. by eapply runOp_ret.
  - apply onSlotIfKnown_Ok in Hrun as [->|(s' & Hs & ->)]; [apply one_slot_refl|].
    by apply (one_slot_op _ _ _ StopNomination).
  - apply onSlotIfKnown_Ok in Hrun as [->|(s' & Hs & ->)]; [apply one_slot_refl|].
    destruct cb as [| |v prev].
    + injection Hs as <-. by apply one_slot_step.
    + by apply (one_slot_op _ _ _ TimerExpired).
    + by apply (one_slot_op _ _ _ (Nominate fuel v prev true)).
Qed.
End calls.

(** ** Histories of calls *)

(** The calls so far, made on a new object of a node. *)
Inductive scp_history (L : LocalNode) : list ScpCall → SCP → Prop :=
| scp_history_new : scp_history L [] (initSCP L)
| scp_history_call calls p D c p' :
    scp_history L calls p → DocumentedDriver D → call_signed p c → runCall D c p = Ok (tt, p') →
    scp_history L (calls ++ [c]) p'.

(** What can happen to a slot by itself: one of its operations, with the quorum set the
    node has at the time, or its state set from a message the node had sent. *)
Inductive slot_change (s s' : Slot) : Prop :=
| slot_change_op L : slot_step L s s' → slot_change s s'
| slot_change_restore L e : Slot_setStateFromEnvelope L e s = Ok (tt, s') → slot_change s s'.

(** What every history of calls keeps. *)
Definition scp_inv (p : SCP) : Prop :=
  ∀ i s, mKnownSlots p !! i = Some s → ∃ L, rtc slot_change (initSlot L i) s.

(** What ordinary calls keep as well. *)
Definition scp_ordinary (L : LocalNode) (p : SCP) : Prop :=
  mLocalNode p = L ∧ ∀ i s, mKnownSlots p !! i = Some s → reachable L i s.

Lemma one_slot_cases R i j p p' s :
  one_slot R i p p' → mKnownSlots p' !! j = Some s →
  mKnownSlots p !! j = Some s ∨ (j = i ∧ rtc R (slotOf p i) s).
Proof.
  intros (_ & Hother & Hi) Hj. destruct (decide (j = i)) as [->|Hne]; [|left; by rewrite <-Hother].
  destruct Hi as [Hi|(s' & Hi & Hst)]; [left; congruence|]. right. split; [done|]. congruence.
Qed.

Lemma slotOf_history p i : scp_inv p → ∃ L, rtc slot_change (initSlot L i) (slotOf p i).
Proof.
  intros Hs. unfold slotOf. destruct (mKnownSlots p !! i) as [s|] eqn:E; simpl; [by apply Hs|].
  by exists (mLocalNode p).
Qed.

Lemma runCall_change D `{!DocumentedDriver D} c i p p' :
  call_slot c = Some i → call_signed p c → runCall D c p = Ok (tt, p') → one_slot slot_change i p p'.
Proof.
  intros Hc Hsig Hrun. assert (ordinary c ∨ ∃ e, c = CallSetState i e) as [Hord|[e ->]].
  { destruct c; simpl in *; try (by left). injection Hc as <-. right. eauto. }
  - destruct (runCall_one_slot D c i p p' Hord Hc Hsig Hrun) as (HL & Hother & Hi). split_and!; [done|done|].
    destruct Hi as [Hi|(s' & Hi & Hst)]; [by left|]. right. exists s'. split; [done|].
    eapply rtc_subrel; [|exact Hst]. intros s1 s2. apply slot_change_op.
  - cbn [runCall] in Hrun. apply onSlotCreated_Ok in Hrun as (s' & Hs & ->).
    apply one_slot_step, rtc_once. by eapply slot_change_restore.
Qed.

Lemma purge_known max p p' i s :
  SCP_purgeSlots max p' = Ok (tt, p) → mKnownSlots p !! i = Some s → mKnownSlots p' !! i = Some s.
Proof. intros [= <-] Hi. simpl in Hi. by apply map_lookup_filter_Some in Hi as [? _]. Qed.

Lemma scp_history_inv L calls p : scp_history L calls p → scp_inv p.
Proof.
  induction 1 as [|calls p D c p' _ IH HD Hsig Hrun]; intros j s Hj.
  { simpl in Hj. by rewrite lookup_empty in Hj. }
  destruct (call_slot c) as [i|] eqn:Hc.
  - pose proof (runCall_change D c i p p' Hc Hsig Hrun) as Hone.
    destruct (one_slot_cases _ _ _ _ _ _ Hone Hj) as [Hj'|[-> Hst]]; [by apply IH|].
    destruct (slotOf_history p i IH) as [L0 H0]. exists L0. by etrans.
  - destruct c; try done; cbn [runCall] in Hrun.
    + by eapply IH, purge_known.
    + injection Hrun as <-. by apply IH.
Qed.

Lemma scp_history_ordinary L calls p : scp_history L calls p → Forall ordinary calls → scp_ordinary L p.
Proof.
  induction 1 as [|calls p D c p' _ IH HD Hsig Hrun]; intros Hall.
  { split; [done|]. intros j s Hj. simpl in Hj. by rewrite lookup_empty in Hj. }
  apply Forall_app in Hall as [Hall Hc'%Forall_cons]. destruct Hc' as [Hc' _]. destruct (IH Hall) as [HL Hs].
  destruct (call_slot c) as [i|] eqn:Hc.
  - pose proof (runCall_one_slot D c i p p' Hc' Hc Hsig Hrun) as Hone. split; [by rewrite (proj1 Hone)|].
    intros j s Hj. destruct (one_slot_cases _ _ _ _ _ _ Hone Hj) as [Hj'|[-> Hst]]; [by apply Hs|].
    rewrite HL in Hst. etrans; [|exact Hst]. unfold slotOf.
    destruct (mKnownSlots p !! i) as [s0|] eqn:E; simpl; [by apply Hs|by rewrite HL].
  - destruct c; try done; cbn [runCall] in Hrun. split; [by injection Hrun as <-|].
    intros j s Hj. by eapply Hs, purge_known.
Qed.

(** C22: the slots of a node are independent.  After any history of calls each known
    slot is in a state that the operations on that slot alone, the restoration of a
    saved state among them, could reach from a new slot of that index.  When no saved
    state was restored and the local quorum set stayed, the slot is one that the
    operations of [SlotProps] reach: what holds of every history of a slot holds of
    every slot of the node. *)
Theorem scp_slots_reachable (L : LocalNode) (calls : list ScpCall) (p : SCP) (i : Z) (s : Slot) :
  scp_history L calls p → mKnownSlots p !! i = Some s →
  (∃ L0, rtc slot_change (initSlot L0 i) s) ∧ (Forall ordinary calls → reachable L i s).
Proof.
  intros Hh Hs. split; [by eapply scp_history_inv|]. intros Hall.
  by apply (scp_history_ordinary L calls p Hh Hall).
Qed.

(** ** A validator that works on two slots *)

Import Examples.

Definition nominate5 : ScpCall := CallNominate 10 5 [9] [1].
Definition nominate6 : ScpCall := CallNominate 10 6 [8] [9].

Definition after_call (c : ScpCall) (p : SCP) : SCP :=
  match runCall (driverOf qset1) c p with Ok (_, p') => p' | Throw _ => p end.

Definition scp56 : SCP := after_call nominate6 (after_call nominate5 (initSCP node1)).

Lemma scp56_history : scp_history node1 [nominate5; nominate6] scp56.
Proof.
  apply (scp_history_call node1 [nominate5] (after_call nominate5 (initSCP node1)) (driverOf qset1) nominate6).
  - apply (scp_history_call node1 [] (initSCP node1) (driverOf qset1) nominate5).
    + apply scp_history_new.
    + apply _.
    + exact I.
    + vm_compute. reflexivity.
  - apply _.
  - exact I.
  - vm_compute. reflexivity.
Qed.

Lemma scp_slots_reachable_witness :
  match mKnownSlots scp56 !! 5 with
  | Some s => n_decided (abs s) = [[9]] ∧ reachable node1 5 s
  | None => False
  end.
Proof.
  pose proof (scp_slots_reachable node1 [nominate5; nominate6] scp56 5) as H.
  destruct (mKnownSlots scp56 !! 5) as [s|] eqn:E; [|vm_compute in E; discriminate E].
  destruct (H s scp56_history eq_refl) as [_ Hr].
  split; [|by apply Hr; repeat constructor].
  revert E. vm_compute. by intros [= <-].
Defined.
