(* ===== verification/Agreement.v ===== *)
(** * Agreement between nodes

    A network of nodes that run the code of [Ballot] and [Nomination] on one slot, among nodes
    that may do anything.  If any two quorums of the well-behaved nodes share a
    well-behaved node, no two well-behaved nodes externalize different values,
    whatever the order of the operations, the messages lost, delayed or
    duplicated, and the statements made up by the other nodes. *)

From stdpp Require Import functions.
From S2P Require Import Prelude StateMonad QuorumSet ScpTypes Ballot BallotOrder.
From S2P Require Import BallotVote BallotSpec BallotRefine Nomination NominationFrame.
From S2P Require Import SlotProps.

(** ** What a step of a node changes *)

Section node.
Context (D : SCPDriver) (L : LocalNode) (idx : Z) (incoming : BallotStatement → Prop).
Implicit Types (n : Node).

Lemma raise_node_signed h n : n_signed (raise_node h n) = n_signed n.
Proof. unfold raise_node. by case_match. Qed.

Lemma enter_confirm_signed h n : n_signed (enter_confirm_node h n) = n_signed n.
Proof. unfold enter_confirm_node. case_match; [by case_match|done]. Qed.

Lemma step_signed n n' :
  node_step D L idx incoming n n' →
  n_signed n' = n_signed n ∨
  ∃ pl, says L n pl ∧ n' = sign_node (mkStatement (getNodeID L) idx pl) n.
Proof.
  destruct 1; try (by left); [..|eauto]; left; unfold confirm_prepared_node,
    accept_commit_node, confirm_commit_node; simpl;
    by rewrite ?raise_node_signed, ?enter_confirm_signed.
Qed.

Lemma step_latest n n' :
  node_step D L idx incoming n n' →
  n_M n' = n_M n ∨
  ∃ env, (incoming (getStatement env) ∨ getStatement env ∈ n_signed n) ∧
         n' = record_node env n.
Proof.
  destruct 1; try (by left); [..|eauto]; left; unfold confirm_prepared_node,
    accept_commit_node, confirm_commit_node; simpl;
    by rewrite ?raise_node_M, ?enter_confirm_M.
Qed.

Lemma step_externalize n n' :
  node_step D L idx incoming n n' → n_phase n' = SCP_PHASE_EXTERNALIZE →
  n_phase n = SCP_PHASE_EXTERNALIZE ∨
  n_M n' = n_M n ∧ ∃ c0 c h k,
    n_phase n = SCP_PHASE_CONFIRM ∧ n_c n = Some c0 ∧ value h = value c0 ∧
    federatedRatify D L
      (commitPredicate (mkSCPBallot k (value h)) (counter c, counter h)) (n_M n) = true.
Proof.
  intros Hst. destruct Hst as [| | |n c h Hph| n c h Hph (c0 & Hc0 & Hv) Hz Hlc [k Hk]| | |];
    simpl; auto.
  - unfold confirm_prepared_node. rewrite raise_node_phase. auto.
  - unfold accept_commit_node. by rewrite raise_node_phase, enter_confirm_phase.
  - intros _. right. split; [unfold confirm_commit_node; simpl; by rewrite raise_node_M|].
    exists c0, c, h, k. destruct Hlc. split_and!; try done. congruence.
Qed.

(** What a well-behaved node's statements say of its state. *)
Definition signed_by n (st : BallotStatement) : Prop :=
  nodeID st = getNodeID L ∧
  match pledges st with
  | SCP_ST_PREPARE p => True
  | SCP_ST_CONFIRM c =>
      conf_quorumSetHash c = getQuorumSetHash L ∧ locked n (value (conf_ballot c))
  | SCP_ST_EXTERNALIZE e =>
      n_phase n = SCP_PHASE_EXTERNALIZE ∧ locked n (value (ext_commit e))
  end.

Lemma signed_by_mono n n' st :
  node_inv n → node_step D L idx incoming n n' → signed_by n st → signed_by n' st.
Proof.
  intros Hinv Hst [Hid Hp]. split; [done|]. destruct (pledges st); [done|..].
  - destruct Hp. eauto using step_locked.
  - destruct Hp as [Hph Hl]. split; [|eauto using step_locked].
    pose proof (step_phase _ _ _ _ _ _ Hst) as Hr. rewrite Hph in Hr. by destruct (n_phase n').
Qed.

Lemma says_signed_by n pl : node_inv n → says L n pl → signed_by n (mkStatement (getNodeID L) idx pl).
Proof.
  intros Hinv Hs. split; [done|]. unfold says in Hs. simpl.
  destruct (n_phase n) eqn:Hph, pl as [p|cf|e]; try done.
  - destruct Hs as (b & p & c & h & Hb & _ & Hc & Hh & ->). simpl. split; [done|].
    split; [congruence|]. exists c. split; [done|].
    destruct (inv_c _ Hinv c Hc) as (h' & Hh' & [Hch _]).
    destruct (inv_h _ Hinv h' Hh') as (b' & Hb' & [Hhb _]). congruence.
  - destruct Hs as (c & h & Hc & Hh & ->). split; [done|]. split; [congruence|eauto].
Qed.

Lemma step_signed_by n n' :
  node_inv n → (∀ st, st ∈ n_signed n → signed_by n st) → node_step D L idx incoming n n' →
  ∀ st, st ∈ n_signed n' → signed_by n' st.
Proof.
  intros Hinv Hs Hst st Hin.
  destruct (step_signed _ _ Hst) as [He|(pl & Hpl & ->)].
  - rewrite He in Hin. eapply signed_by_mono; eauto.
  - simpl in Hin. apply elem_of_cons in Hin as [->|Hin].
    + eapply signed_by_mono; [done|done|]. by apply says_signed_by.
    + eapply signed_by_mono; eauto.
Qed.

Lemma step_signed_mono n n' st :
  node_step D L idx incoming n n' → st ∈ n_signed n → st ∈ n_signed n'.
Proof.
  intros [->|(pl & _ & ->)]%step_signed; [done|]. simpl. apply list_elem_of_further.
Qed.
End node.

(** ** A network *)

(** [honest] are the well-behaved nodes, [local n] is how node [n] is configured.
    [U] is a quorum of well-behaved nodes when each of them has a slice in it. *)
Definition quorum_of (honest : gset NodeID) (local : NodeID → LocalNode)
    (U : list NodeID) : Prop :=
  ∀ n, n ∈ U → n ∈ honest → isQuorumSlice (getQuorumSet (local n)) U = true.

Class Network (honest : gset NodeID) (local : NodeID → LocalNode) : Prop := {
  net_id : ∀ n, n ∈ honest → getNodeID (local n) = n;
  net_valid : ∀ n, n ∈ honest → ValidLocalNode (local n);
  (** quorum intersection, despite the other nodes *)
  net_intersection : ∀ U1 U2 v1 v2,
    quorum_of honest local U1 → quorum_of honest local U2 →
    v1 ∈ honest → v1 ∈ U1 → v2 ∈ honest → v2 ∈ U2 →
    ∃ w, w ∈ honest ∧ w ∈ U1 ∧ w ∈ U2
}.

Section network.
Context (honest : gset NodeID) (local : NodeID → LocalNode) `{!Network honest local}.
Context (idx : Z).
Implicit Types (C : NodeID → Node) (n : Node) (v : NodeID).

(** Signatures cannot be forged: a statement of a well-behaved node was signed
    by it. *)
Definition authentic C (st : BallotStatement) : Prop :=
  nodeID st ∈ honest → st ∈ n_signed (C (nodeID st)).

(** A quorum set hash published by a well-behaved node resolves to its quorum
    set. *)
Definition resolves (D : SCPDriver) : Prop :=
  ∀ u q, u ∈ honest → getQSet D (getQuorumSetHash (local u)) = Some q →
         q = getQuorumSet (local u).

(** [v] is in a quorum all well-behaved members of which are committed to [x]. *)
Definition quorum_locked C v (x : Value) : Prop :=
  ∃ U, v ∈ U ∧ quorum_of honest local U ∧ ∀ u, u ∈ U → u ∈ honest → locked (C u) x.

Record net_inv C : Prop := {
  ni_node : ∀ v, v ∈ honest → node_inv (C v);
  ni_signed : ∀ v st, v ∈ honest → st ∈ n_signed (C v) → signed_by (local v) (C v) st;
  ni_latest : ∀ v k e, v ∈ honest → n_M (C v) !! k = Some e →
    nodeID (getStatement e) = k ∧ authentic C (getStatement e);
  ni_ext : ∀ v c, v ∈ honest → n_phase (C v) = SCP_PHASE_EXTERNALIZE →
    n_c (C v) = Some c → quorum_locked C v (value c)
}.

Lemma slice_mono v U U' :
  v ∈ honest → (∀ u, u ∈ U → u ∈ U') →
  isQuorumSlice (getQuorumSet (local v)) U = true →
  isQuorumSlice (getQuorumSet (local v)) U' = true.
Proof. intros Hv. apply isQuorumSlice_mono, well_formed_typed, net_valid, Hv. Qed.

Lemma quorum_of_app U U' :
  quorum_of honest local U → quorum_of honest local U' → quorum_of honest local (U ++ U').
Proof.
  intros HU HU' n Hn Hh. apply elem_of_app in Hn as [Hn|Hn].
  - eapply slice_mono; [done| |by apply HU]. set_solver.
  - eapply slice_mono; [done| |by apply HU']. set_solver.
Qed.

(** The quorums of several nodes together are one. *)
Lemma quorum_locked_union C x (P : NodeID → Prop) (U : list NodeID) :
  (∀ u, u ∈ U → u ∈ honest → P u ∨ quorum_locked C u x) →
  ∃ W, quorum_of honest local W ∧ (∀ w, w ∈ W → w ∈ honest → locked (C w) x) ∧
       ∀ u, u ∈ U → u ∈ honest → P u ∨ u ∈ W.
Proof.
  induction U as [|u U IH]; intros HU.
  { exists []. split_and!; [intros ? []%not_elem_of_nil|set_solver..]. }
  destruct IH as (W & HW & Hl & HP); [set_solver|].
  destruct (decide (u ∈ honest)) as [Hu|Hu]; [|exists W; set_solver].
  destruct (HU u) as [Hp|(W' & Hin & HW' & Hl')]; [set_solver|done|exists W; set_solver|].
  exists (W' ++ W). split; [by apply quorum_of_app|]. set_solver.
Qed.

(** The statements that let a node confirm a commit come from a quorum of
    nodes committed to that value. *)
Lemma ratified_locked C D v b check u e :
  net_inv C → resolves D → v ∈ honest → u ∈ honest → n_M (C v) !! u = Some e →
  commitPredicate b check (getStatement e) = true →
  locked (C u) (value b) ∧
  (getQuorumSetFromStatement D (getStatement e) = Some (getQuorumSet (local u)) ∨
   getQuorumSetFromStatement D (getStatement e) = None ∨
   quorum_locked C u (value b)).
Proof.
  intros [Hn Hs Hl Hx] HD Hv Hu He Hp.
  destruct (Hl v u e Hv He) as [<- Hauth]. specialize (Hauth Hu).
  destruct (Hs _ _ Hu Hauth) as [_ Hst].
  unfold commitPredicate, getQuorumSetFromStatement in *.
  destruct (pledges (getStatement e)) as [p|c|x]; [done|..].
  - destruct Hst as [-> Hlock]. repeat rewrite andb_true_iff in Hp.
    destruct Hp as [[->%compat_spec _] _]. split; [done|].
    destruct (getQSet D _) as [q|] eqn:Eq; [left|by right; left].
    f_equal. by eapply HD.
  - destruct Hst as [Hph Hlock]. apply andb_true_iff in Hp as [Hb%compat_spec _].
    rewrite Hb. split; [done|]. right. right.
    destruct Hlock as (_ & c & Hc & <-). by apply Hx.
Qed.

Lemma confirm_quorum C D v c0 k c h :
  net_inv C → resolves D → TypedDriver D → v ∈ honest →
  n_phase (C v) = SCP_PHASE_CONFIRM → n_c (C v) = Some c0 → value h = value c0 →
  federatedRatify D (local v)
    (commitPredicate (mkSCPBallot k (value h)) (counter c, counter h)) (n_M (C v)) = true →
  quorum_locked C v (value c0).
Proof.
  intros HC HD HT Hv Hph Hc0 Hval Hr. rewrite Hval in Hr. unfold federatedRatify in Hr.
  apply isQuorum_iff in Hr as (U & HU & Hslice);
    [|intros e q; by apply qfun_typed|by apply well_formed_typed, net_valid].
  set (P := λ u, locked (C u) (value c0) ∧ isQuorumSlice (getQuorumSet (local u)) U = true).
  destruct (quorum_locked_union C (value c0) P U) as (W & HW & Hl & HP).
  { intros u Hin Hu. destruct (HU u Hin) as (e & q & He & Hf & Hq & Hs).
    destruct (ratified_locked _ _ _ _ _ _ _ HC HD Hv Hu He Hf) as [Hlock [E|[E|E]]];
      [left|congruence|by right].
    split; [done|]. congruence. }
  exists (v :: U ++ W). split; [left|]. split.
  - intros u Hin Hu. apply elem_of_cons in Hin as [->|[Hin|Hin]%elem_of_app].
    + eapply slice_mono; [done| |done]. set_solver.
    + destruct (HP u Hin Hu) as [[_ ?]|?]; (eapply slice_mono; [done| |]); [|done| |by apply HW];
        set_solver.
    + eapply slice_mono; [done| |by apply HW]. set_solver.
  - intros u Hin Hu. apply elem_of_cons in Hin as [->|[Hin|Hin]%elem_of_app].
    + split; [congruence|eauto].
    + destruct (HP u Hin Hu) as [[? _]|?]; auto.
    + auto.
Qed.

(** ** The invariant is preserved *)

Section step.
Context (C : NodeID → Node) (v : NodeID) (D : SCPDriver) (n' : Node).
Context (HC : net_inv C) (Hv : v ∈ honest) (HT : TypedDriver D) (HD : resolves D).
Context (Hst : node_step D (local v) idx (authentic C) (C v) n').

Lemma step_net_locked u x : u ∈ honest → locked (C u) x → locked (<[v:=n']> C u) x.
Proof.
  intros Hu Hl. destruct (decide (u = v)) as [->|Hne].
  - rewrite fn_lookup_insert. eapply step_locked; [by apply (ni_node C)|exact Hst|done].
  - by rewrite fn_lookup_insert_ne.
Qed.

Lemma step_authentic st : authentic C st → authentic (<[v:=n']> C) st.
Proof.
  intros Ha Hh. specialize (Ha Hh). destruct (decide (nodeID st = v)) as [E|Hne].
  - rewrite E in *. rewrite fn_lookup_insert. eapply step_signed_mono; [exact Hst|done].
  - by rewrite fn_lookup_insert_ne.
Qed.

Lemma step_quorum_locked u x : quorum_locked C u x → quorum_locked (<[v:=n']> C) u x.
Proof.
  intros (U & Hu & HU & Hl). exists U. split_and!; [done|done|].
  intros w Hw Hh. apply step_net_locked; auto.
Qed.

Lemma step_recorded k e :
  n_M n' !! k = Some e →
  nodeID (getStatement e) = k ∧ authentic (<[v:=n']> C) (getStatement e).
Proof.
  intros He. destruct (step_latest _ _ _ _ _ _ Hst) as [HM|(env & Henv & En)].
  { rewrite HM in He. destruct (ni_latest _ HC v k e Hv He). auto using step_authentic. }
  rewrite En in He. simpl in He. apply lookup_insert_Some in He as [[<- <-]|[_ He]].
  - split; [done|]. apply step_authentic. destruct Henv as [?|Hin]; [done|].
    intros _. destruct (ni_signed _ HC v _ Hv Hin) as [-> _]. by rewrite net_id.
  - destruct (ni_latest _ HC v k e Hv He). auto using step_authentic.
Qed.

Lemma step_ext c :
  n_phase n' = SCP_PHASE_EXTERNALIZE → n_c n' = Some c → quorum_locked C v (value c).
Proof.
  intros Hph Hc.
  assert (∀ x, locked (C v) x → x = value c) as Hval.
  { intros x Hl. eapply locked_fun; [eapply step_locked; [by apply (ni_node C)|exact Hst|done]|].
    split; [congruence|eauto]. }
  destruct (step_externalize _ _ _ _ _ _ Hst Hph) as [Hx|(_ & c0 & c' & h & k & Hcf & Hc0 & E & Hr)].
  - destruct (inv_committed _ (ni_node _ HC v Hv)) as (_ & _ & [c0 Hc0] & _); [congruence|].
    rewrite <-(Hval (value c0)); [by apply HC|]. split; [congruence|eauto].
  - rewrite <-(Hval (value c0)); [by eapply confirm_quorum|]. split; [congruence|eauto].
Qed.

Lemma net_inv_step : net_inv (<[v:=n']> C).
Proof.
  split.
  - intros u Hu. destruct (decide (u = v)) as [->|Hne];
      [rewrite fn_lookup_insert|rewrite fn_lookup_insert_ne by done; by apply HC].
    eapply step_inv; [by apply (ni_node C)|exact Hst].
  - intros u st Hu. destruct (decide (u = v)) as [->|Hne];
      [rewrite fn_lookup_insert|rewrite fn_lookup_insert_ne by done; by apply HC].
    eapply step_signed_by; [by apply (ni_node C)|intros ? ?; by apply (ni_signed C)|exact Hst].
  - intros u k e Hu. destruct (decide (u = v)) as [->|Hne];
      [rewrite fn_lookup_insert; apply step_recorded|].
    rewrite fn_lookup_insert_ne by done. intros He.
    destruct (ni_latest _ HC u k e Hu He). auto using step_authentic.
  - intros u c Hu. destruct (decide (u = v)) as [->|Hne];
      [rewrite fn_lookup_insert|rewrite fn_lookup_insert_ne by done];
      intros; apply step_quorum_locked; [by apply step_ext|by apply HC].
Qed.
End step.

Lemma net_inv_ext C C' : (∀ u, C u = C' u) → net_inv C → net_inv C'.
Proof.
  intros HE [Hn Hs Hl Hx]. split.
  - intros v Hv. rewrite <-HE. auto.
  - intros v st Hv. rewrite <-HE. auto.
  - intros v k e Hv. unfold authentic. rewrite <-!HE. by apply Hl.
  - intros v c Hv. rewrite <-HE. intros Hph Hc. destruct (Hx v c Hv Hph Hc) as (U & ? & ? & Hlk).
    exists U. split_and!; [done..|]. intros u. rewrite <-HE. auto.
Qed.

(** All the steps of an operation of one node. *)
Lemma net_inv_steps C v D (P : BallotStatement → Prop) n' :
  v ∈ honest → TypedDriver D → resolves D → net_inv C → (∀ st, P st → authentic C st) →
  rtc (node_step D (local v) idx P) (C v) n' → net_inv (<[v:=n']> C).
Proof.
  intros Hv HT HD HC HP Hst. remember (C v) as n eqn:En. revert C HC HP En.
  induction Hst as [n|n1 n2 n3 H12 _ IH]; intros C HC HP ->.
  - eapply net_inv_ext; [|exact HC]. intros u. destruct (decide (u = v)) as [->|];
      [by rewrite fn_lookup_insert|by rewrite fn_lookup_insert_ne].
  - apply (node_step_mono _ _ _ P (authentic C)) in H12; [|done].
    eapply net_inv_ext; [|apply (IH (<[v:=n2]> C))].
    + intros u. destruct (decide (u = v)) as [->|];
        [by rewrite !fn_lookup_insert|by rewrite !fn_lookup_insert_ne].
    + by eapply net_inv_step.
    + intros st Hp. eapply step_authentic; [exact H12|auto].
    + by rewrite fn_lookup_insert.
Qed.

(** ** The network of slots *)

(** A well-behaved node [v] applies one operation to its slot.  An envelope may be
    handed to it by anyone, if what it contains is authentic. *)
Definition net_step (S S' : NodeID → Slot) : Prop :=
  ∃ v D op s', v ∈ honest ∧ DocumentedDriver D ∧ resolves D ∧
    (∀ st, incoming_of op st → authentic (λ u, abs (S u)) st) ∧
    own_signed (local v) (S v) op ∧
    runOp D (local v) op (S v) = Ok (tt, s') ∧ S' = <[v:=s']> S.

Definition net_init (n : NodeID) : Slot := initSlot (local n) idx.

Record net_ok (S : NodeID → Slot) : Prop := {
  ok_idx : ∀ v, v ∈ honest → mSlotIndex (S v) = idx;
  ok_rest : ∀ v, v ∈ honest → at_rest (local v) (S v);
  ok_inv : net_inv (λ v, abs (S v))
}.

Lemma net_ok_init : net_ok net_init.
Proof.
  split; [done|..].
  - intros v _. apply at_rest_init.
  - split; simpl.
    + intros v _. apply init_node_inv.
    + intros v st _ Hin. by apply not_elem_of_nil in Hin.
    + intros v k e _. by rewrite lookup_empty.
    + done.
Qed.

Lemma net_ok_step S S' : net_step S S' → net_ok S → net_ok S'.
Proof.
  intros (v & D & op & s' & Hv & HT & HD & Hauth & Hown & Hrun & ->) [Hi Hr HC].
  pose proof (net_valid v Hv). pose proof (runOp_op_ev _ _ _ _ _ HT (Hr v Hv) Hown Hrun) as Hev.
  split.
  - intros u Hu. destruct (decide (u = v)) as [->|];
      [rewrite fn_lookup_insert, (ballot_idx _ _ _ _ _ (op_ballot _ _ _ _ _ Hev)); auto|by rewrite fn_lookup_insert_ne; auto].
  - intros u Hu. destruct (decide (u = v)) as [->|];
      [rewrite fn_lookup_insert; by eapply op_ev_at_rest; [apply Hr|]
      |by rewrite fn_lookup_insert_ne; auto].
  - eapply net_inv_ext; [|eapply (net_inv_steps _ v D (incoming_of op) (abs s') Hv _ HD HC)];
      [|done|].
    + intros u. destruct (decide (u = v)) as [->|];
        [by rewrite !fn_lookup_insert|by rewrite !fn_lookup_insert_ne].
    + pose proof (ballot_steps _ _ _ _ _ (op_ballot _ _ _ _ _ Hev)) as Hsteps. by rewrite (Hi v Hv) in Hsteps.
Qed.

Lemma net_ok_steps S S' : rtc net_step S S' → net_ok S → net_ok S'.
Proof. induction 1; eauto using net_ok_step. Qed.

Lemma decided_locked S v x :
  net_ok S → v ∈ honest → x ∈ n_decided (abs (S v)) →
  quorum_locked (λ u, abs (S u)) v x.
Proof.
  intros [_ Hr HC] Hv Hx.
  destruct (inv_decided _ (ni_node _ HC v Hv)) as [E|(Hph & c & Hc & E)]; rewrite E in Hx.
  - by apply not_elem_of_nil in Hx.
  - apply list_elem_of_singleton in Hx as ->. by apply (ni_ext _ HC).
Qed.

Lemma decided_same (S : NodeID → Slot) v1 v2 x1 x2 :
  rtc net_step net_init S → v1 ∈ honest → v2 ∈ honest →
  x1 ∈ n_decided (abs (S v1)) → x2 ∈ n_decided (abs (S v2)) → x1 = x2.
Proof.
  intros Hst Hv1 Hv2 Hx1 Hx2. pose proof (net_ok_steps _ _ Hst net_ok_init) as HS.
  destruct (decided_locked S v1 x1) as (U1 & Hin1 & HU1 & Hl1); [done..|].
  destruct (decided_locked S v2 x2) as (U2 & Hin2 & HU2 & Hl2); [done..|].
  destruct (net_intersection U1 U2 v1 v2) as (w & Hw & Hw1 & Hw2); [done..|].
  exact (locked_fun _ _ _ (Hl1 w Hw1 Hw) (Hl2 w Hw2 Hw)).
Qed.
End network.

(** C1: agreement.  In a network where the quorums of well-behaved nodes intersect
    despite the other nodes, whatever the operations the well-behaved nodes
    performed on the slot and whatever authentic statements they received in
    whatever order, no two of them told their drivers to externalize different
    values. *)
Theorem agreement (honest : gset NodeID) (local : NodeID → LocalNode) (idx : Z)
    (S : NodeID → Slot) (v1 v2 : NodeID) (x1 x2 : Value) :
  Network honest local →
  rtc (net_step honest local) (net_init local idx) S →
  v1 ∈ honest → v2 ∈ honest →
  x1 ∈ n_decided (abs (S v1)) → x2 ∈ n_decided (abs (S v2)) → x1 = x2.
Proof. intros HN Hst. by apply (decided_same honest local idx). Qed.

(** ** Three validators *)

Import Examples.

Module ThreeValidators.
Definition honest3 : gset NodeID := {[ [1]; [2]; [3] ]}.
Definition local3 (n : NodeID) : LocalNode := mkLocalNode n true qset3 [7].

(** One operation, if the statement it brings in is authentic. *)
Definition authenticb (S : NodeID → Slot) (op : SlotOp) : bool :=
  match op with
  | ReceiveEnvelope w =>
      match split_envelope w with
      | inl env =>
          let st := getStatement env in
          bool_decide (nodeID st ∈ honest3 → st ∈ n_signed (abs (S (nodeID st))))
      | inr _ => false
      end
  | _ => true
  end.

Definition exec1 (S : NodeID → Slot) (vop : NodeID * SlotOp) : option (NodeID → Slot) :=
  if bool_decide (vop.1 ∈ honest3) && authenticb S vop.2 then
    match runOp (driverOf qset3) (local3 vop.1) vop.2 (S vop.1) with
    | Ok (_, s') => Some (<[vop.1:=s']> S)
    | Throw _ => None
    end
  else None.

(** [v] receives everything [u] has signed so far, oldest first. *)
Definition deliver (S : NodeID → Slot) (u v : NodeID) : option (NodeID → Slot) :=
  foldl (λ acc st, S' ← acc; exec1 S' (v, ReceiveEnvelope (mkWrapper 0 (mkEnvelope (map_statement inl st) []))))
    (Some S) (reverse (n_signed (abs (S u)))).

Lemma exec1_step S vop S' : exec1 S vop = Some S' → net_step honest3 local3 S S'.
Proof.
  unfold exec1. destruct vop as [v op]. simpl.
  destruct (bool_decide (v ∈ honest3)) eqn:Hv; [|done]. apply bool_decide_eq_true in Hv.
  destruct (authenticb S op) eqn:Ha; [|done]. simpl.
  destruct (runOp _ _ _ _) as [[[] s']|e] eqn:Hrun; [|done]. intros [= <-].
  exists v, (driverOf qset3), op, s'. split_and!; try done; [apply _|..].
  - intros u q _. simpl. by intros [= <-].
  - destruct op; simpl in *; try done. destruct (split_envelope env); [|done].
    intros st <-. by apply bool_decide_eq_true in Ha.
  - destruct op; simpl in *; try done. by destruct (split_envelope env).
Qed.

Lemma deliver_steps S u v S' : deliver S u v = Some S' → rtc (net_step honest3 local3) S S'.
Proof.
  unfold deliver. generalize (reverse (n_signed (abs (S u)))). intros sts. revert S.
  induction sts as [|st sts IH]; intros S; simpl; [by intros [= <-]|].
  destruct (exec1 S _) as [S1|] eqn:E; simpl.
  - intros HS. eapply rtc_l; [by eapply exec1_step|]. by apply IH.
  - clear. intros HS. exfalso. by induction sts.
Qed.
End ThreeValidators.

Import ThreeValidators.

Module ThreeValidatorsRun.
Lemma slice3 U :
  isQuorumSlice qset3 U = true →
  [1] ∈ U ∧ [2] ∈ U ∨ [1] ∈ U ∧ [3] ∈ U ∨ [2] ∈ U ∧ [3] ∈ U.
Proof.
  unfold isQuorumSlice, qset3. cbn [isQuorumSliceInternal map].
  destruct (found U [1]) eqn:E1, (found U [2]) eqn:E2, (found U [3]) eqn:E3; try done; intros _;
    repeat match goal with H : found _ _ = true |- _ => apply bool_decide_eq_true in H end; auto.
Qed.

#[export] Instance network3 : Network honest3 local3.
Proof.
  split; [done|..].
  - intros n _. apply node3_valid.
  - intros U1 U2 v1 v2 H1 H2 Hv1 Hin1 Hv2 Hin2.
    pose proof (slice3 U1 (H1 v1 Hin1 Hv1)). pose proof (slice3 U2 (H2 v2 Hin2 Hv2)).
    assert ([1] ∈ honest3 ∧ [2] ∈ honest3 ∧ [3] ∈ honest3) as (? & ? & ?) by set_solver.
    naive_solver.
Qed.

(** Nodes 1 and 2 vote for the same ballot and exchange their statements. *)
Definition start : NodeID → Slot := net_init local3 5.
Definition run : option (NodeID → Slot) :=
  S ← exec1 start ([1], BumpState [9] false);
  S ← exec1 S ([2], BumpState [9] false);
  S ← deliver S [1] [2]; S ← deliver S [2] [1]; S ← deliver S [1] [2];
  S ← deliver S [2] [1]; S ← deliver S [1] [2]; deliver S [2] [1].

Definition final : NodeID → Slot := default start run.

Lemma final_reachable : rtc (net_step honest3 local3) start final.
Proof.
  assert (∃ S, run = Some S) as [S HS].
  { destruct run eqn:E; [by eauto|]. exfalso. revert E. vm_compute. done. }
  unfold final. rewrite HS. simpl. unfold run in HS.
  apply bind_Some in HS as (S1 & H1%exec1_step & HS).
  apply bind_Some in HS as (S2 & H2%exec1_step & HS).
  eapply rtc_l; [exact H1|]. eapply rtc_l; [exact H2|]. clear H1 H2.
  repeat (apply bind_Some in HS as (? & ?%deliver_steps & HS); etrans; [eassumption|]).
  by eapply deliver_steps.
Qed.
End ThreeValidatorsRun.
Import ThreeValidatorsRun.

Lemma agreement_witness :
  [9] ∈ n_decided (abs (final [1])) ∧ [9] ∈ n_decided (abs (final [2])) ∧
  ([9] : Value) = ([9] : Value).
Proof.
  assert (n_decided (abs (final [1])) = [[9]]) as H1 by (vm_compute; reflexivity).
  assert (n_decided (abs (final [2])) = [[9]]) as H2 by (vm_compute; reflexivity).
  rewrite H1, H2. split; [left|]. split; [left|].
  apply (agreement honest3 local3 5 final [1] [2]).
  - apply network3.
  - apply final_reachable.
  - set_solver.
  - set_solver.
  - rewrite H1. left.
  - rewrite H2. left.
Defined.
