(* ===== verification/NetworkCheck.v ===== *)
(** * A network that passes the check agrees

    The quorum intersection checker discharges the interface under which the nodes
    of a network agree. *)

From S2P Require Import Prelude QuorumSet QuorumSetProps QuorumTracker BitSet QuorumIntersection QuorumIntersectionProps ScpTypes Ballot BallotSpec BallotRefine SlotProps Agreement.
Open Scope Z_scope.

(** The slice of a quorum set only depends on the nodes it names. *)
Lemma slice_sat_named q U U' :
  (∀ a, a ∈ qset_nodes q → a ∈ U ↔ a ∈ U') → slice_sat q U = slice_sat q U'.
Proof.
  induction q as [t v i IH] using qset_nested_ind. intros HU. cbn [slice_sat]. rewrite Forall_forall in IH. f_equal. f_equal.
  - f_equal. apply map_ext_elem. intros a Ha. unfold found. apply bool_decide_ext, HU. cbn. apply elem_of_app. by left.
  - f_equal. apply map_ext_elem. intros x Hx. apply IH; [done|]. intros a Ha. apply HU. by eapply qset_nodes_inner.
Qed.

(** The map describes the nodes of the network: all of them are well-behaved and run
    with the quorum set of the map, and quorum sets name no others. *)
Record describes (qmap : list (NodeID * NodeInfo)) (local : NodeID → LocalNode) : Prop := {
  ds_keys : NoDup qmap.*1;
  ds_size : (length qmap ≤ 64)%nat;
  ds_sane a qs : (a, qs) ∈ known qmap → isQuorumSetSane qs false = true;
  ds_local a qs : (a, qs) ∈ known qmap → getNodeID (local a) = a ∧ getQuorumSet (local a) = qs;
  ds_closed a qs c : (a, qs) ∈ known qmap → c ∈ qset_nodes qs → c ∈ (known qmap).*1
}.

Definition well_behaved (qmap : list (NodeID * NodeInfo)) : gset NodeID := list_to_set (known qmap).*1.

Section checked.
Context (qmap : list (NodeID * NodeInfo)) (local : NodeID → LocalNode).
Hypothesis (Hd : describes qmap local).

Lemma well_behaved_known a : a ∈ well_behaved qmap ↔ (a, getQuorumSet (local a)) ∈ known qmap.
Proof.
  unfold well_behaved. rewrite elem_of_list_to_set, list_elem_of_fmap. split; [|by exists (a, getQuorumSet (local a))].
  intros ([a' qs] & -> & Hin). cbn. by destruct (ds_local _ _ Hd a' qs Hin) as [_ ->].
Qed.

Lemma sane_well_formed qs : isQuorumSetSane qs false = true → well_formed qs.
Proof. intros (_ & Hl & _)%sane_inv. eapply levels_impl; [|exact Hl]. intros t n. widths. lia. Qed.

(** The well-behaved nodes of a quorum of the protocol are a quorum of the network. *)
Lemma quorum_of_network U v :
  quorum_of (well_behaved qmap) local U → v ∈ well_behaved qmap → v ∈ U →
  network_quorum qmap (filter (.∈ well_behaved qmap) U).
Proof.
  intros HU Hv Hin. split.
  { intros E. assert (v ∈ filter (.∈ well_behaved qmap) U) as Hf by (by apply list_elem_of_filter).
    rewrite E in Hf. by apply not_elem_of_nil in Hf. }
  intros a [Ha HaU]%list_elem_of_filter. pose proof (proj1 (well_behaved_known a) Ha) as Hk. exists (getQuorumSet (local a)).
  split; [done|]. pose proof (HU a HaU Ha) as Hs. pose proof (well_formed_typed _ (sane_well_formed _ (ds_sane _ _ Hd _ _ Hk))) as Ht.
  rewrite isQuorumSlice_sat in Hs |- * by done. rewrite <- Hs. apply slice_sat_named. intros c Hc.
  rewrite list_elem_of_filter. unfold well_behaved. rewrite elem_of_list_to_set.
  pose proof (ds_closed _ _ Hd _ _ c Hk Hc). tauto.
Qed.

Lemma checked_network randZero split :
  checkIntersection (B:=BitSet) randZero qmap = Ok (true, split) → Network (well_behaved qmap) local.
Proof.
  intros Hrun. split.
  - intros a Ha%well_behaved_known. by apply (ds_local _ _ Hd a _ Ha).
  - intros a Ha%well_behaved_known. apply sane_well_formed. by apply (ds_sane _ _ Hd a).
  - intros U1 U2 v1 v2 HU1 HU2 Hv1 Hin1 Hv2 Hin2.
    destruct (check_spec (B:=BitSet) qmap (ds_keys _ _ Hd) (ds_size _ _ Hd) (ds_sane _ _ Hd) randZero) as (answer & sp & Hr & Hspec).
    rewrite Hrun in Hr. injection Hr as <- <-.
    destruct (Hspec _ _ (quorum_of_network U1 v1 HU1 Hv1 Hin1) (quorum_of_network U2 v2 HU2 Hv2 Hin2)) as (w & [? ?]%list_elem_of_filter & [? ?]%list_elem_of_filter).
    by exists w.
Qed.
End checked.

(** C2: a network of at most 64 well-behaved nodes that passes the quorum intersection
    check agrees.  The checker is given the quorum set of every node, all of them sane
    and naming only nodes of the network; when it answers yes, then whatever the nodes
    did on a slot and whatever authentic statements they received, no two of them
    externalized different values.  (With more nodes the checker may fail: its bit
    sets hand memory they do not own to [realloc].) *)
Theorem checked_network_agrees (randZero : BitSet → BitSet → nat → bool) (qmap : list (NodeID * NodeInfo))
    (local : NodeID → LocalNode) split (idx : Z) (S : NodeID → Slot) (v1 v2 : NodeID) (x1 x2 : Value) :
  NoDup qmap.*1 → (length qmap ≤ 64)%nat →
  (∀ a qs, (a, qs) ∈ known qmap → isQuorumSetSane qs false = true) →
  (∀ a qs, (a, qs) ∈ known qmap → getNodeID (local a) = a ∧ getQuorumSet (local a) = qs) →
  (∀ a qs c, (a, qs) ∈ known qmap → c ∈ qset_nodes qs → c ∈ (known qmap).*1) →
  checkIntersection randZero qmap = Ok (true, split) →
  rtc (net_step (well_behaved qmap) local) (net_init local idx) S →
  v1 ∈ well_behaved qmap → v2 ∈ well_behaved qmap →
  x1 ∈ n_decided (abs (S v1)) → x2 ∈ n_decided (abs (S v2)) → x1 = x2.
Proof.
  intros H1 H2 H3 H4 H5 Hrun. assert (describes qmap local) as Hd by (by split).
  pose proof (checked_network qmap local Hd randZero split Hrun).
  by apply (decided_same (well_behaved qmap) local idx).
Qed.

(** ** Three validators *)

Import Examples ThreeValidators ThreeValidatorsRun.

Definition qmap3 : list (NodeID * NodeInfo) := uniform qset3 [[1]; [2]; [3]].

Lemma qmap3_nodes : well_behaved qmap3 = honest3.
Proof. by vm_compute. Qed.

Lemma qmap3_describes : describes qmap3 local3.
Proof.
  assert (known qmap3 = [([1], qset3); ([2], qset3); ([3], qset3)]) as E by (by vm_compute).
  split; rewrite ?E.
  - apply (bool_decide_unpack _). by vm_compute.
  - vm_compute. lia.
  - intros a qs Hin. assert (qs = qset3) as -> by set_solver. by vm_compute.
  - intros a qs Hin. split; [done|]. cbn. set_solver.
  - intros a qs c Hin. assert (qs = qset3) as -> by set_solver. done.
Qed.

Lemma checked_network_agrees_witness :
  checkIntersection (λ _ _ _, true) qmap3 = Ok (true, ([], [])) ∧
  [9] ∈ n_decided (abs (final [1])) ∧ [9] ∈ n_decided (abs (final [2])) ∧ ([9] : Value) = ([9] : Value).
Proof.
  assert (checkIntersection (λ _ _ _, true) qmap3 = Ok (true, ([], []))) as Hrun by (by vm_compute).
  assert (n_decided (abs (final [1])) = [[9]]) as H1 by (vm_compute; reflexivity).
  assert (n_decided (abs (final [2])) = [[9]]) as H2 by (vm_compute; reflexivity).
  split; [exact Hrun|]. rewrite H1, H2. split; [left|]. split; [left|].
  apply (checked_network_agrees (λ _ _ _, true) qmap3 local3 ([], []) 5 final [1] [2]).
  - apply qmap3_describes.
  - apply qmap3_describes.
  - apply qmap3_describes.
  - apply qmap3_describes.
  - apply qmap3_describes.
  - exact Hrun.
  - rewrite qmap3_nodes. apply final_reachable.
  - rewrite qmap3_nodes. set_solver.
  - rewrite qmap3_nodes. set_solver.
  - rewrite H1. left.
  - rewrite H2. left.
Defined.
